(* ===== verification/_CoqProject ===== *)
-Q . S2P
Prelude.v
Wire.v
Ipfs.v
Artifacts.v
CommitmentChunk.v
MerkleCheckpointChunk.v
WalletScanChunk.v
PublicTxidChunk.v
Paging.v
ChainLogs.v
LogFilters.v
ActionFrames.v
ActionGrammar.v
OutputMatch.v
Calldata.v
Order.v
PoiStore.v
Runtime.v
Status.v
ScrapeWorker.v
Orchestrator.v
OrchestratorCorrect.v
Traces.v
Hydrate.v
ChainStore.v
ChainIndexer.v
IndexingLoop.v
StoreQueries.v
Migrations.v
MigrationStatements.v
MigrationsCorrect.v
AuditLog.v
Retention.v
Publication.v
PublicationSafety.v
PubLogic.v
ManifestLog.v
Catalog.v
CatalogComplete.v
CommitmentCatalog.v
CatalogRun.v
TimestampBackfill.v
BackfillCorrect.v
PoiCorpus.v
PoiGraph.v
PoiGraphCorrect.v
StatusSummary.v
PoiCycle.v
IndexedCycle.v
IndexedCycleCorrect.v
PublicationRuns.v
CanonicalLease.v
SquidParity.v
SquidParityCorrect.v
SquidAccepts.v
TxidParity.v
TxidParityCorrect.v
TxidParityRun.v
Config.v
Filebase.v
TxidRange.v
TxidRangeCorrect.v
LegacyShields.v
Ipns.v
IpnsProtocol.v
IpnsCorrect.v
IpnsRun.v
