(* ===== verification/Prelude.v ===== *)
(** * A verification development for railgun-indexer

    ** The program

    railgun-indexer publishes data of the Railgun contracts. Its POI half
    mirrors a POI node: one scrape worker per (list, chain) pair pages signed
    events into Postgres ([scrape/worker.rs], [store.rs]). Its chain half reads
    the contract's logs over RPC, rebuilds the Railgun transactions of each
    outer transaction, and persists them block range by block range
    ([chain_logs.rs], [chain_indexer.rs], [chain_indexed.rs], [store.rs]). Two
    publication schedulers ([main.rs], [chain_indexed.rs]) read the tables,
    encode chunks, checkpoints and manifests ([commitments.rs],
    [wallet_scan.rs], [public_txid.rs], [merkle_checkpoint.rs]), pin them
    ([publish/ipfs.rs]) and record what they pinned ([audit.rs]); a retention
    sweep unpins what is no longer referenced. Parity verifiers
    ([bin/verify_*.rs]) read the published chunks back.

    Paths below are relative to [src/crates/railgun-indexer-core/src] and, for
    [main.rs], [chain_indexed.rs] and [bin/], [src/bins/railgun-indexer/src].

    ** Files

    Prelude: results and their monad, machine integers, byte encodings,
    sorting, automation. Order: [Ord] as a class. Wire: the writers of the
    chunk encoders and the cursors of the verifiers. Artifacts: the types and
    operations of the artifact crate.

    POI half.
    - PoiStore: the POI tables and queries of [store.rs].
    - Status: the pairs of the sync status of [status.rs]; StatusSummary: its
      publication and retention summaries.
    - Paging: [scrape/page_size.rs] and [scrape/retry.rs].
    - ScrapeWorker: [scrape/worker.rs], over PoiStore, Status and Paging.
    - Orchestrator, OrchestratorCorrect: [scrape/orchestrator.rs], the workers
      of all pairs under a schedule.

    Chain half.
    - LogFilters, ChainLogs: fetching and ingesting logs, tree positions.
    - ActionFrames, ActionGrammar: rebuilding transactions from Action logs, a
      stack machine, and the grammar of call forests it implements.
    - Calldata, Traces: transactions from calldata and from both trace formats.
    - OutputMatch: positions of the outputs of rebuilt transactions.
    - Hydrate: timestamps and public transaction rows of a batch.
    - ChainStore, StoreQueries: the chain tables of [store.rs]: persisting,
      progress, headers and rewinding; the read queries of the publishers.
    - Migrations, MigrationStatements, MigrationsCorrect: the schema migrations of
      [store.rs]: an interpreter for their SQL, the statements of all versions
      as data, and what a run keeps.
    - ChainIndexer: one indexing step with its reorganisation handling
      ([chain_indexer.rs], [index_chain_once], [resume_block_after_reorg]) and
      the adaptive batch span.
    - IndexingLoop: [run_chain_indexing_loop], its waits and websocket wake-ups.
    - TimestampBackfill, BackfillCorrect: the timestamp repair of [store.rs] and
      [bin/backfill_indexed_log_timestamps.rs].
    - LegacyShields: [bin/backfill_legacy_shields.rs].

    Publication.
    - CommitmentChunk, WalletScanChunk, PublicTxidChunk,
      MerkleCheckpointChunk: encoders and the verifiers' readers.
    - Catalog: the chain-indexed catalogs of [chain_indexed.rs]: which rows go
      into which chunk, and the catalog descriptor. CatalogComplete and
      CommitmentCatalog: the catalogs of one chain hold every stored row;
      CatalogRun: a run on concrete tables.
    - Ipfs, Filebase: [publish/ipfs.rs], [MultiPinner] and the Filebase client
      over an S3 bucket.
    - AuditLog, Retention: [audit.rs], its tables and transactions, the sweep.
    - Publication, PublicationSafety: pinning, recording, activating,
      reconciling and cleaning up in both publishers, and their composition
      with the sweep. PubLogic: triples for that monad. ManifestLog: what the
      recorded manifests of both channels promise.
    - PoiCorpus: [poi_v4.rs], the replay of a list and its event artifacts.
      PoiGraph: the POI publisher of [main.rs], from the entry of a list to a
      whole cycle, with [snapshot/lifecycle.rs] and [publication_sequence.rs].
      PoiGraphCorrect: what an entry holds; PoiCycle: a cycle keeps the promises.
    - IndexedCycle, IndexedCycleCorrect: the same for the chain-indexed publisher
      of [chain_indexed.rs]. PublicationRuns: runs of both publishers together.
    - CanonicalLease: the indexing tasks, the chain-indexed publisher and the IPNS
      task under the canonicality lease of [audit.rs].

    Runtime: the background tasks of [main.rs] and their shutdown, with the pin
    ownership of [audit.rs].

    Parity verifiers.
    - SquidParity: [bin/verify_indexed_squid_parity.rs], from the chunks and
      the Squid pages to the verdict. SquidParityCorrect: what the verdict
      means; SquidAccepts: the publisher's chunks pass it.
    - TxidParity: [bin/verify_txid_parity.rs] with its cache files.
      TxidParityCorrect, TxidParityRun: the cache over runs, and the verdict.
    - TxidRange, TxidRangeCorrect: [bin/verify_txid_range.rs], the same
      comparison over a block range fetched in chunks of blocks.

    Config: [config.rs], the defaults and the validation of a configuration.

    IPNS ([publish/ipns.rs]). Ipns: the publisher task, its queue and timers,
    records and resolution. IpnsProtocol: the task as a protocol of actions in
    time; IpnsCorrect: its invariants; IpnsRun: what a run promises.

    ** How code is modelled

    A fallible function returns [result]; [?] is the monadic bind. Integers are
    [Z]; [checked_], [saturating_] and [try_from] operations carry their bound.
    Words of 32 bytes are integers in the chain half and byte lists in the
    encoders. A table is a finite map from its primary key (PoiStore,
    ChainStore) or, where row order and duplicates matter, the list of its
    rows (AuditLog); a transaction is a function on the tables. Async code that
    threads a state is a state-and-error monad with a weakest-precondition
    calculus (ScrapeWorker, Publication). What is outside the repository is a
    parameter: libp2p and its DHT, the upstream node, the RPC provider, the clock and the shutdown
    channel are functions or oracles; the crates (artifact codec, contract ABI,
    Poseidon, CIDs, JSON, hex) are classes, and the few laws used of them are
    fields of the class or hypotheses of the theorem.

    ** What is proved

    - Refinement: the Action log machine accepts exactly the logs of
      well-formed call forests; the status document says what the reports of a
      pair say; the two trace formats agree with the call tree; the sparse Merkle root equals
      the dense one.
    - Ingestion: logs are fetched once each and in order (whether a legacy batch
      in the first v2 block is fetched depends on where the range starts), leaf
      positions are consecutive, hydration is complete and independent of map order.
    - Storage: event logs are append-only initial segments, sequences increase,
      a rewind deletes exactly the rows of its contract from its block on and so
      undoes what was persisted since, one indexing step keeps every dataset at one block and commits exactly its
      range.
    - Reading back: ranges and pages of the store queries return exactly the
      stored rows; published chunks are read by the verifiers as the rows they
      were made of; the chunks of a catalog cover every stored row once and
      in order, for commitments, wallet-scan rows and public TXIDs.
    - Repair: the timestamp backfill ends, only fills in missing timestamps,
      and with the archive node as source leaves none of its range missing.
    - Runs: a scrape run against a finite upstream ends and catches up, alone
      and with the workers of all pairs interleaved; retry and paging are
      bounded; a chain's indexing loop catches up whatever steps fail between
      the successful ones.
    - Publication: whatever calls fail and however publishers, sweep and
      shutdown interleave, every chain-indexed manifest that is not superseded and
      every announced POI manifest stays pinned with its artifacts; a POI manifest
      not announced yet can lose artifacts a sweep unpinned and could not commit,
      and is then abandoned; the sweep is safe and complete.
    - POI documents: a replayed list is numbered, signed and has the expected
      root; the chunks a published catalog names, in its order, and the tail hold
      each of its events once, sealed chunks keep their bytes, bridges lead to the current checkpoint. Over any
      run of publication cycles of both channels with restarts, sweeps and failing
      calls, the recorded sequences increase and IPNS is never sent back.
    - Announcements: a chain-indexed cycle announces at most one manifest, with
      watermarks that are in the chain tables, and they still are whenever its
      record is put, however indexing and publishing interleave.
    - Upgrades: migrations are atomic and repeatable, lose no row of a table that
      stays, drop the retired tables only when nothing of theirs is pinned, and
      reserve the sequences they give up.
    - Pinning: however the requests of the Filebase client fail, content of other
      CIDs is kept, and a pin stores its bytes unless S3 reports a failed copy in
      the body of a 200 answer, which the client does not read; shutdown aborts no task that owns a pin, and comes to its end.
    - Verification: a verifier passes a chain exactly when the published rows
      and those of Squid agree, and passes what the publisher made of the
      same rows; the Squid cache of the TXID verifier changes no answer as
      long as the service has settled the blocks it was asked for; the range
      verifier gives the same verdict for every chunk size.
    - IPNS: the publisher task settles every request once and truthfully, puts
      records in order and under their leases, retries a bounded number of
      times, and sets its timer to the next deadline or retry (but for a retry
      time that passes between its two readings of the clock); a record resolves to the CID it
      was made for.
    - Configuration: validation accepts exactly the well-formed configurations.

    ** Bounds and fuel

    Loops that are not structural take fuel, and [None] means "out of fuel",
    which the theorems exclude: the rounds of a retried page (seven shrinks
    take the largest page to the smallest), the resume loop of a
    reorganisation (two rounds: the second sees consistent rows), the depth of
    nested calldata (the code's own limit of four) and of JSON traces (the
    depth of the document), a scrape run (one page per remaining event, plus
    one), the catalog loops (one round per row, plus one; for commitments one
    per position up to the last), the chunks of a checkpoint (at most one per
    event), and the backfill loop (one round per row without a timestamp, plus
    one), the Squid pages of the verifiers (one round per row, plus one), and
    the chunks of a block range (at most one per block). The Squid pages of the
    backfill end whatever the service answers, since their offsets are GraphQL
    integers: the fuel covers these. The resume loop ends for a database without
    a header right before the start block; with one it can run for ever
    (ChainIndexer, [fork_below_start_never_resumes]).

    ** Assumptions and limits

    During one step a provider is a fixed view of the chain. Workers of
    different pairs interleave page by page. A database
    transaction commits or leaves the tables unchanged; in Publication a commit
    whose answer is lost may have taken effect, and the commit of a sweep may
    fail after its unpin: what it unpinned is then in doubt until it is pinned
    again or unpinned with a commit. A failed pin or unpin has no effect and a
    successful pin has one (Filebase shows what a failed pin can leave behind, and
    where a reported pin has none); the provider does not lose pins by itself.
    Manifest CIDs are new and differ from artifact CIDs. Indexing compares at most
    [max_blocks_per_batch] headers back: rows below the replay block of a
    deeper reorganisation stay. In Migrations the keys and references of a table
    are recorded but not checked on writes: no statement writes a key of a stored
    row, and what is inserted has its conflict clause modelled. Logging and error texts beyond their variants
    are left out.

    ** Not modelled

    The upstream JSON-RPC client, the S3 and HTTP transports and the status
    server: network I/O of third-party crates. Command lines, reading the
    configuration file and start-up ([main]): they only call what is modelled.
    The resolution of a manifest and the printed reports of the verifiers. The
    sleeps between publication cycles: a run here may have any pause between two.
    The websocket transport: a wait has what ends it as input. [indexed_manifest.rs]: one call
    of the artifact crate. *)

From stdpp Require Export prelude gmap strings list list_numbers.
From Stdlib Require Export ZArith Lia Sorting.Sorted.
From Stdlib Require Import Strings.Byte.

#[global] Open Scope Z_scope.

(** ** Results

    Rust's [Result<T, E>]: a fallible function returns [Ok a] or [Err e]. The
    [?] operator is the monadic bind, written [x ← m; k] with stdpp's
    notation through the instances below. *)
Inductive result (E A : Type) : Type :=
  | Ok (a : A)
  | Err (e : E).
Arguments Ok {E A} _.
Arguments Err {E A} _.

#[export] Instance result_ret {E} : MRet (result E) := fun _ a => Ok a.
#[export] Instance result_bind {E} : MBind (result E) :=
  fun _ _ f m => match m with Ok a => f a | Err e => Err e end.
#[export] Instance result_fmap {E} : FMap (result E) :=
  fun _ _ f m => match m with Ok a => Ok (f a) | Err e => Err e end.

(** [Option::ok_or] and [Result::map_err]. *)
Definition ok_or {E A} (o : option A) (e : E) : result E A :=
  match o with Some a => Ok a | None => Err e end.

Definition map_err {E F A} (f : E → F) (r : result E A) : result F A :=
  match r with Ok a => Ok a | Err e => Err (f e) end.

Definition is_ok {E A} (r : result E A) : bool :=
  match r with Ok _ => true | Err _ => false end.

(** A [for] loop whose body can fail, threading its state from left to right,
    and the iterator's [map(..).collect::<Result<Vec<_>, _>>()]. *)
Fixpoint try_fold {E S A} (f : S → A → result E S) (s : S) (l : list A) : result E S :=
  match l with
  | [] => Ok s
  | a :: l => s' ← f s a; try_fold f s' l
  end.

Fixpoint try_map {E A B} (f : A → result E B) (l : list A) : result E (list B) :=
  match l with
  | [] => Ok []
  | a :: l => b ← f a; bs ← try_map f l; Ok (b :: bs)
  end.

(** ** Machine integers

    A [uN] value is an integer in [0, 2^N); [usize] is 64 bits wide. Lengths
    are [nat]s, so that the conversions from [usize] are explicit. *)
Definition u8_max : Z := 2 ^ 8 - 1.
Definition u16_max : Z := 2 ^ 16 - 1.
Definition u32_max : Z := 2 ^ 32 - 1.
Definition u64_max : Z := 2 ^ 64 - 1.
Definition u128_max : Z := 2 ^ 128 - 1.
Definition usize_max : Z := u64_max.

Definition in_u (max x : Z) : Prop := 0 ≤ x ≤ max.
Abbreviation is_u8 := (in_u u8_max).
Abbreviation is_u16 := (in_u u16_max).
Abbreviation is_u32 := (in_u u32_max).
Abbreviation is_u64 := (in_u u64_max).

#[export] Instance in_u_dec max x : Decision (in_u max x).
Proof. unfold in_u. apply _. Defined.

Definition checked_add (max a b : Z) : option Z :=
  if decide (a + b ≤ max) then Some (a + b) else None.
Definition checked_sub (a b : Z) : option Z :=
  if decide (b ≤ a) then Some (a - b) else None.
Definition checked_mul (max a b : Z) : option Z :=
  if decide (a * b ≤ max) then Some (a * b) else None.
Definition saturating_add (max a b : Z) : Z := Z.min max (a + b).
Definition saturating_sub (a b : Z) : Z := Z.max 0 (a - b).
Definition saturating_mul (max a b : Z) : Z := Z.min max (a * b).

(** [uN::try_from] of an unsigned integer and of a [usize] length. *)
Definition try_from (max x : Z) : option Z :=
  if decide (x ≤ max) then Some x else None.
Definition try_from_len (max : Z) (n : nat) : option Z := try_from max (Z.of_nat n).

(** Ordered comparison, as [Ord::cmp] on integers and its lexicographic
    [then_with]. *)
Definition then_with (c d : comparison) : comparison :=
  match c with Eq => d | _ => c end.

(** ** Bytes *)
Abbreviation byte := Init.Byte.byte.
Abbreviation bytes := (list Init.Byte.byte).

#[export] Instance byte_eq_dec : EqDecision byte.
Proof. exact Byte.byte_eq_dec. Defined.

Definition Z_of_byte (b : byte) : Z := Z.of_N (Byte.to_N b).
Definition byte_of_Z (z : Z) : byte :=
  match Byte.of_N (Z.to_N (z mod 256)) with Some b => b | None => Byte.x00 end.

(** [uN::to_le_bytes] / [uN::from_le_bytes] on [n] bytes, and the big-endian
    versions used for 256-bit words. *)
Fixpoint le_bytes (n : nat) (z : Z) : bytes :=
  match n with
  | O => []
  | S n => byte_of_Z z :: le_bytes n (z / 256)
  end.

Fixpoint le_value (l : bytes) : Z :=
  match l with
  | [] => 0
  | b :: l => Z_of_byte b + 256 * le_value l
  end.

Definition be_bytes (n : nat) (z : Z) : bytes := rev (le_bytes n z).
Definition be_value (l : bytes) : Z := le_value (rev l).

(** ** Slices *)

(** [slice::chunks]; [fuel] is the length of the slice. *)
Fixpoint chunks_fuel {A} (fuel n : nat) (l : list A) : list (list A) :=
  match fuel, l with
  | S fuel, _ :: _ => take n l :: chunks_fuel fuel n (drop n l)
  | _, _ => []
  end.
Definition chunks {A} (n : nat) (l : list A) : list (list A) := chunks_fuel (length l) n l.

Lemma chunks_fuel_concat {A} (n fuel : nat) (l : list A) :
  (0 < n)%nat → (length l ≤ fuel)%nat → concat (chunks_fuel fuel n l) = l ∧ Forall (λ c, c ≠ []) (chunks_fuel fuel n l).
Proof.
  intros Hn. revert l. induction fuel as [|fuel IH]; intros [|a l] Hl; cbn [length] in Hl; [done|lia|done|]. cbn [chunks_fuel concat].
  destruct (IH (drop n (a :: l))) as [Hc HF]; [rewrite length_drop; cbn; lia|]. split.
  - rewrite Hc. apply take_drop.
  - constructor; [|done]. by destruct n; [lia|].
Qed.
Lemma chunks_concat {A} (n : nat) (l : list A) : (0 < n)%nat → concat (chunks n l) = l ∧ Forall (λ c, c ≠ []) (chunks n l).
Proof. intros. by apply chunks_fuel_concat. Qed.
Lemma chunks_length {A} n (l : list A) : Forall (λ c, length c ≤ n)%nat (chunks n l).
Proof.
  unfold chunks. generalize (length l). intros fuel. revert l. induction fuel as [|fuel IH]; intros [|x l]; cbn [chunks_fuel]; [constructor..|].
  constructor; [rewrite length_take; lia|apply IH].
Qed.

(** ** Automation *)

(** The hint database of the development: bounds and lengths. *)
Create HintDb railgun.

(** [res_inv] follows the successful path of a computation: every bind in a
    hypothesis [... = Ok _] is split into the equations of its parts. *)
Ltac res_step :=
  match goal with
  | H : match ?m with Ok _ => _ | Err _ => _ end = Ok _ |- _ =>
      let E := fresh "E" in destruct m eqn:E; [|discriminate H]
  | H : Ok _ = Ok _ |- _ => injection H as H
  | H : Err _ = Ok _ |- _ => discriminate H
  | H : Ok _ = Err _ |- _ => discriminate H
  | H : match ?o with Some _ => Ok _ | None => Err _ end = Ok _ |- _ =>
      let E := fresh "E" in destruct o eqn:E; [|discriminate H]
  end.
Ltac res_cbn := cbv beta iota zeta delta [mret result_ret mbind result_bind ok_or map_err] in *.
Ltac res_inv := res_cbn; repeat (res_step; res_cbn); simplify_eq.

(** Closes a range fact about a literal. *)
Ltac solve_u := solve [split; vm_compute; discriminate].

(** ** Lemmas on integers *)
Lemma checked_add_Some max a b c :
  checked_add max a b = Some c ↔ c = a + b ∧ a + b ≤ max.
Proof. unfold checked_add. case_decide; naive_solver. Qed.

Lemma checked_add_None max a b : checked_add max a b = None ↔ max < a + b.
Proof. unfold checked_add. case_decide; split; intros; try done; lia. Qed.

Lemma checked_mul_Some max a b c :
  checked_mul max a b = Some c ↔ c = a * b ∧ a * b ≤ max.
Proof. unfold checked_mul. case_decide; naive_solver. Qed.

Lemma checked_sub_Some a b c : checked_sub a b = Some c ↔ c = a - b ∧ b ≤ a.
Proof. unfold checked_sub. case_decide; naive_solver. Qed.

Lemma try_from_Some max x y : try_from max x = Some y ↔ y = x ∧ x ≤ max.
Proof. unfold try_from. case_decide; naive_solver. Qed.

Lemma try_from_len_Some max n y :
  try_from_len max n = Some y ↔ y = Z.of_nat n ∧ Z.of_nat n ≤ max.
Proof. apply try_from_Some. Qed.

Lemma try_from_fits max x : x ≤ max → try_from max x = Some x.
Proof. intros. by apply try_from_Some. Qed.

Lemma try_from_len_fits max n : Z.of_nat n ≤ max → try_from_len max n = Some (Z.of_nat n).
Proof. apply try_from_fits. Qed.

(** [int_facts] turns the successful checked operations in the context into
    their equations and bounds. *)
Ltac int_facts :=
  repeat match goal with
  | H : try_from_len _ _ = Some _ |- _ => apply try_from_len_Some in H as [? H]
  | H : try_from _ _ = Some _ |- _ => apply try_from_Some in H as [? H]
  | H : checked_add _ _ _ = Some _ |- _ => apply checked_add_Some in H as [? H]
  | H : checked_sub _ _ = Some _ |- _ => apply checked_sub_Some in H as [? H]
  | H : checked_mul _ _ _ = Some _ |- _ => apply checked_mul_Some in H as [? H]
  end; simplify_eq.

(** ** Lemmas on booleans and lists *)
Lemma forallb_Forall {A} (f : A → bool) l : forallb f l = true ↔ Forall (λ x, f x = true) l.
Proof. rewrite forallb_forall, Forall_forall. by setoid_rewrite list_elem_of_In. Qed.

(** ** Lemmas on results *)
Lemma bind_Ok {E A B} (m : result E A) (f : A → result E B) b :
  (a ← m; f a) = Ok b ↔ ∃ a, m = Ok a ∧ f a = Ok b.
Proof. destruct m; cbn; naive_solver. Qed.

Lemma bind_assoc {E A B C} (m : result E A) (f : A → result E B) (g : B → result E C) :
  (b ← (a ← m; f a); g b) = (a ← m; b ← f a; g b).
Proof. by destruct m. Qed.

Lemma try_map_app {E A B} (f : A → result E B) l1 l2 :
  try_map f (l1 ++ l2) = (b1 ← try_map f l1; b2 ← try_map f l2; Ok (b1 ++ b2)).
Proof.
  induction l1 as [|a l1 IH]; cbn; [by destruct (try_map f l2)|].
  destruct (f a); cbn; [|done]. rewrite IH. destruct (try_map f l1); cbn; [|done]. by destruct (try_map f l2).
Qed.

Lemma ok_or_Ok {E A} (o : option A) (e : E) a : ok_or o e = Ok a ↔ o = Some a.
Proof. destruct o; cbn; naive_solver. Qed.

Lemma map_err_Ok {E F A} (f : E → F) (r : result E A) a : map_err f r = Ok a ↔ r = Ok a.
Proof. destruct r; cbn; naive_solver. Qed.

Lemma is_ok_Ok {E A} (r : result E A) : is_ok r = true → ∃ a, r = Ok a.
Proof. destruct r as [a|]; [by exists a|done]. Qed.

Lemma try_fold_app {E S A} (f : S → A → result E S) s l1 l2 :
  try_fold f s (l1 ++ l2) = (s' ← try_fold f s l1; try_fold f s' l2).
Proof.
  revert s. induction l1 as [|a l1 IH]; intros s; cbn; [done|].
  destruct (f s a) as [s'|e]; cbn; [apply IH|done].
Qed.

Lemma try_map_Ok {E A B} (f : A → result E B) l bs :
  try_map f l = Ok bs ↔ Forall2 (λ a b, f a = Ok b) l bs.
Proof.
  revert bs. induction l as [|a l IH]; intros bs; cbn.
  - split; [intros [= <-]; constructor | intros H; by inversion H].
  - split.
    + destruct (f a) as [b|e] eqn:Ea; cbn; [|done].
      destruct (try_map f l) as [bs'|e]; cbn; [|done].
      intros [= <-]. constructor; [done|]. by apply IH.
    + intros H. inversion H as [|? b ? bs' Hb Hbs]; subst.
      rewrite Hb. cbn. by rewrite (proj2 (IH bs') Hbs).
Qed.

Lemma try_map_length {E A B} (f : A → result E B) l bs :
  try_map f l = Ok bs → length bs = length l.
Proof. intros H%try_map_Ok%Forall2_length. done. Qed.

(** An invariant of the loop state is kept by the whole loop. *)
Lemma try_fold_inv {E S A} (P : S → Prop) (f : S → A → result E S) l s s' :
  (∀ s a s', a ∈ l → P s → f s a = Ok s' → P s') →
  P s → try_fold f s l = Ok s' → P s'.
Proof.
  revert s. induction l as [|a l IH]; intros s Hstep Hs; cbn.
  - by intros [= <-].
  - destruct (f s a) as [s1|e] eqn:Ef; cbn; [|done].
    apply IH; [|by eapply Hstep; [left| |]].
    intros ? ? ? ?. apply Hstep. by right.
Qed.

(** ** Lemmas on bytes *)
Lemma Z_of_byte_bound b : 0 ≤ Z_of_byte b < 256.
Proof. unfold Z_of_byte. pose proof (Byte.to_N_bounded b). lia. Qed.

Lemma Z_of_byte_of_Z z : Z_of_byte (byte_of_Z z) = z mod 256.
Proof.
  unfold byte_of_Z, Z_of_byte.
  pose proof (Z.mod_pos_bound z 256 ltac:(lia)) as Hb.
  destruct (Byte.of_N (Z.to_N (z mod 256))) as [b|] eqn:E.
  - apply Byte.to_of_N_iff in E. rewrite E. lia.
  - apply Byte.of_N_None_iff in E. lia.
Qed.

Lemma byte_of_Z_of_byte b : byte_of_Z (Z_of_byte b) = b.
Proof.
  unfold byte_of_Z. pose proof (Z_of_byte_bound b).
  rewrite Z.mod_small by lia. unfold Z_of_byte. rewrite N2Z.id.
  by rewrite Byte.of_to_N.
Qed.

#[export] Instance byte_countable : Countable byte := inj_countable' Z_of_byte byte_of_Z byte_of_Z_of_byte.

Lemma length_le_bytes n z : length (le_bytes n z) = n.
Proof. revert z. induction n as [|n IH]; intros z; cbn; [done|]. by rewrite IH. Qed.

Lemma length_be_bytes n z : length (be_bytes n z) = n.
Proof. unfold be_bytes. by rewrite length_rev, length_le_bytes. Qed.

Lemma le_value_le_bytes n z : le_value (le_bytes n z) = z mod 256 ^ Z.of_nat n.
Proof.
  revert z. induction n as [|n IH]; intros z.
  - cbn. by rewrite Z.mod_1_r.
  - cbn [le_bytes le_value]. rewrite IH, Z_of_byte_of_Z.
    rewrite Nat2Z.inj_succ, Z.pow_succ_r by lia.
    rewrite Z.rem_mul_r by lia. lia.
Qed.

Lemma le_value_le_bytes_small n z :
  0 ≤ z < 256 ^ Z.of_nat n → le_value (le_bytes n z) = z.
Proof. intros. rewrite le_value_le_bytes. by apply Z.mod_small. Qed.

Lemma be_value_be_bytes_small n z :
  0 ≤ z < 256 ^ Z.of_nat n → be_value (be_bytes n z) = z.
Proof.
  intros. unfold be_value, be_bytes. rewrite rev_involutive.
  by apply le_value_le_bytes_small.
Qed.

Lemma le_value_bound l : 0 ≤ le_value l < 256 ^ Z.of_nat (length l).
Proof.
  induction l as [|b l IH]; cbn [le_value length]; [cbn; lia|].
  rewrite Nat2Z.inj_succ, Z.pow_succ_r by lia.
  pose proof (Z_of_byte_bound b). lia.
Qed.

Lemma le_bytes_le_value l : le_bytes (length l) (le_value l) = l.
Proof.
  induction l as [|b l IH]; cbn [le_value length le_bytes]; [done|].
  pose proof (Z_of_byte_bound b). f_equal.
  - transitivity (byte_of_Z (Z_of_byte b)); [|apply byte_of_Z_of_byte].
    unfold byte_of_Z. f_equal. f_equal. f_equal.
    rewrite (Z.mul_comm 256), Z.mod_add by lia. done.
  - rewrite (Z.mul_comm 256), Z.div_add by lia.
    rewrite (Z.div_small (Z_of_byte b)) by lia. by rewrite Z.add_0_l.
Qed.

Lemma be_bytes_be_value n l : length l = n → be_bytes n (be_value l) = l.
Proof.
  intros <-. unfold be_bytes, be_value.
  rewrite <- (length_rev l), le_bytes_le_value. apply rev_involutive.
Qed.


(** ** Stable sorting

    [slice::sort_by_key] and [sort_by] are stable: elements that compare equal
    keep their order. [leb x y] is "x may come before y". *)
Fixpoint insert_by {A} (leb : A → A → bool) (x : A) (l : list A) : list A :=
  match l with
  | [] => [x]
  | y :: l' => if leb x y then x :: y :: l' else y :: insert_by leb x l'
  end.

Fixpoint sort_by {A} (leb : A → A → bool) (l : list A) : list A :=
  match l with
  | [] => []
  | x :: l => insert_by leb x (sort_by leb l)
  end.

Section sorting.
Context {A : Type} (leb : A → A → bool).

Lemma insert_by_perm x l : insert_by leb x l ≡ₚ x :: l.
Proof.
  induction l as [|y l IH]; cbn; [done|]. destruct (leb x y); [done|].
  rewrite IH. constructor.
Qed.

Lemma sort_by_perm l : sort_by leb l ≡ₚ l.
Proof. induction l as [|x l IH]; cbn; [done|]. by rewrite insert_by_perm, IH. Qed.

Lemma sort_by_length l : length (sort_by leb l) = length l.
Proof. by rewrite sort_by_perm. Qed.

Context (leb_total : ∀ x y, leb x y = false → leb y x = true).
Context (leb_trans : ∀ x y z, leb x y = true → leb y z = true → leb x z = true).

Lemma insert_by_sorted x l :
  StronglySorted (λ a b, leb a b = true) l → StronglySorted (λ a b, leb a b = true) (insert_by leb x l).
Proof.
  induction 1 as [|y l Hl IH Hy]; cbn; [repeat constructor|].
  destruct (leb x y) eqn:E.
  - constructor; [by constructor|]. constructor; [done|].
    eapply Forall_impl; [exact Hy|]. intros z Hz. by eapply leb_trans.
  - constructor; [done|]. rewrite insert_by_perm. constructor; [by apply leb_total|done].
Qed.

Lemma sort_by_sorted l : StronglySorted (λ a b, leb a b = true) (sort_by leb l).
Proof. induction l as [|x l IH]; cbn; [constructor|]. by apply insert_by_sorted. Qed.
End sorting.

Lemma StronglySorted_impl {A} (R R' : A → A → Prop) l :
  (∀ x y, R x y → R' x y) → StronglySorted R l → StronglySorted R' l.
Proof. intros HR. induction 1; constructor; [done|]. eapply Forall_impl; eauto. Qed.

(** Sorting a list that is already in order changes nothing. *)
Lemma sort_by_id {A} (leb : A → A → bool) l :
  StronglySorted (λ a b, leb a b = true) l → sort_by leb l = l.
Proof.
  induction 1 as [|x l Hl IH Hx]; cbn; [done|]. rewrite IH.
  destruct Hx as [|y l Hxy Hx]; cbn; [done|]. by rewrite Hxy.
Qed.

(** Ascending order on an integer key. *)
Definition key_leb {A} (key : A → Z) (x y : A) : bool := bool_decide (key x ≤ key y).
Definition sort_by_key {A} (key : A → Z) : list A → list A := sort_by (key_leb key).

Lemma key_leb_total {A} (key : A → Z) x y : key_leb key x y = false → key_leb key y x = true.
Proof. unfold key_leb. rewrite bool_decide_eq_false, bool_decide_eq_true. lia. Qed.

Lemma key_leb_trans {A} (key : A → Z) x y z :
  key_leb key x y = true → key_leb key y z = true → key_leb key x z = true.
Proof. unfold key_leb. rewrite !bool_decide_eq_true. lia. Qed.

Lemma sort_by_key_sorted {A} (key : A → Z) l :
  StronglySorted (λ a b, key a ≤ key b) (sort_by_key key l).
Proof.
  eapply StronglySorted_impl; [|apply (sort_by_sorted _ (key_leb_total key) (key_leb_trans key))].
  intros x y. unfold key_leb. by rewrite bool_decide_eq_true.
Qed.

Lemma sort_by_key_perm {A} (key : A → Z) l : sort_by_key key l ≡ₚ l.
Proof. apply sort_by_perm. Qed.

Lemma sort_by_key_id {A} (key : A → Z) l :
  StronglySorted (λ a b, key a ≤ key b) l → sort_by_key key l = l.
Proof.
  intros H. apply sort_by_id. eapply StronglySorted_impl; [|exact H].
  intros x y. unfold key_leb. by rewrite bool_decide_eq_true.
Qed.

Lemma StronglySorted_fmap {A B} (R : B → B → Prop) (f : A → B) l :
  StronglySorted (λ a b, R (f a) (f b)) l → StronglySorted R (f <$> l).
Proof. induction 1; cbn; constructor; [done|]. by apply Forall_fmap. Qed.

Lemma StronglySorted_fmap_inv {A B} (R : B → B → Prop) (f : A → B) l :
  StronglySorted R (f <$> l) → StronglySorted (λ a b, R (f a) (f b)) l.
Proof. induction l as [|x l IH]; cbn; inversion 1; subst; constructor; [auto|]. by apply Forall_fmap. Qed.

Lemma filter_all {A} {P : A → Prop} `{∀ x, Decision (P x)} (l : list A) : Forall P l → filter P l = l.
Proof. induction 1 as [|x l Hx _ IH]; [done|]. by rewrite filter_cons, decide_True, IH. Qed.

Lemma StronglySorted_NoDup_lt l : NoDup l → StronglySorted Z.le l → StronglySorted Z.lt l.
Proof.
  intros Hnd. induction 1 as [|x l Hl IH Hx]; constructor; apply NoDup_cons in Hnd as [Hn Hnd]; [by apply IH|].
  rewrite Forall_forall in *. intros y Hy. specialize (Hx y Hy). assert (x ≠ y) by by intros ->. lia.
Qed.

(** Permuting the inputs of a deterministic relation permutes its outputs. *)
Lemma Forall2_perm_l {A B} (R : A → B → Prop) l1 l2 k1 :
  l1 ≡ₚ l2 → Forall2 R l1 k1 → ∃ k2, Forall2 R l2 k2 ∧ k1 ≡ₚ k2.
Proof.
  intros Hp. revert k1. induction Hp as [|x l1 l2 Hp IH|x y l|l1 l2 l3 _ IH1 _ IH2]; intros k1 Hk.
  - exists k1. done.
  - apply Forall2_cons_inv_l in Hk as (b & k & Hb & Hk & ->). destruct (IH k Hk) as (k2 & ? & Hk2).
    exists (b :: k2). by split; [constructor|rewrite Hk2].
  - apply Forall2_cons_inv_l in Hk as (b & k & Hb & Hk & ->). apply Forall2_cons_inv_l in Hk as (b' & k' & Hb' & Hk & ->).
    exists (b' :: b :: k'). split; [by repeat constructor|]. by constructor.
  - destruct (IH1 k1 Hk) as (k2 & Hk2 & Hp2). destruct (IH2 k2 Hk2) as (k3 & ? & Hp3). exists k3. by rewrite Hp2, Hp3.
Qed.
Lemma Forall2_det {A B} (R : A → B → Prop) l k1 k2 :
  (∀ a b1 b2, a ∈ l → R a b1 → R a b2 → b1 = b2) → Forall2 R l k1 → Forall2 R l k2 → k1 = k2.
Proof.
  intros Hdet Hk1. revert k2. induction Hk1 as [|a b l k1 Hb _ IH]; intros k2 Hk2.
  - by apply Forall2_nil_inv_l in Hk2.
  - apply Forall2_cons_inv_l in Hk2 as (b' & k & Hb' & Hk & ->). f_equal; [eapply Hdet; [by left|done..]|].
    apply IH; [|done]. intros a' b1 b2 Ha. apply Hdet. by right.
Qed.

(** Encoded integers stay folded in proofs. *)
#[global] Arguments le_bytes : simpl never.
#[global] Arguments be_bytes : simpl never.
#[global] Arguments byte_of_Z : simpl never.
