(* ===== verification/Wire.v ===== *)
(** * Little-endian wire format

    The byte-level writers that the chunk encoders share ([write_u16],
    [write_u32], [write_u64] and the length prefixes of [commitments.rs],
    [wallet_scan.rs], [public_txid.rs] and [merkle_checkpoint.rs]) and the
    [Cursor] readers of the two parity verifiers
    ([verify_indexed_squid_parity.rs] and [verify_txid_parity.rs]) that read
    the chunks back. [reads p w a] says that a reader consumes exactly the
    bytes [w] and returns [a], wherever in a buffer they lie; the round-trip
    theorems of the chunk files compose its instances. *)

From S2P Require Import Prelude.
From Stdlib Require Import Strings.Byte.

(** ** Errors of the artifact crate

    [ChunkError] belongs to the artifact crate; [PayloadTooLarge],
    [ChunkTooLarge] and [StringTooLong] are the variants the encoders build,
    [ChunkCodec] stands for whatever the crate's own codec returns. *)
Inductive ChunkError :=
  | PayloadTooLarge
  | ChunkTooLarge (actual maximum : Z)
  | StringTooLong (field : string) (length : nat)
  | ChunkCodec (code : Z).

(** ** Writers *)
Definition write_u16 (bs : bytes) (value : Z) : bytes := bs ++ le_bytes 2 value.
Definition write_u32 (bs : bytes) (value : Z) : bytes := bs ++ le_bytes 4 value.
Definition write_u64 (bs : bytes) (value : Z) : bytes := bs ++ le_bytes 8 value.

Definition write_len (bs : bytes) (count : nat) : result ChunkError bytes :=
  count' ← ok_or (try_from_len u64_max count) PayloadTooLarge;
  Ok (write_u64 bs count').

Definition write_bytes (bs : bytes) (value : bytes) : result ChunkError bytes :=
  len ← ok_or (try_from_len u32_max (length value)) PayloadTooLarge;
  Ok (write_u32 bs len ++ value).

Definition write_string (bs : bytes) (value : bytes) : result ChunkError bytes :=
  len ← ok_or (try_from_len u16_max (length value))
          (StringTooLong "public_txid.id" (length value));
  Ok (write_u16 bs len ++ value).

Definition write_fixed_bytes_vec (bs : bytes) (values : list bytes) : result ChunkError bytes :=
  len ← ok_or (try_from_len u32_max (length values)) PayloadTooLarge;
  Ok (write_u32 bs len ++ concat values).

(** ** Readers

    A cursor is a byte buffer and a position in it. *)
Record Cursor := mkCursor { cursor_bytes : bytes; cursor_position : nat }.

Definition cursor_new (bs : bytes) : Cursor := mkCursor bs 0.

Definition reader (A : Type) : Type := Cursor → result string (A * Cursor).

#[export] Instance reader_ret : MRet reader := fun _ a c => Ok (a, c).
#[export] Instance reader_bind : MBind reader :=
  fun _ _ f m c => match m c with Ok (a, c') => f a c' | Err e => Err e end.

Definition reader_lift {A} (r : result string A) : reader A :=
  fun c => match r with Ok a => Ok (a, c) | Err e => Err e end.

(** [bytes.get(start..end)]. *)
Definition slice (bs : bytes) (start stop : nat) : option bytes :=
  if decide (start ≤ stop ≤ length bs)%nat then Some (take (stop - start) (drop start bs)) else None.

Definition read_exact_with (eof : string) (len : nat) : reader bytes :=
  fun c =>
    stop ← ok_or (checked_add usize_max (Z.of_nat (cursor_position c)) (Z.of_nat len)) "cursor overflow"%string;
    bs ← ok_or (slice (cursor_bytes c) (cursor_position c) (Z.to_nat stop)) eof;
    Ok (bs, mkCursor (cursor_bytes c) (Z.to_nat stop)).

(** [for _ in 0..n] around a fallible read. *)
Fixpoint read_n {A} (n : nat) (p : reader A) : reader (list A) :=
  match n with
  | O => mret []
  | S n => a ← p; l ← read_n n p; mret (a :: l)
  end.

(** The cursor of [verify_indexed_squid_parity.rs]. *)
Module SquidCursor.
Definition read_exact (len : nat) : reader bytes := read_exact_with "unexpected EOF" len.

Definition read_u8 : reader byte :=
  fun c =>
    b ← ok_or (cursor_bytes c !! cursor_position c) "unexpected EOF"%string;
    Ok (b, mkCursor (cursor_bytes c) (S (cursor_position c))).

Definition read_array (n : nat) : reader bytes := read_exact n.

Definition read_u32 : reader Z := bs ← read_array 4; mret (le_value bs).
Definition read_u64 : reader Z := bs ← read_array 8; mret (le_value bs).
Definition read_fixed_32 : reader bytes := read_array 32.
Definition read_fixed_64 : reader bytes := read_array 64.

Definition read_bytes : reader bytes :=
  n ← read_u32;
  len ← reader_lift (ok_or (try_from usize_max n) "byte vector length overflow"%string);
  read_exact (Z.to_nat len).

Definition expect_end (label : string) : reader unit :=
  fun c =>
    if decide (cursor_position c ≠ length (cursor_bytes c))
    then Err (label +:+ " has trailing bytes")%string
    else Ok (tt, c).
End SquidCursor.

(** The cursor of [verify_txid_parity.rs]; strings are their UTF-8 bytes, and
  [from_utf8] is the standard library's validity check. *)
Module TxidCursor.
Section with_utf8.
Context (from_utf8 : bytes → bool).

Definition remaining (c : Cursor) : nat := length (cursor_bytes c) - cursor_position c.

Definition read_exact (len : nat) : reader bytes :=
  read_exact_with "unexpected end of payload" len.

Definition read_u8 : reader byte := bs ← read_exact 1; mret (default Byte.x00 (head bs)).
Definition read_u16 : reader Z := bs ← read_exact 2; mret (le_value bs).
Definition read_u32 : reader Z := bs ← read_exact 4; mret (le_value bs).
Definition read_u64 : reader Z := bs ← read_exact 8; mret (le_value bs).

Definition read_string : reader bytes :=
  n ← read_u16;
  bs ← read_exact (Z.to_nat n);
  if from_utf8 bs then mret bs else reader_lift (Err "invalid utf-8"%string).

Definition read_fixed_32 : reader bytes := read_exact 32.

Definition read_fixed_vec : reader (list bytes) :=
  n ← read_u32;
  count ← reader_lift (ok_or (try_from usize_max n) "fixed vec count overflow"%string);
  read_n (Z.to_nat count) read_fixed_32.
End with_utf8.
End TxidCursor.

(** ** The reading relation *)
Definition reads {A} (p : reader A) (w : bytes) (a : A) : Prop :=
  ∀ pre rest,
    Z.of_nat (length (pre ++ w ++ rest)) ≤ usize_max →
    p (mkCursor (pre ++ w ++ rest) (length pre)) =
      Ok (a, mkCursor (pre ++ w ++ rest) (length pre + length w)).

Lemma reads_ret {A} (a : A) : reads (mret a) [] a.
Proof. intros pre rest _. cbn. by rewrite Nat.add_0_r. Qed.

Lemma reads_bind {A B} (p : reader A) (k : A → reader B) w1 w2 w a b :
  w = w1 ++ w2 → reads p w1 a → reads (k a) w2 b → reads (x ← p; k x) w b.
Proof.
  intros -> Hp Hk pre rest Hlen. unfold mbind, reader_bind.
  rewrite <- (app_assoc w1) in *. rewrite Hp by done.
  specialize (Hk (pre ++ w1) rest).
  rewrite <- (app_assoc pre), (length_app pre w1) in Hk. rewrite Hk by done.
  by rewrite length_app, Nat.add_assoc.
Qed.

Lemma reads_lift {A} (r : result string A) a : r = Ok a → reads (reader_lift r) [] a.
Proof. intros -> pre rest _. cbn. by rewrite Nat.add_0_r. Qed.

Lemma slice_app pre w rest :
  slice (pre ++ w ++ rest) (length pre) (length pre + length w) = Some w.
Proof.
  unfold slice. rewrite decide_True by (rewrite !length_app; lia).
  rewrite drop_app_length. f_equal.
  replace (length pre + length w - length pre)%nat with (length w) by lia.
  apply take_app_length.
Qed.

Lemma reads_exact eof n w : length w = n → reads (read_exact_with eof n) w w.
Proof.
  intros <- pre rest Hlen. unfold read_exact_with, checked_add.
  cbn [cursor_position cursor_bytes].
  rewrite decide_True by (rewrite !length_app in Hlen; lia). cbn.
  rewrite <- Nat2Z.inj_add, Nat2Z.id, slice_app. done.
Qed.

(** A run of [n] reads over the concatenation of the records' bytes. *)
Lemma reads_n {A B} (p : reader A) (enc : B → bytes) (f : B → A) (l : list B) n :
  n = length l → (∀ b, b ∈ l → reads p (enc b) (f b)) →
  reads (read_n n p) (concat (enc <$> l)) (f <$> l).
Proof.
  intros -> Hl. induction l as [|b l IH]; cbn; [apply reads_ret|].
  eapply reads_bind; [done|apply Hl; by left|].
  eapply reads_bind; [by rewrite app_nil_r| |apply reads_ret].
  apply IH. intros b' Hb'. apply Hl. by right.
Qed.

(** A reader run on exactly its bytes ends at the end of the buffer. *)
Lemma reads_whole {A} (p : reader A) w a :
  reads p w a → Z.of_nat (length w) ≤ usize_max →
  p (cursor_new w) = Ok (a, mkCursor w (length w)).
Proof.
  intros Hp Hlen. specialize (Hp [] []). cbn in Hp.
  rewrite app_nil_r in Hp. by apply Hp.
Qed.

(** The same, followed by the cursor's end check. *)
Lemma reads_to_end {A} (p : reader A) label w a :
  reads p w a → Z.of_nat (length w) ≤ usize_max →
  (x ← p; _ ← SquidCursor.expect_end label; mret x) (cursor_new w) = Ok (a, mkCursor w (length w)).
Proof.
  intros Hp Hlen. unfold mbind, reader_bind. rewrite (reads_whole _ _ _ Hp Hlen).
  unfold SquidCursor.expect_end. cbn [cursor_position cursor_bytes].
  by rewrite decide_False by (intros Hne; by apply Hne).
Qed.

(** Generic shape of an encoding loop that appends one record at a time. *)
Lemma foldl_append {A} (f : bytes → A → bytes) (enc : A → bytes) l bs :
  (∀ bs a, f bs a = bs ++ enc a) → foldl f bs l = bs ++ concat (enc <$> l).
Proof.
  intros Hf. revert bs. induction l as [|a l IH]; intros bs; cbn; [by rewrite app_nil_r|].
  by rewrite IH, Hf, <- app_assoc.
Qed.

(** The same for a loop whose body can fail, with what each step checked. *)
Lemma try_fold_append {E A} (f : bytes → A → result E bytes) (enc : A → bytes) (P : A → Prop) l bs bs' :
  (∀ bs a bs', f bs a = Ok bs' → bs' = bs ++ enc a ∧ P a) →
  try_fold f bs l = Ok bs' → bs' = bs ++ concat (enc <$> l) ∧ Forall P l.
Proof.
  intros Hf. revert bs. induction l as [|a l IH]; intros bs; cbn [try_fold].
  - intros [= <-]. by rewrite app_nil_r.
  - intros Hw. res_inv. apply Hf in E0 as [-> Ha]. apply IH in Hw as [-> Hl].
    split; [by rewrite <- app_assoc|by constructor].
Qed.

(** ** Integers and byte strings are read back *)
Section integers.
  Context (eof : string).

Lemma reads_le n x :
    0 ≤ x < 256 ^ Z.of_nat n →
    reads (bs ← read_exact_with eof n; mret (le_value bs)) (le_bytes n x) x.
  Proof.
    intros Hx. eapply reads_bind; [by rewrite app_nil_r|by apply reads_exact, length_le_bytes|].
    rewrite le_value_le_bytes_small by done. apply reads_ret.
  Qed.
End integers.

Lemma squid_read_u32 x : is_u32 x → reads SquidCursor.read_u32 (le_bytes 4 x) x.
Proof. unfold in_u, u32_max. intros. apply reads_le. cbn. lia. Qed.

Lemma squid_read_u64 x : is_u64 x → reads SquidCursor.read_u64 (le_bytes 8 x) x.
Proof. unfold in_u, u64_max. intros. apply reads_le. cbn. lia. Qed.

Lemma squid_read_fixed_32 w : length w = 32%nat → reads SquidCursor.read_fixed_32 w w.
Proof. apply reads_exact. Qed.

Lemma squid_read_fixed_64 w : length w = 64%nat → reads SquidCursor.read_fixed_64 w w.
Proof. apply reads_exact. Qed.

Lemma squid_read_u8 b : reads SquidCursor.read_u8 [b] b.
Proof.
  intros pre rest _. unfold SquidCursor.read_u8. cbn [cursor_bytes cursor_position].
  change ([b] ++ rest) with (b :: rest).
  rewrite list_lookup_middle by done. cbn. by rewrite Nat.add_1_r.
Qed.

Lemma squid_read_bytes value :
  Z.of_nat (length value) ≤ u32_max →
  reads SquidCursor.read_bytes (le_bytes 4 (Z.of_nat (length value)) ++ value) value.
Proof.
  intros Hlen. eapply reads_bind; [done| |].
  { apply squid_read_u32. unfold in_u. lia. }
  eapply (reads_bind _ _ []); [done| |].
  { apply reads_lift. rewrite try_from_fits; [done|].
    unfold usize_max, u64_max, u32_max in *. lia. }
  rewrite Nat2Z.id. by apply reads_exact.
Qed.

Lemma txid_read_u16 x : is_u16 x → reads TxidCursor.read_u16 (le_bytes 2 x) x.
Proof. unfold in_u, u16_max. intros. apply reads_le. cbn. lia. Qed.

Lemma txid_read_u32 x : is_u32 x → reads TxidCursor.read_u32 (le_bytes 4 x) x.
Proof. unfold in_u, u32_max. intros. apply reads_le. cbn. lia. Qed.

Lemma txid_read_u64 x : is_u64 x → reads TxidCursor.read_u64 (le_bytes 8 x) x.
Proof. unfold in_u, u64_max. intros. apply reads_le. cbn. lia. Qed.

Lemma txid_read_fixed_32 w : length w = 32%nat → reads TxidCursor.read_fixed_32 w w.
Proof. apply reads_exact. Qed.

Lemma txid_read_u8 b : reads TxidCursor.read_u8 [b] b.
Proof.
  eapply reads_bind; [by rewrite app_nil_r|by apply reads_exact|]. apply reads_ret.
Qed.

Lemma txid_read_string from_utf8 value :
  from_utf8 value = true → Z.of_nat (length value) ≤ u16_max →
  reads (TxidCursor.read_string from_utf8) (le_bytes 2 (Z.of_nat (length value)) ++ value) value.
Proof.
  intros Hutf Hlen. eapply reads_bind; [done| |].
  { apply txid_read_u16. unfold in_u. lia. }
  rewrite Nat2Z.id. eapply reads_bind; [by rewrite app_nil_r|by apply reads_exact|].
  rewrite Hutf. apply reads_ret.
Qed.

Lemma txid_read_fixed_vec values :
  Forall (λ v : bytes, length v = 32%nat) values → Z.of_nat (length values) ≤ u32_max →
  reads TxidCursor.read_fixed_vec (le_bytes 4 (Z.of_nat (length values)) ++ concat values) values.
Proof.
  intros H32 Hlen. eapply reads_bind; [done| |].
  { apply txid_read_u32. unfold in_u. lia. }
  eapply (reads_bind _ _ []); [done| |].
  { apply reads_lift. rewrite try_from_fits; [done|].
    unfold usize_max, u64_max, u32_max in *. lia. }
  rewrite Nat2Z.id.
  pose proof (reads_n TxidCursor.read_fixed_32 (λ v, v) (λ v, v) values _ eq_refl) as Hn.
  rewrite !list_fmap_id in Hn. apply Hn.
  intros v Hv. apply txid_read_fixed_32. by rewrite Forall_forall in H32; apply H32.
Qed.

#[export] Hint Resolve squid_read_u8 squid_read_u32 squid_read_u64 squid_read_fixed_32
  squid_read_fixed_64 squid_read_bytes txid_read_u8 txid_read_u16 txid_read_u32
  txid_read_u64 txid_read_fixed_32 txid_read_string txid_read_fixed_vec : railgun.

(** [reads_steps] walks a record reader along the record's bytes, which must
    be a right-nested concatenation of the fields' encodings. *)
Ltac reads_steps :=
  repeat first
    [ apply reads_ret
    | eapply reads_bind; [reflexivity | solve [eauto with railgun] |] ].
