(* ===== verification/Ipfs.v ===== *)
(** * Pinning services ([publish/ipfs.rs])

    The [IpfsClient] trait, its [MultiPinner] implementation that asks several
    services and wants a quorum to agree on one CID. A service is modelled by
    its answers in one round: [join_all] collects them in client order. *)

From S2P Require Import Prelude.

Section ipfs.
Context {Cid : Type} `{EqDecision Cid}.

Record PinningCidMismatch := mkMismatch { mismatch_service : string; mismatch_returned : Cid }.
Record PinningServiceFailure := mkFailure { failure_service : string; failure_error : string }.

(** The variants of [IpfsError]; boxed error sources are their messages. *)
Inductive IpfsError :=
  | Multihash (source : string)
  | InvalidEndpoint (service endpoint reason : string)
  | ClientBuild (service source : string)
  | NoPinningServices
  | InvalidQuorum (quorum clients : nat)
  | InvalidCid (service cid source : string)
  | MissingCid (service : string)
  | CidMismatch (service : string) (expected returned : Cid)
  | PinningQuorumNotMet (expected : Cid) (required : nat) (successes : list string)
      (mismatches : list PinningCidMismatch) (failures : list PinningServiceFailure)
  | PinHttpStatus (service : string) (status : Z) (body : string)
  | UnpinningQuorumNotMet (cid : Cid) (required : nat) (successes : list string)
      (failures : list PinningServiceFailure)
  | UnpinHttpStatus (service : string) (cid : Cid) (status : Z) (body : string)
  | ContainsQuorumUndecidable (cid : Cid) (required : nat) (present missing : list string)
      (failures : list PinningServiceFailure)
  | ContainsHttpStatus (service : string) (status : Z) (body : string)
  | PinFailed (service source : string)
  | UnpinFailed (service : string) (cid : Cid) (source : string)
  | ContainsFailed (service : string) (cid : Cid) (source : string).

(** The [IpfsClient] trait. *)
Record IpfsClient := mkClient {
  service_name : string;
  pin_bytes : bytes → result IpfsError Cid;
  unpin : Cid → result IpfsError unit;
  contains : Cid → result IpfsError bool;
}.

Definition pin_indexed_chunk (client : IpfsClient) (bs : bytes) : result IpfsError Cid :=
  pin_bytes client bs.
Definition pin_manifest (client : IpfsClient) (manifest_bytes : bytes) : result IpfsError Cid :=
  pin_bytes client manifest_bytes.

(** ** [MultiPinner] *)
Record MultiPinner := mkMultiPinner { clients : list IpfsClient; quorum : nat }.

Definition multi_pinner_new (cs : list IpfsClient) (q : nat) : result IpfsError MultiPinner :=
  if decide (cs = [] ) then Err NoPinningServices
  else if decide (q = 0%nat ∨ (length cs < q)%nat) then Err (InvalidQuorum q (length cs))
  else Ok (mkMultiPinner cs q).

Fixpoint add_cid_success (cid_groups : list (Cid * list string)) (returned : Cid) (service : string)
    : list (Cid * list string) :=
  match cid_groups with
  | [] => [(returned, [service])]
  | (cid, services) :: gs =>
      if decide (cid = returned) then (cid, services ++ [service]) :: gs
      else (cid, services) :: add_cid_success gs returned service
  end.

(** ** Votes

    [votes mp bs c] is the number of services that answered [c]. *)
Definition answered (c : Cid) (r : result IpfsError Cid) : bool :=
  match r with Ok c' => bool_decide (c' = c) | Err _ => false end.
Definition votes (mp : MultiPinner) (bs : bytes) (c : Cid) : nat :=
  length (filter (λ cl, answered c (pin_bytes cl bs)) (clients mp)).

Lemma answered_Ok c r : answered c r ↔ r = Ok c.
Proof.
  destruct r as [c'|e]; cbn; [|naive_solver].
  rewrite bool_decide_spec. naive_solver.
Qed.

Lemma votes_disjoint mp bs c c' :
  c ≠ c' → (votes mp bs c + votes mp bs c' ≤ length (clients mp))%nat.
Proof.
  intros Hne. unfold votes. induction (clients mp) as [|cl cs IH]; [done|].
  rewrite !filter_cons.
  repeat case_decide; cbn; try lia.
  repeat match goal with H : Is_true (answered _ _) |- _ => apply answered_Ok in H end. congruence.
Qed.

(** [error.to_string()] of a service's error, and [raw_block_cid], the CID crate's
    raw-codec wrapping of a SHA-256 digest. *)
Context (error_to_string : IpfsError → string).
Context (raw_block_cid : bytes → result IpfsError Cid).

Definition collect_pins (results : list (string * result IpfsError Cid))
    : list (Cid * list string) * list PinningServiceFailure :=
  foldl (λ acc r,
    match r.2 with
    | Ok returned => (add_cid_success acc.1 returned r.1, acc.2)
    | Err error => (acc.1, acc.2 ++ [mkFailure r.1 (error_to_string error)])
    end) ([], []) results.

(** Descending order of group size; the sort is stable. *)
Definition group_leb (a b : Cid * list string) : bool :=
  bool_decide (length b.2 ≤ length a.2)%nat.

Definition multi_pin_bytes (mp : MultiPinner) (bs : bytes) : result IpfsError Cid :=
  let results := (λ c, (service_name c, pin_bytes c bs)) <$> clients mp in
  let '(groups, failures) := collect_pins results in
  let cid_groups := sort_by group_leb groups in
  let not_met :=
    raw ← raw_block_cid bs;
    let '(candidate, successes) := default (raw, []) (head cid_groups) in
    let mismatches :=
      mjoin ((λ g, (λ s, mkMismatch s g.1) <$> g.2) <$> drop 1 cid_groups) in
    Err (PinningQuorumNotMet candidate (quorum mp) successes mismatches failures) in
  match head cid_groups with
  | Some (cid, successes) =>
      if decide (quorum mp ≤ length successes)%nat then Ok cid else not_met
  | None => not_met
  end.

Definition multi_unpin (mp : MultiPinner) (cid : Cid) : result IpfsError unit :=
  let results := (λ c, (service_name c, unpin c cid)) <$> clients mp in
  let successes := omap (λ r, match r.2 with Ok _ => Some r.1 | Err _ => None end) results in
  let failures := omap (λ r, match r.2 with
    | Ok _ => None | Err e => Some (mkFailure r.1 (error_to_string e)) end) results in
  if decide (quorum mp ≤ length successes)%nat then Ok tt
  else Err (UnpinningQuorumNotMet cid (quorum mp) successes failures).

Definition multi_contains (mp : MultiPinner) (cid : Cid) : result IpfsError bool :=
  let results := (λ c, (service_name c, contains c cid)) <$> clients mp in
  let present := omap (λ r, match r.2 with Ok true => Some r.1 | _ => None end) results in
  let missing := omap (λ r, match r.2 with Ok false => Some r.1 | _ => None end) results in
  let failures := omap (λ r, match r.2 with
    | Ok _ => None | Err e => Some (mkFailure r.1 (error_to_string e)) end) results in
  if decide (quorum mp ≤ length present)%nat then Ok true
  else if decide (failures = []) then Ok false
  else Err (ContainsQuorumUndecidable cid (quorum mp) present missing failures).

(** [MultiPinner] is itself an [IpfsClient]. *)
Definition multi_pinner_client (mp : MultiPinner) : IpfsClient :=
  mkClient "multi-pinner" (multi_pin_bytes mp) (multi_unpin mp) (multi_contains mp).

Definition group_size (c : Cid) (gs : list (Cid * list string)) : nat :=
  length (mjoin ((λ g, if decide (g.1 = c) then g.2 else []) <$> gs)).

(** The groups have distinct CIDs and no empty group. *)
Definition groups_ok (gs : list (Cid * list string)) : Prop :=
  NoDup gs.*1 ∧ Forall (λ g, g.2 ≠ []) gs.

Lemma add_cid_success_fst gs c s :
  (add_cid_success gs c s).*1 = if decide (c ∈ gs.*1) then gs.*1 else gs.*1 ++ [c].
Proof.
  induction gs as [|[c' ss] gs IH]; cbn; [by case_decide; set_solver|].
  destruct (decide (c' = c)) as [->|Hne]; cbn.
  - rewrite decide_True by set_solver. done.
  - rewrite IH. repeat case_decide; set_solver.
Qed.

Lemma add_cid_success_ok gs c s : groups_ok gs → groups_ok (add_cid_success gs c s).
Proof.
  intros [Hnd Hne]. split.
  - rewrite add_cid_success_fst. case_decide; [done|].
    apply NoDup_app. split_and!; [done|set_solver|apply NoDup_singleton].
  - clear Hnd. induction gs as [|[c' ss] gs IH]; cbn; [by repeat constructor|].
    inversion Hne; subst. case_decide; constructor; cbn; auto. by destruct ss.
Qed.

Lemma group_size_cons c g gs :
  group_size c (g :: gs) = ((if decide (g.1 = c) then length g.2 else 0) + group_size c gs)%nat.
Proof. unfold group_size. cbn. rewrite length_app. by case_decide. Qed.

Lemma group_size_add gs c s c' :
  group_size c' (add_cid_success gs c s) =
    (group_size c' gs + if decide (c = c') then 1 else 0)%nat.
Proof.
  induction gs as [|[c1 ss] gs IH]; cbn [add_cid_success].
  - rewrite group_size_cons. cbn. case_decide; done.
  - destruct (decide (c1 = c)) as [->|Hne]; rewrite !group_size_cons; cbn; [|rewrite IH; lia].
    destruct (decide (c = c')); rewrite ?length_app; cbn; lia.
Qed.

(** The groups tally the answers. *)
Lemma collect_pins_spec results gs fs c :
  collect_pins results = (gs, fs) →
  groups_ok gs ∧ group_size c gs = length (filter (λ r, answered c r.2) results).
Proof.
  unfold collect_pins. revert gs fs.
  induction results as [|[s r] results IH] using rev_ind; intros gs fs.
  - intros [= <- <-]. split; [|done]. split; constructor.
  - rewrite foldl_snoc, filter_app, length_app. destruct (foldl _ _ results) as [gs' fs'].
    specialize (IH _ _ eq_refl) as [Hok Hsz]. cbn.
    destruct r as [c'|e]; intros [= <- <-]; cbn.
    + split; [by apply add_cid_success_ok|]. rewrite group_size_add, Hsz.
      unfold filter at 2. cbn. destruct (decide (c' = c)) as [->|];
        case_decide as Hd; cbn in *; try done; apply bool_decide_unpack in Hd || destruct Hd; try done.
      by rewrite bool_decide_eq_true_2.
    + rewrite Nat.add_0_r. done.
Qed.

Lemma group_size_notin c gs : c ∉ gs.*1 → group_size c gs = 0%nat.
Proof.
  induction gs as [|g gs IH]; [done|]. rewrite fmap_cons, not_elem_of_cons, group_size_cons.
  intros [Hne Hni]. rewrite decide_False by congruence. by rewrite IH.
Qed.

Lemma group_size_in c ss gs : NoDup gs.*1 → (c, ss) ∈ gs → group_size c gs = length ss.
Proof.
  induction gs as [|g gs IH]; [by intros _ ?%elem_of_nil|].
  rewrite fmap_cons, NoDup_cons, group_size_cons, elem_of_cons. intros [Hni Hnd] [<-|Hin]; cbn in *.
  - rewrite decide_True by done. rewrite group_size_notin by done. lia.
  - rewrite IH by done. rewrite decide_False; [done|].
    intros <-. apply Hni. apply list_elem_of_fmap. by exists (g.1, ss).
Qed.

(** The sorted head is a group of maximal size. *)
Lemma sorted_groups_head groups g :
  groups_ok groups → head (sort_by group_leb groups) = Some g →
  g ∈ groups ∧ ∀ c, (group_size c groups ≤ length g.2)%nat.
Proof.
  intros [Hnd _] Hhd.
  assert (StronglySorted (λ a b, group_leb a b = true) (sort_by group_leb groups)) as Hs.
  { apply sort_by_sorted; unfold group_leb; intros *; rewrite ?bool_decide_eq_true, ?bool_decide_eq_false; lia. }
  pose proof (sort_by_perm group_leb groups) as Hp.
  destruct (sort_by group_leb groups) as [|g' l]; [done|]. cbn in Hhd. simplify_eq.
  split; [rewrite <- Hp; by left|]. intros c.
  destruct (decide (c ∈ groups.*1)) as [Hin|]; [|rewrite group_size_notin by done; lia].
  apply list_elem_of_fmap in Hin as ([c' ss] & -> & Hin). cbn.
  rewrite (group_size_in c' ss) by done. rewrite <- Hp in Hin.
  inversion Hs as [|? ? _ Hmax]; subst. apply elem_of_cons in Hin as [<-|Hin]; [done|].
  rewrite Forall_forall in Hmax. specialize (Hmax _ Hin).
  unfold group_leb in Hmax. by rewrite bool_decide_eq_true in Hmax.
Qed.

Lemma votes_results mp bs c :
  length (filter (λ r, answered c r.2) ((λ cl, (service_name cl, pin_bytes cl bs)) <$> clients mp))
  = votes mp bs c.
Proof.
  unfold votes. induction (clients mp) as [|cl cs IH]; [done|]. rewrite fmap_cons.
  rewrite !filter_cons. cbn. by case_decide; cbn; rewrite IH.
Qed.

(** The result of a pinning round, characterised by the votes. *)
Lemma multi_pin_bytes_votes mp bs :
  (∃ cid, multi_pin_bytes mp bs = Ok cid ∧ quorum mp ≤ votes mp bs cid ∧
     ∀ c, votes mp bs c ≤ votes mp bs cid)%nat ∨
  ((∃ e, multi_pin_bytes mp bs = Err e) ∧ ∀ c, 0 < quorum mp → votes mp bs c < quorum mp)%nat.
Proof.
  unfold multi_pin_bytes. destruct (collect_pins _) as [gs fs] eqn:Hc.
  pose proof (λ c, collect_pins_spec _ _ _ c Hc) as Hspec.
  assert (∀ c, votes mp bs c = group_size c gs) as Hv.
  { intros c. by rewrite <- votes_results, (proj2 (Hspec c)). }
  assert (∀ (n : result IpfsError Cid), (∃ e, n = Err e) → (∀ c, 0 < quorum mp → group_size c gs < quorum mp)%nat →
    (∃ e, n = Err e) ∧ ∀ c, 0 < quorum mp → votes mp bs c < quorum mp)%nat as Hbad.
  { intros n ? H. split; [done|]. intros c. rewrite Hv. apply H. }
  destruct (head (sort_by group_leb gs)) as [[cid ss]|] eqn:Hh.
  - destruct (Hspec cid) as [Hok _]. apply sorted_groups_head in Hh as [Hin Hmax]; [|done].
    assert (group_size cid gs = length ss) as Hs by (apply group_size_in; [apply Hok|done]).
    cbn in Hmax. case_decide as Hq.
    + left. exists cid. setoid_rewrite Hv. rewrite Hs. done.
    + right. apply Hbad; [destruct (raw_block_cid bs); cbn; eauto|].
      intros c ?. specialize (Hmax c). lia.
  - right. apply Hbad; [destruct (raw_block_cid bs); cbn; eauto|].
    pose proof (sort_by_perm group_leb gs) as Hp.
    destruct (sort_by group_leb gs); [|done]. apply Permutation_nil_l in Hp as <-. cbn. lia.
Qed.

Definition reports_present (r : result IpfsError bool) : bool :=
  match r with Ok true => true | _ => false end.

Lemma present_count mp cid :
  length (omap (λ r, match r.2 with Ok true => Some r.1 | _ => None end)
    ((λ c, (service_name c, contains c cid)) <$> clients mp)) =
  length (filter (λ cl, reports_present (contains cl cid)) (clients mp)).
Proof.
  induction (clients mp) as [|cl cs IH]; [done|]. rewrite filter_cons. cbn.
  destruct (contains cl cid) as [[]|]; cbn; by rewrite IH.
Qed.

Lemma failures_nil mp cid :
  omap (λ r, match r.2 with
    | Ok _ => None | Err e => Some (mkFailure r.1 (error_to_string e)) end)
    ((λ c, (service_name c, contains c cid)) <$> clients mp) = [] ↔
  Forall (λ cl, is_ok (contains cl cid) = true) (clients mp).
Proof.
  induction (clients mp) as [|cl cs IH]; [cbn; by split|]. cbn.
  rewrite Forall_cons, <- IH. destruct (contains cl cid); naive_solver.
Qed.

End ipfs.
Arguments IpfsError : clear implicits.
Arguments IpfsClient : clear implicits.
Arguments MultiPinner : clear implicits.
Arguments PinningCidMismatch : clear implicits.

(** ** Properties *)

(** Quorum agreement of [MultiPinner::pin_bytes]: a pinning round of a
    pinner accepted by [MultiPinner::new] succeeds exactly when some CID was
    returned by at least [quorum] services; the CID it returns has that many
    votes and no CID has more, and under a majority quorum it is the only CID
    that reaches the quorum. *)
Theorem multi_pin_bytes_quorum {Cid} `{EqDecision Cid} error_to_string raw_block_cid
    (cs : list (IpfsClient Cid)) q mp bs :
  multi_pinner_new cs q = Ok mp →
  ((∃ cid, multi_pin_bytes error_to_string raw_block_cid mp bs = Ok cid) ↔
     ∃ c, (q ≤ votes mp bs c)%nat) ∧
  ∀ cid, multi_pin_bytes error_to_string raw_block_cid mp bs = Ok cid →
    (q ≤ votes mp bs cid)%nat ∧ (∀ c, votes mp bs c ≤ votes mp bs cid)%nat ∧
    ((length cs < 2 * q)%nat → ∀ c, (q ≤ votes mp bs c)%nat → c = cid).
Proof.
  unfold multi_pinner_new. repeat case_decide; intros [= <-].
  pose proof (multi_pin_bytes_votes error_to_string raw_block_cid (mkMultiPinner cs q) bs) as Hv.
  pose proof (votes_disjoint (mkMultiPinner cs q) bs) as Hdis. cbn [quorum clients] in *.
  destruct Hv as [(cid & Hr & Hq & Hmax)|[(e & Hr) Hno]]; rewrite Hr; split.
  - split; [by exists cid|by exists cid].
  - intros ? [= <-]. split_and!; [done..|]. intros Hmaj c Hc.
    destruct (decide (c = cid)) as [|Hne]; [done|]. specialize (Hdis _ _ Hne). lia.
  - split; [by intros [? ?]|]. intros [c Hc]. specialize (Hno c). lia.
  - done.
Qed.

(** Availability answers of [MultiPinner::contains]: [Ok true] means that
    a quorum of services reported the CID present, [Ok false] that every
    service answered and fewer than a quorum reported it, and an error that
    some service failed and the quorum was not reached. *)
Theorem multi_contains_sound {Cid} (error_to_string : IpfsError Cid → string)
    (mp : MultiPinner Cid) (cid : Cid) :
  let present := length (filter (λ cl, reports_present (contains cl cid)) (clients mp)) in
  match multi_contains error_to_string mp cid with
  | Ok true => (quorum mp ≤ present)%nat
  | Ok false => (present < quorum mp)%nat ∧ Forall (λ cl, is_ok (contains cl cid) = true) (clients mp)
  | Err _ => (present < quorum mp)%nat ∧ Exists (λ cl, is_ok (contains cl cid) = false) (clients mp)
  end.
Proof.
  cbn zeta. unfold multi_contains. rewrite present_count.
  pose proof (failures_nil error_to_string mp cid) as Hf.
  case_decide as Hq; [done|]. case_decide as Hn; split; try lia.
  - by apply Hf.
  - rewrite Hf in Hn. apply not_Forall_Exists in Hn; [|intros cl; apply (decide (_ = true))].
    eapply Exists_impl; [exact Hn|]. intros cl; cbn. by destruct (contains cl cid) as [[]|].
Qed.

(** Three services, two of which agree. *)
Definition sample_client (name : string) (answer : result (IpfsError nat) nat) : IpfsClient nat :=
  mkClient name (λ _, answer) (λ _, Ok tt) (λ _, Ok true).
Definition sample_clients : list (IpfsClient nat) :=
  [sample_client "a" (Ok 7%nat); sample_client "b" (Ok 9%nat); sample_client "c" (Ok 7%nat)].

Lemma multi_pin_bytes_quorum_witness :
  ∃ mp, multi_pinner_new sample_clients 2 = Ok mp ∧
    (∀ c, (2 ≤ votes mp [] c)%nat → c = 7%nat).
Proof.
  destruct (multi_pinner_new sample_clients 2) as [mp|e] eqn:E; [|vm_compute in E; discriminate].
  exists mp. split; [reflexivity|].
  destruct (multi_pin_bytes_quorum (λ _, "error"%string) (λ _, Ok 0%nat) sample_clients 2 mp [] E)
    as [_ H]. injection E as <-.
  destruct (H 7%nat) as (_ & _ & Hm); [by vm_compute|]. apply Hm. by vm_compute.
Defined.
