(* ===== verification/Artifacts.v ===== *)
(** * Artifact types shared by the chunk encoders

    The descriptor, envelope and range types of the artifact crate as far as
    this repository builds and reads them ([chunk.rs] and [manifest.rs]
    re-export them), and the class [ArtifactCrate] of the crate's operations:
    the chunk codec, its limits, and the digests. Their code is outside the
    repository, so every theorem is stated for any implementation. *)

From S2P Require Import Prelude Wire.

Inductive IndexedDatasetKind := WalletScan | Commitments | MerkleCheckpoint | PublicTxid.
Inductive IndexedArtifactRangeKind := Block | TxidIndex | TreePosition | PoiEventIndex.
Inductive CompressionAlgorithm := CompressionNone | Zstd.
Inductive ChainType := Evm.

#[export] Instance IndexedDatasetKind_eq_dec : EqDecision IndexedDatasetKind.
Proof. solve_decision. Defined.
#[export] Instance IndexedArtifactRangeKind_eq_dec : EqDecision IndexedArtifactRangeKind.
Proof. solve_decision. Defined.

#[export] Instance ChainType_eq_dec : EqDecision ChainType.
Proof. solve_decision. Defined.

Record ChainScope := mkScope {
  chain_type : ChainType;
  chain_id : Z;
  railgun_contract : Z;
}.

#[export] Instance ChainScope_eq_dec : EqDecision ChainScope.
Proof. solve_decision. Defined.

Record IndexedArtifactRange := mkRange {
  range_kind : IndexedArtifactRangeKind;
  range_start : Z;
  range_end : Z;
}.

Record ChunkSection := mkSection {
  section_id : Z;
  section_offset : Z;
  section_byte_length : Z;
}.

Record ChunkEnvelopeHeader := mkHeader {
  header_dataset_kind : IndexedDatasetKind;
  header_scope : ChainScope;
  header_range : IndexedArtifactRange;
  header_row_count : Z;
  header_payload_len : Z;
  header_sections : list ChunkSection;
}.

Record ChunkEnvelope := mkEnvelope {
  envelope_header : ChunkEnvelopeHeader;
  envelope_payload : bytes;
}.

Record DatasetDescriptorMetadata := mkMetadata {
  meta_root : option bytes;
  meta_checkpoint_block : option Z;
  meta_tree_number : option Z;
  meta_leaf_count : option Z;
  meta_start_block : option Z;
  meta_end_block : option Z;
  meta_last_indexed_block : option Z;
}.

Record IndexedArtifactDescriptor := mkDescriptor {
  desc_dataset_kind : IndexedDatasetKind;
  desc_scope : ChainScope;
  desc_range : IndexedArtifactRange;
  desc_row_count : Z;
  desc_cid : string;
  desc_sha256 : bytes;
  desc_byte_size : Z;
  desc_encoding_version : Z;
  desc_compression : CompressionAlgorithm;
  desc_metadata : DatasetDescriptorMetadata;
}.

Record ChunkPlanItem := mkPlanItem {
  plan_range : IndexedArtifactRange;
  plan_row_count : Z;
  plan_compressed_byte_size : Z;
}.

(** A prepared chunk: its descriptor, still without CID, and its bytes. *)
Record PublishedChunk := mkPublished {
  published_descriptor : IndexedArtifactDescriptor;
  published_bytes : bytes;
}.

Definition set_cid (d : IndexedArtifactDescriptor) (cid : string) : IndexedArtifactDescriptor :=
  mkDescriptor (desc_dataset_kind d) (desc_scope d) (desc_range d) (desc_row_count d) cid
    (desc_sha256 d) (desc_byte_size d) (desc_encoding_version d) (desc_compression d)
    (desc_metadata d).

(** What the encoders use of the artifact crate. *)
Class ArtifactCrate := {
  MAX_COMPRESSED_CHUNK_BYTES : Z;
  CHUNK_FORMAT_VERSION : Z;
  encode_chunk_bytes : ChunkEnvelope → CompressionAlgorithm → result ChunkError bytes;
  decode_chunk_bytes : IndexedArtifactDescriptor → bytes → result ChunkError ChunkEnvelope;
  (** [ChunkEnvelope::section_payload] *)
  section_payload : ChunkEnvelope → Z → result string bytes;
  sha256 : bytes → bytes;
}.

(** An executable instance for evaluating witnesses: the codec is the payload
    itself behind its length, without compression, and a section is cut out of
    the payload by its offset and length. *)
Definition plain_section (env : ChunkEnvelope) (id : Z) : result string bytes :=
  match list_find (λ s, section_id s = id) (header_sections (envelope_header env)) with
  | Some (_, s) =>
      ok_or (slice (envelope_payload env) (Z.to_nat (section_offset s))
               (Z.to_nat (section_offset s + section_byte_length s)))
        "section outside payload"%string
  | None => Err "missing section"%string
  end.

Definition plain_crate : ArtifactCrate := {|
  MAX_COMPRESSED_CHUNK_BYTES := 10 * 2 ^ 20;
  CHUNK_FORMAT_VERSION := 1;
  encode_chunk_bytes := λ env _, Ok (le_bytes 8 (header_payload_len (envelope_header env)) ++ envelope_payload env);
  decode_chunk_bytes := λ _ _, Err (ChunkCodec 0);
  section_payload := plain_section;
  sha256 := λ bs, be_bytes 32 (le_value bs);
|}.

(** The smallest and largest of a non-empty list of integers
    ([iter().min()] / [iter().max()]). *)
Definition min_list (l : list Z) : option Z :=
  match l with [] => None | x :: l => Some (foldl Z.min x l) end.
Definition max_list (l : list Z) : option Z :=
  match l with [] => None | x :: l => Some (foldl Z.max x l) end.

Lemma foldl_min_le l x : foldl Z.min x l ≤ x ∧ Forall (λ y, foldl Z.min x l ≤ y) l.
Proof.
  revert x. induction l as [|y l IH]; intros x; cbn; [split; [lia|constructor]|].
  destruct (IH (x `min` y)) as [Hx Hl]. split; [lia|]. constructor; [lia|done].
Qed.

Lemma foldl_max_ge l x : x ≤ foldl Z.max x l ∧ Forall (λ y, y ≤ foldl Z.max x l) l.
Proof.
  revert x. induction l as [|y l IH]; intros x; cbn; [split; [lia|constructor]|].
  destruct (IH (x `max` y)) as [Hx Hl]. split; [lia|]. constructor; [lia|done].
Qed.

Lemma min_list_spec l m : min_list l = Some m → Forall (λ y, m ≤ y) l.
Proof.
  destruct l as [|x l]; [done|]. intros [= <-]. destruct (foldl_min_le l x). by constructor.
Qed.

Lemma max_list_spec l m : max_list l = Some m → Forall (λ y, y ≤ m) l.
Proof.
  destruct l as [|x l]; [done|]. intros [= <-]. destruct (foldl_max_ge l x). by constructor.
Qed.
