(* ===== verification/CommitmentChunk.v ===== *)
(** * Commitment chunks ([commitments.rs])

    [prepare_commitment_chunk] turns stored commitment rows into a chunk
    envelope and its descriptor; [parse_commitment_payload] of the parity
    verifier reads the payload back. *)

From S2P Require Import Prelude Wire Ipfs Artifacts.

Inductive StoredCommitmentFamily := FamTransact | FamShield | FamLegacyEncrypted | FamLegacyGenerated.

Record StoredCommitmentRow := mkCommitmentRow {
  sc_global_position : Z;
  sc_block_number : Z;
  sc_family : StoredCommitmentFamily;
  sc_tree_number : Z;
  sc_tree_position : Z;
  sc_commitment_hash : bytes;
}.

Inductive CommitmentChunkError {Cid : Type} :=
  | EmptyChunk
  | NonIncreasingGlobalPosition (previous actual : Z)
  | GlobalPositionOverflow
  | Chunk (e : ChunkError)
  | Ipfs (e : IpfsError Cid).
Arguments CommitmentChunkError : clear implicits.

Definition COMMITMENT_RECORD_SECTION_ID : Z := 1.

Definition commitment_family_id (value : StoredCommitmentFamily) : Z :=
  match value with
  | FamTransact => 0
  | FamShield => 1
  | FamLegacyEncrypted => 2
  | FamLegacyGenerated => 3
  end.

Section commitments.
Context {Cid : Type} `{ArtifactCrate}.

Definition commitment_range (records : list StoredCommitmentRow)
    : result (CommitmentChunkError Cid) IndexedArtifactRange :=
  first ← ok_or (head records) EmptyChunk;
  last ← try_fold (λ previous record,
      if decide (sc_global_position record ≤ previous)
      then Err (NonIncreasingGlobalPosition previous (sc_global_position record))
      else Ok (sc_global_position record))
    (sc_global_position first) (drop 1 records);
  Ok (mkRange TreePosition (sc_global_position first) last).

Definition encode_commitment_record (bs : bytes) (record : StoredCommitmentRow) : bytes :=
  let bs := write_u64 bs (sc_global_position record) in
  let bs := write_u64 bs (sc_block_number record) in
  let bs := bs ++ [byte_of_Z (commitment_family_id (sc_family record))] in
  let bs := write_u32 bs (sc_tree_number record) in
  let bs := write_u64 bs (sc_tree_position record) in
  bs ++ sc_commitment_hash record.

Definition encode_commitment_records (records : list StoredCommitmentRow) : result ChunkError bytes :=
  bs ← write_len [] (length records);
  let bs := foldl encode_commitment_record bs records in
  _ ← ok_or (try_from_len u64_max (length bs)) PayloadTooLarge;
  Ok bs.

Definition commitment_envelope (scope : ChainScope) (range : IndexedArtifactRange)
    (row_count payload_len : Z) (payload : bytes) : ChunkEnvelope :=
  mkEnvelope
    (mkHeader Commitments scope range row_count payload_len
       [mkSection COMMITMENT_RECORD_SECTION_ID 0 payload_len])
    payload.

Definition encode_commitment_envelope (scope : ChainScope) (range : IndexedArtifactRange)
    (row_count payload_len : Z) (payload : bytes) (compression : CompressionAlgorithm)
    : result ChunkError bytes :=
  encode_chunk_bytes (commitment_envelope scope range row_count payload_len payload) compression.

Definition commitment_chunk_plan_item (scope : ChainScope) (records : list StoredCommitmentRow)
    (compression : CompressionAlgorithm) : result (CommitmentChunkError Cid) ChunkPlanItem :=
  range ← commitment_range records;
  payload ← map_err Chunk (encode_commitment_records records);
  payload_len ← map_err Chunk (ok_or (try_from_len u64_max (length payload)) PayloadTooLarge);
  row_count ← map_err Chunk (ok_or (try_from_len u64_max (length records)) PayloadTooLarge);
  compressed_bytes ← map_err Chunk
    (encode_commitment_envelope scope range row_count payload_len payload compression);
  size ← map_err Chunk (ok_or (try_from_len u64_max (length compressed_bytes)) PayloadTooLarge);
  Ok (mkPlanItem range row_count size).

Definition prepare_commitment_chunk (scope : ChainScope) (records : list StoredCommitmentRow)
    (compression : CompressionAlgorithm) : result (CommitmentChunkError Cid) PublishedChunk :=
  range ← commitment_range records;
  payload ← map_err Chunk (encode_commitment_records records);
  payload_len ← map_err Chunk (ok_or (try_from_len u64_max (length payload)) PayloadTooLarge);
  row_count ← map_err Chunk (ok_or (try_from_len u64_max (length records)) PayloadTooLarge);
  min_block ← ok_or (min_list (sc_block_number <$> records)) EmptyChunk;
  max_block ← ok_or (max_list (sc_block_number <$> records)) EmptyChunk;
  compressed_bytes ← map_err Chunk
    (encode_commitment_envelope scope range row_count payload_len payload compression);
  byte_size ← map_err Chunk (ok_or (try_from_len u64_max (length compressed_bytes)) PayloadTooLarge);
  if decide (MAX_COMPRESSED_CHUNK_BYTES < byte_size)
  then Err (Chunk (ChunkTooLarge byte_size MAX_COMPRESSED_CHUNK_BYTES))
  else
    Ok (mkPublished
      (mkDescriptor Commitments scope range row_count "" (sha256 compressed_bytes) byte_size
         CHUNK_FORMAT_VERSION compression
         (mkMetadata None (Some max_block) None None (Some min_block) (Some max_block)
            (Some max_block)))
      compressed_bytes).

Definition publish_commitment_chunk (cid_to_string : Cid → string) (client : IpfsClient Cid)
    (scope : ChainScope) (records : list StoredCommitmentRow)
    (compression : CompressionAlgorithm) : result (CommitmentChunkError Cid) PublishedChunk :=
  published ← prepare_commitment_chunk scope records compression;
  cid ← map_err Ipfs (pin_indexed_chunk client (published_bytes published));
  Ok (mkPublished (set_cid (published_descriptor published) (cid_to_string cid))
        (published_bytes published)).

End commitments.

(** ** The verifier's reader *)
Record CommitmentRow := mkParsedCommitment {
  cr_global_position : Z;
  cr_block_number : Z;
  cr_tree_number : Z;
  cr_tree_position : Z;
  cr_hash : bytes;
}.

Definition parse_commitment_row : reader CommitmentRow :=
  global_position ← SquidCursor.read_u64;
  block_number ← SquidCursor.read_u64;
  _ ← SquidCursor.read_u8;
  tree_number ← SquidCursor.read_u32;
  tree_position ← SquidCursor.read_u64;
  hash ← SquidCursor.read_fixed_32;
  mret (mkParsedCommitment global_position block_number tree_number tree_position hash).

Definition parse_commitment_rows : reader (list CommitmentRow) :=
  count ← SquidCursor.read_u64;
  count_usize ← reader_lift (ok_or (try_from usize_max count) "commitment row count overflow"%string);
  read_n (Z.to_nat count_usize) parse_commitment_row.

Definition parse_commitment_payload (envelope : ChunkEnvelope) : result string (list CommitmentRow) :=
  '(rows, _) ←
    (rows ← parse_commitment_rows;
     _ ← SquidCursor.expect_end "commitment payload";
     mret rows) (cursor_new (envelope_payload envelope));
  n ← ok_or (try_from_len u64_max (length rows)) "commitment len overflow"%string;
  if decide (n ≠ header_row_count (envelope_header envelope))
  then Err "commitment row count does not match chunk header"%string
  else Ok rows.

(** ** Well-formed rows

    The field types of [StoredCommitmentRow]. *)
Definition commitment_row_wf (r : StoredCommitmentRow) : Prop :=
  is_u64 (sc_global_position r) ∧ is_u64 (sc_block_number r) ∧ is_u32 (sc_tree_number r) ∧
  is_u64 (sc_tree_position r) ∧ length (sc_commitment_hash r) = 32%nat.

(** What the verifier keeps of a row: everything but the family byte. *)
Definition parsed_commitment (r : StoredCommitmentRow) : CommitmentRow :=
  mkParsedCommitment (sc_global_position r) (sc_block_number r) (sc_tree_number r)
    (sc_tree_position r) (sc_commitment_hash r).

Definition commitment_record_bytes (r : StoredCommitmentRow) : bytes :=
  le_bytes 8 (sc_global_position r) ++ le_bytes 8 (sc_block_number r) ++
  [byte_of_Z (commitment_family_id (sc_family r))] ++ le_bytes 4 (sc_tree_number r) ++
  le_bytes 8 (sc_tree_position r) ++ sc_commitment_hash r ++ [].

Lemma encode_commitment_record_app bs r :
  encode_commitment_record bs r = bs ++ commitment_record_bytes r.
Proof.
  unfold encode_commitment_record, commitment_record_bytes, write_u64, write_u32.
  by rewrite app_nil_r, <- !app_assoc.
Qed.

Lemma parse_commitment_row_reads r :
  commitment_row_wf r → reads parse_commitment_row (commitment_record_bytes r) (parsed_commitment r).
Proof. intros (? & ? & ? & ? & ?). unfold parse_commitment_row. reads_steps. Qed.

Lemma encode_commitment_records_Ok records bs :
  encode_commitment_records records = Ok bs →
  bs = le_bytes 8 (Z.of_nat (length records)) ++ concat (commitment_record_bytes <$> records) ∧
  Z.of_nat (length records) ≤ u64_max ∧ Z.of_nat (length bs) ≤ u64_max.
Proof.
  unfold encode_commitment_records, write_len. intros H. res_inv. int_facts.
  by rewrite <- (foldl_append encode_commitment_record) by apply encode_commitment_record_app.
Qed.

Lemma parse_commitment_rows_reads records :
  Forall commitment_row_wf records → Z.of_nat (length records) ≤ u64_max →
  reads parse_commitment_rows
    (le_bytes 8 (Z.of_nat (length records)) ++ concat (commitment_record_bytes <$> records))
    (parsed_commitment <$> records).
Proof.
  intros Hwf Hlen. eapply reads_bind; [done| |].
  { apply squid_read_u64. unfold in_u. lia. }
  eapply (reads_bind _ _ []); [done|by apply reads_lift; rewrite try_from_fits|].
  apply reads_n; [lia|]. intros r Hr.
  apply parse_commitment_row_reads. by rewrite Forall_forall in Hwf; apply Hwf.
Qed.

Definition strictly_increasing (l : list Z) : Prop := StronglySorted Z.lt l.

(** The position check of [commitment_range] after a first position. *)
Lemma position_loop {Cid} p records q :
  try_fold (λ previous record,
      if decide (sc_global_position record ≤ previous)
      then Err (NonIncreasingGlobalPosition previous (sc_global_position record))
      else Ok (sc_global_position record) : result (CommitmentChunkError Cid) Z) p records = Ok q →
  strictly_increasing (p :: (sc_global_position <$> records)) ∧
  last (p :: (sc_global_position <$> records)) = Some q.
Proof.
  revert p. induction records as [|r records IH]; intros p; cbn -[last].
  - intros [= <-]. split; [repeat constructor|done].
  - case_decide; cbn -[last]; [done|]. intros [Hs Hl]%IH. split; [|done].
    constructor; [done|]. constructor; [lia|].
    inversion Hs as [|? ? _ Hall]; subst. eapply Forall_impl; [exact Hall|]. cbn. lia.
Qed.

Lemma commitment_range_Ok {Cid} records rg :
  commitment_range (Cid := Cid) records = Ok rg →
  strictly_increasing (sc_global_position <$> records) ∧
  range_kind rg = TreePosition ∧
  head (sc_global_position <$> records) = Some (range_start rg) ∧
  last (sc_global_position <$> records) = Some (range_end rg).
Proof.
  unfold commitment_range. destruct records as [|r records]; cbn -[last]; [done|].
  intros H. res_inv. rewrite drop_0 in E. apply position_loop in E as [? ?]. done.
Qed.

(** Row counts, block bounds and size recorded by a successful preparation. *)
Lemma prepare_commitment_chunk_Ok {Cid} `{ArtifactCrate} scope records compression pub :
  prepare_commitment_chunk (Cid := Cid) scope records compression = Ok pub →
  ∃ payload,
    encode_commitment_records records = Ok payload ∧
    commitment_range (Cid := Cid) records = Ok (desc_range (published_descriptor pub)) ∧
    encode_chunk_bytes (commitment_envelope scope (desc_range (published_descriptor pub))
      (Z.of_nat (length records)) (Z.of_nat (length payload)) payload) compression
      = Ok (published_bytes pub) ∧
    desc_row_count (published_descriptor pub) = Z.of_nat (length records) ∧
    desc_byte_size (published_descriptor pub) = Z.of_nat (length (published_bytes pub)) ∧
    desc_byte_size (published_descriptor pub) ≤ MAX_COMPRESSED_CHUNK_BYTES ∧
    min_list (sc_block_number <$> records) = meta_start_block (desc_metadata (published_descriptor pub)) ∧
    max_list (sc_block_number <$> records) = meta_end_block (desc_metadata (published_descriptor pub)).
Proof.
  unfold prepare_commitment_chunk, encode_commitment_envelope. intros Hp. res_inv.
  case_decide; [done|]. res_inv. cbn.
  int_facts.
  eexists. split_and!; try done. lia.
Qed.

(** The envelope of a prepared chunk holds its rows. *)
Lemma commitment_chunk_envelope {Cid} `{ArtifactCrate} scope records compression pub :
  Forall commitment_row_wf records →
  prepare_commitment_chunk (Cid := Cid) scope records compression = Ok pub →
  ∃ env, encode_chunk_bytes env compression = Ok (published_bytes pub) ∧
    parse_commitment_payload env = Ok (parsed_commitment <$> records).
Proof.
  intros Hwf (payload & Hpay & _ & Henc & _)%prepare_commitment_chunk_Ok.
  apply encode_commitment_records_Ok in Hpay as (-> & Hn & Hlen).
  eexists. split; [exact Henc|]. unfold parse_commitment_payload. cbn [envelope_payload commitment_envelope].
  rewrite (reads_to_end _ _ _ _ (parse_commitment_rows_reads records Hwf Hn)) by done.
  cbn. rewrite length_fmap, try_from_len_fits by done. cbn. by rewrite decide_False by lia.
Qed.

(** ** Properties *)

(** C31. Round trip of commitment chunks: whenever [prepare_commitment_chunk]
    accepts rows with well-formed fields, the bytes it publishes are the
    encoding of an envelope from which the verifier's
    [parse_commitment_payload] recovers every row, in order; the descriptor's
    row count, size limit, position range and block bounds describe exactly
    those rows, whose positions are strictly increasing. *)
Theorem commitment_chunk_roundtrip {Cid} `{ArtifactCrate} scope records compression pub :
  Forall commitment_row_wf records →
  prepare_commitment_chunk (Cid := Cid) scope records compression = Ok pub →
  let d := published_descriptor pub in
  (∃ env, encode_chunk_bytes env compression = Ok (published_bytes pub) ∧
     parse_commitment_payload env = Ok (parsed_commitment <$> records)) ∧
  desc_row_count d = Z.of_nat (length records) ∧
  desc_byte_size d = Z.of_nat (length (published_bytes pub)) ∧
  desc_byte_size d ≤ MAX_COMPRESSED_CHUNK_BYTES ∧
  strictly_increasing (sc_global_position <$> records) ∧
  head (sc_global_position <$> records) = Some (range_start (desc_range d)) ∧
  last (sc_global_position <$> records) = Some (range_end (desc_range d)) ∧
  ∃ lo hi, meta_start_block (desc_metadata d) = Some lo ∧ meta_end_block (desc_metadata d) = Some hi ∧
    Forall (λ r, lo ≤ sc_block_number r ≤ hi) records.
Proof.
  intros Hwf Hp. pose proof (commitment_chunk_envelope _ _ _ _ Hwf Hp) as Henv.
  apply prepare_commitment_chunk_Ok in Hp as (payload & _ & Hrg & _ & Hrows & Hsz & Hmax & Hlo & Hhi).
  apply commitment_range_Ok in Hrg as (Hs & _ & Hh & Hl). cbn. split_and!; try done.
  destruct (min_list _) as [lo|] eqn:Elo; [|by destruct records].
  destruct (max_list _) as [hi|] eqn:Ehi; [|by destruct records].
  exists lo, hi. split_and!; [done..|].
  apply min_list_spec in Elo. apply max_list_spec in Ehi.
  rewrite Forall_fmap, Forall_forall in Elo, Ehi. apply Forall_forall. intros r Hr.
  specialize (Elo r Hr). specialize (Ehi r Hr). cbn in *. lia.
Qed.

Definition sample_scope : ChainScope := mkScope Evm 1 0.
Definition sample_commitments : list StoredCommitmentRow :=
  [mkCommitmentRow 65536 100 FamShield 1 0 (be_bytes 32 11);
   mkCommitmentRow 65538 101 FamLegacyGenerated 1 2 (be_bytes 32 22)].

(** The round trip at two concrete rows. *)
Lemma commitment_chunk_roundtrip_witness :
  ∃ pub env,
    prepare_commitment_chunk (Cid := Z) (H := plain_crate) sample_scope sample_commitments Zstd = Ok pub ∧
    encode_chunk_bytes (ArtifactCrate := plain_crate) env Zstd = Ok (published_bytes pub) ∧
    parse_commitment_payload env = Ok (parsed_commitment <$> sample_commitments).
Proof.
  destruct (prepare_commitment_chunk (Cid := Z) (H := plain_crate) sample_scope sample_commitments Zstd)
    as [pub|e] eqn:E; [|vm_compute in E; discriminate].
  assert (Forall commitment_row_wf sample_commitments) as Hwf
    by (repeat constructor; vm_compute; congruence).
  destruct (commitment_chunk_roundtrip (H := plain_crate) _ _ _ _ Hwf E) as [(env & Henc & Hparse) _].
  exists pub, env. auto.
Defined.
