(* ===== verification/MerkleCheckpointChunk.v ===== *)
(** * Merkle checkpoints ([merkle_checkpoint.rs])

    A checkpoint publishes the leaves of one commitment tree with the tree's
    root. [checkpoint_root] computes the root from the occupied prefix of each
    layer only; the verifier's [merkle_root]
    ([verify_indexed_squid_parity.rs]) hashes the full, zero-padded tree. *)

From S2P Require Import Prelude Wire Ipfs Artifacts.

(** The tree constants and the hash come from another crate. *)
Class TreeCrate := {
  TREE_DEPTH : nat;
  TREE_LEAF_COUNT : Z;
  MERKLE_ZERO_VALUE : Z;
  poseidon : list Z → Z;
  (** a binary tree of depth [TREE_DEPTH] with word-sized leaves *)
  tree_leaf_count_pow : TREE_LEAF_COUNT = 2 ^ Z.of_nat TREE_DEPTH;
  tree_leaf_count_u64 : TREE_LEAF_COUNT ≤ u32_max;
}.

Record MerkleCheckpointArtifact := mkCheckpoint {
  mc_tree_number : Z;
  mc_leaf_count : Z;
  mc_last_indexed_block : Z;
  mc_leaves : list bytes;
}.

Inductive MerkleCheckpointArtifactError {Cid : Type} :=
  | EmptyCheckpoint
  | LeafCountTooLarge (leaf_count maximum : Z)
  | LeafCountMismatch (declared actual : Z)
  | TreeNumberOutOfRange (tree_number : Z)
  | RangeOverflow
  | Chunk (e : ChunkError)
  | Ipfs (e : IpfsError Cid).
Arguments MerkleCheckpointArtifactError : clear implicits.

Definition MERKLE_CHECKPOINT_SECTION_ID : Z := 1.

Section merkle.
Context `{TreeCrate}.

(** [layer.as_chunks::<2>().0] hashed pairwise; an odd last element is not a
    chunk. *)
Fixpoint hash_pairs (layer : list Z) : list Z :=
  match layer with
  | a :: b :: layer => poseidon [a; b] :: hash_pairs layer
  | _ => []
  end.

Fixpoint checkpoint_layers (depth : nat) (layer : list Z) (empty_subtree_root : Z) : list Z :=
  match depth with
  | O => layer
  | S depth =>
      let layer := if Nat.even (length layer) then layer else layer ++ [empty_subtree_root] in
      checkpoint_layers depth (hash_pairs layer) (poseidon [empty_subtree_root; empty_subtree_root])
  end.

Definition checkpoint_root (checkpoint : MerkleCheckpointArtifact) : bytes :=
  let layer := be_value <$> mc_leaves checkpoint in
  be_bytes 32 (default MERKLE_ZERO_VALUE (head (checkpoint_layers TREE_DEPTH layer MERKLE_ZERO_VALUE))).

Section publish.
Context {Cid : Type} `{ArtifactCrate}.

Definition validate_checkpoint (checkpoint : MerkleCheckpointArtifact)
    : result (MerkleCheckpointArtifactError Cid) unit :=
  if decide (mc_leaf_count checkpoint = 0) then Err EmptyCheckpoint
  else if decide (TREE_LEAF_COUNT < mc_leaf_count checkpoint)
  then Err (LeafCountTooLarge (mc_leaf_count checkpoint) TREE_LEAF_COUNT)
  else
    leaf_len ← map_err Chunk (ok_or (try_from_len u64_max (length (mc_leaves checkpoint))) PayloadTooLarge);
    if decide (leaf_len ≠ mc_leaf_count checkpoint)
    then Err (LeafCountMismatch (mc_leaf_count checkpoint) leaf_len)
    else Ok tt.

Definition checkpoint_range (checkpoint : MerkleCheckpointArtifact)
    : result (MerkleCheckpointArtifactError Cid) IndexedArtifactRange :=
  start ← ok_or (checked_mul u64_max (mc_tree_number checkpoint) TREE_LEAF_COUNT) RangeOverflow;
  stop ← ok_or (checked_add u64_max start (mc_leaf_count checkpoint - 1)) RangeOverflow;
  Ok (mkRange TreePosition start stop).

Definition encode_merkle_checkpoint (checkpoint : MerkleCheckpointArtifact) (root : bytes)
    : result ChunkError bytes :=
  let bs := write_u32 [] (mc_tree_number checkpoint) in
  let bs := write_u64 bs (mc_leaf_count checkpoint) in
  let bs := bs ++ root in
  let bs := write_u64 bs (mc_last_indexed_block checkpoint) in
  let bs := foldl app bs (mc_leaves checkpoint) in
  _ ← ok_or (try_from_len u64_max (length bs)) PayloadTooLarge;
  Ok bs.

Definition checkpoint_envelope (scope : ChainScope) (range : IndexedArtifactRange)
    (leaf_count payload_len : Z) (payload : bytes) : ChunkEnvelope :=
  mkEnvelope
    (mkHeader MerkleCheckpoint scope range leaf_count payload_len
       [mkSection MERKLE_CHECKPOINT_SECTION_ID 0 payload_len])
    payload.

Definition prepare_merkle_checkpoint_artifact (scope : ChainScope)
    (checkpoint : MerkleCheckpointArtifact) (compression : CompressionAlgorithm)
    : result (MerkleCheckpointArtifactError Cid) PublishedChunk :=
  _ ← validate_checkpoint checkpoint;
  let root := checkpoint_root checkpoint in
  range ← checkpoint_range checkpoint;
  payload ← map_err Chunk (encode_merkle_checkpoint checkpoint root);
  payload_len ← map_err Chunk (ok_or (try_from_len u64_max (length payload)) PayloadTooLarge);
  compressed_bytes ← map_err Chunk
    (encode_chunk_bytes
       (checkpoint_envelope scope range (mc_leaf_count checkpoint) payload_len payload) compression);
  byte_size ← map_err Chunk (ok_or (try_from_len u64_max (length compressed_bytes)) PayloadTooLarge);
  if decide (MAX_COMPRESSED_CHUNK_BYTES < byte_size)
  then Err (Chunk (ChunkTooLarge byte_size MAX_COMPRESSED_CHUNK_BYTES))
  else
    tree_number ← ok_or (try_from u16_max (mc_tree_number checkpoint))
      (TreeNumberOutOfRange (mc_tree_number checkpoint));
    Ok (mkPublished
      (mkDescriptor MerkleCheckpoint scope range (mc_leaf_count checkpoint) ""
         (sha256 compressed_bytes) byte_size CHUNK_FORMAT_VERSION compression
         (mkMetadata (Some root) (Some (mc_last_indexed_block checkpoint)) (Some tree_number)
            (Some (mc_leaf_count checkpoint)) None None (Some (mc_last_indexed_block checkpoint))))
      compressed_bytes).

Definition publish_merkle_checkpoint_artifact (cid_to_string : Cid → string) (client : IpfsClient Cid)
    (scope : ChainScope) (checkpoint : MerkleCheckpointArtifact)
    (compression : CompressionAlgorithm) : result (MerkleCheckpointArtifactError Cid) PublishedChunk :=
  published ← prepare_merkle_checkpoint_artifact scope checkpoint compression;
  cid ← map_err Ipfs (pin_indexed_chunk client (published_bytes published));
  Ok (mkPublished (set_cid (published_descriptor published) (cid_to_string cid))
        (published_bytes published)).
End publish.

(** ** The verifier *)
Record ParsedCheckpoint := mkParsedCheckpoint {
  pc_descriptor : IndexedArtifactDescriptor;
  pc_tree_number : Z;
  pc_leaf_count : Z;
  pc_root : bytes;
  pc_last_indexed_block : Z;
  pc_leaves : list bytes;
}.

Fixpoint fill_layer (layer : list Z) (index : nat) (leaves : list bytes) : result string (list Z) :=
  match leaves with
  | [] => Ok layer
  | leaf :: leaves =>
      if decide (length layer ≤ index)%nat then Err "leaf count exceeds tree size"%string
      else fill_layer (<[index := be_value leaf]> layer) (S index) leaves
  end.

Fixpoint full_layers (depth : nat) (layer : list Z) : list Z :=
  match depth with
  | O => layer
  | S depth => full_layers depth (hash_pairs layer)
  end.

Definition merkle_root (leaves : list bytes) : result string bytes :=
  leaf_count ← ok_or (try_from usize_max TREE_LEAF_COUNT) "tree leaf count overflow"%string;
  layer ← fill_layer (replicate (Z.to_nat leaf_count) MERKLE_ZERO_VALUE) 0 leaves;
  Ok (be_bytes 32 (default MERKLE_ZERO_VALUE (head (full_layers TREE_DEPTH layer)))).

Definition parse_checkpoint_fields : reader (Z * Z * bytes * Z * list bytes) :=
  tree_number ← SquidCursor.read_u32;
  leaf_count ← SquidCursor.read_u64;
  root ← SquidCursor.read_fixed_32;
  last_indexed_block ← SquidCursor.read_u64;
  leaf_count_usize ← reader_lift (ok_or (try_from usize_max leaf_count) "checkpoint leaf count overflow"%string);
  leaves ← read_n (Z.to_nat leaf_count_usize) SquidCursor.read_fixed_32;
  mret (tree_number, leaf_count, root, last_indexed_block, leaves).

Definition parse_merkle_checkpoint_payload (descriptor : IndexedArtifactDescriptor)
    (envelope : ChunkEnvelope) : result string ParsedCheckpoint :=
  '(fields, _) ←
    (fields ← parse_checkpoint_fields;
     _ ← SquidCursor.expect_end "merkle checkpoint payload";
     mret fields) (cursor_new (envelope_payload envelope));
  let '(tree_number, leaf_count, root, last_indexed_block, leaves) := fields in
  computed ← merkle_root leaves;
  if decide (computed ≠ root)
  then Err ("checkpoint payload root mismatch for chunk " +:+ desc_cid descriptor)%string
  else Ok (mkParsedCheckpoint descriptor tree_number leaf_count root last_indexed_block leaves).

(** ** The reference tree

    The root of a perfect tree over a list of leaves, by halving the list. *)
Fixpoint tree_root (depth : nat) (leaves : list Z) : Z :=
  match depth with
  | O => default MERKLE_ZERO_VALUE (head leaves)
  | S depth =>
      poseidon [tree_root depth (take (2 ^ depth) leaves); tree_root depth (drop (2 ^ depth) leaves)]
  end.
End merkle.

(** ** Lemmas on layers *)
Section layers.
Context `{TreeCrate}.

Lemma list_pair_ind (P : list Z → Prop) :
  P [] → (∀ a, P [a]) → (∀ a b l, P l → P (a :: b :: l)) → ∀ l, P l.
Proof.
  intros H0 H1 H2. fix IH 1. intros [|a [|b l]]; [done|done|]. apply H2, IH.
Qed.

Lemma hash_pairs_app l1 l2 :
  Nat.even (length l1) = true → hash_pairs (l1 ++ l2) = hash_pairs l1 ++ hash_pairs l2.
Proof. revert l1. apply (list_pair_ind (λ l1, _ → _)); cbn; [done|done|]. intros. f_equal. auto. Qed.

Lemma hash_pairs_length l : length (hash_pairs l) = Nat.div2 (length l).
Proof. revert l. apply list_pair_ind; cbn; auto. Qed.

Lemma hash_pairs_replicate k e : hash_pairs (replicate (2 * k) e) = replicate k (poseidon [e; e]).
Proof.
  induction k as [|k IH]; [done|]. replace (2 * S k)%nat with (S (S (2 * k))) by lia.
  cbn [replicate hash_pairs]. by rewrite IH.
Qed.

Lemma even_or_pad l (e : Z) :
  let l' := if Nat.even (length l) then l else l ++ [e] in
  Nat.even (length l') = true ∧ Nat.div2 (length l') = Nat.div2 (S (length l)) ∧
  ∀ k, (length l ≤ 2 * k)%nat →
    l ++ replicate (2 * k - length l) e = l' ++ replicate (2 * (k - Nat.div2 (length l'))) e.
Proof.
  cbn zeta. destruct (Nat.even (length l)) eqn:Ev.
  - apply Nat.even_spec in Ev as [m Hm]. rewrite Hm.
    split_and!; [by rewrite Nat.even_mul|rewrite Nat.div2_double; symmetry; apply Nat.div2_succ_double|].
    intros k ?. do 2 f_equal. rewrite Nat.div2_double. lia.
  - assert (Nat.odd (length l) = true) as [m Hm]%Nat.odd_spec by (by rewrite <- Nat.negb_even, Ev).
    rewrite length_app. cbn [length]. rewrite Hm.
    replace (2 * m + 1 + 1)%nat with (2 * S m)%nat by lia.
    split_and!; [by rewrite Nat.even_mul|f_equal; lia|].
    intros k ?. rewrite Nat.div2_double, <- app_assoc. f_equal.
    replace (2 * k - (2 * m + 1))%nat with (S (2 * (k - S m))) by lia. done.
Qed.

(** The occupied prefix of a layer determines the full, padded layer. *)
Lemma checkpoint_layers_full n layer e :
  layer ≠ [] → (length layer ≤ 2 ^ n)%nat →
  checkpoint_layers n layer e = full_layers n (layer ++ replicate (2 ^ n - length layer) e).
Proof.
  revert layer e. induction n as [|n IH]; intros layer e Hne Hlen.
  - cbn in *. destruct layer as [|a [|b l]]; cbn in *; [done|done|lia].
  - cbn [checkpoint_layers full_layers]. rewrite Nat.pow_succ_r' in *.
    destruct (even_or_pad layer e) as (Hev & Hd & Hpad). rewrite (Hpad (2 ^ n)%nat) by lia.
    set (l' := if Nat.even (length layer) then layer else layer ++ [e]) in *.
    rewrite hash_pairs_app, hash_pairs_replicate by done.
    assert (1 ≤ Nat.div2 (length l') ≤ 2 ^ n)%nat as Hl'.
    { rewrite Hd. destruct layer as [|a l]; [done|]. cbn [length] in *. rewrite Nat.div2_div.
      pose proof (Nat.div_mod_eq (S (S (length l))) 2).
      pose proof (Nat.mod_upper_bound (S (S (length l))) 2). lia. }
    rewrite IH; [by rewrite hash_pairs_length| |rewrite hash_pairs_length; lia].
    intros Hnil. apply (f_equal length) in Hnil. rewrite hash_pairs_length in Hnil. cbn in Hnil. lia.
Qed.

Lemma full_layers_app n l1 l2 :
  length l1 = (2 ^ n)%nat → full_layers n (l1 ++ l2) = full_layers n l1 ++ full_layers n l2.
Proof.
  revert l1 l2. induction n as [|n IH]; intros l1 l2 Hl; [done|]. cbn [full_layers].
  rewrite Nat.pow_succ_r' in Hl.
  rewrite hash_pairs_app by (rewrite Hl, Nat.even_mul; done).
  apply IH. by rewrite hash_pairs_length, Hl, Nat.div2_double.
Qed.

Lemma full_layers_hash n l : full_layers n (hash_pairs l) = hash_pairs (full_layers n l).
Proof. revert l. induction n as [|n IH]; intros l; cbn; [done|]. by rewrite IH. Qed.

Lemma full_layers_tree_root n l : length l = (2 ^ n)%nat → full_layers n l = [tree_root n l].
Proof.
  revert l. induction n as [|n IH]; intros l Hl.
  - destruct l as [|a [|b l]]; cbn in *; try lia. done.
  - cbn [full_layers tree_root]. rewrite Nat.pow_succ_r' in Hl.
    rewrite full_layers_hash, <- (take_drop (2 ^ n) l) at 1.
    rewrite full_layers_app by (rewrite length_take; lia).
    by rewrite !IH by (rewrite ?length_take, ?length_drop; lia).
Qed.

Lemma fill_layer_Ok layer pre leaves suf :
  layer = pre ++ suf → (length leaves ≤ length suf)%nat →
  fill_layer layer (length pre) leaves =
    Ok (pre ++ (be_value <$> leaves) ++ drop (length leaves) suf).
Proof.
  revert layer pre suf. induction leaves as [|leaf leaves IH]; intros layer pre suf -> Hlen; [done|].
  destruct suf as [|z suf]; cbn in Hlen; [lia|]. cbn [fill_layer].
  rewrite decide_False by (rewrite length_app; cbn; lia).
  replace (S (length pre)) with (length (pre ++ [be_value leaf])) by (rewrite length_app; cbn; lia).
  rewrite (IH _ (pre ++ [be_value leaf]) suf); [|rewrite insert_app_r_alt by lia; rewrite Nat.sub_diag|lia].
  - cbn. by rewrite <- app_assoc.
  - by rewrite <- app_assoc.
Qed.

Lemma leaf_count_nat : Z.to_nat TREE_LEAF_COUNT = (2 ^ TREE_DEPTH)%nat.
Proof.
  rewrite tree_leaf_count_pow. replace 2 with (Z.of_nat 2) by done.
  rewrite <- Nat2Z.inj_pow. apply Nat2Z.id.
Qed.

(** The padded leaf layer of a tree. *)
Definition padded_leaves (leaves : list bytes) : list Z :=
  (be_value <$> leaves) ++ replicate (2 ^ TREE_DEPTH - length leaves) MERKLE_ZERO_VALUE.

Lemma merkle_root_tree leaves :
  Z.of_nat (length leaves) ≤ TREE_LEAF_COUNT →
  merkle_root leaves = Ok (be_bytes 32 (tree_root TREE_DEPTH (padded_leaves leaves))).
Proof.
  intros Hlen. unfold merkle_root. rewrite try_from_fits.
  2:{ pose proof tree_leaf_count_u64. unfold usize_max, u64_max, u32_max in *. lia. }
  cbn -[fill_layer]. rewrite leaf_count_nat.
  assert (length leaves ≤ 2 ^ TREE_DEPTH)%nat by (rewrite <- leaf_count_nat; lia).
  rewrite (fill_layer_Ok _ [] leaves (replicate (2 ^ TREE_DEPTH) MERKLE_ZERO_VALUE));
    [|done|by rewrite length_replicate].
  cbn. rewrite drop_replicate, full_layers_tree_root; [done|].
  rewrite length_app, length_fmap, length_replicate. lia.
Qed.

Lemma checkpoint_root_tree cp :
  mc_leaves cp ≠ [] → Z.of_nat (length (mc_leaves cp)) ≤ TREE_LEAF_COUNT →
  checkpoint_root cp = be_bytes 32 (tree_root TREE_DEPTH (padded_leaves (mc_leaves cp))).
Proof.
  intros Hne Hlen. unfold checkpoint_root.
  assert (length (mc_leaves cp) ≤ 2 ^ TREE_DEPTH)%nat by (rewrite <- leaf_count_nat; lia).
  rewrite checkpoint_layers_full, length_fmap.
  - rewrite full_layers_tree_root; [done|].
    rewrite length_app, length_fmap, length_replicate. lia.
  - by destruct (mc_leaves cp).
  - by rewrite length_fmap.
Qed.
End layers.

(** The field types of a checkpoint. *)
Definition checkpoint_wf (cp : MerkleCheckpointArtifact) : Prop :=
  is_u32 (mc_tree_number cp) ∧ is_u64 (mc_leaf_count cp) ∧ is_u64 (mc_last_indexed_block cp) ∧
  Forall (λ l : bytes, length l = 32%nat) (mc_leaves cp).

Definition checkpoint_bytes (cp : MerkleCheckpointArtifact) (root : bytes) : bytes :=
  le_bytes 4 (mc_tree_number cp) ++ le_bytes 8 (mc_leaf_count cp) ++ root ++
  le_bytes 8 (mc_last_indexed_block cp) ++ [] ++ concat (mc_leaves cp) ++ [].

Lemma encode_merkle_checkpoint_Ok cp root bs :
  encode_merkle_checkpoint cp root = Ok bs →
  bs = checkpoint_bytes cp root ∧ Z.of_nat (length bs) ≤ u64_max.
Proof.
  unfold encode_merkle_checkpoint. intros Hr. res_inv. int_facts. split; [|done].
  rewrite (foldl_append _ id) by done. unfold checkpoint_bytes, write_u64, write_u32.
  by rewrite list_fmap_id, app_nil_r, app_nil_l, <- !app_assoc.
Qed.

Lemma parse_checkpoint_fields_reads cp root :
  checkpoint_wf cp → length root = 32%nat → Z.of_nat (length (mc_leaves cp)) = mc_leaf_count cp →
  reads parse_checkpoint_fields (checkpoint_bytes cp root)
    (mc_tree_number cp, mc_leaf_count cp, root, mc_last_indexed_block cp, mc_leaves cp).
Proof.
  intros (Ht & Hc & Hb & Hl) Hr Hlen. unfold parse_checkpoint_fields, checkpoint_bytes. reads_steps.
  eapply reads_bind; [done|apply reads_lift; rewrite try_from_fits; [done|apply Hc]|].
  eapply reads_bind; [done| |apply reads_ret].
  rewrite <- Hlen, Nat2Z.id.
  pose proof (reads_n SquidCursor.read_fixed_32 id id (mc_leaves cp) _ eq_refl) as Hn.
  rewrite !list_fmap_id in Hn. apply Hn. intros l Hin.
  rewrite Forall_forall in Hl. auto with railgun.
Qed.

Lemma validate_checkpoint_Ok {Cid} `{TreeCrate} cp u :
  validate_checkpoint (Cid := Cid) cp = Ok u →
  mc_leaf_count cp ≠ 0 ∧ mc_leaf_count cp ≤ TREE_LEAF_COUNT ∧
  Z.of_nat (length (mc_leaves cp)) = mc_leaf_count cp.
Proof.
  unfold validate_checkpoint. repeat case_decide; try done. intros Hv. res_inv. int_facts.
  case_decide; [done|]. split_and!; [done|lia|lia].
Qed.

(** ** Properties *)

(** C33. Equivalence of the root computations: for a non-empty checkpoint that
    fits in a tree, the publisher's [checkpoint_root], which hashes only the
    occupied prefix of each layer, agrees with the verifier's [merkle_root],
    which hashes the full zero-padded tree, and both are the root of the
    perfect binary tree over the padded leaves. *)
Theorem checkpoint_root_equiv `{TreeCrate} cp :
  mc_leaves cp ≠ [] → Z.of_nat (length (mc_leaves cp)) ≤ TREE_LEAF_COUNT →
  merkle_root (mc_leaves cp) = Ok (checkpoint_root cp) ∧
  checkpoint_root cp = be_bytes 32 (tree_root TREE_DEPTH (padded_leaves (mc_leaves cp))).
Proof.
  intros Hne Hlen. rewrite merkle_root_tree by done. by rewrite checkpoint_root_tree.
Qed.

(** Round trip of Merkle checkpoints: whatever
    [prepare_merkle_checkpoint_artifact] publishes for a well-formed
    checkpoint, the verifier's [parse_merkle_checkpoint_payload] accepts (its
    recomputed root matches) and returns the same tree number, leaf count,
    last block and leaves; the descriptor covers the leaves' global positions
    [tree * 2^depth, tree * 2^depth + count). *)
Theorem merkle_checkpoint_roundtrip {Cid} `{TreeCrate} `{ArtifactCrate} scope cp compression pub :
  checkpoint_wf cp →
  prepare_merkle_checkpoint_artifact (Cid := Cid) scope cp compression = Ok pub →
  let d := published_descriptor pub in
  (∃ env, encode_chunk_bytes env compression = Ok (published_bytes pub) ∧
     ∀ desc, parse_merkle_checkpoint_payload desc env =
       Ok (mkParsedCheckpoint desc (mc_tree_number cp) (mc_leaf_count cp) (checkpoint_root cp)
             (mc_last_indexed_block cp) (mc_leaves cp))) ∧
  meta_root (desc_metadata d) = Some (checkpoint_root cp) ∧
  range_start (desc_range d) = mc_tree_number cp * TREE_LEAF_COUNT ∧
  range_end (desc_range d) = mc_tree_number cp * TREE_LEAF_COUNT + Z.of_nat (length (mc_leaves cp)) - 1 ∧
  desc_byte_size d ≤ MAX_COMPRESSED_CHUNK_BYTES.
Proof.
  intros Hwf. unfold prepare_merkle_checkpoint_artifact, checkpoint_range. intros Hp. res_inv.
  case_decide; [done|]. res_inv. int_facts. cbn.
  match goal with E : validate_checkpoint _ = _ |- _ => apply validate_checkpoint_Ok in E as (Hnz & Hmax & Hlen) end.
  match goal with E : encode_merkle_checkpoint _ _ = _ |- _ => apply encode_merkle_checkpoint_Ok in E as [-> Hsz] end.
  assert (mc_leaves cp ≠ []) as Hne by (intros Hnil; rewrite Hnil in Hlen; cbn in Hlen; lia).
  split_and!; [|done|done|lia|lia].
  eexists. split; [eassumption|]. intros desc. unfold parse_merkle_checkpoint_payload.
  cbn [envelope_payload checkpoint_envelope].
  rewrite (reads_to_end _ _ _ _ (parse_checkpoint_fields_reads cp (checkpoint_root cp) Hwf
    ltac:(apply length_be_bytes) Hlen)) by done.
  cbn -[checkpoint_root merkle_root]. rewrite merkle_root_tree by lia. cbn -[checkpoint_root].
  rewrite checkpoint_root_tree by (done || lia).
  by rewrite decide_False by naive_solver.
Qed.

(** A small tree with a simple mixing function, to evaluate the definitions. *)
Definition toy_tree : TreeCrate := {|
  TREE_DEPTH := 3;
  TREE_LEAF_COUNT := 8;
  MERKLE_ZERO_VALUE := 5;
  poseidon := λ l, foldl (λ acc x, (acc * 31 + x) mod 2 ^ 256) 7 l;
  tree_leaf_count_pow := eq_refl;
  tree_leaf_count_u64 := ltac:(vm_compute; congruence);
|}.

Definition sample_checkpoint : MerkleCheckpointArtifact :=
  mkCheckpoint 2 3 123 [be_bytes 32 17; be_bytes 32 34; be_bytes 32 51].

Lemma checkpoint_root_equiv_witness :
  merkle_root (H := toy_tree) (mc_leaves sample_checkpoint) =
    Ok (checkpoint_root (H := toy_tree) sample_checkpoint).
Proof. apply (checkpoint_root_equiv (H := toy_tree) sample_checkpoint); vm_compute; congruence. Defined.

Lemma merkle_checkpoint_roundtrip_witness :
  ∃ pub, prepare_merkle_checkpoint_artifact (Cid := Z) (H := toy_tree) (H0 := plain_crate)
      (mkScope Evm 1 0) sample_checkpoint Zstd = Ok pub ∧
    range_start (desc_range (published_descriptor pub)) = 16 ∧
    range_end (desc_range (published_descriptor pub)) = 18.
Proof.
  destruct (prepare_merkle_checkpoint_artifact (Cid := Z) (H := toy_tree) (H0 := plain_crate)
      (mkScope Evm 1 0) sample_checkpoint Zstd) as [pub|e] eqn:E; [|vm_compute in E; discriminate].
  assert (checkpoint_wf sample_checkpoint) as Hwf
    by (repeat constructor; vm_compute; congruence).
  destruct (merkle_checkpoint_roundtrip (H := toy_tree) (H0 := plain_crate) _ _ _ _ Hwf E)
    as (_ & _ & Hs & He & _).
  exists pub. split_and!; [done|exact Hs|exact He].
Defined.
