(* ===== verification/WalletScanChunk.v ===== *)
(** * Wallet-scan chunks ([wallet_scan.rs])

    Five record kinds of a block range, each in its own section of one
    payload. The verifier's [parse_wallet_payload]
    ([verify_indexed_squid_parity.rs]) cuts the sections out again and reads
    their records. *)

From S2P Require Import Prelude Wire Ipfs Artifacts.

(** ** Stored rows ([store.rs]) *)
Record StoredIndexedLogSourceRow := mkSource {
  src_block_number : Z;
  src_block_timestamp : option Z;
  src_block_hash : bytes;
  src_transaction_hash : bytes;
  src_log_index : Z;
}.

Record StoredTransactCommitmentRow := mkTransactRow {
  tr_source : StoredIndexedLogSourceRow;
  tr_tree_number : Z;
  tr_tree_position : Z;
  tr_commitment_hash : bytes;
  tr_ciphertext : bytes;
}.

Record StoredShieldCommitmentRow := mkShieldRow {
  sh_source : StoredIndexedLogSourceRow;
  sh_tree_number : Z;
  sh_tree_position : Z;
  sh_commitment_hash : bytes;
  sh_preimage : bytes;
  sh_shield_ciphertext : bytes;
}.

Record StoredNullifierRow := mkNullifierRow {
  nu_source : StoredIndexedLogSourceRow;
  nu_tree_number : Z;
  nu_nullifier : bytes;
}.

Record StoredLegacyEncryptedCommitmentRow := mkLegacyEncryptedRow {
  le_source : StoredIndexedLogSourceRow;
  le_tree_number : Z;
  le_tree_position : Z;
  le_commitment_hash : bytes;
  le_ciphertext : bytes;
}.

Record StoredLegacyGeneratedCommitmentRow := mkLegacyGeneratedRow {
  lg_source : StoredIndexedLogSourceRow;
  lg_tree_number : Z;
  lg_tree_position : Z;
  lg_commitment_hash : bytes;
  lg_preimage : bytes;
  lg_encrypted_random : bytes;
}.

Record StoredWalletScanRows := mkWalletRows {
  ws_transact_commitments : list StoredTransactCommitmentRow;
  ws_shield_commitments : list StoredShieldCommitmentRow;
  ws_nullifiers : list StoredNullifierRow;
  ws_legacy_encrypted_commitments : list StoredLegacyEncryptedCommitmentRow;
  ws_legacy_generated_commitments : list StoredLegacyGeneratedCommitmentRow;
}.

Inductive WalletScanChunkError {Cid : Type} :=
  | InvalidBlockRange (start stop : Z)
  | RecordOutOfRange (section : string) (block_number start stop : Z)
  | MissingBlockTimestamp (section : string) (block_number : Z)
  | Chunk (e : ChunkError)
  | Ipfs (e : IpfsError Cid).
Arguments WalletScanChunkError : clear implicits.

Definition TRANSACT_SECTION_ID : Z := 1.
Definition SHIELD_SECTION_ID : Z := 2.
Definition NULLIFIER_SECTION_ID : Z := 3.
Definition LEGACY_ENCRYPTED_SECTION_ID : Z := 4.
Definition LEGACY_GENERATED_SECTION_ID : Z := 5.

Section wallet.
Context {Cid : Type} `{ArtifactCrate}.
Notation wresult := (result (WalletScanChunkError Cid)).

Definition validate_source_in_range (section : string) (source : StoredIndexedLogSourceRow)
    (start_block end_block : Z) : wresult unit :=
  if decide (src_block_number source < start_block ∨ end_block < src_block_number source)
  then Err (RecordOutOfRange section (src_block_number source) start_block end_block)
  else Ok tt.

Definition validate_rows_in_range (rows : StoredWalletScanRows) (start_block end_block : Z)
    : wresult unit :=
  let check {R} (section : string) (source : R → StoredIndexedLogSourceRow) :=
    try_fold (λ _ record, validate_source_in_range section (source record) start_block end_block) tt in
  _ ← check "transact" tr_source (ws_transact_commitments rows);
  _ ← check "shield" sh_source (ws_shield_commitments rows);
  _ ← check "nullifier" nu_source (ws_nullifiers rows);
  _ ← check "legacy_encrypted" le_source (ws_legacy_encrypted_commitments rows);
  _ ← check "legacy_generated" lg_source (ws_legacy_generated_commitments rows);
  Ok tt.

(** ** Record writers *)
Definition write_source (bs : bytes) (section : string) (source : StoredIndexedLogSourceRow)
    : wresult bytes :=
  block_timestamp ← ok_or (src_block_timestamp source)
    (MissingBlockTimestamp section (src_block_number source));
  let bs := write_u64 bs (src_block_number source) in
  let bs := write_u64 bs block_timestamp in
  Ok (bs ++ src_transaction_hash source).

Definition write_transact_records (bs : bytes) (records : list StoredTransactCommitmentRow) : wresult bytes :=
  bs ← map_err Chunk (write_len bs (length records));
  try_fold (λ bs record,
    bs ← write_source bs "transact" (tr_source record);
    let bs := write_u32 bs (tr_tree_number record) in
    let bs := write_u64 bs (tr_tree_position record) in
    let bs := bs ++ tr_commitment_hash record in
    map_err Chunk (write_bytes bs (tr_ciphertext record))) bs records.

Definition write_shield_records (bs : bytes) (records : list StoredShieldCommitmentRow) : wresult bytes :=
  bs ← map_err Chunk (write_len bs (length records));
  try_fold (λ bs record,
    bs ← write_source bs "shield" (sh_source record);
    let bs := write_u32 bs (sh_tree_number record) in
    let bs := write_u64 bs (sh_tree_position record) in
    let bs := bs ++ sh_commitment_hash record in
    bs ← map_err Chunk (write_bytes bs (sh_preimage record));
    map_err Chunk (write_bytes bs (sh_shield_ciphertext record))) bs records.

Definition write_nullifier_records (bs : bytes) (records : list StoredNullifierRow) : wresult bytes :=
  bs ← map_err Chunk (write_len bs (length records));
  try_fold (λ bs record,
    bs ← write_source bs "nullifier" (nu_source record);
    let bs := write_u32 bs (nu_tree_number record) in
    Ok (bs ++ nu_nullifier record)) bs records.

Definition write_legacy_encrypted_records (bs : bytes) (records : list StoredLegacyEncryptedCommitmentRow)
    : wresult bytes :=
  bs ← map_err Chunk (write_len bs (length records));
  try_fold (λ bs record,
    bs ← write_source bs "legacy_encrypted" (le_source record);
    let bs := write_u32 bs (le_tree_number record) in
    let bs := write_u64 bs (le_tree_position record) in
    let bs := bs ++ le_commitment_hash record in
    map_err Chunk (write_bytes bs (le_ciphertext record))) bs records.

Definition write_legacy_generated_records (bs : bytes) (records : list StoredLegacyGeneratedCommitmentRow)
    : wresult bytes :=
  bs ← map_err Chunk (write_len bs (length records));
  try_fold (λ bs record,
    bs ← write_source bs "legacy_generated" (lg_source record);
    let bs := write_u32 bs (lg_tree_number record) in
    let bs := write_u64 bs (lg_tree_position record) in
    let bs := bs ++ lg_commitment_hash record in
    bs ← map_err Chunk (write_bytes bs (lg_preimage record));
    Ok (bs ++ lg_encrypted_random record)) bs records.

(** ** Sections *)
Definition append_section (st : bytes * list ChunkSection) (section_id : Z)
    (write : bytes → wresult bytes) : wresult (bytes * list ChunkSection) :=
  let '(payload, sections) := st in
  offset ← map_err Chunk (ok_or (try_from_len u64_max (length payload)) PayloadTooLarge);
  payload ← write payload;
  stop ← map_err Chunk (ok_or (try_from_len u64_max (length payload)) PayloadTooLarge);
  byte_length ← map_err Chunk (ok_or (checked_sub stop offset) PayloadTooLarge);
  Ok (payload, sections ++ [mkSection section_id offset byte_length]).

Definition wallet_row_counts (rows : StoredWalletScanRows) : list nat :=
  [length (ws_transact_commitments rows); length (ws_shield_commitments rows);
   length (ws_nullifiers rows); length (ws_legacy_encrypted_commitments rows);
   length (ws_legacy_generated_commitments rows)].

Definition encode_wallet_scan_records (rows : StoredWalletScanRows)
    : wresult (bytes * list ChunkSection * Z) :=
  st ← append_section ([], []) TRANSACT_SECTION_ID
    (λ bs, write_transact_records bs (ws_transact_commitments rows));
  st ← append_section st SHIELD_SECTION_ID
    (λ bs, write_shield_records bs (ws_shield_commitments rows));
  st ← append_section st NULLIFIER_SECTION_ID
    (λ bs, write_nullifier_records bs (ws_nullifiers rows));
  st ← append_section st LEGACY_ENCRYPTED_SECTION_ID
    (λ bs, write_legacy_encrypted_records bs (ws_legacy_encrypted_commitments rows));
  st ← append_section st LEGACY_GENERATED_SECTION_ID
    (λ bs, write_legacy_generated_records bs (ws_legacy_generated_commitments rows));
  row_count ← try_fold (λ total count,
      count ← map_err Chunk (ok_or (try_from_len u64_max count) PayloadTooLarge);
      map_err Chunk (ok_or (checked_add u64_max total count) PayloadTooLarge))
    0 (wallet_row_counts rows);
  Ok (st, row_count).

Definition wallet_scan_envelope (scope : ChainScope) (range : IndexedArtifactRange)
    (row_count payload_len : Z) (sections : list ChunkSection) (payload : bytes) : ChunkEnvelope :=
  mkEnvelope (mkHeader WalletScan scope range row_count payload_len sections) payload.

Definition encode_wallet_scan_envelope (scope : ChainScope) (range : IndexedArtifactRange)
    (row_count payload_len : Z) (sections : list ChunkSection) (payload : bytes)
    (compression : CompressionAlgorithm) : result ChunkError bytes :=
  encode_chunk_bytes (wallet_scan_envelope scope range row_count payload_len sections payload) compression.

Definition wallet_scan_chunk_plan_item (scope : ChainScope) (start_block end_block : Z)
    (rows : StoredWalletScanRows) (compression : CompressionAlgorithm) : wresult ChunkPlanItem :=
  if decide (end_block < start_block) then Err (InvalidBlockRange start_block end_block)
  else
    _ ← validate_rows_in_range rows start_block end_block;
    '(payload, sections, row_count) ← encode_wallet_scan_records rows;
    payload_len ← map_err Chunk (ok_or (try_from_len u64_max (length payload)) PayloadTooLarge);
    let range := mkRange Block start_block end_block in
    compressed_bytes ← map_err Chunk
      (encode_wallet_scan_envelope scope range row_count payload_len sections payload compression);
    size ← map_err Chunk (ok_or (try_from_len u64_max (length compressed_bytes)) PayloadTooLarge);
    Ok (mkPlanItem range row_count size).

Definition prepare_wallet_scan_chunk (scope : ChainScope) (start_block end_block : Z)
    (rows : StoredWalletScanRows) (compression : CompressionAlgorithm) : wresult PublishedChunk :=
  if decide (end_block < start_block) then Err (InvalidBlockRange start_block end_block)
  else
    _ ← validate_rows_in_range rows start_block end_block;
    '(payload, sections, row_count) ← encode_wallet_scan_records rows;
    payload_len ← map_err Chunk (ok_or (try_from_len u64_max (length payload)) PayloadTooLarge);
    let range := mkRange Block start_block end_block in
    let root := sha256 payload in
    compressed_bytes ← map_err Chunk
      (encode_wallet_scan_envelope scope range row_count payload_len sections payload compression);
    byte_size ← map_err Chunk (ok_or (try_from_len u64_max (length compressed_bytes)) PayloadTooLarge);
    if decide (MAX_COMPRESSED_CHUNK_BYTES < byte_size)
    then Err (Chunk (ChunkTooLarge byte_size MAX_COMPRESSED_CHUNK_BYTES))
    else
      Ok (mkPublished
        (mkDescriptor WalletScan scope range row_count "" (sha256 compressed_bytes) byte_size
           CHUNK_FORMAT_VERSION compression
           (mkMetadata (Some root) (Some end_block) None None None None (Some end_block)))
        compressed_bytes).

Definition publish_wallet_scan_chunk (cid_to_string : Cid → string) (client : IpfsClient Cid)
    (scope : ChainScope) (start_block end_block : Z) (rows : StoredWalletScanRows)
    (compression : CompressionAlgorithm) : wresult PublishedChunk :=
  published ← prepare_wallet_scan_chunk scope start_block end_block rows compression;
  cid ← map_err Ipfs (pin_indexed_chunk client (published_bytes published));
  Ok (mkPublished (set_cid (published_descriptor published) (cid_to_string cid))
        (published_bytes published)).

End wallet.

(** ** The verifier's readers *)
Record WalletKey := mkKey {
  wk_block_number : Z;
  wk_transaction_hash : bytes;
  wk_tree_number : Z;
  wk_tree_position : option Z;
  wk_value : bytes;
}.

Record TransactWalletRow {Overlap : Type} := mkTransactW {
  tw_key : WalletKey; tw_block_timestamp : option Z; tw_ciphertext : option Overlap }.
Arguments TransactWalletRow : clear implicits.
Arguments mkTransactW {Overlap}.
Record ShieldWalletRow := mkShieldW {
  sw_key : WalletKey; sw_block_timestamp : option Z; sw_preimage : bytes; sw_shield_ciphertext : bytes }.
Record NullifierWalletRow := mkNullifierW { nw_key : WalletKey; nw_block_timestamp : option Z }.
Record LegacyEncryptedWalletRow := mkLegacyEncryptedW {
  ew_key : WalletKey; ew_block_timestamp : option Z; ew_ciphertext : bytes }.
Record LegacyGeneratedWalletRow := mkLegacyGeneratedW {
  gw_key : WalletKey; gw_block_timestamp : option Z; gw_preimage : bytes; gw_encrypted_random : bytes }.

Record WalletArtifacts {Overlap : Type} := mkWallet {
  wa_transact : list (TransactWalletRow Overlap);
  wa_shield : list ShieldWalletRow;
  wa_nullifiers : list NullifierWalletRow;
  wa_legacy_encrypted : list LegacyEncryptedWalletRow;
  wa_legacy_generated : list LegacyGeneratedWalletRow;
}.
Arguments WalletArtifacts : clear implicits.
Arguments mkWallet {Overlap}.

(** [SourceSubset::read]. *)
Definition source_subset_read : reader (Z * option Z * bytes) :=
  block_number ← SquidCursor.read_u64;
  block_timestamp ← SquidCursor.read_u64;
  transaction_hash ← SquidCursor.read_fixed_32;
  mret (block_number, Some block_timestamp, transaction_hash).

Definition read_count (msg : string) : reader nat :=
  n ← SquidCursor.read_u64;
  count ← reader_lift (ok_or (try_from usize_max n) msg);
  mret (Z.to_nat count).

Section parse.
(** [parse_transact_ciphertext_overlap]: the ABI decoding of a ciphertext. *)
Context {Overlap : Type} (parse_overlap : bytes → result string Overlap).

Definition parse_wallet_transact : reader (list (TransactWalletRow Overlap)) :=
  count ← read_count "transact count overflow";
  read_n count (
    source ← source_subset_read;
    tree_number ← SquidCursor.read_u32;
    tree_position ← SquidCursor.read_u64;
    hash ← SquidCursor.read_fixed_32;
    ciphertext_bytes ← SquidCursor.read_bytes;
    ciphertext ← reader_lift (parse_overlap ciphertext_bytes);
    mret (mkTransactW (mkKey source.1.1 source.2 tree_number (Some tree_position) hash)
            source.1.2 (Some ciphertext))).

Definition parse_wallet_shield : reader (list ShieldWalletRow) :=
  count ← read_count "shield count overflow";
  read_n count (
    source ← source_subset_read;
    tree_number ← SquidCursor.read_u32;
    tree_position ← SquidCursor.read_u64;
    hash ← SquidCursor.read_fixed_32;
    preimage ← SquidCursor.read_bytes;
    shield_ciphertext ← SquidCursor.read_bytes;
    mret (mkShieldW (mkKey source.1.1 source.2 tree_number (Some tree_position) hash)
            source.1.2 preimage shield_ciphertext)).

Definition parse_wallet_nullifiers : reader (list NullifierWalletRow) :=
  count ← read_count "nullifier count overflow";
  read_n count (
    source ← source_subset_read;
    tree_number ← SquidCursor.read_u32;
    nullifier ← SquidCursor.read_fixed_32;
    mret (mkNullifierW (mkKey source.1.1 source.2 tree_number None nullifier) source.1.2)).

Definition parse_wallet_legacy_encrypted : reader (list LegacyEncryptedWalletRow) :=
  count ← read_count "legacy encrypted count overflow";
  read_n count (
    source ← source_subset_read;
    tree_number ← SquidCursor.read_u32;
    tree_position ← SquidCursor.read_u64;
    hash ← SquidCursor.read_fixed_32;
    ciphertext ← SquidCursor.read_bytes;
    mret (mkLegacyEncryptedW (mkKey source.1.1 source.2 tree_number (Some tree_position) hash)
            source.1.2 ciphertext)).

Definition parse_wallet_legacy_generated : reader (list LegacyGeneratedWalletRow) :=
  count ← read_count "legacy generated count overflow";
  read_n count (
    source ← source_subset_read;
    tree_number ← SquidCursor.read_u32;
    tree_position ← SquidCursor.read_u64;
    hash ← SquidCursor.read_fixed_32;
    preimage ← SquidCursor.read_bytes;
    encrypted_random ← SquidCursor.read_fixed_64;
    mret (mkLegacyGeneratedW (mkKey source.1.1 source.2 tree_number (Some tree_position) hash)
            source.1.2 preimage encrypted_random)).

(** Runs a section's reader on the section's bytes and checks that it ends. *)
Definition run_section {A} (p : reader A) (bs : bytes) : result string A :=
  '(a, _) ← (a ← p; _ ← SquidCursor.expect_end "wallet section"; mret a) (cursor_new bs);
  Ok a.

Definition parse_wallet_section (payload : bytes) (wallet : WalletArtifacts Overlap)
    (section : ChunkSection) : result string (WalletArtifacts Overlap) :=
  start ← ok_or (try_from usize_max (section_offset section)) "wallet section offset overflow"%string;
  len ← ok_or (try_from usize_max (section_byte_length section)) "wallet section length overflow"%string;
  stop ← ok_or (checked_add usize_max start len) "wallet section range overflow"%string;
  bs ← ok_or (slice payload (Z.to_nat start) (Z.to_nat stop)) "wallet section outside payload"%string;
  let '(mkWallet t s n e g) := wallet in
  if decide (section_id section = TRANSACT_SECTION_ID) then
    t ← run_section parse_wallet_transact bs; Ok (mkWallet t s n e g)
  else if decide (section_id section = SHIELD_SECTION_ID) then
    s ← run_section parse_wallet_shield bs; Ok (mkWallet t s n e g)
  else if decide (section_id section = NULLIFIER_SECTION_ID) then
    n ← run_section parse_wallet_nullifiers bs; Ok (mkWallet t s n e g)
  else if decide (section_id section = LEGACY_ENCRYPTED_SECTION_ID) then
    e ← run_section parse_wallet_legacy_encrypted bs; Ok (mkWallet t s n e g)
  else if decide (section_id section = LEGACY_GENERATED_SECTION_ID) then
    g ← run_section parse_wallet_legacy_generated bs; Ok (mkWallet t s n e g)
  else Err "unknown wallet scan section id"%string.

Definition parse_wallet_payload (envelope : ChunkEnvelope) : result string (WalletArtifacts Overlap) :=
  try_fold (parse_wallet_section (envelope_payload envelope)) (mkWallet [] [] [] [] [])
    (header_sections (envelope_header envelope)).
End parse.

(** ** Well-formed rows and what the verifier keeps of them *)
Definition source_wf (s : StoredIndexedLogSourceRow) : Prop :=
  is_u64 (src_block_number s) ∧ (∀ t, src_block_timestamp s = Some t → is_u64 t) ∧
  length (src_transaction_hash s) = 32%nat.

Definition wallet_rows_wf (rows : StoredWalletScanRows) : Prop :=
  Forall (λ r, source_wf (tr_source r) ∧ is_u32 (tr_tree_number r) ∧ is_u64 (tr_tree_position r) ∧
    length (tr_commitment_hash r) = 32%nat) (ws_transact_commitments rows) ∧
  Forall (λ r, source_wf (sh_source r) ∧ is_u32 (sh_tree_number r) ∧ is_u64 (sh_tree_position r) ∧
    length (sh_commitment_hash r) = 32%nat) (ws_shield_commitments rows) ∧
  Forall (λ r, source_wf (nu_source r) ∧ is_u32 (nu_tree_number r) ∧
    length (nu_nullifier r) = 32%nat) (ws_nullifiers rows) ∧
  Forall (λ r, source_wf (le_source r) ∧ is_u32 (le_tree_number r) ∧ is_u64 (le_tree_position r) ∧
    length (le_commitment_hash r) = 32%nat) (ws_legacy_encrypted_commitments rows) ∧
  Forall (λ r, source_wf (lg_source r) ∧ is_u32 (lg_tree_number r) ∧ is_u64 (lg_tree_position r) ∧
    length (lg_commitment_hash r) = 32%nat ∧ length (lg_encrypted_random r) = 64%nat)
    (ws_legacy_generated_commitments rows).

Definition source_key (s : StoredIndexedLogSourceRow) (tree : Z) (position : option Z) (value : bytes) :=
  mkKey (src_block_number s) (src_transaction_hash s) tree position value.

Definition parsed_transact {Overlap} (overlap : bytes → Overlap) (r : StoredTransactCommitmentRow) :=
  mkTransactW (source_key (tr_source r) (tr_tree_number r) (Some (tr_tree_position r)) (tr_commitment_hash r))
    (src_block_timestamp (tr_source r)) (Some (overlap (tr_ciphertext r))).
Definition parsed_shield (r : StoredShieldCommitmentRow) :=
  mkShieldW (source_key (sh_source r) (sh_tree_number r) (Some (sh_tree_position r)) (sh_commitment_hash r))
    (src_block_timestamp (sh_source r)) (sh_preimage r) (sh_shield_ciphertext r).
Definition parsed_nullifier (r : StoredNullifierRow) :=
  mkNullifierW (source_key (nu_source r) (nu_tree_number r) None (nu_nullifier r))
    (src_block_timestamp (nu_source r)).
Definition parsed_legacy_encrypted (r : StoredLegacyEncryptedCommitmentRow) :=
  mkLegacyEncryptedW
    (source_key (le_source r) (le_tree_number r) (Some (le_tree_position r)) (le_commitment_hash r))
    (src_block_timestamp (le_source r)) (le_ciphertext r).
Definition parsed_legacy_generated (r : StoredLegacyGeneratedCommitmentRow) :=
  mkLegacyGeneratedW
    (source_key (lg_source r) (lg_tree_number r) (Some (lg_tree_position r)) (lg_commitment_hash r))
    (src_block_timestamp (lg_source r)) (lg_preimage r) (lg_encrypted_random r).

Definition parsed_wallet {Overlap} (overlap : bytes → Overlap) (rows : StoredWalletScanRows)
    : WalletArtifacts Overlap :=
  mkWallet (parsed_transact overlap <$> ws_transact_commitments rows)
    (parsed_shield <$> ws_shield_commitments rows)
    (parsed_nullifier <$> ws_nullifiers rows)
    (parsed_legacy_encrypted <$> ws_legacy_encrypted_commitments rows)
    (parsed_legacy_generated <$> ws_legacy_generated_commitments rows).

(** ** Sections written and read back

    [section_ok write p a]: whatever [write] appends to a payload, the reader
    [p] reads back as [a]. *)
Definition section_ok {E A} (write : bytes → result E bytes) (p : reader A) (a : A) : Prop :=
  ∀ bs bs', write bs = Ok bs' → ∃ body, bs' = bs ++ body ∧ reads p body a.

(** A section is a count followed by its records. *)
Lemma section_ok_records {Cid R A} (f : bytes → R → result (WalletScanChunkError Cid) bytes)
    (p : reader A) (enc : R → bytes) (P : R → Prop) (g : R → A) msg l :
  (∀ bs r bs', f bs r = Ok bs' → bs' = bs ++ enc r ∧ P r) →
  Forall (λ r, P r → reads p (enc r) (g r)) l →
  section_ok (λ bs, bs ← map_err Chunk (write_len bs (length l)); try_fold f bs l)
    (count ← read_count msg; read_n count p) (g <$> l).
Proof.
  intros Hf Hp bs bs'. unfold write_len. intros Hw. res_inv. int_facts.
  assert (bs' = write_u64 bs (Z.of_nat (length l)) ++ concat (enc <$> l) ∧ Forall P l) as [-> HP].
  { by apply (try_fold_append f). }
  exists (le_bytes 8 (Z.of_nat (length l)) ++ concat (enc <$> l)).
  split; [unfold write_u64; by rewrite <- app_assoc|].
  eapply (reads_bind _ _ (le_bytes 8 (Z.of_nat (length l)))); [done| |].
  { eapply reads_bind; [by rewrite app_nil_r|apply squid_read_u64; unfold in_u; lia|].
    eapply (reads_bind _ _ []); [done|apply reads_lift; by rewrite try_from_fits|apply reads_ret]. }
  rewrite Nat2Z.id. apply reads_n; [done|]. intros r Hr.
  rewrite Forall_forall in Hp, HP. auto.
Qed.

Definition source_bytes (s : StoredIndexedLogSourceRow) : bytes :=
  le_bytes 8 (src_block_number s) ++ le_bytes 8 (default 0 (src_block_timestamp s)) ++
  src_transaction_hash s ++ [].
Definition len_bytes (value : bytes) : bytes := le_bytes 4 (Z.of_nat (length value)) ++ value.

Lemma write_source_Ok {Cid} bs section s bs' :
  write_source (Cid := Cid) bs section s = Ok bs' →
  bs' = bs ++ source_bytes s ∧ is_Some (src_block_timestamp s).
Proof.
  unfold write_source, source_bytes, write_u64. destruct (src_block_timestamp s); cbn; [|done].
  intros [= <-]. split; [by rewrite app_nil_r, <- !app_assoc|done].
Qed.

Lemma write_bytes_Ok bs value bs' :
  write_bytes bs value = Ok bs' → bs' = bs ++ len_bytes value ∧ Z.of_nat (length value) ≤ u32_max.
Proof.
  unfold write_bytes, len_bytes, write_u32. intros Hw. res_inv. int_facts. by rewrite <- app_assoc.
Qed.

Lemma source_subset_reads s :
  source_wf s → is_Some (src_block_timestamp s) →
  reads source_subset_read (source_bytes s)
    (src_block_number s, src_block_timestamp s, src_transaction_hash s).
Proof.
  intros (? & Ht & ?) [t Hst]. rewrite Hst in Ht. specialize (Ht t eq_refl).
  unfold source_subset_read, source_bytes. rewrite Hst. cbn [default]. reads_steps.
Qed.

Lemma read_len_bytes value :
  Z.of_nat (length value) ≤ u32_max → reads SquidCursor.read_bytes (len_bytes value) value.
Proof. apply squid_read_bytes. Qed.

#[export] Hint Resolve source_subset_reads read_len_bytes : railgun.

(** Follows a record writer, then a record reader. *)
Ltac record_writer :=
  intros bs r bs' Hw; res_inv;
  repeat match goal with
  | H : write_source _ _ _ = Ok _ |- _ => apply write_source_Ok in H as [-> ?]
  | H : write_bytes _ _ = Ok _ |- _ => apply write_bytes_Ok in H as [-> ?]
  end;
  unfold write_u64, write_u32; split; [rewrite ?app_nil_r, <- ?app_assoc; reflexivity|split_and?; assumption].

Section sections.
Context {Cid : Type}.

Lemma transact_section {Overlap} (parse_overlap : bytes → result string Overlap) overlap records :
  Forall (λ r, source_wf (tr_source r) ∧ is_u32 (tr_tree_number r) ∧ is_u64 (tr_tree_position r) ∧
    length (tr_commitment_hash r) = 32%nat) records →
  Forall (λ r, parse_overlap (tr_ciphertext r) = Ok (overlap (tr_ciphertext r))) records →
  section_ok (λ bs, write_transact_records (Cid := Cid) bs records)
    (parse_wallet_transact parse_overlap) (parsed_transact overlap <$> records).
Proof.
  intros Hwf Hov. eapply (section_ok_records _ _
    (λ r, source_bytes (tr_source r) ++ le_bytes 4 (tr_tree_number r) ++ le_bytes 8 (tr_tree_position r) ++
       tr_commitment_hash r ++ len_bytes (tr_ciphertext r) ++ [])
    (λ r, is_Some (src_block_timestamp (tr_source r)) ∧ Z.of_nat (length (tr_ciphertext r)) ≤ u32_max)).
  - record_writer.
  - rewrite Forall_forall in *. intros r Hr [Hts Hlen].
    specialize (Hov r Hr). destruct (Hwf r Hr) as (? & ? & ? & ?). reads_steps.
    eapply (reads_bind _ _ []); [done|by apply reads_lift|apply reads_ret].
Qed.

Lemma shield_section records :
  Forall (λ r, source_wf (sh_source r) ∧ is_u32 (sh_tree_number r) ∧ is_u64 (sh_tree_position r) ∧
    length (sh_commitment_hash r) = 32%nat) records →
  section_ok (λ bs, write_shield_records (Cid := Cid) bs records)
    parse_wallet_shield (parsed_shield <$> records).
Proof.
  intros Hwf. eapply (section_ok_records _ _
    (λ r, source_bytes (sh_source r) ++ le_bytes 4 (sh_tree_number r) ++ le_bytes 8 (sh_tree_position r) ++
       sh_commitment_hash r ++ len_bytes (sh_preimage r) ++ len_bytes (sh_shield_ciphertext r) ++ [])
    (λ r, is_Some (src_block_timestamp (sh_source r)) ∧ Z.of_nat (length (sh_preimage r)) ≤ u32_max ∧
       Z.of_nat (length (sh_shield_ciphertext r)) ≤ u32_max)).
  - record_writer.
  - rewrite Forall_forall in *. intros r Hr (? & ? & ?). destruct (Hwf r Hr) as (? & ? & ? & ?). reads_steps.
Qed.

Lemma nullifier_section records :
  Forall (λ r, source_wf (nu_source r) ∧ is_u32 (nu_tree_number r) ∧
    length (nu_nullifier r) = 32%nat) records →
  section_ok (λ bs, write_nullifier_records (Cid := Cid) bs records)
    parse_wallet_nullifiers (parsed_nullifier <$> records).
Proof.
  intros Hwf. eapply (section_ok_records _ _
    (λ r, source_bytes (nu_source r) ++ le_bytes 4 (nu_tree_number r) ++ nu_nullifier r ++ [])
    (λ r, is_Some (src_block_timestamp (nu_source r)))).
  - record_writer.
  - rewrite Forall_forall in *. intros r Hr ?. destruct (Hwf r Hr) as (? & ? & ?). reads_steps.
Qed.

Lemma legacy_encrypted_section records :
  Forall (λ r, source_wf (le_source r) ∧ is_u32 (le_tree_number r) ∧ is_u64 (le_tree_position r) ∧
    length (le_commitment_hash r) = 32%nat) records →
  section_ok (λ bs, write_legacy_encrypted_records (Cid := Cid) bs records)
    parse_wallet_legacy_encrypted (parsed_legacy_encrypted <$> records).
Proof.
  intros Hwf. eapply (section_ok_records _ _
    (λ r, source_bytes (le_source r) ++ le_bytes 4 (le_tree_number r) ++ le_bytes 8 (le_tree_position r) ++
       le_commitment_hash r ++ len_bytes (le_ciphertext r) ++ [])
    (λ r, is_Some (src_block_timestamp (le_source r)) ∧ Z.of_nat (length (le_ciphertext r)) ≤ u32_max)).
  - record_writer.
  - rewrite Forall_forall in *. intros r Hr [? ?]. destruct (Hwf r Hr) as (? & ? & ? & ?). reads_steps.
Qed.

Lemma legacy_generated_section records :
  Forall (λ r, source_wf (lg_source r) ∧ is_u32 (lg_tree_number r) ∧ is_u64 (lg_tree_position r) ∧
    length (lg_commitment_hash r) = 32%nat ∧ length (lg_encrypted_random r) = 64%nat) records →
  section_ok (λ bs, write_legacy_generated_records (Cid := Cid) bs records)
    parse_wallet_legacy_generated (parsed_legacy_generated <$> records).
Proof.
  intros Hwf. eapply (section_ok_records _ _
    (λ r, source_bytes (lg_source r) ++ le_bytes 4 (lg_tree_number r) ++ le_bytes 8 (lg_tree_position r) ++
       lg_commitment_hash r ++ len_bytes (lg_preimage r) ++ lg_encrypted_random r ++ [])
    (λ r, is_Some (src_block_timestamp (lg_source r)) ∧ Z.of_nat (length (lg_preimage r)) ≤ u32_max)).
  - record_writer.
  - rewrite Forall_forall in *. intros r Hr [? ?]. destruct (Hwf r Hr) as (? & ? & ? & ? & ?). reads_steps.
Qed.
End sections.

Lemma append_section_Ok {Cid A} payload sections id write (p : reader A) a st :
  section_ok write p a →
  append_section (Cid := Cid) (payload, sections) id write = Ok st →
  ∃ body, st = (payload ++ body,
      sections ++ [mkSection id (Z.of_nat (length payload)) (Z.of_nat (length body))]) ∧
    reads p body a ∧ Z.of_nat (length (payload ++ body)) ≤ u64_max.
Proof.
  intros Hok Ha. unfold append_section in Ha. res_inv. int_facts.
  match goal with E : write _ = Ok _ |- _ => apply Hok in E as (body & -> & Hr) end.
  exists body. split_and!; [|done|done]. do 4 f_equal. rewrite length_app. lia.
Qed.

Lemma run_section_reads {A} (p : reader A) body a :
  reads p body a → Z.of_nat (length body) ≤ usize_max → run_section p body = Ok a.
Proof. intros Hr Hlen. unfold run_section. by rewrite (reads_to_end _ _ _ _ Hr Hlen). Qed.

Lemma slice_between payload pre body post :
  payload = pre ++ body ++ post → Z.of_nat (length payload) ≤ u64_max →
  ok_or (slice payload (Z.to_nat (Z.of_nat (length pre)))
    (Z.to_nat (Z.of_nat (length pre) + Z.of_nat (length body)))) "wallet section outside payload"%string = Ok body.
Proof.
  intros -> Hlen. rewrite <- Nat2Z.inj_add, !Nat2Z.id, slice_app. done.
Qed.

(** The sections of a published payload, read back one by one. *)
Lemma parse_wallet_section_Ok {Overlap} (parse_overlap : bytes → result string Overlap)
    payload pre body post wallet id :
  payload = pre ++ body ++ post → Z.of_nat (length payload) ≤ u64_max →
  parse_wallet_section parse_overlap payload wallet
    (mkSection id (Z.of_nat (length pre)) (Z.of_nat (length body))) =
  let '(mkWallet t s n e g) := wallet in
  if decide (id = TRANSACT_SECTION_ID) then
    t ← run_section (parse_wallet_transact parse_overlap) body; Ok (mkWallet t s n e g)
  else if decide (id = SHIELD_SECTION_ID) then
    s ← run_section parse_wallet_shield body; Ok (mkWallet t s n e g)
  else if decide (id = NULLIFIER_SECTION_ID) then
    n ← run_section parse_wallet_nullifiers body; Ok (mkWallet t s n e g)
  else if decide (id = LEGACY_ENCRYPTED_SECTION_ID) then
    e ← run_section parse_wallet_legacy_encrypted body; Ok (mkWallet t s n e g)
  else if decide (id = LEGACY_GENERATED_SECTION_ID) then
    g ← run_section parse_wallet_legacy_generated body; Ok (mkWallet t s n e g)
  else Err "unknown wallet scan section id"%string.
Proof.
  intros Hp Hlen. unfold parse_wallet_section. cbn [section_offset section_byte_length section_id].
  assert (Z.of_nat (length pre) + Z.of_nat (length body) ≤ usize_max) as Hb.
  { subst payload. rewrite !length_app in Hlen. unfold usize_max. lia. }
  rewrite !try_from_fits by lia. unfold checked_add. cbn [ok_or mbind result_bind].
  rewrite decide_True by lia. cbn [ok_or mbind result_bind].
  by rewrite (slice_between _ _ _ _ Hp Hlen).
Qed.

Lemma wallet_row_count_sum {Cid} rows n :
  try_fold (λ total count,
      count ← map_err Chunk (ok_or (try_from_len u64_max count) PayloadTooLarge);
      map_err Chunk (ok_or (checked_add u64_max total count) PayloadTooLarge))
    0 (wallet_row_counts rows) = (Ok n : result (WalletScanChunkError Cid) Z) →
  n = Z.of_nat (sum_list (wallet_row_counts rows)).
Proof.
  unfold wallet_row_counts. cbn [try_fold]. intros Hf. res_inv. int_facts. cbn. lia.
Qed.

Definition wallet_sources (rows : StoredWalletScanRows) : list StoredIndexedLogSourceRow :=
  (tr_source <$> ws_transact_commitments rows) ++ (sh_source <$> ws_shield_commitments rows) ++
  (nu_source <$> ws_nullifiers rows) ++ (le_source <$> ws_legacy_encrypted_commitments rows) ++
  (lg_source <$> ws_legacy_generated_commitments rows).

Lemma check_sources_Ok {Cid R} section (source : R → _) start stop records :
  try_fold (λ _ record, validate_source_in_range (Cid := Cid) section (source record) start stop) tt records
    = Ok tt →
  Forall (λ s, start ≤ src_block_number s ≤ stop) (source <$> records).
Proof.
  induction records as [|r records IH]; [constructor|]. cbn [try_fold]. intros Hr.
  destruct (validate_source_in_range section (source r) start stop) as [[]|] eqn:Hv; [|done].
  unfold validate_source_in_range in Hv. case_decide; [done|].
  rewrite fmap_cons. constructor; [lia|auto].
Qed.

Lemma validate_rows_in_range_Ok {Cid} rows start stop u :
  validate_rows_in_range (Cid := Cid) rows start stop = Ok u →
  Forall (λ s, start ≤ src_block_number s ≤ stop) (wallet_sources rows).
Proof.
  unfold validate_rows_in_range, wallet_sources. intros Hv. res_inv.
  repeat match goal with u : unit |- _ => destruct u end.
  rewrite !Forall_app. split_and!; by eapply check_sources_Ok.
Qed.

(** Five bodies, read back section by section. *)
Lemma parse_five_sections {Overlap} (parse_overlap : bytes → result string Overlap)
    b1 b2 b3 b4 b5 t s n e g :
  reads (parse_wallet_transact parse_overlap) b1 t → reads parse_wallet_shield b2 s →
  reads parse_wallet_nullifiers b3 n → reads parse_wallet_legacy_encrypted b4 e →
  reads parse_wallet_legacy_generated b5 g →
  Z.of_nat (length ((((b1 ++ b2) ++ b3) ++ b4) ++ b5)) ≤ u64_max →
  try_fold (parse_wallet_section parse_overlap ((((b1 ++ b2) ++ b3) ++ b4) ++ b5)) (mkWallet [] [] [] [] [])
    [mkSection TRANSACT_SECTION_ID (Z.of_nat (length ([] : bytes))) (Z.of_nat (length b1));
     mkSection SHIELD_SECTION_ID (Z.of_nat (length b1)) (Z.of_nat (length b2));
     mkSection NULLIFIER_SECTION_ID (Z.of_nat (length (b1 ++ b2))) (Z.of_nat (length b3));
     mkSection LEGACY_ENCRYPTED_SECTION_ID (Z.of_nat (length ((b1 ++ b2) ++ b3))) (Z.of_nat (length b4));
     mkSection LEGACY_GENERATED_SECTION_ID (Z.of_nat (length (((b1 ++ b2) ++ b3) ++ b4)))
       (Z.of_nat (length b5))] = Ok (mkWallet t s n e g).
Proof.
  intros R1 R2 R3 R4 R5 Hlen.
  assert (∀ b, b ∈ [b1; b2; b3; b4; b5] → Z.of_nat (length b) ≤ usize_max) as Hb.
  { intros b Hb. rewrite !length_app in Hlen. unfold usize_max.
    repeat (apply elem_of_cons in Hb as [->|Hb]; [lia|]). by apply elem_of_nil in Hb. }
  apply run_section_reads in R1, R2, R3, R4, R5; try (apply Hb; set_solver).
  cbn [try_fold].
  rewrite (parse_wallet_section_Ok _ _ [] b1 (b2 ++ b3 ++ b4 ++ b5)) by (done || by rewrite <- ?app_assoc).
  rewrite decide_True by done. rewrite R1. cbn [mbind result_bind].
  rewrite (parse_wallet_section_Ok _ _ b1 b2 (b3 ++ b4 ++ b5)) by (done || by rewrite <- ?app_assoc).
  rewrite decide_False, decide_True by done. rewrite R2. cbn [mbind result_bind].
  rewrite (parse_wallet_section_Ok _ _ (b1 ++ b2) b3 (b4 ++ b5)) by (done || by rewrite <- ?app_assoc).
  rewrite !decide_False, decide_True by done. rewrite R3. cbn [mbind result_bind].
  rewrite (parse_wallet_section_Ok _ _ ((b1 ++ b2) ++ b3) b4 b5) by (done || by rewrite <- ?app_assoc).
  rewrite !decide_False, decide_True by done. rewrite R4. cbn [mbind result_bind].
  rewrite (parse_wallet_section_Ok _ _ (((b1 ++ b2) ++ b3) ++ b4) b5 [])
    by (done || by rewrite ?app_nil_r, <- ?app_assoc).
  rewrite !decide_False, decide_True by done. by rewrite R5.
Qed.

(** The payload is the concatenation of the five section bodies. *)
Lemma encode_wallet_scan_records_Ok {Cid Overlap} (parse_overlap : bytes → result string Overlap)
    overlap rows payload sections n header :
  wallet_rows_wf rows →
  Forall (λ r, parse_overlap (tr_ciphertext r) = Ok (overlap (tr_ciphertext r))) (ws_transact_commitments rows) →
  encode_wallet_scan_records (Cid := Cid) rows = Ok (payload, sections, n) →
  header_sections header = sections →
  parse_wallet_payload parse_overlap (mkEnvelope header payload) = Ok (parsed_wallet overlap rows) ∧
  n = Z.of_nat (sum_list (wallet_row_counts rows)).
Proof.
  intros (Ht & Hs & Hn & He & Hg) Hov Henc <-. unfold encode_wallet_scan_records in Henc.
  pose proof (transact_section (Cid := Cid) parse_overlap overlap _ Ht Hov) as St.
  pose proof (shield_section (Cid := Cid) _ Hs) as Ss.
  pose proof (nullifier_section (Cid := Cid) _ Hn) as Sn.
  pose proof (legacy_encrypted_section (Cid := Cid) _ He) as Se.
  pose proof (legacy_generated_section (Cid := Cid) _ Hg) as Sg.
  res_inv. split; [|by match goal with H : try_fold _ _ _ = Ok _ |- _ => apply (wallet_row_count_sum (Cid := Cid) _ _ H) end].
  match goal with H : append_section ([], []) _ _ = _ |- _ =>
    apply (append_section_Ok _ _ _ _ _ _ _ St) in H as (b1 & -> & R1 & _) end.
  match goal with H : append_section (_ ++ b1, _) _ _ = _ |- _ =>
    apply (append_section_Ok _ _ _ _ _ _ _ Ss) in H as (b2 & -> & R2 & _) end.
  match goal with H : append_section (_ ++ b2, _) _ _ = _ |- _ =>
    apply (append_section_Ok _ _ _ _ _ _ _ Sn) in H as (b3 & -> & R3 & _) end.
  match goal with H : append_section (_ ++ b3, _) _ _ = _ |- _ =>
    apply (append_section_Ok _ _ _ _ _ _ _ Se) in H as (b4 & -> & R4 & _) end.
  match goal with H : append_section (_ ++ b4, _) _ _ = _ |- _ =>
    apply (append_section_Ok _ _ _ _ _ _ _ Sg) in H as (b5 & [= -> Hsec] & R5 & Hlen) end.
  unfold parse_wallet_payload. cbn [envelope_payload envelope_header]. rewrite Hsec.
  by apply parse_five_sections.
Qed.

(** The envelope of a prepared chunk holds its rows, and the count is theirs. *)
Lemma wallet_scan_chunk_envelope {Cid Overlap} `{ArtifactCrate}
    (parse_overlap : bytes → result string Overlap) overlap scope start stop rows compression pub :
  wallet_rows_wf rows →
  Forall (λ r, parse_overlap (tr_ciphertext r) = Ok (overlap (tr_ciphertext r))) (ws_transact_commitments rows) →
  prepare_wallet_scan_chunk (Cid := Cid) scope start stop rows compression = Ok pub →
  (∃ env, encode_chunk_bytes env compression = Ok (published_bytes pub) ∧
     parse_wallet_payload parse_overlap env = Ok (parsed_wallet overlap rows)) ∧
  desc_row_count (published_descriptor pub) = Z.of_nat (sum_list (wallet_row_counts rows)).
Proof.
  intros Hwf Hov. unfold prepare_wallet_scan_chunk, encode_wallet_scan_envelope.
  case_decide; [done|]. intros Hp. res_inv.
  repeat match goal with p : (_ * _)%type |- _ => destruct p end. res_inv.
  case_decide; [done|]. res_inv. cbn.
  match goal with E : encode_wallet_scan_records _ = _, E' : encode_chunk_bytes (wallet_scan_envelope _ _ _ _ _ _) _ = _ |- _ =>
    unfold wallet_scan_envelope in E';
    match type of E' with encode_chunk_bytes (mkEnvelope ?h _) _ = _ =>
      destruct (encode_wallet_scan_records_Ok parse_overlap overlap _ _ _ _ h Hwf Hov E eq_refl) as [Hparse ->] end
  end.
  split; [by eexists|done].
Qed.

(** ** Properties *)

(** C32. Round trip of wallet-scan chunks: whenever [prepare_wallet_scan_chunk]
    accepts the stored rows of a block range, the published bytes encode an
    envelope whose five sections the verifier's [parse_wallet_payload] reads
    back into exactly those rows, each kind in order, provided their
    ciphertexts are ABI encodings; every row lies in the declared block range
    and the descriptor counts all of them. *)
Theorem wallet_scan_roundtrip {Cid Overlap} `{ArtifactCrate}
    (parse_overlap : bytes → result string Overlap) overlap scope start stop rows compression pub :
  wallet_rows_wf rows →
  Forall (λ r, parse_overlap (tr_ciphertext r) = Ok (overlap (tr_ciphertext r))) (ws_transact_commitments rows) →
  prepare_wallet_scan_chunk (Cid := Cid) scope start stop rows compression = Ok pub →
  let d := published_descriptor pub in
  (∃ env, encode_chunk_bytes env compression = Ok (published_bytes pub) ∧
     parse_wallet_payload parse_overlap env = Ok (parsed_wallet overlap rows)) ∧
  desc_range d = mkRange Block start stop ∧
  Forall (λ s, start ≤ src_block_number s ≤ stop) (wallet_sources rows) ∧
  desc_row_count d = Z.of_nat (length (wallet_sources rows)) ∧
  desc_byte_size d ≤ MAX_COMPRESSED_CHUNK_BYTES.
Proof.
  intros Hwf Hov Hp. destruct (wallet_scan_chunk_envelope _ _ _ _ _ _ _ _ Hwf Hov Hp) as [Henv Hcount]. revert Hp.
  unfold prepare_wallet_scan_chunk. case_decide; [done|]. intros Hp. res_inv.
  repeat match goal with p : (_ * _)%type |- _ => destruct p end. res_inv.
  case_decide; [done|]. res_inv. int_facts. cbn. cbn in Henv, Hcount.
  match goal with E : validate_rows_in_range _ _ _ = _ |- _ => apply validate_rows_in_range_Ok in E as Hin end.
  split_and!; [exact Henv|done|done| |lia]. rewrite Hcount.
  unfold wallet_sources, wallet_row_counts. rewrite !length_app, !length_fmap. cbn. lia.
Qed.

Definition sample_source (block : Z) : StoredIndexedLogSourceRow :=
  mkSource block (Some 1700000000) (be_bytes 32 1) (be_bytes 32 2) 7.
Lemma sample_source_wf block : is_u64 block → source_wf (sample_source block).
Proof. intros Hb. split_and!; [done| |done]. intros t [= <-]. solve_u. Qed.
Definition sample_wallet_rows : StoredWalletScanRows :=
  mkWalletRows
    [mkTransactRow (sample_source 100) 0 3 (be_bytes 32 9) (le_bytes 5 77)]
    [mkShieldRow (sample_source 101) 0 4 (be_bytes 32 10) (le_bytes 3 1) (le_bytes 2 2)]
    [mkNullifierRow (sample_source 102) 0 (be_bytes 32 11)]
    [mkLegacyEncryptedRow (sample_source 103) 1 5 (be_bytes 32 12) (le_bytes 4 8)]
    [mkLegacyGeneratedRow (sample_source 104) 1 6 (be_bytes 32 13) (le_bytes 1 1) (be_bytes 64 14)].

Lemma wallet_scan_roundtrip_witness :
  ∃ pub env,
    prepare_wallet_scan_chunk (Cid := Z) (H := plain_crate) (mkScope Evm 1 0) 100 104
      sample_wallet_rows Zstd = Ok pub ∧
    encode_chunk_bytes (ArtifactCrate := plain_crate) env Zstd = Ok (published_bytes pub) ∧
    parse_wallet_payload (λ b, Ok (le_value b)) env = Ok (parsed_wallet le_value sample_wallet_rows).
Proof.
  destruct (prepare_wallet_scan_chunk (Cid := Z) (H := plain_crate) (mkScope Evm 1 0) 100 104
      sample_wallet_rows Zstd) as [pub|e] eqn:E; [|vm_compute in E; discriminate].
  assert (wallet_rows_wf sample_wallet_rows) as Hwf.
  { unfold wallet_rows_wf, sample_wallet_rows. cbn -[length sample_source in_u].
    rewrite !Forall_singleton. cbn -[length sample_source in_u].
    repeat match goal with
    | |- _ ∧ _ => split
    | |- source_wf _ => apply sample_source_wf
    | |- length _ = _ => apply length_be_bytes
    | |- in_u _ _ => solve_u
    end. }
  destruct (wallet_scan_roundtrip (H := plain_crate) (λ b, Ok (le_value b)) le_value
    _ _ _ _ _ _ Hwf ltac:(repeat constructor) E) as [(env & Henc & Hparse) _].
  exists pub, env. auto.
Defined.
