(* ===== verification/PublicTxidChunk.v ===== *)
(** * Public TXID chunks ([public_txid.rs])

    Rows of the public TXID log, in TXID-index order and inside one TXID tree,
    are published as a record section and a section of unshield preimages.
    [parse_public_txid_payload] is the reader of [verify_txid_parity.rs]. *)

From S2P Require Import Prelude Wire Ipfs Artifacts MerkleCheckpointChunk.

Record StoredPublicTxidRow := mkTxidRow {
  pt_txid_index : Z;
  pt_id : bytes;
  pt_block_number : Z;
  pt_block_timestamp : Z;
  pt_block_hash : bytes;
  pt_transaction_hash : bytes;
  pt_first_log_index : Z;
  pt_last_log_index : Z;
  pt_nullifiers : list bytes;
  pt_commitments : list bytes;
  pt_bound_params_hash : bytes;
  pt_has_unshield : bool;
  pt_unshield_preimage : option bytes;
  pt_utxo_tree_in : Z;
  pt_utxo_tree_out : Z;
  pt_utxo_batch_start_position_out : Z;
}.

Inductive PublicTxidChunkError {Cid : Type} :=
  | EmptyChunk
  | NonContiguousTxidIndex (expected actual : Z)
  | TxidIndexOverflow
  | CrossesTxidTreeBoundary (start stop : Z)
  | CheckpointDoesNotStartAtTreePrefix (start : Z)
  | UnexpectedUnshieldPreimage (txid_index : Z)
  | InvalidUnshieldPreimage (txid_index : Z)
  | MissingUnshieldCommitment (txid_index : Z)
  | UnshieldCommitmentMismatch (txid_index : Z)
  | Chunk (e : ChunkError)
  | Ipfs (e : IpfsError Cid).
Arguments PublicTxidChunkError : clear implicits.

Definition PUBLIC_TXID_RECORD_SECTION_ID : Z := 3.
Definition PUBLIC_TXID_UNSHIELD_PREIMAGE_SECTION_ID : Z := 2.

(** What the encoder uses of the contract and transaction crates: the ABI
    codec and hash of a commitment preimage, the TXID and leaf hashes, and the
    dense Merkle tree. *)
Class TxidCrate := {
  Preimage : Type;
  preimage_abi_decode : bytes → option Preimage;
  preimage_abi_encode : Preimage → bytes;
  preimage_hash : Preimage → Z;
  compute_railgun_txid_parts : list Z → list Z → Z → Z;
  railgun_txid_leaf_hash_with_output_start : Z → Z → Z → Z;
  (** [DenseMerkleTree::from_ordered_leaves(leaves, count).root()] *)
  dense_tree_root : list Z → Z → Z;
}.

Section public_txid.
Context {Cid : Type} `{ArtifactCrate} `{TreeCrate} `{TxidCrate}.
Notation presult := (result (PublicTxidChunkError Cid)).

Definition public_txid_range (records : list StoredPublicTxidRow) : presult IndexedArtifactRange :=
  first ← ok_or (head records) EmptyChunk;
  _ ← try_fold (λ expected_index record,
      if decide (pt_txid_index record ≠ expected_index)
      then Err (NonContiguousTxidIndex expected_index (pt_txid_index record))
      else ok_or (checked_add u64_max expected_index 1) TxidIndexOverflow)
    (pt_txid_index first) records;
  Ok (mkRange TxidIndex (pt_txid_index first) (pt_txid_index (default first (last records)))).

Definition validate_single_txid_tree (range : IndexedArtifactRange) : presult unit :=
  if decide (range_start range `div` TREE_LEAF_COUNT ≠ range_end range `div` TREE_LEAF_COUNT)
  then Err (CrossesTxidTreeBoundary (range_start range) (range_end range))
  else Ok tt.

Definition encode_public_txid_record (bs : bytes) (record : StoredPublicTxidRow) : result ChunkError bytes :=
  let bs := write_u64 bs (pt_txid_index record) in
  bs ← write_string bs (pt_id record);
  let bs := write_u64 bs (pt_block_number record) in
  let bs := write_u64 bs (pt_block_timestamp record) in
  let bs := bs ++ pt_block_hash record in
  let bs := bs ++ pt_transaction_hash record in
  let bs := write_u64 bs (pt_first_log_index record) in
  let bs := write_u64 bs (pt_last_log_index record) in
  bs ← write_fixed_bytes_vec bs (pt_nullifiers record);
  bs ← write_fixed_bytes_vec bs (pt_commitments record);
  let bs := bs ++ pt_bound_params_hash record in
  let bs := bs ++ [if pt_has_unshield record then Byte.x01 else Byte.x00] in
  let bs := write_u64 bs (pt_utxo_tree_in record) in
  let bs := write_u64 bs (pt_utxo_tree_out record) in
  Ok (write_u64 bs (pt_utxo_batch_start_position_out record)).

Definition encode_public_txid_records (records : list StoredPublicTxidRow) : result ChunkError bytes :=
  bs ← try_fold encode_public_txid_record [] records;
  _ ← ok_or (try_from_len u64_max (length bs)) PayloadTooLarge;
  Ok bs.

(** One row of the preimage section; the loop state is the bytes written so
    far and the [missing] flag. *)
Definition encode_unshield_preimage (st : bytes * bool) (record : StoredPublicTxidRow)
    : presult (bytes * bool) :=
  let '(bs, missing) := st in
  match pt_unshield_preimage record with
  | None => Ok (bs, if pt_has_unshield record then true else missing)
  | Some encoded =>
      if negb (pt_has_unshield record) then Err (UnexpectedUnshieldPreimage (pt_txid_index record))
      else
        preimage ← ok_or (preimage_abi_decode encoded) (InvalidUnshieldPreimage (pt_txid_index record));
        expected_commitment ← ok_or (last (pt_commitments record))
          (MissingUnshieldCommitment (pt_txid_index record));
        if decide (be_bytes 32 (preimage_hash preimage) ≠ expected_commitment)
        then Err (UnshieldCommitmentMismatch (pt_txid_index record))
        else
          let encoded := preimage_abi_encode preimage in
          let bs := write_u64 bs (pt_txid_index record) in
          len ← map_err Chunk (ok_or (try_from_len u16_max (length encoded)) PayloadTooLarge);
          Ok (write_u16 bs len ++ encoded, missing)
  end.

Definition encode_public_txid_unshield_preimages (records : list StoredPublicTxidRow)
    : presult (option bytes) :=
  let count := length (filter (λ r, pt_has_unshield r = true) records) in
  count' ← map_err Chunk (ok_or (try_from_len u32_max count) PayloadTooLarge);
  '(bs, missing) ← try_fold encode_unshield_preimage (write_u32 [] count', false) records;
  Ok (if (missing : bool) then None else Some bs).

Definition public_txid_sections (record_payload_len unshield_payload_len : Z)
    (unshield_payload : option bytes) : list ChunkSection :=
  mkSection PUBLIC_TXID_RECORD_SECTION_ID 0 record_payload_len ::
  match unshield_payload with
  | Some _ => [mkSection PUBLIC_TXID_UNSHIELD_PREIMAGE_SECTION_ID record_payload_len unshield_payload_len]
  | None => []
  end.

Definition public_txid_envelope (scope : ChainScope) (range : IndexedArtifactRange) (row_count : Z)
    (record_payload : bytes) (unshield_payload : option bytes) : result ChunkError ChunkEnvelope :=
  record_payload_len ← ok_or (try_from_len u64_max (length record_payload)) PayloadTooLarge;
  unshield_payload_len ← match unshield_payload with
    | None => Ok 0
    | Some p => ok_or (try_from_len u64_max (length p)) PayloadTooLarge
    end;
  payload_len ← ok_or (checked_add u64_max record_payload_len unshield_payload_len) PayloadTooLarge;
  Ok (mkEnvelope
    (mkHeader PublicTxid scope range row_count payload_len
       (public_txid_sections record_payload_len unshield_payload_len unshield_payload))
    (record_payload ++ default [] unshield_payload)).

Definition encode_public_txid_envelope (scope : ChainScope) (range : IndexedArtifactRange) (row_count : Z)
    (record_payload : bytes) (unshield_payload : option bytes) (compression : CompressionAlgorithm)
    : result ChunkError bytes :=
  envelope ← public_txid_envelope scope range row_count record_payload unshield_payload;
  encode_chunk_bytes envelope compression.

Definition public_txid_chunk_plan_item (scope : ChainScope) (records : list StoredPublicTxidRow)
    (compression : CompressionAlgorithm) : presult ChunkPlanItem :=
  range ← public_txid_range records;
  _ ← validate_single_txid_tree range;
  record_payload ← map_err Chunk (encode_public_txid_records records);
  unshield_payload ← encode_public_txid_unshield_preimages records;
  row_count ← map_err Chunk (ok_or (try_from_len u64_max (length records)) PayloadTooLarge);
  compressed_bytes ← map_err Chunk
    (encode_public_txid_envelope scope range row_count record_payload unshield_payload compression);
  size ← map_err Chunk (ok_or (try_from_len u64_max (length compressed_bytes)) PayloadTooLarge);
  Ok (mkPlanItem range row_count size).

Definition prepare_public_txid_chunk (scope : ChainScope) (records : list StoredPublicTxidRow)
    (checkpoint_root : bytes) (compression : CompressionAlgorithm) : presult PublishedChunk :=
  range ← public_txid_range records;
  _ ← validate_single_txid_tree range;
  record_payload ← map_err Chunk (encode_public_txid_records records);
  unshield_payload ← encode_public_txid_unshield_preimages records;
  row_count ← map_err Chunk (ok_or (try_from_len u64_max (length records)) PayloadTooLarge);
  max_block ← ok_or (max_list (pt_block_number <$> records)) EmptyChunk;
  compressed_bytes ← map_err Chunk
    (encode_public_txid_envelope scope range row_count record_payload unshield_payload compression);
  byte_size ← map_err Chunk (ok_or (try_from_len u64_max (length compressed_bytes)) PayloadTooLarge);
  if decide (MAX_COMPRESSED_CHUNK_BYTES < byte_size)
  then Err (Chunk (ChunkTooLarge byte_size MAX_COMPRESSED_CHUNK_BYTES))
  else
    Ok (mkPublished
      (mkDescriptor PublicTxid scope range row_count "" (sha256 compressed_bytes) byte_size
         CHUNK_FORMAT_VERSION compression
         (mkMetadata (Some checkpoint_root) (Some max_block) None None None None (Some max_block)))
      compressed_bytes).

Definition publish_public_txid_chunk (cid_to_string : Cid → string) (client : IpfsClient Cid)
    (scope : ChainScope) (records : list StoredPublicTxidRow) (checkpoint_root : bytes)
    (compression : CompressionAlgorithm) : presult PublishedChunk :=
  published ← prepare_public_txid_chunk scope records checkpoint_root compression;
  cid ← map_err Ipfs (pin_indexed_chunk client (published_bytes published));
  Ok (mkPublished (set_cid (published_descriptor published) (cid_to_string cid))
        (published_bytes published)).

Definition public_txid_leaf_hash (record : StoredPublicTxidRow) : Z :=
  let railgun_txid := compute_railgun_txid_parts (be_value <$> pt_nullifiers record)
    (be_value <$> pt_commitments record) (be_value (pt_bound_params_hash record)) in
  let output_start := saturating_add u128_max
    (saturating_mul u128_max (pt_utxo_tree_out record) TREE_LEAF_COUNT)
    (pt_utxo_batch_start_position_out record) in
  railgun_txid_leaf_hash_with_output_start railgun_txid (pt_utxo_tree_in record) output_start.

Definition public_txid_checkpoint_root (records : list StoredPublicTxidRow) : presult bytes :=
  range ← public_txid_range records;
  _ ← validate_single_txid_tree range;
  if decide (range_start range `mod` TREE_LEAF_COUNT ≠ 0)
  then Err (CheckpointDoesNotStartAtTreePrefix (range_start range))
  else Ok (be_bytes 32 (dense_tree_root (public_txid_leaf_hash <$> records) (Z.of_nat (length records)))).
End public_txid.

(** ** The verifier's reader *)
Record TxidRow := mkParsedTxid {
  tx_txid_index : Z;
  tx_id : bytes;
  tx_block_number : Z;
  tx_block_timestamp : Z;
  tx_transaction_hash : bytes;
  tx_nullifiers : list bytes;
  tx_commitments : list bytes;
  tx_bound_params_hash : bytes;
  tx_has_unshield : bool;
  tx_utxo_tree_in : Z;
  tx_utxo_tree_out : Z;
  tx_utxo_batch_start_position_out : Z;
}.

Section parse.
Context `{ArtifactCrate} (from_utf8 : bytes → bool).

Definition parse_public_txid_row : reader TxidRow :=
  txid_index ← TxidCursor.read_u64;
  id ← TxidCursor.read_string from_utf8;
  block_number ← TxidCursor.read_u64;
  block_timestamp ← TxidCursor.read_u64;
  _ ← TxidCursor.read_fixed_32;
  transaction_hash ← TxidCursor.read_fixed_32;
  _ ← TxidCursor.read_u64;
  _ ← TxidCursor.read_u64;
  nullifiers ← TxidCursor.read_fixed_vec;
  commitments ← TxidCursor.read_fixed_vec;
  bound_params_hash ← TxidCursor.read_fixed_32;
  unshield ← TxidCursor.read_u8;
  utxo_tree_in ← TxidCursor.read_u64;
  utxo_tree_out ← TxidCursor.read_u64;
  utxo_batch_start_position_out ← TxidCursor.read_u64;
  mret (mkParsedTxid txid_index id block_number block_timestamp transaction_hash nullifiers
    commitments bound_params_hash (bool_decide (Z_of_byte unshield ≠ 0)) utxo_tree_in utxo_tree_out
    utxo_batch_start_position_out).

(** The body of the reader, on the bytes of a record section. *)
Definition parse_public_txid_section (bs : bytes) (row_count : Z) : result string (list TxidRow) :=
  row_count ← ok_or (try_from usize_max row_count) "row count overflow"%string;
  '(rows, cursor) ← read_n (Z.to_nat row_count) parse_public_txid_row (cursor_new bs);
  if decide (TxidCursor.remaining cursor ≠ 0%nat) then Err "public_txid payload has trailing bytes"%string
  else Ok rows.

Definition parse_public_txid_payload (envelope : ChunkEnvelope) (descriptor : IndexedArtifactDescriptor)
    : result string (list TxidRow) :=
  if decide (desc_dataset_kind descriptor ≠ PublicTxid ∨ range_kind (desc_range descriptor) ≠ TxidIndex)
  then Err "descriptor is not a public_txid txid_index chunk"%string
  else
    bs ← map_err (λ _, "public TXID record section missing"%string) (section_payload envelope 1);
    parse_public_txid_section bs (desc_row_count descriptor).
End parse.

(** ** Well-formed rows *)
Definition txid_row_wf (from_utf8 : bytes → bool) (r : StoredPublicTxidRow) : Prop :=
  is_u64 (pt_txid_index r) ∧ from_utf8 (pt_id r) = true ∧ is_u64 (pt_block_number r) ∧
  is_u64 (pt_block_timestamp r) ∧ length (pt_block_hash r) = 32%nat ∧
  length (pt_transaction_hash r) = 32%nat ∧ is_u64 (pt_first_log_index r) ∧
  is_u64 (pt_last_log_index r) ∧ Forall (λ v : bytes, length v = 32%nat) (pt_nullifiers r) ∧
  Forall (λ v : bytes, length v = 32%nat) (pt_commitments r) ∧
  length (pt_bound_params_hash r) = 32%nat ∧ is_u64 (pt_utxo_tree_in r) ∧
  is_u64 (pt_utxo_tree_out r) ∧ is_u64 (pt_utxo_batch_start_position_out r).

Definition parsed_txid (r : StoredPublicTxidRow) : TxidRow :=
  mkParsedTxid (pt_txid_index r) (pt_id r) (pt_block_number r) (pt_block_timestamp r)
    (pt_transaction_hash r) (pt_nullifiers r) (pt_commitments r) (pt_bound_params_hash r)
    (pt_has_unshield r) (pt_utxo_tree_in r) (pt_utxo_tree_out r) (pt_utxo_batch_start_position_out r).

Definition fixed_vec_bytes (values : list bytes) : bytes :=
  le_bytes 4 (Z.of_nat (length values)) ++ concat values.
Definition string_bytes (value : bytes) : bytes := le_bytes 2 (Z.of_nat (length value)) ++ value.

Definition txid_record_bytes (r : StoredPublicTxidRow) : bytes :=
  le_bytes 8 (pt_txid_index r) ++ string_bytes (pt_id r) ++ le_bytes 8 (pt_block_number r) ++
  le_bytes 8 (pt_block_timestamp r) ++ pt_block_hash r ++ pt_transaction_hash r ++
  le_bytes 8 (pt_first_log_index r) ++ le_bytes 8 (pt_last_log_index r) ++
  fixed_vec_bytes (pt_nullifiers r) ++ fixed_vec_bytes (pt_commitments r) ++
  pt_bound_params_hash r ++ [if pt_has_unshield r then Byte.x01 else Byte.x00] ++
  le_bytes 8 (pt_utxo_tree_in r) ++ le_bytes 8 (pt_utxo_tree_out r) ++
  le_bytes 8 (pt_utxo_batch_start_position_out r) ++ [].

Definition txid_lengths_ok (r : StoredPublicTxidRow) : Prop :=
  Z.of_nat (length (pt_id r)) ≤ u16_max ∧ Z.of_nat (length (pt_nullifiers r)) ≤ u32_max ∧
  Z.of_nat (length (pt_commitments r)) ≤ u32_max.

Lemma encode_public_txid_record_Ok bs r bs' :
  encode_public_txid_record bs r = Ok bs' → bs' = bs ++ txid_record_bytes r ∧ txid_lengths_ok r.
Proof.
  unfold encode_public_txid_record, write_string, write_fixed_bytes_vec. intros Hw.
  res_inv. int_facts. split; [|done].
  unfold txid_record_bytes, string_bytes, fixed_vec_bytes, write_u64, write_u32, write_u16.
  by rewrite app_nil_r, <- !app_assoc.
Qed.

Lemma encode_public_txid_records_Ok records bs :
  encode_public_txid_records records = Ok bs →
  bs = concat (txid_record_bytes <$> records) ∧ Forall txid_lengths_ok records ∧
  Z.of_nat (length bs) ≤ u64_max.
Proof.
  unfold encode_public_txid_records. intros Hw. res_inv. int_facts.
  match goal with E : try_fold _ _ _ = Ok _ |- _ =>
    apply (try_fold_append _ txid_record_bytes txid_lengths_ok) in E as [-> ?];
      [done|apply encode_public_txid_record_Ok] end.
Qed.

Lemma parse_public_txid_row_reads from_utf8 r :
  txid_row_wf from_utf8 r → txid_lengths_ok r →
  reads (parse_public_txid_row from_utf8) (txid_record_bytes r) (parsed_txid r).
Proof.
  intros (? & ? & ? & ? & ? & ? & ? & ? & ? & ? & ? & ? & ? & ?) (? & ? & ?).
  unfold parse_public_txid_row, txid_record_bytes, string_bytes, fixed_vec_bytes.
  repeat (eapply reads_bind; [reflexivity|solve [eauto with railgun]|]).
  replace (bool_decide _) with (pt_has_unshield r) by (by destruct (pt_has_unshield r)).
  apply reads_ret.
Qed.

(** The record section is read back row by row. *)
Lemma parse_public_txid_section_Ok from_utf8 records bs :
  Forall (txid_row_wf from_utf8) records → Z.of_nat (length records) ≤ u64_max →
  encode_public_txid_records records = Ok bs →
  parse_public_txid_section from_utf8 bs (Z.of_nat (length records)) = Ok (parsed_txid <$> records).
Proof.
  intros Hwf Hn (-> & Hlen & Hsz)%encode_public_txid_records_Ok.
  unfold parse_public_txid_section. rewrite try_from_fits by done. cbn [ok_or mbind result_bind].
  rewrite Nat2Z.id.
  assert (reads (read_n (length records) (parse_public_txid_row from_utf8))
    (concat (txid_record_bytes <$> records)) (parsed_txid <$> records)) as Hr.
  { apply reads_n; [done|]. rewrite Forall_forall in *. intros r Hin.
    apply parse_public_txid_row_reads; auto. }
  rewrite (reads_whole _ _ _ Hr Hsz). cbn. unfold TxidCursor.remaining. cbn.
  by rewrite Nat.sub_diag, decide_False by lia.
Qed.

(** ** Contiguous indexes *)
Lemma txid_index_loop {Cid} records i j :
  try_fold (λ expected_index record,
      if decide (pt_txid_index record ≠ expected_index)
      then Err (NonContiguousTxidIndex expected_index (pt_txid_index record))
      else ok_or (checked_add u64_max expected_index 1) TxidIndexOverflow : result (PublicTxidChunkError Cid) Z)
    i records = Ok j →
  ∀ k r, records !! k = Some r → pt_txid_index r = i + Z.of_nat k.
Proof.
  revert i. induction records as [|r records IH]; intros i; [done|]. cbn [try_fold].
  destruct (decide (pt_txid_index r = i)) as [Hi|Hi];
    [rewrite decide_False by (by intros [])|by rewrite decide_True].
  unfold checked_add. case_decide; cbn [ok_or mbind result_bind]; [|done]. intros Hr.
  intros [|k] r' Hk; cbn in Hk; [injection Hk as ->; lia|]. rewrite (IH _ Hr _ _ Hk). lia.
Qed.

Lemma public_txid_range_Ok {Cid} records rg :
  public_txid_range (Cid := Cid) records = Ok rg →
  records ≠ [] ∧ range_kind rg = TxidIndex ∧
  (∀ k r, records !! k = Some r → pt_txid_index r = range_start rg + Z.of_nat k) ∧
  range_end rg = range_start rg + Z.of_nat (length records) - 1.
Proof.
  unfold public_txid_range. destruct records as [|r records]; [done|]. intros Hr. res_inv.
  match goal with E : try_fold _ _ _ = Ok _ |- _ => pose proof (txid_index_loop (Cid := Cid) _ _ _ E) as Hk end.
  cbn [range_kind range_start range_end]. split_and!; [done|done|exact Hk|].
  destruct (last (r :: records)) as [l|] eqn:Hl; [|by apply last_None in Hl].
  rewrite last_lookup in Hl. apply Hk in Hl. cbn [from_option id length Nat.pred] in *. lia.
Qed.

(** ** Unshield preimages *)
Section preimages.
Context {Cid : Type} `{TxidCrate}.

(** The entry of a row in the preimage section. *)
Definition preimage_entry (r : StoredPublicTxidRow) : bytes :=
  match pt_unshield_preimage r with
  | Some encoded =>
      match preimage_abi_decode encoded with
      | Some p => le_bytes 8 (pt_txid_index r) ++
          le_bytes 2 (Z.of_nat (length (preimage_abi_encode p))) ++ preimage_abi_encode p
      | None => []
      end
  | None => []
  end.

(** A row whose preimage hashes to its last commitment. *)
Definition preimage_ok (r : StoredPublicTxidRow) : Prop :=
  ∃ encoded p, pt_unshield_preimage r = Some encoded ∧ preimage_abi_decode encoded = Some p ∧
    last (pt_commitments r) = Some (be_bytes 32 (preimage_hash p)).

Lemma encode_unshield_preimage_Ok bs missing r bs' missing' :
  encode_unshield_preimage (Cid := Cid) (bs, missing) r = Ok (bs', missing') →
  bs' = bs ++ preimage_entry r ∧
  missing' = missing || (pt_has_unshield r && bool_decide (pt_unshield_preimage r = None)) ∧
  (pt_unshield_preimage r ≠ None → pt_has_unshield r = true ∧ preimage_ok r).
Proof.
  unfold encode_unshield_preimage, preimage_entry, preimage_ok.
  destruct (pt_unshield_preimage r) as [encoded|].
  - destruct (pt_has_unshield r); cbn [negb]; [|done]. intros Hr. res_inv.
    case_decide as Hd; [done|]. res_inv. int_facts.
    split_and!; [unfold write_u16, write_u64; by rewrite <- !app_assoc|by rewrite bool_decide_false, orb_false_r|].
    intros _. split; [done|]. by do 2 eexists.
  - intros [= <- <-]. rewrite app_nil_r, bool_decide_true by done.
    split_and!; [done|by destruct (pt_has_unshield r), missing|done].
Qed.

Lemma preimage_loop records bs missing bs' missing' :
  try_fold (encode_unshield_preimage (Cid := Cid)) (bs, missing) records = Ok (bs', missing') →
  bs' = bs ++ concat (preimage_entry <$> records) ∧
  (missing' = false → missing = false ∧ Forall (λ r, pt_has_unshield r = true → pt_unshield_preimage r ≠ None) records) ∧
  Forall (λ r, pt_unshield_preimage r ≠ None → pt_has_unshield r = true ∧ preimage_ok r) records.
Proof.
  revert bs missing. induction records as [|r records IH]; intros bs missing; cbn [try_fold].
  - intros [= <- <-]. rewrite app_nil_r. split_and!; [done| |constructor]. by split.
  - intros Hf. res_inv. destruct a as [bs1 m1].
    apply encode_unshield_preimage_Ok in E as (-> & -> & Hr).
    apply IH in Hf as (-> & Hm & Hall). split_and!; [by rewrite <- app_assoc| |by constructor].
    intros Hm'. destruct (Hm Hm') as [[-> Hb]%orb_false_iff Hrs]. split; [done|].
    constructor; [|done]. intros Hu. rewrite Hu in Hb. cbn in Hb. by apply bool_decide_eq_false in Hb.
Qed.
End preimages.

(** ** Properties *)

(** Round trip of public TXID records: whenever
    [prepare_public_txid_chunk] accepts rows with well-formed fields, the
    published envelope starts with the record section, and the verifier's row
    reader, run on that section, returns every row in order; TXID indexes are
    contiguous, the descriptor's range is exactly theirs, and it does not
    cross a TXID tree boundary. *)
Theorem public_txid_roundtrip {Cid} `{ArtifactCrate} `{TreeCrate} `{TxidCrate} from_utf8
    scope records root compression pub :
  Forall (txid_row_wf from_utf8) records →
  prepare_public_txid_chunk (Cid := Cid) scope records root compression = Ok pub →
  let d := published_descriptor pub in
  (∃ env section rest,
     encode_chunk_bytes env compression = Ok (published_bytes pub) ∧
     envelope_payload env = section ++ rest ∧
     head (header_sections (envelope_header env)) =
       Some (mkSection PUBLIC_TXID_RECORD_SECTION_ID 0 (Z.of_nat (length section))) ∧
     parse_public_txid_section from_utf8 section (desc_row_count d) = Ok (parsed_txid <$> records)) ∧
  desc_dataset_kind d = PublicTxid ∧ range_kind (desc_range d) = TxidIndex ∧
  (∀ k r, records !! k = Some r → pt_txid_index r = range_start (desc_range d) + Z.of_nat k) ∧
  range_end (desc_range d) = range_start (desc_range d) + Z.of_nat (length records) - 1 ∧
  range_start (desc_range d) `div` TREE_LEAF_COUNT = range_end (desc_range d) `div` TREE_LEAF_COUNT.
Proof.
  intros Hwf. unfold prepare_public_txid_chunk, encode_public_txid_envelope, validate_single_txid_tree.
  intros Hp. res_inv. repeat case_decide; try done. res_inv. cbn.
  match goal with E : public_txid_range _ = _ |- _ => apply public_txid_range_Ok in E as (_ & Hk & Hi & He) end.
  match goal with E : public_txid_envelope _ _ _ _ _ = _ |- _ =>
    unfold public_txid_envelope in E; res_inv; int_facts end.
  split_and!; try done.
  do 3 eexists. split_and!; [eassumption|done|done|].
  apply parse_public_txid_section_Ok; [done|done|eassumption].
Qed.

(** The unshield-preimage section: when the encoder writes it, it is the
    count of unshield rows followed by one entry per unshield row in row
    order; every such row has a preimage that hashes to its last commitment,
    and no other row has a preimage. *)
Theorem unshield_preimages_complete {Cid} `{TxidCrate} records bs :
  encode_public_txid_unshield_preimages (Cid := Cid) records = Ok (Some bs) →
  let unshields := filter (λ r, pt_has_unshield r = true) records in
  bs = le_bytes 4 (Z.of_nat (length unshields)) ++ concat (preimage_entry <$> unshields) ∧
  Forall preimage_ok unshields ∧
  Forall (λ r, pt_has_unshield r = false → pt_unshield_preimage r = None) records.
Proof.
  unfold encode_public_txid_unshield_preimages. intros Hr. res_inv.
  repeat match goal with p : (_ * _)%type |- _ => destruct p as [? []] end; res_inv; int_facts.
  match goal with E : try_fold _ _ _ = _ |- _ => apply preimage_loop in E as (-> & Hm & Hall) end.
  destruct (Hm eq_refl) as [_ Hsome]. cbn zeta. split_and!.
  - unfold write_u32. rewrite app_nil_l. f_equal. clear -Hall.
    induction Hall as [|r rs Hr _ IH]; [done|]. rewrite filter_cons. cbn. rewrite IH.
    case_decide; cbn; [done|]. unfold preimage_entry.
    destruct (pt_unshield_preimage r); [|done]. by destruct Hr.
  - apply Forall_forall. intros r [Hu Hin]%list_elem_of_filter.
    rewrite Forall_forall in Hsome, Hall. by apply Hall, Hsome.
  - eapply Forall_impl; [exact Hall|]. cbn. intros r Hr Hf.
    destruct (pt_unshield_preimage r); [|done]. destruct Hr as [Ht _]; congruence.
Qed.

(** C34. The parity verifier and the publisher disagree on the section id: the
    publisher writes TXID records under section 3 and never writes a section
    1, which is the only section [parse_public_txid_payload] reads. With a
    [section_payload] that fails on an id no section has, the verifier rejects
    every envelope the publisher can encode. *)
Theorem verifier_rejects_every_published_txid_chunk `{ArtifactCrate} from_utf8
    scope range row_count record_payload unshield_payload env d :
  (∀ env id, Forall (λ s, section_id s ≠ id) (header_sections (envelope_header env)) →
     is_ok (section_payload env id) = false) →
  public_txid_envelope scope range row_count record_payload unshield_payload = Ok env →
  is_ok (parse_public_txid_payload from_utf8 env d) = false.
Proof.
  intros Hmissing He. unfold parse_public_txid_payload. case_decide; [done|].
  assert (is_ok (section_payload env 1) = false) as Hs.
  { apply Hmissing. unfold public_txid_envelope in He. res_inv. cbn.
    unfold public_txid_sections. destruct unshield_payload; repeat constructor; cbn; done. }
  by destruct (section_payload env 1).
Qed.

(** ** Witnesses *)

(** A concrete instance of the contract crate: a preimage is one word. *)
#[export] Instance toy_txid : TxidCrate := {|
  Preimage := Z;
  preimage_abi_decode := λ bs, if decide (length bs = 32%nat) then Some (be_value bs) else None;
  preimage_abi_encode := be_bytes 32;
  preimage_hash := λ p, p;
  compute_railgun_txid_parts := λ ns cs b, foldl Z.add b (ns ++ cs);
  railgun_txid_leaf_hash_with_output_start := λ t i o, t + i + o;
  dense_tree_root := λ leaves count, foldl Z.add count leaves;
|}.

Definition toy_txid_row (i : Z) (unshield : bool) : StoredPublicTxidRow :=
  mkTxidRow i [Byte.x61; Byte.x62] (100 + i) 1000 (be_bytes 32 1) (be_bytes 32 2) 3 4 [be_bytes 32 5]
    [be_bytes 32 6; be_bytes 32 7] (be_bytes 32 8) unshield
    (if unshield then Some (be_bytes 32 7) else None) 0 0 9.

Lemma toy_txid_row_wf i u : is_u64 i → is_u64 (100 + i) → txid_row_wf (λ _, true) (toy_txid_row i u).
Proof.
  intros ??. unfold txid_row_wf, toy_txid_row. cbn [pt_txid_index pt_id pt_block_number pt_block_timestamp
    pt_block_hash pt_transaction_hash pt_first_log_index pt_last_log_index pt_nullifiers pt_commitments
    pt_bound_params_hash pt_utxo_tree_in pt_utxo_tree_out pt_utxo_batch_start_position_out].
  repeat match goal with
  | |- _ ∧ _ => split
  | |- length _ = _ => apply length_be_bytes
  | |- Forall _ _ => constructor
  | |- in_u _ _ => assumption
  | |- in_u _ _ => solve_u
  | |- _ => reflexivity
  end.
Qed.

Definition toy_txid_rows : list StoredPublicTxidRow := [toy_txid_row 4 false; toy_txid_row 5 true].

Lemma public_txid_roundtrip_witness :
  ∃ pub, prepare_public_txid_chunk (Cid := nat) (H := plain_crate) (H0 := toy_tree) (mkScope Evm 1 0) toy_txid_rows (be_bytes 32 1)
           Zstd = Ok pub ∧
    range_end (desc_range (published_descriptor pub)) = 5.
Proof.
  destruct (prepare_public_txid_chunk (Cid := nat) (H := plain_crate) (H0 := toy_tree) (mkScope Evm 1 0) toy_txid_rows
    (be_bytes 32 1) Zstd) as [pub|e] eqn:E; [|vm_compute in E; discriminate].
  exists pub. split; [reflexivity|].
  assert (Forall (txid_row_wf (λ _, true)) toy_txid_rows) as Hwf
    by (repeat constructor; apply toy_txid_row_wf; solve_u).
  destruct (public_txid_roundtrip (H := plain_crate) (H0 := toy_tree) _ _ _ _ _ _ Hwf E) as (_ & _ & _ & Hi & He & _).
  rewrite He. pose proof (Hi 0%nat _ eq_refl) as H0. cbn in H0. cbn. lia.
Defined.

Lemma unshield_preimages_complete_witness :
  ∃ bs, encode_public_txid_unshield_preimages (Cid := nat) toy_txid_rows = Ok (Some bs) ∧
    Forall preimage_ok [toy_txid_row 5 true].
Proof.
  destruct (encode_public_txid_unshield_preimages (Cid := nat) toy_txid_rows) as [[bs|]|e] eqn:E;
    [|vm_compute in E; discriminate|vm_compute in E; discriminate].
  exists bs. split; [reflexivity|]. exact (proj1 (proj2 (unshield_preimages_complete _ _ E))).
Defined.

Lemma verifier_rejects_every_published_txid_chunk_witness :
  ∃ env, public_txid_envelope (mkScope Evm 1 0) (mkRange TxidIndex 4 5) 2 [Byte.x00] None = Ok env ∧
    is_ok (parse_public_txid_payload (H := plain_crate) (λ _, true) env
      (mkDescriptor PublicTxid (mkScope Evm 1 0) (mkRange TxidIndex 4 5) 2 "" [] 0 1
         Zstd (mkMetadata None None None None None None None))) = false.
Proof.
  destruct (public_txid_envelope (mkScope Evm 1 0) (mkRange TxidIndex 4 5) 2 [Byte.x00] None)
    as [env|e] eqn:E; [|vm_compute in E; discriminate].
  exists env. split; [reflexivity|].
  eapply (verifier_rejects_every_published_txid_chunk (H := plain_crate)); [|exact E].
  intros env' id Hid. cbn. unfold plain_section.
  destruct (list_find _ _) as [[k s]|] eqn:Hf; [|done].
  apply list_find_Some in Hf as (Hk & Hs & _). rewrite Forall_lookup in Hid. by destruct (Hid _ _ Hk).
Defined.
