(* ===== verification/Paging.v ===== *)
(** * Page sizes and retries of the scraper ([scrape/page_size.rs], [scrape/retry.rs])

    The adaptive page size of the upstream POI queries, and the bounded retry
    loop with exponential backoff. A [Duration] is its number of nanoseconds. *)

From S2P Require Import Prelude.

(** ** [PageSizeAdapter] *)
Definition UPSTREAM_MAX_PAGE_SIZE : Z := 100.
Definition GROW_AFTER_SUCCESSES : Z := 2.

Record PageSizeAdapter := mkAdapter {
  current_size : Z;
  max_size : Z;
  min_size : Z;
  consecutive_successes : Z;
  consecutive_failures : Z;
}.

(** [Ord::clamp], for [lo ≤ hi]. *)
Definition clamp (x lo hi : Z) : Z := Z.min (Z.max x lo) hi.

(** [+= 1] on a [usize] counter, with the wrap-around of release builds. *)
Definition usize_incr (x : Z) : Z := (x + 1) mod 2 ^ 64.

Definition adapter_new (current_size max_size min_size : Z) : PageSizeAdapter :=
  let max_size := clamp max_size 1 UPSTREAM_MAX_PAGE_SIZE in
  let min_size := clamp min_size 1 max_size in
  let current_size := clamp current_size min_size max_size in
  mkAdapter current_size max_size min_size 0 0.

Definition on_success (a : PageSizeAdapter) : PageSizeAdapter :=
  let a := mkAdapter (current_size a) (max_size a) (min_size a)
             (usize_incr (consecutive_successes a)) 0 in
  if decide (consecutive_successes a < GROW_AFTER_SUCCESSES ∨ current_size a = max_size a) then a
  else mkAdapter (Z.min (saturating_mul usize_max (current_size a) 2) (max_size a))
         (max_size a) (min_size a) 0 (consecutive_failures a).

Definition on_failure (a : PageSizeAdapter) : PageSizeAdapter :=
  mkAdapter (Z.max (current_size a / 2) (min_size a)) (max_size a) (min_size a)
    0 (usize_incr (consecutive_failures a)).

(** The adapter over a sequence of page outcomes ([true] is a success). *)
Definition on_outcome (a : PageSizeAdapter) (success : bool) : PageSizeAdapter :=
  if success then on_success a else on_failure a.
Definition run_outcomes : PageSizeAdapter → list bool → PageSizeAdapter := foldl on_outcome.

(** ** [RetryPolicy] *)
Definition duration_max : Z := u64_max * 1000000000 + 999999999.

Record RetryPolicy := mkPolicy { budget : nat; base_delay : Z; max_delay : Z }.

(** The loop of [backoff_delay], [n] iterations from the end. *)
Fixpoint backoff_loop (max_delay : Z) (n : nat) (delay : Z) : Z :=
  match n with
  | O => Z.min delay max_delay
  | S n =>
      let delay := saturating_mul duration_max delay 2 in
      if decide (max_delay ≤ delay) then max_delay else backoff_loop max_delay n delay
  end.
Definition backoff_delay (p : RetryPolicy) (attempt : nat) : Z :=
  backoff_loop (max_delay p) attempt (base_delay p).

Inductive RetryError (E : Type) :=
  | NoAttemptsConfigured
  | BudgetExhausted (attempts : nat) (source : E).
Arguments NoAttemptsConfigured {_}.
Arguments BudgetExhausted {_}.

Section retry.
(** The state the operation works on, and the operation. *)
Context {S E T : Type} (policy : RetryPolicy) (op : S → result E T * S).

(** The [loop], with fuel; the last component logs the delays slept. *)
Fixpoint retry_loop (fuel : nat) (attempts : nat) (s : S)
    : option (result (RetryError E) T * S * list Z) :=
  match fuel with
  | O => None
  | Datatypes.S fuel =>
      let attempts := Datatypes.S attempts in
      match op s with
      | (Ok value, s) => Some (Ok value, s, [])
      | (Err source, s) =>
          if decide (budget policy ≤ attempts)%nat
          then Some (Err (BudgetExhausted attempts source), s, [])
          else
            '(r, s, slept) ← retry_loop fuel attempts s;
            Some (r, s, backoff_delay policy (attempts - 1) :: slept)
      end
  end.

Definition retry_with_backoff (s : S) : option (result (RetryError E) T * S * list Z) :=
  if decide (budget policy = 0)%nat then Some (Err NoAttemptsConfigured, s, [])
  else retry_loop (budget policy) 0 s.

(** Specification: [fails n s s'] when the first [n] calls fail. *)
Inductive fails : nat → S → S → Prop :=
  | fails_0 s : fails 0 s s
  | fails_S n s e s1 s2 : op s = (Err e, s1) → fails n s1 s2 → fails (Datatypes.S n) s s2.

Lemma retry_loop_spec fuel attempts s :
  (attempts < budget policy)%nat → (fuel = budget policy - attempts)%nat →
  ∃ n s' slept,
    fails n s s' ∧ slept = backoff_delay policy <$> seq attempts n ∧
    ((∃ v s'', (n < fuel)%nat ∧ op s' = (Ok v, s'') ∧ retry_loop fuel attempts s = Some (Ok v, s'', slept)) ∨
     (∃ e s'', n = (fuel - 1)%nat ∧ op s' = (Err e, s'') ∧
        retry_loop fuel attempts s = Some (Err (BudgetExhausted (budget policy) e), s'', slept))).
Proof.
  revert attempts s. induction fuel as [|fuel IH]; intros attempts s Hlt Hf; [lia|]. cbn [retry_loop].
  destruct (op s) as [[v|e] s1] eqn:Hop.
  - exists 0%nat, s, []. split_and!; [constructor|done|]. left. exists v, s1. split_and!; [lia|done|done].
  - case_decide as Hb.
    + exists 0%nat, s, []. split_and!; [constructor|done|]. right. exists e, s1.
      split_and!; [lia|done|]. by replace (Datatypes.S attempts) with (budget policy) by lia.
    + destruct (IH (Datatypes.S attempts) s1 ltac:(lia) ltac:(lia))
        as (n & s' & slept & Hn & -> & Hr).
      exists (Datatypes.S n), s', (backoff_delay policy <$> seq attempts (Datatypes.S n)).
      split_and!; [by econstructor|done|]. cbn [seq fmap list_fmap].
      destruct Hr as [(v & s'' & ? & ? & ->)|(e' & s'' & ? & ? & ->)]; [left|right];
        cbn; rewrite !Nat.sub_0_r; do 2 eexists; (split_and!; [lia|done|done]).
Qed.
End retry.

(** ** The adapter's invariant *)
Definition adapter_ok (a : PageSizeAdapter) : Prop :=
  1 ≤ min_size a ≤ current_size a ∧ current_size a ≤ max_size a ≤ UPSTREAM_MAX_PAGE_SIZE ∧
  0 ≤ consecutive_successes a ∧ (current_size a ≠ max_size a → consecutive_successes a ≤ 1).

Lemma adapter_new_ok c m n : adapter_ok (adapter_new c m n).
Proof. unfold adapter_ok, adapter_new, clamp, UPSTREAM_MAX_PAGE_SIZE. cbn. lia. Qed.

Lemma saturating_double x : 0 ≤ x ≤ UPSTREAM_MAX_PAGE_SIZE → saturating_mul usize_max x 2 = 2 * x.
Proof.
  intros Hx. assert (200 ≤ usize_max) by (vm_compute; discriminate).
  unfold saturating_mul, UPSTREAM_MAX_PAGE_SIZE in *. lia.
Qed.

Lemma on_outcome_ok a b : adapter_ok a → adapter_ok (on_outcome a b).
Proof.
  intros (? & ? & ? & Hs). unfold on_outcome, on_success, on_failure, usize_incr. destruct b; cbn.
  - assert (0 ≤ (consecutive_successes a + 1) mod 2 ^ 64) by (apply Z.mod_pos_bound; lia).
    case_decide as Hd; unfold adapter_ok, GROW_AFTER_SUCCESSES in *; cbn.
    + split_and!; lia.
    + rewrite saturating_double by lia. lia.
  - unfold adapter_ok; cbn. pose proof (Z.div_lt (current_size a) 2). lia.
Qed.

Lemma run_outcomes_ok l a : adapter_ok a → adapter_ok (run_outcomes a l).
Proof. unfold run_outcomes. revert a. induction l; intros; [done|]; cbn; auto using on_outcome_ok. Qed.

Lemma run_outcomes_app a l1 l2 : run_outcomes a (l1 ++ l2) = run_outcomes (run_outcomes a l1) l2.
Proof. apply foldl_app. Qed.

Lemma on_outcome_limits a b : max_size (on_outcome a b) = max_size a ∧ min_size (on_outcome a b) = min_size a.
Proof. destruct b; unfold on_outcome, on_success; cbn; [case_decide|]; done. Qed.

Lemma run_outcomes_limits l a : max_size (run_outcomes a l) = max_size a ∧ min_size (run_outcomes a l) = min_size a.
Proof.
  unfold run_outcomes. revert a. induction l as [|b l IH]; intros a; [done|]. cbn.
  destruct (IH (on_outcome a b)) as [-> ->]. apply on_outcome_limits.
Qed.

(** Two successes in a row double the page size, up to the maximum. *)
Lemma on_success_hold a :
  consecutive_successes a = 0 ∨ current_size a = max_size a →
  on_success a = mkAdapter (current_size a) (max_size a) (min_size a) (usize_incr (consecutive_successes a)) 0.
Proof.
  intros H. unfold on_success. cbn. rewrite decide_True; [done|].
  destruct H as [->|H]; [left; by vm_compute|by right].
Qed.

Lemma on_success_grow a :
  adapter_ok a → consecutive_successes a = 1 → current_size a ≠ max_size a →
  on_success a = mkAdapter (Z.min (2 * current_size a) (max_size a)) (max_size a) (min_size a) 0 0.
Proof.
  intros (? & ? & _) H1 Hne. unfold on_success. cbn. rewrite H1, decide_False by (intros [|]; done).
  by rewrite saturating_double by lia.
Qed.

Lemma two_successes a :
  adapter_ok a → Z.min (2 * current_size a) (max_size a) ≤ current_size (on_success (on_success a)).
Proof.
  intros Hok. pose proof Hok as (? & ? & ? & Hs). pose proof (on_outcome_ok _ true Hok) as Hok1.
  destruct (decide (current_size a = max_size a)) as [He|He].
  { rewrite (on_success_hold a), on_success_hold by (cbn; auto). cbn. lia. }
  destruct (decide (consecutive_successes a = 0)) as [Hz|Hz].
  - cbn [on_outcome] in Hok1. rewrite (on_success_hold a) in * by auto.
    rewrite on_success_grow; [cbn; lia|done|by cbn; rewrite Hz|done].
  - rewrite (on_success_grow a) by (done || lia). rewrite on_success_hold by (cbn; auto). cbn. lia.
Qed.

Lemma successes_reach_max k a :
  adapter_ok a → max_size a ≤ 2 ^ Z.of_nat k * current_size a →
  current_size (run_outcomes a (replicate (2 * k) true)) = max_size a.
Proof.
  revert a. induction k as [|k IH]; intros a Hok Hk.
  - destruct Hok as (? & ? & ?). change (current_size a = max_size a). cbn in Hk. lia.
  - replace (2 * S k)%nat with (S (S (2 * k)))%nat by lia. cbn [replicate].
    change (current_size (run_outcomes (on_success (on_success a)) (replicate (2 * k) true)) = max_size a).
    pose proof (on_outcome_ok _ true (on_outcome_ok _ true Hok)) as Hok2.
    pose proof (two_successes _ Hok) as H2.
    destruct (on_outcome_limits (on_success a) true) as [Hm2 _], (on_outcome_limits a true) as [Hm1 _].
    cbn [on_outcome] in *. rewrite IH; [congruence|done|].
    rewrite Hm2, Hm1. rewrite Nat2Z.inj_succ, Z.pow_succ_r in Hk by lia.
    assert (1 ≤ 2 ^ Z.of_nat k) by (apply (Z.pow_le_mono_r 2 0); lia). destruct Hok as (? & ? & ?). nia.
Qed.

Lemma successes_stay_max n a : current_size a = max_size a →
  current_size (run_outcomes a (replicate n true)) = max_size a.
Proof.
  revert a. induction n as [|n IH]; intros a Ha; [done|]. cbn [replicate].
  change (current_size (run_outcomes (on_success a) (replicate n true)) = max_size a).
  unfold on_success. cbn. rewrite decide_True by auto. by rewrite IH.
Qed.

Lemma failures_reach_min k n a :
  adapter_ok a → current_size a ≤ 2 ^ Z.of_nat k * min_size a → (k ≤ n)%nat →
  current_size (run_outcomes a (replicate n false)) = min_size a.
Proof.
  revert k a. induction n as [|n IH]; intros k a Hok Hk Hn.
  - destruct k; [|lia]. destruct Hok as (? & ? & ?). change (current_size a = min_size a). cbn in Hk. lia.
  - change (current_size (run_outcomes (on_outcome a false) (replicate n false)) = min_size a).
    rewrite (IH (pred k)); [apply on_outcome_limits|by apply on_outcome_ok| |lia]. cbn.
    destruct Hok as ([? ?] & ? & ?). assert (1 ≤ 2 ^ Z.of_nat (pred k)) by (apply (Z.pow_le_mono_r 2 0); lia).
    apply Z.max_lub; [|nia]. destruct k as [|k]; cbn [pred] in *.
    + pose proof (Z.div_lt (current_size a) 2). cbn in Hk |- *. lia.
    + rewrite Nat2Z.inj_succ, Z.pow_succ_r in Hk by lia. apply Z.div_le_upper_bound; lia.
Qed.

(** ** The backoff *)
Lemma backoff_loop_closed m n d :
  0 ≤ d → m ≤ duration_max →
  backoff_loop m n d = Z.min (d * 2 ^ Z.of_nat n) m.
Proof.
  revert d. induction n as [|n IH]; intros d Hd Hm; cbn [backoff_loop]; [by rewrite Z.mul_1_r|].
  rewrite Nat2Z.inj_succ, Z.pow_succ_r by lia.
  assert (1 ≤ 2 ^ Z.of_nat n) by (apply (Z.pow_le_mono_r 2 0); lia).
  unfold saturating_mul. case_decide as Hc; [nia|].
  rewrite IH by lia. assert (Z.min duration_max (d * 2) = d * 2) as -> by lia. f_equal. lia.
Qed.

(** ** Properties *)

(** Page-size control: after any sequence of page outcomes the page size
    stays between the configured minimum and maximum, which stay inside
    [1 .. 100]; from any such state fourteen successes in a row bring it to
    the maximum and keep it there, and seven failures in a row bring it to
    the minimum. *)
Theorem page_size_adapts current max min outcomes n :
  let a := run_outcomes (adapter_new current max min) outcomes in
  1 ≤ min_size a ≤ current_size a ∧ current_size a ≤ max_size a ≤ UPSTREAM_MAX_PAGE_SIZE ∧
  current_size (run_outcomes a (replicate (14 + n) true)) = max_size a ∧
  current_size (run_outcomes a (replicate (7 + n) false)) = min_size a.
Proof.
  cbn zeta. set (a := run_outcomes _ _).
  assert (adapter_ok a) as Hok by apply run_outcomes_ok, adapter_new_ok.
  clearbody a.
  pose proof Hok as (? & ? & _). unfold UPSTREAM_MAX_PAGE_SIZE in *. split; [lia|]. split; [lia|]. split.
  - rewrite (replicate_add 14), run_outcomes_app.
    destruct (run_outcomes_limits (replicate 14 true) a) as [Hm _].
    assert (current_size (run_outcomes a (replicate 14 true)) = max_size a) as H14
      by (apply (successes_reach_max 7); [done|lia]).
    rewrite successes_stay_max; [done|by rewrite H14].
  - apply (failures_reach_min 7); [done|lia|lia].
Qed.

(** Bounded retries: [retry_with_backoff] terminates for every policy and
    operation. With a zero budget it calls nothing; otherwise it calls the
    operation until its first success, at most [budget] times, returns that
    success or the error of the last call, and sleeps [base * 2^i] capped at
    [max_delay] after the [i]-th failure and at no other time. *)
Theorem retry_with_backoff_spec {S E T} (p : RetryPolicy) (op : S → result E T * S) s :
  0 ≤ base_delay p → max_delay p ≤ duration_max →
  ∃ r s'' slept, retry_with_backoff p op s = Some (r, s'', slept) ∧
    ((budget p = 0%nat ∧ r = Err NoAttemptsConfigured ∧ s'' = s ∧ slept = []) ∨
     ∃ n s', (n < budget p)%nat ∧ fails op n s s' ∧
       slept = (λ i, Z.min (base_delay p * 2 ^ Z.of_nat i) (max_delay p)) <$> seq 0 n ∧
       ((∃ v, op s' = (Ok v, s'') ∧ r = Ok v) ∨
        (∃ e, (n + 1)%nat = budget p ∧ op s' = (Err e, s'') ∧ r = Err (BudgetExhausted (budget p) e)))).
Proof.
  intros Hb Hm. unfold retry_with_backoff. case_decide as H0; [by do 3 eexists; split; [done|left]|].
  destruct (retry_loop_spec p op (budget p) 0 s ltac:(lia) ltac:(lia))
    as (n & s' & slept & Hf & Hs & Hr).
  assert (slept = (λ i, Z.min (base_delay p * 2 ^ Z.of_nat i) (max_delay p)) <$> seq 0 n) as ->.
  { rewrite Hs. apply list_fmap_ext. intros. by apply backoff_loop_closed. }
  destruct Hr as [(v & s'' & ? & ? & ->)|(e & s'' & ? & ? & ->)]; do 3 eexists; (split; [done|]); right;
    exists n, s'; (split_and!; [lia|done|done|]); [left; eauto|right].
  eexists. split_and!; [lia|done|done].
Qed.

(** An operation that fails twice. *)
Lemma retry_with_backoff_spec_witness :
  ∃ r s'' slept,
    retry_with_backoff (mkPolicy 3 100 150)
      (λ n : nat, (if decide (n < 2)%nat then Err n else Ok n, S n)) 0%nat = Some (r, s'', slept) ∧
    slept = [100; 150].
Proof.
  destruct (retry_with_backoff_spec (mkPolicy 3 100 150)
    (λ n : nat, (if decide (n < 2)%nat then Err n else Ok n, S n)) 0%nat
    ltac:(vm_compute; discriminate) ltac:(vm_compute; discriminate)) as (r & s'' & slept & Hr & _).
  exists r, s'', slept. split; [exact Hr|]. vm_compute in Hr. by injection Hr.
Defined.
