(* ===== verification/ChainLogs.v ===== *)
(** * Chain logs ([chain_logs.rs]): types, tree positions and ingestion

    The contract's logs as the provider returns them, the rows they are
    decoded into, and [ingest_chain_logs], which turns a list of logs into an
    [IndexedLogBatch]. Words of 32 bytes (hashes, [U256] values) are integers.
    The ABI decoders and the payload types of the contract crate are the class
    [ContractCrate]. *)

From S2P Require Import Prelude Wire Ipfs Artifacts MerkleCheckpointChunk.

(** The events the indexer asks for; their signature hashes are distinct
    constants of the contract ABI. *)
Inductive EventSignature :=
  | SigTransact | SigShield | SigLegacyShield | SigNullifiers | SigNullified
  | SigAction | SigUnshield | SigCommitmentBatch | SigGeneratedCommitmentBatch.
#[export] Instance EventSignature_eq_dec : EqDecision EventSignature.
Proof. solve_decision. Defined.

(** A log of the provider: [topic0] is [None] for a signature that is none of
    the above; [log_data] is what the ABI decoders read. *)
Record Log := mkLog {
  log_address : Z;
  topic0 : option EventSignature;
  log_data : bytes;
  log_block_number : option Z;
  log_block_hash : option Z;
  log_transaction_hash : option Z;
  log_log_index : option Z;
}.

Record TXConfig := mkTXConfig {
  nullifiersCount : Z;
  commitmentsCount : Z;
  hasUnshield : bool;
  boundParamsHash : Z;
}.

(** The contract crate: payload types, event structs and their decoders.
    [treeNumber] and [startPosition] of the batch events are [U256]. *)
Record BatchEvent (A B : Type) := mkBatchEvent {
  treeNumber : Z;
  startPosition : Z;
  items : list A;
  extras : list B;
}.
Arguments mkBatchEvent {_ _}.
Arguments treeNumber {_ _}.
Arguments startPosition {_ _}.
Arguments items {_ _}.
Arguments extras {_ _}.

Record NullifierEvent := mkNullifierEvent { ne_treeNumber : Z; ne_nullifier : list Z }.

Class ContractCrate := {
  CommitmentCiphertext : Type;
  CommitmentPreimage : Type;
  ShieldCiphertext : Type;
  LegacyCommitmentCiphertext : Type;
  LegacyCommitmentPreimage : Type;
  Unshield : Type;
  TokenData : Type;
  (** fields of the [Unshield] event *)
  unshield_to : Unshield → Z;
  unshield_token : Unshield → TokenData;
  unshield_amount : Unshield → Z;
  unshield_fee : Unshield → Z;
  (** [CommitmentPreimage { npk, token, value }], its hash and ABI encoding *)
  commitment_preimage_new : Z → TokenData → Z → CommitmentPreimage;
  commitment_preimage_hash : CommitmentPreimage → Z;
  commitment_preimage_abi_encode : CommitmentPreimage → bytes;
  (** [compute_railgun_txid_parts] *)
  railgun_txid_parts : list Z → list Z → Z → Z;
  (** [log_decode::<E>()], one per event; [None] is a [SolError] *)
  decode_transact : Log → option (BatchEvent Z CommitmentCiphertext);
  decode_shield : Log → option (BatchEvent CommitmentPreimage ShieldCiphertext);
  decode_legacy_shield : Log → option (BatchEvent CommitmentPreimage ShieldCiphertext);
  decode_nullifiers : Log → option NullifierEvent;
  decode_nullified : Log → option NullifierEvent;
  decode_action : Log → option (list TXConfig);
  decode_unshield : Log → option Unshield;
  decode_commitment_batch : Log → option (BatchEvent LegacyCommitmentCiphertext Z);
  decode_generated_commitment_batch : Log → option (BatchEvent LegacyCommitmentPreimage (Z * Z));
}.

(** ** Errors

    [Panicked] is not a variant of the enum: it stands for the abort of
    [Uint::to] on a value that does not fit. *)
Inductive ChainLogIngestionError :=
  | Provider (message : string)
  | Decode
  | TransactErr
  | MissingLogMetadata (field : string)
  | MissingTransaction (transaction_hash block_number block_hash first_log_index last_log_index : Z)
  | MissingTransactionByHash (transaction_hash : Z)
  | MissingRailgunCalldata (transaction_hash block_number block_hash first_log_index last_log_index : Z)
  | MissingRailgunCalldataByHash (transaction_hash : Z)
  | UnmatchedTransactionOutputCommitments (transaction_hash block_number : Z) (railgun_transaction_index : nat)
  | MissingTransactionNullifierGroup (transaction_hash block_number : Z) (railgun_transaction_index : nat)
  | AmbiguousTransactionNullifierGroup (transaction_hash block_number : Z) (railgun_transaction_index matches : nat)
  | UnmatchedEmittedOutputCommitments (transaction_hash block_number : Z) (consumed emitted : nat)
  | MissingBlock (block_number block_hash : Z)
  | MismatchedBlock (expected_block_number expected_block_hash actual_block_number actual_block_hash : Z)
  | MissingFullBlockTransactions (block_number block_hash : Z)
  | InvalidBlockField (block_number block_hash : Z) (field : string)
  | ActionNullifierCountMismatch (transaction_hash block_number log_index : Z)
  | ActionCommitmentCountMismatch (transaction_hash block_number log_index : Z)
  | MissingActionUnshield (transaction_hash block_number log_index : Z)
  | UnmatchedActionLog (transaction_hash block_number log_index : Z)
  | AmbiguousUnshieldCalldata (transaction_hash block_number : Z) (matches : nat)
  | ContradictingUnshieldCalldata (transaction_hash block_number : Z) (field : string)
  | IntegerOverflow (what : string)
  | Panicked (what : string).
Notation cresult := (result ChainLogIngestionError).

(** ** Rows *)
Record IndexedLogSource := mkLogSource {
  ls_block_number : Z;
  ls_block_timestamp : option Z;
  ls_block_hash : Z;
  ls_transaction_hash : Z;
  ls_log_index : Z;
}.

Record IndexedPublicTransaction := mkPublicTransaction {
  ip_source : IndexedLogSource;
  ip_first_log_index : Z;
  ip_last_log_index : Z;
  ip_railgun_transaction_index : Z;
  (** the transaction hash and index that [id] prints *)
  ip_id : Z * Z;
  ip_block_timestamp : Z;
  ip_nullifiers : list Z;
  ip_commitments : list Z;
  ip_bound_params_hash : Z;
  ip_has_unshield : bool;
  ip_unshield_preimage : option bytes;
  ip_utxo_tree_in : Z;
  ip_utxo_tree_out : Z;
  ip_utxo_batch_start_position_out : Z;
  ip_railgun_txid : Z;
}.

Record IndexedAction := mkAction { ac_txconfigs : list TXConfig; ac_source : IndexedLogSource }.
Record IndexedNullifier := mkNullifier {
  nu_tree_number : Z; nu_nullifier : Z; nu_source : IndexedLogSource }.

Section batch.
Context `{ContractCrate}.

Record IndexedTransactCommitment := mkTransactCommitment {
  tc_tree_number : Z; tc_tree_position : Z; tc_hash : Z;
  tc_ciphertext : option CommitmentCiphertext; tc_source : IndexedLogSource }.
Record IndexedShieldCommitment := mkShieldCommitment {
  sc_tree_number : Z; sc_tree_position : Z; sc_preimage : CommitmentPreimage;
  sc_shield_ciphertext : ShieldCiphertext; sc_source : IndexedLogSource }.
Record IndexedUnshield := mkUnshield { us_unshield : Unshield; us_source : IndexedLogSource }.
Record IndexedLegacyEncryptedCommitment := mkLegacyEncrypted {
  le_tree_number : Z; le_tree_position : Z; le_hash : Z;
  le_ciphertext : LegacyCommitmentCiphertext; le_source : IndexedLogSource }.
Record IndexedLegacyGeneratedCommitment := mkLegacyGenerated {
  lg_tree_number : Z; lg_tree_position : Z; lg_preimage : LegacyCommitmentPreimage;
  lg_encrypted_random : Z * Z; lg_source : IndexedLogSource }.

Record IndexedLogBatch := mkBatch {
  transact_commitments : list IndexedTransactCommitment;
  shield_commitments : list IndexedShieldCommitment;
  nullifiers : list IndexedNullifier;
  legacy_encrypted_commitments : list IndexedLegacyEncryptedCommitment;
  legacy_generated_commitments : list IndexedLegacyGeneratedCommitment;
  actions : list IndexedAction;
  unshields : list IndexedUnshield;
  public_transactions : list IndexedPublicTransaction;
  unshield_log_derivations : nat;
  unshield_log_divergences : nat;
}.
Definition batch_default : IndexedLogBatch := mkBatch [] [] [] [] [] [] [] [] 0 0.
End batch.

(** ** Tree positions *)
Section positions.
Context `{TreeCrate}.

Definition normalize_tree_position (tree_number tree_position : Z) : cresult (Z * Z) :=
  tree_increment ← ok_or (try_from u32_max (tree_position / TREE_LEAF_COUNT)) (IntegerOverflow "tree_number");
  tree_number ← ok_or (checked_add u32_max tree_number tree_increment) (IntegerOverflow "tree_number");
  Ok (tree_number, tree_position mod TREE_LEAF_COUNT).

Definition normalized_global_position (global_position : Z) : cresult (Z * Z) :=
  normalize_tree_position 0 global_position.

Definition normalized_event_position (tree_number start_position : Z) (index : nat) : cresult (Z * Z) :=
  index ← ok_or (try_from_len u64_max index) (IntegerOverflow "event_index");
  position ← ok_or (checked_add u64_max start_position index) (IntegerOverflow "tree_position");
  normalize_tree_position tree_number position.

Definition global_tree_position (tree_number tree_position : Z) : cresult Z :=
  ok_or (tree_start ← checked_mul u64_max tree_number TREE_LEAF_COUNT;
         checked_add u64_max tree_start tree_position) (IntegerOverflow "global_tree_position").

Definition comparable_global_tree_position (tree_number tree_position : Z) : Z :=
  tree_number * TREE_LEAF_COUNT + tree_position.
End positions.

(** ** Ingestion *)
Definition source_from_log (log : Log) : cresult IndexedLogSource :=
  block_number ← ok_or (log_block_number log) (MissingLogMetadata "block_number");
  block_hash ← ok_or (log_block_hash log) (MissingLogMetadata "block_hash");
  transaction_hash ← ok_or (log_transaction_hash log) (MissingLogMetadata "transaction_hash");
  log_index ← ok_or (log_log_index log) (MissingLogMetadata "log_index");
  Ok (mkLogSource block_number None block_hash transaction_hash log_index).

(** [Uint::to::<uN>()] *)
Definition uint_to (max x : Z) : cresult Z :=
  if decide (x ≤ max) then Ok x else Err (Panicked "Uint::to").

Section ingest.
Context `{ContractCrate} `{TreeCrate}.

(** The [for (index, x) in items.enumerate()] loops of the events: each item
    gives a row, is skipped, or stops the ingestion. *)
Fixpoint enumerate_rows {A R} (row : nat → A → cresult (option R)) (index : nat) (l : list A)
    : cresult (list R) :=
  match l with
  | [] => Ok []
  | a :: l =>
      r ← row index a;
      rs ← enumerate_rows row (S index) l;
      Ok (match r with Some r => r :: rs | None => rs end)
  end.

Definition ingest_transact (batch : IndexedLogBatch) (log : Log) : cresult IndexedLogBatch :=
  event ← ok_or (decode_transact log) Decode;
  tree_number ← uint_to u32_max (treeNumber event);
  start_position ← uint_to u64_max (startPosition event);
  source ← source_from_log log;
  rows ← enumerate_rows (λ index hash,
    '(tree_number, tree_position) ← normalized_event_position tree_number start_position index;
    Ok (Some (mkTransactCommitment tree_number tree_position hash (extras event !! index) source)))
    0 (items event);
  Ok (mkBatch (transact_commitments batch ++ rows) (shield_commitments batch) (nullifiers batch)
    (legacy_encrypted_commitments batch) (legacy_generated_commitments batch) (actions batch)
    (unshields batch) (public_transactions batch) (unshield_log_derivations batch)
    (unshield_log_divergences batch)).

Definition ingest_shield_commitments (batch : IndexedLogBatch) (tree_number start_position : Z)
    (commitments : list CommitmentPreimage) (ciphertexts : list ShieldCiphertext)
    (source : IndexedLogSource) : cresult IndexedLogBatch :=
  rows ← enumerate_rows (λ index preimage,
    match ciphertexts !! index with
    | None => Ok None
    | Some shield_ciphertext =>
        '(tree_number, tree_position) ← normalized_event_position tree_number start_position index;
        Ok (Some (mkShieldCommitment tree_number tree_position preimage shield_ciphertext source))
    end) 0 commitments;
  Ok (mkBatch (transact_commitments batch) (shield_commitments batch ++ rows) (nullifiers batch)
    (legacy_encrypted_commitments batch) (legacy_generated_commitments batch) (actions batch)
    (unshields batch) (public_transactions batch) (unshield_log_derivations batch)
    (unshield_log_divergences batch)).

(** Both shield events; [decode] is the decoder of the event at hand. *)
Definition ingest_shield (decode : Log → option (BatchEvent CommitmentPreimage ShieldCiphertext))
    (batch : IndexedLogBatch) (log : Log) : cresult IndexedLogBatch :=
  event ← ok_or (decode log) Decode;
  source ← source_from_log log;
  tree_number ← uint_to u32_max (treeNumber event);
  start_position ← uint_to u64_max (startPosition event);
  ingest_shield_commitments batch tree_number start_position (items event) (extras event) source.

Definition push_nullifiers (batch : IndexedLogBatch) (tree_number : Z) (values : list Z)
    (source : IndexedLogSource) : IndexedLogBatch :=
  mkBatch (transact_commitments batch) (shield_commitments batch)
    (nullifiers batch ++ ((λ n, mkNullifier tree_number n source) <$> values))
    (legacy_encrypted_commitments batch) (legacy_generated_commitments batch) (actions batch)
    (unshields batch) (public_transactions batch) (unshield_log_derivations batch)
    (unshield_log_divergences batch).

Definition ingest_nullifiers (batch : IndexedLogBatch) (log : Log) : cresult IndexedLogBatch :=
  event ← ok_or (decode_nullifiers log) Decode;
  tree_number ← uint_to u32_max (ne_treeNumber event);
  source ← source_from_log log;
  Ok (push_nullifiers batch tree_number (ne_nullifier event) source).

Definition ingest_nullified (batch : IndexedLogBatch) (log : Log) : cresult IndexedLogBatch :=
  event ← ok_or (decode_nullified log) Decode;
  source ← source_from_log log;
  Ok (push_nullifiers batch (ne_treeNumber event) (ne_nullifier event) source).

Definition ingest_action (batch : IndexedLogBatch) (log : Log) : cresult IndexedLogBatch :=
  txconfigs ← ok_or (decode_action log) Decode;
  source ← source_from_log log;
  Ok (mkBatch (transact_commitments batch) (shield_commitments batch) (nullifiers batch)
    (legacy_encrypted_commitments batch) (legacy_generated_commitments batch)
    (actions batch ++ [mkAction txconfigs source])
    (unshields batch) (public_transactions batch) (unshield_log_derivations batch)
    (unshield_log_divergences batch)).

Definition ingest_unshield (batch : IndexedLogBatch) (log : Log) : cresult IndexedLogBatch :=
  unshield ← ok_or (decode_unshield log) Decode;
  source ← source_from_log log;
  Ok (mkBatch (transact_commitments batch) (shield_commitments batch) (nullifiers batch)
    (legacy_encrypted_commitments batch) (legacy_generated_commitments batch) (actions batch)
    (unshields batch ++ [mkUnshield unshield source])
    (public_transactions batch) (unshield_log_derivations batch) (unshield_log_divergences batch)).

Definition ingest_commitment_batch (batch : IndexedLogBatch) (log : Log) : cresult IndexedLogBatch :=
  event ← ok_or (decode_commitment_batch log) Decode;
  tree_number ← uint_to u32_max (treeNumber event);
  start_position ← uint_to u64_max (startPosition event);
  source ← source_from_log log;
  rows ← enumerate_rows (λ index ciphertext,
    match extras event !! index with
    | None => Ok None
    | Some hash =>
        '(tree_number, tree_position) ← normalized_event_position tree_number start_position index;
        Ok (Some (mkLegacyEncrypted tree_number tree_position hash ciphertext source))
    end) 0 (items event);
  Ok (mkBatch (transact_commitments batch) (shield_commitments batch) (nullifiers batch)
    (legacy_encrypted_commitments batch ++ rows) (legacy_generated_commitments batch) (actions batch)
    (unshields batch) (public_transactions batch) (unshield_log_derivations batch)
    (unshield_log_divergences batch)).

Definition ingest_generated_commitment_batch (batch : IndexedLogBatch) (log : Log) : cresult IndexedLogBatch :=
  event ← ok_or (decode_generated_commitment_batch log) Decode;
  tree_number ← uint_to u32_max (treeNumber event);
  start_position ← uint_to u64_max (startPosition event);
  source ← source_from_log log;
  rows ← enumerate_rows (λ index preimage,
    match extras event !! index with
    | None => Ok None
    | Some encrypted_random =>
        '(tree_number, tree_position) ← normalized_event_position tree_number start_position index;
        Ok (Some (mkLegacyGenerated tree_number tree_position preimage encrypted_random source))
    end) 0 (items event);
  Ok (mkBatch (transact_commitments batch) (shield_commitments batch) (nullifiers batch)
    (legacy_encrypted_commitments batch) (legacy_generated_commitments batch ++ rows) (actions batch)
    (unshields batch) (public_transactions batch) (unshield_log_derivations batch)
    (unshield_log_divergences batch)).

Definition ingest_log (batch : IndexedLogBatch) (log : Log) : cresult IndexedLogBatch :=
  match topic0 log with
  | Some SigTransact => ingest_transact batch log
  | Some SigShield => ingest_shield decode_shield batch log
  | Some SigLegacyShield => ingest_shield decode_legacy_shield batch log
  | Some SigNullifiers => ingest_nullifiers batch log
  | Some SigNullified => ingest_nullified batch log
  | Some SigAction => ingest_action batch log
  | Some SigUnshield => ingest_unshield batch log
  | Some SigCommitmentBatch => ingest_commitment_batch batch log
  | Some SigGeneratedCommitmentBatch => ingest_generated_commitment_batch batch log
  | None => Ok batch
  end.

Definition ingest_chain_logs (logs : list Log) : cresult IndexedLogBatch :=
  try_fold ingest_log batch_default logs.
End ingest.

(** ** Specification

    The position of the [i]-th item of a batch event, and the widths that its
    computation needs. *)
Section spec.
Context `{TreeCrate}.

Definition event_position (tree_number start_position : Z) (i : nat) : Z * Z :=
  let g := comparable_global_tree_position tree_number (start_position + Z.of_nat i) in
  (g / TREE_LEAF_COUNT, g mod TREE_LEAF_COUNT).

Definition position_ok (tree_number start_position : Z) (i : nat) : Prop :=
  start_position + Z.of_nat i ≤ u64_max ∧ Z.of_nat i ≤ u64_max ∧
  (start_position + Z.of_nat i) / TREE_LEAF_COUNT ≤ u32_max ∧
  tree_number + (start_position + Z.of_nat i) / TREE_LEAF_COUNT ≤ u32_max.

Lemma leaf_count_pos : 0 < TREE_LEAF_COUNT.
Proof. rewrite tree_leaf_count_pow. apply Z.pow_pos_nonneg; lia. Qed.

Lemma normalize_tree_position_Ok t p t' p' :
  normalize_tree_position t p = Ok (t', p') ↔
  (p / TREE_LEAF_COUNT ≤ u32_max ∧ t + p / TREE_LEAF_COUNT ≤ u32_max) ∧
  t' = t + p / TREE_LEAF_COUNT ∧ p' = p mod TREE_LEAF_COUNT.
Proof.
  unfold normalize_tree_position, try_from, checked_add.
  repeat (case_decide; cbn [ok_or mbind result_bind]); naive_solver.
Qed.

Lemma comparable_div t p : comparable_global_tree_position t p / TREE_LEAF_COUNT = t + p / TREE_LEAF_COUNT.
Proof. unfold comparable_global_tree_position. pose proof leaf_count_pos. rewrite Z.div_add_l; lia. Qed.
Lemma comparable_mod t p : comparable_global_tree_position t p mod TREE_LEAF_COUNT = p mod TREE_LEAF_COUNT.
Proof. unfold comparable_global_tree_position. by rewrite Z.add_comm, Z_mod_plus_full. Qed.

Lemma normalized_event_position_Ok t s i r :
  normalized_event_position t s i = Ok r ↔ position_ok t s i ∧ r = event_position t s i.
Proof.
  unfold normalized_event_position, position_ok, event_position. cbn zeta. destruct r as [t' p'].
  rewrite comparable_div, comparable_mod.
  unfold try_from_len, try_from, checked_add.
  repeat (case_decide; cbn [ok_or mbind result_bind]); rewrite ?normalize_tree_position_Ok; naive_solver.
Qed.
End spec.

Section ingest_spec.
Context `{ContractCrate} `{TreeCrate}.

(** The source of a log whose metadata is present. *)
Definition log_source (log : Log) : IndexedLogSource :=
  mkLogSource (default 0 (log_block_number log)) None (default 0 (log_block_hash log))
    (default 0 (log_transaction_hash log)) (default 0 (log_log_index log)).
Definition has_metadata (log : Log) : Prop :=
  is_Some (log_block_number log) ∧ is_Some (log_block_hash log) ∧
  is_Some (log_transaction_hash log) ∧ is_Some (log_log_index log).

(** The rows of a batch event: the items that [g] keeps, each at its own
    consecutive global position. *)
Definition event_rows {A R} (t s : Z) (g : nat → A → option (Z → Z → R)) (l : list A) : list R :=
  mjoin (imap (λ i a, match g i a with
                      | Some mk => [mk (event_position t s i).1 (event_position t s i).2]
                      | None => []
                      end) l).
Definition event_ok {A R} (t s : Z) (g : nat → A → option (Z → Z → R)) (l : list A) : Prop :=
  t ≤ u32_max ∧ s ≤ u64_max ∧ ∀ i a, l !! i = Some a → g i a ≠ None → position_ok t s i.

Definition transact_row (ev : BatchEvent Z CommitmentCiphertext) (log : Log) (i : nat) (hash : Z) :=
  Some (λ t p, mkTransactCommitment t p hash (extras ev !! i) (log_source log)).
Definition shield_row (ev : BatchEvent CommitmentPreimage ShieldCiphertext) (log : Log) (i : nat)
    (preimage : CommitmentPreimage) :=
  (λ c t p, mkShieldCommitment t p preimage c (log_source log)) <$> (extras ev !! i).
Definition legacy_encrypted_row (ev : BatchEvent LegacyCommitmentCiphertext Z) (log : Log) (i : nat)
    (c : LegacyCommitmentCiphertext) :=
  (λ hash t p, mkLegacyEncrypted t p hash c (log_source log)) <$> (extras ev !! i).
Definition legacy_generated_row (ev : BatchEvent LegacyCommitmentPreimage (Z * Z)) (log : Log) (i : nat)
    (preimage : LegacyCommitmentPreimage) :=
  (λ r t p, mkLegacyGenerated t p preimage r (log_source log)) <$> (extras ev !! i).

(** The event of a log, decoded by its first topic. *)
Inductive Event :=
  | ETransact (ev : BatchEvent Z CommitmentCiphertext)
  | EShield (ev : BatchEvent CommitmentPreimage ShieldCiphertext)
  | ENullifiers (ev : NullifierEvent)
  | ENullified (ev : NullifierEvent)
  | EAction (txconfigs : list TXConfig)
  | EUnshield (u : Unshield)
  | ECommitmentBatch (ev : BatchEvent LegacyCommitmentCiphertext Z)
  | EGeneratedCommitmentBatch (ev : BatchEvent LegacyCommitmentPreimage (Z * Z)).

Definition decode_event (log : Log) (sig : EventSignature) : option Event :=
  match sig with
  | SigTransact => ETransact <$> decode_transact log
  | SigShield => EShield <$> decode_shield log
  | SigLegacyShield => EShield <$> decode_legacy_shield log
  | SigNullifiers => ENullifiers <$> decode_nullifiers log
  | SigNullified => ENullified <$> decode_nullified log
  | SigAction => EAction <$> decode_action log
  | SigUnshield => EUnshield <$> decode_unshield log
  | SigCommitmentBatch => ECommitmentBatch <$> decode_commitment_batch log
  | SigGeneratedCommitmentBatch => EGeneratedCommitmentBatch <$> decode_generated_commitment_batch log
  end.

(** What one event adds to a batch. *)
Definition event_batch (log : Log) (e : Event) : IndexedLogBatch :=
  mkBatch
    (match e with ETransact ev =>
       event_rows (treeNumber ev) (startPosition ev) (transact_row ev log) (items ev) | _ => [] end)
    (match e with EShield ev =>
       event_rows (treeNumber ev) (startPosition ev) (shield_row ev log) (items ev) | _ => [] end)
    (match e with ENullifiers ev | ENullified ev =>
       (λ n, mkNullifier (ne_treeNumber ev) n (log_source log)) <$> ne_nullifier ev | _ => [] end)
    (match e with ECommitmentBatch ev =>
       event_rows (treeNumber ev) (startPosition ev) (legacy_encrypted_row ev log) (items ev) | _ => [] end)
    (match e with EGeneratedCommitmentBatch ev =>
       event_rows (treeNumber ev) (startPosition ev) (legacy_generated_row ev log) (items ev) | _ => [] end)
    (match e with EAction txconfigs => [mkAction txconfigs (log_source log)] | _ => [] end)
    (match e with EUnshield u => [mkUnshield u (log_source log)] | _ => [] end)
    [] 0 0.

Definition event_fits (log : Log) (e : Event) : Prop :=
  match e with
  | ETransact ev => event_ok (treeNumber ev) (startPosition ev) (transact_row ev log) (items ev)
  | EShield ev => event_ok (treeNumber ev) (startPosition ev) (shield_row ev log) (items ev)
  | ENullifiers ev => ne_treeNumber ev ≤ u32_max
  | ECommitmentBatch ev => event_ok (treeNumber ev) (startPosition ev) (legacy_encrypted_row ev log) (items ev)
  | EGeneratedCommitmentBatch ev =>
      event_ok (treeNumber ev) (startPosition ev) (legacy_generated_row ev log) (items ev)
  | _ => True
  end.

Definition batch_app (a b : IndexedLogBatch) : IndexedLogBatch :=
  mkBatch (transact_commitments a ++ transact_commitments b) (shield_commitments a ++ shield_commitments b)
    (nullifiers a ++ nullifiers b) (legacy_encrypted_commitments a ++ legacy_encrypted_commitments b)
    (legacy_generated_commitments a ++ legacy_generated_commitments b) (actions a ++ actions b)
    (unshields a ++ unshields b) (public_transactions a ++ public_transactions b)
    (unshield_log_derivations a + unshield_log_derivations b)
    (unshield_log_divergences a + unshield_log_divergences b).

(** A log is ingested when its event decodes, its metadata is present and its
    integers fit; logs with another topic are ignored. *)
Definition log_batch (log : Log) : IndexedLogBatch :=
  match topic0 log ≫= decode_event log with
  | Some e => event_batch log e
  | None => batch_default
  end.
Definition log_ok (log : Log) : Prop :=
  ∀ sig, topic0 log = Some sig →
    ∃ e, decode_event log sig = Some e ∧ has_metadata log ∧ event_fits log e.
Definition logs_batch (logs : list Log) : IndexedLogBatch :=
  foldr (λ log b, batch_app (log_batch log) b) batch_default logs.

(** ** Ingestion implements the specification *)
Lemma source_from_log_Ok log s : source_from_log log = Ok s ↔ has_metadata log ∧ s = log_source log.
Proof.
  unfold source_from_log, has_metadata, log_source.
  destruct (log_block_number log), (log_block_hash log), (log_transaction_hash log), (log_log_index log);
    cbn; (split; [intros Hs; try discriminate Hs; injection Hs as <-; split_and!; eauto
                 |intros [(H1 & H2 & H3 & H4) Hs]; subst;
                  repeat match goal with H : is_Some _ |- _ => destruct H as [? H]; try discriminate H end; done]).
Qed.

Lemma uint_to_Ok max x y : uint_to max x = Ok y ↔ x ≤ max ∧ y = x.
Proof. unfold uint_to. case_decide; naive_solver. Qed.

Lemma event_row_Ok {R} t s i (g : option (Z → Z → R)) r :
  match g with
  | None => Ok None
  | Some mk => '(t, p) ← normalized_event_position t s i; Ok (Some (mk t p))
  end = Ok r ↔
  (g ≠ None → position_ok t s i) ∧
  r = (λ mk, mk (event_position t s i).1 (event_position t s i).2) <$> g.
Proof.
  destruct g as [mk|]; cbn [fmap option_fmap option_map]; [|naive_solver].
  rewrite bind_Ok. setoid_rewrite normalized_event_position_Ok. split.
  - intros ([t' p'] & [Hp Hr] & [= <-]). split; [done|]. by rewrite <- Hr.
  - intros [Hp ->]. exists (event_position t s i). split; [auto|]. by destruct (event_position t s i).
Qed.

Lemma enumerate_rows_Ok {A R} t s (g : nat → A → option (Z → Z → R)) l i rs :
  enumerate_rows (λ index a, match g index a with
    | None => Ok None
    | Some mk => '(t, p) ← normalized_event_position t s index; Ok (Some (mk t p))
    end) i l = Ok rs ↔
  (∀ k a, l !! k = Some a → g (i + k)%nat a ≠ None → position_ok t s (i + k)) ∧
  rs = mjoin (imap (λ k a, match g (i + k)%nat a with
         | Some mk => [mk (event_position t s (i + k)).1 (event_position t s (i + k)).2]
         | None => [] end) l).
Proof.
  revert i rs. induction l as [|a l IH]; intros i rs; cbn [enumerate_rows].
  { split; [intros [= <-]; split; [by intros|done]|by intros [_ ->]]. }
  rewrite bind_Ok. setoid_rewrite bind_Ok. setoid_rewrite event_row_Ok. setoid_rewrite IH.
  rewrite imap_cons, Nat.add_0_r.
  rewrite (imap_ext (_ ∘ S) (λ k a, match g (S i + k)%nat a with
         | Some mk => [mk (event_position t s (S i + k)).1 (event_position t s (S i + k)).2]
         | None => [] end)) by (intros; cbn; by rewrite Nat.add_succ_r).
  split.
  - intros (r & [Ha ->] & rs' & [Hl ->] & [= <-]). split; [|by destruct (g i a)].
    intros [|k] b Hb; [rewrite Nat.add_0_r; injection Hb as ->; done|].
    rewrite Nat.add_succ_r. by apply (Hl k).
  - intros [Hall ->]. eexists. split; [split; [|done]|].
    + rewrite <- (Nat.add_0_r i). by apply (Hall 0%nat).
    + eexists. split; [split; [|done]|by destruct (g i a)].
      intros k b Hb. pose proof (Hall (S k) b Hb) as HS. by rewrite Nat.add_succ_r in HS.
Qed.

(** The loop of an event with its guards, as the handlers run it. *)
Lemma event_rows_Ok {A R} t s (g : nat → A → option (Z → Z → R)) l rs :
  enumerate_rows (λ index a, match g index a with
    | None => Ok None
    | Some mk => '(t, p) ← normalized_event_position t s index; Ok (Some (mk t p))
    end) 0 l = Ok rs ∧ t ≤ u32_max ∧ s ≤ u64_max ↔ event_ok t s g l ∧ rs = event_rows t s g l.
Proof. rewrite enumerate_rows_Ok. unfold event_ok, event_rows. naive_solver. Qed.

Lemma enumerate_rows_ext {A R} (f g : nat → A → cresult (option R)) i l :
  (∀ k a, f k a = g k a) → enumerate_rows f i l = enumerate_rows g i l.
Proof. intros Hfg. revert i. induction l as [|a l IH]; intros i; cbn; [done|]. by rewrite Hfg, IH. Qed.

Lemma event_rows_get_Ok {A B R} t s (mk : A → B → Z → Z → R) (ex : list B) l rs :
  enumerate_rows (λ index a, match ex !! index with
    | None => Ok None
    | Some b => '(t, p) ← normalized_event_position t s index; Ok (Some (mk a b t p))
    end) 0 l = Ok rs ∧ t ≤ u32_max ∧ s ≤ u64_max ↔
  event_ok t s (λ i a, mk a <$> (ex !! i)) l ∧ rs = event_rows t s (λ i a, mk a <$> (ex !! i)) l.
Proof.
  rewrite <- event_rows_Ok. erewrite enumerate_rows_ext; [done|]. intros k a. cbn.
  by destruct (ex !! k).
Qed.

Ltac ingest_ok :=
  rewrite ?bind_Ok; repeat (setoid_rewrite source_from_log_Ok || setoid_rewrite uint_to_Ok ||
    setoid_rewrite ok_or_Ok || setoid_rewrite bind_Ok).

Ltac batch_eq := unfold batch_app, event_batch, push_nullifiers; cbn; by rewrite ?app_nil_r, ?Nat.add_0_r.

(** Both directions for a handler that runs one row loop; [lem] is the loop's
    lemma at the handler's row function. *)
Ltac ingest_event lem :=
  ingest_ok; cbn [event_fits]; split;
  [ let ev := fresh "ev" in let H := fresh "H" in
    intros [ev H];
    repeat match goal with
    | H : ∃ _, _ |- _ => destruct H as [? H]
    | H : _ ∧ _ |- _ => destruct H
    end; subst;
    match goal with
    | Hr : enumerate_rows _ _ _ = Ok ?rows, Hb : Ok _ = Ok _ |- _ =>
        injection Hb as Hb; subst;
        let Hrows := fresh in
        destruct (proj1 (lem ev rows)) as [? Hrows];
        [split; [exact Hr|split; assumption]|subst rows]
    end;
    exists ev; split_and!; [done..|batch_eq]
  | let ev := fresh "ev" in let Hd := fresh in let Hm := fresh in let Hok := fresh in let Hr := fresh in
    intros (ev & Hd & [Hm Hok] & ->);
    destruct (proj2 (lem ev _) (conj Hok eq_refl)) as (Hr & ? & ?);
    exists ev; split; [done|]; repeat (eexists; split; [first [done|exact Hr]|]); batch_eq ].

Lemma ingest_transact_Ok batch log batch' :
  ingest_transact batch log = Ok batch' ↔
  ∃ ev, decode_transact log = Some ev ∧ (has_metadata log ∧ event_fits log (ETransact ev)) ∧
    batch' = batch_app batch (event_batch log (ETransact ev)).
Proof.
  unfold ingest_transact.
  ingest_event (λ ev rows, event_rows_Ok (treeNumber ev) (startPosition ev) (transact_row ev log) (items ev) rows).
Qed.

Lemma ingest_shield_Ok decode batch log batch' :
  ingest_shield decode batch log = Ok batch' ↔
  ∃ ev, decode log = Some ev ∧ (has_metadata log ∧ event_fits log (EShield ev)) ∧
    batch' = batch_app batch (event_batch log (EShield ev)).
Proof.
  unfold ingest_shield, ingest_shield_commitments.
  ingest_event (λ ev rows, event_rows_get_Ok (treeNumber ev) (startPosition ev)
    (λ preimage c t p, mkShieldCommitment t p preimage c (log_source log)) (extras ev) (items ev) rows).
Qed.

Lemma ingest_commitment_batch_Ok batch log batch' :
  ingest_commitment_batch batch log = Ok batch' ↔
  ∃ ev, decode_commitment_batch log = Some ev ∧ (has_metadata log ∧ event_fits log (ECommitmentBatch ev)) ∧
    batch' = batch_app batch (event_batch log (ECommitmentBatch ev)).
Proof.
  unfold ingest_commitment_batch.
  ingest_event (λ ev rows, event_rows_get_Ok (treeNumber ev) (startPosition ev)
    (λ c hash t p, mkLegacyEncrypted t p hash c (log_source log)) (extras ev) (items ev) rows).
Qed.

Lemma ingest_generated_commitment_batch_Ok batch log batch' :
  ingest_generated_commitment_batch batch log = Ok batch' ↔
  ∃ ev, decode_generated_commitment_batch log = Some ev ∧
    (has_metadata log ∧ event_fits log (EGeneratedCommitmentBatch ev)) ∧
    batch' = batch_app batch (event_batch log (EGeneratedCommitmentBatch ev)).
Proof.
  unfold ingest_generated_commitment_batch.
  ingest_event (λ ev rows, event_rows_get_Ok (treeNumber ev) (startPosition ev)
    (λ preimage r t p, mkLegacyGenerated t p preimage r (log_source log)) (extras ev) (items ev) rows).
Qed.

Ltac ingest_flat :=
  ingest_ok; cbn [event_fits]; split;
  [ intros; repeat match goal with
    | H : ∃ _, _ |- _ => destruct H as [? H]
    | H : _ ∧ _ |- _ => destruct H
    end; subst;
    match goal with Hb : Ok _ = Ok _ |- _ => injection Hb as Hb; subst end;
    eexists; split_and!; [done..|batch_eq]
  | intros (? & ? & [? ?] & ->); repeat (eexists; split; [done|]); batch_eq ].

Lemma ingest_log_Ok batch log batch' :
  ingest_log batch log = Ok batch' ↔ log_ok log ∧ batch' = batch_app batch (log_batch log).
Proof.
  assert (∀ b, batch_app b batch_default = b) as Hnil.
  { intros []. unfold batch_app. cbn. by rewrite !app_nil_r, !Nat.add_0_r. }
  unfold ingest_log, log_ok, log_batch. destruct (topic0 log) as [sig|]; cbn [mbind option_bind].
  2:{ rewrite Hnil. naive_solver. }
  transitivity (∃ e, decode_event log sig = Some e ∧ (has_metadata log ∧ event_fits log e) ∧
    batch' = batch_app batch (event_batch log e)).
  2:{ split.
      - intros (e & He & Hm & ->). split; [intros ? [= <-]; eauto|by rewrite He].
      - intros [Hs ->]. destruct (Hs _ eq_refl) as (e & He & Hm). exists e. by rewrite He. }
  assert (∀ {A} (o : option A) (c : A → Event) (P : Event → Prop),
    (∃ e, c <$> o = Some e ∧ P e) ↔ ∃ ev, o = Some ev ∧ P (c ev)) as Hdec.
  { intros A o c P. destruct o; cbn; naive_solver. }
  destruct sig; cbn [decode_event]; rewrite Hdec.
  - apply ingest_transact_Ok.
  - apply ingest_shield_Ok.
  - apply ingest_shield_Ok.
  - unfold ingest_nullifiers. ingest_flat.
  - unfold ingest_nullified. ingest_flat.
  - unfold ingest_action. ingest_flat.
  - unfold ingest_unshield. ingest_flat.
  - apply ingest_commitment_batch_Ok.
  - apply ingest_generated_commitment_batch_Ok.
Qed.

Lemma batch_app_assoc a b c : batch_app (batch_app a b) c = batch_app a (batch_app b c).
Proof. unfold batch_app. cbn. by rewrite <- !app_assoc, <- !Nat.add_assoc. Qed.

Lemma ingest_logs_Ok logs batch batch' :
  try_fold ingest_log batch logs = Ok batch' ↔
  Forall log_ok logs ∧ batch' = batch_app batch (logs_batch logs).
Proof.
  revert batch. induction logs as [|log logs IH]; intros batch; cbn [try_fold].
  - assert (batch_app batch (logs_batch []) = batch) as ->.
    { destruct batch. unfold batch_app. cbn. by rewrite !app_nil_r, !Nat.add_0_r. }
    split; [intros [= <-]; auto|by intros [_ ->]].
  - rewrite bind_Ok. setoid_rewrite ingest_log_Ok. setoid_rewrite IH. rewrite Forall_cons.
    cbn [logs_batch foldr]. split.
    + intros (b & [Hl ->] & Hls & ->). by rewrite batch_app_assoc.
    + intros [[Hl Hls] ->]. eexists. split; [by split|]. by rewrite batch_app_assoc.
Qed.
End ingest_spec.

(** ** Properties *)

(** Tree positions: normalising never changes the global leaf position
    and always lands inside a tree; for a leaf of a [u32] tree the checked
    global position never overflows, and the global position determines tree
    and leaf. *)
Theorem tree_position_roundtrip `{TreeCrate} :
  (∀ t p t' p', normalize_tree_position t p = Ok (t', p') →
     comparable_global_tree_position t' p' = comparable_global_tree_position t p ∧
     0 ≤ p' < TREE_LEAF_COUNT ∧ t' ≤ u32_max) ∧
  (∀ t p, is_u32 t → 0 ≤ p < TREE_LEAF_COUNT →
     global_tree_position t p = Ok (comparable_global_tree_position t p) ∧
     normalized_global_position (comparable_global_tree_position t p) = Ok (t, p)).
Proof.
  pose proof leaf_count_pos as Hpos. pose proof tree_leaf_count_u64 as Hmax. split.
  - intros t p t' p' ([? ?] & -> & ->)%normalize_tree_position_Ok.
    unfold comparable_global_tree_position. pose proof (Z.div_mod p TREE_LEAF_COUNT).
    pose proof (Z.mod_pos_bound p TREE_LEAF_COUNT). split_and!; nia.
  - intros t p [Ht0 Ht] Hp. split.
    + unfold global_tree_position. change u32_max with (2 ^ 32 - 1) in *.
      rewrite (proj2 (checked_mul_Some _ _ _ (t * TREE_LEAF_COUNT))).
      * cbn [mbind option_bind]. by rewrite (proj2 (checked_add_Some _ _ _ (t * TREE_LEAF_COUNT + p)))
          by (split; [done|change u64_max with (2 ^ 64 - 1); nia]).
      * split; [done|]. change u64_max with (2 ^ 64 - 1). nia.
    + apply normalize_tree_position_Ok. rewrite comparable_mod.
      rewrite comparable_div, (Z.div_small p), Z.mod_small by lia. lia.
Qed.

(** C4. Ingestion: [ingest_chain_logs] accepts a list of logs exactly when
    every log with a known topic decodes, carries its metadata and has
    integers that fit; the batch then holds, family by family and in log
    order, one row per paired item of each event, at consecutive global leaf
    positions from the event's start. *)
Theorem ingest_chain_logs_spec `{ContractCrate} `{TreeCrate} logs batch :
  ingest_chain_logs logs = Ok batch ↔ Forall log_ok logs ∧ batch = logs_batch logs.
Proof.
  unfold ingest_chain_logs. rewrite ingest_logs_Ok.
  assert (∀ b, batch_app batch_default b = b) as Hnil by (by intros []). by rewrite Hnil.
Qed.

(** A small instance to evaluate the definitions: an event's bytes are its
    start position and its items, an unshield is its amount and fee. *)
Definition toy_batch {A B} (item : Z → A) (extra : Z → B) (log : Log) : option (BatchEvent A B) :=
  match Z_of_byte <$> log_data log with
  | start :: xs => Some (mkBatchEvent 0 start (item <$> xs) (extra <$> xs))
  | [] => None
  end.
Definition toy_contract : ContractCrate := {|
  CommitmentCiphertext := Z;
  CommitmentPreimage := Z * Z;
  ShieldCiphertext := Z;
  LegacyCommitmentCiphertext := Z;
  LegacyCommitmentPreimage := Z;
  Unshield := Z * Z;
  TokenData := unit;
  unshield_to := λ _, 11;
  unshield_token := λ _, tt;
  unshield_amount := fst;
  unshield_fee := snd;
  commitment_preimage_new := λ npk _ value, (npk, value);
  commitment_preimage_hash := λ p, 1000 * p.1 + p.2;
  commitment_preimage_abi_encode := λ p, be_bytes 32 p.1 ++ be_bytes 32 p.2;
  railgun_txid_parts := λ ns cs b, foldl Z.add b (ns ++ cs);
  decode_transact := toy_batch (λ x, x) (λ x, x);
  decode_shield := toy_batch (λ x, (x, x)) (λ x, x);
  decode_legacy_shield := toy_batch (λ x, (x, x)) (λ x, x);
  decode_nullifiers := λ log, Some (mkNullifierEvent 0 (Z_of_byte <$> log_data log));
  decode_nullified := λ log, Some (mkNullifierEvent 0 (Z_of_byte <$> log_data log));
  decode_action := λ _, Some [];
  decode_unshield := λ _, Some (1, 0);
  decode_commitment_batch := toy_batch (λ x, x) (λ x, x);
  decode_generated_commitment_batch := toy_batch (λ x, x) (λ x, (x, x));
|}.
