(* ===== verification/LogFilters.v ===== *)
(** * Log filters ([chain_logs.rs]: [chain_index_log_filters], [fetch_chain_index_logs])

    The contract changed its events twice: before [v2_start_block] it emits
    the legacy commitment batches, from then on [Transact] and a [Shield]
    whose layout changes after [legacy_shield_block]; from
    [action_start_block] on the indexer also reads [Action] and [Unshield].
    The filters of a block range are proved to select every event exactly
    once, and the fetched logs to be the chain's logs in order. *)

From stdpp Require Import sorting.
From S2P Require Import Prelude Wire Ipfs Artifacts MerkleCheckpointChunk ChainLogs.

Definition ACTION_EVENT_SIGNATURES : list EventSignature := [SigAction; SigUnshield].

(** [Filter::new().select(from..=to).address(contract).event_signature(sigs)] *)
Record Filter := mkFilter {
  filter_from : Z;
  filter_to : Z;
  filter_address : Z;
  filter_signatures : list EventSignature;
}.

Definition era_event_signatures_for_range (from_block to_block v2_start_block legacy_shield_block : Z)
    : option (list EventSignature) :=
  if decide (0 < v2_start_block ∧ to_block < v2_start_block)
  then Some [SigCommitmentBatch; SigGeneratedCommitmentBatch; SigNullifiers; SigNullified]
  else if decide (from_block < v2_start_block) then None
  else if decide (to_block ≤ legacy_shield_block)
  then Some [SigTransact; SigLegacyShield; SigNullifiers; SigNullified]
  else if decide (legacy_shield_block < from_block)
  then Some [SigTransact; SigShield; SigNullifiers; SigNullified]
  else None.

Definition combined_event_signatures_for_range (from_block to_block v2_start_block legacy_shield_block : Z)
    (action_start_block : option Z) : option (list EventSignature) :=
  event_signatures ← era_event_signatures_for_range from_block to_block v2_start_block legacy_shield_block;
  Some (match action_start_block with
        | Some start =>
            if decide (start ≤ from_block) then event_signatures ++ ACTION_EVENT_SIGNATURES
            else event_signatures
        | None => event_signatures
        end).

(** The filters of the ranges that straddle an era boundary. *)
Definition straddling_filters (contract from_block to_block v2_start_block legacy_shield_block : Z)
    (action_from : option Z) : list Filter :=
  let filter from to sigs := mkFilter from to contract sigs in
  (if decide (from_block ≤ v2_start_block) then
     let legacy_end := Z.min to_block v2_start_block in
     [filter from_block legacy_end [SigCommitmentBatch; SigGeneratedCommitmentBatch]]
   else []) ++
  (if decide (v2_start_block ≤ to_block) then
     let v2_start := Z.max from_block v2_start_block in
     [filter v2_start to_block [SigTransact]] ++
     (if decide (v2_start ≤ legacy_shield_block) then
        let legacy_shield_end := Z.min to_block legacy_shield_block in
        [filter v2_start legacy_shield_end [SigLegacyShield]]
      else []) ++
     (if decide (legacy_shield_block < to_block) then
        let modern_start := Z.max v2_start (saturating_add u64_max legacy_shield_block 1) in
        [filter modern_start to_block [SigShield]]
      else [])
   else []) ++
  [filter from_block to_block [SigNullifiers; SigNullified]] ++
  match action_from with
  | Some action_from => [filter action_from to_block ACTION_EVENT_SIGNATURES]
  | None => []
  end.

Definition chain_index_log_filters (contract from_block to_block v2_start_block legacy_shield_block : Z)
    (action_start_block : option Z) : list Filter :=
  if decide (to_block < from_block) then []
  else
    let action_from :=
      start ← action_start_block;
      if decide (start ≤ to_block) then Some (Z.max start from_block) else None in
    match combined_event_signatures_for_range from_block to_block v2_start_block legacy_shield_block
            action_start_block with
    | Some event_signatures =>
        mkFilter from_block to_block contract event_signatures ::
        match action_from with
        | Some action_from =>
            if decide (from_block < action_from)
            then [mkFilter action_from to_block contract ACTION_EVENT_SIGNATURES]
            else []
        | None => []
        end
    | None => straddling_filters contract from_block to_block v2_start_block legacy_shield_block action_from
    end.

(** [sort_logs]: by block number, then log index, stable. *)
Definition log_key (log : Log) : Z * Z := (default 0 (log_block_number log), default 0 (log_log_index log)).
Definition log_leb (a b : Log) : bool :=
  bool_decide ((log_key a).1 < (log_key b).1 ∨ (log_key a).1 = (log_key b).1 ∧ (log_key a).2 ≤ (log_key b).2).
Definition sort_logs : list Log → list Log := sort_by log_leb.

(** The provider answers one filter. *)
Definition fetch_chain_index_logs (get_logs : Filter → cresult (list Log))
    (contract from_block to_block v2_start_block legacy_shield_block : Z)
    (action_start_block : option Z) : cresult (list Log) :=
  logs ← try_fold (λ logs filter, answer ← get_logs filter; Ok (logs ++ answer)) []
    (chain_index_log_filters contract from_block to_block v2_start_block legacy_shield_block action_start_block);
  Ok (sort_logs logs).

(** ** Specification *)

(** The signatures that matter at a block, for the range [from..to]. The era of
    a block decides, but for the legacy batches of the first v2 block: they are
    requested only when the range has an era boundary, v2 after its first block
    or the change of the shield layout. *)
Definition wanted (from to v2 legacy_shield : Z) (action : option Z) (b : Z) (sig : EventSignature) : bool :=
  match sig with
  | SigCommitmentBatch | SigGeneratedCommitmentBatch =>
      bool_decide (b < v2 ∨ b = v2 ∧ (from < v2 ∨ from ≤ legacy_shield < to))
  | SigTransact => bool_decide (v2 ≤ b)
  | SigLegacyShield => bool_decide (v2 ≤ b ≤ legacy_shield)
  | SigShield => bool_decide (v2 ≤ b ∧ legacy_shield < b)
  | SigNullifiers | SigNullified => true
  | SigAction | SigUnshield =>
      match action with Some start => bool_decide (start ≤ b) | None => false end
  end.
(** A legacy batch in the first v2 block. *)
Definition legacy_at_boundary (v2 b : Z) (sig : EventSignature) : bool :=
  bool_decide (b = v2 ∧ (sig = SigCommitmentBatch ∨ sig = SigGeneratedCommitmentBatch)).
(** For every other event the range does not matter. *)
Lemma wanted_any_range v2 ls act b sig from to from' to' :
  legacy_at_boundary v2 b sig = false → wanted from to v2 ls act b sig = wanted from' to' v2 ls act b sig.
Proof.
  unfold legacy_at_boundary. rewrite bool_decide_eq_false. intros Hn. unfold wanted.
  destruct sig; try done; apply bool_decide_ext; naive_solver.
Qed.

Definition selects (b : Z) (sig : EventSignature) (f : Filter) : bool :=
  bool_decide (filter_from f ≤ b ≤ filter_to f ∧ sig ∈ filter_signatures f).
Definition selections (b : Z) (sig : EventSignature) (fs : list Filter) : nat :=
  length (filter (λ f, selects b sig f = true) fs).

Lemma selections_cons b sig f fs :
  selections b sig (f :: fs) = ((if selects b sig f then 1 else 0) + selections b sig fs)%nat.
Proof. unfold selections. rewrite filter_cons. destruct (selects b sig f); by case_decide. Qed.

Lemma selections_app b sig fs1 fs2 :
  selections b sig (fs1 ++ fs2) = (selections b sig fs1 + selections b sig fs2)%nat.
Proof. unfold selections. by rewrite filter_app, length_app. Qed.

Lemma selections_if b sig P `{Decision P} fs :
  selections b sig (if decide P then fs else []) = if decide P then selections b sig fs else 0%nat.
Proof. by case_decide. Qed.

(** A filter with literal signatures selects by its block bounds. *)
Lemma selects_iff b sig from to c sigs :
  selects b sig (mkFilter from to c sigs) = bool_decide (from ≤ b ≤ to) && bool_decide (sig ∈ sigs).
Proof. unfold selects. cbn. by rewrite bool_decide_and. Qed.

Lemma selections_nil b sig : selections b sig [] = 0%nat.
Proof. done. Qed.

Lemma selections_split b sig f fs :
  selections b sig (f :: fs) = (selections b sig [f] + selections b sig fs)%nat.
Proof. apply (selections_app b sig [f]). Qed.

Definition b2n (b : bool) : nat := if b then 1 else 0.
#[global] Arguments selections : simpl never.
#[global] Arguments selects : simpl never.

Ltac eval_mem :=
  repeat match goal with
  | |- context [bool_decide (?s ∈ ?l)] =>
      let v := eval vm_compute in (bool_decide (s ∈ l)) in change (bool_decide (s ∈ l)) with v
  end; rewrite ?andb_false_r, ?andb_true_r.
Ltac solve_selections :=
  repeat (rewrite selections_app || rewrite selections_if || rewrite selections_cons ||
    rewrite selections_nil || rewrite selects_iff); eval_mem; cbn;
  repeat case_bool_decide; repeat case_decide; try lia.

(** Each of the two shapes selects an event of the range once or never. *)
Lemma straddling_selections c from to v2 ls action_from b sig :
  from ≤ b ≤ to → ls ≤ u64_max → to ≤ u64_max →
  (∀ a, action_from = Some a → from ≤ a) →
  selections b sig (straddling_filters c from to v2 ls action_from) =
  match sig with
  | SigCommitmentBatch | SigGeneratedCommitmentBatch => b2n (bool_decide (b ≤ v2))
  | SigAction | SigUnshield =>
      match action_from with Some a => b2n (bool_decide (a ≤ b)) | None => 0%nat end
  | _ => b2n (wanted from to v2 ls None b sig)
  end.
Proof.
  intros Hb Hls Hto Ha. unfold straddling_filters, wanted, b2n, saturating_add.
  destruct action_from as [a|]; [specialize (Ha _ eq_refl)|clear Ha]; destruct sig; solve_selections.
Qed.

Lemma combined_selections c from to v2 ls act b sig sigs :
  from ≤ b ≤ to →
  combined_event_signatures_for_range from to v2 ls act = Some sigs →
  selections b sig [mkFilter from to c sigs] =
  match sig with
  | SigCommitmentBatch | SigGeneratedCommitmentBatch => b2n (bool_decide (b < v2))
  | SigAction | SigUnshield =>
      match act with Some a => b2n (bool_decide (a ≤ from)) | None => 0%nat end
  | _ => b2n (wanted from to v2 ls None b sig)
  end.
Proof.
  intros Hb. unfold combined_event_signatures_for_range, era_event_signatures_for_range.
  repeat (case_decide; cbn [mbind option_bind]); try discriminate; destruct act as [a|]; try case_decide; intros [= <-];
    rewrite selections_cons, selections_nil, selects_iff, bool_decide_true by done; cbn [andb];
    destruct sig; eval_mem; cbn; repeat case_bool_decide; try reflexivity; exfalso; lia.
Qed.

(** The extra filter of a combined range that starts before activation. *)
Lemma extra_selections c from to act b sig :
  from ≤ b ≤ to →
  selections b sig (match start ← act; if decide (start ≤ to) then Some (Z.max start from) else None with
    | Some action_from =>
        if decide (from < action_from) then [mkFilter action_from to c ACTION_EVENT_SIGNATURES] else []
    | None => []
    end) =
  match sig, act with
  | (SigAction | SigUnshield), Some a => b2n (bool_decide (from < a ≤ b))
  | _, _ => 0%nat
  end.
Proof.
  intros Hb. destruct act as [a|]; cbn [mbind option_bind]; [|by destruct sig].
  unfold b2n. case_decide; destruct sig; solve_selections.
Qed.

(** The straddling filters are used exactly when the range has a boundary. *)
Lemma combined_None c from to v2 ls act :
  from ≤ v2 ≤ to → combined_event_signatures_for_range from to v2 ls act = c →
  (from < v2 ∨ from ≤ ls < to ↔ c = None).
Proof.
  intros Hv <-. unfold combined_event_signatures_for_range, era_event_signatures_for_range.
  repeat case_decide; cbn [mbind option_bind]; split; try done; try lia; intros _; lia.
Qed.

Lemma filters_selections c from to v2 ls act b sig :
  ls ≤ u64_max → to ≤ u64_max → from ≤ b ≤ to →
  selections b sig (chain_index_log_filters c from to v2 ls act) = b2n (wanted from to v2 ls act b sig).
Proof.
  intros Hls Hto Hb. unfold chain_index_log_filters. rewrite decide_False by lia.
  destruct (combined_event_signatures_for_range _ _ _ _ _) as [sigs|] eqn:Hc.
  - rewrite selections_split, (combined_selections c from to v2 ls act b sig sigs Hb Hc), extra_selections by done.
    assert (b = v2 → ¬ (from < v2 ∨ from ≤ ls < to)) as Hn by (intros -> Hx%(combined_None _ _ _ _ _ _ Hb Hc); done).
    unfold wanted, b2n. destruct sig; destruct act; repeat case_bool_decide; try done; lia.
  - assert (b = v2 → from < v2 ∨ from ≤ ls < to) as Hn by (intros ->; by apply (combined_None _ _ _ _ _ _ Hb Hc)).
    rewrite straddling_selections; [|lia..|].
    + unfold wanted, b2n.
      destruct sig; destruct act; cbn [mbind option_bind]; try case_decide; repeat case_bool_decide; try done; lia.
    + intros a Ha. destruct act; cbn in Ha; [|done]. case_decide; simplify_eq. lia.
Qed.

(** ** The fetched logs *)
Definition log_matches (f : Filter) (log : Log) : bool :=
  match log_block_number log, topic0 log with
  | Some b, Some sig => bool_decide (log_address log = filter_address f) && selects b sig f
  | _, _ => false
  end.

(** A log of the contract that the range should return. *)
Definition log_wanted (contract from to v2 ls : Z) (act : option Z) (log : Log) : bool :=
  match log_block_number log, topic0 log with
  | Some b, Some sig =>
      bool_decide (log_address log = contract ∧ from ≤ b ≤ to) && wanted from to v2 ls act b sig
  | _, _ => false
  end.
Definition log_at_boundary (v2 : Z) (log : Log) : bool :=
  match log_block_number log, topic0 log with
  | Some b, Some sig => legacy_at_boundary v2 b sig
  | _, _ => false
  end.

Lemma log_wanted_any_range contract v2 ls act log from to from' to' :
  log_at_boundary v2 log = false →
  (∀ b, log_block_number log = Some b → (from ≤ b ≤ to ↔ from' ≤ b ≤ to')) →
  log_wanted contract from to v2 ls act log = log_wanted contract from' to' v2 ls act log.
Proof.
  unfold log_at_boundary, log_wanted. destruct (log_block_number log) as [b|], (topic0 log) as [sig|]; try done.
  intros Hn Hb. rewrite (wanted_any_range v2 ls act b sig from to from' to' Hn). f_equal. apply bool_decide_ext.
  specialize (Hb b eq_refl). tauto.
Qed.

(** Chain order: strictly by block number, then log index. *)
Definition log_lt (a b : Log) : Prop :=
  (log_key a).1 < (log_key b).1 ∨ (log_key a).1 = (log_key b).1 ∧ (log_key a).2 < (log_key b).2.

Lemma filters_within c from to v2 ls act :
  Forall (λ f, from ≤ filter_from f ∧ filter_to f ≤ to ∧ filter_address f = c)
    (chain_index_log_filters c from to v2 ls act).
Proof.
  unfold chain_index_log_filters, straddling_filters. case_decide; [constructor|].
  destruct (combined_event_signatures_for_range _ _ _ _ _), act as [a|]; cbn [mbind option_bind];
    repeat (case_decide; cbn [app]); repeat constructor; cbn; lia.
Qed.

Lemma fetch_concat (get_logs : Filter → cresult (list Log)) (answer : Filter → list Log) fs logs :
  (∀ f, get_logs f = Ok (answer f)) →
  try_fold (λ logs filter, a ← get_logs filter; Ok (logs ++ a) : cresult (list Log)) logs fs =
  Ok (logs ++ mjoin (answer <$> fs)).
Proof.
  intros Hget. revert logs. induction fs as [|f fs IH]; intros logs; cbn; [by rewrite app_nil_r|].
  rewrite Hget. cbn. by rewrite IH, <- app_assoc.
Qed.

(** Concatenating selections repeats each element once per selector. *)
Lemma mjoin_filter_cons {A B} (P : B → A → bool) x l fs :
  mjoin ((λ f, filter (λ y, P f y = true) (x :: l)) <$> fs) ≡ₚ
  replicate (length (filter (λ f, P f x = true) fs)) x ++ mjoin ((λ f, filter (λ y, P f y = true) l) <$> fs).
Proof.
  induction fs as [|f fs IH]; [done|]. cbn [fmap list_fmap mjoin list_join].
  rewrite (filter_cons _ f fs), (filter_cons _ x l), IH. case_decide; cbn; [|by rewrite Permutation_app_swap_app].
  constructor. by rewrite Permutation_app_swap_app.
Qed.

Lemma mjoin_filter_once {A B} (P : B → A → bool) (Q : A → bool) l fs :
  Forall (λ x, length (filter (λ f, P f x = true) fs) = if Q x then 1%nat else 0%nat) l →
  mjoin ((λ f, filter (λ y, P f y = true) l) <$> fs) ≡ₚ filter (λ y, Q y = true) l.
Proof.
  induction 1 as [|x l Hx Hl IH].
  - induction fs; [done|]. by cbn.
  - rewrite mjoin_filter_cons, Hx, IH, filter_cons. by destruct (Q x); case_decide.
Qed.

Lemma filter_bool_ext {A} (P Q : A → bool) l :
  Forall (λ x, P x = Q x) l → filter (λ x, P x = true) l = filter (λ x, Q x = true) l.
Proof. induction 1 as [|x l Hx _ IH]; [done|]. rewrite !filter_cons, IH, Hx. done. Qed.

Lemma filter_all_false {A} (l : list A) : filter (λ _, false = true) l = [].
Proof. by induction l. Qed.

Lemma log_selectors c from to v2 ls act log :
  ls ≤ u64_max → to ≤ u64_max →
  length (filter (λ f, log_matches f log = true) (chain_index_log_filters c from to v2 ls act)) =
  if log_wanted c from to v2 ls act log then 1%nat else 0%nat.
Proof.
  intros Hls Hto. unfold log_matches, log_wanted.
  pose proof (filters_within c from to v2 ls act) as Hw.
  destruct (log_block_number log) as [b|], (topic0 log) as [sig|]; try by rewrite filter_all_false.
  destruct (decide (log_address log = c ∧ from ≤ b ≤ to)) as [[Ha Hb]|Hn].
  - rewrite bool_decide_true by done. cbn [andb].
    rewrite (filter_bool_ext _ (selects b sig)).
    + fold (selections b sig (chain_index_log_filters c from to v2 ls act)).
      by rewrite filters_selections.
    + eapply Forall_impl; [exact Hw|]. cbn. intros f (_ & _ & ->). by rewrite bool_decide_true.
  - rewrite bool_decide_false by done. cbn [andb].
    rewrite (filter_bool_ext _ (λ _, false)); [by rewrite filter_all_false|].
    eapply Forall_impl; [exact Hw|]. cbn. intros f (? & ? & Hf). rewrite Hf. unfold selects.
    rewrite <- bool_decide_and. apply bool_decide_eq_false. lia.
Qed.

(** Sorting by [log_leb] restores the order of a chain. *)
Lemma log_leb_total a b : log_leb a b = false → log_leb b a = true.
Proof. unfold log_leb. rewrite bool_decide_eq_false, bool_decide_eq_true. lia. Qed.
Lemma log_leb_trans a b c : log_leb a b = true → log_leb b c = true → log_leb a c = true.
Proof. unfold log_leb. rewrite !bool_decide_eq_true. lia. Qed.

Lemma StronglySorted_filter_bool {A} (R : relation A) (P : A → bool) l :
  StronglySorted R l → StronglySorted R (filter (λ x, P x = true) l).
Proof.
  induction 1 as [|x l Hl IH Hx]; [constructor|]. rewrite filter_cons. case_decide; [|done].
  constructor; [done|]. apply Forall_forall. intros y [_ Hy]%list_elem_of_filter. by eapply Forall_forall in Hx.
Qed.

Lemma chain_key_unique chain x y :
  StronglySorted log_lt chain → x ∈ chain → y ∈ chain → log_key x = log_key y → x = y.
Proof.
  induction 1 as [|z l Hl IH Hz]; [by intros ?%not_elem_of_nil|].
  rewrite !elem_of_cons, Forall_forall in *. unfold log_lt in Hz.
  intros [->|Hx] [->|Hy] Hk; auto; [specialize (Hz _ Hy)|specialize (Hz _ Hx)]; rewrite Hk in Hz; lia.
Qed.

Lemma sort_logs_chain chain l (P : Log → bool) :
  StronglySorted log_lt chain → l ≡ₚ filter (λ x, P x = true) chain →
  sort_logs l = filter (λ x, P x = true) chain.
Proof.
  intros Hc Hl. eapply (StronglySorted_unique_strong (λ a b, log_leb a b = true)).
  - intros x y Hx Hy. unfold sort_logs in Hx. rewrite sort_by_perm, Hl in Hx.
    apply list_elem_of_filter in Hx as [_ Hx], Hy as [_ Hy].
    unfold log_leb. rewrite !bool_decide_eq_true. intros ? ?.
    apply (chain_key_unique chain); [done..|]. destruct (log_key x), (log_key y); cbn in *. f_equal; lia.
  - apply sort_by_sorted; [apply log_leb_total|apply log_leb_trans].
  - apply StronglySorted_filter_bool. eapply StronglySorted_impl; [|exact Hc].
    intros a b Hab. unfold log_leb. rewrite bool_decide_eq_true. unfold log_lt in Hab. lia.
  - unfold sort_logs. by rewrite sort_by_perm.
Qed.

(** ** Properties *)

(** The filters of a block range select every event the indexer needs
    exactly once and nothing else: a legacy commitment batch before v2, a
    transact or the right shield layout after it, nullifiers always, actions
    and unshields from activation; a legacy batch in the first v2 block when
    the range has an era boundary. *)
Theorem filters_select_exactly_once contract from to v2 ls act b sig :
  ls ≤ u64_max → to ≤ u64_max → from ≤ b ≤ to →
  selections b sig (chain_index_log_filters contract from to v2 ls act) = if wanted from to v2 ls act b sig then 1%nat else 0%nat.
Proof. apply filters_selections. Qed.

Lemma fetch_returns_wanted get_logs chain contract from to v2 ls act :
  ls ≤ u64_max → to ≤ u64_max →
  (∀ f, get_logs f = Ok (filter (λ log, log_matches f log = true) chain)) →
  StronglySorted log_lt chain →
  fetch_chain_index_logs get_logs contract from to v2 ls act =
  Ok (filter (λ log, log_wanted contract from to v2 ls act log = true) chain).
Proof.
  intros Hls Hto Hget Hc. unfold fetch_chain_index_logs.
  rewrite (fetch_concat _ _ _ _ Hget). cbn. f_equal. apply sort_logs_chain; [done|].
  apply mjoin_filter_once, Forall_true. intros log. by apply log_selectors.
Qed.

(** C3. [fetch_chain_index_logs] returns the chain: with a provider that
    answers a filter with the matching logs of a chain, the fetched logs are
    exactly the wanted logs of the contract in the range, in chain order and
    without duplicates. Wanted is decided by the era of the log's block, with
    one exception the statement keeps: a legacy commitment batch in the first v2
    block is fetched when the range starts before that block or has the change
    of the shield layout in it, and not otherwise. *)
Theorem fetch_chain_index_logs_complete get_logs chain contract from to v2 ls act :
  ls ≤ u64_max → to ≤ u64_max →
  (∀ f, get_logs f = Ok (filter (λ log, log_matches f log = true) chain)) →
  StronglySorted log_lt chain →
  fetch_chain_index_logs get_logs contract from to v2 ls act =
  Ok (filter (λ log, log_wanted contract from to v2 ls act log = true) chain).
Proof. apply fetch_returns_wanted. Qed.

(** A range of three blocks across both era boundaries. *)
Definition sample_log (b i : Z) (sig : EventSignature) : Log :=
  mkLog 7 (Some sig) [] (Some b) (Some 1) (Some 2) (Some i).
Definition sample_chain : list Log :=
  [sample_log 9 0 SigCommitmentBatch; sample_log 10 0 SigGeneratedCommitmentBatch; sample_log 10 1 SigTransact; sample_log 10 2 SigNullified;
   sample_log 11 0 SigShield; sample_log 12 4 SigAction; sample_log 13 0 SigShield].

Lemma filters_select_exactly_once_witness :
  selections 11 SigShield (chain_index_log_filters 7 9 12 10 10 (Some 12)) = 1%nat ∧
  selections 11 SigLegacyShield (chain_index_log_filters 7 9 12 10 10 (Some 12)) = 0%nat.
Proof.
  split.
  - apply (filters_select_exactly_once 7 9 12 10 10 (Some 12) 11 SigShield);
      [by vm_compute|by vm_compute|lia].
  - apply (filters_select_exactly_once 7 9 12 10 10 (Some 12) 11 SigLegacyShield);
      [by vm_compute|by vm_compute|lia].
Defined.

Lemma fetch_chain_index_logs_complete_witness :
  fetch_chain_index_logs (λ f, Ok (filter (λ log, log_matches f log = true) sample_chain)) 7 9 12 10 10 (Some 12) =
  Ok (take 6 sample_chain).
Proof.
  rewrite (fetch_chain_index_logs_complete (λ f, Ok (filter (λ log, log_matches f log = true) sample_chain))
    sample_chain 7 9 12 10 10 (Some 12)).
  - reflexivity.
  - by vm_compute.
  - by vm_compute.
  - done.
  - repeat match goal with
    | |- StronglySorted _ _ => constructor
    | |- Forall _ _ => constructor
    | |- log_lt _ _ => vm_compute; auto
    end.
Defined.

(** The exception: a legacy batch in the first v2 block, fetched by a range that
    starts one block earlier and lost to a range that starts there. *)
Definition boundary_chain : list Log := [sample_log 10 0 SigCommitmentBatch; sample_log 10 1 SigTransact].
Example legacy_batch_depends_on_range :
  let fetch from := fetch_chain_index_logs (λ f, Ok (filter (λ log, log_matches f log = true) boundary_chain)) 7 from 12 10 100 None in
  fetch 9 = Ok boundary_chain ∧ fetch 10 = Ok [sample_log 10 1 SigTransact].
Proof. split; vm_compute; reflexivity. Qed.
