(* ===== verification/ActionFrames.v ===== *)
(** * Transactions from [Action] logs ([chain_logs.rs])

    From the activation block on, the Railgun transactions of an outer
    transaction are rebuilt from its logs alone. Every Railgun call emits
    [Nullified..., Action, (Unshield | nested call)*, Transact?];
    [decoded_transactions_from_action_logs] is a stack machine over the logs
    in log-index order. Its specification is the grammar of call forests:
    the machine accepts a log sequence exactly when it is the emission of a
    well-formed forest, and returns that forest's calls in completion order. *)

From S2P Require Import Prelude Wire Ipfs Artifacts MerkleCheckpointChunk ChainLogs.

Definition u256_max : Z := 2 ^ 256 - 1.
Definition u120_max : Z := 2 ^ 120 - 1.

Inductive RailgunCallKind := KTransact | KRelay | KExecute | KLegacyRelay | KLegacyTransact | KActionLogs.
#[export] Instance RailgunCallKind_eq_dec : EqDecision RailgunCallKind.
Proof. solve_decision. Defined.

Record DecodedRailgunTransaction := mkDecoded {
  dr_call_kind : RailgunCallKind;
  dr_nullifiers : list Z;
  dr_commitments : list Z;
  dr_bound_params_hash : Z;
  dr_has_unshield : bool;
  dr_unshield_preimage : option bytes;
  dr_utxo_tree_in : Z;
  dr_railgun_txid : Z;
}.

(** [slice::get(a..b)] *)
Definition get_range {A} (l : list A) (a b : nat) : option (list A) :=
  if decide (a ≤ b ≤ length l)%nat then Some (take (b - a) (drop a l)) else None.

Section action_frames.
Context `{ContractCrate}.

Inductive ActionLogEvent :=
  | ANullified (tree_number : Z) (nullifiers : list Z)
  | AAction (configs : list TXConfig)
  | AUnshield (unshield : Unshield)
  | ATransact (hashes : list Z).

Record ActionFrame := mkFrame {
  fr_log_index : Z;
  fr_record_base : nat;
  fr_configs : list TXConfig;
  fr_nullified : list (Z * list Z);
  fr_unshields : list Unshield;
  fr_expects_transact : bool;
}.

Definition declared_unshields (configs : list TXConfig) : nat :=
  length (filter (λ c, hasUnshield c = true) configs).

Definition pending_unshields (frame : ActionFrame) : nat :=
  declared_unshields (fr_configs frame) - length (fr_unshields frame).

Definition unshield_commitment_from_event (unshield : Unshield) : cresult (Z * CommitmentPreimage) :=
  value ← ok_or (v ← checked_add u256_max (unshield_amount unshield) (unshield_fee unshield);
                 try_from u120_max v) (IntegerOverflow "unshield_value");
  let preimage := commitment_preimage_new (unshield_to unshield) (unshield_token unshield) value in
  Ok (commitment_preimage_hash preimage, preimage).

Definition railgun_txid_from_parts (nullifiers commitments : list Z) (bound_params_hash : Z) : Z :=
  railgun_txid_parts nullifiers commitments bound_params_hash.

(** The two fields of the summary that the walk uses, for its errors. *)
Context (transaction_hash block_number : Z).

Definition indexed_transactions : Type := list (nat * DecodedRailgunTransaction).
Definition ActionCallTransactions : Type := option Z * indexed_transactions.

(** The loop of [transactions_from_action_frame]: [config_index], [offset] and
    the iterator over the unshields are its state. *)
Fixpoint frame_transactions (frame : ActionFrame) (hashes : list Z) (log_index : Z)
    (config_index offset : nat) (unshields : list Unshield)
    (rows : list (TXConfig * (Z * list Z))) : cresult (nat * indexed_transactions) :=
  match rows with
  | [] => Ok (offset, [])
  | (config, (tree_number, nullifiers)) :: rows =>
      end_ ← ok_or (count ← try_from usize_max (commitmentsCount config);
                    checked_add usize_max (Z.of_nat offset) count)
        (IntegerOverflow "action_commitment_offset");
      let end_ := Z.to_nat end_ in
      commitments ← ok_or (get_range hashes offset end_)
        (ActionCommitmentCountMismatch transaction_hash block_number log_index);
      '(commitments, unshield_preimage, unshields) ←
        (if hasUnshield config then
           match unshields with
           | unshield :: unshields =>
               '(commitment, preimage) ← unshield_commitment_from_event unshield;
               Ok (commitments ++ [commitment], Some (commitment_preimage_abi_encode preimage), unshields)
           | [] => Err (MissingActionUnshield transaction_hash block_number (fr_log_index frame))
           end
         else Ok (commitments, None, unshields));
      let railgun_txid := railgun_txid_from_parts nullifiers commitments (boundParamsHash config) in
      '(offset, transactions) ←
        frame_transactions frame hashes log_index (S config_index) end_ unshields rows;
      Ok (offset,
          (fr_record_base frame + config_index,
           mkDecoded KActionLogs nullifiers commitments (boundParamsHash config) (hasUnshield config)
             unshield_preimage tree_number railgun_txid)%nat :: transactions)
  end.

Definition transactions_from_action_frame (frame : ActionFrame) (hashes : list Z) (log_index : Z)
    : cresult indexed_transactions :=
  if decide (0 < pending_unshields frame)%nat
  then Err (MissingActionUnshield transaction_hash block_number (fr_log_index frame))
  else
    '(offset, transactions) ← frame_transactions frame hashes log_index 0 0 (fr_unshields frame)
      (zip (fr_configs frame) (fr_nullified frame));
    if decide (offset ≠ length hashes)
    then Err (ActionCommitmentCountMismatch transaction_hash block_number log_index)
    else Ok transactions.

(** ** The walk *)
Record Walk := mkWalk {
  w_pending_nullified : list (Z * Z * list Z);
  (** the stack of open calls, innermost first *)
  w_frames : list ActionFrame;
  w_next_record_index : nat;
  w_decoded : list ActionCallTransactions;
}.

Definition counts_match (pending : list (Z * Z * list Z)) (configs : list TXConfig) : bool :=
  bool_decide (length pending = length configs) &&
  forallb (λ pc, match try_from usize_max (nullifiersCount pc.2) with
                 | Some count => bool_decide (count = Z.of_nat (length pc.1.2))
                 | None => false
                 end) (zip pending configs).

Definition on_action (w : Walk) (log_index : Z) (configs : list TXConfig) : cresult Walk :=
  if negb (counts_match (w_pending_nullified w) configs)
  then Err (ActionNullifierCountMismatch transaction_hash block_number log_index)
  else if decide (configs = []) then Ok w
  else
    Ok (mkWalk []
      (mkFrame log_index (w_next_record_index w) configs
         ((λ p, (p.1.2, p.2)) <$> w_pending_nullified w) []
         (existsb (λ c, bool_decide (0 < commitmentsCount c)) configs) :: w_frames w)
      (w_next_record_index w + length configs) (w_decoded w)).

Definition on_unshield (w : Walk) (log_index : Z) (unshield : Unshield) : cresult Walk :=
  match w_frames w with
  | frame :: frames =>
      if decide (0 < pending_unshields frame)%nat then
        Ok (mkWalk (w_pending_nullified w)
          (mkFrame (fr_log_index frame) (fr_record_base frame) (fr_configs frame) (fr_nullified frame)
             (fr_unshields frame ++ [unshield]) (fr_expects_transact frame) :: frames)
          (w_next_record_index w) (w_decoded w))
      else Err (UnmatchedActionLog transaction_hash block_number log_index)
  | [] => Err (UnmatchedActionLog transaction_hash block_number log_index)
  end.

Definition on_transact (w : Walk) (log_index : Z) (hashes : list Z) : cresult Walk :=
  match w_frames w with
  | frame :: frames =>
      if fr_expects_transact frame then
        transactions ← transactions_from_action_frame frame hashes log_index;
        Ok (mkWalk (w_pending_nullified w) frames (w_next_record_index w)
              (w_decoded w ++ [(Some log_index, transactions)]))
      else Err (UnmatchedActionLog transaction_hash block_number log_index)
  | [] => Err (UnmatchedActionLog transaction_hash block_number log_index)
  end.

(** The check at the end of the loop body. *)
Definition close_frame (w : Walk) : cresult Walk :=
  match w_frames w with
  | frame :: frames =>
      if negb (fr_expects_transact frame) && bool_decide (pending_unshields frame = 0%nat) then
        transactions ← transactions_from_action_frame frame [] (fr_log_index frame);
        Ok (mkWalk (w_pending_nullified w) frames (w_next_record_index w)
              (w_decoded w ++ [(None, transactions)]))
      else Ok w
  | [] => Ok w
  end.

Definition action_step (w : Walk) (log : Z * ActionLogEvent) : cresult Walk :=
  let '(log_index, event) := log in
  w ← match event with
      | ANullified tree_number nullifiers =>
          Ok (mkWalk (w_pending_nullified w ++ [(log_index, tree_number, nullifiers)]) (w_frames w)
                (w_next_record_index w) (w_decoded w))
      | AAction configs => on_action w log_index configs
      | AUnshield unshield => on_unshield w log_index unshield
      | ATransact hashes => on_transact w log_index hashes
      end;
  close_frame w.

Definition walk_start : Walk := mkWalk [] [] 0 [].

Definition walk_finish (w : Walk) : cresult (list ActionCallTransactions) :=
  match w_pending_nullified w, w_frames w with
  | (log_index, _, _) :: _, _ => Err (ActionNullifierCountMismatch transaction_hash block_number log_index)
  | [], frame :: _ =>
      Err (if decide (0 < pending_unshields frame)%nat
           then MissingActionUnshield transaction_hash block_number (fr_log_index frame)
           else ActionCommitmentCountMismatch transaction_hash block_number (fr_log_index frame))
  | [], [] => Ok (w_decoded w)
  end.

(** [events] are the entries of the [BTreeMap], in key order. *)
Definition decoded_transactions_from_action_logs (events : list (Z * ActionLogEvent))
    : cresult (list ActionCallTransactions) :=
  w ← try_fold action_step walk_start events;
  walk_finish w.
End action_frames.
#[global] Arguments declared_unshields : simpl never.
