(* ===== verification/ActionGrammar.v ===== *)
(** * The grammar of Railgun calls

    The call forests whose logs the walk of [ActionFrames] reads: the
    specification of [decoded_transactions_from_action_logs], the proof that
    the walk implements it, and its consequences. *)

From S2P Require Import Prelude Wire Ipfs Artifacts MerkleCheckpointChunk ChainLogs ActionFrames.

Section grammar.
Context `{ContractCrate}.

(** What an outer transaction does: a shield ([Action] without
    configurations), an unshield of the enclosing call, or a Railgun call. *)
Inductive Item :=
  | IShield (log_index : Z)
  | IUnshield (log_index : Z) (unshield : Unshield)
  | ICall (nullified : list (Z * Z * list Z)) (log_index : Z) (configs : list TXConfig)
      (body : list Item) (transact : option (Z * list Z)).

Definition Item_ind' (P : Item → Prop)
    (HS : ∀ k, P (IShield k)) (HU : ∀ k u, P (IUnshield k u))
    (HC : ∀ ns k cs body tr, Forall P body → P (ICall ns k cs body tr)) : ∀ i, P i :=
  fix go i :=
    match i with
    | IShield k => HS k
    | IUnshield k u => HU k u
    | ICall ns k cs body tr =>
        HC ns k cs body tr
          ((fix all l : Forall P l :=
              match l with
              | [] => List.Forall_nil P
              | i :: l => @List.Forall_cons _ P i l (go i) (all l)
              end) body)
    end.

(** ** Emission *)
Definition nullified_log (n : Z * Z * list Z) : Z * ActionLogEvent := (n.1.1, ANullified n.1.2 n.2).

Fixpoint emit (i : Item) : list (Z * ActionLogEvent) :=
  match i with
  | IShield k => [(k, AAction [])]
  | IUnshield k u => [(k, AUnshield u)]
  | ICall ns k cs body tr =>
      map nullified_log ns ++ [(k, AAction cs)] ++ concat (map emit body) ++
      match tr with Some (j, hashes) => [(j, ATransact hashes)] | None => [] end
  end.
Definition emit_all (l : list Item) : list (Z * ActionLogEvent) := concat (map emit l).

(** The walk lets [Nullified] logs wait for the next [Action]; [settle] moves
    them there. The contract emits them there. *)
Fixpoint settle (waiting : list (Z * ActionLogEvent)) (events : list (Z * ActionLogEvent))
    : list (Z * ActionLogEvent) :=
  match events with
  | [] => waiting
  | (k, ANullified t ns) :: events => settle (waiting ++ [(k, ANullified t ns)]) events
  | (k, AAction cs) :: events => waiting ++ (k, AAction cs) :: settle [] events
  | e :: events => e :: settle waiting events
  end.

(** ** Meaning *)
Fixpoint records (i : Item) : nat :=
  match i with
  | ICall _ _ cs body _ => length cs + sum_list (map records body)
  | _ => 0
  end.
Definition records_all (l : list Item) : nat := sum_list (map records l).

Definition item_unshield (i : Item) : option Unshield :=
  match i with IUnshield _ u => Some u | _ => None end.
Definition unshields_of (body : list Item) : list Unshield := omap item_unshield body.

Definition expects_transact (configs : list TXConfig) : bool :=
  existsb (λ c, bool_decide (0 < commitmentsCount c)) configs.

(** A completed call: its frame, the hashes of its [Transact] log and the log
    that completed it. *)
Record ClosedCall := mkClosed {
  cl_transact : option Z;
  cl_frame : ActionFrame;
  cl_hashes : list Z;
  cl_log_index : Z;
}.
Definition call_frame (base : nat) (ns : list (Z * Z * list Z)) (k : Z) (cs : list TXConfig)
    (unshields : list Unshield) : ActionFrame :=
  mkFrame k base cs ((λ n, (n.1.2, n.2)) <$> ns) unshields (expects_transact cs).
Definition closed_call (base : nat) (ns : list (Z * Z * list Z)) (k : Z) (cs : list TXConfig)
    (body : list Item) (tr : option (Z * list Z)) : ClosedCall :=
  mkClosed (fst <$> tr) (call_frame base ns k cs (unshields_of body)) (default [] (snd <$> tr))
    (default k (fst <$> tr)).

Definition calls_seq (f : nat → Item → list ClosedCall) :=
  fix go (base : nat) (l : list Item) : list ClosedCall :=
    match l with
    | [] => []
    | i :: l => f base i ++ go (base + records i)%nat l
    end.

(** Calls in completion order; record indexes count configurations in
    [Action] order from [base]. *)
Fixpoint item_calls (base : nat) (i : Item) : list ClosedCall :=
  match i with
  | ICall ns k cs body tr =>
      calls_seq item_calls (base + length cs) body ++ [closed_call base ns k cs body tr]
  | _ => []
  end.
Definition calls (base : nat) (l : list Item) : list ClosedCall := calls_seq item_calls base l.

(** ** Well-formed forests *)
Fixpoint wf_item (i : Item) : bool :=
  match i with
  | ICall ns k cs body tr =>
      counts_match ns cs && negb (bool_decide (length cs = 0%nat)) && forallb wf_item body &&
      bool_decide (length (unshields_of body) = declared_unshields cs) &&
      match tr with
      | Some _ => expects_transact cs
      | None => negb (expects_transact cs) &&
                match last body with None | Some (IUnshield _ _) => true | _ => false end
      end
  | _ => true
  end.
Definition is_unshield (i : Item) : bool := match i with IUnshield _ _ => true | _ => false end.
Definition wf_forest (l : list Item) : bool :=
  forallb wf_item l && forallb (λ i, negb (is_unshield i)) l.

Context (transaction_hash block_number : Z).

Definition close_call (c : ClosedCall) : cresult ActionCallTransactions :=
  transactions ← transactions_from_action_frame transaction_hash block_number
    (cl_frame c) (cl_hashes c) (cl_log_index c);
  Ok (cl_transact c, transactions).

Notation step := (action_step transaction_hash block_number).
Notation run := (try_fold step).

(** ** The walk reads an emitted forest *)
Definition closable (f : ActionFrame) : bool :=
  negb (fr_expects_transact f) && bool_decide (pending_unshields f = 0%nat).
Definition head_open (fs : list ActionFrame) : Prop := ∀ f, head fs = Some f → closable f = false.

Lemma close_frame_open w : head_open (w_frames w) → close_frame transaction_hash block_number w = Ok w.
Proof.
  intros Ho. unfold close_frame. destruct (w_frames w) as [|f fs]; [done|].
  specialize (Ho f eq_refl). unfold closable in Ho. by rewrite Ho.
Qed.

Lemma run_nullified ns p fs n d es :
  head_open fs →
  run (mkWalk p fs n d) (map nullified_log ns ++ es) = run (mkWalk (p ++ ns) fs n d) es.
Proof.
  intros Ho. revert p. induction ns as [|[[k t] l] ns IH]; intros p; [by rewrite app_nil_r|].
  cbn [map app try_fold]. unfold action_step at 2. cbn [nullified_log fst snd mbind result_bind].
  rewrite close_frame_open by done. cbn. rewrite IH. by rewrite <- app_assoc.
Qed.

Lemma calls_app base l1 l2 : calls base (l1 ++ l2) = calls base l1 ++ calls (base + records_all l1) l2.
Proof.
  unfold calls, records_all. revert base. induction l1 as [|i l1 IH]; intros base; cbn; [by rewrite Nat.add_0_r|].
  rewrite IH, <- app_assoc. do 3 f_equal. lia.
Qed.
Lemma records_all_app l1 l2 : records_all (l1 ++ l2) = (records_all l1 + records_all l2)%nat.
Proof. unfold records_all. rewrite map_app. induction (map records l1); cbn; lia. Qed.
Lemma emit_all_app l1 l2 : emit_all (l1 ++ l2) = emit_all l1 ++ emit_all l2.
Proof. unfold emit_all. by rewrite map_app, concat_app. Qed.
Lemma unshields_of_app l1 l2 : unshields_of (l1 ++ l2) = unshields_of l1 ++ unshields_of l2.
Proof. apply omap_app. Qed.

(** How one item runs from a state without waiting [Nullified] logs. *)
Definition runs_item (i : Item) : Prop :=
  ∀ fs n d es, head_open fs →
  run (mkWalk [] fs n d) (emit i ++ es) =
  (gs ← try_map close_call (item_calls n i); run (mkWalk [] fs (n + records i) (d ++ gs)) es).

Definition frame_has_room (cs : list TXConfig) (us : list Unshield) (body : list Item) : Prop :=
  (length us + length (unshields_of body) ≤ declared_unshields cs)%nat ∧
  (expects_transact cs = true ∨ length us + length (unshields_of body) < declared_unshields cs)%nat.

Lemma call_frame_open base ns k cs us fs :
  expects_transact cs = true ∨ (length us < declared_unshields cs)%nat →
  head_open (call_frame base ns k cs us :: fs).
Proof.
  intros Hr f [= <-]. unfold closable, call_frame, pending_unshields. cbn.
  destruct Hr as [->|Hr]; [done|]. rewrite bool_decide_false by lia. by destruct (expects_transact cs).
Qed.

Lemma run_unshield base ns k cs us fs n d es j u :
  frame_has_room cs us [IUnshield j u] →
  run (mkWalk [] (call_frame base ns k cs us :: fs) n d) ((j, AUnshield u) :: es) =
  run (mkWalk [] (call_frame base ns k cs (us ++ [u]) :: fs) n d) es.
Proof.
  intros [Hle Hr]. cbn in Hle, Hr. cbn [try_fold]. unfold action_step at 2. unfold on_unshield. cbn [w_frames].
  rewrite decide_True by (unfold pending_unshields; cbn; lia). cbn [mbind result_bind].
  rewrite close_frame_open; [done|]. apply call_frame_open. rewrite length_app. cbn. destruct Hr; [by left|right; lia].
Qed.

Lemma run_body body :
  Forall (λ i, is_unshield i = false → runs_item i) body →
  ∀ base ns k cs us fs n d es, frame_has_room cs us body →
  run (mkWalk [] (call_frame base ns k cs us :: fs) n d) (emit_all body ++ es) =
  (gs ← try_map close_call (calls n body);
   run (mkWalk [] (call_frame base ns k cs (us ++ unshields_of body) :: fs) (n + records_all body) (d ++ gs)) es).
Proof.
  induction 1 as [|i body Hi _ IH]; intros base ns k cs us fs n d es [Hle Hr].
  { cbn. by rewrite !app_nil_r, Nat.add_0_r. }
  change (emit_all (i :: body)) with (emit i ++ emit_all body). rewrite <- app_assoc.
  change (calls n (i :: body)) with (item_calls n i ++ calls (n + records i) body).
  change (records_all (i :: body)) with (records i + records_all body)%nat.
  change (unshields_of (i :: body)) with
    (match item_unshield i with Some u => u :: unshields_of body | None => unshields_of body end) in *.
  rewrite try_map_app. destruct (is_unshield i) eqn:Hu.
  - destruct i as [| j u |]; try done. cbn [emit item_calls try_map item_unshield] in *. cbn [app mret result_ret].
    rewrite run_unshield by (split; cbn in *; [lia|destruct Hr; [by left|right; lia]]).
    rewrite IH by (split; rewrite length_app; cbn in *; [lia|destruct Hr; [by left|right; lia]]).
    cbn [records Nat.add app mbind result_bind]. rewrite Nat.add_0_r, <- app_assoc.
    by destruct (try_map close_call (calls _ body)).
  - assert (item_unshield i = None) as Hn by (by destruct i). rewrite Hn in *.
    rewrite (Hi eq_refl).
    2:{ apply call_frame_open. destruct Hr; [by left|right; lia]. }
    rewrite bind_assoc. destruct (try_map close_call (item_calls n i)) as [gs1|]; cbn [mbind result_bind]; [|done].
    rewrite IH by done. rewrite bind_assoc.
    destruct (try_map close_call (calls _ body)) as [gs2|]; cbn [mbind result_bind]; [|done].
    by rewrite <- app_assoc, Nat.add_assoc.
Qed.

Lemma run_action ns fs n d k cs es :
  counts_match ns cs = true → cs ≠ [] →
  run (mkWalk ns fs n d) ((k, AAction cs) :: es) =
  (w ← close_frame transaction_hash block_number
         (mkWalk [] (call_frame n ns k cs [] :: fs) (n + length cs) d);
   run w es).
Proof.
  intros Hc Hne. cbn [try_fold]. unfold action_step at 2. unfold on_action. cbn [w_pending_nullified].
  rewrite Hc. cbn [negb]. by rewrite decide_False by done.
Qed.

Lemma run_shield fs n d k es :
  head_open fs → run (mkWalk [] fs n d) ((k, AAction []) :: es) = run (mkWalk [] fs n d) es.
Proof.
  intros Ho. transitivity (w ← close_frame transaction_hash block_number (mkWalk [] fs n d); run w es); [reflexivity|].
  by rewrite close_frame_open by done.
Qed.

Lemma close_frame_full p base ns k cs us fs n d :
  expects_transact cs = false → length us = declared_unshields cs →
  close_frame transaction_hash block_number (mkWalk p (call_frame base ns k cs us :: fs) n d) =
  (t ← transactions_from_action_frame transaction_hash block_number (call_frame base ns k cs us) [] k;
   Ok (mkWalk p fs n (d ++ [(None, t)]))).
Proof.
  intros He Hu. unfold close_frame. cbn [w_frames].
  unfold pending_unshields. cbn [fr_expects_transact fr_configs fr_unshields call_frame].
  rewrite He, Hu, Nat.sub_diag. done.
Qed.

Lemma run_last_unshield base ns k cs us fs n d es j u :
  expects_transact cs = false → length (us ++ [u]) = declared_unshields cs →
  run (mkWalk [] (call_frame base ns k cs us :: fs) n d) ((j, AUnshield u) :: es) =
  (t ← transactions_from_action_frame transaction_hash block_number (call_frame base ns k cs (us ++ [u])) [] k;
   run (mkWalk [] fs n (d ++ [(None, t)])) es).
Proof.
  intros He Hu. cbn [try_fold]. unfold action_step at 2. unfold on_unshield. cbn [w_frames].
  rewrite decide_True by (unfold pending_unshields; rewrite length_app in Hu; cbn in *; lia).
  transitivity (w ← close_frame transaction_hash block_number
    (mkWalk [] (call_frame base ns k cs (us ++ [u]) :: fs) n d); run w es); [reflexivity|].
  rewrite close_frame_full by done. by rewrite bind_assoc.
Qed.

Lemma run_transact base ns k cs us fs n d es j hashes :
  expects_transact cs = true → head_open fs →
  run (mkWalk [] (call_frame base ns k cs us :: fs) n d) ((j, ATransact hashes) :: es) =
  (t ← transactions_from_action_frame transaction_hash block_number (call_frame base ns k cs us) hashes j;
   run (mkWalk [] fs n (d ++ [(Some j, t)])) es).
Proof.
  intros He Ho. cbn [try_fold]. unfold action_step at 2. unfold on_transact. cbn [w_frames fr_expects_transact call_frame].
  rewrite He. fold (call_frame base ns k cs us).
  destruct (transactions_from_action_frame _ _ _ _ _); cbn [mbind result_bind]; [|done].
  by rewrite close_frame_open by done.
Qed.

Lemma item_calls_call base ns k cs body tr :
  item_calls base (ICall ns k cs body tr) = calls (base + length cs) body ++ [closed_call base ns k cs body tr].
Proof. done. Qed.

Lemma wf_call ns k cs body tr :
  wf_item (ICall ns k cs body tr) = true →
  counts_match ns cs = true ∧ cs ≠ [] ∧ Forall (λ i, wf_item i = true) body ∧
  length (unshields_of body) = declared_unshields cs ∧
  match tr with
  | Some _ => expects_transact cs = true
  | None => expects_transact cs = false ∧ (body = [] ∨ ∃ body' j u, body = body' ++ [IUnshield j u])
  end.
Proof.
  cbn [wf_item]. rewrite !andb_true_iff, forallb_Forall, negb_true_iff, bool_decide_eq_false, bool_decide_eq_true.
  intros ((((Hc & Hne) & Hb) & Hu) & Htr). split_and!; [done|by intros ->|done|done|].
  destruct tr; [done|]. apply andb_true_iff in Htr as [He%negb_true_iff Hl]. split; [done|].
  destruct body as [|i body _] using rev_ind; [by left|right]. rewrite last_snoc in Hl.
  destruct i as [|j u|]; try done. by exists body, j, u.
Qed.

Lemma wf_runs i : wf_item i = true → is_unshield i = false → runs_item i.
Proof.
  induction i as [k|k u|ns k cs body tr IH] using Item_ind'; intros Hwf Hu fs n d es Ho; [|done|].
  - cbn [emit app item_calls try_map records]. rewrite run_shield by done.
    cbn [mbind result_bind]. by rewrite app_nil_r, Nat.add_0_r.
  - apply wf_call in Hwf as (Hc & Hne & Hb & Hlen & Htr).
    assert (Forall (λ i, is_unshield i = false → runs_item i) body) as Hruns.
    { eapply Forall_impl; [exact (proj2 (Forall_and _ _) (conj IH Hb))|]. cbn. intros i [Hi Hw]. by apply Hi. }
    cbn [emit records]. rewrite <- !app_assoc. rewrite run_nullified by done. cbn [app].
    rewrite run_action by done. rewrite item_calls_call, try_map_app.
    fold (emit_all body). fold (records_all body). unfold closed_call.
    destruct tr as [[j hashes]|].
    + rewrite close_frame_open by (apply call_frame_open; by left). cbn [mbind result_bind].
      rewrite run_body by (done || (split; cbn; [lia|by left])).
      rewrite bind_assoc. destruct (try_map close_call (calls _ body)) as [gs|]; cbn [mbind result_bind]; [|done].
      cbn [app]. rewrite run_transact by done. cbn [try_map]. unfold close_call.
      cbn [cl_frame cl_hashes cl_log_index cl_transact fmap option_fmap option_map from_option fst snd].
      destruct (transactions_from_action_frame _ _ _ _ _); cbn; [|done].
      by rewrite Nat.add_assoc, <- app_assoc.
    + destruct Htr as [He [-> | (body' & j & u & ->)]].
      * cbn in Hlen. rewrite close_frame_full by done. cbn. unfold close_call. cbn.
        destruct (transactions_from_action_frame _ _ _ _ _); cbn; [|done]. by rewrite !Nat.add_0_r.
      * rewrite unshields_of_app, length_app in Hlen. cbn in Hlen.
        rewrite close_frame_open by (apply call_frame_open; right; cbn; lia). cbn [mbind result_bind].
        apply Forall_app in Hruns as [Hruns _].
        rewrite emit_all_app, calls_app, <- app_assoc.
        rewrite run_body by (done || (split; cbn; [lia|right; lia])).
        rewrite try_map_app, !bind_assoc.
        destruct (try_map close_call (calls _ body')) as [gs|]; cbn [mbind result_bind]; [|done].
        cbn [emit_all map emit concat app calls calls_seq item_calls try_map mbind result_bind].
        rewrite run_last_unshield by (done || (rewrite length_app; cbn; lia)). unfold close_call.
        cbn [cl_frame cl_hashes cl_log_index cl_transact fmap option_fmap option_map from_option fst snd default].
        rewrite unshields_of_app. cbn [unshields_of omap list_omap item_unshield app].
        destruct (transactions_from_action_frame _ _ _ _ _); cbn; [|done].
        rewrite app_nil_r, <- app_assoc, records_all_app. cbn. by rewrite Nat.add_0_r, Nat.add_assoc.
Qed.

Lemma run_forest F fs n d es :
  wf_forest F = true → head_open fs →
  run (mkWalk [] fs n d) (emit_all F ++ es) =
  (gs ← try_map close_call (calls n F); run (mkWalk [] fs (n + records_all F) (d ++ gs)) es).
Proof.
  intros Hwf Ho. unfold wf_forest in Hwf. apply andb_true_iff in Hwf as [Hw Hu].
  rewrite forallb_Forall in Hw, Hu. revert n d Hu. induction Hw as [|i F Hi Hw IH]; intros n d Hu.
  { cbn. by rewrite app_nil_r, Nat.add_0_r. }
  apply Forall_cons in Hu as [Hi' Hu]. apply negb_true_iff in Hi'.
  change (emit_all (i :: F)) with (emit i ++ emit_all F). rewrite <- app_assoc.
  rewrite (wf_runs i Hi Hi' fs) by done.
  change (calls n (i :: F)) with (item_calls n i ++ calls (n + records i) F).
  change (records_all (i :: F)) with (records i + records_all F)%nat.
  rewrite try_map_app, bind_assoc. destruct (try_map close_call (item_calls n i)); cbn [mbind result_bind]; [|done].
  rewrite IH by done. rewrite bind_assoc. destruct (try_map close_call (calls _ F)); cbn [mbind result_bind]; [|done].
  by rewrite <- app_assoc, Nat.add_assoc.
Qed.

(** ** Waiting [Nullified] logs *)
Definition all_open (fs : list ActionFrame) : Prop := Forall (λ f, closable f = false) fs.
Lemma all_open_head fs : all_open fs → head_open fs.
Proof. intros Ha f Hf. destruct Ha; [done|]. by injection Hf as <-. Qed.

Lemma close_frame_all_open w w' :
  all_open (drop 1 (w_frames w)) → close_frame transaction_hash block_number w = Ok w' →
  all_open (w_frames w').
Proof.
  unfold close_frame. destruct w as [p [|f fs] n d]; cbn; [intros ? [= <-]; done|]. intros Hd.
  destruct (negb _ && _) eqn:Hc.
  - destruct (transactions_from_action_frame _ _ _ _ _); cbn; [|done]. by intros [= <-].
  - intros [= <-]. cbn. constructor; [exact Hc|]. by rewrite drop_0 in Hd.
Qed.

Lemma step_all_open w e w' : all_open (w_frames w) → step w e = Ok w' → all_open (w_frames w').
Proof.
  intros Ha. destruct e as [k ev]. unfold action_step. rewrite bind_Ok. intros (w1 & H1 & H2).
  eapply close_frame_all_open; [|exact H2].
  assert (all_open (drop 1 (w_frames w))) as Hd by (destruct Ha; [constructor|by cbn; rewrite drop_0]).
  destruct ev as [t ns|cs|u|hs]; cbn in H1.
  - injection H1 as <-. done.
  - unfold on_action in H1. destruct (negb _); [done|]. case_decide; injection H1 as <-; cbn; [done|].
    by rewrite drop_0.
  - unfold on_unshield in H1. destruct (w_frames w) as [|f fs]; [done|]. case_decide; [|done].
    injection H1 as <-. done.
  - unfold on_transact in H1. destruct (w_frames w) as [|f fs]; [done|].
    destruct (fr_expects_transact f); [|done]. apply bind_Ok in H1 as (t & _ & [= <-]). cbn in *.
    rewrite drop_0 in Hd. destruct Hd; [constructor|by cbn; rewrite drop_0].
Qed.

Definition with_pending (p : list (Z * Z * list Z)) (w : Walk) : Walk :=
  mkWalk p (w_frames w) (w_next_record_index w) (w_decoded w).

Lemma close_frame_pending p w :
  close_frame transaction_hash block_number (with_pending p w) =
  (w ← close_frame transaction_hash block_number w; Ok (with_pending p w)).
Proof.
  destruct w as [q [|f fs] n d]; [done|]. unfold close_frame. cbn.
  destruct (negb _ && _); [|done]. by destruct (transactions_from_action_frame _ _ _ _ _).
Qed.

(** Unshields and transacts do not look at waiting logs. *)
Lemma step_pending p w k ev :
  (∃ u, ev = AUnshield u) ∨ (∃ hs, ev = ATransact hs) →
  step (with_pending p w) (k, ev) = (w ← step w (k, ev); Ok (with_pending p w)).
Proof.
  intros Hev. unfold action_step. rewrite bind_assoc.
  destruct w as [q [|f fs] n d]; destruct Hev as [[x ->]|[x ->]]; cbn; try done.
  - unfold on_unshield. cbn. case_decide; cbn [mbind result_bind]; [|done]. apply (close_frame_pending p (mkWalk q _ _ _)).
  - unfold on_transact. cbn. destruct (fr_expects_transact f); cbn [mbind result_bind]; [|done].
    destruct (transactions_from_action_frame _ _ _ _ _); cbn [mbind result_bind]; [|done].
    apply (close_frame_pending p (mkWalk q _ _ _)).
Qed.

Lemma step_keeps_pending w k ev w' :
  (∃ u, ev = AUnshield u) ∨ (∃ hs, ev = ATransact hs) →
  step w (k, ev) = Ok w' → w_pending_nullified w' = w_pending_nullified w.
Proof.
  intros Hev Hs. assert (with_pending (w_pending_nullified w) w = w) as Hw by (by destruct w).
  rewrite <- Hw in Hs. rewrite step_pending in Hs by done. by apply bind_Ok in Hs as (? & _ & [= <-]).
Qed.

(** A walk with waiting logs is the walk over the settled logs. *)
Lemma run_settle es p fs n d :
  all_open fs →
  run (mkWalk p fs n d) es = run (mkWalk [] fs n d) (settle (map nullified_log p) es).
Proof.
  revert p fs n d. induction es as [|[k ev] es IH]; intros p fs n d Ha; cbn [settle].
  2: assert (∀ ev, (∃ u, ev = AUnshield u) ∨ (∃ hs, ev = ATransact hs) →
    run (mkWalk p fs n d) ((k, ev) :: es) =
    run (mkWalk [] fs n d) ((k, ev) :: settle (map nullified_log p) es)) as run_step.
  2:{ clear ev. intros ev Hev. cbn [try_fold]. change (mkWalk p fs n d) with (with_pending p (mkWalk [] fs n d)).
      rewrite step_pending, bind_assoc by done.
      destruct (step (mkWalk [] fs n d) (k, ev)) as [w|] eqn:Hs; cbn [mbind result_bind]; [|done].
      pose proof (step_all_open (mkWalk [] fs n d) _ _ Ha Hs) as Ha'. apply step_keeps_pending in Hs; [|done].
      destruct w as [q fs' n' d']. cbn in Hs, Ha'. subst q. by apply IH. }
  { by rewrite <- (app_nil_r (map _ p)), run_nullified by (by apply all_open_head). }
  destruct ev as [t ns|cs|u|hs].
  - change [(k, ANullified t ns)] with (map nullified_log [(k, t, ns)]). rewrite <- map_app.
    rewrite <- IH by done. apply (run_nullified [(k, t, ns)] p fs n d es). by apply all_open_head.
  - rewrite run_nullified by (by apply all_open_head). cbn [app]. cbn [try_fold].
    destruct (step (mkWalk p fs n d) (k, AAction cs)) as [w|e] eqn:Hs; cbn [mbind result_bind]; [|done].
    assert (w_pending_nullified w = []) as Hp.
    { unfold action_step in Hs. apply bind_Ok in Hs as (w1 & H1 & H2).
      unfold on_action in H1. cbn in H1. destruct (counts_match p cs) eqn:Hc; cbn in H1; [|done].
      assert (w_pending_nullified w1 = []) as Hp1.
      { case_decide; injection H1 as <-; [|done]. subst cs. unfold counts_match in Hc.
        apply andb_true_iff in Hc as [Hl%bool_decide_eq_true _]. cbn. by destruct p. }
      unfold close_frame in H2. destruct (w_frames w1); [by injection H2 as <-|].
      destruct (negb _ && _); [|by injection H2 as <-].
      by apply bind_Ok in H2 as (? & _ & [= <-]). }
    pose proof (step_all_open (mkWalk p fs n d) _ _ Ha Hs) as Ha'. destruct w as [? fs' n' d']. cbn in Hp, Ha'. subst.
    by rewrite (IH [] fs' n' d' Ha').
  - apply run_step; eauto.
  - apply run_step; eauto.
Qed.

#[local] Arguments unshields_of : simpl never.
#[local] Arguments records_all : simpl never.
#[local] Arguments calls : simpl never.
#[local] Arguments emit_all : simpl never.
#[local] Arguments call_frame : simpl never.

(** ** Every accepted log sequence is a forest

    The stack of the walk as a forest with a path of open calls. *)
Record Open := mkOpen {
  o_nullified : list (Z * Z * list Z);
  o_log_index : Z;
  o_configs : list TXConfig;
  o_body : list Item;
}.
Definition open_item (o : Open) (tr : option (Z * list Z)) : Item :=
  ICall (o_nullified o) (o_log_index o) (o_configs o) (o_body o) tr.

Fixpoint stack_emit (top : list Item) (os : list Open) : list (Z * ActionLogEvent) :=
  match os with
  | [] => emit_all top
  | o :: os => stack_emit top os ++ map nullified_log (o_nullified o) ++
               [(o_log_index o, AAction (o_configs o))] ++ emit_all (o_body o)
  end.
Fixpoint stack_records (top : list Item) (os : list Open) : nat :=
  match os with
  | [] => records_all top
  | o :: os => stack_records top os + (length (o_configs o) + records_all (o_body o))
  end.
Fixpoint stack_calls (top : list Item) (os : list Open) : list ClosedCall :=
  match os with
  | [] => calls 0 top
  | o :: os => stack_calls top os ++ calls (stack_records top os + length (o_configs o)) (o_body o)
  end.
Fixpoint stack_frames (top : list Item) (os : list Open) : list ActionFrame :=
  match os with
  | [] => []
  | o :: os => call_frame (stack_records top os) (o_nullified o) (o_log_index o) (o_configs o)
                 (unshields_of (o_body o)) :: stack_frames top os
  end.
Definition open_ok (o : Open) : Prop :=
  counts_match (o_nullified o) (o_configs o) = true ∧ o_configs o ≠ [] ∧
  Forall (λ i, wf_item i = true) (o_body o) ∧
  (length (unshields_of (o_body o)) ≤ declared_unshields (o_configs o))%nat ∧
  (expects_transact (o_configs o) = true ∨
   length (unshields_of (o_body o)) < declared_unshields (o_configs o))%nat.

Record stack_inv (w : Walk) (top : list Item) (os : list Open) : Prop := {
  inv_top : wf_forest top = true;
  inv_open : Forall open_ok os;
  inv_frames : w_frames w = stack_frames top os;
  inv_next : w_next_record_index w = stack_records top os;
  inv_decoded : try_map close_call (stack_calls top os) = Ok (w_decoded w);
}.

(** A completed item goes to the innermost open call. *)
Definition add_item (i : Item) (top : list Item) (os : list Open) : list Item * list Open :=
  match os with
  | [] => (top ++ [i], [])
  | o :: os => (top, mkOpen (o_nullified o) (o_log_index o) (o_configs o) (o_body o ++ [i]) :: os)
  end.

Lemma emit_all_snoc l i : emit_all (l ++ [i]) = emit_all l ++ emit i.
Proof. rewrite emit_all_app. f_equal. unfold emit_all. cbn. by rewrite app_nil_r. Qed.
Lemma calls_snoc n l i : calls n (l ++ [i]) = calls n l ++ item_calls (n + records_all l) i.
Proof. rewrite calls_app. f_equal. unfold calls. cbn. by rewrite app_nil_r. Qed.
Lemma records_all_snoc l i : records_all (l ++ [i]) = (records_all l + records i)%nat.
Proof. rewrite records_all_app. unfold records_all at 2. cbn. lia. Qed.

Lemma add_item_inv i top os w gs :
  stack_inv w top os → wf_item i = true → is_unshield i = false →
  try_map close_call (item_calls (stack_records top os) i) = Ok gs →
  let '(top', os') := add_item i top os in
  stack_inv (mkWalk (w_pending_nullified w) (w_frames w) (w_next_record_index w + records i) (w_decoded w ++ gs))
    top' os' ∧
  stack_emit top' os' = stack_emit top os ++ emit i.
Proof.
  intros [Ht Ho Hf Hn Hd] Hi Hu Hgs. destruct os as [|o os]; cbn [add_item].
  - split; [|apply emit_all_snoc]. split; cbn in *.
    + unfold wf_forest in *. rewrite !forallb_app. cbn. rewrite Hi, Hu. cbn. rewrite !andb_true_r. done.
    + done.
    + done.
    + by rewrite records_all_snoc, Hn.
    + by rewrite calls_snoc, Nat.add_0_l, try_map_app, Hd; cbn [mbind result_bind]; rewrite Hgs.
  - assert (unshields_of (o_body o ++ [i]) = unshields_of (o_body o)) as Hus.
    { rewrite unshields_of_app. destruct i; [|done|]; apply app_nil_r. }
    apply Forall_cons in Ho as [(? & ? & ? & ? & ?) Ho]. split.
    + split; cbn in *; [done| |by rewrite Hus|by rewrite records_all_snoc, Hn; lia|].
      * constructor; [|done]. unfold open_ok. cbn. rewrite Hus.
        split_and!; [done|done|by apply Forall_app; split; [|apply Forall_singleton]|done|done].
      * rewrite calls_snoc, app_assoc, try_map_app, Hd. cbn [mbind result_bind].
        replace (stack_records top os + length (o_configs o) + records_all (o_body o))%nat
          with (stack_records top os + (length (o_configs o) + records_all (o_body o)))%nat by lia.
        by rewrite Hgs.
    + cbn. rewrite emit_all_snoc, <- !app_assoc. done.
Qed.

Lemma stack_emit_close top o os tr :
  stack_emit top os ++ emit (open_item o tr) =
  stack_emit top (o :: os) ++ match tr with Some (j, hashes) => [(j, ATransact hashes)] | None => [] end.
Proof. cbn. unfold emit_all. rewrite <- !app_assoc. do 2 f_equal. Qed.

Lemma stack_inv_head w top os : stack_inv w top os → head_open (w_frames w).
Proof.
  intros [_ Ho Hf _ _]. rewrite Hf. destruct Ho as [|o os (_ & _ & _ & _ & Hr) _]; [done|]. by apply call_frame_open.
Qed.

(** The call [o] completes. [o] may be full, unlike the calls below it. *)
Record pre_inv (w : Walk) (top : list Item) (o : Open) (os : list Open) : Prop := {
  pre_top : wf_forest top = true;
  pre_open : Forall open_ok os;
  pre_counts : counts_match (o_nullified o) (o_configs o) = true ∧ o_configs o ≠ [];
  pre_body : Forall (λ i, wf_item i = true) (o_body o);
  pre_frames : w_frames w = stack_frames top (o :: os);
  pre_next : w_next_record_index w = stack_records top (o :: os);
  pre_decoded : try_map close_call (stack_calls top (o :: os)) = Ok (w_decoded w);
}.

Lemma close_open w top o os tr t :
  pre_inv w top o os → wf_item (open_item o tr) = true →
  transactions_from_action_frame transaction_hash block_number
    (call_frame (stack_records top os) (o_nullified o) (o_log_index o) (o_configs o) (unshields_of (o_body o)))
    (default [] (snd <$> tr)) (default (o_log_index o) (fst <$> tr)) = Ok t →
  ∃ top' os',
    stack_inv (mkWalk (w_pending_nullified w) (stack_frames top os) (w_next_record_index w)
                 (w_decoded w ++ [(fst <$> tr, t)])) top' os' ∧
    stack_emit top' os' = stack_emit top os ++ emit (open_item o tr).
Proof.
  intros [Ht Ho _ _ _ Hn Hd] Hwf Hclose. cbn in Hn, Hd.
  rewrite try_map_app in Hd. apply bind_Ok in Hd as (d1 & Hd1 & Hd).
  apply bind_Ok in Hd as (d2 & Hd2 & Hd). injection Hd as Hd.
  pose proof (add_item_inv (open_item o tr) top os
    (mkWalk (w_pending_nullified w) (stack_frames top os) (stack_records top os) d1) (d2 ++ [(fst <$> tr, t)])
    ltac:(by split) Hwf eq_refl) as Hadd.
  destruct (add_item (open_item o tr) top os) as [top' os']. cbn [w_pending_nullified w_frames w_next_record_index w_decoded] in Hadd.
  exists top', os'. rewrite Hn, <- Hd, <- app_assoc. apply Hadd.
  unfold open_item. rewrite item_calls_call, try_map_app, Hd2. cbn [mbind result_bind try_map].
  unfold close_call at 1, closed_call. cbn [cl_frame cl_hashes cl_log_index cl_transact]. rewrite Hclose. done.
Qed.

Lemma close_frame_inv w top o os w' :
  pre_inv w top o os →
  (length (unshields_of (o_body o)) ≤ declared_unshields (o_configs o))%nat →
  (o_body o = [] ∨ ∃ body j u, o_body o = body ++ [IUnshield j u]) →
  close_frame transaction_hash block_number w = Ok w' →
  ∃ top' os', stack_inv w' top' os' ∧ stack_emit top' os' = stack_emit top (o :: os) ∧
    w_pending_nullified w' = w_pending_nullified w.
Proof.
  intros Hpre Hle Hlast Hc. pose proof Hpre as [Ht Ho [Hm Hne] Hb Hf Hn Hd].
  destruct (decide (expects_transact (o_configs o) = false ∧
    length (unshields_of (o_body o)) = declared_unshields (o_configs o))) as [[He Hl]|Hopen].
  - destruct w as [p fs n d]. cbn in Hf. subst fs. rewrite close_frame_full in Hc by done.
    apply bind_Ok in Hc as (t & Htx & [= <-]).
    assert (wf_item (open_item o None) = true) as Hwf.
    { unfold open_item. cbn [wf_item]. rewrite Hm, He, bool_decide_false, bool_decide_true by (done || by destruct (o_configs o)).
      rewrite (proj2 (forallb_Forall _ _) Hb). cbn.
      destruct Hlast as [->|(body & j & u & ->)]; [done|]. by rewrite last_snoc. }
    destruct (close_open _ _ _ _ None t Hpre Hwf Htx) as (top' & os' & Hinv & Hemit).
    exists top', os'. split_and!; [exact Hinv| |done]. by rewrite Hemit, stack_emit_close, app_nil_r.
  - rewrite close_frame_open in Hc.
    + injection Hc as <-. exists top, (o :: os). split_and!; [|done|done]. split; try done.
      constructor; [|done]. unfold open_ok. split_and!; [done..|].
      destruct (expects_transact (o_configs o)); [by left|right]. destruct (decide (length (unshields_of (o_body o)) =
        declared_unshields (o_configs o))); [naive_solver|lia].
    + rewrite Hf. apply call_frame_open. destruct (expects_transact (o_configs o)); [by left|right].
      destruct (decide (length (unshields_of (o_body o)) = declared_unshields (o_configs o))); [naive_solver|lia].
Qed.

(** What one log does to the forest built so far. *)
Definition step_goal (w w' : Walk) (top : list Item) (os : list Open) (e : Z * ActionLogEvent) : Prop :=
  ∃ top' os', stack_inv w' top' os' ∧
    ∀ es, stack_emit top' os' ++ settle (map nullified_log (w_pending_nullified w')) es =
          stack_emit top os ++ settle (map nullified_log (w_pending_nullified w)) (e :: es).

Lemma nullified_inv w top os k t ns w' :
  stack_inv w top os → step w (k, ANullified t ns) = Ok w' → step_goal w w' top os (k, ANullified t ns).
Proof.
  intros Hinv Hs. unfold action_step in Hs. cbn [mbind result_bind] in Hs.
  rewrite close_frame_open in Hs by (by eapply (stack_inv_head w)). injection Hs as <-.
  exists top, os. destruct Hinv. split; [by split|]. intros es. cbn. by rewrite map_app.
Qed.

Lemma action_inv w top os k cs w' :
  stack_inv w top os → step w (k, AAction cs) = Ok w' → step_goal w w' top os (k, AAction cs).
Proof.
  intros Hinv Hs. unfold action_step in Hs. apply bind_Ok in Hs as (w1 & H1 & H2).
  unfold on_action in H1. destruct (counts_match _ cs) eqn:Hm; cbn [negb] in H1; [|done].
  case_decide as Hcs; injection H1 as <-.
  - subst cs. rewrite close_frame_open in H2 by (by eapply stack_inv_head). injection H2 as <-.
    assert (w_pending_nullified w = []) as Hp.
    { unfold counts_match in Hm. apply andb_true_iff in Hm as [Hl%bool_decide_eq_true _]. by destruct (w_pending_nullified w). }
    pose proof (add_item_inv (IShield k) top os w [] Hinv eq_refl eq_refl eq_refl) as Hadd.
    unfold step_goal. destruct (add_item (IShield k) top os) as [top' os']. destruct Hadd as [Hi He].
    exists top', os'. split.
    + destruct w. cbn in *. by rewrite Nat.add_0_r, app_nil_r in Hi.
    + intros es. rewrite He, Hp, <- app_assoc. done.
  - match type of H2 with close_frame _ _ ?w1 = _ =>
      destruct (close_frame_inv w1 top (mkOpen (w_pending_nullified w) k cs []) os w')
        as (top' & os' & Hi & He & Hp) end; [| | |exact H2|].
    + destruct Hinv as [Ht Ho Hf Hn Hd]. split; cbn; try done.
      * by rewrite Hf, Hn.
      * rewrite Hn. unfold records_all. cbn. lia.
      * by rewrite app_nil_r.
    + cbn. unfold unshields_of. cbn. lia.
    + by left.
    + exists top', os'. split; [done|]. intros es. rewrite He, Hp. cbn. by rewrite <- !app_assoc.
Qed.

Lemma unshield_inv w top os k u w' :
  stack_inv w top os → step w (k, AUnshield u) = Ok w' → step_goal w w' top os (k, AUnshield u).
Proof.
  intros [Ht Ho Hf Hn Hd] Hs. unfold action_step in Hs. apply bind_Ok in Hs as (w1 & H1 & H2).
  unfold on_unshield in H1. rewrite Hf in H1. destruct os as [|o os]; [done|]. cbn [stack_frames] in H1.
  case_decide as Hp; [|done]. injection H1 as <-.
  apply Forall_cons in Ho as [(Hm & Hne & Hb & Hle & Hr) Ho].
  assert (length (unshields_of (o_body o ++ [IUnshield k u])) = S (length (unshields_of (o_body o)))) as Hlen.
  { rewrite unshields_of_app, length_app. unfold unshields_of. cbn. lia. }
  assert (declared_unshields (o_configs o) - length (unshields_of (o_body o)) > 0)%nat as Hp' by exact Hp.
  match type of H2 with close_frame _ _ ?w1 = _ =>
    destruct (close_frame_inv w1 top
      (mkOpen (o_nullified o) (o_log_index o) (o_configs o) (o_body o ++ [IUnshield k u])) os w')
      as (top' & os' & Hi & He & Hpend) end; [| | |exact H2|].
  - split; cbn; try done.
    + apply Forall_app. split; [done|by apply Forall_singleton].
    + by rewrite unshields_of_app.
    + rewrite Hn. cbn. rewrite records_all_snoc. cbn. lia.
    + rewrite calls_snoc. cbn [item_calls]. by rewrite app_nil_r.
  - cbn. lia.
  - right. by exists (o_body o), k, u.
  - exists top', os'. split; [done|]. intros es. rewrite He, Hpend. cbn.
    rewrite emit_all_snoc, <- !app_assoc. cbn [app]. by rewrite <- !app_assoc.
Qed.

Lemma transact_inv w top os k hs w' :
  stack_inv w top os → step w (k, ATransact hs) = Ok w' → step_goal w w' top os (k, ATransact hs).
Proof.
  intros [Ht Ho Hf Hn Hd] Hs. unfold action_step in Hs. apply bind_Ok in Hs as (w1 & H1 & H2).
  unfold on_transact in H1. rewrite Hf in H1. destruct os as [|o os]; [done|]. cbn [stack_frames] in H1.
  destruct (fr_expects_transact _) eqn:Hex; [|done]. apply bind_Ok in H1 as (t & Htx & [= <-]).
  change (expects_transact (o_configs o) = true) in Hex.
  apply Forall_cons in Ho as [(Hm & Hne & Hb & Hle & Hr) Ho].
  assert (length (unshields_of (o_body o)) = declared_unshields (o_configs o)) as Hl.
  { unfold transactions_from_action_frame in Htx. case_decide as Hp; [done|]. unfold pending_unshields in Hp. cbn in Hp.
    change (fr_configs _) with (o_configs o) in Hp. change (fr_unshields _) with (unshields_of (o_body o)) in Hp. lia. }
  assert (wf_item (open_item o (Some (k, hs))) = true) as Hwf.
  { unfold open_item. cbn [wf_item]. rewrite Hm, Hex, bool_decide_false, bool_decide_true by (done || by destruct (o_configs o)).
    by rewrite (proj2 (forallb_Forall _ _) Hb). }
  destruct (close_open w top o os (Some (k, hs)) t) as (top' & os' & Hi & He); [by split|done|done|].
  rewrite close_frame_open in H2 by (by eapply (stack_inv_head _ _ _ Hi)). injection H2 as <-.
  exists top', os'. split; [exact Hi|]. intros es. rewrite He, stack_emit_close, <- app_assoc. done.
Qed.

Lemma walk_sound es w top os groups :
  stack_inv w top os →
  (w' ← run w es; walk_finish transaction_hash block_number w') = Ok groups →
  ∃ F, wf_forest F = true ∧
    emit_all F = stack_emit top os ++ settle (map nullified_log (w_pending_nullified w)) es ∧
    try_map close_call (calls 0 F) = Ok groups.
Proof.
  revert w top os. induction es as [|[k ev] es IH]; intros w top os Hinv; cbn [try_fold].
  - cbn [mbind result_bind]. intros Hfin. destruct Hinv as [Ht Ho Hf Hn Hd]. unfold walk_finish in Hfin.
    destruct (w_pending_nullified w) as [|[[? ?] ?]]; [|done]. rewrite Hf in Hfin. destruct os as [|o os]; [|done].
    injection Hfin as <-. exists top. split_and!; [done| |done]. cbn. by rewrite app_nil_r.
  - rewrite bind_assoc, bind_Ok. intros (w1 & Hs & Hrest).
    assert (step_goal w w1 top os (k, ev)) as (top1 & os1 & Hinv1 & Hemit).
    { destruct ev; eauto using nullified_inv, action_inv, unshield_inv, transact_inv. }
    destruct (IH w1 top1 os1 Hinv1 Hrest) as (F & HF & Hem & Hg).
    exists F. split_and!; [done|by rewrite Hem, Hemit|done].
Qed.
End grammar.

(** ** One call's transactions *)
Section frame.
Context `{ContractCrate} (transaction_hash block_number : Z).

(** The part of a transaction's commitments that its [Transact] log carries,
    and the commitment that comes from its [Unshield] log. *)
Definition logged_commitments (t : DecodedRailgunTransaction) : list Z :=
  if dr_has_unshield t then removelast (dr_commitments t) else dr_commitments t.
Definition unshield_commitment (t : DecodedRailgunTransaction) : option Z :=
  if dr_has_unshield t then last (dr_commitments t) else None.

(** Transaction [t] is what configuration [c] and its [Nullified] log say. *)
Definition row_of_config (c : TXConfig) (n : Z * list Z) (t : DecodedRailgunTransaction) : Prop :=
  dr_call_kind t = KActionLogs ∧ dr_nullifiers t = n.2 ∧ dr_utxo_tree_in t = n.1 ∧
  dr_bound_params_hash t = boundParamsHash c ∧ dr_has_unshield t = hasUnshield c ∧
  (hasUnshield c = true → dr_commitments t ≠ []) ∧
  Z.of_nat (length (logged_commitments t)) = commitmentsCount c ∧
  dr_railgun_txid t = railgun_txid_from_parts (dr_nullifiers t) (dr_commitments t) (boundParamsHash c).

Lemma get_range_Some {A} (l : list A) a b x :
  get_range l a b = Some x → drop a l = x ++ drop b l ∧ length x = (b - a)%nat ∧ (a ≤ b ≤ length l)%nat.
Proof.
  unfold get_range. case_decide as Hab; [|done]. intros [= <-].
  rewrite length_take, length_drop. split_and!; [|lia|lia..].
  rewrite <- (take_drop (b - a) (drop a l)) at 1. rewrite drop_drop. do 2 f_equal. lia.
Qed.

Lemma frame_transactions_Ok frame hashes li rows ci offset us end_ txs :
  Forall (λ r, 0 ≤ commitmentsCount r.1) rows →
  frame_transactions transaction_hash block_number frame hashes li ci offset us rows = Ok (end_, txs) →
  (offset ≤ end_)%nat ∧
  txs.*1 = seq (fr_record_base frame + ci) (length rows) ∧
  drop offset hashes = concat (map (logged_commitments ∘ snd) txs) ++ drop end_ hashes ∧
  Forall2 (λ r t, row_of_config r.1 r.2 t.2) rows txs ∧
  (∃ us', us = us' ++ drop (length us') us ∧
     Forall2 (λ u c, ∃ p, unshield_commitment_from_event u = Ok (c, p)) us' (omap (unshield_commitment ∘ snd) txs)).
Proof.
  intros Hrows. revert ci offset us txs.
  induction Hrows as [|[config [tree ns]] rows Hc Hrows IH]; intros ci offset us txs; cbn [frame_transactions].
  { intros [= <- <-]. split_and!; [lia|done|done|constructor|]. exists []. split; [by rewrite drop_0|constructor]. }
  intros Hf. apply bind_Ok in Hf as (e1 & He%ok_or_Ok & Hf).
  destruct (try_from usize_max (commitmentsCount config)) as [cnt|] eqn:Hcnt; [|done]. cbn in He. int_facts.
  apply bind_Ok in Hf as (cm & Hcm%ok_or_Ok%get_range_Some & Hf). destruct Hcm as (Hdrop & Hlen & Hb).
  cbn in Hc. replace (Z.to_nat (Z.of_nat offset + commitmentsCount config))
    with (offset + Z.to_nat (commitmentsCount config))%nat in * by lia.
  apply bind_Ok in Hf as ([[cm' pre] us1] & Hu & Hf). apply bind_Ok in Hf as ([off txs'] & Hrec & [= -> <-]).
  destruct (IH _ _ _ _ Hrec) as (Hle & Hidx & Hdr & Hrws & us' & Hus & Hun).
  set (t := mkDecoded _ _ _ _ _ _ _ _).
  assert (logged_commitments t = cm ∧ (hasUnshield config = true → cm' ≠ []) ∧
    ∃ us0, us = us0 ++ us1 ∧
      Forall2 (λ u c, ∃ p, unshield_commitment_from_event u = Ok (c, p)) us0
        (match unshield_commitment t with Some c => [c] | None => [] end)) as (Hlog & Hnil & us0 & Hus0 & Hun0).
  { unfold logged_commitments, unshield_commitment, t. cbn. destruct (hasUnshield config).
    - destruct us as [|u us]; [done|]. apply bind_Ok in Hu as ([c p] & Hcp & [= <- <- <-]).
      rewrite removelast_last. split; [done|]. split; [intros _ Hnil; by destruct cm|]. exists [u]. split; [done|]. rewrite last_snoc. constructor; [by exists p|constructor].
    - injection Hu as <- <- <-. split; [done|]. split; [done|]. exists []. split; [done|constructor]. }
  split_and!.
  - lia.
  - cbn. rewrite Hidx. f_equal. f_equal. lia.
  - cbn [map concat]. change ((logged_commitments ∘ snd) (_, t)) with (logged_commitments t).
    rewrite Hlog, <- app_assoc, <- Hdr. exact Hdrop.
  - constructor; [|done]. unfold row_of_config. cbn [fst snd]. rewrite Hlog, Hlen. subst t. cbn.
    split_and!; try done; lia.
  - exists (us0 ++ us'). split.
    + rewrite Hus0, Hus at 1. rewrite <- app_assoc. f_equal. f_equal. rewrite length_app.
      by rewrite Hus0, drop_app_add'.
    + change (omap (unshield_commitment ∘ snd) ((_, t) :: txs')) with
        (match unshield_commitment t with Some c => c :: omap (unshield_commitment ∘ snd) txs'
         | None => omap (unshield_commitment ∘ snd) txs' end).
      destruct (unshield_commitment t); exact (Forall2_app Hun0 Hun).
Qed.

(** The theorem's view of a closed frame: [c] configurations, as many
    [Nullified] logs. *)
Lemma transactions_from_action_frame_Ok frame hashes li txs :
  length (fr_nullified frame) = length (fr_configs frame) →
  Forall (λ c, 0 ≤ commitmentsCount c) (fr_configs frame) →
  (length (fr_unshields frame) ≤ declared_unshields (fr_configs frame))%nat →
  transactions_from_action_frame transaction_hash block_number frame hashes li = Ok txs →
  txs.*1 = seq (fr_record_base frame) (length (fr_configs frame)) ∧
  concat (map (logged_commitments ∘ snd) txs) = hashes ∧
  Forall2 (λ r t, row_of_config r.1 r.2 t.2) (zip (fr_configs frame) (fr_nullified frame)) txs ∧
  Forall2 (λ u c, ∃ p, unshield_commitment_from_event u = Ok (c, p)) (fr_unshields frame)
    (omap (unshield_commitment ∘ snd) txs).
Proof.
  intros Hlen Hcs Hle. unfold transactions_from_action_frame. case_decide as Hp; [done|].
  intros Hf. apply bind_Ok in Hf as ([off txs'] & Hf & Hoff). case_decide as Ho; [done|].
  injection Hoff as ->. apply frame_transactions_Ok in Hf as (_ & Hidx & Hdr & Hrows & us' & Hus & Hun).
  2:{ apply Forall_forall. intros [c n] Hin%elem_of_zip_l. by eapply Forall_forall in Hcs. }
  rewrite length_zip_with_l_eq, Nat.add_0_r in Hidx by lia.
  rewrite drop_0, (drop_ge _ off), app_nil_r in Hdr by lia.
  split_and!; [done|done|done|].
  assert (length us' = declared_unshields (fr_configs frame)) as Hus'.
  { rewrite (Forall2_length _ _ _ Hun). unfold declared_unshields.
    clear -Hrows Hlen. revert Hlen Hrows. generalize (fr_nullified frame), txs.
    induction (fr_configs frame) as [|c cs IH]; intros [|n ns] txs' Hl Hr; try done; cbn [zip zip_with] in Hr.
    - by inversion Hr.
    - inversion Hr as [|? t ? txs1 Hrow Hr1]; subst. injection Hl as Hl. rewrite filter_cons.
      destruct Hrow as (_ & _ & _ & _ & Hhas & Hne & _ & _). cbn in *. unfold unshield_commitment at 1. rewrite Hhas.
      destruct (hasUnshield c); case_decide; try done; cbn; [|by apply (IH ns txs1 Hl Hr1)].
      destruct (last (dr_commitments t.2)) eqn:El; [cbn; f_equal; by apply (IH ns txs1 Hl Hr1)|].
      apply last_None in El. by destruct Hne. }
  unfold pending_unshields in Hp. rewrite Hus, drop_ge, app_nil_r by lia. done.
Qed.
End frame.

(** ** Conservation *)
Section conservation.
Context `{ContractCrate} (transaction_hash block_number : Z).

Definition configs_count (events : list (Z * ActionLogEvent)) : nat :=
  sum_list (map (λ e, match e.2 with AAction cs => length cs | _ => 0%nat end) events).
Definition transact_hashes (events : list (Z * ActionLogEvent)) : list Z :=
  concat (map (λ e, match e.2 with ATransact hs => hs | _ => [] end) events).
(** [commitmentsCount] is a [u32]. *)
Definition event_u32 (e : Z * ActionLogEvent) : Prop :=
  match e.2 with AAction cs => Forall (λ c, 0 ≤ commitmentsCount c) cs | _ => True end.

Definition call_indexes (c : ClosedCall) : list nat :=
  seq (fr_record_base (cl_frame c)) (length (fr_configs (cl_frame c))).
Definition closed_ok (c : ClosedCall) : Prop :=
  length (fr_nullified (cl_frame c)) = length (fr_configs (cl_frame c)) ∧
  Forall (λ c, 0 ≤ commitmentsCount c) (fr_configs (cl_frame c)) ∧
  (length (fr_unshields (cl_frame c)) ≤ declared_unshields (fr_configs (cl_frame c)))%nat.

(** What the logs [es] and the calls [cs] of some items agree on. *)
Definition agree (es : list (Z * ActionLogEvent)) (n r : nat) (cs : list ClosedCall) : Prop :=
  configs_count es = r ∧ transact_hashes es = concat (map cl_hashes cs) ∧
  concat (map call_indexes cs) ≡ₚ seq n r ∧ (Forall event_u32 es → Forall closed_ok cs).

Lemma configs_count_app e1 e2 : configs_count (e1 ++ e2) = (configs_count e1 + configs_count e2)%nat.
Proof. unfold configs_count. rewrite map_app. induction (map _ e1); cbn; lia. Qed.
Lemma transact_hashes_app e1 e2 : transact_hashes (e1 ++ e2) = transact_hashes e1 ++ transact_hashes e2.
Proof. unfold transact_hashes. by rewrite map_app, concat_app. Qed.

Lemma agree_app e1 e2 n r1 r2 c1 c2 :
  agree e1 n r1 c1 → agree e2 (n + r1) r2 c2 → agree (e1 ++ e2) n (r1 + r2) (c1 ++ c2).
Proof.
  intros (H1 & H2 & H3 & H4) (G1 & G2 & G3 & G4).
  split; [by rewrite configs_count_app, H1, G1|]. split; [by rewrite transact_hashes_app, map_app, concat_app, H2, G2|].
  split; [by rewrite map_app, concat_app, H3, G3, seq_app|].
  rewrite !Forall_app. naive_solver.
Qed.

Lemma agree_all l n :
  Forall (λ i, ∀ n, wf_item i = true → agree (emit i) n (records i) (item_calls n i)) l →
  forallb wf_item l = true → agree (emit_all l) n (records_all l) (calls n l).
Proof.
  intros Hl. revert n. induction Hl as [|i l Hi _ IH]; intros n Hw.
  { split_and!; try done. }
  cbn in Hw. apply andb_true_iff in Hw as [Hwi Hw]. by apply (agree_app _ _ n); [apply Hi|apply IH].
Qed.

Lemma nullified_quiet ns :
  configs_count (map nullified_log ns) = 0%nat ∧ transact_hashes (map nullified_log ns) = [] ∧
  Forall event_u32 (map nullified_log ns).
Proof. induction ns as [|n ns (IH1 & IH2 & IH3)]; cbn; [done|]. split_and!; [done|done|by constructor]. Qed.

Lemma agree_item i n : wf_item i = true → agree (emit i) n (records i) (item_calls n i).
Proof.
  revert n. induction i as [k|k u|ns k cs body tr IH] using Item_ind'; intros n Hwf; [by split_and!; try constructor..|].
  pose proof (wf_call _ _ _ _ _ Hwf) as (Hm & _ & _ & Hlen & _).
  cbn [wf_item] in Hwf. rewrite !andb_true_iff in Hwf. destruct Hwf as ((((_ & _) & Hb) & _) & _).
  destruct (agree_all body (n + length cs) IH Hb) as (H1 & H2 & H3 & H4).
  destruct (nullified_quiet ns) as (N1 & N2 & N3).
  cbn [emit records]. fold (emit_all body). fold (records_all body). rewrite item_calls_call.
  split; [|split; [|split]].
  - rewrite !configs_count_app, N1, H1. cbn. destruct tr as [[??]|]; cbn; lia.
  - rewrite !transact_hashes_app, N2, H2, map_app, concat_app. cbn.
    destruct tr as [[??]|]; cbn; by rewrite ?app_nil_r.
  - rewrite map_app, concat_app, H3, seq_app, (Permutation_app_comm (seq n _)). cbn. by rewrite app_nil_r.
  - rewrite !Forall_app, Forall_singleton. intros (_ & Hk & Hbody & _). split; [auto|].
    apply Forall_singleton. unfold closed_ok, closed_call, call_frame. cbn. rewrite length_fmap.
    unfold counts_match in Hm. apply andb_true_iff in Hm as [Hl%bool_decide_eq_true _]. split_and!; [done|done|lia].
Qed.

Lemma settle_perm p es : settle p es ≡ₚ p ++ es.
Proof.
  revert p. induction es as [|[k []] es IH]; intros p; cbn [settle].
  - by rewrite app_nil_r.
  - by rewrite IH, <- app_assoc.
  - by rewrite IH.
  - rewrite IH. by rewrite Permutation_middle.
  - rewrite IH. by rewrite Permutation_middle.
Qed.

Lemma settle_hashes p es :
  transact_hashes p = [] → transact_hashes (settle p es) = transact_hashes es.
Proof.
  revert p. induction es as [|[k []] es IH]; intros p Hp; cbn [settle].
  - done.
  - by rewrite IH by (by rewrite transact_hashes_app, Hp).
  - rewrite transact_hashes_app, Hp. cbn. by apply IH.
  - by apply IH.
  - unfold transact_hashes in *. cbn. f_equal. by apply IH.
Qed.

Lemma configs_count_perm e1 e2 : e1 ≡ₚ e2 → configs_count e1 = configs_count e2.
Proof. unfold configs_count. induction 1; cbn; lia. Qed.

Lemma close_calls_facts cs groups :
  Forall closed_ok cs →
  try_map (close_call transaction_hash block_number) cs = Ok groups →
  (concat (map snd groups)).*1 = concat (map call_indexes cs) ∧
  concat (map (logged_commitments ∘ snd) (concat (map snd groups))) = concat (map cl_hashes cs).
Proof.
  intros Hok Hg%try_map_Ok. induction Hg as [|c g cs groups Hc Hg IH]; [done|].
  apply Forall_cons in Hok as [(Hn & Hcs & Hu) Hok]. destruct (IH Hok) as [IH1 IH2].
  unfold close_call in Hc. apply bind_Ok in Hc as (t & Ht & [= <-]).
  apply transactions_from_action_frame_Ok in Ht as (Hi & Hh & _ & _); [|done..].
  cbn. rewrite fmap_app, Hi, IH1. split; [done|]. by rewrite map_app, concat_app, Hh, IH2.
Qed.
End conservation.

(** ** Properties *)

(** C1. Transactions from [Action] logs: the stack walk accepts a sequence of
    logs exactly when, with waiting [Nullified] logs moved to the next
    [Action], it is the emission of a well-formed forest of Railgun calls,
    and it returns that forest's calls in completion order, each transaction
    with its record index in [Action] order. *)
Theorem action_logs_parse_forest `{ContractCrate} transaction_hash block_number events groups :
  decoded_transactions_from_action_logs transaction_hash block_number events = Ok groups ↔
  ∃ F, wf_forest F = true ∧ settle [] events = emit_all F ∧
    try_map (close_call transaction_hash block_number) (calls 0 F) = Ok groups.
Proof.
  unfold decoded_transactions_from_action_logs. split.
  - intros Hr. destruct (walk_sound transaction_hash block_number events walk_start [] [] groups) as (F & HF & He & Hg);
      [by split; try constructor|done|]. exists F. by rewrite He.
  - intros (F & HF & He & Hg). unfold walk_start.
    rewrite (run_settle _ _ events [] [] 0 []) by constructor. cbn [map]. rewrite He.
    rewrite <- (app_nil_r (emit_all F)), run_forest by done. rewrite Hg. done.
Qed.

(** On the logs of a well-formed forest the walk fails only where a call's
    own logs are inconsistent: its result, errors included, is the result of
    splitting the forest's calls in completion order. *)
Theorem action_logs_of_forest `{ContractCrate} transaction_hash block_number F :
  wf_forest F = true →
  decoded_transactions_from_action_logs transaction_hash block_number (emit_all F) =
  try_map (close_call transaction_hash block_number) (calls 0 F).
Proof.
  intros HF. unfold decoded_transactions_from_action_logs, walk_start.
  rewrite <- (app_nil_r (emit_all F)), run_forest by done. rewrite bind_assoc.
  destruct (try_map _ _); [|done]. cbn. done.
Qed.

(** C2. Conservation: when the logs of an outer transaction decode, every
    commitment of its [Transact] logs belongs to exactly one transaction, in
    log order, and the record indexes are exactly the configurations of its
    [Action] logs, each once. *)
Theorem action_logs_conservation `{ContractCrate} transaction_hash block_number events groups :
  Forall event_u32 events →
  decoded_transactions_from_action_logs transaction_hash block_number events = Ok groups →
  let transactions := concat (map snd groups) in
  concat (map (logged_commitments ∘ snd) transactions) = transact_hashes events ∧
  transactions.*1 ≡ₚ seq 0 (configs_count events).
Proof.
  intros Hu Hd. destruct (walk_sound transaction_hash block_number events walk_start [] [] groups)
    as (F & HF & He & Hg); [by split; try constructor|done|].
  cbn in He. unfold wf_forest in HF. apply andb_true_iff in HF as [HF _].
  destruct (agree_all F 0) as (H1 & H2 & H3 & H4);
    [apply Forall_forall; intros i _ n; apply agree_item|done|].
  rewrite He in *. destruct (close_calls_facts transaction_hash block_number (calls 0 F) groups) as [G1 G2];
    [apply H4; by rewrite settle_perm|done|]. cbn zeta.
  rewrite G1, G2, <- H2, settle_hashes by done. split; [done|].
  by rewrite H3, <- H1, (configs_count_perm _ _ (settle_perm [] events)).
Qed.

(** A call with an unshield during which another call, without commitments,
    runs and completes. *)
Definition sample_forest : list (Item (H := toy_contract)) :=
  [IShield 1;
   ICall [(2, 0, [21]); (3, 1, [22; 23])] 4 [mkTXConfig 1 2 true 31; mkTXConfig 2 1 false 32]
     [ICall [(5, 0, [24])] 6 [mkTXConfig 1 0 true 33] [IUnshield (H := toy_contract) 7 (40, 2)] None;
      IUnshield (H := toy_contract) 8 (50, 3)]
     (Some (9, [61; 62; 63]))].

Lemma action_logs_of_forest_witness :
  ∃ groups, decoded_transactions_from_action_logs (H := toy_contract) 1 2 (emit_all sample_forest) = Ok groups ∧
    (fst <$> groups) = [None; Some 9].
Proof.
  rewrite (action_logs_of_forest (H := toy_contract) 1 2 sample_forest) by reflexivity.
  destruct (try_map _ _) as [groups|e] eqn:E; [|vm_compute in E; discriminate].
  exists groups. split; [reflexivity|]. vm_compute in E. by injection E as <-.
Defined.

Lemma action_logs_conservation_witness :
  ∃ groups, decoded_transactions_from_action_logs (H := toy_contract) 1 2 (emit_all sample_forest) = Ok groups ∧
    concat (map (logged_commitments ∘ snd) (concat (map snd groups))) = [61; 62; 63] ∧
    (concat (map snd groups)).*1 ≡ₚ [0; 1; 2]%nat.
Proof.
  destruct (decoded_transactions_from_action_logs (H := toy_contract) 1 2 (emit_all sample_forest))
    as [groups|e] eqn:E; [|vm_compute in E; discriminate].
  exists groups. split; [reflexivity|].
  apply (action_logs_conservation (H := toy_contract) 1 2 (emit_all sample_forest) groups); [|exact E].
  repeat constructor; discriminate.
Defined.
