(* ===== verification/OutputMatch.v ===== *)
(** * Output matching ([chain_logs.rs]: [public_transactions_from_decoded])

    A decoded Railgun transaction does not say where its commitments landed in
    the UTXO tree; the emitted output commitments do. The functions here give
    every decoded transaction of an outer transaction its output position:
    modern calls consume the emitted outputs in order, legacy transacts look
    for them after their nullifier log, legacy relays count from the first
    legacy output. *)

From S2P Require Import Prelude Wire Ipfs Artifacts MerkleCheckpointChunk ChainLogs ActionFrames ActionGrammar.

Definition MODERN_UNSHIELD_ONLY_UTXO_TREE : Z := 99999.
Definition MODERN_UNSHIELD_ONLY_UTXO_POSITION : Z := 99999.

Inductive EmittedOutputFamily := FTransact | FLegacyEncrypted | FLegacyGenerated.
#[export] Instance EmittedOutputFamily_eq_dec : EqDecision EmittedOutputFamily.
Proof. solve_decision. Defined.

Record EmittedOutputCommitment := mkEmitted {
  em_family : EmittedOutputFamily;
  em_log_index : Z;
  em_tree_number : Z;
  em_tree_position : Z;
  em_hash : Z;
}.

Record NullifierGroup := mkNullifierGroup { ng_source : IndexedLogSource; ng_nullifiers : list Z }.

Record TransactOutputSummary := mkSummary {
  su_source : IndexedLogSource;
  su_first_log_index : Z;
  su_last_log_index : Z;
  su_output_commitments : list EmittedOutputCommitment;
  su_nullifier_groups : list NullifierGroup;
}.

Record OutputMatch := mkOutputMatch { output_start : Z; last_log_index : Z }.

Definition is_legacy_family (f : EmittedOutputFamily) : bool :=
  match f with FLegacyEncrypted | FLegacyGenerated => true | FTransact => false end.

Definition is_modern_unshield_only (t : DecodedRailgunTransaction) : bool :=
  dr_has_unshield t && bool_decide (length (dr_commitments t) = 1%nat) &&
  match dr_call_kind t with
  | KTransact | KRelay | KExecute | KActionLogs => true
  | KLegacyRelay | KLegacyTransact => false
  end.

Section matching.
Context `{TreeCrate} (summary : TransactOutputSummary).

Definition unmatched (transaction_index : nat) : ChainLogIngestionError :=
  UnmatchedTransactionOutputCommitments (ls_transaction_hash (su_source summary))
    (ls_block_number (su_source summary)) transaction_index.

Definition em_global (o : EmittedOutputCommitment) : cresult Z :=
  global_tree_position (em_tree_number o) (em_tree_position o).

Definition matched_modern_unshield_only_output_start_global (emitted_outputs : list EmittedOutputCommitment)
    (emitted_index transaction_index : nat) : cresult OutputMatch :=
  match emitted_outputs !! emitted_index with
  | Some emitted =>
      start ← em_global emitted;
      Ok (mkOutputMatch start (em_log_index emitted))
  | None =>
      if decide (emitted_outputs = []) then Ok (mkOutputMatch 0 (su_first_log_index summary))
      else
        match (if decide (1 ≤ emitted_index)%nat then emitted_outputs !! (emitted_index - 1)%nat else None) with
        | None => Err (unmatched transaction_index)
        | Some previous =>
            g ← em_global previous;
            start ← ok_or (checked_add u64_max g 1) (IntegerOverflow "modern_unshield_only_output_start");
            Ok (mkOutputMatch start (em_log_index previous))
        end
  end.

(** The loop over the transaction's commitments: the state is [emitted_index],
    [output_start] and [last_log_index]. *)
Fixpoint match_commitments (emitted_outputs : list EmittedOutputCommitment) (commitments : list Z)
    (emitted_index : nat) (start last : option Z) : cresult (nat * option Z * option Z) :=
  match commitments with
  | [] => Ok (emitted_index, start, last)
  | commitment :: commitments =>
      match emitted_outputs !! emitted_index with
      | None => Ok (emitted_index, start, last)
      | Some emitted =>
          if decide (em_hash emitted = commitment) then
            start ← match start with
                    | Some s => Ok (Some s)
                    | None => g ← em_global emitted; Ok (Some g)
                    end;
            match_commitments emitted_outputs commitments (S emitted_index) start (Some (em_log_index emitted))
          else match_commitments emitted_outputs commitments emitted_index start last
      end
  end.

(** Returns the match and the new [emitted_index]. *)
Definition matched_output_start_global (emitted_outputs : list EmittedOutputCommitment)
    (emitted_index : nat) (transaction : DecodedRailgunTransaction) (transaction_index : nat)
    : cresult (OutputMatch * nat) :=
  '(emitted_index, start, last) ←
    match_commitments emitted_outputs (dr_commitments transaction) emitted_index None None;
  let rest :=
    if bool_decide (start = None) && is_modern_unshield_only transaction then
      m ← matched_modern_unshield_only_output_start_global emitted_outputs emitted_index transaction_index;
      Ok (m, emitted_index)
    else
      match start with
      | Some start => Ok (mkOutputMatch start (default (su_first_log_index summary) last), emitted_index)
      | None => Err (unmatched transaction_index)
      end in
  match emitted_outputs !! emitted_index with
  | Some emitted =>
      if dr_has_unshield transaction && bool_decide (em_family emitted = FLegacyGenerated) then
        start ← em_global emitted;
        Ok (mkOutputMatch start (em_log_index emitted), S emitted_index)
      else rest
  | None => rest
  end.

Definition relay_legacy_output_count (transaction : DecodedRailgunTransaction) : cresult Z :=
  commitment_count ← ok_or (try_from_len u64_max (length (dr_commitments transaction)))
    (IntegerOverflow "commitment_count");
  Ok (if negb (dr_has_unshield transaction) then commitment_count else saturating_sub commitment_count 1).

Definition legacy_nullifier_group_index (transaction : DecodedRailgunTransaction) (transaction_index : nat)
    (used_nullifier_groups : gset nat) : cresult (option nat) :=
  if decide (su_nullifier_groups summary = []) then Ok None
  else
    let matches := filter (λ ig : nat * NullifierGroup,
        ig.1 ∉ used_nullifier_groups ∧ ng_nullifiers ig.2 = dr_nullifiers transaction)
      (imap pair (su_nullifier_groups summary)) in
    match matches.*1 with
    | [index] => Ok (Some index)
    | [] => Err (MissingTransactionNullifierGroup (ls_transaction_hash (su_source summary))
                   (ls_block_number (su_source summary)) transaction_index)
    | _ => Err (AmbiguousTransactionNullifierGroup (ls_transaction_hash (su_source summary))
                  (ls_block_number (su_source summary)) transaction_index (length matches))
    end.

Definition legacy_output_candidates (emitted_outputs : list EmittedOutputCommitment)
    (group_log_index : Z) (group_index : nat) : list EmittedOutputCommitment :=
  let next_nullifier_log_index :=
    (λ g, ls_log_index (ng_source g)) <$> (su_nullifier_groups summary !! S group_index) in
  let candidates := filter (λ o, bool_decide (group_log_index < em_log_index o) &&
      match next_nullifier_log_index with None => true | Some next => bool_decide (em_log_index o < next) end = true)
    emitted_outputs in
  if decide (candidates = []) then emitted_outputs else candidates.

Fixpoint legacy_search (emitted_outputs : list EmittedOutputCommitment)
    (transaction : DecodedRailgunTransaction) (transaction_index : nat) (starts : list nat) : cresult OutputMatch :=
  match starts with
  | [] => Err (unmatched transaction_index)
  | start_index :: starts =>
      match matched_output_start_global emitted_outputs start_index transaction transaction_index with
      | Ok (output_match, _) => Ok output_match
      | Err (UnmatchedTransactionOutputCommitments _ _ _) =>
          legacy_search emitted_outputs transaction transaction_index starts
      | Err error => Err error
      end
  end.
Definition matched_legacy_output_start_global (emitted_outputs : list EmittedOutputCommitment)
    (transaction : DecodedRailgunTransaction) (transaction_index : nat) : cresult OutputMatch :=
  legacy_search emitted_outputs transaction transaction_index (seq 0 (length emitted_outputs)).

(** First generated, first encrypted, last log index. *)
Definition relay_scan (st : option Z * option Z * Z) (output : EmittedOutputCommitment)
    : cresult (option Z * option Z * Z) :=
  let '(generated, encrypted, last) := st in
  output_global ← em_global output;
  let '(generated, encrypted) :=
    match em_family output, generated, encrypted with
    | FLegacyGenerated, None, _ => (Some output_global, encrypted)
    | FLegacyEncrypted, _, None => (generated, Some output_global)
    | _, _, _ => (generated, encrypted)
    end in
  Ok (generated, encrypted, Z.max last (em_log_index output)).

Definition matched_relay_legacy_output_start_global (emitted_outputs : list EmittedOutputCommitment)
    (prior_commitment_count : Z) (transaction_index : nat) : cresult OutputMatch :=
  '(generated, encrypted, last) ←
    try_fold relay_scan (None, None, su_last_log_index summary)
      (filter (λ o, is_legacy_family (em_family o) = true) emitted_outputs);
  match (match generated with Some g => Some g | None => encrypted end) with
  | None => Err (unmatched transaction_index)
  | Some anchor_global =>
      start ← ok_or (checked_add u64_max anchor_global prior_commitment_count)
        (IntegerOverflow "relay_legacy_output_start");
      Ok (mkOutputMatch start last)
  end.

(** ** The loop over the decoded transactions *)
Record MatchState := mkMatchState {
  ms_emitted_index : nat;
  ms_used_nullifier_groups : gset nat;
  ms_relay_legacy_commitment_offset : Z;
  ms_uses_non_sequential : bool;
}.

Definition has_legacy_output_events (emitted_outputs : list EmittedOutputCommitment) : bool :=
  existsb (λ o, is_legacy_family (em_family o)) emitted_outputs.

Definition uses_legacy_segments (transactions : list DecodedRailgunTransaction) : bool :=
  existsb (λ t, bool_decide (dr_call_kind t = KLegacyTransact) &&
                negb (bool_decide (su_nullifier_groups summary = []))) transactions.

(** The sequential branch, shared by two arms. *)
Definition match_sequential (emitted_outputs : list EmittedOutputCommitment) (st : MatchState)
    (transaction_index : nat) (transaction : DecodedRailgunTransaction)
    : cresult (OutputMatch * Z * Z * MatchState) :=
  '(m, emitted_index) ← matched_output_start_global emitted_outputs (ms_emitted_index st)
      transaction transaction_index;
  Ok (m, su_first_log_index summary, su_last_log_index summary,
      mkMatchState emitted_index (ms_used_nullifier_groups st)
        (ms_relay_legacy_commitment_offset st) (ms_uses_non_sequential st)).

Definition match_transaction (emitted_outputs : list EmittedOutputCommitment) (st : MatchState)
    (transaction_index : nat) (transaction : DecodedRailgunTransaction)
    : cresult (OutputMatch * Z * Z * MatchState) :=
  if decide (dr_call_kind transaction = KLegacyTransact) then
    index ← legacy_nullifier_group_index transaction transaction_index (ms_used_nullifier_groups st);
    match index with
    | Some group_index =>
        group ← ok_or (su_nullifier_groups summary !! group_index) (Panicked "index out of bounds");
        let nullifier_log_index := ls_log_index (ng_source group) in
        let candidates := legacy_output_candidates emitted_outputs nullifier_log_index group_index in
        output_match ← matched_legacy_output_start_global candidates transaction transaction_index;
        Ok (output_match, nullifier_log_index, Z.max nullifier_log_index (last_log_index output_match),
            mkMatchState (ms_emitted_index st) ({[group_index]} ∪ ms_used_nullifier_groups st)
              (ms_relay_legacy_commitment_offset st) true)
    | None => match_sequential emitted_outputs st transaction_index transaction
    end
  else if bool_decide (dr_call_kind transaction = KRelay ∨ dr_call_kind transaction = KLegacyRelay) &&
          has_legacy_output_events emitted_outputs then
    output_match ← matched_relay_legacy_output_start_global emitted_outputs
      (ms_relay_legacy_commitment_offset st) transaction_index;
    output_count ← relay_legacy_output_count transaction;
    offset ← ok_or (checked_add u64_max (ms_relay_legacy_commitment_offset st) output_count)
      (IntegerOverflow "relay_legacy_commitment_offset");
    Ok (output_match, su_first_log_index summary, su_last_log_index summary,
        mkMatchState (ms_emitted_index st) (ms_used_nullifier_groups st) offset true)
  else match_sequential emitted_outputs st transaction_index transaction.

Definition output_position (emitted_outputs : list EmittedOutputCommitment)
    (transaction : DecodedRailgunTransaction) (output_match : OutputMatch) : cresult (Z * Z) :=
  if bool_decide (emitted_outputs = []) && is_modern_unshield_only transaction
  then Ok (MODERN_UNSHIELD_ONLY_UTXO_TREE, MODERN_UNSHIELD_ONLY_UTXO_POSITION)
  else normalized_global_position (output_start output_match).

Definition make_row (block_timestamp : Z) (transaction_index : nat) (transaction : DecodedRailgunTransaction)
    (first_log last_log : Z) (position : Z * Z) (index : Z) : IndexedPublicTransaction :=
  mkPublicTransaction (su_source summary) first_log last_log index
    (ls_transaction_hash (su_source summary), Z.of_nat transaction_index) block_timestamp
    (dr_nullifiers transaction) (dr_commitments transaction) (dr_bound_params_hash transaction)
    (dr_has_unshield transaction) (dr_unshield_preimage transaction) (dr_utxo_tree_in transaction)
    position.1 position.2 (dr_railgun_txid transaction).

Fixpoint match_rows (block_timestamp : Z) (emitted_outputs : list EmittedOutputCommitment)
    (st : MatchState) (transaction_index : nat) (transactions : list DecodedRailgunTransaction)
    : cresult (MatchState * list IndexedPublicTransaction) :=
  match transactions with
  | [] => Ok (st, [])
  | transaction :: transactions =>
      '(output_match, first_log, last_log, st) ← match_transaction emitted_outputs st transaction_index transaction;
      position ← output_position emitted_outputs transaction output_match;
      index ← ok_or (try_from_len u64_max transaction_index) (IntegerOverflow "railgun_transaction_index");
      '(st, rows) ← match_rows block_timestamp emitted_outputs st (S transaction_index) transactions;
      Ok (st, make_row block_timestamp transaction_index transaction first_log last_log position index :: rows)
  end.

Definition sorted_outputs : list EmittedOutputCommitment :=
  sort_by_key (λ o, comparable_global_tree_position (em_tree_number o) (em_tree_position o))
    (su_output_commitments summary).

Definition public_transactions_from_decoded (block_timestamp : Z)
    (transactions : list DecodedRailgunTransaction) : cresult (list IndexedPublicTransaction) :=
  let emitted_outputs := sorted_outputs in
  '(st, rows) ← match_rows block_timestamp emitted_outputs (mkMatchState 0 ∅ 0 false) 0 transactions;
  if negb (uses_legacy_segments transactions || ms_uses_non_sequential st) &&
     negb (bool_decide (ms_emitted_index st = length emitted_outputs))
  then Err (UnmatchedEmittedOutputCommitments (ls_transaction_hash (su_source summary))
              (ls_block_number (su_source summary)) (ms_emitted_index st) (length emitted_outputs))
  else Ok rows.
End matching.

(** ** Rows follow the decoded transactions *)

(** Row [r] is transaction [t] at index [i], up to its output position. *)
Definition row_of (summary : TransactOutputSummary) (block_timestamp : Z) (i : nat)
    (t : DecodedRailgunTransaction) (r : IndexedPublicTransaction) : Prop :=
  ip_source r = su_source summary ∧ ip_block_timestamp r = block_timestamp ∧
  ip_railgun_transaction_index r = Z.of_nat i ∧
  ip_id r = (ls_transaction_hash (su_source summary), Z.of_nat i) ∧
  ip_nullifiers r = dr_nullifiers t ∧ ip_commitments r = dr_commitments t ∧
  ip_bound_params_hash r = dr_bound_params_hash t ∧ ip_has_unshield r = dr_has_unshield t ∧
  ip_unshield_preimage r = dr_unshield_preimage t ∧ ip_utxo_tree_in r = dr_utxo_tree_in t ∧
  ip_railgun_txid r = dr_railgun_txid t.

Lemma match_rows_faithful `{TreeCrate} summary ts outputs st k txs st' rows :
  match_rows summary ts outputs st k txs = Ok (st', rows) →
  length rows = length txs ∧
  ∀ i t r, txs !! i = Some t → rows !! i = Some r → row_of summary ts (k + i) t r.
Proof.
  revert st k rows. induction txs as [|t txs IH]; intros st k rows; cbn [match_rows].
  { intros [= <- <-]. split; [done|]. intros i t r Ht. by rewrite lookup_nil in Ht. }
  intros Hr. apply bind_Ok in Hr as ([[[m fl] ll] st1] & _ & Hr).
  apply bind_Ok in Hr as (pos & _ & Hr). apply bind_Ok in Hr as (ix & Hix%ok_or_Ok & Hr). int_facts.
  apply bind_Ok in Hr as ([st2 rows'] & Hr & [= <- <-]). destruct (IH _ _ _ Hr) as [Hlen Hrows].
  split; [by cbn; rewrite Hlen|]. intros [|i] t' r' Ht Hr'.
  - injection Ht as <-. injection Hr' as <-. rewrite Nat.add_0_r. by unfold row_of, make_row; cbn.
  - rewrite Nat.add_succ_r. by apply (Hrows i).
Qed.

(** ** Sequential matching *)
Section sequential.
Context `{TreeCrate}.

Definition em_pos (o : EmittedOutputCommitment) : Z :=
  comparable_global_tree_position (em_tree_number o) (em_tree_position o).

(** An output of a modern [Transact] log, at a leaf of its tree. *)
Definition output_ok (o : EmittedOutputCommitment) : Prop :=
  em_family o = FTransact ∧ 0 ≤ em_tree_number o < u32_max ∧ 0 ≤ em_tree_position o < TREE_LEAF_COUNT.

Lemma em_global_Ok o : output_ok o → em_global o = Ok (em_pos o).
Proof.
  intros (_ & Ht & Hp). pose proof leaf_count_pos as Hpos. pose proof tree_leaf_count_u64 as Hmax.
  unfold em_global, global_tree_position, em_pos, comparable_global_tree_position.
  change u32_max with (2 ^ 32 - 1) in *. unfold checked_mul, checked_add. change u64_max with (2 ^ 64 - 1).
  rewrite decide_True by nia. cbn. by rewrite decide_True by nia.
Qed.

Lemma match_logged outputs seg pre post rest st la :
  outputs = pre ++ seg ++ post → Forall output_ok seg →
  ∃ la', match_commitments outputs ((em_hash <$> seg) ++ rest) (length pre) st la =
    match_commitments outputs rest (length (pre ++ seg))
      (match st with Some s => Some s | None => em_pos <$> head seg end) la'.
Proof.
  intros Ho Hseg. revert pre st la Ho. induction Hseg as [|o seg Hok Hseg IH]; intros pre st la Ho.
  { exists la. rewrite app_nil_r. by destruct st. }
  cbn [fmap list_fmap app match_commitments].
  assert (outputs !! length pre = Some o) as -> by (rewrite Ho; by apply list_lookup_middle).
  rewrite decide_True by done. rewrite (em_global_Ok o Hok). cbn [mbind result_bind].
  assert ((match st with Some s => Ok (Some s) | None => Ok (Some (em_pos o)) end : cresult (option Z)) =
    Ok (match st with Some s => Some s | None => Some (em_pos o) end)) as -> by (by destruct st).
  cbn [mbind result_bind].
  destruct (IH (pre ++ [o]) (match st with Some s => Some s | None => Some (em_pos o) end) (Some (em_log_index o)))
    as [la' Hla]; [by rewrite Ho, <- app_assoc|].
  exists la'. rewrite <- app_assoc in Hla. cbn [app] in Hla. rewrite length_app in Hla. cbn in Hla.
  rewrite Nat.add_1_r in Hla. rewrite Hla. cbn. by destruct st.
Qed.

(** A modern transaction: its commitments are the logged ones and, for an
    unshield, one more; an unshield without logged commitments has no other. *)
Definition modern_ok (t : DecodedRailgunTransaction) : Prop :=
  dr_call_kind t ≠ KLegacyTransact ∧ (dr_has_unshield t = true → dr_commitments t ≠ []) ∧
  (logged_commitments t ≠ [] ∨ is_modern_unshield_only t = true).

Definition unshield_fresh (outputs : list EmittedOutputCommitment) (t : DecodedRailgunTransaction) : Prop :=
  ∀ c, unshield_commitment t = Some c → c ∉ (em_hash <$> outputs).

(** Where the outputs from index [k] on start: at output [k], right after the
    last output, or nowhere. *)
Definition expected_position (outputs : list EmittedOutputCommitment) (k : nat) : Z * Z :=
  match outputs !! k with
  | Some o => (em_tree_number o, em_tree_position o)
  | None =>
      match last outputs with
      | Some o => ((em_pos o + 1) / TREE_LEAF_COUNT, (em_pos o + 1) mod TREE_LEAF_COUNT)
      | None => (MODERN_UNSHIELD_ONLY_UTXO_TREE, MODERN_UNSHIELD_ONLY_UTXO_POSITION)
      end
  end.

Lemma commitments_split t :
  (dr_has_unshield t = true → dr_commitments t ≠ []) →
  dr_commitments t = logged_commitments t ++ match unshield_commitment t with Some c => [c] | None => [] end.
Proof.
  intros Hne. unfold logged_commitments, unshield_commitment. destruct (dr_has_unshield t); [|by rewrite app_nil_r].
  specialize (Hne eq_refl). destruct (dr_commitments t) as [|c l _] using rev_ind; [done|].
  by rewrite last_snoc, removelast_last.
Qed.

Lemma match_unshield outputs t k st la :
  unshield_fresh outputs t →
  match_commitments outputs (match unshield_commitment t with Some c => [c] | None => [] end) k st la = Ok (k, st, la).
Proof.
  intros Hf. destruct (unshield_commitment t) as [c|] eqn:Hc; [|done]. cbn.
  destruct (outputs !! k) as [o|] eqn:Ho; [|done]. rewrite decide_False; [done|]. intros <-.
  apply (Hf _ Hc). apply list_elem_of_fmap. exists o. split; [done|]. by eapply list_elem_of_lookup_2.
Qed.

Lemma normalized_em_pos o : output_ok o → normalized_global_position (em_pos o) = Ok (em_tree_number o, em_tree_position o).
Proof.
  intros (_ & Ht & Hp). unfold normalized_global_position. apply normalize_tree_position_Ok.
  unfold em_pos. rewrite comparable_div, comparable_mod, (Z.div_small (em_tree_position o)), Z.mod_small by lia. lia.
Qed.

Lemma normalized_after o : output_ok o →
  checked_add u64_max (em_pos o) 1 = Some (em_pos o + 1) ∧
  normalized_global_position (em_pos o + 1) =
    Ok ((em_pos o + 1) / TREE_LEAF_COUNT, (em_pos o + 1) mod TREE_LEAF_COUNT).
Proof.
  intros (_ & Ht & Hp). pose proof leaf_count_pos as Hpos. pose proof tree_leaf_count_u64 as Hmax.
  change u32_max with (2 ^ 32 - 1) in *.
  assert (0 ≤ em_pos o + 1 ≤ (em_tree_number o + 1) * TREE_LEAF_COUNT) as Hb
    by (unfold em_pos, comparable_global_tree_position; nia).
  assert ((em_pos o + 1) / TREE_LEAF_COUNT ≤ em_tree_number o + 1) as Hd
    by (rewrite <- (Z.div_mul (em_tree_number o + 1) TREE_LEAF_COUNT) by lia; apply Z.div_le_mono; lia).
  split.
  - apply checked_add_Some. split; [done|]. change u64_max with (2 ^ 64 - 1). nia.
  - unfold normalized_global_position. apply normalize_tree_position_Ok. change u32_max with (2 ^ 32 - 1). lia.
Qed.

Lemma sequential_match summary outputs pre seg post t i :
  outputs = pre ++ seg ++ post → Forall output_ok outputs → em_hash <$> seg = logged_commitments t →
  modern_ok t → unshield_fresh outputs t →
  ∃ m, matched_output_start_global summary outputs (length pre) t i = Ok (m, length (pre ++ seg)) ∧
    output_position outputs t m = Ok (expected_position outputs (length pre)).
Proof.
  intros Ho Hok Hseg (Hk & Hne & Hm) Hfresh. unfold matched_output_start_global.
  rewrite (commitments_split t Hne), <- Hseg.
  assert (Forall output_ok seg) as Hsok by (subst outputs; by apply Forall_app in Hok as [_ [? _]%Forall_app]).
  destruct (match_logged outputs seg pre post (match unshield_commitment t with Some c => [c] | None => [] end) None None
    Ho Hsok) as [la ->].
  rewrite match_unshield by done. cbn [mbind result_bind].
  assert (∀ e, outputs !! length (pre ++ seg) = Some e →
    dr_has_unshield t && bool_decide (em_family e = FLegacyGenerated) = false) as Hleg.
  { intros e He. destruct (Forall_lookup_1 _ _ _ _ Hok He) as (-> & _). by rewrite andb_false_r. }
  assert (∀ o, head seg = Some o → outputs !! length pre = Some o ∧ output_ok o) as Hhead.
  { intros o Hh. destruct seg as [|o' seg]; [done|]. injection Hh as ->. apply Forall_cons in Hsok as [? _].
    split; [rewrite Ho; by apply list_lookup_middle|done]. }
  set (rest := if bool_decide _ && _ then _ else _).
  assert (∃ m, rest = Ok (m, length (pre ++ seg)) ∧ output_position outputs t m = Ok (expected_position outputs (length pre)))
    as (m & Hrest & Hpos).
  { subst rest. destruct seg as [|o seg].
    - cbn [head fmap option_fmap option_map]. rewrite bool_decide_true by done. cbn [andb].
      destruct Hm as [Hm|Hm]; [by rewrite <- Hseg in Hm|]. rewrite Hm. rewrite app_nil_r.
      unfold matched_modern_unshield_only_output_start_global, output_position, expected_position. rewrite Hm, andb_true_r.
      destruct (outputs !! length pre) as [o|] eqn:Hl.
      + assert (output_ok o) as Ho' by exact (Forall_lookup_1 _ _ _ _ Hok Hl).
        rewrite em_global_Ok by done. cbn [mbind result_bind]. eexists. split; [done|].
        rewrite bool_decide_false by (by intros ->). cbn. by apply normalized_em_pos.
      + assert (post = []) as ->.
        { apply lookup_ge_None in Hl. rewrite Ho, !length_app in Hl. cbn in Hl. destruct post; [done|cbn in Hl; lia]. }
        rewrite !app_nil_r in Ho. subst outputs. destruct pre as [|x pre' _] using rev_ind.
        * rewrite decide_True by done. cbn [mbind result_bind]. eexists. split; [done|]. by rewrite bool_decide_true.
        * assert (pre' ++ [x] ≠ []) as Hnn by (by destruct pre').
          assert (output_ok x) as Hx by (apply Forall_app in Hok as [_ Hok]; by inversion Hok).
          rewrite decide_False by done. rewrite length_app. cbn [length]. rewrite decide_True by lia.
          replace (length pre' + 1 - 1)%nat with (length pre') by lia. rewrite list_lookup_middle by done.
          rewrite em_global_Ok by done. cbn [mbind result_bind].
          destruct (normalized_after x Hx) as [-> Hn]. cbn [ok_or mbind result_bind].
          eexists. split; [done|]. rewrite bool_decide_false by done. rewrite last_snoc. exact Hn.
    - destruct (Hhead o eq_refl) as [Hl Ho']. cbn [head fmap option_fmap option_map].
      rewrite bool_decide_false by done. cbn [andb]. eexists. split; [done|].
      unfold output_position, expected_position. rewrite Hl, bool_decide_false by (by intros ->). cbn [andb].
      by apply normalized_em_pos. }
  exists m. split; [|done]. destruct (outputs !! length (pre ++ seg)) as [e|] eqn:He; [|done].
  by rewrite (Hleg e eq_refl).
Qed.

Lemma no_legacy_outputs outputs : Forall output_ok outputs → has_legacy_output_events outputs = false.
Proof.
  intros Hok. unfold has_legacy_output_events. induction Hok as [|o l (Hf & _) _ IH]; [done|]. cbn. by rewrite Hf, IH.
Qed.

Lemma match_transaction_modern summary outputs st i t :
  Forall output_ok outputs → dr_call_kind t ≠ KLegacyTransact →
  match_transaction summary outputs st i t = match_sequential summary outputs st i t.
Proof.
  intros Hok Hk. unfold match_transaction. rewrite decide_False by done.
  by rewrite no_legacy_outputs, andb_false_r.
Qed.

(** How many outputs the first [i] transactions take. *)
Definition outputs_before (txs : list DecodedRailgunTransaction) (i : nat) : nat :=
  length (concat (logged_commitments <$> take i txs)).

Lemma match_rows_sequential summary ts outputs txs pre rest st k :
  Forall output_ok outputs → Forall modern_ok txs → Forall (unshield_fresh outputs) txs →
  outputs = pre ++ rest → em_hash <$> rest = concat (logged_commitments <$> txs) →
  ms_emitted_index st = length pre → Z.of_nat (k + length txs) ≤ u64_max →
  ∃ st' rows, match_rows summary ts outputs st k txs = Ok (st', rows) ∧
    ms_emitted_index st' = length outputs ∧ ms_uses_non_sequential st' = ms_uses_non_sequential st ∧
    ∀ i r, rows !! i = Some r →
      (ip_utxo_tree_out r, ip_utxo_batch_start_position_out r) =
      expected_position outputs (length pre + outputs_before txs i).
Proof.
  intros Hok Hm. revert pre rest st k. induction Hm as [|t txs Ht Hm IH]; intros pre rest st k Hf Ho Hh Hi Hk.
  { cbn in Hh. apply fmap_nil_inv in Hh as ->. rewrite app_nil_r in Ho. subst.
    exists st, []. split_and!; [done|done|done|]. intros i r Hr. by rewrite lookup_nil in Hr. }
  apply Forall_cons in Hf as [Hft Hf]. cbn in Hh. apply fmap_app_inv in Hh as (seg & rest' & Hseg & Hrest & ->).
  destruct (sequential_match summary outputs pre seg rest' t k Ho Hok (eq_sym Hseg) Ht Hft) as (m & Hmatch & Hpos).
  cbn [match_rows]. rewrite match_transaction_modern by (done || apply Ht). unfold match_sequential.
  rewrite Hi, Hmatch. cbn [mbind result_bind]. rewrite Hpos. cbn [mbind result_bind].
  rewrite (try_from_len_fits u64_max k) by (cbn in Hk; lia). cbn [ok_or mbind result_bind].
  destruct (IH (pre ++ seg) rest' (mkMatchState (length (pre ++ seg)) (ms_used_nullifier_groups st)
    (ms_relay_legacy_commitment_offset st) (ms_uses_non_sequential st)) (S k)) as (st' & rows & Hr & Hi' & Hn & Hp);
    [done|by rewrite <- app_assoc|done|done|cbn in *; lia|].
  rewrite Hr. cbn [mbind result_bind]. do 2 eexists. split_and!; [done|done|done|].
  intros [|i] r Hl.
  - injection Hl as <-. unfold make_row, outputs_before. cbn. rewrite Nat.add_0_r. by destruct (expected_position _ _).
  - rewrite (Hp i r Hl). f_equal. unfold outputs_before. cbn. rewrite !length_app, Hseg, length_fmap. lia.
Qed.
End sequential.

(** ** Properties *)

(** Rows are the decoded transactions: whenever
    [public_transactions_from_decoded] succeeds it returns one row per decoded
    transaction, in order, with the transaction's fields and its index. *)
Theorem public_rows_faithful `{TreeCrate} summary ts txs rows :
  public_transactions_from_decoded summary ts txs = Ok rows →
  length rows = length txs ∧
  ∀ i t r, txs !! i = Some t → rows !! i = Some r → row_of summary ts i t r.
Proof.
  unfold public_transactions_from_decoded. intros Hr. apply bind_Ok in Hr as ([st rows'] & Hr & Hif).
  case_match; [done|]. injection Hif as ->. by apply match_rows_faithful in Hr.
Qed.

(** Output positions: when the emitted outputs of an outer transaction are
    exactly the logged commitments of its modern transactions, one after the
    other in tree order, matching succeeds, consumes all of them, and places
    every transaction at its own first output; an unshield-only transaction
    is placed at the next output, after the last one, or at the sentinel
    when there is none. *)
Theorem modern_outputs_positions `{TreeCrate} summary ts txs :
  StronglySorted (λ a b, em_pos a ≤ em_pos b) (su_output_commitments summary) →
  Forall output_ok (su_output_commitments summary) →
  em_hash <$> su_output_commitments summary = concat (logged_commitments <$> txs) →
  Forall modern_ok txs → Forall (unshield_fresh (su_output_commitments summary)) txs →
  Z.of_nat (length txs) ≤ u64_max →
  ∃ rows, public_transactions_from_decoded summary ts txs = Ok rows ∧
    ∀ i r, rows !! i = Some r →
      (ip_utxo_tree_out r, ip_utxo_batch_start_position_out r) =
      expected_position (su_output_commitments summary) (outputs_before txs i).
Proof.
  intros Hs Hok Hh Hm Hf Hlen. unfold public_transactions_from_decoded, sorted_outputs.
  rewrite sort_by_key_id by exact Hs.
  destruct (match_rows_sequential summary ts (su_output_commitments summary) txs [] (su_output_commitments summary)
    (mkMatchState 0 ∅ 0 false) 0) as (st & rows & -> & Hi & Hn & Hp); [done..|].
  cbn [mbind result_bind]. rewrite Hi, bool_decide_true, andb_false_r by done. by exists rows.
Qed.

(** Two transactions, the second unshield-only, on a tree of eight leaves. *)
Definition sample_transaction (commitments : list Z) (unshield : bool) : DecodedRailgunTransaction :=
  mkDecoded KActionLogs [1] commitments 2 unshield None 0 3.
Definition sample_summary : TransactOutputSummary :=
  mkSummary (mkLogSource 10 None 11 12 4) 4 6
    [mkEmitted FTransact 6 0 6 61; mkEmitted FTransact 6 0 7 62] [].

Lemma public_rows_faithful_witness :
  ∃ rows, public_transactions_from_decoded (H := toy_tree) sample_summary 100 [sample_transaction [61; 62] false] = Ok rows ∧
    length rows = 1%nat.
Proof.
  destruct (public_transactions_from_decoded (H := toy_tree) sample_summary 100 [sample_transaction [61; 62] false])
    as [rows|e] eqn:E; [|vm_compute in E; discriminate].
  exists rows. split; [reflexivity|]. exact (proj1 (public_rows_faithful (H := toy_tree) _ _ _ _ E)).
Defined.

Lemma modern_outputs_positions_witness :
  ∃ rows, public_transactions_from_decoded (H := toy_tree) sample_summary 100
    [sample_transaction [61; 62; 70] true; sample_transaction [71] true] = Ok rows ∧
    ∀ r, rows !! 1%nat = Some r → (ip_utxo_tree_out r, ip_utxo_batch_start_position_out r) = (1, 0).
Proof.
  destruct (modern_outputs_positions (H := toy_tree) sample_summary 100
    [sample_transaction [61; 62; 70] true; sample_transaction [71] true]) as (rows & Hr & Hp).
  - repeat constructor; vm_compute; discriminate.
  - repeat constructor; vm_compute; discriminate.
  - reflexivity.
  - repeat constructor; try discriminate; (left; vm_compute; discriminate) || (right; reflexivity).
  - apply Forall_cons; split; [|apply Forall_singleton]; intros c Hc; vm_compute in Hc; injection Hc as <-;
      vm_compute; intros Hin; repeat (apply elem_of_cons in Hin as [Hin|Hin]; [discriminate|]);
      by apply not_elem_of_nil in Hin.
  - vm_compute; discriminate.
  - exists rows. split; [exact Hr|]. intros r Hl. rewrite (Hp _ _ Hl). reflexivity.
Defined.
