(* ===== verification/Calldata.v ===== *)
(** * Railgun calldata ([chain_logs.rs])

    Decoding of the Railgun entry points, the walk over nested calls
    ([collect_nested_railgun_transactions]) and
    [resolve_unshield_commitments], which replaces the unshield commitments
    derived from logs by the committed ones. The ABI decoders are the class
    [CalldataCrate]. *)

From S2P Require Import Prelude Wire Ipfs Artifacts MerkleCheckpointChunk ChainLogs ActionFrames.

(** The ABI structs, as far as this code reads them. *)
Record Transaction := mkTransaction {
  mt_nullifiers : list Z;
  mt_commitments : list Z;
  mt_unshield : Z;
  mt_tree_number : Z;
  mt_bound_params_hash : Z;
  (** [unshieldPreimage.abi_encode()] *)
  mt_unshield_preimage : bytes;
}.

Record LegacyBoundParams := mkLegacyBoundParams {
  lb_tree_number : Z;
  lb_withdraw : Z;
  lb_adapt_contract : Z;
  lb_adapt_params : Z;
  lb_ciphertext : list bytes;
}.
Record LegacyTransaction := mkLegacyTransaction {
  lt_nullifiers : list Z;
  lt_commitments : list Z;
  lt_bound_params : LegacyBoundParams;
  lt_preimage_npk : Z;
  lt_preimage_token : Z * Z * Z;
  lt_preimage_value : Z;
}.

(** A decoded entry point: its transactions and the calldata of its calls. *)
Record EntryCall (T : Type) := mkEntry { entry_transactions : list T; entry_calls : list bytes }.
Arguments mkEntry {_}.
Arguments entry_transactions {_}.
Arguments entry_calls {_}.

Class CalldataCrate := {
  decode_transact_call : bytes → option (list Transaction);
  decode_relay_call : bytes → option (EntryCall Transaction);
  decode_execute_call : bytes → option (EntryCall Transaction);
  decode_execute_7702_call : bytes → option (EntryCall Transaction);
  decode_multicall_7702_call : bytes → option (list bytes);
  decode_multicall_call : bytes → option (list bytes);
  decode_handle_ops_call : bytes → option (list bytes);
  decode_legacy_relay_call : bytes → option (list LegacyTransaction);
  decode_legacy_transact_call : bytes → option (list LegacyTransaction);
  (** [compute_railgun_txid(tx, Some(DEFAULT_TXID_VERSION))] *)
  compute_railgun_txid : Transaction → option Z;
  (** [hash_to_scalar(bound_params.abi_encode())] *)
  legacy_params_scalar : LegacyBoundParams → Z;
  (** ABI encoding of [CommitmentPreimage { npk, token, value }] *)
  preimage_encode : Z → Z * Z * Z → Z → bytes;
}.

Section calldata.
Context `{ContractCrate} `{CalldataCrate}.

(** ** Entry points *)
Definition try_from_modern_transaction (transaction : Transaction) (call_kind : RailgunCallKind)
    : cresult DecodedRailgunTransaction :=
  railgun_txid ← ok_or (compute_railgun_txid transaction) TransactErr;
  let has_unshield := bool_decide (mt_unshield transaction ≠ 0) in
  Ok (mkDecoded call_kind (mt_nullifiers transaction) (mt_commitments transaction)
        (mt_bound_params_hash transaction) has_unshield
        (if has_unshield then Some (mt_unshield_preimage transaction) else None)
        (mt_tree_number transaction) railgun_txid).

Definition legacy_bound_params_hash (bound_params : LegacyBoundParams) : Z := legacy_params_scalar bound_params.

Definition try_from_legacy_transaction_with_kind (transaction : LegacyTransaction) (call_kind : RailgunCallKind)
    : DecodedRailgunTransaction :=
  let bound_params_hash := legacy_bound_params_hash (lt_bound_params transaction) in
  let nullifiers := lt_nullifiers transaction in
  let commitments := lt_commitments transaction in
  let railgun_txid := railgun_txid_parts nullifiers commitments bound_params_hash in
  let has_unshield := bool_decide (lb_withdraw (lt_bound_params transaction) ≠ 0) in
  mkDecoded call_kind nullifiers commitments bound_params_hash has_unshield
    (if has_unshield then
       Some (preimage_encode (lt_preimage_npk transaction) (lt_preimage_token transaction)
               (lt_preimage_value transaction))
     else None)
    (lb_tree_number (lt_bound_params transaction)) railgun_txid.

Definition try_from_legacy_relay_transaction (transaction : LegacyTransaction) : DecodedRailgunTransaction :=
  try_from_legacy_transaction_with_kind transaction KLegacyRelay.
Definition try_from_legacy_transaction (transaction : LegacyTransaction) : DecodedRailgunTransaction :=
  try_from_legacy_transaction_with_kind transaction KLegacyTransact.

Definition decode_railgun_transactions (calldata : bytes) : cresult (option (list DecodedRailgunTransaction)) :=
  match decode_transact_call calldata with
  | Some transactions => Some <$> try_map (λ t, try_from_modern_transaction t KTransact) transactions
  | None =>
  match decode_relay_call calldata with
  | Some call => Some <$> try_map (λ t, try_from_modern_transaction t KRelay) (entry_transactions call)
  | None =>
  match decode_legacy_relay_call calldata with
  | Some transactions => Ok (Some (try_from_legacy_relay_transaction <$> transactions))
  | None =>
  match decode_execute_call calldata with
  | Some call => Some <$> try_map (λ t, try_from_modern_transaction t KExecute) (entry_transactions call)
  | None =>
  match decode_legacy_transact_call calldata with
  | Some transactions => Ok (Some (try_from_legacy_transaction <$> transactions))
  | None => Ok None
  end end end end end.

(** ** Nested calls *)
Definition NESTED_CALLDATA_MAX_DEPTH : nat := 4.

(** The transactions an entry point carries itself and the calldata it
    forwards; [None] for anything else. *)
Definition entry_point (calldata : bytes) : option (list Transaction * list bytes) :=
  match decode_transact_call calldata with
  | Some transactions => Some (transactions, [])
  | None =>
  match decode_relay_call calldata with
  | Some call => Some (entry_transactions call, entry_calls call)
  | None =>
  match decode_execute_call calldata with
  | Some call => Some (entry_transactions call, entry_calls call)
  | None =>
  match decode_execute_7702_call calldata with
  | Some call => Some (entry_transactions call, entry_calls call)
  | None =>
  match decode_multicall_7702_call calldata with
  | Some calls => Some ([], calls)
  | None =>
  match decode_multicall_call calldata with
  | Some calls => Some ([], calls)
  | None =>
  match decode_handle_ops_call calldata with
  | Some calls => Some ([], calls)
  | None => None
  end end end end end end end.

(** The recursion, with fuel; [transactions] is the accumulator. *)
Fixpoint collect_nested_railgun_transactions (fuel : nat) (calldata : bytes) (depth : nat)
    (transactions : list Transaction) : option (list Transaction) :=
  match fuel with
  | O => None
  | S fuel =>
      if decide (NESTED_CALLDATA_MAX_DEPTH < depth)%nat then Some transactions
      else
        match entry_point calldata with
        | None => Some transactions
        | Some (own, nested_calldata) =>
            foldl (λ acc inner, t ← acc; collect_nested_railgun_transactions fuel inner (S depth) t)
              (Some (transactions ++ own)) nested_calldata
        end
  end.

(** From depth 0 six levels of fuel are enough (theorem below). *)
Definition nested_fuel : nat := NESTED_CALLDATA_MAX_DEPTH + 2.
Definition nested_transactions (calldata : bytes) : list Transaction :=
  default [] (collect_nested_railgun_transactions nested_fuel calldata 0 []).

(** ** Unshield commitments *)
Context (transaction_hash block_number : Z).

Definition contradiction (field : string) : ChainLogIngestionError :=
  ContradictingUnshieldCalldata transaction_hash block_number field.

(** [split_last] *)
Definition split_last {A} (l : list A) : option (A * list A) :=
  match last l with Some x => Some (x, removelast l) | None => None end.

(** One unshield row; returns the new row and whether it diverged. *)
Definition resolve_row (decoded : list Transaction) (row : DecodedRailgunTransaction)
    : cresult (DecodedRailgunTransaction * bool) :=
  if decide (dr_nullifiers row = []) then Err (contradiction "nullifiers")
  else
    match filter (λ t, mt_nullifiers t = dr_nullifiers row) decoded with
    | [matched] =>
        if decide (mt_unshield matched = 0) then Err (contradiction "unshield type")
        else if decide (mt_tree_number matched ≠ dr_utxo_tree_in row) then Err (contradiction "tree number")
        else
          match split_last (mt_commitments matched), split_last (dr_commitments row) with
          | Some (committed, accumulated), Some (derived, logged) =>
              if decide (logged ≠ accumulated) then Err (contradiction "commitments")
              else
                let diverged := negb (bool_decide (derived = committed)) in
                let commitments := if diverged then logged ++ [committed] else dr_commitments row in
                let railgun_txid :=
                  if diverged
                  then railgun_txid_from_parts (dr_nullifiers row) commitments (dr_bound_params_hash row)
                  else dr_railgun_txid row in
                Ok (mkDecoded (dr_call_kind row) (dr_nullifiers row) commitments (dr_bound_params_hash row)
                      (dr_has_unshield row) (Some (mt_unshield_preimage matched)) (dr_utxo_tree_in row)
                      railgun_txid, diverged)
          | _, _ => Err (contradiction "commitments")
          end
    | matches => Err (AmbiguousUnshieldCalldata transaction_hash block_number (length matches))
    end.

(** The loop over all rows of all frames, in order. *)
Fixpoint resolve_rows (decoded : list Transaction) (rows : indexed_transactions)
    : cresult (indexed_transactions * nat) :=
  match rows with
  | [] => Ok ([], 0%nat)
  | (k, row) :: rows =>
      '(row, diverged) ← (if dr_has_unshield row then resolve_row decoded row else Ok (row, false));
      '(rows, divergences) ← resolve_rows decoded rows;
      Ok ((k, row) :: rows, (Nat.b2n diverged + divergences)%nat)
  end.
Fixpoint resolve_frames (decoded : list Transaction) (frames : list ActionCallTransactions)
    : cresult (list ActionCallTransactions * nat) :=
  match frames with
  | [] => Ok ([], 0%nat)
  | (log_index, rows) :: frames =>
      '(rows, d) ← resolve_rows decoded rows;
      '(frames, ds) ← resolve_frames decoded frames;
      Ok ((log_index, rows) :: frames, (d + ds)%nat)
  end.

Definition unshield_rows (frames : list ActionCallTransactions) : list DecodedRailgunTransaction :=
  filter (λ t, dr_has_unshield t = true)
    (concat (map (λ f : ActionCallTransactions, map snd (f.2 : indexed_transactions)) frames)).

(** Returns the new frames, the log derivations kept and the divergences. *)
Definition resolve_unshield_commitments (calldata : bytes) (frames : list ActionCallTransactions)
    : cresult (list ActionCallTransactions * (nat * nat)) :=
  let decoded := nested_transactions calldata in
  if decide (decoded = []) then Ok (frames, (length (unshield_rows frames), 0%nat))
  else if existsb (λ t, bool_decide (mt_nullifiers t = [])) decoded then Err (contradiction "nullifiers")
  else
    '(frames, divergences) ← resolve_frames decoded frames;
    Ok (frames, (0%nat, divergences)).
End calldata.

(** ** Termination and reach of the nested walk *)
Section nested.
Context `{CalldataCrate}.

(** The transactions at most [n] calls deep, in depth-first order. *)
Fixpoint reach_list (n : nat) (calldata : bytes) : list Transaction :=
  match entry_point calldata with
  | None => []
  | Some (own, nested) =>
      own ++ match n with O => [] | S n => concat (map (reach_list n) nested) end
  end.

(** Transaction [t] sits in [calldata], at most [n] calls deep. *)
Inductive reaches : nat → bytes → Transaction → Prop :=
  | reaches_own n calldata own nested t :
      entry_point calldata = Some (own, nested) → t ∈ own → reaches n calldata t
  | reaches_nested n calldata own nested inner t :
      entry_point calldata = Some (own, nested) → inner ∈ nested → reaches n inner t →
      reaches (S n) calldata t.

Lemma elem_of_reach_list n calldata t : t ∈ reach_list n calldata ↔ reaches n calldata t.
Proof.
  revert calldata. induction n as [|n IH]; intros calldata; cbn [reach_list];
    destruct (entry_point calldata) as [[own nested]|] eqn:He.
  - rewrite app_nil_r. split; [by econstructor|]. by inversion 1; simplify_eq.
  - rewrite elem_of_nil. split; [done|]. inversion 1; simplify_eq.
  - rewrite elem_of_app, <- flat_map_concat_map, list_elem_of_In, list_elem_of_In, in_flat_map. split.
    + intros [Ho|(inner & Hi & Ht)]; [by eapply reaches_own; [|apply list_elem_of_In]|].
      eapply reaches_nested; [done|by apply list_elem_of_In|]. by apply IH, list_elem_of_In.
    + inversion 1; simplify_eq; [left; by apply list_elem_of_In|right].
      eexists. split; [by apply list_elem_of_In|]. by apply list_elem_of_In, IH.
  - rewrite elem_of_nil. split; [done|]. inversion 1; simplify_eq.
Qed.

Lemma collect_deep fuel calldata acc depth :
  (NESTED_CALLDATA_MAX_DEPTH < depth)%nat → (0 < fuel)%nat →
  collect_nested_railgun_transactions fuel calldata depth acc = Some acc.
Proof. intros Hd Hf. destruct fuel; [lia|]. cbn. by rewrite decide_True. Qed.

Lemma foldl_collect (f : bytes → list Transaction → option (list Transaction)) (g : bytes → list Transaction) l acc :
  (∀ inner acc, f inner acc = Some (acc ++ g inner)) →
  foldl (λ acc inner, t ← acc; f inner t) (Some acc) l = Some (acc ++ concat (map g l)).
Proof.
  intros Hf. revert acc. induction l as [|b l IH]; intros acc; cbn; [by rewrite app_nil_r|].
  by rewrite Hf, IH, <- app_assoc.
Qed.

Lemma collect_reach n fuel calldata acc :
  (n ≤ NESTED_CALLDATA_MAX_DEPTH)%nat → (n + 1 < fuel)%nat →
  collect_nested_railgun_transactions fuel calldata (NESTED_CALLDATA_MAX_DEPTH - n) acc =
  Some (acc ++ reach_list n calldata).
Proof.
  revert fuel calldata acc. induction n as [|n IH]; intros fuel calldata acc Hn Hf;
    (destruct fuel as [|fuel]; [lia|]); cbn [collect_nested_railgun_transactions reach_list];
    (rewrite decide_False by lia); (destruct (entry_point calldata) as [[own nested]|]; [|by rewrite app_nil_r]).
  - rewrite (foldl_collect _ (λ _, [])).
    + rewrite <- app_assoc. do 2 f_equal. by induction nested.
    + intros inner a. rewrite app_nil_r. apply collect_deep; lia.
  - rewrite (foldl_collect _ (reach_list n)); [by rewrite <- app_assoc|].
    intros inner a. replace (S (NESTED_CALLDATA_MAX_DEPTH - S n)) with (NESTED_CALLDATA_MAX_DEPTH - n)%nat by lia.
    apply IH; lia.
Qed.

Lemma nested_transactions_reach calldata :
  nested_transactions calldata = reach_list NESTED_CALLDATA_MAX_DEPTH calldata.
Proof.
  unfold nested_transactions.
  assert (NESTED_CALLDATA_MAX_DEPTH + 1 < nested_fuel)%nat as Hf by (unfold nested_fuel; lia).
  pose proof (collect_reach NESTED_CALLDATA_MAX_DEPTH nested_fuel calldata [] (le_n _) Hf) as Hc.
  rewrite Nat.sub_diag in Hc. by rewrite Hc.
Qed.
End nested.

(** ** Resolution *)
Section resolve.
Context `{ContractCrate} `{CalldataCrate} (transaction_hash block_number : Z).

(** Row [r'] is [r] with the unshield commitment of calldata. *)
Definition resolved (decoded : list Transaction) (r r' : DecodedRailgunTransaction) : Prop :=
  if dr_has_unshield r then
    ∃ matched,
      filter (λ t, mt_nullifiers t = dr_nullifiers r) decoded = [matched] ∧
      mt_unshield matched ≠ 0 ∧ mt_tree_number matched = dr_utxo_tree_in r ∧
      dr_nullifiers r' = dr_nullifiers r ∧ dr_commitments r' = mt_commitments matched ∧
      removelast (dr_commitments r') = removelast (dr_commitments r) ∧
      dr_bound_params_hash r' = dr_bound_params_hash r ∧ dr_has_unshield r' = true ∧
      dr_call_kind r' = dr_call_kind r ∧ dr_utxo_tree_in r' = dr_utxo_tree_in r ∧
      dr_unshield_preimage r' = Some (mt_unshield_preimage matched) ∧
      dr_railgun_txid r' =
        (if decide (dr_commitments r' = dr_commitments r) then dr_railgun_txid r
         else railgun_txid_from_parts (dr_nullifiers r') (dr_commitments r') (dr_bound_params_hash r'))
  else r' = r.

Lemma split_last_Some {A} (l : list A) x l' : split_last l = Some (x, l') → l = l' ++ [x] ∧ l' = removelast l.
Proof.
  unfold split_last. destruct l as [|y l _] using rev_ind; [done|]. rewrite last_snoc, removelast_last.
  by intros [= -> ->].
Qed.

Lemma resolve_row_Ok decoded r r' d :
  dr_has_unshield r = true → resolve_row transaction_hash block_number decoded r = Ok (r', d) →
  resolved decoded r r' ∧ d = negb (bool_decide (dr_commitments r' = dr_commitments r)).
Proof.
  intros Hu. unfold resolve_row, resolved. rewrite Hu. case_decide as Hn; [done|].
  destruct (filter _ decoded) as [|matched [|]] eqn:Hf; [done| |done].
  case_decide as Hz; [done|]. case_decide as Ht; [done|].
  destruct (split_last (mt_commitments matched)) as [[committed accumulated]|] eqn:H1; [|done].
  destruct (split_last (dr_commitments r)) as [[derived logged]|] eqn:H2; [|done].
  apply split_last_Some in H1 as [H1 _], H2 as [H2 _].
  case_decide as Hl; [done|]. subst accumulated. rewrite H2.
  destruct (decide (derived = committed)) as [->|Hne].
  - rewrite bool_decide_true by done. cbn [negb]. intros [= <- <-]. cbn.
    rewrite bool_decide_true, decide_True by done. split; [|done]. exists matched. rewrite H1. by split_and!.
  - assert (logged ++ [committed] ≠ logged ++ [derived]) as Hne' by (intros [_ [=]]%app_inj_2; [done|done]).
    rewrite (bool_decide_false (derived = committed)) by done. cbn [negb]. intros [= <- <-]. cbn.
    rewrite bool_decide_false, decide_False by done. split; [|done]. exists matched. rewrite H1, !removelast_last. by split_and!.
Qed.

(** The rows that change. *)
Definition changed (rows rows' : indexed_transactions) : nat :=
  length (filter (λ p : (nat * DecodedRailgunTransaction) * (nat * DecodedRailgunTransaction),
    dr_commitments p.1.2 ≠ dr_commitments p.2.2) (zip rows rows')).

Lemma resolve_rows_Ok decoded rows rows' d :
  resolve_rows transaction_hash block_number decoded rows = Ok (rows', d) →
  Forall2 (λ r r', r'.1 = r.1 ∧ resolved decoded r.2 r'.2) rows rows' ∧ d = changed rows rows'.
Proof.
  revert rows' d. induction rows as [|[k r] rows IH]; intros rows' d; cbn [resolve_rows].
  { intros [= <- <-]. split; [constructor|done]. }
  intros Hr. apply bind_Ok in Hr as ([r' dv] & Hrow & Hr). apply bind_Ok in Hr as ([rows1 d1] & Hrec & [= <- <-]).
  destruct (IH _ _ Hrec) as [Hf ->].
  assert (resolved decoded r r' ∧ dv = negb (bool_decide (dr_commitments r' = dr_commitments r))) as [Hres ->].
  { destruct (dr_has_unshield r) eqn:Hu; [by apply resolve_row_Ok|]. injection Hrow as <- <-.
    unfold resolved. rewrite Hu, bool_decide_true by done. done. }
  split; [by constructor|]. unfold changed. cbn [zip zip_with]. rewrite filter_cons. cbn [fst snd].
  destruct (decide (dr_commitments r' = dr_commitments r)) as [He|He].
  - rewrite bool_decide_true, decide_False by (done || by intros Hx; apply Hx). done.
  - rewrite bool_decide_false, decide_True by (done || by intros Hx; apply He). done.
Qed.

Lemma resolve_frames_Ok decoded frames frames' d :
  resolve_frames transaction_hash block_number decoded frames = Ok (frames', d) →
  Forall2 (λ f f', f'.1 = f.1 ∧ Forall2 (λ r r', r'.1 = r.1 ∧ resolved decoded r.2 r'.2) f.2 f'.2) frames frames' ∧
  d = sum_list (zip_with (λ f f' : ActionCallTransactions, changed f.2 f'.2) frames frames').
Proof.
  revert frames' d. induction frames as [|[k rows] frames IH]; intros frames' d; cbn [resolve_frames].
  { intros [= <- <-]. split; [constructor|done]. }
  intros Hr. apply bind_Ok in Hr as ([rows' d1] & Hrows & Hr). apply bind_Ok in Hr as ([fs ds] & Hrec & [= <- <-]).
  destruct (IH _ _ Hrec) as [Hf ->]. apply resolve_rows_Ok in Hrows as [Hrows ->].
  split; [constructor; [split|]; done|done].
Qed.
End resolve.

(** ** Properties *)

(** The nested calldata walk terminates with the fuel given and collects,
    in depth-first order, exactly the transactions of known entry points at
    most four calls deep. *)
Theorem nested_transactions_complete `{CalldataCrate} calldata :
  collect_nested_railgun_transactions nested_fuel calldata 0 [] = Some (nested_transactions calldata) ∧
  ∀ t, t ∈ nested_transactions calldata ↔ reaches NESTED_CALLDATA_MAX_DEPTH calldata t.
Proof.
  split; [|intros t; by rewrite nested_transactions_reach, elem_of_reach_list].
  assert (NESTED_CALLDATA_MAX_DEPTH + 1 < nested_fuel)%nat as Hf by (unfold nested_fuel; lia).
  pose proof (collect_reach NESTED_CALLDATA_MAX_DEPTH nested_fuel calldata [] (le_n _) Hf) as Hc.
  rewrite Nat.sub_diag in Hc. by rewrite Hc, nested_transactions_reach.
Qed.

(** C5. Calldata is authoritative for unshields: if some Railgun transaction
    decodes, every unshield row ends up with the commitments, preimage and a
    TXID of the one decoded transaction with its nullifiers, rows without an
    unshield and all record indexes are untouched, and the divergence count
    is the number of rows that changed. If none decodes, nothing changes and
    every unshield row is counted as derived from logs. *)
Theorem resolve_unshield_commitments_spec `{ContractCrate} `{CalldataCrate} transaction_hash block_number
    calldata frames frames' derivations divergences :
  resolve_unshield_commitments transaction_hash block_number calldata frames =
    Ok (frames', (derivations, divergences)) →
  (nested_transactions calldata = [] →
     frames' = frames ∧ derivations = length (unshield_rows frames) ∧ divergences = 0%nat) ∧
  (nested_transactions calldata ≠ [] →
     derivations = 0%nat ∧
     Forall2 (λ f f', f'.1 = f.1 ∧
       Forall2 (λ r r', r'.1 = r.1 ∧ resolved (nested_transactions calldata) r.2 r'.2) f.2 f'.2) frames frames' ∧
     divergences = sum_list (zip_with (λ f f' : ActionCallTransactions, changed f.2 f'.2) frames frames')).
Proof.
  unfold resolve_unshield_commitments. case_decide as Hn.
  - intros [= <- <- <-]. by rewrite Hn.
  - case_match; [done|]. intros Hr. apply bind_Ok in Hr as ([fs ds] & Hr & [= <- <- <-]).
    apply resolve_frames_Ok in Hr as [Hf ->]. done.
Qed.

(** A transact call with one transaction, for evaluation. *)
Definition toy_calldata : CalldataCrate := {|
  decode_transact_call := λ bs, if decide (bs = []) then None else Some [mkTransaction [21] [61; 99] 1 0 5 bs];
  decode_relay_call := λ _, None;
  decode_execute_call := λ _, None;
  decode_execute_7702_call := λ _, None;
  decode_multicall_7702_call := λ _, None;
  decode_multicall_call := λ _, None;
  decode_handle_ops_call := λ _, None;
  decode_legacy_relay_call := λ _, None;
  decode_legacy_transact_call := λ _, None;
  compute_railgun_txid := λ _, Some 1;
  legacy_params_scalar := λ p, lb_tree_number p;
  preimage_encode := λ npk _ value, be_bytes 32 npk ++ be_bytes 32 value;
|}.

Lemma resolve_unshield_commitments_spec_witness :
  ∃ frames', resolve_unshield_commitments (H := toy_contract) (H0 := toy_calldata) 1 2 [Byte.x01]
      [(Some 9, [(0%nat, mkDecoded KActionLogs [21] [61; 98] 5 true None 0 7)])] = Ok (frames', (0%nat, 1%nat)) ∧
    Forall2 (λ f f', f'.1 = f.1 ∧
      Forall2 (λ r r', r'.1 = r.1 ∧
        resolved (H := toy_contract) (nested_transactions (H0 := toy_calldata) [Byte.x01]) r.2 r'.2) f.2 f'.2)
      [(Some 9, [(0%nat, mkDecoded KActionLogs [21] [61; 98] 5 true None 0 7)])] frames'.
Proof.
  destruct (resolve_unshield_commitments (H := toy_contract) (H0 := toy_calldata) 1 2 [Byte.x01]
    [(Some 9, [(0%nat, mkDecoded KActionLogs [21] [61; 98] 5 true None 0 7)])]) as [[frames' [a b]]|e] eqn:E;
    [|vm_compute in E; discriminate].
  exists frames'. assert (a = 0%nat ∧ b = 1%nat) as [-> ->] by (vm_compute in E; by injection E as <- <- <-).
  split; [reflexivity|].
  exact (proj1 (proj2 (proj2 (resolve_unshield_commitments_spec (H := toy_contract) (H0 := toy_calldata)
    _ _ _ _ _ _ _ E) ltac:(discriminate)))).
Defined.
