(* ===== verification/Order.v ===== *)
(** * Total orders ([std::cmp::Ord])

    [TotalCmp] is what the code relies on of [Ord]: [cmp] is a three-way
    comparison that is antisymmetric, transitive and agrees with equality.
    Instances follow the standard library: integers, bytes, lexicographic
    slices and tuples, [None] before [Some]. Sorting by such an order gives
    each multiset one list, so comparing sorted copies compares multisets. *)

From stdpp Require Import sorting.
From S2P Require Import Prelude.

Class TotalCmp (A : Type) := {
  cmp : A → A → comparison;
  cmp_Eq x y : cmp x y = Eq ↔ x = y;
  cmp_opp x y : cmp y x = CompOpp (cmp x y);
  cmp_Lt_trans x y z : cmp x y = Lt → cmp y z = Lt → cmp x z = Lt;
}.

#[export] Program Instance Z_cmp : TotalCmp Z := {| cmp := Z.compare |}.
Next Obligation. intros. apply Z.compare_eq_iff. Qed.
Next Obligation. intros. apply Z.compare_antisym. Qed.
Next Obligation. intros x y z. rewrite !Z.compare_lt_iff. lia. Qed.

Section inj.
Context {A B : Type} `{TotalCmp B} (f : A → B) (f_inj : ∀ x y, f x = f y → x = y).

(** Comparing images under an injection. *)
Program Definition inj_cmp : TotalCmp A := {| cmp x y := cmp (f x) (f y) |}.
Next Obligation. intros x y. rewrite cmp_Eq. split; [apply f_inj|by intros ->]. Qed.
Next Obligation. intros x y. apply cmp_opp. Qed.
Next Obligation. intros x y z. apply cmp_Lt_trans. Qed.
End inj.

Lemma Z_of_byte_inj x y : Z_of_byte x = Z_of_byte y → x = y.
Proof. intros Hxy. by rewrite <- (byte_of_Z_of_byte x), Hxy, byte_of_Z_of_byte. Qed.
#[export] Instance byte_cmp : TotalCmp byte := inj_cmp Z_of_byte Z_of_byte_inj.

Section prod.
Context {A B : Type} `{TotalCmp A} `{TotalCmp B}.

Definition prod_cmp_fun (x y : A * B) : comparison := then_with (cmp x.1 y.1) (cmp x.2 y.2).

#[export] Program Instance prod_cmp : TotalCmp (A * B) := {| cmp := prod_cmp_fun |}.
Next Obligation.
  intros [a b] [a' b']. unfold prod_cmp_fun, then_with. cbn. destruct (cmp a a') eqn:E.
  - apply cmp_Eq in E as ->. rewrite cmp_Eq. naive_solver.
  - split; [done|]. intros [= -> ->]. assert (cmp a' a' = Eq) by by apply cmp_Eq. congruence.
  - split; [done|]. intros [= -> ->]. assert (cmp a' a' = Eq) by by apply cmp_Eq. congruence.
Qed.
Next Obligation.
  intros [a b] [a' b']. unfold prod_cmp_fun, then_with. cbn. rewrite (cmp_opp a a'), (cmp_opp b b').
  by destruct (cmp a a').
Qed.
Next Obligation.
  intros [a b] [a' b'] [a'' b'']. unfold prod_cmp_fun, then_with. cbn.
  destruct (cmp a a') eqn:E1; [|intros _|done]; (destruct (cmp a' a'') eqn:E2; [|intros _|done]).
  - apply cmp_Eq in E1 as ->. rewrite E2. apply cmp_Lt_trans.
  - intros _. apply cmp_Eq in E1 as ->. by rewrite E2.
  - apply cmp_Eq in E2 as ->. by rewrite E1.
  - by rewrite (cmp_Lt_trans _ _ _ E1 E2).
Qed.
End prod.

Section option.
Context {A : Type} `{TotalCmp A}.

Definition option_cmp_fun (x y : option A) : comparison :=
  match x, y with
  | None, None => Eq
  | None, Some _ => Lt
  | Some _, None => Gt
  | Some x, Some y => cmp x y
  end.
#[export] Program Instance option_cmp : TotalCmp (option A) := {| cmp := option_cmp_fun |}.
Next Obligation. intros [x|] [y|]; cbn; rewrite ?cmp_Eq; naive_solver. Qed.
Next Obligation. intros [x|] [y|]; cbn; try done. apply cmp_opp. Qed.
Next Obligation. intros [x|] [y|] [z|]; cbn; try done. apply cmp_Lt_trans. Qed.
End option.

Section list.
Context {A : Type} `{TotalCmp A}.

Fixpoint list_cmp_fun (x y : list A) : comparison :=
  match x, y with
  | [], [] => Eq
  | [], _ :: _ => Lt
  | _ :: _, [] => Gt
  | a :: x, b :: y => then_with (cmp a b) (list_cmp_fun x y)
  end.
#[export] Program Instance list_cmp : TotalCmp (list A) := {| cmp := list_cmp_fun |}.
Next Obligation.
  intros x. induction x as [|a x IH]; intros [|b y]; cbn; try naive_solver. unfold then_with.
  destruct (cmp a b) eqn:E.
  - apply cmp_Eq in E as ->. rewrite IH. naive_solver.
  - split; [done|]. intros [= -> ->]. assert (cmp b b = Eq) by by apply cmp_Eq. congruence.
  - split; [done|]. intros [= -> ->]. assert (cmp b b = Eq) by by apply cmp_Eq. congruence.
Qed.
Next Obligation.
  intros x. induction x as [|a x IH]; intros [|b y]; cbn; try done. unfold then_with.
  rewrite (cmp_opp a b), IH. by destruct (cmp a b).
Qed.
Next Obligation.
  intros x. induction x as [|a x IH]; intros [|b y] [|c z]; cbn; try done. unfold then_with.
  destruct (cmp a b) eqn:E1; [|intros _|done]; (destruct (cmp b c) eqn:E2; [|intros _|done]).
  - apply cmp_Eq in E1 as ->. rewrite E2. apply IH.
  - intros _. apply cmp_Eq in E1 as ->. by rewrite E2.
  - apply cmp_Eq in E2 as ->. by rewrite E1.
  - by rewrite (cmp_Lt_trans _ _ _ E1 E2).
Qed.
End list.

(** [sort_by(|a, b| a.cmp(b))] *)
Section sort.
Context {A : Type} `{TotalCmp A}.

Definition cmp_leb (x y : A) : bool := match cmp x y with Gt => false | _ => true end.
Definition sort_cmp : list A → list A := sort_by cmp_leb.

Lemma cmp_leb_total x y : cmp_leb x y = false → cmp_leb y x = true.
Proof. unfold cmp_leb. rewrite (cmp_opp x y). by destruct (cmp x y). Qed.
Lemma cmp_leb_trans x y z : cmp_leb x y = true → cmp_leb y z = true → cmp_leb x z = true.
Proof.
  unfold cmp_leb. destruct (cmp x y) eqn:E1; [| |done].
  - apply cmp_Eq in E1 as ->. done.
  - destruct (cmp y z) eqn:E2; [| |done]; intros _ _.
    + apply cmp_Eq in E2 as ->. by rewrite E1.
    + by rewrite (cmp_Lt_trans _ _ _ E1 E2).
Qed.
Lemma cmp_leb_antisymm x y : cmp_leb x y = true → cmp_leb y x = true → x = y.
Proof.
  unfold cmp_leb. rewrite (cmp_opp x y). destruct (cmp x y) eqn:E; [by apply cmp_Eq in E|done|done].
Qed.

(** Sorted copies are equal exactly for permutations. *)
Lemma sort_cmp_perm l1 l2 : sort_cmp l1 = sort_cmp l2 ↔ l1 ≡ₚ l2.
Proof.
  split.
  - unfold sort_cmp. intros Hs. by rewrite <- (sort_by_perm cmp_leb l1), <- (sort_by_perm cmp_leb l2), Hs.
  - intros Hp. eapply (StronglySorted_unique_strong (λ a b, cmp_leb a b = true)).
    + intros x y _ _. apply cmp_leb_antisymm.
    + apply sort_by_sorted; [apply cmp_leb_total|apply cmp_leb_trans].
    + apply sort_by_sorted; [apply cmp_leb_total|apply cmp_leb_trans].
    + unfold sort_cmp. by rewrite !sort_by_perm.
Qed.
End sort.

(** Sorting by a key that tells the elements apart. *)
Section sort_key.
Context {A K : Type} `{TotalCmp K} (key : A → K).

Definition sort_cmp_key : list A → list A := sort_by (λ a b, cmp_leb (key a) (key b)).

Lemma sort_cmp_key_sorted l : StronglySorted (λ a b, cmp_leb (key a) (key b) = true) (sort_cmp_key l).
Proof. apply sort_by_sorted; [intros x y; apply cmp_leb_total|intros x y z; apply cmp_leb_trans]. Qed.

Lemma sort_cmp_key_unique l1 l2 : NoDup (key <$> l1) → l1 ≡ₚ l2 → sort_cmp_key l1 = sort_cmp_key l2.
Proof.
  intros Hnd Hp. eapply (StronglySorted_unique_strong (λ a b, cmp_leb (key a) (key b) = true)).
  - intros x y Hx Hy Hxy Hyx. pose proof (cmp_leb_antisymm _ _ Hxy Hyx) as Heq.
    assert (∀ z, z ∈ sort_cmp_key l1 → z ∈ l1) as Hin1 by (intros z; unfold sort_cmp_key; by rewrite sort_by_perm).
    assert (∀ z, z ∈ sort_cmp_key l2 → z ∈ l1) as Hin2 by (intros z; unfold sort_cmp_key; by rewrite sort_by_perm, Hp).
    apply Hin1, list_elem_of_lookup in Hx as [i Hi]. apply Hin2, list_elem_of_lookup in Hy as [j Hj].
    assert (i = j) as ->; [|congruence].
    eapply (NoDup_lookup (key <$> l1)); [done| |]; rewrite list_lookup_fmap; [by rewrite Hi|by rewrite Hj, Heq].
  - apply sort_cmp_key_sorted.
  - apply sort_cmp_key_sorted.
  - unfold sort_cmp_key. by rewrite !sort_by_perm.
Qed.
End sort_key.
