(* ===== verification/PoiStore.v ===== *)
(** * The POI tables of the store ([store.rs])

    The Postgres tables of the POI half of the indexer as finite maps keyed by
    their primary keys, and the queries of [Store] as functions on them. A
    function that takes a [Transaction] works on the uncommitted tables; the
    caller commits. Columns are [BIGINT], so [u64] values pass through
    [u64_to_i64]. Failures of the database connection itself are not
    modelled. *)

From stdpp Require Import pretty.
From S2P Require Import Prelude Order.

Definition i64_max : Z := 2 ^ 63 - 1.

(** The variants of [poi::poi::PoiEventType]. *)
Inductive PoiEventType := Shield | Transact | Unshield | LegacyTransact.
#[export] Instance PoiEventType_dec : EqDecision PoiEventType.
Proof. solve_decision. Defined.

(** The hex crate: [hex::decode] and [hex::encode], on the bytes of a string. *)
Class PoiTypes := {
  hex_decode : bytes → option bytes;
  hex_encode : bytes → bytes;
  hex_roundtrip bs : hex_decode (hex_encode bs) = Some bs;
}.

Inductive StoreError :=
  | Sqlx (message : string)
  | Hex (field : string)
  | HexLength (field : string) (expected actual : nat)
  | IntegerOutOfRange (field value : string)
  | ChainTipRegression (list_key : bytes) (chain_id : Z) (upstream_url : string) (proposed : Z)
  | InvalidEventType (discriminant : Z)
  | PoiEventConflict (chain_id event_index : Z)
  | IncompletePoiEvent (chain_id event_index : Z)
  | InvalidCommitmentFamily (family : string)
  | DuplicateCommitmentTreePosition (tree_number position : Z)
  | CommitmentTreePositionOutOfRange (tree_number actual leaf_count : Z)
  | MissingBlockTimestamp (block_number : Z) (block_hash : bytes)
  | PoiTxidVersionMismatch (configured persisted : string)
  | PoiTxidVersionAdoptionRequired (configured : string).
Notation sresult := (result StoreError).

Definition u64_to_i64 (value : Z) (field : string) : sresult Z :=
  if decide (value ≤ i64_max) then Ok value else Err (IntegerOutOfRange field (pretty value)).
Definition i64_to_u64 (value : Z) (field : string) : sresult Z :=
  if decide (0 ≤ value) then Ok value else Err (IntegerOutOfRange field (pretty value)).

Definition exact_array (n : nat) (field : string) (bs : bytes) : sresult bytes :=
  if decide (length bs = n) then Ok bs else Err (HexLength field n (length bs)).

(** [value.strip_prefix("0x").unwrap_or(value)] *)
Definition strip_0x (value : bytes) : bytes :=
  match value with
  | Byte.x30 :: Byte.x78 :: rest => rest
  | _ => value
  end.
Definition SIGNATURE_BYTES : nat := 64.
Definition BLINDED_COMMITMENT_BYTES : nat := 32.
Definition COMMITMENT_HASH_BYTES : nat := 32.
Definition MERKLEROOT_BYTES : nat := 32.
Definition IPNS_SEQUENCE_STATE_KEY : string := "ipns_last_sequence".
Definition CHAIN_INDEXED_IPNS_SEQUENCE_STATE_KEY : string := "chain_indexed_ipns_last_sequence".

(** ** Rows and tables *)
Record PoiEventRow := mkPoiRow {
  pe_blinded_commitment : bytes;
  pe_signature : bytes;
  pe_event_type : Z;
  pe_event_data_complete : bool;
}.
Record BlockedRow := mkBlockedRow {
  bl_commitment_hash : bytes;
  bl_signature : bytes;
  bl_block_reason : option bytes;
}.
Record PoiDb := mkPoiDb {
  (** (list_key, chain_id, event_index) *)
  poi_events : gmap (Z * Z * Z) PoiEventRow;
  (** (list_key, chain_id, upstream_url) to (last_event_index, last_tip_merkleroot) *)
  chain_tips : gmap (Z * Z * string) (Z * option bytes);
  (** (list_key, chain_id, blinded_commitment) *)
  blocked_shields : gmap (Z * Z * bytes) BlockedRow;
  poi_dataset_identity : option string;
  indexer_state : gmap string Z;
  (** whether some [published_poi_v4_*] table has a row *)
  published_v4 : bool;
}.

Section store.
Context `{PoiTypes}.

Record SignedPoiEvent := mkSignedEvent {
  sp_index : Z;
  sp_blinded_commitment : bytes;
  sp_signature : bytes;
  sp_event_type : PoiEventType;
}.
Record SignedBlockedShield := mkSignedBlocked {
  sb_commitment_hash : bytes;
  sb_blinded_commitment : bytes;
  sb_block_reason : option bytes;
  sb_signature : bytes;
}.
Record StoredEvent := mkStoredEvent {
  se_event_index : Z;
  se_blinded_commitment : bytes;
  se_signature : bytes;
  se_event_type : PoiEventType;
}.
Record StoredBlockedShield := mkStoredBlocked {
  st_commitment_hash : bytes;
  st_blinded_commitment : bytes;
  st_block_reason : option bytes;
  st_signature : bytes;
}.

Definition decode_fixed_hex (n : nat) (field : string) (value : bytes) : sresult bytes :=
  bs ← ok_or (hex_decode (strip_0x value)) (Hex field);
  exact_array n field bs.

(** [hex::encode_prefixed] *)
Definition encode_prefixed (bs : bytes) : bytes := Byte.x30 :: Byte.x78 :: hex_encode bs.

Definition event_type_discriminant (event_type : PoiEventType) : Z :=
  match event_type with Shield => 0 | Transact => 1 | Unshield => 2 | LegacyTransact => 3 end.
Definition event_type_from_discriminant (value : Z) : sresult PoiEventType :=
  match value with
  | 0 => Ok Shield
  | 1 => Ok Transact
  | 2 => Ok Unshield
  | 3 => Ok LegacyTransact
  | _ => Err (InvalidEventType value)
  end.

Definition with_events (db : PoiDb) (m : gmap (Z * Z * Z) PoiEventRow) : PoiDb :=
  mkPoiDb m (chain_tips db) (blocked_shields db) (poi_dataset_identity db) (indexer_state db) (published_v4 db).
Definition with_tips (db : PoiDb) (m : gmap (Z * Z * string) (Z * option bytes)) : PoiDb :=
  mkPoiDb (poi_events db) m (blocked_shields db) (poi_dataset_identity db) (indexer_state db) (published_v4 db).
Definition with_blocked (db : PoiDb) (m : gmap (Z * Z * bytes) BlockedRow) : PoiDb :=
  mkPoiDb (poi_events db) (chain_tips db) m (poi_dataset_identity db) (indexer_state db) (published_v4 db).
Definition with_state (db : PoiDb) (m : gmap string Z) : PoiDb :=
  mkPoiDb (poi_events db) (chain_tips db) (blocked_shields db) (poi_dataset_identity db) m (published_v4 db).

(** ** The identity fence *)
Definition poi_dataset_has_state (db : PoiDb) : bool :=
  negb (bool_decide (poi_events db = ∅)) || negb (bool_decide (blocked_shields db = ∅)) ||
  negb (bool_decide (chain_tips db = ∅)) || published_v4 db ||
  bool_decide (is_Some (indexer_state db !! IPNS_SEQUENCE_STATE_KEY)).

Definition set_poi_txid_version (db : PoiDb) (configured : string) (allow_populated_adoption : bool) : sresult PoiDb :=
  match poi_dataset_identity db with
  | Some persisted =>
      if decide (persisted ≠ configured) then Err (PoiTxidVersionMismatch configured persisted) else Ok db
  | None =>
      if negb allow_populated_adoption && poi_dataset_has_state db
      then Err (PoiTxidVersionAdoptionRequired configured)
      else Ok (mkPoiDb (poi_events db) (chain_tips db) (blocked_shields db) (Some configured)
                 (indexer_state db) (published_v4 db))
  end.
Definition admit_poi_txid_version (db : PoiDb) (configured : string) : sresult PoiDb :=
  set_poi_txid_version db configured false.
Definition adopt_poi_txid_version (db : PoiDb) (configured : string) : sresult PoiDb :=
  set_poi_txid_version db configured true.

(** ** Chain tips *)
Definition last_event_index (db : PoiDb) (list_key chain_id : Z) (upstream_url : string) : sresult (option Z) :=
  chain_id ← u64_to_i64 chain_id "chain_id";
  match chain_tips db !! (list_key, chain_id, upstream_url) with
  | Some (index, _) => Some <$> i64_to_u64 index "last_event_index"
  | None => Ok None
  end.

Definition last_event_index_in_transaction (tx : PoiDb) (list_key chain_id : Z) (upstream_url : string)
    : sresult (option Z) := last_event_index tx list_key chain_id upstream_url.
Record StoredChainTip := mkTip { ct_last_event_index : Z; ct_last_tip_merkleroot : option bytes }.
Definition chain_tip (db : PoiDb) (list_key chain_id : Z) (upstream_url : string) : sresult (option StoredChainTip) :=
  chain_id ← u64_to_i64 chain_id "chain_id";
  match chain_tips db !! (list_key, chain_id, upstream_url) with
  | Some (index, root) =>
      index ← i64_to_u64 index "last_event_index";
      root ← match root with
             | Some root => Some <$> exact_array MERKLEROOT_BYTES "last_tip_merkleroot" root
             | None => Ok None
             end;
      Ok (Some (mkTip index root))
  | None => Ok None
  end.

Definition advance_chain_tip (db : PoiDb) (list_key chain_id : Z) (upstream_url : string)
    (last_event_index : Z) (last_tip_merkleroot : option bytes) : sresult PoiDb :=
  chain_id' ← u64_to_i64 chain_id "chain_id";
  index ← u64_to_i64 last_event_index "last_event_index";
  root ← match last_tip_merkleroot with
         | Some root => Some <$> decode_fixed_hex MERKLEROOT_BYTES "last_tip_merkleroot" root
         | None => Ok None
         end;
  let key := (list_key, chain_id', upstream_url) in
  match chain_tips db !! key with
  | Some (stored, _) =>
      if decide (stored ≤ index) then Ok (with_tips db (<[key := (index, root)]> (chain_tips db)))
      else Err (ChainTipRegression (encode_prefixed (be_bytes 32 list_key)) chain_id upstream_url last_event_index)
  | None => Ok (with_tips db (<[key := (index, root)]> (chain_tips db)))
  end.

(** ** Events *)
Definition insert_event (list_key chain_id_u64 chain_id : Z) (db : PoiDb) (event : SignedPoiEvent) : sresult PoiDb :=
  event_index ← u64_to_i64 (sp_index event) "event_index";
  signature ← decode_fixed_hex SIGNATURE_BYTES "signature" (sp_signature event);
  let key := (list_key, chain_id, event_index) in
  let row := mkPoiRow (sp_blinded_commitment event) signature
               (event_type_discriminant (sp_event_type event)) true in
  let insert := Ok (with_events db (<[key := row]> (poi_events db))) in
  let conflict := Err (PoiEventConflict chain_id_u64 (sp_index event)) in
  match poi_events db !! key with
  | None => insert
  | Some stored =>
      if negb (pe_event_data_complete stored) &&
         bool_decide (pe_blinded_commitment stored = sp_blinded_commitment event)
      then insert
      else if negb (pe_event_data_complete stored) then conflict
      else
        blinded ← exact_array BLINDED_COMMITMENT_BYTES "blinded_commitment" (pe_blinded_commitment stored);
        if decide (blinded ≠ sp_blinded_commitment event) then conflict
        else
          stored_signature ← exact_array SIGNATURE_BYTES "signature" (pe_signature stored);
          if decide (stored_signature = signature ∧
                     pe_event_type stored = event_type_discriminant (sp_event_type event))
          then Ok db else conflict
  end.

Definition insert_events (db : PoiDb) (list_key chain_id : Z) (events : list SignedPoiEvent) : sresult PoiDb :=
  chain_id' ← u64_to_i64 chain_id "chain_id";
  try_fold (insert_event list_key chain_id chain_id') db events.

Definition rows_of (db : PoiDb) (list_key chain_id : Z) : list (Z * PoiEventRow) :=
  omap (λ kv : (Z * Z * Z) * PoiEventRow,
    if decide (kv.1.1 = (list_key, chain_id)) then Some (kv.1.2, kv.2) else None)
    (map_to_list (poi_events db)).

Definition first_incomplete_event_index (db : PoiDb) (list_key chain_id : Z) : sresult (option Z) :=
  chain_id ← u64_to_i64 chain_id "chain_id";
  match head (sort_by_key fst (filter (λ r, pe_event_data_complete r.2 = false) (rows_of db list_key chain_id))) with
  | Some (index, _) => Some <$> i64_to_u64 index "incomplete_event_index"
  | None => Ok None
  end.

Definition insert_event_leaf (list_key chain_id_u64 chain_id start_index : Z) (st : PoiDb * nat) (leaf : Z)
    : sresult (PoiDb * nat) :=
  let '(db, offset) := st in
  absolute ← ok_or (checked_add u64_max start_index (Z.of_nat offset))
    (IntegerOutOfRange "event_index" (pretty start_index +:+ "+" +:+ pretty offset));
  event_index ← u64_to_i64 absolute "event_index";
  let blinded := be_bytes BLINDED_COMMITMENT_BYTES leaf in
  let key := (list_key, chain_id, event_index) in
  match poi_events db !! key with
  | None =>
      Ok (with_events db (<[key := mkPoiRow blinded (replicate SIGNATURE_BYTES Byte.x00)
                                    (event_type_discriminant Shield) false]> (poi_events db)), S offset)
  | Some stored =>
      commitment ← exact_array BLINDED_COMMITMENT_BYTES "blinded_commitment" (pe_blinded_commitment stored);
      if decide (commitment ≠ blinded) then Err (PoiEventConflict chain_id_u64 absolute)
      else Ok (db, S offset)
  end.
Definition insert_event_leaves (db : PoiDb) (list_key chain_id start_index : Z) (leaves : list Z) : sresult PoiDb :=
  chain_id' ← u64_to_i64 chain_id "chain_id";
  fst <$> try_fold (insert_event_leaf list_key chain_id chain_id' start_index) (db, 0%nat) leaves.

Definition stored_event (r : Z * PoiEventRow) : sresult StoredEvent :=
  event_index ← i64_to_u64 r.1 "event_index";
  blinded ← exact_array BLINDED_COMMITMENT_BYTES "blinded_commitment" (pe_blinded_commitment r.2);
  signature ← exact_array SIGNATURE_BYTES "signature" (pe_signature r.2);
  event_type ← event_type_from_discriminant (pe_event_type r.2);
  Ok (mkStoredEvent event_index blinded signature event_type).

Definition page_event_range_with_completeness (db : PoiDb) (list_key chain_id start_index end_index : Z)
    (require_complete : bool) : sresult (list StoredEvent) :=
  chain_id' ← u64_to_i64 chain_id "chain_id";
  start_index ← u64_to_i64 start_index "start_index";
  end_index ← u64_to_i64 end_index "end_index";
  let rows := sort_by_key fst (filter (λ r, start_index ≤ r.1 ≤ end_index) (rows_of db list_key chain_id')) in
  match (if require_complete then head (filter (λ r, pe_event_data_complete r.2 = false) rows) else None) with
  | Some row =>
      index ← i64_to_u64 row.1 "event_index";
      Err (IncompletePoiEvent chain_id index)
  | None => try_map stored_event rows
  end.
Definition page_event_range (db : PoiDb) (list_key chain_id start_index end_index : Z) : sresult (list StoredEvent) :=
  page_event_range_with_completeness db list_key chain_id start_index end_index true.
Definition page_event_range_for_hydration (db : PoiDb) (list_key chain_id start_index end_index : Z)
    : sresult (list StoredEvent) :=
  page_event_range_with_completeness db list_key chain_id start_index end_index false.

(** ** Blocked shields *)
Definition upsert_blocked_shield (list_key chain_id : Z) (db : PoiDb) (record : SignedBlockedShield) : sresult PoiDb :=
  commitment_hash ← decode_fixed_hex COMMITMENT_HASH_BYTES "commitment_hash" (sb_commitment_hash record);
  blinded ← decode_fixed_hex BLINDED_COMMITMENT_BYTES "blinded_commitment" (sb_blinded_commitment record);
  signature ← decode_fixed_hex SIGNATURE_BYTES "signature" (sb_signature record);
  Ok (with_blocked db (<[(list_key, chain_id, blinded) :=
    mkBlockedRow commitment_hash signature (sb_block_reason record)]> (blocked_shields db))).
Definition upsert_blocked_shields (db : PoiDb) (list_key chain_id : Z) (records : list SignedBlockedShield)
    : sresult PoiDb :=
  chain_id ← u64_to_i64 chain_id "chain_id";
  try_fold (upsert_blocked_shield list_key chain_id) db records.

Definition replace_blocked_shields (db : PoiDb) (list_key chain_id : Z) (records : list SignedBlockedShield)
    : sresult PoiDb :=
  chain_id_i64 ← u64_to_i64 chain_id "chain_id";
  let db := with_blocked db
    (filter (λ kv : (Z * Z * bytes) * BlockedRow, kv.1.1 ≠ (list_key, chain_id_i64)) (blocked_shields db)) in
  upsert_blocked_shields db list_key chain_id records.

Definition blocked_rows_of (db : PoiDb) (list_key chain_id : Z) : list (bytes * BlockedRow) :=
  omap (λ kv : (Z * Z * bytes) * BlockedRow,
    if decide (kv.1.1 = (list_key, chain_id)) then Some (kv.1.2, kv.2) else None)
    (map_to_list (blocked_shields db)).

Definition stored_blocked (r : bytes * BlockedRow) : sresult StoredBlockedShield :=
  commitment_hash ← exact_array COMMITMENT_HASH_BYTES "commitment_hash" (bl_commitment_hash r.2);
  blinded ← exact_array BLINDED_COMMITMENT_BYTES "blinded_commitment" r.1;
  signature ← exact_array SIGNATURE_BYTES "signature" (bl_signature r.2);
  Ok (mkStoredBlocked commitment_hash blinded (bl_block_reason r.2) signature).

(** [ORDER BY blinded_commitment ASC] *)
Definition all_blocked_shields (db : PoiDb) (list_key chain_id : Z) : sresult (list StoredBlockedShield) :=
  chain_id ← u64_to_i64 chain_id "chain_id";
  try_map stored_blocked (sort_by (λ a b, cmp_leb a.1 b.1) (blocked_rows_of db list_key chain_id)).

(** ** Publication sequences *)
Definition last_state_sequence (db : PoiDb) (key field : string) : sresult (option Z) :=
  match indexer_state db !! key with
  | Some value => Some <$> i64_to_u64 value field
  | None => Ok None
  end.
Definition record_state_sequence (db : PoiDb) (key field : string) (sequence : Z) : sresult PoiDb :=
  sequence ← u64_to_i64 sequence field;
  let value := match indexer_state db !! key with Some v => Z.max v sequence | None => sequence end in
  Ok (with_state db (<[key := value]> (indexer_state db))).
Definition last_ipns_sequence (db : PoiDb) : sresult (option Z) :=
  last_state_sequence db IPNS_SEQUENCE_STATE_KEY "ipns_last_sequence".
Definition record_ipns_sequence (db : PoiDb) (sequence : Z) : sresult PoiDb :=
  record_state_sequence db IPNS_SEQUENCE_STATE_KEY "ipns_last_sequence" sequence.
Definition last_chain_indexed_ipns_sequence (db : PoiDb) : sresult (option Z) :=
  last_state_sequence db CHAIN_INDEXED_IPNS_SEQUENCE_STATE_KEY "chain_indexed_ipns_last_sequence".
Definition record_chain_indexed_ipns_sequence (db : PoiDb) (sequence : Z) : sresult PoiDb :=
  record_state_sequence db CHAIN_INDEXED_IPNS_SEQUENCE_STATE_KEY "chain_indexed_ipns_last_sequence" sequence.

(** [value + 1] on a [BIGINT] fails when it overflows. *)
Definition reserve_poi_publication_sequence (db : PoiDb) (minimum_sequence : Z) : sresult (Z * PoiDb) :=
  minimum_sequence ← u64_to_i64 minimum_sequence "poi_publication_sequence";
  value ← match indexer_state db !! IPNS_SEQUENCE_STATE_KEY with
          | Some v => if decide (v + 1 ≤ i64_max) then Ok (Z.max (v + 1) minimum_sequence)
                      else Err (Sqlx "bigint out of range")
          | None => Ok minimum_sequence
          end;
  sequence ← i64_to_u64 value "poi_publication_sequence";
  Ok (sequence, with_state db (<[IPNS_SEQUENCE_STATE_KEY := value]> (indexer_state db))).
End store.

(** ** Events are append-only *)
Section append_only.
Context `{PoiTypes}.

(** The row an event is stored as. *)
Definition event_row (e : SignedPoiEvent) (signature : bytes) : PoiEventRow :=
  mkPoiRow (sp_blinded_commitment e) signature (event_type_discriminant (sp_event_type e)) true.

(** [row'] may replace [row]: complete rows never change, incomplete ones keep
    their commitment. *)
Definition row_extends (row row' : PoiEventRow) : Prop :=
  pe_blinded_commitment row' = pe_blinded_commitment row ∧
  (pe_event_data_complete row = true → row' = row).
Definition events_extend (m m' : gmap (Z * Z * Z) PoiEventRow) : Prop :=
  ∀ k row, m !! k = Some row → ∃ row', m' !! k = Some row' ∧ row_extends row row'.

Lemma events_extend_refl m : events_extend m m.
Proof. intros k row Hk. exists row. by repeat split. Qed.
Lemma events_extend_trans m1 m2 m3 : events_extend m1 m2 → events_extend m2 m3 → events_extend m1 m3.
Proof.
  intros H12 H23 k row Hk. destruct (H12 k row Hk) as (r2 & H2 & Hb2 & Hc2).
  destruct (H23 k r2 H2) as (r3 & H3 & Hb3 & Hc3). exists r3. split; [done|]. split; [congruence|].
  intros Hc. specialize (Hc2 Hc). subst r2. by apply Hc3.
Qed.

Lemma u64_to_i64_Ok v field w : u64_to_i64 v field = Ok w ↔ v ≤ i64_max ∧ w = v.
Proof. unfold u64_to_i64. case_decide; naive_solver. Qed.

Lemma exact_array_Ok n field bs v : exact_array n field bs = Ok v ↔ length bs = n ∧ v = bs.
Proof. unfold exact_array. case_decide; naive_solver. Qed.

Lemma insert_event_Ok list_key chain_id_u64 chain_id db e db' :
  insert_event list_key chain_id_u64 chain_id db e = Ok db' →
  ∃ signature, decode_fixed_hex SIGNATURE_BYTES "signature" (sp_signature e) = Ok signature ∧
    sp_index e ≤ i64_max ∧
    db' = with_events db (<[(list_key, chain_id, sp_index e) := event_row e signature]> (poi_events db)) ∧
    events_extend (poi_events db) (poi_events db').
Proof.
  unfold insert_event. intros Hr. apply bind_Ok in Hr as (ix & [Hix ->]%u64_to_i64_Ok & Hr).
  apply bind_Ok in Hr as (sg & Hsg & Hr). exists sg. split; [done|]. split; [done|].
  fold (event_row e sg) in Hr. set (key := (list_key, chain_id, sp_index e)) in *.
  assert (∀ stored, poi_events db !! key = Some stored → row_extends stored (event_row e sg) →
    events_extend (poi_events db) (<[key := event_row e sg]> (poi_events db))) as Hext.
  { intros stored Hs Hrow k row Hk. destruct (decide (k = key)) as [->|Hne].
    - rewrite Hs in Hk. injection Hk as <-. exists (event_row e sg). by rewrite lookup_insert_eq.
    - exists row. rewrite lookup_insert_ne by done. by repeat split. }
  destruct (poi_events db !! key) as [stored|] eqn:Hs.
  - specialize (Hext _ eq_refl). destruct (pe_event_data_complete stored) eqn:Hc; cbn [negb andb] in Hr.
    + apply bind_Ok in Hr as (bl & [_ ->]%exact_array_Ok & Hr). case_decide as Hbl; [done|].
      apply bind_Ok in Hr as (ss & [_ ->]%exact_array_Ok & Hr). case_decide as Heq; [|done].
      injection Hr as <-. destruct Heq as [Hsig Hty].
      assert (stored = event_row e sg) as -> by (destruct stored; cbn in *; unfold event_row; congruence).
      rewrite insert_id by done. split; [by destruct db|apply events_extend_refl].
    + case_bool_decide as Hb; [|done]. injection Hr as <-. split; [done|]. apply Hext. split; [done|]. by rewrite Hc.
  - injection Hr as <-. split; [done|]. intros k row Hk. exists row. cbn.
    rewrite lookup_insert_ne by (intros <-; congruence). by repeat split.
Qed.

(** The state an insertion of [events] reaches. *)
Definition holds_event (m : gmap (Z * Z * Z) PoiEventRow) (list_key chain_id : Z) (e : SignedPoiEvent) : Prop :=
  ∃ signature, decode_fixed_hex SIGNATURE_BYTES "signature" (sp_signature e) = Ok signature ∧
    m !! (list_key, chain_id, sp_index e) = Some (event_row e signature).

Lemma holds_event_extend m m' list_key chain_id e :
  events_extend m m' → holds_event m list_key chain_id e → holds_event m' list_key chain_id e.
Proof.
  intros Hm (sg & Hsg & Hl). exists sg. split; [done|].
  destruct (Hm _ _ Hl) as (row' & Hl' & _ & Hc). by rewrite Hl', (Hc eq_refl).
Qed.

Lemma insert_events_fold list_key chain_id_u64 chain_id events db db' :
  try_fold (insert_event list_key chain_id_u64 chain_id) db events = Ok db' →
  db' = with_events db (poi_events db') ∧ events_extend (poi_events db) (poi_events db') ∧
  Forall (holds_event (poi_events db') list_key chain_id) events ∧
  Forall (λ e, sp_index e ≤ i64_max) events ∧
  ∀ k, (∀ e, e ∈ events → k ≠ (list_key, chain_id, sp_index e)) → poi_events db' !! k = poi_events db !! k.
Proof.
  revert db. induction events as [|e events IH]; intros db; cbn [try_fold].
  - intros [= <-]. split_and!; [by destruct db|apply events_extend_refl|constructor|constructor|done].
  - rewrite bind_Ok. intros (db1 & H1 & H2). apply insert_event_Ok in H1 as (sg & Hsg & Hix & Hdb1 & Hext).
    destruct (IH db1 H2) as (Hdb' & Hext' & Hall & Hixs & Hother).
    split; [by rewrite Hdb', Hdb1|]. split; [by eapply events_extend_trans|].
    split; [constructor; [|done]|split; [by constructor|]].
    + eapply holds_event_extend; [exact Hext'|]. exists sg. split; [done|]. rewrite Hdb1. cbn. by rewrite lookup_insert_eq.
    + intros k Hk. rewrite Hother by (intros e' He'; apply Hk; by right).
      rewrite Hdb1. cbn. rewrite lookup_insert_ne; [done|]. intros <-. by apply (Hk e); [left|].
Qed.
End append_only.

(** ** Reading the event log *)
Section reading.
Context `{PoiTypes}.

Lemma elem_of_rows_of db list_key chain_id i row :
  (i, row) ∈ rows_of db list_key chain_id ↔ poi_events db !! (list_key, chain_id, i) = Some row.
Proof.
  unfold rows_of. rewrite list_elem_of_omap. setoid_rewrite <- elem_of_map_to_list. split.
  - intros ([[[lk c] j] r] & Hin & Hif). cbn in Hif. case_decide as Hk; [|done]. by simplify_eq.
  - intros Hin. exists ((list_key, chain_id, i), row). cbn. by rewrite decide_True.
Qed.

Lemma NoDup_rows_of db list_key chain_id (P : Z * PoiEventRow → Prop) `{!∀ r, Decision (P r)} :
  NoDup (filter P (rows_of db list_key chain_id)).*1.
Proof.
  apply (NoDup_fmap_2_strong fst).
  - intros [i r] [j r'] [_ Hi]%list_elem_of_filter [_ Hj]%list_elem_of_filter Heq. cbn in Heq. subst j.
    apply elem_of_rows_of in Hi, Hj. by simplify_eq.
  - apply NoDup_filter. unfold rows_of. generalize (NoDup_map_to_list (poi_events db)).
    generalize (map_to_list (poi_events db)). intros l Hl. induction Hl as [|[[[lk c] i] r] l Hx Hl IH]; cbn; [constructor|].
    case_decide as Hk; [|done]. apply NoDup_cons. split; [|done].
    intros ([[[lk' c'] i'] r'] & Hin & Hif)%list_elem_of_omap. cbn in Hif. case_decide; [|done]. cbn in *. by simplify_eq.
Qed.

(** The first incomplete index is the least of them. *)
Lemma first_incomplete_spec db list_key chain_id :
  chain_id ≤ i64_max →
  (∀ i row, poi_events db !! (list_key, chain_id, i) = Some row → 0 ≤ i) →
  match first_incomplete_event_index db list_key chain_id with
  | Ok (Some i) =>
      (∃ row, poi_events db !! (list_key, chain_id, i) = Some row ∧ pe_event_data_complete row = false) ∧
      ∀ j row, poi_events db !! (list_key, chain_id, j) = Some row → j < i → pe_event_data_complete row = true
  | Ok None => ∀ j row, poi_events db !! (list_key, chain_id, j) = Some row → pe_event_data_complete row = true
  | Err _ => False
  end.
Proof.
  intros Hc Hpos. unfold first_incomplete_event_index. rewrite (proj2 (u64_to_i64_Ok chain_id _ _)) by done. cbn.
  set (P := λ r : Z * PoiEventRow, pe_event_data_complete r.2 = false).
  pose proof (sort_by_key_sorted fst (filter P (rows_of db list_key chain_id))) as Hsort.
  assert (∀ j row, (j, row) ∈ sort_by_key fst (filter P (rows_of db list_key chain_id)) ↔
    poi_events db !! (list_key, chain_id, j) = Some row ∧ pe_event_data_complete row = false) as Hin.
  { intros j row. rewrite sort_by_key_perm, list_elem_of_filter, elem_of_rows_of. unfold P. cbn. naive_solver. }
  destruct (sort_by_key _ _) as [|[i row] rest]; cbn [head].
  - intros j row Hj. apply not_false_is_true. intros Hf. by apply (not_elem_of_nil (j, row)), Hin.
  - assert (poi_events db !! (list_key, chain_id, i) = Some row ∧ pe_event_data_complete row = false) as [Hi Hf]
      by (apply Hin; by left).
    unfold i64_to_u64. rewrite decide_True by by eapply Hpos. cbn. split; [by exists row|].
    intros j r Hj Hlt. apply not_false_is_true. intros Hfj.
    assert ((j, r) ∈ (i, row) :: rest) as Hjin by by apply Hin.
    apply elem_of_cons in Hjin as [[= -> ->]|Hjin]; [lia|].
    apply StronglySorted_inv in Hsort as [_ Hall]. rewrite Forall_forall in Hall.
    apply Hall in Hjin. cbn in Hjin. lia.
Qed.

Lemma last_event_index_Ok db list_key chain_id url t :
  last_event_index db list_key chain_id url = Ok t →
  t = fst <$> chain_tips db !! (list_key, chain_id, url).
Proof.
  unfold last_event_index. intros Hr. apply bind_Ok in Hr as (c & [_ ->]%u64_to_i64_Ok & Hr).
  destruct (chain_tips db !! _) as [[i r]|]; cbn in *; [|by injection Hr].
  unfold i64_to_u64 in Hr. case_decide; [|done]. by injection Hr.
Qed.

Lemma advance_chain_tip_Ok db list_key chain_id url index root db' :
  advance_chain_tip db list_key chain_id url index root = Ok db' →
  ∃ root', chain_id ≤ i64_max ∧ index ≤ i64_max ∧
    (∀ i r, chain_tips db !! (list_key, chain_id, url) = Some (i, r) → i ≤ index) ∧
    db' = with_tips db (<[(list_key, chain_id, url) := (index, root')]> (chain_tips db)).
Proof.
  unfold advance_chain_tip. intros Hr. apply bind_Ok in Hr as (c & [? ->]%u64_to_i64_Ok & Hr).
  apply bind_Ok in Hr as (ix & [? ->]%u64_to_i64_Ok & Hr). apply bind_Ok in Hr as (root' & _ & Hr).
  exists root'. split_and!; [done..| |]; destruct (chain_tips db !! _) as [[i r]|]; try case_decide; naive_solver.
Qed.
End reading.

(** ** Replacing blocked shields *)
Section blocked.
Context `{PoiTypes}.

(** The row a record is stored as, with the blinded commitment of its key. *)
Definition blocked_row (record : SignedBlockedShield) : option (bytes * BlockedRow) :=
  match decode_fixed_hex COMMITMENT_HASH_BYTES "commitment_hash" (sb_commitment_hash record),
        decode_fixed_hex BLINDED_COMMITMENT_BYTES "blinded_commitment" (sb_blinded_commitment record),
        decode_fixed_hex SIGNATURE_BYTES "signature" (sb_signature record) with
  | Ok h, Ok b, Ok sg => Some (b, mkBlockedRow h sg (sb_block_reason record))
  | _, _, _ => None
  end.

(** The last of [rows] under a key. *)
Definition last_row (rows : list (bytes * BlockedRow)) (b : bytes) : option BlockedRow :=
  snd <$> last (filter (λ r, r.1 = b) rows).

Lemma upsert_blocked_shield_Ok list_key chain_id db record db' :
  upsert_blocked_shield list_key chain_id db record = Ok db' ↔
  ∃ b row, blocked_row record = Some (b, row) ∧
    db' = with_blocked db (<[(list_key, chain_id, b) := row]> (blocked_shields db)).
Proof.
  unfold upsert_blocked_shield, blocked_row.
  destruct (decode_fixed_hex _ "commitment_hash" _) as [h|]; [|naive_solver].
  destruct (decode_fixed_hex _ "blinded_commitment" _) as [b|]; [|naive_solver].
  destruct (decode_fixed_hex _ "signature" _) as [sg|]; cbn; naive_solver.
Qed.

Lemma last_row_snoc rows r b :
  last_row (rows ++ [r]) b = if decide (r.1 = b) then Some r.2 else last_row rows b.
Proof.
  unfold last_row. rewrite filter_app, filter_cons, filter_nil. case_decide; [by rewrite last_snoc|by rewrite app_nil_r].
Qed.

Lemma upsert_fold_Ok list_key chain_id records db db' :
  try_fold (upsert_blocked_shield list_key chain_id) db records = Ok db' →
  db' = with_blocked db (blocked_shields db') ∧
  ∃ rows, Forall2 (λ record r, blocked_row record = Some r) records rows ∧
    (∀ b, blocked_shields db' !! (list_key, chain_id, b) =
       match last_row rows b with Some row => Some row | None => blocked_shields db !! (list_key, chain_id, b) end) ∧
    (∀ k, k.1 ≠ (list_key, chain_id) → blocked_shields db' !! k = blocked_shields db !! k).
Proof.
  revert db'. induction records as [|record records IH] using rev_ind; intros db'.
  - intros [= <-]. split; [by destruct db|]. exists []. by split_and!.
  - rewrite try_fold_app, bind_Ok. intros (db1 & H1 & H2). cbn in H2.
    apply bind_Ok in H2 as (db2 & (b & row & Hrow & ->)%upsert_blocked_shield_Ok & [= <-]).
    destruct (IH db1 H1) as (Hdb1 & rows & Hrows & Hpair & Hother). split; [by rewrite Hdb1|].
    exists (rows ++ [(b, row)]). split_and!.
    + apply Forall2_app; [done|by constructor].
    + intros b'. cbn. rewrite last_row_snoc. cbn. case_decide as Hb.
      * subst b'. by rewrite lookup_insert_eq.
      * rewrite lookup_insert_ne by congruence. apply Hpair.
    + intros k Hk. cbn. rewrite lookup_insert_ne by (intros <-; by cbn in Hk). by apply Hother.
Qed.
End blocked.

(** ** Properties *)

(** Replacing the blocked shields of a pair stores exactly the given
    records: a commitment of the pair is blocked iff some record decodes to
    it, with the data of the last such record; every record decodes, and rows
    of other pairs and all other tables are untouched. *)
Theorem replace_blocked_shields_exact `{PoiTypes} db list_key chain_id records db' :
  replace_blocked_shields db list_key chain_id records = Ok db' →
  db' = with_blocked db (blocked_shields db') ∧
  ∃ rows, Forall2 (λ record r, blocked_row record = Some r) records rows ∧
    (∀ b, blocked_shields db' !! (list_key, chain_id, b) = last_row rows b) ∧
    (∀ k, k.1 ≠ (list_key, chain_id) → blocked_shields db' !! k = blocked_shields db !! k).
Proof.
  unfold replace_blocked_shields, upsert_blocked_shields. intros Hr.
  apply bind_Ok in Hr as (c & [_ ->]%u64_to_i64_Ok & Hr). apply bind_Ok in Hr as (c & [_ ->]%u64_to_i64_Ok & Hr).
  apply upsert_fold_Ok in Hr as (Hdb & rows & Hrows & Hpair & Hother). split; [by rewrite Hdb|]. exists rows.
  split_and!; [done| |].
  - intros b. rewrite Hpair. destruct (last_row rows b); [done|]. cbn. apply map_lookup_filter_None_2. right.
    by intros row _ Hne.
  - intros k Hk. rewrite Hother by done. cbn. destruct (blocked_shields db !! k) as [row|] eqn:Ek.
    + by apply map_lookup_filter_Some_2.
    + apply map_lookup_filter_None_2. by left.
Qed.

(** The event log is append-only: an accepted batch of events is stored
    completely, no complete row changes and no row changes its commitment,
    rows of other indexes, lists and chains and all other tables are
    untouched. *)
Theorem insert_events_append_only `{PoiTypes} db list_key chain_id events db' :
  insert_events db list_key chain_id events = Ok db' →
  events_extend (poi_events db) (poi_events db') ∧
  Forall (holds_event (poi_events db') list_key chain_id) events ∧
  (∀ k, (∀ e, e ∈ events → k ≠ (list_key, chain_id, sp_index e)) → poi_events db' !! k = poi_events db !! k) ∧
  db' = with_events db (poi_events db').
Proof.
  unfold insert_events. intros Hr. apply bind_Ok in Hr as (c & [_ ->]%u64_to_i64_Ok & Hr).
  apply insert_events_fold in Hr as (? & ? & ? & ? & ?). by split_and!.
Qed.

Section read_back.
Context `{PoiTypes}.

Lemma stored_event_row e signature :
  0 ≤ sp_index e → length (sp_blinded_commitment e) = BLINDED_COMMITMENT_BYTES →
  decode_fixed_hex SIGNATURE_BYTES "signature" (sp_signature e) = Ok signature →
  stored_event (sp_index e, event_row e signature) =
  Ok (mkStoredEvent (sp_index e) (sp_blinded_commitment e) signature (sp_event_type e)).
Proof.
  intros Hi Hb Hs. unfold decode_fixed_hex in Hs. apply bind_Ok in Hs as (bs & _ & [Hl ->]%exact_array_Ok).
  unfold stored_event, i64_to_u64, exact_array. rewrite decide_True by done. cbn [mbind result_bind fst snd].
  unfold event_row. cbn [pe_blinded_commitment pe_signature pe_event_type].
  rewrite decide_True by done. cbn [mbind result_bind]. rewrite decide_True by done. by destruct (sp_event_type e).
Qed.

(** What a range query reads. *)
Lemma page_event_range_Ok db list_key chain_id start end_index es :
  page_event_range db list_key chain_id start end_index = Ok es →
  StronglySorted (λ a b, a.1 ≤ b.1)
    (sort_by_key fst (filter (λ r, start ≤ r.1 ≤ end_index) (rows_of db list_key chain_id))) ∧
  Forall2 (λ r e, stored_event r = Ok e ∧ pe_event_data_complete r.2 = true)
    (sort_by_key fst (filter (λ r, start ≤ r.1 ≤ end_index) (rows_of db list_key chain_id))) es.
Proof.
  unfold page_event_range, page_event_range_with_completeness. intros Hr.
  apply bind_Ok in Hr as (c & [_ ->]%u64_to_i64_Ok & Hr). apply bind_Ok in Hr as (st & [_ ->]%u64_to_i64_Ok & Hr).
  apply bind_Ok in Hr as (en & [_ ->]%u64_to_i64_Ok & Hr). split; [apply sort_by_key_sorted|]. cbv zeta in Hr.
  set (rows := sort_by_key _ _) in *.
  destruct (filter (λ r : Z * PoiEventRow, pe_event_data_complete r.2 = false) rows) as [|r rest] eqn:Hf; cbn [head] in Hr;
    [|by destruct (i64_to_u64 _ _)].
  assert (∀ r, r ∈ rows → pe_event_data_complete r.2 = true) as Hc.
  { intros r Hin. apply not_false_is_true. intros Hr'. apply (not_elem_of_nil r). rewrite <- Hf. by apply list_elem_of_filter. }
  apply try_map_Ok in Hr. apply Forall2_same_length_lookup_2; [by eapply Forall2_length|].
  intros i r e Hi He. split; [exact (Forall2_lookup_lr _ _ _ _ _ _ Hr Hi He)|]. apply Hc. by eapply list_elem_of_lookup_2.
Qed.
End read_back.

(** Events read back: after an accepted batch, a range query over stored
    complete events returns rows in strictly ascending index order, and every
    event of the batch in the range with its decoded signature and type. *)
Theorem events_read_back `{PoiTypes} db list_key chain_id events db' start end_index es :
  insert_events db list_key chain_id events = Ok db' →
  page_event_range db' list_key chain_id start end_index = Ok es →
  StronglySorted Z.lt (se_event_index <$> es) ∧
  ∀ e, e ∈ events → 0 ≤ sp_index e → length (sp_blinded_commitment e) = BLINDED_COMMITMENT_BYTES →
    start ≤ sp_index e ≤ end_index →
    ∃ signature, decode_fixed_hex SIGNATURE_BYTES "signature" (sp_signature e) = Ok signature ∧
      mkStoredEvent (sp_index e) (sp_blinded_commitment e) signature (sp_event_type e) ∈ es.
Proof.
  unfold insert_events. intros Hr Hp. apply bind_Ok in Hr as (c & [_ ->]%u64_to_i64_Ok & Hr).
  apply insert_events_fold in Hr as (_ & _ & Hall & _). apply page_event_range_Ok in Hp as [Hs Hes].
  set (rows := sort_by_key _ _) in *. assert (se_event_index <$> es = fst <$> rows) as Hix.
  { clear Hs. induction Hes as [|r e rows' es [He _] _ IH]; [done|]. rewrite !fmap_cons, IH. f_equal.
    unfold stored_event, i64_to_u64 in He. case_decide; [|done]. res_inv. done. }
  split.
  - rewrite Hix. apply StronglySorted_NoDup_lt; [|by apply StronglySorted_fmap].
    unfold rows. rewrite sort_by_key_perm. apply NoDup_rows_of.
  - intros e He H0 Hb Hrange. rewrite Forall_forall in Hall. destruct (Hall e He) as (sg & Hsg & Hrow). exists sg.
    split; [done|]. assert ((sp_index e, event_row e sg) ∈ rows) as Hin.
    { unfold rows. rewrite sort_by_key_perm, list_elem_of_filter, elem_of_rows_of. done. }
    apply list_elem_of_lookup in Hin as [k Hk]. destruct (Forall2_lookup_l _ _ _ _ _ Hes Hk) as (x & Hx & Hst & _).
    rewrite stored_event_row in Hst by done. injection Hst as <-. by eapply list_elem_of_lookup_2.
Qed.

(** Operations on the publication sequence of the POI manifest. *)
Inductive SequenceOp := Reserve (minimum : Z) | Recorded (sequence : Z).
Definition sequence_step (st : list Z * PoiDb) (op : SequenceOp) : sresult (list Z * PoiDb) :=
  match op with
  | Reserve minimum =>
      '(sequence, db) ← reserve_poi_publication_sequence st.2 minimum;
      Ok (st.1 ++ [sequence], db)
  | Recorded sequence =>
      db ← record_ipns_sequence st.2 sequence;
      Ok (st.1, db)
  end.

(** The state value bounds everything reserved or recorded so far. *)
Definition sequence_inv (st : list Z * PoiDb) : Prop :=
  StronglySorted Z.lt st.1 ∧
  Forall (λ s, ∃ v, indexer_state st.2 !! IPNS_SEQUENCE_STATE_KEY = Some v ∧ s ≤ v) st.1.

Lemma StronglySorted_snoc {A} (R : A → A → Prop) l x :
  StronglySorted R l → Forall (λ y, R y x) l → StronglySorted R (l ++ [x]).
Proof.
  induction 1 as [|y l Hl IH Hy]; intros Hx; cbn; [by repeat constructor|].
  apply Forall_cons in Hx as [Hyx Hx]. constructor; [by apply IH|]. apply Forall_app. by split; [|constructor].
Qed.

Lemma sequence_step_inv st op st' :
  sequence_inv st → sequence_step st op = Ok st' →
  sequence_inv st' ∧
  ∀ v, indexer_state st.2 !! IPNS_SEQUENCE_STATE_KEY = Some v →
    ∃ v', indexer_state st'.2 !! IPNS_SEQUENCE_STATE_KEY = Some v' ∧ v ≤ v'.
Proof.
  intros [Hs Hv]. destruct st as [outs db]. destruct op as [m|s]; cbn [sequence_step fst snd] in *; intros Hr.
  - apply bind_Ok in Hr as ([sq db'] & Hr & [= <-]). unfold reserve_poi_publication_sequence in Hr.
    apply bind_Ok in Hr as (m' & [_ ->]%u64_to_i64_Ok & Hr). apply bind_Ok in Hr as (v & Hv' & Hr).
    apply bind_Ok in Hr as (w & Hw & [= <- <-]). unfold i64_to_u64 in Hw. case_decide; [|done]. injection Hw as <-.
    assert (∀ u, indexer_state db !! IPNS_SEQUENCE_STATE_KEY = Some u → u < v) as Hlt.
    { intros u Hu. rewrite Hu in Hv'. case_decide; [|done]. injection Hv' as <-. lia. }
    split.
    + split; cbn.
      * apply StronglySorted_snoc; [done|]. eapply Forall_impl; [exact Hv|]. cbn. intros s (u & Hu & Hsu).
        specialize (Hlt u Hu). lia.
      * apply Forall_app. split; [|constructor; [|constructor]].
        -- eapply Forall_impl; [exact Hv|]. cbn. intros s (u & Hu & Hsu). exists v.
           rewrite lookup_insert_eq. specialize (Hlt u Hu). split; [done|lia].
        -- exists v. by rewrite lookup_insert_eq.
    + intros u Hu. exists v. cbn. rewrite lookup_insert_eq. specialize (Hlt u Hu). split; [done|lia].
  - apply bind_Ok in Hr as (db' & Hr & [= <-]). unfold record_ipns_sequence, record_state_sequence in Hr.
    apply bind_Ok in Hr as (s' & [_ ->]%u64_to_i64_Ok & [= <-]). cbn.
    assert (∀ u, indexer_state db !! IPNS_SEQUENCE_STATE_KEY = Some u →
      ∃ v', <[IPNS_SEQUENCE_STATE_KEY := match indexer_state db !! IPNS_SEQUENCE_STATE_KEY with
              | Some v => Z.max v s | None => s end]> (indexer_state db) !! IPNS_SEQUENCE_STATE_KEY = Some v' ∧ u ≤ v') as Hup.
    { intros u Hu. rewrite Hu. exists (Z.max u s). rewrite lookup_insert_eq. split; [done|lia]. }
    split; [split|done]; cbn; [done|]. eapply Forall_impl; [exact Hv|]. cbn. intros x (u & Hu & Hxu).
    destruct (Hup u Hu) as (v' & Hv' & ?). exists v'. split; [done|lia].
Qed.

(** Publication sequences never repeat: over any history of reservations
    and recordings, the reserved sequence numbers are strictly increasing, and
    at any point at most the stored value. *)
Theorem reserved_sequences_increase ops db outs db' :
  try_fold sequence_step ([], db) ops = Ok (outs, db') →
  StronglySorted Z.lt outs ∧
  Forall (λ s, ∃ v, indexer_state db' !! IPNS_SEQUENCE_STATE_KEY = Some v ∧ s ≤ v) outs.
Proof.
  intros Hr. apply (try_fold_inv sequence_inv) in Hr; [done| |by split; constructor].
  intros st op st' _ Hi Hs. by eapply sequence_step_inv.
Qed.

(** The identity fence: once a database has a TXID version, admitting or
    adopting succeeds exactly for that version and changes nothing; a database
    without one is admitted only when it holds no POI state, adopted always,
    and then carries the configured version. *)
Theorem txid_version_fence db configured allow :
  match poi_dataset_identity db with
  | Some persisted =>
      set_poi_txid_version db configured allow =
      (if decide (persisted = configured) then Ok db else Err (PoiTxidVersionMismatch configured persisted))
  | None =>
      (allow = false → poi_dataset_has_state db = true →
         set_poi_txid_version db configured allow = Err (PoiTxidVersionAdoptionRequired configured)) ∧
      (allow = true ∨ poi_dataset_has_state db = false → ∃ db',
         set_poi_txid_version db configured allow = Ok db' ∧ poi_dataset_identity db' = Some configured ∧
         poi_events db' = poi_events db ∧ chain_tips db' = chain_tips db ∧
         blocked_shields db' = blocked_shields db ∧ indexer_state db' = indexer_state db ∧
         ∀ other, other ≠ configured → is_ok (set_poi_txid_version db' other true) = false)
  end.
Proof.
  unfold set_poi_txid_version. destruct (poi_dataset_identity db) as [persisted|].
  - destruct (decide (persisted = configured)) as [->|Hne]; [by rewrite decide_False by (by intros [])|].
    by rewrite decide_True.
  - split.
    + intros -> ->. done.
    + intros Hor. assert (negb allow && poi_dataset_has_state db = false) as ->
        by (destruct Hor as [->| ->]; [done|apply andb_false_r]).
      eexists. split_and!; [done..|]. intros other Hne. cbn. by rewrite decide_True by (by intros ->).
Qed.

(** ** Concrete inputs

    Hex strings are the bytes themselves. *)
#[export] Instance toy_types : PoiTypes := {|
  hex_decode bs := Some bs;
  hex_encode bs := bs;
  hex_roundtrip _ := eq_refl;
|}.
Definition toy_event (i : Z) : SignedPoiEvent := mkSignedEvent i (be_bytes 32 i) (replicate 64 Byte.x00) Shield.
Definition toy_blocked : SignedBlockedShield :=
  mkSignedBlocked (replicate 32 Byte.x01) (replicate 32 Byte.x02) None (replicate 64 Byte.x03).
Definition empty_db : PoiDb := mkPoiDb ∅ ∅ ∅ None ∅ false.

Lemma events_read_back_witness :
  ∃ db' es, insert_events empty_db 7 1 (toy_event <$> [0; 1]) = Ok db' ∧
    page_event_range db' 7 1 0 5 = Ok es ∧
    StronglySorted Z.lt (se_event_index <$> es) ∧
    ∀ e, e ∈ toy_event <$> [0; 1] → 0 ≤ sp_index e → length (sp_blinded_commitment e) = BLINDED_COMMITMENT_BYTES →
      0 ≤ sp_index e ≤ 5 →
      ∃ signature, decode_fixed_hex SIGNATURE_BYTES "signature" (sp_signature e) = Ok signature ∧
        mkStoredEvent (sp_index e) (sp_blinded_commitment e) signature (sp_event_type e) ∈ es.
Proof.
  eexists. eexists. split; [reflexivity|]. split; [vm_compute; reflexivity|].
  eapply (events_read_back (H := toy_types) empty_db 7 1 (toy_event <$> [0; 1]) _ 0 5);
    [reflexivity|vm_compute; reflexivity].
Defined.

Lemma insert_events_append_only_witness :
  ∃ db', insert_events empty_db 7 1 (toy_event <$> [0; 1]) = Ok db' ∧
    events_extend (poi_events empty_db) (poi_events db') ∧
    Forall (holds_event (poi_events db') 7 1) (toy_event <$> [0; 1]) ∧
    (∀ k, (∀ e, e ∈ toy_event <$> [0; 1] → k ≠ (7, 1, sp_index e)) → poi_events db' !! k = poi_events empty_db !! k) ∧
    db' = with_events empty_db (poi_events db').
Proof.
  eexists. split; [reflexivity|].
  apply (insert_events_append_only (H := toy_types) empty_db 7 1 (toy_event <$> [0; 1])). reflexivity.
Defined.

Lemma replace_blocked_shields_exact_witness :
  ∃ db', replace_blocked_shields empty_db 7 1 [toy_blocked] = Ok db' ∧
    db' = with_blocked empty_db (blocked_shields db') ∧
    ∃ rows, Forall2 (λ record r, blocked_row record = Some r) [toy_blocked] rows ∧
      (∀ b, blocked_shields db' !! (7, 1, b) = last_row rows b) ∧
      (∀ k, k.1 ≠ (7, 1) → blocked_shields db' !! k = blocked_shields empty_db !! k).
Proof.
  eexists. split; [reflexivity|].
  apply (replace_blocked_shields_exact (H := toy_types) empty_db 7 1 [toy_blocked]). reflexivity.
Defined.

Lemma reserved_sequences_increase_witness :
  ∃ db', try_fold sequence_step ([], empty_db) [Reserve 5; Recorded 9; Reserve 1] = Ok ([5; 10], db') ∧
    StronglySorted Z.lt [5; 10] ∧
    Forall (λ s, ∃ v, indexer_state db' !! IPNS_SEQUENCE_STATE_KEY = Some v ∧ s ≤ v) [5; 10].
Proof.
  eexists. split; [reflexivity|].
  apply (reserved_sequences_increase [Reserve 5; Recorded 9; Reserve 1] empty_db). reflexivity.
Defined.
