(* ===== verification/Runtime.v ===== *)
(** * Background tasks and shutdown ([main.rs], [audit.rs])

    [run_background_tasks] waits for a signal or for the first task to end, stops
    new pin ownership ([PinLifecycleCoordinator]), tells the tasks to stop and
    drains them: it joins what ends before a deadline, then waits until no task
    owns a pin, aborts the rest and joins it. A run is any sequence of events of
    the tasks, the signal and the timer; an event that cannot happen in a state
    leaves it as it is. *)

From S2P Require Import Prelude.

(** What [join_next] gives of a task. *)
Inductive TaskResult := TaskOk | TaskErr (e : string) | TaskPanicked | TaskCancelled.
#[export] Instance TaskResult_eq_dec : EqDecision TaskResult.
Proof. solve_decision. Defined.
(** A running task with the ownership leases it holds. *)
Inductive Task := Running (owned : nat) | Ended (r : TaskResult) | Joined.
Inductive Phase :=
  | Serving
  | Draining (first_error : option string)
  (** the deadline is over and a pin is owned *)
  | Settling (first_error : option string)
  | Aborting (first_error : option string)
  | Finished (r : result string unit).

(** [PinOwnershipState] *)
Record Ownership := mkOwnership { accepting : bool; active : nat }.
Definition try_acquire_pin_ownership (o : Ownership) : option Ownership :=
  if accepting o then Some (mkOwnership true (S (active o))) else None.
Definition stop_new_pin_ownership (o : Ownership) : Ownership := mkOwnership false (active o).
(** [None] is the panic of a lease that is settled twice. *)
Definition settle_pin_ownership (o : Ownership) : option Ownership :=
  match active o with S n => Some (mkOwnership (accepting o) n) | O => None end.

Record Runtime := mkRuntime {
  rt_owners : Ownership;
  rt_tasks : list Task;
  rt_first_exit : result string unit;
  rt_phase : Phase;
  (** joined while draining, with [abort_expected] *)
  rt_log : list (TaskResult * bool);
}.

Definition PANICKED : string := "background task panicked".
Definition next_task_result (joined : option TaskResult) : result string unit :=
  match joined with
  | Some TaskOk => Err "background task exited unexpectedly"%string
  | Some (TaskErr error) => Err error
  | Some (TaskPanicked | TaskCancelled) => Err PANICKED
  | None => Ok tt
  end.
Definition record_background_task_result (result : TaskResult) (first_error : option string) (abort_expected : bool) : option string :=
  let error := match result with
               | TaskOk => None
               | TaskErr error => Some error
               | TaskCancelled => if abort_expected then None else Some PANICKED
               | TaskPanicked => Some PANICKED
               end in
  match first_error with None => error | Some e => Some e end.
Definition drain_result (first_error : option string) : result string unit := match first_error with Some e => Err e | None => Ok tt end.
Definition exit_result (first_exit drained : result string unit) : result string unit :=
  match first_exit with Err e => Err e | Ok _ => drained end.

Inductive Event :=
  | Acquire (i : nat) | SettleLease (i : nat) | DropLease (i : nat)
  (** a task ends by itself; leases it holds are dropped unsettled *)
  | End_ (i : nat) (r : TaskResult)
  (** an aborted task is cancelled *)
  | Cancel (i : nat)
  | Signal (r : result string unit) | Join (i : nat) | JoinEmpty | Deadline | OwnersGone.

Definition with_task (i : nat) (t : Task) (o : Ownership) (rt : Runtime) : Runtime :=
  mkRuntime o (<[i := t]> (rt_tasks rt)) (rt_first_exit rt) (rt_phase rt) (rt_log rt).
Definition with_phase (p : Phase) (rt : Runtime) : Runtime := mkRuntime (rt_owners rt) (rt_tasks rt) (rt_first_exit rt) p (rt_log rt).
Definition logged (r : TaskResult) (abort_expected : bool) (rt : Runtime) : Runtime :=
  mkRuntime (rt_owners rt) (rt_tasks rt) (rt_first_exit rt) (rt_phase rt) (rt_log rt ++ [(r, abort_expected)]).
(** What follows the first exit. *)
Definition begin_shutdown (first_exit : result string unit) (rt : Runtime) : Runtime :=
  mkRuntime (stop_new_pin_ownership (rt_owners rt)) (rt_tasks rt) first_exit (Draining None) (rt_log rt).
Definition all_joined (rt : Runtime) : Prop := Forall (λ t, t = Joined) (rt_tasks rt).
#[export] Instance Task_eq_dec : EqDecision Task.
Proof. solve_decision. Defined.
#[export] Instance all_joined_dec rt : Decision (all_joined rt) := ltac:(unfold all_joined; apply _).

Definition handle (rt : Runtime) (e : Event) : Runtime :=
  match e with
  | Acquire i =>
      match rt_tasks rt !! i, try_acquire_pin_ownership (rt_owners rt) with
      | Some (Running owned), Some o => with_task i (Running (S owned)) o rt
      | _, _ => rt
      end
  | SettleLease i =>
      match rt_tasks rt !! i, settle_pin_ownership (rt_owners rt) with
      | Some (Running (S owned)), Some o => with_task i (Running owned) o rt
      | _, _ => rt
      end
  | DropLease i =>
      match rt_tasks rt !! i with Some (Running (S owned)) => with_task i (Running owned) (rt_owners rt) rt | _ => rt end
  | End_ i r =>
      match rt_tasks rt !! i with
      | Some (Running _) => if decide (r = TaskCancelled) then rt else with_task i (Ended r) (rt_owners rt) rt
      | _ => rt
      end
  | Cancel i =>
      match rt_tasks rt !! i, rt_phase rt with
      | Some (Running _), Aborting _ => with_task i (Ended TaskCancelled) (rt_owners rt) rt
      | _, _ => rt
      end
  | Signal r => match rt_phase rt with Serving => begin_shutdown r rt | _ => rt end
  | Join i =>
      match rt_tasks rt !! i with
      | Some (Ended r) =>
          let rt' := with_task i Joined (rt_owners rt) rt in
          match rt_phase rt with
          | Serving => begin_shutdown (next_task_result (Some r)) rt'
          | Draining first_error => logged r false (with_phase (Draining (record_background_task_result r first_error false)) rt')
          | Aborting first_error => logged r true (with_phase (Aborting (record_background_task_result r first_error true)) rt')
          | _ => rt
          end
      | _ => rt
      end
  | JoinEmpty =>
      if decide (all_joined rt) then
        match rt_phase rt with
        | Serving => begin_shutdown (next_task_result None) rt
        | Draining first_error | Aborting first_error => with_phase (Finished (exit_result (rt_first_exit rt) (drain_result first_error))) rt
        | _ => rt
        end
      else rt
  | Deadline =>
      match rt_phase rt with
      | Draining first_error => with_phase (if decide (0 < active (rt_owners rt))%nat then Settling first_error else Aborting first_error) rt
      | _ => rt
      end
  | OwnersGone =>
      match rt_phase rt with
      | Settling first_error => if decide (active (rt_owners rt) = 0%nat) then with_phase (Aborting first_error) rt else rt
      | _ => rt
      end
  end.
Definition run_background_tasks (events : list Event) (rt : Runtime) : Runtime := foldl handle rt events.
Definition spawned (tasks : nat) : Runtime := mkRuntime (mkOwnership true 0) (replicate tasks (Running 0)) (Ok tt) Serving [].

(** ** Ownership *)
Definition owned (t : Task) : nat := match t with Running n => n | _ => 0 end.
Fixpoint owned_total (tasks : list Task) : nat := match tasks with [] => 0 | t :: tasks => owned t + owned_total tasks end.
Lemma owned_app l k : owned_total (l ++ k) = (owned_total l + owned_total k)%nat.
Proof. induction l as [|t l IH]; [done|]. cbn. rewrite IH. lia. Qed.
Lemma owned_insert i t t' tasks : tasks !! i = Some t → (owned_total (<[i := t']> tasks) + owned t = owned_total tasks + owned t')%nat.
Proof.
  intros Hi. rewrite insert_take_drop by (by eapply lookup_lt_Some). rewrite <- (take_drop_middle tasks i t Hi) at 3.
  rewrite !owned_app. cbn. lia.
Qed.
Lemma owned_le i n tasks : tasks !! i = Some (Running n) → (n ≤ owned_total tasks)%nat.
Proof. intros Hi. pose proof (owned_insert i _ Joined tasks Hi) as He. cbn in He. lia. Qed.

(** The error of a joined task, as it is reported. *)
Definition task_error (joined : TaskResult * bool) : option string :=
  match joined with
  | (TaskErr e, _) => Some e
  | (TaskPanicked, _) | (TaskCancelled, false) => Some PANICKED
  | _ => None
  end.
Definition first_task_error (log : list (TaskResult * bool)) : option string := head (omap task_error log).
Lemma record_first_error r abort log :
  record_background_task_result r (first_task_error log) abort = first_task_error (log ++ [(r, abort)]).
Proof.
  unfold first_task_error. rewrite omap_app. destruct (omap task_error log); [|done]. cbn. by destruct r, abort.
Qed.

Definition phase_ok (rt : Runtime) : Prop :=
  match rt_phase rt with
  | Serving => rt_log rt = []
  | Draining fe | Settling fe => accepting (rt_owners rt) = false ∧ fe = first_task_error (rt_log rt)
  | Aborting fe => accepting (rt_owners rt) = false ∧ active (rt_owners rt) = 0%nat ∧ fe = first_task_error (rt_log rt)
  | Finished r => accepting (rt_owners rt) = false ∧ all_joined rt ∧ r = exit_result (rt_first_exit rt) (drain_result (first_task_error (rt_log rt)))
  end.
Definition runtime_ok (rt : Runtime) : Prop := (owned_total (rt_tasks rt) ≤ active (rt_owners rt))%nat ∧ phase_ok rt.

Lemma all_joined_no_running rt i t : all_joined rt → rt_tasks rt !! i = Some t → t = Joined.
Proof. intros Ha Hi. by apply (Forall_lookup_1 _ _ _ _ Ha Hi). Qed.
(** A task that is not joined moves on. *)
Lemma task_moves rt i t t' o : runtime_ok rt → rt_tasks rt !! i = Some t → t ≠ Joined → accepting o = accepting (rt_owners rt) →
  (active o + owned t = active (rt_owners rt) + owned t' ∨ active o = active (rt_owners rt) ∧ owned t' ≤ owned t)%nat →
  (active o ≤ active (rt_owners rt) ∨ accepting (rt_owners rt) = true)%nat → runtime_ok (with_task i t' o rt).
Proof.
  intros [Ho Hp] Hi Ht Hacc Hact Hle. pose proof (owned_insert i t t' _ Hi) as Hins. split; [cbn; lia|].
  unfold phase_ok in *. cbn. rewrite Hacc. destruct (rt_phase rt); [done|done|done| |].
  - destruct Hp as (Ha & Hz & ->). split_and!; [done|destruct Hle; [lia|congruence]|done].
  - destruct Hp as (Ha & Hj & ->). by apply (all_joined_no_running _ _ _ Hj) in Hi.
Qed.
Lemma joins rt i r : runtime_ok rt → rt_tasks rt !! i = Some (Ended r) → (owned_total (<[i := Joined]> (rt_tasks rt)) ≤ active (rt_owners rt))%nat.
Proof. intros [Ho _] Hi. pose proof (owned_insert i _ Joined _ Hi) as Hins. cbn in Hins. lia. Qed.
Lemma handle_ok rt e : runtime_ok rt → runtime_ok (handle rt e).
Proof.
  intros Hok. destruct e as [i|i|i|i r|i|r|i| | |]; cbn [handle].
  - destruct (rt_tasks rt !! i) as [[n| |]|] eqn:Hi; try done. unfold try_acquire_pin_ownership. destruct (accepting (rt_owners rt)) eqn:Ha; [|done].
    eapply task_moves; try done; cbn; [lia|by right].
  - destruct (rt_tasks rt !! i) as [[[|n]| |]|] eqn:Hi; try done. unfold settle_pin_ownership. destruct (active (rt_owners rt)) as [|a] eqn:Ha; [done|].
    eapply task_moves; try done; cbn; rewrite ?Ha; [lia|left; lia].
  - destruct (rt_tasks rt !! i) as [[[|n]| |]|] eqn:Hi; try done. eapply task_moves; try done; cbn; [lia|by left].
  - destruct (rt_tasks rt !! i) as [[n| |]|] eqn:Hi; try done. case_decide; [done|]. eapply task_moves; try done; cbn; [lia|by left].
  - destruct (rt_tasks rt !! i) as [[n| |]|] eqn:Hi; try done. destruct (rt_phase rt) eqn:Hph; try done. eapply task_moves; try done; cbn; [lia|by left].
  - destruct (rt_phase rt) eqn:Hph; try done. destruct Hok as [Ho Hp]. unfold phase_ok in Hp. rewrite Hph in Hp. split; [done|]. by cbn; rewrite Hp.
  - destruct (rt_tasks rt !! i) as [[|r|]|] eqn:Hi; try done. pose proof (joins rt i r Hok Hi) as Hj. pose proof Hok as [Ho Hp].
    unfold phase_ok in Hp. destruct (rt_phase rt) as [|fe|fe|fe|] eqn:Hph; try exact Hok; (split; [exact Hj|]); unfold phase_ok; cbn.
    + by rewrite Hp.
    + destruct Hp as [? ->]. by rewrite record_first_error.
    + destruct Hp as (? & ? & ->). by rewrite record_first_error.
  - case_decide as Ha; [|done]. pose proof Hok as [Ho Hp]. unfold phase_ok in Hp. destruct (rt_phase rt) as [|fe|fe|fe|] eqn:Hph; try exact Hok; (split; [exact Ho|]); unfold phase_ok; cbn.
    + by rewrite Hp.
    + by destruct Hp as [? ->].
    + by destruct Hp as (? & ? & ->).
  - destruct (rt_phase rt) as [|fe| | |] eqn:Hph; try done. destruct Hok as [Ho Hp]. unfold phase_ok in Hp. rewrite Hph in Hp. split; [exact Ho|].
    unfold phase_ok. cbn. case_decide; [done|]. destruct Hp as [? ->]. split_and!; [done|lia|done].
  - destruct (rt_phase rt) as [| |fe| |] eqn:Hph; try done. case_decide; [|done]. destruct Hok as [Ho Hp]. unfold phase_ok in Hp. rewrite Hph in Hp.
    split; [exact Ho|]. by destruct Hp as [? ->].
Qed.
Lemma run_ok events rt : runtime_ok rt → runtime_ok (run_background_tasks events rt).
Proof. revert rt. induction events as [|e events IH]; intros rt Hrt; [done|]. by apply IH, handle_ok. Qed.
Lemma spawned_runtime_ok n : runtime_ok (spawned n).
Proof. split; [|done]. cbn. induction n; cbn; [lia|done]. Qed.

(** ** Shutdown ends *)
Lemma run_app l k rt : run_background_tasks (l ++ k) rt = run_background_tasks k (run_background_tasks l rt).
Proof. apply foldl_app. Qed.
Lemma stops_growing e rt : phase_ok rt → rt_phase rt ≠ Serving → (active (rt_owners (handle rt e)) ≤ active (rt_owners rt))%nat ∧ rt_phase (handle rt e) ≠ Serving.
Proof.
  intros Hp Hs. assert (accepting (rt_owners rt) = false) as Ha by (unfold phase_ok in Hp; destruct (rt_phase rt); naive_solver).
  destruct e; cbn [handle]; unfold try_acquire_pin_ownership, settle_pin_ownership; rewrite ?Ha;
    repeat (case_match || case_decide); simplify_eq; cbn; rewrite ?Ha; split; try done; try lia; congruence.
Qed.
Lemma owners_run_down events rt : runtime_ok rt → rt_phase rt ≠ Serving → (active (rt_owners (run_background_tasks events rt)) ≤ active (rt_owners rt))%nat.
Proof.
  revert rt. induction events as [|e events IH]; intros rt Hok Hs; [done|]. destruct (stops_growing e rt (proj2 Hok) Hs) as [Hle Hs'].
  specialize (IH (handle rt e) (handle_ok rt e Hok) Hs'). cbn. unfold run_background_tasks in IH. lia.
Qed.
(** Some task holds a lease. *)
Lemma owner_exists tasks : (0 < owned_total tasks)%nat → ∃ i n, tasks !! i = Some (Running (S n)).
Proof.
  induction tasks as [|t tasks IH]; cbn; [lia|]. destruct (owned t) as [|n] eqn:Ht.
  - intros Hlt. destruct (IH Hlt) as (i & m & Hi). by exists (S i), m.
  - intros _. exists 0%nat, n. destruct t; cbn in Ht; [by subst|done|done].
Qed.
Lemma can_settle k rt : active (rt_owners rt) = k → owned_total (rt_tasks rt) = k →
  ∃ events, active (rt_owners (run_background_tasks events rt)) = 0%nat ∧ rt_phase (run_background_tasks events rt) = rt_phase rt.
Proof.
  revert rt. induction k as [|k IH]; intros rt Ha Ho; [by exists []|]. destruct (owner_exists (rt_tasks rt)) as (i & n & Hi); [lia|].
  pose proof (owned_insert i _ (Running n) _ Hi) as Hins. cbn in Hins.
  destruct (IH (handle rt (SettleLease i))) as (events & He & Hph).
  - cbn. rewrite Hi. unfold settle_pin_ownership. by rewrite Ha.
  - cbn. rewrite Hi. unfold settle_pin_ownership. rewrite Ha. cbn. lia.
  - exists (SettleLease i :: events). split; [exact He|]. change (rt_phase (run_background_tasks events (handle rt (SettleLease i))) = rt_phase rt).
    rewrite Hph. cbn. rewrite Hi. unfold settle_pin_ownership. by rewrite Ha.
Qed.
Definition unjoined (tasks : list Task) : nat := length (filter (λ t, t ≠ Joined) tasks).
Lemma unjoined_insert i t t' tasks : tasks !! i = Some t → t ≠ Joined →
  unjoined (<[i := t']> tasks) = if decide (t' = Joined) then pred (unjoined tasks) else unjoined tasks.
Proof.
  intros Hi Ht. assert (∀ l k u, unjoined (l ++ u :: k) = unjoined l + (if decide (u = Joined) then 0 else 1) + unjoined k)%nat as Hu.
  { intros l k u. unfold unjoined. rewrite filter_app, filter_cons, length_app. repeat case_decide; cbn; try lia; done. }
  pose proof (Hu (take i tasks) (drop (S i) tasks) t) as Ht1. rewrite (take_drop_middle tasks i t Hi), decide_False in Ht1 by done.
  rewrite insert_take_drop by (by eapply lookup_lt_Some). rewrite Hu. case_decide; lia.
Qed.
Lemma join_aborted i r fe rt : rt_tasks rt !! i = Some (Ended r) → rt_phase rt = Aborting fe →
  ∃ fe', rt_phase (handle rt (Join i)) = Aborting fe' ∧ rt_tasks (handle rt (Join i)) = <[i := Joined]> (rt_tasks rt).
Proof. intros Hi Hp. cbn [handle]. rewrite Hi, Hp. by eexists. Qed.
Lemma abort_task i t fe rt : rt_tasks rt !! i = Some t → t ≠ Joined → rt_phase rt = Aborting fe →
  ∃ events fe', rt_phase (run_background_tasks events rt) = Aborting fe' ∧
    unjoined (rt_tasks (run_background_tasks events rt)) = pred (unjoined (rt_tasks rt)).
Proof.
  intros Hi Ht Hp. destruct t as [n|r|]; [| |done].
  - assert (handle rt (Cancel i) = with_task i (Ended TaskCancelled) (rt_owners rt) rt) as Hc by (cbn [handle]; by rewrite Hi, Hp).
    assert (rt_tasks (handle rt (Cancel i)) !! i = Some (Ended TaskCancelled)) as Hi'
      by (rewrite Hc; apply list_lookup_insert_eq; by eapply lookup_lt_Some).
    destruct (join_aborted i TaskCancelled fe (handle rt (Cancel i)) Hi') as (fe' & Hph & Htk); [by rewrite Hc|].
    exists [Cancel i; Join i], fe'. split; [exact Hph|]. change (unjoined (rt_tasks (handle (handle rt (Cancel i)) (Join i))) = pred (unjoined (rt_tasks rt))).
    rewrite Htk, (unjoined_insert _ _ _ _ Hi'), decide_True by done. f_equal. rewrite Hc. cbn [rt_tasks with_task].
    by rewrite (unjoined_insert _ _ _ _ Hi), decide_False by done.
  - destruct (join_aborted i r fe rt Hi Hp) as (fe' & Hph & Htk). exists [Join i], fe'. split; [exact Hph|].
    change (unjoined (rt_tasks (handle rt (Join i))) = pred (unjoined (rt_tasks rt))). by rewrite Htk, (unjoined_insert _ _ _ _ Hi), decide_True.
Qed.
Lemma abort_ends k fe rt : unjoined (rt_tasks rt) = k → rt_phase rt = Aborting fe → ∃ events r, rt_phase (run_background_tasks events rt) = Finished r.
Proof.
  revert fe rt. induction k as [|k IH]; intros fe rt Hk Hp.
  - eexists [JoinEmpty], _. cbn [run_background_tasks foldl handle]. rewrite decide_True; [by rewrite Hp|].
    apply length_zero_iff_nil in Hk. apply Forall_forall. intros t Ht. destruct (decide (t = Joined)) as [|Hne]; [done|].
    assert (t ∈ filter (λ t, t ≠ Joined) (rt_tasks rt)) as Hf by (by apply list_elem_of_filter). rewrite Hk in Hf. by apply not_elem_of_nil in Hf.
  - assert (∃ i t, rt_tasks rt !! i = Some t ∧ t ≠ Joined) as (i & t & Hi & Ht).
    { unfold unjoined in Hk. destruct (filter (λ t, t ≠ Joined) (rt_tasks rt)) as [|t l] eqn:Hf; [done|].
      assert (t ∈ filter (λ t, t ≠ Joined) (rt_tasks rt)) as [Ht Hin]%list_elem_of_filter by (rewrite Hf; by left).
      apply list_elem_of_lookup in Hin as [i Hi]. eauto. }
    destruct (abort_task i t fe rt Hi Ht Hp) as (ev & fe' & Hph & Hu). destruct (IH fe' (run_background_tasks ev rt)) as (ev' & r & Hr); [lia|done|].
    exists (ev ++ ev'), r. by rewrite run_app.
Qed.
Lemma shutdown_ends rt : rt_phase rt ≠ Serving → owned_total (rt_tasks rt) = active (rt_owners rt) →
  ∃ events r, rt_phase (run_background_tasks events rt) = Finished r.
Proof.
  intros Hs Ho. destruct (can_settle _ rt eq_refl Ho) as (ev & Ha & Hph). set (rt1 := run_background_tasks ev rt) in *.
  assert (∀ fe rt2 ev2, rt2 = run_background_tasks ev2 rt1 → rt_phase rt2 = Aborting fe →
    ∃ events r, rt_phase (run_background_tasks events rt) = Finished r) as Hend.
  { intros fe rt2 ev2 Hrt Hp2. destruct (abort_ends _ fe rt2 eq_refl Hp2) as (ev3 & r & Hr). exists (ev ++ ev2 ++ ev3), r.
    rewrite !run_app. fold rt1. by rewrite <- Hrt. }
  destruct (rt_phase rt) as [|fe|fe|fe|r] eqn:Hp; [done| | | |by exists ev, r].
  - apply (Hend fe _ [Deadline] eq_refl). cbn [run_background_tasks foldl handle]. by rewrite Hph, Ha.
  - apply (Hend fe _ [OwnersGone] eq_refl). cbn [run_background_tasks foldl handle]. by rewrite Hph, Ha.
  - by apply (Hend fe _ [] eq_refl).
Qed.

(** C15. Shutdown. Over any run of the tasks, the signal and the timer: tasks are
    aborted only when no pin is owned, by the coordinator's count and by every
    task; once shutdown has begun the number of owners never grows again; the
    process ends only after every task was joined, and with the error that came
    first, that of the first exit before those of the drain, where a task that
    was aborted counts as none; and as long as no lease was lost, shutdown can
    always come to its end. *)
Theorem shutdown_correct tasks events :
  let rt := run_background_tasks events (spawned tasks) in
  (∀ fe, rt_phase rt = Aborting fe → active (rt_owners rt) = 0%nat ∧ ∀ i n, rt_tasks rt !! i = Some (Running n) → n = 0%nat) ∧
  (rt_phase rt ≠ Serving → ∀ events', (active (rt_owners (run_background_tasks events' rt)) ≤ active (rt_owners rt))%nat) ∧
  (∀ r, rt_phase rt = Finished r →
    all_joined rt ∧ r = exit_result (rt_first_exit rt) (drain_result (head (omap task_error (rt_log rt))))) ∧
  (rt_phase rt ≠ Serving → owned_total (rt_tasks rt) = active (rt_owners rt) →
    ∃ events' r, rt_phase (run_background_tasks events' rt) = Finished r).
Proof.
  intros rt. assert (runtime_ok rt) as Hok by apply run_ok, spawned_runtime_ok. pose proof Hok as [Ho Hp]. unfold phase_ok in Hp. split_and!.
  - intros fe Hph. rewrite Hph in Hp. destruct Hp as (_ & Hz & _). split; [done|]. intros i n Hi%owned_le. lia.
  - intros Hs events'. by apply owners_run_down.
  - intros r Hph. rewrite Hph in Hp. naive_solver.
  - apply shutdown_ends.
Qed.
(** A task that holds a pin is waited for past the deadline; a lease that was
    dropped without being settled keeps the process from ever aborting. *)
Example waits_for_owner :
  (rt_phase <$> [run_background_tasks [Acquire 0; Signal (Ok tt); Deadline; OwnersGone] (spawned 2);
                 run_background_tasks [Acquire 0; Signal (Ok tt); Deadline; SettleLease 0; OwnersGone; Cancel 0; Cancel 1; Join 1; Join 0; JoinEmpty] (spawned 2);
                 run_background_tasks [Acquire 0; DropLease 0; Signal (Ok tt); Deadline; OwnersGone; End_ 0 TaskOk; End_ 1 TaskOk; Join 0; Join 1; OwnersGone; JoinEmpty] (spawned 2)])
  = [Settling None; Finished (Ok tt); Settling None].
Proof. vm_compute. reflexivity. Qed.
