(* ===== verification/Status.v ===== *)
(** * The sync status ([status.rs])

    The status document the health endpoint serves: one entry per (list,
    chain) pair, found by linear search and appended when missing. A status is
    the vector of its pairs; wall-clock time is an argument of the operations
    that read the clock. *)

From S2P Require Import Prelude PoiStore.

Inductive RetryBackoffState := Idle | BackingOff | Failed.

Record RetryBackoffStatus := mkBackoff {
  rb_state : RetryBackoffState;
  rb_attempts : Z;
  rb_next_backoff_seconds : option Z;
  rb_last_error : option string;
}.
Definition idle : RetryBackoffStatus := mkBackoff Idle 0 None None.

Record PairSyncStatus := mkPair {
  ps_list_key : bytes;
  ps_chain_id : Z;
  ps_last_event_index : option Z;
  ps_last_successful_page_unix_seconds : option Z;
  ps_seconds_since_last_page : option Z;
  ps_current_page_size : Z;
  ps_retry_backoff : RetryBackoffStatus;
}.
Definition pair_new (list_key : bytes) (chain_id current_page_size : Z) : PairSyncStatus :=
  mkPair list_key chain_id None None None current_page_size idle.

(** [Duration::as_secs], of a duration in nanoseconds. *)
Definition as_secs (nanos : Z) : Z := nanos / 1000000000.

Section status.
Context `{PoiTypes}.

Abbreviation Status := (list PairSyncStatus).

Definition list_key_hex (list_key : Z) : bytes := encode_prefixed (be_bytes 32 list_key).

Definition for_pairs (list_keys chain_ids : list Z) (initial_page_size : Z) : Status :=
  list_key ← list_keys;
  chain_id ← chain_ids;
  [pair_new (list_key_hex list_key) chain_id initial_page_size].

Definition pair_key (p : PairSyncStatus) : bytes * Z := (ps_list_key p, ps_chain_id p).

(** [ensure_pair] returns a [&mut]: here the update is an argument. The first
    matching pair is updated in place, otherwise a new pair is pushed. *)
Fixpoint ensure_pair (key : bytes * Z) (initial_page_size : Z) (upd : PairSyncStatus → PairSyncStatus)
    (s : Status) : Status :=
  match s with
  | [] => [upd (pair_new key.1 key.2 initial_page_size)]
  | p :: s =>
      if decide (pair_key p = key) then upd p :: s else p :: ensure_pair key initial_page_size upd s
  end.

Definition page_success (now last_event_index current_page_size : Z) (p : PairSyncStatus) : PairSyncStatus :=
  mkPair (ps_list_key p) (ps_chain_id p) (Some last_event_index) (Some now) (Some 0) current_page_size idle.
Definition record_page_success (now : Z) (list_key chain_id last_event_index current_page_size : Z) (s : Status) : Status :=
  ensure_pair (list_key_hex list_key, chain_id) current_page_size
    (page_success now last_event_index current_page_size) s.

Definition page_failure (current_page_size attempts : Z) (next_backoff : option Z) (error : string)
    (p : PairSyncStatus) : PairSyncStatus :=
  mkPair (ps_list_key p) (ps_chain_id p) (ps_last_event_index p) (ps_last_successful_page_unix_seconds p)
    (ps_seconds_since_last_page p) current_page_size
    (mkBackoff (match next_backoff with Some _ => BackingOff | None => Failed end)
       attempts (as_secs <$> next_backoff) (Some error)).
Definition record_page_failure (list_key chain_id current_page_size attempts : Z) (next_backoff : option Z)
    (error : string) (s : Status) : Status :=
  ensure_pair (list_key_hex list_key, chain_id) current_page_size
    (page_failure current_page_size attempts next_backoff error) s.

(** The document served at time [now]: [checked_sub] is on [i64], the
    conversion drops negative ages. *)
Definition snapshot_at (now : Z) (s : Status) : Status :=
  (λ p, mkPair (ps_list_key p) (ps_chain_id p) (ps_last_event_index p) (ps_last_successful_page_unix_seconds p)
          (last_page ← ps_last_successful_page_unix_seconds p;
           let age := now - last_page in
           if decide (- 2 ^ 63 ≤ age ≤ i64_max) then if decide (0 ≤ age) then Some age else None else None)
          (ps_current_page_size p) (ps_retry_backoff p)) <$> s.

(** ** Recorded reports *)
Inductive Report :=
  | PageSuccess (now list_key chain_id last_event_index page_size : Z)
  | PageFailure (list_key chain_id page_size attempts : Z) (next_backoff : option Z) (error : string).

Definition record (s : Status) (r : Report) : Status :=
  match r with
  | PageSuccess now lk c last size => record_page_success now lk c last size s
  | PageFailure lk c size attempts backoff error => record_page_failure lk c size attempts backoff error s
  end.
Definition report_key (r : Report) : bytes * Z :=
  match r with PageSuccess _ lk c _ _ | PageFailure lk c _ _ _ _ => (list_key_hex lk, c) end.
Definition report_size (r : Report) : Z :=
  match r with PageSuccess _ _ _ _ size | PageFailure _ _ size _ _ _ => size end.
Definition report_upd (r : Report) : PairSyncStatus → PairSyncStatus :=
  match r with
  | PageSuccess now _ _ last size => page_success now last size
  | PageFailure _ _ size attempts backoff error => page_failure size attempts backoff error
  end.

(** Specification: a status is a finite map from keys to pairs, in which a
    report updates the entry of its key. *)
Definition status_lookup (key : bytes * Z) (s : Status) : option PairSyncStatus :=
  list_find (λ p, pair_key p = key) s ≫= λ r, Some r.2.
Definition apply_report (key : bytes * Z) (o : option PairSyncStatus) (r : Report) : option PairSyncStatus :=
  if decide (report_key r = key)
  then Some (report_upd r (default (pair_new key.1 key.2 (report_size r)) o))
  else o.

Lemma record_ensure s r : record s r = ensure_pair (report_key r) (report_size r) (report_upd r) s.
Proof. by destruct r. Qed.

Lemma report_upd_key r p : pair_key (report_upd r p) = pair_key p.
Proof. by destruct r. Qed.

Lemma status_lookup_cons key p s :
  status_lookup key (p :: s) = if decide (pair_key p = key) then Some p else status_lookup key s.
Proof.
  unfold status_lookup. cbn. case_decide; [done|]. by destruct (list_find _ s) as [[]|].
Qed.

Lemma ensure_pair_lookup key key' size upd s :
  (∀ p, pair_key (upd p) = pair_key p) →
  status_lookup key' (ensure_pair key size upd s) =
  if decide (key = key') then Some (upd (default (pair_new key.1 key.2 size) (status_lookup key s)))
  else status_lookup key' s.
Proof.
  intros Hupd. induction s as [|p s IH]; cbn [ensure_pair].
  - rewrite status_lookup_cons, Hupd. cbn. destruct key as [k c]. unfold pair_key. cbn. done.
  - rewrite (status_lookup_cons key p), (status_lookup_cons key' p). destruct (decide (pair_key p = key)) as [Hp|Hp].
    + rewrite status_lookup_cons, Hupd, Hp. by destruct (decide (key = key')).
    + rewrite status_lookup_cons, IH. repeat case_decide; congruence.
Qed.

Lemma ensure_pair_keys key size upd s :
  (∀ p, pair_key (upd p) = pair_key p) →
  pair_key <$> ensure_pair key size upd s =
  if decide (key ∈ pair_key <$> s) then pair_key <$> s else (pair_key <$> s) ++ [key].
Proof.
  intros Hupd. induction s as [|p s IH]; cbn [ensure_pair].
  - rewrite decide_False by apply not_elem_of_nil. cbn. rewrite Hupd. by destruct key.
  - destruct (decide (pair_key p = key)) as [Hp|Hp]; rewrite !fmap_cons.
    + rewrite Hupd. subst key. by rewrite decide_True by left.
    + rewrite IH. assert (key ∈ pair_key p :: (pair_key <$> s) ↔ key ∈ pair_key <$> s) as Hin
        by (rewrite elem_of_cons; naive_solver).
      destruct (decide (key ∈ pair_key <$> s)); [rewrite decide_True|rewrite decide_False]; by rewrite ?Hin.
Qed.

(** New keys are appended in the order of their reports. *)
Lemma records_keys rs : ∀ s,
  ∃ new, pair_key <$> foldl record s rs = (pair_key <$> s) ++ new ∧ new `sublist_of` report_key <$> rs ∧ NoDup new ∧
    (∀ k, k ∈ new → k ∉ pair_key <$> s) ∧ (∀ k, k ∈ report_key <$> rs → k ∈ (pair_key <$> s) ++ new).
Proof.
  induction rs as [|r rs IH]; intros s; cbn [foldl].
  - exists []. rewrite app_nil_r. split_and!; [done|done|apply NoDup_nil_2|set_solver|set_solver].
  - destruct (IH (record s r)) as (new & Hk & Hsub & Hnd & Hfresh & Hall).
    rewrite record_ensure, ensure_pair_keys in Hk, Hfresh, Hall by apply report_upd_key. rewrite <- record_ensure in Hk.
    destruct (decide (report_key r ∈ pair_key <$> s)) as [Hin|Hin].
    + exists new. split_and!; [done|by apply sublist_cons|done|done|]. intros k [->|Hk']%elem_of_cons; [set_solver|by apply Hall].
    + exists (report_key r :: new). rewrite <- app_assoc in Hk. split_and!; [done|by apply sublist_skip| |set_solver|].
      * apply NoDup_cons. split; [|done]. intros Hn%Hfresh. set_solver.
      * intros k [->|Hk']%elem_of_cons; [set_solver|]. apply Hall in Hk'. set_solver.
Qed.

Lemma records_lookup key rs : ∀ s,
  status_lookup key (foldl record s rs) = foldl (apply_report key) (status_lookup key s) rs.
Proof.
  induction rs as [|r rs IH]; intros s; cbn [foldl]; [done|]. rewrite IH. f_equal.
  rewrite record_ensure, ensure_pair_lookup by apply report_upd_key. unfold apply_report.
  case_decide as Hk; [by subst key|done].
Qed.

(** ** What a history of reports means *)
Definition successes (rs : list Report) : list (Z * Z) :=
  omap (λ r, match r with PageSuccess now _ _ index _ => Some (now, index) | PageFailure _ _ _ _ _ _ => None end) rs.
(** The retry state after a history: that of the last report alone. *)
Definition backoff_after (rs : list Report) : RetryBackoffStatus :=
  match last rs with
  | Some (PageFailure _ _ _ attempts (Some delay) error) => mkBackoff BackingOff attempts (Some (delay / 10 ^ 9)) (Some error)
  | Some (PageFailure _ _ _ attempts None error) => mkBackoff Failed attempts None (Some error)
  | Some (PageSuccess _ _ _ _ _) | None => mkBackoff Idle 0 None None
  end.
(** The entry served at time [now] for a pair with the reports [rs]. *)
Definition served_entry (now initial_page_size : Z) (key : bytes * Z) (rs : list Report) : PairSyncStatus :=
  mkPair key.1 key.2 (snd <$> last (successes rs)) (fst <$> last (successes rs))
    (success ← last (successes rs); if decide (0 ≤ now - success.1 ≤ i64_max) then Some (now - success.1) else None)
    (default initial_page_size (report_size <$> last rs)) (backoff_after rs).
Definition configured (list_keys chain_ids : list Z) : list (bytes * Z) :=
  list_key ← list_keys;
  chain_id ← chain_ids;
  [(list_key_hex list_key, chain_id)].

Lemma for_pairs_fmap list_keys chain_ids size :
  for_pairs list_keys chain_ids size = (λ k : bytes * Z, pair_new k.1 k.2 size) <$> configured list_keys chain_ids.
Proof.
  unfold for_pairs, configured. induction list_keys as [|lk list_keys IH]; [done|]. cbn [mbind list_bind]. rewrite fmap_app, IH. f_equal.
  clear. induction chain_ids as [|c chain_ids IH]; [done|]. cbn [mbind list_bind]. by rewrite IH.
Qed.
Lemma new_lookup key size keys :
  status_lookup key ((λ k : bytes * Z, pair_new k.1 k.2 size) <$> keys) = if decide (key ∈ keys) then Some (pair_new key.1 key.2 size) else None.
Proof.
  induction keys as [|k keys IH]; [done|]. rewrite fmap_cons, status_lookup_cons, IH. unfold pair_key. cbn [ps_list_key ps_chain_id pair_new].
  rewrite <- surjective_pairing. destruct (decide (k = key)) as [->|Hne]; [by rewrite decide_True by left|].
  destruct (decide (key ∈ keys)); [rewrite decide_True by (by right)|rewrite decide_False by (rewrite elem_of_cons; naive_solver)]; done.
Qed.
Lemma snapshot_lookup key now s : status_lookup key (snapshot_at now s) = status_lookup key s ≫= λ p, head (snapshot_at now [p]).
Proof.
  induction s as [|p s IH]; [done|]. unfold snapshot_at in *. rewrite fmap_cons, !status_lookup_cons, IH. unfold pair_key. cbn. by case_decide.
Qed.
Lemma snapshot_keys now s : pair_key <$> snapshot_at now s = pair_key <$> s.
Proof. unfold snapshot_at. by rewrite <- list_fmap_compose. Qed.

(** The entry before its age is filled in. *)
Definition recorded_entry (initial_page_size : Z) (key : bytes * Z) (rs : list Report) : PairSyncStatus :=
  mkPair key.1 key.2 (snd <$> last (successes rs)) (fst <$> last (successes rs)) ((λ _, 0) <$> last (successes rs))
    (default initial_page_size (report_size <$> last rs)) (backoff_after rs).
Lemma recorded_snoc size key rs r : report_upd r (recorded_entry size key rs) = recorded_entry size key (rs ++ [r]).
Proof.
  unfold recorded_entry, backoff_after, successes. rewrite omap_app, last_snoc. destruct r as [t lk c i sz|lk c sz a b e]; cbn.
  - by rewrite last_snoc.
  - rewrite app_nil_r. by destruct b.
Qed.
Lemma recorded_size key r rs size : report_upd r (recorded_entry size key rs) = report_upd r (recorded_entry (report_size r) key rs).
Proof. by destruct r. Qed.
Lemma records_recorded list_keys chain_ids size rs key :
  status_lookup key (foldl record (for_pairs list_keys chain_ids size) rs) =
  if decide (key ∈ configured list_keys chain_ids ∨ key ∈ report_key <$> rs)
  then Some (recorded_entry size key (filter (λ r, report_key r = key) rs)) else None.
Proof.
  rewrite records_lookup, for_pairs_fmap, new_lookup. induction rs as [|r rs IH] using rev_ind.
  { cbn. destruct (decide (key ∈ configured _ _)); [by rewrite decide_True by (by left)|rewrite decide_False by set_solver; done]. }
  rewrite foldl_app, IH. cbn [foldl]. unfold apply_report. rewrite fmap_app, filter_app, filter_cons. destruct (decide (report_key r = key)) as [Hk|Hk].
  - rewrite (decide_True (P := _ ∨ key ∈ _ ++ _)) by (right; set_solver). f_equal. rewrite filter_nil.
    destruct (decide (key ∈ configured list_keys chain_ids ∨ key ∈ report_key <$> rs)) as [Hin|Hin]; cbn [default]; [apply recorded_snoc|].
    rewrite <- recorded_snoc, recorded_size. f_equal. unfold recorded_entry.
    assert (filter (λ r, report_key r = key) rs = []) as ->; [|done].
    destruct (filter _ rs) as [|x l] eqn:Hf; [done|]. exfalso. apply Hin. right.
    assert (x ∈ filter (λ r, report_key r = key) rs) as [<- Hx]%list_elem_of_filter by (rewrite Hf; by left). by apply list_elem_of_fmap_2.
  - rewrite filter_nil, app_nil_r. assert (key ∈ (report_key <$> rs) ++ (report_key <$> [r]) ↔ key ∈ report_key <$> rs) as Hiff by set_solver.
    repeat case_decide; tauto || done.
Qed.
End status.

(** C40. The status document tells what the workers reported: it lists the
    configured pairs, one per list and chain and in that order, then the other
    reported ones, each once and in the order of reports. The entry of a pair
    depends on its own reports only, however they interleave with those of
    other pairs: the event index and time are those of its last success, its
    age the time since then; the page size is that of its last report, or the
    initial one; and its retry state is idle without attempts or error as soon
    as its last report is a success (or it has none), and otherwise has the
    attempts and the error of that failure, backing off for the announced whole
    seconds if another attempt follows and failed if none does. *)
Theorem status_is_report_ledger `{PoiTypes} list_keys chain_ids initial_page_size rs now key :
  let served := snapshot_at now (foldl record (for_pairs list_keys chain_ids initial_page_size) rs) in
  status_lookup key served =
    (if decide (key ∈ configured list_keys chain_ids ∨ key ∈ report_key <$> rs)
     then Some (served_entry now initial_page_size key (filter (λ r, report_key r = key) rs)) else None) ∧
  ∃ new, pair_key <$> served = configured list_keys chain_ids ++ new ∧ new `sublist_of` report_key <$> rs ∧ NoDup new ∧
    (∀ k, k ∈ new → k ∉ configured list_keys chain_ids) ∧ ∀ k, k ∈ report_key <$> rs → k ∈ configured list_keys chain_ids ++ new.
Proof.
  cbn zeta. split.
  - rewrite snapshot_lookup, records_recorded. case_decide; [|done]. cbn. unfold served_entry. do 2 f_equal.
    destruct (last (successes _)) as [[t i]|]; [|done]. cbn. repeat case_decide; lia || done.
  - rewrite snapshot_keys. destruct (records_keys rs (for_pairs list_keys chain_ids initial_page_size)) as (new & Hnew).
    rewrite for_pairs_fmap in Hnew. rewrite <- list_fmap_compose in Hnew. unfold pair_key, compose in Hnew. cbn in Hnew.
    exists new. rewrite for_pairs_fmap. unfold pair_key.
    assert ((λ x : bytes * Z, (x.1, x.2)) <$> configured list_keys chain_ids = configured list_keys chain_ids) as Hid.
    { rewrite <- (list_fmap_id (configured list_keys chain_ids)) at 2. apply list_fmap_ext. by intros i [k c] _. }
    rewrite Hid in Hnew. exact Hnew.
Qed.

(** Two lists of one chain: the first recovers after a failure, the second is
    backing off, a third one was not configured. *)
Example status_after_reports :
  let served := snapshot_at 1010 (foldl record (for_pairs [1; 2] [1] 500)
    [PageFailure 1 1 250 1 (Some (3 * 10 ^ 9 + 5)) "timeout"; PageSuccess 1000 1 1 77 250; PageFailure 2 1 125 2 (Some (3 * 10 ^ 9 + 5)) "timeout";
     PageFailure 3 1 60 9 None "gone"]) in
  ps_retry_backoff <$> served = [mkBackoff Idle 0 None None; mkBackoff BackingOff 2 (Some 3) (Some "timeout"%string);
    mkBackoff Failed 9 None (Some "gone"%string)] ∧
  ps_seconds_since_last_page <$> served = [Some 10; None; None].
Proof. vm_compute. split; reflexivity. Qed.
