(* ===== verification/ScrapeWorker.v ===== *)
(** * The scrape worker ([scrape/worker.rs])

    One worker per (list, chain) pair: it pages POI events from the upstream
    node into the store behind signature and root checks, shrinks and grows
    its page size, and mirrors the blocked-shield set. The worker's fields,
    the database, the shared status and the outside world are one state; an
    [async] method is a computation over it that can fail with a
    [ScrapeError]. Loops take fuel; [None] is "out of fuel", which the theorems
    exclude. The upstream node, the clock, the shutdown channel and the outcome
    of [COMMIT] are functions of an abstract world; a failed commit leaves the
    tables as they were. *)

From S2P Require Import Prelude Order PoiStore Paging Status.

Definition EVM_CHAIN_TYPE : Z := 0.

Inductive RunUntilOutcome := RunCaughtUp | RunShutdown.
Inductive SyncPageOutcome := CaughtUp | Ingested (count : nat) (last_event_index : Z).

Section types.
Context `{PoiTypes}.

(** What is built of [poi::artifacts::SnapshotEvent]. *)
Record SnapshotEvent := mkSnapshot {
  sn_event_index : Z;
  sn_blinded_commitment : bytes;
  sn_signature : bytes;
  sn_event_type : PoiEventType;
}.

Inductive BlockedShieldPageOutcome := BlockedCaughtUp | BlockedIngested (records : list SignedBlockedShield).
End types.

(** What the worker uses of the [poi], [broadcaster_core] and [reqwest]
    crates. *)
Class PoiCrate `{PoiTypes} := {
  PoiRpcError : Type;
  StatusCode : Type;
  StatusCode_dec :: EqDecision StatusCode;
  (** [matches!(error, Post { .. })], and the status of an [HttpStatus] *)
  is_post : PoiRpcError → bool;
  http_status : PoiRpcError → option StatusCode;
  is_server_error : StatusCode → bool;
  TOO_MANY_REQUESTS : StatusCode;
  VerifyError : Type;
  verify_poi_event : SignedPoiEvent → Z → result VerifyError unit;
  verify_blocked_shield : SignedBlockedShield → Z → result VerifyError unit;
  PoiCacheError : Type;
  PoiCache : Type;
  (** chain type, chain, TXID version, list *)
  cache_new : Z → Z → string → Z → PoiCache;
  apply_verified_artifact_events : PoiCache → list SnapshotEvent → result PoiCacheError PoiCache;
  current_roots : PoiCache → gmap Z bytes;
  crate_normalize_tree_position : Z → Z → Z * Z;
}.

Section errors.
Context `{PoiCrate}.

Inductive ScrapeError :=
  | PoiRpc (e : PoiRpcError)
  | Verify (e : VerifyError)
  | InvalidEventSignature (event_index : Z) (source : VerifyError)
  | Cache (e : PoiCacheError)
  | Store (e : StoreError)
  | CacheUnavailable
  | RootRejected
  | NonContiguousEvent (expected actual : Z)
  | EventSignature
  | MissingRoot (tree_number : Z)
  | InvalidLeafHex (leaf : string)
  | InvalidLeafLength (actual : nat)
  | IndexOverflow (last_event_index : Z)
  | BlockedShieldIndexOverflow (start_index : Z)
  | BlockedShieldSetChanged (first_count second_count : nat)
  | NoRetryAttemptsConfigured
  | RetryBudgetExhausted (attempts : nat) (page_size : Z) (source : ScrapeError).

Definition is_retryable (e : ScrapeError) : bool :=
  match e with
  | PoiRpc rpc =>
      is_post rpc ||
      match http_status rpc with
      | Some status => is_server_error status || bool_decide (status = TOO_MANY_REQUESTS)
      | None => false
      end
  | _ => false
  end.

Definition exclusive_end_index (start_index page_size : Z) : result ScrapeError Z :=
  ok_or (checked_add u64_max start_index page_size) (IndexOverflow start_index).

Definition decode_event_signature (signature : bytes) : result ScrapeError bytes :=
  bs ← ok_or (hex_decode (strip_0x signature)) EventSignature;
  if decide (length bs = SIGNATURE_BYTES) then Ok bs else Err EventSignature.

(** The loop over the events of a page: indexes, signatures, snapshots. *)
Definition snapshot_event (list_key start_index : Z) (offset : nat) (event : SignedPoiEvent) : result ScrapeError SnapshotEvent :=
  expected ← ok_or (checked_add u64_max start_index (Z.of_nat offset)) (IndexOverflow start_index);
  if decide (sp_index event ≠ expected) then Err (NonContiguousEvent expected (sp_index event))
  else
    _ ← map_err (InvalidEventSignature (sp_index event)) (verify_poi_event event list_key);
    signature ← decode_event_signature (sp_signature event);
    Ok (mkSnapshot (sp_index event) (sp_blinded_commitment event) signature (sp_event_type event)).
Fixpoint snapshot_events (list_key start_index : Z) (offset : nat) (events : list SignedPoiEvent) : result ScrapeError (list SnapshotEvent) :=
  match events with
  | [] => Ok []
  | event :: events =>
      snapshot ← snapshot_event list_key start_index offset event;
      rest ← snapshot_events list_key start_index (S offset) events;
      Ok (snapshot :: rest)
  end.

Definition snapshot_of_stored (e : StoredEvent) : SnapshotEvent :=
  mkSnapshot (se_event_index e) (se_blinded_commitment e) (se_signature e) (se_event_type e).

Definition stored_blocked_shields (records : list StoredBlockedShield) : list SignedBlockedShield :=
  (λ r, mkSignedBlocked (encode_prefixed (st_commitment_hash r)) (encode_prefixed (st_blinded_commitment r))
          (st_block_reason r) (hex_encode (st_signature r))) <$> records.

(** The order of [sort_blocked_shields]: lexicographic on four fields. *)
Definition blocked_cmp (left right : SignedBlockedShield) : comparison :=
  then_with (then_with (then_with
    (cmp (sb_blinded_commitment left) (sb_blinded_commitment right))
    (cmp (sb_commitment_hash left) (sb_commitment_hash right)))
    (cmp (sb_signature left) (sb_signature right)))
    (cmp (sb_block_reason left) (sb_block_reason right)).
Definition sort_blocked_shields (records : list SignedBlockedShield) : list SignedBlockedShield :=
  sort_by (λ l r, match blocked_cmp l r with Gt => false | _ => true end) records.

#[export] Instance SignedBlockedShield_dec : EqDecision SignedBlockedShield.
Proof. solve_decision. Defined.
Definition blocked_shield_sets_match (left right : list SignedBlockedShield) : bool :=
  bool_decide (sort_blocked_shields left = sort_blocked_shields right).

Definition verify_blocked_shields (list_key : Z) (records : list SignedBlockedShield) : result ScrapeError unit :=
  try_fold (λ _ record, map_err Verify (verify_blocked_shield record list_key)) () records.

(** The messages of an error and its sources, joined. *)
Fixpoint push_sources (formatted : string) (sources : list string) : string :=
  match sources with
  | [] => formatted
  | m :: sources => push_sources (formatted +:+ ": " +:+ m) sources
  end.
Definition format_error_chain (display : ScrapeError → string * list string) (e : ScrapeError) : string :=
  push_sources (display e).1 (display e).2.
End errors.

(** ** The world *)
Inductive Select := Elapsed | Changed (is_err : bool).

(** The upstream client, the shutdown channel, the clock and the database
    server, as the worker observes them. *)
Class World `{PoiCrate} (W : Type) := {
  (** TXID version, chain, list, first and last index (inclusive) *)
  poi_events_rpc : string → Z → Z → Z → Z → W → result PoiRpcError (list SignedPoiEvent) * W;
  (** TXID version, chain, list, first and end index *)
  blocked_shields_rpc : string → Z → Z → Z → Z → W → result PoiRpcError (list SignedBlockedShield) * W;
  validate_roots : PoiCache → W → result PoiCacheError bool * W;
  borrow_shutdown : W → bool * W;
  select_sleep : Z → W → Select * W;
  commit_outcome : W → option StoreError * W;
  unix_now : W → Z * W;
  error_display : ScrapeError → string * list string;
}.

(** ** The worker *)
Record Config := mkConfig {
  c_list_key : Z;
  c_chain_id : Z;
  c_upstream_url : string;
  c_retry_policy : RetryPolicy;
  c_polite_interval : Z;
  c_txid_version : string;
}.

Section worker.
Context `{World W} (cfg : Config).

Record Worker := mkWorker {
  w_page_size : PageSizeAdapter;
  w_cache : option PoiCache;
  w_status : option (list PairSyncStatus);
  w_db : PoiDb;
  w_world : W;
}.

(** Computations: [None] is out of fuel. *)
Definition M (A : Type) : Type := Worker → option (result ScrapeError A * Worker).
#[export] Instance M_ret : MRet M := λ A a s, Some (Ok a, s).
#[export] Instance M_bind : MBind M := λ A B f m s,
  match m s with
  | Some (Ok a, s) => f a s
  | Some (Err e, s) => Some (Err e, s)
  | None => None
  end.
Definition lift {A} (r : result ScrapeError A) : M A := λ s, Some (r, s).
Definition fail {A} (e : ScrapeError) : M A := lift (Err e).
Definition out_of_fuel {A} : M A := λ _, None.
Definition gets {A} (f : Worker → A) : M A := λ s, Some (Ok (f s), s).
(** [match m.await { Ok(..) => .., Err(..) => .. }] *)
Definition attempt {A} (m : M A) : M (result ScrapeError A) := λ s,
  match m s with Some (r, s) => Some (Ok r, s) | None => None end.
(** [if m.await { yes } else { no }] *)
Definition if_await {A} (m : M bool) (yes no : M A) : M A := m ≫= λ b : bool, if b then yes else no.
Definition effect {A} (f : W → A * W) : M A := λ s,
  let '(a, w) := f (w_world s) in
  Some (Ok a, mkWorker (w_page_size s) (w_cache s) (w_status s) (w_db s) w).
Definition set_page_size (f : PageSizeAdapter → PageSizeAdapter) : M unit := λ s,
  Some (Ok (), mkWorker (f (w_page_size s)) (w_cache s) (w_status s) (w_db s) (w_world s)).
Definition set_cache (c : option PoiCache) : M unit := λ s,
  Some (Ok (), mkWorker (w_page_size s) c (w_status s) (w_db s) (w_world s)).
Definition set_status (f : list PairSyncStatus → list PairSyncStatus) : M unit := λ s,
  Some (Ok (), mkWorker (w_page_size s) (w_cache s) (f <$> w_status s) (w_db s) (w_world s)).
Definition set_db (db : PoiDb) : M unit := λ s,
  Some (Ok (), mkWorker (w_page_size s) (w_cache s) (w_status s) db (w_world s)).

Definition current_page_size : M Z := gets (λ s, current_size (w_page_size s)).
Definition store {A} (r : sresult A) : M A := lift (map_err Store r).
Definition commit (tx : PoiDb) : M unit :=
  outcome ← effect commit_outcome;
  match outcome with Some e => fail (Store e) | None => set_db tx end.

(** ** Shutdown and status *)
Definition shutdown_requested : M bool := effect borrow_shutdown.
Definition sleep_or_shutdown (duration : Z) : M bool :=
  if decide (duration = 0) then shutdown_requested
  else
    select ← effect (select_sleep duration);
    match select with
    | Elapsed => shutdown_requested
    | Changed true => mret true
    | Changed false => shutdown_requested
    end.

Definition worker_record_page_success (last_event_index : Z) : M unit :=
  now ← effect unix_now;
  size ← current_page_size;
  set_status (record_page_success now (c_list_key cfg) (c_chain_id cfg) last_event_index size).
Definition worker_record_page_failure (attempts : nat) (next_backoff : option Z) (error : string) : M unit :=
  size ← current_page_size;
  set_status (record_page_failure (c_list_key cfg) (c_chain_id cfg) size (Z.of_nat attempts) next_backoff error).

(** ** Pages of events *)
Definition next_start (db : PoiDb) : result ScrapeError Z :=
  incomplete ← map_err Store (first_incomplete_event_index db (c_list_key cfg) (c_chain_id cfg));
  match incomplete with
  | Some index => Ok index
  | None =>
      tip ← map_err Store (last_event_index db (c_list_key cfg) (c_chain_id cfg) (c_upstream_url cfg));
      match tip with
      | None => Ok 0
      | Some last => ok_or (checked_add u64_max last 1) (IndexOverflow last)
      end
  end.
Definition next_start_index : M Z := db ← gets w_db; lift (next_start db).

Definition load_poi_cache (db : PoiDb) : result ScrapeError PoiCache :=
  let cache := cache_new EVM_CHAIN_TYPE (c_chain_id cfg) (c_txid_version cfg) (c_list_key cfg) in
  tip ← map_err Store (last_event_index db (c_list_key cfg) (c_chain_id cfg) (c_upstream_url cfg));
  match tip with
  | None => Ok cache
  | Some last =>
      events ← map_err Store (page_event_range_for_hydration db (c_list_key cfg) (c_chain_id cfg) 0 last);
      map_err Cache (apply_verified_artifact_events cache (snapshot_of_stored <$> events))
  end.
Definition cached_poi_cache : M PoiCache :=
  cache ← gets w_cache;
  match cache with
  | Some cache => mret cache
  | None =>
      db ← gets w_db;
      cache ← lift (load_poi_cache db);
      _ ← set_cache (Some cache);
      mret cache
  end.

Definition rpc {A} (f : W → result PoiRpcError A * W) : M A :=
  r ← effect f; lift (map_err PoiRpc r).

(** The statements of the page's database transaction. *)
Definition page_transaction (tx : PoiDb) (events : list SignedPoiEvent) (last_event_index : Z) (merkleroot : bytes)
    : sresult PoiDb :=
  tx ← insert_events tx (c_list_key cfg) (c_chain_id cfg) events;
  durable_tip ← last_event_index_in_transaction tx (c_list_key cfg) (c_chain_id cfg) (c_upstream_url cfg);
  if match durable_tip with None => true | Some tip => bool_decide (tip ≤ last_event_index) end
  then advance_chain_tip tx (c_list_key cfg) (c_chain_id cfg) (c_upstream_url cfg) last_event_index (Some merkleroot)
  else Ok tx.

Definition sync_next_page : M SyncPageOutcome :=
  start_index ← next_start_index;
  size ← current_page_size;
  end_exclusive ← lift (exclusive_end_index start_index size);
  end_index ← lift (ok_or (checked_sub end_exclusive 1) (IndexOverflow start_index));
  events ← rpc (poi_events_rpc (c_txid_version cfg) (c_chain_id cfg) (c_list_key cfg) start_index end_index);
  if decide (length events = 0%nat) then mret CaughtUp
  else
    snapshots ← lift (snapshot_events (c_list_key cfg) start_index 0 events);
    last_event ← lift (ok_or (last snapshots) CacheUnavailable);
    let last_event_index := sn_event_index last_event in
    cache ← cached_poi_cache;
    cache ← lift (map_err Cache (apply_verified_artifact_events cache snapshots));
    if_await (valid ← effect (validate_roots cache); lift (map_err Cache (negb <$> valid)))
      (fail RootRejected) (
      let tree_number := fst (crate_normalize_tree_position 0 last_event_index) in
      root ← lift (ok_or (current_roots cache !! tree_number) (MissingRoot tree_number));
      let last_tip_merkleroot := encode_prefixed root in
      tx ← gets w_db;
      tx ← store (page_transaction tx events last_event_index last_tip_merkleroot);
      _ ← commit tx;
      _ ← set_cache (Some cache);
      mret (Ingested (length events) last_event_index)).

(** ** Retries

    [sync_next_page_with_retry] and [sync_blocked_shields_page_with_retry]
    are the same loops around different requests. The inner loop runs at most
    [budget] times; the outer one once per page size. *)
Inductive Flow A := Return (outcome : option A) | Break.
Arguments Return {A}.
Arguments Break {A}.

Fixpoint attempt_loop {A} (op : M A) (fuel attempts : nat) : M (Flow A) :=
  match fuel with
  | O => out_of_fuel
  | S fuel =>
      let attempts := S attempts in
      r ← attempt op;
      match r with
      | Ok outcome => mret (Return (Some outcome))
      | Err error =>
          if is_retryable error && bool_decide (attempts < budget (c_retry_policy cfg))%nat then
            let backoff := backoff_delay (c_retry_policy cfg) (attempts - 1) in
            _ ← worker_record_page_failure attempts (Some backoff) (format_error_chain error_display error);
            if_await (sleep_or_shutdown backoff) (mret (Return None)) (attempt_loop op fuel attempts)
          else if is_retryable error then
            previous_size ← current_page_size;
            _ ← set_page_size on_failure;
            size ← current_page_size;
            _ ← worker_record_page_failure attempts None (format_error_chain error_display error);
            if decide (size = previous_size) then fail (RetryBudgetExhausted attempts previous_size error)
            else mret Break
          else
            _ ← worker_record_page_failure attempts None (format_error_chain error_display error);
            fail error
      end
  end.

Fixpoint retry_rounds {A} (op : M A) (fuel : nat) : M (option A) :=
  match fuel with
  | O => out_of_fuel
  | S fuel =>
      if_await shutdown_requested (mret None) (
        flow ← attempt_loop op (Nat.max 1 (budget (c_retry_policy cfg))) 0;
        match flow with
        | Return outcome => mret outcome
        | Break => retry_rounds op fuel
        end)
  end.

(** Page sizes are below 2^7, and every round but the last halves them or
    reaches the minimum. *)
Definition MAX_ROUNDS : nat := 7.
Definition sync_next_page_with_retry : M (option SyncPageOutcome) := retry_rounds sync_next_page MAX_ROUNDS.

(** ** Running *)
Fixpoint run_loop (fuel : nat) : M RunUntilOutcome :=
  match fuel with
  | O => out_of_fuel
  | S fuel =>
      if_await shutdown_requested (mret RunShutdown) (
        outcome ← sync_next_page_with_retry;
        match outcome with
        | None => mret RunShutdown
        | Some CaughtUp => mret RunCaughtUp
        | Some (Ingested _ last_event_index) =>
            _ ← set_page_size on_success;
            _ ← worker_record_page_success last_event_index;
            if_await (sleep_or_shutdown (c_polite_interval cfg)) (mret RunShutdown) (run_loop fuel)
        end)
  end.
Definition run_until_caught_up_or_shutdown (fuel : nat) : M RunUntilOutcome :=
  if decide (budget (c_retry_policy cfg) = 0%nat) then fail NoRetryAttemptsConfigured else run_loop fuel.

(** ** Blocked shields *)
Definition sync_blocked_shields_page (start_index : Z) : M BlockedShieldPageOutcome :=
  size ← current_page_size;
  end_index ← lift (exclusive_end_index start_index size);
  records ← rpc (blocked_shields_rpc (c_txid_version cfg) (c_chain_id cfg) (c_list_key cfg) start_index end_index);
  if decide (length records = 0%nat) then mret BlockedCaughtUp
  else
    _ ← lift (verify_blocked_shields (c_list_key cfg) records);
    mret (BlockedIngested records).
Definition sync_blocked_shields_page_with_retry (start_index : Z) : M (option BlockedShieldPageOutcome) :=
  retry_rounds (sync_blocked_shields_page start_index) MAX_ROUNDS.

Fixpoint collect_loop (fuel : nat) (start_index : Z) (all_records : list SignedBlockedShield)
    : M (option (list SignedBlockedShield)) :=
  match fuel with
  | O => out_of_fuel
  | S fuel =>
      if_await shutdown_requested (mret None) (
        outcome ← sync_blocked_shields_page_with_retry start_index;
        match outcome with
        | None => mret None
        | Some BlockedCaughtUp => mret (Some all_records)
        | Some (BlockedIngested records) =>
            start_index' ← lift (ok_or (checked_add u64_max start_index (Z.of_nat (length records)))
                                   (BlockedShieldIndexOverflow start_index));
            _ ← set_page_size on_success;
            if_await (sleep_or_shutdown (c_polite_interval cfg)) (mret None)
              (collect_loop fuel start_index' (all_records ++ records))
        end)
  end.
Definition collect_blocked_shields_or_shutdown (fuel : nat) : M (option (list SignedBlockedShield)) :=
  collect_loop fuel 0 [].

Definition sync_blocked_shields_until_caught_up_or_shutdown (fuel : nat) : M RunUntilOutcome :=
  if decide (budget (c_retry_policy cfg) = 0%nat) then fail NoRetryAttemptsConfigured
  else
    first ← collect_blocked_shields_or_shutdown fuel;
    match first with
    | None => mret RunShutdown
    | Some first_records =>
        db ← gets w_db;
        local_records ← store (all_blocked_shields db (c_list_key cfg) (c_chain_id cfg));
        let local_records := stored_blocked_shields local_records in
        if blocked_shield_sets_match first_records local_records then mret RunCaughtUp
        else
          second ← collect_blocked_shields_or_shutdown fuel;
          match second with
          | None => mret RunShutdown
          | Some second_records =>
              if negb (blocked_shield_sets_match first_records second_records)
              then fail (BlockedShieldSetChanged (length first_records) (length second_records))
              else
                tx ← gets w_db;
                tx ← store (replace_blocked_shields tx (c_list_key cfg) (c_chain_id cfg) second_records);
                _ ← commit tx;
                mret RunCaughtUp
          end
    end.

(** ** Total correctness

    [wp m Q s]: from [s], [m] returns (it does not run out of fuel), and its
    result and final state satisfy [Q]. *)
Definition wp {A} (m : M A) (Q : result ScrapeError A → Worker → Prop) (s : Worker) : Prop :=
  match m s with Some (r, s') => Q r s' | None => False end.

Lemma wp_mono {A} (m : M A) (Q Q' : result ScrapeError A → Worker → Prop) s :
  (∀ r s', Q r s' → Q' r s') → wp m Q s → wp m Q' s.
Proof. unfold wp. destruct (m s) as [[]|]; naive_solver. Qed.
Lemma wp_bind {A B} (m : M A) (f : A → M B) (Q : result ScrapeError B → Worker → Prop) s :
  wp m (λ r s', match r with Ok a => wp (f a) Q s' | Err e => Q (Err e) s' end) s →
  wp (m ≫= f) Q s.
Proof. unfold wp, mbind, M_bind. by destruct (m s) as [[[]]|]. Qed.
Lemma wp_if_await {A} (m : M bool) (yes no : M A) (Q : result ScrapeError A → Worker → Prop) s :
  wp m (λ r s', match r with Ok b => wp (if b then yes else no) Q s' | Err e => Q (Err e) s' end) s →
  wp (if_await m yes no) Q s.
Proof. intros Hm. by apply wp_bind. Qed.
Lemma wp_attempt {A} (m : M A) (Q : result ScrapeError (result ScrapeError A) → Worker → Prop) s :
  wp m (λ r s', Q (Ok r) s') s → wp (attempt m) Q s.
Proof. unfold wp, attempt. by destruct (m s) as [[]|]. Qed.

(** The primitive reads and writes. *)
Lemma wp_gets {A} (f : Worker → A) (Q : result ScrapeError A → Worker → Prop) s : Q (Ok (f s)) s → wp (gets f) Q s.
Proof. done. Qed.
Lemma wp_lift {A} (r : result ScrapeError A) (Q : result ScrapeError A → Worker → Prop) s : Q r s → wp (lift r) Q s.
Proof. done. Qed.
Lemma wp_ret {A} (a : A) (Q : result ScrapeError A → Worker → Prop) s : Q (Ok a) s → wp (mret a) Q s.
Proof. done. Qed.
Lemma wp_set_page_size f (Q : result ScrapeError unit → Worker → Prop) s :
  Q (Ok ()) (mkWorker (f (w_page_size s)) (w_cache s) (w_status s) (w_db s) (w_world s)) → wp (set_page_size f) Q s.
Proof. done. Qed.
Lemma wp_set_cache c (Q : result ScrapeError unit → Worker → Prop) s :
  Q (Ok ()) (mkWorker (w_page_size s) c (w_status s) (w_db s) (w_world s)) → wp (set_cache c) Q s.
Proof. done. Qed.

(** States that differ only in the world, or in the world and the status. *)
Definition same_but_world (s s' : Worker) : Prop :=
  w_page_size s' = w_page_size s ∧ w_cache s' = w_cache s ∧ w_status s' = w_status s ∧ w_db s' = w_db s.
Definition same_but_status (s s' : Worker) : Prop :=
  w_page_size s' = w_page_size s ∧ w_cache s' = w_cache s ∧ w_db s' = w_db s.

Lemma wp_effect {A} (f : W → A * W) (Q : result ScrapeError A → Worker → Prop) s :
  (∀ a w s', f (w_world s) = (a, w) → same_but_world s s' → w_world s' = w → Q (Ok a) s') → wp (effect f) Q s.
Proof. unfold wp, effect. destruct (f (w_world s)) as [a w] eqn:Hf. intros HQ. by eapply HQ. Qed.

Lemma wp_shutdown_requested (Q : result ScrapeError bool → Worker → Prop) s :
  (∀ b s', same_but_status s s' → Q (Ok b) s') → wp shutdown_requested Q s.
Proof. intros HQ. apply wp_effect. intros b w s' _ (? & ? & ? & ?) _. by apply HQ. Qed.

Lemma wp_sleep_or_shutdown d (Q : result ScrapeError bool → Worker → Prop) s :
  (∀ b s', same_but_status s s' → Q (Ok b) s') → wp (sleep_or_shutdown d) Q s.
Proof.
  intros HQ. unfold sleep_or_shutdown. case_decide; [by apply wp_shutdown_requested|].
  apply wp_bind, wp_effect. intros sel w s' _ (? & ? & ? & ?) _.
  destruct sel as [|[]]; [|apply HQ; by split_and!|]; apply wp_shutdown_requested; intros b s'' (? & ? & ?);
    apply HQ; split_and!; congruence.
Qed.

Lemma wp_record_page_success i (Q : result ScrapeError unit → Worker → Prop) s :
  (∀ s', same_but_status s s' → Q (Ok ()) s') → wp (worker_record_page_success i) Q s.
Proof.
  intros HQ. unfold worker_record_page_success. apply wp_bind, wp_effect. intros now w s' _ (? & ? & ? & ?) _.
  by apply HQ.
Qed.
Lemma wp_record_page_failure n b e (Q : result ScrapeError unit → Worker → Prop) s :
  (∀ s', same_but_status s s' → Q (Ok ()) s') → wp (worker_record_page_failure n b e) Q s.
Proof. intros HQ. by apply HQ. Qed.

(** A transaction is all or nothing. *)
Lemma wp_commit tx (Q : result ScrapeError unit → Worker → Prop) s :
  (∀ e s', same_but_world s s' → Q (Err e) s') →
  (∀ s', w_page_size s' = w_page_size s → w_cache s' = w_cache s → w_status s' = w_status s → w_db s' = tx → Q (Ok ()) s') →
  wp (commit tx) Q s.
Proof.
  intros He HQ. unfold commit. apply wp_bind, wp_effect. intros o w s' _ (? & ? & ? & ?) _.
  destruct o as [e|]; [by apply He|by apply HQ].
Qed.

(** ** The retry loops

    Any request that leaves the page size alone and, when it fails, the
    database: retried, it returns within the budgeted attempts per page size,
    and the database is unchanged unless an attempt succeeded. *)
Section retries.
Context {A : Type} (op : M A) (db : PoiDb) (P : A → Worker → Prop).
Context (op_spec : ∀ s, w_db s = db → adapter_ok (w_page_size s) →
  wp op (λ r s', w_page_size s' = w_page_size s ∧
    match r with Ok a => P a s' | Err _ => w_db s' = db end) s).

Definition flow_post (s : Worker) (r : result ScrapeError (Flow A)) (s' : Worker) : Prop :=
  match r with
  | Ok (Return (Some a)) => P a s' ∧ w_page_size s' = w_page_size s
  | Ok (Return None) => w_db s' = db ∧ w_page_size s' = w_page_size s
  | Ok Break => w_db s' = db ∧ w_page_size s' = on_failure (w_page_size s) ∧
      current_size (w_page_size s') ≠ current_size (w_page_size s)
  | Err _ => w_db s' = db ∧ ∃ l, w_page_size s' = run_outcomes (w_page_size s) l
  end.

Lemma attempt_loop_wp fuel : ∀ attempts s,
  w_db s = db → adapter_ok (w_page_size s) →
  (1 ≤ fuel)%nat → (budget (c_retry_policy cfg) ≤ attempts + fuel)%nat →
  wp (attempt_loop op fuel attempts) (flow_post s) s.
Proof.
  induction fuel as [|fuel IH]; intros attempts s Hdb Hok Hf Hb; [lia|]. cbn [attempt_loop].
  apply wp_bind, wp_attempt. eapply wp_mono; [|by apply op_spec].
  intros r s1 (Hps1 & Hr). cbn. destruct r as [a|e]; [by split|].
  destruct (is_retryable e); cbn [andb]; [case_bool_decide as Hlt|].
  - apply wp_bind, wp_record_page_failure. intros s2 (Hps2 & _ & Hdb2).
    apply wp_if_await, wp_sleep_or_shutdown. intros b s3 (Hps3 & _ & Hdb3).
    assert (w_db s3 = db) by congruence. assert (w_page_size s3 = w_page_size s) as Hps by congruence.
    destruct b; [by split|]. unfold flow_post. rewrite <- Hps. apply IH; [done|congruence|lia|lia].
  - do 3 (apply wp_bind; first [apply wp_gets|apply wp_set_page_size]).
    apply wp_bind, wp_record_page_failure. intros s2 (Hps2 & _ & Hdb2). cbn -[on_failure] in *.
    rewrite Hps1 in *. case_decide as Hsize.
    + split; [congruence|]. exists [false]. by rewrite Hps2.
    + split_and!; [congruence|done|by rewrite Hps2].
  - apply wp_bind, wp_record_page_failure. intros s2 (Hps2 & _ & Hdb2). split; [congruence|]. exists []. by rewrite Hps2.
Qed.

(** Enough rounds: one at the smallest size, else one per halving. *)
Definition rounds_enough (a : PageSizeAdapter) (fuel : nat) : Prop :=
  (1 ≤ fuel)%nat ∧ (current_size a = min_size a ∨ current_size a < 2 ^ Z.of_nat fuel).

Lemma rounds_enough_shrink a fuel :
  adapter_ok a → rounds_enough a (S fuel) → current_size (on_failure a) ≠ current_size a →
  rounds_enough (on_failure a) fuel.
Proof.
  intros (? & ? & ? & ?) [_ Hor]. unfold rounds_enough, on_failure. cbn. intros Hne.
  assert (current_size a / 2 ≤ current_size a) by (apply Z.div_le_upper_bound; lia).
  destruct Hor as [Heq|Hlt]; [lia|]. rewrite Nat2Z.inj_succ, Z.pow_succ_r in Hlt by lia.
  assert (current_size a / 2 < 2 ^ Z.of_nat fuel) by (apply Z.div_lt_upper_bound; lia).
  destruct fuel as [|fuel]; [cbn in Hlt; lia|]. split; [lia|]. lia.
Qed.

Definition retry_post (r : result ScrapeError (option A)) (s' : Worker) : Prop :=
  adapter_ok (w_page_size s') ∧
  match r with Ok (Some a) => P a s' | _ => w_db s' = db end.

Lemma retry_rounds_wp fuel : ∀ s,
  w_db s = db → adapter_ok (w_page_size s) → rounds_enough (w_page_size s) fuel →
  wp (retry_rounds op fuel) retry_post s.
Proof.
  induction fuel as [|fuel IH]; intros s Hdb Hok Hf; [by destruct Hf; lia|]. cbn [retry_rounds].
  apply wp_if_await, wp_shutdown_requested. intros b s1 (Hps1 & _ & Hdb1). destruct b; [by split; congruence|].
  apply wp_bind. eapply wp_mono; [|apply attempt_loop_wp; [congruence|congruence|lia|lia]].
  rewrite <- Hps1 in Hok, Hf. intros r s2. destruct r as [[[a|]|]|e]; cbn.
  - intros [HP Hps]. split; [congruence|done].
  - intros [HP Hps]. split; [congruence|done].
  - intros (Hdb2 & Hps2 & Hne). rewrite Hps2 in Hne. apply IH; [done|..]; rewrite Hps2.
    + by apply (on_outcome_ok _ false).
    + by apply rounds_enough_shrink.
  - intros (Hdb2 & l & Hl). split; [|done]. rewrite Hl. by apply run_outcomes_ok.
Qed.

Lemma retry_wp s :
  w_db s = db → adapter_ok (w_page_size s) → wp (retry_rounds op MAX_ROUNDS) retry_post s.
Proof.
  intros Hdb Hok. apply retry_rounds_wp; [done..|]. split; [unfold MAX_ROUNDS; lia|]. right.
  destruct Hok as (_ & ? & _). unfold UPSTREAM_MAX_PAGE_SIZE in *. change (2 ^ Z.of_nat MAX_ROUNDS) with 128. lia.
Qed.
End retries.

(** ** The event log of a pair *)
Definition pair_row (db : PoiDb) (i : Z) : option PoiEventRow := poi_events db !! (c_list_key cfg, c_chain_id cfg, i).
Definition pair_tip (db : PoiDb) : option Z :=
  fst <$> chain_tips db !! (c_list_key cfg, c_chain_id cfg, c_upstream_url cfg).

(** The invariant: the stored indexes are an initial segment of the naturals,
    and the tip is one of them. *)
Record log_ok (db : PoiDb) : Prop := {
  log_nonneg i row : pair_row db i = Some row → 0 ≤ i;
  log_closed i j row : pair_row db i = Some row → 0 ≤ j ≤ i → is_Some (pair_row db j);
  log_tip t : pair_tip db = Some t → is_Some (pair_row db t);
}.

(** Everything below [start] is stored and complete. *)
Definition complete_below (db : PoiDb) (start : Z) : Prop :=
  ∀ i, 0 ≤ i < start → ∃ row, pair_row db i = Some row ∧ pe_event_data_complete row = true.

Lemma first_incomplete_chain db o :
  first_incomplete_event_index db (c_list_key cfg) (c_chain_id cfg) = Ok o → c_chain_id cfg ≤ i64_max.
Proof. unfold first_incomplete_event_index. intros Hr. by apply bind_Ok in Hr as (c & [? _]%u64_to_i64_Ok & _). Qed.

Lemma next_start_spec db start :
  log_ok db → next_start db = Ok start →
  0 ≤ start ∧ complete_below db start ∧
  ((∃ row, pair_row db start = Some row ∧ pe_event_data_complete row = false) ∨
   pair_tip db = None ∧ start = 0 ∨ pair_tip db = Some (start - 1)).
Proof.
  intros Hlog Hr. unfold next_start in Hr. apply bind_Ok in Hr as (o & Ho & Hr).
  destruct (first_incomplete_event_index db _ _) as [o'|] eqn:Hinc; [|done]. injection Ho as ->.
  pose proof (first_incomplete_spec db (c_list_key cfg) (c_chain_id cfg)
    (first_incomplete_chain _ _ Hinc) (log_nonneg db Hlog)) as Hspec. rewrite Hinc in Hspec.
  destruct o as [i|].
  - injection Hr as <-. destruct Hspec as ((row & Hrow & Hf) & Hbelow).
    split; [by eapply log_nonneg|]. split; [|left; by exists row]. intros j Hj.
    destruct (log_closed db Hlog i j row Hrow ltac:(lia)) as [r Hjr]. exists r. split; [done|]. apply (Hbelow j r Hjr); lia.
  - apply bind_Ok in Hr as (t & Ht & Hr).
    destruct (last_event_index db _ _ _) as [t'|] eqn:Htip; [|done]. injection Ht as ->.
    apply last_event_index_Ok in Htip. fold (pair_tip db) in Htip. destruct t as [t|].
    + apply ok_or_Ok, checked_add_Some in Hr as [-> _]. destruct (log_tip db Hlog t (eq_sym Htip)) as [row Hrow].
      pose proof (log_nonneg db Hlog t row Hrow). split; [lia|]. split; [|right; right; rewrite <- Htip; f_equal; lia].
      intros j Hj. destruct (log_closed db Hlog t j row Hrow ltac:(lia)) as [r Hjr]. exists r. split; [done|]. by eapply Hspec.
    + injection Hr as <-. split; [lia|]. split; [|by right; left]. intros j Hj. lia.
Qed.

(** ** What a stored page is *)
Lemma snapshot_events_Ok start offset events snapshots :
  snapshot_events (c_list_key cfg) start offset events = Ok snapshots →
  sn_event_index <$> snapshots = sp_index <$> events ∧
  ∀ k e, events !! k = Some e →
    sp_index e = start + Z.of_nat (offset + k) ∧ verify_poi_event e (c_list_key cfg) = Ok ().
Proof.
  revert offset snapshots. induction events as [|e events IH]; intros offset snapshots; cbn [snapshot_events].
  - intros [= <-]. by split; [|intros [] ? ?].
  - rewrite bind_Ok. intros (sn & Hsn & Hr). apply bind_Ok in Hr as (rest & Hrest & [= <-]).
    destruct (IH _ _ Hrest) as [Hix Hev]. unfold snapshot_event in Hsn.
    apply bind_Ok in Hsn as (x & [-> _]%ok_or_Ok%checked_add_Some & Hsn). case_decide as Hx; [done|].
    apply bind_Ok in Hsn as ([] & Hv & Hsn). apply bind_Ok in Hsn as (sg & _ & [= <-]).
    split; [cbn; by rewrite Hix|]. intros [|k] e' Hk; cbn in Hk.
    + injection Hk as <-. split; [by rewrite Hx, Nat.add_0_r|].
      by destruct (verify_poi_event e (c_list_key cfg)) as [[]|].
    + destruct (Hev k e' Hk) as [-> ?]. by rewrite Nat.add_succ_r.
Qed.

Lemma last_snapshot start events snapshots sn :
  snapshot_events (c_list_key cfg) start 0 events = Ok snapshots → last snapshots = Some sn →
  sn_event_index sn = start + Z.of_nat (length events) - 1 ∧ (0 < length events)%nat.
Proof.
  intros Hs Hl. apply snapshot_events_Ok in Hs as [Hix Hev].
  assert (last (sp_index <$> events) = Some (sn_event_index sn)) as Hlast by by rewrite <- Hix, fmap_last, Hl.
  rewrite fmap_last in Hlast. destruct (last events) as [e|] eqn:He; [|done]. injection Hlast as <-.
  rewrite last_lookup in He. destruct (Hev _ _ He) as [-> _]. apply lookup_lt_Some in He. lia.
Qed.

(** The effect of a page on the database. *)
Record page_ingested (db db' : PoiDb) (start : Z) (events : list SignedPoiEvent) (last_index : Z) : Prop := {
  pi_start : next_start db = Ok start;
  pi_last : last_index = start + Z.of_nat (length events) - 1;
  pi_count : (0 < length events)%nat;
  pi_verified k e : events !! k = Some e →
    sp_index e = start + Z.of_nat k ∧ verify_poi_event e (c_list_key cfg) = Ok () ∧
    holds_event (poi_events db') (c_list_key cfg) (c_chain_id cfg) e;
  pi_extend : events_extend (poi_events db) (poi_events db');
  pi_other_rows k : (∀ i, start ≤ i ≤ last_index → k ≠ (c_list_key cfg, c_chain_id cfg, i)) →
    poi_events db' !! k = poi_events db !! k;
  pi_tip : pair_tip db' = Some (Z.max last_index (default last_index (pair_tip db)));
  pi_other_tips k : k ≠ (c_list_key cfg, c_chain_id cfg, c_upstream_url cfg) →
    chain_tips db' !! k = chain_tips db !! k;
  pi_rest : blocked_shields db' = blocked_shields db ∧ poi_dataset_identity db' = poi_dataset_identity db ∧
    indexer_state db' = indexer_state db ∧ published_v4 db' = published_v4 db;
}.

Lemma page_transaction_tip db events last_index root db1 db' :
  insert_events db (c_list_key cfg) (c_chain_id cfg) events = Ok db1 →
  page_transaction db events last_index root = Ok db' →
  poi_events db' = poi_events db1 ∧
  pair_tip db' = Some (Z.max last_index (default last_index (pair_tip db1))) ∧
  (∀ k, k ≠ (c_list_key cfg, c_chain_id cfg, c_upstream_url cfg) → chain_tips db' !! k = chain_tips db1 !! k) ∧
  blocked_shields db' = blocked_shields db1 ∧ poi_dataset_identity db' = poi_dataset_identity db1 ∧
  indexer_state db' = indexer_state db1 ∧ published_v4 db' = published_v4 db1.
Proof.
  intros Hins. unfold page_transaction. rewrite Hins. intros Hr. apply bind_Ok in Hr as (db2 & [= <-] & Hr).
  apply bind_Ok in Hr as (tip & Htip%last_event_index_Ok & Hr). fold (pair_tip db1) in Htip. subst tip.
  destruct (match pair_tip db1 with None => true | Some tip => bool_decide (tip ≤ last_index) end) eqn:Hc.
  - apply advance_chain_tip_Ok in Hr as (root' & _ & _ & _ & ->). split_and!; try done.
    + unfold pair_tip at 1. cbn. rewrite lookup_insert_eq. cbn. f_equal.
      destruct (pair_tip db1); cbn; [apply bool_decide_eq_true in Hc|]; lia.
    + intros k Hk. cbn. by rewrite lookup_insert_ne.
  - injection Hr as <-. split_and!; try done.
    destruct (pair_tip db1); [|done]. apply bool_decide_eq_false in Hc. cbn. f_equal. lia.
Qed.

Lemma page_transaction_ingests db start events snapshots sn root db' :
  next_start db = Ok start →
  snapshot_events (c_list_key cfg) start 0 events = Ok snapshots → last snapshots = Some sn →
  page_transaction db events (sn_event_index sn) root = Ok db' →
  page_ingested db db' start events (sn_event_index sn).
Proof.
  intros Hstart Hs Hl Htx. destruct (last_snapshot _ _ _ _ Hs Hl) as [Hlast Hn].
  apply snapshot_events_Ok in Hs as [_ Hev].
  destruct (insert_events db (c_list_key cfg) (c_chain_id cfg) events) as [db1|] eqn:Hins;
    [|unfold page_transaction in Htx; by rewrite Hins in Htx].
  destruct (page_transaction_tip _ _ _ _ _ _ Hins Htx) as (Hrows & Htip & Htips & Hrest).
  unfold insert_events in Hins. apply bind_Ok in Hins as (c & [_ ->]%u64_to_i64_Ok & Hins).
  apply insert_events_fold in Hins as (Hdb1 & Hext & Hall & _ & Hother).
  assert (chain_tips db1 = chain_tips db) as Ht1 by by rewrite Hdb1.
  rewrite Ht1 in Htips. unfold pair_tip in Htip at 2. rewrite Ht1 in Htip. fold (pair_tip db) in Htip.
  rewrite Hdb1 in Hrest. cbn in Hrest.
  split; try done; rewrite ?Hrows; try done.
  - intros k e Hk. destruct (Hev k e Hk) as [? ?]. split_and!; [done..|].
    rewrite Forall_forall in Hall. apply Hall. by eapply list_elem_of_lookup_2.
  - intros k Hk. apply Hother. intros e [i Hi]%list_elem_of_lookup ->.
    destruct (Hev i e Hi) as [Hix _]. apply lookup_lt_Some in Hi. apply (Hk (sp_index e)); [lia|done].
Qed.

Lemma page_row db db' start events last_index i :
  page_ingested db db' start events last_index → start ≤ i ≤ last_index →
  ∃ row, pair_row db' i = Some row ∧ pe_event_data_complete row = true.
Proof.
  intros Hpi Hi. destruct (lookup_lt_is_Some_2 events (Z.to_nat (i - start))) as [e He].
  { pose proof (pi_last _ _ _ _ _ Hpi). lia. }
  destruct (pi_verified _ _ _ _ _ Hpi _ _ He) as (Hix & _ & sg & _ & Hrow).
  rewrite Z2Nat.id in Hix by lia. replace (sp_index e) with i in Hrow by lia. by eexists.
Qed.

Lemma page_row_other db db' start events last_index i :
  page_ingested db db' start events last_index → ¬ start ≤ i ≤ last_index → pair_row db' i = pair_row db i.
Proof. intros Hpi Hi. apply (pi_other_rows _ _ _ _ _ Hpi). intros j Hj [= ->]. lia. Qed.

Lemma page_complete_below db db' start events last_index :
  log_ok db → page_ingested db db' start events last_index → complete_below db' (last_index + 1).
Proof.
  intros Hlog Hpi i Hi. destruct (next_start_spec _ _ Hlog (pi_start _ _ _ _ _ Hpi)) as (_ & Hbelow & _).
  destruct (decide (start ≤ i)) as [Hs|Hs]; [eapply page_row; [done|lia]|].
  rewrite (page_row_other _ _ _ _ _ _ Hpi) by lia. apply Hbelow. lia.
Qed.

Lemma page_log_ok db db' start events last_index :
  log_ok db → page_ingested db db' start events last_index → log_ok db'.
Proof.
  intros Hlog Hpi. destruct (next_start_spec _ _ Hlog (pi_start _ _ _ _ _ Hpi)) as (Hs0 & _ & _).
  pose proof (page_complete_below _ _ _ _ _ Hlog Hpi) as Hbelow.
  assert (∀ i row, pair_row db' i = Some row → i ≤ last_index ∧ 0 ≤ i ∨ ∃ row, pair_row db i = Some row) as Hsplit.
  { intros i row Hi. destruct (decide (start ≤ i ≤ last_index)); [left; lia|].
    right. exists row. by rewrite <- (page_row_other _ _ _ _ _ _ Hpi). }
  assert (∀ i, is_Some (pair_row db i) → is_Some (pair_row db' i)) as Hkeep.
  { intros i [row Hi]. destruct (pi_extend _ _ _ _ _ Hpi _ _ Hi) as (row' & Hi' & _). by exists row'. }
  split.
  - intros i row [[]|[row' Hi]]%Hsplit; [done|by eapply log_nonneg].
  - intros i j row [[]|[row' Hi]]%Hsplit Hj; [destruct (Hbelow j) as (r & ? & _); [lia|by exists r]|].
    apply Hkeep. by eapply log_closed.
  - intros t Ht. rewrite (pi_tip _ _ _ _ _ Hpi) in Ht. injection Ht as <-.
    destruct (page_row _ _ _ _ _ last_index Hpi) as (r & Hr & _).
    { pose proof (pi_last _ _ _ _ _ Hpi). pose proof (pi_count _ _ _ _ _ Hpi). lia. }
    destruct (pair_tip db) as [t|] eqn:Ht; cbn; [|rewrite Z.max_id; by exists r].
    destruct (Z.max_spec last_index t) as [[_ ->]|[_ ->]]; [apply Hkeep; by eapply log_tip|by exists r].
Qed.

(** Every stored page moves the next request past it. *)
Lemma page_progress db db' start events last_index start' :
  log_ok db → page_ingested db db' start events last_index → next_start db' = Ok start' → last_index < start'.
Proof.
  intros Hlog Hpi Hn. pose proof (page_log_ok _ _ _ _ _ Hlog Hpi) as Hlog'.
  pose proof (page_complete_below _ _ _ _ _ Hlog Hpi) as Hbelow.
  destruct (next_start_spec _ _ Hlog' Hn) as (Hs0 & _ & [(row & Hrow & Hf)|[[Ht _]|Ht]]).
  - destruct (decide (last_index < start')); [done|]. destruct (Hbelow start') as (r & Hr & Hc); [lia|]. congruence.
  - by rewrite (pi_tip _ _ _ _ _ Hpi) in Ht.
  - rewrite (pi_tip _ _ _ _ _ Hpi) in Ht. injection Ht as Ht. lia.
Qed.

(** ** One page *)

(** A request that found nothing at [start]. *)
Definition nothing_at (start : Z) : Prop :=
  ∃ w w' end_index, poi_events_rpc (c_txid_version cfg) (c_chain_id cfg) (c_list_key cfg) start end_index w = (Ok [], w').
(** A request that returned [events]. *)
Definition served_at (start : Z) (events : list SignedPoiEvent) : Prop :=
  ∃ w w' end_index, poi_events_rpc (c_txid_version cfg) (c_chain_id cfg) (c_list_key cfg) start end_index w = (Ok events, w').

Definition page_post (db : PoiDb) (outcome : SyncPageOutcome) (s' : Worker) : Prop :=
  match outcome with
  | CaughtUp => w_db s' = db ∧ ∃ start, next_start db = Ok start ∧ nothing_at start
  | Ingested count last_index => ∃ start events,
      count = length events ∧ served_at start events ∧
      page_ingested db (w_db s') start events last_index ∧
      (* the replayed roots of the new cache were accepted *)
      ∃ cache w w', w_cache s' = Some cache ∧ validate_roots cache w = (Ok true, w')
  end.

Lemma wp_cached_poi_cache (Q : result ScrapeError PoiCache → Worker → Prop) s :
  (∀ r s', w_page_size s' = w_page_size s → w_db s' = w_db s → Q r s') → wp cached_poi_cache Q s.
Proof.
  intros HQ. unfold cached_poi_cache. apply wp_bind, wp_gets. destruct (w_cache s) as [cache|]; [by apply wp_ret, HQ|].
  apply wp_bind, wp_gets, wp_bind, wp_lift. destruct (load_poi_cache (w_db s)) as [cache|e]; [|by apply HQ].
  apply wp_bind, wp_set_cache, wp_ret. by apply HQ.
Qed.

Lemma wp_rpc {A} (f : W → result PoiRpcError A * W) (Q : result ScrapeError A → Worker → Prop) s :
  (∀ a w s', f (w_world s) = (Ok a, w) → same_but_world s s' → Q (Ok a) s') →
  (∀ e s', same_but_world s s' → Q (Err e) s') → wp (rpc f) Q s.
Proof.
  intros HQ He. apply wp_bind, wp_effect. intros [a|e] w s' Hf Hs _; apply wp_lift; [by eapply HQ|by apply He].
Qed.

Lemma wp_validate cache (Q : result ScrapeError bool → Worker → Prop) s :
  (∀ b w s', validate_roots cache (w_world s) = (Ok (negb b), w) → same_but_world s s' → Q (Ok b) s') →
  (∀ e s', same_but_world s s' → Q (Err e) s') →
  wp (valid ← effect (validate_roots cache); lift (map_err Cache (negb <$> valid))) Q s.
Proof.
  intros HQ He. apply wp_bind, wp_effect. intros [b|e] w s' Hv Hs _; apply wp_lift; [|by apply He].
  eapply HQ; [by rewrite negb_involutive|done].
Qed.

Lemma sync_next_page_wp db s :
  w_db s = db →
  wp sync_next_page (λ r s', w_page_size s' = w_page_size s ∧
    match r with Ok outcome => page_post db outcome s' | Err _ => w_db s' = db end) s.
Proof.
  intros Hdb. unfold sync_next_page, next_start_index. apply wp_bind, wp_bind, wp_gets, wp_lift. rewrite Hdb.
  destruct (next_start db) as [start|] eqn:Hstart; [|done]. apply wp_bind, wp_gets, wp_bind, wp_lift.
  destruct (exclusive_end_index _ _) as [e1|]; [|done]. apply wp_bind, wp_lift.
  destruct (ok_or (checked_sub e1 1) _) as [e2|]; [|done].
  apply wp_bind, wp_rpc; [|intros e s1 (? & ? & ? & ?); by split; congruence].
  intros events w s1 Hrpc (Hps1 & _ & _ & Hdb1). case_decide as Hn.
  { apply nil_length_inv in Hn. subst events. apply wp_ret. split; [done|]. split; [congruence|].
    exists start. split; [done|]. by do 3 eexists. }
  apply wp_bind, wp_lift. destruct (snapshot_events _ start 0 events) as [snaps|] eqn:Hsn; [|by split; congruence].
  apply wp_bind, wp_lift. destruct (last snaps) as [sn|] eqn:Hlast; [|by split; cbn; congruence]. cbn [ok_or].
  apply wp_bind, wp_cached_poi_cache. intros r s2 Hps2 Hdb2. destruct r as [cache|]; [|by split; congruence].
  apply wp_bind, wp_lift. destruct (apply_verified_artifact_events cache snaps) as [cache'|]; [|by split; cbn; congruence].
  apply wp_if_await, wp_validate; [|intros e s3 (? & _ & _ & ?); by split; congruence].
  intros b w3 s3 Hv (Hps3 & _ & _ & Hdb3). destruct b; [apply wp_lift; by split; congruence|].
  apply wp_bind, wp_lift. destruct (current_roots cache' !! _) as [root|]; [|by split; cbn; congruence]. cbn [ok_or].
  apply wp_bind, wp_gets, wp_bind, wp_lift. assert (w_db s3 = db) as -> by congruence.
  destruct (page_transaction db events _ _) as [tx|] eqn:Htx; [|by split; cbn; congruence]. cbn [map_err].
  apply wp_bind, wp_commit; [intros e s4 (? & _ & _ & ?); by split; congruence|].
  intros s4 Hps4 _ _ Hdb4. apply wp_bind, wp_set_cache, wp_ret. cbn. split; [congruence|].
  exists start, events. split_and!; [done|by do 3 eexists| |by do 3 eexists].
  rewrite Hdb4. by eapply page_transaction_ingests.
Qed.

(** ** Runs *)

(** The database after any number of pages. *)
Record log_advances (db db' : PoiDb) : Prop := {
  la_ok : log_ok db';
  la_extend : events_extend (poi_events db) (poi_events db');
  la_tip t : pair_tip db = Some t → ∃ t', pair_tip db' = Some t' ∧ t ≤ t';
  la_others k : k.1 ≠ (c_list_key cfg, c_chain_id cfg) → poi_events db' !! k = poi_events db !! k;
  la_blocked : blocked_shields db' = blocked_shields db;
}.

Lemma log_advances_refl db : log_ok db → log_advances db db.
Proof. intros Hlog. split; [done|apply events_extend_refl| |done|done]. intros t Ht. exists t. split; [done|lia]. Qed.

Lemma log_advances_trans db1 db2 db3 : log_advances db1 db2 → log_advances db2 db3 → log_advances db1 db3.
Proof.
  intros [_ He12 Ht12 Ho12 Hb12] [Hok He23 Ht23 Ho23 Hb23]. split; [done|by eapply events_extend_trans| |by intros; rewrite Ho23, Ho12|congruence].
  intros t (t2 & Ht2 & ?)%Ht12. destruct (Ht23 t2 Ht2) as (t3 & Ht3 & ?). exists t3. split; [done|lia].
Qed.

Lemma page_advances db db' start events last_index :
  log_ok db → page_ingested db db' start events last_index → log_advances db db'.
Proof.
  intros Hlog Hpi. split; [by eapply page_log_ok|by eapply pi_extend| | |by apply (pi_rest _ _ _ _ _ Hpi)].
  - intros t Ht. rewrite (pi_tip _ _ _ _ _ Hpi), Ht. cbn. eexists. split; [done|lia].
  - intros k Hk. apply (pi_other_rows _ _ _ _ _ Hpi). by intros i _ ->.
Qed.

Definition run_post (db : PoiDb) (r : result ScrapeError RunUntilOutcome) (s' : Worker) : Prop :=
  adapter_ok (w_page_size s') ∧ log_advances db (w_db s') ∧
  (r = Ok RunCaughtUp → ∃ start, next_start (w_db s') = Ok start ∧ complete_below (w_db s') start ∧ nothing_at start).

(** Pages still to come from an upstream with [n] events. *)
Definition pages_left (n : Z) (db : PoiDb) : nat :=
  match next_start db with Ok start => Z.to_nat (n - start) | Err _ => 0%nat end.

Lemma run_loop_wp n fuel :
  (∀ start events, served_at start events → events ≠ [] → start < n) →
  ∀ s, log_ok (w_db s) → adapter_ok (w_page_size s) → (pages_left n (w_db s) < fuel)%nat →
  wp (run_loop fuel) (run_post (w_db s)) s.
Proof.
  intros Hup. induction fuel as [|fuel IH]; intros s Hlog Hok Hf; [lia|]. cbn [run_loop].
  apply wp_if_await, wp_shutdown_requested. intros b s1 (Hps1 & _ & Hdb1).
  assert (∀ r s', r ≠ Ok RunCaughtUp → w_db s' = w_db s → adapter_ok (w_page_size s') → run_post (w_db s) r s') as Hsame.
  { intros r s' Hr Hdb Ha. split_and!; [done| |done]. rewrite Hdb. by apply log_advances_refl. }
  destruct b; [apply wp_ret; apply Hsame; congruence|].
  apply wp_bind. eapply wp_mono; [|apply (retry_wp _ (w_db s) (page_post (w_db s)));
    [intros s2 Hdb2 _; by apply sync_next_page_wp|congruence|congruence]].
  intros r s2 [Ha2 Hr]. destruct r as [[[|count last_index]|]|e]; [..|by apply Hsame].
  - destruct Hr as (Hdb2 & start & Hstart & Hnone). apply wp_ret. split_and!; [done|rewrite Hdb2; by apply log_advances_refl|].
    intros _. exists start. rewrite Hdb2. split_and!; [done| |done]. by apply next_start_spec.
  - destruct Hr as (start & events & Hc & Hserved & Hpi & _). apply wp_bind, wp_set_page_size.
    apply wp_bind, wp_record_page_success. intros s3 (Hps3 & _ & Hdb3). cbn in Hps3, Hdb3.
    apply wp_if_await, wp_sleep_or_shutdown. intros b s4 (Hps4 & _ & Hdb4). assert (w_db s4 = w_db s2) as Hdb by congruence.
    assert (adapter_ok (w_page_size s4)) by (rewrite Hps4, Hps3; by apply (on_outcome_ok _ true)).
    pose proof (page_advances _ _ _ _ _ Hlog Hpi) as Hadv. rewrite <- Hdb in Hadv.
    destruct b; [by apply wp_ret|]. eapply wp_mono; [|apply IH; [by eapply la_ok|done|]].
    + intros r s' (? & ? & ?). split_and!; [done|by eapply log_advances_trans|done].
    + unfold pages_left in *. rewrite (pi_start _ _ _ _ _ Hpi) in Hf. pose proof (pi_last _ _ _ _ _ Hpi).
      pose proof (pi_count _ _ _ _ _ Hpi). assert (start < n) by (eapply Hup; [done|]; intros ->; cbn in *; lia).
      rewrite Hdb. destruct (next_start (w_db s2)) as [start'|] eqn:Hn; [|lia].
      pose proof (page_progress _ _ _ _ _ _ Hlog Hpi Hn). lia.
  - apply wp_ret. by apply Hsame.
Qed.

(** ** Blocked shields *)
Definition all_verified (records : list SignedBlockedShield) : Prop :=
  Forall (λ r, verify_blocked_shield r (c_list_key cfg) = Ok ()) records.

Lemma verify_blocked_shields_Ok records :
  verify_blocked_shields (c_list_key cfg) records = Ok () → all_verified records.
Proof.
  unfold verify_blocked_shields. induction records as [|r records IH]; cbn [try_fold]; [constructor|].
  rewrite bind_Ok. intros ([] & Hv & Hr). constructor; [|by apply IH].
  by destruct (verify_blocked_shield r (c_list_key cfg)) as [[]|].
Qed.

(** A request that returned [records] from [start]. *)
Definition blocked_at (start : Z) (records : list SignedBlockedShield) : Prop :=
  ∃ w w' end_index, blocked_shields_rpc (c_txid_version cfg) (c_chain_id cfg) (c_list_key cfg) start end_index w = (Ok records, w').

Definition blocked_page_post (db : PoiDb) (start : Z) (outcome : BlockedShieldPageOutcome) (s' : Worker) : Prop :=
  w_db s' = db ∧
  match outcome with
  | BlockedCaughtUp => blocked_at start []
  | BlockedIngested records => records ≠ [] ∧ blocked_at start records ∧ all_verified records
  end.

Lemma sync_blocked_shields_page_wp db start s :
  w_db s = db →
  wp (sync_blocked_shields_page start) (λ r s', w_page_size s' = w_page_size s ∧
    match r with Ok outcome => blocked_page_post db start outcome s' | Err _ => w_db s' = db end) s.
Proof.
  intros Hdb. unfold sync_blocked_shields_page. apply wp_bind, wp_gets, wp_bind, wp_lift.
  destruct (exclusive_end_index _ _) as [e1|]; [|done].
  apply wp_bind, wp_rpc; [|intros e s1 (? & ? & ? & ?); by split; congruence].
  intros records w s1 Hrpc (Hps1 & _ & _ & Hdb1). case_decide as Hn.
  - apply nil_length_inv in Hn. subst records. apply wp_ret. split; [done|]. split; [congruence|by do 3 eexists].
  - apply wp_bind, wp_lift. destruct (verify_blocked_shields _ records) as [[]|] eqn:Hv; [|by split; congruence].
    apply wp_ret. split; [done|]. split_and!; [congruence|by intros ->|by do 3 eexists|by apply verify_blocked_shields_Ok].
Qed.

(** The pages of one collection: consecutive requests until an empty one. *)
Inductive collected : Z → list SignedBlockedShield → Prop :=
  | collected_end start : blocked_at start [] → collected start []
  | collected_page start page rest :
      page ≠ [] → blocked_at start page → all_verified page →
      collected (start + Z.of_nat (length page)) rest → collected start (page ++ rest).

Lemma collected_verified start records : collected start records → all_verified records.
Proof. induction 1; [constructor|by apply Forall_app]. Qed.

Lemma collect_loop_wp n fuel :
  (∀ start records, blocked_at start records → records ≠ [] → start < n) →
  ∀ s start acc, adapter_ok (w_page_size s) → (Z.to_nat (n - start) < fuel)%nat →
  wp (collect_loop fuel start acc) (λ r s', adapter_ok (w_page_size s') ∧ w_db s' = w_db s ∧
    match r with Ok (Some records) => ∃ rest, records = acc ++ rest ∧ collected start rest | _ => True end) s.
Proof.
  intros Hup. induction fuel as [|fuel IH]; intros s start acc Hok Hf; [lia|]. cbn [collect_loop].
  apply wp_if_await, wp_shutdown_requested. intros b s1 (Hps1 & _ & Hdb1).
  destruct b; [apply wp_ret; split_and!; solve [done|congruence]|].
  apply wp_bind. eapply wp_mono; [|apply (retry_wp _ (w_db s) (blocked_page_post (w_db s) start));
    [intros s2 Hdb2 _; by apply sync_blocked_shields_page_wp|congruence|congruence]].
  intros r s2 [Ha2 Hr]. destruct r as [[[|page]|]|e]; [..|done].
  - destruct Hr as [Hdb2 Hb]. apply wp_ret. split_and!; [done..|]. exists []. rewrite app_nil_r. split; [done|]. by constructor.
  - destruct Hr as (Hdb2 & Hne & Hb & Hv). apply wp_bind, wp_lift.
    destruct (checked_add u64_max start _) as [start'|] eqn:Hadd; [|done]. cbn [ok_or].
    apply checked_add_Some in Hadd as [-> _]. apply wp_bind, wp_set_page_size, wp_if_await, wp_sleep_or_shutdown.
    intros b s3 (Hps3 & _ & Hdb3). cbn in Hps3, Hdb3.
    assert (adapter_ok (w_page_size s3)) by (rewrite Hps3; by apply (on_outcome_ok _ true)).
    destruct b; [apply wp_ret; split_and!; solve [done|congruence]|]. assert (start < n) by by eapply Hup.
    assert (0 < length page)%nat by (destruct page; [done|cbn; lia]).
    eapply wp_mono; [|apply IH; [done|lia]]. intros r s' (? & ? & Hr). split_and!; [done|congruence|].
    destruct r as [[records|]|]; [|done..]. destruct Hr as (rest & -> & Hc). exists (page ++ rest).
    rewrite app_assoc. split; [done|]. by constructor.
  - apply wp_ret. split_and!; [done..|done].
Qed.
End worker.

(** ** Comparing blocked sets *)
Section sets.
Context `{PoiCrate}.

Definition blocked_key (r : SignedBlockedShield) : bytes * bytes * bytes * option bytes :=
  (sb_blinded_commitment r, sb_commitment_hash r, sb_signature r, sb_block_reason r).
Lemma blocked_key_inj r r' : blocked_key r = blocked_key r' → r = r'.
Proof. destruct r, r'. unfold blocked_key. cbn. congruence. Qed.

Lemma blocked_sets_match_spec left right : blocked_shield_sets_match left right = true ↔ left ≡ₚ right.
Proof.
  unfold blocked_shield_sets_match. rewrite bool_decide_eq_true.
  rewrite <- (@sort_cmp_perm _ (inj_cmp blocked_key blocked_key_inj)). done.
Qed.
End sets.

(** ** Properties *)

Lemma wp_exists `{World W} {A} (m : M A) (Q : result ScrapeError A → Worker (W:=W) → Prop) s :
  wp m Q s → ∃ r s', m s = Some (r, s') ∧ Q r s'.
Proof. unfold wp. destruct (m s) as [[r s']|]; [|done]. intros HQ. by exists r, s'. Qed.

(** C6. One page request is atomic and exact. It always returns; on an error,
    or when the upstream has nothing at the next index, the database is
    unchanged. Otherwise the returned events were served at the next index,
    are consecutive, pass signature verification and are all stored, the roots
    of the replayed cache were accepted upstream, no complete row changes, the
    tip becomes the maximum of itself and the last index, and nothing else
    moves. If the stored indexes were an initial segment containing the tip,
    they still are, all of it is complete up to the page, and the next request
    starts past it. *)
Theorem sync_next_page_spec `{World W} cfg (s : Worker (W:=W)) :
  ∃ r s', sync_next_page cfg s = Some (r, s') ∧ w_page_size s' = w_page_size s ∧
  match r with
  | Err _ => w_db s' = w_db s
  | Ok CaughtUp => w_db s' = w_db s ∧ ∃ start, next_start cfg (w_db s) = Ok start ∧ nothing_at (W:=W) cfg start
  | Ok (Ingested count last_index) => ∃ start events cache w w',
      count = length events ∧ served_at (W:=W) cfg start events ∧
      page_ingested cfg (w_db s) (w_db s') start events last_index ∧
      w_cache s' = Some cache ∧ validate_roots cache w = (Ok true, w') ∧
      (log_ok cfg (w_db s) → log_ok cfg (w_db s') ∧ complete_below cfg (w_db s') (last_index + 1) ∧
         ∀ start', next_start cfg (w_db s') = Ok start' → last_index < start')
  end.
Proof.
  destruct (wp_exists _ _ _ (sync_next_page_wp cfg (w_db s) s eq_refl)) as (r & s' & Hrun & Hps & Hr).
  exists r, s'. split; [done|]. split; [done|]. destruct r as [[|count last_index]|e]; [done| |done].
  destruct Hr as (start & events & ? & ? & Hpi & cache & w & w' & ? & ?).
  exists start, events, cache, w, w'. split_and!; [done..|]. intros Hlog.
  split_and!; [by eapply page_log_ok|by eapply page_complete_below|]. intros start'. by eapply page_progress.
Qed.

(** A run against an upstream with at most [n] events returns within
    [n + 1] pages, whatever errors, retries, page-size changes and shutdowns
    occur on the way; the event log stays an initial segment with the tip in
    it, complete rows, other pairs and the blocked set never change, the tip
    never regresses, and when the run reports that it caught up, everything
    below the next index is stored and complete and the upstream answered that
    it has nothing from there. *)
Theorem run_until_caught_up_correct `{World W} cfg n fuel (s : Worker (W:=W)) :
  (∀ start events, served_at (W:=W) cfg start events → events ≠ [] → start < n) →
  log_ok cfg (w_db s) → adapter_ok (w_page_size s) → (Z.to_nat n < fuel)%nat →
  ∃ r s', run_until_caught_up_or_shutdown cfg fuel s = Some (r, s') ∧
    adapter_ok (w_page_size s') ∧ log_advances cfg (w_db s) (w_db s') ∧
    (r = Ok RunCaughtUp → ∃ start,
       next_start cfg (w_db s') = Ok start ∧ complete_below cfg (w_db s') start ∧ nothing_at (W:=W) cfg start).
Proof.
  intros Hup Hlog Hok Hf. apply wp_exists. unfold run_until_caught_up_or_shutdown. case_decide.
  - apply wp_lift. split_and!; [done|by apply log_advances_refl|done].
  - eapply run_loop_wp; [done..|]. unfold pages_left.
    destruct (next_start cfg (w_db s)) as [start|] eqn:Hn; [|lia]. apply next_start_spec in Hn as [? _]; [lia|done].
Qed.

(** The blocked-shield mirror: against an upstream with at most [n]
    blocked shields a sync returns; only a sync that caught up can change the
    database, and then either the collected set equals the stored one and the
    database is unchanged, or a second complete collection of verified pages
    is a permutation of the first and the stored set was replaced by it. *)
Theorem blocked_shields_sync_correct `{World W} cfg n fuel (s : Worker (W:=W)) :
  (∀ start records, blocked_at (W:=W) cfg start records → records ≠ [] → start < n) →
  adapter_ok (w_page_size s) → (Z.to_nat n < fuel)%nat →
  ∃ r s', sync_blocked_shields_until_caught_up_or_shutdown cfg fuel s = Some (r, s') ∧
  match r with
  | Ok RunCaughtUp => ∃ first, collected (W:=W) cfg 0 first ∧
      (w_db s' = w_db s ∧
         (∃ local, all_blocked_shields (w_db s) (c_list_key cfg) (c_chain_id cfg) = Ok local ∧
            stored_blocked_shields local ≡ₚ first) ∨
       ∃ second, collected (W:=W) cfg 0 second ∧ second ≡ₚ first ∧ all_verified cfg second ∧
         replace_blocked_shields (w_db s) (c_list_key cfg) (c_chain_id cfg) second = Ok (w_db s'))
  | _ => w_db s' = w_db s
  end.
Proof.
  intros Hup Hok Hf. apply wp_exists. unfold sync_blocked_shields_until_caught_up_or_shutdown. case_decide; [done|].
  assert (∀ s0 : Worker (W:=W), adapter_ok (w_page_size s0) → _) as Hcollect
    by (intros s0 Hok0; exact (collect_loop_wp cfg n fuel Hup s0 0 [] Hok0 ltac:(lia))).
  apply wp_bind. eapply wp_mono; [|by apply Hcollect]. intros r s1 (Hok1 & Hdb1 & Hr).
  destruct r as [[first|]|e]; [|by apply wp_ret|done]. destruct Hr as (first' & -> & Hfirst). cbn [app].
  apply wp_bind, wp_gets, wp_bind, wp_lift. rewrite Hdb1.
  destruct (all_blocked_shields (w_db s) _ _) as [local|] eqn:Hlocal; [|done]. cbn [map_err].
  destruct (blocked_shield_sets_match _ _) eqn:Hm1.
  { apply wp_ret. exists first'. split; [done|]. left. split; [done|]. exists local. split; [done|].
    apply blocked_sets_match_spec in Hm1. by rewrite Hm1. }
  apply wp_bind. eapply wp_mono; [|by apply Hcollect]. intros r s2 (Hok2 & Hdb2 & Hr).
  destruct r as [[second|]|e]; [|apply wp_ret; congruence|congruence]. destruct Hr as (second' & -> & Hsecond). cbn [app].
  destruct (blocked_shield_sets_match _ second') eqn:Hm2; cbn [negb]; [|apply wp_lift; congruence].
  apply wp_bind, wp_gets, wp_bind, wp_lift. assert (w_db s2 = w_db s) as -> by congruence.
  destruct (replace_blocked_shields _ _ _ _) as [tx|] eqn:Htx; [|cbn; congruence]. cbn [map_err].
  apply wp_bind, wp_commit; [intros e s3 (_ & _ & _ & ?); congruence|]. intros s3 _ _ _ Hdb3. apply wp_ret. rewrite Hdb3.
  exists first'. split; [done|]. right. exists second'. apply blocked_sets_match_spec in Hm2.
  split_and!; [done|done|by eapply collected_verified|done].
Qed.

(** ** A concrete upstream

    Two events and one blocked shield, served to whoever asks. *)
#[export] Instance toy_crate : PoiCrate := {|
  PoiRpcError := unit;
  StatusCode := Z;
  is_post _ := true;
  http_status _ := None;
  is_server_error _ := false;
  TOO_MANY_REQUESTS := 429;
  VerifyError := unit;
  verify_poi_event _ _ := Ok ();
  verify_blocked_shield _ _ := Ok ();
  PoiCacheError := unit;
  PoiCache := list SnapshotEvent;
  cache_new _ _ _ _ := [];
  apply_verified_artifact_events cache events := Ok (cache ++ events);
  current_roots _ := {[ 0 := replicate 32 Byte.x00 ]};
  crate_normalize_tree_position t p := (t + p / 65536, p mod 65536);
|}.
(** The world counts its requests; the first one fails. *)
#[export] Instance toy_world : World nat := {|
  poi_events_rpc _ _ _ start end_index w :=
    (match w with
     | O => Err ()
     | S _ => Ok (filter (λ e, start ≤ sp_index e ≤ end_index) (toy_event <$> [0; 1]))
     end, S w);
  blocked_shields_rpc _ _ _ start _ w := (if decide (start = 0) then Ok [toy_blocked] else Ok [], S w);
  validate_roots _ w := (Ok true, w);
  borrow_shutdown w := (false, w);
  select_sleep _ w := (Elapsed, w);
  commit_outcome w := (None, w);
  unix_now w := (0, w);
  error_display _ := ("error"%string, []);
|}.
Definition toy_config : Config := mkConfig 7 1 "https://poi" (mkPolicy 3 1000 4000) 0 "V2_PoseidonMerkle".
Definition toy_worker : Worker (W:=nat) := mkWorker (adapter_new 1 100 1) None None empty_db 0%nat.

Lemma empty_log_ok : log_ok toy_config empty_db.
Proof. by split. Qed.

Lemma run_until_caught_up_correct_witness :
  ∃ r s', run_until_caught_up_or_shutdown toy_config 3 toy_worker = Some (r, s') ∧
    adapter_ok (w_page_size s') ∧ log_advances toy_config empty_db (w_db s') ∧
    (r = Ok RunCaughtUp → ∃ start,
       next_start toy_config (w_db s') = Ok start ∧ complete_below toy_config (w_db s') start ∧
       nothing_at (W:=nat) toy_config start).
Proof.
  apply (run_until_caught_up_correct toy_config 2 3 toy_worker).
  - intros start events (w & w' & e & Hs) Hne. destruct w as [|w]; [discriminate Hs|]. injection Hs as Hs _.
    destruct (decide (start < 2)) as [|Hge]; [done|]. exfalso. apply Hne. rewrite <- Hs.
    change (toy_event <$> [0; 1]) with [toy_event 0; toy_event 1].
    rewrite !filter_cons, !decide_False by (cbn; lia). done.
  - apply empty_log_ok.
  - apply adapter_new_ok.
  - cbn. lia.
Defined.

(** What the run leaves: both events, the tip at 1, after one retry. *)
Example toy_run :
  match run_until_caught_up_or_shutdown toy_config 3 toy_worker with
  | Some (Ok RunCaughtUp, s') =>
      pair_tip toy_config (w_db s') = Some 1 ∧ size (poi_events (w_db s')) = 2%nat ∧ w_world s' = 4%nat
  | _ => False
  end.
Proof. vm_compute. done. Qed.

Lemma blocked_shields_sync_correct_witness :
  ∃ r s', sync_blocked_shields_until_caught_up_or_shutdown toy_config 3 toy_worker = Some (r, s') ∧
  match r with
  | Ok RunCaughtUp => ∃ first, collected (W:=nat) toy_config 0 first ∧
      (w_db s' = empty_db ∧
         (∃ local, all_blocked_shields empty_db (c_list_key toy_config) (c_chain_id toy_config) = Ok local ∧
            stored_blocked_shields local ≡ₚ first) ∨
       ∃ second, collected (W:=nat) toy_config 0 second ∧ second ≡ₚ first ∧ all_verified toy_config second ∧
         replace_blocked_shields empty_db (c_list_key toy_config) (c_chain_id toy_config) second = Ok (w_db s'))
  | _ => w_db s' = empty_db
  end.
Proof.
  apply (blocked_shields_sync_correct toy_config 1 3 toy_worker).
  - intros start records (w & w' & e & Hs) Hne. cbn in Hs. injection Hs as Hs _.
    destruct (decide (start = 0)) as [->|]; [lia|]. injection Hs as <-. done.
  - apply adapter_new_ok.
  - cbn. lia.
Defined.
Example toy_blocked_run :
  match sync_blocked_shields_until_caught_up_or_shutdown toy_config 3 toy_worker with
  | Some (Ok RunCaughtUp, s') => size (blocked_shields (w_db s')) = 1%nat
  | _ => False
  end.
Proof. vm_compute. done. Qed.
