(* ===== verification/Orchestrator.v ===== *)
(** * The scrape orchestrator ([scrape/orchestrator.rs])

    One worker per (list, chain) pair, spawned chunk by chunk onto a [JoinSet]
    over the shared store and status. A chunk runs under a schedule: each entry
    lets one worker do one round of its loop, or lets the orchestrator join a
    finished worker. A round is one page with its retries; it reads and writes
    the rows of its own pair only, so rounds are the steps of the interleaving.
    A [Duration] is its number of nanoseconds. *)

From S2P Require Import Prelude Order PoiStore Paging Status ScrapeWorker.

Module Orch.
Definition DEFAULT_MIN_PAGE_SIZE : Z := 25.
Definition DEFAULT_RETRY_BASE_DELAY : Z := 2 * 1000000000.
Definition DEFAULT_RETRY_MAX_DELAY : Z := 10 * 60 * 1000000000.

Record Orchestrator := mkOrchestrator {
  o_upstream_url : string;
  o_list_keys : list Z;
  o_chain_ids : list Z;
  o_txid_version : string;
  o_page_size_max : Z;
  o_retry_budget : nat;
  o_polite_interval : Z;
  o_per_pair_concurrency_limit : nat }.

Definition pairs (o : Orchestrator) : list (Z * Z) :=
  concat ((λ list_key, (λ chain_id, (list_key, chain_id)) <$> o_chain_ids o) <$> o_list_keys o).

Section orchestrator.
Context `{World W}.
Abbreviation Worker := (Worker (W := W)).
Abbreviation M := (M (W := W)).

(** [worker_for_pair]: the fixed fields and the first page size *)
Definition worker_for_pair (o : Orchestrator) (pair : Z * Z) : Config * PageSizeAdapter :=
  (mkConfig pair.1 pair.2 (o_upstream_url o)
     (mkPolicy (o_retry_budget o) DEFAULT_RETRY_BASE_DELAY DEFAULT_RETRY_MAX_DELAY) (o_polite_interval o) (o_txid_version o),
   adapter_new (o_page_size_max o) (o_page_size_max o) DEFAULT_MIN_PAGE_SIZE).

(** ** Workers as tasks *)
(** One round of [run_until_caught_up_or_shutdown]; [None]: it goes on. *)
Definition round (cfg : Config) : M (option RunUntilOutcome) :=
  if decide (budget (c_retry_policy cfg) = 0%nat) then fail NoRetryAttemptsConfigured
  else if_await shutdown_requested (mret (Some RunShutdown)) (
    outcome ← sync_next_page_with_retry cfg;
    match outcome with
    | None => mret (Some RunShutdown)
    | Some CaughtUp => mret (Some RunCaughtUp)
    | Some (Ingested _ last_event_index) =>
        _ ← set_page_size on_success;
        _ ← worker_record_page_success cfg last_event_index;
        if_await (sleep_or_shutdown (c_polite_interval cfg)) (mret (Some RunShutdown)) (mret None)
    end).
(** A blocked-shield sync writes at its end only: it is one round. *)
Definition blocked_round (fuel : nat) (cfg : Config) : M (option RunUntilOutcome) :=
  outcome ← sync_blocked_shields_until_caught_up_or_shutdown cfg fuel; mret (Some outcome).

(** What a worker has to itself, and what all share. *)
Record Local := mkLocal { l_page_size : PageSizeAdapter; l_cache : option PoiCache; l_world : W }.
Record Shared := mkShared { sh_db : PoiDb; sh_status : option (list PairSyncStatus) }.
Definition as_worker (l : Local) (sh : Shared) : Worker := mkWorker (l_page_size l) (l_cache l) (sh_status sh) (sh_db sh) (l_world l).
Definition local_of (s : Worker) : Local := mkLocal (w_page_size s) (w_cache s) (w_world s).
Definition shared_of (s : Worker) : Shared := mkShared (w_db s) (w_status s).

Inductive TaskState := Running (l : Local) | Finished (r : result ScrapeError RunUntilOutcome).
Abbreviation tasks := (list (Config * TaskState)).

(** The [JoinSet]: its tasks, and the results not joined yet, oldest first. *)
Record JoinSet := mkJoinSet { js_tasks : tasks; js_completed : list (result ScrapeError RunUntilOutcome) }.

Definition finished (t : Config * TaskState) : bool := match t.2 with Running _ => false | Finished _ => true end.

(** A worker's turn. *)
Definition run_worker (body : Config → M (option RunUntilOutcome)) (i : nat) (sh : Shared) (set : JoinSet) : option (Shared * JoinSet) :=
  match js_tasks set !! i with
  | Some (cfg, Running l) =>
      match body cfg (as_worker l sh) with
      | None => None
      | Some (Ok None, s) => Some (shared_of s, mkJoinSet (<[i := (cfg, Running (local_of s))]> (js_tasks set)) (js_completed set))
      | Some (Ok (Some outcome), s) =>
          Some (shared_of s, mkJoinSet (<[i := (cfg, Finished (Ok outcome))]> (js_tasks set)) (js_completed set ++ [Ok outcome]))
      | Some (Err e, s) => Some (shared_of s, mkJoinSet (<[i := (cfg, Finished (Err e))]> (js_tasks set)) (js_completed set ++ [Err e]))
      end
  | _ => Some (sh, set)
  end.

(** [while let Some(result) = workers.join_next().await { result??; }] under a
    schedule: [Some i] is a turn of worker [i], [None] one of the orchestrator.
    An error returns at once, which drops the set and aborts its workers.
    [None]: the schedule ended first. *)
Fixpoint run_chunk (body : Config → M (option RunUntilOutcome)) (schedule : list (option nat)) (sh : Shared) (set : JoinSet)
    : option (result ScrapeError unit * Shared * tasks) :=
  match schedule with
  | [] => None
  | Some i :: schedule =>
      match run_worker body i sh set with
      | None => None
      | Some (sh, set) => run_chunk body schedule sh set
      end
  | None :: schedule =>
      match js_completed set with
      | Ok _ :: completed => run_chunk body schedule sh (mkJoinSet (js_tasks set) completed)
      | Err e :: _ => Some (Err e, sh, js_tasks set)
      | [] => if forallb finished (js_tasks set) then Some (Ok tt, sh, js_tasks set) else run_chunk body schedule sh set
      end
  end.

Definition spawn_chunk (o : Orchestrator) (worlds : Z * Z → W) (chunk : list (Z * Z)) : JoinSet :=
  mkJoinSet ((λ pair, let '(cfg, page_size) := worker_for_pair o pair in (cfg, Running (mkLocal page_size None (worlds pair)))) <$> chunk) [].

(** [run_until_caught_up_or_shutdown] and
    [resync_blocked_shields_once_or_shutdown]: per chunk, the shutdown flag
    and the schedule; also the workers' results, chunk by chunk. *)
Fixpoint run_chunks (body : Config → M (option RunUntilOutcome)) (o : Orchestrator) (worlds : Z * Z → W)
    (script : list (bool * list (option nat))) (sh : Shared) (cs : list (list (Z * Z))) : option (result ScrapeError unit * Shared * tasks) :=
  match cs, script with
  | [], _ => Some (Ok tt, sh, [])
  | _ :: _, [] => None
  | chunk :: cs, (shutdown, schedule) :: script =>
      if shutdown then Some (Ok tt, sh, [])
      else match run_chunk body schedule sh (spawn_chunk o worlds chunk) with
      | None => None
      | Some (Err e, sh, ts) => Some (Err e, sh, ts)
      | Some (Ok _, sh, ts) =>
          match run_chunks body o worlds script sh cs with
          | None => None
          | Some (r, sh, rest) => Some (r, sh, ts ++ rest)
          end
      end
  end.

Definition run_until_caught_up_or_shutdown (o : Orchestrator) (worlds : Z * Z → W) (script : list (bool * list (option nat))) (sh : Shared) :=
  run_chunks round o worlds script sh (chunks (o_per_pair_concurrency_limit o) (pairs o)).
Definition resync_blocked_shields_once_or_shutdown (fuel : nat) (o : Orchestrator) (worlds : Z * Z → W)
    (script : list (bool * list (option nat))) (sh : Shared) :=
  run_chunks (blocked_round fuel) o worlds script sh (chunks (o_per_pair_concurrency_limit o) (pairs o)).

(** [run_blocked_shield_resync_loop_or_shutdown] over what its [select!] sees:
    a tick, or a change of the shutdown channel; then the flag, and the cycle
    that follows. The error of a cycle is logged; [None]: it still runs. *)
Inductive ResyncSelect := IntervalTick | ShutdownChanged (is_err shutdown : bool).
Fixpoint resync_loop (fuel : nat) (o : Orchestrator)
    (events : list (ResyncSelect * bool * (Z * Z → W) * list (bool * list (option nat)))) (sh : Shared) : option Shared :=
  match events with
  | [] => None
  | (select, shutdown, worlds, script) :: events =>
      let stop := match select with IntervalTick => false | ShutdownChanged is_err changed => is_err || changed end in
      if stop || shutdown then Some sh
      else match resync_blocked_shields_once_or_shutdown fuel o worlds script sh with
      | None => None
      | Some (_, sh, _) => resync_loop fuel o events sh
      end
  end.

(** ** A worker alone is the loop of its rounds *)
Lemma run_loop_rounds cfg fuel s : budget (c_retry_policy cfg) ≠ 0%nat →
  run_loop cfg (S fuel) s =
  match round cfg s with
  | Some (Ok None, s) => run_loop cfg fuel s
  | Some (Ok (Some outcome), s) => Some (Ok outcome, s)
  | Some (Err e, s) => Some (Err e, s)
  | None => None
  end.
Proof.
  intros Hb. unfold round. rewrite decide_False by done. cbn [run_loop]. unfold if_await, mbind, M_bind, mret, M_ret.
  repeat (case_match; simplify_eq; try done).
Qed.
End orchestrator.
End Orch.
