(* ===== verification/OrchestratorCorrect.v ===== *)
(** * Correctness of the scrape orchestrator

    Under every fair interleaving the workers of a run finish, and their pairs
    do not disturb each other. *)

From S2P Require Import Prelude Order PoiStore Paging Status ScrapeWorker Orchestrator.

Module OrchCorrect.
Import Orch.

Section views.
Context `{World W}.

Definition pair_of (cfg : Config) : Z * Z := (c_list_key cfg, c_chain_id cfg).

(** Two databases hold the same rows and tip for the pair of [cfg]. *)
Definition same_view (cfg : Config) (db db' : PoiDb) : Prop :=
  (∀ i, pair_row cfg db' i = pair_row cfg db i) ∧
  chain_tips db' !! (c_list_key cfg, c_chain_id cfg, c_upstream_url cfg) = chain_tips db !! (c_list_key cfg, c_chain_id cfg, c_upstream_url cfg).

Lemma same_view_refl cfg db : same_view cfg db db.
Proof. done. Qed.

Lemma same_view_tip cfg db db' : same_view cfg db db' → pair_tip cfg db' = pair_tip cfg db.
Proof. intros [_ Ht]. unfold pair_tip. by rewrite Ht. Qed.

Lemma same_view_log_ok cfg db db' : same_view cfg db db' → log_ok cfg db → log_ok cfg db'.
Proof.
  intros Hv [A1 A2 A3]. pose proof (same_view_tip _ _ _ Hv) as Ht. destruct Hv as [Hr _]. split.
  - intros i row. rewrite Hr. apply A1.
  - intros i j row. rewrite !Hr. apply A2.
  - intros t. rewrite Ht, Hr. apply A3.
Qed.

Lemma same_view_complete cfg db db' start : same_view cfg db db' → complete_below cfg db start → complete_below cfg db' start.
Proof. intros [Hr _] Hc i Hi. rewrite Hr. by apply Hc. Qed.

Lemma same_view_first_incomplete cfg db db' : same_view cfg db db' → log_ok cfg db →
  first_incomplete_event_index db' (c_list_key cfg) (c_chain_id cfg) = first_incomplete_event_index db (c_list_key cfg) (c_chain_id cfg).
Proof.
  intros Hv Hlog. pose proof (same_view_log_ok _ _ _ Hv Hlog) as Hlog'. destruct Hv as [Hr _]. unfold pair_row in Hr.
  destruct (decide (c_chain_id cfg ≤ i64_max)) as [Hc|Hc].
  - pose proof (first_incomplete_spec db (c_list_key cfg) (c_chain_id cfg) Hc (log_nonneg _ _ Hlog)) as A1.
    pose proof (first_incomplete_spec db' (c_list_key cfg) (c_chain_id cfg) Hc (log_nonneg _ _ Hlog')) as A2.
    destruct (first_incomplete_event_index db _ _) as [[i|]|]; [| |done];
      destruct (first_incomplete_event_index db' _ _) as [[j|]|]; try done.
    + destruct A1 as [(row1 & Hi1 & Hf1) Hb1], A2 as [(row2 & Hj2 & Hf2) Hb2]. rewrite Hr in Hj2. do 2 f_equal.
      destruct (Z.lt_trichotomy i j) as [Hlt|[->|Hlt]]; [|done|].
      * rewrite <- Hr in Hi1. specialize (Hb2 i row1 Hi1 Hlt). congruence.
      * specialize (Hb1 j row2 Hj2 Hlt). congruence.
    + destruct A1 as [(row1 & Hi1 & Hf1) _]. rewrite <- Hr in Hi1. specialize (A2 i row1 Hi1). congruence.
    + destruct A2 as [(row2 & Hj2 & Hf2) _]. rewrite Hr in Hj2. specialize (A1 j row2 Hj2). congruence.
  - unfold first_incomplete_event_index. destruct (u64_to_i64 (c_chain_id cfg) "chain_id") as [c|] eqn:E; [|done].
    by apply u64_to_i64_Ok in E as [? _].
Qed.

Lemma same_view_next_start cfg db db' : same_view cfg db db' → log_ok cfg db → next_start cfg db' = next_start cfg db.
Proof.
  intros Hv Hlog. unfold next_start. rewrite (same_view_first_incomplete _ _ _ Hv Hlog). destruct Hv as [_ Ht].
  unfold last_event_index. destruct (u64_to_i64 (c_chain_id cfg) "chain_id") as [c|] eqn:E; [|done].
  pose proof E as E'. apply u64_to_i64_Ok in E' as [_ ->]. cbn. by rewrite Ht.
Qed.

(** A page of one pair leaves the view of another as it was. *)
Lemma page_same_view cfg cfg' db db' start events last_index : pair_of cfg' ≠ pair_of cfg →
  page_ingested cfg db db' start events last_index → same_view cfg' db db'.
Proof.
  unfold pair_of. intros Hne Hpi. split.
  - intros i. apply (pi_other_rows _ _ _ _ _ _ Hpi). intros j _ E. apply Hne. congruence.
  - apply (pi_other_tips _ _ _ _ _ _ Hpi). intros E. apply Hne. congruence.
Qed.

(** ** One round *)
Definition round_post (cfg : Config) (db : PoiDb) (r : result ScrapeError (option RunUntilOutcome)) (s' : Worker (W:=W)) : Prop :=
  adapter_ok (w_page_size s') ∧
  match r with
  | Ok None => ∃ start events last_index, served_at (W:=W) cfg start events ∧ page_ingested cfg db (w_db s') start events last_index
  | Ok (Some RunCaughtUp) => w_db s' = db ∧ ∃ start, next_start cfg db = Ok start ∧ nothing_at (W:=W) cfg start
  | Ok (Some RunShutdown) => w_db s' = db ∨ ∃ start events last_index, page_ingested cfg db (w_db s') start events last_index
  | Err _ => w_db s' = db
  end.

Lemma round_wp cfg (s : Worker (W:=W)) : adapter_ok (w_page_size s) → wp (round cfg) (round_post cfg (w_db s)) s.
Proof.
  intros Hok. unfold round. case_decide; [apply wp_lift; by split|].
  apply wp_if_await, wp_shutdown_requested. intros b s1 (Hps1 & _ & Hdb1).
  destruct b; [apply wp_ret; split; [congruence|left; congruence]|].
  apply wp_bind. eapply wp_mono; [|apply (retry_wp cfg _ (w_db s) (page_post cfg (w_db s)));
    [intros s2 Hdb2 _; by apply sync_next_page_wp|congruence|congruence]].
  intros r s2 [Ha2 Hr]. destruct r as [[[|count last_index]|]|e]; [..|by split].
  - destruct Hr as (Hdb2 & start & Hstart & Hnone). apply wp_ret. split; [done|]. split; [done|]. by exists start.
  - destruct Hr as (start & events & Hc & Hserved & Hpi & _). apply wp_bind, wp_set_page_size.
    apply wp_bind, wp_record_page_success. intros s3 (Hps3 & _ & Hdb3). cbn in Hps3, Hdb3.
    apply wp_if_await, wp_sleep_or_shutdown. intros b s4 (Hps4 & _ & Hdb4). assert (w_db s4 = w_db s2) as Hdb by congruence.
    assert (adapter_ok (w_page_size s4)) by (rewrite Hps4, Hps3; by apply (on_outcome_ok _ true)).
    rewrite <- Hdb in Hpi. destruct b; apply wp_ret; (split; [done|]); [right|]; eauto.
  - apply wp_ret. split; [done|]. by left.
Qed.

(** ** The database over all pairs *)
Record db_advances (ps : list (Z * Z)) (db db' : PoiDb) : Prop := {
  da_extend : events_extend (poi_events db) (poi_events db');
  da_tips k t : fst <$> chain_tips db !! k = Some t → ∃ t', fst <$> chain_tips db' !! k = Some t' ∧ t ≤ t';
  da_others k : k.1 ∉ ps → poi_events db' !! k = poi_events db !! k;
  da_other_tips k : k.1 ∉ ps → chain_tips db' !! k = chain_tips db !! k;
  da_blocked : blocked_shields db' = blocked_shields db }.

Lemma db_advances_refl ps db : db_advances ps db db.
Proof. split; [apply events_extend_refl|intros; eexists; split; [done|lia]|done..]. Qed.

Lemma db_advances_trans ps db1 db2 db3 : db_advances ps db1 db2 → db_advances ps db2 db3 → db_advances ps db1 db3.
Proof.
  intros [E1 T1 O1 U1 B1] [E2 T2 O2 U2 B2]. split; [by eapply events_extend_trans| |intros; by rewrite O2, O1|intros; by rewrite U2, U1|congruence].
  intros k t (t2 & Ht2 & ?)%T1. destruct (T2 k t2 Ht2) as (t3 & ? & ?). exists t3. split; [done|lia].
Qed.

Lemma page_db_advances ps cfg db db' start events last_index : pair_of cfg ∈ ps →
  page_ingested cfg db db' start events last_index → db_advances ps db db'.
Proof.
  intros Hin Hpi. split.
  - by eapply pi_extend.
  - intros k t Ht. destruct (decide (k = (c_list_key cfg, c_chain_id cfg, c_upstream_url cfg))) as [->|Hk].
    + pose proof (pi_tip _ _ _ _ _ _ Hpi) as Hp. unfold pair_tip in Hp. rewrite Hp, Ht. cbn. eexists. split; [done|lia].
    + rewrite (pi_other_tips _ _ _ _ _ _ Hpi k Hk). eexists. split; [done|lia].
  - intros k Hk. apply (pi_other_rows _ _ _ _ _ _ Hpi). intros i _ ->. by apply Hk.
  - intros k Hk. apply (pi_other_tips _ _ _ _ _ _ Hpi). intros ->. by apply Hk.
  - apply (pi_rest _ _ _ _ _ _ Hpi).
Qed.
End views.

(** ** Chunks under any schedule *)
Section chunk.
Context `{World W}.
Abbreviation tasks := (list (Config * TaskState (W := W))).
Context (ps : list (Z * Z)) (n : Z) (db0 : PoiDb).

(** The upstream has at most [n] events for each pair. *)
Definition upstream_bounded (cfg : Config) : Prop := ∀ start events, served_at (W:=W) cfg start events → events ≠ [] → start < n.
Definition caught_up (cfg : Config) (db : PoiDb) : Prop :=
  ∃ start, next_start cfg db = Ok start ∧ complete_below cfg db start ∧ nothing_at (W:=W) cfg start.

Definition task_ok (db : PoiDb) (t : Config * TaskState (W:=W)) : Prop :=
  log_ok t.1 db ∧ upstream_bounded t.1 ∧ pair_of t.1 ∈ ps ∧
  match t.2 with
  | Running l => adapter_ok (l_page_size l)
  | Finished (Ok RunCaughtUp) => caught_up t.1 db
  | Finished _ => True
  end.

Record chunk_ok (sh : Shared) (set : JoinSet (W:=W)) : Prop := {
  co_tasks : Forall (task_ok (sh_db sh)) (js_tasks set);
  co_pairs : NoDup (pair_of ∘ fst <$> js_tasks set);
  co_errors : ∀ cfg e, (cfg, Finished (Err e)) ∈ js_tasks set → Err e ∈ js_completed set;
  co_advances : db_advances ps db0 (sh_db sh) }.

Lemma caught_up_view cfg db db' : log_ok cfg db → same_view cfg db db' → caught_up cfg db → caught_up cfg db'.
Proof.
  intros Hlog Hv (start & Hs & Hc & Hn). exists start. split_and!; [by rewrite (same_view_next_start _ _ _ Hv Hlog)|by eapply same_view_complete|done].
Qed.

Lemma task_ok_view db db' t : same_view t.1 db db' → task_ok db t → task_ok db' t.
Proof.
  intros Hv (Hlog & Hup & Hin & Hst). split_and!; [by eapply same_view_log_ok|done|done|]. destruct (t.2) as [|[[]|]]; [done| |done|done].
  by eapply caught_up_view.
Qed.

(** The tasks after the turn of worker [i], which changed the database for its
    pair only. *)
Lemma turn_ok i cfg l t' sh sh' set completed :
  chunk_ok sh set → js_tasks set !! i = Some (cfg, Running l) →
  (∀ cfg', pair_of cfg' ≠ pair_of cfg → same_view cfg' (sh_db sh) (sh_db sh')) → db_advances ps (sh_db sh) (sh_db sh') →
  task_ok (sh_db sh') (cfg, t') → (∀ e, t' = Finished (Err e) → Err e ∈ completed) → js_completed set ⊆ completed →
  chunk_ok sh' (mkJoinSet (<[i := (cfg, t')]> (js_tasks set)) completed).
Proof.
  intros [Ht Hp He Ha] Hi Hview Hadv Hok Herr Hsub. split; cbn.
  - apply Forall_lookup. intros j [cfg' tj] Hj. destruct (decide (i = j)) as [<-|Hne].
    + rewrite list_lookup_insert_eq in Hj by by eapply lookup_lt_Some. by injection Hj as <- <-.
    + rewrite list_lookup_insert_ne in Hj by done. apply (task_ok_view (sh_db sh)); [|by eapply Forall_lookup in Ht].
      apply Hview. cbn. intros E. apply Hne. eapply NoDup_lookup; [exact Hp| |].
      * rewrite list_lookup_fmap, Hi. done.
      * rewrite list_lookup_fmap, Hj. cbn. by rewrite E.
  - rewrite list_fmap_insert. rewrite list_insert_id; [done|]. by rewrite list_lookup_fmap, Hi.
  - intros c e Hin. apply list_elem_of_lookup in Hin as (j & Hj). destruct (decide (i = j)) as [<-|Hne].
    + rewrite list_lookup_insert_eq in Hj by by eapply lookup_lt_Some. injection Hj as <- Hj. by apply Herr.
    + rewrite list_lookup_insert_ne in Hj by done. apply Hsub, (He c). by eapply list_elem_of_lookup_2.
  - by eapply db_advances_trans.
Qed.

Definition unfinished (ts : tasks) : nat := length (filter (λ t, finished t = false) ts).

Lemma unfinished_insert i (ts : tasks) cfg l t' : ts !! i = Some (cfg, Running l) →
  unfinished (<[i := (cfg, t')]> ts) = (unfinished ts - (if finished (cfg, t') then 1 else 0))%nat ∧ (0 < unfinished ts)%nat.
Proof.
  intros Hi. rewrite <- (take_drop_middle ts i _ Hi). assert (i < length ts)%nat by by eapply lookup_lt_Some.
  rewrite insert_app_r_alt by (rewrite length_take; lia). rewrite length_take, Nat.min_l, Nat.sub_diag by lia. cbn [insert list_insert].
  unfold unfinished. rewrite !filter_app, !filter_cons, !length_app. cbn [finished snd]. rewrite (decide_True (P := false = false)) by done.
  case_decide as E; cbn [length]; [rewrite E; lia|]. destruct t'; [done|]. cbn. lia.
Qed.

(** How much a schedule must still give worker [i]. *)
Definition enough (db : PoiDb) (ts : tasks) (s1 : list (option nat)) : Prop :=
  ∀ i cfg l, ts !! i = Some (cfg, Running l) → (pages_left cfg n db < count_occ option_eq_dec s1 (Some i))%nat.

Lemma enough_view i cfg l t' sh sh' set s1 :
  chunk_ok sh set → js_tasks set !! i = Some (cfg, Running l) →
  (∀ cfg', pair_of cfg' ≠ pair_of cfg → same_view cfg' (sh_db sh) (sh_db sh')) →
  (∀ l', t' = Running l' → (pages_left cfg n (sh_db sh') < count_occ option_eq_dec s1 (Some i))%nat) →
  enough (sh_db sh) (js_tasks set) (Some i :: s1) → enough (sh_db sh') (<[i := (cfg, t')]> (js_tasks set)) s1.
Proof.
  intros [Ht Hp _ _] Hi Hview Hself Hen j cfg' lj Hj. destruct (decide (i = j)) as [<-|Hne].
  - rewrite list_lookup_insert_eq in Hj by by eapply lookup_lt_Some. injection Hj as <- Hj. by eapply Hself.
  - rewrite list_lookup_insert_ne in Hj by done. specialize (Hen j cfg' lj Hj). cbn [count_occ] in Hen.
    destruct (option_eq_dec (Some i) (Some j)) as [E|_]; [congruence|].
    assert (same_view cfg' (sh_db sh) (sh_db sh')) as Hv.
    { apply Hview. intros E. apply Hne. eapply NoDup_lookup; [exact Hp| |]; rewrite list_lookup_fmap, ?Hi, ?Hj; cbn; [done|by rewrite E]. }
    eapply Forall_lookup in Ht as (Hlog & _); [|exact Hj]. unfold pages_left in *. by rewrite (same_view_next_start _ _ _ Hv Hlog).
Qed.

Lemma page_shortens cfg db db' start events last_index c : log_ok cfg db → upstream_bounded cfg → served_at (W:=W) cfg start events →
  page_ingested cfg db db' start events last_index → (pages_left cfg n db < S c)%nat → (pages_left cfg n db' < c)%nat.
Proof.
  intros Hlog Hup Hserved Hpi. unfold pages_left. rewrite (pi_start _ _ _ _ _ _ Hpi). pose proof (pi_last _ _ _ _ _ _ Hpi).
  pose proof (pi_count _ _ _ _ _ _ Hpi). assert (start < n) by (eapply Hup; [done|]; intros ->; cbn in *; lia).
  destruct (next_start cfg db') as [start'|] eqn:Hn; [|lia]. pose proof (page_progress _ _ _ _ _ _ _ Hlog Hpi Hn). lia.
Qed.

(** What a turn keeps, in terms of the set before and after. *)
Definition turn_post (i : nat) (sh : Shared) (set : JoinSet (W:=W)) (sh' : Shared) (set' : JoinSet (W:=W)) : Prop :=
  chunk_ok sh' set' ∧ (js_tasks set').*1 = (js_tasks set).*1 ∧
  (length (js_completed set') + unfinished (js_tasks set') ≤ length (js_completed set) + unfinished (js_tasks set))%nat ∧
  (∀ s1, enough (sh_db sh) (js_tasks set) (Some i :: s1) → enough (sh_db sh') (js_tasks set') s1).

(** A turn that ends in [t'], with what it adds to the results to join. *)
Lemma turn_done i cfg l t' new sh sh' set :
  chunk_ok sh set → js_tasks set !! i = Some (cfg, Running l) →
  (∀ cfg', pair_of cfg' ≠ pair_of cfg → same_view cfg' (sh_db sh) (sh_db sh')) → db_advances ps (sh_db sh) (sh_db sh') →
  task_ok (sh_db sh') (cfg, t') → length new = (if finished (cfg, t') then 1 else 0)%nat → (∀ e, t' = Finished (Err e) → Err e ∈ new) →
  (∀ s1 l', t' = Running l' → (pages_left cfg n (sh_db sh) < S (count_occ option_eq_dec s1 (Some i)))%nat →
     (pages_left cfg n (sh_db sh') < count_occ option_eq_dec s1 (Some i))%nat) →
  turn_post i sh set sh' (mkJoinSet (<[i := (cfg, t')]> (js_tasks set)) (js_completed set ++ new)).
Proof.
  intros Hok Hi Hview Hadv Htask Hlen Herr Hself. split_and!.
  - eapply turn_ok; [done..| |]; [intros e E; apply elem_of_app; right; by apply Herr|intros x Hx; apply elem_of_app; by left].
  - cbn [js_tasks]. rewrite list_fmap_insert. apply list_insert_id. by rewrite list_lookup_fmap, Hi.
  - cbn [js_tasks js_completed]. destruct (unfinished_insert i (js_tasks set) cfg l t' Hi) as [-> ?]. rewrite length_app, Hlen. destruct (finished (cfg, t')); lia.
  - intros s1 Hen. cbn [js_tasks]. eapply enough_view; [done..| |done]. intros l' E. eapply Hself; [done|].
    specialize (Hen i cfg l Hi). cbn [count_occ] in Hen. by destruct (option_eq_dec (Some i) (Some i)).
Qed.

Lemma turn_idle i sh set : chunk_ok sh set → (∀ cfg l, js_tasks set !! i ≠ Some (cfg, Running l)) → turn_post i sh set sh set.
Proof.
  intros Hok Hi. split_and!; [done|done|lia|]. intros s1 Hen j cfg l Hj. specialize (Hen j cfg l Hj). cbn [count_occ] in Hen.
  destruct (option_eq_dec (Some i) (Some j)) as [E|_]; [|done]. injection E as <-. by destruct (Hi cfg l).
Qed.

Lemma run_worker_ok i sh set : chunk_ok sh set → ∃ sh' set', run_worker round i sh set = Some (sh', set') ∧ turn_post i sh set sh' set'.
Proof.
  intros Hok. unfold run_worker. destruct (js_tasks set !! i) as [[cfg [l|r]]|] eqn:Hi.
  2,3: eexists _, _; split; [done|]; apply turn_idle; [done|]; intros ? ? ?; congruence.
  pose proof (co_tasks _ _ Hok) as Hts. eapply Forall_lookup in Hts as (Hlog & Hup & Hin & Hpage); [|exact Hi]. cbn in Hlog, Hup, Hin, Hpage.
  destruct (wp_exists _ _ _ (round_wp cfg (as_worker l sh) Hpage)) as (r & s' & Hrun & Had & Hr). cbn in Hr.
  rewrite Hrun.
  assert (w_db s' = sh_db sh → (∀ cfg', pair_of cfg' ≠ pair_of cfg → same_view cfg' (sh_db sh) (w_db s')) ∧ db_advances ps (sh_db sh) (w_db s') ∧ log_ok cfg (w_db s')) as Hsame.
  { intros ->. split_and!; [intros; apply same_view_refl|apply db_advances_refl|done]. }
  assert (∀ start events last_index, page_ingested cfg (sh_db sh) (w_db s') start events last_index →
    (∀ cfg', pair_of cfg' ≠ pair_of cfg → same_view cfg' (sh_db sh) (w_db s')) ∧ db_advances ps (sh_db sh) (w_db s') ∧ log_ok cfg (w_db s')) as Hpaged.
  { intros start events last_index Hpi. split_and!; [intros; by eapply page_same_view|by eapply page_db_advances|by eapply page_log_ok]. }
  destruct r as [[[]|]|e].
  - destruct Hr as (Hdb & start & Hs & Hn). destruct (Hsame Hdb) as (Hv & Ha & Hl). eexists _, _. split; [done|].
    apply (turn_done i cfg l _ [Ok RunCaughtUp] sh (shared_of s') set); try done. split_and!; [done..|]. cbn. rewrite Hdb. exists start.
    split_and!; [done|by apply next_start_spec|done].
  - destruct Hr as [Hdb|(start & events & last_index & Hpi)]; [destruct (Hsame Hdb) as (Hv & Ha & Hl)|destruct (Hpaged _ _ _ Hpi) as (Hv & Ha & Hl)];
      (eexists _, _; split; [done|]; by apply (turn_done i cfg l _ [Ok RunShutdown] sh (shared_of s') set)).
  - destruct Hr as (start & events & last_index & Hserved & Hpi). destruct (Hpaged _ _ _ Hpi) as (Hv & Ha & Hl). eexists _, _. split; [done|].
    rewrite <- (app_nil_r (js_completed set)). apply (turn_done i cfg l _ [] sh (shared_of s') set); try done.
    intros s1 l' _. by eapply page_shortens.
  - destruct (Hsame Hr) as (Hv & Ha & Hl). eexists _, _. split; [done|].
    apply (turn_done i cfg l _ [Err e] sh (shared_of s') set); try done. intros e' [= <-]. by left.
Qed.

Definition chunk_post (cfgs : list Config) (r : result ScrapeError unit) (sh' : Shared) (ts : tasks) : Prop :=
  Forall (task_ok (sh_db sh')) ts ∧ db_advances ps db0 (sh_db sh') ∧ ts.*1 = cfgs ∧
  (r = Ok tt → Forall (λ t, ∃ outcome, t.2 = Finished (Ok outcome)) ts).

Lemma chunk_failed e sh set : chunk_ok sh set → chunk_post ((js_tasks set).*1) (Err e) sh (js_tasks set).
Proof. intros [Ht _ _ Ha]. by split_and!. Qed.

Lemma chunk_joined sh set : chunk_ok sh set → js_completed set = [] → forallb finished (js_tasks set) = true →
  chunk_post ((js_tasks set).*1) (Ok tt) sh (js_tasks set).
Proof.
  intros [Ht _ He Ha] Hc Hf. split_and!; [done..|]. intros _. apply Forall_forall. intros [cfg t] Hin. rewrite forallb_forall in Hf.
  specialize (Hf (cfg, t) ltac:(by apply list_elem_of_In)). destruct t as [|[outcome|e]]; [done|by exists outcome|].
  apply He in Hin. rewrite Hc in Hin. set_solver.
Qed.

Lemma chunk_pop x completed sh set : chunk_ok sh set → js_completed set = Ok x :: completed → chunk_ok sh (mkJoinSet (js_tasks set) completed).
Proof.
  intros [Ht Hp He Ha] Hc. split; [done|done| |done]. intros cfg e Hin. cbn in *. apply He in Hin. rewrite Hc in Hin.
  apply elem_of_cons in Hin as [?|?]; [done|done].
Qed.

Lemma all_finished (ts : tasks) : unfinished ts = 0%nat → forallb finished ts = true.
Proof.
  unfold unfinished. induction ts as [|t ts IH]; [done|]. rewrite filter_cons. cbn [forallb]. case_decide as E; [done|].
  intros Hl. rewrite (IH Hl). destruct (finished t); [done|congruence].
Qed.

Lemma join_all k sh set : chunk_ok sh set → unfinished (js_tasks set) = 0%nat → (length (js_completed set) ≤ k)%nat →
  ∃ r sh' ts, run_chunk round (replicate (S k) None) sh set = Some (r, sh', ts) ∧ chunk_post ((js_tasks set).*1) r sh' ts.
Proof.
  revert set. induction k as [|k IH]; intros set Hok Hu Hlen; cbn [replicate run_chunk];
    destruct (js_completed set) as [|[x|e] completed] eqn:Ec; cbn in Hlen.
  1,4: rewrite (all_finished _ Hu); eexists _, _, _; split; [done|]; by apply chunk_joined; [| |apply all_finished].
  - lia.
  - lia.
  - apply (IH (mkJoinSet (js_tasks set) completed)); [by eapply chunk_pop|done|cbn; lia].
  - eexists _, _, _. split; [done|]. by apply chunk_failed.
Qed.

Lemma enough_nil db (ts : tasks) : enough db ts [] → unfinished ts = 0%nat.
Proof.
  intros Hen. unfold unfinished. apply length_zero_iff_nil, elem_of_nil_inv. intros [cfg t] [Hf Hin]%list_elem_of_filter.
  apply list_elem_of_lookup in Hin as (i & Hi). destruct t as [l|]; [|done]. specialize (Hen i cfg l Hi). cbn in Hen. lia.
Qed.

(** A chunk returns under every schedule that gives each worker enough turns
    and then joins. *)
Lemma run_chunk_ok k s1 : ∀ sh set, chunk_ok sh set → enough (sh_db sh) (js_tasks set) s1 →
  (length (js_completed set) + unfinished (js_tasks set) ≤ k)%nat →
  ∃ r sh' ts, run_chunk round (s1 ++ replicate (S k) None) sh set = Some (r, sh', ts) ∧ chunk_post ((js_tasks set).*1) r sh' ts.
Proof.
  induction s1 as [|[i|] s1 IH]; intros sh set Hok Hen Hk.
  - pose proof (enough_nil _ _ Hen) as Hu. apply join_all; [done|done|lia].
  - cbn [app run_chunk]. destruct (run_worker_ok i sh set Hok) as (sh1 & set1 & -> & Hok1 & Hcfg & Hk1 & Hen1).
    destruct (IH sh1 set1 Hok1 (Hen1 _ Hen)) as (r & sh' & ts & Hrun & Hpost); [lia|]. rewrite Hcfg in Hpost. by exists r, sh', ts.
  - assert (enough (sh_db sh) (js_tasks set) s1) as Hen1.
    { intros i cfg l Hi. specialize (Hen i cfg l Hi). cbn [count_occ] in Hen. by destruct (option_eq_dec None (Some i)). }
    cbn [app run_chunk]. destruct (js_completed set) as [|[x|e] completed] eqn:Ec.
    + destruct (forallb finished (js_tasks set)) eqn:Ef; [|apply IH; [done|done|by rewrite Ec]].
      eexists _, _, _. split; [done|]. by apply chunk_joined.
    + apply (IH sh (mkJoinSet (js_tasks set) completed)); [by eapply chunk_pop|done|cbn [js_completed js_tasks length] in *; lia].
    + eexists _, _, _. split; [done|]. by apply chunk_failed.
Qed.
End chunk.

(** ** All chunks *)
Section run.
Context `{World W} (o : Orchestrator) (worlds : Z * Z → W) (n : Z).
Definition cfg_of (pair : Z * Z) : Config := (worker_for_pair o pair).1.

Lemma pair_of_cfg pair : pair_of (cfg_of pair) = pair.
Proof. by destruct pair. Qed.

(** A schedule that gives each worker a turn for every event and one more,
    and then joins them all. *)
Definition fair (schedule : list (option nat)) : Prop :=
  ∃ s1, schedule = s1 ++ replicate (S (o_per_pair_concurrency_limit o)) None ∧
    ∀ i, (i < o_per_pair_concurrency_limit o)%nat → (Z.to_nat n < count_occ option_eq_dec s1 (Some i))%nat.

Lemma spawned_tasks chunk : (js_tasks (spawn_chunk o worlds chunk)).*1 = cfg_of <$> chunk.
Proof. cbn. rewrite <- list_fmap_compose. by apply list_fmap_ext. Qed.

Lemma spawned_ok chunk sh : NoDup chunk → (∀ pair, pair ∈ chunk → log_ok (cfg_of pair) (sh_db sh) ∧ upstream_bounded (W:=W) n (cfg_of pair)) →
  chunk_ok chunk n (sh_db sh) sh (spawn_chunk o worlds chunk).
Proof.
  intros Hnd Hok. split; cbn.
  - apply Forall_forall. intros t (pair & -> & Hin)%list_elem_of_fmap. destruct (Hok pair Hin) as [Hlog Hup].
    split_and!; [done|done|by destruct pair|]. apply adapter_new_ok.
  - rewrite <- list_fmap_compose. rewrite (list_fmap_ext _ id chunk); [by rewrite list_fmap_id|]. intros ? [] ?. done.
  - intros cfg e (pair & E & _)%list_elem_of_fmap. done.
  - apply db_advances_refl.
Qed.

Lemma spawned_enough chunk db s1 : (length chunk ≤ o_per_pair_concurrency_limit o)%nat → (∀ pair, pair ∈ chunk → log_ok (cfg_of pair) db) →
  (∀ i, (i < o_per_pair_concurrency_limit o)%nat → (Z.to_nat n < count_occ option_eq_dec s1 (Some i))%nat) →
  enough n db (js_tasks (spawn_chunk o worlds chunk)) s1.
Proof.
  intros Hlen Hlog Hs i cfg l Hi. cbn in Hi. rewrite list_lookup_fmap in Hi. destruct (chunk !! i) as [pair|] eqn:Ep; [|done].
  injection Hi as <- _. assert (i < length chunk)%nat by by eapply lookup_lt_Some.
  specialize (Hs i ltac:(lia)). eapply Nat.le_lt_trans; [|exact Hs]. unfold pages_left.
  destruct (next_start _ db) as [start|] eqn:Hn; [|lia]. apply next_start_spec in Hn as [? _]; [lia|]. apply Hlog. by eapply list_elem_of_lookup_2.
Qed.

Lemma spawned_unfinished chunk : unfinished (js_tasks (spawn_chunk o worlds chunk)) = length chunk.
Proof.
  unfold unfinished. cbn [js_tasks spawn_chunk]. induction chunk as [|pair chunk IH]; [done|].
  rewrite fmap_cons, filter_cons. rewrite decide_True by done. cbn [length]. by rewrite IH.
Qed.

Lemma db_advances_view ps db db' cfg : db_advances ps db db' → pair_of cfg ∉ ps → same_view cfg db db'.
Proof. intros Ha Hn. split; [intros i; by apply (da_others _ _ _ Ha)|by apply (da_other_tips _ _ _ Ha)]. Qed.

Lemma db_advances_mono ps ps' db db' : ps ⊆ ps' → db_advances ps db db' → db_advances ps' db db'.
Proof. intros Hs [A1 A2 A3 A4 A5]. split; [done|done|intros k Hk; apply A3; set_solver|intros k Hk; apply A4; set_solver|done]. Qed.

Definition run_post (ps : list (Z * Z)) (script : list (bool * list (option nat))) (db : PoiDb) (r : result ScrapeError unit) (sh' : Shared)
    (ts : list (Config * TaskState (W:=W))) : Prop :=
  Forall (task_ok ps n (sh_db sh')) ts ∧ db_advances ps db (sh_db sh') ∧ (∀ pair, pair ∈ ps → log_ok (cfg_of pair) (sh_db sh')) ∧
  (r = Ok tt → Forall (λ e, e.1 = false) script → ts.*1 = cfg_of <$> ps ∧ Forall (λ t, ∃ outcome, t.2 = Finished (Ok outcome)) ts).

Lemma task_ok_mono ps ps' db (t : Config * TaskState (W:=W)) : ps ⊆ ps' → task_ok ps n db t → task_ok ps' n db t.
Proof. intros Hs (? & ? & ? & ?). split_and!; [done|done|set_solver|done]. Qed.

Lemma run_chunks_ok cs : ∀ script sh,
  NoDup (concat cs) → Forall (λ c, length c ≤ o_per_pair_concurrency_limit o)%nat cs →
  (∀ pair, pair ∈ concat cs → log_ok (cfg_of pair) (sh_db sh) ∧ upstream_bounded (W:=W) n (cfg_of pair)) →
  (length cs ≤ length script)%nat → Forall (λ e, fair e.2) script →
  ∃ r sh' ts, run_chunks round o worlds script sh cs = Some (r, sh', ts) ∧ run_post (concat cs) script (sh_db sh) r sh' ts.
Proof.
  induction cs as [|chunk cs IH]; intros script sh Hnd Hlen Hok Hsl Hfair.
  { exists (Ok tt), sh, []. split; [by destruct script as [|[]]|]. split_and!; [constructor|apply db_advances_refl|set_solver|done]. }
  destruct script as [|[shutdown schedule] script]; [cbn in Hsl; lia|]. cbn [run_chunks concat] in *.
  apply Forall_cons in Hlen as [Hlen Hlens]. apply Forall_cons in Hfair as [Hf Hfs]. destruct Hf as (s1 & Es & Hcount). cbn [snd] in Es. subst schedule.
  destruct shutdown.
  { exists (Ok tt), sh, []. split; [done|]. split_and!; [constructor|apply db_advances_refl|intros pair Hp; by apply Hok|].
    intros _ Hall. by apply Forall_cons in Hall as [? _]. }
  apply NoDup_app in Hnd as (Hnd1 & Hdisj & Hnd2).
  assert (∀ pair, pair ∈ chunk → log_ok (cfg_of pair) (sh_db sh) ∧ upstream_bounded (W:=W) n (cfg_of pair)) as Hok1 by (intros pair Hp; apply Hok; set_solver).
  destruct (run_chunk_ok chunk n (sh_db sh) (o_per_pair_concurrency_limit o) s1 sh (spawn_chunk o worlds chunk)) as (r1 & sh1 & ts1 & -> & Hts1 & Ha1 & Hc1 & Hr1).
  { by apply spawned_ok. }
  { apply spawned_enough; [done|intros; by apply Hok1|done]. }
  { rewrite spawned_unfinished. cbn. lia. }
  rewrite spawned_tasks in Hc1.
  assert (∀ pair, pair ∈ chunk → log_ok (cfg_of pair) (sh_db sh1)) as Hlog1.
  { intros pair Hp. assert (cfg_of pair ∈ ts1.*1) as Hin by (rewrite Hc1; by apply list_elem_of_fmap_2).
    apply list_elem_of_fmap in Hin as (t & Et & Ht). rewrite Et. eapply Forall_forall in Hts1 as [? _]; [done|exact Ht]. }
  assert (∀ pair, pair ∈ concat cs → log_ok (cfg_of pair) (sh_db sh1) ∧ upstream_bounded (W:=W) n (cfg_of pair)) as Hok2.
  { intros pair Hp. destruct (Hok pair) as [Hl Hu]; [set_solver|]. split; [|done]. eapply same_view_log_ok; [|exact Hl].
    eapply db_advances_view; [exact Ha1|]. rewrite pair_of_cfg. intros Hc. by apply (Hdisj pair). }
  destruct r1 as [[]|e].
  2:{ exists (Err e), sh1, ts1. split; [done|]. split_and!; [|by eapply db_advances_mono; [|exact Ha1]; set_solver| |done].
      - eapply Forall_impl; [exact Hts1|]. intros t. apply task_ok_mono. set_solver.
      - intros pair [?|?]%elem_of_app; [by apply Hlog1|by apply Hok2]. }
  destruct (IH script sh1 Hnd2 Hlens Hok2 ltac:(cbn in Hsl; lia) Hfs) as (r & sh' & ts & -> & Hts & Ha & Hlog & Hr).
  assert (∀ pair, pair ∈ chunk → same_view (cfg_of pair) (sh_db sh1) (sh_db sh')) as Hview.
  { intros pair Hp. eapply db_advances_view; [exact Ha|]. rewrite pair_of_cfg. by apply Hdisj. }
  exists r, sh', (ts1 ++ ts). split; [done|]. split_and!.
  - apply Forall_app. split; [|eapply Forall_impl; [exact Hts|]; intros t; apply task_ok_mono; set_solver].
    apply Forall_forall. intros t Ht. eapply task_ok_mono; [|eapply task_ok_view; [|by eapply Forall_forall in Hts1]]; [set_solver|].
    assert (t.1 ∈ cfg_of <$> chunk) as Hin by (rewrite <- Hc1; by apply list_elem_of_fmap_2). apply list_elem_of_fmap in Hin as (pair & -> & ?). by apply Hview.
  - eapply db_advances_trans; [eapply db_advances_mono; [|exact Ha1]; set_solver|eapply db_advances_mono; [|exact Ha]; set_solver].
  - intros pair [Hp|Hp]%elem_of_app; [|by apply Hlog]. eapply same_view_log_ok; [by apply Hview|by apply Hlog1].
  - intros Eok Hall. apply Forall_cons in Hall as [_ Hall]. destruct (Hr Eok Hall) as [Hc2 Hf2]. split.
    + by rewrite !fmap_app, Hc1, Hc2.
    + apply Forall_app. split; [by apply Hr1|done].
Qed.
End run.

(** C7. The orchestrator over any interleaving of its workers: with pairs that
    differ, an upstream with at most [n] events per pair and schedules that
    give each worker a turn per event, a run returns. The database only
    advances, for the configured pairs only, and every event log stays an
    initial segment with its tip. A run that returns without an error and
    without a shutdown has one finished worker per pair, and the pair of each
    worker that caught up is still complete at the end, whatever the others
    stored meanwhile. *)
Theorem orchestrated_run_correct `{World W} o (worlds : Z * Z → W) n script sh :
  (0 < o_per_pair_concurrency_limit o)%nat → NoDup (pairs o) →
  (∀ pair, pair ∈ pairs o → log_ok (cfg_of o pair) (sh_db sh) ∧ upstream_bounded (W:=W) n (cfg_of o pair)) →
  (length (chunks (o_per_pair_concurrency_limit o) (pairs o)) ≤ length script)%nat → Forall (λ e, fair o n e.2) script →
  ∃ r sh' ts, run_until_caught_up_or_shutdown o worlds script sh = Some (r, sh', ts) ∧
    db_advances (pairs o) (sh_db sh) (sh_db sh') ∧
    (∀ pair, pair ∈ pairs o → log_ok (cfg_of o pair) (sh_db sh')) ∧
    (∀ cfg, (cfg, Finished (Ok RunCaughtUp)) ∈ ts → caught_up (W:=W) cfg (sh_db sh')) ∧
    (r = Ok tt → Forall (λ e, e.1 = false) script →
      ts.*1 = cfg_of o <$> pairs o ∧ Forall (λ t, ∃ outcome, t.2 = Finished (Ok outcome)) ts).
Proof.
  intros Hl Hnd Hok Hsl Hfair. destruct (run_chunks_ok o worlds n (chunks (o_per_pair_concurrency_limit o) (pairs o)) script sh) as (r & sh' & ts & Hrun & Hpost).
  1,3: by rewrite (proj1 (chunks_concat _ _ Hl)).
  { apply chunks_length. }
  { done. }
  { done. }
  rewrite (proj1 (chunks_concat _ _ Hl)) in Hpost. destruct Hpost as (Hts & Ha & Hlog & Hr). exists r, sh', ts. split_and!; [done..| |done].
  intros cfg Hin. eapply Forall_forall in Hts as (_ & _ & _ & Hc); [|exact Hin]. done.
Qed.

(** Two lists over the concrete upstream, their workers taking turns. *)
Definition toy_orchestrator : Orchestrator := mkOrchestrator "https://poi" [7; 8] [1] "V2_PoseidonMerkle" 100 3 0 2.
Definition toy_schedule : list (option nat) :=
  [Some 0; Some 1; None; Some 1; Some 0; Some 0; Some 1]%nat ++ replicate 3 None.
Definition toy_shared : Shared := mkShared empty_db None.

Lemma toy_bounded pair : upstream_bounded (W:=nat) 2 (cfg_of toy_orchestrator pair).
Proof.
  intros start events (w & w' & e & Hs) Hne. destruct w as [|w]; [discriminate Hs|]. injection Hs as Hs _.
  destruct (decide (start < 2)) as [|Hge]; [done|]. exfalso. apply Hne. rewrite <- Hs.
  change (toy_event <$> [0; 1]) with [toy_event 0; toy_event 1]. rewrite !filter_cons, !decide_False by (cbn; lia). done.
Qed.

Lemma orchestrated_run_correct_witness :
  match run_until_caught_up_or_shutdown toy_orchestrator (λ _, 0%nat) [(false, toy_schedule)] toy_shared with
  | Some (Ok _, sh, ts) => size (poi_events (sh_db sh)) = 4%nat ∧ length ts = 2%nat
  | _ => False
  end ∧
  ∃ r sh' ts, run_until_caught_up_or_shutdown toy_orchestrator (λ _, 0%nat) [(false, toy_schedule)] toy_shared = Some (r, sh', ts) ∧
    (∀ cfg, (cfg, Finished (Ok RunCaughtUp)) ∈ ts → caught_up (W:=nat) cfg (sh_db sh')).
Proof.
  split; [vm_compute; done|].
  destruct (orchestrated_run_correct toy_orchestrator (λ _, 0%nat) 2 [(false, toy_schedule)] toy_shared) as (r & sh' & ts & Hrun & _ & _ & Hc & _).
  - cbn. lia.
  - vm_compute. apply NoDup_ListNoDup. repeat constructor; cbn; intuition discriminate.
  - intros pair _. split; [by split|apply toy_bounded].
  - cbn. lia.
  - constructor; [|constructor]. eexists. split; [reflexivity|]. intros i Hi. cbn in Hi. destruct i as [|[|i]]; [vm_compute; lia|vm_compute; lia|lia].
  - exists r, sh', ts. split; [exact Hrun|exact Hc].
Defined.
End OrchCorrect.
