(* ===== verification/Traces.v ===== *)
(** * Transaction traces ([chain_logs.rs])

    Before the [Action] activation block, Railgun calls that are not in the
    top-level calldata are found in traces of the transaction, which nodes
    serve in two formats: [debug_traceTransaction] nests the calls,
    [trace_transaction] lists them with their paths. JSON documents are the
    type [Value]. The specification is a call tree: both collectors visit
    exactly its live calls (no failed call on the way from the root) in
    depth-first order, so both formats give the same transactions. *)

From Stdlib Require Import Ascii.
From S2P Require Import Prelude Wire Ipfs Artifacts MerkleCheckpointChunk ChainLogs ActionFrames Calldata.

(** ** JSON documents ([serde_json::Value]) *)
Inductive Value :=
  | JNull
  | JBool (b : bool)
  | JNumber (n : Z)
  | JString (s : string)
  | JArray (l : list Value)
  | JObject (fields : list (string * Value)).

(** [Value::get] with a key, [as_array], [as_str] and [is_null]. *)
Fixpoint assoc (key : string) (fields : list (string * Value)) : option Value :=
  match fields with
  | [] => None
  | (k, v) :: fields => if decide (k = key) then Some v else assoc key fields
  end.
Definition get (key : string) (v : Value) : option Value :=
  match v with JObject fields => assoc key fields | _ => None end.
Definition as_array (v : Value) : option (list Value) := match v with JArray l => Some l | _ => None end.
Definition as_str (v : Value) : option string := match v with JString s => Some s | _ => None end.
Definition is_null (v : Value) : bool := match v with JNull => true | _ => false end.

Fixpoint value_eq_dec (v w : Value) : {v = w} + {v ≠ w}.
Proof.
  decide equality; [apply Bool.bool_dec|apply Z.eq_dec|apply String.string_dec| |].
  - apply (List.list_eq_dec value_eq_dec).
  - apply List.list_eq_dec. intros [k x] [k' x']. decide equality. apply String.string_dec.
Defined.
#[export] Instance Value_eq_dec : EqDecision Value := value_eq_dec.

(** Nesting depth, the fuel of the recursive collector. *)
Fixpoint depth (v : Value) : nat :=
  match v with
  | JArray l => S (fold_right (λ v n, Nat.max (depth v) n) 0%nat l)
  | JObject fields => S (fold_right (λ kv n, Nat.max (depth kv.2) n) 0%nat fields)
  | _ => 0%nat
  end.

(** Parsers of hex strings of the primitives crate. *)
Class HexStrings := {
  parse_address : string → option Z;
  parse_b256 : string → option Z;
  hex_decode_string : string → option bytes;
}.

(** [value.strip_prefix("0x").unwrap_or(value)] *)
Definition strip_0x_string (value : string) : string :=
  match value with String "0"%char (String "x"%char rest) => rest | _ => value end.

(** [u64::from_str_radix(value, 16)] *)
Definition hex_digit (c : ascii) : option Z :=
  let n := Z.of_nat (nat_of_ascii c) in
  if decide (48 ≤ n ≤ 57) then Some (n - 48)
  else if decide (97 ≤ n ≤ 102) then Some (n - 87)
  else if decide (65 ≤ n ≤ 70) then Some (n - 55)
  else None.
Fixpoint radix16 (acc : Z) (s : string) : option Z :=
  match s with
  | EmptyString => Some acc
  | String c s =>
      d ← hex_digit c;
      m ← checked_mul u64_max acc 16;
      acc ← checked_add u64_max m d;
      radix16 acc s
  end.
Definition from_str_radix_16 (s : string) : option Z :=
  let digits := match s with String "+"%char rest => rest | _ => s end in
  match digits with EmptyString => None | _ => radix16 0 digits end.
Definition parse_hex_quantity_u64 (value : string) : option Z :=
  let value := strip_0x_string value in
  match value with EmptyString => Some 0 | _ => from_str_radix_16 value end.

Section traces.
Context `{ContractCrate} `{CalldataCrate} `{HexStrings} (railgun_contract : Z).

Definition decode_hex_bytes (value : string) : option bytes := hex_decode_string (strip_0x_string value).

Definition trace_frame_targets_contract (frame : Value) : bool :=
  match (get "to" frame ≫= as_str) ≫= parse_address with
  | Some address => bool_decide (address = railgun_contract)
  | None => false
  end.
Definition trace_input (frame : Value) : option bytes :=
  ((match get "input" frame with Some v => Some v | None => get "data" frame end) ≫= as_str) ≫= decode_hex_bytes.

(** [frame.get("error").is_some_and(|error| !error.is_null())] *)
Definition frame_failed (frame : Value) : bool :=
  match get "error" frame with Some error => negb (is_null error) | None => false end.

(** The body both collectors run on a call. *)
Definition append_call (frame : Value) (decoded : list DecodedRailgunTransaction)
    : cresult (list DecodedRailgunTransaction) :=
  if trace_frame_targets_contract frame then
    match trace_input frame with
    | Some input =>
        transactions ← decode_railgun_transactions input;
        Ok (match transactions with Some transactions => decoded ++ transactions | None => decoded end)
    | None => Ok decoded
    end
  else Ok decoded.

(** The recursion of [collect_debug_trace_railgun_transactions]; fuel that
    runs out collects nothing, which [depth] fuel never does. *)
Fixpoint collect_debug (fuel : nat) (frame : Value) (decoded : list DecodedRailgunTransaction)
    : cresult (list DecodedRailgunTransaction) :=
  match fuel with
  | O => Ok decoded
  | S fuel =>
      if frame_failed frame then Ok decoded
      else
        decoded ← append_call frame decoded;
        match get "calls" frame ≫= as_array with
        | Some calls => try_fold (λ decoded call, collect_debug fuel call decoded) decoded calls
        | None => Ok decoded
        end
  end.
Definition collect_debug_trace_railgun_transactions (frame : Value) (decoded : list DecodedRailgunTransaction)
    : cresult (list DecodedRailgunTransaction) := collect_debug (S (depth frame)) frame decoded.

(** [path.starts_with(failed_path)] *)
Definition starts_with (path prefix : list Value) : bool :=
  bool_decide (take (length prefix) path = prefix).
Definition trace_address (frame : Value) : option (list Value) := get "traceAddress" frame ≫= as_array.

Definition frame_skipped (failed_paths : list (list Value)) (frame : Value) : bool :=
  frame_failed frame ||
  match trace_address frame with
  | Some path => existsb (starts_with path) failed_paths
  | None => false
  end.
Definition failed_paths_of (frames : list Value) : list (list Value) :=
  omap trace_address (filter (λ frame, frame_failed frame = true) frames).
Definition collect_flat (failed_paths : list (list Value)) (decoded : list DecodedRailgunTransaction) (frame : Value)
    : cresult (list DecodedRailgunTransaction) :=
  if frame_skipped failed_paths frame then Ok decoded
  else append_call (default frame (get "action" frame)) decoded.
Definition collect_trace_transaction_railgun_transactions (trace : Value) (decoded : list DecodedRailgunTransaction)
    : cresult (list DecodedRailgunTransaction) :=
  match as_array trace with
  | None => Ok decoded
  | Some frames => try_fold (collect_flat (failed_paths_of frames)) decoded frames
  end.
End traces.

(** ** Call trees *)
Inductive Call := mkCall (failed : bool) (to input : option string) (children : list Call).
Definition call_failed (c : Call) : bool := let 'mkCall failed _ _ _ := c in failed.

Lemma Call_ind' (P : Call → Prop) :
  (∀ failed to input children, Forall P children → P (mkCall failed to input children)) → ∀ c, P c.
Proof.
  intros HP. fix IH 1. intros [failed to input children]. apply HP.
  induction children as [|c children IHc]; constructor; [apply IH|apply IHc].
Qed.

(** What the call itself is, in either format. *)
Definition call_object (v : Value) (to input : option string) : Prop :=
  get "to" v ≫= as_str = to ∧
  (match get "input" v with Some v => Some v | None => get "data" v end) ≫= as_str = input.

(** [v] is the nested trace of [c]; a call without children may omit them. *)
Inductive debug_frame : Value → Call → Prop :=
  | debug_call v failed to input children calls :
      call_object v to input → frame_failed v = failed →
      match get "calls" v ≫= as_array with Some l => l | None => [] end = calls →
      Forall2 debug_frame calls children →
      debug_frame v (mkCall failed to input children).

(** [frames] is the flat trace of [c] below [path]: the call, then its
    children in order. *)
Inductive flat_frames : list Value → Call → list Value → Prop :=
  | flat_call path frame action failed to input children rest :
      call_object action to input → frame_failed frame = failed →
      default frame (get "action" frame) = action →
      get "traceAddress" frame = Some (JArray path) →
      flat_children path 0 children rest →
      flat_frames path (mkCall failed to input children) (frame :: rest)
with flat_children : list Value → nat → list Call → list Value → Prop :=
  | flat_nil path i : flat_children path i [] []
  | flat_cons path i c children frames rest :
      flat_frames (path ++ [JNumber (Z.of_nat i)]) c frames → flat_children path (S i) children rest →
      flat_children path i (c :: children) (frames ++ rest).
Scheme flat_frames_mut := Induction for flat_frames Sort Prop
  with flat_children_mut := Induction for flat_children Sort Prop.
Combined Scheme flat_mut from flat_frames_mut, flat_children_mut.

(** The live calls, depth first. *)
Fixpoint live_calls (c : Call) : list (option string * option string) :=
  let 'mkCall failed to input children := c in
  if failed then [] else (to, input) :: concat (map live_calls children).

Section collectors.
Context `{ContractCrate} `{CalldataCrate} `{HexStrings} (railgun_contract : Z).

(** The transactions a call contributes, by its recipient and input. *)
Definition call_step (decoded : list DecodedRailgunTransaction) (call : option string * option string)
    : cresult (list DecodedRailgunTransaction) :=
  match call.1 ≫= parse_address with
  | Some address =>
      if decide (address = railgun_contract) then
        match call.2 ≫= decode_hex_bytes with
        | Some input =>
            transactions ← decode_railgun_transactions input;
            Ok (match transactions with Some transactions => decoded ++ transactions | None => decoded end)
        | None => Ok decoded
        end
      else Ok decoded
  | None => Ok decoded
  end.

Lemma append_call_object v to input decoded :
  call_object v to input → append_call railgun_contract v decoded = call_step decoded (to, input).
Proof.
  intros [Hto Hin]. unfold append_call, trace_frame_targets_contract, trace_input, call_step.
  rewrite Hto. rewrite Hin. cbn [fst snd]. destruct (to ≫= parse_address); [|done].
  rewrite bool_decide_decide. by case_decide.
Qed.

(** ** The nested format *)
Lemma assoc_depth key fields v :
  assoc key fields = Some v → (depth v ≤ fold_right (λ kv n, Nat.max (depth kv.2) n) 0 fields)%nat.
Proof.
  induction fields as [|[k w] fields IH]; cbn; [done|]. case_decide; [intros [= ->]; cbn; lia|].
  intros ?%IH. lia.
Qed.
Lemma array_depth l v : v ∈ l → (depth v < depth (JArray l))%nat.
Proof. cbn. induction 1; cbn in *; lia. Qed.
Lemma calls_depth v calls w :
  get "calls" v ≫= as_array = Some calls → w ∈ calls → (depth w + 1 < depth v)%nat.
Proof.
  destruct v as [| | | | |fields]; try done. cbn [get]. destruct (assoc "calls" fields) as [x|] eqn:Hx; [|done].
  destruct x; try done. cbn. intros [= ->] Hw. apply assoc_depth in Hx. apply array_depth in Hw. cbn in *. lia.
Qed.

Lemma collect_debug_live c : ∀ v fuel decoded,
  debug_frame v c → (depth v < fuel)%nat →
  collect_debug railgun_contract fuel v decoded = try_fold call_step decoded (live_calls c).
Proof.
  induction c as [failed to input children IH] using Call_ind'. intros v fuel decoded Hd Hf.
  inversion Hd as [v' f' t' i' ch' calls Hobj Hfail Hcalls Hch]; subst. destruct fuel as [|fuel]; [lia|]. cbn.
  destruct (frame_failed v); [done|]. rewrite (append_call_object _ _ _ _ Hobj). cbn [try_fold].
  destruct (call_step decoded (to, input)) as [d|e]; [|done]. cbn.
  assert (∀ w, w ∈ match get "calls" v ≫= as_array with Some l => l | None => [] end → (depth w < fuel)%nat) as Hdep.
  { destruct (get "calls" v ≫= as_array) eqn:Hc; [|by intros w ?%not_elem_of_nil].
    intros w Hw. pose proof (calls_depth _ _ _ Hc Hw). lia. }
  transitivity (try_fold (λ d call, collect_debug railgun_contract fuel call d) d
    match get "calls" v ≫= as_array with Some l => l | None => [] end); [by destruct (get "calls" v ≫= as_array)|].
  revert d. clear Hd. induction Hch as [|w c ws cs Hw _ IHch]; intros d; cbn [try_fold map concat]; [done|].
  apply Forall_cons in IH as [IHc IH]. rewrite try_fold_app, (IHc _ _ _ Hw) by (apply Hdep; left).
  destruct (try_fold call_step d (live_calls c)) as [d'|]; [|done]. cbn.
  apply IHch; [done|]. intros w' Hw'. apply Hdep. by right.
Qed.

(** ** The flat format *)
Lemma starts_with_prefix path prefix : starts_with path prefix = true ↔ prefix `prefix_of` path.
Proof.
  unfold starts_with. rewrite bool_decide_eq_true. split.
  - intros <-. exists (drop (length prefix) path). by rewrite take_drop.
  - intros [k ->]. by rewrite take_app_length.
Qed.

Lemma frame_skipped_true failed_paths frame path :
  get "traceAddress" frame = Some (JArray path) →
  frame_skipped failed_paths frame = true ↔
  frame_failed frame = true ∨ ∃ f, f ∈ failed_paths ∧ f `prefix_of` path.
Proof.
  intros Hp. unfold frame_skipped, trace_address. rewrite Hp. cbn. rewrite orb_true_iff, existsb_exists.
  setoid_rewrite starts_with_prefix. setoid_rewrite list_elem_of_In. done.
Qed.

Lemma collect_flat_skips failed_paths frames decoded :
  Forall (λ f, frame_skipped failed_paths f = true) frames →
  try_fold (collect_flat railgun_contract failed_paths) decoded frames = Ok decoded.
Proof. unfold collect_flat. induction 1 as [|f l Hf _ IH]; cbn; [done|]. by rewrite Hf. Qed.

Lemma flat_paths :
  (∀ path c frames, flat_frames path c frames →
     Forall (λ f, ∃ q, get "traceAddress" f = Some (JArray (path ++ q))) frames) ∧
  (∀ path i children frames, flat_children path i children frames →
     Forall (λ f, ∃ j q, (i ≤ j)%nat ∧ get "traceAddress" f = Some (JArray (path ++ JNumber (Z.of_nat j) :: q))) frames).
Proof.
  apply flat_mut.
  - intros path frame action failed to input children rest _ _ _ Hp _ IH. constructor.
    + exists []. by rewrite app_nil_r.
    + eapply Forall_impl; [exact IH|]. cbn. intros f (j & q & _ & Hf). by eexists.
  - constructor.
  - intros path i c children frames rest _ IHc _ IHr. apply Forall_app. split.
    + eapply Forall_impl; [exact IHc|]. cbn. intros f (q & Hf). exists i, q. split; [done|]. by rewrite Hf, <- app_assoc.
    + eapply Forall_impl; [exact IHr|]. cbn. intros f (j & q & Hj & Hf). exists j, q. split; [lia|done].
Qed.

Lemma failed_paths_app l1 l2 : failed_paths_of (l1 ++ l2) = failed_paths_of l1 ++ failed_paths_of l2.
Proof. unfold failed_paths_of. by rewrite filter_app, omap_app. Qed.

(** A failed path of some frames is the path of one of them. *)
Lemma elem_of_failed_paths frames p :
  p ∈ failed_paths_of frames → ∃ f, f ∈ frames ∧ trace_address f = Some p.
Proof. intros (f & [_ Hf]%list_elem_of_filter & Hp)%list_elem_of_omap. by exists f. Qed.

Lemma failed_path_of_children path i children frames p :
  flat_children path i children frames → p ∈ failed_paths_of frames →
  ∃ j q, (i ≤ j)%nat ∧ p = path ++ JNumber (Z.of_nat j) :: q.
Proof.
  intros Hfl (f & Hf & Hp)%elem_of_failed_paths. apply (proj2 flat_paths) in Hfl. rewrite Forall_forall in Hfl.
  destruct (Hfl f Hf) as (j & q & Hj & Ha). exists j, q. split; [done|]. unfold trace_address in Hp.
  rewrite Ha in Hp. by injection Hp.
Qed.
Lemma failed_path_of_frames path c frames p :
  flat_frames path c frames → p ∈ failed_paths_of frames → ∃ q, p = path ++ q.
Proof.
  intros Hfl (f & Hf & Hp)%elem_of_failed_paths. apply (proj1 flat_paths) in Hfl. rewrite Forall_forall in Hfl.
  destruct (Hfl f Hf) as (q & Ha). exists q. unfold trace_address in Hp. rewrite Ha in Hp. by injection Hp.
Qed.

(** Some failed path leads to [path]. *)
Definition blocked (failed_paths : list (list Value)) (path : list Value) : Prop :=
  ∃ f, f ∈ failed_paths ∧ f `prefix_of` path.

Lemma blocked_app fp1 fp2 path : blocked (fp1 ++ fp2) path ↔ blocked fp1 path ∨ blocked fp2 path.
Proof. unfold blocked. setoid_rewrite elem_of_app. naive_solver. Qed.

(** Siblings do not block each other. *)
Lemma blocked_sibling path i j q q' :
  i ≠ j → ¬ (path ++ JNumber (Z.of_nat i) :: q) `prefix_of` (path ++ JNumber (Z.of_nat j) :: q').
Proof. intros Hij Heq%prefix_app_inv%prefix_cons_inv_1. injection Heq. lia. Qed.

Lemma collect_flat_live :
  (∀ path c frames, flat_frames path c frames → ∀ failed_paths decoded,
     (∀ q, blocked failed_paths (path ++ q) ↔ blocked (failed_paths_of frames) (path ++ q)) →
     try_fold (collect_flat railgun_contract failed_paths) decoded frames =
     try_fold call_step decoded (live_calls c)) ∧
  (∀ path i children frames, flat_children path i children frames → ∀ failed_paths decoded,
     (∀ j q, (i ≤ j)%nat → blocked failed_paths (path ++ JNumber (Z.of_nat j) :: q) ↔
        blocked (failed_paths_of frames) (path ++ JNumber (Z.of_nat j) :: q)) →
     try_fold (collect_flat railgun_contract failed_paths) decoded frames =
     try_fold call_step decoded (concat (map live_calls children))).
Proof.
  apply flat_mut.
  - intros path frame action failed to input children rest Hobj Hfail Hact Hp Hrest IH fp decoded Hagree.
    assert (failed_paths_of (frame :: rest) = (if frame_failed frame then [path] else []) ++ failed_paths_of rest) as Hfp.
    { unfold failed_paths_of. rewrite filter_cons. destruct (frame_failed frame); [rewrite decide_True by done|by rewrite decide_False].
      cbn. unfold trace_address at 1. by rewrite Hp. }
    rewrite Hfp in Hagree. cbn [live_calls]. subst failed. destruct (frame_failed frame) eqn:Hfail.
    + apply collect_flat_skips.
      assert (flat_frames path (mkCall true to input children) (frame :: rest)) as Hfl by by econstructor.
      apply (proj1 flat_paths) in Hfl. eapply Forall_impl; [exact Hfl|]. cbn. intros f (q & Hf).
      apply (frame_skipped_true _ _ _ Hf). right. apply Hagree, blocked_app. left. exists path.
      split; [by left|by eexists].
    + cbn [app] in Hagree. cbn [try_fold]. unfold collect_flat at 2.
      assert (frame_skipped fp frame = false) as ->.
      { apply not_true_is_false. rewrite (frame_skipped_true _ _ _ Hp), Hfail. intros [?|Hb]; [done|].
        rewrite <- (app_nil_r path) in Hb. apply Hagree in Hb as (f & Hf & Hpre).
        destruct (failed_path_of_children _ _ _ _ _ Hrest Hf) as (j & q & _ & ->).
        apply prefix_length in Hpre. rewrite !length_app in Hpre. cbn in Hpre. lia. }
      rewrite Hact, (append_call_object _ _ _ _ Hobj). destruct (call_step decoded (to, input)) as [d|]; [|done].
      cbn. apply IH. intros j q _. apply Hagree.
  - done.
  - intros path i c children frames rest Hfr IHc Hrest IHr fp decoded Hagree.
    rewrite try_fold_app. cbn [map concat]. rewrite try_fold_app, IHc.
    + destruct (try_fold call_step decoded (live_calls c)) as [d|]; [|done]. cbn. apply IHr.
      intros j q Hj. rewrite Hagree by lia. rewrite failed_paths_app, blocked_app. split; [|by right].
      intros [(f & Hf & Hpre)|?]; [|done]. destruct (failed_path_of_frames _ _ _ _ Hfr Hf) as (q' & ->).
      rewrite <- app_assoc in Hpre. apply blocked_sibling in Hpre; [done|lia].
    + intros q. rewrite <- app_assoc. cbn [app]. rewrite Hagree by lia. rewrite failed_paths_app, blocked_app.
      split; [|by left]. intros [?|(f & Hf & Hpre)]; [done|].
      destruct (failed_path_of_children _ _ _ _ _ Hrest Hf) as (j & q' & Hj & ->).
      apply blocked_sibling in Hpre; [done|lia].
Qed.
End collectors.

(** Both trace formats give the same transactions: the nested and the flat
    trace of one call tree are collected to the same result, errors included,
    and that result is the fold over the tree's live calls in depth-first
    order, so calls below a reverted call contribute nothing. *)
Theorem trace_formats_agree `{ContractCrate} `{CalldataCrate} `{HexStrings} railgun_contract c v frames decoded :
  debug_frame v c → flat_frames [] c frames →
  collect_debug_trace_railgun_transactions railgun_contract v decoded =
    try_fold (call_step railgun_contract) decoded (live_calls c) ∧
  collect_trace_transaction_railgun_transactions railgun_contract (JArray frames) decoded =
    try_fold (call_step railgun_contract) decoded (live_calls c).
Proof.
  intros Hd Hf. split; [apply collect_debug_live; [done|lia]|].
  by eapply (proj1 (collect_flat_live railgun_contract)).
Qed.

(** A relayed call that reverted after a nested one: only the root counts. *)
#[export] Instance toy_hex : HexStrings := {|
  parse_address s := if decide (s = "0xc0"%string) then Some 192 else None;
  parse_b256 _ := None;
  hex_decode_string s := if decide (s = "01"%string) then Some [Byte.x01] else None;
|}.
Definition toy_call : Call :=
  mkCall false (Some "0xc0"%string) (Some "0x01"%string)
    [mkCall true (Some "0xaa"%string) None [mkCall false (Some "0xc0"%string) (Some "0x01"%string) []]].
Definition toy_fields : list (string * Value) := [("to"%string, JString "0xc0"); ("input"%string, JString "0x01")].
Definition toy_debug : Value :=
  JObject (toy_fields ++ [("calls"%string, JArray
    [JObject [("to"%string, JString "0xaa"); ("error"%string, JString "reverted");
              ("calls"%string, JArray [JObject toy_fields])]])]).
Definition toy_flat : list Value :=
  [JObject [("action"%string, JObject toy_fields); ("traceAddress"%string, JArray [])];
   JObject [("action"%string, JObject [("to"%string, JString "0xaa")]); ("error"%string, JString "Reverted");
            ("traceAddress"%string, JArray [JNumber 0])];
   JObject [("action"%string, JObject toy_fields); ("traceAddress"%string, JArray [JNumber 0; JNumber 0])]].

Lemma trace_formats_agree_witness :
  collect_debug_trace_railgun_transactions (H := toy_contract) (H0 := toy_calldata) 192 toy_debug [] =
    try_fold (call_step (H := toy_contract) (H0 := toy_calldata) 192) [] (live_calls toy_call) ∧
  collect_trace_transaction_railgun_transactions (H := toy_contract) (H0 := toy_calldata) 192 (JArray toy_flat) [] =
    try_fold (call_step (H := toy_contract) (H0 := toy_calldata) 192) [] (live_calls toy_call).
Proof.
  apply (trace_formats_agree (H := toy_contract) (H0 := toy_calldata) 192 toy_call toy_debug toy_flat []).
  - econstructor; [by split|done|reflexivity|]. constructor; [|constructor].
    econstructor; [by split|done|reflexivity|]. constructor; [|constructor].
    econstructor; [by split|done|reflexivity|]. constructor.
  - econstructor; [|done|reflexivity|done|]; [by split|]. apply (flat_cons [] 0 _ [] [_; _] []); [|constructor].
    econstructor; [|done|reflexivity|done|]; [by split|]. apply (flat_cons [JNumber 0] 0 _ [] [_] []); [|constructor].
    econstructor; [|done|reflexivity|done|]; [by split|]. constructor.
Defined.
