(* ===== verification/Hydrate.v ===== *)
(** * Hydration ([chain_logs.rs])

    After ingestion a batch is hydrated: sources get their block timestamps,
    and every outer transaction with outputs or nullifiers gets its public
    TXID rows, from its [Action] logs at and after the activation block, from
    calldata or traces before it. The provider is a function of the request:
    what it is asked for is keyed by hash. Rust's [HashMap]s are finite maps;
    the order in which the loop visits the summaries is a parameter, a
    permutation the code does not control. *)

From S2P Require Import Prelude Order Wire Ipfs Artifacts MerkleCheckpointChunk ChainLogs ActionFrames ActionGrammar OutputMatch Calldata Traces.

Section hydrate.
Context `{ContractCrate} `{CalldataCrate} `{HexStrings} `{TreeCrate}.

(** The JSON-RPC provider. A block is its hash, number and timestamp. *)
Record EthProvider := mkProvider {
  get_transaction_by_hash : Z → cresult (option bytes);
  get_block_by_hash : Z → cresult (option (Z * Z * Z));
  request_full_block : Z → cresult (option Value);
  debug_trace_transaction : Z → cresult Value;
  trace_transaction : Z → cresult Value;
}.

(** [LegacyCommitmentPreimage::hash], of the contract crate. *)
Context (legacy_preimage_hash : LegacyCommitmentPreimage → Z).
Context (provider : EthProvider) (railgun_contract : Z).

(** ** Blocks *)
Definition validate_source_block_metadata (expected_block_number expected_block_hash actual_block_hash actual_block_number : Z)
    : cresult unit :=
  if decide (actual_block_hash ≠ expected_block_hash ∨ actual_block_number ≠ expected_block_number)
  then Err (MismatchedBlock expected_block_number expected_block_hash actual_block_number actual_block_hash)
  else Ok ().

Definition block_timestamp_for_source (block_hash block_number : Z) : cresult Z :=
  block ← get_block_by_hash provider block_hash;
  '(hash, number, timestamp) ← ok_or block (MissingBlock block_number block_hash);
  _ ← validate_source_block_metadata block_number block_hash hash number;
  Ok timestamp.

Definition block_timestamp (block_timestamps : gmap Z Z) (summary : TransactOutputSummary) : cresult (Z * gmap Z Z) :=
  let source := su_source summary in
  match ls_block_timestamp source with
  | Some timestamp => Ok (timestamp, block_timestamps)
  | None =>
      match block_timestamps !! ls_block_hash source with
      | Some timestamp => Ok (timestamp, block_timestamps)
      | None =>
          timestamp ← block_timestamp_for_source (ls_block_hash source) (ls_block_number source);
          Ok (timestamp, <[ls_block_hash source := timestamp]> block_timestamps)
      end
  end.

Record FullBlockContext := mkFullBlock {
  fb_timestamp : Z;
  fb_transaction_inputs : gmap Z bytes;
}.

Definition invalid_field (summary : TransactOutputSummary) (field : string) : ChainLogIngestionError :=
  InvalidBlockField (ls_block_number (su_source summary)) (ls_block_hash (su_source summary)) field.
Definition json_fixed_bytes_field (block : Value) (field : string) (summary : TransactOutputSummary) : cresult Z :=
  ok_or ((get field block ≫= as_str) ≫= parse_b256) (invalid_field summary field).
Definition json_quantity_u64_field (block : Value) (field : string) (summary : TransactOutputSummary) : cresult Z :=
  ok_or ((get field block ≫= as_str) ≫= parse_hex_quantity_u64) (invalid_field summary field).

Definition raw_block_transaction_input (transaction : Value) : option (Z * bytes) :=
  transaction_hash ← (get "hash" transaction ≫= as_str) ≫= parse_b256;
  input ← get "input" transaction ≫= as_str;
  input ← decode_hex_bytes input;
  Some (transaction_hash, input).
Definition raw_block_transaction_inputs (block : Value) (summary : TransactOutputSummary) : cresult (gmap Z bytes) :=
  transactions ← ok_or (get "transactions" block ≫= as_array)
    (MissingFullBlockTransactions (ls_block_number (su_source summary)) (ls_block_hash (su_source summary)));
  Ok (foldl (λ inputs transaction,
        match raw_block_transaction_input transaction with
        | Some (hash, input) => <[hash := input]> inputs
        | None => inputs
        end) ∅ transactions).

(** The two caches of the loop. *)
Record Caches := mkCaches {
  ca_block_timestamps : gmap Z Z;
  ca_full_blocks : gmap Z FullBlockContext;
}.

Definition full_block_context (caches : Caches) (summary : TransactOutputSummary) : cresult (FullBlockContext * Caches) :=
  let source := su_source summary in
  match ca_full_blocks caches !! ls_block_hash source with
  | Some context => Ok (context, caches)
  | None =>
      block ← request_full_block provider (ls_block_hash source);
      block ← ok_or block (MissingBlock (ls_block_number source) (ls_block_hash source));
      actual_block_hash ← json_fixed_bytes_field block "hash" summary;
      actual_block_number ← json_quantity_u64_field block "number" summary;
      _ ← validate_source_block_metadata (ls_block_number source) (ls_block_hash source)
            actual_block_hash actual_block_number;
      timestamp ← json_quantity_u64_field block "timestamp" summary;
      transaction_inputs ← raw_block_transaction_inputs block summary;
      let context := mkFullBlock timestamp transaction_inputs in
      Ok (context, mkCaches (<[ls_block_hash source := timestamp]> (ca_block_timestamps caches))
                     (<[ls_block_hash source := context]> (ca_full_blocks caches)))
  end.

(** ** Timestamps of the sources *)
Definition collect_missing_timestamp_blocks (st : gset Z * list (Z * Z)) (sources : list IndexedLogSource)
    : gset Z * list (Z * Z) :=
  foldl (λ (st : gset Z * list (Z * Z)) source,
    if bool_decide (ls_block_timestamp source = None) && bool_decide (ls_block_hash source ∉ st.1)
    then ({[ls_block_hash source]} ∪ st.1, st.2 ++ [(ls_block_hash source, ls_block_number source)])
    else st) st sources.

Definition set_source_timestamp (timestamps : gmap Z Z) (source : IndexedLogSource) : IndexedLogSource :=
  match ls_block_timestamp source, timestamps !! ls_block_hash source with
  | None, Some timestamp =>
      mkLogSource (ls_block_number source) (Some timestamp) (ls_block_hash source)
        (ls_transaction_hash source) (ls_log_index source)
  | _, _ => source
  end.

Definition batch_sources (batch : IndexedLogBatch) : list (list IndexedLogSource) :=
  [tc_source <$> transact_commitments batch; sc_source <$> shield_commitments batch;
   nu_source <$> nullifiers batch; le_source <$> legacy_encrypted_commitments batch;
   lg_source <$> legacy_generated_commitments batch].

(** [iter_mut()] over the sources of all rows. *)
Definition map_sources (f : IndexedLogSource → IndexedLogSource) (batch : IndexedLogBatch) : IndexedLogBatch :=
  mkBatch
    ((λ r, mkTransactCommitment (tc_tree_number r) (tc_tree_position r) (tc_hash r) (tc_ciphertext r)
             (f (tc_source r))) <$> transact_commitments batch)
    ((λ r, mkShieldCommitment (sc_tree_number r) (sc_tree_position r) (sc_preimage r) (sc_shield_ciphertext r)
             (f (sc_source r))) <$> shield_commitments batch)
    ((λ r, mkNullifier (nu_tree_number r) (nu_nullifier r) (f (nu_source r))) <$> nullifiers batch)
    ((λ r, mkLegacyEncrypted (le_tree_number r) (le_tree_position r) (le_hash r) (le_ciphertext r)
             (f (le_source r))) <$> legacy_encrypted_commitments batch)
    ((λ r, mkLegacyGenerated (lg_tree_number r) (lg_tree_position r) (lg_preimage r) (lg_encrypted_random r)
             (f (lg_source r))) <$> legacy_generated_commitments batch)
    (actions batch) (unshields batch) (public_transactions batch)
    (unshield_log_derivations batch) (unshield_log_divergences batch).

Definition fetch_timestamps (missing_blocks : list (Z * Z)) : cresult (gmap Z Z) :=
  try_fold (λ (timestamps : gmap Z Z) (block : Z * Z),
    timestamp ← block_timestamp_for_source block.1 block.2;
    Ok (<[block.1 := timestamp]> timestamps)) ∅ missing_blocks.

Definition hydrate_indexed_log_source_timestamps (batch : IndexedLogBatch) : cresult IndexedLogBatch :=
  let missing_blocks := snd (foldl collect_missing_timestamp_blocks (∅, []) (batch_sources batch)) in
  timestamps ← fetch_timestamps missing_blocks;
  Ok (map_sources (set_source_timestamp timestamps) batch).

(** ** Summaries *)
Definition record_public_transaction_summary (family : EmittedOutputFamily)
    (summaries : gmap Z TransactOutputSummary) (item : IndexedLogSource * (Z * Z * Z)) : gmap Z TransactOutputSummary :=
  let '(source, (tree_number, tree_position, hash)) := item in
  let emitted := mkEmitted family (ls_log_index source) tree_number tree_position hash in
  <[ls_transaction_hash source :=
      match summaries !! ls_transaction_hash source with
      | Some summary =>
          mkSummary (su_source summary) (Z.min (su_first_log_index summary) (ls_log_index source))
            (Z.max (su_last_log_index summary) (ls_log_index source))
            (su_output_commitments summary ++ [emitted]) (su_nullifier_groups summary)
      | None => mkSummary source (ls_log_index source) (ls_log_index source) [emitted] []
      end]> summaries.

(** The first map groups the nullifiers by log, the second the groups by
    transaction, each sorted by log index. *)
Definition group_nullifier (grouped : gmap (Z * Z) NullifierGroup) (item : IndexedNullifier) : gmap (Z * Z) NullifierGroup :=
  let key := (ls_transaction_hash (nu_source item), ls_log_index (nu_source item)) in
  <[key :=
      match grouped !! key with
      | Some group => mkNullifierGroup (ng_source group) (ng_nullifiers group ++ [nu_nullifier item])
      | None => mkNullifierGroup (nu_source item) [nu_nullifier item]
      end]> grouped.
Definition push_group (by_transaction : gmap Z (list NullifierGroup)) (group : NullifierGroup) : gmap Z (list NullifierGroup) :=
  let key := ls_transaction_hash (ng_source group) in
  <[key := default [] (by_transaction !! key) ++ [group]]> by_transaction.
Definition nullifier_groups_by_transaction (items : list IndexedNullifier) : gmap Z (list NullifierGroup) :=
  let grouped := foldl group_nullifier ∅ items in
  let by_transaction := foldl push_group ∅ (map_to_list grouped).*2 in
  sort_by_key (λ g, ls_log_index (ng_source g)) <$> by_transaction.

(** The body of [for (transaction_hash, groups) in nullifier_groups]: it
    touches only the entry of its key. *)
Definition add_nullifier_groups (summary : option TransactOutputSummary) (groups : list NullifierGroup)
    : option TransactOutputSummary :=
  let indexes := (λ g, ls_log_index (ng_source g)) <$> groups in
  match summary, groups with
  | Some summary, _ =>
      Some (mkSummary (su_source summary) (foldl Z.min (su_first_log_index summary) indexes)
        (foldl Z.max (su_last_log_index summary) indexes)
        (su_output_commitments summary) (su_nullifier_groups summary ++ groups))
  | None, first_group :: _ =>
      let first := ls_log_index (ng_source first_group) in
      Some (mkSummary (ng_source first_group) (foldl Z.min first indexes) (foldl Z.max first indexes) [] groups)
  | None, [] => None
  end.

Definition output_summaries (batch : IndexedLogBatch) : gmap Z TransactOutputSummary :=
  let nullifier_transaction_hashes : gset Z := list_to_set ((λ n, ls_transaction_hash (nu_source n)) <$> nullifiers batch) in
  let summaries := foldl (record_public_transaction_summary FTransact) ∅
    ((λ r, (tc_source r, (tc_tree_number r, tc_tree_position r, tc_hash r))) <$> transact_commitments batch) in
  let summaries := foldl (record_public_transaction_summary FLegacyEncrypted) summaries
    ((λ r, (le_source r, (le_tree_number r, le_tree_position r, le_hash r))) <$>
     filter (λ r, ls_transaction_hash (le_source r) ∈ nullifier_transaction_hashes) (legacy_encrypted_commitments batch)) in
  foldl (record_public_transaction_summary FLegacyGenerated) summaries
    ((λ r, (lg_source r, (lg_tree_number r, lg_tree_position r, legacy_preimage_hash (lg_preimage r)))) <$>
     filter (λ r, ls_transaction_hash (lg_source r) ∈ nullifier_transaction_hashes) (legacy_generated_commitments batch)).

Definition transaction_summaries (batch : IndexedLogBatch) : gmap Z TransactOutputSummary :=
  merge (λ summary groups, match groups with Some groups => add_nullifier_groups summary groups | None => summary end)
    (output_summaries batch) (nullifier_groups_by_transaction (nullifiers batch)).

(** ** Action events of a transaction, by log index *)
Definition action_events := gmap Z (gmap Z ActionLogEvent).

Definition push_action_event (source : IndexedLogSource) (fresh : ActionLogEvent) (push : ActionLogEvent → ActionLogEvent)
    (events : action_events) : action_events :=
  let of_transaction := default ∅ (events !! ls_transaction_hash source) in
  <[ls_transaction_hash source :=
      <[ls_log_index source := push (default fresh (of_transaction !! ls_log_index source))]> of_transaction]> events.

Definition is_active (action_start_block : Z) (source : IndexedLogSource) : Prop := action_start_block ≤ ls_block_number source.
#[export] Instance is_active_dec start source : Decision (is_active start source).
Proof. unfold is_active. apply _. Defined.

Definition action_log_events_by_transaction (batch : IndexedLogBatch) (action_start_block : Z) : action_events :=
  let events := foldl (λ events item,
    push_action_event (nu_source item) (ANullified (nu_tree_number item) [])
      (λ e, match e with ANullified t ns => ANullified t (ns ++ [nu_nullifier item]) | e => e end) events)
    ∅ (filter (λ i, is_active action_start_block (nu_source i)) (nullifiers batch)) in
  let events := foldl (λ events item,
    push_action_event (tc_source item) (ATransact [])
      (λ e, match e with ATransact hs => ATransact (hs ++ [tc_hash item]) | e => e end) events)
    events (filter (λ i, is_active action_start_block (tc_source i)) (transact_commitments batch)) in
  let events := foldl (λ events item,
    push_action_event (ac_source item) (AAction (ac_txconfigs item)) (λ _, AAction (ac_txconfigs item)) events)
    events (filter (λ i, is_active action_start_block (ac_source i)) (actions batch)) in
  foldl (λ events item,
    push_action_event (us_source item) (AUnshield (us_unshield item)) (λ _, AUnshield (us_unshield item)) events)
    events (filter (λ i, is_active action_start_block (us_source i)) (unshields batch)).

(** ** Rows of one transaction *)
Definition public_transactions_from_calldata (summary : TransactOutputSummary) (timestamp : Z) (calldata : bytes)
    : cresult (list IndexedPublicTransaction) :=
  transactions ← decode_railgun_transactions calldata;
  match transactions with
  | None => Ok []
  | Some transactions => public_transactions_from_decoded summary timestamp transactions
  end.

Definition public_transactions_from_trace (summary : TransactOutputSummary) (timestamp : Z)
    : cresult (list IndexedPublicTransaction) :=
  let hash := ls_transaction_hash (su_source summary) in
  decoded ← match debug_trace_transaction provider hash with
            | Ok trace => collect_debug_trace_railgun_transactions railgun_contract trace []
            | Err _ => Ok []
            end;
  decoded ← (if decide (length decoded = 0%nat) then
               match trace_transaction provider hash with
               | Ok trace => collect_trace_transaction_railgun_transactions railgun_contract trace decoded
               | Err _ => Ok decoded
               end
             else Ok decoded);
  public_transactions_from_decoded summary timestamp decoded.

Definition public_transactions_from_calldata_or_trace (summary : TransactOutputSummary) (timestamp : Z) (calldata : bytes)
    : cresult (list IndexedPublicTransaction) :=
  match public_transactions_from_calldata summary timestamp calldata with
  | Ok [] | Err (UnmatchedEmittedOutputCommitments _ _ _ _) => public_transactions_from_trace summary timestamp
  | Ok rows => Ok rows
  | Err error => Err error
  end.

(** ** One transaction by its hash *)
Record ResolvedPublicTransaction := mkResolved {
  rp_railgun_transaction_index : Z;
  rp_nullifiers : list Z;
  rp_commitments : list Z;
  rp_bound_params_hash : Z;
  rp_has_unshield : bool;
  rp_unshield_preimage : option bytes;
  rp_utxo_tree_in : Z;
}.
Definition resolved_row (index : nat) (t : DecodedRailgunTransaction) : cresult ResolvedPublicTransaction :=
  i ← ok_or (try_from_len u64_max index) (IntegerOverflow "railgun_transaction_index");
  Ok (mkResolved i (dr_nullifiers t) (dr_commitments t) (dr_bound_params_hash t) (dr_has_unshield t)
        (dr_unshield_preimage t) (dr_utxo_tree_in t)).
Definition resolve_public_transactions_by_hash (transaction_hash : Z) : cresult (list ResolvedPublicTransaction) :=
  tx ← get_transaction_by_hash provider transaction_hash;
  input ← ok_or tx (MissingTransactionByHash transaction_hash);
  decoded ← decode_railgun_transactions input;
  let decoded := default [] decoded in
  decoded ← (if decide (length decoded = 0%nat) then
    decoded ← match debug_trace_transaction provider transaction_hash with
              | Ok trace => collect_debug_trace_railgun_transactions railgun_contract trace decoded
              | Err _ => Ok decoded
              end;
    if decide (length decoded = 0%nat) then
      match trace_transaction provider transaction_hash with
      | Ok trace => collect_trace_transaction_railgun_transactions railgun_contract trace decoded
      | Err _ => Ok decoded
      end
    else Ok decoded
  else Ok decoded);
  if decide (length decoded = 0%nat) then Err (MissingRailgunCalldataByHash transaction_hash)
  else enumerate_rows (λ index t, r ← resolved_row index t; Ok (Some r)) 0 decoded.

Definition missing_transaction (summary : TransactOutputSummary) : ChainLogIngestionError :=
  MissingTransaction (ls_transaction_hash (su_source summary)) (ls_block_number (su_source summary))
    (ls_block_hash (su_source summary)) (su_first_log_index summary) (su_last_log_index summary).
Definition missing_calldata (summary : TransactOutputSummary) : ChainLogIngestionError :=
  MissingRailgunCalldata (ls_transaction_hash (su_source summary)) (ls_block_number (su_source summary))
    (ls_block_hash (su_source summary)) (su_first_log_index summary) (su_last_log_index summary).

Definition require_rows (summary : TransactOutputSummary) (rows : list IndexedPublicTransaction)
    : cresult (list IndexedPublicTransaction) :=
  match rows with [] => Err (missing_calldata summary) | _ => Ok rows end.

(** The second half of the loop body: blocks before the activation. *)
Definition legacy_rows (caches : Caches) (summary : TransactOutputSummary)
    : cresult (list IndexedPublicTransaction * Caches) :=
  let transaction_hash := ls_transaction_hash (su_source summary) in
  tx ← get_transaction_by_hash provider transaction_hash;
  match tx with
  | Some input =>
      '(timestamp, block_timestamps) ← block_timestamp (ca_block_timestamps caches) summary;
      rows ← public_transactions_from_calldata_or_trace summary timestamp input;
      rows ← require_rows summary rows;
      Ok (rows, mkCaches block_timestamps (ca_full_blocks caches))
  | None =>
      '(context, caches) ← full_block_context caches summary;
      calldata ← ok_or (fb_transaction_inputs context !! transaction_hash) (missing_transaction summary);
      rows ← public_transactions_from_calldata_or_trace summary (fb_timestamp context) calldata;
      rows ← require_rows summary rows;
      Ok (rows, caches)
  end.

(** The calldata of an unshield-bearing transaction. *)
Definition unshield_calldata (caches : Caches) (summary : TransactOutputSummary) : cresult (bytes * Caches) :=
  let transaction_hash := ls_transaction_hash (su_source summary) in
  tx ← get_transaction_by_hash provider transaction_hash;
  match tx with
  | Some input => Ok (input, caches)
  | None =>
      '(context, caches) ← full_block_context caches summary;
      calldata ← ok_or (fb_transaction_inputs context !! transaction_hash) (missing_transaction summary);
      Ok (calldata, caches)
  end.

(** The rows of one call, with their record indexes. *)
Definition frame_rows (summary : TransactOutputSummary) (timestamp : Z) (frame : ActionCallTransactions)
    : cresult (list (IndexedPublicTransaction * nat)) :=
  let frame_summary := mkSummary (su_source summary) (su_first_log_index summary) (su_last_log_index summary)
    (filter (λ o, Some (em_log_index o) = frame.1) (su_output_commitments summary)) [] in
  let transactions : indexed_transactions := frame.2 in
  rows ← public_transactions_from_decoded frame_summary timestamp transactions.*2;
  Ok (zip rows transactions.*1).

(** [rows.iter_mut().enumerate()]: the new index and id. *)
Fixpoint renumber (transaction_hash : Z) (index : nat) (rows : list IndexedPublicTransaction)
    : cresult (list IndexedPublicTransaction) :=
  match rows with
  | [] => Ok []
  | r :: rows =>
      i ← ok_or (try_from_len u64_max index) (IntegerOverflow "railgun_transaction_index");
      rows ← renumber transaction_hash (S index) rows;
      Ok (mkPublicTransaction (ip_source r) (ip_first_log_index r) (ip_last_log_index r) i
            (transaction_hash, Z.of_nat index) (ip_block_timestamp r) (ip_nullifiers r) (ip_commitments r)
            (ip_bound_params_hash r) (ip_has_unshield r) (ip_unshield_preimage r) (ip_utxo_tree_in r)
            (ip_utxo_tree_out r) (ip_utxo_batch_start_position_out r) (ip_railgun_txid r) :: rows)
  end.

(** The first half of the loop body: rows from [Action] logs. *)
Definition action_rows (events : gmap Z ActionLogEvent) (caches : Caches) (summary : TransactOutputSummary)
    : cresult (list IndexedPublicTransaction * (nat * nat) * Caches) :=
  let transaction_hash := ls_transaction_hash (su_source summary) in
  frames ← decoded_transactions_from_action_logs transaction_hash (ls_block_number (su_source summary))
    (sort_by_key fst (map_to_list events));
  '(frames, counts, caches) ←
    (if decide (length (unshield_rows frames) = 0%nat) then Ok (frames, (0%nat, 0%nat), caches)
     else
       '(calldata, caches) ← unshield_calldata caches summary;
       '(frames, counts) ← resolve_unshield_commitments transaction_hash (ls_block_number (su_source summary)) calldata frames;
       Ok (frames, counts, caches));
  '(timestamp, block_timestamps) ← block_timestamp (ca_block_timestamps caches) summary;
  rows ← try_map (frame_rows summary timestamp) frames;
  let rows := sort_by_key (λ r, Z.of_nat r.2) (concat rows) in
  rows ← renumber transaction_hash 0 rows.*1;
  Ok (rows, counts, mkCaches block_timestamps (ca_full_blocks caches)).

(** One iteration; the state is the rows, the two counters and the caches.
    Each summary has its own hash, so moving its events out of the map is a
    lookup. *)
Definition hydrate_summary (action_start_block : option Z) (events : action_events)
    (st : list IndexedPublicTransaction * (nat * nat) * Caches) (summary : TransactOutputSummary)
    : cresult (list IndexedPublicTransaction * (nat * nat) * Caches) :=
  let '(rows, (derivations, divergences), caches) := st in
  match action_start_block with
  | Some start =>
      if decide (start ≤ ls_block_number (su_source summary)) then
        '(new, (d, v), caches) ← action_rows (default ∅ (events !! ls_transaction_hash (su_source summary))) caches summary;
        Ok (rows ++ new, ((derivations + d)%nat, (divergences + v)%nat), caches)
      else
        '(new, caches) ← legacy_rows caches summary;
        Ok (rows ++ new, (derivations, divergences), caches)
  | None =>
      '(new, caches) ← legacy_rows caches summary;
      Ok (rows ++ new, (derivations, divergences), caches)
  end.

(** The sort key of the rows. *)
Definition row_key (r : IndexedPublicTransaction) : Z * Z * Z * Z :=
  (ls_block_number (ip_source r), ip_first_log_index r, ls_transaction_hash (ip_source r), ip_railgun_transaction_index r).

Definition hydrate_public_transactions
    (visit : gmap Z TransactOutputSummary → list TransactOutputSummary)
    (action_start_block : option Z) (batch : IndexedLogBatch) : cresult IndexedLogBatch :=
  let summaries := transaction_summaries batch in
  let events := match action_start_block with
                | Some start => action_log_events_by_transaction batch start
                | None => ∅
                end in
  '(rows, (derivations, divergences), _) ←
    try_fold (hydrate_summary action_start_block events)
      (public_transactions batch, (unshield_log_derivations batch, unshield_log_divergences batch), mkCaches ∅ ∅)
      (visit summaries);
  Ok (mkBatch (transact_commitments batch) (shield_commitments batch) (nullifiers batch)
        (legacy_encrypted_commitments batch) (legacy_generated_commitments batch) (actions batch) (unshields batch)
        (sort_cmp_key row_key rows) derivations divergences).

(** ** Timestamps: what hydration adds *)

(** [s'] is [s] with a timestamp: its own, or that of the block its hash names. *)
Definition timestamped (s s' : IndexedLogSource) : Prop :=
  ls_block_number s' = ls_block_number s ∧ ls_block_hash s' = ls_block_hash s ∧
  ls_transaction_hash s' = ls_transaction_hash s ∧ ls_log_index s' = ls_log_index s ∧
  match ls_block_timestamp s with
  | Some t => ls_block_timestamp s' = Some t
  | None => ∃ number t, get_block_by_hash provider (ls_block_hash s) = Ok (Some (ls_block_hash s, number, t)) ∧
      ls_block_timestamp s' = Some t
  end.

Lemma block_timestamp_for_source_Ok h n t :
  block_timestamp_for_source h n = Ok t → get_block_by_hash provider h = Ok (Some (h, n, t)).
Proof.
  unfold block_timestamp_for_source, validate_source_block_metadata. intros Hr.
  apply bind_Ok in Hr as (b & Hb & Hr). apply bind_Ok in Hr as ([[hh nn] tt] & [= ->]%ok_or_Ok & Hr).
  case_decide as Hd; [done|]. injection Hr as <-.
  assert (hh = h) as -> by (destruct (decide (hh = h)); [done|]; exfalso; apply Hd; by left).
  assert (nn = n) as -> by (destruct (decide (nn = n)); [done|]; exfalso; apply Hd; by right). done.
Qed.

Lemma collect_missing_one st sources :
  st.1 = list_to_set st.2.*1 →
  let st' := collect_missing_timestamp_blocks st sources in
  st'.1 = list_to_set st'.2.*1 ∧ st.1 ⊆ st'.1 ∧
  ∀ s, s ∈ sources → ls_block_timestamp s = None → ls_block_hash s ∈ st'.1.
Proof.
  unfold collect_missing_timestamp_blocks. revert st. induction sources as [|s sources IH]; intros st Hst; cbn [foldl].
  { split_and!; [done|done|]. by intros s ?%not_elem_of_nil. }
  case_bool_decide as Hn; cbn [andb]; [case_bool_decide as Hin|].
  - destruct (IH ({[ls_block_hash s]} ∪ st.1, st.2 ++ [(ls_block_hash s, ls_block_number s)])) as (? & Hsub & Hall).
    { cbn. rewrite fmap_app, list_to_set_app_L, Hst. cbn. set_solver. }
    cbn in Hsub. split_and!; [done|set_solver|]. intros s' [->|Hs']%elem_of_cons Hn'; [set_solver|by apply Hall].
  - destruct (IH st Hst) as (? & Hsub & Hall). split_and!; [done|done|].
    intros s' [->|Hs']%elem_of_cons Hn'; [|by apply Hall]. set_solver.
  - destruct (IH st Hst) as (? & Hsub & Hall). split_and!; [done|done|].
    intros s' [->|Hs']%elem_of_cons Hn'; [done|by apply Hall].
Qed.

Lemma collect_missing_all lists : ∀ st,
  st.1 = list_to_set st.2.*1 →
  let st' := foldl collect_missing_timestamp_blocks st lists in
  st'.1 = list_to_set st'.2.*1 ∧ st.1 ⊆ st'.1 ∧
  ∀ s, s ∈ concat lists → ls_block_timestamp s = None → ls_block_hash s ∈ st'.1.
Proof.
  induction lists as [|l lists IH]; intros st Hst; cbn [foldl concat].
  { split_and!; [done|done|]. by intros s ?%not_elem_of_nil. }
  destruct (collect_missing_one st l Hst) as (Hst1 & Hsub1 & Hall1). destruct (IH _ Hst1) as (? & Hsub & Hall).
  split_and!; [done|set_solver|]. intros s [Hs|Hs]%elem_of_app Hn; [apply Hsub|]; auto.
Qed.

Lemma fetch_timestamps_Ok blocks : ∀ m m',
  try_fold (λ (timestamps : gmap Z Z) (block : Z * Z),
    timestamp ← block_timestamp_for_source block.1 block.2;
    Ok (<[block.1 := timestamp]> timestamps)) m blocks = Ok m' →
  (∀ h t, m !! h = Some t → ∃ n, block_timestamp_for_source h n = Ok t) →
  (∀ h t, m' !! h = Some t → ∃ n, block_timestamp_for_source h n = Ok t) ∧
  (∀ h, is_Some (m !! h) ∨ h ∈ blocks.*1 → is_Some (m' !! h)).
Proof.
  induction blocks as [|[h n] blocks IH]; intros m m'; cbn [try_fold].
  - intros [= <-] Hm. split; [done|]. intros h [?|?%not_elem_of_nil]; done.
  - rewrite bind_Ok. intros (m1 & Hm1 & Hr) Hm. apply bind_Ok in Hm1 as (t & Ht & [= <-]). cbn in Ht.
    destruct (IH _ _ Hr) as [Hval Hdom].
    { intros h' t'. cbn. destruct (decide (h' = h)) as [->|]; [rewrite lookup_insert_eq; intros [= <-]; by exists n|].
      rewrite lookup_insert_ne by done. apply Hm. }
    split; [done|]. intros h' Hh. apply Hdom. cbn. destruct (decide (h' = h)) as [->|]; [left; by rewrite lookup_insert_eq|].
    rewrite lookup_insert_ne by done. destruct Hh as [?|Hh]; [by left|]. cbn in Hh. apply elem_of_cons in Hh as [->|]; [done|by right].
Qed.

Lemma set_source_timestamp_ok timestamps s :
  (∀ h t, timestamps !! h = Some t → ∃ n, block_timestamp_for_source h n = Ok t) →
  (ls_block_timestamp s = None → is_Some (timestamps !! ls_block_hash s)) →
  timestamped s (set_source_timestamp timestamps s).
Proof.
  intros Hval Hdom. unfold timestamped, set_source_timestamp. destruct (ls_block_timestamp s) as [t|] eqn:Hs.
  - by split_and!.
  - destruct (Hdom eq_refl) as [t Ht]. rewrite Ht. cbn. split_and!; [done..|].
    destruct (Hval _ _ Ht) as (n & Hn%block_timestamp_for_source_Ok). by exists n, t.
Qed.

(** ** Independence of the caches

    [block_truth h t]: the provider says that block [h] has timestamp [t], in
    one of the two ways it is asked. *)
Definition block_truth (h t : Z) : Prop :=
  (∃ hash n, get_block_by_hash provider h = Ok (Some (hash, n, t))) ∨
  (∃ v, request_full_block provider h = Ok (Some v) ∧ (get "timestamp" v ≫= as_str) ≫= parse_hex_quantity_u64 = Some t).
Definition provider_consistent : Prop := ∀ h t1 t2, block_truth h t1 → block_truth h t2 → t1 = t2.

(** The inputs of a block, as the provider's full block lists them. *)
Definition inputs_truth (h : Z) (inputs : gmap Z bytes) : Prop :=
  ∃ v s, request_full_block provider h = Ok (Some v) ∧ raw_block_transaction_inputs v s = Ok inputs.
Lemma inputs_truth_det h i1 i2 : inputs_truth h i1 → inputs_truth h i2 → i1 = i2.
Proof.
  intros (v1 & s1 & Hv1 & Hi1) (v2 & s2 & Hv2 & Hi2). rewrite Hv1 in Hv2. injection Hv2 as ->.
  unfold raw_block_transaction_inputs in *. apply bind_Ok in Hi1 as (l1 & Hl1%ok_or_Ok & [= <-]).
  apply bind_Ok in Hi2 as (l2 & Hl2%ok_or_Ok & [= <-]). congruence.
Qed.

Record caches_ok (c : Caches) : Prop := {
  co_timestamps h t : ca_block_timestamps c !! h = Some t → block_truth h t;
  co_blocks h b : ca_full_blocks c !! h = Some b → block_truth h (fb_timestamp b) ∧ inputs_truth h (fb_transaction_inputs b);
}.
Lemma caches_ok_empty : caches_ok (mkCaches ∅ ∅).
Proof. split; cbn; intros h x Hh; by rewrite lookup_empty in Hh. Qed.

Lemma insert_timestamp_ok c h t :
  caches_ok c → block_truth h t → caches_ok (mkCaches (<[h := t]> (ca_block_timestamps c)) (ca_full_blocks c)).
Proof.
  intros [Ht Hb] Htr. split; cbn; [|done]. intros h' t'. destruct (decide (h' = h)) as [->|].
  - rewrite lookup_insert_eq. by intros [= <-].
  - rewrite lookup_insert_ne by done. apply Ht.
Qed.

(** The timestamp of a summary's source. *)
Definition timestamp_truth (s : IndexedLogSource) (t : Z) : Prop :=
  match ls_block_timestamp s with Some t' => t = t' | None => block_truth (ls_block_hash s) t end.

Lemma block_timestamp_truth c summary t bt :
  caches_ok c → block_timestamp (ca_block_timestamps c) summary = Ok (t, bt) →
  timestamp_truth (su_source summary) t ∧ caches_ok (mkCaches bt (ca_full_blocks c)).
Proof.
  intros Hc. unfold block_timestamp, timestamp_truth. destruct (ls_block_timestamp (su_source summary)) as [t'|].
  { intros [= <- <-]. by destruct c. }
  destruct (ca_block_timestamps c !! _) as [t'|] eqn:Hl.
  { intros [= <- <-]. split; [by apply (co_timestamps c)|by destruct c]. }
  rewrite bind_Ok. intros (t' & Ht%block_timestamp_for_source_Ok & [= <- <-]).
  assert (block_truth (ls_block_hash (su_source summary)) t') by (left; by eexists _, _).
  split; [done|by apply insert_timestamp_ok].
Qed.

Lemma full_block_context_truth c summary b c' :
  caches_ok c → full_block_context c summary = Ok (b, c') →
  block_truth (ls_block_hash (su_source summary)) (fb_timestamp b) ∧
  inputs_truth (ls_block_hash (su_source summary)) (fb_transaction_inputs b) ∧ caches_ok c'.
Proof.
  intros Hc. unfold full_block_context. destruct (ca_full_blocks c !! _) as [b'|] eqn:Hl.
  { intros [= <- <-]. destruct (co_blocks c Hc _ _ Hl). by split_and!. }
  rewrite bind_Ok. intros (o & Ho & Hr). apply bind_Ok in Hr as (v & [= ->]%ok_or_Ok & Hr).
  apply bind_Ok in Hr as (h & _ & Hr). apply bind_Ok in Hr as (n & _ & Hr). apply bind_Ok in Hr as ([] & _ & Hr).
  apply bind_Ok in Hr as (t & Ht%ok_or_Ok & Hr). apply bind_Ok in Hr as (inputs & Hi & [= <- <-]). cbn.
  assert (block_truth (ls_block_hash (su_source summary)) t) as Htr by (right; by exists v).
  assert (inputs_truth (ls_block_hash (su_source summary)) inputs) as Hin by by exists v, summary.
  split_and!; [done|done|]. destruct (insert_timestamp_ok _ _ _ Hc Htr) as [Ht' _]. split; cbn; [done|].
  intros h' b'. destruct (decide (h' = ls_block_hash (su_source summary))) as [->|].
  - rewrite lookup_insert_eq. by intros [= <-].
  - rewrite lookup_insert_ne by done. apply (co_blocks c Hc).
Qed.

Lemma unshield_calldata_truth c summary data c' :
  caches_ok c → unshield_calldata c summary = Ok (data, c') →
  caches_ok c' ∧
  match get_transaction_by_hash provider (ls_transaction_hash (su_source summary)) with
  | Ok (Some input) => data = input
  | _ => ∃ inputs, inputs_truth (ls_block_hash (su_source summary)) inputs ∧
      inputs !! ls_transaction_hash (su_source summary) = Some data
  end.
Proof.
  intros Hc. unfold unshield_calldata. rewrite bind_Ok. intros (o & -> & Hr). destruct o as [input|].
  - by injection Hr as <- <-.
  - apply bind_Ok in Hr as ([b c1] & (Ht & Hi & Hc1)%full_block_context_truth & Hr); [|done].
    apply bind_Ok in Hr as (d & Hd%ok_or_Ok & [= <- <-]). split; [done|]. by eexists.
Qed.

Lemma unshield_calldata_det c1 c2 summary d1 d2 c1' c2' :
  caches_ok c1 → caches_ok c2 → unshield_calldata c1 summary = Ok (d1, c1') →
  unshield_calldata c2 summary = Ok (d2, c2') → d1 = d2.
Proof.
  intros Hc1 Hc2 [_ H1']%unshield_calldata_truth [_ H2']%unshield_calldata_truth; [|done..].
  destruct (get_transaction_by_hash _ _) as [[input|]|]; [congruence|..];
    destruct H1' as (i1 & Hi1 & Hd1); destruct H2' as (i2 & Hi2 & Hd2);
    rewrite (inputs_truth_det _ _ _ Hi1 Hi2) in Hd1; congruence.
Qed.

Section consistent.
Context (Hcons : provider_consistent).

Lemma timestamp_truth_det s t1 t2 : timestamp_truth s t1 → timestamp_truth s t2 → t1 = t2.
Proof. unfold timestamp_truth. destruct (ls_block_timestamp s); [congruence|apply Hcons]. Qed.

Lemma legacy_rows_truth c summary rows c' :
  caches_ok c → legacy_rows c summary = Ok (rows, c') →
  caches_ok c' ∧ ∃ timestamp data,
    (match get_transaction_by_hash provider (ls_transaction_hash (su_source summary)) with
     | Ok (Some input) => data = input ∧ timestamp_truth (su_source summary) timestamp
     | _ => (∃ inputs, inputs_truth (ls_block_hash (su_source summary)) inputs ∧
               inputs !! ls_transaction_hash (su_source summary) = Some data) ∧
            block_truth (ls_block_hash (su_source summary)) timestamp
     end) ∧
    public_transactions_from_calldata_or_trace summary timestamp data = Ok rows ∧ rows ≠ [].
Proof.
  intros Hc. unfold legacy_rows. rewrite bind_Ok. intros (o & -> & Hr). destruct o as [input|].
  - apply bind_Ok in Hr as ([t bt] & [Ht Hc']%block_timestamp_truth & Hr); [|done].
    apply bind_Ok in Hr as (rs & Hrs & Hr). apply bind_Ok in Hr as (rs' & Hreq & [= <- <-]).
    split; [done|]. exists t, input. by destruct rs; [|injection Hreq as <-].
  - apply bind_Ok in Hr as ([b c1] & (Ht & Hi & Hc1)%full_block_context_truth & Hr); [|done].
    apply bind_Ok in Hr as (d & Hd%ok_or_Ok & Hr).
    apply bind_Ok in Hr as (rs & Hrs & Hr). apply bind_Ok in Hr as (rs' & Hreq & [= <- <-]).
    split; [done|]. exists (fb_timestamp b), d. destruct rs; [done|injection Hreq as <-].
    split_and!; [by eexists|done|done|done].
Qed.

Lemma legacy_rows_det c1 c2 summary r1 r2 c1' c2' :
  caches_ok c1 → caches_ok c2 → legacy_rows c1 summary = Ok (r1, c1') → legacy_rows c2 summary = Ok (r2, c2') → r1 = r2.
Proof.
  intros Hc1 Hc2 (_ & t1 & d1 & Hd1 & Hr1 & _)%legacy_rows_truth (_ & t2 & d2 & Hd2 & Hr2 & _)%legacy_rows_truth; [|done..].
  destruct (get_transaction_by_hash _ _) as [[input|]|].
  - destruct Hd1 as [-> Ht1], Hd2 as [-> Ht2]. rewrite (timestamp_truth_det _ _ _ Ht1 Ht2) in Hr1. congruence.
  - destruct Hd1 as [(i1 & Hi1 & Hl1) Ht1], Hd2 as [(i2 & Hi2 & Hl2) Ht2].
    rewrite (inputs_truth_det _ _ _ Hi1 Hi2) in Hl1. rewrite (Hcons _ _ _ Ht1 Ht2) in Hr1. congruence.
  - destruct Hd1 as [(i1 & Hi1 & Hl1) Ht1], Hd2 as [(i2 & Hi2 & Hl2) Ht2].
    rewrite (inputs_truth_det _ _ _ Hi1 Hi2) in Hl1. rewrite (Hcons _ _ _ Ht1 Ht2) in Hr1. congruence.
Qed.
(** The frames and counters after unshield resolution. *)
Definition resolved_frames (caches : Caches) (summary : TransactOutputSummary) (frames : list ActionCallTransactions)
    : cresult (list ActionCallTransactions * (nat * nat) * Caches) :=
  if decide (length (unshield_rows frames) = 0%nat) then Ok (frames, (0%nat, 0%nat), caches)
  else
    '(calldata, caches) ← unshield_calldata caches summary;
    '(frames, counts) ← resolve_unshield_commitments (ls_transaction_hash (su_source summary))
       (ls_block_number (su_source summary)) calldata frames;
    Ok (frames, counts, caches).

Lemma resolved_frames_ok c summary frames out c' :
  caches_ok c → resolved_frames c summary frames = Ok (out, c') → caches_ok c'.
Proof.
  intros Hc. unfold resolved_frames. case_decide; [by intros [= _ <-]|].
  rewrite bind_Ok. intros ([d c1] & [Hc1 _]%unshield_calldata_truth & Hr); [|done].
  by apply bind_Ok in Hr as ([fr cn] & _ & [= _ <-]).
Qed.
Lemma resolved_frames_det c1 c2 summary frames o1 o2 c1' c2' :
  caches_ok c1 → caches_ok c2 → resolved_frames c1 summary frames = Ok (o1, c1') →
  resolved_frames c2 summary frames = Ok (o2, c2') → o1 = o2.
Proof.
  intros Hc1 Hc2. unfold resolved_frames. case_decide; [congruence|].
  rewrite !bind_Ok. intros ([d1 k1] & Hd1 & Hr1) ([d2 k2] & Hd2 & Hr2).
  rewrite (unshield_calldata_det _ _ _ _ _ _ _ Hc1 Hc2 Hd1 Hd2) in Hr1.
  apply bind_Ok in Hr1 as ([f1 n1] & Hf1 & [= <- _]). apply bind_Ok in Hr2 as ([f2 n2] & Hf2 & [= <- _]). congruence.
Qed.

Lemma action_rows_split events c summary rows counts c' :
  caches_ok c → action_rows events c summary = Ok (rows, counts, c') →
  caches_ok c' ∧ ∃ frames frames' c1 t frows,
    decoded_transactions_from_action_logs (ls_transaction_hash (su_source summary)) (ls_block_number (su_source summary))
      (sort_by_key fst (map_to_list events)) = Ok frames ∧
    resolved_frames c summary frames = Ok (frames', counts, c1) ∧
    timestamp_truth (su_source summary) t ∧ try_map (frame_rows summary t) frames' = Ok frows ∧
    renumber (ls_transaction_hash (su_source summary)) 0 (sort_by_key (λ r, Z.of_nat r.2) (concat frows)).*1 = Ok rows.
Proof.
  intros Hc. unfold action_rows. rewrite bind_Ok. intros (frames & Hfr & Hr).
  apply bind_Ok in Hr as ([[frames' counts'] c1] & Hres & Hr).
  fold (resolved_frames c summary frames) in Hres.
  pose proof (resolved_frames_ok _ _ _ _ _ Hc Hres) as Hc1.
  apply bind_Ok in Hr as ([t bt] & [Ht Hc']%block_timestamp_truth & Hr); [|done].
  apply bind_Ok in Hr as (frows & Hfrows & Hr). apply bind_Ok in Hr as (rows' & Hren & [= <- <- <-]).
  split; [done|]. exists frames, frames', c1, t, frows. by split_and!.
Qed.

Lemma action_rows_det events c1 c2 summary o1 o2 c1' c2' :
  caches_ok c1 → caches_ok c2 → action_rows events c1 summary = Ok (o1, c1') →
  action_rows events c2 summary = Ok (o2, c2') → o1 = o2.
Proof.
  intros Hc1 Hc2. destruct o1 as [r1 n1], o2 as [r2 n2].
  intros (_ & f1 & g1 & k1 & t1 & w1 & Hf1 & Hg1 & Ht1 & Hw1 & Hr1)%action_rows_split
         (_ & f2 & g2 & k2 & t2 & w2 & Hf2 & Hg2 & Ht2 & Hw2 & Hr2)%action_rows_split; [|done..].
  assert (f1 = f2) as -> by congruence.
  pose proof (resolved_frames_det _ _ _ _ _ _ _ _ Hc1 Hc2 Hg1 Hg2) as [= -> ->].
  rewrite (timestamp_truth_det _ _ _ Ht1 Ht2) in Hw1. congruence.
Qed.

(** One iteration, as the rows and counts it adds. *)
Definition summary_out (action_start_block : option Z) (events : action_events) (c : Caches) (summary : TransactOutputSummary)
    : cresult (list IndexedPublicTransaction * (nat * nat) * Caches) :=
  hydrate_summary action_start_block events ([], (0%nat, 0%nat), c) summary.
Definition adds (action_start_block : option Z) (events : action_events) (summary : TransactOutputSummary)
    (out : list IndexedPublicTransaction * (nat * nat)) : Prop :=
  ∃ c c', caches_ok c ∧ summary_out action_start_block events c summary = Ok (out, c').

Lemma hydrate_summary_out start events rows d v c summary rows' d' v' c' :
  caches_ok c →
  hydrate_summary start events (rows, (d, v), c) summary = Ok (rows', (d', v'), c') →
  caches_ok c' ∧ ∃ new dn vn, adds start events summary (new, (dn, vn)) ∧
    rows' = rows ++ new ∧ d' = (d + dn)%nat ∧ v' = (v + vn)%nat.
Proof.
  intros Hc. unfold adds, summary_out, hydrate_summary.
  destruct start as [start|]; [destruct (decide (start ≤ ls_block_number (su_source summary))) as [Hs|Hs]|].
  - rewrite bind_Ok. intros ([[new [dn vn]] c1] & Hr & [= <- <- <- <-]).
    split; [by apply action_rows_split in Hr as [? _]|]. exists new, dn, vn. split; [|done].
    exists c, c1. split; [done|]. by rewrite Hr.
  - rewrite bind_Ok. intros ([new c1] & Hr & [= <- <- <- <-]).
    split; [by apply legacy_rows_truth in Hr as [? _]|]. exists new, 0%nat, 0%nat. split; [|split_and!; [done|lia|lia]].
    exists c, c1. split; [done|]. by rewrite Hr.
  - rewrite bind_Ok. intros ([new c1] & Hr & [= <- <- <- <-]).
    split; [by apply legacy_rows_truth in Hr as [? _]|]. exists new, 0%nat, 0%nat. split; [|split_and!; [done|lia|lia]].
    exists c, c1. split; [done|]. by rewrite Hr.
Qed.

Lemma adds_det start events summary o1 o2 : adds start events summary o1 → adds start events summary o2 → o1 = o2.
Proof.
  intros (c1 & c1' & Hc1 & H1') (c2 & c2' & Hc2 & H2'). unfold summary_out, hydrate_summary in *.
  destruct start as [start|]; [case_decide|];
    apply bind_Ok in H1' as (x1 & Hx1 & Ho1); apply bind_Ok in H2' as (x2 & Hx2 & Ho2).
  - destruct x1 as [[n1 [d1 v1]] k1], x2 as [[n2 [d2 v2]] k2]. injection Ho1 as <- _. injection Ho2 as <- _.
    by pose proof (action_rows_det _ _ _ _ _ _ _ _ Hc1 Hc2 Hx1 Hx2) as [= -> -> ->].
  - destruct x1 as [n1 k1], x2 as [n2 k2]. injection Ho1 as <- _. injection Ho2 as <- _.
    by rewrite (legacy_rows_det _ _ _ _ _ _ _ Hc1 Hc2 Hx1 Hx2).
  - destruct x1 as [n1 k1], x2 as [n2 k2]. injection Ho1 as <- _. injection Ho2 as <- _.
    by rewrite (legacy_rows_det _ _ _ _ _ _ _ Hc1 Hc2 Hx1 Hx2).
Qed.

Lemma hydrate_fold_out start events l : ∀ rows d v c rows' d' v' c',
  caches_ok c →
  try_fold (hydrate_summary start events) (rows, (d, v), c) l = Ok (rows', (d', v'), c') →
  ∃ outs, Forall2 (adds start events) l outs ∧ rows' = rows ++ concat outs.*1 ∧
    d' = (d + sum_list outs.*2.*1)%nat ∧ v' = (v + sum_list outs.*2.*2)%nat.
Proof.
  induction l as [|s l IH]; intros rows d v c rows' d' v' c' Hc; cbn [try_fold].
  - intros [= <- <- <- <-]. exists []. split_and!; [constructor|by rewrite app_nil_r|cbn; lia|cbn; lia].
  - rewrite bind_Ok. intros ([[rows1 [d1 v1]] c1] & Hstep & Hr).
    apply hydrate_summary_out in Hstep as (Hc1 & new & dn & vn & Hadds & -> & -> & ->); [|done].
    destruct (IH _ _ _ _ _ _ _ _ Hc1 Hr) as (outs & Houts & -> & -> & ->).
    exists ((new, (dn, vn)) :: outs). split_and!; [by constructor|by rewrite <- app_assoc|cbn; lia|cbn; lia].
Qed.
End consistent.

(** ** Rows of a transaction are numbered *)
Definition numbered (source : IndexedLogSource) (rows : list IndexedPublicTransaction) : Prop :=
  ∀ i r, rows !! i = Some r → ip_source r = source ∧ ip_railgun_transaction_index r = Z.of_nat i.

Lemma from_decoded_numbered summary t transactions rows :
  public_transactions_from_decoded summary t transactions = Ok rows → numbered (su_source summary) rows.
Proof.
  unfold public_transactions_from_decoded. rewrite bind_Ok. intros ([st rs] & Hm & Hr).
  apply match_rows_faithful in Hm as [Hlen Hrows]. destruct (_ && _); [done|]. injection Hr as <-. intros i r Hi.
  destruct (lookup_lt_is_Some_2 transactions i) as [tr Htr]; [rewrite <- Hlen; by eapply lookup_lt_Some|].
  by destruct (Hrows i tr r Htr Hi) as (? & _ & ? & _).
Qed.

Lemma calldata_or_trace_numbered summary t data rows :
  public_transactions_from_calldata_or_trace summary t data = Ok rows → numbered (su_source summary) rows.
Proof.
  assert (∀ rows, public_transactions_from_trace summary t = Ok rows → numbered (su_source summary) rows) as Htrace.
  { intros rs. unfold public_transactions_from_trace. rewrite bind_Ok. intros (d & _ & Hr).
    apply bind_Ok in Hr as (d' & _ & Hr). by eapply from_decoded_numbered. }
  unfold public_transactions_from_calldata_or_trace.
  destruct (public_transactions_from_calldata summary t data) as [[|r rs]|e] eqn:Hc; [apply Htrace| |].
  - intros [= <-]. unfold public_transactions_from_calldata in Hc. apply bind_Ok in Hc as (o & _ & Hc).
    destruct o; [by eapply from_decoded_numbered|done].
  - destruct e; try done; apply Htrace.
Qed.

Lemma renumber_Ok h k rows rows' :
  renumber h k rows = Ok rows' →
  ip_source <$> rows' = ip_source <$> rows ∧
  ∀ i r, rows' !! i = Some r → ip_railgun_transaction_index r = Z.of_nat (k + i).
Proof.
  revert k rows'. induction rows as [|r rows IH]; intros k rows'; cbn [renumber].
  - intros [= <-]. split; [done|]. intros i r Hi. by rewrite lookup_nil in Hi.
  - rewrite bind_Ok. intros (i & Hi%ok_or_Ok & Hr). apply bind_Ok in Hr as (rs & Hrs & [= <-]).
    destruct (IH _ _ Hrs) as [Hsrc Hidx]. split; [by cbn; rewrite Hsrc|]. unfold try_from_len, try_from in Hi.
    case_decide; [|done]. injection Hi as <-. intros [|j] r' Hj; cbn in Hj.
    + injection Hj as <-. cbn. f_equal. lia.
    + rewrite (Hidx j r' Hj). f_equal. lia.
Qed.

Lemma frame_rows_source summary t frame rows r :
  frame_rows summary t frame = Ok rows → r ∈ rows → ip_source r.1 = su_source summary.
Proof.
  unfold frame_rows. rewrite bind_Ok. intros (rs & Hrs%from_decoded_numbered & [= <-]) Hr. destruct r as [r n].
  apply list_elem_of_lookup in Hr as [i Hi]. apply lookup_zip_with_Some in Hi as (x & y & [= -> ->] & Hx & _).
  exact (proj1 (Hrs i _ Hx)).
Qed.

Lemma action_rows_numbered events c summary rows counts c' :
  caches_ok c → action_rows events c summary = Ok (rows, counts, c') → numbered (su_source summary) rows.
Proof.
  intros Hc (_ & frames & frames' & c1 & t & frows & _ & _ & _ & Hfr & Hren)%action_rows_split; [|done].
  apply renumber_Ok in Hren as [Hsrc Hidx]. intros i r Hi. split; [|by rewrite (Hidx i r Hi)].
  assert (ip_source r ∈ ip_source <$> rows) as Hin by (apply list_elem_of_fmap_2; by eapply list_elem_of_lookup_2).
  rewrite Hsrc in Hin. apply list_elem_of_fmap in Hin as (r' & -> & Hr').
  apply list_elem_of_fmap in Hr' as (rn & -> & Hrn). rewrite sort_by_key_perm in Hrn.
  apply list_elem_of_In, in_concat in Hrn as (l & Hl%list_elem_of_In & Hrn%list_elem_of_In).
  apply try_map_Ok in Hfr. apply list_elem_of_lookup in Hl as [j Hj].
  destruct (Forall2_lookup_r _ _ _ _ _ Hfr Hj) as (fr & _ & Hfr'). by eapply frame_rows_source.
Qed.

Lemma adds_numbered start events summary out :
  adds start events summary out → numbered (su_source summary) out.1.
Proof.
  intros (c & c' & Hc & Hr). unfold summary_out, hydrate_summary in Hr.
  destruct start as [start|]; [case_decide|]; apply bind_Ok in Hr as (x & Hx & Ho).
  - destruct x as [[n [d v]] k]. injection Ho as <- _. by eapply action_rows_numbered.
  - destruct x as [n k]. injection Ho as <- _.
    apply legacy_rows_truth in Hx as (_ & t & data & _ & Hd & _); [by eapply calldata_or_trace_numbered|done].
  - destruct x as [n k]. injection Ho as <- _.
    apply legacy_rows_truth in Hx as (_ & t & data & _ & Hd & _); [by eapply calldata_or_trace_numbered|done].
Qed.

Lemma adds_nonempty start events summary out :
  adds start events summary out →
  match start with Some b => ls_block_number (su_source summary) < b | None => True end → ∃ r, r ∈ out.1.
Proof.
  intros (c & c' & Hc & Hr) Hpre. unfold summary_out, hydrate_summary in Hr.
  destruct start as [start|]; [case_decide; [lia|]|]; apply bind_Ok in Hr as ([n k] & Hx & Ho); injection Ho as <- _;
    apply legacy_rows_truth in Hx as (_ & t & data & _ & _ & Hne); [|done| |done];
    (destruct n as [|r n]; [done|]; exists r; by left).
Qed.

(** The identity of a row. *)
Definition row_id (r : IndexedPublicTransaction) : Z * Z :=
  (ls_transaction_hash (ip_source r), ip_railgun_transaction_index r).

Lemma numbered_NoDup source rows : numbered source rows → NoDup (row_id <$> rows).
Proof.
  intros Hn. apply NoDup_alt. intros i j x Hi Hj. rewrite list_lookup_fmap in Hi, Hj.
  destruct (rows !! i) as [ri|] eqn:Hri; [|done]. destruct (rows !! j) as [rj|] eqn:Hrj; [|done].
  destruct (Hn i ri Hri) as [_ Hii], (Hn j rj Hrj) as [_ Hjj]. cbn in Hi, Hj.
  assert (row_id ri = row_id rj) as Hid by congruence. unfold row_id in Hid. injection Hid as _ Hid. lia.
Qed.

Lemma outs_NoDup start events l outs :
  NoDup ((λ s, ls_transaction_hash (su_source s)) <$> l) → Forall2 (adds start events) l outs →
  NoDup (row_id <$> concat outs.*1).
Proof.
  intros Hnd Houts. induction Houts as [|s out l outs Hs Houts IH]; cbn [fmap list_fmap concat]; [constructor|].
  rewrite fmap_cons in Hnd. apply NoDup_cons in Hnd as [Hnin Hnd]. rewrite fmap_app.
  apply NoDup_app. split_and!; [eapply numbered_NoDup, adds_numbered; done| |by apply IH].
  intros x Hx Hx'. apply list_elem_of_fmap in Hx as (r & -> & Hr). apply list_elem_of_fmap in Hx' as (r' & Heq & Hr').
  apply Hnin. apply list_elem_of_In, in_concat in Hr' as (rs & Hrs%list_elem_of_In & Hr'%list_elem_of_In).
  apply list_elem_of_fmap in Hrs as (out' & -> & Hout'). apply list_elem_of_lookup in Hout' as [j Hj].
  destruct (Forall2_lookup_r _ _ _ _ _ Houts Hj) as (s' & Hs' & Hadds').
  apply list_elem_of_lookup in Hr as [i Hi]. apply list_elem_of_lookup in Hr' as [i' Hi'].
  destruct (adds_numbered _ _ _ _ Hs i r Hi) as [Hsrc _]. destruct (adds_numbered _ _ _ _ Hadds' i' r' Hi') as [Hsrc' _].
  injection Heq as Heq _. rewrite Hsrc, Hsrc' in Heq. rewrite Heq.
  apply (list_elem_of_fmap_2 (λ s, ls_transaction_hash (su_source s))). by eapply list_elem_of_lookup_2.
Qed.

(** ** Summaries are keyed by their transaction *)
Definition su_hash (s : TransactOutputSummary) : Z := ls_transaction_hash (su_source s).
Definition keyed (m : gmap Z TransactOutputSummary) : Prop := ∀ h s, m !! h = Some s → su_hash s = h.

Lemma record_keyed family m item : keyed m → keyed (record_public_transaction_summary family m item).
Proof.
  intros Hm h s. destruct item as [source [[tn tp] hash]]. cbn.
  destruct (decide (h = ls_transaction_hash source)) as [->|Hne].
  - rewrite lookup_insert_eq. destruct (m !! ls_transaction_hash source) as [s'|] eqn:Hs; intros [= <-]; [|done].
    exact (Hm _ _ Hs).
  - rewrite lookup_insert_ne by done. apply Hm.
Qed.
Lemma records_keyed family items : ∀ m, keyed m → keyed (foldl (record_public_transaction_summary family) m items).
Proof. induction items as [|item items IH]; intros m Hm; cbn [foldl]; [done|]. by apply IH, record_keyed. Qed.

Lemma output_summaries_keyed batch : keyed (output_summaries batch).
Proof. do 3 apply records_keyed. intros h s Hs. by rewrite lookup_empty in Hs. Qed.

Lemma push_groups_keyed groups : ∀ m : gmap Z (list NullifierGroup),
  (∀ h gs, m !! h = Some gs → Forall (λ g, ls_transaction_hash (ng_source g) = h) gs) →
  ∀ h gs, foldl push_group m groups !! h = Some gs → Forall (λ g, ls_transaction_hash (ng_source g) = h) gs.
Proof.
  induction groups as [|g groups IH]; intros m Hm; cbn [foldl]; [done|]. apply IH. intros h gs. unfold push_group.
  destruct (decide (h = ls_transaction_hash (ng_source g))) as [->|Hne].
  - rewrite lookup_insert_eq. intros [= <-]. apply Forall_app. split; [|by constructor].
    destruct (m !! _) as [gs'|] eqn:Hgs; [exact (Hm _ _ Hgs)|constructor].
  - rewrite lookup_insert_ne by done. apply Hm.
Qed.

Lemma transaction_summaries_keyed batch : keyed (transaction_summaries batch).
Proof.
  intros h s. unfold transaction_summaries. rewrite lookup_merge.
  destruct (nullifier_groups_by_transaction (nullifiers batch) !! h) as [gs|] eqn:Hgs.
  - assert (Forall (λ g, ls_transaction_hash (ng_source g) = h) gs) as Hall.
    { unfold nullifier_groups_by_transaction in Hgs. rewrite lookup_fmap in Hgs.
      destruct (foldl push_group ∅ _ !! h) as [gs'|] eqn:Hf; [|done]. injection Hgs as <-.
      rewrite sort_by_key_perm. eapply push_groups_keyed; [|exact Hf]. intros h' gs Hn. by rewrite lookup_empty in Hn. }
    destruct (output_summaries batch !! h) as [s'|] eqn:Hs; cbn.
    + intros [= <-]. exact (output_summaries_keyed batch h s' Hs).
    + destruct gs as [|g gs]; [done|]. intros [= <-]. by apply Forall_cons in Hall as [Hg _].
  - destruct (output_summaries batch !! h) as [s'|] eqn:Hs; cbn; [|done]. intros [= <-].
    exact (output_summaries_keyed batch h s' Hs).
Qed.

(** An iteration order of the summaries. *)
Definition visits (visit : gmap Z TransactOutputSummary → list TransactOutputSummary) : Prop :=
  ∀ m, visit m ≡ₚ (map_to_list m).*2.

Lemma visit_NoDup visit batch : visits visit → NoDup (su_hash <$> visit (transaction_summaries batch)).
Proof.
  unfold visits. intros Hv. rewrite Hv. rewrite <- list_fmap_compose.
  rewrite (Forall_fmap_ext_1 _ fst (map_to_list (transaction_summaries batch))); [apply NoDup_fst_map_to_list|].
  apply Forall_forall. intros [h s] Hs%elem_of_map_to_list. by apply transaction_summaries_keyed in Hs.
Qed.

Lemma row_key_NoDup (rows : list IndexedPublicTransaction) : NoDup (row_id <$> rows) → NoDup (row_key <$> rows).
Proof.
  intros Hnd. apply (NoDup_fmap_1 (λ k : Z * Z * Z * Z, (k.1.2, k.2))). by rewrite <- list_fmap_compose.
Qed.

Definition action_events_of (action_start_block : option Z) (batch : IndexedLogBatch) : action_events :=
  match action_start_block with Some start => action_log_events_by_transaction batch start | None => ∅ end.

(** The successful runs, as the outputs of the visited summaries. *)
Lemma hydrate_public_transactions_Ok visit start batch batch' :
  visits visit → public_transactions batch = [] →
  hydrate_public_transactions visit start batch = Ok batch' →
  ∃ outs, Forall2 (adds start (action_events_of start batch)) (visit (transaction_summaries batch)) outs ∧
    NoDup (row_id <$> concat outs.*1) ∧
    batch' = mkBatch (transact_commitments batch) (shield_commitments batch) (nullifiers batch)
      (legacy_encrypted_commitments batch) (legacy_generated_commitments batch) (actions batch) (unshields batch)
      (sort_cmp_key row_key (concat outs.*1))
      (unshield_log_derivations batch + sum_list outs.*2.*1) (unshield_log_divergences batch + sum_list outs.*2.*2).
Proof.
  intros Hv Hempty. unfold hydrate_public_transactions. fold (action_events_of start batch). rewrite Hempty, bind_Ok.
  intros ([[rows [d v]] c] & Hfold & [= <-]).
  destruct (hydrate_fold_out _ _ _ _ _ _ _ _ _ _ _ caches_ok_empty Hfold) as (outs & Houts & -> & -> & ->).
  exists outs. split; [done|]. split; [|done]. eapply outs_NoDup; [|exact Houts]. by apply visit_NoDup.
Qed.
End hydrate.

(** Timestamp hydration: when it succeeds, the batch is the old one with
    only the sources of its rows changed; a source keeps the timestamp it has,
    and one without gets the timestamp of the block its hash names, whose hash
    the provider confirmed. No source is left without a timestamp. *)
Theorem timestamps_hydrated `{ContractCrate} provider batch batch' :
  hydrate_indexed_log_source_timestamps provider batch = Ok batch' →
  ∃ f, batch' = map_sources f batch ∧ ∀ s, s ∈ concat (batch_sources batch) → timestamped provider s (f s).
Proof.
  unfold hydrate_indexed_log_source_timestamps. intros Hr. apply bind_Ok in Hr as (ts & Hts & [= <-]).
  eexists. split; [done|]. intros s Hs.
  destruct (collect_missing_all (batch_sources batch) (∅, []) eq_refl) as (Hset & _ & Hall).
  apply fetch_timestamps_Ok in Hts as [Hval Hdom]; [|intros h t Hh; by rewrite lookup_empty in Hh].
  apply set_source_timestamp_ok; [done|]. intros Hn. apply Hdom. right.
  pose proof (Hall s Hs Hn) as Hin. rewrite Hset in Hin. by apply elem_of_list_to_set in Hin.
Qed.

(** Hydration does not depend on the iteration order of the hash map of
    summaries: with a provider that reports one timestamp per block, two runs
    over the same batch that both succeed give the same batch, rows, order and
    counters included. *)
Theorem hydration_order_independent `{ContractCrate} `{CalldataCrate} `{HexStrings} `{TreeCrate}
    lph provider contract visit1 visit2 start batch b1 b2 :
  provider_consistent provider → visits visit1 → visits visit2 → public_transactions batch = [] →
  hydrate_public_transactions lph provider contract visit1 start batch = Ok b1 →
  hydrate_public_transactions lph provider contract visit2 start batch = Ok b2 → b1 = b2.
Proof.
  intros Hcons Hv1 Hv2 Hempty Hr1 Hr2.
  apply hydrate_public_transactions_Ok in Hr1 as (o1 & Ho1 & Hnd1 & ->); [|done..].
  apply hydrate_public_transactions_Ok in Hr2 as (o2 & Ho2 & Hnd2 & ->); [|done..].
  assert (visit1 (transaction_summaries lph batch) ≡ₚ visit2 (transaction_summaries lph batch)) as Hp by (unfold visits in *; by rewrite Hv1, Hv2).
  destruct (Forall2_perm_l _ _ _ _ Hp Ho1) as (o & Ho & Hoo).
  assert (o = o2) as -> by (eapply Forall2_det; [|exact Ho|exact Ho2]; intros; by eapply adds_det).
  f_equal; [|by rewrite Hoo|by rewrite Hoo]. apply sort_cmp_key_unique; [by apply row_key_NoDup|]. by rewrite Hoo.
Qed.

(** C38. The rows hydration adds are the complete numbered rows of the
    transactions of the batch, those its logs give a summary: they are sorted by block, first log, hash and
    index, no (transaction, index) occurs twice, each row belongs to a
    transaction with outputs or nullifiers and carries its source, the rows of
    a transaction are numbered from 0 without gaps, and every transaction
    before the activation block has at least one. *)
Theorem hydrated_rows_complete `{ContractCrate} `{CalldataCrate} `{HexStrings} `{TreeCrate}
    lph provider contract visit start batch batch' :
  visits visit → public_transactions batch = [] →
  hydrate_public_transactions lph provider contract visit start batch = Ok batch' →
  StronglySorted (λ a b, cmp_leb (row_key a) (row_key b) = true) (public_transactions batch') ∧
  NoDup (row_id <$> public_transactions batch') ∧
  (∀ r, r ∈ public_transactions batch' → ∃ s n,
     transaction_summaries lph batch !! ls_transaction_hash (ip_source r) = Some s ∧ ip_source r = su_source s ∧
     ip_railgun_transaction_index r = Z.of_nat n ∧
     ∀ j, (j < n)%nat → ∃ r', r' ∈ public_transactions batch' ∧ ip_source r' = su_source s ∧
       ip_railgun_transaction_index r' = Z.of_nat j) ∧
  (∀ h s, transaction_summaries lph batch !! h = Some s →
     match start with Some b => ls_block_number (su_source s) < b | None => True end →
     ∃ r, r ∈ public_transactions batch' ∧ ip_source r = su_source s).
Proof.
  intros Hv Hempty Hr. apply hydrate_public_transactions_Ok in Hr as (outs & Houts & Hnd & ->); [|done..].
  cbn [public_transactions]. split; [apply sort_cmp_key_sorted|].
  unfold sort_cmp_key. split; [by rewrite sort_by_perm|]. setoid_rewrite (sort_by_perm _ (concat outs.*1)).
  assert (∀ i out r, outs !! i = Some out → r ∈ out.1 → r ∈ concat outs.*1) as Hin.
  { intros i out r Ho Hr. apply list_elem_of_In, in_concat. exists out.1. split; [|by apply list_elem_of_In].
    apply list_elem_of_In, list_elem_of_fmap_2. by eapply list_elem_of_lookup_2. }
  assert (∀ s, s ∈ visit (transaction_summaries lph batch) ↔ ∃ h, transaction_summaries lph batch !! h = Some s) as Hvis.
  { intros s. unfold visits in Hv. rewrite Hv, list_elem_of_fmap. setoid_rewrite <- elem_of_map_to_list. split.
    - intros ([h s'] & -> & Hs). by exists h.
    - intros [h Hs]. by exists (h, s). }
  split.
  - intros r Hr. apply list_elem_of_In, in_concat in Hr as (rs & Hrs%list_elem_of_In & Hr%list_elem_of_In).
    apply list_elem_of_fmap in Hrs as (out & -> & Hout). apply list_elem_of_lookup in Hout as [i Hi].
    destruct (Forall2_lookup_r _ _ _ _ _ Houts Hi) as (s & Hs & Hadds%adds_numbered).
    apply list_elem_of_lookup in Hr as [n Hn]. destruct (Hadds n r Hn) as [Hsrc Hidx]. exists s, n.
    destruct (proj1 (Hvis s)) as [h Hh]; [by eapply list_elem_of_lookup_2|].
    split_and!; [|done|done|].
    + rewrite Hsrc. by rewrite <- (transaction_summaries_keyed lph batch h s Hh) in Hh.
    + intros j Hj. destruct (lookup_lt_is_Some_2 out.1 j) as [r' Hr']; [apply lookup_lt_Some in Hn; lia|].
      exists r'. destruct (Hadds j r' Hr') as [? ?]. split; [|done]. eapply Hin; [done|]. by eapply list_elem_of_lookup_2.
  - intros h s Hh Hpre. assert (s ∈ visit (transaction_summaries lph batch)) as Hs by (apply Hvis; by exists h).
    apply list_elem_of_lookup in Hs as [i Hi]. destruct (Forall2_lookup_l _ _ _ _ _ Houts Hi) as (out & Hout & Hadds).
    pose proof (adds_numbered _ _ _ _ _ _ Hadds) as Hnum. destruct (adds_nonempty _ _ _ _ _ _ Hadds Hpre) as [r Hr].
    apply list_elem_of_lookup in Hr as [n Hn]. exists r. split; [|by destruct (Hnum n r Hn)].
    eapply Hin; [done|]. by eapply list_elem_of_lookup_2.
Qed.

(** ** Two transactions before the activation *)
Definition toy_source (hash log_index : Z) : IndexedLogSource := mkLogSource 7 None 70 hash log_index.
Definition toy_log_batch : IndexedLogBatch (H := toy_contract) :=
  mkBatch (H := toy_contract)
    [mkTransactCommitment (H := toy_contract) 0 0 61 None (toy_source 1 4); mkTransactCommitment (H := toy_contract) 0 1 61 None (toy_source 2 9)]
    [] [mkNullifier 0 21 (toy_source 1 3); mkNullifier 0 21 (toy_source 2 8)] [] [] [] [] [] 0 0.
Definition toy_provider : EthProvider :=
  mkProvider (λ _, Ok (Some [Byte.x01])) (λ h, Ok (Some (h, 7, 100))) (λ _, Ok None)
    (λ _, Err (Provider "no traces")) (λ _, Err (Provider "no traces")).
Definition toy_visit (m : gmap Z TransactOutputSummary) : list TransactOutputSummary := (map_to_list m).*2.
Definition toy_hydrate (visit : gmap Z TransactOutputSummary → list TransactOutputSummary) :=
  hydrate_public_transactions (H := toy_contract) (H0 := toy_calldata) (H1 := toy_hex) (H2 := toy_tree)
    (λ p, p) toy_provider 192 visit None toy_log_batch.

Lemma toy_provider_consistent : provider_consistent toy_provider.
Proof. intros h t1 t2 [(? & ? & [= _ _ <-])|(? & [=] & _)] [(? & ? & [= _ _ <-])|(? & [=] & _)]. done. Qed.

Lemma hydration_order_independent_witness :
  ∃ b, toy_hydrate toy_visit = Ok b ∧ toy_hydrate (reverse ∘ toy_visit) = Ok b.
Proof.
  destruct (is_ok_Ok (toy_hydrate toy_visit)) as [b1 E1]; [vm_compute; reflexivity|].
  destruct (is_ok_Ok (toy_hydrate (reverse ∘ toy_visit))) as [b2 E2]; [vm_compute; reflexivity|].
  exists b1. split; [exact E1|]. rewrite E2. f_equal. symmetry.
  eapply (hydration_order_independent (H := toy_contract) (H0 := toy_calldata) (H1 := toy_hex) (H2 := toy_tree)
    (λ p, p) toy_provider 192 toy_visit (reverse ∘ toy_visit) None toy_log_batch).
  - exact toy_provider_consistent.
  - intros m. reflexivity.
  - intros m. cbn. by rewrite reverse_Permutation.
  - reflexivity.
  - exact E1.
  - exact E2.
Defined.

Lemma timestamps_hydrated_witness :
  ∃ b, hydrate_indexed_log_source_timestamps (H := toy_contract) toy_provider toy_log_batch = Ok b ∧
    ∃ f, b = map_sources (H := toy_contract) f toy_log_batch ∧
      ∀ s, s ∈ concat (batch_sources (H := toy_contract) toy_log_batch) → timestamped toy_provider s (f s).
Proof.
  destruct (is_ok_Ok (hydrate_indexed_log_source_timestamps (H := toy_contract) toy_provider toy_log_batch)) as [b E];
    [vm_compute; reflexivity|].
  exists b. split; [exact E|]. exact (timestamps_hydrated (H := toy_contract) toy_provider toy_log_batch b E).
Defined.

Lemma hydrated_rows_complete_witness :
  ∃ b, toy_hydrate toy_visit = Ok b ∧ NoDup (row_id <$> public_transactions (H := toy_contract) b).
Proof.
  destruct (is_ok_Ok (toy_hydrate toy_visit)) as [b E]; [vm_compute; reflexivity|].
  exists b. split; [exact E|].
  refine (proj1 (proj2 (hydrated_rows_complete (H := toy_contract) (H0 := toy_calldata) (H1 := toy_hex) (H2 := toy_tree)
    (λ p, p) toy_provider 192 toy_visit None toy_log_batch b _ _ E))).
  - intros m. reflexivity.
  - reflexivity.
Defined.
Example toy_rows :
  match toy_hydrate toy_visit with Ok b => row_id <$> public_transactions (H := toy_contract) b | Err _ => [] end =
  [(1, 0); (2, 0)].
Proof. vm_compute. reflexivity. Qed.
