(* ===== verification/ChainStore.v ===== *)
(** * The chain tables of the store ([store.rs])

    The rows a hydrated batch is persisted as, the block headers and the
    per-dataset progress, and the rewind that undoes them after a
    reorganisation. Tables are finite maps from their primary keys; the keys of
    the indexed tables start with the scope (chain type, chain, contract). A
    row is its block number and its other columns. *)

From S2P Require Import Prelude Order Wire Ipfs Artifacts MerkleCheckpointChunk ChainLogs PoiStore.

Inductive IndexedDatasetKind := DWalletScan | DCommitments | DMerkleCheckpoint | DPublicTxid.
#[export] Instance IndexedDatasetKind_dec : EqDecision IndexedDatasetKind.
Proof. solve_decision. Defined.
Definition dataset_kind_as_str (k : IndexedDatasetKind) : string :=
  match k with
  | DWalletScan => "wallet_scan" | DCommitments => "commitments"
  | DMerkleCheckpoint => "merkle_checkpoint" | DPublicTxid => "public_txid"
  end.
Definition DATASET_KIND_ALL : list IndexedDatasetKind := [DWalletScan; DCommitments; DMerkleCheckpoint; DPublicTxid].

(** (chain_type, chain_id, railgun_contract) *)
Abbreviation Scope := (Z * Z * Z)%type.

(** The columns every log row carries besides its block number. Rows stored
    before timestamps were have none. *)
Record SourceCols := mkSourceCols {
  co_block_timestamp : option Z;
  co_block_hash : Z;
  co_transaction_hash : Z;
  co_log_index : Z;
}.
Record PublicTransactionRow := mkPublicRow {
  pr_block_timestamp : option Z;
  pr_block_hash : Z;
  pr_first_log_index : Z;
  pr_last_log_index : Z;
}.
Record PublicTxidRow := mkTxidRow {
  tr_block_timestamp : Z;
  tr_block_hash : Z;
  tr_first_log_index : Z;
  tr_last_log_index : Z;
  tr_row_id : Z * Z;
  tr_nullifiers : bytes;
  tr_commitments : bytes;
  tr_bound_params_hash : Z;
  tr_has_unshield : bool;
  tr_unshield_preimage : option bytes;
  tr_utxo_tree_in : Z;
  tr_utxo_tree_out : Z;
  tr_utxo_batch_start_position_out : Z;
}.

(** Keys: (tree, position), (tree, nullifier), transaction hash, or
    (transaction hash, Railgun index). *)
Record ChainDb := mkChainDb {
  indexed_transact_commitments : gmap (Scope * (Z * Z)) (Z * (SourceCols * Z * option bytes));
  indexed_shield_commitments : gmap (Scope * (Z * Z)) (Z * (SourceCols * Z * bytes * bytes));
  indexed_nullifiers : gmap (Scope * (Z * Z)) (Z * SourceCols);
  indexed_legacy_encrypted_commitments : gmap (Scope * (Z * Z)) (Z * (SourceCols * Z * bytes));
  indexed_legacy_generated_commitments : gmap (Scope * (Z * Z)) (Z * (SourceCols * Z * bytes * bytes));
  indexed_public_transactions : gmap (Scope * Z) (Z * PublicTransactionRow);
  indexed_public_txid_rows : gmap (Scope * (Z * Z)) (Z * PublicTxidRow);
  (** nothing writes checkpoints; a rewind deletes them *)
  indexed_block_checkpoints : gmap (Scope * Z) (Z * unit);
  (** (chain_type, chain_id, block_number) to (block_hash, parent_hash) *)
  indexed_block_headers : gmap (Z * Z * Z) (Z * Z);
  (** (scope, dataset kind) to (indexed_through_block, its hash) *)
  chain_indexing_progress_table : gmap (Scope * string) (Z * Z);
}.

Record StoredChainIndexingProgress := mkProgress {
  indexed_through_block : Z;
  indexed_through_block_hash : Z;
}.
Record StoredIndexedBlockHeader := mkHeaderRow {
  hd_block_number : Z;
  hd_block_hash : Z;
  hd_parent_hash : Z;
}.

(** The encodings of the contract crate that the columns hold. *)
Class PersistCrate `{ContractCrate} := {
  ciphertext_abi_encode : CommitmentCiphertext → bytes;
  preimage_hash : CommitmentPreimage → Z;
  preimage_abi_encode : CommitmentPreimage → bytes;
  shield_ciphertext_abi_encode : ShieldCiphertext → bytes;
  legacy_ciphertext_abi_encode : LegacyCommitmentCiphertext → bytes;
  legacy_preimage_hash : LegacyCommitmentPreimage → Z;
  legacy_preimage_abi_encode : LegacyCommitmentPreimage → bytes;
}.

(** Generic table operations. *)
Section tables.
Context {K R : Type} `{Countable K}.

Definition delete_from (scope : Scope) (replay_from_block : Z) (m : gmap (Scope * K) (Z * R)) : gmap (Scope * K) (Z * R) :=
  filter (λ kv : (Scope * K) * (Z * R), ¬ (kv.1.1 = scope ∧ replay_from_block ≤ kv.2.1)) m.
(** [rows_affected] of that statement. *)
Definition deleted_count (scope : Scope) (replay_from_block : Z) (m : gmap (Scope * K) (Z * R)) : nat :=
  size m - size (delete_from scope replay_from_block m).
End tables.

Section chain_store.
Context `{PoiTypes}.

(** ** Progress and headers *)
Definition scope_of (chain_type chain_id contract : Z) : sresult Scope :=
  chain_id ← u64_to_i64 chain_id "chain_id";
  Ok (chain_type, chain_id, contract).

Definition chain_indexing_progress (db : ChainDb) (chain_type chain_id contract : Z) (kind : IndexedDatasetKind)
    : sresult (option StoredChainIndexingProgress) :=
  scope ← scope_of chain_type chain_id contract;
  match chain_indexing_progress_table db !! (scope, dataset_kind_as_str kind) with
  | Some (block, hash) =>
      block ← i64_to_u64 block "indexed_through_block";
      Ok (Some (mkProgress block hash))
  | None => Ok None
  end.
Definition chain_indexing_resume_block (db : ChainDb) (chain_type chain_id contract : Z) (kind : IndexedDatasetKind)
    (configured_start_block : Z) : sresult Z :=
  progress ← chain_indexing_progress db chain_type chain_id contract kind;
  Ok (match progress with
      | None => configured_start_block
      | Some p => saturating_add u64_max (indexed_through_block p) 1
      end).

Definition with_progress (db : ChainDb) (m : gmap (Scope * string) (Z * Z)) : ChainDb :=
  mkChainDb (indexed_transact_commitments db) (indexed_shield_commitments db) (indexed_nullifiers db)
    (indexed_legacy_encrypted_commitments db) (indexed_legacy_generated_commitments db)
    (indexed_public_transactions db) (indexed_public_txid_rows db) (indexed_block_checkpoints db)
    (indexed_block_headers db) m.
Definition with_headers (db : ChainDb) (m : gmap (Z * Z * Z) (Z * Z)) : ChainDb :=
  mkChainDb (indexed_transact_commitments db) (indexed_shield_commitments db) (indexed_nullifiers db)
    (indexed_legacy_encrypted_commitments db) (indexed_legacy_generated_commitments db)
    (indexed_public_transactions db) (indexed_public_txid_rows db) (indexed_block_checkpoints db)
    m (chain_indexing_progress_table db).

(** The update is skipped when the stored block is higher. *)
Definition record_chain_indexing_progress (db : ChainDb) (chain_type chain_id contract : Z) (kind : IndexedDatasetKind)
    (block hash : Z) : sresult ChainDb :=
  scope ← scope_of chain_type chain_id contract;
  block ← u64_to_i64 block "indexed_through_block";
  let key := (scope, dataset_kind_as_str kind) in
  let updated := with_progress db (<[key := (block, hash)]> (chain_indexing_progress_table db)) in
  Ok (match chain_indexing_progress_table db !! key with
      | Some (stored, _) => if decide (stored ≤ block) then updated else db
      | None => updated
      end).

Definition record_indexed_block_header (db : ChainDb) (chain_type chain_id block_number block_hash parent_hash : Z) : sresult ChainDb :=
  chain_id ← u64_to_i64 chain_id "chain_id";
  block_number ← u64_to_i64 block_number "block_number";
  Ok (with_headers db (<[(chain_type, chain_id, block_number) := (block_hash, parent_hash)]> (indexed_block_headers db))).
Definition indexed_block_header (db : ChainDb) (chain_type chain_id block_number : Z) : sresult (option StoredIndexedBlockHeader) :=
  chain_id ← u64_to_i64 chain_id "chain_id";
  block ← u64_to_i64 block_number "block_number";
  Ok ((λ h : Z * Z, mkHeaderRow block_number h.1 h.2) <$> indexed_block_headers db !! (chain_type, chain_id, block)).

(** ** Rewinding *)
Record ChainIndexingRewind := mkRewind {
  deleted_indexed_rows : nat;
  deleted_public_transactions : nat;
  deleted_block_checkpoints : nat;
  deleted_block_headers : nat;
  rewound_progress_rows : nat;
  deleted_progress_rows : nat;
}.

Definition progress_hit (scope : Scope) (replay_from_block : Z) (kv : (Scope * string) * (Z * Z)) : Prop :=
  kv.1.1 = scope ∧ replay_from_block ≤ kv.2.1.
#[export] Instance progress_hit_dec scope r kv : Decision (progress_hit scope r kv).
Proof. unfold progress_hit. apply _. Defined.

(** The progress rows at or after the replay block go back to the previous
    header, or are deleted when there is none. *)
Definition rewind_progress (scope : Scope) (replay_from_block : Z) (previous : option (Z * Z))
    (m : gmap (Scope * string) (Z * Z)) : gmap (Scope * string) (Z * Z) :=
  match previous with
  | Some previous => map_imap (λ k v, Some (if decide (progress_hit scope replay_from_block (k, v)) then previous else v)) m
  | None => filter (λ kv, ¬ progress_hit scope replay_from_block kv) m
  end.

Definition rewind_chain_indexing_to_replay_block (db : ChainDb) (chain_type chain_id contract replay_from_block : Z)
    : sresult (ChainIndexingRewind * ChainDb) :=
  scope ← scope_of chain_type chain_id contract;
  r ← u64_to_i64 replay_from_block "replay_from_block";
  let previous_block := if decide (0 < r) then Some (r - 1) else None in
  let previous : option (Z * Z) :=
    b ← previous_block;
    h ← indexed_block_headers db !! (scope.1.1, scope.1.2, b);
    Some (b, h.1) in
  let headers := filter (λ kv : (Z * Z * Z) * (Z * Z), ¬ (kv.1.1 = (scope.1.1, scope.1.2) ∧ r ≤ kv.1.2)) (indexed_block_headers db) in
  let hits := size (filter (progress_hit scope r) (chain_indexing_progress_table db)) in
  Ok (mkRewind
        (deleted_count scope r (indexed_transact_commitments db) + deleted_count scope r (indexed_shield_commitments db) +
         deleted_count scope r (indexed_nullifiers db) + deleted_count scope r (indexed_legacy_encrypted_commitments db) +
         deleted_count scope r (indexed_legacy_generated_commitments db))
        (deleted_count scope r (indexed_public_transactions db) + deleted_count scope r (indexed_public_txid_rows db))
        (deleted_count scope r (indexed_block_checkpoints db))
        (size (indexed_block_headers db) - size headers)
        (if previous then hits else 0%nat) (if previous then 0%nat else hits),
      mkChainDb (delete_from scope r (indexed_transact_commitments db)) (delete_from scope r (indexed_shield_commitments db))
        (delete_from scope r (indexed_nullifiers db)) (delete_from scope r (indexed_legacy_encrypted_commitments db))
        (delete_from scope r (indexed_legacy_generated_commitments db)) (delete_from scope r (indexed_public_transactions db))
        (delete_from scope r (indexed_public_txid_rows db)) (delete_from scope r (indexed_block_checkpoints db))
        headers (rewind_progress scope r previous (chain_indexing_progress_table db))).

(** ** Persisting a batch *)
Section persist.
Context `{PersistCrate} (scope : Scope).

Definition source_block_timestamp_i64 (source : IndexedLogSource) : sresult Z :=
  block_timestamp ← ok_or (ls_block_timestamp source)
    (MissingBlockTimestamp (ls_block_number source) (encode_prefixed (be_bytes 32 (ls_block_hash source))));
  u64_to_i64 block_timestamp "block_timestamp".

(** The block number and the source columns of a log row, in bind order. *)
Definition source_cols (source : IndexedLogSource) : sresult (Z * SourceCols) :=
  block_number ← u64_to_i64 (ls_block_number source) "block_number";
  timestamp ← source_block_timestamp_i64 source;
  log_index ← u64_to_i64 (ls_log_index source) "log_index";
  Ok (block_number, mkSourceCols (Some timestamp) (ls_block_hash source) (ls_transaction_hash source) log_index).

Definition with_public (db : ChainDb) (m : gmap (Scope * Z) (Z * PublicTransactionRow)) : ChainDb :=
  mkChainDb (indexed_transact_commitments db) (indexed_shield_commitments db) (indexed_nullifiers db)
    (indexed_legacy_encrypted_commitments db) (indexed_legacy_generated_commitments db)
    m (indexed_public_txid_rows db) (indexed_block_checkpoints db)
    (indexed_block_headers db) (chain_indexing_progress_table db).

Definition record_source_transaction (db : ChainDb) (source : IndexedLogSource) : sresult ChainDb :=
  '(block, cols) ← source_cols source;
  let key := (scope, co_transaction_hash cols) in
  let row :=
    match indexed_public_transactions db !! key with
    | Some (stored_block, stored) =>
        (Z.min stored_block block,
         mkPublicRow (co_block_timestamp cols) (co_block_hash cols)
           (Z.min (pr_first_log_index stored) (co_log_index cols)) (Z.max (pr_last_log_index stored) (co_log_index cols)))
    | None => (block, mkPublicRow (co_block_timestamp cols) (co_block_hash cols) (co_log_index cols) (co_log_index cols))
    end in
  Ok (with_public db (<[key := row]> (indexed_public_transactions db))).

Definition persist_transact (db : ChainDb) (item : IndexedTransactCommitment) : sresult ChainDb :=
  db ← record_source_transaction db (tc_source item);
  '(block, cols) ← source_cols (tc_source item);
  position ← u64_to_i64 (tc_tree_position item) "tree_position";
  Ok (mkChainDb
    (<[(scope, (tc_tree_number item, position)) :=
        (block, (cols, tc_hash item, ciphertext_abi_encode <$> tc_ciphertext item))]> (indexed_transact_commitments db))
    (indexed_shield_commitments db) (indexed_nullifiers db) (indexed_legacy_encrypted_commitments db)
    (indexed_legacy_generated_commitments db) (indexed_public_transactions db) (indexed_public_txid_rows db)
    (indexed_block_checkpoints db) (indexed_block_headers db) (chain_indexing_progress_table db)).

Definition persist_shield (db : ChainDb) (item : IndexedShieldCommitment) : sresult ChainDb :=
  db ← record_source_transaction db (sc_source item);
  '(block, cols) ← source_cols (sc_source item);
  position ← u64_to_i64 (sc_tree_position item) "tree_position";
  Ok (mkChainDb (indexed_transact_commitments db)
    (<[(scope, (sc_tree_number item, position)) :=
        (block, (cols, preimage_hash (sc_preimage item), preimage_abi_encode (sc_preimage item),
                 shield_ciphertext_abi_encode (sc_shield_ciphertext item)))]> (indexed_shield_commitments db))
    (indexed_nullifiers db) (indexed_legacy_encrypted_commitments db)
    (indexed_legacy_generated_commitments db) (indexed_public_transactions db) (indexed_public_txid_rows db)
    (indexed_block_checkpoints db) (indexed_block_headers db) (chain_indexing_progress_table db)).

Definition persist_nullifier (db : ChainDb) (item : IndexedNullifier) : sresult ChainDb :=
  db ← record_source_transaction db (nu_source item);
  '(block, cols) ← source_cols (nu_source item);
  Ok (mkChainDb (indexed_transact_commitments db) (indexed_shield_commitments db)
    (<[(scope, (nu_tree_number item, nu_nullifier item)) := (block, cols)]> (indexed_nullifiers db))
    (indexed_legacy_encrypted_commitments db)
    (indexed_legacy_generated_commitments db) (indexed_public_transactions db) (indexed_public_txid_rows db)
    (indexed_block_checkpoints db) (indexed_block_headers db) (chain_indexing_progress_table db)).

Definition persist_legacy_encrypted (db : ChainDb) (item : IndexedLegacyEncryptedCommitment) : sresult ChainDb :=
  db ← record_source_transaction db (le_source item);
  '(block, cols) ← source_cols (le_source item);
  position ← u64_to_i64 (le_tree_position item) "tree_position";
  Ok (mkChainDb (indexed_transact_commitments db) (indexed_shield_commitments db) (indexed_nullifiers db)
    (<[(scope, (le_tree_number item, position)) :=
        (block, (cols, le_hash item, legacy_ciphertext_abi_encode (le_ciphertext item)))]> (indexed_legacy_encrypted_commitments db))
    (indexed_legacy_generated_commitments db) (indexed_public_transactions db) (indexed_public_txid_rows db)
    (indexed_block_checkpoints db) (indexed_block_headers db) (chain_indexing_progress_table db)).

Definition persist_legacy_generated (db : ChainDb) (item : IndexedLegacyGeneratedCommitment) : sresult ChainDb :=
  db ← record_source_transaction db (lg_source item);
  '(block, cols) ← source_cols (lg_source item);
  position ← u64_to_i64 (lg_tree_position item) "tree_position";
  Ok (mkChainDb (indexed_transact_commitments db) (indexed_shield_commitments db) (indexed_nullifiers db)
    (indexed_legacy_encrypted_commitments db)
    (<[(scope, (lg_tree_number item, position)) :=
        (block, (cols, legacy_preimage_hash (lg_preimage item), legacy_preimage_abi_encode (lg_preimage item),
                 be_bytes 32 (lg_encrypted_random item).1 ++ be_bytes 32 (lg_encrypted_random item).2))]>
      (indexed_legacy_generated_commitments db))
    (indexed_public_transactions db) (indexed_public_txid_rows db)
    (indexed_block_checkpoints db) (indexed_block_headers db) (chain_indexing_progress_table db)).

Definition flatten_fixed_bytes (values : list Z) : bytes := concat (be_bytes 32 <$> values).

Definition persist_public_transaction (db : ChainDb) (item : IndexedPublicTransaction) : sresult ChainDb :=
  block ← u64_to_i64 (ls_block_number (ip_source item)) "block_number";
  timestamp ← u64_to_i64 (ip_block_timestamp item) "block_timestamp";
  first_log ← u64_to_i64 (ip_first_log_index item) "first_log_index";
  last_log ← u64_to_i64 (ip_last_log_index item) "last_log_index";
  index ← u64_to_i64 (ip_railgun_transaction_index item) "railgun_transaction_index";
  tree_in ← u64_to_i64 (ip_utxo_tree_in item) "utxo_tree_in";
  tree_out ← u64_to_i64 (ip_utxo_tree_out item) "utxo_tree_out";
  position ← u64_to_i64 (ip_utxo_batch_start_position_out item) "utxo_batch_start_position_out";
  Ok (mkChainDb (indexed_transact_commitments db) (indexed_shield_commitments db) (indexed_nullifiers db)
    (indexed_legacy_encrypted_commitments db) (indexed_legacy_generated_commitments db) (indexed_public_transactions db)
    (<[(scope, (ls_transaction_hash (ip_source item), index)) :=
        (block, mkTxidRow timestamp (ls_block_hash (ip_source item)) first_log last_log (ip_id item)
                  (flatten_fixed_bytes (ip_nullifiers item)) (flatten_fixed_bytes (ip_commitments item))
                  (ip_bound_params_hash item) (ip_has_unshield item) (ip_unshield_preimage item)
                  tree_in tree_out position)]> (indexed_public_txid_rows db))
    (indexed_block_checkpoints db) (indexed_block_headers db) (chain_indexing_progress_table db)).
End persist.

Definition persist_indexed_log_batch `{PersistCrate} (db : ChainDb) (chain_type chain_id contract : Z) (batch : IndexedLogBatch)
    : sresult ChainDb :=
  scope ← scope_of chain_type chain_id contract;
  db ← try_fold (persist_transact scope) db (transact_commitments batch);
  db ← try_fold (persist_shield scope) db (shield_commitments batch);
  db ← try_fold (persist_nullifier scope) db (nullifiers batch);
  db ← try_fold (persist_legacy_encrypted scope) db (legacy_encrypted_commitments batch);
  db ← try_fold (persist_legacy_generated scope) db (legacy_generated_commitments batch);
  try_fold (persist_public_transaction scope) db (public_transactions batch).
End chain_store.

(** ** Rows above a block *)
Section above.
Context {K R : Type} `{Countable K} (scope : Scope) (r : Z).

(** [m] is [m0] plus rows of the scope at or after block [r]. *)
Definition table_above (m0 m : gmap (Scope * K) (Z * R)) : Prop :=
  (∀ k row, m0 !! k = Some row → m !! k = Some row) ∧
  (∀ k row, m !! k = Some row → m0 !! k = Some row ∨ k.1 = scope ∧ r ≤ row.1).

Lemma table_above_refl (m : gmap (Scope * K) (Z * R)) : table_above m m.
Proof. split; [done|]. by left. Qed.

Lemma table_above_insert m0 m k row :
  table_above m0 m → m0 !! (scope, k) = None → r ≤ row.1 → table_above m0 (<[(scope, k) := row]> m).
Proof.
  intros [Hold Hnew] Hfresh Hr. split.
  - intros k' row' Hk'. rewrite lookup_insert_ne by (intros <-; congruence). by apply Hold.
  - intros k' row'. destruct (decide (k' = (scope, k))) as [->|Hne].
    + rewrite lookup_insert_eq. intros [= <-]. by right.
    + rewrite lookup_insert_ne by done. apply Hnew.
Qed.

(** A row of [m] under a key that is new is above. *)
Lemma table_above_row m0 m k row :
  table_above m0 m → m0 !! k = None → m !! k = Some row → r ≤ row.1.
Proof. intros [_ Hnew] Hk Hm. destruct (Hnew _ _ Hm) as [?|[_ ?]]; [congruence|done]. Qed.

Lemma delete_from_lookup (m : gmap (Scope * K) (Z * R)) k :
  delete_from scope r m !! k =
  match m !! k with
  | Some row => if decide (k.1 = scope ∧ r ≤ row.1) then None else Some row
  | None => None
  end.
Proof.
  unfold delete_from. destruct (m !! k) as [row|] eqn:Hk.
  - case_decide as Hd.
    + apply map_lookup_filter_None_2. right. intros row' Hr'. assert (row' = row) as -> by congruence. cbn. tauto.
    + by apply map_lookup_filter_Some_2.
  - apply map_lookup_filter_None_2. by left.
Qed.

Lemma delete_from_above m0 m : table_above m0 m → delete_from scope r m = delete_from scope r m0.
Proof.
  intros [Hold Hnew]. apply map_eq. intros k. rewrite !delete_from_lookup.
  destruct (m0 !! k) as [row|] eqn:H0; [by rewrite (Hold _ _ H0)|].
  destruct (m !! k) as [row|] eqn:Hm; [|done]. destruct (Hnew _ _ Hm) as [?|?]; [congruence|by rewrite decide_True].
Qed.
End above.

Section undo.
Context `{PersistCrate} `{PoiTypes} (scope : Scope) (r : Z).

(** [db] is [db0] plus rows of the scope at or after block [r]. *)
Record db_above (db0 db : ChainDb) : Prop := {
  ab_transact : table_above scope r (indexed_transact_commitments db0) (indexed_transact_commitments db);
  ab_shield : table_above scope r (indexed_shield_commitments db0) (indexed_shield_commitments db);
  ab_nullifier : table_above scope r (indexed_nullifiers db0) (indexed_nullifiers db);
  ab_encrypted : table_above scope r (indexed_legacy_encrypted_commitments db0) (indexed_legacy_encrypted_commitments db);
  ab_generated : table_above scope r (indexed_legacy_generated_commitments db0) (indexed_legacy_generated_commitments db);
  ab_public : table_above scope r (indexed_public_transactions db0) (indexed_public_transactions db);
  ab_txid : table_above scope r (indexed_public_txid_rows db0) (indexed_public_txid_rows db);
  ab_checkpoints : indexed_block_checkpoints db = indexed_block_checkpoints db0;
  ab_headers : indexed_block_headers db = indexed_block_headers db0;
  ab_progress : chain_indexing_progress_table db = chain_indexing_progress_table db0;
}.
Lemma db_above_refl db : db_above db db.
Proof. split; try apply table_above_refl; done. Qed.

(** The batch holds only rows of blocks from [r] on, under keys that [db] does
    not have. *)
Definition source_new (db : ChainDb) (s : IndexedLogSource) : Prop :=
  r ≤ ls_block_number s ∧ indexed_public_transactions db !! (scope, ls_transaction_hash s) = None.
Record batch_new (db : ChainDb) (batch : IndexedLogBatch) : Prop := {
  bn_transact i : i ∈ transact_commitments batch → source_new db (tc_source i) ∧
    indexed_transact_commitments db !! (scope, (tc_tree_number i, tc_tree_position i)) = None;
  bn_shield i : i ∈ shield_commitments batch → source_new db (sc_source i) ∧
    indexed_shield_commitments db !! (scope, (sc_tree_number i, sc_tree_position i)) = None;
  bn_nullifier i : i ∈ nullifiers batch → source_new db (nu_source i) ∧
    indexed_nullifiers db !! (scope, (nu_tree_number i, nu_nullifier i)) = None;
  bn_encrypted i : i ∈ legacy_encrypted_commitments batch → source_new db (le_source i) ∧
    indexed_legacy_encrypted_commitments db !! (scope, (le_tree_number i, le_tree_position i)) = None;
  bn_generated i : i ∈ legacy_generated_commitments batch → source_new db (lg_source i) ∧
    indexed_legacy_generated_commitments db !! (scope, (lg_tree_number i, lg_tree_position i)) = None;
  bn_txid i : i ∈ public_transactions batch → r ≤ ls_block_number (ip_source i) ∧
    indexed_public_txid_rows db !! (scope, (ls_transaction_hash (ip_source i), ip_railgun_transaction_index i)) = None;
}.

Lemma source_cols_Ok s block cols :
  source_cols s = Ok (block, cols) → block = ls_block_number s ∧ co_transaction_hash cols = ls_transaction_hash s.
Proof.
  unfold source_cols. intros Hr. apply bind_Ok in Hr as (b & [_ ->]%u64_to_i64_Ok & Hr).
  apply bind_Ok in Hr as (t & _ & Hr). by apply bind_Ok in Hr as (l & _ & [= <- <-]).
Qed.

Lemma record_source_above db0 db s db' :
  db_above db0 db → source_new db0 s → record_source_transaction scope db s = Ok db' → db_above db0 db'.
Proof.
  intros Hab [Hr Hfresh] Hrec. unfold record_source_transaction in Hrec.
  apply bind_Ok in Hrec as ([block cols] & [-> Htx]%source_cols_Ok & [= <-]).
  destruct Hab. split; try done. cbn. rewrite Htx. apply table_above_insert; [done..|].
  destruct (indexed_public_transactions db !! _) as [[b row]|] eqn:Hl; [|done]. cbn.
  pose proof (table_above_row _ _ _ _ _ _ ab_public0 Hfresh Hl). cbn in *. lia.
Qed.

(** The log rows: the source transaction, then one insertion. *)
Ltac persist_above Hab Hnew Hrec :=
  apply bind_Ok in Hrec as (?db1 & ?Hsrc & Hrec); apply (record_source_above _ _ _ _ Hab (proj1 Hnew)) in Hsrc;
  apply bind_Ok in Hrec as ([?block ?cols] & [-> _]%source_cols_Ok & Hrec);
  destruct Hsrc; destruct Hnew as [[? _] ?].

Lemma persist_transact_above db0 db i db' :
  db_above db0 db → source_new db0 (tc_source i) ∧ indexed_transact_commitments db0 !! (scope, (tc_tree_number i, tc_tree_position i)) = None →
  persist_transact scope db i = Ok db' → db_above db0 db'.
Proof.
  intros Hab Hnew Hrec. unfold persist_transact in Hrec. persist_above Hab Hnew Hrec.
  apply bind_Ok in Hrec as (p & [_ ->]%u64_to_i64_Ok & [= <-]). split; try done. by apply table_above_insert.
Qed.
Lemma persist_shield_above db0 db i db' :
  db_above db0 db → source_new db0 (sc_source i) ∧ indexed_shield_commitments db0 !! (scope, (sc_tree_number i, sc_tree_position i)) = None →
  persist_shield scope db i = Ok db' → db_above db0 db'.
Proof.
  intros Hab Hnew Hrec. unfold persist_shield in Hrec. persist_above Hab Hnew Hrec.
  apply bind_Ok in Hrec as (p & [_ ->]%u64_to_i64_Ok & [= <-]). split; try done. by apply table_above_insert.
Qed.
Lemma persist_nullifier_above db0 db i db' :
  db_above db0 db → source_new db0 (nu_source i) ∧ indexed_nullifiers db0 !! (scope, (nu_tree_number i, nu_nullifier i)) = None →
  persist_nullifier scope db i = Ok db' → db_above db0 db'.
Proof.
  intros Hab Hnew Hrec. unfold persist_nullifier in Hrec. persist_above Hab Hnew Hrec.
  injection Hrec as <-. split; try done. by apply table_above_insert.
Qed.
Lemma persist_encrypted_above db0 db i db' :
  db_above db0 db → source_new db0 (le_source i) ∧ indexed_legacy_encrypted_commitments db0 !! (scope, (le_tree_number i, le_tree_position i)) = None →
  persist_legacy_encrypted scope db i = Ok db' → db_above db0 db'.
Proof.
  intros Hab Hnew Hrec. unfold persist_legacy_encrypted in Hrec. persist_above Hab Hnew Hrec.
  apply bind_Ok in Hrec as (p & [_ ->]%u64_to_i64_Ok & [= <-]). split; try done. by apply table_above_insert.
Qed.
Lemma persist_generated_above db0 db i db' :
  db_above db0 db → source_new db0 (lg_source i) ∧ indexed_legacy_generated_commitments db0 !! (scope, (lg_tree_number i, lg_tree_position i)) = None →
  persist_legacy_generated scope db i = Ok db' → db_above db0 db'.
Proof.
  intros Hab Hnew Hrec. unfold persist_legacy_generated in Hrec. persist_above Hab Hnew Hrec.
  apply bind_Ok in Hrec as (p & [_ ->]%u64_to_i64_Ok & [= <-]). split; try done. by apply table_above_insert.
Qed.
Lemma persist_txid_above db0 db i db' :
  db_above db0 db → r ≤ ls_block_number (ip_source i) ∧
    indexed_public_txid_rows db0 !! (scope, (ls_transaction_hash (ip_source i), ip_railgun_transaction_index i)) = None →
  persist_public_transaction scope db i = Ok db' → db_above db0 db'.
Proof.
  intros Hab [Hr Hfresh] Hrec. unfold persist_public_transaction in Hrec.
  repeat (apply bind_Ok in Hrec as (? & [_ ->]%u64_to_i64_Ok & Hrec)). injection Hrec as <-.
  destruct Hab. split; try done. by apply table_above_insert.
Qed.

Lemma fold_above {A} (f : ChainDb → A → sresult ChainDb) (Q : A → Prop) db0 l :
  (∀ db a db', db_above db0 db → Q a → f db a = Ok db' → db_above db0 db') → (∀ a, a ∈ l → Q a) →
  ∀ db db', db_above db0 db → try_fold f db l = Ok db' → db_above db0 db'.
Proof.
  intros Hstep Hall db db' Hab Hf. apply (try_fold_inv (db_above db0)) in Hf; [done| |done].
  intros d a d' Ha Hd. apply Hstep; [done|by apply Hall].
Qed.
End undo.

Lemma persist_above_ok `{PersistCrate} `{PoiTypes} db chain_type chain_id contract batch r db' :
  batch_new (chain_type, chain_id, contract) r db batch →
  persist_indexed_log_batch db chain_type chain_id contract batch = Ok db' →
  chain_id ≤ i64_max ∧ db_above (chain_type, chain_id, contract) r db db'.
Proof.
  intros Hnew. unfold persist_indexed_log_batch, scope_of. intros Hr.
  apply bind_Ok in Hr as (scope & Hs & Hr). apply bind_Ok in Hs as (c & [Hc ->]%u64_to_i64_Ok & [= <-]). split; [done|].
  apply bind_Ok in Hr as (d1 & H1' & Hr). apply bind_Ok in Hr as (d2 & H2' & Hr). apply bind_Ok in Hr as (d3 & H3' & Hr).
  apply bind_Ok in Hr as (d4 & H4' & Hr). apply bind_Ok in Hr as (d5 & H5' & Hr). destruct Hnew as [N1 N2 N3 N4 N5 N6].
  pose proof (fold_above _ _ _ _ _ _ (persist_transact_above _ r db) N1 _ _ (db_above_refl _ _ db) H1') as A1.
  pose proof (fold_above _ _ _ _ _ _ (persist_shield_above _ r db) N2 _ _ A1 H2') as A2.
  pose proof (fold_above _ _ _ _ _ _ (persist_nullifier_above _ r db) N3 _ _ A2 H3') as A3.
  pose proof (fold_above _ _ _ _ _ _ (persist_encrypted_above _ r db) N4 _ _ A3 H4') as A4.
  pose proof (fold_above _ _ _ _ _ _ (persist_generated_above _ r db) N5 _ _ A4 H5') as A5.
  exact (fold_above _ _ _ _ _ _ (persist_txid_above _ r db) N6 _ _ A5 Hr).
Qed.

(** ** What a rewind leaves *)
(** Of [m] exactly the rows [gone] are missing in [m'], [n] rows. *)
Definition loses {K V} `{Countable K} (gone : K → V → Prop) (m m' : gmap K V) (n : nat) : Prop :=
  (∀ k v, m' !! k = Some v ↔ m !! k = Some v ∧ ¬ gone k v) ∧ size m = (size m' + n)%nat.
Definition row_gone {K R} (scope : Scope) (r : Z) (k : Scope * K) (row : Z * R) : Prop := k.1 = scope ∧ r ≤ row.1.
(** The header a rewind goes back to: that of the block before. *)
Definition header_before (db : ChainDb) (chain_type chain_id r : Z) : option (Z * Z) :=
  if decide (0 < r) then (λ h : Z * Z, (r - 1, h.1)) <$> indexed_block_headers db !! (chain_type, chain_id, r - 1) else None.
Record rewound (chain_type chain_id contract r : Z) (db : ChainDb) (rw : ChainIndexingRewind) (d : ChainDb) : Prop := {
  rw_rows : ∃ n1 n2 n3 n4 n5, deleted_indexed_rows rw = (n1 + n2 + n3 + n4 + n5)%nat ∧
    loses (row_gone (chain_type, chain_id, contract) r) (indexed_transact_commitments db) (indexed_transact_commitments d) n1 ∧
    loses (row_gone (chain_type, chain_id, contract) r) (indexed_shield_commitments db) (indexed_shield_commitments d) n2 ∧
    loses (row_gone (chain_type, chain_id, contract) r) (indexed_nullifiers db) (indexed_nullifiers d) n3 ∧
    loses (row_gone (chain_type, chain_id, contract) r) (indexed_legacy_encrypted_commitments db) (indexed_legacy_encrypted_commitments d) n4 ∧
    loses (row_gone (chain_type, chain_id, contract) r) (indexed_legacy_generated_commitments db) (indexed_legacy_generated_commitments d) n5;
  rw_transactions : ∃ n1 n2, deleted_public_transactions rw = (n1 + n2)%nat ∧
    loses (row_gone (chain_type, chain_id, contract) r) (indexed_public_transactions db) (indexed_public_transactions d) n1 ∧
    loses (row_gone (chain_type, chain_id, contract) r) (indexed_public_txid_rows db) (indexed_public_txid_rows d) n2;
  rw_checkpoints : loses (row_gone (chain_type, chain_id, contract) r) (indexed_block_checkpoints db) (indexed_block_checkpoints d)
    (deleted_block_checkpoints rw);
  (** headers have no contract *)
  rw_headers : loses (λ k _, k.1 = (chain_type, chain_id) ∧ r ≤ k.2) (indexed_block_headers db) (indexed_block_headers d) (deleted_block_headers rw);
  (** a progress row of the contract at or after [r] goes back to the header
      before [r], or disappears without one *)
  rw_progress k : chain_indexing_progress_table d !! k =
    v ← chain_indexing_progress_table db !! k;
    if decide (k.1 = (chain_type, chain_id, contract) ∧ r ≤ v.1) then header_before db chain_type chain_id r else Some v;
}.

Lemma filter_loses {K V} `{Countable K} (P : K * V → Prop) `{∀ kv, Decision (P kv)} (m : gmap K V) :
  loses (λ k v, P (k, v)) m (filter (λ kv, ¬ P kv) m) (size m - size (filter (λ kv, ¬ P kv) m)).
Proof.
  split; [intros k v; apply (map_lookup_filter_Some (λ kv, ¬ P kv))|]. enough (size (filter (λ kv, ¬ P kv) m) ≤ size m)%nat by lia.
  apply map_subseteq_size, map_filter_subseteq.
Qed.
Lemma delete_from_loses {K R} `{Countable K} (scope : Scope) (r : Z) (m : gmap (Scope * K) (Z * R)) :
  loses (row_gone scope r) m (delete_from scope r m) (deleted_count scope r m).
Proof. apply (filter_loses (λ kv : (Scope * K) * (Z * R), kv.1.1 = scope ∧ r ≤ kv.2.1)). Qed.
Lemma rewind_progress_lookup scope r previous m k :
  rewind_progress scope r previous m !! k = v ← m !! k; if decide (k.1 = scope ∧ r ≤ v.1) then previous else Some v.
Proof.
  unfold rewind_progress. destruct previous as [p|].
  - rewrite map_lookup_imap. destruct (m !! k) as [v|]; [|done]. cbn. unfold progress_hit. cbn. by repeat case_decide.
  - rewrite map_lookup_filter. destruct (m !! k) as [v|]; [|done]. cbn. unfold progress_hit. cbn. repeat case_guard; case_decide; tauto || done.
Qed.

Lemma rewind_Ok db chain_type chain_id contract r :
  chain_id ≤ i64_max → r ≤ i64_max →
  ∃ rw d, rewind_chain_indexing_to_replay_block db chain_type chain_id contract r = Ok (rw, d) ∧ rewound chain_type chain_id contract r db rw d.
Proof.
  intros Hc Hr. unfold rewind_chain_indexing_to_replay_block, scope_of, u64_to_i64. rewrite !decide_True by done. cbn [mbind result_bind].
  eexists _, _. split; [reflexivity|]. split; cbn [fst snd deleted_indexed_rows deleted_public_transactions deleted_block_checkpoints deleted_block_headers
    indexed_transact_commitments indexed_shield_commitments indexed_nullifiers indexed_legacy_encrypted_commitments indexed_legacy_generated_commitments
    indexed_public_transactions indexed_public_txid_rows indexed_block_checkpoints indexed_block_headers chain_indexing_progress_table].
  - eexists _, _, _, _, _. split; [reflexivity|]. split_and!; apply delete_from_loses.
  - eexists _, _. split; [reflexivity|]. split; apply delete_from_loses.
  - apply delete_from_loses.
  - apply (filter_loses (λ kv : (Z * Z * Z) * (Z * Z), kv.1.1 = (chain_type, chain_id) ∧ r ≤ kv.1.2)).
  - intros k. rewrite rewind_progress_lookup. unfold header_before. case_decide; [|done]. cbn. by destruct (indexed_block_headers db !! _).
Qed.
Lemma rewind_above db db1 chain_type chain_id contract r rw d :
  db_above (chain_type, chain_id, contract) r db db1 →
  rewind_chain_indexing_to_replay_block db chain_type chain_id contract r = Ok (rw, d) →
  ∃ rw1, rewind_chain_indexing_to_replay_block db1 chain_type chain_id contract r = Ok (rw1, d).
Proof.
  intros Hab. unfold rewind_chain_indexing_to_replay_block, scope_of.
  intros Hrw. apply bind_Ok in Hrw as (s0 & Hs0 & Hrw). rewrite Hs0. apply bind_Ok in Hs0 as (? & [_ ->]%u64_to_i64_Ok & [= <-]).
  apply bind_Ok in Hrw as (r0 & Hr0 & [= _ <-]). rewrite Hr0. apply u64_to_i64_Ok in Hr0 as [_ ->]. cbn [mbind result_bind].
  destruct Hab as [A1 A2 A3 A4 A5 A6 A7 -> -> ->]. eexists. do 2 f_equal.
  by rewrite (delete_from_above _ _ _ _ A1), (delete_from_above _ _ _ _ A2), (delete_from_above _ _ _ _ A3),
    (delete_from_above _ _ _ _ A4), (delete_from_above _ _ _ _ A5), (delete_from_above _ _ _ _ A6),
    (delete_from_above _ _ _ _ A7).
Qed.

(** C37. A rewind to block [r] is refused only if a number does not fit its
    column, and is exact: of the seven data tables and the checkpoints it
    deletes the rows of its chain and contract from block [r] on, and of the
    headers those of its chain from [r] on; every other row, of earlier blocks,
    other contracts and other chains, stays as it is, and the counts reported
    are those of the rows that went. A progress row at or after [r] goes back
    to block [r - 1] with the hash of its stored header, or is deleted if there
    is no such header. So a rewind undoes what was persisted: after a batch of
    blocks from [r] on, under keys the database did not have, it leaves the
    same database, in every table, as before the batch. *)
Theorem rewind_undoes_persist `{PersistCrate} `{PoiTypes} db chain_type chain_id contract r :
  ((∃ rw d, rewind_chain_indexing_to_replay_block db chain_type chain_id contract r = Ok (rw, d)) ↔ chain_id ≤ i64_max ∧ r ≤ i64_max) ∧
  ∀ rw d, rewind_chain_indexing_to_replay_block db chain_type chain_id contract r = Ok (rw, d) →
    rewound chain_type chain_id contract r db rw d ∧
    ∀ batch db1, batch_new (chain_type, chain_id, contract) r db batch →
      persist_indexed_log_batch db chain_type chain_id contract batch = Ok db1 →
      ∃ rw1, rewind_chain_indexing_to_replay_block db1 chain_type chain_id contract r = Ok (rw1, d).
Proof.
  assert (∀ rw d, rewind_chain_indexing_to_replay_block db chain_type chain_id contract r = Ok (rw, d) → chain_id ≤ i64_max ∧ r ≤ i64_max) as Hfits.
  { intros rw d Hrw. apply bind_Ok in Hrw as (s0 & Hs0 & Hrw). apply bind_Ok in Hs0 as (? & [? _]%u64_to_i64_Ok & _).
    by apply bind_Ok in Hrw as (? & [? _]%u64_to_i64_Ok & _). }
  split; [split; [by intros (rw & d & ?%Hfits)|]; intros [Hc Hr]; destruct (rewind_Ok db chain_type chain_id contract r Hc Hr) as (rw & d & ? & _); eauto|].
  intros rw d Hrw. split.
  - destruct (Hfits _ _ Hrw) as [Hc Hr]. destruct (rewind_Ok db chain_type chain_id contract r Hc Hr) as (rw' & d' & Hrw' & Hd).
    rewrite Hrw in Hrw'. by injection Hrw' as <- <-.
  - intros batch db1 Hnew Hp. eapply rewind_above; [|exact Hrw]. by apply (persist_above_ok _ _ _ _ _ _ _ Hnew) in Hp as [_ ?].
Qed.

Definition toy_persist : PersistCrate (H := toy_contract) :=
  @Build_PersistCrate toy_contract (be_bytes 32) (fst : Z * Z → Z) (λ p : Z * Z, be_bytes 32 p.1)
    (be_bytes 32) (be_bytes 32) (λ p : Z, p) (be_bytes 32).
Definition empty_chain_db : ChainDb := mkChainDb ∅ ∅ ∅ ∅ ∅ ∅ ∅ ∅ ∅ ∅.
Definition toy_persisted : IndexedLogBatch (H := toy_contract) :=
  mkBatch (H := toy_contract)
    [mkTransactCommitment (H := toy_contract) 0 0 61 (Some 5) (mkLogSource 7 (Some 100) 70 1 4)] []
    [mkNullifier 0 21 (mkLogSource 7 (Some 100) 70 1 3)] [] [] [] [] [] 0 0.
(** Two blocks of a chain: the toy batch at block 7, and one at block 9. *)
Definition toy_later : IndexedLogBatch (H := toy_contract) :=
  mkBatch (H := toy_contract)
    [mkTransactCommitment (H := toy_contract) 0 1 62 None (mkLogSource 9 (Some 120) 90 2 4)] [] [] [] [] [] [] [] 0 0.

(** Contract 193 has a row of block 9, too, which a rewind of 192 keeps. *)
Definition toy_rewind_db : sresult ChainDb :=
  db ← @persist_indexed_log_batch toy_types toy_contract toy_persist empty_chain_db 0 1 192 toy_persisted;
  @persist_indexed_log_batch toy_types toy_contract toy_persist db 0 1 193 toy_later.
Definition toy_rewind_start : ChainDb := match toy_rewind_db with Ok db => db | Err _ => empty_chain_db end.
Lemma rewind_undoes_persist_witness :
  ∃ db1 rw rw1 d, @persist_indexed_log_batch toy_types toy_contract toy_persist toy_rewind_start 0 1 192 toy_later = Ok db1 ∧
    rewind_chain_indexing_to_replay_block toy_rewind_start 0 1 192 8 = Ok (rw, d) ∧
    rewind_chain_indexing_to_replay_block db1 0 1 192 8 = Ok (rw1, d) ∧
    rewound 0 1 192 8 toy_rewind_start rw d ∧ is_Some (indexed_transact_commitments d !! ((0, 1, 193), (0, 1))).
Proof.
  assert (batch_new (H := toy_contract) (0, 1, 192) 8 toy_rewind_start toy_later) as Hnew.
  { split; try (intros i ?%not_elem_of_nil; done).
    intros i ->%list_elem_of_singleton. split; [split|]; [vm_compute; discriminate|vm_compute; reflexivity..]. }
  destruct (is_ok_Ok (@persist_indexed_log_batch toy_types toy_contract toy_persist toy_rewind_start 0 1 192 toy_later)) as [db1 Hdb1];
    [vm_compute; reflexivity|].
  destruct (is_ok_Ok (rewind_chain_indexing_to_replay_block toy_rewind_start 0 1 192 8)) as [[rw d] Hrw]; [vm_compute; reflexivity|].
  destruct (proj2 (rewind_undoes_persist (H0 := toy_persist) toy_rewind_start 0 1 192 8) rw d Hrw) as [Hd Hundo].
  destruct (Hundo toy_later db1 Hnew Hdb1) as [rw1 Hrw1]. exists db1, rw, rw1, d. split_and!; [done..|].
  apply (f_equal (λ x, match x with Ok p => bool_decide (is_Some (indexed_transact_commitments p.2 !! ((0, 1, 193), (0, 1)))) | Err _ => true end)) in Hrw.
  apply (bool_decide_eq_true (is_Some _)). etrans; [symmetry; exact Hrw|]. vm_compute. reflexivity.
Defined.
