(* ===== verification/ChainIndexer.v ===== *)
(** * Indexing the chain ([chain_indexer.rs], [chain_indexed.rs])

    One indexing step: find the block to resume from, rewinding after a
    reorganisation, fetch the logs of the next range, ingest and hydrate them,
    and persist rows, header and progress in one transaction. During a step a
    provider is a fixed view of the chain: a function of the request. Commits
    succeed or leave the tables as they were; the reorganisation lease and the
    second read under it see the same database. *)

From S2P Require Import Prelude Order Wire Ipfs Artifacts MerkleCheckpointChunk ChainLogs LogFilters ActionFrames.
From S2P Require Import ActionGrammar OutputMatch Calldata Traces Hydrate PoiStore ChainStore.

Definition EVM_CHAIN : Z := 0.

(** ** [chain_indexer.rs] *)
Record ChainIndexedBlockHeader := mkHeader_ {
  bh_block_number : Z;
  bh_block_hash : Z;
  bh_parent_hash : Z;
}.
Record ChainLogIndexingRange := mkRange {
  rg_chain_type : Z;
  rg_chain_id : Z;
  rg_railgun_contract : Z;
  rg_from_block : Z;
  rg_to_block : Z;
  rg_indexed_through_block_hash : Z;
  rg_indexed_block_headers : list ChainIndexedBlockHeader;
  rg_v2_start_block : Z;
  rg_legacy_shield_block : Z;
  rg_action_start_block : option Z;
}.
Record ChainLogIndexingOutcome := mkOutcome {
  oc_from_block : Z;
  oc_to_block : Z;
  oc_fetched_log_count : nat;
  oc_persisted_row_count : nat;
  oc_unshield_log_derivations : nat;
  oc_unshield_log_divergences : nat;
}.
Inductive ChainIndexingError :=
  | ChainLogsError (e : ChainLogIngestionError)
  | StoreFailure (e : StoreError)
  | Report (message : string).
Notation iresult := (result ChainIndexingError).

(** A view of the chain: logs, the hydration provider, headers by number
    (hash and parent hash) and the head. *)
Record ChainView := mkView {
  view_logs : Filter → cresult (list Log);
  view_provider : EthProvider;
  view_header : Z → iresult (option (Z * Z));
  view_head : iresult Z;
}.

Section indexer.
Context `{PoiTypes} `{PersistCrate} `{CalldataCrate} `{HexStrings} `{TreeCrate}.
Context (visit : gmap Z TransactOutputSummary → list TransactOutputSummary).
(** the server's answer to [COMMIT] *)
Context (commit_outcome : option StoreError).

Definition commit_chain (tx : ChainDb) : iresult ChainDb :=
  match commit_outcome with Some e => Err (StoreFailure e) | None => Ok tx end.

(** Fetching, ingesting and hydrating a range. *)
Definition range_batch (view : ChainView) (range : ChainLogIndexingRange) : cresult (list Log * IndexedLogBatch) :=
  logs ← fetch_chain_index_logs (view_logs view) (rg_railgun_contract range) (rg_from_block range) (rg_to_block range)
    (rg_v2_start_block range) (rg_legacy_shield_block range) (rg_action_start_block range);
  batch ← ingest_chain_logs logs;
  batch ← hydrate_indexed_log_source_timestamps (view_provider view) batch;
  batch ← hydrate_public_transactions legacy_preimage_hash (view_provider view) (rg_railgun_contract range) visit
    (rg_action_start_block range) batch;
  Ok (logs, batch).

(** The statements of the range's transaction. *)
Definition range_transaction (tx : ChainDb) (range : ChainLogIndexingRange) (batch : IndexedLogBatch) : sresult ChainDb :=
  tx ← persist_indexed_log_batch tx (rg_chain_type range) (rg_chain_id range) (rg_railgun_contract range) batch;
  tx ← try_fold (λ tx header, record_indexed_block_header tx (rg_chain_type range) (rg_chain_id range)
         (bh_block_number header) (bh_block_hash header) (bh_parent_hash header)) tx (rg_indexed_block_headers range);
  try_fold (λ tx kind, record_chain_indexing_progress tx (rg_chain_type range) (rg_chain_id range)
    (rg_railgun_contract range) kind (rg_to_block range) (rg_indexed_through_block_hash range)) tx DATASET_KIND_ALL.

Definition index_chain_log_range (db : ChainDb) (view : ChainView) (range : ChainLogIndexingRange)
    : iresult (ChainLogIndexingOutcome * ChainDb) :=
  '(logs, batch) ← map_err ChainLogsError (range_batch view range);
  tx ← map_err StoreFailure (range_transaction db range batch);
  db ← commit_chain tx;
  Ok (mkOutcome (rg_from_block range) (rg_to_block range) (length logs)
        (length (transact_commitments batch) + length (shield_commitments batch) + length (nullifiers batch) +
         length (legacy_encrypted_commitments batch) + length (legacy_generated_commitments batch) +
         length (public_transactions batch))
        (unshield_log_derivations batch) (unshield_log_divergences batch), db).

(** ** [chain_indexed.rs]: one step of a chain's indexing loop *)
Record ChainIndexConfig := mkIndexConfig {
  ic_chain_id : Z;
  ic_railgun_contract : Z;
  ic_start_block : Z;
  ic_v2_start_block : Z;
  ic_legacy_shield_block : Z;
  ic_action_start_block : option Z;
  ic_max_blocks_per_batch : Z;
  ic_safe_confirmations : Z;
}.
Context (cfg : ChainIndexConfig).

Definition fetch_block_header (view : ChainView) (block_number : Z) : iresult ChainIndexedBlockHeader :=
  block ← view_header view block_number;
  '(hash, parent) ← ok_or block (Report "block is unavailable from RPC provider");
  Ok (mkHeader_ block_number hash parent).

Definition wallet_scan_progress (db : ChainDb) : iresult (option StoredChainIndexingProgress) :=
  map_err StoreFailure (chain_indexing_progress db EVM_CHAIN (ic_chain_id cfg) (ic_railgun_contract cfg) DWalletScan).

Definition replay_from (through : Z) : Z :=
  Z.max (saturating_sub through (saturating_sub (ic_max_blocks_per_batch cfg) 1)) (ic_start_block cfg).

(** The transaction of a rewind: the new header before the replay block, unless
    it is the start block, then the rewind. *)
Definition rewind_transaction (archive : ChainView) (db : ChainDb) (replay_from_block : Z) : iresult ChainDb :=
  tx ← (if decide (ic_start_block cfg < replay_from_block) then
          previous ← fetch_block_header archive (saturating_sub replay_from_block 1);
          map_err StoreFailure (record_indexed_block_header db EVM_CHAIN (ic_chain_id cfg)
            (bh_block_number previous) (bh_block_hash previous) (bh_parent_hash previous))
        else Ok db);
  '(_, tx) ← map_err StoreFailure (rewind_chain_indexing_to_replay_block tx EVM_CHAIN (ic_chain_id cfg)
    (ic_railgun_contract cfg) replay_from_block);
  commit_chain tx.

(** The loop of [resume_block_after_reorg]; [None] is out of fuel. The rewinds
    it committed stay when a later request fails. *)
Fixpoint resume_block_after_reorg (fuel : nat) (archive : ChainView) (db : ChainDb) : option (iresult Z * ChainDb) :=
  match fuel with
  | O => None
  | S fuel =>
      match wallet_scan_progress db with
      | Err e => Some (Err e, db)
      | Ok None => Some (Ok (ic_start_block cfg), db)
      | Ok (Some progress) =>
          match fetch_block_header archive (indexed_through_block progress) with
          | Err e => Some (Err e, db)
          | Ok remote =>
              if decide (bh_block_hash remote = indexed_through_block_hash progress)
              then Some (Ok (saturating_add u64_max (indexed_through_block progress) 1), db)
              else
                match rewind_transaction archive db (replay_from (indexed_through_block progress)) with
                | Err e => Some (Err e, db)
                | Ok db => resume_block_after_reorg fuel archive db
                end
          end
      end
  end.

Inductive ChainIndexStep := Indexed (fetched_log_count : nat) (indexing_lag_blocks : Z) | StepCaughtUp.
Inductive ChainIndexProviderMode := Archive | NormalWithArchiveFallback.

Definition index_chain_range_with_provider (db : ChainDb) (view : ChainView) (safe_head from_block to_block : Z)
    : iresult (ChainIndexStep * ChainDb) :=
  header ← fetch_block_header view to_block;
  '(outcome, db) ← index_chain_log_range db view
    (mkRange EVM_CHAIN (ic_chain_id cfg) (ic_railgun_contract cfg) from_block to_block (bh_block_hash header) [header]
       (ic_v2_start_block cfg) (ic_legacy_shield_block cfg) (ic_action_start_block cfg));
  Ok (Indexed (oc_fetched_log_count outcome) (saturating_sub safe_head (oc_to_block outcome)), db).

(** Two rounds of the resume loop are enough (theorem below). *)
Definition RESUME_ROUNDS : nat := 2.

(** A failed range leaves the database as it was. *)
Definition keep_db {A} (db : ChainDb) (r : iresult (A * ChainDb)) : iresult A * ChainDb :=
  match r with Ok (a, db) => (Ok a, db) | Err e => (Err e, db) end.

Definition index_chain_once (db : ChainDb) (normal archive : ChainView) (batch_span : Z) (mode : ChainIndexProviderMode)
    : option (iresult ChainIndexStep * ChainDb) :=
  match view_head normal with
  | Err e => Some (Err e, db)
  | Ok head =>
      let safe_head := saturating_sub head (ic_safe_confirmations cfg) in
      '(from_block, db) ← resume_block_after_reorg RESUME_ROUNDS archive db;
      Some (match from_block with
      | Err e => (Err e, db)
      | Ok from_block =>
          if decide (safe_head < from_block) then (Ok StepCaughtUp, db)
          else
            let to_block := Z.min (saturating_add u64_max from_block (saturating_sub batch_span 1)) safe_head in
            keep_db db
              match mode with
              | Archive => index_chain_range_with_provider db archive safe_head from_block to_block
              | NormalWithArchiveFallback =>
                  match index_chain_range_with_provider db normal safe_head from_block to_block with
                  | Ok step => Ok step
                  | Err _ => index_chain_range_with_provider db archive safe_head from_block to_block
                  end
              end
      end)
  end.

(** ** Resuming *)
Abbreviation scope := (EVM_CHAIN, ic_chain_id cfg, ic_railgun_contract cfg).
Abbreviation stored_progress db kind := (chain_indexing_progress_table db !! (scope, dataset_kind_as_str kind)).

(** All datasets of the chain are at the same block. *)
Definition progress_uniform (db : ChainDb) : Prop :=
  ∀ kind, stored_progress db kind = stored_progress db DWalletScan.

(** The rows of the scope from [r] on are gone, all others are kept. *)
Record rows_rewound (r : Z) (db db' : ChainDb) : Prop := {
  rr_transact : indexed_transact_commitments db' = delete_from scope r (indexed_transact_commitments db);
  rr_shield : indexed_shield_commitments db' = delete_from scope r (indexed_shield_commitments db);
  rr_nullifiers : indexed_nullifiers db' = delete_from scope r (indexed_nullifiers db);
  rr_encrypted : indexed_legacy_encrypted_commitments db' = delete_from scope r (indexed_legacy_encrypted_commitments db);
  rr_generated : indexed_legacy_generated_commitments db' = delete_from scope r (indexed_legacy_generated_commitments db);
  rr_public : indexed_public_transactions db' = delete_from scope r (indexed_public_transactions db);
  rr_txid : indexed_public_txid_rows db' = delete_from scope r (indexed_public_txid_rows db);
}.

Lemma fetch_block_header_Ok view n h :
  fetch_block_header view n = Ok h →
  ∃ hash parent, view_header view n = Ok (Some (hash, parent)) ∧ h = mkHeader_ n hash parent.
Proof.
  unfold fetch_block_header. rewrite bind_Ok. intros (o & Ho & Hr).
  apply bind_Ok in Hr as ([hash parent] & ->%ok_or_Ok & [= <-]). by exists hash, parent.
Qed.

(** The header the progress is rewound to. *)
Lemma rewind_transaction_Ok archive db r db' :
  0 ≤ ic_start_block cfg → ic_start_block cfg ≤ r →
  (r = ic_start_block cfg → indexed_block_headers db !! (EVM_CHAIN, ic_chain_id cfg, r - 1) = None) →
  rewind_transaction archive db r = Ok db' →
  rows_rewound r db db' ∧
  (indexed_block_headers db !! (EVM_CHAIN, ic_chain_id cfg, ic_start_block cfg - 1) = None →
   indexed_block_headers db' !! (EVM_CHAIN, ic_chain_id cfg, ic_start_block cfg - 1) = None) ∧
  ∃ previous,
    (r = ic_start_block cfg ∧ previous = None ∨
     ic_start_block cfg < r ∧ ∃ hash parent, previous = Some (r - 1, hash) ∧
       view_header archive (r - 1) = Ok (Some (hash, parent))) ∧
    chain_indexing_progress_table db' = rewind_progress scope r previous (chain_indexing_progress_table db).
Proof.
  intros H0' Hsr Hnone. unfold rewind_transaction. rewrite bind_Ok. intros (tx & Htx & Hr).
  apply bind_Ok in Hr as ([counts tx'] & Hrw & Hc). unfold commit_chain in Hc. destruct commit_outcome; [done|]. injection Hc as <-.
  destruct (rewind_chain_indexing_to_replay_block _ _ _ _ _) as [[counts' d]|] eqn:Hrw'; [|done]. injection Hrw as <- <-.
  unfold rewind_chain_indexing_to_replay_block, scope_of in Hrw'.
  apply bind_Ok in Hrw' as (s & Hs & Hrw). apply bind_Ok in Hs as (c & [_ ->]%u64_to_i64_Ok & [= <-]).
  apply bind_Ok in Hrw as (rr & [_ ->]%u64_to_i64_Ok & [= <- <-]). cbn [fst snd].
  case_decide as Hlt.
  - apply bind_Ok in Htx as (hd & (hash & parent & Hview & ->)%fetch_block_header_Ok & Hrec). cbn in Hrec.
    unfold saturating_sub in *. replace (Z.max 0 (r - 1)) with (r - 1) in * by lia.
    destruct (record_indexed_block_header _ _ _ _ _ _) as [t|] eqn:Hrec'; [|done]. injection Hrec as <-.
    unfold record_indexed_block_header in Hrec'. apply bind_Ok in Hrec' as (c & [_ ->]%u64_to_i64_Ok & Hrec).
    apply bind_Ok in Hrec as (bn & [_ ->]%u64_to_i64_Ok & [= <-]). split; [by split|]. split.
    { intros Hn. cbn. apply map_lookup_filter_None_2. left. cbn. rewrite lookup_insert_ne; [done|]. intros [=]. lia. }
    exists (Some (r - 1, hash)). split; [right; split; [lia|by exists hash, parent]|]. cbn.
    rewrite decide_True by lia. cbn. by rewrite lookup_insert_eq.
  - injection Htx as <-. split; [by split|]. split; [intros Hn; apply map_lookup_filter_None_2; by left|].
    exists None. assert (r = ic_start_block cfg) as Hr by lia.
    split; [by left|]. cbn. case_decide; [|done]. cbn. by rewrite (Hnone Hr).
Qed.

(** What an indexed database looks like: the stored progress is at or after
    the start block, and no header before it is stored. *)
Record resumable (db : ChainDb) : Prop := {
  rs_start : 0 ≤ ic_start_block cfg;
  rs_progress b h : stored_progress db DWalletScan = Some (b, h) → ic_start_block cfg ≤ b ≤ i64_max;
  rs_header : indexed_block_headers db !! (EVM_CHAIN, ic_chain_id cfg, ic_start_block cfg - 1) = None;
}.

Lemma wallet_scan_progress_Ok db o :
  wallet_scan_progress db = Ok o →
  o = (λ p : Z * Z, mkProgress p.1 p.2) <$> stored_progress db DWalletScan.
Proof.
  unfold wallet_scan_progress, chain_indexing_progress, scope_of. intros Hr.
  destruct (u64_to_i64 (ic_chain_id cfg) "chain_id") as [c|] eqn:Hc; [|done]. apply u64_to_i64_Ok in Hc as [_ ->].
  cbn in Hr. destruct (chain_indexing_progress_table db !! _) as [[b h]|]; [|by injection Hr].
  cbn in *. unfold i64_to_u64 in Hr. case_decide; [|done]. by injection Hr.
Qed.

(** How a successful resume ends. *)
Definition resume_post (archive : ChainView) (db db' : ChainDb) (from : Z) : Prop :=
  match stored_progress db DWalletScan with
  | None => from = ic_start_block cfg ∧ db' = db
  | Some (b, h) => ∃ h' parent, view_header archive b = Ok (Some (h', parent)) ∧
      if decide (h' = h) then from = b + 1 ∧ db' = db
      else from = replay_from b ∧ from ≤ b ∧ rows_rewound from db db' ∧
        match stored_progress db' DWalletScan with
        | None => from = ic_start_block cfg
        | Some (b', h') => b' = from - 1 ∧ ∃ parent, view_header archive b' = Ok (Some (h', parent))
        end
  end.

(** The second round, after a rewind to [r]. *)
Lemma resume_round archive db fuel r :
  0 ≤ r - 1 ≤ i64_max ∨ stored_progress db DWalletScan = None →
  (stored_progress db DWalletScan = None ∧ r = ic_start_block cfg ∨
   ∃ hash parent, stored_progress db DWalletScan = Some (r - 1, hash) ∧
     view_header archive (r - 1) = Ok (Some (hash, parent))) →
  ∃ res, resume_block_after_reorg (S fuel) archive db = Some (res, db) ∧ (∀ from, res = Ok from → from = r).
Proof.
  intros Hr Hp. cbn [resume_block_after_reorg]. destruct (wallet_scan_progress db) as [o|e] eqn:Ho; [|by eexists].
  apply wallet_scan_progress_Ok in Ho as ->. destruct Hp as [[Hn ->]|(hash & parent & Hp & Hv)].
  - rewrite Hn. cbn. eexists. split; [done|]. by intros from [= <-].
  - rewrite Hp in *. cbn. unfold fetch_block_header. rewrite Hv. cbn. rewrite decide_True by done.
    eexists. split; [done|]. intros from [= <-]. destruct Hr as [Hr|]; [|done].
    assert (i64_max < u64_max) by done. unfold saturating_add. lia.
Qed.

Lemma replay_from_bounds b : 0 ≤ ic_start_block cfg → ic_start_block cfg ≤ b → ic_start_block cfg ≤ replay_from b ≤ b.
Proof. unfold replay_from, saturating_sub. lia. Qed.

Lemma resume_correct archive db :
  resumable db →
  ∃ res db', resume_block_after_reorg RESUME_ROUNDS archive db = Some (res, db') ∧
    (progress_uniform db → progress_uniform db') ∧ resumable db' ∧
    ∀ from, res = Ok from → resume_post archive db db' from.
Proof.
  intros Hresum. destruct Hresum as [Hs0 Hprog Hhead] eqn:Hq. clear Hq. unfold RESUME_ROUNDS. cbn [resume_block_after_reorg].
  destruct (wallet_scan_progress db) as [o|e] eqn:Ho; [|by do 2 eexists]. apply wallet_scan_progress_Ok in Ho as ->.
  unfold resume_post. destruct (stored_progress db DWalletScan) as [[b h]|] eqn:Hp; cbn.
  2:{ do 2 eexists. split_and!; [done..|]. by intros from [= <-]. }
  pose proof (Hprog b h eq_refl) as Hb. pose proof (replay_from_bounds b Hs0 (proj1 Hb)) as Hrep.
  destruct (fetch_block_header archive b) as [hd|e] eqn:Hhd; [|by do 2 eexists].
  apply fetch_block_header_Ok in Hhd as (h' & parent & Hv & ->). cbn. case_decide as Hh.
  { do 2 eexists. split_and!; [done..|]. intros from [= <-]. exists h', parent. split; [done|]. rewrite decide_True by done.
    assert (i64_max < u64_max) by done. unfold saturating_add. split; [lia|done]. }
  destruct (rewind_transaction archive db (replay_from b)) as [db1|e] eqn:Hrw; [|by do 2 eexists].
  apply rewind_transaction_Ok in Hrw as (Hrows & Hhead1 & previous & Hprev & Htab); [|done|lia|by intros ->].
  assert (stored_progress db1 DWalletScan = previous) as Hp1.
  { rewrite Htab, rewind_progress_lookup. rewrite Hp. cbn. by rewrite decide_True by (split; [done|lia]). }
  destruct (resume_round archive db1 0 (replay_from b)) as (res & Hres & Hfrom).
  - destruct Hprev as [[_ ->]|(? & hash & pa & -> & _)]; [by right|left; lia].
  - destruct Hprev as [[? ->]|(? & hash & pa & -> & ?)]; [by left|right; by exists hash, pa].
  - exists res, db1. split; [exact Hres|]. split_and!.
    { intros Hu kind. rewrite Htab, !rewind_progress_lookup. cbn [fst]. by rewrite (Hu kind). }
    { split; [done| |by apply Hhead1]. rewrite Hp1. intros b' h'' ->.
      destruct Hprev as [[_ [=]]|(? & hash & pa & [= -> ->] & _)]. lia. }
    intros from ->%Hfrom. exists h', parent. split; [done|].
    rewrite decide_False by done. split_and!; [done|lia|done|]. cbn in Hp1. rewrite Hp1.
    destruct Hprev as [[? ->]|(? & hash & pa & -> & ?)]; [done|]. split; [done|by exists pa].
Qed.

Lemma resume_post_start archive db db' from :
  resumable db → resume_post archive db db' from → ic_start_block cfg ≤ from.
Proof.
  intros [Hs0 Hprog _]. unfold resume_post. destruct (stored_progress db DWalletScan) as [[b h]|] eqn:Hp; [|lia].
  pose proof (Hprog b h eq_refl). pose proof (replay_from_bounds b Hs0). intros (? & ? & _ & Hr). case_decide; lia.
Qed.

Lemma resume_post_progress archive db db' from :
  resume_post archive db db' from →
  stored_progress db' DWalletScan = None ∨ ∃ h, stored_progress db' DWalletScan = Some (from - 1, h).
Proof.
  unfold resume_post. destruct (stored_progress db DWalletScan) as [[b h]|] eqn:Hp; [|intros [_ ->]; by left].
  intros (h' & parent & _ & Hr). case_decide.
  - destruct Hr as [-> ->]. right. exists h. rewrite Hp. do 2 f_equal. lia.
  - destruct Hr as (_ & _ & _ & Hr). destruct (stored_progress db' DWalletScan) as [[b' h'']|]; [|by left].
    destruct Hr as [-> _]. right. by exists h''.
Qed.

(** ** The range transaction *)

(** Persisting rows leaves headers and progress alone. *)
Definition keeps (db db' : ChainDb) : Prop :=
  indexed_block_headers db' = indexed_block_headers db ∧
  chain_indexing_progress_table db' = chain_indexing_progress_table db.

Lemma keeps_fold {A} (f : ChainDb → A → sresult ChainDb) l db db' :
  (∀ db a db', f db a = Ok db' → keeps db db') → try_fold f db l = Ok db' → keeps db db'.
Proof.
  intros Hf Hr. apply (try_fold_inv (keeps db)) in Hr; [done| |done].
  intros d a d' _ [K1 K2] [K3 K4]%Hf. unfold keeps. split; congruence.
Qed.

Lemma record_source_keeps scope' db src db' : record_source_transaction scope' db src = Ok db' → keeps db db'.
Proof. unfold record_source_transaction. intros Hr. by apply bind_Ok in Hr as ([b c] & _ & [= <-]). Qed.

Ltac keeps_step :=
  intros ? ? ? Hr; apply bind_Ok in Hr as (? & Hs%record_source_keeps & Hr);
  repeat (apply bind_Ok in Hr as ([? ?] & _ & Hr) || apply bind_Ok in Hr as (? & _ & Hr)); injection Hr as <-; exact Hs.

Lemma persist_keeps db chain_type chain_id contract batch db' :
  persist_indexed_log_batch db chain_type chain_id contract batch = Ok db' → keeps db db'.
Proof.
  unfold persist_indexed_log_batch. intros Hr. apply bind_Ok in Hr as (sc & _ & Hr).
  apply bind_Ok in Hr as (d1 & K1 & Hr). apply bind_Ok in Hr as (d2 & K2 & Hr). apply bind_Ok in Hr as (d3 & K3 & Hr).
  apply bind_Ok in Hr as (d4 & K4 & Hr). apply bind_Ok in Hr as (d5 & K5 & K6).
  apply keeps_fold in K1; [|unfold persist_transact; keeps_step]. apply keeps_fold in K2; [|unfold persist_shield; keeps_step].
  apply keeps_fold in K3; [|unfold persist_nullifier; keeps_step]. apply keeps_fold in K4; [|unfold persist_legacy_encrypted; keeps_step].
  apply keeps_fold in K5; [|unfold persist_legacy_generated; keeps_step].
  apply keeps_fold in K6; [|unfold persist_public_transaction; intros ? ? ? Hr;
    repeat (apply bind_Ok in Hr as (? & _ & Hr)); injection Hr as <-; done].
  unfold keeps in *. destruct_and!. split; congruence.
Qed.

(** Two databases with the same rows. *)
Definition same_rows (db db' : ChainDb) : Prop :=
  indexed_transact_commitments db' = indexed_transact_commitments db ∧
  indexed_shield_commitments db' = indexed_shield_commitments db ∧
  indexed_nullifiers db' = indexed_nullifiers db ∧
  indexed_legacy_encrypted_commitments db' = indexed_legacy_encrypted_commitments db ∧
  indexed_legacy_generated_commitments db' = indexed_legacy_generated_commitments db ∧
  indexed_public_transactions db' = indexed_public_transactions db ∧
  indexed_public_txid_rows db' = indexed_public_txid_rows db.

Lemma same_rows_trans d1 d2 d3 : same_rows d1 d2 → same_rows d2 d3 → same_rows d1 d3.
Proof. unfold same_rows. intros Ha Hb. destruct_and!. split_and!; congruence. Qed.

Lemma dataset_kind_as_str_inj k k' : dataset_kind_as_str k = dataset_kind_as_str k' → k = k'.
Proof. by destruct k, k'. Qed.

(** Recording progress that does not go backwards. *)
Lemma record_progress_Ok db kind b h db' :
  (∀ b0 h0, stored_progress db kind = Some (b0, h0) → b0 ≤ b) →
  record_chain_indexing_progress db EVM_CHAIN (ic_chain_id cfg) (ic_railgun_contract cfg) kind b h = Ok db' →
  same_rows db db' ∧ indexed_block_headers db' = indexed_block_headers db ∧ b ≤ i64_max ∧
  chain_indexing_progress_table db' = <[(scope, dataset_kind_as_str kind) := (b, h)]> (chain_indexing_progress_table db).
Proof.
  unfold record_chain_indexing_progress, scope_of. intros Hle Hr. apply bind_Ok in Hr as (sc & Hs & Hr).
  apply bind_Ok in Hs as (c & [_ ->]%u64_to_i64_Ok & [= <-]). apply bind_Ok in Hr as (bb & [? ->]%u64_to_i64_Ok & [= <-]).
  destruct (stored_progress db kind) as [[b0 h0]|] eqn:Hp; [|done].
  rewrite decide_True by eauto. done.
Qed.

Lemma record_header_Ok db n h p db' :
  record_indexed_block_header db EVM_CHAIN (ic_chain_id cfg) n h p = Ok db' →
  same_rows db db' ∧ chain_indexing_progress_table db' = chain_indexing_progress_table db ∧
  indexed_block_headers db' = <[(EVM_CHAIN, ic_chain_id cfg, n) := (h, p)]> (indexed_block_headers db).
Proof.
  unfold record_indexed_block_header. intros Hr. apply bind_Ok in Hr as (c & [_ ->]%u64_to_i64_Ok & Hr).
  by apply bind_Ok in Hr as (b & [_ ->]%u64_to_i64_Ok & [= <-]).
Qed.

(** All the datasets' progress, written one after the other. *)
Lemma record_all_progress db b h db' :
  progress_uniform db → (∀ b0 h0, stored_progress db DWalletScan = Some (b0, h0) → b0 ≤ b) →
  try_fold (λ tx kind, record_chain_indexing_progress tx EVM_CHAIN (ic_chain_id cfg) (ic_railgun_contract cfg) kind b h)
    db DATASET_KIND_ALL = Ok db' →
  same_rows db db' ∧ indexed_block_headers db' = indexed_block_headers db ∧ b ≤ i64_max ∧
  ∀ kind, stored_progress db' kind = Some (b, h).
Proof.
  intros Hu Hle. unfold DATASET_KIND_ALL. cbn [try_fold]. intros Hr.
  apply bind_Ok in Hr as (d1 & (R1 & K1 & Hb & T1)%record_progress_Ok & Hr); [|eauto].
  apply bind_Ok in Hr as (d2 & (R2 & K2 & _ & T2)%record_progress_Ok & Hr);
    [|intros b0 h0; rewrite T1, lookup_insert_ne, (Hu DCommitments) by done; eauto].
  apply bind_Ok in Hr as (d3 & (R3 & K3 & _ & T3)%record_progress_Ok & Hr);
    [|intros b0 h0; rewrite T2, T1, !lookup_insert_ne, (Hu DMerkleCheckpoint) by done; eauto].
  apply bind_Ok in Hr as (d4 & (R4 & K4 & _ & T4)%record_progress_Ok & [= <-]);
    [|intros b0 h0; rewrite T3, T2, T1, !lookup_insert_ne, (Hu DPublicTxid) by done; eauto].
  split_and!; [exact (same_rows_trans _ _ _ R1 (same_rows_trans _ _ _ R2 (same_rows_trans _ _ _ R3 R4)))|congruence|done|].
  intros kind. rewrite T4, T3, T2, T1. destruct kind; rewrite ?lookup_insert_ne by done; apply lookup_insert_eq.
Qed.

(** A committed range [from..to]: the rows of its batch as the view has it, the
    header of [to], and the progress of every dataset. *)
Definition range_indexed (view : ChainView) (from to : Z) (fetched : nat) (db db' : ChainDb) : Prop :=
  ∃ hash parent logs batch rows,
    view_header view to = Ok (Some (hash, parent)) ∧
    range_batch view (mkRange EVM_CHAIN (ic_chain_id cfg) (ic_railgun_contract cfg) from to hash [mkHeader_ to hash parent]
      (ic_v2_start_block cfg) (ic_legacy_shield_block cfg) (ic_action_start_block cfg)) = Ok (logs, batch) ∧
    fetched = length logs ∧
    persist_indexed_log_batch db EVM_CHAIN (ic_chain_id cfg) (ic_railgun_contract cfg) batch = Ok rows ∧
    same_rows rows db' ∧ to ≤ i64_max ∧
    indexed_block_headers db' = <[(EVM_CHAIN, ic_chain_id cfg, to) := (hash, parent)]> (indexed_block_headers db) ∧
    ∀ kind, stored_progress db' kind = Some (to, hash).

Lemma index_range_Ok db view safe_head from to step db' :
  progress_uniform db → (∀ b0 h0, stored_progress db DWalletScan = Some (b0, h0) → b0 ≤ to) →
  index_chain_range_with_provider db view safe_head from to = Ok (step, db') →
  ∃ fetched, range_indexed view from to fetched db db' ∧ step = Indexed fetched (saturating_sub safe_head to).
Proof.
  intros Hu Hle Hr. unfold index_chain_range_with_provider in Hr.
  apply bind_Ok in Hr as (hd & (hash & parent & Hv & ->)%fetch_block_header_Ok & Hr).
  apply bind_Ok in Hr as ([oc d] & Hir & [= <- <-]). unfold index_chain_log_range in Hir.
  apply bind_Ok in Hir as ([logs batch] & Hb & Hir). apply map_err_Ok in Hb.
  apply bind_Ok in Hir as (tx & Htx & Hir). apply map_err_Ok in Htx.
  apply bind_Ok in Hir as (d' & Hc & [= <- <-]). unfold commit_chain in Hc. destruct commit_outcome; [done|]. injection Hc as <-.
  unfold range_transaction in Htx. cbn [rg_chain_type rg_chain_id rg_railgun_contract rg_indexed_block_headers rg_to_block
    rg_indexed_through_block_hash bh_block_number bh_block_hash bh_parent_hash] in Htx.
  apply bind_Ok in Htx as (rows & Hrows & Htx). pose proof (persist_keeps _ _ _ _ _ _ Hrows) as [Kh Kp].
  apply bind_Ok in Htx as (d1 & Hhd & Hpr). cbn [try_fold] in Hhd. apply bind_Ok in Hhd as (d2 & Hhd & [= <-]).
  apply record_header_Ok in Hhd as (R1 & Kp1 & Kh1).
  apply record_all_progress in Hpr as (R2 & Kh2 & Hi & Hall);
    [|intros kind; rewrite Kp1, Kp; apply Hu|intros b0 h0; rewrite Kp1, Kp; apply Hle].
  exists (length logs). split; [|done]. exists hash, parent, logs, batch, rows.
  split_and!; try done; [exact (same_rows_trans _ _ _ R1 R2)|by rewrite Kh2, Kh1, Kh].
Qed.

Lemma range_indexed_inv view from to fetched db db' :
  resumable db → ic_start_block cfg ≤ from ≤ to → range_indexed view from to fetched db db' →
  resumable db' ∧ progress_uniform db'.
Proof.
  intros [Hs0 _ Hh] Hft (hash & parent & logs & batch & rows & _ & _ & _ & _ & _ & Hi & Hhead & Hall). split.
  - split; [done| |].
    + intros b h. rewrite Hall. intros [= <- <-]. lia.
    + rewrite Hhead, lookup_insert_ne; [done|]. intros [=]. lia.
  - intros kind. by rewrite !Hall.
Qed.

(** How a step that returns ends. *)
Definition step_post (normal archive : ChainView) (mode : ChainIndexProviderMode) (span safe_head : Z)
    (db db' : ChainDb) (step : ChainIndexStep) : Prop :=
  ∃ db1 from, resume_post archive db db1 from ∧
    match step with
    | StepCaughtUp => safe_head < from ∧ db' = db1
    | Indexed fetched lag => ∃ to view,
        from ≤ to ≤ safe_head ∧ to < from + Z.max 1 span ∧ lag = safe_head - to ∧
        (view = archive ∨ mode = NormalWithArchiveFallback ∧ view = normal) ∧
        range_indexed view from to fetched db1 db'
    end.

Lemma index_chain_once_returns db normal archive span mode head :
  resumable db → progress_uniform db → 0 ≤ ic_safe_confirmations cfg → view_head normal = Ok head → head ≤ u64_max →
  ∃ res db', index_chain_once db normal archive span mode = Some (res, db') ∧
    resumable db' ∧ progress_uniform db' ∧
    ∀ step, res = Ok step →
      step_post normal archive mode span (saturating_sub head (ic_safe_confirmations cfg)) db db' step.
Proof.
  intros Hres Hu Hconf Hhead Hmax. unfold index_chain_once. rewrite Hhead.
  destruct (resume_correct archive db Hres) as (r & db1 & Hr & Hu1 & Hres1 & Hpost). rewrite Hr. cbn [mbind option_bind].
  specialize (Hu1 Hu). destruct r as [from|e]; [|by exists (Err e), db1].
  specialize (Hpost from eq_refl). pose proof (resume_post_start _ _ _ _ Hres Hpost) as Hstart.
  set (safe := saturating_sub head (ic_safe_confirmations cfg)). assert (safe ≤ u64_max) as Hsafe.
  { unfold safe, saturating_sub. assert (0 ≤ u64_max) by done. lia. }
  case_decide as Hlt.
  { exists (Ok StepCaughtUp), db1. split_and!; try done. intros step [= <-]. by exists db1, from. }
  set (to := Z.min (saturating_add u64_max from (saturating_sub span 1)) safe).
  assert (from ≤ to ≤ safe ∧ to < from + Z.max 1 span) as [Hto Hspan].
  { unfold to, saturating_add, saturating_sub. lia. }
  assert (∀ view step db', (view = archive ∨ mode = NormalWithArchiveFallback ∧ view = normal) →
    index_chain_range_with_provider db1 view safe from to = Ok (step, db') →
    resumable db' ∧ progress_uniform db' ∧ step_post normal archive mode span safe db db' step) as Hok.
  { intros view step db' Hview Hix. apply index_range_Ok in Hix as (fetched & Hri & ->); [|done|].
    - destruct (range_indexed_inv _ _ _ _ _ _ Hres1 (conj Hstart (proj1 Hto)) Hri) as [? ?]. split_and!; [done..|].
      exists db1, from. split; [done|]. exists to, view. split_and!; try done; try lia. unfold saturating_sub. lia.
    - destruct (resume_post_progress _ _ _ _ Hpost) as [->|[h ->]]; [done|]. intros b0 h0 [= <- <-]. lia. }
  assert (∀ r, (∀ step db', r = Ok (step, db') →
      resumable db' ∧ progress_uniform db' ∧ step_post normal archive mode span safe db db' step) →
    ∃ res db', Some (keep_db db1 r) = Some (res, db') ∧ resumable db' ∧ progress_uniform db' ∧
      ∀ step, res = Ok step → step_post normal archive mode span safe db db' step) as Hkeep.
  { intros [[step db']|e] Hr'; [|by exists (Err e), db1].
    destruct (Hr' _ _ eq_refl) as (? & ? & ?). exists (Ok step), db'. split_and!; try done. by intros ? [= <-]. }
  apply Hkeep. intros step db'. destruct mode; [apply Hok; by left|].
  destruct (index_chain_range_with_provider db1 normal safe from to) as [[st d]|e] eqn:Hn.
  - intros [= <- <-]. eapply Hok; [by right|done].
  - apply Hok. by left.
Qed.

(** Where the loop does not end: the stored progress is before the start block
    and its hash is not the chain's. The replay block is the start block, its
    rewind does not touch a progress below it, and every round finds the same
    mismatch. *)
Lemma resume_never_ends fuel archive db b h remote :
  commit_outcome = None → ic_chain_id cfg ≤ i64_max → 0 ≤ b < ic_start_block cfg → ic_start_block cfg ≤ i64_max →
  stored_progress db DWalletScan = Some (b, h) → fetch_block_header archive b = Ok remote → bh_block_hash remote ≠ h →
  resume_block_after_reorg fuel archive db = None.
Proof.
  intros Hcommit Hc Hb Hs Hp Hremote Hne. revert db Hp. induction fuel as [|fuel IH]; intros db Hp; [done|]. cbn [resume_block_after_reorg].
  assert (wallet_scan_progress db = Ok (Some (mkProgress b h))) as ->.
  { unfold wallet_scan_progress, chain_indexing_progress, scope_of, u64_to_i64. rewrite decide_True by done. cbn [mbind result_bind].
    rewrite Hp. unfold i64_to_u64. by rewrite decide_True by lia. }
  cbn [indexed_through_block indexed_through_block_hash]. rewrite Hremote, decide_False by done.
  assert (replay_from b = ic_start_block cfg) as -> by (unfold replay_from, saturating_sub; lia).
  unfold rewind_transaction. rewrite decide_False by lia. cbn [mbind result_bind].
  destruct (rewind_Ok db EVM_CHAIN (ic_chain_id cfg) (ic_railgun_contract cfg) (ic_start_block cfg) Hc Hs) as (rw & d & -> & Hd).
  cbn [map_err mbind result_bind]. unfold commit_chain. rewrite Hcommit. apply IH. rewrite (rw_progress _ _ _ _ _ _ _ Hd), Hp. cbn.
  by rewrite decide_False by (intros [_ ?]; lia).
Qed.

(** C35. One step of a chain's indexing loop, from a database whose datasets are
    at one block and which is resumable (the stored progress is at or after the
    start block, and no header of the block before the start block is stored,
    as in an empty database): it always returns (two rounds of the resume loop
    are enough) and leaves such a database, also when it fails. Without the
    second condition a fork below the start block makes the resume loop endless
    ([fork_below_start_never_resumes]). When it succeeds the range
    starts right after the stored progress, or at the replay block of a
    reorganisation after the rows from there on were deleted; it ends at or
    before the safe head and spans at most the requested blocks; the rows
    committed are those of the chain's logs in the range, and every dataset's
    progress is the last block of the range with its hash. *)
Theorem index_chain_once_correct db normal archive span mode head :
  resumable db → progress_uniform db → 0 ≤ ic_safe_confirmations cfg → view_head normal = Ok head → head ≤ u64_max →
  ∃ res db', index_chain_once db normal archive span mode = Some (res, db') ∧
    resumable db' ∧ progress_uniform db' ∧
    ∀ step, res = Ok step →
      step_post normal archive mode span (saturating_sub head (ic_safe_confirmations cfg)) db db' step.
Proof. apply index_chain_once_returns. Qed.
End indexer.

(** ** Batch spans of the loop ([run_chain_indexing_loop]) *)
Definition MIN_INDEXING_BATCH_BLOCKS : Z := 1000.
Record SpanState := mkSpan { historical_catch_up_complete : bool; batch_span : Z; max_batch_span : Z }.
Definition span_start (configured : Z) : SpanState := mkSpan false configured configured.
Definition min_batch_span (configured : Z) : Z := Z.min (Z.max configured 1) MIN_INDEXING_BATCH_BLOCKS.
Definition requested_batch_span (tail_batch_span : Z) (st : SpanState) : Z :=
  if historical_catch_up_complete st then tail_batch_span else batch_span st.

Inductive StepResult := SIndexed (fetched_log_count : nat) (indexing_lag_blocks : Z) | SCaughtUp | SFailed (block_range_too_large : bool).
Definition span_step (configured : Z) (st : SpanState) (r : StepResult) : SpanState :=
  match r with
  | SIndexed fetched lag =>
      let span :=
        if negb (historical_catch_up_complete st) && bool_decide (fetched = 0%nat) &&
           bool_decide (batch_span st < max_batch_span st)
        then Z.min (saturating_mul u64_max (batch_span st) 2) (max_batch_span st) else batch_span st in
      if decide (lag = 0) then mkSpan true (max_batch_span st) (max_batch_span st)
      else mkSpan (historical_catch_up_complete st) span (max_batch_span st)
  | SCaughtUp => mkSpan true (max_batch_span st) (max_batch_span st)
  | SFailed too_large =>
      if historical_catch_up_complete st then st
      else
        let next := Z.max (batch_span st / 2) (min_batch_span configured) in
        let max := if too_large then Z.min (max_batch_span st) next else max_batch_span st in
        mkSpan false (Z.min next max) max
  end.

(** The spans stay between the smallest batch and the configured one. *)
Record span_ok (configured : Z) (st : SpanState) : Prop := {
  so_min : min_batch_span configured ≤ batch_span st;
  so_span : batch_span st ≤ max_batch_span st;
  so_max : max_batch_span st ≤ configured;
}.
Lemma min_batch_span_bounds configured : 1 ≤ configured → 1 ≤ min_batch_span configured ≤ configured.
Proof. unfold min_batch_span, MIN_INDEXING_BATCH_BLOCKS. lia. Qed.

Lemma half_le b : 0 ≤ b → b / 2 ≤ b.
Proof. intros. apply Z.div_le_upper_bound; lia. Qed.

Lemma span_failed configured st b :
  historical_catch_up_complete st = false → 1 ≤ configured ≤ u64_max → span_ok configured st →
  historical_catch_up_complete (span_step configured st (SFailed b)) = false ∧
  batch_span (span_step configured st (SFailed b)) = Z.max (batch_span st / 2) (min_batch_span configured).
Proof.
  intros Hh Hc [Hmin Hspan Hmax]. pose proof (min_batch_span_bounds configured (proj1 Hc)). cbn. rewrite Hh. cbn.
  split; [done|]. pose proof (half_le (batch_span st)). destruct b; lia.
Qed.

Lemma span_step_ok configured st r :
  1 ≤ configured ≤ u64_max → span_ok configured st → span_ok configured (span_step configured st r).
Proof.
  intros Hc Hok. destruct (historical_catch_up_complete st) eqn:Hh, r as [fetched lag| |b].
  3: by cbn; rewrite Hh.
  5: { destruct (span_failed configured st b Hh Hc Hok) as [_ Hb]. destruct Hok.
       pose proof (min_batch_span_bounds configured (proj1 Hc)). pose proof (half_le (batch_span st)).
       split; rewrite ?Hb; cbn; rewrite ?Hh; cbn; [lia|destruct b; lia|destruct b; lia]. }
  all: destruct Hok; pose proof (min_batch_span_bounds configured (proj1 Hc)); split; cbn; rewrite ?Hh; cbn;
    unfold saturating_mul; repeat (case_decide || case_bool_decide || case_match); cbn; lia.
Qed.

(** The batch span of the historical catch-up: whatever the outcomes of the
    steps so far, it is at least one block (the smaller of the configured span
    and a thousand) and at most the configured span. Failures halve it: after
    [n] failures in a row it is the span divided by 2^n, or the smallest span
    if that is more, so a provider's range limit is met after logarithmically
    many retries. *)
Theorem batch_span_adapts configured results failures :
  1 ≤ configured ≤ u64_max →
  let st := foldl (span_step configured) (span_start configured) results in
  let st' := foldl (span_step configured) st (SFailed <$> failures) in
  1 ≤ min_batch_span configured ≤ batch_span st ∧ batch_span st ≤ max_batch_span st ≤ configured ∧
  (historical_catch_up_complete st = false →
   batch_span st' = Z.max (batch_span st / 2 ^ Z.of_nat (length failures)) (min_batch_span configured)).
Proof.
  intros Hc st. assert (span_ok configured st) as Hok.
  { unfold st. clear st. assert (span_ok configured (span_start configured)) as Hst.
    { pose proof (min_batch_span_bounds configured (proj1 Hc)). split; cbn; lia. }
    revert Hst. generalize (span_start configured) as s. induction results as [|r rs IH]; intros s Hs; cbn; [done|].
    apply IH. by apply span_step_ok. }
  pose proof (min_batch_span_bounds configured (proj1 Hc)). split_and!; [by destruct Hok; lia..|].
  clearbody st. revert st Hok. induction failures as [|b bs IH]; intros st Hok Hh; cbn [fmap list_fmap foldl length].
  { destruct Hok. rewrite Z.div_1_r. lia. }
  destruct (span_failed configured st b Hh Hc Hok) as [Hh' Hb].
  specialize (IH _ (span_step_ok _ _ (SFailed b) Hc Hok) Hh'). cbv zeta in IH. rewrite IH, Hb.
  rewrite Nat2Z.inj_succ, Z.pow_succ_r, <- Z.div_div by lia.
  set (m := min_batch_span configured) in *. assert (0 < 2 ^ Z.of_nat (length bs)) as Hp by lia.
  set (p := 2 ^ Z.of_nat (length bs)) in *. destruct (Z.max_spec (batch_span st / 2) m) as [[Hlt ->]|[_ ->]]; [|done].
  assert (m / p ≤ m) by (apply Z.div_le_upper_bound; nia).
  assert (batch_span st / 2 / p ≤ m / p) by (apply Z.div_le_mono; lia). lia.
Qed.
Lemma batch_span_adapts_witness :
  let st := foldl (span_step 50000) (span_start 50000) [SIndexed 3 100000; SFailed true] in
  batch_span st = 25000 ∧ batch_span (foldl (span_step 50000) st (SFailed <$> [true; false; false])) = 3125.
Proof.
  split; [vm_compute; reflexivity|].
  assert (1 ≤ 50000 ≤ u64_max) as Hc by solve_u.
  exact (proj2 (proj2 (batch_span_adapts 50000 [SIndexed 3 100000; SFailed true] [true; false; false] Hc)) eq_refl).
Defined.

(** ** A step on a small chain *)
Definition toy_index_config : ChainIndexConfig := mkIndexConfig 1 192 10 10 10 None 100 2.
Definition toy_chain (fork : Z) : ChainView :=
  mkView (λ _, Ok []) toy_provider (λ n, Ok (Some (1000 * fork + n, 1000 * fork + n - 1))) (Ok 30).
Definition toy_index_once (db : ChainDb) (fork : Z) :=
  @index_chain_once toy_types toy_contract toy_persist toy_calldata toy_hex toy_tree toy_visit None toy_index_config
    db (toy_chain fork) (toy_chain fork) 8 Archive.
Definition toy_indexed : ChainDb :=
  match toy_index_once empty_chain_db 0 with Some (_, db) => db | None => empty_chain_db end.

Lemma index_chain_once_correct_witness :
  ∃ res db',
    toy_index_once toy_indexed 1 = Some (res, db') ∧ resumable toy_index_config db' ∧ progress_uniform toy_index_config db'.
Proof.
  assert (∀ kind, chain_indexing_progress_table toy_indexed !! (0, 1, 192, dataset_kind_as_str kind) = Some (17, 17)) as Hp.
  { intros []; vm_compute; reflexivity. }
  destruct (index_chain_once_correct (H := toy_types) (H0 := toy_contract) (H1 := toy_persist) (H2 := toy_calldata)
    (H3 := toy_hex) (H4 := toy_tree) toy_visit None toy_index_config toy_indexed (toy_chain 1) (toy_chain 1) 8 Archive 30)
    as (res & db' & Hr & Hres & Hu & _).
  - split; [by vm_compute| |vm_compute; reflexivity]. intros b h Hbh.
    pose proof (eq_trans (eq_sym (Hp DWalletScan)) Hbh) as [= <- <-]. solve_u.
  - intros kind. exact (eq_trans (Hp kind) (eq_sym (Hp DWalletScan))).
  - by vm_compute.
  - reflexivity.
  - by vm_compute.
  - exists res, db'. split; [exact Hr|]. split; [exact Hres|exact Hu].
Defined.
Example toy_reorg :
  match toy_index_once toy_indexed 1 with
  | Some (Ok (Indexed n lag), db') => Some (n, lag, chain_indexing_progress_table db' !! (0, 1, 192, "public_txid"%string))
  | _ => None
  end = Some (0%nat, 11, Some (17, 1017)).
Proof. vm_compute. reflexivity. Qed.

(** Another contract of the chain, from block 2 on, leaves the header of block 9,
    the one before this contract's start. When the chain then forks below
    block 9, the first rewind goes back to that stale header, and the resume
    loop of this contract runs for ever. *)
Definition toy_other_config : ChainIndexConfig := mkIndexConfig 1 193 2 2 2 None 100 2.
Definition toy_index_as (cfg : ChainIndexConfig) (db : ChainDb) : ChainDb :=
  match @index_chain_once toy_types toy_contract toy_persist toy_calldata toy_hex toy_tree toy_visit None cfg db (toy_chain 0) (toy_chain 0) 8 Archive with
  | Some (_, db) => db
  | None => empty_chain_db
  end.
Definition toy_two_contracts : ChainDb := toy_index_as toy_index_config (toy_index_as toy_other_config empty_chain_db).
Example fork_below_start_never_resumes fuel :
  resume_block_after_reorg None toy_index_config fuel (toy_chain 1) toy_two_contracts = None.
Proof.
  destruct fuel as [|fuel]; [reflexivity|].
  transitivity (match rewind_transaction None toy_index_config (toy_chain 1) toy_two_contracts 10 with
    | Ok db => resume_block_after_reorg None toy_index_config fuel (toy_chain 1) db | Err e => Some (Err e, toy_two_contracts) end); [reflexivity|].
  destruct (rewind_transaction None toy_index_config (toy_chain 1) toy_two_contracts 10) as [db|e] eqn:Hdb.
  - apply (resume_never_ends _ _ _ _ _ 9 9 (mkHeader_ 9 1009 1008)); try done.
    apply (f_equal (λ r, match r with Ok db => chain_indexing_progress_table db !! (EVM_CHAIN, 1, 192, dataset_kind_as_str DWalletScan) | Err _ => None end)) in Hdb.
    etrans; [symmetry; exact Hdb|]. vm_compute. reflexivity.
  - apply (f_equal is_ok) in Hdb. vm_compute in Hdb. discriminate Hdb.
Qed.
