(* ===== verification/IndexingLoop.v ===== *)
(** * The indexing loop of a chain ([chain_indexed.rs])

    [run_chain_indexing_loop]: steps with adaptive batch spans until the chain is
    caught up, then steps at the tail, woken by a websocket log, the safety
    interval or an error's pause, until shutdown. Every wait is given by what ends
    it; every step by what the nodes and the commit answer. *)

From S2P Require Import Prelude Order Wire Ipfs Artifacts MerkleCheckpointChunk ChainLogs LogFilters ActionFrames.
From S2P Require Import ActionGrammar OutputMatch Calldata Traces Hydrate PoiStore ChainStore ChainIndexer.

(** ** Waits *)
(** The branch of a [select!] that ends a wait, and the shutdown flag then. *)
Inductive Branch := Timer | Changed | SenderDropped.
Record Wake := mkWake { wk_branch : Branch; wk_flag : bool }.
Definition shutdown_changed_or_requested (w : Wake) : bool := match wk_branch w with SenderDropped => true | _ => wk_flag w end.
Definition sleep_or_shutdown (duration : Z) (w : Wake) : bool :=
  if decide (duration = 0) then wk_flag w
  else match wk_branch w with Timer => wk_flag w | _ => shutdown_changed_or_requested w end.

(** Polling the head until the block of a log is safe: each poll is the answer of
    the node and the end of the sleep after it; [None] is still polling. *)
Fixpoint wait_for_ws_log_finality (safe_confirmations log_block poll_interval : Z) (polls : list (result string Z * Wake))
    : option (result string bool) :=
  match polls with
  | [] => None
  | (Err e, _) :: _ => Some (Err e)
  | (Ok head, w) :: polls =>
      if decide (log_block ≤ saturating_sub head safe_confirmations) then Some (Ok false)
      else if sleep_or_shutdown poll_interval w then Some (Ok true)
      else wait_for_ws_log_finality safe_confirmations log_block poll_interval polls
  end.
(** The wait for a log ends without shutdown only once its block is safe, so the
    step it starts reaches that block. *)
Lemma finality_wake_safe safe_confirmations log_block poll_interval polls :
  wait_for_ws_log_finality safe_confirmations log_block poll_interval polls = Some (Ok false) →
  ∃ head w, (Ok head, w) ∈ polls ∧ log_block ≤ saturating_sub head safe_confirmations.
Proof.
  induction polls as [|[[head|e] w] polls IH]; cbn; [done| |done]. case_decide; [intros _; exists head, w; by split; [left|]|].
  destruct (sleep_or_shutdown _ _); [done|]. intros (h & w' & ? & ?)%IH. exists h, w'. by split; [right|].
Qed.
(** How the wait with a subscription goes. *)
Inductive WsWait :=
  | WsFailed (e : string)
  | WsEnds (w : Wake)
  (** a log, with its block number, or the end of the stream *)
  | WsLog (log : option (option Z)) (polls : list (result string Z * Wake)).
Definition wait_for_ws_log_or_safety_interval (safe_confirmations finality_poll_interval : Z) (ws : WsWait) : option (result string bool) :=
  match ws with
  | WsFailed e => Some (Err e)
  | WsEnds w => Some (Ok match wk_branch w with Timer => wk_flag w | _ => shutdown_changed_or_requested w end)
  | WsLog None _ => Some (Err "chain-indexed websocket log stream ended"%string)
  | WsLog (Some None) _ => Some (Ok false)
  | WsLog (Some (Some block_number)) polls => wait_for_ws_log_finality safe_confirmations block_number finality_poll_interval polls
  end.
(** The wait at the tail: the subscription, if there is one, and the sleep that
    replaces it or follows its failure. *)
Definition wait_for_tail_wakeup (safe_confirmations tail_safety_interval finality_poll_interval : Z) (ws : option WsWait) (w : Wake) : option bool :=
  match ws with
  | None => Some (sleep_or_shutdown tail_safety_interval w)
  | Some ws =>
      r ← wait_for_ws_log_or_safety_interval safe_confirmations finality_poll_interval ws;
      Some (match r with Ok shutdown => shutdown | Err _ => sleep_or_shutdown tail_safety_interval w end)
  end.

(** ** The loop *)
Record LoopConfig := mkLoopConfig {
  lc_index_interval : Z;
  lc_tail_safety_interval : Z;
  lc_max_blocks_per_batch : Z;
  lc_tail_safety_block_span : Z;
}.
(** What one round meets. *)
Record Round := mkRound {
  rd_shutdown : bool;
  rd_normal : ChainView;
  rd_archive : ChainView;
  rd_commit : option StoreError;
  rd_ws : option WsWait;
  rd_wake : Wake;
}.
Inductive LoopStatus := Looping | StillWaiting | Stopped.
Record Loop := mkLoop { lp_db : ChainDb; lp_span : SpanState; lp_status : LoopStatus }.

Section loop.
Context `{PoiTypes} `{PersistCrate} `{CalldataCrate} `{HexStrings} `{TreeCrate}.
Context (visit : gmap Z TransactOutputSummary → list TransactOutputSummary).
Context (cfg : ChainIndexConfig) (lc : LoopConfig).
(** the search for "block range is too large" in the rendered error chain *)
Context (is_block_range_too_large : ChainIndexingError → bool).

Definition after_wait (shutdown : option bool) : LoopStatus :=
  match shutdown with Some true => Stopped | Some false => Looping | None => StillWaiting end.
Definition tail_wait (rd : Round) : LoopStatus :=
  after_wait (wait_for_tail_wakeup (ic_safe_confirmations cfg) (lc_tail_safety_interval lc) (lc_index_interval lc) (rd_ws rd) (rd_wake rd)).
Definition provider_mode (span : SpanState) : ChainIndexProviderMode :=
  if historical_catch_up_complete span then NormalWithArchiveFallback else Archive.
Definition round_step (rd : Round) (lp : Loop) : option (iresult ChainIndexStep * ChainDb) :=
  index_chain_once visit (rd_commit rd) cfg (lp_db lp) (rd_normal rd) (rd_archive rd)
    (requested_batch_span (lc_tail_safety_block_span lc) (lp_span lp)) (provider_mode (lp_span lp)).
Definition loop_round (lp : Loop) (rd : Round) : Loop :=
  match lp_status lp with
  | Looping =>
      if rd_shutdown rd then mkLoop (lp_db lp) (lp_span lp) Stopped
      else
        let step r := span_step (lc_max_blocks_per_batch lc) (lp_span lp) r in
        match round_step rd lp with
        | Some (Ok (Indexed fetched lag), db) =>
            mkLoop db (step (SIndexed fetched lag)) (if decide (lag = 0) then tail_wait rd else Looping)
        | Some (Ok StepCaughtUp, db) => mkLoop db (step SCaughtUp) (tail_wait rd)
        | Some (Err e, db) =>
            mkLoop db (step (SFailed (is_block_range_too_large e))) (after_wait (Some (sleep_or_shutdown (lc_index_interval lc) (rd_wake rd))))
        | None => mkLoop (lp_db lp) (lp_span lp) StillWaiting
        end
  | _ => lp
  end.
(** [checked_interval] of both intervals comes first. *)
Definition run_chain_indexing_loop (rounds : list Round) (db : ChainDb) : result string Loop :=
  if decide (lc_index_interval lc = 0) then Err "chain_indexed.index_interval must be greater than zero"%string
  else if decide (lc_tail_safety_interval lc = 0) then Err "chain_indexed.tail_safety_interval must be greater than zero"%string
  else Ok (foldl loop_round (mkLoop db (span_start (lc_max_blocks_per_batch lc)) Looping) rounds).

(** ** Catching up *)
(** A round whose step ran and succeeded, and how many of the rounds do. *)
Definition round_succeeds (lp : Loop) (rd : Round) : bool :=
  match lp_status lp, rd_shutdown rd, round_step rd lp with Looping, false, Some (Ok _, _) => true | _, _, _ => false end.
Fixpoint successes (lp : Loop) (rounds : list Round) : Z :=
  match rounds with
  | [] => 0
  | rd :: rounds => Z.b2z (round_succeeds lp rd) + successes (loop_round lp rd) rounds
  end.

Abbreviation scope := (EVM_CHAIN, ic_chain_id cfg, ic_railgun_contract cfg).
Abbreviation stored_progress db kind := (chain_indexing_progress_table db !! (scope, dataset_kind_as_str kind)).
(** The first block a dataset has not indexed. *)
Definition next_block (db : ChainDb) (kind : IndexedDatasetKind) : Z :=
  match stored_progress db kind with None => ic_start_block cfg | Some (b, _) => b + 1 end.

Section catching_up.
(** One chain, whose head the nodes see between [lo] and [hi]: a node answers with
    it or fails. *)
Context (chain : Z → option (Z * Z)) (lo hi : Z).
Definition serves (rd : Round) : Prop :=
  (∀ n header, view_header (rd_archive rd) n = Ok (Some header) → chain n = Some header) ∧
  (∀ head, view_head (rd_normal rd) = Ok head → lo ≤ head ≤ hi).
Abbreviation safe head := (saturating_sub head (ic_safe_confirmations cfg)).
(** The stored progress is a block of the chain. *)
Definition agrees (db : ChainDb) : Prop :=
  match stored_progress db DWalletScan with None => True | Some (b, h) => ∃ parent, chain b = Some (h, parent) end.

Lemma resume_agrees rd db : serves rd → resumable cfg db → agrees db →
  ∃ r, resume_block_after_reorg (rd_commit rd) cfg RESUME_ROUNDS (rd_archive rd) db = Some (r, db).
Proof.
  intros [Hs _] Hres Ha. unfold RESUME_ROUNDS. cbn [resume_block_after_reorg].
  destruct (wallet_scan_progress cfg db) as [o|e] eqn:Ho; [|by eexists].
  apply wallet_scan_progress_Ok in Ho as ->. unfold agrees in Ha.
  destruct (stored_progress db DWalletScan) as [[b h]|]; cbn; [|by eexists]. destruct Ha as [parent Hv].
  destruct (fetch_block_header (rd_archive rd) b) as [hd|e] eqn:Hf; [|by eexists].
  apply fetch_block_header_Ok in Hf as (h' & p' & Hf%Hs & ->). assert (h' = h) as -> by congruence.
  rewrite decide_True by done. by eexists.
Qed.
(** A failed step on the chain's own progress writes nothing. *)
Lemma failed_keeps rd lp e db' : serves rd → resumable cfg (lp_db lp) → agrees (lp_db lp) →
  round_step rd lp = Some (Err e, db') → db' = lp_db lp.
Proof.
  intros Hs Hres Ha Hr. unfold round_step, index_chain_once in Hr. destruct (view_head _); [|by simplify_eq].
  destruct (resume_agrees rd (lp_db lp) Hs Hres Ha) as (r & Hrs). rewrite Hrs in Hr. cbn [mbind option_bind] in Hr.
  destruct r as [from|e']; [|by simplify_eq]. case_decide; [by simplify_eq|]. unfold keep_db in Hr.
  destruct (provider_mode _); repeat case_match; by simplify_eq.
Qed.
(** A successful step on the archive's chain: it reached the safe head, or went on
    by at least one block and agrees with the chain. *)
Lemma step_advances rd span safe db db' step : serves rd → resumable cfg db →
  step_post visit cfg (rd_normal rd) (rd_archive rd) Archive span safe db db' step →
  match step with
  | StepCaughtUp => safe < next_block db' DWalletScan
  | Indexed _ lag => ∃ to, lag = safe - to ∧ next_block db' DWalletScan = to + 1 ∧ to ≤ safe ∧ agrees db' ∧
      ic_start_block cfg ≤ to ∧ (agrees db → next_block db DWalletScan ≤ to)
  end.
Proof.
  intros [Hs _] Hres (db1 & from & Hpost & Hstep). pose proof (resume_post_start cfg _ _ _ _ Hres Hpost) as Hstart.
  destruct step as [fetched lag|].
  - destruct Hstep as (to & view & Hto & _ & -> & Hview & Hri). destruct Hview as [->|[? _]]; [|done].
    destruct Hri as (hash & parent & logs & batch & rows & Hv%Hs & _ & _ & _ & _ & _ & _ & Hall). specialize (Hall DWalletScan).
    exists to. unfold next_block, agrees. rewrite Hall. split_and!; [done|done|lia|by eexists|lia|].
    intros Ha. unfold resume_post in Hpost. destruct (stored_progress db DWalletScan) as [[b h]|]; [|lia].
    destruct Hpost as (h' & p' & Hv'%Hs & Hpost). destruct Ha as [p Hp]. assert (h' = h) as -> by congruence.
    rewrite decide_True in Hpost by done. lia.
  - destruct Hstep as [Hlt ->]. unfold next_block. destruct (resume_post_progress cfg _ _ _ _ Hpost) as [Hn|[h Hn]]; rewrite Hn; [|lia].
    unfold resume_post in Hpost. destruct (stored_progress db DWalletScan) as [[b h]|] eqn:Hp; [|lia].
    destruct Hpost as (h' & p' & Hv' & Hpost). case_decide; [destruct Hpost as [-> ->]; by rewrite Hp in Hn|].
    rewrite Hn in Hpost. lia.
Qed.

(** The loop after [s] successful steps, still catching up. *)
Record behind (s : Z) (lp : Loop) : Prop := {
  bh_resumable : resumable cfg (lp_db lp);
  bh_uniform : progress_uniform cfg (lp_db lp);
  bh_span : historical_catch_up_complete (lp_span lp) = false;
  bh_progress : s = 0 ∨ 0 < s ∧ agrees (lp_db lp) ∧ ic_start_block cfg + s ≤ next_block (lp_db lp) DWalletScan ≤ safe hi;
}.
Definition caught_up (lp : Loop) : Prop :=
  historical_catch_up_complete (lp_span lp) = true ∧ ∀ kind, safe lo < next_block (lp_db lp) kind.

Context (confirmations : 0 ≤ ic_safe_confirmations cfg) (hi_fits : hi ≤ u64_max).

Lemma uniform_next db kind : progress_uniform cfg db → next_block db kind = next_block db DWalletScan.
Proof. intros Hu. unfold next_block. by rewrite (Hu kind). Qed.
Lemma failed_span c sp b : historical_catch_up_complete sp = false → historical_catch_up_complete (span_step c sp (SFailed b)) = false.
Proof. intros Hs. cbn. by rewrite Hs. Qed.

Lemma round_progress s lp rd : behind s lp → 0 ≤ s → serves rd →
  behind (s + Z.b2z (round_succeeds lp rd)) (loop_round lp rd) ∨ caught_up (loop_round lp rd).
Proof.
  intros Hb Hs0 Hs. pose proof Hb as [Hres Hu Hspan Hprog]. unfold loop_round, round_succeeds.
  destruct (lp_status lp) eqn:Hst; [|left; by rewrite Z.add_0_r..].
  destruct (rd_shutdown rd); [left; rewrite Z.add_0_r; by split|].
  destruct (view_head (rd_normal rd)) as [head|e] eqn:Hhead.
  2: { unfold round_step, index_chain_once. rewrite Hhead. left. rewrite Z.add_0_r. split; try done. by apply failed_span. }
  destruct Hs as [Hs1 Hs2]. pose proof (Hs2 head Hhead) as Hrange. pose proof (conj Hs1 Hs2 : serves rd) as Hs.
  destruct (index_chain_once_returns visit (rd_commit rd) cfg (lp_db lp) (rd_normal rd) (rd_archive rd)
    (requested_batch_span (lc_tail_safety_block_span lc) (lp_span lp)) (provider_mode (lp_span lp)) head)
    as (res & db' & Hr & Hres' & Hu' & Hpost); try done; [lia|].
  fold (round_step rd lp) in Hr. rewrite Hr. destruct res as [step|e]; cycle 1.
  { left. rewrite Z.add_0_r. split; cbn [lp_db lp_span]; try done; [by apply failed_span|].
    destruct Hprog as [?|(? & Ha & ?)]; [by left|]. apply failed_keeps in Hr as ->; auto. }
  specialize (Hpost step eq_refl). unfold provider_mode in Hpost. rewrite Hspan in Hpost.
  apply step_advances in Hpost; [|done..].
  assert (safe lo ≤ safe head ≤ safe hi) as Hsafe by (unfold saturating_sub; lia).
  destruct step as [fetched lag|].
  - destruct Hpost as (to & -> & Hn & Hto & Ha & Hst' & Hadv). case_decide.
    + right. split; cbn [lp_db lp_span span_step]; [by rewrite decide_True by done|]. intros kind. rewrite (uniform_next db' kind Hu'). lia.
    + left. split; cbn [lp_db lp_span span_step]; try done; [by rewrite decide_False by done|].
      right. split; [|split; [done|]]; cbn [Z.b2z]; [lia|]. destruct Hprog as [->|(? & Ha' & ?)]; [lia|specialize (Hadv Ha'); lia].
  - right. split; cbn [lp_db lp_span span_step]; [done|]. intros kind. rewrite (uniform_next db' kind Hu'). lia.
Qed.

Lemma catches_up rounds : ∀ s lp, behind s lp → 0 ≤ s → Forall serves rounds →
  Z.max 0 (safe hi - ic_start_block cfg) < s + successes lp rounds →
  ∃ k, caught_up (foldl loop_round lp (take k rounds)).
Proof.
  induction rounds as [|rd rounds IH]; intros s lp Hb Hs0 Hall Hlt; cbn [successes] in Hlt.
  { destruct (bh_progress _ _ Hb) as [->|(? & _ & ?)]; lia. }
  apply Forall_cons in Hall as [Hs Hall]. destruct (round_progress s lp rd Hb Hs0 Hs) as [Hb'|Hc]; [|by exists 1%nat].
  destruct (IH _ _ Hb') as [k Hk]; [destruct (round_succeeds lp rd); cbn; lia|done|lia|]. by exists (S k).
Qed.
End catching_up.
End loop.

(** C36. The indexing loop catches up. The nodes serve one chain, answering with its
    blocks and a head between [lo] and [hi] or failing at any point; the commits may
    fail too, and the stored progress may be of another fork. Once more steps have
    succeeded than the chain has safe blocks from the start block, the loop has
    passed a point where the catch-up is complete and every dataset is past the safe
    head of [lo]: each success indexes at least one block, and a failure loses none
    of them. *)
Theorem indexing_loop_catches_up `{PoiTypes} `{PersistCrate} `{CalldataCrate} `{HexStrings} `{TreeCrate}
    visit cfg lc too_large (chain : Z → option (Z * Z)) (lo hi : Z) rounds db :
  lc_index_interval lc ≠ 0 → lc_tail_safety_interval lc ≠ 0 → 0 ≤ ic_safe_confirmations cfg → hi ≤ u64_max →
  resumable cfg db → progress_uniform cfg db → Forall (serves chain lo hi) rounds →
  Z.max 0 (saturating_sub hi (ic_safe_confirmations cfg) - ic_start_block cfg) <
    successes visit cfg lc too_large (mkLoop db (span_start (lc_max_blocks_per_batch lc)) Looping) rounds →
  ∃ k lp, run_chain_indexing_loop visit cfg lc too_large (take k rounds) db = Ok lp ∧
    historical_catch_up_complete (lp_span lp) = true ∧
    ∀ kind, saturating_sub lo (ic_safe_confirmations cfg) < next_block cfg (lp_db lp) kind.
Proof.
  intros Hi Ht Hc Hhi Hres Hu Hall Hlt.
  destruct (catches_up visit cfg lc too_large chain lo hi Hc Hhi rounds 0
    (mkLoop db (span_start (lc_max_blocks_per_batch lc)) Looping)) as (k & Hk & Hn); [|done..|].
  - split; try done. by left.
  - exists k. eexists. unfold run_chain_indexing_loop. by rewrite !decide_False by done.
Qed.

Definition toy_loop_config : LoopConfig := mkLoopConfig 5 60 8 4.
(** Every third commit is lost, and every fourth head unavailable. *)
Definition toy_round (i : nat) : Round :=
  let view := toy_chain 0 in
  mkRound false
    (if decide (i `mod` 4 = 3)%nat then mkView (view_logs view) (view_provider view) (view_header view) (Err (Report "timeout")) else view)
    view (if decide (i `mod` 3 = 2)%nat then Some (Sqlx "lost") else None) None (mkWake Timer false).
Definition toy_rounds : list Round := toy_round <$> seq 0 60.
Definition toy_catch_up :=
  @run_chain_indexing_loop toy_types toy_contract toy_persist toy_calldata toy_hex toy_tree toy_visit
    toy_index_config toy_loop_config (λ _, false).
Lemma indexing_loop_catches_up_witness :
  ∃ k lp, toy_catch_up (take k toy_rounds) empty_chain_db = Ok lp ∧ historical_catch_up_complete (lp_span lp) = true ∧
    ∀ kind, 28 < next_block toy_index_config (lp_db lp) kind.
Proof.
  refine (indexing_loop_catches_up (H := toy_types) (H0 := toy_contract) (H1 := toy_persist) (H2 := toy_calldata)
    (H3 := toy_hex) (H4 := toy_tree) toy_visit toy_index_config toy_loop_config (λ _, false) (λ n, Some (n, n - 1)) 30 30
    toy_rounds empty_chain_db _ _ _ _ _ _ _ _).
  - done.
  - done.
  - by vm_compute.
  - by vm_compute.
  - split; [by vm_compute|done|done].
  - intros kind. reflexivity.
  - apply Forall_fmap, Forall_true. intros i. split; cbn; [by intros n [h p] [= <- <-]|].
    intros head. case_decide; cbn; [done|]. intros [= <-]. done.
  - vm_compute. reflexivity.
Defined.
