(* ===== verification/StoreQueries.v ===== *)
(** * Reading the chain tables ([store.rs])

    The queries the publishers read the chain tables with: pages of the public
    TXID log, the rows of a wallet-scan block range, ranges of the commitment
    tree, its summaries and checkpoints; and the unshield preimage backfill. A
    query selects the scope's rows of a table, orders them by the statement's
    [ORDER BY] and decodes the columns. Byte columns of 32 bytes compare as
    the integers they encode. *)

From stdpp Require Import pretty.
From S2P Require Import Prelude Order Wire Ipfs Artifacts CommitmentChunk MerkleCheckpointChunk WalletScanChunk PublicTxidChunk ChainLogs PoiStore ChainStore.

Record PublicTxidCompatibilityOmission := mkOmission {
  om_block_number : Z;
  om_transaction_hash : Z;
  om_railgun_transaction_index : Z;
}.
Record StoredMissingPublicTxidUnshieldPreimage := mkMissingPreimage {
  mp_id : bytes;
  mp_block_number : Z;
  mp_railgun_transaction_index : Z;
  mp_transaction_hash : bytes;
  mp_nullifiers : list bytes;
  mp_commitments : list bytes;
  mp_bound_params_hash : bytes;
  mp_utxo_tree_in : Z;
  mp_utxo_tree_out : Z;
  mp_utxo_batch_start_position_out : Z;
}.
Record PublicTxidUnshieldPreimageUpdate := mkPreimageUpdate {
  pu_id : bytes;
  pu_railgun_transaction_index : Z;
  pu_transaction_hash : Z;
  pu_unshield_preimage : bytes;
}.
Record StoredBlockRange := mkBlockRange { br_start_block : Z; br_end_block : Z }.
Record StoredCommitmentTreeSummary := mkTreeSummary {
  ts_tree_number : Z;
  ts_leaf_count : Z;
  ts_last_indexed_block : Z;
}.
Record StoredCommitmentTreeCheckpoint := mkTreeCheckpoint {
  tk_tree_number : Z;
  tk_leaf_count : Z;
  tk_last_indexed_block : Z;
  tk_leaves : list bytes;
}.

(** ** Rows of a scope *)
Definition scoped {K R : Type} `{Countable K} (scope : Scope) (m : gmap (Scope * K) (Z * R)) : list (K * (Z * R)) :=
  (λ kv : (Scope * K) * (Z * R), (kv.1.2, kv.2)) <$> filter (λ kv : (Scope * K) * (Z * R), kv.1.1 = scope) (map_to_list m).
(** [$n::BIGINT IS NULL OR block_number <= $n] *)
Definition through (max_block : option Z) (block : Z) : Prop := match max_block with Some b => block ≤ b | None => True end.
#[export] Instance through_dec max_block block : Decision (through max_block block) :=
  ltac:(unfold through; destruct max_block; apply _).
Definition opt_u64_to_i64 (value : option Z) (field : string) : sresult (option Z) :=
  match value with Some value => Some <$> u64_to_i64 value field | None => Ok None end.

(** ** Columns *)
Definition i64_to_u32 (value : Z) (field : string) : sresult Z :=
  if decide (0 ≤ value ≤ u32_max) then Ok value else Err (IntegerOutOfRange field (pretty value)).

Definition fixed_bytes_vec (field : string) (bs : bytes) : sresult (list bytes) :=
  if decide (length bs `mod` 32 ≠ 0)%nat then Err (HexLength field ((length bs / 32 + 1) * 32)%nat (length bs))
  else try_map (exact_array 32 field) (reshape (replicate (length bs / 32) 32)%nat bs).

Definition indexed_source_row (block_number : Z) (cols : SourceCols) : sresult StoredIndexedLogSourceRow :=
  number ← i64_to_u64 block_number "block_number";
  timestamp ← match co_block_timestamp cols with
    | Some value => timestamp ← i64_to_u64 value "block_timestamp"; Ok (Some timestamp)
    | None => Ok None
    end;
  block_hash ← exact_array 32 "block_hash" (be_bytes 32 (co_block_hash cols));
  transaction_hash ← exact_array 32 "transaction_hash" (be_bytes 32 (co_transaction_hash cols));
  log_index ← i64_to_u64 (co_log_index cols) "log_index";
  Ok (mkSource number timestamp block_hash transaction_hash log_index).

Section queries.
Context `{PoiTypes} `{TreeCrate}.

(** ** Public TXID rows *)

(** [format!("{}:{transaction_index}", transaction_hash)] *)
Definition row_id_text (id : Z * Z) : bytes :=
  encode_prefixed (be_bytes 32 id.1) ++ String.list_byte_of_string (String.append ":" (pretty id.2)).

Abbreviation TxidEntry := ((Z * Z) * (Z * PublicTxidRow))%type.
Definition txid_key (e : TxidEntry) : Z * Z * Z * Z := (e.2.1, tr_first_log_index e.2.2, e.1.1, e.1.2).

Definition is_omitted (omissions : list (Z * Z * Z)) (e : TxidEntry) : Prop := (e.2.1, e.1.1, e.1.2) ∈ omissions.
#[export] Instance is_omitted_dec omissions e : Decision (is_omitted omissions e) := ltac:(unfold is_omitted; apply _).

(** The [ordered] rows, before they are numbered. *)
Definition ordered_txids (db : ChainDb) (scope : Scope) (max_block : option Z) (omissions : list (Z * Z * Z)) : list TxidEntry :=
  sort_cmp_key txid_key
    (filter (λ e : TxidEntry, through max_block e.2.1 ∧ ¬ is_omitted omissions e) (scoped scope (indexed_public_txid_rows db))).

(** [CASE WHEN has_unshield THEN COALESCE(unshield_preimage, ''::bytea) END],
    and back. *)
Definition unshield_data (row : PublicTxidRow) : option bytes :=
  if tr_has_unshield row then Some (default [] (tr_unshield_preimage row)) else None.
Definition unshield_of_data (data : option bytes) : bool * option bytes :=
  match data with
  | None => (false, None)
  | Some [] => (true, None)
  | Some bs => (true, Some bs)
  end.

Definition stored_public_txid_row (numbered : Z * TxidEntry) : sresult StoredPublicTxidRow :=
  let '(index, ((hash, _), (block, row))) := numbered in
  let '(has_unshield, unshield_preimage) := unshield_of_data (unshield_data row) in
  txid_index ← i64_to_u64 index "txid_index";
  block_number ← i64_to_u64 block "block_number";
  block_timestamp ← i64_to_u64 (tr_block_timestamp row) "block_timestamp";
  block_hash ← exact_array 32 "block_hash" (be_bytes 32 (tr_block_hash row));
  transaction_hash ← exact_array 32 "transaction_hash" (be_bytes 32 hash);
  first_log_index ← i64_to_u64 (tr_first_log_index row) "first_log_index";
  last_log_index ← i64_to_u64 (tr_last_log_index row) "last_log_index";
  nullifiers ← fixed_bytes_vec "nullifiers" (tr_nullifiers row);
  commitments ← fixed_bytes_vec "commitments" (tr_commitments row);
  bound_params_hash ← exact_array 32 "bound_params_hash" (be_bytes 32 (tr_bound_params_hash row));
  utxo_tree_in ← i64_to_u64 (tr_utxo_tree_in row) "utxo_tree_in";
  utxo_tree_out ← i64_to_u64 (tr_utxo_tree_out row) "utxo_tree_out";
  position ← i64_to_u64 (tr_utxo_batch_start_position_out row) "utxo_batch_start_position_out";
  Ok (PublicTxidChunk.mkTxidRow txid_index (row_id_text (tr_row_id row)) block_number block_timestamp block_hash transaction_hash
        first_log_index last_log_index nullifiers commitments bound_params_hash has_unshield unshield_preimage
        utxo_tree_in utxo_tree_out position).

(** [ROW_NUMBER() OVER (..) - 1] *)
Definition numbered {A} (l : list A) : list (Z * A) := imap (λ i a, (Z.of_nat i, a)) l.

Definition omission_columns (omissions : list PublicTxidCompatibilityOmission) : sresult (list (Z * Z * Z)) :=
  blocks ← try_map (λ o, u64_to_i64 (om_block_number o) "omission_block_number") omissions;
  indices ← try_map (λ o, u64_to_i64 (om_railgun_transaction_index o) "omission_railgun_transaction_index") omissions;
  Ok (zip (zip blocks (om_transaction_hash <$> omissions)) indices).

Definition public_txid_rows_with_max_block_and_omissions (db : ChainDb) (chain_type chain_id contract offset limit : Z)
    (max_block : option Z) (omissions : list PublicTxidCompatibilityOmission) : sresult (list StoredPublicTxidRow) :=
  scope ← scope_of chain_type chain_id contract;
  offset ← u64_to_i64 offset "offset";
  limit ← u64_to_i64 limit "limit";
  max_block ← opt_u64_to_i64 max_block "max_block";
  omissions ← omission_columns omissions;
  try_map stored_public_txid_row
    (take (Z.to_nat limit)
       (filter (λ n : Z * TxidEntry, offset ≤ n.1) (numbered (ordered_txids db scope max_block omissions)))).
Definition public_txid_rows (db : ChainDb) (chain_type chain_id contract offset limit : Z) : sresult (list StoredPublicTxidRow) :=
  public_txid_rows_with_max_block_and_omissions db chain_type chain_id contract offset limit None [].
Definition public_txid_rows_through_block (db : ChainDb) (chain_type chain_id contract offset limit max_block : Z)
    : sresult (list StoredPublicTxidRow) :=
  public_txid_rows_with_max_block_and_omissions db chain_type chain_id contract offset limit (Some max_block) [].
Definition published_public_txid_rows_through_block (db : ChainDb) (chain_type chain_id contract offset limit max_block : Z)
    (omissions : list PublicTxidCompatibilityOmission) : sresult (list StoredPublicTxidRow) :=
  public_txid_rows_with_max_block_and_omissions db chain_type chain_id contract offset limit (Some max_block) omissions.

Definition public_txid_compatibility_omission_match_count (db : ChainDb) (chain_type chain_id contract : Z)
    (omission : PublicTxidCompatibilityOmission) : sresult Z :=
  scope ← scope_of chain_type chain_id contract;
  block ← u64_to_i64 (om_block_number omission) "omission_block_number";
  index ← u64_to_i64 (om_railgun_transaction_index omission) "omission_railgun_transaction_index";
  i64_to_u64 (Z.of_nat (length (filter (λ e : TxidEntry, e.2.1 = block ∧ e.1 = (om_transaction_hash omission, index))
    (scoped scope (indexed_public_txid_rows db))))) "public_txid_compatibility_omission_match_count".

(** ** Unshield preimages *)
Definition missing_public_txid_unshield_preimages (db : ChainDb) (chain_type chain_id contract start_block end_block : Z)
    : sresult (list StoredMissingPublicTxidUnshieldPreimage) :=
  scope ← scope_of chain_type chain_id contract;
  start_block ← u64_to_i64 start_block "start_block";
  end_block ← u64_to_i64 end_block "end_block";
  try_map (λ '(((hash, index), (block, row)) : TxidEntry),
    block_number ← i64_to_u64 block "block_number";
    index ← i64_to_u64 index "railgun_transaction_index";
    transaction_hash ← exact_array 32 "transaction_hash" (be_bytes 32 hash);
    nullifiers ← fixed_bytes_vec "nullifiers" (tr_nullifiers row);
    commitments ← fixed_bytes_vec "commitments" (tr_commitments row);
    bound_params_hash ← exact_array 32 "bound_params_hash" (be_bytes 32 (tr_bound_params_hash row));
    utxo_tree_in ← i64_to_u64 (tr_utxo_tree_in row) "utxo_tree_in";
    utxo_tree_out ← i64_to_u64 (tr_utxo_tree_out row) "utxo_tree_out";
    position ← i64_to_u64 (tr_utxo_batch_start_position_out row) "utxo_batch_start_position_out";
    Ok (mkMissingPreimage (row_id_text (tr_row_id row)) block_number index transaction_hash nullifiers commitments
          bound_params_hash utxo_tree_in utxo_tree_out position))
    (sort_cmp_key txid_key (filter (λ e : TxidEntry, start_block ≤ e.2.1 ≤ end_block ∧ tr_has_unshield e.2.2 = true ∧
       tr_unshield_preimage e.2.2 = None) (scoped scope (indexed_public_txid_rows db)))).

Definition with_txids (db : ChainDb) (m : gmap (Scope * (Z * Z)) (Z * PublicTxidRow)) : ChainDb :=
  mkChainDb (indexed_transact_commitments db) (indexed_shield_commitments db) (indexed_nullifiers db)
    (indexed_legacy_encrypted_commitments db) (indexed_legacy_generated_commitments db)
    (indexed_public_transactions db) m (indexed_block_checkpoints db)
    (indexed_block_headers db) (chain_indexing_progress_table db).
Definition set_preimage (row : PublicTxidRow) (preimage : bytes) : PublicTxidRow :=
  ChainStore.mkTxidRow (tr_block_timestamp row) (tr_block_hash row) (tr_first_log_index row) (tr_last_log_index row) (tr_row_id row)
    (tr_nullifiers row) (tr_commitments row) (tr_bound_params_hash row) (tr_has_unshield row) (Some preimage)
    (tr_utxo_tree_in row) (tr_utxo_tree_out row) (tr_utxo_batch_start_position_out row).

(** One update: it hits the row of its key, if that still lacks the preimage. *)
Definition backfill_preimage (scope : Scope) (st : Z * ChainDb) (update : PublicTxidUnshieldPreimageUpdate) : sresult (Z * ChainDb) :=
  let '(updated, db) := st in
  index ← u64_to_i64 (pu_railgun_transaction_index update) "railgun_transaction_index";
  let key := (scope, (pu_transaction_hash update, index)) in
  match indexed_public_txid_rows db !! key with
  | Some (block, row) =>
      if decide (row_id_text (tr_row_id row) = pu_id update ∧ tr_has_unshield row = true ∧ tr_unshield_preimage row = None)
      then Ok (saturating_add u64_max updated 1,
               with_txids db (<[key := (block, set_preimage row (pu_unshield_preimage update))]> (indexed_public_txid_rows db)))
      else Ok (updated, db)
  | None => Ok (updated, db)
  end.
Definition backfill_public_txid_unshield_preimages (db : ChainDb) (chain_type chain_id contract : Z)
    (updates : list PublicTxidUnshieldPreimageUpdate) : sresult (Z * ChainDb) :=
  scope ← scope_of chain_type chain_id contract;
  try_fold (backfill_preimage scope) (0, db) updates.

(** ** Wallet-scan rows *)

(** The rows of a block range in the statement's order; [key] is what follows
    block and log index in it. *)
Definition block_range_rows {K R} `{Countable K} (scope : Scope) (start_block end_block : Z)
    (m : gmap (Scope * (Z * K)) (Z * R)) : list ((Z * K) * (Z * R)) :=
  filter (λ e : (Z * K) * (Z * R), start_block ≤ e.2.1 ≤ end_block) (scoped scope m).
Definition log_key {R} (cols : R → SourceCols) (e : (Z * Z) * (Z * R)) : Z * Z * Z * Z :=
  (e.2.1, co_log_index (cols e.2.2), e.1.1, e.1.2).
Definition sorted_range_rows {R} (cols : R → SourceCols) (scope : Scope) (start_block end_block : Z)
    (m : gmap (Scope * (Z * Z)) (Z * R)) : list ((Z * Z) * (Z * R)) :=
  sort_cmp_key (log_key cols) (block_range_rows scope start_block end_block m).

Definition stored_transact (e : (Z * Z) * (Z * (SourceCols * Z * option bytes))) : sresult StoredTransactCommitmentRow :=
  source ← indexed_source_row e.2.1 e.2.2.1.1;
  tree_number ← i64_to_u32 e.1.1 "tree_number";
  tree_position ← i64_to_u64 e.1.2 "tree_position";
  commitment_hash ← exact_array 32 "commitment_hash" (be_bytes 32 e.2.2.1.2);
  Ok (mkTransactRow source tree_number tree_position commitment_hash (default [] e.2.2.2)).
Definition stored_shield (e : (Z * Z) * (Z * (SourceCols * Z * bytes * bytes))) : sresult StoredShieldCommitmentRow :=
  source ← indexed_source_row e.2.1 e.2.2.1.1.1;
  tree_number ← i64_to_u32 e.1.1 "tree_number";
  tree_position ← i64_to_u64 e.1.2 "tree_position";
  commitment_hash ← exact_array 32 "commitment_hash" (be_bytes 32 e.2.2.1.1.2);
  Ok (mkShieldRow source tree_number tree_position commitment_hash e.2.2.1.2 e.2.2.2).
Definition stored_nullifier (e : (Z * Z) * (Z * SourceCols)) : sresult StoredNullifierRow :=
  source ← indexed_source_row e.2.1 e.2.2;
  tree_number ← i64_to_u32 e.1.1 "tree_number";
  nullifier ← exact_array 32 "nullifier" (be_bytes 32 e.1.2);
  Ok (mkNullifierRow source tree_number nullifier).
Definition stored_legacy_encrypted (e : (Z * Z) * (Z * (SourceCols * Z * bytes))) : sresult StoredLegacyEncryptedCommitmentRow :=
  source ← indexed_source_row e.2.1 e.2.2.1.1;
  tree_number ← i64_to_u32 e.1.1 "tree_number";
  tree_position ← i64_to_u64 e.1.2 "tree_position";
  commitment_hash ← exact_array 32 "commitment_hash" (be_bytes 32 e.2.2.1.2);
  Ok (mkLegacyEncryptedRow source tree_number tree_position commitment_hash e.2.2.2).
Definition stored_legacy_generated (e : (Z * Z) * (Z * (SourceCols * Z * bytes * bytes))) : sresult StoredLegacyGeneratedCommitmentRow :=
  source ← indexed_source_row e.2.1 e.2.2.1.1.1;
  tree_number ← i64_to_u32 e.1.1 "tree_number";
  tree_position ← i64_to_u64 e.1.2 "tree_position";
  commitment_hash ← exact_array 32 "commitment_hash" (be_bytes 32 e.2.2.1.1.2);
  encrypted_random ← exact_array 64 "encrypted_random" e.2.2.2;
  Ok (mkLegacyGeneratedRow source tree_number tree_position commitment_hash e.2.2.1.2 encrypted_random).

(** [ciphertext IS NOT NULL] *)
Definition has_ciphertext (e : (Z * Z) * (Z * (SourceCols * Z * option bytes))) : Prop := e.2.2.2 ≠ None.
#[export] Instance has_ciphertext_dec e : Decision (has_ciphertext e) := ltac:(unfold has_ciphertext; apply _).

Definition wallet_scan_rows (db : ChainDb) (chain_type chain_id contract start_block end_block : Z) : sresult StoredWalletScanRows :=
  scope ← scope_of chain_type chain_id contract;
  start_block ← u64_to_i64 start_block "start_block";
  end_block ← u64_to_i64 end_block "end_block";
  transact_commitments ← try_map stored_transact
    (filter has_ciphertext (sorted_range_rows (λ r, r.1.1) scope start_block end_block (indexed_transact_commitments db)));
  shield_commitments ← try_map stored_shield
    (sorted_range_rows (λ r, r.1.1.1) scope start_block end_block (indexed_shield_commitments db));
  nullifiers ← try_map stored_nullifier (sorted_range_rows id scope start_block end_block (indexed_nullifiers db));
  legacy_encrypted_commitments ← try_map stored_legacy_encrypted
    (sorted_range_rows (λ r, r.1.1) scope start_block end_block (indexed_legacy_encrypted_commitments db));
  legacy_generated_commitments ← try_map stored_legacy_generated
    (sorted_range_rows (λ r, r.1.1.1) scope start_block end_block (indexed_legacy_generated_commitments db));
  Ok (mkWalletRows transact_commitments shield_commitments nullifiers legacy_encrypted_commitments legacy_generated_commitments).

(** The block numbers of the range, one per row. *)
Definition wallet_scan_blocks (db : ChainDb) (scope : Scope) (start_block end_block : Z) : list Z :=
  ((λ e, e.2.1) <$> filter has_ciphertext (block_range_rows scope start_block end_block (indexed_transact_commitments db))) ++
  ((λ e, e.2.1) <$> block_range_rows scope start_block end_block (indexed_shield_commitments db)) ++
  ((λ e, e.2.1) <$> block_range_rows scope start_block end_block (indexed_nullifiers db)) ++
  ((λ e, e.2.1) <$> block_range_rows scope start_block end_block (indexed_legacy_encrypted_commitments db)) ++
  ((λ e, e.2.1) <$> block_range_rows scope start_block end_block (indexed_legacy_generated_commitments db)).

(** [SELECT MIN(b), MAX(b) .. GROUP BY (b - start) / span ORDER BY MIN(b)] *)
Definition bucket_of (start_block bucket_span block : Z) : Z := (block - start_block) `quot` bucket_span.
Definition bucket_range (start_block bucket_span : Z) (blocks : list Z) (bucket : Z) : Z * Z :=
  let members := filter (λ b, bucket_of start_block bucket_span b = bucket) blocks in
  (default 0 (min_list members), default 0 (max_list members)).
Definition wallet_scan_populated_block_ranges (db : ChainDb) (chain_type chain_id contract start_block end_block bucket_span : Z)
    : sresult (list StoredBlockRange) :=
  if decide (end_block < start_block) then Ok []
  else if decide (bucket_span = 0) then Err (IntegerOutOfRange "bucket_span" (pretty bucket_span))
  else
    scope ← scope_of chain_type chain_id contract;
    start_block ← u64_to_i64 start_block "start_block";
    end_block ← u64_to_i64 end_block "end_block";
    bucket_span ← u64_to_i64 bucket_span "bucket_span";
    let blocks := wallet_scan_blocks db scope start_block end_block in
    let buckets := remove_dups (bucket_of start_block bucket_span <$> blocks) in
    try_map (λ r : Z * Z,
      s ← i64_to_u64 r.1 "start_block";
      e ← i64_to_u64 r.2 "end_block";
      Ok (mkBlockRange s e))
      (sort_by_key fst (bucket_range start_block bucket_span blocks <$> buckets)).

(** ** The commitment tree *)
Definition parse_commitment_family (value : string) : sresult StoredCommitmentFamily :=
  if decide (value = "transact"%string) then Ok FamTransact
  else if decide (value = "shield"%string) then Ok FamShield
  else if decide (value = "legacy_encrypted"%string) then Ok FamLegacyEncrypted
  else if decide (value = "legacy_generated"%string) then Ok FamLegacyGenerated
  else Err (InvalidCommitmentFamily value).
(** The database orders the four family names alphabetically. *)
Definition family_rank (family : string) : Z :=
  if decide (family = "legacy_encrypted"%string) then 0
  else if decide (family = "legacy_generated"%string) then 1
  else if decide (family = "shield"%string) then 2 else 3.

Definition global_tree_position (tree_number tree_position : Z) : sresult Z :=
  ok_or (tree_offset ← checked_mul u64_max tree_number TREE_LEAF_COUNT; checked_add u64_max tree_offset tree_position)
    (IntegerOutOfRange "global_tree_position" (String.append "tree=" (String.append (pretty tree_number) (String.append " position=" (pretty tree_position))))).

(** (family, block_number, tree_number, tree_position, commitment_hash) of
    [all_commitments] *)
Record CommitmentCols := mkCommitmentCols {
  cc_family : string;
  cc_block : Z;
  cc_tree : Z;
  cc_position : Z;
  cc_hash : Z;
}.
Definition family_rows {R} (family : string) (hash : R → Z) (scope : Scope) (through_block : option Z)
    (m : gmap (Scope * (Z * Z)) (Z * R)) : list CommitmentCols :=
  (λ e : (Z * Z) * (Z * R), mkCommitmentCols family e.2.1 e.1.1 e.1.2 (hash e.2.2)) <$>
  filter (λ e : (Z * Z) * (Z * R), through through_block e.2.1) (scoped scope m).
Definition all_commitments (db : ChainDb) (scope : Scope) (through_block : option Z) : list CommitmentCols :=
  family_rows "transact" (λ r, r.1.2) scope through_block (indexed_transact_commitments db) ++
  family_rows "shield" (λ r, r.1.1.2) scope through_block (indexed_shield_commitments db) ++
  family_rows "legacy_encrypted" (λ r, r.1.2) scope through_block (indexed_legacy_encrypted_commitments db) ++
  family_rows "legacy_generated" (λ r, r.1.1.2) scope through_block (indexed_legacy_generated_commitments db).

Definition cc_global (c : CommitmentCols) : Z := cc_tree c * TREE_LEAF_COUNT + cc_position c.
Definition commitment_key (c : CommitmentCols) : Z * Z * Z := (cc_global c, cc_block c, family_rank (cc_family c)).

Definition stored_commitment (c : CommitmentCols) : sresult StoredCommitmentRow :=
  tree_number ← i64_to_u32 (cc_tree c) "tree_number";
  tree_position ← i64_to_u64 (cc_position c) "tree_position";
  global_position ← global_tree_position tree_number tree_position;
  block_number ← i64_to_u64 (cc_block c) "block_number";
  family ← parse_commitment_family (cc_family c);
  commitment_hash ← exact_array 32 "commitment_hash" (be_bytes 32 (cc_hash c));
  Ok (mkCommitmentRow global_position block_number family tree_number tree_position commitment_hash).

Definition commitment_rows (db : ChainDb) (chain_type chain_id contract start_global_position end_global_position : Z)
    (indexed_through_block : option Z) : sresult (list StoredCommitmentRow) :=
  scope ← scope_of chain_type chain_id contract;
  s ← u64_to_i64 start_global_position "start_global_position";
  e ← u64_to_i64 end_global_position "end_global_position";
  _ ← u64_to_i64 TREE_LEAF_COUNT "tree_leaf_count";
  through_block ← opt_u64_to_i64 indexed_through_block "indexed_through_block";
  try_map stored_commitment
    (sort_cmp_key commitment_key (filter (λ c, s ≤ cc_global c ≤ e) (all_commitments db scope through_block))).

(** [MAX(tree_position) + 1, MAX(block_number) .. GROUP BY tree_number ORDER BY tree_number] *)
Definition tree_summary (rows : list CommitmentCols) (tree : Z) : Z * Z * Z :=
  let members := filter (λ c, cc_tree c = tree) rows in
  (tree, default 0 (max_list (cc_position <$> members)) + 1, default 0 (max_list (cc_block <$> members))).
Definition commitment_tree_summaries (db : ChainDb) (chain_type chain_id contract : Z) (indexed_through_block : option Z)
    : sresult (list StoredCommitmentTreeSummary) :=
  scope ← scope_of chain_type chain_id contract;
  through_block ← opt_u64_to_i64 indexed_through_block "indexed_through_block";
  let rows := all_commitments db scope through_block in
  try_map (λ '((tree, leaf_count, block) : Z * Z * Z),
    tree_number ← i64_to_u32 tree "tree_number";
    leaf_count ← i64_to_u64 leaf_count "leaf_count";
    last_indexed_block ← i64_to_u64 block "last_indexed_block";
    Ok (mkTreeSummary tree_number leaf_count last_indexed_block))
    (tree_summary rows <$> sort_by_key id (remove_dups (cc_tree <$> rows))).

(** One row of a checkpoint: its leaf is set once. The state is [leaves] and
    [seen]. *)
Definition place_leaf (summary : StoredCommitmentTreeSummary) (st : list bytes * list bool) (row : StoredCommitmentRow)
    : sresult (list bytes * list bool) :=
  let '(leaves, seen) := st in
  if decide (CommitmentChunk.sc_tree_number row ≠ ts_tree_number summary ∨ ts_leaf_count summary ≤ CommitmentChunk.sc_tree_position row)
  then Err (CommitmentTreePositionOutOfRange (ts_tree_number summary) (CommitmentChunk.sc_tree_position row) (ts_leaf_count summary))
  else
    index ← ok_or (try_from u64_max (CommitmentChunk.sc_tree_position row)) (IntegerOutOfRange "tree_position" (pretty (CommitmentChunk.sc_tree_position row)));
    if decide (seen !! Z.to_nat index = Some true)
    then Err (DuplicateCommitmentTreePosition (ts_tree_number summary) (CommitmentChunk.sc_tree_position row))
    else Ok (<[Z.to_nat index := CommitmentChunk.sc_commitment_hash row]> leaves, <[Z.to_nat index := true]> seen).

Definition commitment_tree_checkpoint (db : ChainDb) (chain_type chain_id contract : Z) (summary : StoredCommitmentTreeSummary)
    (indexed_through_block : option Z) : sresult StoredCommitmentTreeCheckpoint :=
  end_position ← ok_or (checked_sub (ts_leaf_count summary) 1) (IntegerOutOfRange "leaf_count" (pretty (ts_leaf_count summary)));
  start_global_position ← global_tree_position (ts_tree_number summary) 0;
  end_global_position ← global_tree_position (ts_tree_number summary) end_position;
  rows ← commitment_rows db chain_type chain_id contract start_global_position end_global_position indexed_through_block;
  leaf_count ← ok_or (try_from u64_max (ts_leaf_count summary)) (IntegerOutOfRange "leaf_count" (pretty (ts_leaf_count summary)));
  let zero_leaf := be_bytes 32 MERKLE_ZERO_VALUE in
  '(leaves, _) ← try_fold (place_leaf summary)
     (replicate (Z.to_nat leaf_count) zero_leaf, replicate (Z.to_nat leaf_count) false) rows;
  Ok (mkTreeCheckpoint (ts_tree_number summary) (ts_leaf_count summary) (ts_last_indexed_block summary) leaves).
End queries.

(** ** Rows of a scope *)
Section scoped.
Context {K R : Type} `{Countable K} (scope : Scope) (m : gmap (Scope * K) (Z * R)).

Lemma elem_of_scoped e : e ∈ scoped scope m ↔ m !! (scope, e.1) = Some e.2.
Proof.
  unfold scoped. rewrite list_elem_of_fmap. split.
  - intros ([[s k] row] & -> & Hf). rewrite list_elem_of_filter, elem_of_map_to_list in Hf. by destruct Hf as [<- ?].
  - intros He. exists ((scope, e.1), e.2). rewrite list_elem_of_filter, elem_of_map_to_list. by destruct e.
Qed.
Lemma NoDup_scoped : NoDup (fst <$> scoped scope m).
Proof.
  unfold scoped. rewrite <- list_fmap_compose. pose proof (NoDup_fst_map_to_list m) as Hnd.
  induction (map_to_list m) as [|[[s k] row] l IH]; [apply NoDup_nil_2|]. apply NoDup_cons in Hnd as [Hn Hnd].
  rewrite filter_cons. case_decide as Hs; [|by apply IH]. apply NoDup_cons. split; [|by apply IH]. cbn in Hs.
  intros Hin. apply Hn. apply list_elem_of_fmap in Hin as ([[s' k'] row'] & Hk & Hf). cbn in Hk. subst k'.
  apply list_elem_of_filter in Hf as [Hs' Hf]. cbn in Hs'. subst. by apply (list_elem_of_fmap_2 fst) in Hf.
Qed.
End scoped.

(** ** Pages of the public TXID log *)
Section pages.
Context `{PoiTypes}.

Lemma imap_drop_filter {A} (l : list A) (k n : nat) :
  filter (λ p : Z * A, Z.of_nat n ≤ p.1) (imap (λ i a, (Z.of_nat (k + i), a)) l) =
  drop (n - k) (imap (λ i a, (Z.of_nat (k + i), a)) l).
Proof.
  revert k. induction l as [|a l IH]; intros k; [symmetry; apply drop_nil|]. rewrite imap_cons, Nat.add_0_r, filter_cons.
  assert (imap ((λ i b, (Z.of_nat (k + i), b)) ∘ S) l = imap (λ i b, (Z.of_nat (S k + i), b)) l) as Hi.
  { apply imap_ext. intros i b _. cbn. by rewrite Nat.add_succ_r. }
  rewrite Hi, IH. case_decide as Hd; cbn in Hd.
  - replace (n - k)%nat with 0%nat by lia. by replace (n - S k)%nat with 0%nat by lia.
  - replace (n - k)%nat with (S (n - S k)) by lia. done.
Qed.

Lemma try_map_take_drop {E A B} (f : A → result E B) l bs (n k : nat) :
  try_map f l = Ok bs → try_map f (take n (drop k l)) = Ok (take n (drop k bs)).
Proof. rewrite !try_map_Ok. intros HF. by apply Forall2_take, Forall2_drop. Qed.

(** The whole log through a block, without the omitted rows. *)
Definition public_txid_log (db : ChainDb) (scope : Scope) (max_block : option Z) (omissions : list (Z * Z * Z))
    : sresult (list StoredPublicTxidRow) :=
  try_map stored_public_txid_row (numbered (ordered_txids db scope max_block omissions)).

Lemma stored_public_txid_row_index n r : stored_public_txid_row n = Ok r → pt_txid_index r = n.1.
Proof.
  destruct n as [index [[hash i] [block row]]]. unfold stored_public_txid_row. destruct (unshield_of_data _) as [hu up].
  intros Hr. apply bind_Ok in Hr as (x & Hx & Hr). repeat (apply bind_Ok in Hr as (? & _ & Hr)). injection Hr as <-. cbn.
  unfold i64_to_u64 in Hx. case_decide; [|done]. by injection Hx as <-.
Qed.
Lemma public_txid_log_index db scope max_block omissions all i r :
  public_txid_log db scope max_block omissions = Ok all → all !! i = Some r → pt_txid_index r = Z.of_nat i.
Proof.
  unfold public_txid_log, numbered. rewrite try_map_Ok. intros HF Hi.
  destruct (Forall2_lookup_r _ _ _ _ _ HF Hi) as (n & Hn & Hr). apply stored_public_txid_row_index in Hr. rewrite Hr.
  rewrite list_lookup_imap in Hn. destruct (ordered_txids _ _ _ _ !! i) as [e|]; [|done]. cbn in Hn. by injection Hn as <-.
Qed.

Lemma u64_to_i64_id v field : v ≤ i64_max → u64_to_i64 v field = Ok v.
Proof. intros. unfold u64_to_i64. by rewrite decide_True. Qed.

Lemma public_txid_page db chain_type chain_id contract offset limit max_block omissions scope omitted all :
  scope_of chain_type chain_id contract = Ok scope → omission_columns omissions = Ok omitted →
  0 ≤ offset ≤ i64_max → 0 ≤ limit ≤ i64_max → max_block ≤ i64_max →
  public_txid_log db scope (Some max_block) omitted = Ok all →
  published_public_txid_rows_through_block db chain_type chain_id contract offset limit max_block omissions =
  Ok (take (Z.to_nat limit) (drop (Z.to_nat offset) all)).
Proof.
  intros Hs Ho Hoff Hlim Hmax Hall.
  unfold published_public_txid_rows_through_block, public_txid_rows_with_max_block_and_omissions, opt_u64_to_i64.
  rewrite Hs. cbn [mbind result_bind]. rewrite !u64_to_i64_id by lia. cbn [mbind result_bind fmap result_fmap]. rewrite Ho.
  cbn [mbind result_bind]. rewrite <- (try_map_take_drop _ _ _ (Z.to_nat limit) (Z.to_nat offset) Hall). f_equal. f_equal.
  unfold numbered. pose proof (imap_drop_filter (ordered_txids db scope (Some max_block) omitted) 0 (Z.to_nat offset)) as Hd.
  rewrite Nat.sub_0_r in Hd. etrans; [|exact Hd]. apply list_filter_iff. intros x. by rewrite Z2Nat.id by lia.
Qed.
End pages.

(** ** Populated block ranges *)
Lemma foldl_min_elem l x : foldl Z.min x l ∈ x :: l.
Proof.
  revert x. induction l as [|y l IH]; intros x; cbn; [by left|].
  destruct (Z.min_spec x y) as [[_ ->]|[_ ->]]; rewrite !elem_of_cons;
    [pose proof (proj1 (elem_of_cons _ _ _) (IH x))|pose proof (proj1 (elem_of_cons _ _ _) (IH y))]; tauto.
Qed.
Lemma foldl_max_elem l x : foldl Z.max x l ∈ x :: l.
Proof.
  revert x. induction l as [|y l IH]; intros x; cbn; [by left|].
  destruct (Z.max_spec x y) as [[_ ->]|[_ ->]]; rewrite !elem_of_cons;
    [pose proof (proj1 (elem_of_cons _ _ _) (IH y))|pose proof (proj1 (elem_of_cons _ _ _) (IH x))]; tauto.
Qed.
Lemma extremes l b :
  b ∈ l → ∃ lo hi, min_list l = Some lo ∧ max_list l = Some hi ∧ lo ∈ l ∧ hi ∈ l ∧ ∀ x, x ∈ l → lo ≤ x ≤ hi.
Proof.
  destruct l as [|y l]; [by intros ?%not_elem_of_nil|]. intros _.
  destruct (foldl_min_le l y) as [? Hmin], (foldl_max_ge l y) as [? Hmax]. rewrite Forall_forall in Hmin, Hmax.
  exists (foldl Z.min y l), (foldl Z.max y l). split_and!; [done|done|apply foldl_min_elem|apply foldl_max_elem|].
  intros x [-> |Hx]%elem_of_cons; [lia|]. specialize (Hmin x Hx). specialize (Hmax x Hx). lia.
Qed.

Lemma sorted_apart {A} (lo hi : A → Z) l :
  StronglySorted (λ a b, lo a ≤ lo b) l → NoDup l → (∀ a, a ∈ l → lo a ≤ hi a) →
  (∀ a b, a ∈ l → b ∈ l → a ≠ b → hi a < lo b ∨ hi b < lo a) → StronglySorted (λ a b, hi a < lo b) l.
Proof.
  induction 1 as [|a l Hs IH Hle]; [constructor|]. intros [Hn Hnd]%NoDup_cons Hlo Hap. constructor.
  - apply IH; [done| |]; intros; [apply Hlo|apply Hap]; try done; by right.
  - rewrite Forall_forall in Hle |- *. intros b Hb. specialize (Hle b Hb).
    destruct (Hap a b) as [?|Hlt]; [by left|by right|by intros ->|done|].
    specialize (Hlo b). assert (b ∈ a :: l) by by right. assert (lo b ≤ hi b) by by apply Hlo. lia.
Qed.

Section buckets.
Context (start span : Z) (blocks : list Z).
Hypothesis Hspan : 0 < span.
Hypothesis Hstart : ∀ b, b ∈ blocks → start ≤ b.
#[local] Abbreviation bucket := (bucket_of start span).

Lemma bucket_bounds b : b ∈ blocks → start + bucket b * span ≤ b < start + bucket b * span + span.
Proof.
  intros Hb%Hstart. unfold bucket_of. rewrite Z.quot_div_nonneg by lia.
  pose proof (Z.div_mod (b - start) span). pose proof (Z.mod_pos_bound (b - start) span). lia.
Qed.

Lemma bucket_range_spec q :
  q ∈ bucket <$> blocks →
  let r := bucket_range start span blocks q in
  r.1 ∈ blocks ∧ r.2 ∈ blocks ∧ bucket r.1 = q ∧ bucket r.2 = q ∧ ∀ b, b ∈ blocks → bucket b = q → r.1 ≤ b ≤ r.2.
Proof.
  intros (b & -> & Hb)%list_elem_of_fmap. cbn. unfold bucket_range.
  destruct (extremes (filter (λ x, bucket x = bucket b) blocks) b) as (lo & hi & Hmin & Hmax & Hlo & Hhi & Hall);
    [by apply list_elem_of_filter|]. rewrite Hmin, Hmax. cbn.
  apply list_elem_of_filter in Hlo as [? ?]. apply list_elem_of_filter in Hhi as [? ?]. split_and!; try done.
  intros x Hx Hq. apply Hall. by apply list_elem_of_filter.
Qed.

Lemma bucket_ranges_spec :
  let rs := sort_by_key fst (bucket_range start span blocks <$> remove_dups (bucket <$> blocks)) in
  StronglySorted (λ a b : Z * Z, a.2 < b.1) rs ∧
  (∀ r, r ∈ rs → r.1 ∈ blocks ∧ r.2 ∈ blocks ∧ r.1 ≤ r.2 < r.1 + span) ∧
  ∀ b, b ∈ blocks → ∃ r, r ∈ rs ∧ r.1 ≤ b ≤ r.2.
Proof.
  cbn zeta. set (qs := remove_dups (bucket <$> blocks)).
  assert (∀ q, q ∈ qs → q ∈ bucket <$> blocks) as Hqs by (intros q; unfold qs; by rewrite elem_of_remove_dups).
  assert (∀ r, r ∈ bucket_range start span blocks <$> qs → r.1 ∈ blocks ∧ r.2 ∈ blocks ∧ bucket r.1 = bucket r.2 ∧ r.1 ≤ r.2) as Hr.
  { intros r (q & -> & Hq)%list_elem_of_fmap. destruct (bucket_range_spec q (Hqs q Hq)) as (? & ? & H1 & ? & Hall).
    split_and!; [done..|congruence|]. by apply Hall. }
  split_and!.
  - apply (sorted_apart fst snd); [apply sort_by_key_sorted| | |].
    + rewrite sort_by_key_perm. apply NoDup_fmap_2_strong; [|apply NoDup_remove_dups].
      intros q q' Hq Hq' Heq. destruct (bucket_range_spec q (Hqs q Hq)) as (? & ? & <- & _).
      destruct (bucket_range_spec q' (Hqs q' Hq')) as (? & ? & <- & _). by rewrite Heq.
    + intros a. rewrite sort_by_key_perm. intros Ha%Hr. apply Ha.
    + intros a b. rewrite sort_by_key_perm. intros (q & -> & Hq)%list_elem_of_fmap (q' & -> & Hq')%list_elem_of_fmap Hne.
      destruct (bucket_range_spec q (Hqs q Hq)) as (Ha1 & Ha2 & Hb1 & Hb2 & _).
      destruct (bucket_range_spec q' (Hqs q' Hq')) as (Hc1 & Hc2 & Hd1 & Hd2 & _).
      assert (q ≠ q') by congruence.
      apply bucket_bounds in Ha1, Ha2, Hc1, Hc2. rewrite Hb1 in Ha1. rewrite Hb2 in Ha2. rewrite Hd1 in Hc1. rewrite Hd2 in Hc2. nia.
  - intros r. rewrite sort_by_key_perm. intros Hin. destruct (Hr r Hin) as (H1 & H2 & Hb & ?). split_and!; [done..|].
    apply bucket_bounds in H1, H2. rewrite Hb in H1. lia.
  - intros b Hb. exists (bucket_range start span blocks (bucket b)).
    assert (bucket b ∈ bucket <$> blocks) as Hq by by apply list_elem_of_fmap_2. split.
    + rewrite sort_by_key_perm. apply list_elem_of_fmap_2. unfold qs. by rewrite elem_of_remove_dups.
    + destruct (bucket_range_spec _ Hq) as (_ & _ & _ & _ & Hall). by apply Hall.
Qed.
End buckets.

Section wallet.
Context `{PoiTypes}.

Lemma i64_to_u64_Ok v field u : i64_to_u64 v field = Ok u ↔ u = v ∧ 0 ≤ v.
Proof. unfold i64_to_u64. case_decide; naive_solver. Qed.

Lemma wallet_scan_blocks_bounds db scope s e b : b ∈ wallet_scan_blocks db scope s e → s ≤ b ≤ e.
Proof.
  assert (∀ R (l : list ((Z * Z) * (Z * R))) (m : gmap (Scope * (Z * Z)) (Z * R)),
    (∀ x, x ∈ l → x ∈ block_range_rows scope s e m) → b ∈ (λ x, x.2.1) <$> l → s ≤ b ≤ e) as Hl.
  { intros R l m Hl (x & -> & Hx%Hl)%list_elem_of_fmap. by apply list_elem_of_filter in Hx as [? _]. }
  unfold wallet_scan_blocks. rewrite !elem_of_app. intros [Hb|[Hb|[Hb|[Hb|Hb]]]]; eapply Hl; try exact Hb; try done.
  intros x [_ ?]%list_elem_of_filter. done.
Qed.

(** The populated ranges of [s..e]: disjoint, in order, inside, shorter than
    the span, with rows at both ends; each row is in one. *)
Lemma populated_ranges_spec db chain_type chain_id contract s e span scope rs :
  scope_of chain_type chain_id contract = Ok scope → s ≤ e → 0 < span →
  wallet_scan_populated_block_ranges db chain_type chain_id contract s e span = Ok rs →
  StronglySorted (λ a b, br_end_block a < br_start_block b) rs ∧
  (∀ r, r ∈ rs → br_start_block r ∈ wallet_scan_blocks db scope s e ∧ br_end_block r ∈ wallet_scan_blocks db scope s e ∧
     br_start_block r ≤ br_end_block r < br_start_block r + span) ∧
  ∀ b, b ∈ wallet_scan_blocks db scope s e → ∃ r, r ∈ rs ∧ br_start_block r ≤ b ≤ br_end_block r.
Proof.
  intros Hs Hle Hspan. unfold wallet_scan_populated_block_ranges. rewrite !decide_False by lia. rewrite Hs. cbn [mbind result_bind].
  intros Hr. apply bind_Ok in Hr as (s' & Hs' & Hr). apply bind_Ok in Hr as (e' & He' & Hr). apply bind_Ok in Hr as (n & Hn & Hr).
  apply u64_to_i64_Ok in Hs' as [_ ->], He' as [_ ->], Hn as [_ ->].
  set (blocks := wallet_scan_blocks db scope s e) in *.
  destruct (bucket_ranges_spec s span blocks Hspan) as (Hsort & Hin & Hcov); [by intros b [? _]%wallet_scan_blocks_bounds|].
  apply try_map_Ok in Hr. set (raw := sort_by_key fst _) in *.
  assert (rs = (λ r : Z * Z, mkBlockRange r.1 r.2) <$> raw) as ->.
  { clear -Hr. induction Hr as [|r x raw rs Hx _ IH]; [done|]. cbn. rewrite <- IH. f_equal.
    apply bind_Ok in Hx as (a & [-> _]%i64_to_u64_Ok & Hx). by apply bind_Ok in Hx as (b & [-> _]%i64_to_u64_Ok & [= <-]). }
  split_and!.
  - apply StronglySorted_fmap. eapply StronglySorted_impl; [|exact Hsort]. done.
  - intros r (x & -> & Hx)%list_elem_of_fmap. by apply Hin.
  - intros b Hb. destruct (Hcov b Hb) as (r & Hr' & ?). eexists. split; [by apply list_elem_of_fmap_2|done].
Qed.
End wallet.

(** ** Splitting a sorted table by ranges *)
Lemma list_filter_iff' {A} (P Q : A → Prop) `{∀ x, Decision (P x)} `{∀ x, Decision (Q x)} (l : list A) :
  (∀ x, x ∈ l → P x ↔ Q x) → filter P l = filter Q l.
Proof.
  induction l as [|x l IH]; intros Hpq; [done|]. rewrite !filter_cons, IH by (intros; apply Hpq; by right).
  destruct (Hpq x) as [? ?]; [by left|]. repeat case_decide; tauto.
Qed.

Section filters.
Context {A : Type}.
Lemma filter_none {P : A → Prop} `{∀ x, Decision (P x)} (l : list A) : Forall (λ x, ¬ P x) l → filter P l = [].
Proof. induction 1 as [|x l Hx _ IH]; [done|]. by rewrite filter_cons, decide_False, IH. Qed.
Lemma filter_filter {P Q R : A → Prop} `{∀ x, Decision (P x)} `{∀ x, Decision (Q x)} `{∀ x, Decision (R x)} (l : list A) :
  (∀ x, R x ↔ P x ∧ Q x) → filter P (filter Q l) = filter R l.
Proof.
  intros HR. induction l as [|x l IH]; [done|]. rewrite !filter_cons. specialize (HR x).
  destruct (decide (Q x)), (decide (R x)); rewrite ?filter_cons; try destruct (decide (P x)); try tauto; by rewrite IH.
Qed.
Lemma StronglySorted_filter {P : A → Prop} `{∀ x, Decision (P x)} (R : A → A → Prop) l :
  StronglySorted R l → StronglySorted R (filter P l).
Proof.
  induction 1 as [|x l _ IH Hx]; [constructor|]. rewrite filter_cons. case_decide; [|done]. constructor; [done|].
  rewrite Forall_forall in Hx |- *. intros y [_ Hy]%list_elem_of_filter. by apply Hx.
Qed.
End filters.

Section split.
Context {A : Type} (blk : A → Z).
Definition in_range (r : Z * Z) (x : A) : Prop := r.1 ≤ blk x ≤ r.2.
#[export] Instance in_range_dec r x : Decision (in_range r x) := ltac:(unfold in_range; apply _).

Lemma sorted_cut t l :
  StronglySorted (λ x y, blk x ≤ blk y) l → l = filter (λ x, blk x ≤ t) l ++ filter (λ x, t < blk x) l.
Proof.
  induction 1 as [|x l _ IH Hx]; [done|]. rewrite !filter_cons. destruct (decide (blk x ≤ t)) as [Hle|Hgt].
  - rewrite decide_False by lia. cbn. by rewrite <- IH.
  - rewrite decide_True by lia. rewrite filter_none, filter_all; [done| |]; eapply Forall_impl; try exact Hx; cbn; intros; lia.
Qed.

Lemma sorted_split rs l :
  StronglySorted (λ x y, blk x ≤ blk y) l → StronglySorted (λ a b : Z * Z, a.2 < b.1) rs → Forall (λ r, r.1 ≤ r.2) rs →
  (∀ x, x ∈ l → ∃ r, r ∈ rs ∧ in_range r x) → l = concat ((λ r, filter (in_range r) l) <$> rs).
Proof.
  intros Hs Hr. revert l Hs. induction Hr as [|r rs Hr IH Hlt]; intros l Hs Hle Hcov.
  - destruct l as [|x l]; [done|]. destruct (Hcov x) as (r & ?%not_elem_of_nil & _); [by left|done].
  - apply Forall_cons in Hle as [Hle0 Hle]. rewrite Forall_forall in Hlt. cbn. rewrite (sorted_cut r.2 l Hs) at 1. f_equal.
    + apply (list_filter_iff' (λ x, blk x ≤ r.2) (in_range r)). intros x Hx. split; [|by intros [_ ?]]. intros Hxr.
      destruct (Hcov x Hx) as (r' & Hr' & Hin). apply elem_of_cons in Hr' as [-> |Hr']; [done|].
      specialize (Hlt r' Hr'). destruct Hin. lia.
    + rewrite (IH (filter (λ x, r.2 < blk x) l)); [|by apply StronglySorted_filter|done|].
      * f_equal. apply list_fmap_ext. intros i r' Hr'%list_elem_of_lookup_2. specialize (Hlt r' Hr').
        apply filter_filter. intros x. unfold in_range. lia.
      * intros x [Hgt Hx]%list_elem_of_filter. destruct (Hcov x Hx) as (r' & Hr' & Hin).
        apply elem_of_cons in Hr' as [-> |Hr']; [destruct Hin; lia|]. by exists r'.
Qed.
End split.

Section families.
Context {A B E : Type} (blk : A → Z) (rows : Z → Z → list A) (decode : A → result E B) (s e : Z).
Hypothesis Hrows : ∀ a b, s ≤ a → b ≤ e → rows a b = filter (in_range blk (a, b)) (rows s e).
Hypothesis Hsorted : StronglySorted (λ x y, blk x ≤ blk y) (rows s e).

Lemma try_map_concat (ls : list (list A)) bs :
  try_map decode (concat ls) = Ok bs → ∃ parts, Forall2 (λ l part, try_map decode l = Ok part) ls parts ∧ bs = concat parts.
Proof.
  revert bs. induction ls as [|l ls IH]; intros bs; cbn.
  - intros [= <-]. by exists [].
  - rewrite try_map_app. intros Hb. apply bind_Ok in Hb as (b1 & Hb1 & Hb). apply bind_Ok in Hb as (b2 & Hb2 & [= <-]).
    destruct (IH b2 Hb2) as (parts & HF & ->). exists (b1 :: parts). split; [by constructor|done].
Qed.

Lemma family_split rs bs :
  StronglySorted (λ a b : Z * Z, a.2 < b.1) rs → Forall (λ r, s ≤ r.1 ≤ r.2 ∧ r.2 ≤ e) rs →
  (∀ x, x ∈ rows s e → ∃ r, r ∈ rs ∧ in_range blk r x) → try_map decode (rows s e) = Ok bs →
  ∃ parts, Forall2 (λ r part, try_map decode (rows r.1 r.2) = Ok part) rs parts ∧ bs = concat parts.
Proof.
  intros Hrs Hin Hcov Hb. rewrite (sorted_split blk rs (rows s e) Hsorted Hrs) in Hb; [|by eapply Forall_impl; [exact Hin|]; cbn; lia|done].
  apply try_map_concat in Hb as (parts & HF & ->). exists parts. split; [|done]. apply Forall2_fmap_l in HF.
  rewrite Forall2_same_length_lookup in HF |- *. destruct HF as [Hlen HF]. split; [done|].
  intros i r part Hr Hp. specialize (HF i r part Hr Hp). rewrite Forall_lookup in Hin. specialize (Hin i r Hr).
  rewrite Hrows by lia. by destruct r.
Qed.
End families.

Section wallet_split.
Context `{PoiTypes}.

Lemma sort_cmp_key_filter {A K} `{TotalCmp K} (key : A → K) (P : A → Prop) `{∀ x, Decision (P x)} l :
  NoDup (key <$> l) → sort_cmp_key key (filter P l) = filter P (sort_cmp_key key l).
Proof.
  intros Hnd. transitivity (sort_cmp_key key (filter P (sort_cmp_key key l))).
  - apply sort_cmp_key_unique.
    + eapply sublist_NoDup; [exact Hnd|]. apply fmap_sublist, sublist_filter.
    + unfold sort_cmp_key. by rewrite sort_by_perm.
  - apply sort_by_id, StronglySorted_filter, sort_cmp_key_sorted.
Qed.

Lemma block_range_filter {R} (scope : Scope) (s e a b : Z) (m : gmap (Scope * (Z * Z)) (Z * R)) :
  s ≤ a → b ≤ e →
  block_range_rows scope a b m = filter (in_range (λ x : (Z * Z) * (Z * R), x.2.1) (a, b)) (block_range_rows scope s e m).
Proof. intros. unfold block_range_rows. symmetry. apply filter_filter. intros x. unfold in_range. cbn. lia. Qed.
Lemma log_key_NoDup {R} (cols : R → SourceCols) (scope : Scope) (s e : Z) (m : gmap (Scope * (Z * Z)) (Z * R)) :
  NoDup (log_key cols <$> block_range_rows scope s e m).
Proof.
  assert (NoDup (fst <$> block_range_rows scope s e m)) as Hnd.
  { eapply sublist_NoDup; [apply (NoDup_scoped scope m)|]. apply fmap_sublist, sublist_filter. }
  eapply (NoDup_fmap_1 (λ k : Z * Z * Z * Z, (k.1.2, k.2))). rewrite <- list_fmap_compose. eapply eq_ind; [exact Hnd|].
  apply list_fmap_ext. intros _ [[t p] x] _. done.
Qed.
Lemma sorted_range_filter {R} (cols : R → SourceCols) (scope : Scope) (s e a b : Z) (m : gmap (Scope * (Z * Z)) (Z * R)) :
  s ≤ a → b ≤ e →
  sorted_range_rows cols scope a b m =
  filter (in_range (λ x : (Z * Z) * (Z * R), x.2.1) (a, b)) (sorted_range_rows cols scope s e m).
Proof.
  intros. unfold sorted_range_rows. rewrite (block_range_filter scope s e) by done. apply sort_cmp_key_filter, log_key_NoDup.
Qed.
Lemma sorted_range_sorted {R} (cols : R → SourceCols) (scope : Scope) (s e : Z) (m : gmap (Scope * (Z * Z)) (Z * R)) :
  StronglySorted (λ x y : (Z * Z) * (Z * R), x.2.1 ≤ y.2.1) (sorted_range_rows cols scope s e m).
Proof.
  eapply StronglySorted_impl; [|apply (sort_cmp_key_sorted (log_key cols))]. intros x y. unfold cmp_leb. cbn.
  unfold prod_cmp_fun. cbn. unfold prod_cmp_fun. cbn. unfold prod_cmp_fun. cbn.
  destruct (Z.compare_spec x.2.1 y.2.1); cbn; [lia|lia|done].
Qed.

Definition wallet_concat (parts : list StoredWalletScanRows) : StoredWalletScanRows :=
  mkWalletRows (concat (ws_transact_commitments <$> parts)) (concat (ws_shield_commitments <$> parts)) (concat (ws_nullifiers <$> parts))
    (concat (ws_legacy_encrypted_commitments <$> parts)) (concat (ws_legacy_generated_commitments <$> parts)).

Section ranges.
Context (db : ChainDb) (scope : Scope) (s e : Z) (rs : list (Z * Z)).
Hypothesis Hrs : StronglySorted (λ a b : Z * Z, a.2 < b.1) rs.
Hypothesis Hin : Forall (λ r : Z * Z, s ≤ r.1 ≤ r.2 ∧ r.2 ≤ e) rs.
Hypothesis Hcov : ∀ b, b ∈ wallet_scan_blocks db scope s e → ∃ r : Z * Z, r ∈ rs ∧ r.1 ≤ b ≤ r.2.

Lemma sorted_rows_split {R B : Type} (cols : R → SourceCols) (m : gmap (Scope * (Z * Z)) (Z * R)) (decode : (Z * Z) * (Z * R) → sresult B)
    (bs : list B) :
  (∀ x, x ∈ block_range_rows scope s e m → x.2.1 ∈ wallet_scan_blocks db scope s e) →
  try_map decode (sorted_range_rows cols scope s e m) = Ok bs →
  ∃ parts, Forall2 (λ r part, try_map decode (sorted_range_rows cols scope r.1 r.2 m) = Ok part) rs parts ∧ bs = concat parts.
Proof.
  intros Hb Hd. eapply (family_split (λ x, x.2.1) (λ a b, sorted_range_rows cols scope a b m)); try done.
  - intros a b ? ?. by apply sorted_range_filter.
  - apply sorted_range_sorted.
  - intros x. unfold sorted_range_rows, sort_cmp_key. rewrite sort_by_perm. intros Hx%Hb%Hcov. done.
Qed.
Lemma transact_rows_split bs :
  try_map stored_transact (filter has_ciphertext (sorted_range_rows (λ r, r.1.1) scope s e (indexed_transact_commitments db))) = Ok bs →
  ∃ parts, Forall2 (λ r part, try_map stored_transact
      (filter has_ciphertext (sorted_range_rows (λ r, r.1.1) scope r.1 r.2 (indexed_transact_commitments db))) = Ok part) rs parts ∧
    bs = concat parts.
Proof.
  intros Hd. eapply (family_split (λ x, x.2.1)
    (λ a b, filter has_ciphertext (sorted_range_rows (λ r, r.1.1) scope a b (indexed_transact_commitments db)))); try done.
  - intros a b ? ?. rewrite (sorted_range_filter _ scope s e a b) by done.
    transitivity (filter (λ x, in_range (λ x : (Z * Z) * (Z * (SourceCols * Z * option bytes)), x.2.1) (a, b) x ∧ has_ciphertext x)
      (sorted_range_rows (λ r, r.1.1) scope s e (indexed_transact_commitments db))); [|symmetry]; apply filter_filter; tauto.
  - apply StronglySorted_filter, sorted_range_sorted.
  - intros x [Hc Hx]%list_elem_of_filter. unfold sorted_range_rows, sort_cmp_key in Hx. rewrite sort_by_perm in Hx. apply Hcov.
    unfold wallet_scan_blocks. rewrite elem_of_app. left. apply (list_elem_of_fmap_2 (λ e, e.2.1)). by apply list_elem_of_filter.
Qed.
End ranges.

(** Reading a block range in parts that cover its rows gives the same rows. *)
Lemma wallet_rows_split db chain_type chain_id contract s e scope rs all :
  scope_of chain_type chain_id contract = Ok scope →
  wallet_scan_rows db chain_type chain_id contract s e = Ok all →
  StronglySorted (λ a b : Z * Z, a.2 < b.1) rs → Forall (λ r : Z * Z, s ≤ r.1 ≤ r.2 ∧ r.2 ≤ e) rs →
  (∀ b, b ∈ wallet_scan_blocks db scope s e → ∃ r : Z * Z, r ∈ rs ∧ r.1 ≤ b ≤ r.2) →
  ∃ parts, Forall2 (λ r part, wallet_scan_rows db chain_type chain_id contract r.1 r.2 = Ok part) rs parts ∧ all = wallet_concat parts.
Proof.
  intros Hs Hall Hrs Hin Hcov. unfold wallet_scan_rows in Hall. rewrite Hs in Hall. cbn [mbind result_bind] in Hall.
  apply bind_Ok in Hall as (s' & [_ ->]%u64_to_i64_Ok & Hall). apply bind_Ok in Hall as (e' & [He ->]%u64_to_i64_Ok & Hall).
  apply bind_Ok in Hall as (l1 & H1 & Hall). apply bind_Ok in Hall as (l2 & H2 & Hall). apply bind_Ok in Hall as (l3 & H3 & Hall).
  apply bind_Ok in Hall as (l4 & H4 & Hall). apply bind_Ok in Hall as (l5 & H5 & [= <-]).
  apply (transact_rows_split db scope s e rs) in H1 as (p1 & F1 & ->); [|done..].
  apply (sorted_rows_split db scope s e rs) in H2 as (p2 & F2 & ->); [|done..|].
  2:{ intros x Hx. unfold wallet_scan_blocks. rewrite !elem_of_app. right; left. by apply (list_elem_of_fmap_2 (λ e, e.2.1)). }
  apply (sorted_rows_split db scope s e rs) in H3 as (p3 & F3 & ->); [|done..|].
  2:{ intros x Hx. unfold wallet_scan_blocks. rewrite !elem_of_app. do 2 right; left. by apply (list_elem_of_fmap_2 (λ e, e.2.1)). }
  apply (sorted_rows_split db scope s e rs) in H4 as (p4 & F4 & ->); [|done..|].
  2:{ intros x Hx. unfold wallet_scan_blocks. rewrite !elem_of_app. do 3 right; left. by apply (list_elem_of_fmap_2 (λ e, e.2.1)). }
  apply (sorted_rows_split db scope s e rs) in H5 as (p5 & F5 & ->); [|done..|].
  2:{ intros x Hx. unfold wallet_scan_blocks. rewrite !elem_of_app. do 4 right. by apply (list_elem_of_fmap_2 (λ e, e.2.1)). }
  clear Hrs Hcov. revert p2 F2 p3 F3 p4 F4 p5 F5. induction F1 as [|r a1 rs p1 Ha1 F1 IH]; intros p2 F2 p3 F3 p4 F4 p5 F5.
  - inversion F2. inversion F3. inversion F4. inversion F5. subst. by exists [].
  - inversion F2 as [|? a2 ? p2' Ha2 F2']. inversion F3 as [|? a3 ? p3' Ha3 F3']. inversion F4 as [|? a4 ? p4' Ha4 F4'].
    inversion F5 as [|? a5 ? p5' Ha5 F5']. subst. apply Forall_cons in Hin as [Hr Hin].
    destruct (IH Hin p2' F2' p3' F3' p4' F4' p5' F5') as (parts & HF & Hparts).
    exists (mkWalletRows a1 a2 a3 a4 a5 :: parts). split.
    + constructor; [|done]. unfold wallet_scan_rows. rewrite Hs. cbn [mbind result_bind]. rewrite !u64_to_i64_id by lia.
      cbn [mbind result_bind]. by rewrite Ha1, Ha2, Ha3, Ha4, Ha5.
    + unfold wallet_concat in *. cbn. injection Hparts as -> -> -> -> ->. done.
Qed.
End wallet_split.

(** ** Checkpoints of the commitment tree *)
Section checkpoints.
Context `{PoiTypes} `{TreeCrate}.

Definition position_of (row : StoredCommitmentRow) : nat := Z.to_nat (CommitmentChunk.sc_tree_position row).
Definition placed (leaves : list bytes) (rows : list StoredCommitmentRow) : list bytes :=
  foldl (λ leaves row, <[position_of row := CommitmentChunk.sc_commitment_hash row]> leaves) leaves rows.

Lemma length_placed leaves rows : length (placed leaves rows) = length leaves.
Proof. revert leaves. induction rows as [|r rows IH]; intros leaves; cbn; [done|]. by rewrite IH, length_insert. Qed.
Lemma placed_other leaves rows i : i ∉ position_of <$> rows → placed leaves rows !! i = leaves !! i.
Proof.
  revert leaves. induction rows as [|r rows IH]; intros leaves; cbn; [done|]. rewrite not_elem_of_cons. intros [Hne Hn].
  by rewrite IH, list_lookup_insert_ne.
Qed.
Lemma placed_row leaves rows r :
  NoDup (position_of <$> rows) → r ∈ rows → (position_of r < length leaves)%nat →
  placed leaves rows !! position_of r = Some (CommitmentChunk.sc_commitment_hash r).
Proof.
  revert leaves. induction rows as [|r0 rows IH]; intros leaves; [by intros _ ?%not_elem_of_nil|].
  rewrite fmap_cons, NoDup_cons. intros [Hn Hnd] [-> |Hr]%elem_of_cons Hlt; cbn.
  - by rewrite placed_other, list_lookup_insert_eq.
  - apply IH; [done|done|by rewrite length_insert].
Qed.

Definition placeable (summary : StoredCommitmentTreeSummary) (row : StoredCommitmentRow) : Prop :=
  CommitmentChunk.sc_tree_number row = ts_tree_number summary ∧
  0 ≤ CommitmentChunk.sc_tree_position row < ts_leaf_count summary ∧ ts_leaf_count summary ≤ u64_max.

(** The loop places every row, or stops at a position that is taken. *)
Lemma place_leaves summary rows leaves seen :
  Forall (placeable summary) rows → length seen = Z.to_nat (ts_leaf_count summary) →
  if decide (NoDup (position_of <$> rows) ∧ Forall (λ r, seen !! position_of r = Some false) rows)
  then ∃ seen', try_fold (place_leaf summary) (leaves, seen) rows = Ok (placed leaves rows, seen')
  else ∃ position, try_fold (place_leaf summary) (leaves, seen) rows = Err (DuplicateCommitmentTreePosition (ts_tree_number summary) position).
Proof.
  revert leaves seen. induction rows as [|r rows IH]; intros leaves seen Hok Hlen; cbn.
  - rewrite decide_True by (split; [apply NoDup_nil_2|done]). by exists seen.
  - apply Forall_cons in Hok as [(Ht & Hp & Hmax) Hok].
    assert (position_of r < length seen)%nat as Hlt by (unfold position_of; lia).
    destruct (lookup_lt_is_Some_2 seen (position_of r)) as [b Hb]; [done|].
    rewrite (decide_False (P := _ ∨ _)) by (intros [?|?]; [done|lia]). rewrite (proj2 (try_from_Some u64_max (CommitmentChunk.sc_tree_position r) _)) by (split; [done|lia]).
    cbn [ok_or mbind result_bind]. fold (position_of r). destruct b.
    + rewrite decide_False; [rewrite decide_True by done; by eexists|].
      rewrite Forall_cons. intros (_ & Hf & _). congruence.
    + rewrite (decide_False (P := seen !! _ = Some true)) by congruence. cbn [mbind result_bind].
      specialize (IH (<[position_of r := CommitmentChunk.sc_commitment_hash r]> leaves) (<[position_of r := true]> seen) Hok).
      rewrite length_insert in IH. specialize (IH Hlen).
      assert (NoDup (position_of <$> rows) ∧ Forall (λ r', <[position_of r := true]> seen !! position_of r' = Some false) rows ↔
        NoDup (position_of r :: (position_of <$> rows)) ∧ Forall (λ r', seen !! position_of r' = Some false) (r :: rows)) as Hiff.
      { rewrite NoDup_cons, Forall_cons, !Forall_forall. split.
        - intros [Hnd Hf]. assert (∀ r', r' ∈ rows → position_of r' ≠ position_of r) as Hne.
          { intros r' Hr' Heq. specialize (Hf r' Hr'). rewrite Heq, list_lookup_insert_eq in Hf by done. done. }
          split_and!; [|done|done|].
          + intros (r' & Heq & Hr')%list_elem_of_fmap. by eapply Hne.
          + intros r' Hr'. specialize (Hf r' Hr'). by rewrite list_lookup_insert_ne in Hf by (apply not_eq_sym; by apply Hne).
        - intros [[Hn Hnd] [_ Hf]]. split; [done|]. intros r' Hr'. rewrite list_lookup_insert_ne; [by apply Hf|].
          intros Heq. apply Hn. rewrite Heq. by apply list_elem_of_fmap_2. }
      cbn [fmap list_fmap]. rewrite (decide_ext _ _ _ _ Hiff) in IH. exact IH.
Qed.

(** What the writers store: positions inside a tree, and columns that fit. *)
Definition commitment_ok (c : CommitmentCols) : Prop :=
  0 ≤ cc_tree c ≤ u32_max ∧ 0 ≤ cc_position c < TREE_LEAF_COUNT ∧ 0 ≤ cc_block c ∧ cc_tree c * TREE_LEAF_COUNT + TREE_LEAF_COUNT ≤ i64_max ∧
  is_ok (parse_commitment_family (cc_family c)).

Definition stored_of (c : CommitmentCols) : StoredCommitmentRow :=
  mkCommitmentRow (cc_global c) (cc_block c)
    (match parse_commitment_family (cc_family c) with Ok f => f | Err _ => FamTransact end) (cc_tree c) (cc_position c) (be_bytes 32 (cc_hash c)).

Lemma global_tree_position_Ok t p :
  0 ≤ t → 0 ≤ p → t * TREE_LEAF_COUNT + p ≤ u64_max → global_tree_position t p = Ok (t * TREE_LEAF_COUNT + p).
Proof.
  intros. unfold global_tree_position. pose proof leaf_count_pos. unfold checked_mul. rewrite decide_True by nia.
  cbn [mbind option_bind]. unfold checked_add. by rewrite decide_True by lia.
Qed.
Lemma i64_u64 : i64_max ≤ u64_max.
Proof. done. Qed.

Lemma stored_commitment_Ok c : commitment_ok c → stored_commitment c = Ok (stored_of c).
Proof.
  intros (Ht & Hp & Hb & Hg & Hf). unfold stored_commitment, i64_to_u32, exact_array. pose proof i64_u64.
  rewrite (decide_True (P := 0 ≤ cc_tree c ≤ u32_max)) by lia. cbn [mbind result_bind].
  rewrite (proj2 (i64_to_u64_Ok (cc_position c) "tree_position" _)) by (split; [done|lia]). cbn [mbind result_bind].
  rewrite global_tree_position_Ok by lia. cbn [mbind result_bind].
  rewrite (proj2 (i64_to_u64_Ok (cc_block c) "block_number" _)) by (split; [done|lia]). cbn [mbind result_bind].
  rewrite decide_True by apply length_be_bytes. unfold stored_of, cc_global. by destruct (parse_commitment_family (cc_family c)).
Qed.

Lemma all_commitments_family db scope through_block c :
  c ∈ all_commitments db scope through_block → is_ok (parse_commitment_family (cc_family c)).
Proof.
  unfold all_commitments, family_rows. rewrite !elem_of_app, !list_elem_of_fmap.
  intros [(x & -> & _)|[(x & -> & _)|[(x & -> & _)|(x & -> & _)]]]; done.
Qed.

(** The rows of tree [t] are those at its global positions. *)
Lemma tree_range rows t n :
  Forall commitment_ok rows → (∀ c, c ∈ rows → cc_tree c = t → cc_position c < n) → 0 ≤ n ≤ TREE_LEAF_COUNT →
  filter (λ c, t * TREE_LEAF_COUNT + 0 ≤ cc_global c ≤ t * TREE_LEAF_COUNT + (n - 1)) rows = filter (λ c, cc_tree c = t) rows.
Proof.
  intros Hok Hpos Hn. rewrite Forall_forall in Hok. apply list_filter_iff'. intros c Hc. destruct (Hok c Hc) as (Ht & Hp & _).
  unfold cc_global. split; [intros; nia|]. intros Heq. specialize (Hpos c Hc Heq). rewrite Heq. lia.
Qed.

Lemma tree_summary_spec rows t :
  t ∈ cc_tree <$> rows →
  let '(_, leaf_count, last_block) := tree_summary rows t in
  (∃ c, c ∈ rows ∧ cc_tree c = t ∧ cc_position c = leaf_count - 1) ∧
  ∀ c, c ∈ rows → cc_tree c = t → cc_position c < leaf_count ∧ cc_block c ≤ last_block.
Proof.
  intros (c0 & -> & Hc0)%list_elem_of_fmap. unfold tree_summary.
  set (members := filter (λ c, cc_tree c = cc_tree c0) rows).
  assert (c0 ∈ members) as Hm by (by apply list_elem_of_filter).
  destruct (extremes (cc_position <$> members) (cc_position c0)) as (? & hi & _ & -> & _ & Hhi & Hp); [by apply list_elem_of_fmap_2|].
  destruct (extremes (cc_block <$> members) (cc_block c0)) as (? & hb & _ & -> & _ & _ & Hb); [by apply list_elem_of_fmap_2|]. cbn. split.
  - apply list_elem_of_fmap in Hhi as (c & -> & [? ?]%list_elem_of_filter). exists c. split_and!; [done..|lia].
  - intros c Hc Ht. assert (c ∈ members) as Hcm by (by apply list_elem_of_filter).
    specialize (Hp (cc_position c)). specialize (Hb (cc_block c)).
    destruct Hp; [by apply list_elem_of_fmap_2|]. destruct Hb; [by apply list_elem_of_fmap_2|]. lia.
Qed.

Lemma summaries_Ok db chain_type chain_id contract through_block scope tb ss summary :
  scope_of chain_type chain_id contract = Ok scope → opt_u64_to_i64 through_block "indexed_through_block" = Ok tb →
  commitment_tree_summaries db chain_type chain_id contract through_block = Ok ss → summary ∈ ss →
  ts_tree_number summary ∈ cc_tree <$> all_commitments db scope tb ∧
  tree_summary (all_commitments db scope tb) (ts_tree_number summary) =
    (ts_tree_number summary, ts_leaf_count summary, ts_last_indexed_block summary).
Proof.
  intros Hs Htb. unfold commitment_tree_summaries. rewrite Hs, Htb. cbn [mbind result_bind]. rewrite try_map_Ok. intros HF Hin.
  apply list_elem_of_lookup in Hin as [i Hi]. destruct (Forall2_lookup_r _ _ _ _ _ HF Hi) as ([[t n] b] & Ht & Hd).
  rewrite list_lookup_fmap, fmap_Some in Ht. destruct Ht as (t' & Ht' & Heq). apply list_elem_of_lookup_2 in Ht'.
  rewrite sort_by_key_perm, elem_of_remove_dups in Ht'.
  apply bind_Ok in Hd as (x & Hx & Hd). apply bind_Ok in Hd as (y & [-> _]%i64_to_u64_Ok & Hd).
  apply bind_Ok in Hd as (z & [-> _]%i64_to_u64_Ok & [= <-]). cbn.
  unfold i64_to_u32 in Hx. case_decide; [|done]. injection Hx as <-.
  assert (t = t') as -> by (unfold tree_summary in Heq; congruence). by rewrite <- Heq.
Qed.

(** The rows of a range, decoded. *)
Lemma commitment_rows_Ok db chain_type chain_id contract s e through_block scope tb :
  scope_of chain_type chain_id contract = Ok scope → opt_u64_to_i64 through_block "indexed_through_block" = Ok tb →
  s ≤ i64_max → e ≤ i64_max → Forall commitment_ok (all_commitments db scope tb) →
  commitment_rows db chain_type chain_id contract s e through_block =
  Ok (stored_of <$> sort_cmp_key commitment_key (filter (λ c, s ≤ cc_global c ≤ e) (all_commitments db scope tb))).
Proof.
  intros Hs Htb Hs' He Hok. unfold commitment_rows. rewrite Hs. cbn [mbind result_bind]. rewrite !u64_to_i64_id; [|lia..|].
  2:{ etrans; [apply tree_leaf_count_u64|]. done. }
  cbn [mbind result_bind]. rewrite Htb. cbn [mbind result_bind]. apply try_map_Ok, Forall2_fmap_r, Forall_Forall2_diag.
  apply Forall_forall. intros c. unfold sort_cmp_key. rewrite sort_by_perm. intros [_ Hc]%list_elem_of_filter.
  rewrite Forall_forall in Hok. by apply stored_commitment_Ok, Hok.
Qed.

(** The checkpoint of a commitment tree holds exactly the tree: it has a leaf
    for every position up to the last stored one, each stored commitment of
    the tree at its position, and the zero value at every position without
    one; its last indexed block is not before any of them. It fails exactly
    when two stored rows, of whatever families, claim the same position. *)
Theorem commitment_tree_checkpoint_exact db chain_type chain_id contract through_block scope tb ss summary :
  scope_of chain_type chain_id contract = Ok scope → opt_u64_to_i64 through_block "indexed_through_block" = Ok tb →
  Forall commitment_ok (all_commitments db scope tb) →
  commitment_tree_summaries db chain_type chain_id contract through_block = Ok ss → summary ∈ ss →
  let rows := filter (λ c, cc_tree c = ts_tree_number summary) (all_commitments db scope tb) in
  let checkpoint := commitment_tree_checkpoint db chain_type chain_id contract summary through_block in
  if decide (NoDup (Z.to_nat ∘ cc_position <$> rows)) then
    ∃ leaves,
      checkpoint = Ok (mkTreeCheckpoint (ts_tree_number summary) (ts_leaf_count summary) (ts_last_indexed_block summary) leaves) ∧
      length leaves = Z.to_nat (ts_leaf_count summary) ∧
      (∃ c, c ∈ rows ∧ cc_position c = ts_leaf_count summary - 1) ∧
      (∀ c, c ∈ rows → leaves !! Z.to_nat (cc_position c) = Some (be_bytes 32 (cc_hash c)) ∧ cc_block c ≤ ts_last_indexed_block summary) ∧
      (∀ i, (i < length leaves)%nat → i ∉ Z.to_nat ∘ cc_position <$> rows → leaves !! i = Some (be_bytes 32 MERKLE_ZERO_VALUE))
  else ∃ position, checkpoint = Err (DuplicateCommitmentTreePosition (ts_tree_number summary) position).
Proof.
  intros Hs Htb Hok Hss Hin rows checkpoint. set (all := all_commitments db scope tb) in *.
  destruct (summaries_Ok db chain_type chain_id contract through_block scope tb ss summary) as [Ht Hsum]; [done..|].
  pose proof (tree_summary_spec _ _ Ht) as Hspec. rewrite Hsum in Hspec. fold all in Hspec. destruct Hspec as [(c0 & Hc0 & Ht0 & Hp0) Hle].
  assert (∀ c, c ∈ rows ↔ c ∈ all ∧ cc_tree c = ts_tree_number summary) as Hrows
    by (intros c; unfold rows; rewrite list_elem_of_filter; tauto).
  pose proof (proj1 (Forall_forall _ _) Hok) as Hok'. destruct (Hok' c0 Hc0) as (Htree & Hpos & _ & Hbound & _). rewrite Ht0 in Htree, Hbound.
  pose proof i64_u64. assert (ts_leaf_count summary ≤ u64_max) by nia. unfold checkpoint, commitment_tree_checkpoint.
  rewrite (proj2 (checked_sub_Some (ts_leaf_count summary) 1 (ts_leaf_count summary - 1))) by (split; [done|lia]). cbn [ok_or mbind result_bind].
  rewrite !global_tree_position_Ok by lia. cbn [mbind result_bind].
  rewrite (commitment_rows_Ok _ _ _ _ _ _ _ scope tb) by (done || lia). fold all. cbn [mbind result_bind].
  rewrite (tree_range all (ts_tree_number summary) (ts_leaf_count summary)) by (done || lia || (intros; by apply Hle)). fold rows.
  rewrite (proj2 (try_from_Some u64_max (ts_leaf_count summary) (ts_leaf_count summary))) by (split; [done|lia]). cbn [ok_or mbind result_bind].
  set (sorted := stored_of <$> sort_cmp_key commitment_key rows). set (n := Z.to_nat (ts_leaf_count summary)).
  assert (position_of <$> sorted ≡ₚ Z.to_nat ∘ cc_position <$> rows) as Hperm.
  { unfold sorted. rewrite <- list_fmap_compose. unfold sort_cmp_key. by rewrite sort_by_perm. }
  assert (Forall (placeable summary) sorted) as Hplace.
  { apply Forall_fmap, Forall_forall. intros c. unfold sort_cmp_key. rewrite sort_by_perm. intros [Hc ?]%Hrows.
    destruct (Hok' c Hc) as (_ & ? & _). destruct (Hle c Hc); [done|]. unfold placeable. cbn. lia. }
  pose proof (place_leaves summary sorted (replicate n (be_bytes 32 MERKLE_ZERO_VALUE)) (replicate n false) Hplace) as Hfold.
  rewrite length_replicate in Hfold. specialize (Hfold eq_refl).
  assert (NoDup (position_of <$> sorted) ∧ Forall (λ r, replicate n false !! position_of r = Some false) sorted ↔
    NoDup (Z.to_nat ∘ cc_position <$> rows)) as Hiff.
  { rewrite Hperm. split; [tauto|]. intros Hnd. split; [done|]. eapply Forall_impl; [exact Hplace|]. intros r (_ & ? & _).
    apply lookup_replicate_2. unfold position_of, n. lia. }
  rewrite (decide_ext _ _ _ _ Hiff) in Hfold. case_decide as Hnd.
  - destruct Hfold as [seen ->]. cbn [mbind result_bind]. eexists. split; [done|].
    rewrite length_placed, length_replicate. split_and!; [done|by exists c0; rewrite Hrows| |].
    + intros c Hc. apply Hrows in Hc as [Hc Hct]. split; [|by apply Hle]. destruct (Hok' c Hc) as (_ & ? & _). destruct (Hle c Hc Hct).
      apply (placed_row _ sorted (stored_of c)); [by rewrite Hperm| |rewrite length_replicate; unfold position_of; cbn; lia].
      apply list_elem_of_fmap_2. unfold sort_cmp_key. rewrite sort_by_perm. by apply Hrows.
    + intros i Hi Hn. rewrite placed_other; [by apply lookup_replicate_2|]. by rewrite Hperm.
  - destruct Hfold as [position ->]. by exists position.
Qed.
End checkpoints.

(** ** Small tables *)
Definition toy_scope : Scope := (0, 1, 192).
Definition toy_cols (block log_index : Z) : SourceCols := mkSourceCols (Some (1000 + block)) (70 + block) (100 + log_index) log_index.
Definition toy_txid_columns (block log_index : Z) : PublicTxidRow :=
  ChainStore.mkTxidRow (1000 + block) (70 + block) log_index log_index (100 + log_index, 0) (be_bytes 32 (200 + log_index))
    (be_bytes 32 (300 + log_index)) 9 false None 0 0 log_index.
(** Three transactions; a transact, a shield and a nullifier row. *)
Definition toy_tables : ChainDb :=
  mkChainDb
    {[ (toy_scope, (0, 0)) := (5, (toy_cols 5 0, 17, Some [Byte.x07])) ]}
    {[ (toy_scope, (0, 2)) := (6, (toy_cols 6 1, 34, [Byte.x01], [Byte.x02])) ]}
    {[ (toy_scope, (0, 99)) := (205, toy_cols 205 2) ]} ∅ ∅ ∅
    (<[(toy_scope, (100, 0)) := (5, toy_txid_columns 5 0)]>
      (<[(toy_scope, (101, 0)) := (6, toy_txid_columns 6 1)]> {[ (toy_scope, (102, 0)) := (205, toy_txid_columns 205 2) ]}))
    ∅ ∅ ∅.

Lemma toy_commitments_ok : Forall (commitment_ok (H0 := toy_tree)) (all_commitments toy_tables toy_scope (Some 300)).
Proof. unfold commitment_ok. apply (bool_decide_unpack _). vm_compute. exact I. Qed.

Lemma commitment_tree_checkpoint_exact_witness :
  ∃ leaves, commitment_tree_checkpoint (H0 := toy_tree) toy_tables 0 1 192 (mkTreeSummary 0 3 6) (Some 300) = Ok (mkTreeCheckpoint 0 3 6 leaves) ∧
    length leaves = 3%nat ∧ leaves !! 1%nat = Some (be_bytes 32 5).
Proof.
  pose proof (commitment_tree_checkpoint_exact (H0 := toy_tree) toy_tables 0 1 192 (Some 300) toy_scope (Some 300) [mkTreeSummary 0 3 6]
    (mkTreeSummary 0 3 6) eq_refl eq_refl toy_commitments_ok ltac:(vm_compute; reflexivity) ltac:(by left)) as Hc.
  cbn zeta in Hc. rewrite decide_True in Hc by (apply (bool_decide_unpack _); vm_compute; exact I).
  destruct Hc as (leaves & Hc & Hlen & _ & _ & Hz). exists leaves. split; [exact Hc|]. split; [exact Hlen|].
  apply Hz; [rewrite Hlen; cbn; lia|apply (bool_decide_unpack _); vm_compute; exact I].
Defined.
