(* ===== verification/Migrations.v ===== *)
(** * Schema migrations ([store.rs])

    The statements of the migrations as data, and what they do to a database:
    its tables with their columns, keys, checks and rows, and its indexes.
    [run_migrations] runs those above the stored version in one transaction.
    Expressions have SQL's three truth values; a check rejects only what is
    false. A timestamp is an integer and [now()] that of the transaction. *)

From stdpp Require Import pretty.
From S2P Require Import Prelude.

Module Migrations.

(** ** Values and expressions *)
Inductive SqlType := Bytea | BigInt | SmallInt | Integer | SqlText | TimestampTz | Boolean | BigSerial.
Inductive Value := VNull | VBool (b : bool) | VInt (z : Z) | VText (s : string) | VBytes (bs : list Byte.byte).
#[export] Instance SqlType_eq_dec : EqDecision SqlType.
Proof. solve_decision. Defined.
#[export] Instance Value_eq_dec : EqDecision Value.
Proof. solve_decision. Defined.
Abbreviation Row := (gmap string Value).

Inductive Expr :=
  | ECol (c : string) | EVal (v : Value)
  | EIsNull (e : Expr) | ENot (e : Expr) | EAnd (a b : Expr) | EOr (a b : Expr)
  | EEq (a b : Expr) | ELe (a b : Expr) | EIn (e : Expr) (vs : list Value)
  | EOctetLength (e : Expr) | EMod (e : Expr) (n : Z)
  (** [btrim(e) <> ''] *)
  | ENotBlank (e : Expr).
Fixpoint columns_of (e : Expr) : list string :=
  match e with
  | ECol c => [c] | EVal _ => []
  | EIsNull e | ENot e | EIn e _ | EOctetLength e | EMod e _ | ENotBlank e => columns_of e
  | EAnd a b | EOr a b | EEq a b | ELe a b => columns_of a ++ columns_of b
  end.

Definition truth (v : Value) : option bool := match v with VBool b => Some b | _ => None end.
Definition of_truth (b : option bool) : Value := match b with Some b => VBool b | None => VNull end.
Definition and3 (a b : option bool) : option bool :=
  match a, b with Some false, _ | _, Some false => Some false | Some true, Some true => Some true | _, _ => None end.
Definition or3 (a b : option bool) : option bool :=
  match a, b with Some true, _ | _, Some true => Some true | Some false, Some false => Some false | _, _ => None end.
Definition is_space (c : Ascii.ascii) : bool := Ascii.eqb c (Ascii.ascii_of_nat 32).
Fixpoint eval (row : Row) (e : Expr) : Value :=
  match e with
  | ECol c => default VNull (row !! c)
  | EVal v => v
  | EIsNull e => VBool (bool_decide (eval row e = VNull))
  | ENot e => of_truth (negb <$> truth (eval row e))
  | EAnd a b => of_truth (and3 (truth (eval row a)) (truth (eval row b)))
  | EOr a b => of_truth (or3 (truth (eval row a)) (truth (eval row b)))
  | EEq a b => if decide (eval row a = VNull ∨ eval row b = VNull) then VNull else VBool (bool_decide (eval row a = eval row b))
  | ELe a b => match eval row a, eval row b with VInt x, VInt y => VBool (bool_decide (x ≤ y)) | _, _ => VNull end
  | EIn e vs => if decide (eval row e = VNull) then VNull else VBool (bool_decide (eval row e ∈ vs))
  | EOctetLength e => match eval row e with VBytes bs => VInt (Z.of_nat (length bs)) | _ => VNull end
  | EMod e n => match eval row e with VInt x => VInt (Z.rem x n) | _ => VNull end
  | ENotBlank e => match eval row e with VText s => VBool (negb (forallb is_space (String.list_ascii_of_string s))) | _ => VNull end
  end.
(** A [WHERE] selects what is true, a [CHECK] rejects what is false. *)
Definition selects (e : Expr) (row : Row) : Prop := eval row e = VBool true.
Definition rejects (e : Expr) (row : Row) : Prop := eval row e = VBool false.
#[export] Instance selects_dec e row : Decision (selects e row) := ltac:(unfold selects; apply _).
#[export] Instance rejects_dec e row : Decision (rejects e row) := ltac:(unfold rejects; apply _).

(** ** The database *)
Inductive Default := Now | Literal (v : Value).
Record Column := mkColumn { col_name : string; col_type : SqlType; col_not_null : bool; col_default : option Default }.
Record Table := mkTable {
  tb_columns : list Column;
  (** the primary key and the [UNIQUE] constraints *)
  tb_keys : list (list string);
  tb_checks : list (string * Expr);
  (** columns that reference another table *)
  tb_references : list (string * string);
  tb_rows : list Row;
}.
Record Index := mkIndex { ix_table : string; ix_unique : bool; ix_columns : list string; ix_where : option Expr }.
Record Db := mkDb {
  db_tables : gmap string Table;
  db_indexes : gmap string Index;
  (** [poi_indexer_schema_version]: the table and its row *)
  db_version_table : bool;
  db_version : option Z;
}.
Definition with_tables (db : Db) (ts : gmap string Table) : Db := mkDb ts (db_indexes db) (db_version_table db) (db_version db).
Definition with_indexes (db : Db) (ix : gmap string Index) : Db := mkDb (db_tables db) ix (db_version_table db) (db_version db).
Definition set_version (db : Db) (v : Z) : Db := mkDb (db_tables db) (db_indexes db) (db_version_table db) (Some v).
Definition with_columns (t : Table) (cs : list Column) : Table := mkTable cs (tb_keys t) (tb_checks t) (tb_references t) (tb_rows t).
Definition with_checks (t : Table) (ch : list (string * Expr)) : Table := mkTable (tb_columns t) (tb_keys t) ch (tb_references t) (tb_rows t).
Definition with_rows (t : Table) (rows : list Row) : Table := mkTable (tb_columns t) (tb_keys t) (tb_checks t) (tb_references t) rows.

Definition has_columns (t : Table) (cs : list string) : Prop := Forall (λ c, c ∈ col_name <$> tb_columns t) cs.
#[export] Instance has_columns_dec t cs : Decision (has_columns t cs) := ltac:(unfold has_columns; apply _).
Definition column_ok (row : Row) (c : Column) : Prop := col_not_null c = false ∨ default VNull (row !! col_name c) ≠ VNull.
#[export] Instance column_ok_dec row c : Decision (column_ok row c) := ltac:(unfold column_ok; apply _).
(** What is enforced when a row is written. *)
Definition row_ok (t : Table) (row : Row) : Prop :=
  Forall (column_ok row) (tb_columns t) ∧ Forall (λ check, ¬ rejects check.2 row) (tb_checks t).
#[export] Instance row_ok_dec t row : Decision (row_ok t row) := ltac:(unfold row_ok; apply _).

(** All columns an index depends on. *)
Definition index_columns (ix : Index) : list string := ix_columns ix ++ match ix_where ix with Some e => columns_of e | None => [] end.
(** The keys of the rows an index covers; a [NULL] is distinct from all. *)
Definition index_keys (ix : Index) (rows : list Row) : list (list Value) :=
  filter (λ key, VNull ∉ key)
    ((λ row, (λ c, default VNull (row !! c)) <$> ix_columns ix) <$>
      filter (selects (default (EVal (VBool true)) (ix_where ix))) rows).
Definition index_ok (ix : Index) (t : Table) : Prop := ix_unique ix = false ∨ NoDup (index_keys ix (tb_rows t)).
#[export] Instance index_ok_dec ix t : Decision (index_ok ix t) := ltac:(unfold index_ok; apply _).
Definition indexes_ok (db : Db) (name : string) (t : Table) : Prop :=
  map_Forall (λ _ ix, ix_table ix = name → index_ok ix t) (db_indexes db).
#[export] Instance indexes_ok_dec db name t : Decision (indexes_ok db name t) := ltac:(unfold indexes_ok; apply _).

(** ** Statements *)
Inductive Statement :=
  | CreateTable (name : string) (columns : list Column) (keys : list (list string)) (checks : list (string * Expr)) (references : list (string * string))
  | AddColumn (table : string) (column : Column)
  | DropColumn (table column : string)
  | SetNotNull (table column : string)
  (** [ALTER COLUMN event_type TYPE SMALLINT USING CASE ..] *)
  | EventTypeToSmallint
  (** [IF NOT EXISTS (.. pg_constraint ..) THEN ALTER TABLE .. ADD CONSTRAINT]; the flag is [NOT VALID] *)
  | AddCheck (table name : string) (check : Expr) (not_valid : bool)
  | CreateIndex (if_not_exists : bool) (name : string) (index : Index)
  | DropIndex (name : string)
  (** [None] is [now()] *)
  | Update (table column : string) (value : option Value) (condition : Expr)
  | BackfillUpstream
  | LinkLiveArtifacts
  | SaveInvalidatedSequence
  | RefusePinned (tables : list string)
  | DropTables (tables : list string).

Section exec.
(** the cast of a text to [SMALLINT] *)
Context (cast_smallint : string → option Z).
Context (now : Z).

Definition get_table (db : Db) (name : string) : result string Table := ok_or (db_tables db !! name) "undefined table"%string.
Definition require (P : Prop) `{Decision P} (e : string) : result string unit := if decide P then Ok tt else Err e.
(** Writing back a table whose rows changed to [rows]; [written] were written. *)
Definition write_rows (db : Db) (name : string) (t : Table) (rows written : list Row) : result string Db :=
  _ ← require (Forall (row_ok t) written) "constraint violation";
  _ ← require (indexes_ok db name (with_rows t rows)) "duplicate key";
  Ok (with_tables db (<[name := with_rows t rows]> (db_tables db))).

Definition default_value (c : Column) : Value :=
  match col_default c with Some Now => VInt now | Some (Literal v) => v | None => VNull end.
(** The value of one row after [event_type::TEXT] and the [CASE]. *)
Definition event_type_value (v : Value) : result string Value :=
  match v with
  | VText s =>
      if decide (s = "Shield"%string) then Ok (VInt 0) else if decide (s = "Transact"%string) then Ok (VInt 1)
      else if decide (s = "Unshield"%string) then Ok (VInt 2) else if decide (s = "LegacyTransact"%string) then Ok (VInt 3)
      else VInt <$> ok_or (cast_smallint s) "invalid input syntax for type smallint"%string
  | VInt z => if decide (- 2 ^ 15 ≤ z < 2 ^ 15) then Ok (VInt z) else Err "smallint out of range"%string
  | v => Ok v
  end.
(** [COUNT(DISTINCT ..)] does not count nulls. *)
Definition distinct_urls (tips : list Row) (list_key chain_id : Value) : list Value :=
  remove_dups (filter (λ url, url ≠ VNull) ((λ tip, default VNull (tip !! "upstream_url"%string)) <$>
    filter (λ tip, tip !! "list_key"%string = Some list_key ∧ tip !! "chain_id"%string = Some chain_id) tips)).
(** The only upstream of the list and chain of a snapshot, if it is the only one. *)
Definition backfilled (tips : list Row) (row : Row) : option Row :=
  if decide (default VNull (row !! "upstream_url"%string) ≠ VNull) then None
  else match row !! "list_key"%string, row !! "chain_id"%string with
       | Some list_key, Some chain_id =>
           match distinct_urls tips list_key chain_id with [url] => Some (<["upstream_url"%string := url]> row) | _ => None end
       | _, _ => None
       end.
Definition live_manifest : Expr := EAnd (EIsNull (ECol "superseded_at")) (EIsNull (ECol "unpinned_at")).
Definition links_of (manifests artifacts : list Row) : list Row :=
  manifest ← filter (selects live_manifest) manifests;
  cid ← remove_dups ((λ a, default VNull (a !! "cid"%string)) <$> filter (selects (EIsNull (ECol "unpinned_at"))) artifacts);
  [<["manifest_id"%string := default VNull (manifest !! "id"%string)]> {["artifact_cid"%string := cid]}].
Definition invalidated_manifest : Expr := EAnd (ENot (EIsNull (ECol "reconciliation_invalidated_at"))) (EIsNull (ECol "superseded_at")).
Definition row_int (c : string) (row : Row) : option Z := match row !! c with Some (VInt z) => Some z | _ => None end.
Definition max_value (zs : list Z) : option Z := match zs with [] => None | z :: zs => Some (foldl Z.max z zs) end.
Definition CHAIN_SEQUENCE_KEY : string := "chain_indexed_ipns_last_sequence".
Definition is_state_key (key : string) (row : Row) : Prop := row !! "key"%string = Some (VText key).
#[export] Instance is_state_key_dec key row : Decision (is_state_key key row) := ltac:(unfold is_state_key; apply _).
Definition upsert_state (rows : list Row) (key : string) (value : Z) : list Row :=
  if decide (Exists (is_state_key key) rows)
  then (λ row, if decide (is_state_key key row)
               then <["value"%string := VInt (Z.max (default 0 (row_int "value" row)) value)]> (<["updated_at"%string := VInt now]> row)
               else row) <$> rows
  else rows ++ [<["key"%string := VText key]> (<["value"%string := VInt value]> {["updated_at"%string := VInt now]})].

Definition exec (db : Db) (s : Statement) : result string Db :=
  match s with
  | CreateTable name columns keys checks references =>
      match db_tables db !! name with
      | Some _ => Ok db
      | None =>
          _ ← require (Forall (λ r, is_Some (db_tables db !! r.2)) references) "undefined table";
          Ok (with_tables db (<[name := mkTable columns keys checks references []]> (db_tables db)))
      end
  | AddColumn name column =>
      t ← get_table db name;
      if decide (has_columns t [col_name column]) then Ok db
      else
        let rows := <[col_name column := default_value column]> <$> tb_rows t in
        _ ← require (Forall (λ row, column_ok row column) rows) "column contains null values";
        Ok (with_tables db (<[name := with_rows (with_columns t (tb_columns t ++ [column])) rows]> (db_tables db)))
  | DropColumn name column =>
      t ← get_table db name;
      if decide (has_columns t [column]) then
        let t := mkTable (filter (λ c, col_name c ≠ column) (tb_columns t)) (filter (λ k, column ∉ k) (tb_keys t))
          (filter (λ ch, column ∉ columns_of ch.2) (tb_checks t)) (filter (λ r, r.1 ≠ column) (tb_references t)) (delete column <$> tb_rows t) in
        Ok (with_indexes (with_tables db (<[name := t]> (db_tables db)))
          (filter (λ i, ¬ (ix_table i.2 = name ∧ column ∈ index_columns i.2)) (db_indexes db)))
      else Ok db
  | SetNotNull name column =>
      t ← get_table db name;
      _ ← require (has_columns t [column]) "undefined column";
      _ ← require (Forall (λ row : Row, default VNull (row !! column) ≠ VNull) (tb_rows t)) "column contains null values";
      let columns := (λ c, if decide (col_name c = column) then mkColumn column (col_type c) true (col_default c) else c) <$> tb_columns t in
      Ok (with_tables db (<[name := with_columns t columns]> (db_tables db)))
  | EventTypeToSmallint =>
      t ← get_table db "poi_events";
      _ ← require (has_columns t ["event_type"%string]) "undefined column";
      rows ← try_map (λ row : Row, match row !! "event_type"%string with
                      | Some v => v ← event_type_value v; Ok (<["event_type"%string := v]> row)
                      | None => Ok row
                      end) (tb_rows t);
      let columns := (λ c, if decide (col_name c = "event_type"%string) then mkColumn "event_type" SmallInt (col_not_null c) (col_default c) else c) <$> tb_columns t in
      write_rows db "poi_events" (with_columns t columns) rows rows
  | AddCheck name check_name check not_valid =>
      if decide (map_Exists (λ _ t, check_name ∈ (tb_checks t).*1) (db_tables db)) then Ok db
      else
        t ← get_table db name;
        _ ← require (has_columns t (columns_of check)) "undefined column";
        _ ← require (not_valid = true ∨ Forall (λ row, ¬ rejects check row) (tb_rows t)) "check constraint is violated by some row";
        Ok (with_tables db (<[name := with_checks t (tb_checks t ++ [(check_name, check)])]> (db_tables db)))
  | CreateIndex if_not_exists name index =>
      if decide (is_Some (db_indexes db !! name)) then if if_not_exists then Ok db else Err "relation already exists"%string
      else
        t ← get_table db (ix_table index);
        _ ← require (has_columns t (index_columns index)) "undefined column";
        _ ← require (index_ok index t) "could not create unique index";
        Ok (with_indexes db (<[name := index]> (db_indexes db)))
  | DropIndex name => Ok (with_indexes db (delete name (db_indexes db)))
  | Update name column value condition =>
      t ← get_table db name;
      _ ← require (has_columns t (column :: columns_of condition)) "undefined column";
      let set row := <[column := default (VInt now) value]> row in
      write_rows db name t ((λ row, if decide (selects condition row) then set row else row) <$> tb_rows t)
        (set <$> filter (selects condition) (tb_rows t))
  | BackfillUpstream =>
      tips ← get_table db "chain_tips";
      _ ← require (has_columns tips ["list_key"; "chain_id"; "upstream_url"]%string) "undefined column";
      t ← get_table db "published_snapshots";
      _ ← require (has_columns t ["list_key"; "chain_id"; "upstream_url"]%string) "undefined column";
      write_rows db "published_snapshots" t ((λ row, default row (backfilled (tb_rows tips) row)) <$> tb_rows t) (omap (backfilled (tb_rows tips)) (tb_rows t))
  | LinkLiveArtifacts =>
      links ← get_table db "published_indexed_manifest_artifacts";
      manifests ← get_table db "published_indexed_manifests";
      artifacts ← get_table db "published_indexed_artifacts";
      _ ← require (has_columns manifests ["id"; "superseded_at"; "unpinned_at"]%string ∧ has_columns artifacts ["cid"; "unpinned_at"]%string) "undefined column";
      let added := filter (λ row, row ∉ tb_rows links) (links_of (tb_rows manifests) (tb_rows artifacts)) in
      write_rows db "published_indexed_manifest_artifacts" links (tb_rows links ++ added) added
  | SaveInvalidatedSequence =>
      manifests ← get_table db "published_indexed_manifests";
      _ ← require (has_columns manifests ("ipns_sequence"%string :: columns_of invalidated_manifest)) "undefined column";
      t ← get_table db "indexer_state";
      let invalidated := filter (selects invalidated_manifest) (tb_rows manifests) in
      if decide (invalidated = []) then Ok db
      else
        value ← ok_or (max_value (omap (row_int "ipns_sequence") invalidated)) "null value in column"%string;
        let rows := upsert_state (tb_rows t) CHAIN_SEQUENCE_KEY value in
        write_rows db "indexer_state" t rows (filter (is_state_key CHAIN_SEQUENCE_KEY) rows)
  | RefusePinned tables =>
      pinned ← try_map (λ name, t ← get_table db name; _ ← require (has_columns t ["unpinned_at"%string]) "undefined column";
                          Ok (length (filter (selects (EIsNull (ECol "unpinned_at"))) (tb_rows t)))) tables;
      require (foldr Nat.add 0%nat pinned = 0%nat) "refusing to drop legacy POI publication tables while rows are still pinned" ≫= λ _, Ok db
  | DropTables tables =>
      _ ← require (Forall (λ name, is_Some (db_tables db !! name)) tables) "undefined table";
      _ ← require (map_Forall (λ name t, name ∈ tables ∨ Forall (λ r, r.2 ∉ tables) (tb_references t)) (db_tables db)) "other objects depend on it";
      Ok (with_indexes (with_tables db (filter (λ t, t.1 ∉ tables) (db_tables db))) (filter (λ i, ix_table i.2 ∉ tables) (db_indexes db)))
  end.
End exec.
End Migrations.
