(* ===== verification/MigrationStatements.v ===== *)
(** * The statements of the migrations ([store.rs])

    The SQL of [VERSIONED_MIGRATIONS], statement by statement, and
    [run_migrations]. A [DO] block is the list of its conditional statements. *)

From S2P Require Import Prelude Migrations.

Module MigrationStatements.
Import Migrations.
#[local] Open Scope string_scope.

Definition required (name : string) (type : SqlType) : Column := mkColumn name type true None.
Definition nullable (name : string) (type : SqlType) : Column := mkColumn name type false None.
Definition stamped (name : string) : Column := mkColumn name TimestampTz true (Some Now).
Definition is_null (c : string) : Expr := EIsNull (ECol c).
Definition not_null (c : string) : Expr := ENot (is_null c).
Definition octets (c : string) (n : Z) : Expr := EEq (EOctetLength (ECol c)) (EVal (VInt n)).
Definition chain_type_zero : Expr := EEq (ECol "chain_type") (EVal (VInt 0)).
Definition unsettled : Expr := EAnd (EAnd (is_null "ipns_published_at") (is_null "superseded_at")) (is_null "unpinned_at").
Definition pending_row : Expr := EAnd unsettled (is_null "reconciliation_invalidated_at").
Definition live_row : Expr := EAnd (is_null "superseded_at") (is_null "unpinned_at").
Definition dataset_kinds : list Value := [VText "wallet_scan"; VText "commitments"; VText "merkle_checkpoint"; VText "public_txid"].
Definition legacy_tables : list string := ["published_manifests"; "published_snapshots"; "published_blocked_shields"].

Definition V4_TABLES : list Statement :=
  [ CreateTable "poi_events"
      [required "list_key" Bytea;
       required "chain_id" BigInt;
       required "event_index" BigInt;
       required "blinded_commitment" Bytea;
       required "signature" Bytea;
       required "event_type" SmallInt;
       stamped "fetched_at"]
      [["list_key"; "chain_id"; "event_index"]] [] [];
    CreateTable "blocked_shields"
      [required "list_key" Bytea;
       required "chain_id" BigInt;
       required "blinded_commitment" Bytea;
       required "commitment_hash" Bytea;
       required "signature" Bytea;
       nullable "block_reason" SqlText;
       stamped "fetched_at"]
      [["list_key"; "chain_id"; "blinded_commitment"]] [] [];
    CreateTable "chain_tips"
      [required "list_key" Bytea;
       required "chain_id" BigInt;
       required "upstream_url" SqlText;
       required "last_event_index" BigInt;
       nullable "last_tip_merkleroot" Bytea;
       stamped "updated_at"]
      [["list_key"; "chain_id"; "upstream_url"]] [] [];
    CreateTable "published_snapshots"
      [required "id" BigSerial;
       required "list_key" Bytea;
       required "chain_id" BigInt;
       required "upstream_url" SqlText;
       required "kind" SqlText;
       required "start_index" BigInt;
       required "end_index" BigInt;
       required "cid" SqlText;
       required "byte_size" BigInt;
       nullable "content_hash" Bytea;
       required "format_version" Integer;
       nullable "tip_merkleroot" Bytea;
       stamped "published_at";
       nullable "superseded_at" TimestampTz;
       nullable "unpinned_at" TimestampTz]
      [["id"]] [] [];
    CreateTable "published_blocked_shields"
      [required "id" BigSerial;
       required "list_key" Bytea;
       required "chain_id" BigInt;
       required "upstream_url" SqlText;
       required "cid" SqlText;
       required "byte_size" BigInt;
       required "format_version" Integer;
       required "content_hash" Bytea;
       stamped "published_at";
       nullable "superseded_at" TimestampTz;
       nullable "unpinned_at" TimestampTz]
      [["id"]] [] [];
    CreateTable "indexer_state"
      [required "key" SqlText;
       required "value" BigInt;
       stamped "updated_at"]
      [["key"]] [] [];
    EventTypeToSmallint;
    AddColumn "published_snapshots" (nullable "upstream_url" SqlText);
    BackfillUpstream;
    Update "published_snapshots" "upstream_url" (Some (VText "__unknown_upstream__"))
      (is_null "upstream_url");
    SetNotNull "published_snapshots" "upstream_url";
    AddColumn "published_snapshots" (nullable "unpinned_at" TimestampTz);
    AddColumn "published_snapshots" (nullable "content_hash" Bytea);
    Update "published_snapshots" "superseded_at" None
      (EAnd (is_null "content_hash") (is_null "superseded_at"));
    Update "published_snapshots" "superseded_at" None
      (EAnd (EEq (ECol "upstream_url") (EVal (VText "__unknown_upstream__"))) (is_null "superseded_at")) ].
Definition V4_CHECKS : list Statement :=
  [ AddCheck "poi_events" "poi_events_event_type_check" (EAnd (ELe (EVal (VInt 0)) (ECol "event_type")) (ELe (ECol "event_type")
      (EVal (VInt 3)))) false;
    AddCheck "poi_events" "poi_events_list_key_len_check" (octets "list_key" 32) false;
    AddCheck "poi_events" "poi_events_blinded_len_check" (octets "blinded_commitment" 32) false;
    AddCheck "poi_events" "poi_events_signature_len_check" (octets "signature" 64) false;
    AddCheck "blocked_shields" "blocked_shields_list_key_len_check" (octets "list_key" 32) false;
    AddCheck "blocked_shields" "blocked_shields_blinded_len_check" (octets "blinded_commitment" 32) false;
    AddCheck "blocked_shields" "blocked_shields_commitment_len_check" (octets "commitment_hash" 32) false;
    AddCheck "blocked_shields" "blocked_shields_signature_len_check" (octets "signature" 64) false;
    AddCheck "chain_tips" "chain_tips_tip_root_len_check" (EOr (is_null "last_tip_merkleroot") (octets "last_tip_merkleroot" 32)) false;
    AddCheck "published_snapshots" "published_snapshots_kind_check" (EIn (ECol "kind") [VText "base"; VText "delta"]) false;
    AddCheck "published_snapshots" "published_snapshots_tip_root_len_check" (EOr (is_null "tip_merkleroot") (octets "tip_merkleroot" 32)) false;
    AddCheck "published_snapshots" "published_snapshots_content_hash_len_check" (EOr (is_null "content_hash") (octets "content_hash" 32)) false;
    AddCheck "published_blocked_shields" "published_blocked_shields_list_key_len_check" (octets "list_key" 32) false;
    AddCheck "published_blocked_shields" "published_blocked_shields_content_hash_len_check" (octets "content_hash" 32) false;
    CreateIndex true "poi_events_lookup" (mkIndex "poi_events" false ["list_key"; "chain_id"; "blinded_commitment"] None);
    CreateIndex true "published_snapshots_active_lookup"
        (mkIndex "published_snapshots" false ["list_key"; "chain_id"; "upstream_url"; "kind"; "start_index"; "id"] (Some (is_null "superseded_at")));
    CreateIndex true "published_snapshots_retention_lookup"
        (mkIndex "published_snapshots" false ["superseded_at"; "unpinned_at"; "cid"]
        (Some (EAnd (not_null "superseded_at") (is_null "unpinned_at"))));
    CreateIndex true "published_snapshots_cid_live_lookup" (mkIndex "published_snapshots" false ["cid"] (Some (is_null "superseded_at")));
    CreateIndex true "published_blocked_shields_active_lookup"
        (mkIndex "published_blocked_shields" false ["list_key"; "chain_id"; "upstream_url"; "id"] (Some (is_null "superseded_at")));
    CreateIndex true "published_blocked_shields_retention_lookup"
        (mkIndex "published_blocked_shields" false ["superseded_at"; "unpinned_at"; "cid"]
        (Some (EAnd (not_null "superseded_at") (is_null "unpinned_at"))));
    CreateIndex true "published_blocked_shields_cid_live_lookup"
        (mkIndex "published_blocked_shields" false ["cid"] (Some (is_null "superseded_at"))) ].
Definition V4_MIGRATIONS : list Statement := V4_TABLES ++ V4_CHECKS.
Definition V5_MIGRATIONS : list Statement :=
  [ CreateTable "published_manifests"
      [required "id" BigSerial;
       required "cid" SqlText;
       required "ipns_sequence" BigInt;
       required "byte_size" BigInt;
       required "content_hash" Bytea;
       required "format_version" Integer;
       stamped "published_at";
       nullable "ipns_published_at" TimestampTz;
       nullable "superseded_at" TimestampTz;
       nullable "unpinned_at" TimestampTz]
      [["id"]] [] [];
    AddCheck "published_manifests" "published_manifests_content_hash_len_check" (octets "content_hash" 32) false;
    CreateIndex true "published_manifests_retention_lookup"
        (mkIndex "published_manifests" false ["superseded_at"; "published_at"; "unpinned_at"; "cid"] (Some (is_null "unpinned_at")));
    CreateIndex true "published_manifests_cid_live_lookup"
        (mkIndex "published_manifests" false ["cid"] (Some (EAnd (not_null "ipns_published_at") (is_null "superseded_at")))) ].
Definition V6_MIGRATIONS : list Statement :=
  [ CreateTable "chain_indexing_progress"
      [required "chain_type" SmallInt;
       required "chain_id" BigInt;
       required "railgun_contract" SqlText;
       required "dataset_kind" SqlText;
       required "indexed_through_block" BigInt;
       required "indexed_through_block_hash" Bytea;
       stamped "updated_at"]
      [["chain_type"; "chain_id"; "railgun_contract"; "dataset_kind"]] [] [];
    CreateTable "indexed_block_checkpoints"
      [required "chain_type" SmallInt;
       required "chain_id" BigInt;
       required "railgun_contract" SqlText;
       required "checkpoint_kind" SqlText;
       required "block_number" BigInt;
       required "block_hash" Bytea;
       required "parent_hash" Bytea;
       stamped "created_at"]
      [["chain_type"; "chain_id"; "railgun_contract"; "checkpoint_kind"; "block_number"]] [] [];
    CreateTable "indexed_block_headers"
      [required "chain_type" SmallInt;
       required "chain_id" BigInt;
       required "block_number" BigInt;
       required "block_hash" Bytea;
       required "parent_hash" Bytea;
       stamped "indexed_at"]
      [["chain_type"; "chain_id"; "block_number"]; ["chain_type"; "chain_id"; "block_hash"]] [] [];
    AddCheck "chain_indexing_progress" "chain_indexing_progress_chain_type_check" chain_type_zero false;
    AddCheck "chain_indexing_progress" "chain_indexing_progress_dataset_kind_check" (EIn (ECol "dataset_kind") dataset_kinds) false;
    AddCheck "chain_indexing_progress" "chain_indexing_progress_block_hash_len_check" (octets "indexed_through_block_hash" 32) false;
    AddCheck "indexed_block_checkpoints" "indexed_block_checkpoints_chain_type_check" chain_type_zero false;
    AddCheck "indexed_block_checkpoints" "indexed_block_checkpoints_kind_check" (EIn (ECol "checkpoint_kind") dataset_kinds) false;
    AddCheck "indexed_block_checkpoints" "indexed_block_checkpoints_block_hash_len_check" (octets "block_hash" 32) false;
    AddCheck "indexed_block_checkpoints" "indexed_block_checkpoints_parent_hash_len_check" (octets "parent_hash" 32) false;
    AddCheck "indexed_block_headers" "indexed_block_headers_chain_type_check" chain_type_zero false;
    AddCheck "indexed_block_headers" "indexed_block_headers_block_hash_len_check" (octets "block_hash" 32) false;
    AddCheck "indexed_block_headers" "indexed_block_headers_parent_hash_len_check" (octets "parent_hash" 32) false;
    CreateIndex true "chain_indexing_progress_tip_lookup"
        (mkIndex "chain_indexing_progress" false ["chain_type"; "chain_id"; "dataset_kind"; "indexed_through_block"] None);
    CreateIndex true "indexed_block_checkpoints_latest_lookup"
        (mkIndex "indexed_block_checkpoints" false ["chain_type"; "chain_id"; "railgun_contract"; "checkpoint_kind"; "block_number"] None);
    CreateIndex true "indexed_block_headers_parent_lookup" (mkIndex "indexed_block_headers" false ["chain_type"; "chain_id"; "parent_hash"] None) ].
Definition V7_TABLES : list Statement :=
  [ CreateTable "indexed_public_transactions"
      [required "chain_type" SmallInt;
       required "chain_id" BigInt;
       required "railgun_contract" SqlText;
       required "block_number" BigInt;
       nullable "block_timestamp" BigInt;
       required "block_hash" Bytea;
       required "transaction_hash" Bytea;
       required "first_log_index" BigInt;
       required "last_log_index" BigInt;
       stamped "indexed_at"]
      [["chain_type"; "chain_id"; "railgun_contract"; "transaction_hash"]] [] [];
    CreateTable "indexed_transact_commitments"
      [required "chain_type" SmallInt;
       required "chain_id" BigInt;
       required "railgun_contract" SqlText;
       required "block_number" BigInt;
       nullable "block_timestamp" BigInt;
       required "block_hash" Bytea;
       required "transaction_hash" Bytea;
       required "log_index" BigInt;
       required "tree_number" BigInt;
       required "tree_position" BigInt;
       required "commitment_hash" Bytea;
       nullable "ciphertext" Bytea;
       stamped "indexed_at"]
      [["chain_type"; "chain_id"; "railgun_contract"; "tree_number"; "tree_position"]] [] [];
    CreateTable "indexed_shield_commitments"
      [required "chain_type" SmallInt;
       required "chain_id" BigInt;
       required "railgun_contract" SqlText;
       required "block_number" BigInt;
       nullable "block_timestamp" BigInt;
       required "block_hash" Bytea;
       required "transaction_hash" Bytea;
       required "log_index" BigInt;
       required "tree_number" BigInt;
       required "tree_position" BigInt;
       required "commitment_hash" Bytea;
       required "preimage" Bytea;
       required "shield_ciphertext" Bytea;
       stamped "indexed_at"]
      [["chain_type"; "chain_id"; "railgun_contract"; "tree_number"; "tree_position"]] [] [];
    CreateTable "indexed_nullifiers"
      [required "chain_type" SmallInt;
       required "chain_id" BigInt;
       required "railgun_contract" SqlText;
       required "block_number" BigInt;
       nullable "block_timestamp" BigInt;
       required "block_hash" Bytea;
       required "transaction_hash" Bytea;
       required "log_index" BigInt;
       required "tree_number" BigInt;
       required "nullifier" Bytea;
       stamped "indexed_at"]
      [["chain_type"; "chain_id"; "railgun_contract"; "tree_number"; "nullifier"]] [] [];
    CreateTable "indexed_legacy_encrypted_commitments"
      [required "chain_type" SmallInt;
       required "chain_id" BigInt;
       required "railgun_contract" SqlText;
       required "block_number" BigInt;
       nullable "block_timestamp" BigInt;
       required "block_hash" Bytea;
       required "transaction_hash" Bytea;
       required "log_index" BigInt;
       required "tree_number" BigInt;
       required "tree_position" BigInt;
       required "commitment_hash" Bytea;
       required "ciphertext" Bytea;
       stamped "indexed_at"]
      [["chain_type"; "chain_id"; "railgun_contract"; "tree_number"; "tree_position"]] [] [];
    CreateTable "indexed_legacy_generated_commitments"
      [required "chain_type" SmallInt;
       required "chain_id" BigInt;
       required "railgun_contract" SqlText;
       required "block_number" BigInt;
       nullable "block_timestamp" BigInt;
       required "block_hash" Bytea;
       required "transaction_hash" Bytea;
       required "log_index" BigInt;
       required "tree_number" BigInt;
       required "tree_position" BigInt;
       required "commitment_hash" Bytea;
       required "preimage" Bytea;
       required "encrypted_random" Bytea;
       stamped "indexed_at"]
      [["chain_type"; "chain_id"; "railgun_contract"; "tree_number"; "tree_position"]] [] [] ].
Definition V7_CHECKS : list Statement :=
  [ AddCheck "indexed_public_transactions" "idx_public_tx_chain_type_check" chain_type_zero false;
    AddCheck "indexed_public_transactions" "idx_public_tx_block_hash_len" (octets "block_hash" 32) false;
    AddCheck "indexed_public_transactions" "idx_public_tx_hash_len" (octets "transaction_hash" 32) false;
    AddCheck "indexed_transact_commitments" "idx_transact_chain_type_check" chain_type_zero false;
    AddCheck "indexed_transact_commitments" "idx_transact_block_hash_len" (octets "block_hash" 32) false;
    AddCheck "indexed_transact_commitments" "idx_transact_tx_hash_len" (octets "transaction_hash" 32) false;
    AddCheck "indexed_transact_commitments" "idx_transact_commit_hash_len" (octets "commitment_hash" 32) false;
    AddCheck "indexed_shield_commitments" "idx_shield_chain_type_check" chain_type_zero false;
    AddCheck "indexed_shield_commitments" "idx_shield_block_hash_len" (octets "block_hash" 32) false;
    AddCheck "indexed_shield_commitments" "idx_shield_tx_hash_len" (octets "transaction_hash" 32) false;
    AddCheck "indexed_shield_commitments" "idx_shield_commit_hash_len" (octets "commitment_hash" 32) false;
    AddCheck "indexed_nullifiers" "idx_nullifier_chain_type_check" chain_type_zero false;
    AddCheck "indexed_nullifiers" "idx_nullifier_block_hash_len" (octets "block_hash" 32) false;
    AddCheck "indexed_nullifiers" "idx_nullifier_tx_hash_len" (octets "transaction_hash" 32) false;
    AddCheck "indexed_nullifiers" "idx_nullifier_len" (octets "nullifier" 32) false;
    AddCheck "indexed_legacy_encrypted_commitments" "idx_legacy_enc_chain_type_check" chain_type_zero false;
    AddCheck "indexed_legacy_encrypted_commitments" "idx_legacy_enc_block_hash_len" (octets "block_hash" 32) false;
    AddCheck "indexed_legacy_encrypted_commitments" "idx_legacy_enc_tx_hash_len" (octets "transaction_hash" 32) false;
    AddCheck "indexed_legacy_encrypted_commitments" "idx_legacy_enc_commit_hash_len" (octets "commitment_hash" 32) false;
    AddCheck "indexed_legacy_generated_commitments" "idx_legacy_gen_chain_type_check" chain_type_zero false;
    AddCheck "indexed_legacy_generated_commitments" "idx_legacy_gen_block_hash_len" (octets "block_hash" 32) false;
    AddCheck "indexed_legacy_generated_commitments" "idx_legacy_gen_tx_hash_len" (octets "transaction_hash" 32) false;
    AddCheck "indexed_legacy_generated_commitments" "idx_legacy_gen_commit_hash_len" (octets "commitment_hash" 32) false;
    AddCheck "indexed_legacy_generated_commitments" "idx_legacy_gen_random_len" (octets "encrypted_random" 64) false;
    CreateIndex true "idx_public_tx_block_lookup"
        (mkIndex "indexed_public_transactions" false ["chain_type"; "chain_id"; "railgun_contract"; "block_number"; "first_log_index"] None);
    CreateIndex true "idx_transact_block_lookup"
        (mkIndex "indexed_transact_commitments" false ["chain_type"; "chain_id"; "railgun_contract"; "block_number"; "log_index"] None);
    CreateIndex true "idx_transact_tree_lookup"
        (mkIndex "indexed_transact_commitments" false ["chain_type"; "chain_id"; "railgun_contract"; "tree_number"; "tree_position"] None);
    CreateIndex true "idx_shield_block_lookup"
        (mkIndex "indexed_shield_commitments" false ["chain_type"; "chain_id"; "railgun_contract"; "block_number"; "log_index"] None);
    CreateIndex true "idx_shield_tree_lookup"
        (mkIndex "indexed_shield_commitments" false ["chain_type"; "chain_id"; "railgun_contract"; "tree_number"; "tree_position"] None);
    CreateIndex true "idx_nullifier_block_lookup"
        (mkIndex "indexed_nullifiers" false ["chain_type"; "chain_id"; "railgun_contract"; "block_number"; "log_index"] None);
    CreateIndex true "idx_legacy_enc_block_lookup"
        (mkIndex "indexed_legacy_encrypted_commitments" false ["chain_type"; "chain_id"; "railgun_contract"; "block_number"; "log_index"] None);
    CreateIndex true "idx_legacy_enc_tree_lookup"
        (mkIndex "indexed_legacy_encrypted_commitments" false ["chain_type"; "chain_id"; "railgun_contract"; "tree_number"; "tree_position"] None);
    CreateIndex true "idx_legacy_gen_block_lookup"
        (mkIndex "indexed_legacy_generated_commitments" false ["chain_type"; "chain_id"; "railgun_contract"; "block_number"; "log_index"] None);
    CreateIndex true "idx_legacy_gen_tree_lookup"
        (mkIndex "indexed_legacy_generated_commitments" false ["chain_type"; "chain_id"; "railgun_contract"; "tree_number"; "tree_position"] None) ].
Definition V7_MIGRATIONS : list Statement := V7_TABLES ++ V7_CHECKS.
Definition V8_MIGRATIONS : list Statement :=
  [ CreateTable "published_indexed_artifacts"
      [required "id" BigSerial;
       required "artifact_kind" SqlText;
       required "dataset_kind" SqlText;
       required "chain_type" SmallInt;
       required "chain_id" BigInt;
       required "railgun_contract" SqlText;
       required "range_kind" SqlText;
       required "range_start" BigInt;
       required "range_end" BigInt;
       required "cid" SqlText;
       required "byte_size" BigInt;
       required "content_hash" Bytea;
       required "format_version" Integer;
       stamped "published_at";
       stamped "last_referenced_at";
       nullable "unpinned_at" TimestampTz]
      [["id"]; ["artifact_kind"; "dataset_kind"; "chain_type"; "chain_id"; "railgun_contract"; "range_kind"; "range_start"; "range_end";
          "cid"]] [] [];
    CreateTable "published_indexed_manifests"
      [required "id" BigSerial;
       required "cid" SqlText;
       required "ipns_sequence" BigInt;
       required "byte_size" BigInt;
       required "content_hash" Bytea;
       required "format_version" Integer;
       stamped "published_at";
       nullable "ipns_published_at" TimestampTz;
       nullable "superseded_at" TimestampTz;
       nullable "unpinned_at" TimestampTz]
      [["id"]] [] [];
    AddCheck "published_indexed_artifacts" "published_indexed_artifacts_kind_check" (EIn
        (ECol "artifact_kind") [VText "chunk"; VText "catalog"]) false;
    AddCheck "published_indexed_artifacts" "published_indexed_artifacts_dataset_check" (EIn (ECol "dataset_kind") dataset_kinds) false;
    AddCheck "published_indexed_artifacts" "published_indexed_artifacts_chain_type_check" chain_type_zero false;
    AddCheck "published_indexed_artifacts" "published_indexed_artifacts_range_kind_check" (EIn
        (ECol "range_kind") [VText "block"; VText "txid_index"; VText "tree_position"; VText "poi_event_index"]) false;
    AddCheck "published_indexed_artifacts" "published_indexed_artifacts_range_order_check" (ELe (ECol "range_start") (ECol "range_end")) false;
    AddCheck "published_indexed_artifacts" "published_indexed_artifacts_hash_len_check" (octets "content_hash" 32) false;
    AddCheck "published_indexed_manifests" "published_indexed_manifests_hash_len_check" (octets "content_hash" 32) false;
    CreateIndex true "published_indexed_artifacts_lookup"
        (mkIndex "published_indexed_artifacts" false ["dataset_kind"; "chain_type"; "chain_id"; "railgun_contract"; "range_kind"; "range_start";
        "range_end"] None);
    CreateIndex true "published_indexed_artifacts_cid_live_lookup"
        (mkIndex "published_indexed_artifacts" false ["cid"] (Some (is_null "unpinned_at")));
    CreateIndex true "published_indexed_manifests_retention_lookup"
        (mkIndex "published_indexed_manifests" false ["superseded_at"; "published_at"; "unpinned_at"; "cid"] (Some (is_null "unpinned_at")));
    CreateIndex true "published_indexed_manifests_cid_live_lookup"
        (mkIndex "published_indexed_manifests" false ["cid"] (Some (EAnd (not_null "ipns_published_at") (is_null "superseded_at")))) ].
Definition V9_MIGRATIONS : list Statement :=
  [ CreateTable "indexed_public_txid_rows"
      [required "chain_type" SmallInt;
       required "chain_id" BigInt;
       required "railgun_contract" SqlText;
       required "block_number" BigInt;
       required "block_timestamp" BigInt;
       required "block_hash" Bytea;
       required "transaction_hash" Bytea;
       required "first_log_index" BigInt;
       required "last_log_index" BigInt;
       required "railgun_transaction_index" BigInt;
       required "row_id" SqlText;
       required "merkle_root" Bytea;
       required "nullifiers" Bytea;
       required "commitments" Bytea;
       required "bound_params_hash" Bytea;
       required "has_unshield" Boolean;
       required "utxo_tree_in" BigInt;
       required "utxo_tree_out" BigInt;
       required "utxo_batch_start_position_out" BigInt;
       stamped "indexed_at"]
      [["chain_type"; "chain_id"; "railgun_contract"; "transaction_hash"; "railgun_transaction_index"]] [] [];
    AddCheck "indexed_public_txid_rows" "idx_public_txid_rows_chain_type_check" chain_type_zero false;
    AddCheck "indexed_public_txid_rows" "idx_public_txid_rows_block_hash_len" (octets "block_hash" 32) false;
    AddCheck "indexed_public_txid_rows" "idx_public_txid_rows_tx_hash_len" (octets "transaction_hash" 32) false;
    AddCheck "indexed_public_txid_rows" "idx_public_txid_rows_merkle_root_len" (octets "merkle_root" 32) false;
    AddCheck "indexed_public_txid_rows" "idx_public_txid_rows_nullifiers_len" (EEq (EMod (EOctetLength (ECol "nullifiers")) 32)
        (EVal (VInt 0))) false;
    AddCheck "indexed_public_txid_rows" "idx_public_txid_rows_commitments_len" (EEq (EMod (EOctetLength (ECol "commitments")) 32)
        (EVal (VInt 0))) false;
    AddCheck "indexed_public_txid_rows" "idx_public_txid_rows_bound_hash_len" (octets "bound_params_hash" 32) false;
    CreateIndex true "idx_public_txid_rows_order"
        (mkIndex "indexed_public_txid_rows" false ["chain_type"; "chain_id"; "railgun_contract"; "block_number"; "first_log_index";
        "transaction_hash"; "railgun_transaction_index"] None) ].
Definition V10_MIGRATIONS : list Statement :=
  [ CreateIndex true "published_indexed_artifacts_retention_lookup"
      (mkIndex "published_indexed_artifacts" false ["last_referenced_at"; "cid"] (Some (is_null "unpinned_at"))) ].
Definition V11_MIGRATIONS : list Statement :=
  [ CreateTable "published_indexed_manifest_artifacts"
      [required "manifest_id" BigInt;
       required "artifact_cid" SqlText]
      [["manifest_id"; "artifact_cid"]] [] [("manifest_id", "published_indexed_manifests")];
    CreateIndex true "published_indexed_manifest_artifacts_cid_lookup"
        (mkIndex "published_indexed_manifest_artifacts" false ["artifact_cid"; "manifest_id"] None);
    LinkLiveArtifacts ].
Definition V12_MIGRATIONS : list Statement :=
  [ CreateTable "published_poi_v4_artifacts"
      [required "id" BigSerial;
       required "artifact_kind" SqlText;
       required "list_key" Bytea;
       required "chain_type" SmallInt;
       required "chain_id" BigInt;
       required "txid_version" SqlText;
       required "range_start" BigInt;
       required "range_end" BigInt;
       required "cid" SqlText;
       required "byte_size" BigInt;
       required "content_hash" Bytea;
       nullable "end_root" Bytea;
       required "descriptor_json" SqlText;
       required "format_version" Integer;
       stamped "published_at";
       stamped "last_referenced_at";
       nullable "unpinned_at" TimestampTz]
      [["id"]; ["artifact_kind"; "list_key"; "chain_type"; "chain_id"; "txid_version"; "range_start"; "range_end"; "cid"]] [] [];
    CreateTable "published_poi_v4_manifests"
      [required "id" BigSerial;
       required "cid" SqlText;
       required "ipns_sequence" BigInt;
       required "byte_size" BigInt;
       required "content_hash" Bytea;
       required "format_version" Integer;
       stamped "published_at";
       nullable "ipns_published_at" TimestampTz;
       nullable "superseded_at" TimestampTz;
       nullable "unpinned_at" TimestampTz]
      [["id"]] [] [];
    CreateTable "published_poi_v4_manifest_entries"
      [required "manifest_id" BigInt;
       required "list_key" Bytea;
       required "chain_type" SmallInt;
       required "chain_id" BigInt;
       required "txid_version" SqlText;
       required "entry_json" SqlText]
      [["manifest_id"; "list_key"; "chain_type"; "chain_id"; "txid_version"]] [] [("manifest_id", "published_poi_v4_manifests")];
    CreateTable "published_poi_v4_manifest_artifacts"
      [required "manifest_id" BigInt;
       required "artifact_cid" SqlText]
      [["manifest_id"; "artifact_cid"]] [] [("manifest_id", "published_poi_v4_manifests")];
    AddCheck "published_poi_v4_artifacts" "published_poi_v4_artifacts_kind_check" (EIn
        (ECol "artifact_kind") [VText "checkpoint_chunk"; VText "checkpoint_catalog"; VText "current_tail"; VText "bridge"; VText
        "blocked_shields"]) false;
    AddCheck "published_poi_v4_artifacts" "published_poi_v4_artifacts_chain_type_check" chain_type_zero false;
    AddCheck "published_poi_v4_artifacts" "published_poi_v4_artifacts_list_key_len_check" (octets "list_key" 32) false;
    AddCheck "published_poi_v4_artifacts" "published_poi_v4_artifacts_hash_len_check" (octets "content_hash" 32) false;
    AddCheck "published_poi_v4_artifacts" "published_poi_v4_artifacts_root_len_check" (EOr (is_null "end_root") (octets "end_root" 32)) false;
    AddCheck "published_poi_v4_artifacts" "published_poi_v4_artifacts_range_check" (EOr (EAnd (EEq (ECol "range_start") (EVal (VInt (-1)))) (EEq
        (ECol "range_end") (EVal (VInt (-1))))) (EAnd (ELe (EVal (VInt 0)) (ECol "range_start")) (ELe (ECol "range_start") (ECol
        "range_end")))) false;
    AddCheck "published_poi_v4_manifests" "published_poi_v4_manifests_hash_len_check" (octets "content_hash" 32) false;
    CreateIndex true "published_poi_v4_artifacts_exact_lookup"
        (mkIndex "published_poi_v4_artifacts" false ["artifact_kind"; "list_key"; "chain_type"; "chain_id"; "txid_version"; "range_start";
        "range_end"; "byte_size"; "content_hash"] (Some (is_null "unpinned_at")));
    CreateIndex true "published_poi_v4_artifacts_retention_lookup"
        (mkIndex "published_poi_v4_artifacts" false ["last_referenced_at"; "cid"] (Some (is_null "unpinned_at")));
    CreateIndex true "published_poi_v4_manifests_retention_lookup"
        (mkIndex "published_poi_v4_manifests" false ["superseded_at"; "published_at"; "unpinned_at"; "cid"] (Some (is_null "unpinned_at")));
    CreateIndex true "published_poi_v4_manifest_artifacts_cid_lookup"
        (mkIndex "published_poi_v4_manifest_artifacts" false ["artifact_cid"; "manifest_id"] None);
    CreateIndex true "published_poi_v4_manifest_entries_scope_lookup"
        (mkIndex "published_poi_v4_manifest_entries" false ["list_key"; "chain_type"; "chain_id"; "txid_version"; "manifest_id"] None) ].
Definition V13_MIGRATIONS : list Statement :=
  [ CreateIndex true "published_manifests_one_pending" (mkIndex "published_manifests" true [] (Some unsettled));
    CreateIndex true "published_poi_v4_manifests_one_pending" (mkIndex "published_poi_v4_manifests" true [] (Some unsettled)) ].
Definition V14_MIGRATIONS : list Statement :=
  [ AddColumn "poi_events" (mkColumn "event_data_complete" Boolean true (Some (Literal (VBool false))));
    Update "poi_events" "event_data_complete" (Some (VBool true))
      (ENot (EEq (ECol "signature") (EVal (VBytes (replicate 64 Byte.x00)))));
    CreateIndex true "poi_events_incomplete_lookup"
        (mkIndex "poi_events" false ["list_key"; "chain_id"; "event_index"] (Some (EEq (ECol "event_data_complete") (EVal (VBool false))))) ].
Definition V15_MIGRATIONS : list Statement :=
  [ AddColumn "published_manifests" (nullable "reconciliation_invalidated_at" TimestampTz);
    AddColumn "published_poi_v4_manifests" (nullable "reconciliation_invalidated_at" TimestampTz);
    Update "published_manifests" "reconciliation_invalidated_at" None
      pending_row;
    Update "published_poi_v4_manifests" "reconciliation_invalidated_at" None
      pending_row;
    DropIndex "published_manifests_one_pending";
    DropIndex "published_poi_v4_manifests_one_pending";
    CreateIndex false "published_manifests_one_pending" (mkIndex "published_manifests" true [] (Some pending_row));
    CreateIndex false "published_poi_v4_manifests_one_pending" (mkIndex "published_poi_v4_manifests" true [] (Some pending_row)) ].
Definition V16_MIGRATIONS : list Statement :=
  [ AddColumn "published_indexed_manifests" (nullable "manifest_json" SqlText) ].
Definition V17_MIGRATIONS : list Statement :=
  [ AddColumn "published_indexed_manifests" (nullable "reconciliation_invalidated_at" TimestampTz);
    Update "published_indexed_manifests" "reconciliation_invalidated_at" None
      (EAnd (EAnd unsettled (is_null "manifest_json")) (is_null "reconciliation_invalidated_at"));
    SaveInvalidatedSequence;
    CreateIndex true "published_indexed_manifests_one_pending" (mkIndex "published_indexed_manifests" true [] (Some pending_row)) ].
Definition V18_MIGRATIONS : list Statement :=
  [ CreateTable "poi_dataset_identity"
      [mkColumn "id" Boolean true (Some (Literal (VBool true)));
       required "txid_version" SqlText]
      [["id"]] [("poi_dataset_identity_id_check", ECol "id"); ("poi_dataset_identity_txid_version_check", ENotBlank (ECol "txid_version"))] [] ].
Definition V19_MIGRATIONS : list Statement :=
  [ CreateTable "pin_cleanup_debt"
      [required "cid" SqlText;
       required "provider" SqlText;
       mkColumn "attempts" BigInt true (Some (Literal (VInt 0)));
       required "last_error" SqlText;
       stamped "created_at";
       stamped "updated_at"]
      [["cid"]] [("pin_cleanup_debt_attempts_check", ELe (EVal (VInt 0)) (ECol "attempts"))] [] ].
Definition V20_MIGRATIONS : list Statement :=
  [ AddColumn "indexed_public_txid_rows" (nullable "unshield_preimage" Bytea);
    AddCheck "indexed_public_txid_rows" "idx_public_txid_rows_unshield_preimage_check" (EOr
        (ECol "has_unshield") (is_null "unshield_preimage")) true ].
Definition V21_MIGRATIONS : list Statement :=
  [ DropColumn "indexed_public_txid_rows" "merkle_root" ].
Definition V22_MIGRATIONS : list Statement :=
  [ Update "published_manifests" "superseded_at" None
      live_row;
    Update "published_snapshots" "superseded_at" None
      live_row;
    Update "published_blocked_shields" "superseded_at" None
      live_row ].
Definition V23_MIGRATIONS : list Statement :=
  [ RefusePinned legacy_tables;
    DropTables legacy_tables ].

Definition CURRENT_SCHEMA_VERSION : Z := 23.
Definition VERSIONED_MIGRATIONS : list (Z * list Statement) :=
  [(4, V4_MIGRATIONS); (5, V5_MIGRATIONS); (6, V6_MIGRATIONS); (7, V7_MIGRATIONS); (8, V8_MIGRATIONS); (9, V9_MIGRATIONS);
   (10, V10_MIGRATIONS); (11, V11_MIGRATIONS); (12, V12_MIGRATIONS); (13, V13_MIGRATIONS); (14, V14_MIGRATIONS); (15, V15_MIGRATIONS);
   (16, V16_MIGRATIONS); (17, V17_MIGRATIONS); (18, V18_MIGRATIONS); (19, V19_MIGRATIONS); (20, V20_MIGRATIONS); (21, V21_MIGRATIONS);
   (22, V22_MIGRATIONS); (23, V23_MIGRATIONS)].

Section run.
Context (cast_smallint : string → option Z) (now : Z).
Abbreviation exec := (exec cast_smallint now).

(** One version: its statements, then the new version. *)
Definition apply_version (db : Db) (version : Z * list Statement) : result string Db :=
  db ← try_fold exec db version.2;
  Ok (set_version db version.1).
(** The versions above the current one. *)
Definition apply_versions (versions : list (Z * list Statement)) (current_version : Z) (db : Db) : result string Db :=
  try_fold (λ db version, if decide (version.1 ≤ current_version)%Z then Ok db else apply_version db version) db versions.

(** A build with these migrations. The table of the version is created before the
    transaction; what fails leaves it and nothing else. *)
Definition run_versions (versions : list (Z * list Statement)) (current_schema : Z) (db : Db) : result string unit * Db :=
  let db := mkDb (db_tables db) (db_indexes db) true (db_version db) in
  let current_version := default 0 (db_version db) in
  let tx := set_version db current_version in
  if decide (current_schema ≤ current_version)%Z then (Ok tt, tx)
  else match apply_versions versions current_version tx with
       | Ok db => (Ok tt, db)
       | Err e => (Err e, db)
       end.
Definition run_migrations (db : Db) : result string unit * Db := run_versions VERSIONED_MIGRATIONS CURRENT_SCHEMA_VERSION db.
End run.
End MigrationStatements.
