(* ===== verification/MigrationsCorrect.v ===== *)
(** * Migrations are safe

    A run is atomic, ends at the current version and changes nothing when it is
    repeated, and upgrading in stages is upgrading at once. No row of a table
    that stays is lost and only the columns the migrations are about change. The
    tables of the retired channel are dropped exactly when nothing of theirs is
    pinned. Sequences of manifests that an upgrade gives up stay reserved. *)

From stdpp Require Import sorting.
From S2P Require Import Prelude Migrations MigrationStatements.

Import Migrations MigrationStatements.

(** ** Folds *)
Lemma try_fold_ind {E S A} (f : S → A → result E S) (R : S → S → Prop) (Q : A → Prop) s l s' :
  (∀ s, R s s) → (∀ s t u, R s t → R t u → R s u) → (∀ s a s', Q a → f s a = Ok s' → R s s') →
  Forall Q l → try_fold f s l = Ok s' → R s s'.
Proof.
  intros Hrefl Htrans Hstep Hl. revert s. induction Hl as [|a l Ha _ IH]; intros s; cbn; [intros [= <-]; apply Hrefl|].
  intros Hr. apply bind_Ok in Hr as (t & Ht & Hr). eapply Htrans; [by eapply Hstep|by apply IH].
Qed.

Section run.
Context (cast_smallint : string → option Z) (now : Z).
Abbreviation exec := (exec cast_smallint now).
Abbreviation apply_versions := (apply_versions cast_smallint now).
Abbreviation run := (run_migrations cast_smallint now).
Implicit Types (db : Db) (t : Table).

(** ** Staged upgrades *)
Lemma apply_above cur k versions db :
  cur ≤ k → Forall (λ v, k < v.1) versions → filter (λ v, v.1 ≤ k) versions = [] ∧ apply_versions versions cur db = apply_versions versions k db.
Proof.
  intros Hcur Hall. split.
  - induction Hall as [|v l Hv _ IH]; [done|]. by rewrite filter_cons_False by lia.
  - unfold MigrationStatements.apply_versions. revert db. induction Hall as [|v l Hv _ IH]; intros db; cbn; [done|].
    rewrite !decide_False by lia. destruct (apply_version cast_smallint now db v); [apply IH|done].
Qed.
Lemma apply_staged cur k versions db db1 :
  cur ≤ k → StronglySorted Z.lt versions.*1 → apply_versions (filter (λ v, v.1 ≤ k) versions) cur db = Ok db1 →
  apply_versions versions cur db = apply_versions versions k db1.
Proof.
  intros Hcur. revert db. induction versions as [|v l IH]; intros db Hs; [by intros [= <-]|].
  cbn [fmap list_fmap] in Hs. apply StronglySorted_inv in Hs as [Hs Hv]. destruct (decide (v.1 ≤ k)) as [Hk|Hk].
  - rewrite filter_cons_True by done. unfold MigrationStatements.apply_versions in *. cbn. rewrite (decide_True _ _ Hk).
    intros Hr. apply bind_Ok in Hr as (db2 & Hv2 & Hr). rewrite Hv2. cbn. by apply IH.
  - assert (Forall (λ v, k < v.1) (v :: l)) as Hall.
    { constructor; [lia|]. rewrite Forall_fmap in Hv. eapply Forall_impl; [exact Hv|]. cbn. lia. }
    destruct (apply_above cur k (v :: l) db Hcur Hall) as [-> ->]. by intros [= <-].
Qed.
Lemma versions_sorted : StronglySorted Z.lt VERSIONED_MIGRATIONS.*1.
Proof. apply (bool_decide_unpack _). vm_compute. exact I. Qed.
Lemma apply_reaches versions v cur db db' :
  cur < v.1 → apply_versions (versions ++ [v]) cur db = Ok db' → db_version db' = Some v.1.
Proof.
  intros Hv Hr. unfold MigrationStatements.apply_versions in Hr. rewrite try_fold_app in Hr. apply bind_Ok in Hr as (db1 & _ & Hr).
  cbn in Hr. rewrite decide_False in Hr by lia. unfold apply_version in Hr. destruct (try_fold _ db1 v.2); [|done]. by injection Hr as <-.
Qed.

Lemma write_rows_version db name t rows written db' :
  write_rows db name t rows written = Ok db' → db_version db' = db_version db ∧ db_version_table db' = db_version_table db.
Proof. intros Hr. unfold write_rows in Hr. do 2 apply bind_Ok in Hr as (? & _ & Hr). by injection Hr as <-. Qed.
Lemma exec_version db s db' : exec db s = Ok db' → db_version db' = db_version db ∧ db_version_table db' = db_version_table db.
Proof.
  destruct s; cbn [Migrations.exec]; intros Hr;
    repeat first [apply bind_Ok in Hr as (? & _ & Hr) | case_decide | case_match]; first [exact (write_rows_version _ _ _ _ _ _ Hr) | by simplify_eq].
Qed.
Lemma apply_flag versions cur db db' : apply_versions versions cur db = Ok db' → db_version_table db' = db_version_table db.
Proof.
  apply (try_fold_ind _ (λ db db', db_version_table db' = db_version_table db) (λ _, True)); [done|congruence| |by apply Forall_true].
  intros d v d' _. case_decide; [by intros [= <-]|]. unfold apply_version. intros Hr. apply bind_Ok in Hr as (d2 & Hr & [= <-]). cbn.
  revert Hr. apply (try_fold_ind _ (λ db db', db_version_table db' = db_version_table db) (λ _, True)); [done|congruence| |by apply Forall_true].
  intros x s y _ [_ Hf]%exec_version. done.
Qed.
Lemma filter_last (k : Z) {A} (versions : list (Z * A)) :
  StronglySorted Z.lt versions.*1 → k ∈ versions.*1 → ∃ l a, filter (λ v, v.1 ≤ k) versions = l ++ [(k, a)].
Proof.
  induction versions as [|[v a] l IH]; cbn [fmap list_fmap fst]; [by intros _ Hk%not_elem_of_nil|].
  intros [Hs Hv]%StronglySorted_inv [->|Hk]%elem_of_cons.
  - exists [], a. rewrite filter_cons_True by (cbn; lia). cbn. f_equal. rewrite Forall_fmap in Hv.
    clear -Hv. induction Hv as [|x l Hx _ IH]; [done|]. cbn in Hx. rewrite filter_cons_False by (cbn; lia). exact IH.
  - destruct (IH Hs Hk) as (l' & b & Hl). rewrite Forall_forall in Hv. specialize (Hv k Hk).
    rewrite filter_cons_True by (cbn; lia). rewrite Hl. by exists ((v, a) :: l'), b.
Qed.

(** The build whose newest migration is [k]. *)
Definition run_build (k : Z) (db : Db) : result string unit * Db :=
  run_versions cast_smallint now (filter (λ v, v.1 ≤ k) VERSIONED_MIGRATIONS) k db.
Definition version_of (db : Db) : Z := default 0 (db_version db).
Definition marked (db : Db) : Db := mkDb (db_tables db) (db_indexes db) true (Some (version_of db)).

Lemma run_build_Ok k db db1 : k ∈ VERSIONED_MIGRATIONS.*1 → run_build k db = (Ok tt, db1) →
  db_version_table db1 = true ∧ db_version db1 = Some (Z.max k (version_of db)) ∧
  (if decide (k ≤ version_of db) then db1 = marked db
   else apply_versions (filter (λ v, v.1 ≤ k) VERSIONED_MIGRATIONS) (version_of db) (marked db) = Ok db1).
Proof.
  intros Hk. unfold run_build, run_versions. cbn [db_version]. change (default 0 (db_version db)) with (version_of db).
  case_decide as Hle.
  - intros [= <-]. rewrite Z.max_r by done. done.
  - destruct (apply_versions _ _ _) as [d|e] eqn:Hr; [|done]. intros [= <-].
    destruct (filter_last k VERSIONED_MIGRATIONS versions_sorted Hk) as (l & a & Hl).
    split_and!; [by rewrite (apply_flag _ _ _ _ Hr)| |done]. rewrite Hl in Hr. rewrite Z.max_l by lia.
    eapply (apply_reaches l (k, a)); [|exact Hr]. cbn. lia.
Qed.
Lemma all_versions : filter (λ v, v.1 ≤ CURRENT_SCHEMA_VERSION) VERSIONED_MIGRATIONS = VERSIONED_MIGRATIONS.
Proof. reflexivity. Qed.
Lemma run_is_build db : run db = run_build CURRENT_SCHEMA_VERSION db.
Proof. unfold run_build. by rewrite all_versions. Qed.
Lemma current_listed : CURRENT_SCHEMA_VERSION ∈ VERSIONED_MIGRATIONS.*1.
Proof. apply (bool_decide_unpack _). vm_compute. exact I. Qed.
Lemma listed_below k : k ∈ VERSIONED_MIGRATIONS.*1 → k ≤ CURRENT_SCHEMA_VERSION.
Proof.
  assert (Forall (λ k, k ≤ CURRENT_SCHEMA_VERSION) VERSIONED_MIGRATIONS.*1) as Hall by (apply (bool_decide_unpack _); vm_compute; exact I).
  rewrite Forall_forall in Hall. apply Hall.
Qed.
Lemma db_eta db v : db_version_table db = true → db_version db = Some v →
  set_version (mkDb (db_tables db) (db_indexes db) true (db_version db)) v = db.
Proof. destruct db; cbn. by intros -> ->. Qed.
Lemma run_staged k db db1 : k ∈ VERSIONED_MIGRATIONS.*1 → run_build k db = (Ok tt, db1) →
  (run db1).1 = (run db).1 ∧ ((run db).1 = Ok tt → run db1 = run db).
Proof.
  intros Hk Hb. pose proof (listed_below k Hk) as Hle. destruct (run_build_Ok k db db1 Hk Hb) as (Hflag & Hv & Hd).
  destruct (decide (k ≤ version_of db)) as [Hkv|Hkv].
  { subst db1. unfold run_migrations, run_versions, marked, version_of. cbn [db_version db_tables db_indexes from_option id]. case_decide; [done|].
    unfold set_version. cbn [db_tables db_indexes db_version_table]. by destruct (apply_versions _ _ _). }
  rewrite Z.max_l in Hv by lia.
  assert (run db1 = if decide (CURRENT_SCHEMA_VERSION ≤ k) then (Ok tt, db1)
    else match apply_versions VERSIONED_MIGRATIONS k db1 with Ok db => (Ok tt, db) | Err e => (Err e, db1) end) as ->.
  { clear Hd Hb. destruct db1 as [ts ix fl ver]. cbn [db_version_table db_version] in Hflag, Hv. subst fl ver.
    unfold run_migrations, run_versions, set_version. cbn [db_version db_tables db_indexes db_version_table from_option id].
    by case_decide. }
  assert (run db = match apply_versions VERSIONED_MIGRATIONS k db1 with Ok db => (Ok tt, db)
    | Err e => (Err e, mkDb (db_tables db) (db_indexes db) true (db_version db)) end) as ->.
  { rewrite <- (apply_staged (version_of db) k VERSIONED_MIGRATIONS (marked db) db1); [|lia|apply versions_sorted|done].
    unfold run_migrations, run_versions. cbn [db_version]. change (default 0 (db_version db)) with (version_of db).
    by rewrite decide_False by lia. }
  case_decide as Hc; [|by destruct (apply_versions VERSIONED_MIGRATIONS k db1)].
  assert (apply_versions VERSIONED_MIGRATIONS k db1 = Ok db1) as ->; [|done].
  assert (k = CURRENT_SCHEMA_VERSION) as -> by lia. rewrite <- all_versions at 1. generalize VERSIONED_MIGRATIONS. intros l.
  unfold MigrationStatements.apply_versions. induction l as [|v l IH]; [done|]. rewrite filter_cons. case_decide; [|done].
  cbn. by rewrite decide_True.
Qed.

(** C12. Runs of the migrations. A run that fails leaves tables, indexes and the
    version as they were. One that succeeds ends at the current version, or at
    the newer one the database already had, and running it again, at whatever
    time, changes nothing. A database that an older build of the program brought
    to its version (at the same [now()]) is upgraded with the same outcome as at
    once, and to the same tables. The migrations succeed on an empty database. *)
Theorem migrations_run_correct db :
  (run (mkDb ∅ ∅ false None)).1 = Ok tt ∧
  (∀ e, (run db).1 = Err e → (run db).2 = mkDb (db_tables db) (db_indexes db) true (db_version db)) ∧
  ((run db).1 = Ok tt →
    db_version (run db).2 = Some (Z.max CURRENT_SCHEMA_VERSION (version_of db)) ∧
    ∀ now', run_migrations cast_smallint now' (run db).2 = (Ok tt, (run db).2)) ∧
  (∀ k db1, k ∈ VERSIONED_MIGRATIONS.*1 → run_build k db = (Ok tt, db1) →
    (run db1).1 = (run db).1 ∧ ((run db).1 = Ok tt → run db1 = run db)).
Proof.
  split; [vm_compute; reflexivity|]. split; [|split; [|intros k db1; apply run_staged]].
  - intros e. unfold run_migrations, run_versions. case_decide; [done|]. by destruct (apply_versions _ _ _).
  - intros Hok. assert (run_build CURRENT_SCHEMA_VERSION db = (Ok tt, (run db).2)) as Hb by (rewrite <- run_is_build; by rewrite <- Hok, <- surjective_pairing).
    destruct (run_build_Ok _ _ _ current_listed Hb) as (Hflag & Hv & _). split; [exact Hv|]. intros now'.
    unfold run_migrations at 1, run_versions. cbn [db_version]. rewrite Hv. cbn [from_option id]. rewrite decide_True by lia.
    f_equal. rewrite <- Hv. by apply db_eta.
Qed.

(** ** Rows that stay *)
(** The table and the columns of it that a statement may change in a row. *)
Definition writes (s : Statement) : option (string * list string) :=
  match s with
  | AddColumn name c => Some (name, [col_name c])
  | DropColumn name c => Some (name, [c])
  | Update name c _ _ => Some (name, [c])
  | EventTypeToSmallint => Some ("poi_events", ["event_type"])%string
  | BackfillUpstream => Some ("published_snapshots", ["upstream_url"])%string
  | SaveInvalidatedSequence => Some ("indexer_state", ["value"; "updated_at"])%string
  | _ => None
  end.
Definition touched (name : string) (s : Statement) : list string :=
  match writes s with Some (n, cs) => if decide (n = name) then cs else [] | None => [] end.
(** The tables a statement inserts rows in, and those it drops. *)
Definition inserts (s : Statement) : list string :=
  match s with
  | LinkLiveArtifacts => ["published_indexed_manifest_artifacts"]%string
  | SaveInvalidatedSequence => ["indexer_state"]%string
  | _ => []
  end.
Definition drops (s : Statement) : list string := match s with DropTables names => names | _ => [] end.

Definition row_kept (cs : list string) (r r' : Row) : Prop := ∀ c, c ∉ cs → r' !! c = r !! c.
Definition null_at (c : string) (r : Row) : Prop := default VNull (r !! c) = VNull.
(** What a statement does to a row; a column it adds without a default is null. *)
Definition row_step (name : string) (s : Statement) (r r' : Row) : Prop :=
  row_kept (touched name s) r r' ∧
  ∀ n c, s = AddColumn n c → col_default c = None → r' = r ∨ null_at (col_name c) r'.
Definition rows_step (name : string) (s : Statement) (t t' : Table) : Prop :=
  ∃ rows added, tb_rows t' = rows ++ added ∧ Forall2 (row_step name s) (tb_rows t) rows ∧ (name ∉ inserts s → added = []).

Lemma row_step_refl name s r : row_step name s r r.
Proof. split; [done|]. by left. Qed.
Lemma row_kept_insert c v cs r : c ∈ cs → row_kept cs r (<[c := v]> r).
Proof. intros Hc c' Hc'. rewrite lookup_insert_ne; [done|]. set_solver. Qed.
Lemma rows_step_same name s t t' : tb_rows t' = tb_rows t → rows_step name s t t'.
Proof. intros Ht. exists (tb_rows t), []. rewrite Ht. rewrite app_nil_r. split_and!; [done| |done]. apply Forall_Forall2_diag, Forall_true. apply row_step_refl. Qed.
Lemma rows_step_fmap name s t t' f added : tb_rows t' = (f <$> tb_rows t) ++ added → (name ∉ inserts s → added = []) → (∀ r, row_step name s r (f r)) → rows_step name s t t'.
Proof.
  intros Ht Ha Hf. exists (f <$> tb_rows t), added. split_and!; [done| |done].
  apply Forall2_fmap_r, Forall_Forall2_diag, Forall_true. exact Hf.
Qed.
Definition table_step (name : string) (s : Statement) (db db' : Db) : Prop :=
  ∀ t, db_tables db !! name = Some t → ∃ t', db_tables db' !! name = Some t' ∧ rows_step name s t t'.
Lemma table_step_same name s db db' : db_tables db' = db_tables db → table_step name s db db'.
Proof. intros Hdb t Ht. rewrite Hdb. exists t. split; [done|]. by apply rows_step_same. Qed.
Lemma table_step_insert name s db db' n t1 t2 :
  db_tables db' = <[n := t2]> (db_tables db) → db_tables db !! n = Some t1 → (n = name → rows_step name s t1 t2) → table_step name s db db'.
Proof.
  intros Hdb Hn Hs t Ht. rewrite Hdb. destruct (decide (n = name)) as [->|Hne].
  - simplify_eq. exists t2. rewrite lookup_insert_eq. auto.
  - exists t. rewrite lookup_insert_ne by done. split; [done|]. by apply rows_step_same.
Qed.
Lemma get_table_Ok db n t : get_table db n = Ok t → db_tables db !! n = Some t.
Proof. apply ok_or_Ok. Qed.
Lemma touched_of name s cs : writes s = Some (name, cs) → touched name s = cs.
Proof. intros Hw. unfold touched. by rewrite Hw, decide_True. Qed.
Lemma row_step_written name s cs r r' : (∀ n c, s ≠ AddColumn n c) → writes s = Some (name, cs) → row_kept cs r r' → row_step name s r r'.
Proof. intros Hs Hw Hr. split; [by rewrite (touched_of name s cs)|]. intros n c ->. by destruct (Hs n c). Qed.

Lemma event_type_step t rows :
  try_map (λ row : Row, match row !! "event_type"%string with
                        | Some v => v ← event_type_value cast_smallint v; Ok (<["event_type"%string := v]> row)
                        | None => Ok row
                        end) (tb_rows t) = Ok rows →
  Forall2 (row_step "poi_events" EventTypeToSmallint) (tb_rows t) rows.
Proof.
  intros Hr%try_map_Ok. eapply Forall2_impl; [exact Hr|]. intros r r'. cbn.
  destruct (r !! "event_type"%string) as [v|]; [|intros [= <-]; apply row_step_refl].
  intros Hv. apply bind_Ok in Hv as (v' & _ & [= <-]). eapply row_step_written; [done|done|]. apply row_kept_insert. set_solver.
Qed.
Lemma upsert_step rows v : ∃ rows' added, upsert_state now rows CHAIN_SEQUENCE_KEY v = rows' ++ added ∧
  Forall2 (row_step "indexer_state" SaveInvalidatedSequence) rows rows'.
Proof.
  unfold upsert_state. case_decide as He.
  - eexists _, []. rewrite app_nil_r. split; [done|]. apply Forall2_fmap_r, Forall_Forall2_diag, Forall_true. intros r. unfold compose.
    case_decide; [|apply row_step_refl]. eapply row_step_written; [done|done|].
    intros c Hc. rewrite !lookup_insert_ne by set_solver. done.
  - eexists rows, _. split; [done|]. apply Forall_Forall2_diag, Forall_true. intros r. apply row_step_refl.
Qed.
Lemma backfilled_step tips r : row_step "published_snapshots" BackfillUpstream r (default r (backfilled tips r)).
Proof.
  destruct (backfilled tips r) as [r'|] eqn:Hb; cbn; [|apply row_step_refl]. unfold backfilled in Hb.
  repeat case_match; simplify_eq. eapply row_step_written; [done|done|]. apply row_kept_insert. set_solver.
Qed.
Lemma added_step name c r : row_step name (AddColumn name c) r (<[col_name c := default_value now c]> r).
Proof.
  split; [erewrite touched_of by done; apply row_kept_insert; set_solver|]. intros n' c' [= <- <-] Hd. right.
  unfold null_at, default_value. by rewrite lookup_insert_eq, Hd.
Qed.

Ltac binds H := repeat (let Hb := fresh "Hb" in apply bind_Ok in H as (? & Hb & H)); repeat match goal with Hg : get_table _ _ = Ok _ |- _ => apply get_table_Ok in Hg end.
(** A statement keeps the rows of the tables it does not drop, in order, and
    changes in them only the columns it is about. *)
Lemma exec_keeps db s db' name : exec db s = Ok db' → name ∉ drops s → table_step name s db db'.
Proof.
  destruct s as [n cols ks chs rfs|n c|n c|n c| |n cn ch nv|ine n ix|n|n c v cond| | | |ns|ns]; cbn [Migrations.exec]; intros Hr Hd.
  - destruct (db_tables db !! n) eqn:Hn; [injection Hr as <-; by apply table_step_same|]. binds Hr. injection Hr as <-.
    intros t Ht. exists t. cbn. rewrite lookup_insert_ne by congruence. split; [done|]. by apply rows_step_same.
  - binds Hr. case_decide; [injection Hr as <-; by apply table_step_same|]. binds Hr. injection Hr as <-.
    eapply table_step_insert; [done|done|]. intros ->. eapply (rows_step_fmap _ _ _ _ _ []); [by rewrite app_nil_r|done|apply added_step].
  - binds Hr. case_decide; injection Hr as <-; [|by apply table_step_same].
    eapply table_step_insert; [done|done|]. intros ->. eapply (rows_step_fmap _ _ _ _ (delete c) []); [by rewrite app_nil_r|done|].
    intros r. eapply row_step_written; [done|done|]. intros c' Hc'. rewrite lookup_delete_ne; [done|]. set_solver.
  - binds Hr. injection Hr as <-. eapply table_step_insert; [done|done|]. intros ->. by apply rows_step_same.
  - binds Hr. injection Hr as <-. eapply table_step_insert; [done|done|]. intros <-. eexists _, []. rewrite app_nil_r. split_and!; [done| |done].
    by apply event_type_step.
  - case_decide; [injection Hr as <-; by apply table_step_same|]. binds Hr. injection Hr as <-.
    eapply table_step_insert; [done|done|]. intros ->. by apply rows_step_same.
  - case_decide; [destruct ine; [injection Hr as <-; by apply table_step_same|done]|]. binds Hr. injection Hr as <-. by apply table_step_same.
  - injection Hr as <-. by apply table_step_same.
  - binds Hr. injection Hr as <-. eapply table_step_insert; [done|done|]. intros ->. eapply (rows_step_fmap _ _ _ _ _ []); [by rewrite app_nil_r|done|].
    intros r. cbn. case_decide; [|apply row_step_refl]. eapply row_step_written; [done|done|]. apply row_kept_insert. set_solver.
  - binds Hr. injection Hr as <-. eapply table_step_insert; [done|done|]. intros <-. eapply (rows_step_fmap _ _ _ _ _ []); [by rewrite app_nil_r|done|].
    intros r. apply backfilled_step.
  - binds Hr. injection Hr as <-. eapply table_step_insert; [done|done|]. intros <-. eexists _, _. split_and!; [done| |intros Hi; cbn in Hi; set_solver].
    apply Forall_Forall2_diag, Forall_true. intros r. apply row_step_refl.
  - binds Hr. case_decide; [injection Hr as <-; by apply table_step_same|]. binds Hr. injection Hr as <-. eapply table_step_insert; [done|done|]. intros <-.
    edestruct upsert_step as (rows & added & Hu & Hrows). exists rows, added. split_and!; [exact Hu|exact Hrows|intros Hi; cbn in Hi; set_solver].
  - binds Hr. injection Hr as <-. by apply table_step_same.
  - binds Hr. injection Hr as <-. intros t Ht. exists t. cbn. split; [|by apply rows_step_same]. by apply map_lookup_filter_Some.
Qed.

(** ** A relation that every statement respects *)
Definition statements (versions : list (Z * list Statement)) : list Statement := concat versions.*2.
Section respects.
Context (R : Db → Db → Prop) (Q : Statement → Prop).
Context (R_same : ∀ db db', db_tables db' = db_tables db → R db db').
Context (R_trans : ∀ db1 db2 db3, R db1 db2 → R db2 db3 → R db1 db3).
Context (R_exec : ∀ db s db', Q s → exec db s = Ok db' → R db db').
Lemma statements_respect l db db' : Forall Q l → try_fold exec db l = Ok db' → R db db'.
Proof. apply try_fold_ind; [auto|done|]. intros d s d'. apply R_exec. Qed.
Lemma apply_respects versions cur db db' : Forall Q (statements versions) → apply_versions versions cur db = Ok db' → R db db'.
Proof.
  intros HQ. apply (try_fold_ind _ R (λ v, Forall Q v.2)); [auto|done| |].
  - intros d v d' Hv. case_decide; [intros [= <-]; auto|]. unfold apply_version. intros Hr. apply bind_Ok in Hr as (d2 & Hr & [= <-]).
    eapply R_trans; [by eapply statements_respect|]. by apply R_same.
  - unfold statements in HQ. by rewrite Forall_concat, Forall_fmap in HQ.
Qed.
Lemma run_respects db : Forall Q (statements VERSIONED_MIGRATIONS) → (run db).1 = Ok tt → R db (run db).2.
Proof.
  intros HQ. unfold run_migrations, run_versions. case_decide; [intros _; by apply R_same|].
  destruct (apply_versions _ _ _) as [d|e] eqn:Hr; [|done]. intros _. eapply R_trans; [|by eapply apply_respects]. by apply R_same.
Qed.
End respects.

(** The columns that exist to be rewritten, or that a migration adds or drops. *)
Definition changed_columns (name : string) : list string :=
  default [] ((list_to_map [
    ("poi_events", ["event_type"; "event_data_complete"]);
    ("published_poi_v4_manifests", ["reconciliation_invalidated_at"]);
    ("published_indexed_manifests", ["manifest_json"; "reconciliation_invalidated_at"]);
    ("indexed_public_txid_rows", ["unshield_preimage"; "merkle_root"]);
    ("indexer_state", ["value"; "updated_at"])]%string : gmap string (list string)) !! name).
Definition rows_kept (cs : list string) (t t' : Table) : Prop := ∃ rows added, tb_rows t' = rows ++ added ∧ Forall2 (row_kept cs) (tb_rows t) rows.
Definition table_kept (name : string) (cs : list string) (db db' : Db) : Prop :=
  ∀ t, db_tables db !! name = Some t → ∃ t', db_tables db' !! name = Some t' ∧ rows_kept cs t t'.
Lemma row_kept_trans cs r1 r2 r3 : row_kept cs r1 r2 → row_kept cs r2 r3 → row_kept cs r1 r3.
Proof. intros H1 H2 c Hc. by rewrite H2, H1. Qed.
Lemma rows_kept_trans cs t1 t2 t3 : rows_kept cs t1 t2 → rows_kept cs t2 t3 → rows_kept cs t1 t3.
Proof.
  intros (r1 & a1 & E1 & F1) (r2 & a2 & E2 & F2). rewrite E1 in F2. apply Forall2_app_inv_l in F2 as (r2' & a2' & Fr & _ & ->).
  exists r2', (a2' ++ a2). split; [by rewrite E2, app_assoc|]. eapply Forall2_trans; [intros ? ? ?; apply row_kept_trans|done|done].
Qed.
Definition statement_scope (s : Statement) : Prop :=
  Forall (λ n, n ∈ legacy_tables) (drops s) ∧
  match writes s with Some (n, cs) => n ∈ legacy_tables ∨ Forall (λ c, c ∈ changed_columns n) cs | None => True end.
#[local] Instance statement_scope_dec s : Decision (statement_scope s).
Proof. unfold statement_scope. destruct (writes s) as [[n cs]|]; apply _. Defined.
Lemma statements_scope : Forall statement_scope (statements VERSIONED_MIGRATIONS).
Proof. apply (bool_decide_unpack _). vm_compute. exact I. Qed.
Lemma table_kept_trans name cs db1 db2 db3 : table_kept name cs db1 db2 → table_kept name cs db2 db3 → table_kept name cs db1 db3.
Proof. intros H1 H2 t Ht. destruct (H1 t Ht) as (t2 & Ht2 & K1). destruct (H2 t2 Ht2) as (t3 & Ht3 & K2). eauto using rows_kept_trans. Qed.
Lemma table_kept_same name cs db db' : db_tables db' = db_tables db → table_kept name cs db db'.
Proof.
  intros Hdb t Ht. rewrite Hdb. exists t. split; [done|]. exists (tb_rows t), []. split; [by rewrite app_nil_r|].
  by apply Forall_Forall2_diag, Forall_true.
Qed.
Lemma exec_table_kept name db s db' : name ∉ legacy_tables → statement_scope s → exec db s = Ok db' → table_kept name (changed_columns name) db db'.
Proof.
  intros Hn [Hd Hw] Hr t Ht. destruct (exec_keeps db s db' name Hr) with (t := t) as (t' & Ht' & rows & added & Hrows & Hall & _); [|done|].
  { intros Hin. rewrite Forall_forall in Hd. by apply Hn, Hd. }
  exists t'. split; [done|]. exists rows, added. split; [done|]. eapply Forall2_impl; [exact Hall|]. intros r r' [Hk _] c Hc. apply Hk.
  unfold touched. destruct (writes s) as [[n cs]|]; [|set_solver]. case_decide; [|set_solver]. subst n. destruct Hw as [|Hw]; [done|].
  rewrite Forall_forall in Hw. naive_solver.
Qed.
Lemma run_keeps db name : (run db).1 = Ok tt → name ∉ legacy_tables → table_kept name (changed_columns name) db (run db).2.
Proof.
  intros Hok Hn. refine (run_respects (table_kept name (changed_columns name)) statement_scope _ _ _ db statements_scope Hok).
  - apply table_kept_same.
  - apply table_kept_trans.
  - intros d s d'. by apply exec_table_kept.
Qed.

(** ** The tables of the retired channel *)
Definition pinned (name : string) (db : Db) : Prop :=
  ∃ t, db_tables db !! name = Some t ∧ Exists (null_at "unpinned_at") (tb_rows t).
(** The statement neither drops a table nor records that something was unpinned. *)
Definition keeps_pins (s : Statement) : Prop :=
  drops s = [] ∧
  match s with
  | AddColumn _ c => col_name c = "unpinned_at"%string → col_default c = None
  | _ => match writes s with Some (_, cs) => "unpinned_at"%string ∉ cs | None => True end
  end.
#[local] Instance keeps_pins_dec s : Decision (keeps_pins s).
Proof. unfold keeps_pins. destruct s; cbn; apply _. Defined.
Definition before (k : Z) : list (Z * list Statement) := filter (λ v, v.1 < k) VERSIONED_MIGRATIONS.
Lemma before_keeps_pins : Forall keeps_pins (statements (before 23)).
Proof. apply (bool_decide_unpack _). vm_compute. exact I. Qed.
Lemma row_step_pinned name s r r' : keeps_pins s → row_step name s r r' → null_at "unpinned_at" r → null_at "unpinned_at" r'.
Proof.
  intros [_ Hs] [Hk Ha] Hn.
  assert ((∃ n c, s = AddColumn n c ∧ col_name c = "unpinned_at"%string) ∨ "unpinned_at"%string ∉ touched name s) as [(n & c & -> & Hc)|Hu].
  { unfold touched. destruct s; cbn in *; try case_decide; try set_solver.
    destruct (decide (col_name column = "unpinned_at"%string)) as [Hc|Hc]; [left; eauto|right; set_solver]. }
  - destruct (Ha n c eq_refl) as [->|Hnull]; [by apply Hs|done|]. by rewrite Hc in Hnull.
  - unfold null_at. by rewrite Hk.
Qed.
Lemma exec_pinned name db s db' : keeps_pins s → exec db s = Ok db' → pinned name db → pinned name db'.
Proof.
  intros Hs Hr (t & Ht & He). destruct (exec_keeps db s db' name Hr) with (t := t) as (t' & Ht' & rows & added & Hrows & Hall & _); [by rewrite (proj1 Hs); set_solver|done|].
  exists t'. split; [done|]. rewrite Hrows. apply Exists_app. left. clear Hrows Ht Ht'.
  induction Hall as [|r r' l l' Hstep _ IH]; [by inversion He|]. inversion He; [left|right; auto]. by eapply row_step_pinned.
Qed.
Lemma run_split k v : (k, v) ∈ VERSIONED_MIGRATIONS → ∃ after, VERSIONED_MIGRATIONS = before k ++ (k, v) :: after.
Proof.
  unfold before. generalize versions_sorted. generalize VERSIONED_MIGRATIONS. induction l as [|[k' v'] l IH]; [by intros _ []%not_elem_of_nil|].
  cbn [fmap list_fmap fst]. intros [Hs Hv]%StronglySorted_inv [Heq|Hin]%elem_of_cons.
  - injection Heq as <- <-. exists l. rewrite filter_cons_False by (cbn; lia). cut (filter (λ v0 : Z * list Statement, v0.1 < k) l = []); [by intros ->|].
    rewrite Forall_fmap in Hv. clear -Hv. induction Hv as [|x l Hx _ IH]; [done|]. cbn in Hx. by rewrite filter_cons_False by lia.
  - destruct (IH Hs Hin) as (after & Hl). exists after. rewrite Forall_fmap, Forall_forall in Hv. specialize (Hv (k, v) Hin). cbn in Hv.
    rewrite filter_cons_True by (cbn; lia). cbn. by rewrite <- Hl.
Qed.
(** A successful run of a database below version [k] is the migrations before
    [k], the statements of [k], and the migrations after. *)
Lemma run_at k v db : (k, v) ∈ VERSIONED_MIGRATIONS → version_of db < k → (run db).1 = Ok tt →
  ∃ db1 db2 after, VERSIONED_MIGRATIONS = before k ++ (k, v) :: after ∧
    apply_versions (before k) (version_of db) (marked db) = Ok db1 ∧ try_fold exec db1 v = Ok db2 ∧
    apply_versions after (version_of db) (set_version db2 k) = Ok (run db).2.
Proof.
  intros Hkv Hlt. destruct (run_split k v Hkv) as (after & Hv). pose proof (listed_below k) as Hle.
  unfold run_migrations, run_versions. cbn [db_version]. change (default 0 (db_version db)) with (version_of db).
  rewrite decide_False.
  2: { intros Hc. assert (k ∈ VERSIONED_MIGRATIONS.*1) as Hin by (apply list_elem_of_fmap; by exists (k, v)). specialize (Hle Hin). lia. }
  change (set_version _ (version_of db)) with (marked db). destruct (apply_versions VERSIONED_MIGRATIONS _ _) as [d|e] eqn:Hr; [|done]. intros _.
  rewrite Hv in Hr. unfold MigrationStatements.apply_versions in Hr. rewrite try_fold_app in Hr. apply bind_Ok in Hr as (db1 & H1 & Hr). cbn in Hr.
  rewrite decide_False in Hr by lia. apply bind_Ok in Hr as (d2 & H2 & Hr). unfold apply_version in H2. apply bind_Ok in H2 as (db2 & H2 & [= <-]).
  by exists db1, db2, after.
Qed.
Lemma selects_null c row : selects (EIsNull (ECol c)) row ↔ null_at c row.
Proof.
  unfold selects, null_at. cbn [eval]. split; [|intros H; by rewrite bool_decide_eq_true_2].
  intros [= H]. by apply bool_decide_eq_true in H.
Qed.
Lemma refused_none db tables name : exec db (RefusePinned tables) = Ok db → name ∈ tables → ¬ pinned name db.
Proof.
  cbn [Migrations.exec]. intros Hr Hin (t & Ht & He). apply bind_Ok in Hr as (counts & Hc%try_map_Ok & Hr).
  apply bind_Ok in Hr as (? & Hz & _). unfold require in Hz. case_decide as Hsum; [|done].
  assert (Forall (λ n, n = 0%nat) counts) as Hzero. { clear -Hsum. induction counts; constructor; cbn in *; [lia|apply IHcounts; lia]. }
  apply list_elem_of_lookup in Hin as [i Hi]. destruct (Forall2_lookup_l _ _ _ _ _ Hc Hi) as (n & Hn & Hcount).
  rewrite (Forall_lookup_1 _ _ _ _ Hzero Hn) in Hcount. apply bind_Ok in Hcount as (t' & Ht'%get_table_Ok & Hcount). simplify_eq.
  apply bind_Ok in Hcount as (? & _ & [= Hlen]). apply length_zero_iff_nil in Hlen. apply Exists_exists in He as (r & Hr & Hnull).
  assert (r ∈ filter (selects (EIsNull (ECol "unpinned_at"))) (tb_rows t)) as Hf by (apply list_elem_of_filter; split; [by apply selects_null|done]).
  rewrite Hlen in Hf. by apply not_elem_of_nil in Hf.
Qed.
Lemma run_drops_legacy db : version_of db < CURRENT_SCHEMA_VERSION → (run db).1 = Ok tt → ∀ name, name ∈ legacy_tables →
  db_tables (run db).2 !! name = None ∧ ¬ pinned name db.
Proof.
  intros Hlt Hok name Hin. destruct (run_at 23 V23_MIGRATIONS db) as (db1 & db2 & after & Hv & H1 & H2 & H3); [by apply (list_elem_of_lookup_2 _ 19)|done|done|].
  assert (after = []) as -> by (apply (f_equal length) in Hv; rewrite length_app in Hv; cbn [length] in Hv;
    destruct after; [done|]; exfalso; revert Hv; vm_compute (length _); cbn; lia).
  injection H3 as H3. rewrite <- H3. unfold V23_MIGRATIONS in H2. cbn [try_fold] in H2.
  apply bind_Ok in H2 as (db1' & Href & H2). assert (db1' = db1) as ->.
  { cbn [Migrations.exec] in Href. apply bind_Ok in Href as (? & _ & Href). by apply bind_Ok in Href as (? & _ & [= <-]). }
  apply bind_Ok in H2 as (db2' & Hdrop & [= <-]). split.
  - cbn [Migrations.exec] in Hdrop. do 2 apply bind_Ok in Hdrop as (? & _ & Hdrop). injection Hdrop as <-. cbn.
    apply map_lookup_filter_None. right. intros t _. cbn. naive_solver.
  - intros Hp. apply (refused_none db1 legacy_tables name Href Hin).
    refine (apply_respects (λ db db', pinned name db → pinned name db') keeps_pins _ _ _ (before 23) _ _ _ before_keeps_pins H1 Hp).
    + intros d d' Hd (t & Ht & He). exists t. by rewrite Hd.
    + auto.
    + intros d s d'. apply exec_pinned.
Qed.

(** ** Sequences of manifests that an upgrade gives up *)
Definition same_rows (name : string) (db db' : Db) : Prop :=
  ∀ t, db_tables db !! name = Some t → ∃ t', db_tables db' !! name = Some t' ∧ tb_rows t' = tb_rows t.
Definition leaves (name : string) (s : Statement) : Prop := name ∉ drops s ∧ name ∉ inserts s ∧ touched name s = [].
#[local] Instance leaves_dec name s : Decision (leaves name s) := ltac:(unfold leaves; apply _).
Lemma exec_leaves name db s db' : leaves name s → exec db s = Ok db' → same_rows name db db'.
Proof.
  intros (Hd & Hi & Hw) Hr t Ht. destruct (exec_keeps db s db' name Hr Hd t Ht) as (t' & Ht' & rows & added & Hrows & Hall & Ha).
  exists t'. split; [done|]. rewrite Hrows, (Ha Hi), app_nil_r. symmetry. clear -Hall Hw.
  induction Hall as [|r r' l l' [Hk _] _ IH]; [done|]. f_equal; [|done]. apply map_eq. intros c. rewrite Hk; [done|]. rewrite Hw. set_solver.
Qed.
Lemma unchanged_same name db db' : db_tables db' = db_tables db → same_rows name db db'.
Proof. intros Hdb t Ht. rewrite Hdb. eauto. Qed.
Lemma unchanged_trans name db1 db2 db3 : same_rows name db1 db2 → same_rows name db2 db3 → same_rows name db1 db3.
Proof. intros H1 H2 t Ht. destruct (H1 t Ht) as (t2 & Ht2 & E1). destruct (H2 t2 Ht2) as (t3 & Ht3 & E2). exists t3. split; [done|congruence]. Qed.

Lemma selects_and a b row : selects (EAnd a b) row ↔ selects a row ∧ selects b row.
Proof. unfold selects. cbn [eval]. destruct (eval row a) as [|[]| | |], (eval row b) as [|[]| | |]; cbn; naive_solver. Qed.
Lemma selects_not_null c row : selects (ENot (EIsNull (ECol c))) row ↔ ¬ null_at c row.
Proof. unfold selects, null_at. cbn [eval truth fmap option_fmap option_map of_truth]. case_bool_decide; cbn; naive_solver. Qed.

Definition manifests : string := "published_indexed_manifests".
(** The stored sequence is at least [z]: a publisher continues above it. *)
Definition reserved (z : Z) (db : Db) : Prop :=
  ∃ t, db_tables db !! "indexer_state"%string = Some t ∧ Exists (is_state_key CHAIN_SEQUENCE_KEY) (tb_rows t) ∧
    Forall (λ row, is_state_key CHAIN_SEQUENCE_KEY row → z ≤ default 0 (row_int "value" row)) (tb_rows t).
Definition pending_resumable (row : Row) : Prop := selects pending_row row → ¬ null_at "manifest_json" row.

Lemma foldl_max_le l z : z ≤ foldl Z.max z l ∧ ∀ x, x ∈ l → x ≤ foldl Z.max z l.
Proof.
  revert z. induction l as [|y l IH]; intros z; cbn; [split; [lia|by intros ? ?%not_elem_of_nil]|].
  destruct (IH (Z.max z y)) as [H1 H2]. split; [lia|]. intros x [->|Hx]%elem_of_cons; [lia|auto].
Qed.
Lemma max_value_le zs m z : max_value zs = Some m → z ∈ zs → z ≤ m.
Proof. destruct zs as [|y zs]; [done|]. intros [= <-]. destruct (foldl_max_le zs y) as [H1 H2]. intros [->|Hz]%elem_of_cons; auto. Qed.
Lemma upsert_reserves rows m z : z ≤ m →
  Exists (is_state_key CHAIN_SEQUENCE_KEY) (upsert_state now rows CHAIN_SEQUENCE_KEY m) ∧
  Forall (λ row, is_state_key CHAIN_SEQUENCE_KEY row → z ≤ default 0 (row_int "value" row)) (upsert_state now rows CHAIN_SEQUENCE_KEY m).
Proof.
  intros Hz. unfold upsert_state. case_decide as He.
  - split.
    + apply Exists_exists in He as (r & Hr & Hk). apply Exists_exists. eexists. split; [apply list_elem_of_fmap; eexists; split; [reflexivity|exact Hr]|].
      cbv beta. rewrite decide_True by done. unfold is_state_key. by rewrite !lookup_insert_ne.
    + apply Forall_fmap, Forall_true. intros r. unfold compose. case_decide as Hk; [|by intros ?]. intros _.
      unfold row_int at 1. rewrite lookup_insert_eq. cbn. lia.
  - split; [apply Exists_app; right; left; done|]. apply Forall_app. split; [|apply Forall_singleton; intros _; cbn; exact Hz].
    apply Forall_forall. intros r Hr Hk. destruct He. apply Exists_exists. eauto.
Qed.
Lemma save_reserves db db' t : exec db SaveInvalidatedSequence = Ok db' → db_tables db !! manifests = Some t →
  Forall (λ row, selects invalidated_manifest row → ∀ z, row_int "ipns_sequence" row = Some z → reserved z db') (tb_rows t).
Proof.
  cbn [Migrations.exec]. intros Hr Ht. binds Hr. change (db_tables db !! manifests = Some x) in Hb. rewrite Hb in Ht. injection Ht as ->.
  case_decide as Hnil; apply Forall_forall; intros r Hin Hs z Hz.
  - exfalso. apply (not_elem_of_nil r). rewrite <- Hnil. by apply list_elem_of_filter.
  - binds Hr. injection Hr as <-. eexists. split; [cbn; apply lookup_insert_eq|]. cbn [tb_rows with_rows]. apply upsert_reserves.
    apply ok_or_Ok in Hb2. eapply max_value_le; [exact Hb2|]. apply list_elem_of_omap. exists r. split; [|done]. by apply list_elem_of_filter.
Qed.
Definition v17_condition : Expr := EAnd (EAnd unsettled (is_null "manifest_json")) (is_null "reconciliation_invalidated_at").
Lemma update_resumable db db' : exec db (Update manifests "reconciliation_invalidated_at" None v17_condition) = Ok db' →
  ∃ t, db_tables db' !! manifests = Some t ∧ Forall pending_resumable (tb_rows t).
Proof.
  cbn [Migrations.exec]. intros Hr. binds Hr. injection Hr as <-. eexists. split; [cbn; apply lookup_insert_eq|]. cbn [tb_rows with_rows].
  apply Forall_fmap, Forall_true. intros r. unfold compose, pending_resumable. case_decide as Hc; intros [Hu Hn%selects_null]%selects_and Hj.
  - unfold null_at in Hn. by rewrite lookup_insert_eq in Hn.
  - apply Hc. unfold v17_condition. rewrite !selects_and. split_and!; [done| |]; by apply selects_null.
Qed.
Lemma after_v17_leaves : Forall (λ s, leaves manifests s ∧ leaves "indexer_state" s)
  (CreateIndex true "published_indexed_manifests_one_pending" (mkIndex "published_indexed_manifests" true [] (Some pending_row))
   :: statements (filter (λ v, 17 < v.1) VERSIONED_MIGRATIONS)).
Proof. apply (bool_decide_unpack _). vm_compute. exact I. Qed.
Lemma after_17 after v : VERSIONED_MIGRATIONS = before 17 ++ (17, v) :: after → after = filter (λ v, 17 < v.1) VERSIONED_MIGRATIONS.
Proof.
  intros Hv. assert (after = drop 14 VERSIONED_MIGRATIONS) as ->; [|reflexivity].
  rewrite Hv. rewrite drop_app. change (length (before 17)) with 13%nat. reflexivity.
Qed.
Lemma reserved_same z db db' : same_rows "indexer_state" db db' → reserved z db → reserved z db'.
Proof. intros Hs (t & Ht & Hr). destruct (Hs t Ht) as (t' & Ht' & E). exists t'. rewrite E. done. Qed.
(** What V17 does to the manifests, and that nothing undoes it. *)
Lemma run_v17 db : version_of db < 17 → (run db).1 = Ok tt → ∃ t, db_tables (run db).2 !! manifests = Some t ∧
  Forall (λ row, pending_resumable row ∧
    (selects invalidated_manifest row → ∀ z, row_int "ipns_sequence" row = Some z → reserved z (run db).2)) (tb_rows t).
Proof.
  intros Hlt Hok. destruct (run_at 17 V17_MIGRATIONS db) as (db1 & db2 & after & Hv & _ & H2 & H3); [by apply (list_elem_of_lookup_2 _ 13)|done|done|].
  apply after_17 in Hv. subst after. pose proof after_v17_leaves as Hl. apply Forall_cons in Hl as [Hix Hl].
  unfold V17_MIGRATIONS in H2. cbn [try_fold] in H2. apply bind_Ok in H2 as (da & _ & H2).
  apply bind_Ok in H2 as (dm & Hup & H2). apply bind_Ok in H2 as (ds & Hsave & H2). apply bind_Ok in H2 as (di & Hidx & [= ->]).
  destruct (update_resumable _ _ Hup) as (t & Ht & Hres). pose proof (save_reserves _ _ _ Hsave Ht) as Hinv.
  assert (∀ name, (∀ s, leaves manifests s ∧ leaves "indexer_state" s → leaves name s) → same_rows name ds (run db).2) as Hpost.
  { intros name Hname. eapply unchanged_trans; [eapply exec_leaves; [by apply Hname|exact Hidx]|].
    eapply unchanged_trans; [|refine (apply_respects (same_rows name) (leaves name) _ _ _ _ _ _ _ _ H3)].
    - by apply unchanged_same.
    - apply unchanged_same.
    - apply unchanged_trans.
    - intros d s d'. apply exec_leaves.
    - eapply Forall_impl; [exact Hl|]. exact Hname. }
  destruct (exec_leaves manifests dm SaveInvalidatedSequence ds) with (t := t) as (ts & Hts & Es); [by apply (bool_decide_unpack _)|done|done|].
  destruct (Hpost manifests (λ s H, proj1 H)) with (t := ts) as (t' & Ht' & E); [done|]. exists t'. split; [done|]. rewrite E, Es.
  rewrite Forall_forall in Hres, Hinv |- *. intros r Hin. split; [by apply Hres|]. intros Hs z Hz.
  eapply reserved_same; [apply (Hpost "indexer_state"%string (λ s H, proj2 H))|by eapply Hinv].
Qed.

(** C13. What a successful run keeps. Every row of a table that is not of the
    retired channel is still there, in its order, and differs only in the columns
    that the migrations add, drop or rewrite. A database below the current
    version loses the tables of the retired channel, and in none of them was a
    row whose content was still pinned. Below version 17, a chain manifest that
    is pending afterwards can be resumed from its JSON, and the sequence of one
    that was given up is reserved, so that no publisher announces it again. *)
Theorem migrations_lose_nothing db : (run db).1 = Ok tt →
  (∀ name t, name ∉ legacy_tables → db_tables db !! name = Some t →
    ∃ t' rows added, db_tables (run db).2 !! name = Some t' ∧ tb_rows t' = rows ++ added ∧
      Forall2 (λ r r' : Row, ∀ c, c ∉ changed_columns name → r' !! c = r !! c) (tb_rows t) rows) ∧
  (version_of db < CURRENT_SCHEMA_VERSION → ∀ name, name ∈ legacy_tables →
    db_tables (run db).2 !! name = None ∧
    ∀ t, db_tables db !! name = Some t → Forall (λ r, default VNull (r !! "unpinned_at"%string) ≠ VNull) (tb_rows t)) ∧
  (version_of db < 17 → ∃ t, db_tables (run db).2 !! "published_indexed_manifests"%string = Some t ∧
    Forall (λ row, (selects pending_row row → default VNull (row !! "manifest_json"%string) ≠ VNull) ∧
      (selects invalidated_manifest row → ∀ z, row_int "ipns_sequence" row = Some z → reserved z (run db).2)) (tb_rows t)).
Proof.
  intros Hok. split; [|split].
  - intros name t Hn Ht. destruct (run_keeps db name Hok Hn t Ht) as (t' & Ht' & rows & added & Hr). by exists t', rows, added.
  - intros Hlt name Hin. destruct (run_drops_legacy db Hlt Hok name Hin) as [Hnone Hp]. split; [done|]. intros t Ht.
    apply Forall_forall. intros r Hr Hnull. apply Hp. exists t. split; [done|]. apply Exists_exists. eauto.
  - intros Hlt. exact (run_v17 db Hlt Hok).
Qed.
End run.

(** A database at version 15 with a live manifest of each channel: the legacy one
    was unpinned by retention, the chain one never reached its name. *)
Definition no_cast : string → option Z := λ _, None.
Definition add_row (name : string) (row : Row) (db : Db) : Db :=
  with_tables db (alter (λ t, with_rows t (tb_rows t ++ [row])) name (db_tables db)).
Definition manifest_row (cid : string) (seq : Z) (times : list (string * Value)) : Row :=
  list_to_map ([("id", VInt 1); ("cid", VText cid); ("ipns_sequence", VInt seq); ("byte_size", VInt 100);
    ("content_hash", VBytes (replicate 32 Byte.x00)); ("format_version", VInt 1); ("published_at", VInt 3)]%string ++ times).
Definition legacy_manifest : Row :=
  manifest_row "bafyold" 4 [("ipns_published_at", VInt 4); ("superseded_at", VInt 5); ("unpinned_at", VInt 9)]%string.
Definition chain_manifest : Row :=
  manifest_row "bafynew" 7 [("ipns_published_at", VNull); ("superseded_at", VNull); ("unpinned_at", VNull)]%string.
Definition upgraded_db : Db :=
  add_row "published_manifests" legacy_manifest (add_row "published_indexed_manifests" chain_manifest
    (run_build no_cast 100 15 (mkDb ∅ ∅ false None)).2).
Definition written_off (db : Db) : list (option Value) :=
  match db_tables db !! "indexer_state"%string with Some t => (λ r : Row, r !! "value"%string) <$> tb_rows t | None => [] end.

Lemma migrations_lose_nothing_witness :
  (run_migrations no_cast 200 upgraded_db).1 = Ok tt ∧ version_of upgraded_db = 15 ∧
  written_off (run_migrations no_cast 200 upgraded_db).2 = [Some (VInt 7)] ∧
  db_tables (run_migrations no_cast 200 upgraded_db).2 !! "published_manifests"%string = None ∧
  ∃ t, db_tables (run_migrations no_cast 200 upgraded_db).2 !! "published_indexed_manifests"%string = Some t ∧
    Forall (λ row, (selects pending_row row → default VNull (row !! "manifest_json"%string) ≠ VNull) ∧
      (selects invalidated_manifest row → ∀ z, row_int "ipns_sequence" row = Some z →
        reserved z (run_migrations no_cast 200 upgraded_db).2)) (tb_rows t).
Proof.
  assert ((run_migrations no_cast 200 upgraded_db).1 = Ok tt) as Hok by (vm_compute; reflexivity).
  assert (version_of upgraded_db = 15) as Hv by (vm_compute; reflexivity).
  destruct (migrations_lose_nothing no_cast 200 upgraded_db Hok) as (_ & Hlegacy & Hseq).
  split; [exact Hok|]. split; [exact Hv|]. split; [vm_compute; reflexivity|]. split.
  - assert (version_of upgraded_db < CURRENT_SCHEMA_VERSION) as Hlt by (rewrite Hv; reflexivity).
    exact (proj1 (Hlegacy Hlt "published_manifests"%string (list_elem_of_here _ _))).
  - apply Hseq. rewrite Hv. reflexivity.
Defined.
