(* ===== verification/AuditLog.v ===== *)
(** * The publication audit ([audit.rs])

    What was pinned and published: the artifact and manifest tables of the two
    publication channels (chain-indexed and POI v4), the edges from manifests
    to the artifacts they reference, and the debts of failed clean-ups. A table
    is the list of its rows; an [UPDATE] maps over it, a [SELECT] filters it.
    [now] is the transaction's timestamp in microseconds. Failures of the
    database itself are not modelled, except a violated primary key. *)

From stdpp Require Import pretty.
From S2P Require Import Prelude Order Wire Ipfs Artifacts PoiStore.

(** ** Types *)
Inductive IndexedArtifactPublicationKind := Chunk | Catalog.
Inductive PoiArtifactPublicationKind := CheckpointChunk | CheckpointCatalog | CurrentTail | Bridge | BlockedShields.

Definition indexed_artifact_publication_kind_str (kind : IndexedArtifactPublicationKind) : string :=
  match kind with Chunk => "chunk" | Catalog => "catalog" end.
Definition poi_artifact_kind_str (kind : PoiArtifactPublicationKind) : string :=
  match kind with
  | CheckpointChunk => "checkpoint_chunk" | CheckpointCatalog => "checkpoint_catalog"
  | CurrentTail => "current_tail" | Bridge => "bridge" | BlockedShields => "blocked_shields"
  end.
Definition indexed_dataset_kind_str (kind : IndexedDatasetKind) : string :=
  match kind with
  | WalletScan => "wallet_scan" | Commitments => "commitments"
  | MerkleCheckpoint => "merkle_checkpoint" | PublicTxid => "public_txid"
  end.
Definition indexed_range_kind_str (kind : IndexedArtifactRangeKind) : string :=
  match kind with
  | Block => "block" | TxidIndex => "txid_index" | TreePosition => "tree_position" | PoiEventIndex => "poi_event_index"
  end.
Definition chain_type_discriminant (t : ChainType) : Z := match t with Evm => 0 end.

(** [poi::artifacts::v4::{Scope, EventRange}] *)
Record PoiScope := mkPoiScope {
  ps_list_key : Z;
  ps_chain_type : Z;
  ps_chain_id : Z;
  ps_txid_version : string;
}.
#[export] Instance PoiScope_dec : EqDecision PoiScope.
Proof. solve_decision. Defined.
Record EventRange := mkEventRange { start_index : Z; end_index : Z }.

(** The unique keys of the artifact tables, without the CID. *)
Record IndexedKey := mkIndexedKey {
  ik_artifact_kind : string;
  ik_dataset_kind : string;
  ik_chain_type : Z;
  ik_chain_id : Z;
  ik_railgun_contract : Z;
  ik_range_kind : string;
  ik_range_start : Z;
  ik_range_end : Z;
}.
Record PoiKey := mkPoiKey {
  pk_artifact_kind : string;
  pk_scope : PoiScope;
  pk_range_start : Z;
  pk_range_end : Z;
}.
#[export] Instance IndexedKey_dec : EqDecision IndexedKey.
Proof. solve_decision. Defined.
#[export] Instance PoiKey_dec : EqDecision PoiKey.
Proof. solve_decision. Defined.

(** What must agree for a row to be reused: size, hash and format, and for POI
    artifacts the end root and the descriptor. *)
Record Content := mkContent {
  ct_byte_size : Z;
  ct_content_hash : bytes;
  ct_format_version : Z;
  ct_end_root : option Z;
  ct_descriptor_json : string;
}.
#[export] Instance Content_dec : EqDecision Content.
Proof. solve_decision. Defined.

Record ArtifactRow (K : Type) := mkArtifact {
  ar_key : K;
  ar_cid : string;
  ar_content : Content;
  ar_published_at : Z;
  ar_last_referenced_at : Z;
  ar_unpinned_at : option Z;
}.
Arguments mkArtifact {K}. Arguments ar_key {K}. Arguments ar_cid {K}. Arguments ar_content {K}.
Arguments ar_published_at {K}. Arguments ar_last_referenced_at {K}. Arguments ar_unpinned_at {K}.

Record ManifestRow := mkManifest {
  mf_id : Z;
  mf_cid : string;
  mf_ipns_sequence : Z;
  mf_byte_size : Z;
  mf_content_hash : bytes;
  mf_format_version : Z;
  mf_manifest_json : option string;
  mf_ipns_published_at : option Z;
  mf_superseded_at : option Z;
  mf_unpinned_at : option Z;
  mf_reconciliation_invalidated_at : option Z;
}.

(** The tables of one channel; [ch_next_id] is the manifest id sequence. *)
Record ChannelTables (K : Type) := mkTables {
  ch_artifacts : list (ArtifactRow K);
  ch_manifests : list ManifestRow;
  ch_next_id : Z;
  ch_edges : gset (Z * string);
}.
Arguments mkTables {K}. Arguments ch_artifacts {K}. Arguments ch_manifests {K}. Arguments ch_next_id {K}. Arguments ch_edges {K}.

Record CleanupDebt := mkDebt { db_provider : string; db_attempts : Z; db_last_error : string; db_created_at : Z }.

Record AuditDb := mkAudit {
  au_indexed : ChannelTables IndexedKey;
  au_poi : ChannelTables PoiKey;
  (** (manifest_id, scope) to entry_json *)
  au_poi_entries : list (Z * PoiScope * string);
  pin_cleanup_debt : gmap string CleanupDebt;
  au_indexer_state : gmap string Z;
}.

Inductive AuditError :=
  | AuditSqlx (message : string)
  | AuditInvalidCid (cid : string)
  | AuditIntegerOutOfRange (field value : string)
  | TimeBeforeUnixEpoch
  | UnrecordedManifest (cid : string)
  | SupersededManifest (cid : string)
  | UnpinnedManifest (cid : string)
  | UnresolvedPendingManifest (channel cid : string) (sequence : Z)
  | AmbiguousPendingManifests (channel : string) (count : nat)
  | PendingManifestAuthorizationMismatch (channel cid : string) (sequence : Z)
  | PendingManifestNotRecoverable (channel cid : string) (sequence : Z) (state : string)
  | ReconciliationSequenceNotNewer (channel cid : string) (sequence invalidated_sequence : Z)
  | MissingIndexedManifestArtifacts (expected actual : nat)
  | MissingIndexedManifestBody (cid : string)
  | IndexedManifestBodyMismatch (cid : string)
  | IndexedManifestInvalid (message : string)
  | IndexedManifestSequenceMismatch (cid : string) (stored body : Z)
  | AuditJson (message : string)
  | PoiArtifactContract (message : string)
  | PoiArtifactConflict (cid : string) (byte_size : Z)
  | MissingManifestArtifacts (expected actual : nat).
Notation aresult := (result AuditError).

Definition audit_u64_to_i64 (value : Z) (field : string) : aresult Z :=
  if decide (value ≤ i64_max) then Ok value else Err (AuditIntegerOutOfRange field (pretty value)).
Definition audit_i64_to_u64 (value : Z) (field : string) : aresult Z :=
  if decide (0 ≤ value) then Ok value else Err (AuditIntegerOutOfRange field (pretty value)).
(** Seconds since the epoch as a [SystemTime]. *)
Definition i64_to_system_time (value : Z) (field : string) : aresult Z := audit_i64_to_u64 value field.
(** [EXTRACT(EPOCH FROM t)::BIGINT] rounds to seconds. *)
Definition epoch_seconds (t : Z) : Z := (t + 500000) / 1000000.

(** The CID crate: printing and parsing. *)
Class CidCrate := {
  Cid : Type;
  Cid_dec : EqDecision Cid;
  cid_to_string : Cid → string;
  cid_try_from : string → option Cid;
  cid_roundtrip c : cid_try_from (cid_to_string c) = Some c;
}.
#[export] Existing Instance Cid_dec.

(** The manifest type of the artifact crate: JSON, signature and sequence. *)
Class ManifestCrate := {
  IndexedArtifactManifest : Type;
  manifest_from_json : string → result string IndexedArtifactManifest;
  verify_trusted_signature : IndexedArtifactManifest → bytes → result string unit;
  manifest_sequence : IndexedArtifactManifest → Z;
  (** [str::len] and [content_hash] of the UTF-8 bytes *)
  json_bytes : string → bytes;
  content_hash : bytes → bytes;
}.

(** The manifest entries of [poi::artifacts::v4]. *)
Class PoiV4Crate := {
  ManifestEntry : Type;
  entry_scope : ManifestEntry → PoiScope;
  entry_validate : ManifestEntry → result string unit;
  entry_to_json : ManifestEntry → result string string;
  entry_from_json : string → result string ManifestEntry;
  (** [entry_json::jsonb #>> '{checkpoint_catalog,artifact,cid}'] *)
  json_checkpoint_cid : string → option string;
  retained_bridge_cids : ManifestEntry → list string;
}.

(** ** Predicates of the [WHERE] clauses *)
Section rows.
Context {K : Type}.

Definition is_live (a : ArtifactRow K) : Prop := ar_unpinned_at a = None.
(** waiting for its IPNS publication *)
Definition is_pending (m : ManifestRow) : Prop :=
  mf_ipns_published_at m = None ∧ mf_superseded_at m = None ∧ mf_unpinned_at m = None ∧ mf_reconciliation_invalidated_at m = None.
Definition is_active (m : ManifestRow) : Prop := mf_ipns_published_at m ≠ None ∧ mf_superseded_at m = None.
(** not superseded and not unpinned: retention keeps what it references *)
Definition is_kept (m : ManifestRow) : Prop := mf_superseded_at m = None ∧ mf_unpinned_at m = None.
End rows.
#[export] Instance is_live_dec {K} (a : ArtifactRow K) : Decision (is_live a) := ltac:(unfold is_live; apply _).
#[export] Instance is_pending_dec m : Decision (is_pending m) := ltac:(unfold is_pending; apply _).
#[export] Instance is_active_dec m : Decision (is_active m) := ltac:(unfold is_active; apply _).
#[export] Instance is_kept_dec m : Decision (is_kept m) := ltac:(unfold is_kept; apply _).

Definition set_published (now : Z) (m : ManifestRow) : ManifestRow :=
  mkManifest (mf_id m) (mf_cid m) (mf_ipns_sequence m) (mf_byte_size m) (mf_content_hash m) (mf_format_version m)
    (mf_manifest_json m) (Some (default now (mf_ipns_published_at m))) (mf_superseded_at m) (mf_unpinned_at m)
    (mf_reconciliation_invalidated_at m).
Definition set_superseded (now : Z) (m : ManifestRow) : ManifestRow :=
  mkManifest (mf_id m) (mf_cid m) (mf_ipns_sequence m) (mf_byte_size m) (mf_content_hash m) (mf_format_version m)
    (mf_manifest_json m) (mf_ipns_published_at m) (Some now) (mf_unpinned_at m) (mf_reconciliation_invalidated_at m).
Definition set_manifest_unpinned (at_ : Z) (m : ManifestRow) : ManifestRow :=
  mkManifest (mf_id m) (mf_cid m) (mf_ipns_sequence m) (mf_byte_size m) (mf_content_hash m) (mf_format_version m)
    (mf_manifest_json m) (mf_ipns_published_at m) (mf_superseded_at m) (Some at_) (mf_reconciliation_invalidated_at m).
Definition set_invalidated (now : Z) (m : ManifestRow) : ManifestRow :=
  mkManifest (mf_id m) (mf_cid m) (mf_ipns_sequence m) (mf_byte_size m) (mf_content_hash m) (mf_format_version m)
    (mf_manifest_json m) (mf_ipns_published_at m) (mf_superseded_at m) (mf_unpinned_at m) (Some now).
Definition set_artifact_unpinned {K} (at_ : Z) (a : ArtifactRow K) : ArtifactRow K :=
  mkArtifact (ar_key a) (ar_cid a) (ar_content a) (ar_published_at a) (ar_last_referenced_at a) (Some at_).

(** [UPDATE .. SET f WHERE P]: the rows, and whether any was affected. *)
Definition update_where {R} (P : R → Prop) `{∀ r, Decision (P r)} (f : R → R) (rows : list R) : list R :=
  (λ r, if decide (P r) then f r else r) <$> rows.

Definition with_manifests {K} (t : ChannelTables K) (ms : list ManifestRow) : ChannelTables K :=
  mkTables (ch_artifacts t) ms (ch_next_id t) (ch_edges t).
Definition with_artifacts {K} (t : ChannelTables K) (rows : list (ArtifactRow K)) : ChannelTables K :=
  mkTables rows (ch_manifests t) (ch_next_id t) (ch_edges t).
Definition with_indexed (db : AuditDb) (t : ChannelTables IndexedKey) : AuditDb :=
  mkAudit t (au_poi db) (au_poi_entries db) (pin_cleanup_debt db) (au_indexer_state db).
Definition with_poi (db : AuditDb) (t : ChannelTables PoiKey) : AuditDb :=
  mkAudit (au_indexed db) t (au_poi_entries db) (pin_cleanup_debt db) (au_indexer_state db).
Definition with_debts (db : AuditDb) (m : gmap string CleanupDebt) : AuditDb :=
  mkAudit (au_indexed db) (au_poi db) (au_poi_entries db) m (au_indexer_state db).

(** ** Operations of one channel *)
Section channel.
Context {K : Type} `{EqDecision K}.
Implicit Types (t : ChannelTables K).

Definition is_row (key : K) (cid : string) (a : ArtifactRow K) : Prop := ar_key a = key ∧ ar_cid a = cid.
#[export] Instance is_row_dec key cid a : Decision (is_row key cid a) := ltac:(unfold is_row; apply _).

(** [COUNT(DISTINCT cid) .. WHERE cid = ANY(..) AND unpinned_at IS NULL] *)
Definition live_count t (artifact_cids : list string) : nat :=
  length (remove_dups (filter (λ c, c ∈ artifact_cids) (ar_cid <$> filter is_live (ch_artifacts t)))).

Definition reject_unresolved_pending (channel : string) t : aresult unit :=
  match filter is_pending (ch_manifests t) with
  | m :: _ =>
      sequence ← audit_i64_to_u64 (mf_ipns_sequence m) "ipns_sequence";
      Err (UnresolvedPendingManifest channel (mf_cid m) sequence)
  | [] => Ok tt
  end.

(** The invalidated manifests that no publication superseded yet. *)
Definition is_invalidated (m : ManifestRow) : Prop :=
  mf_reconciliation_invalidated_at m ≠ None ∧ mf_superseded_at m = None.
#[export] Instance is_invalidated_dec m : Decision (is_invalidated m) := ltac:(unfold is_invalidated; apply _).

Definition ensure_newer_than_invalidated_pending (channel : string) t (cid : string) (sequence : Z) : aresult unit :=
  match max_list (mf_ipns_sequence <$> filter is_invalidated (ch_manifests t)) with
  | Some invalidated_sequence =>
      if decide (sequence ≤ invalidated_sequence) then
        sequence ← audit_i64_to_u64 sequence "sequence";
        invalidated_sequence ← audit_i64_to_u64 invalidated_sequence "invalidated_sequence";
        Err (ReconciliationSequenceNotNewer channel cid sequence invalidated_sequence)
      else Ok tt
  | None => Ok tt
  end.

(** [INSERT .. RETURNING id], and the edges of the new manifest. *)
Definition insert_manifest t (cid : string) (sequence byte_size : Z) (hash : bytes) (format_version : Z) (json : option string)
    : Z * ChannelTables K :=
  (ch_next_id t,
   mkTables (ch_artifacts t)
     (ch_manifests t ++ [mkManifest (ch_next_id t) cid sequence byte_size hash format_version json None None None None])
     (ch_next_id t + 1) (ch_edges t)).
Definition insert_edges t (manifest_id : Z) (artifact_cids : list string) : ChannelTables K :=
  mkTables (ch_artifacts t) (ch_manifests t) (ch_next_id t)
    (ch_edges t ∪ list_to_set ((λ c, (manifest_id, c)) <$> artifact_cids)).

(** The row [record_.._ipns_publication] activates. *)
Definition is_activatable (cid : string) (sequence : Z) (m : ManifestRow) : Prop :=
  mf_cid m = cid ∧ mf_ipns_sequence m = sequence ∧ mf_superseded_at m = None ∧ mf_unpinned_at m = None ∧
  mf_reconciliation_invalidated_at m = None.
#[export] Instance is_activatable_dec cid sequence m : Decision (is_activatable cid sequence m) :=
  ltac:(unfold is_activatable; apply _).
End channel.

Section audit.
Context `{CidCrate} `{ManifestCrate} `{PoiV4Crate}.
(** the database's collation *)
Context (text_leb : string → string → bool).

Definition parse_cid (value : string) : aresult Cid := ok_or (cid_try_from value) (AuditInvalidCid value).
Definition order_by_text (l : list string) : list string := sort_by text_leb l.

(** ** Debts and references *)
Definition record_pin_cleanup_debt (db : AuditDb) (now : Z) (cid : Cid) (provider error : string) : AuditDb :=
  let key := cid_to_string cid in
  with_debts db (<[key :=
    match pin_cleanup_debt db !! key with
    | Some debt => mkDebt provider (db_attempts debt) error (db_created_at debt)
    | None => mkDebt provider 0 error now
    end]> (pin_cleanup_debt db)).

Section references.
Context {K : Type} (t : ChannelTables K) (cid : string).

Definition live_artifact_exists : Prop := Exists (λ a, ar_cid a = cid ∧ is_live a) (ch_artifacts t).
Definition unpinned_manifest_none : Prop := Exists (λ m, mf_cid m = cid ∧ mf_unpinned_at m = None) (ch_manifests t).
(** an edge from a manifest that is still pinned *)
Definition pinned_edge_exists : Prop :=
  Exists (λ m, (mf_id m, cid) ∈ ch_edges t ∧ mf_unpinned_at m = None) (ch_manifests t).
#[export] Instance live_artifact_exists_dec : Decision live_artifact_exists := ltac:(unfold live_artifact_exists; apply _).
#[export] Instance unpinned_manifest_none_dec : Decision unpinned_manifest_none := ltac:(unfold unpinned_manifest_none; apply _).
#[export] Instance pinned_edge_exists_dec : Decision pinned_edge_exists := ltac:(unfold pinned_edge_exists; apply _).
End references.

Definition publication_cid_is_referenced (db : AuditDb) (cid : Cid) : bool :=
  let c := cid_to_string cid in
  bool_decide (live_artifact_exists (au_indexed db) c ∨ unpinned_manifest_none (au_indexed db) c ∨
    live_artifact_exists (au_poi db) c ∨ unpinned_manifest_none (au_poi db) c ∨
    pinned_edge_exists (au_indexed db) c ∨ pinned_edge_exists (au_poi db) c).

(** ** Chain-indexed channel *)
Definition indexed_key (artifact_kind : IndexedArtifactPublicationKind) (dataset_kind : IndexedDatasetKind) (scope : ChainScope)
    (range : IndexedArtifactRange) : aresult IndexedKey :=
  chain_id ← audit_u64_to_i64 (chain_id scope) "chain_id";
  range_start_ ← audit_u64_to_i64 (range_start range) "range_start";
  range_end_ ← audit_u64_to_i64 (range_end range) "range_end";
  Ok (mkIndexedKey (indexed_artifact_publication_kind_str artifact_kind) (indexed_dataset_kind_str dataset_kind)
        (chain_type_discriminant (chain_type scope)) chain_id (railgun_contract scope)
        (indexed_range_kind_str (range_kind range)) range_start_ range_end_).
Definition indexed_content (byte_size : Z) (hash : bytes) (format_version : Z) : aresult Content :=
  byte_size ← audit_u64_to_i64 byte_size "byte_size";
  Ok (mkContent byte_size hash format_version None "").

(** [ORDER BY last_referenced_at DESC, published_at DESC] *)
Definition recent_leb {K} (a b : ArtifactRow K) : bool :=
  bool_decide (ar_last_referenced_at b < ar_last_referenced_at a) ||
  (bool_decide (ar_last_referenced_at b = ar_last_referenced_at a) && bool_decide (ar_published_at b ≤ ar_published_at a)).

Definition live_indexed_artifact_cid (db : AuditDb) (artifact_kind : IndexedArtifactPublicationKind)
    (dataset_kind : IndexedDatasetKind) (scope : ChainScope) (range : IndexedArtifactRange) (byte_size : Z) (hash : bytes)
    (format_version : Z) : aresult (option Cid) :=
  key ← indexed_key artifact_kind dataset_kind scope range;
  content ← indexed_content byte_size hash format_version;
  match head (sort_by recent_leb (filter (λ a, ar_key a = key ∧ ar_content a = content ∧ is_live a) (ch_artifacts (au_indexed db)))) with
  | Some a => cid ← parse_cid (ar_cid a); Ok (Some cid)
  | None => Ok None
  end.

Definition record_indexed_artifact_pin (db : AuditDb) (now : Z) (artifact_kind : IndexedArtifactPublicationKind)
    (dataset_kind : IndexedDatasetKind) (scope : ChainScope) (range : IndexedArtifactRange) (cid : Cid) (byte_size : Z)
    (hash : bytes) (format_version : Z) : aresult AuditDb :=
  key ← indexed_key artifact_kind dataset_kind scope range;
  content ← indexed_content byte_size hash format_version;
  let t := au_indexed db in
  let c := cid_to_string cid in
  Ok (with_indexed db (with_artifacts t
    (if decide (Exists (is_row key c) (ch_artifacts t))
     then update_where (is_row key c) (λ a, mkArtifact (ar_key a) (ar_cid a) content (ar_published_at a) now None) (ch_artifacts t)
     else ch_artifacts t ++ [mkArtifact key c content now now None]))).

Definition record_indexed_manifest_pin (db : AuditDb) (cid : Cid) (artifact_cids : list string) (sequence byte_size : Z)
    (hash : bytes) (format_version : Z) (manifest_json : string) : aresult AuditDb :=
  let t := au_indexed db in
  sequence ← audit_u64_to_i64 sequence "sequence";
  byte_size ← audit_u64_to_i64 byte_size "byte_size";
  _ ← (if decide (artifact_cids ≠ [] ∧ live_count t artifact_cids ≠ length artifact_cids)
       then Err (MissingIndexedManifestArtifacts (length artifact_cids) (live_count t artifact_cids)) else Ok tt);
  _ ← reject_unresolved_pending "chain-indexed" t;
  let '(manifest_id, t) := insert_manifest t (cid_to_string cid) sequence byte_size hash format_version (Some manifest_json) in
  Ok (with_indexed db (insert_edges t manifest_id artifact_cids)).

Definition record_indexed_manifest_ipns_publication (db : AuditDb) (now : Z) (cid : Cid) (sequence : Z) : aresult AuditDb :=
  let t := au_indexed db in
  let c := cid_to_string cid in
  sequence ← audit_u64_to_i64 sequence "sequence";
  _ ← ensure_newer_than_invalidated_pending "chain-indexed" t c sequence;
  if decide (Exists (is_activatable c sequence) (ch_manifests t)) then
    let ms := update_where (is_activatable c sequence) (set_published now) (ch_manifests t) in
    let ms := update_where (λ m, mf_superseded_at m = None ∧
        ((mf_ipns_published_at m ≠ None ∧ (mf_cid m ≠ c ∨ mf_ipns_sequence m ≠ sequence)) ∨
         (mf_reconciliation_invalidated_at m ≠ None ∧ mf_ipns_sequence m < sequence))) (set_superseded now) ms in
    Ok (with_indexed db (with_manifests t ms))
  else if decide (Exists (λ m, mf_cid m = c ∧ mf_ipns_sequence m = sequence ∧ mf_unpinned_at m ≠ None) (ch_manifests t))
  then Err (UnpinnedManifest c)
  else if decide (Exists (λ m, mf_cid m = c ∧ mf_ipns_sequence m = sequence ∧ mf_superseded_at m ≠ None) (ch_manifests t))
  then Err (SupersededManifest c)
  else Err (UnrecordedManifest c).

(** [ORDER BY ipns_sequence DESC, id DESC] *)
Definition newest_leb (a b : ManifestRow) : bool :=
  bool_decide (mf_ipns_sequence b < mf_ipns_sequence a) ||
  (bool_decide (mf_ipns_sequence b = mf_ipns_sequence a) && bool_decide (mf_id b ≤ mf_id a)).

Definition edges_of {K} (t : ChannelTables K) (manifest_id : Z) : list string :=
  order_by_text (snd <$> filter (λ e, e.1 = manifest_id) (elements (ch_edges t))).

Record PendingIndexedManifestPublication := mkPendingIndexed {
  pi_cid : string;
  pi_sequence : Z;
  pi_artifact_cids : list string;
  pi_manifest : IndexedArtifactManifest;
  pi_manifest_json : string;
}.

Definition pending_indexed_manifest_publication (db : AuditDb) (trusted_publisher_pubkey : bytes)
    : aresult (option PendingIndexedManifestPublication) :=
  let t := au_indexed db in
  match take 2 (sort_by newest_leb (filter is_pending (ch_manifests t))) with
  | [] => Ok None
  | [m] =>
      json ← ok_or (mf_manifest_json m) (MissingIndexedManifestBody (mf_cid m));
      let bs := json_bytes json in
      actual_byte_size ← ok_or (try_from_len i64_max (length bs))
        (AuditIntegerOutOfRange "manifest_json byte size" (pretty (length bs)));
      _ ← (if decide (actual_byte_size ≠ mf_byte_size m ∨ content_hash bs ≠ mf_content_hash m)
           then Err (IndexedManifestBodyMismatch (mf_cid m)) else Ok tt);
      manifest ← map_err AuditJson (manifest_from_json json);
      _ ← map_err IndexedManifestInvalid (verify_trusted_signature manifest trusted_publisher_pubkey);
      sequence ← audit_i64_to_u64 (mf_ipns_sequence m) "ipns_sequence";
      _ ← (if decide (manifest_sequence manifest ≠ sequence)
           then Err (IndexedManifestSequenceMismatch (mf_cid m) sequence (manifest_sequence manifest)) else Ok tt);
      Ok (Some (mkPendingIndexed (mf_cid m) sequence (edges_of t (mf_id m)) manifest json))
  | rows => Err (AmbiguousPendingManifests "chain-indexed" (length rows))
  end.

(** ** POI v4 channel *)
Definition poi_artifact_range_columns (range : option EventRange) : aresult (Z * Z) :=
  match range with
  | None => Ok (-1, -1)
  | Some range =>
      s ← audit_u64_to_i64 (start_index range) "range_start";
      e ← audit_u64_to_i64 (end_index range) "range_end";
      Ok (s, e)
  end.
(** The bound scope columns: only [chain_id] can be out of range. *)
Definition scope_columns (scope : PoiScope) : aresult PoiScope :=
  chain_id ← audit_u64_to_i64 (ps_chain_id scope) "chain_id";
  Ok (mkPoiScope (ps_list_key scope) (ps_chain_type scope) chain_id (ps_txid_version scope)).

Definition live_poi_artifact_cid (db : AuditDb) (artifact_kind : PoiArtifactPublicationKind) (scope : PoiScope)
    (range : option EventRange) (byte_size : Z) (hash : bytes) (end_root : option Z) : aresult (option Cid) :=
  scope ← scope_columns scope;
  byte_size ← audit_u64_to_i64 byte_size "byte_size";
  '(range_start, range_end) ← poi_artifact_range_columns range;
  match head (sort_by recent_leb (filter (λ a : ArtifactRow PoiKey,
      ar_key a = mkPoiKey (poi_artifact_kind_str artifact_kind) scope range_start range_end ∧
      ct_byte_size (ar_content a) = byte_size ∧ ct_content_hash (ar_content a) = hash ∧
      ct_end_root (ar_content a) = end_root ∧ ct_format_version (ar_content a) = 4 ∧ is_live a) (ch_artifacts (au_poi db)))) with
  | Some a => cid ← parse_cid (ar_cid a); Ok (Some cid)
  | None => Ok None
  end.

Definition record_poi_artifact_pin (db : AuditDb) (now : Z) (artifact_kind : PoiArtifactPublicationKind) (scope : PoiScope)
    (range : option EventRange) (cid : Cid) (byte_size : Z) (hash : bytes) (end_root : option Z) (descriptor_json : string)
    : aresult AuditDb :=
  scope ← scope_columns scope;
  byte_size_i64 ← audit_u64_to_i64 byte_size "byte_size";
  '(range_start, range_end) ← poi_artifact_range_columns range;
  let key := mkPoiKey (poi_artifact_kind_str artifact_kind) scope range_start range_end in
  let content := mkContent byte_size_i64 hash 4 end_root descriptor_json in
  let t := au_poi db in
  let c := cid_to_string cid in
  if decide (Exists (is_row key c) (ch_artifacts t)) then
    if decide (Exists (λ a, is_row key c a ∧ ar_content a = content) (ch_artifacts t)) then
      Ok (with_poi db (with_artifacts t
        (update_where (λ a, is_row key c a ∧ ar_content a = content)
           (λ a, mkArtifact (ar_key a) (ar_cid a) (ar_content a) (ar_published_at a) now None) (ch_artifacts t))))
    else Err (PoiArtifactConflict c byte_size)
  else Ok (with_poi db (with_artifacts t (ch_artifacts t ++ [mkArtifact key c content now now None]))).

(** The entries of a manifest; a repeated scope violates the primary key. *)
Definition insert_entry (manifest_id : Z) (entries : list (Z * PoiScope * string)) (entry : ManifestEntry)
    : aresult (list (Z * PoiScope * string)) :=
  _ ← map_err PoiArtifactContract (entry_validate entry);
  scope ← scope_columns (entry_scope entry);
  json ← map_err AuditJson (entry_to_json entry);
  if decide ((manifest_id, scope) ∈ entries.*1) then Err (AuditSqlx "duplicate key value violates unique constraint")
  else Ok (entries ++ [(manifest_id, scope, json)]).

Definition record_poi_artifact_manifest_pin (db : AuditDb) (cid : Cid) (entries : list ManifestEntry) (artifact_cids : list string)
    (sequence byte_size : Z) (hash : bytes) : aresult AuditDb :=
  let t := au_poi db in
  sequence ← audit_u64_to_i64 sequence "sequence";
  byte_size ← audit_u64_to_i64 byte_size "byte_size";
  let expected := length (remove_dups artifact_cids) in
  _ ← (if decide ((0 < expected)%nat ∧ live_count t artifact_cids ≠ expected)
       then Err (MissingManifestArtifacts expected (live_count t artifact_cids)) else Ok tt);
  _ ← reject_unresolved_pending "v4" t;
  let '(manifest_id, t) := insert_manifest t (cid_to_string cid) sequence byte_size hash 4 None in
  rows ← try_fold (insert_entry manifest_id) (au_poi_entries db) entries;
  Ok (mkAudit (au_indexed db) (insert_edges t manifest_id artifact_cids) rows (pin_cleanup_debt db) (au_indexer_state db)).

Definition record_poi_artifact_manifest_ipns_publication (db : AuditDb) (now : Z) (cid : Cid) (sequence : Z) : aresult AuditDb :=
  let t := au_poi db in
  let c := cid_to_string cid in
  sequence ← audit_u64_to_i64 sequence "sequence";
  _ ← ensure_newer_than_invalidated_pending "v4" t c sequence;
  if decide (Exists (is_activatable c sequence) (ch_manifests t)) then
    let ms := update_where (is_activatable c sequence) (set_published now) (ch_manifests t) in
    let ms := update_where (λ m, mf_superseded_at m = None ∧
        ((mf_cid m ≠ c ∧ mf_ipns_published_at m ≠ None) ∨
         (mf_reconciliation_invalidated_at m ≠ None ∧ mf_ipns_sequence m < sequence))) (set_superseded now) ms in
    Ok (with_poi db (with_manifests t ms))
  else Err (UnrecordedManifest c).

Record PendingManifestPublication := mkPending { pm_cid : string; pm_sequence : Z; pm_artifact_cids : list string }.

Definition pending_manifest_publication (db : AuditDb) : aresult (option PendingManifestPublication) :=
  let t := au_poi db in
  match take 2 (sort_by newest_leb (filter is_pending (ch_manifests t))) with
  | [] => Ok None
  | [m] =>
      sequence ← audit_i64_to_u64 (mf_ipns_sequence m) "ipns_sequence";
      Ok (Some (mkPending (mf_cid m) sequence (edges_of t (mf_id m))))
  | rows => Err (AmbiguousPendingManifests "v4" (length rows))
  end.
Definition pending_poi_artifact_manifest_publication := pending_manifest_publication.

(** The state a manifest that cannot be invalidated is reported in. *)
Definition manifest_state (m : ManifestRow) : string :=
  if decide (mf_ipns_published_at m ≠ None) then "active"
  else if decide (mf_superseded_at m ≠ None) then "superseded"
  else if decide (mf_unpinned_at m ≠ None) then "unpinned"
  else if decide (mf_reconciliation_invalidated_at m ≠ None) then "already invalidated"
  else "not pending".

Definition invalidate_pending_poi_manifest_reconciliation (db : AuditDb) (now : Z) (cid : Cid) (sequence : Z) : aresult AuditDb :=
  let t := au_poi db in
  let c := cid_to_string cid in
  sequence ← audit_u64_to_i64 sequence "sequence";
  let mismatch :=
    s ← audit_i64_to_u64 sequence "sequence";
    Err (PendingManifestAuthorizationMismatch "v4" c s) in
  match filter is_pending (ch_manifests t) with
  | [m] =>
      if decide (mf_cid m ≠ c ∨ mf_ipns_sequence m ≠ sequence) then mismatch
      else
        Ok (mkAudit (au_indexed db)
          (with_manifests t (update_where (λ r, mf_id r = mf_id m ∧ is_pending r) (set_invalidated now) (ch_manifests t)))
          (au_poi_entries db) (pin_cleanup_debt db)
          (<[IPNS_SEQUENCE_STATE_KEY := Z.max (default sequence (au_indexer_state db !! IPNS_SEQUENCE_STATE_KEY)) sequence]>
             (au_indexer_state db)))
  | [] =>
      match filter (λ m, mf_cid m = c ∧ mf_ipns_sequence m = sequence) (ch_manifests t) with
      | [m] =>
          s ← audit_i64_to_u64 sequence "sequence";
          Err (PendingManifestNotRecoverable "v4" c s (manifest_state m))
      | [] => mismatch
      | states => Err (AmbiguousPendingManifests "v4" (length states))
      end
  | unresolved => Err (AmbiguousPendingManifests "v4" (length unresolved))
  end.

Definition abandon_pending_poi_v4_manifest_reconciliation (db : AuditDb) (now : Z) (cid : Cid) (sequence : Z)
    (unavailable_artifact_cid : option Cid) : aresult AuditDb :=
  db ← invalidate_pending_poi_manifest_reconciliation db now cid sequence;
  sequence ← audit_u64_to_i64 sequence "sequence";
  let t := au_poi db in
  Ok (match unavailable_artifact_cid with
      | None => db
      | Some unavailable =>
          with_poi db (with_artifacts t
            (update_where (λ a, ar_cid a = cid_to_string unavailable ∧ is_live a ∧
               Exists (λ m, (mf_id m, ar_cid a) ∈ ch_edges t ∧ mf_cid m = cid_to_string cid ∧ mf_ipns_sequence m = sequence ∧
                 mf_reconciliation_invalidated_at m ≠ None) (ch_manifests t))
               (set_artifact_unpinned now) (ch_artifacts t)))
      end).

Record ActivePoiManifestPublication := mkActivePoi {
  ap_cid : string;
  ap_sequence : Z;
  ap_ipns_published_at : Z;
  ap_entries : list ManifestEntry;
}.

(** A stored entry, read back. *)
Definition stored_entry (json : string) : aresult ManifestEntry :=
  entry ← map_err AuditJson (entry_from_json json);
  _ ← map_err PoiArtifactContract (entry_validate entry);
  Ok entry.

(** [ORDER BY list_key, chain_type, chain_id, txid_version] *)
Definition scope_leb (a b : PoiScope) : bool :=
  match then_with (Z.compare (ps_list_key a) (ps_list_key b))
    (then_with (Z.compare (ps_chain_type a) (ps_chain_type b)) (Z.compare (ps_chain_id a) (ps_chain_id b))) with
  | Lt => true | Gt => false | Eq => text_leb (ps_txid_version a) (ps_txid_version b)
  end.

Definition active_poi_artifact_manifest_publication (db : AuditDb) : aresult (option ActivePoiManifestPublication) :=
  match head (sort_by newest_leb (filter (λ m, is_active m ∧ mf_unpinned_at m = None) (ch_manifests (au_poi db)))) with
  | None => Ok None
  | Some m =>
      entries ← try_map (λ e, stored_entry e.2)
        (sort_by (λ a b, scope_leb a.1.2 b.1.2) (filter (λ e, e.1.1 = mf_id m) (au_poi_entries db)));
      sequence ← audit_i64_to_u64 (mf_ipns_sequence m) "ipns_sequence";
      published_at ← i64_to_system_time (epoch_seconds (default 0 (mf_ipns_published_at m))) "ipns_published_at";
      Ok (Some (mkActivePoi (mf_cid m) sequence published_at entries))
  end.

Record ActivePoiGraph := mkGraph {
  ag_entry : ManifestEntry;
  ag_checkpoint_published_at : Z;
  ag_bridge_published_at : gmap string Z;
}.

(** The joined rows of the graph query: the entry's text with its checkpoint
    catalog's row, newest manifest first, then newest artifact. *)
Definition graph_rows (db : AuditDb) (scope : PoiScope) : list (ManifestRow * ArtifactRow PoiKey * string) :=
  let t := au_poi db in
  e ← filter (λ e, e.1.2 = scope) (au_poi_entries db);
  m ← filter (λ m, mf_id m = e.1.1 ∧ is_active m ∧ mf_unpinned_at m = None) (ch_manifests t);
  a ← filter (λ a, Some (ar_cid a) = json_checkpoint_cid e.2 ∧ pk_artifact_kind (ar_key a) = "checkpoint_catalog"%string ∧ is_live a)
        (ch_artifacts t);
  [(m, a, e.2)].
Definition graph_leb (a b : ManifestRow * ArtifactRow PoiKey * string) : bool :=
  bool_decide (mf_ipns_sequence b.1.1 < mf_ipns_sequence a.1.1) ||
  (bool_decide (mf_ipns_sequence b.1.1 = mf_ipns_sequence a.1.1) &&
   bool_decide (ar_published_at b.1.2 ≤ ar_published_at a.1.2)).

Definition active_poi_graph (db : AuditDb) (scope : PoiScope) : aresult (option ActivePoiGraph) :=
  scope ← scope_columns scope;
  match head (sort_by graph_leb (graph_rows db scope)) with
  | None => Ok None
  | Some (_, checkpoint, json) =>
      entry ← stored_entry json;
      let bridges := filter (λ a : ArtifactRow PoiKey, pk_artifact_kind (ar_key a) = "bridge"%string ∧ ar_cid a ∈ retained_bridge_cids entry)
        (ch_artifacts (au_poi db)) in
      bridge_published_at ← try_fold (λ (m : gmap string Z) a,
        t ← i64_to_system_time (epoch_seconds (ar_published_at a)) "bridge_published_at"; Ok (<[ar_cid a := t]> m)) ∅ bridges;
      checkpoint_published_at ← i64_to_system_time (epoch_seconds (ar_published_at checkpoint)) "checkpoint_published_at";
      Ok (Some (mkGraph entry checkpoint_published_at bridge_published_at))
  end.
End audit.
