(* ===== verification/Retention.v ===== *)
(** * Retention of published content ([audit.rs])

    [Retention::sweep] unpins what no kept manifest references any more: first
    the debts of failed clean-ups, then the superseded manifests and the
    artifacts that were not referenced for the retention interval. The
    provider is its answers to [unpin]; the calls are recorded. Here the database
    answers; a query or commit that fails, also after the unpin, is a path of
    [locked_sweep] in Publication. *)

From stdpp Require Import pretty.
From S2P Require Import Prelude Order Wire Ipfs Artifacts PoiStore AuditLog.

Record RetentionFailure {C : Type} := mkRetentionFailure { rf_cid : C; rf_error : string }.
Arguments RetentionFailure : clear implicits.
Record RetentionSweep {C : Type} := mkSweep { rs_unpinned_cids : list C; rs_failed_cids : list (RetentionFailure C) }.
Arguments RetentionSweep : clear implicits.

(** ** The eligibility query *)
Section eligible.
Context {K : Type} (t : ChannelTables K) (cid : string) (cutoff : Z).

(** superseded before the cutoff and still pinned *)
Definition is_stale (m : ManifestRow) : Prop :=
  mf_cid m = cid ∧ mf_unpinned_at m = None ∧ match mf_superseded_at m with Some s => s ≤ cutoff | None => False end.
#[export] Instance is_stale_dec m : Decision (is_stale m) := ltac:(unfold is_stale; destruct (mf_superseded_at m); apply _).
Definition stale_manifest : Prop := Exists is_stale (ch_manifests t).

Definition is_live_cid (a : ArtifactRow K) : Prop := ar_cid a = cid ∧ is_live a.
#[export] Instance is_live_cid_dec a : Decision (is_live_cid a) := ltac:(unfold is_live_cid; apply _).
(** [GROUP BY cid HAVING MAX(last_referenced_at) <= cutoff] over the live rows *)
Definition stale_artifact : Prop :=
  match max_list (ar_last_referenced_at <$> filter is_live_cid (ch_artifacts t)) with
  | Some last => last ≤ cutoff
  | None => False
  end.
Definition fresh_artifact : Prop := Exists (λ a, is_live_cid a ∧ cutoff < ar_last_referenced_at a) (ch_artifacts t).
Definition active_manifest : Prop := Exists (λ m, mf_cid m = cid ∧ AuditLog.is_active m) (ch_manifests t).
Definition kept_manifest : Prop := Exists (λ m, mf_cid m = cid ∧ is_kept m) (ch_manifests t).
Definition kept_edge : Prop := Exists (λ m, (mf_id m, cid) ∈ ch_edges t ∧ is_kept m) (ch_manifests t).

#[export] Instance stale_manifest_dec : Decision stale_manifest := ltac:(unfold stale_manifest; apply _).
#[export] Instance stale_artifact_dec : Decision stale_artifact := ltac:(unfold stale_artifact; destruct (max_list _); apply _).
#[export] Instance fresh_artifact_dec : Decision fresh_artifact := ltac:(unfold fresh_artifact; apply _).
#[export] Instance active_manifest_dec : Decision active_manifest := ltac:(unfold active_manifest; apply _).
#[export] Instance kept_manifest_dec : Decision kept_manifest := ltac:(unfold kept_manifest; apply _).
#[export] Instance kept_edge_dec : Decision kept_edge := ltac:(unfold kept_edge; apply _).
End eligible.

(** The row's content can go: something stale carries the CID, and nothing that
    is active, recently referenced or kept does. *)
Definition still_eligible (db : AuditDb) (cutoff : Z) (cid : string) : Prop :=
  (stale_manifest (au_indexed db) cid cutoff ∨ stale_artifact (au_indexed db) cid cutoff ∨
   stale_manifest (au_poi db) cid cutoff ∨ stale_artifact (au_poi db) cid cutoff) ∧
  ¬ active_manifest (au_indexed db) cid ∧ ¬ fresh_artifact (au_indexed db) cid cutoff ∧ ¬ kept_edge (au_indexed db) cid ∧
  ¬ kept_manifest (au_poi db) cid ∧ ¬ fresh_artifact (au_poi db) cid cutoff ∧ ¬ kept_edge (au_poi db) cid.
#[export] Instance still_eligible_dec db cutoff cid : Decision (still_eligible db cutoff cid) :=
  ltac:(unfold still_eligible; apply _).

(** All CIDs the tables carry. *)
Definition all_cids (db : AuditDb) : list string :=
  (mf_cid <$> ch_manifests (au_indexed db)) ++ (ar_cid <$> ch_artifacts (au_indexed db)) ++
  (mf_cid <$> ch_manifests (au_poi db)) ++ (ar_cid <$> ch_artifacts (au_poi db)).

(** ** The updates of an unpinned CID *)
Definition mark_unpinned (db : AuditDb) (swept_at cutoff : Z) (cid : string) : AuditDb :=
  let ti := au_indexed db in
  let blocked ms rows :=
    active_manifest (mkTables rows ms (ch_next_id ti) (ch_edges ti)) cid ∨
    fresh_artifact (mkTables rows ms (ch_next_id ti) (ch_edges ti)) cid cutoff in
  let ms := update_where (λ m, is_stale cid cutoff m ∧ ¬ blocked (ch_manifests ti) (ch_artifacts ti))
              (set_manifest_unpinned swept_at) (ch_manifests ti) in
  let rows := update_where (λ a, is_live_cid cid a ∧ ar_last_referenced_at a ≤ cutoff ∧ ¬ blocked ms (ch_artifacts ti))
                (set_artifact_unpinned swept_at) (ch_artifacts ti) in
  let tp := au_poi db in
  let pms := update_where (is_stale cid cutoff) (set_manifest_unpinned swept_at) (ch_manifests tp) in
  let prows := update_where (λ a, is_live_cid cid a ∧ ar_last_referenced_at a ≤ cutoff) (set_artifact_unpinned swept_at)
                 (ch_artifacts tp) in
  mkAudit (mkTables rows ms (ch_next_id ti) (ch_edges ti)) (mkTables prows pms (ch_next_id tp) (ch_edges tp))
    (au_poi_entries db) (pin_cleanup_debt db) (au_indexer_state db).

Section sweep.
Context `{CidCrate}.
Context (text_leb : string → string → bool).
Context (unpin : Cid → result string unit).

(** The state of a sweep: the committed tables, its two result lists, and the
    provider's [unpin] calls so far. *)
Record SweepState := mkSweepState {
  sw_db : AuditDb;
  sw_unpinned : list Cid;
  sw_failed : list (RetentionFailure Cid);
  sw_calls : list Cid;
}.

(** ** Debts *)
Definition debt_leb (a b : string * CleanupDebt) : bool :=
  bool_decide (db_created_at a.2 < db_created_at b.2) ||
  (bool_decide (db_created_at a.2 = db_created_at b.2) && text_leb a.1 b.1).

Definition retry_debt (st : SweepState) (debt : string * Z) : aresult unit * SweepState :=
  let '(cid_text, attempts) := debt in
  let db := sw_db st in
  match parse_cid cid_text with
  | Err e => (Err e, st)
  | Ok cid =>
      let without := with_debts db (delete cid_text (pin_cleanup_debt db)) in
      if publication_cid_is_referenced db cid
      then (Ok tt, mkSweepState without (sw_unpinned st) (sw_failed st) (sw_calls st))
      else
        let calls := sw_calls st ++ [cid] in
        match unpin cid with
        | Ok _ => (Ok tt, mkSweepState without (sw_unpinned st ++ [cid]) (sw_failed st) calls)
        | Err error =>
            match checked_add i64_max attempts 1 with
            | None =>
                (Err (AuditIntegerOutOfRange "pin_cleanup_debt attempts" (pretty attempts)),
                 mkSweepState db (sw_unpinned st) (sw_failed st) calls)
            | Some next_attempts =>
                (Ok tt, mkSweepState
                  (with_debts db (alter (λ d, mkDebt (db_provider d) next_attempts error (db_created_at d)) cid_text (pin_cleanup_debt db)))
                  (sw_unpinned st) (sw_failed st ++ [mkRetentionFailure _ cid error]) calls)
            end
        end
  end.

(** ** One CID of the sweep *)
Definition sweep_cid (cutoff swept_at : Z) (st : SweepState) (cid_text : string) : aresult unit * SweepState :=
  let db := sw_db st in
  match parse_cid cid_text with
  | Err e => (Err e, st)
  | Ok cid =>
      if decide (still_eligible db cutoff cid_text) then
        let calls := sw_calls st ++ [cid] in
        match unpin cid with
        | Err error => (Ok tt, mkSweepState db (sw_unpinned st) (sw_failed st ++ [mkRetentionFailure _ cid error]) calls)
        | Ok _ => (Ok tt, mkSweepState (mark_unpinned db swept_at cutoff cid_text) (sw_unpinned st ++ [cid]) (sw_failed st) calls)
        end
      else (Ok tt, st)
  end.

(** A loop that stops at the first error; its committed steps stay. *)
Fixpoint run_steps {A} (f : SweepState → A → aresult unit * SweepState) (st : SweepState) (l : list A) : aresult unit * SweepState :=
  match l with
  | [] => (Ok tt, st)
  | a :: l => match f st a with (Ok _, st) => run_steps f st l | (Err e, st) => (Err e, st) end
  end.

Definition retry_pin_cleanup_debt (st : SweepState) : aresult unit * SweepState :=
  run_steps retry_debt st
    ((λ d, (d.1, db_attempts d.2)) <$> sort_by debt_leb (map_to_list (pin_cleanup_debt (sw_db st)))).

(** [unix_seconds], and back to the microseconds of a timestamp. *)
Definition unix_seconds (t : Z) : aresult Z :=
  if decide (t < 0) then Err TimeBeforeUnixEpoch else audit_u64_to_i64 (t / 1000000) "retention cutoff".
Definition to_timestamp (seconds : Z) : Z := seconds * 1000000.

Definition sweep_candidates (db : AuditDb) (cutoff : Z) : list string :=
  order_by_text text_leb (remove_dups (filter (still_eligible db cutoff) (all_cids db))).

(** [Retention::sweep_with_coordinator] at time [now]. *)
Definition sweep_with_coordinator (db : AuditDb) (now retention_interval : Z) : aresult (RetentionSweep Cid) * SweepState :=
  let st := mkSweepState db [] [] [] in
  match (cutoff ← unix_seconds (now - retention_interval); swept_at ← unix_seconds now; Ok (cutoff, swept_at)) with
  | Err e => (Err e, st)
  | Ok (cutoff, swept_at) =>
      match retry_pin_cleanup_debt st with
      | (Err e, st) => (Err e, st)
      | (Ok _, st) =>
          match run_steps (sweep_cid (to_timestamp cutoff) (to_timestamp swept_at)) st
                  (sweep_candidates (sw_db st) (to_timestamp cutoff)) with
          | (Err e, st) => (Err e, st)
          | (Ok _, st) => (Ok (mkSweep _ (sw_unpinned st) (sw_failed st)), st)
          end
      end
  end.
End sweep.

(** ** Updates and queries *)
Section updates.
Context {R : Type} (P Q : R → Prop) `{∀ r, Decision (P r)} `{∀ r, Decision (Q r)} (f : R → R).

Lemma Exists_update_where l :
  (∀ r, Q r → (P (f r) ↔ P r)) → Exists P (update_where Q f l) ↔ Exists P l.
Proof.
  intros Hpq. unfold update_where. rewrite Exists_fmap. induction l as [|r l IH]; [by rewrite !Exists_nil|].
  rewrite !Exists_cons, IH. cbn. case_decide as Hq; [|done]. by rewrite (Hpq r Hq).
Qed.

Lemma filter_update_where l :
  (∀ r, Q r → ¬ P r ∧ ¬ P (f r)) → filter P (update_where Q f l) = filter P l.
Proof.
  intros Hpq. unfold update_where. induction l as [|r l IH]; [done|]. cbn [fmap list_fmap]. rewrite !filter_cons, IH.
  destruct (decide (Q r)) as [Hq|Hq]; [|done]. destruct (Hpq r Hq). by rewrite !decide_False.
Qed.

Lemma update_where_None l : Forall (λ r, ¬ Q r) l → update_where Q f l = l.
Proof.
  unfold update_where. induction 1 as [|r l Hr _ IH]; [done|]. cbn. by rewrite decide_False, IH.
Qed.

Lemma elem_of_update_where l r : r ∈ update_where Q f l ↔ ∃ r0, r0 ∈ l ∧ r = if decide (Q r0) then f r0 else r0.
Proof. unfold update_where. rewrite list_elem_of_fmap. naive_solver. Qed.
End updates.

(** ** What a sweep must not touch *)

(** [c] belongs to published content: a kept manifest of either channel
    references it, or it is a published manifest that is kept, or a POI manifest
    that is kept. *)
Definition protected (db : AuditDb) (c : string) : Prop :=
  kept_edge (au_indexed db) c ∨ kept_edge (au_poi db) c ∨ kept_manifest (au_poi db) c ∨
  Exists (λ m, mf_cid m = c ∧ is_kept m ∧ mf_ipns_published_at m ≠ None) (ch_manifests (au_indexed db)).

Lemma eligible_unprotected db cutoff c : still_eligible db cutoff c → ¬ protected db c.
Proof.
  intros (_ & Hact & _ & Hedge & Hkept & _ & Hpedge) [?|[?|[?|Hm]]]; [done..|].
  apply Hact. eapply Exists_impl; [exact Hm|]. intros m (? & [? ?] & ?). by repeat split.
Qed.

Lemma unreferenced_unprotected `{CidCrate} db cid :
  publication_cid_is_referenced db cid = false → ¬ protected db (cid_to_string cid).
Proof.
  unfold publication_cid_is_referenced. rewrite bool_decide_eq_false. intros Hn Hp. apply Hn.
  destruct Hp as [Hp|[Hp|[Hp|Hp]]].
  - do 4 right. left. eapply Exists_impl; [exact Hp|]. intros m [? [_ ?]]. done.
  - do 5 right. eapply Exists_impl; [exact Hp|]. intros m [? [_ ?]]. done.
  - do 3 right. left. eapply Exists_impl; [exact Hp|]. intros m [? [_ ?]]. done.
  - right. left. eapply Exists_impl; [exact Hp|]. intros m (? & [_ ?] & _). done.
Qed.

Lemma update_where_ext {R} (P Q : R → Prop) `{∀ r, Decision (P r)} `{∀ r, Decision (Q r)} (f : R → R) l :
  (∀ r, P r ↔ Q r) → update_where P f l = update_where Q f l.
Proof.
  intros Hpq. unfold update_where. apply list_fmap_ext. intros _ r _.
  destruct (decide (P r)) as [Hp|Hp], (decide (Q r)) as [Hq|Hq]; try done; exfalso; specialize (Hpq r); tauto.
Qed.

Lemma filter_empty {R} (P : R → Prop) `{∀ r, Decision (P r)} l : (∀ r, r ∈ l → ¬ P r) → filter P l = [].
Proof.
  intros Hn. induction l as [|r l IH]; [done|]. rewrite filter_cons, decide_False by (apply Hn; by left).
  apply IH. intros r' Hr'. apply Hn. by right.
Qed.

(** ** Marking one CID in one channel *)
Section mark.
Context {K : Type} (swept_at cutoff : Z) (c : string).
Implicit Types (t : ChannelTables K).

Definition mark_table t : ChannelTables K :=
  mkTables (update_where (λ a, is_live_cid c a ∧ ar_last_referenced_at a ≤ cutoff) (set_artifact_unpinned swept_at) (ch_artifacts t))
    (update_where (is_stale c cutoff) (set_manifest_unpinned swept_at) (ch_manifests t)) (ch_next_id t) (ch_edges t).

Lemma is_stale_superseded m : is_stale c cutoff m → mf_superseded_at m ≠ None.
Proof. intros (_ & _ & Hs) Hn. by rewrite Hn in Hs. Qed.

(** A property of manifests that are not superseded is not affected. *)
Lemma mark_manifests (P : ManifestRow → Prop) t :
  (∀ m, P m → mf_superseded_at m = None) → Exists P (ch_manifests (mark_table t)) ↔ Exists P (ch_manifests t).
Proof.
  intros HP. apply Exists_update_where. intros m Hm%is_stale_superseded. split; intros Hp%HP; cbn in Hp; congruence.
Qed.
Lemma mark_kept_edge t c' : kept_edge (mark_table t) c' ↔ kept_edge t c'.
Proof. apply (mark_manifests (λ m, (mf_id m, c') ∈ ch_edges t ∧ is_kept m)). by intros m [_ [? _]]. Qed.
Lemma mark_kept_manifest t c' : kept_manifest (mark_table t) c' ↔ kept_manifest t c'.
Proof. apply mark_manifests. by intros m [_ [? _]]. Qed.
Lemma mark_active t c' : active_manifest (mark_table t) c' ↔ active_manifest t c'.
Proof. apply mark_manifests. by intros m [_ [_ ?]]. Qed.

Lemma mark_fresh t c' : fresh_artifact (mark_table t) c' cutoff ↔ fresh_artifact t c' cutoff.
Proof.
  apply Exists_update_where. intros a [[_ Hl] Hle]. split; intros [Hlive Hgt]; cbn in *; [by destruct Hlive|lia].
Qed.

Lemma mark_stale_manifest t c' : stale_manifest (mark_table t) c' cutoff ↔ c' ≠ c ∧ stale_manifest t c' cutoff.
Proof.
  destruct (decide (c' = c)) as [->|Hne].
  - split; [|tauto]. unfold stale_manifest, mark_table. cbn. rewrite Exists_exists.
    intros (m & (m0 & _ & ->)%elem_of_update_where & Hs). exfalso.
    destruct (decide (is_stale c cutoff m0)) as [Hs0|Hs0]; [|done]. by destruct Hs as (_ & Hu & _).
  - transitivity (stale_manifest t c' cutoff); [|tauto]. apply Exists_update_where.
    intros m (Hc & _). split; intros (Hc' & _); cbn in Hc'; congruence.
Qed.

Lemma mark_stale_artifact t c' :
  ¬ fresh_artifact t c cutoff → stale_artifact (mark_table t) c' cutoff ↔ c' ≠ c ∧ stale_artifact t c' cutoff.
Proof.
  intros Hfresh. unfold stale_artifact, mark_table. cbn [ch_artifacts]. destruct (decide (c' = c)) as [->|Hne].
  - replace (filter (is_live_cid c) (update_where _ _ _)) with (@nil (ArtifactRow K)); [split; [done|tauto]|].
    symmetry. apply filter_empty. intros a (a0 & Ha0 & ->)%elem_of_update_where Hl.
    case_decide as Hd; [by destruct Hl|]. apply Hfresh. apply Exists_exists. exists a0. split; [done|].
    split; [done|]. destruct (decide (ar_last_referenced_at a0 ≤ cutoff)); [tauto|lia].
  - rewrite filter_update_where; [tauto|]. intros a [[Hc _] _]. split; intros [Hc' _]; cbn in Hc'; congruence.
Qed.
End mark.

Lemma mark_unpinned_tables db swept_at cutoff c :
  ¬ active_manifest (au_indexed db) c → ¬ fresh_artifact (au_indexed db) c cutoff →
  mark_unpinned db swept_at cutoff c =
  mkAudit (mark_table swept_at cutoff c (au_indexed db)) (mark_table swept_at cutoff c (au_poi db))
    (au_poi_entries db) (pin_cleanup_debt db) (au_indexer_state db).
Proof.
  intros Hact Hfresh. unfold mark_unpinned, mark_table. f_equal. f_equal.
  - apply update_where_ext. intros a. split; [tauto|]. intros Ha. split_and!; [apply Ha..|]. intros [Hb|Hb]; [|by apply Hfresh].
    apply Hact. revert Hb. unfold active_manifest. cbn. rewrite Exists_update_where; [done|].
    intros m [(_ & _ & Hs) _]. unfold AuditLog.is_active. cbn. destruct (mf_superseded_at m); [naive_solver|done].
  - apply update_where_ext. intros m. split; [tauto|]. intros Hm. split; [done|]. intros [Hb|Hb]; [by apply Hact|by apply Hfresh].
Qed.

(** Unpinning an eligible CID makes exactly it ineligible, and leaves what is
    protected alone. *)
Lemma mark_unpinned_spec db swept_at cutoff c :
  still_eligible db cutoff c →
  (∀ c', still_eligible (mark_unpinned db swept_at cutoff c) cutoff c' ↔ c' ≠ c ∧ still_eligible db cutoff c') ∧
  (∀ c', protected (mark_unpinned db swept_at cutoff c) c' ↔ protected db c').
Proof.
  intros (Hst & Hact & Hfr & Hed & Hkp & Hpfr & Hped). rewrite mark_unpinned_tables by done. split; intros c'.
  - unfold still_eligible. cbn [au_indexed au_poi].
    rewrite !mark_kept_edge, mark_kept_manifest, mark_active, !mark_fresh, !mark_stale_manifest, !mark_stale_artifact by done. tauto.
  - unfold protected. cbn [au_indexed au_poi]. rewrite !mark_kept_edge, mark_kept_manifest.
    rewrite (mark_manifests _ _ _ (λ m, mf_cid m = c' ∧ is_kept m ∧ mf_ipns_published_at m ≠ None)); [done|].
    by intros m (_ & [? _] & _).
Qed.

Lemma eligible_listed db cutoff c : still_eligible db cutoff c → c ∈ all_cids db.
Proof.
  intros [Hst _]. unfold all_cids. rewrite !elem_of_app, !list_elem_of_fmap.
  assert (∀ K (t : ChannelTables K), stale_manifest t c cutoff → ∃ m, c = mf_cid m ∧ m ∈ ch_manifests t) as Hm.
  { intros K t (m & ? & Hm & _)%Exists_exists. by exists m. }
  assert (∀ K (t : ChannelTables K), stale_artifact t c cutoff → ∃ a, c = ar_cid a ∧ a ∈ ch_artifacts t) as Ha.
  { intros K t. unfold stale_artifact. destruct (filter (is_live_cid c) (ch_artifacts t)) as [|a l] eqn:Hf; [done|]. intros _.
    assert (a ∈ filter (is_live_cid c) (ch_artifacts t)) as [[Hc _] ?]%list_elem_of_filter by (rewrite Hf; by left). by exists a. }
  destruct Hst as [?%Hm|[?%Ha|[?%Hm|?%Ha]]]; tauto.
Qed.

(** ** The whole sweep *)
Section correct.
Context `{CidCrate} (text_leb : string → string → bool) (unpin : Cid → result string unit).

(** The stored CIDs are the printed form of one. *)
Definition canonical (c : string) : Prop := ∃ cid, c = cid_to_string cid.
Record well_stored (db : AuditDb) : Prop := {
  ws_cids c : c ∈ all_cids db → canonical c;
  ws_debts c d : pin_cleanup_debt db !! c = Some d → canonical c ∧ db_attempts d < i64_max;
}.

Lemma canonical_parse c : canonical c → ∃ cid, parse_cid c = Ok cid ∧ cid_to_string cid = c.
Proof. intros [cid ->]. exists cid. unfold parse_cid. by rewrite cid_roundtrip. Qed.

Lemma run_steps_all {A} (f : SweepState → A → aresult unit * SweepState) (I : list A → SweepState → Prop) l st :
  (∀ seen a st, a ∈ l → I seen st → ∃ st', f st a = (Ok tt, st') ∧ I (seen ++ [a]) st') →
  I [] st → ∃ st', run_steps f st l = (Ok tt, st') ∧ I l st'.
Proof.
  intros Hstep HI. change l with ([] ++ l) at 2. generalize (@nil A) as seen, st, HI. clear st HI.
  induction l as [|a l IH]; intros seen st HI; cbn; [exists st; by rewrite app_nil_r|].
  destruct (Hstep seen a st) as (st1 & -> & HI1); [by left|done|].
  destruct (IH (λ seen a st Ha, Hstep seen a st (list_elem_of_further _ _ _ Ha)) (seen ++ [a]) st1 HI1) as (st' & Hr & HI').
  exists st'. split; [done|]. by rewrite <- app_assoc in HI'.
Qed.

(** The calls so far spared everything that is protected. *)
Definition spared (db : AuditDb) (st : SweepState) : Prop :=
  (∀ cid, cid ∈ sw_calls st → ¬ protected db (cid_to_string cid)) ∧ ∀ c, protected (sw_db st) c ↔ protected db c.

Lemma spared_call db st db' unpinned failed cid :
  spared db st → (∀ c, protected db' c ↔ protected (sw_db st) c) → ¬ protected (sw_db st) (cid_to_string cid) →
  spared db (mkSweepState db' unpinned failed (sw_calls st ++ [cid])).
Proof.
  intros [Hcalls Hprot] Heq Hn. split; [|intros c; cbn; by rewrite Heq].
  intros x. cbn. rewrite elem_of_app, list_elem_of_singleton. intros [?| ->]; [by apply Hcalls|by rewrite <- Hprot].
Qed.

Lemma retry_debts db st :
  well_stored db → sw_db st = db → spared db st →
  ∃ st', retry_pin_cleanup_debt text_leb unpin st = (Ok tt, st') ∧ spared db st' ∧
    au_indexed (sw_db st') = au_indexed db ∧ au_poi (sw_db st') = au_poi db.
Proof.
  intros [Hcids Hdebts] Hst Hsp. unfold retry_pin_cleanup_debt.
  destruct (run_steps_all (retry_debt unpin)
    (λ _ st, spared db st ∧ au_indexed (sw_db st) = au_indexed db ∧ au_poi (sw_db st) = au_poi db)
    ((λ d, (d.1, db_attempts d.2)) <$> sort_by (debt_leb text_leb) (map_to_list (pin_cleanup_debt (sw_db st)))) st)
    as (st' & Hr & HI); [|by subst|by exists st'].
  intros _ [c n] s Hin (Hs & Hi & Hp). apply list_elem_of_fmap in Hin as ([c' d] & [= -> ->] & Hin). cbn [fst snd].
  rewrite sort_by_perm, elem_of_map_to_list, Hst in Hin. destruct (Hdebts _ _ Hin) as [Hcan Hatt].
  destruct (canonical_parse c' Hcan) as (cid & Hparse & Hcid). unfold retry_debt. rewrite Hparse.
  destruct (publication_cid_is_referenced (sw_db s) cid) eqn:Href; [by eexists|].
  apply unreferenced_unprotected in Href.
  destruct (unpin cid); [eexists; split; [done|]; split; [by apply spared_call|done]|].
  rewrite (proj2 (checked_add_Some i64_max (db_attempts d) 1 (db_attempts d + 1))) by lia.
  eexists. split; [done|]. split; [by apply spared_call|done].
Qed.

Lemma sweep_cids db cutoff swept_at st l :
  (∀ c, c ∈ l → canonical c) → spared db st →
  ∃ st', run_steps (sweep_cid unpin cutoff swept_at) st l = (Ok tt, st') ∧ spared db st' ∧
    ∀ c, still_eligible (sw_db st') cutoff c → still_eligible (sw_db st) cutoff c ∧
      (c ∈ l → ∃ f, f ∈ sw_failed st' ∧ cid_to_string (rf_cid f) = c).
Proof.
  intros Hcan Hsp. apply (run_steps_all _ (λ seen s, spared db s ∧
    ∀ c, still_eligible (sw_db s) cutoff c → still_eligible (sw_db st) cutoff c ∧
      (c ∈ seen → ∃ f, f ∈ sw_failed s ∧ cid_to_string (rf_cid f) = c))).
  2:{ split; [done|]. intros c Hc. split; [done|]. by intros ?%not_elem_of_nil. }
  intros seen a s Ha [Hs Hel]. destruct (canonical_parse a (Hcan a Ha)) as (cid & Hparse & Hcid).
  unfold sweep_cid. rewrite Hparse. case_decide as He.
  - pose proof (eligible_unprotected _ _ _ He) as Hun. rewrite <- Hcid in Hun. destruct (unpin cid) as [u|error].
    + destruct (mark_unpinned_spec (sw_db s) swept_at cutoff a He) as [Hel' Hprot'].
      eexists. split; [done|]. split; [by apply spared_call|]. cbn. intros c [Hne Hc]%Hel'. destruct (Hel c Hc) as [? Hseen].
      split; [done|]. rewrite elem_of_app, list_elem_of_singleton. intros [?| ->]; [by apply Hseen|done].
    + eexists. split; [done|]. split; [by apply spared_call|]. cbn. intros c Hc. destruct (Hel c Hc) as [? Hseen].
      split; [done|]. rewrite elem_of_app, list_elem_of_singleton. intros [Hin|Hin].
      * destruct (Hseen Hin) as (f & ? & ?). exists f. split; [apply elem_of_app; by left|done].
      * exists (mkRetentionFailure _ cid error). split; [apply elem_of_app; right; by left|by subst].
  - eexists. split; [done|]. split; [done|]. intros c Hc. destruct (Hel c Hc) as [? Hseen]. split; [done|].
    rewrite elem_of_app, list_elem_of_singleton. by intros [?| ->]; [apply Hseen|].
Qed.

Lemma unix_seconds_Ok t : 0 ≤ t → t / 1000000 ≤ i64_max → unix_seconds t = Ok (t / 1000000).
Proof. intros. unfold unix_seconds, audit_u64_to_i64. by rewrite decide_False, decide_True by lia. Qed.

(** C9. The retention sweep is safe and complete. At a valid time it returns; no
    CID it asks the provider to unpin is referenced by a manifest that is kept,
    or is a published manifest or a POI manifest that is kept, in the tables
    the sweep started from, and the sweep does not change which CIDs those are.
    Afterwards nothing is left that the retention interval allows to unpin,
    except what the provider failed to unpin, which is reported. *)
Theorem retention_sweep_correct db now interval :
  well_stored db → 0 ≤ interval ≤ now → now / 1000000 ≤ i64_max →
  ∃ sweep st, sweep_with_coordinator text_leb unpin db now interval = (Ok sweep, st) ∧
    (∀ cid, cid ∈ sw_calls st → ¬ protected db (cid_to_string cid)) ∧
    (∀ c, protected (sw_db st) c ↔ protected db c) ∧
    ∀ c, still_eligible (sw_db st) (to_timestamp ((now - interval) / 1000000)) c →
      ∃ f, f ∈ rs_failed_cids sweep ∧ cid_to_string (rf_cid f) = c.
Proof.
  intros Hws Hnow Hmax. unfold sweep_with_coordinator.
  assert ((now - interval) / 1000000 ≤ now / 1000000) by (apply Z.div_le_mono; lia).
  rewrite !unix_seconds_Ok by lia. cbn [mbind result_bind].
  set (cutoff := to_timestamp ((now - interval) / 1000000)).
  destruct (retry_debts db (mkSweepState db [] [] []) Hws) as (st1 & Hr1 & Hsp1 & Hi1 & Hp1); [done| |].
  { split; [by intros ? ?%not_elem_of_nil|done]. }
  rewrite Hr1. assert (∀ c, c ∈ sweep_candidates text_leb (sw_db st1) cutoff ↔ still_eligible (sw_db st1) cutoff c) as Hcand.
  { intros c. unfold sweep_candidates, order_by_text. rewrite sort_by_perm, elem_of_remove_dups, list_elem_of_filter.
    split; [by intros [? _]|]. intros Hc. split; [done|]. by apply eligible_listed in Hc. }
  destruct (sweep_cids db cutoff (to_timestamp (now / 1000000)) st1 (sweep_candidates text_leb (sw_db st1) cutoff))
    as (st2 & Hr2 & [Hcalls Hprot] & Hel); [|done|].
  { intros c Hc%Hcand%eligible_listed. apply (ws_cids db Hws). unfold all_cids in *. by rewrite <- Hi1, <- Hp1. }
  fold cutoff. rewrite Hr2. eexists _, _. split; [done|]. split_and!; [done|done|]. cbn. intros c Hc.
  destruct (Hel c Hc) as [Hc1 Hf]. by apply Hf, Hcand.
Qed.
End correct.

(** ** Examples *)

(** CIDs are their own text. *)
Definition toy_cids : CidCrate := {| Cid := string; cid_to_string c := c; cid_try_from := Some; cid_roundtrip _ := eq_refl |}.
#[local] Existing Instance toy_cids.

(** Manifest 0, with the artifact "a", was replaced by manifest 1, with "b", at
    [superseded]; "a" was last referenced at 10 s. A debt is left for "d". *)
Definition toy_key (n : Z) : IndexedKey :=
  mkIndexedKey "chunk" "wallet_scan" 0 1 0 "block" n n.
Definition toy_row (cid : string) (n last_referenced_at : Z) : ArtifactRow IndexedKey :=
  mkArtifact (toy_key n) cid (mkContent 1 [] 1 None "") 0 last_referenced_at None.
Definition toy_db (superseded : Z) : AuditDb :=
  mkAudit (mkTables [toy_row "a" 0 10000000; toy_row "b" 1 90000000]
    [mkManifest 0 "m0" 1 1 [] 1 None (Some 10000000) (Some superseded) None None;
     mkManifest 1 "m1" 2 1 [] 1 None (Some superseded) None None None]
    2 {[(0, "a"%string); (1, "b"%string)]})
    (mkTables [] [] 0 ∅) [] {["d"%string := mkDebt "toy" 0 "" 0]} ∅.

Lemma toy_well_stored superseded : well_stored (toy_db superseded).
Proof. split; [intros c _; by exists c|]. intros c d Hd. cbn in Hd. apply lookup_singleton_Some in Hd as [<- <-]. split; [by exists "d"%string|done]. Qed.

(** At 200 s with an interval of 60 s, "a", "m0" and the debt go. *)
Lemma retention_sweep_correct_witness :
  (sweep_with_coordinator String.leb (λ _, Ok tt) (toy_db 100000000) 200000000 60000000).1 =
    Ok (mkSweep _ ["d"; "a"; "m0"]%string []) ∧
  ∃ sweep st, sweep_with_coordinator String.leb (λ _, Ok tt) (toy_db 100000000) 200000000 60000000 = (Ok sweep, st) ∧
    (∀ cid, cid ∈ sw_calls st → ¬ protected (toy_db 100000000) (cid_to_string cid)) ∧
    (∀ c, protected (sw_db st) c ↔ protected (toy_db 100000000) c) ∧
    ∀ c, still_eligible (sw_db st) (to_timestamp ((200000000 - 60000000) / 1000000)) c →
      ∃ f, f ∈ rs_failed_cids sweep ∧ cid_to_string (rf_cid f) = c.
Proof.
  split; [vm_compute; exact eq_refl|].
  apply (retention_sweep_correct String.leb (λ _, Ok tt) (toy_db 100000000) 200000000 60000000 (toy_well_stored _)); [lia|].
  vm_compute. discriminate.
Defined.

(** The interval of an artifact counts from its last reference and not from the
    replacement of its manifest: at 80 s the cutoff is 20 s, the manifest was
    replaced a second ago and stays, and its artifact is unpinned at once. *)
Example replaced_artifact_goes_at_once :
  (sweep_with_coordinator String.leb (λ _, Ok tt) (toy_db 79000000) 80000000 60000000).1 = Ok (mkSweep _ ["d"; "a"]%string []).
Proof. vm_compute. exact eq_refl. Qed.
