(* ===== verification/Publication.v ===== *)
(** * Pinning and publishing ([chain_indexed.rs], [main.rs], [audit.rs])

    The sections of the two publishers and of the retention sweep that run under
    the pin lifecycle lock: reuse or pin an artifact, pin a manifest, clean up a
    pin that could not be recorded, sweep a CID, retry a debt. The world is the
    audit tables, the provider's pins and the pin ownership count. External
    calls may fail; which ones do is an oracle, so that a statement about all
    oracles is one about all failures. A failed pin or unpin has no effect, and
    the provider does not lose pins by itself. A sweep may unpin a CID and then
    fail to commit that: such CIDs are in doubt. *)

From S2P Require Import Prelude Order Wire Ipfs Artifacts PoiStore AuditLog Retention.

(** ** The world *)
Record World := mkWorld {
  w_db : AuditDb;
  w_pins : gset string;
  (** [PinOwnershipState] *)
  w_accepting : bool;
  w_active : nat;
  (** the CIDs whose ownership lease was dropped unsettled *)
  w_dropped : list string;
  (** ghost: the CIDs a sweep unpinned without being able to commit that *)
  w_indoubt : gset string;
  (** (CID, sequence) handed to IPNS *)
  w_ipns : list (string * Z);
  (** which of the next external calls fail *)
  w_faults : list bool;
  w_now : Z;
}.

Definition Pub (A : Type) : Type := World → result string A * World.
#[export] Instance Pub_ret : MRet Pub := λ _ a w, (Ok a, w).
#[export] Instance Pub_bind : MBind Pub := λ _ _ k m w,
  match m w with (Ok a, w) => k a w | (Err e, w) => (Err e, w) end.

Definition set_db (w : World) (db : AuditDb) : World :=
  mkWorld db (w_pins w) (w_accepting w) (w_active w) (w_dropped w) (w_indoubt w) (w_ipns w) (w_faults w) (w_now w).
Definition set_pins (w : World) (pins : gset string) : World :=
  mkWorld (w_db w) pins (w_accepting w) (w_active w) (w_dropped w) (w_indoubt w) (w_ipns w) (w_faults w) (w_now w).
Definition set_owners (w : World) (active : nat) (dropped : list string) : World :=
  mkWorld (w_db w) (w_pins w) (w_accepting w) active dropped (w_indoubt w) (w_ipns w) (w_faults w) (w_now w).
Definition set_indoubt (w : World) (indoubt : gset string) : World :=
  mkWorld (w_db w) (w_pins w) (w_accepting w) (w_active w) (w_dropped w) indoubt (w_ipns w) (w_faults w) (w_now w).
Definition set_faults (w : World) (faults : list bool) : World :=
  mkWorld (w_db w) (w_pins w) (w_accepting w) (w_active w) (w_dropped w) (w_indoubt w) (w_ipns w) faults (w_now w).

Definition act {A} (f : World → result string A * World) : Pub A := f.
Definition fail {A} (e : string) : Pub A := λ w, (Err e, w).
Definition lift {A} (r : result string A) : Pub A := λ w, (r, w).
(** Whether the next external call fails. *)
Definition fault : Pub bool := λ w,
  match w_faults w with [] => (Ok false, w) | b :: bs => (Ok b, set_faults w bs) end.
(** A call that fails without effect, or runs. *)
Definition guarded {A} (e : string) (m : Pub A) : Pub A := b ← fault; if (b : bool) then fail e else m.
(** [match] on a [Result]. *)
Definition try {A} (m : Pub A) : Pub (result string A) := λ w, let '(r, w) := m w in (Ok r, w).

(** [&mut self] of a scheduler with state [S]: what was assigned stays when a
    later call fails. *)
Definition Cycle (S A : Type) : Type := S → World → result string A * S * World.
#[export] Instance Cycle_ret {S} : MRet (Cycle S) := λ _ a s w, (Ok a, s, w).
#[export] Instance Cycle_bind {S} : MBind (Cycle S) := λ _ _ k m s w,
  match m s w with (Ok a, s, w) => k a s w | (Err e, s, w) => (Err e, s, w) end.
Definition pub {S A} (m : Pub A) : Cycle S A := λ s w, let '(r, w) := m w in (r, s, w).
Definition get_scheduler {S} : Cycle S S := λ s w, (Ok s, s, w).
Definition modify {S} (f : S → S) : Cycle S unit := λ s w, (Ok tt, f s, w).

Section publication.
Context `{CidCrate} `{ManifestCrate} `{PoiV4Crate}.
Context (text_leb : string → string → bool).
(** the CID a provider answers for some bytes, and [error.to_string()] *)
Context (pin_cid : bytes → Cid) (audit_error : AuditError → string).
Context (service_name : string).

(** ** The lifecycle coordinator *)
Definition ensure_publication_running : Pub unit := guarded "publication stopped at a cooperative shutdown boundary" (mret tt).
Definition try_acquire_pin_ownership : Pub bool := λ w,
  if w_accepting w then (Ok true, set_owners w (S (w_active w)) (w_dropped w)) else (Ok false, w).
Definition acquire_pin_ownership : Pub unit :=
  _ ← ensure_publication_running;
  admitted ← try_acquire_pin_ownership;
  if (admitted : bool) then mret tt else fail "pin ownership admission is closed for shutdown".
Definition settle_pin_ownership : Pub unit := λ w, (Ok tt, set_owners w (pred (w_active w)) (w_dropped w)).
(** The lease goes out of scope unsettled. *)
Definition drop_pin_ownership (cid : Cid) : Pub unit := λ w,
  (Ok tt, set_owners w (w_active w) (w_dropped w ++ [cid_to_string cid])).
Definition stop_new_pin_ownership : Pub unit := λ w,
  (Ok tt, mkWorld (w_db w) (w_pins w) false (w_active w) (w_dropped w) (w_indoubt w) (w_ipns w) (w_faults w) (w_now w)).

(** ** Provider and database *)
Definition ipfs_pin (bs : bytes) : Pub Cid :=
  guarded "pin failed" (λ w, (Ok (pin_cid bs), set_pins w ({[cid_to_string (pin_cid bs)]} ∪ w_pins w))).
Definition ipfs_unpin (cid : Cid) : Pub unit :=
  guarded "unpin failed" (λ w, (Ok tt, set_pins w (w_pins w ∖ {[cid_to_string cid]}))).
Definition ipfs_contains (cid : Cid) : Pub bool :=
  guarded "contains failed" (λ w, (Ok (bool_decide (cid_to_string cid ∈ w_pins w)), w)).
Definition ipns_publish (cid : string) (sequence : Z) : Pub unit :=
  guarded "IPNS publication failed" (λ w,
    (Ok tt, mkWorld (w_db w) (w_pins w) (w_accepting w) (w_active w) (w_dropped w) (w_indoubt w) (w_ipns w ++ [(cid, sequence)]) (w_faults w) (w_now w))).
Definition db_read {A} (query : AuditDb → aresult A) : Pub A :=
  guarded "database operation failed" (λ w, (map_err audit_error (query (w_db w)), w)).
(** A transaction: begin, the statements, commit. A commit whose answer is lost
    may have taken effect. *)
Definition db_transaction {A} (statements : AuditDb → Z → result string (A * AuditDb)) : Pub A :=
  guarded "begin failed" (λ w,
    match statements (w_db w) (w_now w) with
    | Ok (a, db) =>
        (lost ← fault;
         if (lost : bool) then applied ← fault; act (λ w, (Err "commit failed"%string, if (applied : bool) then set_db w db else w))
         else act (λ w, (Ok a, set_db w db))) w
    | Err e => (Err e, w)
    end).

Definition record_debt (cid : Cid) (error : string) : Pub unit :=
  guarded "database operation failed" (λ w, (Ok tt, set_db w (record_pin_cleanup_debt (w_db w) (w_now w) cid service_name error))).

Definition settle_after_debt (cid : Cid) (error : string) : Pub unit :=
  recorded ← try (record_debt cid error);
  if is_ok recorded then settle_pin_ownership else drop_pin_ownership cid.

Definition cleanup_uncommitted_pin_while_locked (cid : Cid) : Pub unit :=
  referenced ← try (db_read (λ db, Ok (publication_cid_is_referenced db cid)));
  match referenced with
  | Ok true => settle_pin_ownership
  | Ok false =>
      unpinned ← try (ipfs_unpin cid);
      match unpinned with Ok _ => settle_pin_ownership | Err error => settle_after_debt cid error end
  | Err error => settle_after_debt cid error
  end.

(** ** Artifacts *)

(** Pinning under an ownership lease. *)
Definition owned_pin (bs : bytes) : Pub Cid :=
  _ ← acquire_pin_ownership;
  pinned ← try (ipfs_pin bs);
  match pinned with
  | Ok cid => mret cid
  | Err error => _ ← settle_pin_ownership; fail error
  end.

(** Recording a pin; a lease that is held is settled or handed to the clean-up. *)
Definition record_owned {A} (cid : Cid) (owned : bool) (statements : AuditDb → Z → result string (A * AuditDb)) : Pub A :=
  recorded ← try (db_transaction statements);
  match recorded with
  | Ok a => _ ← (if owned then settle_pin_ownership else mret tt); mret a
  | Err error => _ ← (if owned then cleanup_uncommitted_pin_while_locked cid else mret tt); fail error
  end.

(** Reuse the recorded CID of the content if the provider still has it, else
    pin the bytes; record the pin either way. The flag says "reused". *)
Definition reuse_or_pin {A} (lookup : AuditDb → aresult (option Cid)) (bs : bytes)
    (statements : Cid → AuditDb → Z → result string (A * AuditDb)) : Pub (Cid * bool * A) :=
  reusable ← db_read lookup;
  present ← (match reusable with Some cid => ipfs_contains cid | None => mret false end);
  '(cid, reused) ← (match reusable, present with
    | Some cid, true => mret (cid, true)
    | _, _ => cid ← owned_pin bs; mret (cid, false)
    end);
  a ← record_owned cid (negb reused) (statements cid);
  _ ← ensure_publication_running;
  mret (cid, reused, a).

Definition reuse_or_pin_indexed_artifact (artifact_kind : IndexedArtifactPublicationKind) (dataset_kind : IndexedDatasetKind)
    (scope : ChainScope) (range : IndexedArtifactRange) (byte_size : Z) (hash : bytes) (format_version : Z) (bs : bytes) : Pub string :=
  _ ← ensure_publication_running;
  '(cid, _, _) ← reuse_or_pin
    (λ db, live_indexed_artifact_cid db artifact_kind dataset_kind scope range byte_size hash format_version) bs
    (λ cid db now, db ← map_err audit_error
       (record_indexed_artifact_pin db now artifact_kind dataset_kind scope range cid byte_size hash format_version); Ok (tt, db));
  mret (cid_to_string cid).

(** A prepared POI artifact, with its descriptor for a CID and the JSON of that:
    what the publishing of events, catalogs and blocked shields shares. *)
Record PreparedPoiArtifact {D : Type} := mkPrepared {
  pa_scope : PoiScope;
  pa_range : option EventRange;
  pa_bytes : bytes;
  pa_sha256 : bytes;
  pa_end_root : option Z;
  pa_descriptor : string → result string D;
  pa_json : D → result string string;
}.
#[global] Arguments PreparedPoiArtifact : clear implicits.
Definition publish_prepared {D} (kind : PoiArtifactPublicationKind) (prepared : PreparedPoiArtifact D) : Pub (D * bool) :=
  byte_size ← lift (ok_or (try_from_len u64_max (length (pa_bytes prepared))) "POI artifact byte size overflow"%string);
  '(_, reused, descriptor) ← reuse_or_pin
    (λ db, live_poi_artifact_cid db kind (pa_scope prepared) (pa_range prepared) byte_size (pa_sha256 prepared) (pa_end_root prepared))
    (pa_bytes prepared)
    (λ cid db now,
       descriptor ← pa_descriptor prepared (cid_to_string cid);
       json ← pa_json prepared descriptor;
       db ← map_err audit_error (record_poi_artifact_pin db now kind (pa_scope prepared) (pa_range prepared) cid byte_size
         (pa_sha256 prepared) (pa_end_root prepared) json);
       Ok (descriptor, db));
  mret (descriptor, reused).
Definition publish_poi_artifact {D} (kind : PoiArtifactPublicationKind) (prepared : PreparedPoiArtifact D) : Pub (D * bool) :=
  _ ← ensure_publication_running;
  publish_prepared kind prepared.

(** ** Manifests *)
Definition parse (cid : string) : Pub Cid := lift (ok_or (cid_try_from cid) "invalid CID"%string).

Fixpoint ensure_indexed_artifacts_available (artifact_cids : list string) : Pub unit :=
  match artifact_cids with
  | [] => mret tt
  | c :: cs =>
      cid ← parse c;
      present ← ipfs_contains cid;
      if (present : bool) then ensure_indexed_artifacts_available cs
      else fail "indexed manifest artifact is unavailable before manifest publication"
  end.

(** The locked part of a chain-indexed publication cycle. *)
Definition pin_indexed_manifest (artifact_cids : list string) (sequence : Z) (manifest_json : string) (format_version : Z) : Pub Cid :=
  let bs := json_bytes manifest_json in
  _ ← ensure_indexed_artifacts_available artifact_cids;
  cid ← owned_pin bs;
  _ ← record_owned cid true (λ db _,
    db ← map_err audit_error (record_indexed_manifest_pin db cid artifact_cids sequence (Z.of_nat (length bs)) (content_hash bs)
      format_version manifest_json);
    Ok (tt, db));
  mret cid.
Definition activate_indexed_manifest (cid : Cid) (sequence : Z) : Pub unit :=
  db_transaction (λ db now, db ← map_err audit_error (record_indexed_manifest_ipns_publication db now cid sequence); Ok (tt, db)).

(** From the lock on, [publish_cycle] of the chain-indexed scheduler. *)
Definition publish_indexed_manifest (artifact_cids : list string) (sequence : Z) (manifest_json : string) (format_version : Z) : Pub Cid :=
  cid ← pin_indexed_manifest artifact_cids sequence manifest_json format_version;
  _ ← ensure_publication_running;
  _ ← ipns_publish (cid_to_string cid) sequence;
  _ ← ensure_publication_running;
  _ ← activate_indexed_manifest cid sequence;
  mret cid.

(** The locked part of [reconcile_pending_manifest_with]. *)
Definition repin_pending_manifest (pending : PendingIndexedManifestPublication) : Pub Cid :=
  _ ← ensure_indexed_artifacts_available (pi_artifact_cids pending);
  manifest_cid ← parse (pi_cid pending);
  returned_cid ← owned_pin (json_bytes (pi_manifest_json pending));
  if decide (returned_cid ≠ manifest_cid) then
    _ ← cleanup_uncommitted_pin_while_locked returned_cid;
    fail "re-pinned manifest has another CID"
  else
    _ ← settle_pin_ownership;
    mret manifest_cid.

(** [reconcile_pending_manifest_with]; the validation of the chain snapshot is
    passed as [validate]. The answer is the sequence that was published, which
    the scheduler keeps as its last one. *)
Definition reconcile_pending_manifest (trusted : bytes) (validate : IndexedArtifactManifest → Pub unit) : Pub (option Z) :=
  _ ← ensure_publication_running;
  pending ← db_read (λ db, pending_indexed_manifest_publication text_leb db trusted);
  match pending with
  | None => mret None
  | Some pending =>
      _ ← validate (pi_manifest pending);
      manifest_cid ← repin_pending_manifest pending;
      _ ← ensure_publication_running;
      _ ← ipns_publish (pi_cid pending) (pi_sequence pending);
      _ ← ensure_publication_running;
      _ ← activate_indexed_manifest manifest_cid (pi_sequence pending);
      mret (Some (pi_sequence pending))
  end.

(** [publish_poi_manifests], from the lock on. *)
Definition pin_poi_manifest (manifest_bytes : bytes) (entries : list ManifestEntry) (artifact_cids : list string) (sequence : Z) : Pub Cid :=
  cid ← owned_pin manifest_bytes;
  running ← try ensure_publication_running;
  match running with
  | Err error => _ ← cleanup_uncommitted_pin_while_locked cid; fail error
  | Ok _ =>
      _ ← record_owned cid true (λ db _,
        byte_size ← ok_or (try_from_len u64_max (length manifest_bytes)) "POI artifact manifest byte size overflow"%string;
        db ← map_err audit_error (record_poi_artifact_manifest_pin db cid entries artifact_cids sequence byte_size
          (content_hash manifest_bytes));
        Ok (tt, db));
      _ ← ensure_publication_running;
      mret cid
  end.

Definition cid_is_available (cid : string) : Pub bool := cid ← parse cid; ipfs_contains cid.
Definition record_v4_ipns (manifest_cid : string) (sequence : Z) : Pub unit :=
  cid ← parse manifest_cid;
  db_transaction (λ db now, db ← map_err audit_error (record_poi_artifact_manifest_ipns_publication db now cid sequence); Ok (tt, db)).

(** The first CID that is not available. *)
Fixpoint first_unavailable (cids : list string) : Pub (option string) :=
  match cids with
  | [] => mret None
  | c :: cs => available ← cid_is_available c; if (available : bool) then first_unavailable cs else mret (Some c)
  end.

Definition publish_poi_ipns (artifact_cids : list string) (manifest_cid : string) (sequence : Z) : Pub unit :=
  _ ← ensure_publication_running;
  missing ← first_unavailable (artifact_cids ++ [manifest_cid]);
  match missing with
  | Some _ => fail "required POI v4 graph CID is externally unavailable"
  | None =>
      _ ← ipns_publish manifest_cid sequence;
      _ ← ensure_publication_running;
      record_v4_ipns manifest_cid sequence
  end.

Inductive PendingPoiPublicationReconciliation := NothingPending | Activated | Abandoned.
Definition reconcile_pending_poi_publications : Pub PendingPoiPublicationReconciliation :=
  _ ← ensure_publication_running;
  pending ← db_read (pending_poi_artifact_manifest_publication text_leb);
  match pending with
  | None => mret NothingPending
  | Some pending =>
      artifact ← first_unavailable (pm_artifact_cids pending);
      manifest ← (match artifact with
                  | Some _ => mret None
                  | None => first_unavailable [pm_cid pending]
                  end);
      match artifact, manifest with
      | None, None =>
          _ ← ipns_publish (pm_cid pending) (pm_sequence pending);
          _ ← ensure_publication_running;
          _ ← record_v4_ipns (pm_cid pending) (pm_sequence pending);
          mret Activated
      | _, _ =>
          unavailable ← parse (default (pm_cid pending) artifact);
          cid ← parse (pm_cid pending);
          _ ← db_transaction (λ db now,
            db ← map_err audit_error (abandon_pending_poi_v4_manifest_reconciliation db now cid (pm_sequence pending)
              (if artifact then Some unavailable else None));
            Ok (tt, db));
          mret Abandoned
      end
  end.

(** ** The sections of the retention sweep *)
Definition unpin_answer (failed : bool) (_ : Cid) : result string unit := if failed then Err "unpin failed"%string else Ok tt.
(** The world after a step of the sweep. When the write that ends it is [lost]
    it may have been [applied] all the same; the unpin is not undone. *)
Definition after_sweep (lost applied : bool) (w : World) (r : aresult unit * SweepState) : result string unit * World :=
  (if lost then Err "database operation failed"%string else map_err audit_error r.1,
   set_pins (set_db w (if lost && negb applied then w_db w else sw_db r.2)) (w_pins w ∖ list_to_set (cid_to_string <$> sw_unpinned r.2))).
(** One CID under the lock: begin and the eligibility query, the unpin, the
    updates and the commit. *)
Definition locked_sweep (cutoff swept_at : Z) (c : string) : Pub unit :=
  _ ← guarded "database operation failed" (mret tt);
  failed ← fault;
  lost ← fault;
  applied ← fault;
  act (λ w,
    let r := sweep_cid (unpin_answer failed) cutoff swept_at (mkSweepState (w_db w) [] [] []) c in
    let '(answer, w') := after_sweep lost applied w r in
    (answer, if lost && negb applied then set_indoubt w' (list_to_set (cid_to_string <$> sw_unpinned r.2) ∪ w_indoubt w') else w')).
(** One debt under the lock: the reference query, the unpin, and the statement
    that deletes or updates the debt. *)
Definition locked_retry (c : string) : Pub unit :=
  _ ← guarded "database operation failed" (mret tt);
  failed ← fault;
  lost ← fault;
  applied ← fault;
  act (λ w, match pin_cleanup_debt (w_db w) !! c with
       | Some debt => after_sweep lost applied w (retry_debt (unpin_answer failed) (mkSweepState (w_db w) [] [] []) (c, db_attempts debt))
       | None => (Ok tt, w)
       end).

(** ** Reasoning about [Pub] *)
Definition wp {A} (m : Pub A) (Q : result string A → World → Prop) (w : World) : Prop := Q (m w).1 (m w).2.

Lemma pub_mono {A} (m : Pub A) (Q Q' : result string A → World → Prop) w :
  wp m Q w → (∀ r w', Q r w' → Q' r w') → wp m Q' w.
Proof. intros Hm HQ. apply HQ, Hm. Qed.
Lemma pub_bind {A B} (m : Pub A) (k : A → Pub B) (Q : result string B → World → Prop) w :
  wp m (λ r w', match r with Ok a => wp (k a) Q w' | Err e => Q (Err e) w' end) w → wp (m ≫= k) Q w.
Proof. unfold wp, mbind, Pub_bind. by destruct (m w) as [[a|e] w']. Qed.
Lemma pub_ret {A} (a : A) (Q : result string A → World → Prop) w : Q (Ok a) w → wp (mret a) Q w.
Proof. done. Qed.
Lemma wp_fail {A} e (Q : result string A → World → Prop) w : Q (Err e) w → wp (fail e) Q w.
Proof. done. Qed.
Lemma wp_try {A} (m : Pub A) (Q : result string (result string A) → World → Prop) w :
  wp m (λ r, Q (Ok r)) w → wp (try m) Q w.
Proof. unfold wp, try. by destruct (m w). Qed.

(** Two worlds that differ only in the oracle and the IPNS log. *)
Definition quiet (w w' : World) : Prop :=
  w_db w' = w_db w ∧ w_pins w' = w_pins w ∧ w_accepting w' = w_accepting w ∧ w_active w' = w_active w ∧ w_dropped w' = w_dropped w ∧
  w_now w' = w_now w ∧ w_indoubt w' = w_indoubt w.
#[export] Instance quiet_refl : Reflexive quiet.
Proof. done. Qed.
#[export] Instance quiet_trans : Transitive quiet.
Proof. unfold quiet. intros x y z Hxy Hyz. destruct_and!. repeat split; by etrans. Qed.

Lemma wp_fault (Q : result string bool → World → Prop) w : (∀ b w', quiet w w' → Q (Ok b) w') → wp fault Q w.
Proof. intros HQ. unfold wp, fault. destruct (w_faults w); by apply HQ. Qed.
Lemma wp_guarded {A} e (m : Pub A) (Q : result string A → World → Prop) w :
  (∀ w', quiet w w' → Q (Err e) w' ∧ wp m Q w') → wp (guarded e m) Q w.
Proof.
  intros HQ. unfold guarded. apply pub_bind, wp_fault. intros b w' Hw. destruct (HQ w' Hw). by destruct b.
Qed.
Lemma wp_running (Q : result string unit → World → Prop) w : (∀ r w', quiet w w' → Q r w') → wp ensure_publication_running Q w.
Proof. intros HQ. apply wp_guarded. intros w' Hw. split; by apply HQ. Qed.
Lemma wp_contains cid (Q : result string bool → World → Prop) w :
  (∀ r w', quiet w w' → (∀ b, r = Ok b → b = bool_decide (cid_to_string cid ∈ w_pins w)) → Q r w') → wp (ipfs_contains cid) Q w.
Proof.
  intros HQ. apply wp_guarded. intros w' Hw. split; apply HQ; try done. intros b [= <-]. by destruct Hw as (_ & -> & _).
Qed.
Lemma wp_read {A} (query : AuditDb → aresult A) (Q : result string A → World → Prop) w :
  (∀ r w', quiet w w' → (∀ a, r = Ok a → query (w_db w) = Ok a) → Q r w') → wp (db_read query) Q w.
Proof.
  intros HQ. apply wp_guarded. intros w' Hw. split; apply HQ; try done.
  intros a. cbn. destruct Hw as (-> & _). by rewrite map_err_Ok.
Qed.
Lemma wp_parse c (Q : result string Cid → World → Prop) w :
  (∀ r, (∀ cid, r = Ok cid → cid_try_from c = Some cid) → Q r w) → wp (parse c) Q w.
Proof. intros HQ. apply HQ. intros cid. cbn. by rewrite ok_or_Ok. Qed.
Lemma wp_ipns c s (Q : result string unit → World → Prop) w : (∀ r w', quiet w w' → Q r w') → wp (ipns_publish c s) Q w.
Proof. intros HQ. apply wp_guarded. intros w' Hw. split; by apply HQ. Qed.
Lemma wp_transaction {A} (f : AuditDb → Z → result string (A * AuditDb)) (Q : result string A → World → Prop) w :
  (∀ e w', quiet w w' → Q (Err e) w') →
  (∀ a db w', f (w_db w) (w_now w) = Ok (a, db) → quiet w w' → (∀ e, Q (Err e) (set_db w' db)) ∧ Q (Ok a) (set_db w' db)) →
  wp (db_transaction f) Q w.
Proof.
  intros HErr HOk. apply wp_guarded. intros w' Hw. split; [by apply HErr|]. unfold wp.
  destruct (f (w_db w') (w_now w')) as [[a db]|e] eqn:Hf; [|by apply HErr].
  assert (f (w_db w) (w_now w) = Ok (a, db)) as Hf' by (by destruct Hw as (<- & _ & _ & _ & _ & <- & _)).
  eapply (pub_bind fault). apply wp_fault. intros [] w2 Hw2.
  - apply pub_bind, wp_fault. intros [] w3 Hw3; [apply (HOk a db w3 Hf')|apply HErr]; by do 2 (etrans; [done|]).
  - apply (HOk a db w2 Hf'). by etrans.
Qed.
End publication.
