(* ===== verification/PublicationSafety.v ===== *)
(** * Published content stays pinned

    The invariant of the publication world: what the audit tables call pinned is
    pinned at the provider or in doubt, the artifacts of a manifest that is kept
    are live rows or in doubt, and those of a chain-indexed or an announced
    manifest are pinned for certain. Every locked section of the publishers and of the retention
    sweep keeps it, whatever calls fail, so it holds in every interleaving of
    them. *)

From S2P Require Import Prelude Order Wire Ipfs Artifacts PoiStore AuditLog Retention Publication.

Section channel.
Context `{CidCrate} {K : Type}.
Implicit Types (t : ChannelTables K) (pins lost : gset string).

Record channel_ok t pins lost : Prop := {
  co_artifacts a : a ∈ ch_artifacts t → is_live a → ar_cid a ∈ pins;
  co_manifests m : m ∈ ch_manifests t → mf_unpinned_at m = None → mf_cid m ∈ pins;
  co_canonical a : a ∈ ch_artifacts t → canonical (ar_cid a);
  co_canonical_manifest m : m ∈ ch_manifests t → canonical (mf_cid m);
  co_ids m : m ∈ ch_manifests t → mf_id m < ch_next_id t;
  co_edge_ids e : e ∈ ch_edges t → e.1 < ch_next_id t;
  co_edges m c : m ∈ ch_manifests t → is_kept m → (mf_id m, c) ∈ ch_edges t → live_artifact_exists t c ∨ c ∈ lost ∧ canonical c;
}.

Lemma channel_ok_mono t pins pins' lost lost' : pins ⊆ pins' → lost ⊆ lost' → channel_ok t pins lost → channel_ok t pins' lost'.
Proof. intros Hsub Hlost [? ? ? ? ? ? Hedges]. split; eauto. intros m c Hm Hk He. destruct (Hedges m c Hm Hk He) as [?|[? ?]]; [by left|right; split; [set_solver|done]]. Qed.

(** Unpinning a CID no row calls pinned. *)
Lemma channel_ok_unpin t pins lost c :
  ¬ live_artifact_exists t c → ¬ unpinned_manifest_none t c → channel_ok t pins lost → channel_ok t (pins ∖ {[c]}) lost.
Proof.
  intros Ha Hm [Hco1 Hco2 ? ? ? ? ?]. split; try done.
  - intros a Hin Hl. apply elem_of_difference. split; [by apply Hco1|]. intros Heq%elem_of_singleton.
    apply Ha, Exists_exists. eauto.
  - intros m Hin Hl. apply elem_of_difference. split; [by apply Hco2|]. intros Heq%elem_of_singleton.
    apply Hm, Exists_exists. eauto.
Qed.

(** A new set of artifact rows that keeps the live CIDs. *)
Lemma channel_ok_artifacts t pins lost rows :
  (∀ a, a ∈ rows → (is_live a → ar_cid a ∈ pins) ∧ canonical (ar_cid a)) →
  (∀ c, live_artifact_exists t c → live_artifact_exists (with_artifacts t rows) c ∨ c ∈ lost ∧ canonical c) →
  channel_ok t pins lost → channel_ok (with_artifacts t rows) pins lost.
Proof.
  intros Hrows Hlive [? ? ? ? ? ? Hedges]. split; cbn; try done; [by intros; apply Hrows|by intros; apply Hrows|].
  intros m c Hm Hk He. destruct (Hedges m c Hm Hk He); [by apply Hlive|by right].
Qed.

(** Manifest updates that never make a manifest kept or pinned again. *)
Definition tamer (m m' : ManifestRow) : Prop :=
  mf_id m' = mf_id m ∧ mf_cid m' = mf_cid m ∧ mf_unpinned_at m' = mf_unpinned_at m ∧ (mf_superseded_at m' = None → mf_superseded_at m = None).
Lemma channel_ok_tamer t pins lost ms :
  Forall2 tamer (ch_manifests t) ms → channel_ok t pins lost → channel_ok (with_manifests t ms) pins lost.
Proof.
  intros Hf [? Hco2 ? Hco4 Hco5 ? Hco7].
  assert (∀ m', m' ∈ ms → ∃ m, m ∈ ch_manifests t ∧ tamer m m') as Hback.
  { intros m' (i & Hi)%list_elem_of_lookup. eapply Forall2_lookup_r in Hf as (m & Hm & ?); [|done].
    exists m. split; [by eapply list_elem_of_lookup_2|done]. }
  split; cbn; try done.
  - intros m' (m & Hm & (_ & -> & -> & _))%Hback. by apply Hco2.
  - intros m' (m & Hm & (_ & -> & _ & _))%Hback. by apply Hco4.
  - intros m' (m & Hm & (-> & _))%Hback. by apply Hco5.
  - intros m' c (m & Hm & (Hid & _ & Hu & Hs))%Hback [Hk1 Hk2] He. rewrite Hid in He. apply (Hco7 m); [done| |done].
    split; [by apply Hs|congruence].
Qed.

Lemma update_tamer (P : ManifestRow → Prop) `{∀ m, Decision (P m)} f ms ms' :
  (∀ m, tamer m (f m)) → Forall2 tamer ms ms' → Forall2 tamer ms (update_where P f ms').
Proof.
  intros Hf. unfold update_where. induction 1 as [|m m' ms ms' Hm _ IH]; cbn; constructor; [|done].
  case_decide; [|done]. destruct (Hf m') as (H1' & H2' & H3' & H4'). destruct Hm as (? & ? & ? & ?).
  unfold tamer. split_and!; [congruence..|auto].
Qed.
Lemma tamer_refl ms : Forall2 tamer ms ms.
Proof. apply Forall_Forall2_diag, Forall_true. done. Qed.

(** A new manifest with the next id, whose artifacts are live. *)
Lemma channel_ok_manifest t pins lost c sequence size hash version json artifact_cids :
  c ∈ pins → canonical c → (∀ x, x ∈ artifact_cids → live_artifact_exists t x) → channel_ok t pins lost →
  channel_ok (insert_edges (insert_manifest t c sequence size hash version json).2 (ch_next_id t) artifact_cids) pins lost.
Proof.
  intros Hc Hcan Hlive [? Hco2 ? Hco4 Hco5 Hco6 Hco7]. cbn. split; cbn; try done.
  - intros m [Hm| ->%list_elem_of_singleton]%elem_of_app ?; [by apply Hco2|done].
  - intros m [Hm| ->%list_elem_of_singleton]%elem_of_app; [by apply Hco4|done].
  - intros m [Hm| ->%list_elem_of_singleton]%elem_of_app; cbn; [specialize (Hco5 _ Hm); lia|lia].
  - intros e [He|He]%elem_of_union; [specialize (Hco6 _ He); lia|].
    apply elem_of_list_to_set, list_elem_of_fmap in He as (x & -> & _). cbn. lia.
  - intros m x [Hm| ->%list_elem_of_singleton]%elem_of_app Hk [He|He]%elem_of_union.
    + by apply (Hco7 m).
    + apply elem_of_list_to_set, list_elem_of_fmap in He as (y & [= Hid ->] & _). specialize (Hco5 _ Hm). lia.
    + specialize (Hco6 _ He). cbn in Hco6. lia.
    + apply elem_of_list_to_set, list_elem_of_fmap in He as (y & [= ->] & Hy). left. by apply Hlive.
Qed.

(** The count of live artifacts shows that each is live. *)
Lemma live_count_all t cids :
  (length (remove_dups cids) ≤ live_count t cids)%nat → ∀ c, c ∈ cids → live_artifact_exists t c.
Proof.
  unfold live_count. set (l := remove_dups (filter _ _)). intros Hlen c Hc.
  assert (∀ x, x ∈ l ↔ x ∈ cids ∧ live_artifact_exists t x) as Hl.
  { intros x. unfold l. rewrite elem_of_remove_dups, list_elem_of_filter. split.
    - intros [Hin (a & -> & [Hl Ha]%list_elem_of_filter)%list_elem_of_fmap]. split; [done|]. apply Exists_exists. eauto.
    - intros [Hin (a & Ha & <- & Hl)%Exists_exists]. split; [done|]. apply list_elem_of_fmap. exists a.
      by rewrite list_elem_of_filter. }
  assert (l ≡ₚ remove_dups cids) as Hp.
  { apply submseteq_length_Permutation; [|done]. apply NoDup_submseteq; [apply NoDup_remove_dups|].
    intros x [? _]%Hl. by apply elem_of_remove_dups. }
  rewrite <- elem_of_remove_dups, <- Hp in Hc. by apply Hl.
Qed.
End channel.

(** ** Both channels *)
Definition manifest_cids (db : AuditDb) : list string :=
  (mf_cid <$> ch_manifests (au_indexed db)) ++ (mf_cid <$> ch_manifests (au_poi db)).
Definition artifact_cids (db : AuditDb) : list string :=
  (ar_cid <$> ch_artifacts (au_indexed db)) ++ (ar_cid <$> ch_artifacts (au_poi db)).

Section audit.
Context `{CidCrate} `{ManifestCrate} `{PoiV4Crate}.

(** No two manifests, and no manifest and artifact, have the same content. *)
Record audit_ok (db : AuditDb) (pins lost : gset string) : Prop := {
  ao_indexed : channel_ok (au_indexed db) pins lost;
  ao_poi : channel_ok (au_poi db) pins lost;
  ao_nodup : NoDup (manifest_cids db);
  ao_disjoint c : c ∈ manifest_cids db → c ∉ artifact_cids db;
}.

Lemma audit_ok_mono db pins pins' lost lost' : pins ⊆ pins' → lost ⊆ lost' → audit_ok db pins lost → audit_ok db pins' lost'.
Proof. intros ? ? [? ? ? ?]. split; try done; by eapply channel_ok_mono. Qed.

Lemma fmap_update_where {R S} (g : R → S) (P : R → Prop) `{∀ r, Decision (P r)} (f : R → R) l :
  (∀ r, g (f r) = g r) → g <$> update_where P f l = g <$> l.
Proof.
  intros Hg. unfold update_where. rewrite <- list_fmap_compose. apply list_fmap_ext. intros _ r _. cbn.
  by case_decide; [apply Hg|].
Qed.

(** The rows after recording a pin: the CID and the rows it carried. *)
Lemma record_row_ok {K} (t : ChannelTables K) pins lost (P : ArtifactRow K → Prop) `{∀ a, Decision (P a)} f rows row :
  (∀ a, is_live (f a) ∧ ar_cid (f a) = ar_cid a) → (∀ a, P a → ar_cid a ∈ pins) →
  ar_cid row ∈ pins → canonical (ar_cid row) →
  rows = update_where P f (ch_artifacts t) ∨ rows = ch_artifacts t ++ [row] →
  channel_ok t pins lost → channel_ok (with_artifacts t rows) pins lost.
Proof.
  intros Hf HP Hrow Hcan Hrows Hok. apply channel_ok_artifacts; [| |done]; destruct Hrows as [-> | ->].
  - intros a (a0 & Ha0 & ->)%elem_of_update_where. destruct (Hf a0) as [Hl Hc].
    case_decide; rewrite ?Hc; split; eauto using co_artifacts, co_canonical.
  - intros a [Ha| ->%list_elem_of_singleton]%elem_of_app; [|done]. eauto using co_artifacts, co_canonical.
  - intros c (a & Ha & Hc & Hl)%Exists_exists. left. apply Exists_exists. cbn.
    exists (if decide (P a) then f a else a). split; [apply elem_of_update_where; by exists a|].
    destruct (Hf a) as [? Hfc]. case_decide; [|done]. by rewrite Hfc.
  - intros c Hc. left. apply Exists_app. by left.
Qed.

Lemma indexed_pin_ok db pins lost now kind dataset scope range cid size hash version db' :
  audit_ok db pins lost → cid_to_string cid ∈ pins → cid_to_string cid ∉ manifest_cids db →
  record_indexed_artifact_pin db now kind dataset scope range cid size hash version = Ok db' → audit_ok db' pins lost.
Proof.
  intros [Hi Hp Hnd Hdis] Hpin Hfresh Hr. unfold record_indexed_artifact_pin in Hr.
  apply bind_Ok in Hr as (key & _ & Hr). apply bind_Ok in Hr as (content & _ & [= <-]).
  split; [|done|done|].
  - eapply (record_row_ok _ pins lost (is_row key (cid_to_string cid)) (λ a, mkArtifact (ar_key a) (ar_cid a) content (ar_published_at a) now None)
      _ (mkArtifact key (cid_to_string cid) content now now None)); try done.
    + by intros a [_ ->].
    + by exists cid.
    + case_decide; [by left|by right].
  - intros c Hc Ha. unfold artifact_cids in Ha. cbn in Ha. rewrite elem_of_app in Ha.
    assert (c = cid_to_string cid ∨ c ∈ artifact_cids db) as [-> | ?]; [|done|by eapply Hdis].
    unfold artifact_cids. rewrite elem_of_app. case_decide.
    + rewrite fmap_update_where in Ha by done. by right.
    + rewrite fmap_app, elem_of_app in Ha. destruct Ha as [[?|Hs%list_elem_of_singleton]|?]; [tauto|by left|tauto].
Qed.

Lemma poi_pin_ok db pins lost now kind scope range cid size hash root descriptor db' :
  audit_ok db pins lost → cid_to_string cid ∈ pins → cid_to_string cid ∉ manifest_cids db →
  record_poi_artifact_pin db now kind scope range cid size hash root descriptor = Ok db' → audit_ok db' pins lost.
Proof.
  intros [Hi Hp Hnd Hdis] Hpin Hfresh Hr. unfold record_poi_artifact_pin in Hr.
  apply bind_Ok in Hr as (sc & _ & Hr). apply bind_Ok in Hr as (sz & _ & Hr). apply bind_Ok in Hr as ([rs re] & _ & Hr).
  set (key := mkPoiKey _ _ _ _) in Hr. set (content := mkContent _ _ _ _ _) in Hr.
  set (P := λ a : ArtifactRow PoiKey, is_row key (cid_to_string cid) a ∧ ar_content a = content).
  set (f := λ a : ArtifactRow PoiKey, mkArtifact (ar_key a) (ar_cid a) (ar_content a) (ar_published_at a) now None).
  set (row := mkArtifact key (cid_to_string cid) content now now None).
  assert (∃ rows, db' = with_poi db (with_artifacts (au_poi db) rows) ∧
    (rows = update_where P f (ch_artifacts (au_poi db)) ∨ rows = ch_artifacts (au_poi db) ++ [row])) as (rows & -> & Hrows).
  { repeat case_decide; try done; injection Hr as <-; eexists; split; try done; [by left|by right]. }
  split; [done| |done|].
  - eapply (record_row_ok _ pins lost P f _ row); try done; [by intros a [[_ ->] _]|by exists cid].
  - intros c Hc Ha. unfold artifact_cids in Ha. cbn in Ha. rewrite elem_of_app in Ha.
    assert (c = cid_to_string cid ∨ c ∈ artifact_cids db) as [-> | ?]; [|done|by eapply Hdis].
    unfold artifact_cids. rewrite elem_of_app. destruct Hrows as [-> | ->].
    + rewrite fmap_update_where in Ha by done. by right.
    + rewrite fmap_app, elem_of_app in Ha. destruct Ha as [?|[?|Hs%list_elem_of_singleton]]; [tauto|tauto|by left].
Qed.

Lemma indexed_live_cids {K} (t : ChannelTables K) cids :
  ¬ (cids ≠ [] ∧ live_count t cids ≠ length cids) → ∀ c, c ∈ cids → live_artifact_exists t c.
Proof.
  intros Hd. apply live_count_all. pose proof (NoDup_submseteq (remove_dups cids) cids (NoDup_remove_dups _)) as Hs.
  assert (length (remove_dups cids) ≤ length cids)%nat by (apply submseteq_length, Hs; intros x; by rewrite elem_of_remove_dups).
  destruct (decide (cids = [])) as [->|?]; [cbn; lia|].
  assert (live_count t cids = length cids) as -> by (apply dec_stable; intros ?; apply Hd; by split). done.
Qed.
Lemma live_canonical {K} (t : ChannelTables K) pins lost c : channel_ok t pins lost → live_artifact_exists t c → canonical c.
Proof. intros Hok (a & Ha & <- & _)%Exists_exists. by eapply co_canonical. Qed.
Lemma indexed_manifest_ok db pins lost cid cids sequence size hash version json db' :
  audit_ok db pins lost → cid_to_string cid ∈ pins → cid_to_string cid ∉ manifest_cids db → cid_to_string cid ∉ artifact_cids db →
  record_indexed_manifest_pin db cid cids sequence size hash version json = Ok db' → audit_ok db' pins lost.
Proof.
  intros [Hi Hp Hnd Hdis] Hpin Hfm Hfa Hr. unfold record_indexed_manifest_pin in Hr.
  apply bind_Ok in Hr as (sq & _ & Hr). apply bind_Ok in Hr as (sz & _ & Hr). apply bind_Ok in Hr as (u & Hlive & Hr).
  apply bind_Ok in Hr as (u' & _ & [= <-]). split; [|done| |].
  - apply channel_ok_manifest; [done|by exists cid| |done]. case_decide as Hd; [done|]. by apply indexed_live_cids.
  - unfold manifest_cids in *. cbn. rewrite fmap_app, <- app_assoc. cbn. rewrite <- Permutation_middle.
    by apply NoDup_cons.
  - intros c. unfold manifest_cids. cbn. rewrite fmap_app, <- app_assoc. cbn. rewrite <- Permutation_middle.
    intros [-> | ?]%elem_of_cons; [done|by apply Hdis].
Qed.

Lemma poi_manifest_ok db pins lost cid entries cids sequence size hash db' :
  audit_ok db pins lost → cid_to_string cid ∈ pins → cid_to_string cid ∉ manifest_cids db → cid_to_string cid ∉ artifact_cids db →
  record_poi_artifact_manifest_pin db cid entries cids sequence size hash = Ok db' → audit_ok db' pins lost.
Proof.
  intros [Hi Hp Hnd Hdis] Hpin Hfm Hfa Hr. unfold record_poi_artifact_manifest_pin in Hr.
  apply bind_Ok in Hr as (sq & _ & Hr). apply bind_Ok in Hr as (sz & _ & Hr). apply bind_Ok in Hr as (u & Hlive & Hr).
  apply bind_Ok in Hr as (u' & _ & Hr). cbn in Hr. apply bind_Ok in Hr as (rows & _ & [= <-]). split; [done| | |].
  - apply channel_ok_manifest; [done|by exists cid| |done]. apply live_count_all. case_decide as Hd; [done|].
    destruct (decide (0 < length (remove_dups cids))%nat) as [?|?]; [|lia].
    assert (live_count (au_poi db) cids = length (remove_dups cids)) as -> by (apply dec_stable; intros ?; apply Hd; by split). done.
  - unfold manifest_cids in *. cbn. rewrite fmap_app, app_assoc. cbn. rewrite (Permutation_app_comm _ [_]). by apply NoDup_cons.
  - intros c. unfold manifest_cids. cbn. rewrite fmap_app, app_assoc. cbn. rewrite (Permutation_app_comm _ [_]).
    intros [-> | ?]%elem_of_cons; [done|by apply Hdis].
Qed.

(** Activation only publishes and supersedes. *)
Lemma set_published_tamer now m : tamer m (set_published now m).
Proof. by unfold tamer. Qed.
Lemma set_superseded_tamer now m : tamer m (set_superseded now m).
Proof. by unfold tamer. Qed.
Lemma tamer_cids ms ms' : Forall2 tamer ms ms' → mf_cid <$> ms' = mf_cid <$> ms.
Proof. induction 1 as [|m m' ms ms' (_ & Hc & _) _ IH]; cbn; [done|]. by rewrite Hc, IH. Qed.

Lemma activated_ok db pins lost now cid sequence db' :
  audit_ok db pins lost →
  record_indexed_manifest_ipns_publication db now cid sequence = Ok db' ∨
  record_poi_artifact_manifest_ipns_publication db now cid sequence = Ok db' → audit_ok db' pins lost.
Proof.
  intros [Hi Hp Hnd Hdis] [Hr|Hr].
  - unfold record_indexed_manifest_ipns_publication in Hr. apply bind_Ok in Hr as (sq & _ & Hr). apply bind_Ok in Hr as (u & _ & Hr).
    repeat case_decide; try done. injection Hr as <-. set (ms := update_where _ (set_superseded now) _).
    assert (Forall2 tamer (ch_manifests (au_indexed db)) ms) as Hms.
    { apply update_tamer; [apply set_superseded_tamer|]. apply update_tamer; [apply set_published_tamer|apply tamer_refl]. }
    split; [by apply channel_ok_tamer|done| |]; unfold manifest_cids; cbn; by rewrite (tamer_cids _ _ Hms).
  - unfold record_poi_artifact_manifest_ipns_publication in Hr. apply bind_Ok in Hr as (sq & _ & Hr). apply bind_Ok in Hr as (u & _ & Hr).
    repeat case_decide; try done. injection Hr as <-. set (ms := update_where _ (set_superseded now) _).
    assert (Forall2 tamer (ch_manifests (au_poi db)) ms) as Hms.
    { apply update_tamer; [apply set_superseded_tamer|]. apply update_tamer; [apply set_published_tamer|apply tamer_refl]. }
    split; [done|by apply channel_ok_tamer| |]; unfold manifest_cids; cbn; by rewrite (tamer_cids _ _ Hms).
Qed.

(** Unpinning what nothing references. *)
Lemma unreferenced_ok db pins lost cid :
  publication_cid_is_referenced db cid = false → audit_ok db pins lost → audit_ok db (pins ∖ {[cid_to_string cid]}) lost.
Proof.
  unfold publication_cid_is_referenced. rewrite bool_decide_eq_false. intros Hn [Hi Hp Hnd Hdis].
  split; try done; apply channel_ok_unpin; tauto.
Qed.

(** Sweeping an eligible CID. *)
Lemma mark_table_ok {K} (t : ChannelTables K) pins lost swept_at cutoff c :
  ¬ fresh_artifact t c cutoff → ¬ kept_edge t c →
  (∀ m, m ∈ ch_manifests t → mf_cid m = c → mf_unpinned_at m = None → is_stale c cutoff m) →
  channel_ok t pins lost → channel_ok (mark_table swept_at cutoff c t) (pins ∖ {[c]}) lost.
Proof.
  intros Hfresh Hedge Hms [Hco1 Hco2 Hco3 Hco4 Hco5 Hco6 Hco7]. split; cbn.
  - intros a (a0 & Ha0 & ->)%elem_of_update_where. case_decide as Hd; [by intros|]. intros Hl.
    apply elem_of_difference. split; [by apply Hco1|]. intros Hc%elem_of_singleton.
    apply Hfresh, Exists_exists. exists a0. split; [done|]. split; [done|].
    destruct (decide (ar_last_referenced_at a0 ≤ cutoff)); [|lia]. exfalso. apply Hd. done.
  - intros m (m0 & Hm0 & ->)%elem_of_update_where. case_decide as Hd; [by intros|]. intros Hu.
    apply elem_of_difference. split; [by apply Hco2|]. intros Hc%elem_of_singleton. by apply Hd, Hms.
  - intros a (a0 & Ha0 & ->)%elem_of_update_where. by case_decide; apply (Hco3 a0).
  - intros m (m0 & Hm0 & ->)%elem_of_update_where. by case_decide; apply (Hco4 m0).
  - intros m (m0 & Hm0 & ->)%elem_of_update_where. by case_decide; apply (Hco5 m0).
  - done.
  - intros m x (m0 & Hm0 & ->)%elem_of_update_where. case_decide as Hd; [by intros [? ?]|]. intros Hk He.
    assert (x ≠ c) as Hne by (intros ->; apply Hedge, Exists_exists; eauto).
    destruct (Hco7 m0 x Hm0 Hk He); [left|by right]. unfold live_artifact_exists. cbn. apply Exists_update_where; [|done].
    intros a [[Hc _] _]. split; intros [Hx _]; cbn in Hx; congruence.
Qed.

Lemma NoDup_fmap_inj {A B} (f : A → B) l x y : NoDup (f <$> l) → x ∈ l → y ∈ l → f x = f y → x = y.
Proof.
  induction l as [|a l IH]; cbn; [by intros _ ?%not_elem_of_nil|]. rewrite NoDup_cons. intros [Hn Hnd].
  rewrite !elem_of_cons. intros [-> |Hx] [-> |Hy] Hf; [done| | |by apply IH].
  - exfalso. apply Hn. rewrite Hf. by apply list_elem_of_fmap_2.
  - exfalso. apply Hn. rewrite <- Hf. by apply list_elem_of_fmap_2.
Qed.

(** The manifests an eligible CID belongs to are all stale. *)
Lemma eligible_stale db pins lost cutoff c m :
  still_eligible db cutoff c → audit_ok db pins lost →
  m ∈ ch_manifests (au_indexed db) ∨ m ∈ ch_manifests (au_poi db) → mf_cid m = c → is_stale c cutoff m.
Proof.
  intros (Hst & _) [_ _ Hnd Hdis] Hm Hc.
  assert (∀ x, x ∈ artifact_cids db → x ∈ manifest_cids db → False) as Hdis' by (intros x ? ?; by eapply Hdis).
  unfold manifest_cids in *. rewrite <- fmap_app in *.
  assert (c ∈ mf_cid <$> ch_manifests (au_indexed db) ++ ch_manifests (au_poi db)) as Hin
    by (rewrite <- Hc; apply list_elem_of_fmap_2; by rewrite elem_of_app).
  assert (∀ K (t : ChannelTables K), stale_artifact t c cutoff → c ∈ ar_cid <$> ch_artifacts t) as Hsa.
  { intros K t. unfold stale_artifact. destruct (filter (is_live_cid c) (ch_artifacts t)) as [|a l] eqn:Hf; [done|]. intros _.
    assert (a ∈ filter (is_live_cid c) (ch_artifacts t)) as [[<- _] ?]%list_elem_of_filter by (rewrite Hf; by left).
    by apply list_elem_of_fmap_2. }
  assert (∃ m0, (m0 ∈ ch_manifests (au_indexed db) ∨ m0 ∈ ch_manifests (au_poi db)) ∧ is_stale c cutoff m0) as (m0 & Hm0 & Hs).
  { destruct Hst as [(m0 & ? & ?)%Exists_exists|[Ha%Hsa|[(m0 & ? & ?)%Exists_exists|Ha%Hsa]]]; [by eauto| |by eauto|];
      exfalso; eapply Hdis'; [|exact Hin| |exact Hin]; unfold artifact_cids; rewrite elem_of_app; tauto. }
  replace m with m0; [done|]. eapply (NoDup_fmap_inj mf_cid); [exact Hnd|by rewrite elem_of_app..|]. rewrite Hc. by destruct Hs.
Qed.
Lemma swept_ok db pins lost swept_at cutoff c :
  still_eligible db cutoff c → audit_ok db pins lost → audit_ok (mark_unpinned db swept_at cutoff c) (pins ∖ {[c]}) lost.
Proof.
  intros Hel Hok. pose proof (λ m, eligible_stale db pins lost cutoff c m Hel Hok) as Hms.
  destruct Hel as (Hst & Hact & Hfr & Hed & Hkp & Hpfr & Hped), Hok as [Hi Hp Hnd Hdis]. rewrite mark_unpinned_tables by done.
  assert (manifest_cids (mkAudit (mark_table swept_at cutoff c (au_indexed db)) (mark_table swept_at cutoff c (au_poi db))
    (au_poi_entries db) (pin_cleanup_debt db) (au_indexer_state db)) = manifest_cids db) as Hmc.
  { unfold manifest_cids. cbn. by rewrite !fmap_update_where. }
  split; [by apply mark_table_ok; auto|by apply mark_table_ok; auto|by rewrite Hmc|].
  intros x. rewrite Hmc. unfold artifact_cids. cbn. rewrite !fmap_update_where by done. apply Hdis.
Qed.

(** Abandoning a pending manifest: it stays kept, and the rows of an artifact
    in doubt are given up. *)
Lemma set_invalidated_tamer now m : tamer m (set_invalidated now m).
Proof. by unfold tamer. Qed.
Lemma invalidated_tables db now cid sequence db' :
  invalidate_pending_poi_manifest_reconciliation db now cid sequence = Ok db' →
  ∃ m, au_indexed db' = au_indexed db ∧
    au_poi db' = with_manifests (au_poi db) (update_where (λ r, mf_id r = mf_id m ∧ is_pending r) (set_invalidated now) (ch_manifests (au_poi db))).
Proof.
  unfold invalidate_pending_poi_manifest_reconciliation. intros Hr. apply bind_Ok in Hr as (sq & _ & Hr).
  assert (∀ e, (s ← audit_i64_to_u64 sq "sequence"; Err (e s)) ≠ Ok db') as Hn by (intros e He; by apply bind_Ok in He as (? & _ & ?)).
  destruct (filter is_pending (ch_manifests (au_poi db))) as [|m [|m' rest]]; [|case_decide; [by apply Hn in Hr|]; injection Hr as <-; by exists m|done].
  destruct (filter _ _) as [|m [|]]; [by apply Hn in Hr|by apply Hn in Hr|done].
Qed.
Lemma abandoned_ok db pins lost now cid sequence unavailable db' :
  audit_ok db pins lost → (∀ u, unavailable = Some u → cid_to_string u ∈ lost) →
  abandon_pending_poi_v4_manifest_reconciliation db now cid sequence unavailable = Ok db' → audit_ok db' pins lost.
Proof.
  intros Hok Hlost Hr. unfold abandon_pending_poi_v4_manifest_reconciliation in Hr. apply bind_Ok in Hr as (db1 & Hinv & Hr).
  assert (audit_ok db1 pins lost) as [Hi Hp Hnd Hdis].
  { destruct Hok as [Hi Hp Hnd Hdis]. apply invalidated_tables in Hinv as (m & Hi1 & Hp1). set (ms := update_where _ (set_invalidated now) _) in Hp1.
    assert (Forall2 tamer (ch_manifests (au_poi db)) ms) as Hms by (apply update_tamer; [apply set_invalidated_tamer|apply tamer_refl]).
    split; [by rewrite Hi1|rewrite Hp1; by apply channel_ok_tamer| |]; unfold manifest_cids, artifact_cids; rewrite Hi1, Hp1; cbn;
      by rewrite (tamer_cids _ _ Hms). }
  apply bind_Ok in Hr as (sq & _ & [= <-]). destruct unavailable as [u|]; [|done]. set (rows := update_where _ _ _).
  split; [done| |done|unfold artifact_cids; cbn; unfold rows; by rewrite fmap_update_where].
  apply channel_ok_artifacts; [| |done].
  - intros a (a0 & Ha0 & ->)%elem_of_update_where. case_decide; cbn; eauto using co_artifacts, co_canonical.
    split; [done|by eapply co_canonical].
  - intros c Hc. destruct (decide (c = cid_to_string u)) as [->|Hne]; [right; split; [by apply Hlost|by exists u]|left].
    unfold live_artifact_exists. cbn. apply Exists_update_where; [|done]. intros a (Ha & _). split; intros [Hx _]; cbn in Hx; congruence.
Qed.

(** ** What is pinned for certain *)

(** The CID of a kept manifest is pinned; so are the artifacts of those kept
    manifests that are [sure]. *)
Definition firm {K} (sure : ManifestRow → Prop) (t : ChannelTables K) (pins : gset string) : Prop :=
  ∀ m, m ∈ ch_manifests t → is_kept m → mf_cid m ∈ pins ∧ (sure m → ∀ c, (mf_id m, c) ∈ ch_edges t → c ∈ pins).
(** Every kept manifest of the chain-indexed channel is sure, of the POI channel
    those that were announced. *)
Definition announced (m : ManifestRow) : Prop := mf_ipns_published_at m ≠ None.
Record firm_db (db : AuditDb) (pins : gset string) : Prop := {
  fd_indexed : firm (λ _, True) (au_indexed db) pins;
  fd_poi : firm announced (au_poi db) pins;
}.
(** The invariant of tables, pins and the CIDs in doubt. *)
Definition content_ok (db : AuditDb) (pins lost : gset string) : Prop := audit_ok db (pins ∪ lost) lost ∧ firm_db db pins.

Lemma firm_mono {K} sure (t : ChannelTables K) pins pins' : pins ⊆ pins' → firm sure t pins → firm sure t pins'.
Proof. intros Hsub Hf m Hm Hk. destruct (Hf m Hm Hk) as [? Hc]. split; [set_solver|]. intros Hs c Hcc. specialize (Hc Hs c Hcc). set_solver. Qed.
Lemma content_ok_mono db pins pins' lost : pins ⊆ pins' → content_ok db pins lost → content_ok db pins' lost.
Proof.
  intros Hsub [Hok [Hi Hp]]. split; [|split; by eapply firm_mono]. eapply audit_ok_mono; [| |exact Hok]; set_solver.
Qed.

Lemma firm_unpin {K} sure (t : ChannelTables K) pins c :
  ¬ kept_edge t c → (∀ m, m ∈ ch_manifests t → is_kept m → mf_cid m ≠ c) → firm sure t pins → firm sure t (pins ∖ {[c]}).
Proof.
  intros He Hm Hf m Hin Hk. destruct (Hf m Hin Hk) as [Hc Hcs]. split; [specialize (Hm m Hin Hk); set_solver|].
  intros Hs x Hx. specialize (Hcs Hs x Hx). apply elem_of_difference. split; [done|]. intros ->%elem_of_singleton.
  apply He, Exists_exists. eauto.
Qed.
(** Updates that make no manifest sure, or only ones whose artifacts are pinned. *)
Lemma firm_tamer {K} sure (t : ChannelTables K) pins ms :
  Forall2 (λ m m', tamer m m' ∧ (sure m' → is_kept m → sure m ∨ ∀ c, (mf_id m, c) ∈ ch_edges t → c ∈ pins)) (ch_manifests t) ms →
  firm sure t pins → firm sure (with_manifests t ms) pins.
Proof.
  intros Hall Hf m' Hm' [Hk1 Hk2]. cbn in *. apply list_elem_of_lookup in Hm' as (i & Hi).
  eapply Forall2_lookup_r in Hall as (m & Hm%list_elem_of_lookup_2 & (Hid & Hc & Hu & Hs) & Hsure); [|done].
  assert (is_kept m) as Hk by (split; [by apply Hs|congruence]). destruct (Hf m Hm Hk) as [? Hcs]. rewrite Hid, Hc.
  split; [done|]. intros Hs'. destruct (Hsure Hs' Hk); auto.
Qed.
Lemma firm_manifest {K} sure (t : ChannelTables K) pins lost c sequence size hash version json artifact_cids :
  channel_ok t (pins ∪ lost) lost → c ∈ pins → (∀ m, sure m → announced m ∨ ∀ x, x ∈ artifact_cids → x ∈ pins) → firm sure t pins →
  firm sure (insert_edges (insert_manifest t c sequence size hash version json).2 (ch_next_id t) artifact_cids) pins.
Proof.
  intros Hok Hc Hcids Hf m Hm Hk. cbn in *. apply elem_of_app in Hm as [Hm| ->%list_elem_of_singleton].
  - destruct (Hf m Hm Hk) as [? Hcs]. split; [done|]. intros Hs x [Hx|Hx]%elem_of_union; [by apply Hcs|].
    apply elem_of_list_to_set, list_elem_of_fmap in Hx as (y & [= Hid ->] & _). pose proof (co_ids _ _ _ Hok m Hm). lia.
  - split; [done|]. intros Hs x [Hx|Hx]%elem_of_union.
    + pose proof (co_edge_ids _ _ _ Hok _ Hx) as Hlt. cbn in Hlt. lia.
    + apply elem_of_list_to_set, list_elem_of_fmap in Hx as (y & [= ->] & Hy). by destruct (Hcids _ Hs) as [|Hcids']; [|apply Hcids'].
Qed.

(** ** What the statements keep *)
Lemma Forall2_update {A} (R : A → A → Prop) (P : A → Prop) `{∀ a, Decision (P a)} f l l' :
  (∀ a b, R a b → P b → R a (f b)) → Forall2 R l l' → Forall2 R l (update_where P f l').
Proof. intros Hf. unfold update_where. induction 1 as [|a b l l' Hab _ IH]; cbn; constructor; [|done]. case_decide; auto. Qed.

Lemma indexed_pin_content db pins lost now kind dataset scope range cid size hash version db' :
  content_ok db pins lost → cid_to_string cid ∈ pins → cid_to_string cid ∉ manifest_cids db →
  record_indexed_artifact_pin db now kind dataset scope range cid size hash version = Ok db' → content_ok db' pins lost.
Proof.
  intros [Hok [Hi Hp]] Hpin Hfresh Hr. split; [eapply indexed_pin_ok; [exact Hok| |exact Hfresh|exact Hr]; set_solver|].
  unfold record_indexed_artifact_pin in Hr. apply bind_Ok in Hr as (key & _ & Hr). by apply bind_Ok in Hr as (content & _ & [= <-]).
Qed.
Lemma poi_pin_content db pins lost now kind scope range cid size hash root descriptor db' :
  content_ok db pins lost → cid_to_string cid ∈ pins → cid_to_string cid ∉ manifest_cids db →
  record_poi_artifact_pin db now kind scope range cid size hash root descriptor = Ok db' → content_ok db' pins lost.
Proof.
  intros [Hok [Hi Hp]] Hpin Hfresh Hr. split; [eapply poi_pin_ok; [exact Hok| |exact Hfresh|exact Hr]; set_solver|].
  unfold record_poi_artifact_pin in Hr. apply bind_Ok in Hr as (sc & _ & Hr). apply bind_Ok in Hr as (sz & _ & Hr).
  apply bind_Ok in Hr as ([rs re] & _ & Hr). repeat case_decide; try done; by injection Hr as <-.
Qed.
Lemma indexed_manifest_content db pins lost cid cids sequence size hash version json db' :
  content_ok db pins lost → cid_to_string cid ∈ pins → (∀ c, c ∈ cids → canonical c → c ∈ pins) →
  cid_to_string cid ∉ manifest_cids db → cid_to_string cid ∉ artifact_cids db →
  record_indexed_manifest_pin db cid cids sequence size hash version json = Ok db' → content_ok db' pins lost.
Proof.
  intros [Hok [Hi Hp]] Hpin Hcids Hfm Hfa Hr. split; [eapply indexed_manifest_ok; [exact Hok| |exact Hfm|exact Hfa|exact Hr]; set_solver|].
  unfold record_indexed_manifest_pin in Hr. apply bind_Ok in Hr as (sq & _ & Hr). apply bind_Ok in Hr as (sz & _ & Hr).
  apply bind_Ok in Hr as (u & Hlive & Hr). apply bind_Ok in Hr as (u' & _ & [= <-]). split; [|done]. case_decide as Hd; [done|].
  eapply firm_manifest; [apply Hok|done| |done]. intros m _. right. intros c Hc. apply Hcids; [done|].
  eapply live_canonical; [apply Hok|]. by apply (indexed_live_cids _ cids).
Qed.
Lemma poi_manifest_content db pins lost cid entries cids sequence size hash db' :
  content_ok db pins lost → cid_to_string cid ∈ pins → cid_to_string cid ∉ manifest_cids db → cid_to_string cid ∉ artifact_cids db →
  record_poi_artifact_manifest_pin db cid entries cids sequence size hash = Ok db' →
  content_ok db' pins lost.
Proof.
  intros [Hok [Hi Hp]] Hpin Hfm Hfa Hr. split; [eapply poi_manifest_ok; [exact Hok| |exact Hfm|exact Hfa|exact Hr]; set_solver|].
  unfold record_poi_artifact_manifest_pin in Hr. apply bind_Ok in Hr as (sq & _ & Hr). apply bind_Ok in Hr as (sz & _ & Hr).
  apply bind_Ok in Hr as (u & _ & Hr). apply bind_Ok in Hr as (u' & _ & Hr). cbn in Hr. apply bind_Ok in Hr as (rows & _ & [= <-]).
  split; [done|]. eapply firm_manifest; [apply Hok|done|by left|done].
Qed.
(** The artifacts of the manifest [c] are among [cids]. *)
Definition lists (db : AuditDb) (cids : list string) (c : string) : Prop :=
  ∀ m x, m ∈ ch_manifests (au_poi db) → mf_cid m = c → (mf_id m, x) ∈ ch_edges (au_poi db) → x ∈ cids.
Lemma poi_manifest_lists db pins lost cid entries cids sequence size hash db' :
  content_ok db pins lost → cid_to_string cid ∉ manifest_cids db →
  record_poi_artifact_manifest_pin db cid entries cids sequence size hash = Ok db' → lists db' cids (cid_to_string cid).
Proof.
  intros [Hok _] Hfm Hr. unfold record_poi_artifact_manifest_pin in Hr. apply bind_Ok in Hr as (sq & _ & Hr). apply bind_Ok in Hr as (sz & _ & Hr).
  apply bind_Ok in Hr as (u & _ & Hr). apply bind_Ok in Hr as (u' & _ & Hr). cbn in Hr. apply bind_Ok in Hr as (rows & _ & [= <-]).
  intros m c. cbn. intros [Hm| ->%list_elem_of_singleton]%elem_of_app Hc He.
  - exfalso. apply Hfm. rewrite <- Hc. unfold manifest_cids. rewrite elem_of_app. right. by apply list_elem_of_fmap_2.
  - cbn in He. apply elem_of_union in He as [He|He]; [pose proof (co_edge_ids _ _ _ (ao_poi _ _ _ Hok) _ He) as Hlt; cbn in Hlt; lia|].
    by apply elem_of_list_to_set, list_elem_of_fmap in He as (y & [= ->] & Hy).
Qed.

(** The artifacts of the kept manifest [c] are pinned. *)
Definition available (db : AuditDb) (pins : gset string) (c : string) : Prop :=
  ∀ m x, m ∈ ch_manifests (au_poi db) → is_kept m → mf_cid m = c → (mf_id m, x) ∈ ch_edges (au_poi db) → x ∈ pins.
Lemma indexed_activated_content db pins lost now cid sequence db' :
  content_ok db pins lost → record_indexed_manifest_ipns_publication db now cid sequence = Ok db' → content_ok db' pins lost.
Proof.
  intros [Hok [Hi Hp]] Hr. split; [eapply activated_ok; [exact Hok|by left]|].
  unfold record_indexed_manifest_ipns_publication in Hr. apply bind_Ok in Hr as (sq & _ & Hr). apply bind_Ok in Hr as (u & _ & Hr).
  repeat case_decide; try done. injection Hr as <-. split; [|done]. apply firm_tamer; [|done].
  eapply Forall2_impl; [apply update_tamer; [apply set_superseded_tamer|]; apply update_tamer; [apply set_published_tamer|apply tamer_refl]|].
  intros m m' Ht. split; [done|by left].
Qed.
Lemma poi_activated_content db pins lost now cid sequence db' :
  content_ok db pins lost → available db pins (cid_to_string cid) →
  record_poi_artifact_manifest_ipns_publication db now cid sequence = Ok db' → content_ok db' pins lost.
Proof.
  intros [Hok [Hi Hp]] Hav Hr. split; [eapply activated_ok; [exact Hok|by right]|].
  unfold record_poi_artifact_manifest_ipns_publication in Hr. apply bind_Ok in Hr as (sq & _ & Hr). apply bind_Ok in Hr as (u & _ & Hr).
  repeat case_decide; try done. injection Hr as <-. split; [done|]. apply firm_tamer; [|done].
  assert (Forall2 (λ m m', m ∈ ch_manifests (au_poi db) ∧ tamer m m' ∧ (announced m' → announced m ∨ mf_cid m = cid_to_string cid))
    (ch_manifests (au_poi db)) (ch_manifests (au_poi db))) as H0all.
  { apply Forall_Forall2_diag, Forall_forall. intros m Hm. split_and!; [done|done|by left]. }
  eapply Forall2_impl; [apply Forall2_update; [|apply Forall2_update; [|exact H0all]]|].
  - intros m m' (Hm & (Hid & Hc & Hu & Hs) & Ha) _. split_and!; [done| |done]. by unfold tamer.
  - intros m m' (Hm & (Hid & Hc & Hu & Hs) & Ha) [Hact _]. split_and!; [done|by unfold tamer|]. intros _. right. congruence.
  - cbn. intros m m' (Hm & Ht & Ha). split; [done|]. intros Hann Hk. destruct (Ha Hann) as [?|Hc]; [by left|right].
    intros x Hx. by eapply Hav.
Qed.

Lemma unreferenced_content db pins lost cid :
  publication_cid_is_referenced db cid = false → content_ok db pins lost → content_ok db (pins ∖ {[cid_to_string cid]}) lost.
Proof.
  intros Href [Hok [Hi Hp]]. split.
  { eapply audit_ok_mono; [| |apply (unreferenced_ok db (pins ∪ lost) lost cid Href Hok)]; set_solver. }
  pose proof (unreferenced_unprotected _ _ Href) as Hun. unfold publication_cid_is_referenced in Href. rewrite bool_decide_eq_false in Href.
  assert (∀ K (t : ChannelTables K), ¬ unpinned_manifest_none t (cid_to_string cid) →
    ∀ m, m ∈ ch_manifests t → is_kept m → mf_cid m ≠ cid_to_string cid) as Hms.
  { intros K t Hn m Hm [_ Hk] Hc. apply Hn, Exists_exists. eauto. }
  split; (apply firm_unpin; [|apply Hms; tauto|done]); intros He; apply Hun; unfold protected; tauto.
Qed.

(** A sweep that unpins an eligible CID, whether it can commit that or not. *)
Lemma eligible_firm db pins lost cutoff c :
  still_eligible db cutoff c → content_ok db pins lost → firm_db db (pins ∖ {[c]}).
Proof.
  intros Hel [Hok [Hi Hp]]. pose proof (λ m, eligible_stale db _ lost cutoff c m Hel Hok) as Hms.
  assert (∀ m, m ∈ ch_manifests (au_indexed db) ∨ m ∈ ch_manifests (au_poi db) → is_kept m → mf_cid m ≠ c) as Hne.
  { intros m Hm [Hk _] Hc. by apply (is_stale_superseded cutoff c m (Hms m Hm Hc)). }
  destruct Hel as (_ & _ & _ & Hed & _ & _ & Hped). split; apply firm_unpin; eauto.
Qed.
Lemma firm_mark {K} sure (t : ChannelTables K) pins swept_at cutoff c : firm sure t pins → firm sure (mark_table swept_at cutoff c t) pins.
Proof.
  intros Hf m Hm Hk. cbn in *. apply elem_of_update_where in Hm as (m0 & Hm0 & ->). case_decide; [by destruct Hk|by apply Hf].
Qed.
Lemma swept_content db pins lost swept_at cutoff c :
  still_eligible db cutoff c → content_ok db pins lost → content_ok (mark_unpinned db swept_at cutoff c) (pins ∖ {[c]}) lost.
Proof.
  intros Hel Hcon. destruct (eligible_firm db pins lost cutoff c Hel Hcon) as [Hi Hp]. destruct Hcon as [Hok _]. split.
  { eapply audit_ok_mono; [| |by apply swept_ok]; set_solver. }
  destruct Hel as (_ & Hact & Hfr & _). rewrite mark_unpinned_tables by done. split; by apply firm_mark.
Qed.
Lemma swept_in_doubt db pins lost cutoff c :
  still_eligible db cutoff c → content_ok db pins lost → content_ok db (pins ∖ {[c]}) ({[c]} ∪ lost).
Proof.
  intros Hel Hcon. split; [|by eapply eligible_firm]. destruct Hcon as [Hok _]. eapply audit_ok_mono; [| |exact Hok]; [|set_solver].
  intros x Hx. destruct (decide (x = c)); set_solver.
Qed.

Lemma abandoned_content db pins lost now cid sequence unavailable db' :
  content_ok db pins lost → (∀ u, unavailable = Some u → cid_to_string u ∈ lost) →
  abandon_pending_poi_v4_manifest_reconciliation db now cid sequence unavailable = Ok db' → content_ok db' pins lost.
Proof.
  intros [Hok [Hi Hp]] Hlost Hr. split; [by eapply abandoned_ok|].
  unfold abandon_pending_poi_v4_manifest_reconciliation in Hr. apply bind_Ok in Hr as (db1 & Hinv & Hr).
  assert (firm_db db1 pins) as [Hi1 Hp1].
  { apply invalidated_tables in Hinv as (m & Hi1 & Hp1). split; [by rewrite Hi1|]. rewrite Hp1. apply firm_tamer; [|done]. apply Forall2_update.
    - intros a b [(? & ? & ? & ?) Hs] _. split; [by unfold tamer|exact Hs].
    - apply Forall_Forall2_diag, Forall_true. intros a. split; [done|by left]. }
  apply bind_Ok in Hr as (sq & _ & [= <-]). by destruct unavailable.
Qed.
End audit.

(** ** The world *)
Section world.
Context `{CidCrate} `{ManifestCrate} `{PoiV4Crate}.
Context (text_leb : string → string → bool).
Context (pin_cid : bytes → Cid) (audit_error : AuditError → string) (service_name : string).
Implicit Types w : World.

(** [n] leases are held; every other one was settled, or dropped with its pin. *)
Definition holding (n : nat) w : Prop := content_ok (w_db w) (w_pins w) (w_indoubt w) ∧ w_active w = (n + length (w_dropped w))%nat.
Definition world_ok w : Prop := holding 0 w.

Lemma quiet_holding n w w' : quiet w w' → holding n w → holding n w'.
Proof. intros (Hd & Hp & _ & Ha & Hdr & _ & Hl) [Hok Hact]. split; [by rewrite Hd, Hp, Hl|by rewrite Ha, Hdr]. Qed.

Lemma content_ok_debts db pins lost m : content_ok db pins lost → content_ok (with_debts db m) pins lost.
Proof. by intros [[? ? ? ?] [? ?]]. Qed.

Lemma wp_settle n (Q : result string unit → World → Prop) w :
  holding (S n) w → (∀ w', holding n w' → w_pins w' = w_pins w → w_db w' = w_db w → w_now w' = w_now w → Q (Ok tt) w') →
  wp settle_pin_ownership Q w.
Proof. intros [Hok Hact] HQ. apply HQ; [|done..]. split; [done|]. cbn. rewrite Hact. done. Qed.

Lemma wp_settle_after_debt cid e w :
  holding 1 w → wp (settle_after_debt service_name cid e) (λ r w', r = Ok tt ∧ world_ok w') w.
Proof.
  intros Hh. unfold settle_after_debt. apply pub_bind, wp_try, wp_guarded. intros w' Hw. apply (quiet_holding _ _ _ Hw) in Hh.
  destruct Hh as [Hok Hact]. split.
  - split; [done|]. split; [done|]. cbn. rewrite length_app, Hact. cbn. lia.
  - apply (wp_settle 0); [|done]. split; [by apply content_ok_debts|done].
Qed.

Lemma wp_cleanup cid w :
  holding 1 w → wp (cleanup_uncommitted_pin_while_locked audit_error service_name cid) (λ r w', r = Ok tt ∧ world_ok w') w.
Proof.
  intros Hh. unfold cleanup_uncommitted_pin_while_locked. apply pub_bind, wp_try, wp_read. intros r w' Hw Href.
  apply (quiet_holding _ _ _ Hw) in Hh. destruct r as [[]|e].
  - by apply (wp_settle 0).
  - specialize (Href false eq_refl). injection Href as Href. apply pub_bind, wp_try, wp_guarded. intros w'' Hw'.
    apply (quiet_holding _ _ _ Hw') in Hh. split; [by apply wp_settle_after_debt|].
    apply (wp_settle 0); [|done]. destruct Hh as [Hok Hact]. split; [|done]. cbn. apply unreferenced_content; [|done].
    destruct Hw as (Hdb & _), Hw' as (Hdb' & _). by rewrite Hdb', Hdb.
  - by apply wp_settle_after_debt.
Qed.

Lemma wp_owned_pin bs w (Q : result string Cid → World → Prop) :
  holding 0 w → (∀ e w', holding 0 w' → w_db w' = w_db w → Q (Err e) w') →
  (∀ w', holding 1 w' → w_db w' = w_db w → w_now w' = w_now w → w_pins w' = {[cid_to_string (pin_cid bs)]} ∪ w_pins w → w_indoubt w' = w_indoubt w →
     Q (Ok (pin_cid bs)) w') → wp (owned_pin pin_cid bs) Q w.
Proof.
  intros Hh HErr HOk. unfold owned_pin, acquire_pin_ownership. apply pub_bind, pub_bind, wp_running. intros r w1 Hw1.
  pose proof (quiet_holding _ _ _ Hw1 Hh) as Hh1. destruct Hw1 as (Hdb1 & Hp1 & _ & _ & _ & Hn1 & Hl1).
  destruct r as [u|e]; [|by apply HErr]. apply pub_bind. unfold wp at 1, try_acquire_pin_ownership.
  destruct (w_accepting w1); [|by apply HErr]. cbn [fst snd]. apply pub_ret, pub_bind, wp_try, wp_guarded. intros w2 Hw2.
  assert (holding 1 w2) as Hh2.
  { eapply quiet_holding; [exact Hw2|]. destruct Hh1 as [? Hact]. split; [done|]. cbn. by rewrite Hact. }
  destruct Hw2 as (Hdb2 & Hp2 & _ & _ & _ & Hn2 & Hl2). cbn in Hdb2, Hp2, Hn2, Hl2. split.
  - apply pub_bind, (wp_settle 0); [done|]. intros w3 Hh3 Hp3 Hdb3 _. apply wp_fail, HErr; [done|congruence].
  - apply HOk; cbn; [|congruence|congruence|by rewrite Hp2, Hp1|congruence].
    destruct Hh2 as [Hok Hact]. split; [|done]. cbn. eapply content_ok_mono; [|exact Hok]. set_solver.
Qed.

Lemma wp_record_owned {A} cid (owned : bool) (f : AuditDb → Z → result string (A * AuditDb)) w :
  holding (if owned then 1 else 0) w →
  (∀ a db, f (w_db w) (w_now w) = Ok (a, db) → content_ok db (w_pins w) (w_indoubt w)) →
  wp (record_owned audit_error service_name cid owned f) (λ r w', world_ok w' ∧ (is_ok r → w_pins w' = w_pins w)) w.
Proof.
  intros Hh Hf. unfold record_owned.
  assert (∀ e w', holding (if owned then 1 else 0) w' →
    wp (_ ← (if owned then cleanup_uncommitted_pin_while_locked audit_error service_name cid else mret tt); fail e)
      (λ (r : result string A) w', world_ok w' ∧ (is_ok r → w_pins w' = w_pins w)) w') as Hlost.
  { intros e w' Hh'. apply pub_bind. destruct owned; [|by apply pub_ret, wp_fail].
    eapply pub_mono; [by apply wp_cleanup|]. intros r w'' [-> ?]. by apply wp_fail. }
  assert (∀ a db w', f (w_db w) (w_now w) = Ok (a, db) → quiet w w' →
    holding (if owned then 1 else 0) (set_db w' db) ∧ w_pins w' = w_pins w) as Hcommitted.
  { intros a db w' Hdb Hw. apply Hf in Hdb. pose proof (quiet_holding _ _ _ Hw Hh) as [_ Hact].
    destruct Hw as (_ & Hp & _ & _ & _ & _ & Hl). split; [|done]. split; [cbn; by rewrite Hp, Hl|done]. }
  apply pub_bind, wp_try, wp_transaction.
  - intros e w' Hw. apply (quiet_holding _ _ _ Hw) in Hh. by apply Hlost.
  - intros a db w' Hdb Hw. destruct (Hcommitted a db w' Hdb Hw) as [Hh' Hp]. split; [intros e; by apply Hlost|].
    apply pub_bind. destruct owned; [|by apply pub_ret, pub_ret].
    apply (wp_settle 0); [done|]. intros w'' Hw'' Hp'' _ _. apply pub_ret. split; [done|]. intros _. cbn in Hp''. congruence.
Qed.

Lemma wp_reuse_or_pin {A} lookup bs (f : Cid → AuditDb → Z → result string (A * AuditDb)) w :
  world_ok w →
  (∀ cid, lookup (w_db w) = Ok (Some cid) → cid_to_string cid ∉ manifest_cids (w_db w)) →
  cid_to_string (pin_cid bs) ∉ manifest_cids (w_db w) →
  (∀ cid pins lost now a db, content_ok (w_db w) pins lost → cid_to_string cid ∈ pins → cid_to_string cid ∉ manifest_cids (w_db w) →
     f cid (w_db w) now = Ok (a, db) → content_ok db pins lost) →
  wp (reuse_or_pin pin_cid audit_error service_name lookup bs f) (λ r w', world_ok w' ∧
     ∀ cid reused a, r = Ok (cid, reused, a) → cid_to_string cid ∈ w_pins w') w.
Proof.
  intros Hh Hlookup Hbs Hf. unfold reuse_or_pin. apply pub_bind, wp_read. intros r w1 Hw1 Hr.
  pose proof (quiet_holding _ _ _ Hw1 Hh) as Hh1. destruct r as [reusable|e]; [|done]. specialize (Hr _ eq_refl).
  assert (∀ w' (cid : Cid) (reused : bool), w_db w' = w_db w → holding (if negb reused then 1 else 0) w' → cid_to_string cid ∈ w_pins w' →
    cid_to_string cid ∉ manifest_cids (w_db w) →
    wp (a ← record_owned audit_error service_name cid (negb reused) (f cid); _ ← ensure_publication_running; mret (cid, reused, a))
      (λ r w', world_ok w' ∧ ∀ cid reused a, r = Ok (cid, reused, a) → cid_to_string cid ∈ w_pins w') w') as Hrec.
  { intros w' cid reused Hdb Hold Hin Hnm. apply pub_bind. eapply pub_mono; [apply wp_record_owned; [done|]|].
    - intros a db. rewrite Hdb. apply Hf; [|done..]. rewrite <- Hdb. apply Hold.
    - intros [a|e] w'' [Hok Hp]; [|done]. apply pub_bind, wp_running. intros r w3 Hw3.
      pose proof (quiet_holding _ _ _ Hw3 Hok). destruct r; [|done]. apply pub_ret. split; [done|].
      intros ? ? ? [= <- <- <-]. destruct Hw3 as (_ & -> & _). by rewrite Hp. }
  assert (∀ w', world_ok w' → w_db w' = w_db w →
    wp ('(cid, reused) ← (cid ← owned_pin pin_cid bs; mret (cid, false));
        a ← record_owned audit_error service_name cid (negb reused) (f cid); _ ← ensure_publication_running; mret (cid, reused, a))
      (λ r w', world_ok w' ∧ ∀ cid reused a, r = Ok (cid, reused, a) → cid_to_string cid ∈ w_pins w') w') as Hpin.
  { intros w' Hok Hdb. apply pub_bind, pub_bind, wp_owned_pin; [done|done|]. intros w'' Hh' Hdb' _ Hp _.
    apply pub_ret. apply Hrec; [congruence|done|rewrite Hp; set_solver|done]. }
  destruct Hw1 as (Hdb1 & Hp1 & _).
  destruct reusable as [cid|]; apply pub_bind; [|apply pub_ret; by apply Hpin].
  apply wp_contains. intros r w2 Hw2 Hb. pose proof (quiet_holding _ _ _ Hw2 Hh1) as Hh2. destruct Hw2 as (Hdb2 & Hp2 & _).
  destruct r as [[]|e]; [|apply Hpin; [done|congruence]|done]. specialize (Hb _ eq_refl). symmetry in Hb. apply bool_decide_eq_true in Hb.
  apply pub_bind, pub_ret. apply Hrec; [congruence|done|by rewrite Hp2|by apply Hlookup].
Qed.

(** ** Every locked section keeps the invariant *)

(** What a lookup answers is an artifact of the tables, so not a manifest. *)
Lemma parsed_artifact {K} (t : ChannelTables K) pins lost a cid :
  channel_ok t pins lost → a ∈ ch_artifacts t → parse_cid (ar_cid a) = Ok cid → cid_to_string cid = ar_cid a.
Proof.
  intros Hok Ha Hp. destruct (co_canonical _ _ _ Hok a Ha) as [cid' Hc].
  unfold parse_cid in Hp. rewrite Hc, cid_roundtrip in Hp. by injection Hp as <-.
Qed.
Lemma looked_up {K} (t : ChannelTables K) pins lost leb (P : ArtifactRow K → Prop) `{∀ a, Decision (P a)} (rows : list (ArtifactRow K)) cid :
  channel_ok t pins lost → rows = sort_by leb (filter P (ch_artifacts t)) →
  match head rows with Some a => cid ← parse_cid (ar_cid a); Ok (Some cid) | None => Ok None end = Ok (Some cid) →
  cid_to_string cid ∈ ar_cid <$> ch_artifacts t.
Proof.
  intros Hok -> Hr. destruct (head _) as [a|] eqn:Hh; [|done]. apply bind_Ok in Hr as (cid' & Hp & [= ->]).
  apply head_Some_elem_of in Hh. rewrite sort_by_perm, list_elem_of_filter in Hh. destruct Hh as [_ Ha].
  rewrite (parsed_artifact t pins lost a cid) by done. by apply list_elem_of_fmap_2.
Qed.

Lemma not_manifest db pins lost c : content_ok db pins lost → c ∈ artifact_cids db → c ∉ manifest_cids db.
Proof. intros [Hok _] Ha Hm. by apply (ao_disjoint _ _ _ Hok c). Qed.

Lemma wp_indexed_artifact kind dataset scope range size hash version bs w :
  world_ok w → cid_to_string (pin_cid bs) ∉ manifest_cids (w_db w) →
  wp (reuse_or_pin_indexed_artifact pin_cid audit_error service_name kind dataset scope range size hash version bs) (λ _, world_ok) w.
Proof.
  intros Hw Hbs. apply pub_bind, wp_running. intros r w1 Hw1. pose proof (quiet_holding _ _ _ Hw1 Hw) as Hh. destruct r as [u|e]; [|done].
  destruct Hw1 as (Hdb & _). apply pub_bind. eapply pub_mono; [apply wp_reuse_or_pin|]; [done|..].
  - intros cid Hl. destruct Hh as [Hok _]. eapply not_manifest; [done|]. unfold artifact_cids. rewrite elem_of_app. left.
    unfold live_indexed_artifact_cid in Hl. apply bind_Ok in Hl as (key & _ & Hl). apply bind_Ok in Hl as (sz & _ & Hl).
    eapply looked_up; [apply Hok|done|exact Hl].
  - by rewrite Hdb.
  - intros cid pins lost now a db Hok Hin Hnm Hr. apply bind_Ok in Hr as (db' & Hr%map_err_Ok & [= _ <-]). by eapply indexed_pin_content.
  - intros [[[cid reused] a]|e] w2 [? _]; done.
Qed.

Lemma wp_prepared {D} kind (prepared : PreparedPoiArtifact D) w :
  world_ok w → cid_to_string (pin_cid (pa_bytes prepared)) ∉ manifest_cids (w_db w) →
  wp (publish_prepared pin_cid audit_error service_name kind prepared) (λ _, world_ok) w.
Proof.
  intros Hh Hbs. apply pub_bind. unfold lift, wp at 1. cbn [fst snd]. destruct (ok_or _ _) as [size|e]; [|done].
  apply pub_bind. eapply pub_mono; [apply wp_reuse_or_pin|]; [done|..].
  - intros cid Hl. destruct Hh as [Hok _]. eapply not_manifest; [done|]. unfold artifact_cids. rewrite elem_of_app. right.
    unfold live_poi_artifact_cid in Hl. apply bind_Ok in Hl as (sc & _ & Hl). apply bind_Ok in Hl as (sz & _ & Hl).
    apply bind_Ok in Hl as ([rs re] & _ & Hl). eapply looked_up; [apply Hok|done|exact Hl].
  - done.
  - intros cid pins lost now a db Hok Hin Hnm Hr. apply bind_Ok in Hr as (descriptor & _ & Hr).
    apply bind_Ok in Hr as (json & _ & Hr). apply bind_Ok in Hr as (db' & Hr%map_err_Ok & [= _ <-]). by eapply poi_pin_content.
  - intros [[[cid reused] a]|e] w2 [? _]; done.
Qed.
Lemma wp_poi_artifact {D} kind (prepared : PreparedPoiArtifact D) w :
  world_ok w → cid_to_string (pin_cid (pa_bytes prepared)) ∉ manifest_cids (w_db w) →
  wp (publish_poi_artifact pin_cid audit_error service_name kind prepared) (λ _, world_ok) w.
Proof.
  intros Hw Hbs. apply pub_bind, wp_running. intros r w1 Hw1. pose proof (quiet_holding _ _ _ Hw1 Hw) as Hh. destruct r as [u|e]; [|done].
  destruct Hw1 as (Hdb & _). apply wp_prepared; [done|by rewrite Hdb].
Qed.

Lemma wp_ensure_available cids (Q : result string unit → World → Prop) w :
  (∀ r w', quiet w w' → (∀ u, r = Ok u → ∀ c, c ∈ cids → canonical c → c ∈ w_pins w) → Q r w') →
  wp (ensure_indexed_artifacts_available cids) Q w.
Proof.
  revert w. induction cids as [|c cids IH]; intros w HQ; cbn; [apply HQ; [done|]; by intros _ _ c ?%not_elem_of_nil|].
  apply pub_bind, wp_parse. intros [cid|e] Hc; [|by apply HQ]. specialize (Hc _ eq_refl).
  apply pub_bind, wp_contains. intros [[]|e] w' Hw Hb; [|by apply HQ..]. specialize (Hb _ eq_refl). symmetry in Hb. apply bool_decide_eq_true in Hb.
  apply IH. intros r w'' Hw' Hr. apply HQ; [by etrans|]. intros u Hu x [-> |Hx]%elem_of_cons Hcan.
  - destruct Hcan as [cid' ->]. rewrite cid_roundtrip in Hc. by injection Hc as ->.
  - destruct Hw as (_ & <- & _). by apply (Hr u Hu).
Qed.

(** A transaction whose result satisfies the invariant. *)
Lemma wp_committed {A} (f : AuditDb → Z → result string (A * AuditDb)) w :
  world_ok w → (∀ a db, f (w_db w) (w_now w) = Ok (a, db) → content_ok db (w_pins w) (w_indoubt w)) →
  wp (db_transaction f) (λ _, world_ok) w.
Proof.
  intros Hw Hf. apply wp_transaction; [intros e w' Hq; by eapply quiet_holding|].
  intros a db w' Hdb%Hf Hq. pose proof (quiet_holding _ _ _ Hq Hw) as [_ Hact]. destruct Hq as (_ & Hp & _ & _ & _ & _ & Hl).
  enough (world_ok (set_db w' db)) by done. split; [cbn; by rewrite Hp, Hl|done].
Qed.

Lemma wp_activate cid sequence w :
  world_ok w → wp (activate_indexed_manifest audit_error cid sequence) (λ _, world_ok) w.
Proof.
  intros Hw. apply wp_committed; [done|]. intros a db Hr. apply bind_Ok in Hr as (db' & Hr%map_err_Ok & [= _ <-]).
  eapply indexed_activated_content; [apply Hw|done].
Qed.
Lemma wp_record_v4_ipns c sequence w :
  world_ok w → (∀ cid, cid_try_from c = Some cid → available (w_db w) (w_pins w) (cid_to_string cid)) → wp (record_v4_ipns audit_error c sequence) (λ _, world_ok) w.
Proof.
  intros Hw Hav. apply pub_bind, wp_parse. intros [cid|e] Hc; [|done]. specialize (Hc _ eq_refl). apply wp_committed; [done|].
  intros a db Hr. apply bind_Ok in Hr as (db' & Hr%map_err_Ok & [= _ <-]). eapply poi_activated_content; [apply Hw|by apply Hav|exact Hr].
Qed.

(** [c] is not in the tables yet. *)
Definition unrecorded w (c : string) : Prop := c ∉ manifest_cids (w_db w) ∧ c ∉ artifact_cids (w_db w).
#[export] Instance unrecorded_dec w c : Decision (unrecorded w c) := ltac:(unfold unrecorded; apply _).

Lemma wp_pin_indexed_manifest cids sequence json version w :
  world_ok w → unrecorded w (cid_to_string (pin_cid (json_bytes json))) →
  wp (pin_indexed_manifest pin_cid audit_error service_name cids sequence json version) (λ _, world_ok) w.
Proof.
  intros Hw [Hm Ha]. apply pub_bind, wp_ensure_available. intros r w1 Hq Hav. pose proof (quiet_holding _ _ _ Hq Hw) as Hw1.
  destruct Hq as (Hdb1 & Hp1 & _). destruct r as [u|e]; [|done]. specialize (Hav _ eq_refl). apply pub_bind, wp_owned_pin; [done|done|].
  intros w2 Hh2 Hdb2 _ Hp2 Hl2. apply pub_bind. eapply pub_mono; [apply (wp_record_owned _ true); [done|]|].
  - intros a db Hr. apply bind_Ok in Hr as (db' & Hr%map_err_Ok & [= _ <-]).
    eapply indexed_manifest_content; [apply Hh2| | | | |exact Hr]; rewrite ?Hdb2, ?Hdb1, ?Hp2, ?Hp1; [set_solver| |done..].
    intros c Hc Hcan. specialize (Hav c Hc Hcan). set_solver.
  - intros [x|e] w3 [Hok _]; [by apply pub_ret|done].
Qed.

Lemma wp_pin_poi_manifest bs entries cids sequence w :
  world_ok w → unrecorded w (cid_to_string (pin_cid bs)) →
  wp (pin_poi_manifest pin_cid audit_error service_name bs entries cids sequence) (λ _, world_ok) w.
Proof.
  intros Hw [Hm Ha]. apply pub_bind, wp_owned_pin; [done|done|]. intros w1 Hh1 Hdb1 _ Hp1 _.
  apply pub_bind, wp_try, wp_running. intros r w2 Hq2. pose proof (quiet_holding _ _ _ Hq2 Hh1) as Hh2. destruct Hq2 as (Hdb2 & Hp2 & _).
  destruct r as [u|e].
  - apply pub_bind. eapply pub_mono; [apply (wp_record_owned _ true); [done|]|].
    + intros a db Hr. apply bind_Ok in Hr as (size & _ & Hr). apply bind_Ok in Hr as (db' & Hr%map_err_Ok & [= _ <-]).
      eapply poi_manifest_content; [apply Hh2| | | |exact Hr]; rewrite ?Hdb2, ?Hdb1, ?Hp2, ?Hp1; [set_solver|done..].
    + intros [x|e] w3 [Hok _]; [|done]. apply pub_bind, wp_running. intros r w4 Hq4.
      apply (quiet_holding _ _ _ Hq4) in Hok. by destruct r.
  - apply pub_bind. eapply pub_mono; [by apply wp_cleanup|]. intros r w3 [-> ?]. by apply wp_fail.
Qed.

Lemma wp_first_unavailable cids (Q : result string (option string) → World → Prop) w :
  (∀ r w', quiet w w' → (∀ c, r = Ok (Some c) → c ∈ cids ∧ (canonical c → c ∉ w_pins w)) →
     (r = Ok None → ∀ c, c ∈ cids → canonical c → c ∈ w_pins w) → Q r w') →
  wp (first_unavailable cids) Q w.
Proof.
  revert w. induction cids as [|c cids IH]; intros w HQ; cbn; [apply HQ; [done..|]; by intros _ c ?%not_elem_of_nil|].
  apply pub_bind, pub_bind, wp_parse. intros [cid|e] Hc; [|by apply HQ]. specialize (Hc _ eq_refl).
  assert (canonical c → cid_to_string cid = c) as Htext by (intros [cid' ->]; rewrite cid_roundtrip in Hc; by injection Hc as ->).
  apply wp_contains. intros [[]|e] w' Hw Hb; [| |by apply HQ].
  - specialize (Hb _ eq_refl). symmetry in Hb. apply bool_decide_eq_true in Hb. apply IH. destruct Hw as (Hd & Hp & Hw).
    intros r w'' Hw' Hr Hn. apply HQ; [etrans; [|exact Hw']; done| |].
    + intros x Hx. destruct (Hr x Hx) as [Hin Hx']. rewrite Hp in Hx'. split; [by right|done].
    + intros HNone x [-> |Hx]%elem_of_cons Hcan; [by rewrite <- (Htext Hcan)|]. rewrite <- Hp. by apply Hn.
  - apply HQ; [done| |done]. intros x [= <-]. split; [by left|]. intros Hcan. rewrite <- (Htext Hcan).
    specialize (Hb _ eq_refl). symmetry in Hb. by apply bool_decide_eq_false in Hb.
Qed.

(** A kept POI manifest whose artifacts were found at the provider. *)
Lemma listed_available w cids cid :
  world_ok w → lists (w_db w) cids (cid_to_string cid) →
  (∀ x, x ∈ cids → canonical x → x ∈ w_pins w) → available (w_db w) (w_pins w) (cid_to_string cid).
Proof.
  intros [[Hok _] _] Hl Hp m x Hm Hk Hc He. apply Hp; [by eapply Hl|].
  destruct (co_edges _ _ _ (ao_poi _ _ _ Hok) m x Hm Hk He) as [Hlive|[_ ?]]; [|done]. eapply live_canonical; [exact (ao_poi _ _ _ Hok)|done].
Qed.
Lemma quiet_available w w' c : quiet w w' → available (w_db w) (w_pins w) c → available (w_db w') (w_pins w') c.
Proof. by intros (-> & -> & _). Qed.
Lemma wp_publish_poi_ipns cids c sequence w :
  world_ok w → (∀ cid, cid_try_from c = Some cid → lists (w_db w) cids (cid_to_string cid)) →
  wp (publish_poi_ipns audit_error cids c sequence) (λ _, world_ok) w.
Proof.
  intros Hw Hl. apply pub_bind, wp_running. intros r w1 Hq1. apply (quiet_holding _ _ _ Hq1) in Hw. destruct r as [u|e]; [|done].
  apply pub_bind, wp_first_unavailable. intros r w2 Hq2 _ Hn. destruct r as [[x|]|e]; [by eapply quiet_holding| |by eapply quiet_holding].
  assert (∀ cid, cid_try_from c = Some cid → available (w_db w1) (w_pins w1) (cid_to_string cid)) as Hav.
  { intros cid Hc. eapply listed_available; [done| |].
    - destruct Hq1 as (-> & _). by apply Hl.
    - intros x Hx. apply (Hn eq_refl). rewrite elem_of_app. by left. }
  apply (quiet_holding _ _ _ Hq2) in Hw.
  apply pub_bind, wp_ipns. intros r w3 Hq3. apply (quiet_holding _ _ _ Hq3) in Hw. destruct r as [u'|e]; [|done].
  apply pub_bind, wp_running. intros r w4 Hq4. apply (quiet_holding _ _ _ Hq4) in Hw. destruct r as [u''|e]; [|done].
  apply wp_record_v4_ipns; [done|]. intros cid Hc. do 3 (eapply quiet_available; [done|]). by apply Hav.
Qed.

(** What a kept manifest needs is pinned or in doubt. *)
Lemma kept_pinned {K} (t : ChannelTables K) pins lost m :
  channel_ok t (pins ∪ lost) lost → m ∈ ch_manifests t → is_kept m → ∀ c, (mf_id m, c) ∈ ch_edges t → c ∈ pins ∪ lost ∧ canonical c.
Proof using.
  intros Hok Hm Hk c He. destruct (co_edges _ _ _ Hok m c Hm Hk He) as [(a & Ha & <- & Hl)%Exists_exists|[? ?]]; [|split; [by apply elem_of_union_r|done]].
  split; by eauto using co_artifacts, co_canonical.
Qed.
Lemma elem_of_edges_of {K} (t : ChannelTables K) id c : c ∈ edges_of text_leb t id ↔ (id, c) ∈ ch_edges t.
Proof.
  unfold edges_of, order_by_text. rewrite sort_by_perm, list_elem_of_fmap. split.
  - intros ([i x] & -> & Hf). rewrite list_elem_of_filter, elem_of_elements in Hf. by destruct Hf as [<- ?].
  - intros He. exists (id, c). by rewrite list_elem_of_filter, elem_of_elements.
Qed.

(** The pending POI manifest. *)
Lemma pending_row db p :
  pending_poi_artifact_manifest_publication text_leb db = Ok (Some p) →
  ∃ m, m ∈ ch_manifests (au_poi db) ∧ is_pending m ∧ pm_cid p = mf_cid m ∧ pm_artifact_cids p = edges_of text_leb (au_poi db) (mf_id m).
Proof.
  intros Hp. unfold pending_poi_artifact_manifest_publication, pending_manifest_publication in Hp.
  destruct (sort_by newest_leb _) as [|m rest] eqn:Hs; [done|]. destruct rest as [|]; [|done].
  apply bind_Ok in Hp as (sq & _ & [= <-]). exists m.
  assert (m ∈ filter is_pending (ch_manifests (au_poi db))) as Hm by (rewrite <- (sort_by_perm newest_leb), Hs; by left).
  by apply list_elem_of_filter in Hm as [? ?].
Qed.
(** [m] is pending and one of its artifacts is in doubt and gone. *)
Definition gone_in_doubt w : Prop :=
  ∃ m c, m ∈ ch_manifests (au_poi (w_db w)) ∧ is_pending m ∧ (mf_id m, c) ∈ ch_edges (au_poi (w_db w)) ∧ c ∈ w_indoubt w ∧ c ∉ w_pins w.
Lemma pending_kept m : is_pending m → is_kept m.
Proof. by intros (_ & ? & ? & _). Qed.

(** A pending POI manifest is abandoned only for an artifact in doubt. *)
Lemma wp_reconcile_poi w :
  world_ok w → wp (reconcile_pending_poi_publications text_leb audit_error) (λ r w', world_ok w' ∧ (r = Ok Abandoned → gone_in_doubt w)) w.
Proof.
  intros Hw. apply pub_bind, wp_running. intros r w1 Hq1. pose proof (quiet_holding _ _ _ Hq1 Hw) as Hw1. destruct r as [u|e]; [|done].
  apply pub_bind, wp_read. intros r w2 Hq2 Hr. pose proof (quiet_holding _ _ _ Hq2 Hw1) as Hw2. destruct r as [[p|]|e]; [|done..].
  specialize (Hr _ eq_refl). assert (quiet w w2) as Hq by by etrans. rewrite (proj1 Hq1) in Hr.
  destruct (pending_row _ _ Hr) as (m & Hm & Hpend & Hcid & Hcids). pose proof (pending_kept m Hpend) as Hk.
  pose proof Hw as [[Hok [_ Hfirm]] _]. destruct (Hfirm m Hm Hk) as [Hpin _].
  pose proof (co_canonical_manifest _ _ _ (ao_poi _ _ _ Hok) m Hm) as Hcan.
  pose proof (kept_pinned _ _ _ m (ao_poi _ _ _ Hok) Hm Hk) as Hedges.
  assert (∀ x, x ∈ pm_artifact_cids p → x ∈ w_pins w ∪ w_indoubt w ∧ canonical x) as Hpins
    by (intros x; rewrite Hcids; intros Hx%elem_of_edges_of; by apply Hedges).
  destruct Hq as (Hd & Hp & _ & _ & _ & _ & Hl).
  apply pub_bind, wp_first_unavailable. intros r w3 Hq3 Hc Hn. pose proof (quiet_holding _ _ _ Hq3 Hw2) as Hw3. rewrite Hp in Hc, Hn.
  destruct r as [[x|]|e]; [|specialize (Hn eq_refl)|done].
  { destruct (Hc _ eq_refl) as [Hin Hx]. destruct (Hpins x Hin) as [Hpl Hcx]. specialize (Hx Hcx).
    assert (x ∈ w_indoubt w) as Hdoubt by set_solver. apply pub_bind, pub_ret, pub_bind.
    apply wp_parse. intros [u'|e] Hu; [|done]. specialize (Hu _ eq_refl). apply pub_bind, wp_parse. intros [cid|e] _; [|done].
    apply pub_bind. eapply pub_mono; [apply wp_committed; [done|]|].
    - intros a db Ha. apply bind_Ok in Ha as (db' & Ha%map_err_Ok & [= _ <-]). eapply abandoned_content; [apply Hw3| |exact Ha].
      intros y [= <-]. destruct Hcx as [cid' ->]. cbn in Hu. rewrite cid_roundtrip in Hu. injection Hu as <-.
      destruct Hq3 as (_ & _ & _ & _ & _ & _ & ->). by rewrite Hl.
    - intros [a|e] w4 Hw4; [|done]. split; [done|]. intros _. exists m, x. split_and!; try done.
      rewrite Hcids in Hin. by apply elem_of_edges_of in Hin. }
  apply pub_bind, wp_first_unavailable. intros r w4 Hq4 Hc' Hn'. pose proof (quiet_holding _ _ _ Hq4 Hw3) as Hw4.
  destruct r as [[x|]|e]; [| |done].
  { destruct (Hc' _ eq_refl) as [->%list_elem_of_singleton Hx]. exfalso. rewrite Hcid in Hx. destruct (Hx Hcan).
    destruct Hq3 as (_ & -> & _). by rewrite Hp. }
  assert (∀ cid, cid_try_from (pm_cid p) = Some cid → available (w_db w4) (w_pins w4) (cid_to_string cid)) as Hav.
  { intros cid Ht. do 2 (eapply quiet_available; [done|]). unfold available. rewrite Hd, Hp. apply (listed_available w (pm_artifact_cids p)); [exact Hw| |done].
    intros m' x Hm' Hc'' He. rewrite Hcids, elem_of_edges_of. replace m with m'; [done|].
    eapply (NoDup_fmap_inj mf_cid); [|exact Hm'|exact Hm|].
    - pose proof (ao_nodup _ _ _ Hok) as Hnd. unfold manifest_cids in Hnd. by apply NoDup_app in Hnd as (_ & _ & ?).
    - rewrite Hc'', <- Hcid. rewrite <- Hcid in Hcan. destruct Hcan as [cid' Hcid']. rewrite Hcid', cid_roundtrip in Ht. injection Ht as ->. done. }
  apply pub_bind, wp_ipns. intros r w5 Hq5. pose proof (quiet_holding _ _ _ Hq5 Hw4) as Hw5. destruct r as [u'|e]; [|done].
  apply pub_bind, wp_running. intros r w6 Hq6. pose proof (quiet_holding _ _ _ Hq6 Hw5) as Hw6. destruct r as [u''|e]; [|done].
  apply pub_bind. eapply pub_mono; [apply wp_record_v4_ipns; [done|]|by intros [x|e] w7 Hw7].
  intros cid Hc''. do 2 (eapply quiet_available; [done|]). by apply Hav.
Qed.

Lemma wp_repin pending w :
  world_ok w → wp (repin_pending_manifest pin_cid audit_error service_name pending) (λ _, world_ok) w.
Proof.
  intros Hw. apply pub_bind, wp_ensure_available. intros r w1 Hq1 _. apply (quiet_holding _ _ _ Hq1) in Hw. destruct r as [u|e]; [|done].
  apply pub_bind, wp_parse. intros [cid|e] _; [|done]. apply pub_bind, wp_owned_pin; [done|done|]. intros w2 Hh2 _ _ _ _. case_decide.
  - apply pub_bind. eapply pub_mono; [by apply wp_cleanup|]. intros r w3 [-> ?]. by apply wp_fail.
  - by apply pub_bind, (wp_settle 0).
Qed.

(** IPNS, then the activation. *)
Lemma wp_publish_and_activate {A} cid c sequence (a : A) w :
  world_ok w →
  wp (_ ← ensure_publication_running; _ ← ipns_publish c sequence; _ ← ensure_publication_running;
      _ ← activate_indexed_manifest audit_error cid sequence; mret a) (λ _, world_ok) w.
Proof.
  intros Hw. apply pub_bind, wp_running. intros r w2 Hq2. apply (quiet_holding _ _ _ Hq2) in Hw. destruct r as [u|e]; [|done].
  apply pub_bind, wp_ipns. intros r w3 Hq3. apply (quiet_holding _ _ _ Hq3) in Hw. destruct r as [u'|e]; [|done].
  apply pub_bind, wp_running. intros r w4 Hq4. apply (quiet_holding _ _ _ Hq4) in Hw. destruct r as [u''|e]; [|done].
  apply pub_bind. eapply pub_mono; [by apply wp_activate|]. by intros [x|e] w5 Hw5.
Qed.

Lemma wp_publish_indexed_manifest cids sequence json version w :
  world_ok w → unrecorded w (cid_to_string (pin_cid (json_bytes json))) →
  wp (publish_indexed_manifest pin_cid audit_error service_name cids sequence json version) (λ _, world_ok) w.
Proof.
  intros Hw Hun. apply pub_bind. eapply pub_mono; [by apply wp_pin_indexed_manifest|]. intros [cid|e] w1 Hw1; [|done].
  by apply wp_publish_and_activate.
Qed.

Lemma wp_reconcile_indexed trusted validate w :
  (∀ m w, quiet w (validate m w).2) → world_ok w →
  wp (reconcile_pending_manifest text_leb pin_cid audit_error service_name trusted validate) (λ _, world_ok) w.
Proof.
  intros Hv Hw. apply pub_bind, wp_running. intros r w1 Hq1. apply (quiet_holding _ _ _ Hq1) in Hw. destruct r as [u|e]; [|done].
  apply pub_bind, wp_read. intros r w2 Hq2 _. apply (quiet_holding _ _ _ Hq2) in Hw. destruct r as [[p|]|e]; [|done..].
  apply pub_bind. pose proof (Hv (pi_manifest p) w2) as Hq3. unfold wp at 1. destruct (validate (pi_manifest p) w2) as [r w3].
  cbn [fst snd] in *. apply (quiet_holding _ _ _ Hq3) in Hw. destruct r as [u'|e]; [|done].
  apply pub_bind. eapply pub_mono; [by apply wp_repin|]. intros [cid|e] w4 Hw4; [|done]. by apply wp_publish_and_activate.
Qed.

Lemma parsed_text c cid : parse_cid c = Ok cid → canonical c → cid_to_string cid = c.
Proof. unfold parse_cid. intros Hp [cid' ->]. rewrite cid_roundtrip in Hp. by injection Hp as ->. Qed.
Lemma after_sweep_same lost applied w r :
  sw_db r.2 = w_db w → sw_unpinned r.2 = [] → world_ok w → world_ok (after_sweep audit_error lost applied w r).2.
Proof.
  unfold after_sweep. intros Hdb Hu [Hok Hact]. split; [|done]. cbn. rewrite Hdb, Hu. cbn. rewrite difference_empty_L.
  by destruct lost, applied.
Qed.

Lemma eligible_canonical db pins lost cutoff c : audit_ok db pins lost → still_eligible db cutoff c → canonical c.
Proof.
  intros [Hi Hp _ _] Hc%eligible_listed. unfold all_cids in Hc. rewrite !elem_of_app, !list_elem_of_fmap in Hc.
  destruct Hc as [(m & -> & Hm)|[(a & -> & Ha)|[(m & -> & Hm)|(a & -> & Ha)]]];
    [exact (co_canonical_manifest _ _ _ Hi m Hm)|exact (co_canonical _ _ _ Hi a Ha)|exact (co_canonical_manifest _ _ _ Hp m Hm)|
     exact (co_canonical _ _ _ Hp a Ha)].
Qed.

(** The calls of a locked section of the sweep. *)
Lemma wp_sweep_faults {A} (k : bool → bool → bool → Pub A) (Q : result string A → World → Prop) w :
  world_ok w → (∀ e w', world_ok w' → Q (Err e) w') → (∀ failed lost applied w', world_ok w' → wp (k failed lost applied) Q w') →
  wp (_ ← guarded "database operation failed" (mret tt); failed ← fault; lost ← fault; applied ← fault; k failed lost applied) Q w.
Proof.
  intros Hw He Hk. apply pub_bind, wp_guarded. intros w1 Hq1. apply (quiet_holding _ _ _ Hq1) in Hw. split; [by apply He|].
  apply pub_ret, pub_bind, wp_fault. intros failed w2 Hq2. apply (quiet_holding _ _ _ Hq2) in Hw.
  apply pub_bind, wp_fault. intros lost w3 Hq3. apply (quiet_holding _ _ _ Hq3) in Hw.
  apply pub_bind, wp_fault. intros applied w4 Hq4. apply (quiet_holding _ _ _ Hq4) in Hw. by apply Hk.
Qed.

Lemma wp_locked_sweep cutoff swept_at c w : world_ok w → wp (locked_sweep audit_error cutoff swept_at c) (λ _, world_ok) w.
Proof.
  intros Hw0. apply wp_sweep_faults; [done|done|]. clear Hw0. intros failed lost applied w' Hw.
  set (r := sweep_cid (unpin_answer failed) cutoff swept_at (mkSweepState (w_db w') [] [] []) c).
  assert (sw_db r.2 = w_db w' → sw_unpinned r.2 = [] →
    world_ok (if lost && negb applied then set_indoubt (after_sweep audit_error lost applied w' r).2
      (list_to_set (cid_to_string <$> sw_unpinned r.2) ∪ w_indoubt (after_sweep audit_error lost applied w' r).2)
      else (after_sweep audit_error lost applied w' r).2)) as Hsame.
  { intros Hdb Hu. pose proof (after_sweep_same lost applied w' r Hdb Hu Hw) as [Hok Hact]. rewrite Hu. cbn [fmap list_fmap list_to_set].
    destruct (lost && negb applied); [|done]. split; [|done]. cbn. by rewrite union_empty_l_L. }
  unfold wp, act. fold r. cbn [after_sweep fst snd] in Hsame |- *. unfold r, sweep_cid in *. cbn [sw_db] in *.
  destruct (parse_cid c) as [cid|e] eqn:Hp; [|by apply Hsame]. case_decide as He; [|by apply Hsame].
  unfold unpin_answer in *. destruct failed; [by apply Hsame|]. clear Hsame r. cbn [snd sw_db sw_unpinned app fmap list_fmap list_to_set].
  destruct Hw as [Hok Hact]. rewrite (parsed_text c cid Hp) by (eapply eligible_canonical; [apply Hok|done]).
  destruct lost, applied; (split; [|done]); cbn; rewrite ?union_empty_r_L; [by apply swept_content|by eapply swept_in_doubt|by apply swept_content..].
Qed.

Lemma wp_locked_retry c w : world_ok w → wp (locked_retry audit_error c) (λ _, world_ok) w.
Proof.
  intros Hw0. apply wp_sweep_faults; [done|done|]. clear Hw0. intros failed lost applied w' Hw. unfold wp, act, retry_debt.
  destruct (pin_cleanup_debt (w_db w') !! c) as [d|] eqn:Hd; [|done]. cbn [sw_db].
  destruct (parse_cid c) as [cid|e]; [|by apply after_sweep_same].
  destruct (publication_cid_is_referenced (w_db w') cid) eqn:Href.
  - destruct Hw as [Hok Hact]. split; [|done]. cbn. rewrite difference_empty_L. destruct (lost && negb applied); [done|by apply content_ok_debts].
  - unfold unpin_answer. destruct failed.
    + destruct (checked_add _ _ _); [|by apply after_sweep_same]. destruct Hw as [Hok Hact].
      split; [|done]. cbn. rewrite difference_empty_L. destruct (lost && negb applied); [done|by apply content_ok_debts].
    + destruct Hw as [Hok Hact]. split; [|done]. cbn. rewrite union_empty_r_L. pose proof (unreferenced_content _ _ _ _ Href Hok).
      destruct (lost && negb applied); [done|by apply content_ok_debts].
Qed.

(** ** Histories *)

(** A locked section of a publisher or of the sweep, the activations and
    publications that run without the lock, a shutdown, or the world changing
    outside: time, the calls that fail, IPNS and pins of others. A publication
    is a step as a whole and also in its locked and unlocked parts, which other
    steps may separate; reconciling the POI channel is one step, since nothing
    else writes that channel meanwhile. A POI manifest is announced with the list
    of artifacts it was recorded with, and is recorded as announced after these
    were found at the provider; they stay there, since no step unpins what a kept
    manifest references. Manifests carry their sequence, so their
    CID is new; the bytes of an artifact are not those of a manifest. *)
Inductive lifecycle_step : World → World → Prop :=
  | step_indexed_artifact kind dataset scope range size hash version bs w :
      cid_to_string (pin_cid bs) ∉ manifest_cids (w_db w) →
      lifecycle_step w
        (reuse_or_pin_indexed_artifact pin_cid audit_error service_name kind dataset scope range size hash version bs w).2
  | step_poi_artifact {D} kind (prepared : PreparedPoiArtifact D) w :
      cid_to_string (pin_cid (pa_bytes prepared)) ∉ manifest_cids (w_db w) →
      lifecycle_step w (publish_poi_artifact pin_cid audit_error service_name kind prepared w).2
  | step_indexed_manifest cids sequence json version w :
      unrecorded w (cid_to_string (pin_cid (json_bytes json))) →
      lifecycle_step w (publish_indexed_manifest pin_cid audit_error service_name cids sequence json version w).2
  | step_pin_indexed_manifest cids sequence json version w :
      unrecorded w (cid_to_string (pin_cid (json_bytes json))) →
      lifecycle_step w (pin_indexed_manifest pin_cid audit_error service_name cids sequence json version w).2
  | step_repin pending w : lifecycle_step w (repin_pending_manifest pin_cid audit_error service_name pending w).2
  | step_activate_indexed cid sequence w : lifecycle_step w (activate_indexed_manifest audit_error cid sequence w).2
  | step_activate_poi c sequence w :
      (∀ cid, cid_try_from c = Some cid → available (w_db w) (w_pins w) (cid_to_string cid)) → lifecycle_step w (record_v4_ipns audit_error c sequence w).2
  | step_poi_manifest bs entries cids sequence w :
      unrecorded w (cid_to_string (pin_cid bs)) →
      lifecycle_step w (pin_poi_manifest pin_cid audit_error service_name bs entries cids sequence w).2
  | step_poi_ipns cids c sequence w :
      (∀ cid, cid_try_from c = Some cid → lists (w_db w) cids (cid_to_string cid)) → lifecycle_step w (publish_poi_ipns audit_error cids c sequence w).2
  | step_reconcile_indexed trusted validate w :
      (∀ m w, quiet w (validate m w).2) →
      lifecycle_step w (reconcile_pending_manifest text_leb pin_cid audit_error service_name trusted validate w).2
  | step_reconcile_poi w : lifecycle_step w (reconcile_pending_poi_publications text_leb audit_error w).2
  | step_sweep cutoff swept_at c w : lifecycle_step w (locked_sweep audit_error cutoff swept_at c w).2
  | step_retry c w : lifecycle_step w (locked_retry audit_error c w).2
  | step_shutdown w : lifecycle_step w (stop_new_pin_ownership w).2
  | step_environment w others ipns faults now :
      lifecycle_step w (mkWorld (w_db w) (others ∪ w_pins w) (w_accepting w) (w_active w) (w_dropped w) (w_indoubt w) ipns faults now).

Lemma lifecycle_step_ok w w' : lifecycle_step w w' → world_ok w → world_ok w'.
Proof.
  intros Hs Hw. destruct Hs.
  - by apply (wp_indexed_artifact kind dataset scope range size hash version bs).
  - by apply (wp_poi_artifact kind prepared).
  - by apply (wp_publish_indexed_manifest cids sequence json version).
  - by apply (wp_pin_indexed_manifest cids sequence json version).
  - by apply (wp_repin pending).
  - by apply (wp_activate cid sequence).
  - by apply (wp_record_v4_ipns c sequence).
  - by apply (wp_pin_poi_manifest bs entries cids sequence).
  - by apply (wp_publish_poi_ipns cids c sequence).
  - by apply (wp_reconcile_indexed trusted validate).
  - by apply (wp_reconcile_poi w).
  - by apply (wp_locked_sweep cutoff swept_at c).
  - by apply (wp_locked_retry c).
  - done.
  - destruct Hw as [Hok Hact]. split; [|done]. cbn. eapply content_ok_mono; [|done]. set_solver.
Qed.

Definition empty_tables {K} : ChannelTables K := mkTables [] [] 0 ∅.
Definition initial_world (pins : gset string) (faults : list bool) (now : Z) : World :=
  mkWorld (mkAudit empty_tables empty_tables [] ∅ ∅) pins true 0 [] ∅ [] faults now.
Lemma initial_ok pins faults now : world_ok (initial_world pins faults now).
Proof.
  assert (∀ K, channel_ok (@empty_tables K) (pins ∪ ∅) ∅) as He by (intros K; split; cbn; set_solver).
  split; [|done]. split; [split; [apply He|apply He|apply NoDup_nil_2|]; cbn; set_solver|].
  split; by intros m Hm%not_elem_of_nil.
Qed.

Definition served {K} (t : ChannelTables K) (pins : gset string) : Prop :=
  ∀ m, m ∈ ch_manifests t → is_kept m → mf_cid m ∈ pins ∧ ∀ c, (mf_id m, c) ∈ ch_edges t → c ∈ pins.
(** The manifests of the POI channel that were announced. *)
Definition served_announced (t : ChannelTables PoiKey) (pins : gset string) : Prop :=
  ∀ m, m ∈ ch_manifests t → is_kept m → announced m → mf_cid m ∈ pins ∧ ∀ c, (mf_id m, c) ∈ ch_edges t → c ∈ pins.
Lemma content_served db pins lost : content_ok db pins lost →
  served (au_indexed db) pins ∧ served_announced (au_poi db) pins ∧ served (au_poi db) (pins ∪ lost).
Proof using.
  intros [Hok [Hi Hp]]. split_and!.
  - intros m Hm Hk. destruct (Hi m Hm Hk) as [? Hc]. split; [done|]. intros c. by apply Hc.
  - intros m Hm Hk Ha. destruct (Hp m Hm Hk) as [? Hc]. split; [done|]. intros c. by apply Hc.
  - intros m Hm Hk. destruct (Hp m Hm Hk) as [? _]. split; [by apply elem_of_union_l|]. intros c He. by eapply kept_pinned, He; [apply Hok| |].
Qed.

(** C8. From empty tables, whatever the publishers, the retention sweep and the
    shutdown do in which order, and whichever external calls fail on the way
    (pins, unpins, reads, commits that may or may not have taken effect, and the
    commit of a sweep after its unpin), with a provider that loses no pins by
    itself: each chain-indexed manifest that is not superseded is pinned, together
    with every artifact it references, and so is each announced POI manifest. A POI
    manifest that is not announced yet misses at most artifacts in doubt, those a
    sweep unpinned without being able to commit that, and only for one of them,
    found missing, reconciling abandons a pending POI manifest. The pin leases that
    are still counted are exactly those whose clean-up could not even be recorded. *)
Theorem published_content_stays_pinned pins faults now w :
  rtc lifecycle_step (initial_world pins faults now) w →
  served (au_indexed (w_db w)) (w_pins w) ∧ served_announced (au_poi (w_db w)) (w_pins w) ∧
  served (au_poi (w_db w)) (w_pins w ∪ w_indoubt w) ∧ w_active w = length (w_dropped w) ∧
  ((reconcile_pending_poi_publications text_leb audit_error w).1 = Ok Abandoned → gone_in_doubt w).
Proof.
  intros Hrun. assert (world_ok w) as [Hok Hact].
  { generalize (initial_ok pins faults now). revert Hrun. generalize (initial_world pins faults now). intros w0.
    induction 1 as [|w0 w1 w2 Hs _ IH]; [done|]. intros H0ok. by apply IH, (lifecycle_step_ok w0). }
  destruct (content_served _ _ _ Hok) as (? & ? & ?). split_and!; [done..|]. by apply (wp_reconcile_poi w).
Qed.
End world.

(** ** A run of the chain-indexed publisher *)

(** A pin's CID spells the bytes. *)
#[local] Existing Instance toy_cids.
#[local] Instance toy_manifests : ManifestCrate := {|
  IndexedArtifactManifest := Z;
  manifest_from_json json := Ok (Z.of_nat (String.length json));
  verify_trusted_signature _ _ := Ok tt;
  manifest_sequence m := m;
  json_bytes json := String.list_byte_of_string json;
  content_hash bs := bs;
|}.
#[local] Instance toy_entries : PoiV4Crate := {|
  ManifestEntry := string;
  entry_scope _ := mkPoiScope 0 0 1 "V2";
  entry_validate _ := Ok tt;
  entry_to_json := Ok;
  entry_from_json := Ok;
  json_checkpoint_cid _ := None;
  retained_bridge_cids _ := [];
|}.
Definition toy_pin (bs : bytes) : string := String.string_of_list_byte bs.

Definition toy_artifact (name : string) : Pub string :=
  let bs := json_bytes name in
  reuse_or_pin_indexed_artifact toy_pin (λ _, "audit"%string) "toy" Chunk WalletScan (mkScope Evm 1 0) (mkRange Block 0 9)
    (Z.of_nat (length bs)) bs 1 bs.
Definition toy_manifest (cids : list string) (sequence : Z) (json : string) : Pub string :=
  publish_indexed_manifest toy_pin (λ _, "audit"%string) "toy" cids sequence json 1.

(** Artifact and manifest, their replacements, and a sweep of the old manifest. *)
Definition toy_world (n : nat) : World :=
  let w := initial_world ∅ [] 10 in
  let w := if decide (1 ≤ n)%nat then (toy_artifact "a1" w).2 else w in
  let w := if decide (2 ≤ n)%nat then (toy_manifest ["a1"%string] 1 "m1" w).2 else w in
  let w := if decide (3 ≤ n)%nat then (toy_artifact "a2" w).2 else w in
  let w := if decide (4 ≤ n)%nat then (toy_manifest ["a2"%string] 2 "m2" w).2 else w in
  if decide (5 ≤ n)%nat then (locked_sweep (λ _, "audit"%string) 10 20 "m1" w).2 else w.

Lemma published_content_stays_pinned_witness :
  w_pins (toy_world 5) = {["a1"; "a2"; "m2"]}%string ∧ served (au_indexed (w_db (toy_world 5))) (w_pins (toy_world 5)).
Proof.
  assert (∀ (w : World) c, bool_decide (unrecorded w c) = true → unrecorded w c) as Hun by (intros w c; apply bool_decide_eq_true).
  split; [apply (bool_decide_unpack _); vm_compute; exact I|].
  refine (proj1 (published_content_stays_pinned (λ _ _, true) toy_pin (λ _, "audit"%string) "toy" ∅ [] 10 (toy_world 5) _)).
  eapply rtc_r; [eapply rtc_r; [eapply rtc_r; [eapply rtc_r; [eapply rtc_r; [apply rtc_refl|]|]|]|]|].
  - exact (step_indexed_artifact _ _ _ _ Chunk WalletScan (mkScope Evm 1 0) (mkRange Block 0 9) 2 (json_bytes "a1") 1 (json_bytes "a1")
      (toy_world 0) (proj1 (Hun (toy_world 0) "a1"%string eq_refl))).
  - exact (step_indexed_manifest _ _ _ _ ["a1"%string] 1 "m1" 1 (toy_world 1) (Hun (toy_world 1) "m1"%string eq_refl)).
  - exact (step_indexed_artifact _ _ _ _ Chunk WalletScan (mkScope Evm 1 0) (mkRange Block 0 9) 2 (json_bytes "a2") 1 (json_bytes "a2")
      (toy_world 2) (proj1 (Hun (toy_world 2) "a2"%string eq_refl))).
  - exact (step_indexed_manifest _ _ _ _ ["a2"%string] 2 "m2" 1 (toy_world 3) (Hun (toy_world 3) "m2"%string eq_refl)).
  - exact (step_sweep _ _ _ _ 10 20 "m1" (toy_world 4)).
Defined.

(** A commit lost after the unpin: the artifact of a POI publication is unpinned
    while its row stays live, the manifest recorded with it is pending without
    its content, and reconciling abandons it. A later publication of the
    same content finds it missing and pins it again. *)
Definition toy_poi_artifact (name : string) : Pub (string * bool) :=
  let bs := json_bytes name in
  publish_poi_artifact toy_pin (λ _, "audit"%string) "toy" BlockedShields
    (mkPrepared _ (mkPoiScope 0 0 1 "V2") None bs bs None Ok Ok).
Definition lost_commit (w : World) : World :=
  (locked_sweep (λ _, "audit"%string) 10 20 "p1" (set_faults w [false; false; true; false])).2.
Example lost_commit_abandons :
  let w := lost_commit (toy_poi_artifact "p1" (initial_world ∅ [] 10)).2 in
  let w' := (pin_poi_manifest toy_pin (λ _, "audit"%string) "toy" (json_bytes "pm") [] ["p1"%string] 5 w).2 in
  (elements (w_pins w), elements (w_indoubt w)) = ([], ["p1"%string]) ∧
  (reconcile_pending_poi_publications (λ _ _, true) (λ _, "audit"%string) w').1 = Ok Abandoned ∧
  elements (w_pins (toy_poi_artifact "p1" w).2) = ["p1"%string].
Proof. split_and!; vm_compute; reflexivity. Qed.
