(* ===== verification/PubLogic.v ===== *)
(** * A logic for publication code

    Triples for computations over the publication world: an invariant that
    holds whatever the answer, and a postcondition of the answer. Two kinds of
    invariant are used: a predicate of the audit tables, and a part of the world
    that does not change. *)

From S2P Require Import Prelude Order Wire Ipfs Artifacts PoiStore AuditLog Retention Publication.

(** [m] keeps [I], and its answers satisfy [P]. *)
Definition hoare {A} (I : World → Prop) (m : Pub A) (P : A → Prop) : Prop :=
  ∀ w, I w → I (m w).2 ∧ ∀ a, (m w).1 = Ok a → P a.
(** Whatever the world, an answer of [m] satisfies [P]. *)
Abbreviation yields := (hoare (λ _, True)).
(** [m] does not change [g]. *)
Definition preserves {A X} (g : World → X) (m : Pub A) : Prop := ∀ w, g (m w).2 = g w.

Section rules.
Context {I : World → Prop}.

Lemma hoare_mono {A} (m : Pub A) (P Q : A → Prop) : hoare I m P → (∀ a, P a → Q a) → hoare I m Q.
Proof. intros Hm HPQ w Hw. destruct (Hm w Hw). eauto. Qed.
Lemma hoare_true {A} (m : Pub A) (P : A → Prop) : hoare I m P → hoare I m (λ _, True).
Proof. intros Hm. by eapply hoare_mono. Qed.
Lemma hoare_and {A} (m : Pub A) (P Q : A → Prop) : hoare I m P → hoare I m Q → hoare I m (λ a, P a ∧ Q a).
Proof. intros HP HQ w Hw. destruct (HP w Hw), (HQ w Hw). split; [done|]. auto. Qed.
Lemma hoare_ret {A} (a : A) (P : A → Prop) : P a → hoare I (mret a) P.
Proof. intros HP w Hw. split; [done|]. by intros a' [= <-]. Qed.
Lemma hoare_fail {A} e (P : A → Prop) : hoare I (fail e) P.
Proof. intros w Hw. by split. Qed.
Lemma hoare_lift {A} (r : result string A) : hoare I (lift r) (λ a, r = Ok a).
Proof. intros w Hw. by split. Qed.
Lemma hoare_bind {A B} (m : Pub A) (k : A → Pub B) P (Q : B → Prop) :
  hoare I m P → (∀ a, P a → hoare I (k a) Q) → hoare I (m ≫= k) Q.
Proof.
  intros Hm Hk w Hw. unfold mbind, Pub_bind. destruct (Hm w Hw) as [Hw' HP]. destruct (m w) as [[a|e] w'] eqn:Hr; [|done].
  by apply (Hk a (HP a eq_refl) w').
Qed.
Lemma hoare_seq {A B} (m : Pub A) (k : A → Pub B) (Q : B → Prop) :
  hoare I m (λ _, True) → (∀ a, hoare I (k a) Q) → hoare I (m ≫= k) Q.
Proof. intros Hm Hk. eapply hoare_bind; [exact Hm|]. by intros a _. Qed.
Lemma hoare_try {A} (m : Pub A) P : hoare I m P → hoare I (try m) (λ r, ∀ a, r = Ok a → P a).
Proof.
  intros Hm w Hw. unfold try. destruct (Hm w Hw) as [Hw' HP]. destruct (m w) as [r w']. split; [done|]. intros r' [= <-] a Ha. by apply HP.
Qed.
Lemma hoare_preserved {A} (m : Pub A) : (∀ w, I w → I (m w).2) → hoare I m (λ _, True).
Proof. intros Hm w Hw. split; [by apply Hm|done]. Qed.
End rules.

Lemma yields_true {A} (m : Pub A) : yields m (λ _, True).
Proof. done. Qed.

Section preserving.
Context {X : Type} (g : World → X).
Lemma preserves_ret {A} (a : A) : preserves g (mret a).
Proof. done. Qed.
Lemma preserves_fail {A} e : preserves (A := A) g (fail e).
Proof. done. Qed.
Lemma preserves_lift {A} (r : result string A) : preserves g (lift r).
Proof. done. Qed.
Lemma preserves_bind {A B} (m : Pub A) (k : A → Pub B) : preserves g m → (∀ a, preserves g (k a)) → preserves g (m ≫= k).
Proof. intros Hm Hk w. unfold mbind, Pub_bind. specialize (Hm w). destruct (m w) as [[a|e] w']; [|done]. by rewrite (Hk a w'), <- Hm. Qed.
Lemma preserves_try {A} (m : Pub A) : preserves g m → preserves g (try m).
Proof. intros Hm w. unfold try. specialize (Hm w). by destruct (m w). Qed.
End preserving.

(** Parts of the world the oracle does not touch. *)
Class FaultFree {X} (g : World → X) : Prop := fault_free w bs : g (set_faults w bs) = g w.
#[export] Instance db_fault_free : FaultFree w_db := λ _ _, eq_refl.
#[export] Instance ipns_fault_free : FaultFree w_ipns := λ _ _, eq_refl.
#[export] Instance pins_fault_free : FaultFree w_pins := λ _ _, eq_refl.

Create HintDb preserves.
#[export] Hint Resolve preserves_ret preserves_fail preserves_lift preserves_bind preserves_try : preserves.
(** Sequence [preserves] through binds and case distinctions. *)
Ltac preserve :=
  repeat first
    [ solve [auto with preserves]
    | apply preserves_bind; [|intros ?]
    | apply preserves_try
    | match goal with |- preserves _ (match ?x with _ => _ end) => destruct x end
    | match goal with |- preserves _ (if ?x then _ else _) => destruct x end ].

Section faults.
Context {X : Type} (g : World → X) `{!FaultFree g}.
Lemma preserves_fault : preserves g fault.
Proof. intros w. unfold fault. destruct (w_faults w); [done|]. apply fault_free. Qed.
Lemma preserves_guarded {A} e (m : Pub A) : preserves g m → preserves g (guarded e m).
Proof. intros Hm. apply preserves_bind; [apply preserves_fault|]. by intros []. Qed.
End faults.
#[export] Hint Resolve preserves_fault preserves_guarded : preserves.

(** A [for] loop over [Pub] that threads a state. *)
Fixpoint pub_loop {S A} (f : S → A → Pub S) (s : S) (l : list A) : Pub S :=
  match l with [] => mret s | a :: l => s ← f s a; pub_loop f s l end.
Lemma hoare_loop {I : World → Prop} {S A} (f : S → A → Pub S) (J : list A → S → Prop) s l :
  J [] s → (∀ done a s, a ∈ l → J done s → hoare I (f s a) (J (done ++ [a]))) → hoare I (pub_loop f s l) (J l).
Proof.
  intros H0 Hf. assert (∀ rest done s, rest ⊆ l → J done s → hoare I (pub_loop f s rest) (J (done ++ rest))) as Hall; [|by apply (Hall l [])].
  intros rest. induction rest as [|a rest IH]; intros done s' Hsub Hs; cbn; [rewrite app_nil_r; by apply hoare_ret|].
  eapply hoare_bind; [apply Hf; [set_solver|done]|]. intros s2 Hs2.
  replace (done ++ a :: rest) with ((done ++ [a]) ++ rest) by (by rewrite <- app_assoc). apply IH; [set_solver|done].
Qed.
Lemma preserves_loop {X} (g : World → X) {S A} (f : S → A → Pub S) s l : (∀ s a, preserves g (f s a)) → preserves g (pub_loop f s l).
Proof. intros Hf. revert s. induction l as [|a l IH]; intros s; cbn; [done|]. by apply preserves_bind. Qed.

(** ** Invariants of the audit tables *)
Section tables.
Context `{CidCrate} `{ManifestCrate} `{PoiV4Crate}.
Context (pin_cid : bytes → Cid) (audit_error : AuditError → string) (service_name : string).
Context (I : AuditDb → Prop) (I_debts : ∀ db m, I db → I (with_debts db m)).
Abbreviation keeps := (hoare (λ w, I (w_db w))).

Lemma keeps_preserved {A} (m : Pub A) : preserves w_db m → keeps m (λ _, True).
Proof. intros Hm w Hw. by rewrite Hm. Qed.
Lemma keeps_guarded {A} e (m : Pub A) P : keeps m P → keeps (guarded e m) P.
Proof. intros Hm. apply hoare_seq; [apply keeps_preserved, preserves_fault, _|]. intros []; [apply hoare_fail|done]. Qed.
Lemma keeps_running : keeps ensure_publication_running (λ _, True).
Proof. apply keeps_guarded. by apply hoare_ret. Qed.
Lemma keeps_read {A} (query : AuditDb → aresult A) : keeps (db_read audit_error query) (λ a, ∃ db, I db ∧ query db = Ok a).
Proof. apply keeps_guarded. intros w Hw. split; [done|]. intros a Ha%map_err_Ok. eauto. Qed.
Lemma keeps_contains cid : keeps (ipfs_contains cid) (λ _, True).
Proof. by apply keeps_guarded. Qed.
Lemma keeps_parse c : keeps (parse c) (λ cid, cid_try_from c = Some cid).
Proof. eapply hoare_mono; [apply hoare_lift|]. by intros cid Hc%ok_or_Ok. Qed.
Lemma keeps_available c : keeps (cid_is_available c) (λ _, True).
Proof. apply hoare_seq; [by eapply hoare_true, keeps_parse|]. apply keeps_contains. Qed.
Lemma keeps_first_unavailable cids : keeps (first_unavailable cids) (λ _, True).
Proof.
  induction cids as [|c cids IH]; cbn; [by apply hoare_ret|]. apply hoare_seq; [apply keeps_available|]. intros []; [done|by apply hoare_ret].
Qed.
Lemma keeps_transaction {A} (f : AuditDb → Z → result string (A * AuditDb)) :
  (∀ db now a db', I db → f db now = Ok (a, db') → I db') →
  keeps (db_transaction f) (λ a, ∃ db now db', I db ∧ I db' ∧ f db now = Ok (a, db')).
Proof.
  intros Hf. apply keeps_guarded. intros w Hw. destruct (f (w_db w) (w_now w)) as [[a db']|e] eqn:Hr; [|by split].
  pose proof (Hf _ _ _ _ Hw Hr) as Hw'.
  match goal with |- I (w_db (?m w).2) ∧ _ => assert (keeps m (λ x, x = a)) as Hm end.
  { apply hoare_seq; [apply keeps_preserved, preserves_fault, _|]. intros [].
    - apply hoare_seq; [apply keeps_preserved, preserves_fault, _|]. intros applied w2 Hw2. split; [by destruct applied|done].
    - intros w2 Hw2. split; [done|]. by intros x [= <-]. }
  destruct (Hm w Hw) as [? Hx]. split; [done|]. intros x ->%Hx. by exists (w_db w), (w_now w), db'.
Qed.

Lemma preserves_settle : preserves w_db settle_pin_ownership.
Proof. done. Qed.
Lemma preserves_drop cid : preserves w_db (drop_pin_ownership cid).
Proof. done. Qed.
Lemma keeps_settle_after_debt cid e : keeps (settle_after_debt service_name cid e) (λ _, True).
Proof.
  apply hoare_seq.
  - eapply hoare_true, (hoare_try _ (λ _, True)), keeps_guarded. intros w Hw. split; [by apply I_debts|done].
  - intros r. apply keeps_preserved. destruct (is_ok r); [apply preserves_settle|apply preserves_drop].
Qed.
Lemma keeps_cleanup cid : keeps (cleanup_uncommitted_pin_while_locked audit_error service_name cid) (λ _, True).
Proof.
  apply hoare_seq; [eapply hoare_true, hoare_try, keeps_read|]. intros [[]|e].
  - apply keeps_preserved, preserves_settle.
  - apply hoare_seq; [apply keeps_preserved, preserves_try, preserves_guarded; [apply _|done]|].
    intros [[]|e]; [apply keeps_preserved, preserves_settle|apply keeps_settle_after_debt].
  - apply keeps_settle_after_debt.
Qed.
Lemma keeps_owned_pin bs : keeps (owned_pin pin_cid bs) (λ cid, cid = pin_cid bs).
Proof.
  apply hoare_seq.
  - apply hoare_seq; [apply keeps_running|]. intros _. apply hoare_seq; [|intros []; [by apply hoare_ret|apply hoare_fail]].
    apply keeps_preserved. intros w. unfold try_acquire_pin_ownership. by destruct (w_accepting w).
  - intros _. eapply hoare_bind with (P := λ r, ∀ cid, r = Ok cid → cid = pin_cid bs).
    + apply hoare_try, keeps_guarded. intros w Hw. split; [done|]. by intros a [= <-].
    + intros [cid|e] Hr; [apply hoare_ret; by apply Hr|]. apply hoare_seq; [apply keeps_preserved, preserves_settle|]. intros _. apply hoare_fail.
Qed.
Lemma keeps_record_owned {A} cid owned (f : AuditDb → Z → result string (A * AuditDb)) :
  (∀ db now a db', I db → f db now = Ok (a, db') → I db') →
  keeps (record_owned audit_error service_name cid owned f) (λ a, ∃ db now db', I db ∧ I db' ∧ f db now = Ok (a, db')).
Proof.
  intros Hf. eapply hoare_bind; [by apply hoare_try, keeps_transaction|]. intros [a|e] Ha.
  - apply hoare_seq; [destruct owned; [apply keeps_preserved, preserves_settle|by apply hoare_ret]|]. intros _. apply hoare_ret. by apply Ha.
  - apply hoare_seq; [destruct owned; [apply keeps_cleanup|by apply hoare_ret]|]. intros _. apply hoare_fail.
Qed.
Lemma keeps_reuse_or_pin {A} (R : Cid → Prop) lookup bs (f : Cid → AuditDb → Z → result string (A * AuditDb)) :
  (∀ db cid, I db → lookup db = Ok (Some cid) → R cid) → R (pin_cid bs) →
  (∀ cid db now a db', R cid → I db → f cid db now = Ok (a, db') → I db') →
  keeps (reuse_or_pin pin_cid audit_error service_name lookup bs f)
    (λ r, R r.1.1 ∧ ∃ db now db', I db ∧ I db' ∧ f r.1.1 db now = Ok (r.2, db')).
Proof.
  intros Hlookup Hbs Hf. eapply hoare_bind; [apply keeps_read|]. intros reusable (db & Hdb & Hr).
  apply hoare_seq; [destruct reusable; [apply keeps_contains|by apply hoare_ret]|]. intros present.
  apply hoare_bind with (P := λ r : Cid * bool, R r.1).
  - destruct reusable as [cid|]; [destruct present|]; [apply hoare_ret; by eapply Hlookup| |];
      (eapply hoare_bind; [apply keeps_owned_pin|]; intros c ->; by apply hoare_ret).
  - intros [cid reused] Hcid. cbn in Hcid. eapply hoare_bind; [apply keeps_record_owned; by intros *; apply Hf|].
    intros a Ha. apply hoare_seq; [apply keeps_running|]. intros _. by apply hoare_ret.
Qed.

(** A published artifact has the descriptor of its content for some CID. *)
Lemma keeps_prepared {D} (R : Cid → Prop) kind (prepared : PreparedPoiArtifact D) :
  (∀ db cid size root, I db →
     live_poi_artifact_cid db kind (pa_scope prepared) (pa_range prepared) size (pa_sha256 prepared) root = Ok (Some cid) → R cid) →
  R (pin_cid (pa_bytes prepared)) →
  (∀ cid db now size root json db', R cid → I db →
     record_poi_artifact_pin db now kind (pa_scope prepared) (pa_range prepared) cid size (pa_sha256 prepared) root json = Ok db' → I db') →
  keeps (publish_prepared pin_cid audit_error service_name kind prepared)
    (λ r, ∃ cid, R cid ∧ pa_descriptor prepared (cid_to_string cid) = Ok r.1).
Proof.
  intros Hlookup Hbs Hrec. apply hoare_seq; [by eapply hoare_true, hoare_lift|]. intros size.
  eapply hoare_bind; [apply (keeps_reuse_or_pin R); [by intros *; apply Hlookup|done|]|].
  - intros cid db now a db' Hcid Hdb Hr. apply bind_Ok in Hr as (d & _ & Hr). apply bind_Ok in Hr as (json & _ & Hr).
    apply bind_Ok in Hr as (db2 & Hr%map_err_Ok & [= _ <-]). by eapply Hrec.
  - intros [[cid reused] d] (Hcid & db & now & db' & _ & _ & Hd). apply hoare_ret. exists cid. split; [done|]. cbn in Hd.
    apply bind_Ok in Hd as (d' & Hd' & Hd). apply bind_Ok in Hd as (json & _ & Hd). by apply bind_Ok in Hd as (db2 & _ & [= -> _]).
Qed.
End tables.

Lemma yields_prepared `{CidCrate} `{ManifestCrate} `{PoiV4Crate} pin_cid audit_error service_name {D} kind (prepared : PreparedPoiArtifact D) :
  yields (publish_prepared pin_cid audit_error service_name kind prepared) (λ r, ∃ cid, pa_descriptor prepared cid = Ok r.1).
Proof.
  eapply hoare_mono; [by apply (keeps_prepared _ _ _ (λ _, True) (λ _ _ _, I) (λ _, True))|]. intros r (cid & _ & Hd). eauto.
Qed.

(** ** Read-only calls *)
Definition readonly {A} (m : Pub A) : Prop := ∀ w, ∃ bs, (m w).2 = set_faults w bs.
Lemma readonly_ret {A} (a : A) : readonly (mret a).
Proof. intros w. exists (w_faults w). by destruct w. Qed.
Lemma readonly_fail {A} e : readonly (A := A) (fail e).
Proof. intros w. exists (w_faults w). by destruct w. Qed.
Lemma readonly_lift {A} (r : result string A) : readonly (lift r).
Proof. intros w. exists (w_faults w). by destruct w. Qed.
Lemma readonly_bind {A B} (m : Pub A) (k : A → Pub B) : readonly m → (∀ a, readonly (k a)) → readonly (m ≫= k).
Proof.
  intros Hm Hk w. unfold mbind, Pub_bind. destruct (Hm w) as [bs Hw]. destruct (m w) as [[a|e] w1]; cbn in Hw; [|by exists bs].
  subst w1. destruct (Hk a (set_faults w bs)) as [bs' ->]. by exists bs'.
Qed.
Lemma readonly_fault : readonly fault.
Proof. intros w. unfold fault. destruct (w_faults w) as [|b bs] eqn:Hf; [exists []; rewrite <- Hf; by destruct w|by exists bs]. Qed.
Lemma readonly_guarded {A} e (m : Pub A) : readonly m → readonly (guarded e m).
Proof. intros Hm. apply readonly_bind; [apply readonly_fault|]. intros []; [apply readonly_fail|done]. Qed.
Lemma set_faults_id w : set_faults w (w_faults w) = w.
Proof. by destruct w. Qed.
Create HintDb readonly.
#[export] Hint Resolve readonly_ret readonly_fail readonly_lift readonly_bind readonly_guarded : readonly.

Section reading.
Context `{CidCrate}.
Lemma readonly_running : readonly ensure_publication_running.
Proof. apply readonly_guarded, readonly_ret. Qed.
Lemma readonly_contains cid : readonly (ipfs_contains cid).
Proof. apply readonly_guarded. intros w. exists (w_faults w). by destruct w. Qed.
Lemma readonly_read audit_error {A} (query : AuditDb → aresult A) : readonly (db_read audit_error query).
Proof. apply readonly_guarded. intros w. exists (w_faults w). by destruct w. Qed.
Lemma readonly_available c : readonly (cid_is_available c).
Proof. apply readonly_bind; [apply readonly_lift|]. apply readonly_contains. Qed.
Lemma readonly_first_unavailable cids : readonly (first_unavailable cids).
Proof.
  induction cids as [|c cids IH]; cbn; [apply readonly_ret|]. apply readonly_bind; [apply readonly_available|].
  intros []; [done|apply readonly_ret].
Qed.
Lemma readonly_ensure_available cids : readonly (ensure_indexed_artifacts_available cids).
Proof.
  induction cids as [|c cids IH]; cbn; [apply readonly_ret|]. apply readonly_bind; [apply readonly_lift|]. intros cid.
  apply readonly_bind; [apply readonly_contains|]. intros []; [done|apply readonly_fail].
Qed.
End reading.
#[export] Hint Resolve readonly_running readonly_contains readonly_read readonly_available readonly_first_unavailable : readonly.

(** ** What leaves the announcements alone *)
Section announcements.
Context `{CidCrate} `{ManifestCrate} `{PoiV4Crate}.
Context (pin_cid : bytes → Cid) (audit_error : AuditError → string) (service_name : string).

Lemma readonly_preserves {A X} (g : World → X) `{!FaultFree g} (m : Pub A) : readonly m → preserves g m.
Proof. intros Hm w. destruct (Hm w) as [bs ->]. apply fault_free. Qed.
Lemma ipns_transaction {A} (f : AuditDb → Z → result string (A * AuditDb)) : preserves w_ipns (db_transaction f).
Proof.
  apply preserves_guarded; [apply _|]. intros w. destruct (f _ _) as [[a db]|e]; [|done].
  match goal with |- w_ipns (?m w).2 = _ => assert (preserves w_ipns m) as Hm; [|apply Hm] end.
  apply preserves_bind; [apply preserves_fault, _|]. intros []; [|done]. apply preserves_bind; [apply preserves_fault, _|].
  intros applied w'. by destruct applied.
Qed.
Lemma ipns_settle_after_debt cid e : preserves w_ipns (settle_after_debt service_name cid e).
Proof. apply preserves_bind; [by apply preserves_try, preserves_guarded; [apply _|]|]. intros r. by destruct (is_ok r). Qed.
Lemma ipns_cleanup cid : preserves w_ipns (cleanup_uncommitted_pin_while_locked audit_error service_name cid).
Proof.
  apply preserves_bind; [apply preserves_try, readonly_preserves, readonly_read; apply _|]. intros [[]|e]; [done| |apply ipns_settle_after_debt].
  apply preserves_bind; [by apply preserves_try, preserves_guarded; [apply _|]|]. intros [[]|e]; [done|apply ipns_settle_after_debt].
Qed.
Lemma ipns_owned_pin bs : preserves w_ipns (owned_pin pin_cid bs).
Proof.
  apply preserves_bind.
  - apply preserves_bind; [apply readonly_preserves, readonly_running; apply _|]. intros _. apply preserves_bind; [|by intros []].
    intros w. unfold try_acquire_pin_ownership. by destruct (w_accepting w).
  - intros _. apply preserves_bind; [by apply preserves_try, preserves_guarded; [apply _|]|]. by intros [cid|e].
Qed.
Lemma ipns_record_owned {A} cid owned (f : AuditDb → Z → result string (A * AuditDb)) :
  preserves w_ipns (record_owned audit_error service_name cid owned f).
Proof.
  apply preserves_bind; [apply preserves_try, ipns_transaction|].
  intros [a|e]; (apply preserves_bind; [destruct owned; [|done]|done]); [done|apply ipns_cleanup].
Qed.
Lemma ipns_reuse_or_pin {A} lookup bs (f : Cid → AuditDb → Z → result string (A * AuditDb)) :
  preserves w_ipns (reuse_or_pin pin_cid audit_error service_name lookup bs f).
Proof.
  apply preserves_bind; [apply readonly_preserves, readonly_read; apply _|]. intros reusable.
  apply preserves_bind; [destruct reusable; [apply readonly_preserves, readonly_contains; apply _|done]|]. intros present.
  apply preserves_bind; [destruct reusable as [cid|]; [destruct present; [done|]|]; (apply preserves_bind; [apply ipns_owned_pin|done])|].
  intros [cid reused]. apply preserves_bind; [apply ipns_record_owned|]. intros d.
  apply preserves_bind; [apply readonly_preserves, readonly_running; apply _|done].
Qed.
Lemma ipns_prepared {D} kind (prepared : PreparedPoiArtifact D) :
  preserves w_ipns (publish_prepared pin_cid audit_error service_name kind prepared).
Proof. apply preserves_bind; [done|]. intros size. apply preserves_bind; [apply ipns_reuse_or_pin|by intros [[cid reused] d]]. Qed.
Lemma ipns_indexed_artifact kind dataset scope range size hash version bs :
  preserves w_ipns (reuse_or_pin_indexed_artifact pin_cid audit_error service_name kind dataset scope range size hash version bs).
Proof.
  apply preserves_bind; [apply readonly_preserves, readonly_running; apply _|]. intros _.
  apply preserves_bind; [apply ipns_reuse_or_pin|by intros [[cid reused] d]].
Qed.
Lemma ipns_pin_indexed_manifest cids q json version :
  preserves w_ipns (pin_indexed_manifest pin_cid audit_error service_name cids q json version).
Proof.
  apply preserves_bind; [apply readonly_preserves, readonly_ensure_available; apply _|]. intros _.
  apply preserves_bind; [apply ipns_owned_pin|]. intros cid. apply preserves_bind; [apply ipns_record_owned|done].
Qed.
Lemma ipns_repin p : preserves w_ipns (repin_pending_manifest pin_cid audit_error service_name p).
Proof.
  apply preserves_bind; [apply readonly_preserves, readonly_ensure_available; apply _|]. intros _. apply preserves_bind; [done|]. intros cid.
  apply preserves_bind; [apply ipns_owned_pin|]. intros returned. case_decide; (apply preserves_bind; [|done]); [apply ipns_cleanup|done].
Qed.
Lemma ipns_pin_manifest bs entries cids q : preserves w_ipns (pin_poi_manifest pin_cid audit_error service_name bs entries cids q).
Proof.
  apply preserves_bind; [apply ipns_owned_pin|]. intros cid. apply preserves_bind; [apply preserves_try, readonly_preserves, readonly_running; apply _|].
  intros [[]|e]; [|apply preserves_bind; [apply ipns_cleanup|done]]. apply preserves_bind; [apply ipns_record_owned|]. intros u.
  apply preserves_bind; [apply readonly_preserves, readonly_running; apply _|done].
Qed.
Lemma ipns_record_v4 c q : preserves w_ipns (record_v4_ipns audit_error c q).
Proof. apply preserves_bind; [done|]. intros cid. apply ipns_transaction. Qed.
End announcements.

(** ** Answers and effects *)
Lemma wp_conj {A} (m : Pub A) (Q Q' : result string A → World → Prop) w : wp m Q w → wp m Q' w → wp m (λ r w', Q r w' ∧ Q' r w') w.
Proof. by split. Qed.
Lemma hoare_wp {A} I (m : Pub A) P w : hoare I m P → I w → wp m (λ r w', I w' ∧ ∀ a, r = Ok a → P a) w.
Proof. intros Hm Hw. apply (Hm w Hw). Qed.

Lemma wp_readonly {A} (m : Pub A) (Q : result string A → World → Prop) w :
  readonly m → (∀ r bs, Q r (set_faults w bs)) → wp m Q w.
Proof. intros Hm HQ. unfold wp. destruct (Hm w) as [bs ->]. apply HQ. Qed.

Lemma wp_ipns_publish c q (Q : result string unit → World → Prop) w :
  (∀ e bs, Q (Err e) (set_faults w bs)) →
  (∀ bs, Q (Ok tt) (mkWorld (w_db w) (w_pins w) (w_accepting w) (w_active w) (w_dropped w) (w_indoubt w) (w_ipns w ++ [(c, q)]) bs (w_now w))) →
  wp (ipns_publish c q) Q w.
Proof.
  intros He Ho. unfold ipns_publish, guarded. apply pub_bind. unfold wp, fault. destruct (w_faults w) as [|[] bs] eqn:Hf; cbn [fst snd].
  - apply (Ho (w_faults w)).
  - apply He.
  - apply (Ho bs).
Qed.

Lemma wp_db_read `{CidCrate} audit_error {A} (query : AuditDb → aresult A) (Q : result string A → World → Prop) w :
  (∀ e bs, Q (Err e) (set_faults w bs)) → (∀ a bs, query (w_db w) = Ok a → Q (Ok a) (set_faults w bs)) → wp (db_read audit_error query) Q w.
Proof.
  intros He Ho. unfold db_read, guarded. apply pub_bind. unfold wp, fault.
  destruct (w_faults w) as [|[] bs] eqn:Hf; cbn [fst snd]; [|apply He|].
  - cbn. destruct (query (w_db w)) as [a|e] eqn:Hq; cbn; rewrite <- (set_faults_id w), Hf; [by apply Ho|apply He].
  - cbn. destruct (query (w_db w)) as [a|e] eqn:Hq; cbn; [by apply Ho|apply He].
Qed.

Lemma wp_preserves {A X} (g : World → X) (m : Pub A) w : preserves g m → wp m (λ _ w', g w' = g w) w.
Proof. intros Hm. apply Hm. Qed.

(** ** Cycles of a scheduler *)
Definition cwp {S A} (m : Cycle S A) (Q : result string A → S → World → Prop) (s : S) (w : World) : Prop :=
  Q (m s w).1.1 (m s w).1.2 (m s w).2.
Lemma cwp_bind {S A B} (m : Cycle S A) (k : A → Cycle S B) (Q : result string B → S → World → Prop) s w :
  cwp m (λ r s' w', match r with Ok a => cwp (k a) Q s' w' | Err e => Q (Err e) s' w' end) s w → cwp (m ≫= k) Q s w.
Proof. unfold cwp, mbind, Cycle_bind. by destruct (m s w) as [[[a|e] s'] w']. Qed.
Lemma cwp_pub {S A} (m : Pub A) (Q : result string A → S → World → Prop) s w : wp m (λ r w', Q r s w') w → cwp (pub m) Q s w.
Proof. unfold cwp, wp, pub. by destruct (m w). Qed.
Lemma cwp_mono {S A} (m : Cycle S A) (Q Q' : result string A → S → World → Prop) s w :
  cwp m Q s w → (∀ r s' w', Q r s' w' → Q' r s' w') → cwp m Q' s w.
Proof. unfold cwp. eauto. Qed.
