(* ===== verification/ManifestLog.v ===== *)
(** * The manifests of a publication channel

    What both publishers keep true of the rows they write about manifests: a
    manifest carries its sequence, sequences increase and stay within the
    reserved one, only the newest can be pending, and what IPNS was told is a
    recorded manifest, in order. The CID of a content tells what it is. The two
    channels share the audit tables and the log of announcements. *)

From stdpp Require Import sorting.
From S2P Require Import Prelude Order Wire Ipfs Artifacts PoiStore AuditLog Retention Publication PublicationSafety PubLogic.

Inductive CidContent := ArtifactContent | PoiManifestContent (sequence : Z) | IndexedManifestContent (sequence : Z).
Definition is_poi (c : CidContent) : bool := match c with PoiManifestContent _ => true | _ => false end.
Definition is_indexed (c : CidContent) : bool := match c with IndexedManifestContent _ => true | _ => false end.

(** The manifest rows change in their states only, and none becomes pending. *)
Definition same_manifest (m m' : ManifestRow) : Prop :=
  mf_cid m' = mf_cid m ∧ mf_ipns_sequence m' = mf_ipns_sequence m ∧ (is_pending m' → is_pending m).
Lemma same_manifests_refl ms : Forall2 same_manifest ms ms.
Proof. apply Forall_Forall2_diag, Forall_true. done. Qed.
Lemma same_manifests_update (P : ManifestRow → Prop) `{∀ m, Decision (P m)} f ms ms' :
  (∀ m, same_manifest m (f m)) → Forall2 same_manifest ms ms' → Forall2 same_manifest ms (update_where P f ms').
Proof.
  intros Hf. unfold update_where. induction 1 as [|m m' ms ms' Hm _ IH]; cbn; constructor; [|done].
  case_decide; [|done]. destruct (Hf m') as (Ha & Hb & Hc), Hm as (? & ? & ?). unfold same_manifest. split_and!; [congruence..|auto].
Qed.
Lemma same_sequences ms ms' : Forall2 same_manifest ms ms' → mf_ipns_sequence <$> ms' = mf_ipns_sequence <$> ms.
Proof. induction 1 as [|m m' ms ms' (_ & Hs & _) _ IH]; cbn; congruence. Qed.

(** ** One channel *)
Section log.
Context (content : string → CidContent) (kind : Z → CidContent).
Implicit Types (bound : option Z) (anns : list (string * Z)) (ms : list ManifestRow).

(** [bound] is the reserved sequence, [anns] what was announced. *)
Definition within bound ms : Prop := ∀ m, m ∈ ms → ∃ v, bound = Some v ∧ 0 ≤ mf_ipns_sequence m ≤ v.
Record log_ok bound anns ms : Prop := {
  lo_content m : m ∈ ms → content (mf_cid m) = kind (mf_ipns_sequence m);
  lo_within : within bound ms;
  lo_sorted : StronglySorted Z.lt (mf_ipns_sequence <$> ms);
  (** only the newest manifest can be pending *)
  lo_pending ms1 m ms2 : ms = ms1 ++ m :: ms2 → is_pending m → ms2 = [];
  lo_announced : Forall (λ a, ∃ m, m ∈ ms ∧ mf_cid m = a.1 ∧ mf_ipns_sequence m = a.2) anns;
  lo_monotone : StronglySorted Z.le anns.*2;
}.

Lemma log_ok_nil bound : log_ok bound [] [].
Proof.
  split; [by intros m Hm%not_elem_of_nil..|constructor| |constructor|constructor]. by intros [|x l] m ms' Heq.
Qed.
Lemma log_ok_evolves bound anns ms ms' : Forall2 same_manifest ms ms' → log_ok bound anns ms → log_ok bound anns ms'.
Proof.
  intros Hp Hok.
  assert (∀ m', m' ∈ ms' → ∃ m, m ∈ ms ∧ same_manifest m m') as Hback.
  { intros m' (i & Hm')%list_elem_of_lookup. eapply Forall2_lookup_r in Hp as (m & Hm & Hs); [|exact Hm'].
    exists m. split; [by eapply list_elem_of_lookup_2|done]. }
  split.
  - intros m' (m & Hm & (-> & -> & _))%Hback. by eapply lo_content.
  - intros m' (m & Hm & (_ & -> & _))%Hback. by eapply lo_within.
  - rewrite (same_sequences _ _ Hp). by eapply lo_sorted.
  - intros l1 m' l2 Heq Hpend. rewrite Heq in Hp. apply Forall2_app_inv_r in Hp as (l & l' & Hl & Hr & Heq').
    inversion Hr as [|m ? l3 ? Hm Hl3]; subst. destruct Hm as (_ & _ & Hm).
    rewrite (lo_pending _ _ _ Hok l m l3 eq_refl (Hm Hpend)) in Hl3. by inversion Hl3.
  - eapply Forall_impl; [by eapply lo_announced|]. intros a (m & Hm & Hc & Hs). apply list_elem_of_lookup in Hm as (i & Hm).
    eapply Forall2_lookup_l in Hp as (m' & Hm' & (Hc' & Hs' & _)); [|exact Hm]. exists m'.
    split_and!; [by eapply list_elem_of_lookup_2|congruence..].
  - by eapply lo_monotone.
Qed.
Lemma log_ok_within bound bound' anns ms : within bound' ms → log_ok bound anns ms → log_ok bound' anns ms.
Proof. intros Hw Hok. by split; try apply Hok. Qed.
Lemma within_mono v v' ms : v ≤ v' → within (Some v) ms → within (Some v') ms.
Proof. intros Hv Hw m Hm. destruct (Hw m Hm) as (x & [= <-] & ?). exists v'. split; [done|lia]. Qed.

(** All sequences are below [q]: what a reservation gives. *)
Definition below (q : Z) ms : Prop := ∀ m, m ∈ ms → mf_ipns_sequence m < q.
Lemma within_below bound q ms : within bound ms → (∀ v, bound = Some v → v < q) → within (Some q) ms ∧ below q ms.
Proof.
  intros Hw Hv. split; intros m Hm; destruct (Hw m Hm) as (v & Hb & ?); specialize (Hv v Hb); [exists q; split; [done|]|]; lia.
Qed.

(** The newest manifest is [c] with sequence [q]. *)
Definition newest (c : string) (q : Z) ms : Prop := ∃ ms' m, ms = ms' ++ [m] ∧ mf_cid m = c ∧ mf_ipns_sequence m = q.
Lemma newest_content bound anns ms c q : log_ok bound anns ms → newest c q ms → content c = kind q.
Proof. intros Hok (ms' & m & -> & <- & <-). eapply lo_content; [exact Hok|]. apply elem_of_app. right. by left. Qed.
Lemma newest_above bound anns ms c q m : log_ok bound anns ms → newest c q ms → m ∈ ms → mf_ipns_sequence m ≤ q.
Proof.
  intros Hok (ms' & l & -> & _ & <-) Hm. pose proof (lo_sorted _ _ _ Hok) as Hs. rewrite fmap_app in Hs.
  apply elem_of_app in Hm as [Hm| ->%list_elem_of_singleton]; [|done]. apply StronglySorted_app in Hs as (Hlt & _ & _).
  specialize (Hlt (mf_ipns_sequence m) (mf_ipns_sequence l)). apply Z.lt_le_incl, Hlt; [by apply list_elem_of_fmap_2|by left].
Qed.
(** The newest sequence is itself a bound. *)
Lemma within_newest bound anns ms c q : log_ok bound anns ms → newest c q ms → within (Some q) ms.
Proof.
  intros Hok Hn m Hm. exists q. destruct (lo_within _ _ _ Hok m Hm) as (v & _ & ? & _). split_and!; [done..|]. by eapply newest_above.
Qed.
Lemma pending_newest bound anns ms m : log_ok bound anns ms → m ∈ ms → is_pending m → newest (mf_cid m) (mf_ipns_sequence m) ms.
Proof.
  intros Hok (ms1 & ms2 & Heq)%list_elem_of_split Hp. rewrite (lo_pending _ _ _ Hok _ _ _ Heq Hp) in Heq. by exists ms1, m.
Qed.
(** Announcing the newest manifest. *)
Lemma log_ok_announce bound anns ms c q : log_ok bound anns ms → newest c q ms → log_ok bound (anns ++ [(c, q)]) ms.
Proof.
  intros Hok Hn. pose proof Hn as (ms' & m & Heq & Hc & Hq). split; try by apply Hok.
  - apply Forall_app_2, Forall_singleton; [apply Hok|]. exists m. split_and!; [|done..]. rewrite Heq. apply elem_of_app. right. by left.
  - rewrite fmap_app. apply StronglySorted_app. split_and!; [|apply Hok|repeat constructor].
    intros x y Hx ->%list_elem_of_singleton. apply list_elem_of_fmap in Hx as (a & -> & Ha).
    pose proof (lo_announced _ _ _ Hok) as Hann. rewrite Forall_forall in Hann. destruct (Hann a Ha) as (m' & Hm' & _ & <-).
    by eapply newest_above.
Qed.
(** A new manifest, when nothing is pending. *)
Lemma log_ok_insert bound q anns ms m :
  log_ok bound anns ms → below q ms → 0 ≤ q → Forall (λ m, ¬ is_pending m) ms → content (mf_cid m) = kind q → mf_ipns_sequence m = q →
  log_ok (Some q) anns (ms ++ [m]) ∧ newest (mf_cid m) q (ms ++ [m]).
Proof.
  intros Hok Hlt Hq Hnp Hc Hseq. split; [|by exists ms, m]. split; try by apply Hok.
  - intros x [Hx| ->%list_elem_of_singleton]%elem_of_app; [by eapply lo_content|by rewrite Hseq].
  - intros x [Hx| ->%list_elem_of_singleton]%elem_of_app; exists q; (split; [done|]).
    + destruct (lo_within _ _ _ Hok x Hx) as (v & _ & ?). specialize (Hlt x Hx). lia.
    + rewrite Hseq. lia.
  - rewrite fmap_app. apply StronglySorted_app. split_and!; [|apply Hok|repeat constructor].
    intros x y (m' & -> & Hm')%list_elem_of_fmap ->%list_elem_of_singleton. rewrite Hseq. by apply Hlt.
  - intros l x l' Heq Hp. destruct l' as [|y l'] using rev_ind; [done|]. exfalso.
    rewrite app_comm_cons, app_assoc in Heq. apply app_inj_2 in Heq as [Heq _]; [|done].
    rewrite Forall_forall in Hnp. apply (Hnp x); [|done]. rewrite Heq. apply elem_of_app. right. by left.
  - eapply Forall_impl; [by eapply lo_announced|]. intros a (m' & Hm' & ?). exists m'. split; [apply elem_of_app; by left|done].
Qed.
Lemma rejects_pending {K} `{CidCrate} channel (t : ChannelTables K) u :
  reject_unresolved_pending channel t = Ok u → Forall (λ m, ¬ is_pending m) (ch_manifests t).
Proof.
  unfold reject_unresolved_pending. intros Hr. apply Forall_forall. intros m Hm Hp.
  destruct (filter is_pending (ch_manifests t)) as [|m' ms] eqn:Hf; [|by apply bind_Ok in Hr as (? & _ & ?)].
  apply (not_elem_of_nil m). rewrite <- Hf. by apply list_elem_of_filter.
Qed.
End log.

(** ** The two channels of the audit tables *)
Section tables.
Context `{CidCrate} (content : string → CidContent).
Implicit Types (db : AuditDb) (anns : list (string * Z)) (bp bi : option Z).

Abbreviation poi_log bp anns db := (log_ok content PoiManifestContent bp (filter (λ a, is_poi (content a.1)) anns) (ch_manifests (au_poi db))).
Abbreviation indexed_log bi anns db :=
  (log_ok content IndexedManifestContent bi (filter (λ a, is_indexed (content a.1)) anns) (ch_manifests (au_indexed db))).
Record tables_ok bp bi anns db : Prop := {
  to_artifacts c : c ∈ artifact_cids db → content c = ArtifactContent ∧ canonical c;
  to_poi : poi_log bp anns db;
  to_indexed : indexed_log bi anns db;
  (** what is announced is a manifest *)
  to_manifest : Forall (λ a, is_poi (content a.1) ∨ is_indexed (content a.1)) anns;
}.

Record evolves db db' : Prop := {
  ev_indexed : Forall2 same_manifest (ch_manifests (au_indexed db)) (ch_manifests (au_indexed db'));
  ev_poi : Forall2 same_manifest (ch_manifests (au_poi db)) (ch_manifests (au_poi db'));
  ev_artifacts c : c ∈ artifact_cids db' → c ∈ artifact_cids db ∨ content c = ArtifactContent ∧ canonical c;
}.
Lemma evolves_refl db : evolves db db.
Proof. split; [apply same_manifests_refl..|by left]. Qed.
Lemma evolves_debts db m : evolves db (with_debts db m).
Proof. split; [apply same_manifests_refl..|by left]. Qed.

Lemma tables_ok_evolves bp bi anns db db' : evolves db db' → tables_ok bp bi anns db → tables_ok bp bi anns db'.
Proof.
  intros [Hi Hp Ha] [Hart Hpoi Hind Han]. split; [|by eapply log_ok_evolves..|done]. intros c [Hc|Hc]%Ha; [by apply Hart|done].
Qed.
Lemma tables_ok_debts bp bi anns db m : tables_ok bp bi anns db → tables_ok bp bi anns (with_debts db m).
Proof. apply tables_ok_evolves, evolves_debts. Qed.
Lemma tables_ok_within bp bi bp' bi' anns db :
  within bp' (ch_manifests (au_poi db)) → within bi' (ch_manifests (au_indexed db)) → tables_ok bp bi anns db → tables_ok bp' bi' anns db.
Proof. intros Hp Hi [Ha Hpoi Hind Han]. split; [done|by eapply log_ok_within..|done]. Qed.

(** Announcing on one channel. *)
Lemma tables_ok_announce_poi bp bi anns db c q :
  tables_ok bp bi anns db → newest c q (ch_manifests (au_poi db)) → tables_ok bp bi (anns ++ [(c, q)]) db.
Proof.
  intros [Ha Hpoi Hind Han] Hn. pose proof (newest_content _ _ _ _ _ _ _ Hpoi Hn) as Hc. split; [done| | |].
  - rewrite filter_app, (filter_cons_True _ (c, q)), filter_nil by (cbn; by rewrite Hc). by apply log_ok_announce.
  - rewrite filter_app, (filter_cons_False _ (c, q)), filter_nil, app_nil_r; [done|]. cbn. rewrite Hc. by intros [].
  - apply Forall_app_2, Forall_singleton; [done|]. cbn. rewrite Hc. by left.
Qed.
Lemma tables_ok_announce_indexed bp bi anns db c q :
  tables_ok bp bi anns db → newest c q (ch_manifests (au_indexed db)) → tables_ok bp bi (anns ++ [(c, q)]) db.
Proof.
  intros [Ha Hpoi Hind Han] Hn. pose proof (newest_content _ _ _ _ _ _ _ Hind Hn) as Hc. split; [done| | |].
  - rewrite filter_app, (filter_cons_False _ (c, q)), filter_nil, app_nil_r; [done|]. cbn. rewrite Hc. by intros [].
  - rewrite filter_app, (filter_cons_True _ (c, q)), filter_nil by (cbn; by rewrite Hc). by apply log_ok_announce.
  - apply Forall_app_2, Forall_singleton; [done|]. cbn. rewrite Hc. by right.
Qed.

(** An artifact is no manifest, and a manifest whose sequence is new is not
    recorded. *)
Lemma artifact_no_manifest bp bi anns db c : tables_ok bp bi anns db → content c = ArtifactContent → c ∉ manifest_cids db.
Proof.
  intros Hok Hc. unfold manifest_cids. rewrite elem_of_app, !list_elem_of_fmap. intros [(m & -> & Hm)|(m & -> & Hm)].
  - by rewrite (lo_content _ _ _ _ _ (to_indexed _ _ _ _ Hok) m Hm) in Hc.
  - by rewrite (lo_content _ _ _ _ _ (to_poi _ _ _ _ Hok) m Hm) in Hc.
Qed.
Lemma new_poi_unrecorded bp bi anns w c q :
  tables_ok bp bi anns (w_db w) → content c = PoiManifestContent q → below q (ch_manifests (au_poi (w_db w))) → unrecorded w c.
Proof.
  intros Hok Hc Hb. split; [|intros [Ha _]%(to_artifacts _ _ _ _ Hok); congruence].
  unfold manifest_cids. rewrite elem_of_app, !list_elem_of_fmap. intros [(m & -> & Hm)|(m & -> & Hm)].
  - by rewrite (lo_content _ _ _ _ _ (to_indexed _ _ _ _ Hok) m Hm) in Hc.
  - rewrite (lo_content _ _ _ _ _ (to_poi _ _ _ _ Hok) m Hm) in Hc. injection Hc as Hc. specialize (Hb m Hm). lia.
Qed.
Lemma new_indexed_unrecorded bp bi anns w c q :
  tables_ok bp bi anns (w_db w) → content c = IndexedManifestContent q → below q (ch_manifests (au_indexed (w_db w))) → unrecorded w c.
Proof.
  intros Hok Hc Hb. split; [|intros [Ha _]%(to_artifacts _ _ _ _ Hok); congruence].
  unfold manifest_cids. rewrite elem_of_app, !list_elem_of_fmap. intros [(m & -> & Hm)|(m & -> & Hm)].
  - rewrite (lo_content _ _ _ _ _ (to_indexed _ _ _ _ Hok) m Hm) in Hc. injection Hc as Hc. specialize (Hb m Hm). lia.
  - by rewrite (lo_content _ _ _ _ _ (to_poi _ _ _ _ Hok) m Hm) in Hc.
Qed.

Lemma initial_tables bp bi pins faults now : tables_ok bp bi [] (w_db (initial_world pins faults now)).
Proof. split; [by intros c Hc%not_elem_of_nil|apply log_ok_nil..|constructor]. Qed.
End tables.

(** ** The world of the publishers *)
Section inv.
Context `{CidCrate} `{ManifestCrate} `{PoiV4Crate}.
Context (text_leb : string → string → bool) (pin_cid : bytes → Cid) (audit_error : AuditError → string) (service_name : string).
Context (content : string → CidContent).
Implicit Types w : World.

Definition tables_inv (bp bi : option Z) w : Prop := tables_ok content bp bi (w_ipns w) (w_db w).
Definition pub_inv (bp bi : option Z) w : Prop := world_ok w ∧ tables_inv bp bi w.
Lemma pub_inv_faults bp bi w bs : pub_inv bp bi w → pub_inv bp bi (set_faults w bs).
Proof. by intros [[Hok Hact] Ht]. Qed.

(** [m] keeps the invariant, whatever is reserved. *)
Definition safe {A} (m : Pub A) : Prop := ∀ bp bi, hoare (pub_inv bp bi) m (λ _, True).
Lemma safe_readonly {A} (m : Pub A) : readonly m → safe m.
Proof. intros Hm bp bi w Hw. destruct (Hm w) as [bs ->]. split; [by apply pub_inv_faults|done]. Qed.
Lemma safe_ret {A} (a : A) : safe (mret a).
Proof. intros bp bi. by apply hoare_ret. Qed.
Lemma safe_fail {A} e : safe (fail (A := A) e).
Proof. intros bp bi. apply hoare_fail. Qed.
Lemma safe_lift {A} (r : result string A) : safe (lift r).
Proof. apply safe_readonly, readonly_lift. Qed.
Lemma safe_bind {A B} (m : Pub A) (k : A → Pub B) : safe m → (∀ a, safe (k a)) → safe (m ≫= k).
Proof. intros Hm Hk bp bi. apply hoare_seq; [apply Hm|]. intros a. apply Hk. Qed.
(** The answer of a computation is used. *)
Lemma safe_lift_bind {A B} (r : result string A) (k : A → Pub B) : (∀ a, r = Ok a → safe (k a)) → safe (lift r ≫= k).
Proof. intros Hk bp bi. eapply hoare_bind; [apply hoare_lift|]. intros a Ha. by apply Hk. Qed.
Lemma safe_try {A} (m : Pub A) : safe m → safe (try m).
Proof. intros Hm bp bi. eapply hoare_true, hoare_try, Hm. Qed.

Lemma hoare_tables {A} bp bi (m : Pub A) P :
  preserves w_ipns m → (∀ anns, hoare (λ w, tables_ok content bp bi anns (w_db w)) m P) → hoare (tables_inv bp bi) m P.
Proof. intros Hm Ht w Hw. destruct (Ht (w_ipns w) w Hw). unfold tables_inv. by rewrite Hm. Qed.
(** A transaction that only changes states. *)
Lemma transaction_tables {A} bp bi (f : AuditDb → Z → result string (A * AuditDb)) :
  (∀ db now a db', f db now = Ok (a, db') → evolves content db db') → hoare (tables_inv bp bi) (db_transaction f) (λ _, True).
Proof.
  intros Hf. apply hoare_tables; [apply ipns_transaction|]. intros anns. eapply hoare_true, keeps_transaction.
  intros db now a db' Hdb Hr. eapply tables_ok_evolves; [by eapply Hf|done].
Qed.

(** Announcing the newest manifest and activating it; [ms] are the rows of a
    channel. *)
Lemma wp_announce {A} bp bi c q (k : Pub A) w :
  tables_inv bp bi w → newest c q (ch_manifests (au_poi (w_db w))) ∨ newest c q (ch_manifests (au_indexed (w_db w))) →
  hoare (tables_inv bp bi) k (λ _, True) →
  wp (_ ← ipns_publish c q; _ ← ensure_publication_running; k) (λ _, tables_inv bp bi) w.
Proof.
  intros Ht Hn Hk. apply pub_bind, wp_ipns_publish; [done|]. intros bs. apply pub_bind, wp_readonly; [apply readonly_running|].
  assert (tables_ok content bp bi (w_ipns w ++ [(c, q)]) (w_db w)) as Ht'
    by (destruct Hn; [by apply tables_ok_announce_poi|by apply tables_ok_announce_indexed]).
  intros [[]|e] bs'; [|done]. eapply pub_mono; [by apply (hoare_wp _ _ _ _ Hk)|by intros r w' [? _]].
Qed.

(** Pinning a manifest: the rows stay as they are, or the new row is added. *)
Lemma wp_cleanup_tables {A} bp bi anns e cid (Q : A → World → Prop) w :
  tables_ok content bp bi anns (w_db w) →
  wp (_ ← cleanup_uncommitted_pin_while_locked audit_error service_name cid; fail (A := A) e)
    (λ r w', match r with Ok a => Q a w' | Err _ => tables_ok content bp bi anns (w_db w') end) w.
Proof.
  intros Ht. apply pub_bind. eapply pub_mono; [apply (hoare_wp _ _ _ _ (keeps_cleanup audit_error service_name
    (tables_ok content bp bi anns) (λ db m Hdb, tables_ok_debts content _ _ _ db m Hdb) cid) Ht)|]. by intros [[]|e'] w2 [? _].
Qed.
Lemma wp_record_tables {A} bp bi bp' bi' anns cid (f : AuditDb → Z → result string (A * AuditDb)) (P : AuditDb → Prop) w :
  (∀ db, tables_ok content bp bi anns db → tables_ok content bp' bi' anns db) →
  tables_ok content bp bi anns (w_db w) →
  (∀ now a db', f (w_db w) now = Ok (a, db') → tables_ok content bp' bi' anns db' ∧ P db') →
  wp (record_owned audit_error service_name cid true f)
    (λ r w', tables_ok content bp' bi' anns (w_db w') ∧ ∀ a, r = Ok a → P (w_db w')) w.
Proof.
  intros Hup Ht Hf. unfold record_owned. apply pub_bind, wp_try, wp_transaction.
  - intros e w2 (Hdb2 & _). eapply pub_mono; [apply (wp_cleanup_tables bp' bi' anns _ _ (λ _ _, False)); rewrite Hdb2; by apply Hup|].
    by intros [u|e'] w3.
  - intros u db w2 [Ht' HP]%Hf Hq2. split.
    + intros e. eapply pub_mono; [by apply (wp_cleanup_tables bp' bi' anns _ _ (λ _ _, False))|]. by intros [u'|e'] w3.
    + by apply pub_bind, pub_ret.
Qed.

(** ** The sweep beside the publishers *)
Lemma mark_unpinned_evolves db swept_at cutoff c : evolves content db (mark_unpinned db swept_at cutoff c).
Proof.
  split; [cbn; apply same_manifests_update; [|apply same_manifests_refl]; intros m; split_and!; [done..|]; by intros (_ & _ & ? & _)..|].
  intros x Hx. left. unfold artifact_cids in *. cbn in Hx. by rewrite !fmap_update_where in Hx.
Qed.
Lemma wp_readonly_faults {A} bp bi (k : bool → bool → bool → Pub A) w :
  tables_inv bp bi w → (∀ failed lost applied w', tables_inv bp bi w' → wp (k failed lost applied) (λ _, tables_inv bp bi) w') →
  wp (_ ← guarded "database operation failed" (mret tt); failed ← fault; lost ← fault; applied ← fault; k failed lost applied) (λ _, tables_inv bp bi) w.
Proof.
  intros Ht Hk. apply pub_bind, wp_readonly; [apply readonly_guarded, readonly_ret|]. intros [u|e] bs1; [|done].
  apply pub_bind, wp_readonly; [apply readonly_fault|]. intros [failed|e] bs2; [|done].
  apply pub_bind, wp_readonly; [apply readonly_fault|]. intros [lost|e] bs3; [|done].
  apply pub_bind, wp_readonly; [apply readonly_fault|]. intros [applied|e] bs4; [|done]. by apply Hk.
Qed.
Lemma after_sweep_tables bp bi lost applied w r :
  evolves content (w_db w) (sw_db r.2) → tables_inv bp bi w → tables_inv bp bi (after_sweep audit_error lost applied w r).2.
Proof. intros He Ht. unfold after_sweep. cbn. destruct (lost && negb applied); [exact Ht|]. by eapply tables_ok_evolves; [|exact Ht]. Qed.
Lemma sweep_tables bp bi cutoff swept_at c w :
  tables_inv bp bi w → wp (locked_sweep audit_error cutoff swept_at c) (λ _, tables_inv bp bi) w.
Proof.
  intros Ht0. apply wp_readonly_faults; [done|]. clear Ht0. intros failed lost applied w' Ht. unfold wp, act.
  set (r := sweep_cid _ _ _ _ _). enough (evolves content (w_db w') (sw_db r.2)) as He.
  { pose proof (after_sweep_tables bp bi lost applied w' r He Ht) as Ht'. cbn [after_sweep fst snd] in *. by destruct (lost && negb applied). }
  unfold r, sweep_cid. cbn [sw_db]. destruct (parse_cid c); [|apply evolves_refl].
  case_decide; [|apply evolves_refl]. destruct failed; [apply evolves_refl|apply mark_unpinned_evolves].
Qed.
Lemma retry_tables bp bi c w : tables_inv bp bi w → wp (locked_retry audit_error c) (λ _, tables_inv bp bi) w.
Proof.
  intros Ht0. apply wp_readonly_faults; [done|]. clear Ht0. intros failed lost applied w' Ht. unfold wp, act.
  destruct (pin_cleanup_debt (w_db w') !! c) as [d|]; [|done]. apply after_sweep_tables; [|done]. unfold retry_debt. cbn [sw_db].
  destruct (parse_cid c); [|apply evolves_refl]. destruct (publication_cid_is_referenced _ _); [apply evolves_debts|].
  unfold unpin_answer. destruct failed; [|apply evolves_debts]. destruct (checked_add _ _ _); [apply evolves_debts|apply evolves_refl].
Qed.
End inv.
