(* ===== verification/Catalog.v ===== *)
(** * Catalogs of the chain-indexed publisher ([chain_indexed.rs])

    A publication cycle reads each dataset of a chain up to its indexed block,
    cuts the rows into chunks, pins the chunks that are not pinned yet, and
    pins a catalog that lists them. The chain tables are a fixed snapshot: rows
    up to the watermark only change by a reorganisation, which the validation
    of the watermark at the end detects. How the planner groups units into
    chunks is the artifact crate's business; what is used of it is that a plan
    consists of the units in order. *)

From stdpp Require Import pretty.
From S2P Require Import Prelude Order Wire Ipfs Artifacts CommitmentChunk MerkleCheckpointChunk WalletScanChunk PublicTxidChunk ChainLogs PoiStore ChainStore StoreQueries AuditLog Retention Publication.

Record PlannedChunk := mkPlanned { planned_range : IndexedArtifactRange; planned_row_count : Z }.

(** A planned chunk spans a group of consecutive units. *)
Definition plans (planned : PlannedChunk) (group : list ChunkPlanItem) : Prop :=
  match group with
  | [] => False
  | first :: rest =>
      range_start (planned_range planned) = range_start (plan_range first) ∧
      range_end (planned_range planned) = range_end (plan_range (default first (last rest))) ∧
      planned_row_count planned = foldr Z.add 0 (plan_row_count <$> group)
  end.

Record LatestIndexedHeight := mkHeight {
  lh_dataset_kind : Artifacts.IndexedDatasetKind;
  lh_block_number : Z;
  lh_block_hash : Z;
}.
Record IndexedArtifactCatalog := mkCatalog {
  cat_dataset_kind : Artifacts.IndexedDatasetKind;
  cat_scope : ChainScope;
  cat_chunks : list IndexedArtifactDescriptor;
}.
Record IndexedArtifactChainEntry := mkEntry {
  en_scope : ChainScope;
  en_latest_indexed : list LatestIndexedHeight;
  en_catalogs : list IndexedArtifactDescriptor;
}.

(** The artifact crate's planner and catalog document. *)
Class CatalogCrate := {
  INDEXED_ARTIFACT_CATALOG_FORMAT_VERSION : Z;
  plan_chunks : list ChunkPlanItem → result string (list PlannedChunk);
  plan_chunks_groups items planned :
    plan_chunks items = Ok planned → ∃ groups, concat groups = items ∧ Forall2 plans planned groups;
  (** [IndexedArtifactCatalog::new] *)
  catalog_new : Artifacts.IndexedDatasetKind → ChainScope → list IndexedArtifactDescriptor → IndexedArtifactCatalog;
  deterministic_body_bytes : IndexedArtifactCatalog → result string bytes;
}.

(** What the publisher reads of the configuration. *)
Record ChainIndexedChainConfig := mkChainConfig {
  cfg_chain_id : Z;
  cfg_railgun_contract : Z;
  cfg_start_block : Z;
  cfg_datasets : list Artifacts.IndexedDatasetKind;
  cfg_omissions : list PublicTxidCompatibilityOmission;
}.

Inductive CatalogCoverage :=
  | DerivedFromChunks
  | ExplicitBlockRange (start_block indexed_through_block : Z).

Definition EVM_CHAIN_TYPE : Z := 0.
Definition PUBLIC_TXID_PLANNING_ROW_UNIT : nat := 1000.
Definition COMMITMENT_PLANNING_ROW_UNIT : nat := 1000.
Definition WALLET_SCAN_PLANNING_BLOCK_SPAN : Z := 100.

(** A [for] loop in the publication monad. *)
Fixpoint pub_fold {S A} (f : S → A → Pub S) (s : S) (l : list A) : Pub S :=
  match l with
  | [] => mret s
  | a :: l => s ← f s a; pub_fold f s l
  end.

(** ** The catalog descriptor *)
Section catalogs.
Context `{ArtifactCrate} `{TreeCrate} `{TxidCrate} `{PoiTypes} `{CidCrate} `{ManifestCrate} `{CatalogCrate}.

Definition chunk_leb (a b : IndexedArtifactDescriptor) : bool :=
  match then_with (Z.compare (range_start (desc_range a)) (range_start (desc_range b)))
    (then_with (Z.compare (range_end (desc_range a)) (range_end (desc_range b))) (String.compare (desc_cid a) (desc_cid b))) with
  | Gt => false | _ => true
  end.

Definition out_of_coverage (start_block indexed_through_block : Z) (d : IndexedArtifactDescriptor) : Prop :=
  range_kind (desc_range d) ≠ Block ∨ range_start (desc_range d) < start_block ∨ indexed_through_block < range_end (desc_range d).
#[export] Instance out_of_coverage_dec s e d : Decision (out_of_coverage s e d) := ltac:(unfold out_of_coverage; apply _).

(** The range of a catalog: that of its chunks, or the covered blocks. *)
Definition catalog_range (catalog : IndexedArtifactCatalog) (chunks : list IndexedArtifactDescriptor) (coverage : CatalogCoverage)
    : result string IndexedArtifactRange :=
  match coverage with
  | DerivedFromChunks =>
      first ← ok_or (head chunks) "indexed artifact catalog cannot be empty"%string;
      let last_chunk := default first (last chunks) in
      if decide (Exists (λ d, range_kind (desc_range d) ≠ range_kind (desc_range first)) chunks)
      then Err "indexed artifact catalog chunks have mixed range kind"%string
      else Ok (mkRange (range_kind (desc_range first)) (range_start (desc_range first)) (range_end (desc_range last_chunk)))
  | ExplicitBlockRange start_block indexed_through_block =>
      if decide (cat_dataset_kind catalog ≠ WalletScan)
      then Err "explicit block coverage is only supported for wallet-scan catalogs"%string
      else if decide (indexed_through_block < start_block) then Err "coverage start exceeds indexed-through block"%string
      else if decide (Exists (out_of_coverage start_block indexed_through_block) chunks)
      then Err "indexed artifact catalog chunk is outside explicit block coverage"%string
      else Ok (mkRange Block start_block indexed_through_block)
  end.

Definition catalog_descriptor (catalog : IndexedArtifactCatalog) (cid : string) (byte_size : Z) (hash : bytes)
    (coverage : CatalogCoverage) : result string IndexedArtifactDescriptor :=
  let chunks := sort_by chunk_leb (cat_chunks catalog) in
  if decide (Exists (λ d, desc_dataset_kind d ≠ cat_dataset_kind catalog ∨ desc_scope d ≠ cat_scope catalog) chunks)
  then Err "indexed artifact catalog chunks have mixed dataset or scope"%string
  else
    range ← catalog_range catalog chunks coverage;
    row_count ← try_fold (λ total d, ok_or (checked_add u64_max total (desc_row_count d)) "indexed catalog row count overflow"%string) 0 chunks;
    let last_indexed_block := max_list (omap (λ d, meta_last_indexed_block (desc_metadata d)) chunks) in
    let start_block := min_list (omap (λ d, meta_start_block (desc_metadata d)) chunks) in
    let end_block := max_list (omap (λ d, meta_end_block (desc_metadata d)) chunks) in
    let metadata :=
      match coverage with
      | DerivedFromChunks => mkMetadata None last_indexed_block None None start_block end_block last_indexed_block
      | ExplicitBlockRange s e => mkMetadata None (Some e) None None (Some s) (Some e) (Some e)
      end in
    Ok (mkDescriptor (cat_dataset_kind catalog) (cat_scope catalog) range row_count cid hash byte_size
          INDEXED_ARTIFACT_CATALOG_FORMAT_VERSION CompressionNone metadata).

Definition prepare_catalog_artifact (scope : ChainScope) (dataset_kind : Artifacts.IndexedDatasetKind)
    (chunks : list IndexedArtifactDescriptor) (coverage : CatalogCoverage)
    : result string (IndexedArtifactCatalog * bytes * bytes * IndexedArtifactDescriptor) :=
  let catalog := catalog_new dataset_kind scope chunks in
  catalog_bytes ← deterministic_body_bytes catalog;
  byte_size ← ok_or (try_from_len u64_max (length catalog_bytes)) "indexed artifact catalog byte size overflow"%string;
  let catalog_hash := content_hash catalog_bytes in
  descriptor ← catalog_descriptor catalog "" byte_size catalog_hash coverage;
  Ok (catalog, catalog_bytes, catalog_hash, descriptor).

(** ** Planning units *)
Definition public_txid_chunk_row_limit (offset configured_limit : Z) : Z :=
  Z.min configured_limit (TREE_LEAF_COUNT - offset `mod` TREE_LEAF_COUNT).

Definition latest_indexed_block (latest_indexed : list LatestIndexedHeight) (dataset_kind : Artifacts.IndexedDatasetKind) : option Z :=
  (λ h, lh_block_number h.2) <$> list_find (λ h, lh_dataset_kind h = dataset_kind) latest_indexed.

Definition public_txid_plan_items (scope : ChainScope) (rows : list StoredPublicTxidRow)
    : result (PublicTxidChunkError Cid) (list ChunkPlanItem) :=
  try_map (λ rows, public_txid_chunk_plan_item scope rows Zstd) (chunks PUBLIC_TXID_PLANNING_ROW_UNIT rows).
Definition commitment_plan_items (scope : ChainScope) (rows : list StoredCommitmentRow)
    : result (CommitmentChunkError Cid) (list ChunkPlanItem) :=
  try_map (λ rows, commitment_chunk_plan_item scope rows Zstd) (chunks COMMITMENT_PLANNING_ROW_UNIT rows).

Definition store_dataset_kind (dataset : Artifacts.IndexedDatasetKind) : ChainStore.IndexedDatasetKind :=
  match dataset with
  | WalletScan => DWalletScan | Commitments => DCommitments | MerkleCheckpoint => DMerkleCheckpoint | PublicTxid => DPublicTxid
  end.

Definition validate_publication_watermark (height : LatestIndexedHeight) (header : option StoredIndexedBlockHeader) : result string unit :=
  match header with
  | None => Err "chain-indexed publication watermark was rewound during publication"%string
  | Some header =>
      if decide (hd_block_hash header ≠ lh_block_hash height)
      then Err "chain-indexed publication watermark changed during publication"%string else Ok tt
  end.

(** ** The publisher *)
Context (pin_cid : bytes → Cid) (audit_error : AuditError → string) (service_name : string).
(** the rendering of the errors of the store and of the encoders *)
Context (store_error : StoreError → string) (txid_error : PublicTxidChunkError Cid → string).
Context (commitment_error : CommitmentChunkError Cid → string) (wallet_error : WalletScanChunkError Cid → string).
Context (checkpoint_error : MerkleCheckpointArtifactError Cid → string).
(** the chain tables, and the configured row limits *)
Context (db : ChainDb) (txid_row_limit commitment_row_limit : Z).

Definition store_read {A} (query : sresult A) : Pub A := guarded "database operation failed" (lift (map_err store_error query)).

Definition reuse_or_pin_chunk (descriptor : IndexedArtifactDescriptor) (compressed_bytes : bytes) : Pub IndexedArtifactDescriptor :=
  cid ← reuse_or_pin_indexed_artifact pin_cid audit_error service_name AuditLog.Chunk (desc_dataset_kind descriptor)
    (desc_scope descriptor) (desc_range descriptor) (desc_byte_size descriptor) (desc_sha256 descriptor)
    (desc_encoding_version descriptor) compressed_bytes;
  mret (set_cid descriptor cid).

Record PublishedCatalog := mkPublishedCatalog { pc_descriptor : IndexedArtifactDescriptor; pc_artifact_cids : list string }.

Definition publish_catalogs (scope : ChainScope) (dataset_kind : Artifacts.IndexedDatasetKind)
    (chunks : list IndexedArtifactDescriptor) (coverage : CatalogCoverage) : Pub (list PublishedCatalog) :=
  match chunks, coverage with
  | [], DerivedFromChunks => mret []
  | _, _ =>
      '(catalog, catalog_bytes, catalog_hash, descriptor) ← lift (prepare_catalog_artifact scope dataset_kind chunks coverage);
      _ ← lift (try_fold (λ total d, ok_or (checked_add u64_max total (desc_byte_size d))
             "indexed artifact chunk byte size overflow"%string) 0 (cat_chunks catalog));
      cid ← reuse_or_pin_indexed_artifact pin_cid audit_error service_name AuditLog.Catalog (desc_dataset_kind descriptor)
        (desc_scope descriptor) (desc_range descriptor) (desc_byte_size descriptor) catalog_hash
        (desc_encoding_version descriptor) catalog_bytes;
      mret [mkPublishedCatalog (set_cid descriptor cid) ((desc_cid <$> cat_chunks catalog) ++ [cid])]
  end.

(** *** Public TXIDs *)
Definition txid_rows (chain : ChainIndexedChainConfig) (offset limit max_block : Z) : sresult (list StoredPublicTxidRow) :=
  published_public_txid_rows_through_block db EVM_CHAIN_TYPE (cfg_chain_id chain) (cfg_railgun_contract chain) offset limit max_block
    (cfg_omissions chain).

Definition validate_public_txid_compatibility_omissions (chain : ChainIndexedChainConfig) (max_block : Z) : Pub unit :=
  pub_fold (λ _ omission,
    if decide (max_block < om_block_number omission) then mret tt
    else
      match_count ← store_read (public_txid_compatibility_omission_match_count db EVM_CHAIN_TYPE (cfg_chain_id chain)
        (cfg_railgun_contract chain) omission);
      if decide (match_count ≠ 1) then fail "public TXID compatibility omission does not match exactly one row" else mret tt)
    tt (cfg_omissions chain).

Definition publisher_checkpoint_root (chain : ChainIndexedChainConfig) (rows : list StoredPublicTxidRow) (max_block : Z) : Pub bytes :=
  last_row ← lift (ok_or (last rows) "public TXID checkpoint root requires rows"%string);
  let tree_start := pt_txid_index last_row `div` TREE_LEAF_COUNT * TREE_LEAF_COUNT in
  row_count ← lift (ok_or (count ← checked_sub (pt_txid_index last_row) tree_start; checked_add u64_max count 1)
    "public TXID checkpoint range overflow"%string);
  checkpoint_rows ← store_read (txid_rows chain tree_start row_count max_block);
  lift (map_err txid_error (public_txid_checkpoint_root checkpoint_rows)).

Definition publish_txid_chunk (chain : ChainIndexedChainConfig) (scope : ChainScope) (max_block : Z)
    (st : Z * list IndexedArtifactDescriptor) (planned : PlannedChunk) : Pub (Z * list IndexedArtifactDescriptor) :=
  chunk_rows ← store_read (txid_rows chain (range_start (planned_range planned)) (planned_row_count planned) max_block);
  checkpoint_root ← publisher_checkpoint_root chain chunk_rows max_block;
  published ← lift (map_err txid_error (prepare_public_txid_chunk scope chunk_rows checkpoint_root Zstd));
  descriptor ← reuse_or_pin_chunk (published_descriptor published) (published_bytes published);
  mret (saturating_add u64_max (range_end (desc_range descriptor)) 1, st.2 ++ [descriptor]).

(** The loop; [None] is out of fuel. *)
Fixpoint publish_txid_chunks (fuel : nat) (chain : ChainIndexedChainConfig) (scope : ChainScope) (max_block offset : Z)
    (done : list IndexedArtifactDescriptor) : Pub (option (list IndexedArtifactDescriptor)) :=
  match fuel with
  | O => mret None
  | S fuel =>
      let row_limit := public_txid_chunk_row_limit offset txid_row_limit in
      rows ← store_read (txid_rows chain offset row_limit max_block);
      if decide (rows = []) then mret (Some done)
      else
        plan_items ← lift (map_err txid_error (public_txid_plan_items scope rows));
        planned ← lift (plan_chunks plan_items);
        '(offset, done) ← pub_fold (publish_txid_chunk chain scope max_block) (offset, done) planned;
        if decide (Z.of_nat (length rows) < row_limit) then mret (Some done)
        else publish_txid_chunks fuel chain scope max_block offset done
  end.

Definition publish_public_txid_catalog (fuel : nat) (chain : ChainIndexedChainConfig) (scope : ChainScope) (max_block : Z)
    : Pub (option (list PublishedCatalog)) :=
  _ ← validate_public_txid_compatibility_omissions chain max_block;
  chunks ← publish_txid_chunks fuel chain scope max_block 0 [];
  match chunks with
  | None => mret None
  | Some chunks => catalogs ← publish_catalogs scope PublicTxid chunks DerivedFromChunks; mret (Some catalogs)
  end.

(** *** Wallet scans *)
Definition wallet_rows (chain : ChainIndexedChainConfig) (start_block end_block : Z) : sresult StoredWalletScanRows :=
  wallet_scan_rows db EVM_CHAIN_TYPE (cfg_chain_id chain) (cfg_railgun_contract chain) start_block end_block.
(** [StoredWalletScanRows::is_empty] *)
Definition wallet_rows_empty (rows : StoredWalletScanRows) : Prop :=
  ws_transact_commitments rows = [] ∧ ws_shield_commitments rows = [] ∧ ws_nullifiers rows = [] ∧
  ws_legacy_encrypted_commitments rows = [] ∧ ws_legacy_generated_commitments rows = [].
#[export] Instance wallet_rows_empty_dec rows : Decision (wallet_rows_empty rows).
Proof. destruct rows as [[] [] [] [] []]; first [left; done | right; by intros (? & ? & ? & ? & ?)]. Defined.

Definition wallet_plan_item (chain : ChainIndexedChainConfig) (scope : ChainScope) (items : list ChunkPlanItem) (range : StoredBlockRange)
    : Pub (list ChunkPlanItem) :=
  rows ← store_read (wallet_rows chain (br_start_block range) (br_end_block range));
  if decide (wallet_rows_empty rows) then mret items
  else
    item ← lift (map_err wallet_error (wallet_scan_chunk_plan_item scope (br_start_block range) (br_end_block range) rows Zstd));
    mret (items ++ [item]).
Definition wallet_scan_plan_items (chain : ChainIndexedChainConfig) (scope : ChainScope) (start_block end_block : Z) : Pub (list ChunkPlanItem) :=
  ranges ← store_read (wallet_scan_populated_block_ranges db EVM_CHAIN_TYPE (cfg_chain_id chain) (cfg_railgun_contract chain)
    start_block end_block WALLET_SCAN_PLANNING_BLOCK_SPAN);
  pub_fold (wallet_plan_item chain scope) [] ranges.

Definition publish_wallet_chunk (chain : ChainIndexedChainConfig) (scope : ChainScope) (done : list IndexedArtifactDescriptor)
    (planned : PlannedChunk) : Pub (list IndexedArtifactDescriptor) :=
  let range := planned_range planned in
  rows ← store_read (wallet_rows chain (range_start range) (range_end range));
  if decide (wallet_rows_empty rows) then mret done
  else
    published ← lift (map_err wallet_error (prepare_wallet_scan_chunk scope (range_start range) (range_end range) rows Zstd));
    descriptor ← reuse_or_pin_chunk (published_descriptor published) (published_bytes published);
    mret (done ++ [descriptor]).

Definition publish_wallet_scan_chunks (chain : ChainIndexedChainConfig) (scope : ChainScope) (max_block : Z) : Pub (list IndexedArtifactDescriptor) :=
  plan_items ← wallet_scan_plan_items chain scope (cfg_start_block chain) max_block;
  planned ← lift (plan_chunks plan_items);
  pub_fold (publish_wallet_chunk chain scope) [] planned.
Definition publish_wallet_scan_catalog (chain : ChainIndexedChainConfig) (scope : ChainScope) (max_block : Z) : Pub (list PublishedCatalog) :=
  if decide (max_block < cfg_start_block chain) then mret []
  else
    chunks ← publish_wallet_scan_chunks chain scope max_block;
    publish_catalogs scope WalletScan chunks (ExplicitBlockRange (cfg_start_block chain) max_block).

(** *** Commitments *)
Definition tree_rows (chain : ChainIndexedChainConfig) (start_position end_position max_block : Z) : sresult (list StoredCommitmentRow) :=
  commitment_rows db EVM_CHAIN_TYPE (cfg_chain_id chain) (cfg_railgun_contract chain) start_position end_position (Some max_block).

(** The last global position of the summaries. *)
Definition summary_position (max_position : option Z) (summary : StoredCommitmentTreeSummary) : result string (option Z) :=
  last_position ← ok_or (checked_sub (ts_leaf_count summary) 1) "commitment tree summary has zero leaves"%string;
  tree_start ← ok_or (checked_mul u64_max (ts_tree_number summary) TREE_LEAF_COUNT) "commitment tree global position overflow"%string;
  global_position ← ok_or (checked_add u64_max tree_start last_position) "commitment tree global position overflow"%string;
  Ok (Some (match max_position with None => global_position | Some value => Z.max value global_position end)).

Definition publish_commitment_chunk (chain : ChainIndexedChainConfig) (scope : ChainScope) (max_block : Z)
    (st : Z * list IndexedArtifactDescriptor) (planned : PlannedChunk) : Pub (Z * list IndexedArtifactDescriptor) :=
  chunk_rows ← store_read (tree_rows chain (range_start (planned_range planned)) (range_end (planned_range planned)) max_block);
  published ← lift (map_err commitment_error (prepare_commitment_chunk scope chunk_rows Zstd));
  descriptor ← reuse_or_pin_chunk (published_descriptor published) (published_bytes published);
  mret (saturating_add u64_max (range_end (desc_range descriptor)) 1, st.2 ++ [descriptor]).

(** The loop; [None] is out of fuel. *)
Fixpoint publish_commitment_chunks (fuel : nat) (chain : ChainIndexedChainConfig) (scope : ChainScope) (max_block max_position start_position : Z)
    (done : list IndexedArtifactDescriptor) : Pub (option (list IndexedArtifactDescriptor)) :=
  match fuel with
  | O => mret None
  | S fuel =>
      if decide (max_position < start_position) then mret (Some done)
      else
        let end_position := Z.min (saturating_add u64_max start_position (saturating_sub commitment_row_limit 1)) max_position in
        rows ← store_read (tree_rows chain start_position end_position max_block);
        if decide (rows = []) then
          publish_commitment_chunks fuel chain scope max_block max_position (saturating_add u64_max end_position 1) done
        else
          plan_items ← lift (map_err commitment_error (commitment_plan_items scope rows));
          planned ← lift (plan_chunks plan_items);
          '(start_position, done) ← pub_fold (publish_commitment_chunk chain scope max_block) (start_position, done) planned;
          publish_commitment_chunks fuel chain scope max_block max_position start_position done
  end.

Definition summaries_of (chain : ChainIndexedChainConfig) (max_block : Z) : sresult (list StoredCommitmentTreeSummary) :=
  commitment_tree_summaries db EVM_CHAIN_TYPE (cfg_chain_id chain) (cfg_railgun_contract chain) (Some max_block).

Definition publish_commitment_catalog (fuel : nat) (chain : ChainIndexedChainConfig) (scope : ChainScope) (max_block : Z)
    : Pub (option (list PublishedCatalog)) :=
  summaries ← store_read (summaries_of chain max_block);
  max_position ← lift (try_fold summary_position None summaries);
  match max_position with
  | None => mret (Some [])
  | Some max_position =>
      chunks ← publish_commitment_chunks fuel chain scope max_block max_position 0 [];
      match chunks with
      | None => mret None
      | Some chunks => catalogs ← publish_catalogs scope Commitments chunks DerivedFromChunks; mret (Some catalogs)
      end
  end.

(** *** Merkle checkpoints *)
Definition publish_checkpoint (chain : ChainIndexedChainConfig) (scope : ChainScope) (max_block : Z)
    (done : list IndexedArtifactDescriptor) (summary : StoredCommitmentTreeSummary) : Pub (list IndexedArtifactDescriptor) :=
  checkpoint ← store_read (commitment_tree_checkpoint db EVM_CHAIN_TYPE (cfg_chain_id chain) (cfg_railgun_contract chain)
    summary (Some max_block));
  published ← lift (map_err checkpoint_error (prepare_merkle_checkpoint_artifact scope
    (mkCheckpoint (tk_tree_number checkpoint) (tk_leaf_count checkpoint) (tk_last_indexed_block checkpoint) (tk_leaves checkpoint)) Zstd));
  descriptor ← reuse_or_pin_chunk (published_descriptor published) (published_bytes published);
  mret (done ++ [descriptor]).
Definition publish_merkle_checkpoint_catalog (chain : ChainIndexedChainConfig) (scope : ChainScope) (max_block : Z) : Pub (list PublishedCatalog) :=
  summaries ← store_read (summaries_of chain max_block);
  chunks ← pub_fold (publish_checkpoint chain scope max_block) [] summaries;
  publish_catalogs scope MerkleCheckpoint chunks DerivedFromChunks.

(** *** The entry of a chain *)
Definition latest_indexed_heights (chain : ChainIndexedChainConfig) : Pub (list LatestIndexedHeight) :=
  pub_fold (λ latest dataset,
    progress ← store_read (chain_indexing_progress db EVM_CHAIN_TYPE (cfg_chain_id chain) (cfg_railgun_contract chain)
      (store_dataset_kind dataset));
    mret (match progress with
          | None => latest
          | Some p => latest ++ [mkHeight dataset (indexed_through_block p) (indexed_through_block_hash p)]
          end)) [] (cfg_datasets chain).

Definition validate_chain_snapshot (chain : ChainIndexedChainConfig) (latest_indexed : list LatestIndexedHeight) : Pub unit :=
  pub_fold (λ _ height,
    header ← store_read (indexed_block_header db EVM_CHAIN_TYPE (cfg_chain_id chain) (lh_block_number height));
    lift (validate_publication_watermark height header)) tt latest_indexed.
Definition validate_combined_manifest_snapshot (chains : list ChainIndexedChainConfig) (entries : list IndexedArtifactChainEntry) : Pub unit :=
  pub_fold (λ _ entry,
    match list_find (λ chain, cfg_chain_id chain = chain_id (en_scope entry) ∧ cfg_railgun_contract chain = railgun_contract (en_scope entry)) chains with
    | Some (_, chain) => validate_chain_snapshot chain (en_latest_indexed entry)
    | None => fail "combined indexed manifest contains unconfigured chain"
    end) tt entries.

Record PublishedChainEntry := mkPublishedEntry { pe_entry : IndexedArtifactChainEntry; pe_artifact_cids : list string }.

Definition publish_dataset (fuel : nat) (chain : ChainIndexedChainConfig) (scope : ChainScope) (dataset : Artifacts.IndexedDatasetKind)
    (max_block : Z) : Pub (option (list PublishedCatalog)) :=
  match dataset with
  | PublicTxid => publish_public_txid_catalog fuel chain scope max_block
  | WalletScan => catalogs ← publish_wallet_scan_catalog chain scope max_block; mret (Some catalogs)
  | Commitments => publish_commitment_catalog fuel chain scope max_block
  | MerkleCheckpoint => catalogs ← publish_merkle_checkpoint_catalog chain scope max_block; mret (Some catalogs)
  end.
(** [extend_published_catalogs]; the CIDs are a [BTreeSet], made one at the end. *)
Definition extend_published_catalogs (st : list IndexedArtifactDescriptor * list string) (published : list PublishedCatalog)
    : list IndexedArtifactDescriptor * list string :=
  (st.1 ++ (pc_descriptor <$> published), st.2 ++ concat (pc_artifact_cids <$> published)).

Fixpoint publish_datasets (fuel : nat) (chain : ChainIndexedChainConfig) (scope : ChainScope) (latest : list LatestIndexedHeight)
    (st : list IndexedArtifactDescriptor * list string) (datasets : list Artifacts.IndexedDatasetKind)
    : Pub (option (list IndexedArtifactDescriptor * list string)) :=
  match datasets with
  | [] => mret (Some st)
  | dataset :: datasets =>
      match latest_indexed_block latest dataset with
      | None => publish_datasets fuel chain scope latest st datasets
      | Some max_block =>
          published ← publish_dataset fuel chain scope dataset max_block;
          match published with
          | None => mret None
          | Some published => publish_datasets fuel chain scope latest (extend_published_catalogs st published) datasets
          end
      end
  end.
Definition publish_chain_entry (fuel : nat) (chain : ChainIndexedChainConfig) : Pub (option (option PublishedChainEntry)) :=
  let scope := mkScope Evm (cfg_chain_id chain) (cfg_railgun_contract chain) in
  latest ← latest_indexed_heights chain;
  published ← publish_datasets fuel chain scope latest ([], []) (cfg_datasets chain);
  match published with
  | None => mret None
  | Some (catalogs, artifact_cids) =>
      _ ← validate_chain_snapshot chain latest;
      mret (Some (if decide (length catalogs = 0%nat) then None
                  else Some (mkPublishedEntry (mkEntry scope latest catalogs) (sort_by String.leb (remove_dups artifact_cids)))))
  end.
End catalogs.
