(* ===== verification/CatalogComplete.v ===== *)
(** * What the catalogs list ([chain_indexed.rs])

    The chunks of a public TXID catalog partition the published log, those of a
    wallet-scan catalog the rows of the covered blocks. Both follow from the
    planner's law: a plan is the planning units, in order, in groups. The
    statements are about runs that return a value; a run that fails publishes
    no catalog, and [None], the value of a loop that is out of fuel, is shown
    not to occur. *)

From stdpp Require Import sorting.
From S2P Require Import Prelude Order Wire Ipfs Artifacts CommitmentChunk MerkleCheckpointChunk WalletScanChunk PublicTxidChunk ChainLogs PoiStore ChainStore StoreQueries AuditLog Retention Publication Catalog.

(** ** Results of publication code *)
Section returns.
Context `{CidCrate} `{ManifestCrate}.

(** Every value the code can return satisfies [P]. *)
Definition returns {A} (m : Pub A) (P : A → Prop) : Prop := ∀ w a, (m w).1 = Ok a → P a.

Lemma returns_ret {A} (a : A) (P : A → Prop) : P a → returns (mret a) P.
Proof. by intros Ha w _ [= <-]. Qed.
Lemma returns_bind {A B} (m : Pub A) (k : A → Pub B) (P : A → Prop) (Q : B → Prop) :
  returns m P → (∀ a, P a → returns (k a) Q) → returns (m ≫= k) Q.
Proof.
  intros Hm Hk w b. unfold mbind, Pub_bind. destruct (m w) as [[a|e] w'] eqn:Hw; [|done].
  apply (Hk a), (Hm w). by rewrite Hw.
Qed.
Lemma returns_True {A} (m : Pub A) : returns m (λ _, True).
Proof. done. Qed.
Lemma returns_mono {A} (m : Pub A) (P Q : A → Prop) : returns m P → (∀ a, P a → Q a) → returns m Q.
Proof. intros Hm HQ w a Ha. by eapply HQ, Hm. Qed.
Lemma returns_fail {A} e (P : A → Prop) : returns (fail e) P.
Proof. done. Qed.
Lemma returns_lift {A} (r : result string A) : returns (lift r) (λ a, r = Ok a).
Proof. by intros w a. Qed.
Lemma returns_lift_err {E A} (f : E → string) (r : result E A) : returns (lift (map_err f r)) (λ a, r = Ok a).
Proof. intros w a. by rewrite <- (map_err_Ok f). Qed.
Lemma returns_store_read {A} store_error (query : sresult A) : returns (store_read store_error query) (λ a, query = Ok a).
Proof.
  unfold store_read, guarded. eapply returns_bind; [apply returns_True|]. intros [] _; [apply returns_fail|]. apply returns_lift_err.
Qed.
(** A loop invariant over the elements that are done. *)
Lemma returns_fold {S A} (f : S → A → Pub S) (I : list A → S → Prop) l s :
  I [] s → (∀ pre a s, pre ++ [a] `prefix_of` l → I pre s → returns (f s a) (I (pre ++ [a]))) → returns (pub_fold f s l) (I l).
Proof.
  intros Hinit Hstep. cut (∀ post pre s, pre ++ post = l → I pre s → returns (pub_fold f s post) (I l)).
  { intros Hcut. by apply (Hcut l []). }
  clear s Hinit. induction post as [|a post IH]; intros pre s Hl Hs; cbn.
  - rewrite app_nil_r in Hl. subst. by apply returns_ret.
  - eapply returns_bind; [apply Hstep; [|exact Hs]|].
    + exists post. by rewrite <- app_assoc.
    + intros s' Hs'. apply (IH (pre ++ [a])); [by rewrite <- app_assoc|done].
Qed.
End returns.

(** ** Planning units *)
(** Planning units, and planned chunks, that hold [parts] from a position on. *)
Fixpoint laid_out {P A} (start count : P → Z) (pos : nat) (ps : list P) (parts : list (list A)) : Prop :=
  match ps, parts with
  | [], [] => True
  | p :: ps, part :: parts =>
      part ≠ [] ∧ start p = Z.of_nat pos ∧ count p = Z.of_nat (length part) ∧ laid_out start count (pos + length part) ps parts
  | _, _ => False
  end.
Notation items_out := (laid_out (λ i, range_start (plan_range i)) plan_row_count).
Notation planned_out := (laid_out (λ p, range_start (planned_range p)) planned_row_count).

Lemma laid_out_app {P A} (start count : P → Z) pos ps qs (parts : list (list A)) :
  laid_out start count pos (ps ++ qs) parts →
  ∃ parts1 parts2, parts = parts1 ++ parts2 ∧ laid_out start count pos ps parts1 ∧
    laid_out start count (pos + length (concat parts1)) qs parts2.
Proof.
  revert pos parts. induction ps as [|p ps IH]; intros pos parts Hl; cbn in Hl.
  - exists [], parts. split_and!; [done|done|]. by rewrite Nat.add_0_r.
  - destruct parts as [|part parts]; [done|]. destruct Hl as (Hne & Hs & Hc & Hl). destruct (IH _ _ Hl) as (p1 & p2 & -> & H1 & H2).
    exists (part :: p1), p2. split_and!; [done|done|]. cbn. by rewrite length_app, Nat.add_assoc.
Qed.
Lemma laid_out_count {P A} (start count : P → Z) pos ps (parts : list (list A)) :
  laid_out start count pos ps parts → foldr Z.add 0 (count <$> ps) = Z.of_nat (length (concat parts)).
Proof.
  revert pos parts. induction ps as [|p ps IH]; intros pos [|part parts]; [done..|]. intros (_ & _ & Hc & Hl). cbn.
  rewrite (IH _ _ Hl), Hc, length_app. lia.
Qed.

(** Grouping the units of a layout gives a layout. *)
Lemma planned_layout {A} items planned groups pos (units : list (list A)) :
  concat groups = items → Forall2 plans planned groups → items_out pos items units →
  ∃ parts, concat parts = concat units ∧ planned_out pos planned parts.
Proof.
  intros <- Hp. revert pos units. induction Hp as [|p g planned groups Hpg _ IH]; intros pos units Hl; cbn in Hl.
  - destruct units; [|done]. by exists [].
  - apply laid_out_app in Hl as (u1 & u2 & -> & H1 & H2). destruct (IH _ _ H2) as (parts & Hc & Hl).
    exists (concat u1 :: parts). split; [cbn; by rewrite Hc, concat_app|]. pose proof (laid_out_count _ _ _ _ _ H1) as Hcount.
    destruct g as [|i g]; [done|]. destruct Hpg as (Hs & _ & Hn). destruct u1 as [|u u1]; [done|].
    destruct H1 as (Hne & Hi & _ & _). cbn [laid_out]. split_and!; [by destruct u|congruence|congruence|done].
Qed.

(** ** The catalog document *)
Section documents.
Context `{ArtifactCrate} `{CidCrate} `{ManifestCrate} `{CatalogCrate}.
Context (pin_cid : bytes → Cid) (audit_error : AuditError → string) (service_name : string).

(** The one catalog of [chunks]. *)
Definition catalog_of (scope : ChainScope) (dataset_kind : Artifacts.IndexedDatasetKind) (coverage : CatalogCoverage)
    (chunks : list IndexedArtifactDescriptor) (catalogs : list PublishedCatalog) : Prop :=
  let catalog := catalog_new dataset_kind scope chunks in
  ∃ catalog_bytes descriptor cid,
    prepare_catalog_artifact scope dataset_kind chunks coverage = Ok (catalog, catalog_bytes, content_hash catalog_bytes, descriptor) ∧
    catalogs = [mkPublishedCatalog (set_cid descriptor cid) ((desc_cid <$> cat_chunks catalog) ++ [cid])].

Lemma explicit_range scope dataset_kind chunks s e catalog bs hash d :
  prepare_catalog_artifact scope dataset_kind chunks (ExplicitBlockRange s e) = Ok (catalog, bs, hash, d) → desc_range d = mkRange Block s e.
Proof.
  unfold prepare_catalog_artifact, catalog_descriptor, catalog_range. intros Hp. res_inv. repeat (case_decide; try done). by res_inv.
Qed.

Lemma publish_catalogs_returns scope dataset_kind chunks coverage :
  returns (publish_catalogs pin_cid audit_error service_name scope dataset_kind chunks coverage)
    (λ catalogs, match chunks, coverage with
                 | [], DerivedFromChunks => catalogs = []
                 | _, _ => catalog_of scope dataset_kind coverage chunks catalogs
                 end).
Proof.
  assert (returns ('(catalog, catalog_bytes, catalog_hash, descriptor) ← lift (prepare_catalog_artifact scope dataset_kind chunks coverage);
      _ ← lift (try_fold (λ total d, ok_or (checked_add u64_max total (desc_byte_size d))
             "indexed artifact chunk byte size overflow"%string) 0 (cat_chunks catalog));
      cid ← reuse_or_pin_indexed_artifact pin_cid audit_error service_name AuditLog.Catalog (desc_dataset_kind descriptor)
        (desc_scope descriptor) (desc_range descriptor) (desc_byte_size descriptor) catalog_hash
        (desc_encoding_version descriptor) catalog_bytes;
      mret [mkPublishedCatalog (set_cid descriptor cid) ((desc_cid <$> cat_chunks catalog) ++ [cid])])
    (catalog_of scope dataset_kind coverage chunks)) as Hpin.
  { eapply returns_bind; [apply returns_lift|]. intros [[[catalog bs] hash] d] Hp.
    eapply returns_bind; [apply returns_True|]. intros _ _. eapply returns_bind; [apply returns_True|]. intros cid _. apply returns_ret.
    assert (catalog = catalog_new dataset_kind scope chunks ∧ hash = content_hash bs) as [-> ->].
    { unfold prepare_catalog_artifact in Hp. by res_inv. }
    by exists bs, d, cid. }
  unfold publish_catalogs. destruct chunks as [|c chunks], coverage; try done. by apply returns_ret.
Qed.
End documents.

(** ** Public TXIDs *)
Section public_txids.
Context `{ArtifactCrate} `{TreeCrate} `{TxidCrate} `{PoiTypes} `{CidCrate} `{ManifestCrate} `{CatalogCrate}.
Context (pin_cid : bytes → Cid) (audit_error : AuditError → string) (service_name : string).
Context (store_error : StoreError → string) (txid_error : PublicTxidChunkError Cid → string).
Context (db : ChainDb) (txid_row_limit : Z) (chain : ChainIndexedChainConfig) (scope : ChainScope) (max_block : Z).
(** the scope and the published log of the chain *)
Context (key : Scope) (omitted : list (Z * Z * Z)) (log : list StoredPublicTxidRow).
Hypothesis Hkey : scope_of EVM_CHAIN_TYPE (cfg_chain_id chain) (cfg_railgun_contract chain) = Ok key.
Hypothesis Homitted : omission_columns (cfg_omissions chain) = Ok omitted.
Hypothesis Hlog : public_txid_log db key (Some max_block) omitted = Ok log.
Hypothesis Hlength : Z.of_nat (length log) ≤ i64_max.
Hypothesis Hblock : max_block ≤ i64_max.

Notation rows_at := (txid_rows db chain).
Notation publish_chunk := (publish_txid_chunk pin_cid audit_error service_name store_error txid_error db chain scope max_block).

(** The rows of the TXID tree of [row] up to it. *)
Definition tree_prefix (log : list StoredPublicTxidRow) (row : StoredPublicTxidRow) : list StoredPublicTxidRow :=
  let tree_start := pt_txid_index row `div` TREE_LEAF_COUNT * TREE_LEAF_COUNT in
  take (Z.to_nat (pt_txid_index row - tree_start + 1)) (drop (Z.to_nat tree_start) log).

(** A published chunk that holds [part], with the root of its tree so far. *)
Definition txid_chunk_of (chunk : IndexedArtifactDescriptor) (part : list StoredPublicTxidRow) : Prop :=
  ∃ row root published cid,
    last part = Some row ∧ public_txid_checkpoint_root (Cid := Cid) (tree_prefix log row) = Ok root ∧
    prepare_public_txid_chunk (Cid := Cid) scope part root Zstd = Ok published ∧
    chunk = set_cid (published_descriptor published) cid.

Lemma rows_at_log offset limit :
  0 ≤ offset ≤ i64_max → 0 ≤ limit ≤ i64_max → rows_at offset limit max_block = Ok (take (Z.to_nat limit) (drop (Z.to_nat offset) log)).
Proof. intros. unfold txid_rows. by eapply public_txid_page. Qed.
Lemma tree_leaf_count_pos : 0 < TREE_LEAF_COUNT.
Proof. rewrite tree_leaf_count_pow. apply Z.pow_pos_nonneg; lia. Qed.

(** A non-empty slice of the log at [pos]. *)
Definition log_part (pos : nat) (part : list StoredPublicTxidRow) : Prop :=
  part ≠ [] ∧ part = take (length part) (drop pos log).

Lemma log_part_last pos part row :
  log_part pos part → last part = Some row →
  pt_txid_index row = Z.of_nat (pos + length part) - 1 ∧ (pos + length part ≤ length log)%nat.
Proof.
  intros [Hne Hpart] Hlast. assert (0 < length part)%nat by (destruct part; [done|cbn; lia]).
  assert (length part ≤ length log - pos)%nat.
  { rewrite Hpart at 1. rewrite length_take, length_drop. lia. }
  rewrite last_lookup, Hpart, lookup_take_lt, lookup_drop in Hlast.
  - apply (public_txid_log_index _ _ _ _ _ _ _ Hlog) in Hlast. rewrite <- Hpart in Hlast. lia.
  - rewrite <- Hpart. lia.
Qed.

Lemma checkpoint_root_returns pos part :
  log_part pos part →
  returns (publisher_checkpoint_root store_error txid_error db chain part max_block)
    (λ root, ∃ row, last part = Some row ∧ public_txid_checkpoint_root (Cid := Cid) (tree_prefix log row) = Ok root).
Proof.
  intros Hpart. unfold publisher_checkpoint_root. eapply returns_bind; [apply returns_lift|]. intros row Hrow%ok_or_Ok.
  destruct (log_part_last _ _ _ Hpart Hrow) as [Hi Hle]. pose proof tree_leaf_count_pos as Ht. pose proof tree_leaf_count_u64.
  assert (part ≠ []) as Hne by apply Hpart. assert (0 < length part)%nat by (destruct part; [done|cbn; lia]).
  eapply returns_bind; [apply returns_lift|]. intros count Hcount%ok_or_Ok.
  apply bind_Some in Hcount as (n & [-> Hn]%checked_sub_Some & [-> _]%checked_add_Some).
  eapply returns_bind; [apply returns_store_read|]. intros rows. rewrite rows_at_log.
  - intros [= <-]. eapply returns_mono; [apply returns_lift_err|]. intros root Hroot. exists row. split; [done|]. exact Hroot.
  - pose proof (Z.mul_div_le (pt_txid_index row) TREE_LEAF_COUNT Ht). pose proof (Z.div_pos (pt_txid_index row) TREE_LEAF_COUNT). nia.
  - pose proof (Z.mod_pos_bound (pt_txid_index row) TREE_LEAF_COUNT Ht). pose proof (Z.div_mod (pt_txid_index row) TREE_LEAF_COUNT).
    unfold u32_max, i64_max in *. lia.
Qed.

Lemma prepared_range part root published :
  prepare_public_txid_chunk (Cid := Cid) scope part root Zstd = Ok published →
  public_txid_range (Cid := Cid) part = Ok (desc_range (published_descriptor published)).
Proof. unfold prepare_public_txid_chunk. intros Hp. res_inv. by case_decide; [|res_inv]. Qed.

Lemma publish_chunk_returns pos part st planned :
  log_part pos part → range_start (planned_range planned) = Z.of_nat pos → planned_row_count planned = Z.of_nat (length part) →
  returns (publish_chunk st planned) (λ st', ∃ chunk, st' = (Z.of_nat (pos + length part), st.2 ++ [chunk]) ∧ txid_chunk_of chunk part).
Proof.
  intros Hpart Hs Hc. unfold publish_txid_chunk. rewrite Hs, Hc. eapply returns_bind; [apply returns_store_read|]. intros rows.
  destruct (last part) as [row|] eqn:Hrow; [|apply last_None in Hrow; by destruct Hpart].
  destruct (log_part_last _ _ _ Hpart Hrow) as [Hi Hle]. rewrite rows_at_log, !Nat2Z.id by lia.
  destruct (Hpart) as [_ <-]. intros [= <-].
  eapply returns_bind; [by apply (checkpoint_root_returns pos)|]. intros root (row' & Hrow' & Hroot).
  eapply returns_bind; [apply returns_lift_err|]. intros published Hpub.
  eapply returns_bind.
  { unfold reuse_or_pin_chunk. eapply returns_bind; [apply returns_True|]. intros cid _.
    apply (returns_ret _ (λ d, ∃ cid, d = set_cid (published_descriptor published) cid)). by exists cid. }
  intros chunk [cid ->]. apply returns_ret. exists (set_cid (published_descriptor published) cid). split.
  - apply prepared_range, public_txid_range_Ok in Hpub as (_ & _ & Hk & Hend). f_equal. cbn [set_cid desc_range]. rewrite Hend.
    assert (0 < length part)%nat by (destruct part; [done|cbn; lia]).
    rewrite last_lookup in Hrow. apply Hk in Hrow. unfold saturating_add. unfold i64_max, u64_max in *. lia.
  - by exists row', root, published, cid.
Qed.

Lemma planned_parts_return planned parts pos st :
  planned_out pos planned parts → concat parts `prefix_of` drop pos log → st.1 = Z.of_nat pos →
  returns (pub_fold publish_chunk st planned)
    (λ st', ∃ chunks, st' = (Z.of_nat (pos + length (concat parts)), st.2 ++ chunks) ∧ Forall2 txid_chunk_of chunks parts).
Proof.
  revert parts pos st. induction planned as [|p planned IH]; intros [|part parts] pos st Hout Hpre Hst; [|done..|]; cbn [pub_fold].
  - apply returns_ret. exists []. split; [|constructor]. cbn. rewrite Nat.add_0_r, app_nil_r, <- Hst. by destruct st.
  - destruct Hout as (Hne & Hs & Hc & Hout). cbn [concat] in *. destruct Hpre as [post Hpre].
    assert (log_part pos part) as Hpart.
    { split; [done|]. rewrite Hpre, <- app_assoc. by rewrite take_app_length. }
    eapply returns_bind; [by apply (publish_chunk_returns pos part)|]. intros st' (chunk & -> & Hchunk).
    eapply returns_mono; [apply (IH parts (pos + length part)%nat); [done| |done]|].
    + exists post. rewrite <- drop_drop, Hpre, <- app_assoc. by rewrite drop_app_length.
    + intros st' (chunks & -> & HF). exists (chunk :: chunks). cbn [snd]. rewrite <- app_assoc, length_app, Nat.add_assoc.
      split; [done|by constructor].
Qed.

(** The planning units of rows of the log. *)
Lemma plan_items_out pos units items :
  concat units `prefix_of` drop pos log →
  try_map (λ rows, public_txid_chunk_plan_item (Cid := Cid) scope rows Zstd) units = Ok items →
  items_out pos items units.
Proof.
  intros Hpre HF%try_map_Ok. revert pos Hpre. induction HF as [|unit item units items Hi _ IH]; intros pos [post Hpre]; cbn [laid_out]; [done|].
  cbn [concat] in Hpre. unfold public_txid_chunk_plan_item in Hi. res_inv. int_facts. subst. cbn [plan_range plan_row_count].
  match goal with E : public_txid_range _ = _ |- _ => apply public_txid_range_Ok in E as (Hne & _ & Hk & _) end.
  split_and!; [done| |done|].
  - destruct unit as [|row unit]; [done|]. specialize (Hk 0%nat row eq_refl).
    assert (log !! pos = Some row) as Hrow by (by rewrite <- (Nat.add_0_r pos), <- lookup_drop, Hpre).
    apply (public_txid_log_index _ _ _ _ _ _ _ Hlog) in Hrow. lia.
  - apply IH. exists post. rewrite <- drop_drop, Hpre, <- app_assoc. by rewrite drop_app_length.
Qed.

Hypothesis Hlimit : 0 < txid_row_limit ≤ i64_max.
Notation publish_chunks := (publish_txid_chunks pin_cid audit_error service_name store_error txid_error db txid_row_limit).

Lemma row_limit_pos offset : 0 < public_txid_chunk_row_limit offset txid_row_limit ≤ i64_max.
Proof.
  unfold public_txid_chunk_row_limit. pose proof (Z.mod_pos_bound offset TREE_LEAF_COUNT tree_leaf_count_pos). lia.
Qed.

Lemma chunks_return fuel pos chunks0 :
  (length log - pos < fuel)%nat → (pos ≤ length log)%nat →
  returns (publish_chunks fuel chain scope max_block (Z.of_nat pos) chunks0)
    (λ r, ∃ chunks parts, r = Some (chunks0 ++ chunks) ∧ concat parts = drop pos log ∧ Forall2 txid_chunk_of chunks parts).
Proof.
  revert pos chunks0. induction fuel as [|fuel IH]; intros pos chunks0 Hfuel Hpos; [lia|]. cbn [publish_txid_chunks].
  pose proof (row_limit_pos (Z.of_nat pos)) as Hrl. set (row_limit := public_txid_chunk_row_limit _ _) in *.
  eapply returns_bind; [apply returns_store_read|]. intros rows. rewrite rows_at_log, Nat2Z.id by lia. intros [= <-].
  set (rows := take _ _). pose proof (take_drop (Z.to_nat row_limit) (drop pos log)) as Hsplit. fold rows in Hsplit.
  assert (length rows = Z.to_nat row_limit `min` (length log - pos))%nat as Hlen by (unfold rows; by rewrite length_take, length_drop).
  assert ((length rows < Z.to_nat row_limit)%nat → rows = drop pos log) as Hshort.
  { intros ?. rewrite <- Hsplit, drop_ge, app_nil_r; [done|]. rewrite length_drop. lia. }
  case_decide as Hnil.
  { apply returns_ret. exists [], []. rewrite app_nil_r. split_and!; [done| |constructor]. rewrite <- Hshort, Hnil; [done|].
    rewrite Hnil. cbn. lia. }
  eapply returns_bind; [apply returns_lift_err|]. intros items Hitems.
  destruct (chunks_concat PUBLIC_TXID_PLANNING_ROW_UNIT rows) as [Hunits _]; [unfold PUBLIC_TXID_PLANNING_ROW_UNIT; lia|].
  eapply returns_bind; [apply returns_lift|]. intros planned (groups & Hg & HF)%plan_chunks_groups.
  assert (rows `prefix_of` drop pos log) as Hpre by (rewrite <- Hsplit; by eexists).
  destruct (planned_layout items planned groups pos (chunks PUBLIC_TXID_PLANNING_ROW_UNIT rows) Hg HF) as (parts & Hparts & Hout).
  { apply plan_items_out; [by rewrite Hunits|exact Hitems]. }
  rewrite Hunits in Hparts.
  eapply returns_bind; [apply (planned_parts_return planned parts pos (Z.of_nat pos, chunks0)); [done|by rewrite Hparts|done]|].
  intros st (chunks & -> & Hchunks). rewrite Hparts. cbn [snd]. case_decide as Hd.
  - apply returns_ret. exists chunks, parts. split_and!; [done| |done]. rewrite Hparts. apply Hshort. lia.
  - eapply returns_mono; [apply IH; lia|]. intros r (chunks' & parts' & -> & Hc & HF').
    exists (chunks ++ chunks'), (parts ++ parts'). rewrite app_assoc, concat_app, Hparts, Hc. split_and!; [done| |by apply Forall2_app].
    rewrite <- Hsplit at 1. f_equal. rewrite drop_drop. f_equal. rewrite Hlen. lia.
Qed.
End public_txids.

Section txid_catalog.
Context `{ArtifactCrate} `{TreeCrate} `{TxidCrate} `{PoiTypes} `{CidCrate} `{ManifestCrate} `{CatalogCrate}.
Context (pin_cid : bytes → Cid) (audit_error : AuditError → string) (service_name : string).
Context (store_error : StoreError → string) (txid_error : PublicTxidChunkError Cid → string) (db : ChainDb).

Lemma omissions_return chain max_block :
  returns (validate_public_txid_compatibility_omissions store_error db chain max_block)
    (λ _, ∀ omission, omission ∈ cfg_omissions chain → om_block_number omission ≤ max_block →
       public_txid_compatibility_omission_match_count db EVM_CHAIN_TYPE (cfg_chain_id chain) (cfg_railgun_contract chain) omission = Ok 1).
Proof.
  unfold validate_public_txid_compatibility_omissions.
  apply (returns_fold _ (λ seen _, ∀ omission, omission ∈ seen → om_block_number omission ≤ max_block →
    public_txid_compatibility_omission_match_count db EVM_CHAIN_TYPE (cfg_chain_id chain) (cfg_railgun_contract chain) omission = Ok 1)).
  { intros omission Ho. by apply elem_of_nil in Ho. }
  intros seen omission [] _ Hseen. case_decide as Hd.
  - apply returns_ret. intros o [Ho| ->%list_elem_of_singleton]%elem_of_app ?; [by apply Hseen|lia].
  - eapply returns_bind; [apply returns_store_read|]. intros count Hcount. case_decide as Hne; [apply returns_fail|].
    apply returns_ret. intros o [Ho| ->%list_elem_of_singleton]%elem_of_app ?; [by apply Hseen|].
    rewrite Hcount. f_equal. by destruct (decide (count = 1)).
Qed.

Lemma publish_public_txid_catalog_ok txid_row_limit chain scope max_block key omitted log fuel w result :
  scope_of EVM_CHAIN_TYPE (cfg_chain_id chain) (cfg_railgun_contract chain) = Ok key →
  omission_columns (cfg_omissions chain) = Ok omitted →
  public_txid_log db key (Some max_block) omitted = Ok log → Z.of_nat (length log) ≤ i64_max → max_block ≤ i64_max →
  0 < txid_row_limit ≤ i64_max → (length log < fuel)%nat →
  (publish_public_txid_catalog pin_cid audit_error service_name store_error txid_error db txid_row_limit fuel chain scope max_block w).1 =
    Ok result →
  ∃ catalogs chunks parts,
    result = Some catalogs ∧ concat parts = log ∧ Forall2 (txid_chunk_of scope log) chunks parts ∧
    (if decide (log = []) then catalogs = [] else catalog_of scope PublicTxid DerivedFromChunks chunks catalogs) ∧
    ∀ omission, omission ∈ cfg_omissions chain → om_block_number omission ≤ max_block →
      public_txid_compatibility_omission_match_count db EVM_CHAIN_TYPE (cfg_chain_id chain) (cfg_railgun_contract chain) omission = Ok 1.
Proof.
  intros Hkey Hom Hlog Hlen Hblock Hlimit Hfuel. revert w result. change (returns (publish_public_txid_catalog pin_cid audit_error
    service_name store_error txid_error db txid_row_limit fuel chain scope max_block) (λ result, ∃ catalogs chunks parts,
    result = Some catalogs ∧ concat parts = log ∧ Forall2 (txid_chunk_of scope log) chunks parts ∧
    (if decide (log = []) then catalogs = [] else catalog_of scope PublicTxid DerivedFromChunks chunks catalogs) ∧
    ∀ omission, omission ∈ cfg_omissions chain → om_block_number omission ≤ max_block →
      public_txid_compatibility_omission_match_count db EVM_CHAIN_TYPE (cfg_chain_id chain) (cfg_railgun_contract chain) omission = Ok 1)).
  unfold publish_public_txid_catalog. eapply returns_bind; [apply omissions_return|]. intros u Homissions.
  eapply returns_bind; [eapply (chunks_return _ _ _ _ _ db txid_row_limit chain scope max_block key omitted log) with (pos := 0%nat); (done || lia)|].
  intros r (chunks & parts & -> & Hparts & HF). cbn [app drop] in *.
  eapply returns_bind; [apply publish_catalogs_returns|]. intros catalogs Hc. apply returns_ret.
  exists catalogs, chunks, parts. split_and!; [done|done|done| |done].
  destruct HF as [|chunk part chunks parts (row & ? & ? & ? & Hrow & _) _]; cbn in Hparts.
  - by rewrite decide_True.
  - rewrite decide_False; [done|]. intros ->. by apply app_eq_nil in Hparts as [-> _].
Qed.

(** C18. The public TXID catalog is complete: a run that returns returns the
    catalog of chunks that partition the published log (the chain's
    transactions up to the block, in log order, without the configured
    omissions) into consecutive parts; every chunk is the encoding of its part
    with the root of the TXID tree as of the part's last row. Every omission
    that applies matches exactly one stored row. The loop does not run out of
    fuel, and an empty log has no catalog. *)
Theorem public_txid_catalog_complete txid_row_limit chain scope max_block key omitted log fuel w result :
  scope_of EVM_CHAIN_TYPE (cfg_chain_id chain) (cfg_railgun_contract chain) = Ok key →
  omission_columns (cfg_omissions chain) = Ok omitted →
  public_txid_log db key (Some max_block) omitted = Ok log → Z.of_nat (length log) ≤ i64_max → max_block ≤ i64_max →
  0 < txid_row_limit ≤ i64_max → (length log < fuel)%nat →
  (publish_public_txid_catalog pin_cid audit_error service_name store_error txid_error db txid_row_limit fuel chain scope max_block w).1 =
    Ok result →
  ∃ catalogs chunks parts,
    result = Some catalogs ∧ concat parts = log ∧ Forall2 (txid_chunk_of scope log) chunks parts ∧
    (if decide (log = []) then catalogs = [] else catalog_of scope PublicTxid DerivedFromChunks chunks catalogs) ∧
    ∀ omission, omission ∈ cfg_omissions chain → om_block_number omission ≤ max_block →
      public_txid_compatibility_omission_match_count db EVM_CHAIN_TYPE (cfg_chain_id chain) (cfg_railgun_contract chain) omission = Ok 1.
Proof. apply publish_public_txid_catalog_ok. Qed.
End txid_catalog.

(** ** Ranges of a plan *)
Definition item_range (i : ChunkPlanItem) : Z * Z := (range_start (plan_range i), range_end (plan_range i)).
Definition chunk_range (p : PlannedChunk) : Z * Z := (range_start (planned_range p), range_end (planned_range p)).
(** Disjoint and in order. *)
Notation apart := (StronglySorted (λ a b : Z * Z, a.2 < b.1)).
Notation proper_range := (λ r : Z * Z, r.1 ≤ r.2).

(** A group of units spans them all, from its first to its last. *)
Lemma group_span p g :
  plans p g → apart (item_range <$> g) → Forall proper_range (item_range <$> g) →
  ∃ i j, i ∈ g ∧ j ∈ g ∧ chunk_range p = ((item_range i).1, (item_range j).2) ∧
    ∀ k, k ∈ g → (item_range i).1 ≤ (item_range k).1 ∧ (item_range k).2 ≤ (item_range j).2.
Proof.
  destruct g as [|i g]; [done|]. intros (Hs & He & _) Hsort Hproper. exists i, (default i (last g)).
  assert (default i (last g) ∈ i :: g) as Hj.
  { destruct (last g) as [j|] eqn:Hj; cbn; [|by left]. right. by eapply list_elem_of_lookup_2; rewrite <- last_lookup. }
  rewrite Forall_fmap in Hproper. pose proof (proj1 (Forall_forall _ _) Hproper) as Hp. cbn in Hp.
  split_and!; [by left|done|unfold chunk_range; by rewrite Hs, He|]. intros k Hk. split.
  - rewrite fmap_cons in Hsort. apply StronglySorted_inv in Hsort as [_ Hi]. apply elem_of_cons in Hk as [->|Hk]; [done|].
    rewrite Forall_fmap, Forall_forall in Hi. specialize (Hi k Hk). cbn in Hi. specialize (Hp i ltac:(by left)). cbn. lia.
  - clear Hs He. revert i Hsort Hproper Hp Hj Hk. induction g as [|i' g IH]; intros i Hsort Hproper Hp Hj Hk.
    + cbn. by apply list_elem_of_singleton in Hk as ->.
    + replace (default i (last (i' :: g))) with (default i' (last g)) in * by (rewrite last_cons; by destruct (last g)).
      rewrite fmap_cons in Hsort. apply StronglySorted_inv in Hsort as [Hsort Hi]. apply elem_of_cons in Hk as [->|Hk].
      * apply elem_of_cons in Hj as [Hj|Hj]; [by rewrite Hj|]. rewrite Forall_fmap, Forall_forall in Hi. specialize (Hi _ Hj). cbn in Hi.
        specialize (Hp _ (list_elem_of_further _ _ _ Hj)). cbn in *. lia.
      * apply IH; [done|by apply Forall_cons in Hproper as [_ ?]|intros; apply Hp; by right| |done].
        destruct (last g) as [j|] eqn:Hlast; cbn; [|by left]. right. by eapply list_elem_of_lookup_2; rewrite <- last_lookup.
Qed.

(** The ranges of a plan are disjoint and in order, start and end where a unit
    does, and cover the units. *)
Lemma planned_ranges planned groups :
  Forall2 plans planned groups → apart (item_range <$> concat groups) → Forall proper_range (item_range <$> concat groups) →
  apart (chunk_range <$> planned) ∧
  (∀ p, p ∈ planned → ∃ i j, i ∈ concat groups ∧ j ∈ concat groups ∧ chunk_range p = ((item_range i).1, (item_range j).2) ∧
     (chunk_range p).1 ≤ (chunk_range p).2) ∧
  ∀ k, k ∈ concat groups → ∃ p, p ∈ planned ∧ (chunk_range p).1 ≤ (item_range k).1 ∧ (item_range k).2 ≤ (chunk_range p).2.
Proof.
  induction 1 as [|p g planned groups Hpg HF IH]; cbn [concat fmap list_fmap].
  { intros _ _. split_and!; [constructor|by intros ? ?%elem_of_nil..]. }
  rewrite !fmap_app, Forall_app. intros Hsort [Hp1 Hp2]. apply StronglySorted_app in Hsort as (Hcross & Hs1 & Hs2).
  destruct (IH Hs2 Hp2) as (Happ & Hin & Hcov). destruct (group_span p g Hpg Hs1 Hp1) as (i & j & Hi & Hj & Hr & Hspan).
  split_and!.
  - constructor; [done|]. apply Forall_fmap, Forall_forall. intros p' (i' & j' & Hi' & _ & Hr' & _)%Hin. change ((chunk_range p).2 < (chunk_range p').1). rewrite Hr, Hr'.
    apply (Hcross (item_range j) (item_range i')); by apply list_elem_of_fmap_2.
  - intros p' [->|Hp']%elem_of_cons.
    + exists i, j. rewrite !elem_of_app. split_and!; [by left|by left|done|]. rewrite Hr. cbn. destruct (Hspan i Hi) as [_ ?].
      rewrite Forall_fmap, Forall_forall in Hp1. specialize (Hp1 i Hi). cbn in *. lia.
    + destruct (Hin p' Hp') as (i' & j' & ? & ? & ? & ?). exists i', j'. rewrite !elem_of_app. split_and!; (by right) || done.
  - intros k [Hk|Hk]%elem_of_app.
    + exists p. rewrite Hr. split; [by left|by apply Hspan].
    + destruct (Hcov k Hk) as (p' & ? & ?). exists p'. split; [by right|done].
Qed.

(** ** Wallet scans *)
Lemma plan_item_range {Cid} `{ArtifactCrate} scope a c rows item :
  wallet_scan_chunk_plan_item (Cid := Cid) scope a c rows Zstd = Ok item → item_range item = (a, c).
Proof.
  unfold wallet_scan_chunk_plan_item. case_decide; [done|]. intros Hi. res_inv.
  repeat match goal with p : (_ * _)%type |- _ => destruct p end. by res_inv.
Qed.
Lemma prepared_wallet_range {Cid} `{ArtifactCrate} scope a c rows published :
  prepare_wallet_scan_chunk (Cid := Cid) scope a c rows Zstd = Ok published → desc_range (published_descriptor published) = mkRange Block a c.
Proof.
  unfold prepare_wallet_scan_chunk. case_decide; [done|]. intros Hi. res_inv.
  repeat match goal with p : (_ * _)%type |- _ => destruct p end. res_inv. by case_decide; res_inv.
Qed.

Section wallet_scans.
Context `{ArtifactCrate} `{PoiTypes} `{CidCrate} `{ManifestCrate} `{CatalogCrate}.
Context (pin_cid : bytes → Cid) (audit_error : AuditError → string) (service_name : string).
Context (store_error : StoreError → string) (wallet_error : WalletScanChunkError Cid → string).
Context (db : ChainDb) (chain : ChainIndexedChainConfig) (scope : ChainScope) (key : Scope) (s e : Z).
Hypothesis Hkey : scope_of EVM_CHAIN_TYPE (cfg_chain_id chain) (cfg_railgun_contract chain) = Ok key.
Hypothesis Hle : s ≤ e.

Notation rows_of := (wallet_rows db chain).
Notation blocks := (wallet_scan_blocks db key).

(** A published chunk that holds the rows [part]. *)
Definition wallet_chunk_of (chunk : IndexedArtifactDescriptor) (part : StoredWalletScanRows) : Prop :=
  ∃ published cid, range_kind (desc_range chunk) = Block ∧
    rows_of (range_start (desc_range chunk)) (range_end (desc_range chunk)) = Ok part ∧
    prepare_wallet_scan_chunk (Cid := Cid) scope (range_start (desc_range chunk)) (range_end (desc_range chunk)) part Zstd = Ok published ∧
    chunk = set_cid (published_descriptor published) cid.

Lemma wallet_scan_blocks_within a c b : b ∈ blocks s e → a ≤ b ≤ c → b ∈ blocks a c.
Proof.
  intros Hb Hr. assert (∀ R (m : gmap (Scope * (Z * Z)) (Z * R)) (x : (Z * Z) * (Z * R)),
    x ∈ block_range_rows key s e m → b = x.2.1 → x ∈ block_range_rows key a c m) as Hx.
  { intros R m x [_ Hx]%list_elem_of_filter ->. by apply list_elem_of_filter. }
  unfold wallet_scan_blocks in *. rewrite !elem_of_app, !list_elem_of_fmap in *.
  destruct Hb as [(x & -> & Hb)|[(x & -> & Hb)|[(x & -> & Hb)|[(x & -> & Hb)|(x & -> & Hb)]]]].
  1:{ apply list_elem_of_filter in Hb as [? Hb]. left. exists x. split; [done|]. apply list_elem_of_filter. eauto. }
  all: naive_solver.
Qed.

(** A range with rows does not read as empty. *)
Lemma wallet_rows_populated a c rows b :
  rows_of a c = Ok rows → b ∈ blocks a c → ¬ wallet_rows_empty rows.
Proof.
  assert (∀ A B (f : A → sresult B) l l', try_map f l = Ok l' → l' = [] → l = []) as Hnil.
  { intros A B f l l' HF%try_map_Ok ->. by inversion HF. }
  intros Hr Hb (E1 & E2 & E3 & E4 & E5). unfold wallet_rows, wallet_scan_rows in Hr. rewrite Hkey in Hr. cbn [mbind result_bind] in Hr.
  apply bind_Ok in Hr as (a' & [_ ->]%u64_to_i64_Ok & Hr). apply bind_Ok in Hr as (c' & [_ ->]%u64_to_i64_Ok & Hr).
  apply bind_Ok in Hr as (l1 & H1' & Hr). apply bind_Ok in Hr as (l2 & H2' & Hr). apply bind_Ok in Hr as (l3 & H3' & Hr).
  apply bind_Ok in Hr as (l4 & H4' & Hr). apply bind_Ok in Hr as (l5 & H5' & [= <-]). cbn in E1, E2, E3, E4, E5. subst.
  apply Hnil in H1', H2', H3', H4', H5'; try done.
  assert (∀ R (cols : R → SourceCols) (m : gmap (Scope * (Z * Z)) (Z * R)) x,
    x ∈ block_range_rows key a c m → x ∈ sorted_range_rows cols key a c m) as Hsort.
  { intros R cols m x Hx. unfold sorted_range_rows, sort_cmp_key. by rewrite sort_by_perm. }
  unfold wallet_scan_blocks in Hb. rewrite !elem_of_app, !list_elem_of_fmap in Hb.
  destruct Hb as [(x & _ & Hb)|[(x & _ & Hb)|[(x & _ & Hb)|[(x & _ & Hb)|(x & _ & Hb)]]]].
  1:{ apply list_elem_of_filter in Hb as [Hc Hb]. apply (Hsort _ (λ r, r.1.1)) in Hb.
      assert (x ∈ filter has_ciphertext (sorted_range_rows (λ r, r.1.1) key a c (indexed_transact_commitments db))) as Hin
        by (by apply list_elem_of_filter). rewrite H1' in Hin. by apply elem_of_nil in Hin. }
  all: eapply Hsort in Hb.
  - rewrite H2' in Hb. by apply elem_of_nil in Hb.
  - rewrite H3' in Hb. by apply elem_of_nil in Hb.
  - rewrite H4' in Hb. by apply elem_of_nil in Hb.
  - rewrite H5' in Hb. by apply elem_of_nil in Hb.
Qed.

(** The planning units are the populated ranges. *)
Lemma wallet_items_return :
  returns (wallet_scan_plan_items store_error wallet_error db chain scope s e)
    (λ items, apart (item_range <$> items) ∧
       Forall (λ r : Z * Z, r.1 ∈ blocks s e ∧ r.2 ∈ blocks s e ∧ r.1 ≤ r.2) (item_range <$> items) ∧
       ∀ b, b ∈ blocks s e → ∃ i, i ∈ items ∧ (item_range i).1 ≤ b ≤ (item_range i).2).
Proof.
  unfold wallet_scan_plan_items. eapply returns_bind; [apply returns_store_read|]. intros ranges Hranges.
  assert (0 < WALLET_SCAN_PLANNING_BLOCK_SPAN) as Hspan by done.
  destruct (populated_ranges_spec _ _ _ _ _ _ _ _ _ Hkey Hle Hspan Hranges) as (Hsort & Hin & Hcov).
  eapply returns_mono; [apply (returns_fold _ (λ pre items, item_range <$> items = (λ r, (br_start_block r, br_end_block r)) <$> pre))|].
  - done.
  - intros pre r items Hpre Hitems. unfold wallet_plan_item. eapply returns_bind; [apply returns_store_read|]. intros rows Hrows.
    assert (r ∈ ranges) as (Hs & _ & ? & _)%Hin.
    { destruct Hpre as [post ->]. rewrite !elem_of_app. left. right. by apply list_elem_of_singleton. }
    rewrite decide_False.
    2:{ eapply wallet_rows_populated; [exact Hrows|]. apply (wallet_scan_blocks_within _ _ (br_start_block r)); [done|lia]. }
    eapply returns_bind; [apply returns_lift_err|]. intros item Hitem%plan_item_range. apply returns_ret.
    rewrite !fmap_app, Hitems. cbn [fmap list_fmap]. by rewrite Hitem.
  - intros items Hitems. rewrite Hitems. split_and!.
    + apply StronglySorted_fmap. eapply StronglySorted_impl; [|exact Hsort]. done.
    + apply Forall_fmap, Forall_forall. intros r (? & ? & ? & _)%Hin. done.
    + intros b (r & Hr & Hb)%Hcov. assert ((br_start_block r, br_end_block r) ∈ item_range <$> items) as Hi.
      { rewrite Hitems. by apply (list_elem_of_fmap_2 (λ r, (br_start_block r, br_end_block r))). }
      apply list_elem_of_fmap in Hi as (i & Hi & ?). exists i. by rewrite <- Hi.
Qed.

Definition part_of_chunk (p : PlannedChunk) (part : StoredWalletScanRows) : Prop := rows_of (chunk_range p).1 (chunk_range p).2 = Ok part.
Definition descriptor_range (d : IndexedArtifactDescriptor) : Z * Z := (range_start (desc_range d), range_end (desc_range d)).

Lemma wallet_chunk_returns done p :
  (chunk_range p).1 ∈ blocks s e → (chunk_range p).1 ≤ (chunk_range p).2 →
  returns (publish_wallet_chunk pin_cid audit_error service_name store_error wallet_error db chain scope done p)
    (λ done', ∃ chunk part, done' = done ++ [chunk] ∧ part_of_chunk p part ∧ wallet_chunk_of chunk part ∧ descriptor_range chunk = chunk_range p).
Proof.
  intros Hs Hr. unfold publish_wallet_chunk. eapply returns_bind; [apply returns_store_read|]. intros rows Hrows. rewrite decide_False.
  2:{ eapply wallet_rows_populated; [exact Hrows|]. apply (wallet_scan_blocks_within _ _ (chunk_range p).1); [done|cbn in *; lia]. }
  eapply returns_bind; [apply returns_lift_err|]. intros published Hpub.
  eapply returns_bind.
  { unfold reuse_or_pin_chunk. eapply returns_bind; [apply returns_True|]. intros cid _.
    apply (returns_ret _ (λ d, ∃ cid, d = set_cid (published_descriptor published) cid)). by exists cid. }
  intros chunk [cid ->]. apply returns_ret.
  pose proof (prepared_wallet_range _ _ _ _ _ Hpub) as Hrange.
  exists (set_cid (published_descriptor published) cid), rows. unfold descriptor_range, wallet_chunk_of. cbn [set_cid desc_range]. rewrite Hrange.
  split_and!; [done|done| |done]. by exists published, cid.
Qed.

(** The chunks hold the rows of all blocks of the range. *)
Lemma wallet_chunks_return planned items groups all :
  rows_of s e = Ok all → concat groups = items → Forall2 plans planned groups →
  apart (item_range <$> items) → Forall (λ r : Z * Z, r.1 ∈ blocks s e ∧ r.2 ∈ blocks s e ∧ r.1 ≤ r.2) (item_range <$> items) →
  (∀ b, b ∈ blocks s e → ∃ i, i ∈ items ∧ (item_range i).1 ≤ b ≤ (item_range i).2) →
  returns (pub_fold (publish_wallet_chunk pin_cid audit_error service_name store_error wallet_error db chain scope) [] planned)
    (λ chunks, ∃ parts, all = wallet_concat parts ∧ Forall2 wallet_chunk_of chunks parts ∧ apart (descriptor_range <$> chunks)).
Proof.
  intros Hall <- HF Hsort Hin Hcov. pose proof (Forall_impl _ proper_range _ Hin ltac:(by intros ? (_ & _ & ?))) as Hproper.
  destruct (planned_ranges planned groups HF Hsort Hproper) as (Hapart & Hplanned & Hcover).
  rewrite Forall_fmap, Forall_forall in Hin.
  assert (Forall (λ p, (chunk_range p).1 ∈ blocks s e ∧ (chunk_range p).2 ∈ blocks s e ∧ (chunk_range p).1 ≤ (chunk_range p).2) planned) as Hp.
  { apply Forall_forall. intros p (i & j & (Hi & _)%Hin & (_ & Hj & _)%Hin & Hr & Hpr)%Hplanned. by rewrite Hr in Hpr |- *. }
  destruct (wallet_rows_split db EVM_CHAIN_TYPE (cfg_chain_id chain) (cfg_railgun_contract chain) s e key (chunk_range <$> planned) all)
    as (parts & Hparts & ->); [done..| | |].
  { apply Forall_fmap. eapply Forall_impl; [exact Hp|]. intros p (Hs%wallet_scan_blocks_bounds & He%wallet_scan_blocks_bounds & ?). cbn in *. lia. }
  { intros b (i & Hi & Hb)%Hcov. destruct (Hcover i Hi) as (p & Hp' & ?). exists (chunk_range p). split; [by apply list_elem_of_fmap_2|lia]. }
  rewrite Forall2_fmap_l in Hparts.
  eapply returns_mono; [apply (returns_fold _ (λ pre chunks, ∃ parts, Forall2 part_of_chunk pre parts ∧ Forall2 wallet_chunk_of chunks parts ∧
    descriptor_range <$> chunks = chunk_range <$> pre))|].
  - by exists [].
  - intros pre p chunks [post ->] (ps & Hps & Hcs & Hrs). rewrite !Forall_app, Forall_singleton in Hp. destruct Hp as [[_ (Hp & _ & Hr)] _].
    eapply returns_mono; [by apply wallet_chunk_returns|]. intros chunks' (chunk & part & -> & Hpart & Hchunk & Hrange).
    exists (ps ++ [part]). rewrite !fmap_app, Hrs. cbn. rewrite Hrange. split_and!; [by apply Forall2_app; [|constructor]..|done].
  - intros chunks (ps & Hps & Hcs & Hrs). exists ps. rewrite Hrs. split_and!; [|done|done]. f_equal.
    clear -Hparts Hps. revert ps Hps. induction Hparts as [|p part planned parts Hp _ IH]; intros ps Hps; inversion Hps as [|? ps0 ? psr Hp0 Hps']; subst; [done|].
    unfold part_of_chunk, wallet_rows in Hp0. rewrite Hp in Hp0. injection Hp0 as ->. f_equal. by apply IH.
Qed.
End wallet_scans.

Section wallet_catalog.
Context `{ArtifactCrate} `{PoiTypes} `{CidCrate} `{ManifestCrate} `{CatalogCrate}.
Context (pin_cid : bytes → Cid) (audit_error : AuditError → string) (service_name : string).
Context (store_error : StoreError → string) (wallet_error : WalletScanChunkError Cid → string) (db : ChainDb).

(** C19. The wallet-scan catalog is complete: a run that returns gives one
    catalog, whose range is every block from the start block to the indexed
    block, over chunks with disjoint block ranges in order; their rows, family
    by family and in chunk order, are exactly the rows the store has for those
    blocks. A chain that is not indexed up to its start block has no catalog. *)
Theorem wallet_scan_catalog_complete chain scope max_block key all w catalogs :
  scope_of EVM_CHAIN_TYPE (cfg_chain_id chain) (cfg_railgun_contract chain) = Ok key →
  wallet_rows db chain (cfg_start_block chain) max_block = Ok all →
  (publish_wallet_scan_catalog pin_cid audit_error service_name store_error wallet_error db chain scope max_block w).1 = Ok catalogs →
  if decide (max_block < cfg_start_block chain) then catalogs = []
  else ∃ chunks parts catalog,
    catalogs = [catalog] ∧ catalog_of scope WalletScan (ExplicitBlockRange (cfg_start_block chain) max_block) chunks catalogs ∧
    desc_range (pc_descriptor catalog) = mkRange Block (cfg_start_block chain) max_block ∧
    StronglySorted (λ a b : Z * Z, a.2 < b.1) (descriptor_range <$> chunks) ∧
    Forall2 (wallet_chunk_of db chain scope) chunks parts ∧ all = wallet_concat parts.
Proof.
  intros Hkey Hall. case_decide as Hle.
  { unfold publish_wallet_scan_catalog. rewrite decide_True by done. by intros [= <-]. }
  revert w catalogs. unfold publish_wallet_scan_catalog. rewrite decide_False by done.
  eapply (returns_bind (A := list IndexedArtifactDescriptor) _ _ (λ chunks, ∃ parts, all = wallet_concat parts ∧
    Forall2 (wallet_chunk_of db chain scope) chunks parts ∧ StronglySorted (λ a b : Z * Z, a.2 < b.1) (descriptor_range <$> chunks))).
  - unfold publish_wallet_scan_chunks. eapply returns_bind; [eapply wallet_items_return; [exact Hkey|lia]|].
    intros items (Hsort & Hin & Hcov). eapply returns_bind; [apply returns_lift|]. intros planned (groups & Hg & HF)%plan_chunks_groups.
    by eapply wallet_chunks_return.
  - intros chunks (parts & -> & HF & Hsort). eapply returns_mono; [apply publish_catalogs_returns|]. intros catalogs Hc.
    assert (catalog_of scope WalletScan (ExplicitBlockRange (cfg_start_block chain) max_block) chunks catalogs) as Hcat by (by destruct chunks).
    destruct (Hcat) as (bs & d & cid & Hp & Hcats). exists chunks, parts. eexists. split_and!; [exact Hcats|done| |done|done|done].
    cbn. by apply explicit_range in Hp.
Qed.
End wallet_catalog.
