(* ===== verification/CommitmentCatalog.v ===== *)
(** * The commitment catalog ([chain_indexed.rs])

    The loop of [publish_commitment_catalog] walks the global tree positions in
    windows, plans each window's rows and re-reads each planned range. The
    chunks it publishes partition the commitment log. *)

From stdpp Require Import sorting.
From S2P Require Import Prelude Order Wire Ipfs Artifacts CommitmentChunk MerkleCheckpointChunk WalletScanChunk PublicTxidChunk ChainLogs PoiStore ChainStore StoreQueries AuditLog Retention Publication Catalog CatalogComplete.

Notation position := CommitmentChunk.sc_global_position.
Notation between := (in_range position).
Notation ascending := (StronglySorted (λ x y, position x < position y)).

(** ** Units *)
Lemma increasing_span l a b : strictly_increasing l → head l = Some a → last l = Some b → a ∈ l ∧ b ∈ l ∧ ∀ z, z ∈ l → a ≤ z ≤ b.
Proof.
  intros Hs Ha Hb. destruct l as [|x l]; [done|]. injection Ha as ->. apply last_Some in Hb as [l' Hl].
  split; [by left|]. rewrite Hl. split; [rewrite elem_of_app; right; by left|]. intros z Hz. split.
  - rewrite <- Hl in Hz. apply elem_of_cons in Hz as [->|Hz]; [done|]. apply StronglySorted_inv in Hs as [_ Hs].
    rewrite Forall_forall in Hs. by apply Z.lt_le_incl, Hs.
  - apply elem_of_app in Hz as [Hz|Hz%list_elem_of_singleton]; [|lia]. unfold strictly_increasing in Hs. rewrite Hl in Hs.
    apply Z.lt_le_incl. eapply StronglySorted_app_1_elem_of; [exact Hs|done|by left].
Qed.

Section units.
Context {Cid : Type} `{ArtifactCrate} (scope : ChainScope).

(** The range of a unit starts and ends at its rows and spans them. *)
Lemma unit_range unit item :
  commitment_chunk_plan_item (Cid := Cid) scope unit Zstd = Ok item →
  (∃ x y, x ∈ unit ∧ y ∈ unit ∧ item_range item = (position x, position y)) ∧ ∀ z, z ∈ unit → between (item_range item) z.
Proof.
  unfold commitment_chunk_plan_item. intros Hi. res_inv. match goal with E : commitment_range _ = _ |- _ => apply commitment_range_Ok in E as (Hs & _ & Hh & Hl) end.
  destruct (increasing_span _ _ _ Hs Hh Hl) as ((x & Hx & ?)%list_elem_of_fmap & (y & Hy & ?)%list_elem_of_fmap & Hz). split.
  - exists x, y. unfold item_range. cbn. by rewrite Hx, Hy.
  - intros z Hin. apply Hz. by apply list_elem_of_fmap_2.
Qed.

Lemma unit_ranges units items :
  ascending (concat units) → try_map (λ rows, commitment_chunk_plan_item (Cid := Cid) scope rows Zstd) units = Ok items →
  StronglySorted (λ a b : Z * Z, a.2 < b.1) (item_range <$> items) ∧
  (∀ i, i ∈ items → ∃ x y, x ∈ concat units ∧ y ∈ concat units ∧ item_range i = (position x, position y) ∧ position x ≤ position y) ∧
  ∀ z, z ∈ concat units → ∃ i, i ∈ items ∧ between (item_range i) z.
Proof.
  intros Hs HF%try_map_Ok. induction HF as [|unit item units items Hi _ IH]; cbn [concat fmap list_fmap] in *.
  { split_and!; [constructor|by intros ? ?%elem_of_nil..]. }
  apply StronglySorted_app in Hs as (Hcross & _ & Hs). destruct (IH Hs) as (Hap & Hin & Hcov).
  destruct (unit_range _ _ Hi) as [(x & y & Hx & Hy & Hr) Hspan]. split_and!.
  - constructor; [done|]. apply Forall_fmap, Forall_forall. intros i (x' & y' & Hx' & _ & Hr' & _)%Hin.
    change ((item_range item).2 < (item_range i).1). rewrite Hr, Hr'. by apply Hcross.
  - intros i [->|Hi']%elem_of_cons.
    + exists x, y. rewrite !elem_of_app. split_and!; [by left|by left|done|]. destruct (Hspan x Hx) as [_ Hle]. by rewrite Hr in Hle.
    + destruct (Hin i Hi') as (x' & y' & ? & ? & ? & ?). exists x', y'. rewrite !elem_of_app. split_and!; (by right) || done.
  - intros z [Hz|Hz]%elem_of_app.
    + exists item. split; [by left|by apply Hspan].
    + destruct (Hcov z Hz) as (i & ? & ?). exists i. split; [by right|done].
Qed.
End units.

(** ** The loop *)
Section loop.
Context `{ArtifactCrate} `{TreeCrate} `{PoiTypes} `{CidCrate} `{ManifestCrate} `{CatalogCrate}.
Context (pin_cid : bytes → Cid) (audit_error : AuditError → string) (service_name : string).
Context (store_error : StoreError → string) (commitment_error : CommitmentChunkError Cid → string).
Context (db : ChainDb) (commitment_row_limit : Z) (chain : ChainIndexedChainConfig) (scope : ChainScope) (max_block : Z).
(** the commitment log in tree order *)
Context (tree : list StoredCommitmentRow).
Hypothesis Hread : ∀ a b, a ≤ i64_max → b ≤ i64_max → tree_rows db chain a b max_block = Ok (filter (between (a, b)) tree).
Hypothesis Hsorted : ascending tree.
Hypothesis Hbounds : Forall (λ x, 0 ≤ position x ≤ i64_max) tree.

Notation publish_chunk := (Catalog.publish_commitment_chunk pin_cid audit_error service_name store_error commitment_error db chain scope max_block).
Notation slice := (λ p, filter (between (chunk_range p)) tree).

(** A published chunk that holds the rows [part]. *)
Definition commitment_chunk_of (chunk : IndexedArtifactDescriptor) (part : list StoredCommitmentRow) : Prop :=
  ∃ published cid, prepare_commitment_chunk (Cid := Cid) scope part Zstd = Ok published ∧ chunk = set_cid (published_descriptor published) cid.

(** A planned range that starts and ends at rows. *)
Definition anchored (p : PlannedChunk) : Prop :=
  ∃ x y, x ∈ tree ∧ y ∈ tree ∧ chunk_range p = (position x, position y) ∧ position x ≤ position y.

Lemma commitment_chunk_returns st p :
  anchored p → returns (publish_chunk st p) (λ st', ∃ chunk, st' = ((chunk_range p).2 + 1, st.2 ++ [chunk]) ∧ commitment_chunk_of chunk (slice p)).
Proof.
  intros (x & y & Hx & Hy & Hr & Hle). unfold Catalog.publish_commitment_chunk. pose proof (proj1 (Forall_forall _ _) Hbounds) as Hb.
  destruct (Hb x Hx), (Hb y Hy). change (range_start (planned_range p)) with (chunk_range p).1.
  change (range_end (planned_range p)) with (chunk_range p).2. rewrite Hr. cbn [fst snd].
  eapply returns_bind; [apply returns_store_read|]. intros rows. rewrite Hread by lia. intros [= <-].
  eapply returns_bind; [apply returns_lift_err|]. intros published Hpub.
  eapply returns_bind.
  { unfold reuse_or_pin_chunk. eapply returns_bind; [apply returns_True|]. intros cid _.
    apply (returns_ret _ (λ d, ∃ cid, d = set_cid (published_descriptor published) cid)). by exists cid. }
  intros chunk [cid ->]. apply returns_ret. exists (set_cid (published_descriptor published) cid). split; [|by exists published, cid].
  pose proof Hpub as (payload & _ & Hrange & _)%prepare_commitment_chunk_Ok.
  apply commitment_range_Ok in Hrange as (Hs & _ & Hh & Hl). destruct (increasing_span _ _ _ Hs Hh Hl) as (_ & Hlast & Hspan).
  f_equal. cbn [set_cid desc_range]. apply list_elem_of_fmap in Hlast as (z & Hz & [[_ Hzy] _]%list_elem_of_filter).
  destruct (Hspan (position y)) as [_ Hyz].
  { apply list_elem_of_fmap_2, list_elem_of_filter. split; [|done]. split; cbn; lia. }
  cbn in Hzy. unfold saturating_add, i64_max, u64_max in *. lia.
Qed.

(** The chunks of a plan hold its ranges; the next position follows the last. *)
Lemma planned_chunks_return planned start chunks0 :
  Forall anchored planned →
  returns (pub_fold publish_chunk (start, chunks0) planned)
    (λ st, ∃ chunks, st = (default start (last ((λ p, (chunk_range p).2 + 1) <$> planned)), chunks0 ++ chunks) ∧
       Forall2 commitment_chunk_of chunks (slice <$> planned)).
Proof.
  intros Hanchored. apply (returns_fold _ (λ pre st, ∃ chunks,
    st = (default start (last ((λ p, (chunk_range p).2 + 1) <$> pre)), chunks0 ++ chunks) ∧ Forall2 commitment_chunk_of chunks (slice <$> pre))).
  - exists []. by rewrite app_nil_r.
  - intros pre p st [post ->] (chunks & -> & HF). rewrite !Forall_app, Forall_singleton in Hanchored. destruct Hanchored as [[_ Hp] _].
    eapply returns_mono; [by apply commitment_chunk_returns|]. intros st (chunk & -> & Hchunk). exists (chunks ++ [chunk]).
    rewrite !fmap_app. cbn [fmap list_fmap]. rewrite last_snoc, app_assoc. split; [done|]. apply Forall2_app; [done|]. by constructor.
Qed.

Notation window start stop := (filter (between (start, stop)) tree).

(** A window of the tree, cut at a planned range's end. *)
Lemma window_cut start mid stop : start ≤ mid + 1 → mid ≤ stop → window start stop = window start mid ++ window (mid + 1) stop.
Proof.
  intros Hs He. rewrite (sorted_cut position mid (window start stop)) at 1.
  - f_equal; apply filter_filter; intros x; unfold in_range; cbn; lia.
  - apply StronglySorted_filter. eapply StronglySorted_impl; [|exact Hsorted]. cbn. lia.
Qed.

(** What a plan of the rows of a window consists of. *)
Lemma planned_window start stop items planned :
  window start stop ≠ [] → commitment_plan_items scope (window start stop) = Ok items → plan_chunks items = Ok planned →
  Forall anchored planned ∧
  ∃ mid, start ≤ mid ≤ stop ∧ last ((λ p, (chunk_range p).2 + 1) <$> planned) = Some (mid + 1) ∧
    concat (slice <$> planned) = window start stop ∧ window start stop = window start mid.
Proof.
  intros Hne Hitems (groups & Hg & HF)%plan_chunks_groups. set (rows := window start stop) in *.
  destruct (chunks_concat COMMITMENT_PLANNING_ROW_UNIT rows) as [Hunits _]; [unfold COMMITMENT_PLANNING_ROW_UNIT; lia|].
  assert (ascending rows) as Hrows by (by apply StronglySorted_filter).
  assert (∀ x, x ∈ rows → x ∈ tree ∧ start ≤ position x ≤ stop) as Hin by (by intros x [[? ?] ?]%list_elem_of_filter).
  destruct (unit_ranges scope _ _ ltac:(by rewrite Hunits) Hitems) as (Hap & Hends & Hcov). rewrite Hunits in Hends, Hcov.
  subst items. destruct (planned_ranges planned groups HF Hap) as (Hpap & Hpin & Hpcov).
  { apply Forall_fmap, Forall_forall. intros i (x & y & _ & _ & Hr & Hle)%Hends. change ((item_range i).1 ≤ (item_range i).2). by rewrite Hr. }
  assert (∀ p, p ∈ planned → ∃ x y, x ∈ rows ∧ y ∈ rows ∧ chunk_range p = (position x, position y) ∧ position x ≤ position y) as Hp.
  { intros p (i & j & (x & ? & Hx & _ & Hi & _)%Hends & (? & y & _ & Hy & Hj & _)%Hends & Hr & Hle)%Hpin. rewrite Hi, Hj in Hr. cbn in Hr.
    exists x, y. rewrite Hr in Hle. done. }
  assert (∀ x, x ∈ rows → ∃ p, p ∈ planned ∧ between (chunk_range p) x) as Hcover.
  { intros x (i & Hi & Hx)%Hcov. destruct (Hpcov i Hi) as (p & ? & ? & ?). exists p. split; [done|]. destruct Hx. split; lia. }
  split; [apply Forall_forall; intros p (x & y & [? _]%Hin & [? _]%Hin & ? & ?)%Hp; by exists x, y|].
  assert (concat (slice <$> planned) = rows) as Hslices.
  { rewrite (sorted_split position (chunk_range <$> planned) rows).
    - rewrite <- list_fmap_compose. f_equal. apply list_fmap_ext. intros k p Hk%list_elem_of_lookup_2. cbn.
      destruct (Hp p Hk) as (x & y & [_ Hx]%Hin & [_ Hy]%Hin & Hr & _). symmetry. apply filter_filter. intros z. rewrite Hr. unfold in_range. cbn. lia.
    - eapply StronglySorted_impl; [|exact Hrows]. cbn. lia.
    - done.
    - apply Forall_fmap, Forall_forall. intros p (x & y & _ & _ & Hr & ?)%Hp. change ((chunk_range p).1 ≤ (chunk_range p).2). by rewrite Hr.
    - intros x (p & ? & ?)%Hcover. exists (chunk_range p). split; [by apply list_elem_of_fmap_2|done]. }
  destruct planned as [|p planned _] using rev_ind.
  { destruct rows as [|x rows]; [done|]. destruct (Hcover x) as (p & ?%elem_of_nil & _); [by left|done]. }
  destruct (Hp p) as (x & y & [_ Hx]%Hin & [_ Hy]%Hin & Hr & Hle); [rewrite elem_of_app; right; by left|].
  exists (position y). split_and!; [lia|lia| |done|].
  - rewrite fmap_app. cbn [fmap list_fmap]. by rewrite last_snoc, Hr.
  - apply list_filter_iff'. intros z Hz. unfold in_range. cbn. split; [|lia]. intros Hzr. split; [lia|].
    destruct (Hcover z) as (p' & Hp' & [_ Hzp]); [by apply list_elem_of_filter|]. rewrite fmap_app in Hpap.
    apply elem_of_app in Hp' as [Hp'| ->%list_elem_of_singleton]; [|by rewrite Hr in Hzp].
    assert ((chunk_range p').2 < (chunk_range p).1) as Hlt.
    { eapply (StronglySorted_app_1_elem_of (λ a b : Z * Z, a.2 < b.1)); [exact Hpap|by apply list_elem_of_fmap_2|by left]. }
    rewrite Hr in Hlt. cbn in *. lia.
Qed.

Notation publish_chunks := (publish_commitment_chunks pin_cid audit_error service_name store_error commitment_error db commitment_row_limit).

Lemma commitment_chunks_return fuel max_position start chunks0 :
  0 ≤ start → max_position ≤ i64_max → (Z.to_nat (max_position + 1 - start) < fuel)%nat →
  returns (publish_chunks fuel chain scope max_block max_position start chunks0)
    (λ r, ∃ chunks parts, r = Some (chunks0 ++ chunks) ∧ concat parts = window start max_position ∧ Forall2 commitment_chunk_of chunks parts).
Proof.
  revert start chunks0. induction fuel as [|fuel IH]; intros start chunks0 Hstart Hmax Hfuel; [lia|]. cbn [publish_commitment_chunks].
  case_decide as Hd.
  { apply returns_ret. exists [], []. rewrite app_nil_r. split_and!; [done| |constructor]. symmetry. apply filter_none.
    apply Forall_forall. intros x _ [? ?]. cbn in *. lia. }
  set (stop := Z.min _ _). assert (start ≤ stop ≤ max_position) as Hstop.
  { unfold stop, saturating_add, saturating_sub, i64_max, u64_max in *. lia. }
  assert (saturating_add u64_max stop 1 = stop + 1) as Hnext by (unfold saturating_add, i64_max, u64_max in *; lia).
  eapply returns_bind; [apply returns_store_read|]. intros rows. rewrite Hread by lia. intros [= <-]. case_decide as Hnil.
  - rewrite Hnext. eapply returns_mono; [apply IH; lia|]. intros r (chunks & parts & -> & Hparts & HF). exists chunks, parts.
    split_and!; [done| |done]. by rewrite (window_cut start stop max_position), Hnil, Hparts by lia.
  - eapply returns_bind; [apply returns_lift_err|]. intros items Hitems. eapply returns_bind; [apply returns_lift|]. intros planned Hplanned.
    destruct (planned_window start stop items planned Hnil Hitems Hplanned) as (Hanchored & mid & Hmid & Hlast & Hslices & Hwin).
    eapply returns_bind; [by apply planned_chunks_return|]. intros st (chunks & -> & HF). rewrite Hlast. change (default start (Some (mid + 1))) with (mid + 1).
    eapply returns_mono; [apply IH; lia|]. intros r (chunks' & parts & -> & Hparts & HF').
    exists (chunks ++ chunks'), ((slice <$> planned) ++ parts). rewrite app_assoc, concat_app, Hslices, Hparts, Hwin.
    split_and!; [done| |by apply Forall2_app]. symmetry. apply window_cut; lia.
Qed.
End loop.

(** ** The last position *)
Section positions.
Context `{TreeCrate} `{PoiTypes}.

Definition summary_last (summary : StoredCommitmentTreeSummary) : Z := ts_tree_number summary * TREE_LEAF_COUNT + (ts_leaf_count summary - 1).

(** The fold of the summaries is the greatest of their last positions. *)
Lemma max_position_spec ss acc m :
  try_fold summary_position acc ss = Ok m →
  (∀ s, s ∈ ss → ∃ p, m = Some p ∧ summary_last s ≤ p) ∧ (∀ a, acc = Some a → ∃ p, m = Some p ∧ a ≤ p) ∧
  ∀ p, m = Some p → acc = Some p ∨ ∃ s, s ∈ ss ∧ summary_last s = p.
Proof.
  revert acc. induction ss as [|s ss IH]; intros acc; cbn [try_fold].
  - intros [= ->]. split_and!; [by intros ? ?%elem_of_nil|by intros a ->; exists a|by left].
  - intros Hf. res_inv. match goal with E : summary_position _ _ = _ |- _ => unfold summary_position in E; res_inv; int_facts end.
    apply IH in Hf as (Hss & Hacc & Hp). destruct (Hacc _ eq_refl) as (p & -> & Hle).
    assert (summary_last s ≤ p ∧ ∀ a, acc = Some a → a ≤ p) as [Hs Ha].
    { unfold summary_last. destruct acc as [a|]; split; intros; simplify_eq; lia. }
    split_and!.
    + intros s' [->|?]%elem_of_cons; [by exists p|by apply Hss].
    + intros a ?. exists p. split; [done|by apply Ha].
    + intros p' [= <-]. destruct (Hp p eq_refl) as [[= Hm]|(s' & ? & ?)]; [|right; exists s'; split; [by right|done]].
      unfold summary_last. destruct acc as [a|]; [|right; exists s; split; [by left|lia]].
      destruct (Z.max_spec a (ts_tree_number s * TREE_LEAF_COUNT + (ts_leaf_count s - 1))) as [[_ Hmax]|[_ Hmax]].
      * right. exists s. split; [by left|]. lia.
      * left. f_equal. lia.
Qed.

(** Every stored row is in a summarised tree. *)
Lemma summaries_cover db chain_type chain_id contract through_block scope tb ss c :
  scope_of chain_type chain_id contract = Ok scope → opt_u64_to_i64 through_block "indexed_through_block" = Ok tb →
  commitment_tree_summaries db chain_type chain_id contract through_block = Ok ss → c ∈ all_commitments db scope tb →
  ∃ s, s ∈ ss ∧ ts_tree_number s = cc_tree c.
Proof.
  intros Hs Htb. unfold commitment_tree_summaries. rewrite Hs, Htb. cbn [mbind result_bind]. rewrite try_map_Ok. intros HF Hc.
  assert (cc_tree c ∈ sort_by_key id (remove_dups (cc_tree <$> all_commitments db scope tb))) as Ht.
  { rewrite sort_by_key_perm, elem_of_remove_dups. by apply list_elem_of_fmap_2. }
  apply (list_elem_of_fmap_2 (tree_summary (all_commitments db scope tb))), list_elem_of_lookup in Ht as [i Hi].
  destruct (Forall2_lookup_l _ _ _ _ _ HF Hi) as (s & Hsi & Hd). exists s. split; [by apply list_elem_of_lookup_2 in Hsi|].
  cbn in Hd. apply bind_Ok in Hd as (x & Hx & Hd). apply bind_Ok in Hd as (? & _ & Hd). apply bind_Ok in Hd as (? & _ & [= <-]). cbn.
  unfold i64_to_u32 in Hx. case_decide; [|done]. by injection Hx as <-.
Qed.
End positions.

(** ** The commitment log *)
Lemma filter_fmap {A B} (f : A → B) (P : B → Prop) `{∀ x, Decision (P x)} (l : list A) : filter P (f <$> l) = f <$> filter (λ x, P (f x)) l.
Proof. induction l as [|x l IH]; [done|]. rewrite fmap_cons, !filter_cons, IH. by case_decide. Qed.
Lemma StronglySorted_strict {A} (f : A → Z) l :
  StronglySorted (λ x y, f x ≤ f y) l → NoDup (f <$> l) → StronglySorted (λ x y, f x < f y) l.
Proof.
  induction 1 as [|x l _ IH Hx]; [constructor|]. rewrite fmap_cons, NoDup_cons. intros [Hn Hnd]. constructor; [by apply IH|].
  rewrite Forall_forall in *. intros y Hy. specialize (Hx y Hy). assert (f y ∈ f <$> l) by (by apply list_elem_of_fmap_2).
  destruct (decide (f x = f y)); [congruence|lia].
Qed.

Section commitment_catalog.
Context `{ArtifactCrate} `{TreeCrate} `{PoiTypes} `{CidCrate} `{ManifestCrate} `{CatalogCrate}.
Context (pin_cid : bytes → Cid) (audit_error : AuditError → string) (service_name : string).
Context (store_error : StoreError → string) (commitment_error : CommitmentChunkError Cid → string) (db : ChainDb).

(** The commitments of a chain up to a block, in tree order. *)
Definition commitment_log (key : Scope) (max_block : Z) : list StoredCommitmentRow :=
  stored_of <$> sort_cmp_key commitment_key (all_commitments db key (Some max_block)).

Section log.
Context (chain : ChainIndexedChainConfig) (key : Scope) (max_block : Z).
Hypothesis Hkey : scope_of EVM_CHAIN_TYPE (cfg_chain_id chain) (cfg_railgun_contract chain) = Ok key.
Hypothesis Hblock : max_block ≤ i64_max.
Notation rows := (all_commitments db key (Some max_block)).

Lemma through_Ok : opt_u64_to_i64 (Some max_block) "indexed_through_block" = Ok (Some max_block).
Proof. unfold opt_u64_to_i64. by rewrite u64_to_i64_id. Qed.

(** The last position of the summaries is that of the log. *)
Lemma log_last ss m :
  summaries_of db chain max_block = Ok ss → try_fold summary_position None ss = Ok m →
  match m with
  | None => rows = []
  | Some p => (∃ c, c ∈ rows ∧ cc_global c = p) ∧ ∀ c, c ∈ rows → cc_global c ≤ p
  end.
Proof.
  intros Hss (Hle & _ & Hatt)%max_position_spec.
  assert (∀ c, c ∈ rows → ∃ s, s ∈ ss ∧ cc_global c ≤ summary_last s) as Hcov.
  { intros c Hc. destruct (summaries_cover _ _ _ _ _ _ _ _ _ Hkey through_Ok Hss Hc) as (s & Hs & Ht). exists s. split; [done|].
    destruct (summaries_Ok _ _ _ _ _ _ _ _ _ Hkey through_Ok Hss Hs) as [Htree Hsum]. apply tree_summary_spec in Htree.
    rewrite Hsum in Htree. destruct Htree as [_ Hm]. destruct (Hm c Hc) as [? _]; [done|]. unfold cc_global, summary_last. rewrite Ht. lia. }
  destruct m as [p|].
  - split.
    + destruct (Hatt p eq_refl) as [?|(s & Hs & <-)]; [done|].
      destruct (summaries_Ok _ _ _ _ _ _ _ _ _ Hkey through_Ok Hss Hs) as [Htree Hsum]. apply tree_summary_spec in Htree.
      rewrite Hsum in Htree. destruct Htree as [(c & Hc & Ht & Hp) _]. exists c. split; [done|]. unfold cc_global, summary_last. by rewrite Ht, Hp.
    + intros c (s & Hs & Hcs)%Hcov. destruct (Hle s Hs) as (? & [= <-] & ?). lia.
  - destruct rows as [|c l]; [done|]. destruct (Hcov c) as (s & Hs & _); [by left|]. by destruct (Hle s Hs) as (? & ? & _).
Qed.
Hypothesis Hok : Forall commitment_ok rows.
Hypothesis Hnd : NoDup (cc_global <$> rows).

Lemma commitment_key_NoDup : NoDup (commitment_key <$> rows).
Proof. apply (NoDup_fmap_1 (λ k : Z * Z * Z, k.1.1)). by rewrite <- list_fmap_compose. Qed.

Lemma log_read a b : a ≤ i64_max → b ≤ i64_max → tree_rows db chain a b max_block = Ok (filter (between (a, b)) (commitment_log key max_block)).
Proof.
  intros Ha Hb. unfold tree_rows, commitment_log. rewrite (commitment_rows_Ok _ _ _ _ _ _ _ key (Some max_block)); [|done|apply through_Ok|done..].
  rewrite filter_fmap, sort_cmp_key_filter by apply commitment_key_NoDup. done.
Qed.
Lemma log_ascending : ascending (commitment_log key max_block).
Proof.
  apply StronglySorted_fmap. apply (StronglySorted_strict cc_global).
  - eapply StronglySorted_impl; [|apply (sort_cmp_key_sorted commitment_key)]. intros x y. unfold cmp_leb. cbn.
    unfold prod_cmp_fun. cbn. unfold prod_cmp_fun. cbn. destruct (Z.compare_spec (cc_global x) (cc_global y)); cbn; [lia|lia|done].
  - unfold sort_cmp_key. by rewrite sort_by_perm.
Qed.
Lemma row_bounds c : c ∈ rows → 0 ≤ cc_global c ≤ i64_max.
Proof.
  intros Hc. rewrite Forall_forall in Hok. destruct (Hok c Hc) as (? & ? & _ & ? & _). pose proof tree_leaf_count_pos. unfold cc_global. nia.
Qed.
Lemma elem_of_log x : x ∈ commitment_log key max_block ↔ ∃ c, x = stored_of c ∧ c ∈ rows.
Proof. unfold commitment_log, sort_cmp_key. rewrite list_elem_of_fmap. by setoid_rewrite (sort_by_perm _ rows). Qed.
Lemma log_bounds : Forall (λ x, 0 ≤ position x ≤ i64_max) (commitment_log key max_block).
Proof. apply Forall_forall. intros x (c & -> & ?)%elem_of_log. by apply row_bounds. Qed.
End log.

(** C20. The commitment catalog is complete: when no two stored commitments claim
    the same tree position, a run that returns returns the catalog of chunks
    that partition the commitments up to the block, in tree order, into
    consecutive parts, whatever the windows and the plan; the loop over the
    windows reaches the last position within as many steps as there are
    positions. A chain without commitments has no catalog. *)
Theorem commitment_catalog_complete commitment_row_limit chain scope max_block key fuel w result :
  scope_of EVM_CHAIN_TYPE (cfg_chain_id chain) (cfg_railgun_contract chain) = Ok key → max_block ≤ i64_max →
  Forall commitment_ok (all_commitments db key (Some max_block)) → NoDup (cc_global <$> all_commitments db key (Some max_block)) →
  Forall (λ c, (Z.to_nat (cc_global c + 1) < fuel)%nat) (all_commitments db key (Some max_block)) →
  (publish_commitment_catalog pin_cid audit_error service_name store_error commitment_error db commitment_row_limit fuel chain scope max_block w).1 =
    Ok result →
  ∃ catalogs chunks parts,
    result = Some catalogs ∧ concat parts = commitment_log key max_block ∧ Forall2 (commitment_chunk_of scope) chunks parts ∧
    if decide (commitment_log key max_block = []) then catalogs = [] else catalog_of scope Commitments DerivedFromChunks chunks catalogs.
Proof.
  intros Hkey Hblock Hok Hnd Hfuel. revert w result. unfold publish_commitment_catalog. eapply returns_bind; [apply returns_store_read|].
  intros ss Hss. eapply returns_bind; [apply returns_lift|]. intros m Hm. pose proof (log_last chain key max_block Hkey Hblock ss m Hss Hm) as Hlast.
  destruct m as [p|].
  - destruct Hlast as [(c0 & Hc0 & Hp) Hmax]. pose proof (row_bounds key max_block Hok c0 Hc0) as Hb.
    rewrite Forall_forall in Hfuel. specialize (Hfuel c0 Hc0).
    assert (filter (between (0, p)) (commitment_log key max_block) = commitment_log key max_block) as Hall.
    { apply filter_all, Forall_forall. intros x (c & -> & Hc)%elem_of_log. pose proof (row_bounds key max_block Hok c Hc). specialize (Hmax c Hc).
      unfold in_range. cbn. lia. }
    eapply returns_bind.
    { eapply (commitment_chunks_return _ _ _ _ _ db commitment_row_limit chain scope max_block (commitment_log key max_block));
        [by apply log_read|by apply log_ascending|by apply log_bounds|lia|lia|lia]. }
    intros r (chunks & parts & -> & Hparts & HF). rewrite Hall in Hparts. cbn [app].
    eapply returns_bind; [apply publish_catalogs_returns|]. intros catalogs Hc. apply returns_ret.
    exists catalogs, chunks, parts. split_and!; [done..|].
    assert (stored_of c0 ∈ commitment_log key max_block) as Hin by (apply elem_of_log; by exists c0).
    rewrite decide_False by (intros Hnil; rewrite Hnil in Hin; by apply elem_of_nil in Hin).
    destruct HF; [|done]. rewrite <- Hparts in Hin. by apply elem_of_nil in Hin.
  - apply returns_ret. exists [], [], []. assert (commitment_log key max_block = []) as -> by (unfold commitment_log; by rewrite Hlast).
    by rewrite decide_True.
Qed.
End commitment_catalog.
