(* ===== verification/CatalogRun.v ===== *)
(** * A run of the publisher

    The catalog statements at small tables, with concrete crates: a chunk is
    its payload, a CID spells the bytes, and the planner makes every unit a
    chunk. *)

From S2P Require Import Prelude Order Wire Ipfs Artifacts CommitmentChunk MerkleCheckpointChunk WalletScanChunk PublicTxidChunk ChainLogs PoiStore ChainStore StoreQueries AuditLog Retention Publication PublicationSafety Catalog CatalogComplete CommitmentCatalog.

#[local] Existing Instance plain_crate.
#[local] Existing Instance toy_tree.
#[local] Existing Instance toy_cids.
#[local] Existing Instance toy_manifests.

Definition plan_alone (i : ChunkPlanItem) : PlannedChunk := mkPlanned (plan_range i) (plan_row_count i).
Lemma plan_alone_groups items planned :
  Ok (E := string) (plan_alone <$> items) = Ok planned → ∃ groups, concat groups = items ∧ Forall2 plans planned groups.
Proof.
  intros [= <-]. exists ((λ i, [i]) <$> items). split; [induction items; cbn; by f_equal|].
  apply Forall2_fmap_2, Forall_Forall2_diag, Forall_forall. intros i _. cbn. split_and!; [done|done|lia].
Qed.
#[local] Instance toy_catalogs : CatalogCrate := {|
  INDEXED_ARTIFACT_CATALOG_FORMAT_VERSION := 1;
  plan_chunks items := Ok (plan_alone <$> items);
  plan_chunks_groups := plan_alone_groups;
  catalog_new := λ kind scope chunks, mkCatalog kind scope chunks;
  deterministic_body_bytes := λ catalog, Ok (concat (json_bytes ∘ desc_cid <$> cat_chunks catalog));
|}.

(** The second of the three transactions is omitted. *)
Definition toy_chain_config : ChainIndexedChainConfig :=
  mkChainConfig 1 192 5 [PublicTxid; WalletScan; Commitments] [mkOmission 6 101 0].
Definition toy_entry_scope : ChainScope := mkScope Evm 1 192.
Definition toy_publisher_world : Publication.World := initial_world ∅ [] 10.
Notation shown := (λ _, "error"%string).

Definition toy_txid_run :=
  publish_public_txid_catalog toy_pin shown "toy" shown shown toy_tables 1 4 toy_chain_config toy_entry_scope 300 toy_publisher_world.
Definition toy_txid_catalogs : list PublishedCatalog := match toy_txid_run.1 with Ok (Some c) => c | _ => [] end.
Definition toy_log : list StoredPublicTxidRow :=
  match public_txid_log toy_tables toy_scope (Some 300) [(6, 101, 0)] with Ok rows => rows | Err _ => [] end.

Lemma public_txid_catalog_complete_witness :
  length toy_log = 2%nat ∧
  ∃ chunks parts, concat parts = toy_log ∧ Forall2 (txid_chunk_of toy_entry_scope toy_log) chunks parts ∧
    catalog_of toy_entry_scope PublicTxid DerivedFromChunks chunks toy_txid_catalogs.
Proof.
  assert (toy_txid_run.1 = Ok (Some toy_txid_catalogs)) as Hrun by (vm_compute; reflexivity).
  assert (public_txid_log toy_tables toy_scope (Some 300) [(6, 101, 0)] = Ok toy_log) as Hlog by (vm_compute; reflexivity).
  assert (length toy_log = 2%nat) as Hlen by (vm_compute; reflexivity).
  split; [exact Hlen|].
  pose proof (public_txid_catalog_complete (toy_pin : bytes → Cid (CidCrate := toy_cids)) shown "toy" shown shown toy_tables 1 toy_chain_config
    toy_entry_scope 300 toy_scope [(6, 101, 0)] toy_log 4 toy_publisher_world (Some toy_txid_catalogs) eq_refl eq_refl Hlog) as Hthm.
  rewrite Hlen in Hthm. specialize (Hthm ltac:(unfold i64_max; lia) ltac:(unfold i64_max; lia) ltac:(unfold i64_max; lia) ltac:(lia) Hrun).
  destruct Hthm as (catalogs & chunks & parts & Heq & Hparts & HF & Hcat & _).
  apply (inj Some) in Heq. rewrite <- Heq in Hcat. exists chunks, parts. split; [exact Hparts|]. split; [exact HF|].
  destruct (decide (toy_log = [])) as [Hnil|_]; [exfalso; rewrite Hnil in Hlen; discriminate Hlen|exact Hcat].
Defined.

Definition toy_wallet_run :=
  publish_wallet_scan_catalog toy_pin shown "toy" shown shown toy_tables toy_chain_config toy_entry_scope 300 toy_publisher_world.
Definition toy_wallet_catalogs : list PublishedCatalog := match toy_wallet_run.1 with Ok c => c | Err _ => [] end.
Definition toy_wallet_rows : StoredWalletScanRows :=
  match wallet_rows toy_tables toy_chain_config 5 300 with Ok rows => rows | Err _ => mkWalletRows [] [] [] [] [] end.

Lemma wallet_scan_catalog_complete_witness :
  ∃ chunks parts,
    catalog_of toy_entry_scope WalletScan (ExplicitBlockRange 5 300) chunks toy_wallet_catalogs ∧
    Forall2 (wallet_chunk_of toy_tables toy_chain_config toy_entry_scope) chunks parts ∧ toy_wallet_rows = wallet_concat parts.
Proof.
  assert (toy_wallet_run.1 = Ok toy_wallet_catalogs) as Hrun by (vm_compute; reflexivity).
  assert (wallet_rows toy_tables toy_chain_config 5 300 = Ok toy_wallet_rows) as Hrows by (vm_compute; reflexivity).
  pose proof (wallet_scan_catalog_complete (toy_pin : bytes → Cid (CidCrate := toy_cids)) shown "toy" shown shown toy_tables toy_chain_config toy_entry_scope 300 toy_scope
    toy_wallet_rows toy_publisher_world toy_wallet_catalogs eq_refl Hrows Hrun) as Hw.
  rewrite decide_False in Hw by (cbn; lia).
  destruct Hw as (chunks & parts & catalog & _ & Hcat & _ & _ & HF & Hall). exists chunks, parts. split; [exact Hcat|]. split; [exact HF|exact Hall].
Defined.

Definition toy_commitment_run :=
  publish_commitment_catalog toy_pin shown "toy" shown shown toy_tables 2 4 toy_chain_config toy_entry_scope 300 toy_publisher_world.
Definition toy_commitment_catalogs : list PublishedCatalog := match toy_commitment_run.1 with Ok (Some c) => c | _ => [] end.

Lemma commitment_catalog_complete_witness :
  length (commitment_log toy_tables toy_scope 300) = 2%nat ∧
  ∃ chunks parts, concat parts = commitment_log toy_tables toy_scope 300 ∧ Forall2 (commitment_chunk_of toy_entry_scope) chunks parts ∧
    catalog_of toy_entry_scope Commitments DerivedFromChunks chunks toy_commitment_catalogs.
Proof.
  assert (toy_commitment_run.1 = Ok (Some toy_commitment_catalogs)) as Hrun by (vm_compute; reflexivity).
  assert (length (commitment_log toy_tables toy_scope 300) = 2%nat) as Hlen by (vm_compute; reflexivity). split; [exact Hlen|].
  pose proof (commitment_catalog_complete (toy_pin : bytes → Cid (CidCrate := toy_cids)) shown "toy" shown shown toy_tables 2 toy_chain_config
    toy_entry_scope 300 toy_scope 4 toy_publisher_world (Some toy_commitment_catalogs) eq_refl ltac:(unfold i64_max; lia) toy_commitments_ok) as Hthm.
  specialize (Hthm ltac:(apply (bool_decide_unpack _); vm_compute; exact I)).
  specialize (Hthm ltac:(apply (bool_decide_unpack _); vm_compute; exact I)).
  specialize (Hthm Hrun). destruct Hthm as (catalogs & chunks & parts & Heq & Hparts & HF & Hcat).
  apply (inj Some) in Heq. rewrite <- Heq in Hcat. exists chunks, parts. split; [exact Hparts|]. split; [exact HF|].
  destruct (decide (commitment_log toy_tables toy_scope 300 = [])) as [Hnil|_]; [exfalso; rewrite Hnil in Hlen; discriminate Hlen|exact Hcat].
Defined.
