(* ===== verification/TimestampBackfill.v ===== *)
(** * Timestamp backfill ([store.rs], [backfill_indexed_log_timestamps.rs])

    Log rows stored before block timestamps were have none. The backfill tool
    first copies timestamps between rows of the same block, then resolves the
    remaining blocks in batches, from the Squid index or the archive node, and
    updates their rows. A 32-byte block hash is the integer it encodes. The
    pages of the Squid service and the order in which the database lists the
    groups of one block number are parameters. *)

From stdpp Require Import pretty.
From S2P Require Import Prelude Order Wire Ipfs Artifacts MerkleCheckpointChunk ChainLogs Calldata Traces Hydrate PoiStore ChainStore StoreQueries Catalog.

Record StoredMissingWalletScanTimestampBlock := mkMissingBlock {
  mb_block_number : Z;
  mb_block_hash : Z;
  mb_missing_rows : Z;
}.
Record StoredWalletScanTimestampBackfill := mkTimestamp {
  bf_block_number : Z;
  bf_block_hash : Z;
  bf_block_timestamp : Z;
}.

(** ** The wallet-scan tables *)

(** A row with source columns; [eligible] is the extra predicate of the
    statements, [ciphertext IS NOT NULL] for transact commitments. *)
Class SourceRow (R : Type) := {
  row_cols : R → SourceCols;
  set_cols : SourceCols → R → R;
  eligible : R → bool;
  row_set_cols c r : row_cols (set_cols c r) = c;
  eligible_set_cols c r : eligible (set_cols c r) = eligible r;
}.
#[export] Instance transact_source : SourceRow (SourceCols * Z * option bytes) := {|
  row_cols r := r.1.1;
  set_cols c r := (c, r.1.2, r.2);
  eligible r := bool_decide (r.2 ≠ None);
  row_set_cols _ _ := eq_refl;
  eligible_set_cols _ _ := eq_refl;
|}.
#[export] Instance preimage_source : SourceRow (SourceCols * Z * bytes * bytes) := {|
  row_cols r := r.1.1.1;
  set_cols c r := (c, r.1.1.2, r.1.2, r.2);
  eligible _ := true;
  row_set_cols _ _ := eq_refl;
  eligible_set_cols _ _ := eq_refl;
|}.
#[export] Instance nullifier_source : SourceRow SourceCols := {|
  row_cols r := r;
  set_cols c _ := c;
  eligible _ := true;
  row_set_cols _ _ := eq_refl;
  eligible_set_cols _ _ := eq_refl;
|}.
#[export] Instance encrypted_source : SourceRow (SourceCols * Z * bytes) := {|
  row_cols r := r.1.1;
  set_cols c r := (c, r.1.2, r.2);
  eligible _ := true;
  row_set_cols _ _ := eq_refl;
  eligible_set_cols _ _ := eq_refl;
|}.

Definition set_timestamp (timestamp : Z) (cols : SourceCols) : SourceCols :=
  mkSourceCols (Some timestamp) (co_block_hash cols) (co_transaction_hash cols) (co_log_index cols).

Section table.
Context {R : Type} `{SourceRow R} (scope : Scope).
Implicit Types (row : Z * R) (m : gmap (Scope * (Z * Z)) (Z * R)).

Definition unstamped row : Prop := eligible row.2 = true ∧ co_block_timestamp (row_cols row.2) = None.
#[export] Instance unstamped_dec row : Decision (unstamped row) := ltac:(unfold unstamped; apply _).
(** (block_number, block_hash) *)
Definition row_block row : Z * Z := (row.1, co_block_hash (row_cols row.2)).

(** The blocks of the rows of a range without a timestamp, one per row. *)
Definition missing_sources (start_block end_block : Z) m : list (Z * Z) :=
  (λ e, row_block e.2) <$> filter (λ e, unstamped e.2 ∧ start_block ≤ e.2.1 ≤ end_block) (scoped scope m).
(** (block, timestamp) of the rows of a range that have one. *)
Definition timestamped (start_block end_block : Z) m : list (Z * Z * Z) :=
  omap (λ e, timestamp ← co_block_timestamp (row_cols e.2.2); Some (row_block e.2, timestamp))
    (filter (λ e : (Z * Z) * (Z * R), start_block ≤ e.2.1 ≤ end_block) (scoped scope m)).

(** [UPDATE .. SET block_timestamp .. WHERE block_timestamp IS NULL]: what
    becomes of a row that is hit. *)
Definition stamp (updates : Z * Z → option Z) row : option (Z * R) :=
  if decide (unstamped row) then
    timestamp ← updates (row_block row);
    Some (row.1, set_cols (set_timestamp timestamp (row_cols row.2)) row.2)
  else None.
Definition stamp_table (updates : Z * Z → option Z) m : gmap (Scope * (Z * Z)) (Z * R) :=
  map_imap (λ k row, Some (if decide (k.1 = scope) then default row (stamp updates row) else row)) m.
Definition rows_affected (updates : Z * Z → option Z) m : nat :=
  length (filter (λ e : (Z * Z) * (Z * R), is_Some (stamp updates e.2)) (scoped scope m)).
End table.

(** [SELECT block_number, block_hash, MIN(t) .. GROUP BY .. HAVING MIN(t) = MAX(t)] *)
Definition agreed (source : list (Z * Z * Z)) (block : Z * Z) : option Z :=
  let timestamps := snd <$> filter (λ u : Z * Z * Z, u.1 = block) source in
  lo ← min_list timestamps;
  hi ← max_list timestamps;
  if decide (lo = hi) then Some lo else None.

Definition all_missing_sources (db : ChainDb) (scope : Scope) (start_block end_block : Z) : list (Z * Z) :=
  missing_sources scope start_block end_block (indexed_transact_commitments db) ++
  missing_sources scope start_block end_block (indexed_shield_commitments db) ++
  missing_sources scope start_block end_block (indexed_nullifiers db) ++
  missing_sources scope start_block end_block (indexed_legacy_encrypted_commitments db) ++
  missing_sources scope start_block end_block (indexed_legacy_generated_commitments db).

(** The sources of a local backfill. *)
Definition timestamp_sources (db : ChainDb) (scope : Scope) (start_block end_block : Z) : list (Z * Z * Z) :=
  ((λ e : (Z * Z) * (Z * PublicTxidRow), (e.2.1, tr_block_hash e.2.2, tr_block_timestamp e.2.2)) <$>
     filter (λ e : (Z * Z) * (Z * PublicTxidRow), start_block ≤ e.2.1 ≤ end_block) (scoped scope (indexed_public_txid_rows db))) ++
  omap (λ e : Z * (Z * PublicTransactionRow), t ← pr_block_timestamp e.2.2; Some (e.2.1, pr_block_hash e.2.2, t))
    (filter (λ e : Z * (Z * PublicTransactionRow), start_block ≤ e.2.1 ≤ end_block) (scoped scope (indexed_public_transactions db))) ++
  timestamped scope start_block end_block (indexed_transact_commitments db) ++
  timestamped scope start_block end_block (indexed_shield_commitments db) ++
  timestamped scope start_block end_block (indexed_nullifiers db) ++
  timestamped scope start_block end_block (indexed_legacy_encrypted_commitments db) ++
  timestamped scope start_block end_block (indexed_legacy_generated_commitments db).

(** The five statements of a backfill; the updates of each are read from the
    tables as the ones before left them. *)
Definition with_wallet_tables (db : ChainDb) t s n e g : ChainDb :=
  mkChainDb t s n e g (indexed_public_transactions db) (indexed_public_txid_rows db) (indexed_block_checkpoints db)
    (indexed_block_headers db) (chain_indexing_progress_table db).
Definition update_statements (scope : Scope) (updates : ChainDb → Z * Z → option Z) : list (ChainDb → nat * ChainDb) :=
  [ (λ db, let m := indexed_transact_commitments db in (rows_affected scope (updates db) m,
       with_wallet_tables db (stamp_table scope (updates db) m) (indexed_shield_commitments db) (indexed_nullifiers db)
         (indexed_legacy_encrypted_commitments db) (indexed_legacy_generated_commitments db)));
    (λ db, let m := indexed_shield_commitments db in (rows_affected scope (updates db) m,
       with_wallet_tables db (indexed_transact_commitments db) (stamp_table scope (updates db) m) (indexed_nullifiers db)
         (indexed_legacy_encrypted_commitments db) (indexed_legacy_generated_commitments db)));
    (λ db, let m := indexed_nullifiers db in (rows_affected scope (updates db) m,
       with_wallet_tables db (indexed_transact_commitments db) (indexed_shield_commitments db) (stamp_table scope (updates db) m)
         (indexed_legacy_encrypted_commitments db) (indexed_legacy_generated_commitments db)));
    (λ db, let m := indexed_legacy_encrypted_commitments db in (rows_affected scope (updates db) m,
       with_wallet_tables db (indexed_transact_commitments db) (indexed_shield_commitments db) (indexed_nullifiers db)
         (stamp_table scope (updates db) m) (indexed_legacy_generated_commitments db)));
    (λ db, let m := indexed_legacy_generated_commitments db in (rows_affected scope (updates db) m,
       with_wallet_tables db (indexed_transact_commitments db) (indexed_shield_commitments db) (indexed_nullifiers db)
         (indexed_legacy_encrypted_commitments db) (stamp_table scope (updates db) m))) ].
Definition run_statements (statements : list (ChainDb → nat * ChainDb)) (db : ChainDb) : Z * ChainDb :=
  foldl (λ st statement, let '(affected, db) := statement st.2 in (saturating_add u64_max st.1 (Z.of_nat affected), db)) (0, db) statements.

(** ** The operations of the store *)
Section store.
(** the order in which the database lists equal block numbers *)
Context (group_order : list (Z * Z) → list (Z * Z)).

Definition missing_wallet_scan_timestamp_blocks (db : ChainDb) (chain_type chain_id contract start_block end_block limit : Z)
    : sresult (list StoredMissingWalletScanTimestampBlock) :=
  if decide (end_block < start_block) then Ok []
  else if decide (limit = 0) then Err (IntegerOutOfRange "limit" (pretty limit))
  else
    scope ← scope_of chain_type chain_id contract;
    start_block ← u64_to_i64 start_block "start_block";
    end_block ← u64_to_i64 end_block "end_block";
    limit ← u64_to_i64 limit "limit";
    let missing := all_missing_sources db scope start_block end_block in
    try_map (λ block : Z * Z,
      block_number ← i64_to_u64 block.1 "block_number";
      missing_rows ← i64_to_u64 (Z.of_nat (length (filter (λ b, b = block) missing))) "missing_rows";
      Ok (mkMissingBlock block_number block.2 missing_rows))
      (take (Z.to_nat limit) (sort_by_key fst (group_order (remove_dups missing)))).

Definition count_missing_wallet_scan_timestamps (db : ChainDb) (chain_type chain_id contract start_block end_block : Z) : sresult Z :=
  if decide (end_block < start_block) then Ok 0
  else
    scope ← scope_of chain_type chain_id contract;
    start_block ← u64_to_i64 start_block "start_block";
    end_block ← u64_to_i64 end_block "end_block";
    i64_to_u64 (Z.of_nat (length (all_missing_sources db scope start_block end_block))) "missing_wallet_scan_timestamps".

Definition backfill_wallet_scan_block_timestamps (db : ChainDb) (chain_type chain_id contract : Z)
    (updates : list StoredWalletScanTimestampBackfill) : sresult (Z * ChainDb) :=
  if decide (length updates = 0%nat) then Ok (0, db)
  else
    scope ← scope_of chain_type chain_id contract;
    block_numbers ← try_map (λ u, u64_to_i64 (bf_block_number u) "block_number") updates;
    block_timestamps ← try_map (λ u, u64_to_i64 (bf_block_timestamp u) "block_timestamp") updates;
    let source := zip (zip block_numbers (bf_block_hash <$> updates)) block_timestamps in
    Ok (run_statements (update_statements scope (λ _, agreed source)) db).
Definition backfill_wallet_scan_block_timestamp (db : ChainDb) (chain_type chain_id contract block_number : Z) (block_hash : bytes)
    (block_timestamp : Z) : sresult (Z * ChainDb) :=
  block_hash ← exact_array 32 "block_hash" block_hash;
  backfill_wallet_scan_block_timestamps db chain_type chain_id contract [mkTimestamp block_number (be_value block_hash) block_timestamp].

Definition backfill_wallet_scan_timestamps_from_local_sources (db : ChainDb) (chain_type chain_id contract start_block end_block : Z)
    : sresult (Z * ChainDb) :=
  if decide (end_block < start_block) then Ok (0, db)
  else
    scope ← scope_of chain_type chain_id contract;
    start_block ← u64_to_i64 start_block "start_block";
    end_block ← u64_to_i64 end_block "end_block";
    Ok (run_statements (update_statements scope (λ db, agreed (timestamp_sources db scope start_block end_block))) db).

(** ** The tool *)
Inductive TimestampSource := SourceRpc | SourceSquid.
#[export] Instance TimestampSource_dec : EqDecision TimestampSource.
Proof. solve_decision. Defined.
Record ResolvedTimestamp := mkResolved {
  rs_block_number : Z;
  rs_block_hash : Z;
  rs_block_timestamp : Z;
  rs_missing_rows : Z;
}.
Inductive SquidTimestampFilter := BlockList (block_numbers : list Z) | BlockRange (min_block max_block : Z).

Definition SQUID_BLOCK_NUMBER_FILTER_LIMIT : nat := 1000.
Definition SQUID_TIMESTAMP_FIELDS : list string :=
  ["transactCommitments"; "shieldCommitments"; "nullifiers"; "legacyEncryptedCommitments"; "legacyGeneratedCommitments"]%string.

(** [str::parse::<u64>] *)
Fixpoint parse_digits (acc : Z) (s : string) : option Z :=
  match s with
  | EmptyString => Some acc
  | String c s =>
      let d := Z.of_N (Ascii.N_of_ascii c) - 48 in
      if decide (0 ≤ d ≤ 9 ∧ acc * 10 + d ≤ u64_max) then parse_digits (acc * 10 + d) s else None
  end.
Definition parse_u64 (s : string) : option Z :=
  match s with
  | EmptyString => None
  | String c rest =>
      (* a leading plus sign *)
      if decide (Ascii.N_of_ascii c = 43%N) then match rest with EmptyString => None | _ => parse_digits 0 rest end
      else parse_digits 0 s
  end.
(** [Value::as_u64] *)
Definition as_u64 (v : Value) : option Z := match v with JNumber n => if decide (0 ≤ n ≤ u64_max) then Some n else None | _ => None end.

Definition u64_field (value : Value) (field : string) : result string Z :=
  value ← ok_or (get field value) (String.append "Squid row missing " field);
  match as_u64 value with
  | Some number => Ok number
  | None =>
      text ← ok_or (as_str value) "Squid field is not a string or number"%string;
      ok_or (parse_u64 text) (String.append "parse Squid field " field)
  end.

Definition record_squid_timestamp (requested : list Z) (timestamps : gmap Z Z) (value : Value) : result string (gmap Z Z) :=
  block_number ← u64_field value "blockNumber";
  if decide (block_number ∉ requested) then Ok timestamps
  else
    block_timestamp ← u64_field value "blockTimestamp";
    match timestamps !! block_number with
    | Some previous =>
        if decide (previous ≠ block_timestamp) then Err "conflicting Squid timestamps"%string
        else Ok (<[block_number := block_timestamp]> timestamps)
    | None => Ok (<[block_number := block_timestamp]> timestamps)
    end.

(** the answer of a page request, after its retries: field, filter, offset, limit *)
Context (squid_page : string → SquidTimestampFilter → Z → Z → result string (list Value)).

(** The paging variables are GraphQL integers. *)
Definition GRAPHQL_INT_MAX : Z := 2 ^ 31 - 1.
Definition squid_timestamp_variables (offset limit : Z) : result string (Z * Z) :=
  offset ← ok_or (try_from GRAPHQL_INT_MAX offset) "Squid offset exceeds GraphQL Int"%string;
  limit ← ok_or (try_from GRAPHQL_INT_MAX limit) "Squid limit exceeds GraphQL Int"%string;
  Ok (offset, limit).
Definition fetch_squid_timestamp_page (field : string) (filter : SquidTimestampFilter) (offset limit : Z) : result string (list Value) :=
  '(offset, limit) ← squid_timestamp_variables offset limit;
  squid_page field filter offset limit.

(** The loop over the pages; [None] is out of fuel. *)
Fixpoint fetch_squid_timestamp_pages (fuel : nat) (field : string) (filter : SquidTimestampFilter) (requested : list Z) (page_size offset : Z)
    (timestamps : gmap Z Z) : option (result string (gmap Z Z)) :=
  match fuel with
  | O => None
  | S fuel =>
      match (page ← fetch_squid_timestamp_page field filter offset page_size; timestamps ← try_fold (record_squid_timestamp requested) timestamps page; Ok (page, timestamps)) with
      | Err e => Some (Err e)
      | Ok (page, timestamps) =>
          if decide (Z.of_nat (length page) < page_size) then Some (Ok timestamps)
          else fetch_squid_timestamp_pages fuel field filter requested page_size (saturating_add u64_max offset page_size) timestamps
      end
  end.

(** The requests of a mode, one after the other. *)
Fixpoint fetch_requests (fuel : nat) (requests : list (string * SquidTimestampFilter)) (requested : list Z) (page_size : Z) (timestamps : gmap Z Z)
    : option (result string (gmap Z Z)) :=
  match requests with
  | [] => Some (Ok timestamps)
  | (field, filter) :: requests =>
      match fetch_squid_timestamp_pages fuel field filter requested page_size 0 timestamps with
      | Some (Ok timestamps) => fetch_requests fuel requests requested page_size timestamps
      | other => other
      end
  end.
Definition fetch_squid_timestamps_with_mode (fuel : nat) (filter : SquidTimestampFilter) (requested : list Z) (page_size : Z)
    : option (result string (gmap Z Z)) :=
  let requests :=
    match filter with
    | BlockList block_numbers =>
        chunk ← chunks SQUID_BLOCK_NUMBER_FILTER_LIMIT block_numbers;
        (λ field, (field, BlockList chunk)) <$> SQUID_TIMESTAMP_FIELDS
    | BlockRange _ _ => (λ field, (field, filter)) <$> SQUID_TIMESTAMP_FIELDS
    end in
  fetch_requests fuel requests requested page_size ∅.
Definition fetch_squid_timestamps (fuel : nat) (block_numbers : list Z) (page_size : Z) : option (result string (gmap Z Z)) :=
  match fetch_squid_timestamps_with_mode fuel (BlockList block_numbers) block_numbers page_size with
  | Some (Err _) =>
      match head block_numbers, last block_numbers with
      | Some min_block, Some max_block => fetch_squid_timestamps_with_mode fuel (BlockRange min_block max_block) block_numbers page_size
      | _, _ => Some (Err "Squid timestamp block list unexpectedly empty"%string)
      end
  | other => other
  end.

(** The block numbers with one hash in the batch, in order, and the others. *)
Definition squid_eligible_block_numbers (missing : list StoredMissingWalletScanTimestampBlock) : list Z * gset Z :=
  let '(block_hashes, ambiguous) :=
    foldl (λ (st : gmap Z Z * gset Z) block,
      (<[mb_block_number block := mb_block_hash block]> st.1,
       match st.1 !! mb_block_number block with
       | Some previous_hash => if decide (previous_hash ≠ mb_block_hash block) then {[mb_block_number block]} ∪ st.2 else st.2
       | None => st.2
       end)) (∅, ∅) missing in
  (sort_by_key id (filter (λ n, n ∉ ambiguous) (map_to_list block_hashes).*1), ambiguous).

Definition resolve_missing_with_squid (fuel : nat) (missing : list StoredMissingWalletScanTimestampBlock) (page_size : Z)
    : option (result string (list ResolvedTimestamp)) :=
  let '(block_numbers, ambiguous_blocks) := squid_eligible_block_numbers missing in
  if decide (length block_numbers = 0%nat) then Some (Ok [])
  else
    match fetch_squid_timestamps fuel block_numbers page_size with
    | None => None
    | Some (Err e) => Some (Err e)
    | Some (Ok timestamps) =>
        Some (Ok (omap (λ block,
          if decide (mb_block_number block ∈ ambiguous_blocks) then None
          else timestamp ← timestamps !! mb_block_number block;
               Some (mkResolved (mb_block_number block) (mb_block_hash block) timestamp (mb_missing_rows block))) missing))
    end.

Definition unresolved_missing_blocks (missing : list StoredMissingWalletScanTimestampBlock) (resolved : list ResolvedTimestamp)
    : list StoredMissingWalletScanTimestampBlock :=
  let resolved_keys := (λ r, (rs_block_number r, rs_block_hash r)) <$> resolved in
  filter (λ b, (mb_block_number b, mb_block_hash b) ∉ resolved_keys) missing.
End store.

(** ** A chain *)
Section chain.
Context (group_order : list (Z * Z) → list (Z * Z)).
(** the rendering of errors *)
Context (store_error : StoreError → string) (ingest_error : ChainLogIngestionError → string).
(** the archive node and the Squid service, where they are configured *)
Context (provider : option EthProvider) (squid : option (string → SquidTimestampFilter → Z → Z → result string (list Value))).
Context (chain : ChainIndexedChainConfig) (from_block to_block block_query_limit squid_page_size : Z).
Context (timestamp_source : TimestampSource) (rpc_fallback dry_run : bool) (page_fuel : nat).

Definition resolve_missing_with_rpc (node : EthProvider) (missing : list StoredMissingWalletScanTimestampBlock) : result string (list ResolvedTimestamp) :=
  try_map (λ block,
    timestamp ← map_err ingest_error (block_timestamp_for_source node (mb_block_hash block) (mb_block_number block));
    Ok (mkResolved (mb_block_number block) (mb_block_hash block) timestamp (mb_missing_rows block))) missing.

(** One batch; [None] is out of fuel for the pages. *)
Definition resolve_batch (missing : list StoredMissingWalletScanTimestampBlock) : option (result string (list ResolvedTimestamp)) :=
  let squid_resolved :=
    if decide (timestamp_source = SourceSquid) then
      match squid with
      | None => Some (Err "missing Squid endpoint"%string)
      | Some squid_page => resolve_missing_with_squid squid_page page_fuel missing squid_page_size
      end
    else Some (Ok []) in
  match squid_resolved with
  | Some (Ok resolved) =>
      let unresolved := unresolved_missing_blocks missing resolved in
      Some (if decide ((timestamp_source = SourceRpc ∨ (rpc_fallback = true ∧ length unresolved ≠ 0%nat)) ∧ length unresolved ≠ 0%nat) then
        node ← ok_or provider "archive RPC provider is unavailable"%string;
        rpc_resolved ← resolve_missing_with_rpc node unresolved;
        Ok (resolved ++ rpc_resolved)
      else Ok resolved)
  | other => other
  end.

Definition apply_resolved_timestamps (db : ChainDb) (resolved : list ResolvedTimestamp) : result string (Z * ChainDb) :=
  if dry_run then Ok (foldr Z.add 0 (rs_missing_rows <$> resolved), db)
  else
    let updates := (λ item, mkTimestamp (rs_block_number item) (rs_block_hash item) (rs_block_timestamp item)) <$> resolved in
    map_err store_error (backfill_wallet_scan_block_timestamps db EVM_CHAIN_TYPE (cfg_chain_id chain) (cfg_railgun_contract chain) updates).

Definition missing_batch (db : ChainDb) : result string (list StoredMissingWalletScanTimestampBlock) :=
  map_err store_error (missing_wallet_scan_timestamp_blocks group_order db EVM_CHAIN_TYPE (cfg_chain_id chain) (cfg_railgun_contract chain)
    from_block to_block block_query_limit).

(** The loop, with (blocks, rows) so far. What an iteration wrote is committed
    before the next one. *)
Fixpoint backfill_loop (fuel : nat) (db : ChainDb) (totals : Z * Z) : option (result string (Z * Z) * ChainDb) :=
  match fuel with
  | O => None
  | S fuel =>
      match missing_batch db with
      | Err e => Some (Err e, db)
      | Ok [] => Some (Ok totals, db)
      | Ok missing =>
          match resolve_batch missing with
          | None => None
          | Some (Err e) => Some (Err e, db)
          | Some (Ok []) => Some (Ok totals, db)
          | Some (Ok resolved) =>
              match apply_resolved_timestamps db resolved with
              | Err e => Some (Err e, db)
              | Ok (updated, db) =>
                  let totals := (saturating_add u64_max totals.1 (Z.of_nat (length resolved)), saturating_add u64_max totals.2 updated) in
                  if dry_run then Some (Ok totals, db) else backfill_loop fuel db totals
              end
          end
      end
  end.

Definition backfill_chain (fuel : nat) (db : ChainDb) : option (result string (Z * Z) * ChainDb) :=
  let seeded :=
    if dry_run then Ok (0, db)
    else map_err store_error (backfill_wallet_scan_timestamps_from_local_sources db EVM_CHAIN_TYPE (cfg_chain_id chain)
      (cfg_railgun_contract chain) from_block to_block) in
  match seeded with
  | Err e => Some (Err e, db)
  | Ok (rows, db) =>
      match backfill_loop fuel db (0, rows) with
      | Some (Ok totals, db) =>
          Some (_ ← map_err store_error (count_missing_wallet_scan_timestamps db EVM_CHAIN_TYPE (cfg_chain_id chain)
                  (cfg_railgun_contract chain) from_block to_block); Ok totals, db)
      | other => other
      end
  end.
End chain.
