(* ===== verification/BackfillCorrect.v ===== *)
(** * The timestamp backfill is correct

    A backfill only fills in missing timestamps, with values it was given for
    the block of the row; each batch that resolves anything leaves fewer rows
    without a timestamp, so the tool terminates; with the archive node as
    source it leaves none. *)

From S2P Require Import Prelude Order Wire Ipfs Artifacts MerkleCheckpointChunk ChainLogs Calldata Traces Hydrate PoiStore ChainStore StoreQueries Catalog TimestampBackfill.

(** ** One table *)
Section table.
Context {R : Type} `{SourceRow R} (scope : Scope).
Implicit Types (row : Z * R) (m : gmap (Scope * (Z * Z)) (Z * R)).

(** A row that got a timestamp that [valid] allows for its block. *)
Definition stamped (valid : Z → Z → Z → Prop) row row' : Prop :=
  unstamped row ∧ ∃ t, valid row.1 (co_block_hash (row_cols row.2)) t ∧
    row' = (row.1, set_cols (set_timestamp t (row_cols row.2)) row.2).
(** Rows of the scope may be stamped; nothing else happens. *)
Definition table_step (valid : Z → Z → Z → Prop) m m' : Prop :=
  ∀ k, match m !! k, m' !! k with
       | Some row, Some row' => row' = row ∨ (k.1 = scope ∧ stamped valid row row')
       | None, None => True
       | _, _ => False
       end.

Lemma table_step_refl valid m : table_step valid m m.
Proof. intros k. destruct (m !! k); [by left|done]. Qed.
Lemma table_step_mono (valid valid' : Z → Z → Z → Prop) m m' :
  (∀ b h t, valid b h t → valid' b h t) → table_step valid m m' → table_step valid' m m'.
Proof.
  intros Hv Hs k. specialize (Hs k). destruct (m !! k) as [row|], (m' !! k) as [row'|]; try done.
  destruct Hs as [->|(Hk & Hu & t & Ht & ->)]; [by left|]. right. split; [done|]. split; [done|]. exists t. split; [by apply Hv|done].
Qed.
Lemma table_step_trans valid m1 m2 m3 : table_step valid m1 m2 → table_step valid m2 m3 → table_step valid m1 m3.
Proof.
  intros H12 H23 k. specialize (H12 k). specialize (H23 k). destruct (m1 !! k) as [r1|], (m2 !! k) as [r2|], (m3 !! k) as [r3|]; try done.
  destruct H12 as [->|(Hk & Hst)]; [done|]. destruct H23 as [->|(_ & [_ Hn] & _)]; [by right|].
  destruct Hst as (_ & t & _ & ->). cbn in Hn. rewrite row_set_cols in Hn. done.
Qed.

Lemma stamp_Some updates row row' :
  stamp updates row = Some row' ↔
  unstamped row ∧ ∃ t, updates (row_block row) = Some t ∧ row' = (row.1, set_cols (set_timestamp t (row_cols row.2)) row.2).
Proof.
  unfold stamp. case_decide; [|naive_solver]. destruct (updates (row_block row)) as [t|]; cbn; [|naive_solver].
  split; [intros [= <-]; split; [done|by exists t]|]. by intros (_ & t' & [= <-] & ->).
Qed.
Lemma lookup_stamp_table updates m k :
  stamp_table scope updates m !! k = (λ row, if decide (k.1 = scope) then default row (stamp updates row) else row) <$> m !! k.
Proof. unfold stamp_table. rewrite map_lookup_imap. by destruct (m !! k). Qed.

Lemma stamp_table_step (valid : Z → Z → Z → Prop) updates m :
  (∀ b h t, updates (b, h) = Some t → valid b h t) → table_step valid m (stamp_table scope updates m).
Proof.
  intros Hv k. rewrite lookup_stamp_table. destruct (m !! k) as [row|]; cbn; [|done]. case_decide; [|by left].
  destruct (stamp updates row) as [row'|] eqn:Hs; cbn; [|by left]. right. split; [done|].
  apply stamp_Some in Hs as (Hu & t & Ht & ->). split; [done|]. exists t. split; [by apply Hv|done].
Qed.

Lemma scoped_stamp_table updates m :
  scoped scope (stamp_table scope updates m) ≡ₚ (λ e, (e.1, default e.2 (stamp updates e.2))) <$> scoped scope m.
Proof.
  apply NoDup_Permutation.
  - eapply NoDup_fmap_1, NoDup_scoped.
  - apply (NoDup_fmap_1 fst). rewrite <- list_fmap_compose. apply (NoDup_scoped scope m).
  - intros [k row']. rewrite elem_of_scoped, list_elem_of_fmap, lookup_stamp_table. cbn. rewrite fmap_Some. split.
    + intros (row & Hrow & ->). exists (k, row). rewrite decide_True by done. split; [done|]. by apply elem_of_scoped.
    + intros ([k' row] & [= -> ->] & Hrow). apply elem_of_scoped in Hrow. exists row. by rewrite decide_True.
Qed.

(** The rows that still miss a timestamp are those without an update. *)
Lemma missing_after updates s e m :
  missing_sources scope s e (stamp_table scope updates m) ≡ₚ filter (λ b, updates b = None) (missing_sources scope s e m).
Proof.
  unfold missing_sources. rewrite scoped_stamp_table. apply reflexive_eq. induction (scoped scope m) as [|[k row] l IH]; [done|].
  rewrite fmap_cons, !filter_cons. cbn [snd]. destruct (stamp updates row) as [row'|] eqn:Hs; cbn [default from_option].
  - apply stamp_Some in Hs as (Hu & t & Ht & ->). rewrite decide_False by (cbn; unfold unstamped; cbn; rewrite row_set_cols; naive_solver).
    case_decide; cbn [fmap list_fmap]; [|done]. rewrite filter_cons. cbn [snd]. by rewrite decide_False by congruence.
  - unfold id. case_decide as Hd; cbn [fmap list_fmap]; [|done]. rewrite filter_cons. cbn [snd]. rewrite decide_True.
    + by f_equal.
    + destruct (updates (row_block row)) as [t|] eqn:Ht; [|done]. unfold stamp in Hs. rewrite decide_True in Hs by apply Hd. by rewrite Ht in Hs.
Qed.
Lemma affected_count updates s e m :
  (∀ b, is_Some (updates b) → s ≤ b.1 ≤ e) →
  (rows_affected scope updates m + length (missing_sources scope s e (stamp_table scope updates m)) = length (missing_sources scope s e m))%nat.
Proof.
  intros Hr. rewrite missing_after. unfold rows_affected, missing_sources. induction (scoped scope m) as [|[k row] l IH]; [done|].
  rewrite !filter_cons. cbn [snd]. destruct (stamp updates row) as [row'|] eqn:Hs.
  - rewrite decide_True by done. apply stamp_Some in Hs as (Hu & t & Ht & _). pose proof (Hr (row_block row) ltac:(by eexists)) as Hb. cbn in Hb.
    rewrite decide_True by done. cbn [fmap list_fmap]. rewrite filter_cons. cbn [snd]. rewrite decide_False by congruence. cbn. lia.
  - rewrite decide_False by (intros []; done). case_decide as Hd; cbn [fmap list_fmap]; [|done]. rewrite filter_cons. cbn [snd].
    case_decide as Hn; cbn; [lia|]. exfalso. apply Hn. destruct (updates (row_block row)) as [t|] eqn:Ht; [|done].
    unfold stamp in Hs. rewrite decide_True in Hs by apply Hd. by rewrite Ht in Hs.
Qed.
End table.

(** ** The five tables *)
Section tables.
Context (scope : Scope).

Definition db_step (valid : Z → Z → Z → Prop) (db db' : ChainDb) : Prop :=
  table_step scope valid (indexed_transact_commitments db) (indexed_transact_commitments db') ∧
  table_step scope valid (indexed_shield_commitments db) (indexed_shield_commitments db') ∧
  table_step scope valid (indexed_nullifiers db) (indexed_nullifiers db') ∧
  table_step scope valid (indexed_legacy_encrypted_commitments db) (indexed_legacy_encrypted_commitments db') ∧
  table_step scope valid (indexed_legacy_generated_commitments db) (indexed_legacy_generated_commitments db') ∧
  indexed_public_transactions db' = indexed_public_transactions db ∧ indexed_public_txid_rows db' = indexed_public_txid_rows db ∧
  indexed_block_checkpoints db' = indexed_block_checkpoints db ∧ indexed_block_headers db' = indexed_block_headers db ∧
  chain_indexing_progress_table db' = chain_indexing_progress_table db.

Lemma db_step_refl valid db : db_step valid db db.
Proof. repeat split; apply table_step_refl. Qed.
Lemma db_step_trans valid db1 db2 db3 : db_step valid db1 db2 → db_step valid db2 db3 → db_step valid db1 db3.
Proof. unfold db_step. intros H12 H23. destruct_and!. split_and!; (by eapply table_step_trans) || congruence. Qed.
Lemma db_step_mono (valid valid' : Z → Z → Z → Prop) db db' :
  (∀ b h t, valid b h t → valid' b h t) → db_step valid db db' → db_step valid' db db'.
Proof. unfold db_step. intros Hv Hs. destruct_and!. split_and!; (by eapply table_step_mono) || done. Qed.

Notation missing db s e := (length (all_missing_sources db scope s e)).

(** One statement stamps rows of one table. *)
Lemma statement_spec updates statement db :
  statement ∈ update_statements scope updates →
  (∀ valid : Z → Z → Z → Prop, (∀ b h t, updates db (b, h) = Some t → valid b h t) → db_step valid db (statement db).2) ∧
  ∀ s e, (∀ b, is_Some (updates db b) → s ≤ b.1 ≤ e) → ((statement db).1 + missing (statement db).2 s e = missing db s e)%nat.
Proof.
  unfold update_statements. rewrite !elem_of_cons, elem_of_nil. intros [->|[->|[->|[->|[->|[]]]]]]; cbn.
  all: (split; [intros valid Hv; repeat split; (by apply stamp_table_step) || apply table_step_refl|]).
  all: intros s e Hr; unfold all_missing_sources, with_wallet_tables; cbn; rewrite !length_app.
  - rewrite <- (affected_count scope (updates db) s e (indexed_transact_commitments db) Hr). lia.
  - rewrite <- (affected_count scope (updates db) s e (indexed_shield_commitments db) Hr). lia.
  - rewrite <- (affected_count scope (updates db) s e (indexed_nullifiers db) Hr). lia.
  - rewrite <- (affected_count scope (updates db) s e (indexed_legacy_encrypted_commitments db) Hr). lia.
  - rewrite <- (affected_count scope (updates db) s e (indexed_legacy_generated_commitments db) Hr). lia.
Qed.

(** A run of the statements, under an invariant of the tables. *)
Lemma run_statements_spec (I : ChainDb → Prop) updates s e db :
  I db →
  (∀ db statement, statement ∈ update_statements scope updates → I db → I (statement db).2) →
  (∀ db b, I db → is_Some (updates db b) → s ≤ b.1 ≤ e) →
  Z.of_nat (missing db s e) ≤ u64_max →
  let r := run_statements (update_statements scope updates) db in
  I r.2 ∧ r.1 + Z.of_nat (missing r.2 s e) = Z.of_nat (missing db s e).
Proof.
  intros HI HIstep Hrange Hmax. unfold run_statements.
  cut (∀ statements acc db0, (∀ st, st ∈ statements → st ∈ update_statements scope updates) → I db0 → 0 ≤ acc →
    acc + Z.of_nat (missing db0 s e) = Z.of_nat (missing db s e) →
    let r := foldl (λ st statement, let '(affected, db) := statement st.2 in (saturating_add u64_max st.1 (Z.of_nat affected), db)) (acc, db0) statements in
    I r.2 ∧ r.1 + Z.of_nat (missing r.2 s e) = Z.of_nat (missing db s e)).
  { intros Hcut. by apply (Hcut _ 0 db). }
  induction statements as [|st statements IH]; intros acc db0 Hin HI0 Hacc Hsum; cbn; [done|].
  assert (st ∈ update_statements scope updates) as Hst by (apply Hin; by left).
  destruct (statement_spec updates st db0 Hst) as [_ Hcount]. specialize (Hcount s e (λ b, Hrange db0 b HI0)).
  pose proof (HIstep db0 st Hst HI0) as HI1. destruct (st db0) as [n db1]. cbn in *.
  assert (saturating_add u64_max acc (Z.of_nat n) = acc + Z.of_nat n) as -> by (unfold saturating_add; lia).
  apply IH; [intros; apply Hin; by right|done|lia|lia].
Qed.

Lemma run_nonneg statements db : 0 ≤ (run_statements statements db).1.
Proof.
  unfold run_statements. cut (∀ acc db, 0 ≤ acc → 0 ≤ (foldl (λ (st : Z * ChainDb) statement, let '(affected, db) := statement st.2 in
    (saturating_add u64_max st.1 (Z.of_nat affected), db)) (acc, db) statements).1); [intros Hcut; by apply Hcut|]. clear db.
  induction statements as [|st statements IH]; intros acc db Hacc; cbn; [done|]. destruct (st db) as [n db']. apply IH.
  unfold saturating_add, u64_max. lia.
Qed.

(** With fixed updates, exactly the blocks without one stay missing. *)
Lemma missing_after_updates updates s e db :
  all_missing_sources (run_statements (update_statements scope (λ _, updates)) db).2 scope s e ≡ₚ
  filter (λ b, updates b = None) (all_missing_sources db scope s e).
Proof. unfold all_missing_sources. cbn. by rewrite !filter_app, !missing_after. Qed.
End tables.

(** ** Agreed timestamps *)
Lemma agreed_elem source block t : agreed source block = Some t → (block, t) ∈ source.
Proof.
  unfold agreed. intros Ha. apply bind_Some in Ha as (lo & Hlo & Ha). apply bind_Some in Ha as (hi & _ & Ha). case_decide; [|done].
  injection Ha as <-. unfold min_list in Hlo. destruct (snd <$> filter _ source) as [|x l] eqn:Hf; [done|]. injection Hlo as <-.
  assert (foldl Z.min x l ∈ snd <$> filter (λ u : Z * Z * Z, u.1 = block) source) as Hin by (rewrite Hf; apply foldl_min_elem).
  apply list_elem_of_fmap in Hin as ([b t] & -> & [Hb Hin]%list_elem_of_filter). cbn in Hb. by subst.
Qed.
Lemma agreed_unique source block t : NoDup source.*1 → (block, t) ∈ source → agreed source block = Some t.
Proof.
  intros Hnd Hin. assert (filter (λ u : Z * Z * Z, u.1 = block) source = [(block, t)]) as Hf.
  { induction source as [|[b u] source IH]; [by apply elem_of_nil in Hin|]. cbn in Hnd. apply NoDup_cons in Hnd as [Hn Hnd].
    rewrite filter_cons. cbn. apply elem_of_cons in Hin as [[= <- <-]|Hin].
    - rewrite decide_True by done. f_equal. apply filter_none, Forall_forall. intros [b' u'] Hin' Hb. cbn in Hb. subst.
      apply Hn. by apply (list_elem_of_fmap_2 fst) in Hin'.
    - rewrite decide_False; [by apply IH|]. intros ->. apply Hn. by apply (list_elem_of_fmap_2 fst) in Hin. }
  unfold agreed. rewrite Hf. cbn. by rewrite decide_True.
Qed.

(** ** Local sources *)
Lemma elem_of_timestamped {R} `{SourceRow R} (scope : Scope) (s e : Z) (m : gmap (Scope * (Z * Z)) (Z * R)) (x : Z * Z * Z) :
  x ∈ timestamped scope s e m ↔ ∃ k row, m !! (scope, k) = Some row ∧ s ≤ row.1 ≤ e ∧ row_block row = x.1 ∧ co_block_timestamp (row_cols row.2) = Some x.2.
Proof.
  unfold timestamped. rewrite list_elem_of_omap. split.
  - intros ([k row] & [Hr Hin]%list_elem_of_filter & Hx). apply elem_of_scoped in Hin. apply bind_Some in Hx as (t & Ht & [= <-]). by exists k, row.
  - intros (k & row & Hrow & Hr & Hb & Ht). exists (k, row). rewrite list_elem_of_filter, elem_of_scoped. split; [done|]. cbn. rewrite Ht. cbn.
    rewrite Hb. by destruct x.
Qed.
Lemma timestamped_step {R} `{SourceRow R} (scope : Scope) (valid : Z → Z → Z → Prop) (s e : Z) (m m' : gmap (Scope * (Z * Z)) (Z * R)) (x : Z * Z * Z) :
  table_step scope valid m m' → x ∈ timestamped scope s e m' → x ∈ timestamped scope s e m ∨ valid x.1.1 x.1.2 x.2.
Proof.
  rewrite !elem_of_timestamped. intros Hs (k & row' & Hrow' & Hr & Hb & Ht). specialize (Hs (scope, k)). rewrite Hrow' in Hs.
  destruct (m !! (scope, k)) as [row|] eqn:Hrow; [|done]. destruct Hs as [->|(_ & _ & t & Hv & ->)]; [left; by exists k, row|].
  right. cbn in Ht. rewrite row_set_cols in Ht. injection Ht as <-. rewrite <- Hb. unfold row_block. cbn. by rewrite row_set_cols.
Qed.
Lemma timestamped_range {R} `{SourceRow R} (scope : Scope) (s e : Z) (m : gmap (Scope * (Z * Z)) (Z * R)) (x : Z * Z * Z) :
  x ∈ timestamped scope s e m → s ≤ x.1.1 ≤ e.
Proof. rewrite elem_of_timestamped. intros (k & row & _ & Hr & Hb & _). by rewrite <- Hb. Qed.

Section local.
Context (scope : Scope) (s e : Z).

Lemma timestamp_sources_step (db db' : ChainDb) :
  db_step scope (λ b h t, (b, h, t) ∈ timestamp_sources db scope s e) db db' →
  ∀ x, x ∈ timestamp_sources db' scope s e → x ∈ timestamp_sources db scope s e.
Proof.
  intros (Ht & Hsh & Hn & He & Hg & Hpub & Htx & _) [[b h] t].
  assert (∀ R (HR : SourceRow R) (m m' : gmap (Scope * (Z * Z)) (Z * R)),
    table_step scope (λ b h t, (b, h, t) ∈ timestamp_sources db scope s e) m m' →
    (∀ x, x ∈ timestamped scope s e m → x ∈ timestamp_sources db scope s e) →
    (b, h, t) ∈ timestamped scope s e m' → (b, h, t) ∈ timestamp_sources db scope s e) as Hstep.
  { intros R HR m m' Hm Hsub Hx. destruct (timestamped_step scope _ s e m m' _ Hm Hx); [by apply Hsub|done]. }
  unfold timestamp_sources at 1. rewrite !elem_of_app, Hpub, Htx. intros [Hx|[Hx|[Hx|[Hx|[Hx|[Hx|Hx]]]]]].
  1-2: unfold timestamp_sources; rewrite !elem_of_app; tauto.
  1: refine (Hstep _ _ _ _ Ht _ Hx).
  2: refine (Hstep _ _ _ _ Hsh _ Hx).
  3: refine (Hstep _ _ _ _ Hn _ Hx).
  4: refine (Hstep _ _ _ _ He _ Hx).
  5: refine (Hstep _ _ _ _ Hg _ Hx).
  all: intros x ?; unfold timestamp_sources; rewrite !elem_of_app; tauto.
Qed.

Lemma timestamp_sources_range db x : x ∈ timestamp_sources db scope s e → s ≤ x.1.1 ≤ e.
Proof.
  unfold timestamp_sources. rewrite !elem_of_app. intros [Hx|[Hx|[Hx|[Hx|[Hx|[Hx|Hx]]]]]]; try by apply timestamped_range in Hx.
  - by apply list_elem_of_fmap in Hx as (y & -> & [? _]%list_elem_of_filter).
  - apply list_elem_of_omap in Hx as (y & [Hr _]%list_elem_of_filter & Hx). by apply bind_Some in Hx as (t & _ & [= <-]).
Qed.

(** The local backfill copies timestamps between rows of the same block. *)
Lemma local_backfill_spec db chain_type chain_id contract r :
  scope_of chain_type chain_id contract = Ok scope → s ≤ e → Z.of_nat (length (all_missing_sources db scope s e)) ≤ u64_max →
  backfill_wallet_scan_timestamps_from_local_sources db chain_type chain_id contract s e = Ok r →
  db_step scope (λ b h t, (b, h, t) ∈ timestamp_sources db scope s e) db r.2 ∧ 0 ≤ r.1 ∧
  r.1 + Z.of_nat (length (all_missing_sources r.2 scope s e)) = Z.of_nat (length (all_missing_sources db scope s e)).
Proof.
  intros Hs Hle Hmax. unfold backfill_wallet_scan_timestamps_from_local_sources. rewrite decide_False by lia. rewrite Hs. cbn [mbind result_bind].
  intros Hr. apply bind_Ok in Hr as (s' & [_ ->]%u64_to_i64_Ok & Hr). apply bind_Ok in Hr as (e' & [_ ->]%u64_to_i64_Ok & [= <-]).
  destruct (run_statements_spec scope (db_step scope (λ b h t, (b, h, t) ∈ timestamp_sources db scope s e) db)
    (λ db, agreed (timestamp_sources db scope s e)) s e db) as [Hstep Hcount].
  - apply db_step_refl.
  - intros db' st Hst Hdb. eapply db_step_trans; [exact Hdb|]. destruct (statement_spec scope _ _ db' Hst) as [Hstep _]. apply Hstep.
    intros b h t Ht%agreed_elem. by apply (timestamp_sources_step db db').
  - intros db' b _ [t Ht%agreed_elem]. by apply timestamp_sources_range in Ht.
  - done.
  - split_and!; [exact Hstep|apply run_nonneg|exact Hcount].
Qed.
End local.

(** ** A batch *)
Notation missing_key := (λ b, (mb_block_number b, mb_block_hash b)).
Notation resolved_key := (λ r, (rs_block_number r, rs_block_hash r)).

(** The batch lists distinct blocks with rows to fill, and is empty only when
    there are none. *)
Lemma missing_blocks_spec group_order db chain_type chain_id contract scope s e limit missing :
  (∀ l, group_order l ≡ₚ l) → scope_of chain_type chain_id contract = Ok scope → s ≤ e → 0 < limit →
  missing_wallet_scan_timestamp_blocks group_order db chain_type chain_id contract s e limit = Ok missing →
  NoDup (missing_key <$> missing) ∧ (∀ b, b ∈ missing_key <$> missing → b ∈ all_missing_sources db scope s e) ∧
  (missing = [] → all_missing_sources db scope s e = []).
Proof.
  intros Hord Hs Hle Hlim. unfold missing_wallet_scan_timestamp_blocks. rewrite !decide_False by lia. rewrite Hs. cbn [mbind result_bind].
  intros Hr. apply bind_Ok in Hr as (s' & [_ ->]%u64_to_i64_Ok & Hr). apply bind_Ok in Hr as (e' & [_ ->]%u64_to_i64_Ok & Hr).
  apply bind_Ok in Hr as (l' & [_ ->]%u64_to_i64_Ok & HF%try_map_Ok). set (all := all_missing_sources db scope s e) in *.
  set (blocks := take _ _) in HF. assert (missing_key <$> missing = blocks) as ->.
  { clear -HF. induction HF as [|[n h] b blocks missing Hb _ IH]; [done|]. cbn [fmap list_fmap]. f_equal; [|exact IH].
    apply bind_Ok in Hb as (n' & [-> _]%i64_to_u64_Ok & Hb). by apply bind_Ok in Hb as (c & _ & [= <-]). }
  assert (sort_by_key fst (group_order (remove_dups all)) ≡ₚ remove_dups all) as Hperm by (by rewrite sort_by_key_perm).
  split_and!.
  - eapply sublist_NoDup; [|apply sublist_take]. rewrite Hperm. apply NoDup_remove_dups.
  - intros b Hb. apply elem_of_take in Hb as (i & Hi & _). apply list_elem_of_lookup_2 in Hi. rewrite Hperm in Hi. by apply elem_of_remove_dups.
  - intros ->. inversion HF as [Hnil|]. unfold blocks in Hnil.
    destruct (sort_by_key fst (group_order (remove_dups all))) as [|x l] eqn:Hsort.
    + destruct all as [|b all]; [done|]. assert (b ∈ remove_dups (b :: all)) as Hb by (apply elem_of_remove_dups; by left).
      rewrite <- Hperm in Hb. by apply elem_of_nil in Hb.
    + by destruct (Z.to_nat limit) eqn:Hz; [lia|].
Qed.

Section squid.
Context (squid_page : string → SquidTimestampFilter → Z → Z → result string (list Value)).

(** A page of the service has a row with this block and timestamp. *)
Definition squid_says (block_number timestamp : Z) : Prop :=
  ∃ field filter offset limit page value, squid_page field filter offset limit = Ok page ∧ value ∈ page ∧
    u64_field value "blockNumber" = Ok block_number ∧ u64_field value "blockTimestamp" = Ok timestamp.
Notation said m := (∀ n t, m !! n = Some t → squid_says n t).

Lemma record_squid_said requested m value m' :
  (∃ field filter offset limit page, squid_page field filter offset limit = Ok page ∧ value ∈ page) →
  said m → record_squid_timestamp requested m value = Ok m' → said m'.
Proof.
  intros (field & fl & off & lim & page & Hpage & Hv) Hm Hr. unfold record_squid_timestamp in Hr.
  apply bind_Ok in Hr as (n & Hn & Hr). case_decide; [by injection Hr as <-|]. apply bind_Ok in Hr as (t & Ht & Hr).
  assert (m' = <[n := t]> m) as ->. { destruct (m !! n); [case_decide; [done|]|]; by injection Hr as <-. }
  intros n' t'. destruct (decide (n' = n)) as [->|]; [rewrite lookup_insert_eq|rewrite lookup_insert_ne by done; apply Hm].
  intros [= <-]. by exists field, fl, off, lim, page, value.
Qed.
Lemma fetched_page field fl offset limit page :
  fetch_squid_timestamp_page squid_page field fl offset limit = Ok page →
  squid_page field fl offset limit = Ok page ∧ offset ≤ GRAPHQL_INT_MAX ∧ limit ≤ GRAPHQL_INT_MAX.
Proof.
  intros Hp. apply bind_Ok in Hp as ([o l] & Hv & Hp). apply bind_Ok in Hv as (o' & [-> ?]%ok_or_Ok%try_from_Some & Hv).
  by apply bind_Ok in Hv as (l' & [-> ?]%ok_or_Ok%try_from_Some & [= <- <-]).
Qed.
(** The loop over the pages ends whatever the service answers: the offset grows
    with every full page, and beyond the GraphQL integers it is refused. *)
Lemma pages_end fuel field fl requested page_size offset m :
  0 < page_size → 0 ≤ offset → GRAPHQL_INT_MAX < offset + Z.of_nat fuel * page_size →
  fetch_squid_timestamp_pages squid_page (S fuel) field fl requested page_size offset m ≠ None.
Proof.
  intros Hsize. assert (GRAPHQL_INT_MAX + GRAPHQL_INT_MAX ≤ u64_max) as Hmax by (vm_compute; discriminate).
  revert offset m. induction fuel as [|fuel IH]; intros offset m Hoff Hfuel; cbn [fetch_squid_timestamp_pages];
    (destruct (fetch_squid_timestamp_page squid_page field fl offset page_size) as [page|] eqn:Hpage; [|done]);
    apply fetched_page in Hpage as (_ & Ho & Hl); [lia|]; cbn [mbind result_bind];
    (destruct (try_fold (record_squid_timestamp requested) m page) as [m1|]; [|done]); cbn [mbind result_bind].
  case_decide; [done|]. assert (saturating_add u64_max offset page_size = offset + page_size) as -> by (unfold saturating_add; lia). apply IH; lia.
Qed.
Lemma squid_ends fuel missing page_size :
  0 < page_size → GRAPHQL_INT_MAX < (Z.of_nat fuel - 1) * page_size → resolve_missing_with_squid squid_page fuel missing page_size ≠ None.
Proof.
  intros Hsize Hfuel. assert (0 ≤ GRAPHQL_INT_MAX) by (vm_compute; discriminate). destruct fuel as [|fuel]; [lia|].
  assert (∀ requests requested m, fetch_requests squid_page (S fuel) requests requested page_size m ≠ None) as Hreq.
  { intros requests requested. induction requests as [|[field fl] requests IH]; intros m; cbn [fetch_requests]; [done|].
    destruct (fetch_squid_timestamp_pages _ _ _ _ _ _ _ m) as [[m1|]|] eqn:Hp; [apply IH|done|]. by apply pages_end in Hp; [|lia..]. }
  assert (∀ fl numbers, fetch_squid_timestamps_with_mode squid_page (S fuel) fl numbers page_size ≠ None) as Hmode by (intros; apply Hreq).
  unfold resolve_missing_with_squid. destruct (squid_eligible_block_numbers missing) as [numbers ambiguous]. case_decide; [done|].
  destruct (fetch_squid_timestamps squid_page (S fuel) numbers page_size) as [[|]|] eqn:Hf; [done..|]. exfalso. revert Hf. unfold fetch_squid_timestamps.
  destruct (fetch_squid_timestamps_with_mode _ _ (BlockList _) _ _) as [[|]|] eqn:Hm; [done| |by apply Hmode in Hm].
  destruct (head numbers), (last numbers); try done. apply Hmode.
Qed.
Lemma pages_said fuel field fl requested page_size offset m m' :
  said m → fetch_squid_timestamp_pages squid_page fuel field fl requested page_size offset m = Some (Ok m') → said m'.
Proof.
  revert offset m. induction fuel as [|fuel IH]; intros offset m Hm; cbn; [done|].
  destruct (fetch_squid_timestamp_page squid_page field fl offset page_size) as [page|] eqn:Hpage; cbn; [|done].
  apply fetched_page in Hpage as (Hpage & _). destruct (try_fold (record_squid_timestamp requested) m page) as [m1|] eqn:Hfold; cbn; [|done].
  assert (said m1) as Hm1.
  { refine (try_fold_inv (λ m : gmap Z Z, said m) _ page m m1 _ Hm Hfold). intros m2 v m3 Hv Hm2. apply record_squid_said; [|done].
    by exists field, fl, offset, page_size, page. }
  case_decide; [by intros [= <-]|]. by apply IH.
Qed.
Lemma requests_said fuel requests requested page_size m m' :
  said m → fetch_requests squid_page fuel requests requested page_size m = Some (Ok m') → said m'.
Proof.
  revert m. induction requests as [|[field fl] requests IH]; intros m Hm; cbn; [by intros [= <-]|].
  destruct (fetch_squid_timestamp_pages _ _ _ _ _ _ _ m) as [[m1|]|] eqn:Hp; [|done..]. apply IH. by eapply pages_said.
Qed.
Lemma squid_timestamps_said fuel block_numbers page_size m :
  fetch_squid_timestamps squid_page fuel block_numbers page_size = Some (Ok m) → said m.
Proof.
  assert (∀ fl, fetch_squid_timestamps_with_mode squid_page fuel fl block_numbers page_size = Some (Ok m) → said m) as Hmode.
  { intros fl. unfold fetch_squid_timestamps_with_mode. apply requests_said. intros n t. by rewrite lookup_empty. }
  unfold fetch_squid_timestamps. destruct (fetch_squid_timestamps_with_mode _ _ (BlockList _) _ _) as [[m1|]|] eqn:Hm1; [|..|done].
  - intros [= ->]. by eapply Hmode.
  - destruct (head block_numbers), (last block_numbers); try done. apply Hmode.
Qed.

Lemma squid_resolved_spec fuel missing page_size resolved :
  resolve_missing_with_squid squid_page fuel missing page_size = Some (Ok resolved) →
  resolved_key <$> resolved `sublist_of` missing_key <$> missing ∧
  Forall (λ r, squid_says (rs_block_number r) (rs_block_timestamp r)) resolved.
Proof.
  unfold resolve_missing_with_squid. destruct (squid_eligible_block_numbers missing) as [numbers ambiguous].
  case_decide; [intros [= <-]; split; [apply sublist_nil_l|constructor]|].
  destruct (fetch_squid_timestamps _ _ _ _) as [[m|]|] eqn:Hm; [|done..]. intros [= <-]. pose proof (squid_timestamps_said _ _ _ _ Hm) as Hsaid. clear -Hsaid.
  induction missing as [|b missing [Hsub HF]]; [split; [constructor|constructor]|]. cbn [omap list_omap].
  destruct (decide (mb_block_number b ∈ ambiguous)); [split; [by apply sublist_cons|done]|].
  destruct (m !! mb_block_number b) as [t|] eqn:Ht; cbn; [|split; [by apply sublist_cons|done]].
  split; [by apply sublist_skip|]. constructor; [by apply Hsaid|done].
Qed.
End squid.

(** ** A chain *)
Section chain.
Context (group_order : list (Z * Z) → list (Z * Z)).
Context (store_error : StoreError → string) (ingest_error : ChainLogIngestionError → string).
Context (provider : option EthProvider) (squid : option (string → SquidTimestampFilter → Z → Z → result string (list Value))).
Context (chain : ChainIndexedChainConfig) (from_block to_block block_query_limit squid_page_size : Z).
Context (timestamp_source : TimestampSource) (rpc_fallback : bool) (page_fuel : nat) (scope : Scope).
Hypothesis Horder : ∀ l, group_order l ≡ₚ l.
Hypothesis Hscope : scope_of EVM_CHAIN_TYPE (cfg_chain_id chain) (cfg_railgun_contract chain) = Ok scope.
Hypothesis Hrange : from_block ≤ to_block.
Hypothesis Hlimit : 0 < block_query_limit.

(** The archive node has the block with this number, hash and timestamp, or
    the Squid service has the timestamp of the number. *)
Definition resolvable (b h t : Z) : Prop :=
  (∃ node, provider = Some node ∧ get_block_by_hash node h = Ok (Some (h, b, t))) ∨
  (timestamp_source = SourceSquid ∧ ∃ squid_page, squid = Some squid_page ∧ squid_says squid_page b t).

Notation missing db := (length (all_missing_sources db scope from_block to_block)).
Notation batch := (resolve_batch ingest_error provider squid squid_page_size timestamp_source rpc_fallback page_fuel).

Lemma rpc_resolved_spec node blocks resolved :
  provider = Some node → resolve_missing_with_rpc ingest_error node blocks = Ok resolved →
  resolved_key <$> resolved = missing_key <$> blocks ∧
  Forall (λ r, resolvable (rs_block_number r) (rs_block_hash r) (rs_block_timestamp r)) resolved.
Proof.
  intros Hnode HF%try_map_Ok. induction HF as [|b r blocks resolved Hr _ [IHk IHF]]; [split; [done|constructor]|].
  apply bind_Ok in Hr as (t & Ht%map_err_Ok%block_timestamp_for_source_Ok & [= <-]). cbn [fmap list_fmap]. split; [by rewrite <- IHk|].
  constructor; [|done]. left. by exists node.
Qed.

(** A batch resolves distinct blocks of it, from the node all of them. *)
Lemma resolve_batch_spec blocks resolved :
  NoDup (missing_key <$> blocks) → batch blocks = Some (Ok resolved) →
  NoDup (resolved_key <$> resolved) ∧ (∀ k, k ∈ resolved_key <$> resolved → k ∈ missing_key <$> blocks) ∧
  Forall (λ r, resolvable (rs_block_number r) (rs_block_hash r) (rs_block_timestamp r)) resolved ∧
  (timestamp_source = SourceRpc → resolved = [] → blocks = []).
Proof.
  intros Hnd. unfold resolve_batch. set (squid_resolved := if decide _ then _ else _).
  destruct squid_resolved as [[first|]|] eqn:Hfirst; [|done..].
  assert (resolved_key <$> first `sublist_of` missing_key <$> blocks ∧
    Forall (λ r, resolvable (rs_block_number r) (rs_block_hash r) (rs_block_timestamp r)) first ∧
    (timestamp_source = SourceRpc → first = [])) as (Hsub & Hfirstok & Hrpc).
  { unfold squid_resolved in Hfirst. case_decide as Hsrc.
    - destruct squid as [page|] eqn:Hsq; [|done]. apply squid_resolved_spec in Hfirst as [? HF]. split_and!; [done| |congruence].
      eapply Forall_impl; [exact HF|]. intros r Hr. right. split; [done|]. by exists page.
    - injection Hfirst as <-. split_and!; [apply sublist_nil_l|constructor|done]. }
  pose proof (sublist_NoDup _ _ Hnd Hsub) as Hnd1. clear squid_resolved Hfirst.
  assert (∀ k, k ∈ resolved_key <$> first → k ∈ missing_key <$> blocks) as Hsub' by (intros k; by apply sublist_subseteq).
  intros [= Hr]. case_decide as Hd.
  - apply bind_Ok in Hr as (node & Hnode%ok_or_Ok & Hr). apply bind_Ok in Hr as (second & Hsecond & [= <-]).
    apply rpc_resolved_spec in Hsecond as [Hkeys Hsecondok]; [|done]. rewrite fmap_app, Hkeys. unfold unresolved_missing_blocks in Hkeys, Hd |- *. cbn zeta in Hkeys, Hd |- *.
    set (rest := filter _ blocks) in *. assert (missing_key <$> rest `sublist_of` missing_key <$> blocks) as Hrest by (apply fmap_sublist, sublist_filter).
    split_and!.
    + apply NoDup_app. split_and!; [done| |exact (sublist_NoDup _ _ Hnd Hrest)]. intros k Hk (b & -> & [Hb _]%list_elem_of_filter)%list_elem_of_fmap. done.
    + intros k [?|Hk]%elem_of_app; [by apply Hsub'|]. by eapply sublist_subseteq.
    + by apply Forall_app.
    + intros Hsrc [-> ->]%app_eq_nil. destruct Hd as [_ Hlen]. exfalso. apply Hlen. apply (f_equal length) in Hkeys. rewrite !length_fmap in Hkeys.
      cbn in Hkeys. done.
  - injection Hr as <-. split_and!; [done..|]. intros Hsrc ->. destruct blocks as [|b blocks]; [done|]. exfalso. apply Hd.
    unfold unresolved_missing_blocks. rewrite filter_all; [|apply Forall_forall; intros b' _; cbn; by intros ?%elem_of_nil]. split; [by left|done].
Qed.

(** Applying a batch fills rows of its blocks only, at least one. *)
Lemma apply_resolved_spec db resolved r :
  resolved ≠ [] → NoDup (resolved_key <$> resolved) →
  (∀ k, k ∈ resolved_key <$> resolved → k ∈ all_missing_sources db scope from_block to_block) →
  (∀ k, k ∈ resolved_key <$> resolved → from_block ≤ k.1 ≤ to_block) →
  Forall (λ r, resolvable (rs_block_number r) (rs_block_hash r) (rs_block_timestamp r)) resolved →
  Z.of_nat (missing db) ≤ u64_max →
  apply_resolved_timestamps store_error chain false db resolved = Ok r →
  db_step scope resolvable db r.2 ∧ r.1 + Z.of_nat (missing r.2) = Z.of_nat (missing db) ∧ (missing r.2 < missing db)%nat.
Proof.
  intros Hne Hnd Hin Hkeys Hok Hmax Hr%map_err_Ok. unfold backfill_wallet_scan_block_timestamps in Hr.
  rewrite decide_False in Hr by (rewrite length_fmap; by destruct resolved). rewrite Hscope in Hr. cbn [mbind result_bind] in Hr.
  apply bind_Ok in Hr as (ns & Hns & Hr). apply bind_Ok in Hr as (ts & Hts & [= <-]).
  assert (zip (zip ns (bf_block_hash <$> ((λ item, mkTimestamp (rs_block_number item) (rs_block_hash item) (rs_block_timestamp item)) <$> resolved))) ts =
    (λ r, (resolved_key r, rs_block_timestamp r)) <$> resolved) as ->.
  { apply try_map_Ok in Hns, Hts. rewrite Forall2_fmap_l in Hns, Hts. clear -Hns Hts. revert ts Hts.
    induction Hns as [|r n resolved ns Hn _ IH]; intros ts Hts; [done|]. inversion Hts as [|? t ? ts' Ht Hts']; subst. cbn.
    apply u64_to_i64_Ok in Hn as [_ ->], Ht as [_ ->]. cbn. f_equal. by apply IH. }
  set (source := _ <$> resolved). assert (source.*1 = resolved_key <$> resolved) as Hfst by (unfold source; by rewrite <- list_fmap_compose).
  assert (∀ b t, agreed source b = Some t → b ∈ resolved_key <$> resolved ∧ resolvable b.1 b.2 t) as Hagreed.
  { intros b t (r & [= -> ->] & Hr)%agreed_elem%list_elem_of_fmap. split; [by apply (list_elem_of_fmap_2 resolved_key)|].
    rewrite Forall_forall in Hok. by apply Hok. }
  destruct (run_statements_spec scope (db_step scope resolvable db) (λ _, agreed source) from_block to_block db) as [Hstep Hcount].
  - apply db_step_refl.
  - intros db' st Hst Hdb. eapply db_step_trans; [exact Hdb|]. apply (statement_spec scope _ _ db' Hst). intros b h t Ht. by apply Hagreed in Ht as [_ ?].
  - intros db' b _ [t Ht]. apply Hkeys. by apply Hagreed in Ht as [? _].
  - done.
  - split_and!; [exact Hstep|exact Hcount|]. rewrite missing_after_updates.
    destruct resolved as [|r resolved]; [done|]. assert (agreed source (resolved_key r) = Some (rs_block_timestamp r)) as Hsome.
    { apply agreed_unique; [by rewrite Hfst|]. unfold source. by left. }
    apply length_filter_lt with (x := resolved_key r); [apply Hin; by left|congruence].
Qed.

Lemma all_missing_range db b : b ∈ all_missing_sources db scope from_block to_block → from_block ≤ b.1 ≤ to_block.
Proof.
  assert (∀ R (HR : SourceRow R) (m : gmap (Scope * (Z * Z)) (Z * R)), b ∈ missing_sources scope from_block to_block m → from_block ≤ b.1 ≤ to_block) as Hm.
  { intros R HR m (x & -> & [[_ ?] _]%list_elem_of_filter)%list_elem_of_fmap. done. }
  unfold all_missing_sources. rewrite !elem_of_app. intros [Hb|[Hb|[Hb|[Hb|Hb]]]]; by apply Hm in Hb.
Qed.

(** the page size of the command line is positive, and the fuel of the page loop
    covers the GraphQL integers *)
Hypothesis Hsize : 0 < squid_page_size.
Hypothesis Hpage_fuel : GRAPHQL_INT_MAX < (Z.of_nat page_fuel - 1) * squid_page_size.
Lemma batch_ends blocks : batch blocks ≠ None.
Proof.
  unfold resolve_batch. case_decide; [|done]. destruct squid as [page|]; [|done].
  destruct (resolve_missing_with_squid page page_fuel blocks squid_page_size) as [[|]|] eqn:Hr; [done..|]. by apply squid_ends in Hr.
Qed.
Notation loop dry_run :=
  (backfill_loop group_order store_error ingest_error provider squid chain from_block to_block block_query_limit squid_page_size timestamp_source
     rpc_fallback dry_run page_fuel).
Notation tool dry_run :=
  (backfill_chain group_order store_error ingest_error provider squid chain from_block to_block block_query_limit squid_page_size timestamp_source
     rpc_fallback dry_run page_fuel).

Lemma missing_batch_spec db blocks :
  missing_batch group_order store_error chain from_block to_block block_query_limit db = Ok blocks →
  NoDup (missing_key <$> blocks) ∧ (∀ b, b ∈ missing_key <$> blocks → b ∈ all_missing_sources db scope from_block to_block) ∧
  (blocks = [] → missing db = 0%nat).
Proof.
  intros Hb%map_err_Ok. destruct (missing_blocks_spec _ _ _ _ _ _ _ _ _ _ Horder Hscope Hrange Hlimit Hb) as (? & ? & Hnil).
  split_and!; [done..|]. intros Hbl. by rewrite Hnil.
Qed.

Lemma backfill_loop_spec fuel db totals :
  0 ≤ totals.2 → totals.2 + Z.of_nat (missing db) ≤ u64_max → (missing db < fuel)%nat →
  ∃ r db', loop false fuel db totals = Some (r, db') ∧ db_step scope resolvable db db' ∧
    ∀ t, r = Ok t → t.2 + Z.of_nat (missing db') = totals.2 + Z.of_nat (missing db) ∧ (timestamp_source = SourceRpc → missing db' = 0%nat).
Proof.
  revert db totals. induction fuel as [|fuel IH]; intros db totals Hpos Hmax Hfuel; [lia|]. cbn [backfill_loop].
  assert (∀ e, ∃ r db', Some (Err e : result string (Z * Z), db) = Some (r, db') ∧ db_step scope resolvable db db' ∧
    ∀ t, r = Ok t → t.2 + Z.of_nat (missing db') = totals.2 + Z.of_nat (missing db) ∧ (timestamp_source = SourceRpc → missing db' = 0%nat)) as Herr.
  { intros e. exists (Err e), db. split_and!; [done|apply db_step_refl|done]. }
  destruct (missing_batch _ _ _ _ _ _ db) as [blocks|] eqn:Hb; [|apply Herr].
  destruct (missing_batch_spec _ _ Hb) as (Hnd & Hin & Hnil). destruct blocks as [|b blocks].
  { exists (Ok totals), db. split_and!; [done|apply db_step_refl|]. intros t [= <-]. rewrite Hnil by done. done. }
  set (bs := b :: blocks) in *. destruct (batch bs) as [[resolved|]|] eqn:Hr; [|apply Herr|by apply batch_ends in Hr].
  destruct (resolve_batch_spec _ _ Hnd Hr) as (Hknd & Hkin & Hok & Hall). destruct resolved as [|r0 resolved].
  { exists (Ok totals), db. split_and!; [done|apply db_step_refl|]. intros t [= <-]. split; [done|]. intros Hsrc. by specialize (Hall Hsrc eq_refl). }
  set (rs := r0 :: resolved) in *. destruct (apply_resolved_timestamps store_error chain false db rs) as [[n db1]|] eqn:Ha; [|apply Herr].
  destruct (apply_resolved_spec db rs (n, db1)) as (Hstep & Hcount & Hless); [done|done|by intros; apply Hin, Hkin| |done|lia|done|].
  { intros k Hk. eapply all_missing_range. by apply Hin, Hkin. }
  cbn [fst snd] in Hstep, Hcount, Hless. assert (0 ≤ n) by lia.
  assert (saturating_add u64_max totals.2 n = totals.2 + n) as Hsat by (unfold saturating_add; lia). rewrite Hsat.
  destruct (IH db1 (saturating_add u64_max totals.1 (Z.of_nat (length rs)), totals.2 + n)) as (r & db' & -> & Hstep' & Hres); [cbn; lia..|].
  exists r, db'. split_and!; [done|by eapply db_step_trans|]. intros t Ht. destruct (Hres t Ht) as [Hsum Hrpc]. split; [cbn in Hsum; lia|done].
Qed.

Lemma backfill_loop_dry fuel db totals : ∃ r, loop true (S fuel) db totals = Some (r, db).
Proof.
  cbn [backfill_loop]. destruct (missing_batch _ _ _ _ _ _ db) as [[|b blocks]|]; [by eexists| |by eexists].
  destruct (batch (b :: blocks)) as [[[|r resolved]|]|] eqn:Hr; [by eexists| |by eexists|by apply batch_ends in Hr]. by eexists.
Qed.

(** C39. The timestamp backfill: the tool terminates, whatever the archive node
    and the Squid service answer (the rounds by the rows that are left, the pages
    of the service by the GraphQL integers of their offsets, for a positive page
    size, which the command line demands); it only fills in missing
    timestamps of the chain's log rows, each with a timestamp that another
    stored row of the same block has, or that the archive node has for the
    block of that number and hash, or that the Squid service has for the
    number; the number of rows it reports is the number it filled. With the
    archive node as source, a run that succeeds leaves no row of the range
    without a timestamp. A dry run changes nothing. *)
Theorem backfill_chain_correct dry_run fuel db :
  Z.of_nat (missing db) ≤ u64_max → (missing db < fuel)%nat →
  ∃ r db', tool dry_run fuel db = Some (r, db') ∧
    db_step scope (λ b h t, (b, h, t) ∈ timestamp_sources db scope from_block to_block ∨ resolvable b h t) db db' ∧
    (dry_run = true → db' = db) ∧
    ∀ blocks rows, r = Ok (blocks, rows) → dry_run = false →
      rows + Z.of_nat (missing db') = Z.of_nat (missing db) ∧ (timestamp_source = SourceRpc → missing db' = 0%nat).
Proof.
  intros Hmax Hfuel. unfold backfill_chain. destruct dry_run.
  - destruct fuel as [|fuel]; [lia|]. destruct (backfill_loop_dry fuel db (0, 0)) as [r Hr]. cbn [mbind]. rewrite Hr.
    destruct r as [totals|e]; eexists _, db; (split_and!; [done|apply db_step_refl|done|done]).
  - destruct (map_err _ _) as [[rows db1]|e] eqn:Hseed.
    2:{ exists (Err e), db. split_and!; [done|apply db_step_refl|done|done]. }
    apply map_err_Ok in Hseed. destruct (local_backfill_spec scope from_block to_block db _ _ _ _ Hscope Hrange Hmax Hseed) as (Hlocal & Hnn & Hcount).
    cbn [fst snd] in Hlocal, Hnn, Hcount. destruct (backfill_loop_spec fuel db1 (0, rows)) as (r & db' & Hr & Hstep & Hres).
    { done. }
    { cbn. lia. }
    { lia. }
    rewrite Hr. assert (db_step scope (λ b h t, (b, h, t) ∈ timestamp_sources db scope from_block to_block ∨ resolvable b h t) db db') as Hall.
    { eapply db_step_trans; eapply db_step_mono; [|exact Hlocal| |exact Hstep]; auto. }
    destruct r as [[blocks rows']|e]; eexists _, db'; (split_and!; [done|done|done|]); [|done].
    intros blocks' rows2 Hok _. apply bind_Ok in Hok as (? & _ & [= <- <-]). destruct (Hres _ eq_refl) as [Hsum Hrpc]. cbn in Hsum. split; [lia|done].
Qed.
End chain.

(** ** A run *)

(** Two rows without a timestamp: one shares its block with a public
    transaction, the other's block only the node has. *)
Definition toy_unstamped : ChainDb :=
  mkChainDb {[ (toy_scope, (0, 0)) := (5, (mkSourceCols None 75 100 0, 17, Some [Byte.x07])) ]}
    {[ (toy_scope, (0, 2)) := (6, (mkSourceCols None 76 101 1, 34, [Byte.x01], [Byte.x02])) ]} ∅ ∅ ∅ ∅
    {[ (toy_scope, (100, 0)) := (5, toy_txid_columns 5 0) ]} ∅ ∅ ∅.
Definition toy_node : EthProvider :=
  mkProvider (λ _, Ok None) (λ h, Ok (Some (h, h - 70, 930 + h))) (λ _, Ok None) (λ _, Ok JNull) (λ _, Ok JNull).
(** The Squid service has the timestamp of block 6. *)
Definition toy_squid (field : string) (_ : SquidTimestampFilter) (offset limit : Z) : result string (list Value) :=
  Ok (if decide (field = "nullifiers"%string ∧ offset = 0) then [JObject [("blockNumber", JString "6"); ("blockTimestamp", JNumber 1006)]] else [])%string.
Definition toy_backfill (source : TimestampSource) : option (result string (Z * Z) * ChainDb) :=
  backfill_chain id (λ _, "store"%string) (λ _, "rpc"%string) (Some toy_node) (Some toy_squid) (mkChainConfig 1 192 5 [] []) 5 300 1 (2 ^ 30)
    source true false 4 3 toy_unstamped.

(** From either source: the node, or the Squid service. *)
Lemma backfill_chain_correct_witness :
  (∃ db', toy_backfill SourceRpc = Some (Ok (1, 2), db') ∧ length (all_missing_sources db' toy_scope 5 300) = 0%nat) ∧
  (∃ db', toy_backfill SourceSquid = Some (Ok (1, 2), db') ∧ 2 + Z.of_nat (length (all_missing_sources db' toy_scope 5 300)) = 2).
Proof.
  assert (length (all_missing_sources toy_unstamped toy_scope 5 300) = 2%nat) as Hlen by (vm_compute; reflexivity).
  assert (∀ source, source = SourceRpc ∨ source = SourceSquid → ∃ db', toy_backfill source = Some (Ok (1, 2), db')) as Hruns
    by (intros source [-> | ->]; eexists; vm_compute; reflexivity).
  split.
  - destruct (Hruns SourceRpc (or_introl eq_refl)) as [db' Hrun]. exists db'. split; [exact Hrun|].
    pose proof (backfill_chain_correct id (λ _, "store"%string) (λ _, "rpc"%string) (Some toy_node) (Some toy_squid) (mkChainConfig 1 192 5 [] []) 5 300 1 (2 ^ 30)
      SourceRpc true 4 toy_scope (λ _, reflexivity _) eq_refl ltac:(lia) ltac:(lia) ltac:(lia) ltac:(vm_compute; reflexivity) false 3 toy_unstamped) as Hthm.
    rewrite Hlen in Hthm. specialize (Hthm ltac:(vm_compute; discriminate) ltac:(lia)).
    destruct Hthm as (r & db2 & Hr & _ & _ & Hres). unfold toy_backfill in Hrun. rewrite Hrun in Hr. apply (inj Some) in Hr. apply pair_eq in Hr as [<- <-].
    destruct (Hres 1 2 eq_refl eq_refl) as [_ Hdone]. exact (Hdone eq_refl).
  - destruct (Hruns SourceSquid (or_intror eq_refl)) as [db' Hrun]. exists db'. split; [exact Hrun|].
    pose proof (backfill_chain_correct id (λ _, "store"%string) (λ _, "rpc"%string) (Some toy_node) (Some toy_squid) (mkChainConfig 1 192 5 [] []) 5 300 1 (2 ^ 30)
      SourceSquid true 4 toy_scope (λ _, reflexivity _) eq_refl ltac:(lia) ltac:(lia) ltac:(lia) ltac:(vm_compute; reflexivity) false 3 toy_unstamped) as Hthm.
    rewrite Hlen in Hthm. specialize (Hthm ltac:(vm_compute; discriminate) ltac:(lia)).
    destruct Hthm as (r & db2 & Hr & _ & _ & Hres). unfold toy_backfill in Hrun. rewrite Hrun in Hr. apply (inj Some) in Hr. apply pair_eq in Hr as [<- <-].
    exact (proj1 (Hres 1 2 eq_refl eq_refl)).
Defined.

(** Two hashes of one block number, of which the batch lists one: the number
    counts as unambiguous, and the service's timestamp goes to that hash. *)
Definition toy_forked : ChainDb :=
  mkChainDb {[ (toy_scope, (0, 0)) := (5, (mkSourceCols None 75 100 0, 17, Some [Byte.x07])) ]}
    {[ (toy_scope, (0, 2)) := (5, (mkSourceCols None 76 101 1, 34, [Byte.x01], [Byte.x02])) ]} ∅ ∅ ∅ ∅ ∅ ∅ ∅ ∅.
Example squid_ambiguity_per_batch :
  (λ limit, (λ missing, (squid_eligible_block_numbers missing).1) <$> missing_wallet_scan_timestamp_blocks id toy_forked 0 1 192 5 300 limit) <$> [2; 1] =
  [Ok []; Ok [5]].
Proof. vm_compute. reflexivity. Qed.
