(* ===== verification/PoiCorpus.v ===== *)
(** * The validated POI corpus ([poi_v4.rs])

    Before a list is published, its stored events are replayed: indexes,
    signatures and the final root are checked, and checkpoint chunks, the tail
    and bridges are cut out of the replayed events. The Merkle cache and the
    artifact types are the [poi] crate; its constructors only build the record
    of their arguments, or refuse. *)

From S2P Require Import Prelude Order PoiStore ScrapeWorker AuditLog.

Inductive EventArtifactKind := Checkpoint | CurrentTail | Bridge.
Inductive ArtifactEncoding := PoiEventBinary | CanonicalJson.
Inductive Compression := Identity.
#[export] Instance EventArtifactKind_dec : EqDecision EventArtifactKind.
Proof. solve_decision. Defined.
#[export] Instance ArtifactEncoding_dec : EqDecision ArtifactEncoding.
Proof. solve_decision. Defined.
#[export] Instance Compression_dec : EqDecision Compression.
Proof. solve_decision. Defined.
#[export] Instance EventRange_dec : EqDecision EventRange.
Proof. solve_decision. Defined.

Record ArtifactDescriptor := mkArtifactDescriptor {
  ad_cid : string;
  ad_sha256 : bytes;
  ad_byte_size : Z;
}.
#[export] Instance ArtifactDescriptor_dec : EqDecision ArtifactDescriptor.
Proof. solve_decision. Defined.
Record EventArtifactDescriptor := mkEventDescriptor {
  ed_artifact : ArtifactDescriptor;
  ed_format_version : Z;
  ed_scope : PoiScope;
  ed_kind : EventArtifactKind;
  ed_range : EventRange;
  ed_row_count : Z;
  ed_encoding : ArtifactEncoding;
  ed_compression : Compression;
  ed_start_root : option Z;
  ed_end_root : Z;
}.
#[export] Instance EventArtifactDescriptor_dec : EqDecision EventArtifactDescriptor.
Proof. solve_decision. Defined.

Record EventArtifact := mkEventArtifact {
  ea_scope : PoiScope;
  ea_kind : EventArtifactKind;
  ea_range : EventRange;
  ea_start_root : option Z;
  ea_end_root : Z;
  ea_events : list SnapshotEvent;
}.
Record CheckpointCatalog := mkCatalog {
  cc_scope : PoiScope;
  cc_range : option EventRange;
  cc_checkpoint_root : option Z;
  cc_chunks : list EventArtifactDescriptor;
}.
(** What is read of a catalog descriptor. *)
Record CheckpointCatalogDescriptor := mkCatalogDescriptor {
  cd_artifact : ArtifactDescriptor;
  cd_row_count : Z;
  cd_range : option EventRange;
  cd_chunk_count : Z;
}.

Inductive PoiArtifactError :=
  | EventArtifactByteLimitExceeded
  | OtherArtifactError (message : string).

(** The indexes an artifact of some events covers. *)
Definition covers (range : EventRange) (events : list SnapshotEvent) : Prop :=
  ∃ first last, head events = Some first ∧ list.last events = Some last ∧
    range = mkEventRange (sn_event_index first) (sn_event_index last).

(** What the publisher uses of the [poi] crate. *)
Class PoiArtifactCrate `{PoiCrate} := {
  CHECKPOINT_EVENT_SPAN : Z;
  span_bounds : 0 < CHECKPOINT_EVENT_SPAN ≤ u64_max;
  root_at_global_index : PoiCache → Z → option Z;
  event_artifact_new : PoiScope → EventArtifactKind → option Z → Z → list SnapshotEvent → result PoiArtifactError EventArtifact;
  event_artifact_new_fields scope kind start_root end_root events a :
    event_artifact_new scope kind start_root end_root events = Ok a →
    ∃ range, covers range events ∧ a = mkEventArtifact scope kind range start_root end_root events;
  event_artifact_to_bytes : EventArtifact → result PoiArtifactError bytes;
  event_artifact_descriptor : EventArtifact → string → result PoiArtifactError EventArtifactDescriptor;
  event_artifact_descriptor_fields a cid d :
    event_artifact_descriptor a cid = Ok d →
    ad_cid (ed_artifact d) = cid ∧ ed_scope d = ea_scope a ∧ ed_kind d = ea_kind a ∧ ed_range d = ea_range a ∧
    ed_row_count d = Z.of_nat (length (ea_events a)) ∧ ed_start_root d = ea_start_root a ∧ ed_end_root d = ea_end_root a;
  catalog_new : PoiScope → list EventArtifactDescriptor → result PoiArtifactError CheckpointCatalog;
  catalog_new_fields scope chunks c : catalog_new scope chunks = Ok c → cc_scope c = scope ∧ cc_chunks c = chunks;
  catalog_to_bytes : CheckpointCatalog → result PoiArtifactError bytes;
  catalog_descriptor : CheckpointCatalog → string → result PoiArtifactError CheckpointCatalogDescriptor;
  catalog_descriptor_fields c cid d :
    catalog_descriptor c cid = Ok d →
    ad_cid (cd_artifact d) = cid ∧ cd_row_count d = foldr Z.add 0 (ed_row_count <$> cc_chunks c) ∧
    cd_chunk_count d = Z.of_nat (length (cc_chunks c));
}.

Section corpus.
Context `{PoiArtifactCrate} `{ManifestCrate}.

Inductive PublicationError :=
  | Contract (e : PoiArtifactError)
  | Cache (e : PoiCacheError)
  | InvalidEventSignature (event_index : Z) (source : VerifyError)
  | NonContiguousEvent (expected actual : Z)
  | FinalRootPresenceMismatch
  | FinalRootMismatch (event_index expected actual : Z)
  | MissingRoot (event_index : Z)
  | CheckpointBeyondTip (checkpoint_event_count event_count : Z)
  | InvalidEventRange (start_index end_index event_count : Z)
  | ArithmeticOverflow.
Abbreviation presult := (result PublicationError).

Record PreparedEventArtifact := mkPreparedEvent {
  pr_artifact : EventArtifact;
  pr_bytes : bytes;
  pr_sha256 : bytes;
}.
Definition prepared_descriptor (p : PreparedEventArtifact) (cid : string) : presult EventArtifactDescriptor :=
  map_err Contract (event_artifact_descriptor (pr_artifact p) cid).

Record ValidatedCorpus := mkCorpus {
  vc_scope : PoiScope;
  vc_events : list SnapshotEvent;
  vc_cache : PoiCache;
}.

(** One event of the replay loop; the state is [events]. *)
Definition signed_of_stored (stored : StoredEvent) : SignedPoiEvent :=
  mkSignedEvent (se_event_index stored) (se_blinded_commitment stored) (hex_encode (se_signature stored)) (se_event_type stored).
Definition replay_event (list_key : Z) (events : list SnapshotEvent) (stored : StoredEvent) : presult (list SnapshotEvent) :=
  expected ← ok_or (try_from_len u64_max (length events)) ArithmeticOverflow;
  if decide (se_event_index stored ≠ expected) then Err (NonContiguousEvent expected (se_event_index stored))
  else
    _ ← map_err (InvalidEventSignature (se_event_index stored)) (verify_poi_event (signed_of_stored stored) list_key);
    Ok (events ++ [snapshot_of_stored stored]).

Definition replay (scope : PoiScope) (stored_events : list StoredEvent) (expected_final_root : option Z) : presult ValidatedCorpus :=
  let cache := cache_new (ps_chain_type scope) (ps_chain_id scope) (ps_txid_version scope) (ps_list_key scope) in
  events ← try_fold (replay_event (ps_list_key scope)) [] stored_events;
  cache ← map_err Cache (apply_verified_artifact_events cache events);
  _ ← match last events, expected_final_root with
      | None, None => Ok tt
      | None, Some _ | Some _, None => Err FinalRootPresenceMismatch
      | Some l, Some expected =>
          actual ← ok_or (root_at_global_index cache (sn_event_index l)) (MissingRoot (sn_event_index l));
          if decide (actual ≠ expected) then Err (FinalRootMismatch (sn_event_index l) expected actual) else Ok tt
      end;
  Ok (mkCorpus scope events cache).

Definition event_count (corpus : ValidatedCorpus) : Z := default u64_max (try_from_len u64_max (length (vc_events corpus))).
Definition root_at (corpus : ValidatedCorpus) (event_index : Z) : presult Z :=
  ok_or (root_at_global_index (vc_cache corpus) event_index) (MissingRoot event_index).

(** [self.events[start..=end]]; the caller has checked the bounds. *)
Definition event_slice (corpus : ValidatedCorpus) (start end_ : Z) : list SnapshotEvent :=
  take (Z.to_nat (end_ - start + 1)) (drop (Z.to_nat start) (vc_events corpus)).

Definition prepare_event_artifact (corpus : ValidatedCorpus) (kind : EventArtifactKind) (start_index end_index : Z)
    : presult PreparedEventArtifact :=
  if decide (end_index < start_index ∨ event_count corpus ≤ end_index)
  then Err (InvalidEventRange start_index end_index (event_count corpus))
  else
    start ← ok_or (try_from usize_max start_index) ArithmeticOverflow;
    end_ ← ok_or (try_from usize_max end_index) ArithmeticOverflow;
    start_root ← match checked_sub start_index 1 with Some index => Some <$> root_at corpus index | None => Ok None end;
    end_root ← root_at corpus end_index;
    artifact ← map_err Contract (event_artifact_new (vc_scope corpus) kind start_root end_root (event_slice corpus start end_));
    bs ← map_err Contract (event_artifact_to_bytes artifact);
    Ok (mkPreparedEvent artifact bs (content_hash bs)).

(** The loop of [prepare_checkpoint]; [None] is out of fuel. *)
Fixpoint prepare_checkpoint_loop (fuel : nat) (corpus : ValidatedCorpus) (checkpoint_event_count start : Z)
    (chunks : list PreparedEventArtifact) : option (presult (list PreparedEventArtifact)) :=
  if decide (start < checkpoint_event_count) then
    match fuel with
    | O => None
    | S fuel =>
        match
          (end_ ← ok_or (checked_add u64_max start (CHECKPOINT_EVENT_SPAN - 1)) ArithmeticOverflow;
           let end_ := Z.min end_ (checkpoint_event_count - 1) in
           chunk ← prepare_event_artifact corpus Checkpoint start end_;
           start ← ok_or (checked_add u64_max end_ 1) ArithmeticOverflow;
           Ok (chunk, start))
        with
        | Ok (chunk, start) => prepare_checkpoint_loop fuel corpus checkpoint_event_count start (chunks ++ [chunk])
        | Err e => Some (Err e)
        end
    end
  else Some (Ok chunks).
Definition prepare_checkpoint (corpus : ValidatedCorpus) (checkpoint_event_count : Z) : option (presult (list PreparedEventArtifact)) :=
  if decide (event_count corpus < checkpoint_event_count)
  then Some (Err (CheckpointBeyondTip checkpoint_event_count (event_count corpus)))
  else prepare_checkpoint_loop (Z.to_nat checkpoint_event_count) corpus checkpoint_event_count 0 [].

Definition checkpoint_catalog (scope : PoiScope) (chunks : list EventArtifactDescriptor) : presult (CheckpointCatalog * bytes) :=
  catalog ← map_err Contract (catalog_new scope chunks);
  bs ← map_err Contract (catalog_to_bytes catalog);
  Ok (catalog, bs).
End corpus.

(** ** Replaying *)
Section replaying.
Context `{PoiArtifactCrate} `{ManifestCrate}.

(** What the loop checks of the event at position [i]. *)
Definition event_ok (list_key : Z) (i : nat) (s : StoredEvent) : Prop :=
  se_event_index s = Z.of_nat i ∧ Z.of_nat i ≤ u64_max ∧ verify_poi_event (signed_of_stored s) list_key = Ok tt.
Definition events_ok (list_key : Z) (stored : list StoredEvent) : Prop :=
  ∀ i s, stored !! i = Some s → event_ok list_key i s.

Lemma replay_event_Ok k events s events' :
  replay_event k events s = Ok events' ↔ event_ok k (length events) s ∧ events' = events ++ [snapshot_of_stored s].
Proof.
  unfold replay_event, event_ok. rewrite bind_Ok. setoid_rewrite ok_or_Ok. setoid_rewrite try_from_len_Some. split.
  - intros (x & [-> Hle] & Hr). case_decide as Hi; [done|].
    apply bind_Ok in Hr as ([] & Hv%map_err_Ok & [= <-]). done.
  - intros [(Hi & Hle & Hv) ->]. exists (Z.of_nat (length events)). split; [done|]. rewrite decide_False by (intros ?; done).
    by rewrite Hv.
Qed.

Lemma replay_events_Ok k stored events events' :
  try_fold (replay_event k) events stored = Ok events' ↔
  (∀ i s, stored !! i = Some s → event_ok k (length events + i) s) ∧ events' = events ++ (snapshot_of_stored <$> stored).
Proof.
  revert events. induction stored as [|s stored IH]; intros events; cbn [try_fold].
  - rewrite app_nil_r. split; [intros [= <-]; split; [done|done]|by intros [_ ->]].
  - rewrite bind_Ok. setoid_rewrite replay_event_Ok. setoid_rewrite IH. split.
    + intros (? & [Hs ->] & Hrest & ->). rewrite length_app in Hrest. cbn in Hrest. split; [|by rewrite <- app_assoc].
      intros [|i] s' Hi; cbn in Hi; [injection Hi as <-; by rewrite Nat.add_0_r|].
      rewrite Nat.add_succ_r. specialize (Hrest i s' Hi). by rewrite Nat.add_1_r in Hrest.
    + intros [Hall ->]. exists (events ++ [snapshot_of_stored s]). split_and!; [|done| |by rewrite <- app_assoc].
      * specialize (Hall 0%nat s eq_refl). by rewrite Nat.add_0_r in Hall.
      * intros i s' Hi. rewrite length_app, Nat.add_1_r. specialize (Hall (S i) s' Hi). by rewrite Nat.add_succ_r in Hall.
Qed.

(** The cache of a list after some events. *)
Definition scope_cache (scope : PoiScope) : PoiCache :=
  cache_new (ps_chain_type scope) (ps_chain_id scope) (ps_txid_version scope) (ps_list_key scope).
(** The root after the last event is the expected one. *)
Definition final_root_ok (cache : PoiCache) (events : list SnapshotEvent) (expected : option Z) : Prop :=
  match last events with
  | None => expected = None
  | Some l => is_Some expected ∧ root_at_global_index cache (sn_event_index l) = expected
  end.

(** What a corpus that was replayed has. *)
Record corpus_ok (corpus : ValidatedCorpus) : Prop := {
  ck_index i e : vc_events corpus !! i = Some e → sn_event_index e = Z.of_nat i;
  ck_length : Z.of_nat (length (vc_events corpus)) ≤ u64_max;
}.
Lemma replay_corpus_ok scope stored expected corpus : replay scope stored expected = Ok corpus → Z.of_nat (length stored) ≤ u64_max → corpus_ok corpus.
Proof.
  intros Hr Hlen. apply bind_Ok in Hr as (events & [Hok ->]%replay_events_Ok & Hr). apply bind_Ok in Hr as (cache & _ & Hr).
  apply bind_Ok in Hr as (_ & _ & [= <-]). cbn [app]. split; cbn [vc_events].
  - intros i e Hi. rewrite list_lookup_fmap in Hi. apply fmap_Some in Hi as (s & Hs & ->). by apply Hok in Hs as [? _].
  - by rewrite length_fmap.
Qed.
Lemma corpus_ok_count corpus : corpus_ok corpus → event_count corpus = Z.of_nat (length (vc_events corpus)).
Proof. intros Hok. unfold event_count. by rewrite try_from_len_fits by apply Hok. Qed.
(** The replay of a stored event log: it succeeds exactly if the events are
    numbered from 0 without a gap, every signature verifies, the Merkle cache
    accepts the events, and the root after the last of them is the one the
    upstream node reported (none for an empty log); the corpus then holds all
    of the events in their order. *)
Theorem replay_correct scope stored expected corpus :
  replay scope stored expected = Ok corpus ↔
  events_ok (ps_list_key scope) stored ∧
  vc_scope corpus = scope ∧ vc_events corpus = snapshot_of_stored <$> stored ∧
  apply_verified_artifact_events (scope_cache scope) (vc_events corpus) = Ok (vc_cache corpus) ∧
  final_root_ok (vc_cache corpus) (vc_events corpus) expected.
Proof.
  unfold replay. rewrite bind_Ok. setoid_rewrite replay_events_Ok. setoid_rewrite bind_Ok. setoid_rewrite map_err_Ok.
  fold (scope_cache scope). unfold final_root_ok. split.
  - intros (events & [Hok ->] & cache & Hcache & Hr). cbn [app] in Hr, Hcache. apply bind_Ok in Hr as ([] & Hroot & [= <-]).
    cbn [vc_scope vc_events vc_cache]. split_and!; [exact Hok|done|done|done|].
    destruct (last _) as [l|]; destruct expected as [r|]; try done. apply bind_Ok in Hroot as (actual & Ha%ok_or_Ok & Hd).
    case_decide as Heq; [done|]. by subst actual.
  - destruct corpus as [sc evs cache]. cbn [vc_scope vc_events vc_cache]. intros (Hok & -> & -> & Hcache & Hroot).
    exists (snapshot_of_stored <$> stored). split; [done|]. exists cache. split; [done|].
    destruct (last _) as [l|]; [|by subst expected]. destruct Hroot as [[r ->] Hr]. rewrite Hr. cbn. by rewrite decide_False by auto.
Qed.

End replaying.

(** ** Cutting artifacts out of a corpus *)
Section cutting.
Context `{PoiArtifactCrate} `{ManifestCrate}.
Implicit Types corpus : ValidatedCorpus.

Lemma length_event_slice corpus s e :
  0 ≤ s ≤ e + 1 → e + 1 ≤ Z.of_nat (length (vc_events corpus)) → Z.of_nat (length (event_slice corpus s e)) = e - s + 1.
Proof. intros ? ?. unfold event_slice. rewrite length_take, length_drop. lia. Qed.
Lemma event_slice_covers corpus s e :
  corpus_ok corpus → 0 ≤ s ≤ e → e < Z.of_nat (length (vc_events corpus)) → ∀ range, covers range (event_slice corpus s e) →
  range = mkEventRange s e.
Proof.
  intros Hok Hse He range (first & l & Hfirst & Hlast & ->). pose proof (length_event_slice corpus s e) as Hlen.
  assert (∀ i x, event_slice corpus s e !! i = Some x → sn_event_index x = s + Z.of_nat i) as Hix.
  { intros i x (Hi & _)%lookup_take_Some. rewrite lookup_drop in Hi. apply (ck_index _ Hok) in Hi. lia. }
  rewrite <- (Nat2Z.id (length _)) in Hlen. rewrite head_lookup in Hfirst. rewrite last_lookup in Hlast.
  apply Hix in Hfirst, Hlast. f_equal; lia.
Qed.

(** The root before an index. *)
Definition root_before corpus (s : Z) : option Z := if decide (s = 0) then None else root_at_global_index (vc_cache corpus) (s - 1).
(** The artifact of the events from [s] to [e]. *)
Definition is_artifact_of corpus (kind : EventArtifactKind) (s e : Z) (a : EventArtifact) : Prop :=
  ea_scope a = vc_scope corpus ∧ ea_kind a = kind ∧ ea_range a = mkEventRange s e ∧ ea_events a = event_slice corpus s e ∧
  (s ≠ 0 → is_Some (ea_start_root a)) ∧ ea_start_root a = root_before corpus s ∧
  root_at_global_index (vc_cache corpus) e = Some (ea_end_root a).

Lemma prepared_is_artifact corpus kind s e p :
  corpus_ok corpus → 0 ≤ s → prepare_event_artifact corpus kind s e = Ok p →
  s ≤ e < event_count corpus ∧ is_artifact_of corpus kind s e (pr_artifact p) ∧
  event_artifact_to_bytes (pr_artifact p) = Ok (pr_bytes p) ∧ pr_sha256 p = content_hash (pr_bytes p).
Proof.
  intros Hok Hs. unfold prepare_event_artifact. case_decide as Hr; [done|]. apply Decidable.not_or in Hr as [Hr1 Hr2].
  intros Hp. apply bind_Ok in Hp as (s' & [-> _]%ok_or_Ok%try_from_Some & Hp). apply bind_Ok in Hp as (e' & [-> _]%ok_or_Ok%try_from_Some & Hp).
  apply bind_Ok in Hp as (sr & Hsr & Hp). apply bind_Ok in Hp as (er & Her%ok_or_Ok & Hp).
  apply bind_Ok in Hp as (a & Ha%map_err_Ok & Hp). apply bind_Ok in Hp as (bs & Hbs%map_err_Ok & [= <-]). cbn [pr_artifact pr_bytes pr_sha256].
  split; [lia|]. split; [|done]. apply event_artifact_new_fields in Ha as (range & Hc & ->). rewrite corpus_ok_count in Hr2 by done.
  apply event_slice_covers in Hc as ->; [|done|lia..]. unfold is_artifact_of, root_before. cbn.
  assert ((s ≠ 0 → is_Some sr) ∧ sr = if decide (s = 0) then None else root_at_global_index (vc_cache corpus) (s - 1)) as [? ?].
  { unfold checked_sub in Hsr. case_decide; cbn in Hsr; [rewrite decide_False by lia|rewrite decide_True by lia; split; [lia|congruence]].
    unfold root_at, fmap, result_fmap in Hsr. destruct (root_at_global_index _ (s - 1)); cbn in Hsr; simplify_eq. by eauto. }
  done.
Qed.

(** What is published of an artifact is its encoding. *)
Definition encoded (p : PreparedEventArtifact) : Prop := event_artifact_to_bytes (pr_artifact p) = Ok (pr_bytes p).
Lemma prepared_encoded corpus kind s e p : prepare_event_artifact corpus kind s e = Ok p → encoded p.
Proof.
  unfold prepare_event_artifact. case_decide; [done|]. intros Hp. apply bind_Ok in Hp as (? & _ & Hp). apply bind_Ok in Hp as (? & _ & Hp).
  apply bind_Ok in Hp as (? & _ & Hp). apply bind_Ok in Hp as (? & _ & Hp). apply bind_Ok in Hp as (a & _ & Hp).
  by apply bind_Ok in Hp as (bs & Hbs%map_err_Ok & [= <-]).
Qed.
Lemma checkpoint_encoded corpus n chunks : prepare_checkpoint corpus n = Some (Ok chunks) → Forall encoded chunks.
Proof.
  unfold prepare_checkpoint. case_decide; [done|]. assert (∀ fuel start acc, Forall encoded acc →
    prepare_checkpoint_loop fuel corpus n start acc = Some (Ok chunks) → Forall encoded chunks) as Hloop; [|apply Hloop; constructor].
  intros fuel. induction fuel as [|fuel IH]; intros start acc Hd; cbn [prepare_checkpoint_loop]; (case_decide; [|by intros [= <-]]); [done|].
  destruct (mbind _ _) as [[chunk start']|e] eqn:Hc; [|done]. apply IH. apply Forall_app_2, Forall_singleton; [done|].
  apply bind_Ok in Hc as (? & _ & Hc). apply bind_Ok in Hc as (p & Hp & Hc). apply bind_Ok in Hc as (? & _ & [= <- _]). by eapply prepared_encoded.
Qed.

(** ** Checkpoints *)
Definition checkpoint_chunk_count (n : Z) : Z := (n + CHECKPOINT_EVENT_SPAN - 1) / CHECKPOINT_EVENT_SPAN.
Definition checkpoint_range (n k : Z) : EventRange :=
  mkEventRange (k * CHECKPOINT_EVENT_SPAN) (Z.min ((k + 1) * CHECKPOINT_EVENT_SPAN) n - 1).
(** The chunks from the [k]-th on, each the next full span of events. *)
Definition checkpoint_ranges (n k : Z) : list EventRange := checkpoint_range n <$> seqZ k (checkpoint_chunk_count n - k).
Definition prepare_range corpus (r : EventRange) : result PublicationError PreparedEventArtifact :=
  prepare_event_artifact corpus Checkpoint (start_index r) (end_index r).

Lemma chunk_count_spec n k : 0 ≤ k → k < checkpoint_chunk_count n ↔ k * CHECKPOINT_EVENT_SPAN < n.
Proof.
  intros Hk. pose proof span_bounds as [Hspan _]. unfold checkpoint_chunk_count. split.
  - intros Hlt. pose proof (Z.mul_div_le (n + CHECKPOINT_EVENT_SPAN - 1) CHECKPOINT_EVENT_SPAN Hspan). nia.
  - intros Hlt. apply Z.lt_le_trans with (k + 1); [lia|]. apply Z.div_le_lower_bound; nia.
Qed.

Lemma checkpoint_ranges_step n k :
  0 ≤ k → checkpoint_ranges n k = if decide (k * CHECKPOINT_EVENT_SPAN < n) then checkpoint_range n k :: checkpoint_ranges n (k + 1) else [].
Proof.
  intros Hk. unfold checkpoint_ranges. pose proof (chunk_count_spec n k Hk). case_decide.
  - rewrite seqZ_cons by lia. cbn. do 3 f_equal. lia.
  - by rewrite seqZ_nil by lia.
Qed.

Lemma checkpoint_loop corpus n fuel k chunks :
  0 ≤ k → n + CHECKPOINT_EVENT_SPAN ≤ u64_max → n ≤ k * CHECKPOINT_EVENT_SPAN + Z.of_nat fuel →
  prepare_checkpoint_loop fuel corpus n (Z.min (k * CHECKPOINT_EVENT_SPAN) n) chunks =
  Some (rest ← try_map (prepare_range corpus) (checkpoint_ranges n k); Ok (chunks ++ rest)).
Proof.
  pose proof span_bounds as [Hspan _]. intros Hk Hmax. revert k chunks Hk. induction fuel as [|fuel IH]; intros k chunks Hk Hfuel;
    rewrite checkpoint_ranges_step by done; cbn [prepare_checkpoint_loop].
  - rewrite !decide_False by lia. cbn. by rewrite app_nil_r.
  - destruct (decide (k * CHECKPOINT_EVENT_SPAN < n)) as [Hlt|Hge]; [|rewrite decide_False by lia; cbn; by rewrite app_nil_r].
    rewrite decide_True by lia. rewrite Z.min_l by lia. rewrite (proj2 (checked_add_Some u64_max _ _ (k * CHECKPOINT_EVENT_SPAN + (CHECKPOINT_EVENT_SPAN - 1)))) by nia. cbn [ok_or mbind result_bind try_map].
    change (prepare_range corpus (checkpoint_range n k)) with
      (prepare_event_artifact corpus Checkpoint (k * CHECKPOINT_EVENT_SPAN) (Z.min ((k + 1) * CHECKPOINT_EVENT_SPAN) n - 1)).
    replace (Z.min (k * CHECKPOINT_EVENT_SPAN + (CHECKPOINT_EVENT_SPAN - 1)) (n - 1)) with (Z.min ((k + 1) * CHECKPOINT_EVENT_SPAN) n - 1) by nia.
    destruct (prepare_event_artifact _ _ _ _) as [chunk|e]; [|reflexivity]. cbn [mbind result_bind].
    rewrite (proj2 (checked_add_Some u64_max _ 1 (Z.min ((k + 1) * CHECKPOINT_EVENT_SPAN) n))) by lia. cbn [ok_or mbind result_bind].
    rewrite IH by nia. destruct (try_map _ _) as [rest|e]; cbn; [by rewrite <- app_assoc|done].
Qed.

Lemma prepare_checkpoint_ranges corpus n :
  0 ≤ n ≤ event_count corpus → n + CHECKPOINT_EVENT_SPAN ≤ u64_max →
  prepare_checkpoint corpus n = Some (try_map (prepare_range corpus) (checkpoint_ranges n 0)).
Proof.
  intros Hn Hmax. unfold prepare_checkpoint. rewrite decide_False by lia. pose proof (checkpoint_loop corpus n (Z.to_nat n) 0 []) as Hl.
  rewrite Z.min_l, Z.mul_0_l in Hl by lia. rewrite Hl by lia. by destruct (try_map _ _).
Qed.
Lemma checkpoint_ranges_lookup n k r :
  checkpoint_ranges n 0 !! k = Some r ↔ r = checkpoint_range n (Z.of_nat k) ∧ Z.of_nat k * CHECKPOINT_EVENT_SPAN < n.
Proof.
  unfold checkpoint_ranges. rewrite list_lookup_fmap, fmap_Some. setoid_rewrite lookup_seqZ. rewrite <- chunk_count_spec by lia. split.
  - intros (x & [-> Hlt] & ->). split; [f_equal; lia|lia].
  - intros [-> Hlt]. exists (Z.of_nat k). split; [lia|done].
Qed.

Lemma prepared_chunks corpus n chunks :
  corpus_ok corpus → try_map (prepare_range corpus) (checkpoint_ranges n 0) = Ok chunks →
  ∀ k, match chunks !! k with
       | Some chunk => Z.of_nat k * CHECKPOINT_EVENT_SPAN < n ∧
           prepare_event_artifact corpus Checkpoint (Z.of_nat k * CHECKPOINT_EVENT_SPAN)
             (Z.min ((Z.of_nat k + 1) * CHECKPOINT_EVENT_SPAN) n - 1) = Ok chunk
       | None => n ≤ Z.of_nat k * CHECKPOINT_EVENT_SPAN
       end.
Proof.
  intros Hok Hc k. apply try_map_Ok in Hc. destruct (chunks !! k) as [chunk|] eqn:Hk.
  - eapply Forall2_lookup_r in Hc as (r & Hr & Hp); [|exact Hk]. by apply checkpoint_ranges_lookup in Hr as [-> Hlt].
  - apply Z.nlt_ge. intros Hlt.
    assert (checkpoint_ranges n 0 !! k = Some (checkpoint_range n (Z.of_nat k))) as Hs by (by apply checkpoint_ranges_lookup).
    eapply Forall2_lookup_l in Hc as (c & ? & _); [|exact Hs]. congruence.
Qed.

(** The events of the first [k] chunks. *)
Lemma chunk_events corpus n chunks k :
  corpus_ok corpus → 0 ≤ n ≤ event_count corpus → try_map (prepare_range corpus) (checkpoint_ranges n 0) = Ok chunks →
  concat ((λ c, ea_events (pr_artifact c)) <$> take k chunks) =
  take (Z.to_nat (Z.min (Z.of_nat k * CHECKPOINT_EVENT_SPAN) n)) (vc_events corpus).
Proof.
  intros Hok Hn Hc. pose proof span_bounds as [Hspan _]. induction k as [|k IH].
  { rewrite take_0. cbn. rewrite Z.min_l by lia. done. }
  pose proof (prepared_chunks corpus n chunks Hok Hc k) as Hk. destruct (chunks !! k) as [chunk|] eqn:Hl.
  - destruct Hk as [Hlt Hp]. apply prepared_is_artifact in Hp as (_ & (_ & _ & _ & Hev & _) & _); [|done|nia].
    rewrite (take_S_r _ _ chunk Hl), fmap_app, concat_app, IH. cbn. rewrite app_nil_r, Hev. unfold event_slice.
    rewrite Z.min_l by lia. rewrite take_take_drop. f_equal. nia.
  - rewrite take_ge by (apply lookup_ge_None in Hl; lia). rewrite take_ge in IH by (by apply lookup_ge_None in Hl). rewrite IH.
    f_equal. nia.
Qed.

Lemma checkpoint_events corpus n chunks :
  corpus_ok corpus → 0 ≤ n → event_count corpus + CHECKPOINT_EVENT_SPAN ≤ u64_max → prepare_checkpoint corpus n = Some (Ok chunks) →
  n ≤ event_count corpus ∧ concat ((λ c, ea_events (pr_artifact c)) <$> chunks) = take (Z.to_nat n) (vc_events corpus).
Proof.
  intros Hok Hn Hmax Hp. assert (n ≤ event_count corpus) as Hle.
  { apply Z.nlt_ge. intros Hlt. unfold prepare_checkpoint in Hp. by rewrite decide_True in Hp. }
  split; [done|]. rewrite prepare_checkpoint_ranges in Hp by lia. apply (inj Some) in Hp.
  rewrite <- (firstn_all chunks) at 1. rewrite (chunk_events corpus n) by done. do 2 f_equal. apply Z.min_r.
  pose proof (prepared_chunks corpus n chunks Hok Hp (length chunks)) as Hk. by rewrite lookup_ge_None_2 in Hk by done.
Qed.

(** Checkpoints: for every count up to the number of events, the loop ends;
    the chunks it prepares are exactly those of the consecutive ranges of
    [CHECKPOINT_EVENT_SPAN] events, and it fails only if one of them does. The
    chunks hold the first [n] events of the corpus, each once and in order;
    every chunk but the last is full; the first starts without a root, every
    other one at the root the chunk before it ends with. A count beyond the
    tip is refused. *)
Theorem checkpoint_chunks_exact corpus n :
  corpus_ok corpus → 0 ≤ n → event_count corpus + CHECKPOINT_EVENT_SPAN ≤ u64_max →
  if decide (n ≤ event_count corpus) then
    prepare_checkpoint corpus n = Some (try_map (prepare_range corpus) (checkpoint_ranges n 0)) ∧
    ∀ chunks, prepare_checkpoint corpus n = Some (Ok chunks) →
      concat ((λ c, ea_events (pr_artifact c)) <$> chunks) = take (Z.to_nat n) (vc_events corpus) ∧
      ∀ k chunk, chunks !! k = Some chunk →
        ea_range (pr_artifact chunk) = checkpoint_range n (Z.of_nat k) ∧
        Z.of_nat (length (ea_events (pr_artifact chunk))) = Z.min CHECKPOINT_EVENT_SPAN (n - Z.of_nat k * CHECKPOINT_EVENT_SPAN) ∧
        ea_start_root (pr_artifact chunk) =
          match k with O => None | S j => (λ c, ea_end_root (pr_artifact c)) <$> chunks !! j end
  else prepare_checkpoint corpus n = Some (Err (CheckpointBeyondTip n (event_count corpus))).
Proof.
  intros Hok Hn Hmax. pose proof span_bounds as [Hspan _]. case_decide as Hle; [|unfold prepare_checkpoint; by rewrite decide_True by lia].
  split; [by rewrite prepare_checkpoint_ranges by lia|]. intros chunks Hc. split; [by eapply checkpoint_events|].
  rewrite prepare_checkpoint_ranges in Hc by lia. apply (inj Some) in Hc.
  intros k chunk Hl. pose proof (prepared_chunks corpus n chunks Hok Hc) as Hchunks. pose proof (Hchunks k) as Hk. rewrite Hl in Hk.
    destruct Hk as [Hlt Hp]. assert (0 ≤ Z.of_nat k * CHECKPOINT_EVENT_SPAN) as Hk0 by nia.
    pose proof (prepared_is_artifact _ _ _ _ _ Hok Hk0 Hp) as (_ & (_ & _ & Hr & Hev & _ & Hsr & _) & _).
    rewrite corpus_ok_count in Hle by done.
    split_and!; [done|rewrite Hev, length_event_slice; rewrite ?Z.mul_add_distr_r; lia|]. rewrite Hsr.
    destruct k as [|j]; [done|]. unfold root_before. rewrite decide_False by nia.
    pose proof (Hchunks j) as Hj. destruct (chunks !! j) as [prev|] eqn:Hprev; [|nia]. destruct Hj as [_ Hp'].
    apply prepared_is_artifact in Hp' as (_ & (_ & _ & _ & _ & _ & _ & Her) & _); [|done|nia]. cbn. rewrite <- Her. f_equal. nia.
Qed.
End cutting.

(** ** What stays when events are appended *)
Section appending.
Context `{PoiArtifactCrate} `{ManifestCrate}.
(** The roots of a cache are historical: later events do not change them. *)
Context (roots_historical : ∀ scope events more c1 c2 i,
  apply_verified_artifact_events (scope_cache scope) events = Ok c1 →
  apply_verified_artifact_events (scope_cache scope) (events ++ more) = Ok c2 →
  0 ≤ i < Z.of_nat (length events) → root_at_global_index c2 i = root_at_global_index c1 i).

(** A corpus extends another: same list, more events. *)
Definition corpus_extends (c1 c2 : ValidatedCorpus) : Prop :=
  vc_scope c2 = vc_scope c1 ∧ (∃ more, vc_events c2 = vc_events c1 ++ more) ∧
  ∀ i, 0 ≤ i < Z.of_nat (length (vc_events c1)) → root_at_global_index (vc_cache c2) i = root_at_global_index (vc_cache c1) i.

Lemma replay_events scope stored expected corpus :
  replay scope stored expected = Ok corpus →
  vc_scope corpus = scope ∧ vc_events corpus = snapshot_of_stored <$> stored ∧
  apply_verified_artifact_events (scope_cache scope) (snapshot_of_stored <$> stored) = Ok (vc_cache corpus).
Proof.
  intros Hr. apply bind_Ok in Hr as (events & [_ ->]%replay_events_Ok & Hr). apply bind_Ok in Hr as (cache & Hc%map_err_Ok & Hr).
  by apply bind_Ok in Hr as (_ & _ & [= <-]).
Qed.
Lemma replay_extends scope stored more root root' c1 c2 :
  replay scope stored root = Ok c1 → replay scope (stored ++ more) root' = Ok c2 → corpus_extends c1 c2.
Proof.
  intros (Hs1 & He1 & Hc1)%replay_events (Hs2 & He2 & Hc2)%replay_events. rewrite fmap_app in He2, Hc2. unfold corpus_extends.
  rewrite Hs1, Hs2, He1, He2. split_and!; [done|by eexists|]. intros i Hi. by eapply roots_historical.
Qed.

Lemma extends_event_slice c1 c2 s e :
  corpus_extends c1 c2 → 0 ≤ s ≤ e → e < Z.of_nat (length (vc_events c1)) → event_slice c2 s e = event_slice c1 s e.
Proof.
  intros (_ & [more Hm] & _) Hse He. unfold event_slice. rewrite Hm, drop_app_le by lia. rewrite take_app_le; [done|]. rewrite length_drop. lia.
Qed.
Lemma prepare_extends c1 c2 kind s e :
  corpus_ok c1 → corpus_ok c2 → corpus_extends c1 c2 → 0 ≤ s ≤ e → e < event_count c1 →
  prepare_event_artifact c2 kind s e = prepare_event_artifact c1 kind s e.
Proof.
  intros Hok1 Hok2 Hext Hs He. unfold prepare_event_artifact, root_at. pose proof Hext as (Hsc & [more Hev] & Hroots).
  assert (event_count c1 ≤ event_count c2) as Hle by (rewrite !corpus_ok_count, Hev, length_app by done; lia).
  rewrite !decide_False by lia. rewrite corpus_ok_count in He by done. unfold ok_or at 1 4. destruct (try_from usize_max s) as [s'|] eqn:Hs'; [|done].
  destruct (try_from usize_max e) as [e'|] eqn:He'; [|done]. apply try_from_Some in Hs' as [-> _], He' as [-> _]. cbn [ok_or mbind result_bind].
  rewrite (extends_event_slice c1 c2) by done. rewrite Hsc, (Hroots e) by lia. destruct (checked_sub s 1) as [s1|] eqn:Hs1; [|done].
  apply checked_sub_Some in Hs1 as [-> Hle1]. by rewrite (Hroots (s - 1)) by lia.
Qed.

(** Sealed content never changes: after events were appended to a list and
    it was replayed again, every artifact over indexes that were there before
    has the same bytes and hash, or fails in the same way; so the full
    checkpoint chunks of an older checkpoint are, one by one, chunks of the
    newer one, and keep their CIDs. *)
Theorem sealed_artifacts_stable scope stored more root root' c1 c2 :
  Z.of_nat (length (stored ++ more)) + CHECKPOINT_EVENT_SPAN ≤ u64_max →
  replay scope stored root = Ok c1 → replay scope (stored ++ more) root' = Ok c2 →
  (∀ kind s e, 0 ≤ s ≤ e → e < event_count c1 → prepare_event_artifact c2 kind s e = prepare_event_artifact c1 kind s e) ∧
  ∀ n1 n2 l1 l2 k, 0 ≤ n1 → 0 ≤ n2 → prepare_checkpoint c1 n1 = Some (Ok l1) → prepare_checkpoint c2 n2 = Some (Ok l2) →
    (Z.of_nat k + 1) * CHECKPOINT_EVENT_SPAN ≤ Z.min n1 n2 → is_Some (l1 !! k) ∧ l2 !! k = l1 !! k.
Proof.
  intros Hlen Hr1 Hr2. pose proof span_bounds as [Hspan _]. rewrite length_app in Hlen.
  assert (corpus_ok c1) as Hok1 by (eapply replay_corpus_ok; [done|lia]).
  assert (corpus_ok c2) as Hok2 by (eapply replay_corpus_ok; [done|rewrite length_app; lia]).
  pose proof (replay_extends _ _ _ _ _ _ _ Hr1 Hr2) as Hext. pose proof (replay_events _ _ _ _ Hr1) as (_ & He1 & _).
  pose proof (replay_events _ _ _ _ Hr2) as (_ & He2 & _). split; [by intros; apply prepare_extends|].
  intros n1 n2 l1 l2 k Hn1 Hn2 Hl1 Hl2 Hk.
  assert (event_count c1 = Z.of_nat (length stored)) as Hc1 by (rewrite corpus_ok_count, He1, length_fmap; done).
  assert (event_count c2 = Z.of_nat (length stored + length more)) as Hc2 by (rewrite corpus_ok_count, He2, length_fmap, length_app; done).
  assert (n1 ≤ event_count c1 ∧ n2 ≤ event_count c2) as [Hb1 Hb2].
  { unfold prepare_checkpoint in Hl1, Hl2. split; apply Z.nlt_ge; intros ?; [rewrite decide_True in Hl1 by done|rewrite decide_True in Hl2 by done]; done. }
  rewrite prepare_checkpoint_ranges in Hl1, Hl2 by lia. apply (inj Some) in Hl1, Hl2.
  pose proof (prepared_chunks c1 n1 l1 Hok1 Hl1 k) as Hk1. pose proof (prepared_chunks c2 n2 l2 Hok2 Hl2 k) as Hk2.
  destruct (l1 !! k) as [a1|]; [|nia]. destruct (l2 !! k) as [a2|]; [|nia]. destruct Hk1 as [_ Hk1], Hk2 as [_ Hk2].
  rewrite Z.min_l in Hk1, Hk2 by lia. rewrite (prepare_extends c1 c2) in Hk2; [|done|done|done|nia|nia]. split; [done|]. congruence.
Qed.
End appending.

(** ** Chunks of two events *)

(** The root after an event is the sum of the indexes so far, plus one; the
    bytes of an artifact are its range. *)
Definition toy_artifact_new (scope : PoiScope) (kind : EventArtifactKind) (start_root : option Z) (end_root : Z) (events : list SnapshotEvent)
    : result PoiArtifactError EventArtifact :=
  match head events, last events with
  | Some f, Some l => Ok (mkEventArtifact scope kind (mkEventRange (sn_event_index f) (sn_event_index l)) start_root end_root events)
  | _, _ => Err (OtherArtifactError "empty")
  end.
Definition toy_descriptor (a : EventArtifact) (cid : string) : result PoiArtifactError EventArtifactDescriptor :=
  Ok (mkEventDescriptor (mkArtifactDescriptor cid [] 2) 4 (ea_scope a) (ea_kind a) (ea_range a) (Z.of_nat (length (ea_events a)))
        PoiEventBinary Identity (ea_start_root a) (ea_end_root a)).
#[export] Instance toy_poi_artifacts : PoiArtifactCrate.
Proof.
  refine {|
    CHECKPOINT_EVENT_SPAN := 2;
    root_at_global_index cache i :=
      if decide (Z.to_nat i < length cache)%nat then Some (1 + foldr Z.add 0 (sn_event_index <$> take (S (Z.to_nat i)) cache)) else None;
    event_artifact_new := toy_artifact_new;
    event_artifact_to_bytes a := Ok (le_bytes 1 (start_index (ea_range a)) ++ le_bytes 1 (end_index (ea_range a)));
    event_artifact_descriptor := toy_descriptor;
    catalog_new scope chunks := Ok (mkCatalog scope None None chunks);
    catalog_to_bytes c := Ok (le_bytes 1 (Z.of_nat (length (cc_chunks c))));
    catalog_descriptor c cid := Ok (mkCatalogDescriptor (mkArtifactDescriptor cid [] 1) (foldr Z.add 0 (ed_row_count <$> cc_chunks c)) (cc_range c) (Z.of_nat (length (cc_chunks c))));
  |}.
  - vm_compute. by split.
  - unfold toy_artifact_new. intros scope kind sr er events a Ha. destruct (head events) as [f|] eqn:Hf; [|done].
    destruct (last events) as [l|] eqn:Hl; [|done]. injection Ha as <-. eexists. split; [|done]. exists f, l. by rewrite Hf, Hl.
  - by intros a cid d [= <-].
  - by intros scope chunks c [= <-].
  - by intros c cid d [= <-].
Defined.
Definition toy_manifest_crate : ManifestCrate := {|
  IndexedArtifactManifest := Z;
  manifest_from_json json := Ok (Z.of_nat (String.length json));
  verify_trusted_signature _ _ := Ok tt;
  manifest_sequence m := m;
  json_bytes json := String.list_byte_of_string json;
  content_hash bs := bs;
|}.
#[local] Existing Instance toy_manifest_crate.
Definition toy_poi_scope : PoiScope := mkPoiScope 7 0 1 "V2".
Definition toy_stored (i : Z) : StoredEvent := mkStoredEvent i [] [] Shield.
Definition toy_corpus (n : nat) : ValidatedCorpus := mkCorpus toy_poi_scope (snapshot_of_stored ∘ toy_stored <$> seqZ 0 (Z.of_nat n)) (snapshot_of_stored ∘ toy_stored <$> seqZ 0 (Z.of_nat n)).

Lemma toy_roots_historical scope (events more : list SnapshotEvent) c1 c2 i :
  apply_verified_artifact_events (scope_cache scope) events = Ok c1 →
  apply_verified_artifact_events (scope_cache scope) (events ++ more) = Ok c2 →
  0 ≤ i < Z.of_nat (length events) → root_at_global_index c2 i = root_at_global_index c1 i.
Proof.
  intros [= <-] [= <-] Hi. cbn. rewrite !decide_True by (rewrite ?length_app; lia). by rewrite take_app_le by lia.
Qed.

Lemma checkpoint_chunks_exact_witness :
  ∃ chunks, prepare_checkpoint (toy_corpus 5) 5 = Some (Ok chunks) ∧ length chunks = 3%nat ∧
    concat ((λ c, ea_events (pr_artifact c)) <$> chunks) = take (Z.to_nat 5) (vc_events (toy_corpus 5)).
Proof.
  assert (corpus_ok (toy_corpus 5)) as Hok.
  { split; [|vm_compute; discriminate]. intros i e Hi. do 5 (destruct i as [|i]; [by injection Hi as <-|]). done. }
  set (chunks := match prepare_checkpoint (toy_corpus 5) 5 with Some (Ok c) => c | _ => [] end).
  assert (prepare_checkpoint (toy_corpus 5) 5 = Some (Ok chunks)) as Hc by reflexivity.
  assert (length chunks = 3%nat) as Hlen by reflexivity.
  assert (event_count (toy_corpus 5) + CHECKPOINT_EVENT_SPAN ≤ u64_max) as Hmax by (change (5 + 2 ≤ u64_max); vm_compute; discriminate).
  pose proof (checkpoint_chunks_exact (toy_corpus 5) 5 Hok ltac:(lia) Hmax) as Hthm.
  rewrite decide_True in Hthm by done. destruct Hthm as [_ Hthm]. exists chunks. split_and!; [done|done|].
  exact (proj1 (Hthm chunks Hc)).
Defined.

Lemma sealed_artifacts_stable_witness :
  ∃ c1 c2, replay toy_poi_scope (toy_stored <$> [0; 1; 2]) (Some 4) = Ok c1 ∧
    replay toy_poi_scope ((toy_stored <$> [0; 1; 2]) ++ [toy_stored 3]) (Some 7) = Ok c2 ∧
    ∀ kind, prepare_event_artifact c2 kind 0 2 = prepare_event_artifact c1 kind 0 2.
Proof.
  assert (replay toy_poi_scope (toy_stored <$> [0; 1; 2]) (Some 4) = Ok (toy_corpus 3)) as H1 by reflexivity.
  assert (replay toy_poi_scope ((toy_stored <$> [0; 1; 2]) ++ [toy_stored 3]) (Some 7) = Ok (toy_corpus 4)) as H2 by reflexivity.
  exists (toy_corpus 3), (toy_corpus 4). split_and!; [done|done|]. intros kind.
  refine (proj1 (sealed_artifacts_stable toy_roots_historical toy_poi_scope _ _ _ _ _ _ _ H1 H2) kind 0 2 _ _);
    [change (4 + 2 ≤ u64_max); vm_compute; discriminate|lia|reflexivity].
Defined.

Example toy_replay_gap : replay toy_poi_scope (toy_stored <$> [0; 2]) (Some 3) = Err (NonContiguousEvent 1 2).
Proof. reflexivity. Qed.
Example toy_replay_root : replay toy_poi_scope (toy_stored <$> [0; 1]) (Some 9) = Err (FinalRootMismatch 1 9 2).
Proof. reflexivity. Qed.
