(* ===== verification/PoiGraph.v ===== *)
(** * The POI publication graph ([main.rs], [snapshot/lifecycle.rs])

    One publication cycle of the POI channel: the stored events of every (list,
    chain) pair are replayed, the checkpoint chunks, catalog, tail, bridges and
    blocked shields of every pair are published, and a manifest of all entries
    is pinned and announced if anything changed. Times are nanoseconds since
    the epoch. The tables of the store are fixed during a cycle, apart from the
    publication sequence; the JSON and signature formats are the crates'. *)

From S2P Require Import Prelude Order Wire Ipfs Artifacts PoiStore AuditLog Retention Publication PubLogic PoiCorpus.

(** ** Descriptors and entries of [poi::artifacts::v4] *)
Record BlockedShieldsDescriptor := mkBlockedDescriptor {
  bd_artifact : ArtifactDescriptor;
  bd_format_version : Z;
  bd_scope : PoiScope;
  bd_row_count : Z;
  bd_encoding : ArtifactEncoding;
  bd_compression : Compression;
}.
Record PoiArtifactManifestEntry := mkEntry {
  me_scope : PoiScope;
  me_event_count : Z;
  me_current_tip_index : option Z;
  me_current_root : option Z;
  me_checkpoint_catalog : CheckpointCatalogDescriptor;
  me_current_tail : option EventArtifactDescriptor;
  me_retained_bridges : list EventArtifactDescriptor;
  me_blocked_shields : BlockedShieldsDescriptor;
}.

Class PoiGraphCrate `{PoiArtifactCrate} `{PoiV4Crate} := {
  POI_ARTIFACT_FORMAT_VERSION : Z;
  MAX_RETAINED_BRIDGES : nat;
  (** the fields of an entry, and the entry of some fields *)
  entry_fields : ManifestEntry → PoiArtifactManifestEntry;
  make_entry : PoiArtifactManifestEntry → ManifestEntry;
  entry_fields_make p : entry_fields (make_entry p) = p;
  entry_scope_make p : entry_scope (make_entry p) = me_scope p;
  (** [BlockedShieldsArtifact::from_signed_records(..).to_bytes()] *)
  blocked_shields_bytes : PoiScope → list SignedBlockedShield → result PoiArtifactError bytes;
  blocked_descriptor_validate : BlockedShieldsDescriptor → result string unit;
  artifact_descriptor_from_bytes : string → bytes → ArtifactDescriptor;
  artifact_descriptor_cid cid bs : ad_cid (artifact_descriptor_from_bytes cid bs) = cid;
  (** [serde_json] *)
  event_descriptor_json : EventArtifactDescriptor → result string string;
  catalog_descriptor_json : CheckpointCatalogDescriptor → result string string;
  blocked_descriptor_json : BlockedShieldsDescriptor → result string string;
  entries_json : list ManifestEntry → result string bytes;
  (** [Scope::cmp], not greater *)
  crate_scope_leb : PoiScope → PoiScope → bool;
  (** a manifest of (issued at, sequence, entries), signed and encoded *)
  signed_manifest_bytes : Z → Z → list ManifestEntry → result string bytes;
}.

(** ** The configuration *)
Record PoiPublisherConfig := mkPoiConfig {
  pc_list_keys : list Z;
  pc_chain_ids : list Z;
  pc_txid_version : string;
  pc_upstream_url : string;
  pc_base_rebuild_interval : Z;
  pc_ipns_republish_interval : Z;
}.
Definition EVM_CHAIN_TYPE : Z := 0.
(** 168 hours *)
Definition V4_BRIDGE_RETENTION_TARGET : Z := 168 * 3600 * 10 ^ 9.

(** [now.duration_since(t)] of a time in seconds. *)
Definition duration_since (now seconds : Z) : option Z := checked_sub now (seconds * 10 ^ 9).
Definition unix_millis (now : Z) : result string Z :=
  if decide (now < 0) then Err "system clock is before unix epoch"%string
  else ok_or (try_from u64_max (now / 10 ^ 6)) "unix millisecond timestamp overflow"%string.

Definition poi_artifact_rotation_required (has_active_tail : bool) (checkpoint_age : option Z) (rotation_interval : Z)
    (current_tail_fits : bool) : bool :=
  (has_active_tail && match checkpoint_age with Some age => bool_decide (rotation_interval ≤ age) | None => false end) ||
  negb current_tail_fits.

Section graph.
Context `{CidCrate} `{ManifestCrate} `{PoiGraphCrate}.
Context (text_leb : string → string → bool).
Context (pin_cid : bytes → Cid) (audit_error : AuditError → string) (service_name : string).
Context (store_error : StoreError → string) (publication_error : PublicationError → string) (artifact_error : PoiArtifactError → string).
(** [validate_poi_merkleroots] of the upstream node *)
Context (validate_poi_merkleroots : PoiScope → list bytes → Pub bool).
Context (config : PoiPublisherConfig).

Definition store_read {A} (query : result StoreError A) : Pub A := guarded "database operation failed" (lift (map_err store_error query)).

(** ** Publishing one artifact *)
Definition publish_poi_event_artifact (kind : PoiArtifactPublicationKind) (prepared : PreparedEventArtifact) : Pub (EventArtifactDescriptor * bool) :=
  publish_poi_artifact pin_cid audit_error service_name kind
    (mkPrepared _ (ea_scope (pr_artifact prepared)) (Some (ea_range (pr_artifact prepared))) (pr_bytes prepared) (pr_sha256 prepared)
       (Some (ea_end_root (pr_artifact prepared))) (λ cid, map_err publication_error (prepared_descriptor prepared cid)) event_descriptor_json).

Definition publish_poi_checkpoint_catalog (catalog : CheckpointCatalog) (bs : bytes) : Pub (CheckpointCatalogDescriptor * bool) :=
  publish_poi_artifact pin_cid audit_error service_name AuditLog.CheckpointCatalog
    (mkPrepared _ (cc_scope catalog) (cc_range catalog) bs (content_hash bs) (cc_checkpoint_root catalog)
       (λ cid, map_err artifact_error (catalog_descriptor catalog cid)) catalog_descriptor_json).

(** [Lifecycle::build_poi_blocked_shields_artifact] *)
Definition signed_blocked_shield (record : StoredBlockedShield) : SignedBlockedShield :=
  mkSignedBlocked (encode_prefixed (st_commitment_hash record)) (encode_prefixed (st_blinded_commitment record)) (st_block_reason record)
    (encode_prefixed (st_signature record)).
Definition encode_poi_blocked_shields_artifact (scope : PoiScope) (records : list StoredBlockedShield) : result PoiArtifactError (bytes * nat) :=
  let blocked_shields := signed_blocked_shield <$> records in
  bs ← blocked_shields_bytes scope blocked_shields;
  Ok (bs, length blocked_shields).
Definition build_poi_blocked_shields_artifact (store : PoiDb) (scope : PoiScope) : Pub (bytes * nat) :=
  records ← store_read (all_blocked_shields store (ps_list_key scope) (ps_chain_id scope));
  lift (map_err artifact_error (encode_poi_blocked_shields_artifact scope records)).

Definition publish_poi_blocked_shields (store : PoiDb) (scope : PoiScope) : Pub (BlockedShieldsDescriptor * bool) :=
  _ ← ensure_publication_running;
  '(bs, rows) ← build_poi_blocked_shields_artifact store scope;
  row_count ← lift (ok_or (try_from_len u64_max rows) "POI blocked-shields artifact row count overflow"%string);
  publish_prepared pin_cid audit_error service_name BlockedShields
    (mkPrepared _ scope None bs (content_hash bs) None
       (λ cid, let descriptor := mkBlockedDescriptor (artifact_descriptor_from_bytes cid bs) POI_ARTIFACT_FORMAT_VERSION scope row_count
                 CanonicalJson Identity in
               _ ← blocked_descriptor_validate descriptor; Ok descriptor) blocked_descriptor_json).

(** ** Bridges *)
Definition bridge_cids (bridges : list EventArtifactDescriptor) : list string := (ad_cid ∘ ed_artifact) <$> bridges.
(** The bridges young enough; the state is [retained]. *)
Definition retain_bridge (active : ActivePoiGraph) (now : Z) (retained : list EventArtifactDescriptor) (bridge : EventArtifactDescriptor)
    : result string (list EventArtifactDescriptor) :=
  let cid := ad_cid (ed_artifact bridge) in
  age ← match ag_bridge_published_at active !! cid with
        | Some published_at => Ok (duration_since now published_at)
        | None =>
            if decide (cid ∈ bridge_cids (me_retained_bridges (entry_fields (ag_entry active))))
            then Err "active POI artifact bridge is missing durable publication time"%string
            else Ok (Some 0)
        end;
  match age with
  | Some age => if decide (age ≤ V4_BRIDGE_RETENTION_TARGET) then Ok (retained ++ [bridge]) else Ok retained
  | None => Ok retained
  end.
Definition retain_recent_bridges (bridges : list EventArtifactDescriptor) (active : ActivePoiGraph) (now : Z)
    : result string (list EventArtifactDescriptor) :=
  retained ← try_fold (retain_bridge active now) [] bridges;
  Ok (drop (length retained - MAX_RETAINED_BRIDGES) retained).

Definition lift_corpus {A} (r : result PublicationError A) : Pub A := lift (map_err publication_error r).
Definition materialize_bridge (corpus : ValidatedCorpus) (inherited : list EventArtifactDescriptor)
    (st : list EventArtifactDescriptor * nat) (bridge : EventArtifactDescriptor) : Pub (list EventArtifactDescriptor * nat) :=
  let '(materialized, reused_cids) := st in
  if decide (bridge ∉ inherited) then mret (materialized ++ [bridge], reused_cids)
  else
    prepared ← lift_corpus (prepare_event_artifact corpus PoiCorpus.Bridge (start_index (ed_range bridge)) (end_index (ed_range bridge)));
    expected ← lift_corpus (prepared_descriptor prepared (ad_cid (ed_artifact bridge)));
    if decide (expected ≠ bridge) then fail "stored POI retained bridge descriptor does not match rebuilt bytes"
    else
      '(published, reused) ← publish_poi_event_artifact AuditLog.Bridge prepared;
      if decide (published ≠ bridge) then fail "published POI retained bridge descriptor does not match stored descriptor"
      else mret (materialized ++ [published], (reused_cids + if (reused : bool) then 1 else 0)%nat).

(** ** One entry *)
Record PublishedPoiEntry := mkPublishedEntry {
  pe_entry : ManifestEntry;
  pe_checkpoint_chunk_cids : list string;
  pe_graph_cids : list string;
  pe_checkpoint_bytes : Z;
  pe_tail_bytes : Z;
  pe_reused_cids : nat;
}.

(** The active entry must be one of a prefix of the corpus. *)
Definition check_active (corpus : ValidatedCorpus) (active : ActivePoiGraph) : Pub unit :=
  let entry := entry_fields (ag_entry active) in
  _ ← lift (entry_validate (ag_entry active));
  if decide (event_count corpus < me_event_count entry) then fail "stored POI event count regresses active POI artifact count"
  else if decide (0 < me_event_count entry) then
    replayed ← lift_corpus (root_at corpus (me_event_count entry - 1));
    if decide (me_current_root entry ≠ Some replayed) then fail "stored POI prefix conflicts with active POI artifact root" else mret tt
  else mret tt.

(** Whether the events from the checkpoint on fit into one tail. *)
Definition tail_fits (corpus : ValidatedCorpus) (checkpoint_event_count : Z) : Pub bool :=
  if decide (checkpoint_event_count < event_count corpus) then
    match prepare_event_artifact corpus PoiCorpus.CurrentTail checkpoint_event_count (event_count corpus - 1) with
    | Ok _ => mret true
    | Err (Contract EventArtifactByteLimitExceeded) => mret false
    | Err error => fail (publication_error error)
    end
  else mret true.

(** The rotation of a checkpoint: the published tail becomes a bridge, and the
    checkpoint advances to what was published. The state is
    ([checkpoint_event_count], [retained_bridges], [reused_cids]). *)
Definition rotate_checkpoint (now : Z) (corpus : ValidatedCorpus) (graph : ActivePoiGraph) : Pub (Z * list EventArtifactDescriptor * nat) :=
  let entry := entry_fields (ag_entry graph) in
  let prior_checkpoint_count := cd_row_count (me_checkpoint_catalog entry) in
  let prior_event_count := me_event_count entry in
  '(retained_bridges, reused_cids) ←
    (if decide (prior_checkpoint_count < prior_event_count) then
       bridge ← lift_corpus (prepare_event_artifact corpus PoiCorpus.Bridge prior_checkpoint_count (prior_event_count - 1));
       '(bridge, reused) ← publish_poi_event_artifact AuditLog.Bridge bridge;
       mret (me_retained_bridges entry ++ [bridge], (if (reused : bool) then 1 else 0)%nat)
     else mret (me_retained_bridges entry, 0%nat));
  retained_bridges ← lift (retain_recent_bridges retained_bridges graph now);
  mret (prior_event_count, retained_bridges, reused_cids).

(** One chunk of the checkpoint; the state is the descriptors, bytes and reused
    CIDs so far. *)
Definition publish_checkpoint_chunk (st : list EventArtifactDescriptor * Z * nat) (chunk : PreparedEventArtifact)
    : Pub (list EventArtifactDescriptor * Z * nat) :=
  let '(descriptors, checkpoint_bytes, reused_cids) := st in
  '(descriptor, reused) ← publish_poi_event_artifact CheckpointChunk chunk;
  checkpoint_bytes ← lift (ok_or (checked_add u64_max checkpoint_bytes (ad_byte_size (ed_artifact descriptor)))
    "POI checkpoint byte total overflow"%string);
  mret (descriptors ++ [descriptor], checkpoint_bytes, (reused_cids + if (reused : bool) then 1 else 0)%nat).

Definition publish_tail (corpus : ValidatedCorpus) (checkpoint_event_count : Z) : Pub (option EventArtifactDescriptor * nat) :=
  if decide (checkpoint_event_count < event_count corpus) then
    prepared ← lift_corpus (prepare_event_artifact corpus PoiCorpus.CurrentTail checkpoint_event_count (event_count corpus - 1));
    '(descriptor, reused) ← publish_poi_event_artifact AuditLog.CurrentTail prepared;
    mret (Some descriptor, if (reused : bool) then 1%nat else 0%nat)
  else mret (None, 0%nat).

(** [prepare_checkpoint] always ends. *)
Definition run_prepare_checkpoint (corpus : ValidatedCorpus) (checkpoint_event_count : Z) : Pub (list PreparedEventArtifact) :=
  match prepare_checkpoint corpus checkpoint_event_count with
  | Some r => lift_corpus r
  | None => fail "out of fuel"
  end.

(** The part that does not depend on the rotation. *)
Definition finish_entry (store : PoiDb) (corpus : ValidatedCorpus) (inherited : list EventArtifactDescriptor)
    (checkpoint_event_count : Z) (retained_bridges : list EventArtifactDescriptor) (reused_cids : nat) : Pub PublishedPoiEntry :=
  '(retained_bridges, reused_cids) ← pub_loop (materialize_bridge corpus inherited) ([], reused_cids) retained_bridges;
  prepared_chunks ← run_prepare_checkpoint corpus checkpoint_event_count;
  '(descriptors, checkpoint_bytes, reused_cids) ← pub_loop publish_checkpoint_chunk ([], 0, reused_cids) prepared_chunks;
  '(catalog, catalog_bytes) ← lift_corpus (checkpoint_catalog (vc_scope corpus) descriptors);
  let scope := cc_scope catalog in
  '(catalog, catalog_reused) ← publish_poi_checkpoint_catalog catalog catalog_bytes;
  '(current_tail, tail_reused) ← publish_tail corpus checkpoint_event_count;
  let tail_bytes := match current_tail with Some tail => ad_byte_size (ed_artifact tail) | None => 0 end in
  '(blocked_shields, blocked_reused) ← publish_poi_blocked_shields store scope;
  let current_tip_index := checked_sub (event_count corpus) 1 in
  current_root ← (match current_tip_index with
                  | Some index => root ← lift_corpus (root_at corpus index); mret (Some root)
                  | None => mret None
                  end);
  let fields := mkEntry scope (event_count corpus) current_tip_index current_root catalog current_tail retained_bridges blocked_shields in
  _ ← lift (entry_validate (make_entry fields));
  let graph_cids := [ad_cid (cd_artifact catalog); ad_cid (bd_artifact blocked_shields)] ++ bridge_cids retained_bridges ++
    match current_tail with Some tail => [ad_cid (ed_artifact tail)] | None => [] end in
  mret (mkPublishedEntry (make_entry fields) (bridge_cids descriptors) graph_cids checkpoint_bytes tail_bytes
    (reused_cids + (if (catalog_reused : bool) then 1 else 0) + tail_reused + (if (blocked_reused : bool) then 1 else 0))%nat).

Definition publish_poi_artifact_entry (now : Z) (store : PoiDb) (corpus : ValidatedCorpus) (active : option ActivePoiGraph)
    : Pub PublishedPoiEntry :=
  _ ← (match active with Some graph => check_active corpus graph | None => mret tt end);
  let checkpoint_event_count :=
    match active with Some graph => cd_row_count (me_checkpoint_catalog (entry_fields (ag_entry graph))) | None => event_count corpus end in
  let inherited := match active with Some graph => me_retained_bridges (entry_fields (ag_entry graph)) | None => [] end in
  current_tail_fits ← tail_fits corpus checkpoint_event_count;
  let rotate := match active with
                | Some graph => poi_artifact_rotation_required
                    (match me_current_tail (entry_fields (ag_entry graph)) with Some _ => true | None => false end)
                    (duration_since now (ag_checkpoint_published_at graph)) (pc_base_rebuild_interval config) current_tail_fits
                | None => false
                end in
  '(checkpoint_event_count, retained_bridges, reused_cids) ←
    (match active with
     | Some graph => if rotate then rotate_checkpoint now corpus graph else mret (checkpoint_event_count, inherited, 0%nat)
     | None => mret (checkpoint_event_count, inherited, 0%nat)
     end);
  finish_entry store corpus inherited checkpoint_event_count retained_bridges reused_cids.

(** ** The graph of all pairs *)

(** The stored events of a pair with the root the upstream node reported. *)
Definition stored_corpus (store : PoiDb) (scope : PoiScope) : Pub (list StoredEvent * option Z) :=
  tip ← store_read (chain_tip store (ps_list_key scope) (ps_chain_id scope) (pc_upstream_url config));
  match tip with
  | Some tip =>
      root ← lift (ok_or (ct_last_tip_merkleroot tip) "nonempty POI tip is missing upstream root"%string);
      events ← store_read (page_event_range store (ps_list_key scope) (ps_chain_id scope) 0 (ct_last_event_index tip));
      mret (events, Some (be_value root))
  | None => mret ([], None)
  end.
Definition scopes : list PoiScope :=
  list_key ← pc_list_keys config;
  chain_id ← pc_chain_ids config;
  [mkPoiScope list_key EVM_CHAIN_TYPE chain_id (pc_txid_version config)].
Definition replay_corpus (store : PoiDb) (corpora : list ValidatedCorpus) (scope : PoiScope) : Pub (list ValidatedCorpus) :=
  '(events, expected_root) ← stored_corpus store scope;
  corpus ← lift_corpus (replay scope events expected_root);
  mret (corpora ++ [corpus]).

(** The upstream node confirms the current roots of a corpus, in tree order. *)
Definition current_root_hexes (corpus : ValidatedCorpus) : list bytes :=
  (hex_encode ∘ snd) <$> sort_by_key fst (map_to_list (ScrapeWorker.current_roots (vc_cache corpus))).
Definition revalidate_corpus (_ : unit) (corpus : ValidatedCorpus) : Pub unit :=
  if decide (event_count corpus = 0) then mret tt
  else
    accepted ← validate_poi_merkleroots (vc_scope corpus) (current_root_hexes corpus);
    if (accepted : bool) then mret tt else fail "upstream rejected replayed POI roots".

Record PublishedPoiGraph := mkPublishedGraph {
  pg_entries : list ManifestEntry;
  pg_artifact_cids : gset string;
  pg_checkpoint_chunks : nat;
  pg_checkpoint_bytes : Z;
  pg_tail_bytes : Z;
  pg_bridge_count : nat;
  pg_reused_cids : nat;
}.
Definition publish_corpus (now : Z) (store : PoiDb) (graph : PublishedPoiGraph) (corpus : ValidatedCorpus) : Pub PublishedPoiGraph :=
  _ ← ensure_publication_running;
  active ← db_read audit_error (λ db, active_poi_graph db (vc_scope corpus));
  published ← publish_poi_artifact_entry now store corpus active;
  checkpoint_bytes ← lift (ok_or (checked_add u64_max (pg_checkpoint_bytes graph) (pe_checkpoint_bytes published))
    "POI checkpoint byte total overflow"%string);
  tail_bytes ← lift (ok_or (checked_add u64_max (pg_tail_bytes graph) (pe_tail_bytes published)) "POI tail byte total overflow"%string);
  mret (mkPublishedGraph (pg_entries graph ++ [pe_entry published])
    (pg_artifact_cids graph ∪ list_to_set (pe_checkpoint_chunk_cids published) ∪ list_to_set (pe_graph_cids published))
    (pg_checkpoint_chunks graph + length (pe_checkpoint_chunk_cids published)) checkpoint_bytes tail_bytes
    (pg_bridge_count graph + length (me_retained_bridges (entry_fields (pe_entry published))))
    (pg_reused_cids graph + pe_reused_cids published)).

(** The graph with its entries sorted, and its hash. *)
Definition publish_poi_artifact_graph (now : Z) (store : PoiDb) : Pub (PublishedPoiGraph * bytes) :=
  corpora ← pub_loop (replay_corpus store) [] scopes;
  _ ← pub_loop revalidate_corpus tt corpora;
  graph ← pub_loop (publish_corpus now store) (mkPublishedGraph [] ∅ 0 0 0 0 0) corpora;
  let entries := sort_by (λ a b, crate_scope_leb (entry_scope a) (entry_scope b)) (pg_entries graph) in
  graph_bytes ← lift (entries_json entries);
  mret (mkPublishedGraph entries (pg_artifact_cids graph) (pg_checkpoint_chunks graph) (pg_checkpoint_bytes graph) (pg_tail_bytes graph)
          (pg_bridge_count graph) (pg_reused_cids graph), content_hash graph_bytes).

(** The [BTreeSet] as a vector. *)
Definition artifact_cid_list (graph : PublishedPoiGraph) : list string := sort_by String.leb (elements (pg_artifact_cids graph)).

Definition publish_poi_manifests (now sequence : Z) (graph : PublishedPoiGraph) : Pub string :=
  _ ← ensure_publication_running;
  issued_at_ms ← lift (unix_millis now);
  manifest_bytes ← lift (signed_manifest_bytes issued_at_ms sequence (pg_entries graph));
  cid ← pin_poi_manifest pin_cid audit_error service_name manifest_bytes (pg_entries graph) (artifact_cid_list graph) sequence;
  mret (cid_to_string cid).

(** ** The scheduler *)
Record Scheduler := mkScheduler {
  sd_store : PoiDb;
  last_poi_artifact_manifest_cid : option string;
  last_poi_artifact_graph_hash : option bytes;
  manifest_needs_publish : bool;
  last_ipns_publish_at : option Z;
  publication_state_loaded : bool;
}.
Definition with_manifest_cid (cid : option string) (s : Scheduler) : Scheduler :=
  mkScheduler (sd_store s) cid (last_poi_artifact_graph_hash s) (manifest_needs_publish s) (last_ipns_publish_at s) (publication_state_loaded s).
Definition with_published (hash : option bytes) (needs_publish : bool) (published_at : option Z) (s : Scheduler) : Scheduler :=
  mkScheduler (sd_store s) (last_poi_artifact_manifest_cid s) hash needs_publish published_at (publication_state_loaded s).
Definition with_needs_publish (s : Scheduler) : Scheduler :=
  mkScheduler (sd_store s) (last_poi_artifact_manifest_cid s) (last_poi_artifact_graph_hash s) true (last_ipns_publish_at s)
    (publication_state_loaded s).
Definition with_loaded (s : Scheduler) : Scheduler :=
  mkScheduler (sd_store s) (last_poi_artifact_manifest_cid s) (last_poi_artifact_graph_hash s) (manifest_needs_publish s)
    (last_ipns_publish_at s) true.
Definition with_store (store : PoiDb) (s : Scheduler) : Scheduler :=
  mkScheduler store (last_poi_artifact_manifest_cid s) (last_poi_artifact_graph_hash s) (manifest_needs_publish s)
    (last_ipns_publish_at s) (publication_state_loaded s).

Definition load_durable_publication_state : Cycle Scheduler unit :=
  v4 ← pub (db_read audit_error (active_poi_artifact_manifest_publication text_leb));
  _ ← modify (with_manifest_cid (ap_cid <$> v4));
  hash ← pub (match v4 with Some manifest => bs ← lift (entries_json (ap_entries manifest)); mret (Some (content_hash bs)) | None => mret None end);
  modify (with_published hash (match v4 with Some _ => false | None => true end) ((λ m, ap_ipns_published_at m * 10 ^ 9) <$> v4)).

Definition should_republish_ipns (s : Scheduler) (now : Z) : bool :=
  match last_poi_artifact_manifest_cid s, last_ipns_publish_at s with
  | None, _ => false
  | Some _, None => true
  | Some _, Some last_published_at => bool_decide (last_published_at ≤ now ∧ pc_ipns_republish_interval config ≤ now - last_published_at)
  end.

(** [PoiPublicationSequenceAllocator::reserve_cycle] *)
Definition reserve_cycle (minimum_sequence : Z) : Cycle Scheduler Z :=
  s ← get_scheduler;
  '(sequence, store) ← pub (store_read (reserve_poi_publication_sequence (sd_store s) minimum_sequence));
  _ ← modify (with_store store);
  mret sequence.

(** Whether the cycle has something to announce. *)
Definition needs_publication (now : Z) (graph_hash : bytes) : Cycle Scheduler bool :=
  s ← get_scheduler;
  match last_poi_artifact_manifest_cid s with
  | None => mret true
  | Some current_manifest =>
      if manifest_needs_publish s || bool_decide (last_poi_artifact_graph_hash s ≠ Some graph_hash) || should_republish_ipns s now then mret true
      else available ← pub (cid_is_available current_manifest); mret (negb available)
  end.

Definition publish_cycle (now : Z) : Cycle Scheduler unit :=
  _ ← pub ensure_publication_running;
  reconciliation ← pub (reconcile_pending_poi_publications text_leb audit_error);
  s ← get_scheduler;
  _ ← (match publication_state_loaded s, reconciliation with
       | true, NothingPending => mret tt
       | _, _ => _ ← load_durable_publication_state; modify with_loaded
       end);
  match reconciliation with
  | Activated => mret tt
  | _ =>
      _ ← (match reconciliation with Abandoned => modify with_needs_publish | _ => mret tt end);
      _ ← pub ensure_publication_running;
      s ← get_scheduler;
      '(graph, graph_hash) ← pub (publish_poi_artifact_graph now (sd_store s));
      _ ← pub ensure_publication_running;
      needed ← needs_publication now graph_hash;
      if negb needed then mret tt
      else
        minimum_sequence ← pub (lift (unix_millis now));
        sequence ← reserve_cycle minimum_sequence;
        cid ← pub (publish_poi_manifests now sequence graph);
        _ ← pub ensure_publication_running;
        _ ← pub (publish_poi_ipns audit_error (artifact_cid_list graph) cid sequence);
        _ ← modify (with_manifest_cid (Some cid));
        modify (with_published (Some graph_hash) false (Some now))
  end.
End graph.
