(* ===== verification/PoiGraphCorrect.v ===== *)
(** * What a POI publication entry holds

    Whatever calls fail on the way, an entry that is published covers the whole
    corpus: the published chunks, in catalog order, and the tail hold every event
    once, every CID the entry lists is the CID of content with the hash of the
    artifact it stands for, roots and counts are those of the corpus, and the
    retained bridges lead from an older checkpoint to the current one. *)

From S2P Require Import Prelude Order Wire Ipfs Artifacts PoiStore AuditLog Retention Publication PublicationSafety PubLogic PoiCorpus PoiGraph.

(** ** Descriptors *)
Section graph.
Context `{CidCrate} `{ManifestCrate} `{PoiGraphCrate}.
Context (pin_cid : bytes → Cid) (audit_error : AuditError → string) (service_name : string).
Context (store_error : StoreError → string) (publication_error : PublicationError → string) (artifact_error : PoiArtifactError → string).
Context (config : PoiPublisherConfig).
Abbreviation publish_event := (publish_poi_event_artifact pin_cid audit_error service_name publication_error).
Implicit Types corpus : ValidatedCorpus.

(** [cid] is the CID of content with hash [hash]. *)
Definition names (cid : string) (hash : bytes) : Prop := ∃ bs, cid = cid_to_string (pin_cid bs) ∧ content_hash bs = hash.
(** The recorded hash of a pinned artifact is the hash of what its CID names. *)
Definition honest_row (a : ArtifactRow PoiKey) : Prop := names (ar_cid a) (ct_content_hash (ar_content a)).
Definition honest (db : AuditDb) : Prop := Forall honest_row (ch_artifacts (au_poi db)).
Abbreviation keeps := (hoare (λ w, honest (w_db w))).

Lemma live_artifact_named db kind scope range size hash root cid :
  honest db → live_poi_artifact_cid db kind scope range size hash root = Ok (Some cid) → names (cid_to_string cid) hash.
Proof.
  intros Hdb Hl. unfold live_poi_artifact_cid in Hl. apply bind_Ok in Hl as (sc & _ & Hl). apply bind_Ok in Hl as (sz & _ & Hl).
  apply bind_Ok in Hl as ([rs re] & _ & Hl). destruct (head _) as [a|] eqn:Hh; [|done].
  apply bind_Ok in Hl as (c & Hc%ok_or_Ok & [= ->]). apply head_Some_elem_of in Hh.
  rewrite sort_by_perm, list_elem_of_filter in Hh. destruct Hh as [(_ & _ & <- & _) Ha].
  unfold honest in Hdb. rewrite Forall_forall in Hdb. destruct (Hdb a Ha) as (bs & Hcid & Hhash). exists bs. split; [|done].
  rewrite Hcid, cid_roundtrip in Hc. congruence.
Qed.
Lemma record_pin_honest db now kind scope range cid size hash root json db' :
  names (cid_to_string cid) hash → honest db →
  record_poi_artifact_pin db now kind scope range cid size hash root json = Ok db' → honest db'.
Proof.
  intros Hcid Hdb Hr. unfold record_poi_artifact_pin in Hr. apply bind_Ok in Hr as (sc & _ & Hr). apply bind_Ok in Hr as (sz & _ & Hr).
  apply bind_Ok in Hr as ([rs re] & _ & Hr). unfold honest in *.
  repeat case_decide; simplify_eq; cbn [au_poi with_poi with_artifacts ch_artifacts].
  - apply Forall_fmap, (Forall_impl _ _ _ Hdb). intros a Ha. cbn. by case_decide.
  - apply Forall_app_2; [done|]. by apply Forall_singleton.
Qed.

Lemma keeps_named {D} kind (prepared : PreparedPoiArtifact D) :
  pa_sha256 prepared = content_hash (pa_bytes prepared) →
  keeps (publish_prepared pin_cid audit_error service_name kind prepared)
    (λ r, ∃ cid, names cid (content_hash (pa_bytes prepared)) ∧ pa_descriptor prepared cid = Ok r.1).
Proof.
  intros Hhash. eapply hoare_mono.
  - apply (keeps_prepared _ _ _ honest) with (R := λ cid, names (cid_to_string cid) (pa_sha256 prepared)); [done| | |].
    + intros db cid size root. apply live_artifact_named.
    + exists (pa_bytes prepared). by rewrite Hhash.
    + intros cid db now size root json db'. apply record_pin_honest.
  - intros r (cid & Hn & Hd). rewrite <- Hhash. eauto.
Qed.
Lemma keeps_readonly {A} (m : Pub A) : readonly m → keeps m (λ _, True).
Proof. intros Hm. by apply (keeps_preserved honest), readonly_preserves, Hm; apply _. Qed.
Lemma keeps_event kind prepared :
  pr_sha256 prepared = content_hash (pr_bytes prepared) →
  keeps (publish_event kind prepared) (λ r, ∃ cid, names cid (content_hash (pr_bytes prepared)) ∧ prepared_descriptor prepared cid = Ok r.1).
Proof.
  intros Hhash. apply hoare_seq; [apply keeps_readonly, readonly_running|]. intros _. eapply hoare_mono; [by apply keeps_named|].
  intros r (cid & Hn & Hd%map_err_Ok). eauto.
Qed.
Lemma prepared_hash corpus kind s e p : prepare_event_artifact corpus kind s e = Ok p → pr_sha256 p = content_hash (pr_bytes p).
Proof.
  unfold prepare_event_artifact. case_decide; [done|]. intros Hp. do 6 apply bind_Ok in Hp as (? & _ & Hp). by injection Hp as <-.
Qed.

(** [d] describes the artifact of the events from [s] to [e], under a CID of
    its bytes. *)
Definition describes corpus (kind : EventArtifactKind) (s e : Z) (d : EventArtifactDescriptor) : Prop :=
  ∃ p cid, prepare_event_artifact corpus kind s e = Ok p ∧ prepared_descriptor p cid = Ok d ∧ names cid (content_hash (pr_bytes p)).
Definition describes_bridge corpus (d : EventArtifactDescriptor) : Prop :=
  describes corpus PoiCorpus.Bridge (start_index (ed_range d)) (end_index (ed_range d)) d.

(** What a descriptor says of the corpus. *)
Lemma describes_fields corpus kind s e d :
  corpus_ok corpus → 0 ≤ s → describes corpus kind s e d →
  s ≤ e < event_count corpus ∧ ed_scope d = vc_scope corpus ∧ ed_kind d = kind ∧ ed_range d = mkEventRange s e ∧
  ed_row_count d = e - s + 1 ∧ ed_start_root d = root_before corpus s ∧
  root_at_global_index (vc_cache corpus) e = Some (ed_end_root d).
Proof.
  intros Hok Hs (p & cid & Hp & Hd & _). pose proof (prepared_is_artifact _ _ _ _ _ Hok Hs Hp) as (Hse & (Hsc & Hk & Hr & Hev & _ & Hsr & Her) & _).
  apply map_err_Ok, event_artifact_descriptor_fields in Hd as (_ & -> & -> & -> & -> & -> & ->). rewrite corpus_ok_count in Hse by done.
  rewrite Hev, length_event_slice by lia. rewrite corpus_ok_count by done. done.
Qed.

(** ** Bridges *)
Definition bridge_young (active : ActivePoiGraph) (now : Z) (d : EventArtifactDescriptor) : Prop :=
  match ag_bridge_published_at active !! ad_cid (ed_artifact d) with
  | Some t => match duration_since now t with Some age => age ≤ V4_BRIDGE_RETENTION_TARGET | None => False end
  | None => True
  end.
#[export] Instance bridge_young_dec active now d : Decision (bridge_young active now d).
Proof. unfold bridge_young. repeat case_match; apply _. Defined.

Lemma retain_bridges_filter active now bridges acc retained :
  try_fold (retain_bridge active now) acc bridges = Ok retained → retained = acc ++ filter (bridge_young active now) bridges.
Proof.
  revert acc. induction bridges as [|d bridges IH]; intros acc; cbn [try_fold]; [intros [= <-]; by rewrite app_nil_r|].
  intros (acc' & Hd & Hrest%IH)%bind_Ok. rewrite filter_cons. subst retained.
  assert (acc' = if decide (bridge_young active now d) then acc ++ [d] else acc) as ->; [|case_decide; by rewrite <- ?app_assoc].
  unfold retain_bridge in Hd. apply bind_Ok in Hd as (age & Ha & Hd).
  destruct (decide (bridge_young active now d)) as [Hy|Hy]; unfold bridge_young in Hy; destruct (ag_bridge_published_at active !! _) as [t|].
  - injection Ha as <-. destruct (duration_since now t) as [age|]; [|done]. rewrite decide_True in Hd by done. by injection Hd.
  - case_decide; [done|]. injection Ha as <-. rewrite decide_True in Hd by (by vm_compute). by injection Hd.
  - injection Ha as <-. destruct (duration_since now t) as [age|]; [rewrite decide_False in Hd by done|]; by injection Hd.
  - done.
Qed.

(** Publication times, in nanoseconds. *)
Definition bridge_time (active : ActivePoiGraph) (now : Z) (d : EventArtifactDescriptor) : Z :=
  match ag_bridge_published_at active !! ad_cid (ed_artifact d) with Some t => t * 10 ^ 9 | None => now end.

Lemma filter_suffix {A} (R : A → A → Prop) (P : A → Prop) `{∀ x, Decision (P x)} l :
  StronglySorted R l → (∀ x y, R x y → P x → P y) → ∃ k, filter P l = drop k l.
Proof.
  intros Hs HP. induction Hs as [|x l Hs [k IH] Hx]; [by exists 0%nat|]. rewrite filter_cons. case_decide as Hpx.
  - exists 0%nat. cbn. f_equal. apply filter_all. eapply Forall_impl; [exact Hx|]; eauto.
  - by exists (S k).
Qed.

Lemma retain_recent_bridges_spec bridges active now l :
  retain_recent_bridges bridges active now = Ok l →
  l `sublist_of` bridges ∧ (length l ≤ MAX_RETAINED_BRIDGES)%nat ∧
  (StronglySorted Z.le (bridge_time active now <$> bridges) → Forall (λ d, bridge_time active now d ≤ now) bridges →
   ∃ k, l = drop k bridges).
Proof.
  intros (retained & Hr%retain_bridges_filter & [= <-])%bind_Ok. cbn in Hr. split_and!.
  - subst retained. etrans; [apply sublist_drop|apply sublist_filter].
  - rewrite length_drop. lia.
  - intros Hs Hle. destruct (filter_suffix (λ a b, a ∈ bridges ∧ b ∈ bridges ∧ bridge_time active now a ≤ bridge_time active now b)
      (bridge_young active now) bridges) as [k Hk].
    + apply StronglySorted_fmap_inv in Hs. assert (∀ l, l ⊆ bridges → StronglySorted (λ a b, bridge_time active now a ≤ bridge_time active now b) l →
        StronglySorted (λ a b, a ∈ bridges ∧ b ∈ bridges ∧ bridge_time active now a ≤ bridge_time active now b) l) as Hgen.
      { intros l Hl. induction 1 as [|x l Hs' IH Hx]; constructor; [apply IH; set_solver|].
        rewrite Forall_forall in Hx |- *. intros y Hy. split_and!; [set_solver|set_solver|by apply Hx]. }
      by apply Hgen.
    + intros x y (_ & Hy & Hxy). rewrite Forall_forall in Hle. specialize (Hle y Hy). unfold bridge_young, bridge_time, duration_since in *.
      destruct (ag_bridge_published_at active !! ad_cid (ed_artifact y)) as [ty|]; [|done].
      unfold checked_sub. rewrite (decide_True (P := ty * 10 ^ 9 ≤ now)) by done.
      destruct (ag_bridge_published_at active !! ad_cid (ed_artifact x)) as [tx|].
      * case_decide; [lia|done].
      * intros _. assert (0 ≤ V4_BRIDGE_RETENTION_TARGET) by (by vm_compute). lia.
    + exists (k + (length retained - MAX_RETAINED_BRIDGES))%nat. by rewrite <- drop_drop, <- Hk, <- Hr.
Qed.

(** The bridges [l] lead from index [from] to index [to]. *)
Fixpoint bridge_path (from : Z) (l : list EventArtifactDescriptor) (to : Z) : Prop :=
  match l with
  | [] => from = to
  | d :: l => start_index (ed_range d) = from ∧ from ≤ end_index (ed_range d) ∧ bridge_path (end_index (ed_range d) + 1) l to
  end.
Definition bridges_lead_to (l : list EventArtifactDescriptor) (to : Z) : Prop := ∃ from, bridge_path from l to.
Lemma bridge_path_snoc l from mid d :
  bridge_path from l mid → start_index (ed_range d) = mid → mid ≤ end_index (ed_range d) → bridge_path from (l ++ [d]) (end_index (ed_range d) + 1).
Proof. revert from. induction l as [|x l IH]; intros from; cbn; [by intros -> <- ?|]. intros (? & ? & ?) ? ?. eauto. Qed.
Lemma bridges_drop l to k : bridges_lead_to l to → bridges_lead_to (drop k l) to.
Proof.
  revert k. induction l as [|d l IH]; intros k [from Hp]; [by rewrite drop_nil; exists from|].
  destruct k as [|k]; [by exists from|]. destruct Hp as (_ & _ & Hp). cbn. apply IH. by eexists.
Qed.

(** ** The parts of an entry *)
Lemma hoare_lift_corpus {I : World → Prop} {A} (r : result PublicationError A) : hoare I (lift_corpus publication_error r) (λ a, r = Ok a).
Proof. eapply hoare_mono; [apply hoare_lift|]. by intros a Ha%map_err_Ok. Qed.

Lemma keeps_materialize corpus inherited bridges n :
  keeps (pub_loop (materialize_bridge pin_cid audit_error service_name publication_error corpus inherited) ([], n) bridges)
    (λ st, st.1 = bridges ∧ Forall (λ b, b ∈ inherited → describes_bridge corpus b) bridges).
Proof.
  apply (hoare_loop _ (λ done st, st.1 = done ∧ Forall (λ b, b ∈ inherited → describes_bridge corpus b) done)); [done|].
  intros done b [materialized m] _ [<- Hd]. cbn. case_decide as Hb; [apply hoare_ret; split; [done|]; by apply Forall_app_2, Forall_singleton|].
  eapply hoare_bind; [apply hoare_lift_corpus|]. intros p Hp. eapply hoare_bind; [apply hoare_lift_corpus|]. intros expected He.
  case_decide as Heq; [apply hoare_fail|]. eapply hoare_bind; [eapply keeps_event, prepared_hash, Hp|]. intros [published reused] (cid & Hn & Hc).
  case_decide as Hpub; [apply hoare_fail|]. apply hoare_ret. cbn in Hc |- *. split; [congruence|]. apply Forall_app_2, Forall_singleton; [done|].
  intros _. exists p, cid. split_and!; [done|congruence|done].
Qed.

(** [d] describes the chunk [c], under a CID of its bytes. *)
Definition describes_chunk (c : PreparedEventArtifact) (d : EventArtifactDescriptor) : Prop :=
  prepared_descriptor c (ad_cid (ed_artifact d)) = Ok d ∧ names (ad_cid (ed_artifact d)) (content_hash (pr_bytes c)).
Lemma keeps_chunks chunks n :
  Forall (λ c, pr_sha256 c = content_hash (pr_bytes c)) chunks →
  keeps (pub_loop (publish_checkpoint_chunk pin_cid audit_error service_name publication_error) ([], 0, n) chunks)
    (λ st, Forall2 describes_chunk chunks st.1.1).
Proof.
  intros Hhash. apply (hoare_loop _ (λ done st, Forall2 describes_chunk done st.1.1)); [constructor|].
  intros done c [[descriptors total] m] Hin Hd. cbn. rewrite Forall_forall in Hhash. eapply hoare_bind; [by apply keeps_event, Hhash|].
  intros [d reused] (cid & Hn & Hc). eapply hoare_bind; [apply hoare_lift|]. intros total' _. apply hoare_ret. cbn in Hc |- *.
  assert (ad_cid (ed_artifact d) = cid) as <- by (by apply map_err_Ok, event_artifact_descriptor_fields in Hc as (? & _)).
  apply Forall2_app; [done|]. constructor; [by split|constructor].
Qed.

Definition tail_ok corpus (n : Z) (tail : option EventArtifactDescriptor) : Prop :=
  match tail with
  | Some d => n < event_count corpus ∧ describes corpus PoiCorpus.CurrentTail n (event_count corpus - 1) d
  | None => event_count corpus ≤ n
  end.
Lemma keeps_tail corpus n :
  keeps (publish_tail pin_cid audit_error service_name publication_error corpus n) (λ r, tail_ok corpus n r.1).
Proof.
  unfold publish_tail. case_decide as Hn; [|apply hoare_ret; cbn; lia]. eapply hoare_bind; [apply hoare_lift_corpus|]. intros p Hp.
  eapply hoare_bind; [eapply keeps_event, prepared_hash, Hp|]. intros [d reused] (cid & Hname & Hd). apply hoare_ret. split; [done|]. by exists p, cid.
Qed.

(** The entry lists [chunks], in order: their CIDs are recorded with it, and its
    catalog, published under a CID of its bytes, holds their descriptors. *)
Definition lists_chunks (scope : PoiScope) (chunks : list PreparedEventArtifact) (e : PublishedPoiEntry) : Prop :=
  let cd := me_checkpoint_catalog (entry_fields (pe_entry e)) in
  ∃ descriptors catalog bs, Forall2 describes_chunk chunks descriptors ∧ pe_checkpoint_chunk_cids e = (ad_cid ∘ ed_artifact) <$> descriptors ∧
    checkpoint_catalog scope descriptors = Ok (catalog, bs) ∧ catalog_descriptor catalog (ad_cid (cd_artifact cd)) = Ok cd ∧
    names (ad_cid (cd_artifact cd)) (content_hash bs).
(** What the last part of the publication puts into the entry. *)
Record entry_holds corpus (n : Z) (bridges : list EventArtifactDescriptor) (e : PublishedPoiEntry) : Prop := {
  eh_scope : me_scope (entry_fields (pe_entry e)) = vc_scope corpus;
  eh_count : me_event_count (entry_fields (pe_entry e)) = event_count corpus;
  eh_root : me_current_root (entry_fields (pe_entry e)) = root_before corpus (event_count corpus);
  eh_chunks : ∃ chunks, prepare_checkpoint corpus n = Some (Ok chunks) ∧ lists_chunks (vc_scope corpus) chunks e;
  eh_tail : tail_ok corpus n (me_current_tail (entry_fields (pe_entry e)));
  eh_bridges : me_retained_bridges (entry_fields (pe_entry e)) = bridges;
}.

Lemma keeps_catalog catalog bs :
  keeps (publish_poi_checkpoint_catalog pin_cid audit_error service_name artifact_error catalog bs)
    (λ r, catalog_descriptor catalog (ad_cid (cd_artifact r.1)) = Ok r.1 ∧ names (ad_cid (cd_artifact r.1)) (content_hash bs)).
Proof.
  apply hoare_seq; [apply keeps_readonly, readonly_running|]. intros _. eapply hoare_mono; [by apply keeps_named|].
  intros [cd reused] (cid & Hn & Hr%map_err_Ok). cbn in Hr |- *. pose proof (catalog_descriptor_fields _ _ _ Hr) as (-> & _). done.
Qed.
Lemma keeps_blocked store scope :
  keeps (publish_poi_blocked_shields pin_cid audit_error service_name store_error artifact_error store scope) (λ _, True).
Proof.
  apply hoare_seq; [apply keeps_readonly, readonly_running|]. intros _. apply hoare_seq.
  { apply keeps_readonly, readonly_bind; [apply readonly_guarded, readonly_lift|]. intros records. apply readonly_lift. }
  intros [bs rows]. apply hoare_seq; [apply keeps_readonly, readonly_lift|]. intros count. by eapply hoare_true, keeps_named.
Qed.

Lemma checkpoint_bytes corpus n chunks :
  corpus_ok corpus → 0 ≤ n → event_count corpus + CHECKPOINT_EVENT_SPAN ≤ u64_max → prepare_checkpoint corpus n = Some (Ok chunks) →
  Forall (λ c, event_artifact_to_bytes (pr_artifact c) = Ok (pr_bytes c) ∧ pr_sha256 c = content_hash (pr_bytes c)) chunks.
Proof.
  intros Hok Hn Hmax Hp. pose proof (checkpoint_events corpus n chunks Hok Hn Hmax Hp) as [Hle _]. pose proof span_bounds.
  rewrite prepare_checkpoint_ranges in Hp by lia. apply (inj Some) in Hp. apply Forall_lookup. intros k c Hk.
  pose proof (prepared_chunks corpus n chunks Hok Hp k) as Hc. rewrite Hk in Hc. destruct Hc as [_ Hc].
  by apply prepared_is_artifact in Hc as (_ & _ & ? & ?); [|done|nia].
Qed.
Lemma keeps_finish store corpus inherited n bridges m :
  corpus_ok corpus → event_count corpus + CHECKPOINT_EVENT_SPAN ≤ u64_max → 0 ≤ n →
  keeps (finish_entry pin_cid audit_error service_name store_error publication_error artifact_error store corpus inherited n bridges m)
    (λ e, entry_holds corpus n bridges e ∧ Forall (λ b, b ∈ inherited → describes_bridge corpus b) bridges).
Proof.
  intros Hok Hmax Hn. eapply hoare_bind; [apply keeps_materialize|]. intros [bridges' m1] [Heq Hb]. cbn in Heq. subst bridges'.
  apply hoare_bind with (P := λ chunks, prepare_checkpoint corpus n = Some (Ok chunks)).
  { unfold run_prepare_checkpoint. destruct (prepare_checkpoint corpus n) as [r|]; [|apply hoare_fail].
    eapply hoare_mono; [apply hoare_lift_corpus|]. by intros chunks ->. }
  intros chunks Hchunks. pose proof (checkpoint_bytes _ _ _ Hok Hn Hmax Hchunks) as Hhash.
  eapply hoare_bind; [apply keeps_chunks, (Forall_impl _ _ _ Hhash); by intros c [_ ?]|]. intros [[descriptors total] m2] Hd. cbn in Hd.
  eapply hoare_bind; [apply hoare_lift_corpus|]. intros [catalog bs] Hcat.
  assert (cc_scope catalog = vc_scope corpus) as Hsc.
  { apply bind_Ok in Hcat as (c & Hnew%map_err_Ok & Hcat). apply bind_Ok in Hcat as (cbs & _ & [= -> _]). by apply catalog_new_fields in Hnew as [? _]. }
  eapply hoare_bind; [apply keeps_catalog|]. intros [cd catalog_reused] [Hcd Hcn]. cbn in Hcd, Hcn.
  eapply hoare_bind; [apply keeps_tail|]. intros [tail tail_reused] Ht. cbn in Ht.
  eapply hoare_bind; [apply keeps_blocked|]. intros [blocked blocked_reused] _.
  apply hoare_bind with (P := λ root, root = root_before corpus (event_count corpus)).
  { unfold root_before, checked_sub. destruct (decide (1 ≤ event_count corpus)) as [Hc|Hc].
    - rewrite decide_False by lia. eapply hoare_bind; [apply hoare_lift_corpus|]. intros root Hroot%ok_or_Ok. by apply hoare_ret.
    - apply hoare_ret. rewrite corpus_ok_count in Hc |- * by done. by rewrite decide_True by lia. }
  intros root Hroot. eapply hoare_bind; [apply hoare_lift|]. intros _ _. apply hoare_ret. split; [|done].
  split; unfold lists_chunks; cbn; rewrite ?entry_fields_make; cbn; [done|done|done| |done|done].
  exists chunks. split; [done|]. by exists descriptors, catalog, bs.
Qed.

(** ** The entry of a pair *)

(** The rows of the checkpoint descriptors. *)
Lemma descriptor_rows corpus n chunks descriptors :
  corpus_ok corpus → 0 ≤ n → event_count corpus + CHECKPOINT_EVENT_SPAN ≤ u64_max → prepare_checkpoint corpus n = Some (Ok chunks) →
  Forall2 describes_chunk chunks descriptors →
  foldr Z.add 0 (ed_row_count <$> descriptors) = n.
Proof.
  intros Hok Hn Hmax Hp Hd. destruct (checkpoint_events corpus n chunks Hok Hn Hmax Hp) as [Hle Hc].
  assert (foldr Z.add 0 (ed_row_count <$> descriptors) = Z.of_nat (length (concat ((λ c, ea_events (pr_artifact c)) <$> chunks)))) as ->.
  { clear Hp Hc. induction Hd as [|c d chunks descriptors [Hcd _] _ IH]; [done|]. cbn. rewrite length_app, IH.
    apply map_err_Ok, event_artifact_descriptor_fields in Hcd as (_ & _ & _ & _ & -> & _). lia. }
  rewrite Hc, length_take. rewrite corpus_ok_count in Hle by done. lia.
Qed.

Definition active_checkpoint (graph : ActivePoiGraph) : Z := cd_row_count (me_checkpoint_catalog (entry_fields (ag_entry graph))).
Definition active_count (graph : ActivePoiGraph) : Z := me_event_count (entry_fields (ag_entry graph)).
Definition active_bridges (active : option ActivePoiGraph) : list EventArtifactDescriptor :=
  match active with Some graph => me_retained_bridges (entry_fields (ag_entry graph)) | None => [] end.
(** A published entry: its checkpoint is within its events, its bridges lead to
    the checkpoint. *)
Definition active_ok (graph : ActivePoiGraph) : Prop :=
  0 ≤ active_checkpoint graph ≤ active_count graph ∧ bridges_lead_to (active_bridges (Some graph)) (active_checkpoint graph).

(** The events an entry offers: those of its chunks and of its tail. *)
Definition tail_events corpus (tail : option EventArtifactDescriptor) : list ScrapeWorker.SnapshotEvent :=
  match tail with Some d => event_slice corpus (start_index (ed_range d)) (end_index (ed_range d)) | None => [] end.

Record entry_correct (now : Z) corpus (active : option ActivePoiGraph) (e : PublishedPoiEntry) : Prop := {
  ec_count : me_event_count (entry_fields (pe_entry e)) = event_count corpus;
  ec_root : me_current_root (entry_fields (pe_entry e)) = root_before corpus (event_count corpus);
  (** the checkpoint is everything, the active one, or what was published *)
  ec_checkpoint : cd_row_count (me_checkpoint_catalog (entry_fields (pe_entry e))) ∈
    match active with Some graph => [active_checkpoint graph; active_count graph] | None => [event_count corpus] end;
  (** the catalog lists the checkpoint's chunks in order; the events of chunks
      and tail *)
  ec_events : ∃ chunks, prepare_checkpoint corpus (cd_row_count (me_checkpoint_catalog (entry_fields (pe_entry e)))) = Some (Ok chunks) ∧
    lists_chunks (vc_scope corpus) chunks e ∧ Forall (λ c, event_artifact_to_bytes (pr_artifact c) = Ok (pr_bytes c)) chunks ∧
    concat ((λ c, ea_events (pr_artifact c)) <$> chunks) ++ tail_events corpus (me_current_tail (entry_fields (pe_entry e))) = vc_events corpus;
  ec_tail : tail_ok corpus (cd_row_count (me_checkpoint_catalog (entry_fields (pe_entry e)))) (me_current_tail (entry_fields (pe_entry e)));
  (** every bridge is rebuilt from the corpus, and they lead to the checkpoint
      if the publication times are in order *)
  ec_bridges : Forall (describes_bridge corpus) (me_retained_bridges (entry_fields (pe_entry e)));
  ec_path : ∃ new, me_retained_bridges (entry_fields (pe_entry e)) `sublist_of` active_bridges active ++ new ∧
    (match active with
     | Some graph => StronglySorted Z.le (bridge_time graph now <$> active_bridges active ++ new) ∧
         Forall (λ d, bridge_time graph now d ≤ now) (active_bridges active ++ new)
     | None => True
     end → bridges_lead_to (me_retained_bridges (entry_fields (pe_entry e)))
             (cd_row_count (me_checkpoint_catalog (entry_fields (pe_entry e)))));
}.

Lemma lists_chunks_rows corpus n chunks e :
  corpus_ok corpus → event_count corpus + CHECKPOINT_EVENT_SPAN ≤ u64_max → 0 ≤ n → prepare_checkpoint corpus n = Some (Ok chunks) →
  lists_chunks (vc_scope corpus) chunks e → cd_row_count (me_checkpoint_catalog (entry_fields (pe_entry e))) = n.
Proof.
  intros Hok Hmax Hn Hp (descriptors & catalog & bs & Hd & _ & Hcat & Hcd & _). apply catalog_descriptor_fields in Hcd as (_ & -> & _).
  apply bind_Ok in Hcat as (c & Hnew%map_err_Ok & Hcat). apply bind_Ok in Hcat as (cbs & _ & [= -> _]).
  apply catalog_new_fields in Hnew as [_ ->]. by eapply descriptor_rows.
Qed.
Lemma entry_holds_events corpus n bridges e :
  corpus_ok corpus → event_count corpus + CHECKPOINT_EVENT_SPAN ≤ u64_max → 0 ≤ n → entry_holds corpus n bridges e →
  cd_row_count (me_checkpoint_catalog (entry_fields (pe_entry e))) = n ∧
  ∃ chunks, prepare_checkpoint corpus n = Some (Ok chunks) ∧ lists_chunks (vc_scope corpus) chunks e ∧
    Forall (λ c, event_artifact_to_bytes (pr_artifact c) = Ok (pr_bytes c)) chunks ∧
    concat ((λ c, ea_events (pr_artifact c)) <$> chunks) ++ tail_events corpus (me_current_tail (entry_fields (pe_entry e))) = vc_events corpus.
Proof.
  intros Hok Hmax Hn He. destruct (eh_chunks _ _ _ _ He) as (chunks & Hp & Hl). split; [by eapply lists_chunks_rows|].
  exists chunks. split_and!; [done|done|eapply Forall_impl; [by eapply checkpoint_bytes|by intros c [? _]]|].
  destruct (checkpoint_events corpus n chunks Hok Hn Hmax Hp) as [Hle ->]. pose proof (eh_tail _ _ _ _ He) as Ht. unfold tail_ok, tail_events in *.
  destruct (me_current_tail _) as [d|].
  - destruct Ht as [Hlt Ht]. apply describes_fields in Ht as (_ & _ & _ & -> & _); [|done|done]. cbn. unfold event_slice.
    rewrite corpus_ok_count by done. rewrite (take_ge (drop _ _)) by (rewrite length_drop; lia). by rewrite take_drop.
  - rewrite app_nil_r. apply take_ge. rewrite corpus_ok_count in Ht by done. lia.
Qed.

Definition in_order (graph : ActivePoiGraph) (now : Z) (bridges : list EventArtifactDescriptor) : Prop :=
  StronglySorted Z.le (bridge_time graph now <$> bridges) ∧ Forall (λ d, bridge_time graph now d ≤ now) bridges.

Lemma readonly_check_active corpus graph : readonly (check_active publication_error corpus graph).
Proof.
  unfold check_active. apply readonly_bind; [apply readonly_lift|]. intros _. repeat case_decide; auto with readonly.
  apply readonly_bind; [apply readonly_lift|]. intros root. case_decide; auto with readonly.
Qed.
Lemma readonly_tail_fits corpus n : readonly (tail_fits publication_error corpus n).
Proof. unfold tail_fits. repeat case_match; auto with readonly. Qed.
Lemma keeps_rotate now corpus graph :
  corpus_ok corpus → active_ok graph →
  keeps (rotate_checkpoint pin_cid audit_error service_name publication_error now corpus graph)
    (λ r, r.1.1 = active_count graph ∧ ∃ new, r.1.2 `sublist_of` active_bridges (Some graph) ++ new ∧ Forall (describes_bridge corpus) new ∧
       (in_order graph now (active_bridges (Some graph) ++ new) → bridges_lead_to r.1.2 (active_count graph))).
Proof.
  intros Hok [Hcp [from Hpath]]. apply hoare_bind with (P := λ st : list EventArtifactDescriptor * nat, ∃ new,
    st.1 = active_bridges (Some graph) ++ new ∧ Forall (describes_bridge corpus) new ∧ bridges_lead_to st.1 (active_count graph)).
  - unfold active_checkpoint, active_count in *. case_decide as Hlt.
    + eapply hoare_bind; [apply hoare_lift_corpus|]. intros p Hp. eapply hoare_bind; [eapply keeps_event, prepared_hash, Hp|].
      intros [d reused] (cid & Hn & Hd).
      apply hoare_ret. cbn in Hd |- *. exists [d].
      assert (describes corpus PoiCorpus.Bridge (cd_row_count (me_checkpoint_catalog (entry_fields (ag_entry graph))))
        (me_event_count (entry_fields (ag_entry graph)) - 1) d) as Hdesc by (by exists p, cid).
      pose proof (describes_fields _ _ _ _ _ Hok (proj1 Hcp) Hdesc) as (_ & _ & _ & Hr & _).
      split_and!; [done|apply Forall_singleton; unfold describes_bridge; by rewrite Hr|]. exists from.
      replace (me_event_count _) with (end_index (ed_range d) + 1) by (rewrite Hr; cbn; lia).
      eapply bridge_path_snoc; [exact Hpath|by rewrite Hr|rewrite Hr; cbn; lia].
    + apply hoare_ret. exists []. rewrite app_nil_r. split_and!; [done|constructor|]. exists from. cbn.
      replace (me_event_count _) with (cd_row_count (me_checkpoint_catalog (entry_fields (ag_entry graph)))) by lia. exact Hpath.
  - intros [bridges m] (new & Hbs & Hnew & Hlead). cbn in Hbs, Hlead. subst bridges. eapply hoare_bind; [apply hoare_lift|].
    intros l (Hsub & _ & Hsuffix)%retain_recent_bridges_spec. apply hoare_ret. split; [done|]. exists new. split_and!; [done|done|].
    intros [Hs Hle]. destruct (Hsuffix Hs Hle) as [k ->]. cbn. by apply bridges_drop.
Qed.

End graph.

(** ** Two publications of a list *)
#[local] Existing Instance toy_cids.
#[local] Existing Instance toy_manifest_crate.
#[local] Existing Instance ScrapeWorker.toy_crate.
#[local] Instance toy_poi_entries : PoiV4Crate := {|
  ManifestEntry := PoiArtifactManifestEntry;
  entry_scope := me_scope;
  entry_validate _ := Ok tt;
  entry_to_json _ := Ok "entry"%string;
  entry_from_json _ := Err "entry"%string;
  json_checkpoint_cid _ := None;
  retained_bridge_cids e := bridge_cids (me_retained_bridges e);
|}.
#[local] Instance toy_graph_crate : PoiGraphCrate := {|
  POI_ARTIFACT_FORMAT_VERSION := 4;
  MAX_RETAINED_BRIDGES := 8%nat;
  entry_fields := id;
  make_entry := id;
  entry_fields_make _ := eq_refl;
  entry_scope_make _ := eq_refl;
  blocked_shields_bytes _ records := Ok [Byte.x62; byte_of_Z (Z.of_nat (length records))];
  blocked_descriptor_validate _ := Ok tt;
  artifact_descriptor_from_bytes cid bs := mkArtifactDescriptor cid [] (Z.of_nat (length bs));
  artifact_descriptor_cid _ _ := eq_refl;
  event_descriptor_json _ := Ok "event"%string;
  catalog_descriptor_json _ := Ok "catalog"%string;
  blocked_descriptor_json _ := Ok "blocked"%string;
  entries_json entries := Ok [byte_of_Z (Z.of_nat (length entries))];
  crate_scope_leb _ _ := true;
  signed_manifest_bytes issued sequence entries := Ok (json_bytes "manifest" ++ le_bytes 8 sequence);
|}.
Definition toy_spell (bs : bytes) : string := String.string_of_list_byte ((λ b, byte_of_Z (65 + Z_of_byte b mod 64)) <$> bs).
Definition toy_poi_config : PoiPublisherConfig := mkPoiConfig [7] [1] "V2" "https://poi" (3600 * 10 ^ 9) (3600 * 10 ^ 9).
Abbreviation toy_entry now n active :=
  (publish_poi_artifact_entry (toy_spell : bytes → Cid (CidCrate := toy_cids)) (λ _, "audit"%string) "toy" (λ _, "store"%string) (λ _, "publication"%string) (λ _, "artifact"%string)
    toy_poi_config now empty_db (toy_corpus n) active).
(** Three events, then five, then six when the checkpoint is two hours old. *)
Definition toy_first : result string PublishedPoiEntry * World := toy_entry 0 3 None (initial_world ∅ [] 10).
Definition published_graph (r : result string PublishedPoiEntry) : option ActivePoiGraph :=
  match r with Ok e => Some (mkGraph (pe_entry e) 0 ∅) | Err _ => None end.
Definition toy_second : result string PublishedPoiEntry * World := toy_entry 0 5 (published_graph toy_first.1) toy_first.2.
Abbreviation toy_third := (toy_entry (7200 * 10 ^ 9) 6 (published_graph toy_second.1) toy_second.2).

Lemma honest_toy db :
  forallb (λ a, bool_decide (ar_cid a = toy_spell (ct_content_hash (ar_content a)))) (ch_artifacts (au_poi db)) = true →
  honest (toy_spell : bytes → Cid (CidCrate := toy_cids)) db.
Proof.
  intros Hdb. apply Forall_forall. intros a Ha. rewrite forallb_forall in Hdb. specialize (Hdb a). rewrite list_elem_of_In in Ha.
  exists (ct_content_hash (ar_content a)). split; [|done]. by apply (bool_decide_unpack _), Is_true_true_2, Hdb.
Qed.
