(* ===== verification/StatusSummary.v ===== *)
(** * Publication and retention in the status ([status.rs])

    The other fields of the status document: what the last POI publication
    consists of, taken from the publisher's counters when it publishes and from
    the stored manifest after a restart, and the last retention sweep. *)

From S2P Require Import Prelude Order Wire Ipfs Artifacts PoiStore Status ScrapeWorker AuditLog Retention Publication PublicationSafety PubLogic PoiCorpus PoiGraph PoiGraphCorrect.

Record PoiArtifactScopePublicationStatus := mkScopeStatus {
  ss_list_key : bytes;
  ss_chain_type : Z;
  ss_chain_id : Z;
  ss_txid_version : string;
  ss_event_count : Z;
  ss_checkpoint_tip_index : option Z;
  ss_checkpoint_chunk_count : Z;
  ss_checkpoint_catalog_bytes : Z;
  ss_tail_start_index : option Z;
  ss_tail_end_index : option Z;
  ss_tail_bytes : Z;
  ss_bridge_count : nat;
  ss_bridge_start_index : option Z;
  ss_bridge_end_index : option Z;
}.
Record PoiArtifactPublicationStatus := mkPublicationStatus {
  pb_manifest_cid : string;
  pb_sequence : Z;
  pb_checkpoint_chunks : Z;
  pb_checkpoint_bytes : option Z;
  pb_tail_bytes : Z;
  pb_bridge_count : Z;
  pb_reused_cids : option nat;
  pb_elapsed_ms : option Z;
  pb_scopes : list PoiArtifactScopePublicationStatus;
}.
Record RetentionSweepStatus := mkSweepStatus { completed_unix_seconds : Z; unpinned_count : nat; failed_count : nat }.
Record StatusDocument := mkStatus {
  st_pairs : list PairSyncStatus;
  ipfs_reachable : bool;
  (** names and peers of the POI and the chain-indexed channel *)
  ipns_identities : option (string * string * string * string);
  poi_artifact_publication : option PoiArtifactPublicationStatus;
  last_retention_sweep : option RetentionSweepStatus;
}.

Definition set_ipfs_reachable (reachable : bool) (s : StatusDocument) : StatusDocument :=
  mkStatus (st_pairs s) reachable (ipns_identities s) (poi_artifact_publication s) (last_retention_sweep s).
Definition set_ipns_identities (poi_name chain_name poi_peer chain_peer : string) (s : StatusDocument) : StatusDocument :=
  mkStatus (st_pairs s) (ipfs_reachable s) (Some (poi_name, chain_name, poi_peer, chain_peer)) (poi_artifact_publication s) (last_retention_sweep s).
Definition set_publication (reachable : bool) (p : option PoiArtifactPublicationStatus) (s : StatusDocument) : StatusDocument :=
  mkStatus (st_pairs s) reachable (ipns_identities s) p (last_retention_sweep s).
Definition clear_poi_artifact_publication (s : StatusDocument) : StatusDocument := set_publication (ipfs_reachable s) None s.
(** [unix_seconds] of a time in nanoseconds. *)
Definition unix_seconds (now : Z) : Z := if decide (0 ≤ now) then default 0 (try_from i64_max (as_secs now)) else 0.
Definition record_retention_sweep (now : Z) (unpinned failed : nat) (s : StatusDocument) : StatusDocument :=
  mkStatus (st_pairs s) (ipfs_reachable s) (ipns_identities s) (poi_artifact_publication s) (Some (mkSweepStatus (unix_seconds now) unpinned failed)).

Section summary.
Context `{CidCrate} `{ManifestCrate} `{PoiGraphCrate}.

Definition tail_size (entry : ManifestEntry) : Z :=
  match me_current_tail (entry_fields entry) with Some tail => ad_byte_size (ed_artifact tail) | None => 0 end.
Definition scope_status (entry : ManifestEntry) : PoiArtifactScopePublicationStatus :=
  let e := entry_fields entry in
  mkScopeStatus (encode_prefixed (be_bytes 32 (ps_list_key (me_scope e)))) (ps_chain_type (me_scope e)) (ps_chain_id (me_scope e))
    (ps_txid_version (me_scope e)) (me_event_count e) (end_index <$> cd_range (me_checkpoint_catalog e)) (cd_chunk_count (me_checkpoint_catalog e))
    (ad_byte_size (cd_artifact (me_checkpoint_catalog e)))
    (start_index ∘ ed_range <$> me_current_tail e) (end_index ∘ ed_range <$> me_current_tail e) (tail_size entry)
    (length (me_retained_bridges e)) (start_index ∘ ed_range <$> head (me_retained_bridges e)) (end_index ∘ ed_range <$> last (me_retained_bridges e)).

Definition record_poi_artifact_publication (manifest_cid : string) (sequence : Z) (entries : list ManifestEntry) (checkpoint_chunks : nat)
    (checkpoint_bytes tail_bytes : Z) (bridge_count reused_cids : nat) (elapsed_ms : Z) (s : StatusDocument) : StatusDocument :=
  set_publication true (Some (mkPublicationStatus manifest_cid sequence (Z.of_nat checkpoint_chunks) (Some checkpoint_bytes) tail_bytes
    (Z.of_nat bridge_count) (Some reused_cids) (Some elapsed_ms) (scope_status <$> entries))) s.
(** A fold with [saturating_add]; [usize] has 64 bits. *)
Definition saturating_sum (f : ManifestEntry → Z) (entries : list ManifestEntry) : Z :=
  foldl (λ total entry, saturating_add u64_max total (f entry)) 0 entries.
Definition restore_poi_artifact_publication (manifest_cid : string) (sequence : Z) (entries : list ManifestEntry) (s : StatusDocument) : StatusDocument :=
  set_publication (ipfs_reachable s) (Some (mkPublicationStatus manifest_cid sequence
    (saturating_sum (λ entry, default u64_max (try_from u64_max (cd_chunk_count (me_checkpoint_catalog (entry_fields entry))))) entries)
    None (saturating_sum tail_size entries) (saturating_sum (λ entry, Z.of_nat (length (me_retained_bridges (entry_fields entry)))) entries)
    None None (scope_status <$> entries))) s.

(** ** Sums *)
Definition total (f : ManifestEntry → Z) (entries : list ManifestEntry) : Z := foldr Z.add 0 (f <$> entries).
Lemma total_snoc f entries e : total f (entries ++ [e]) = total f entries + f e.
Proof. unfold total. rewrite fmap_app, foldr_app. cbn. induction (f <$> entries) as [|x l IH]; cbn; lia. Qed.
Lemma total_perm f l k : l ≡ₚ k → total f l = total f k.
Proof. unfold total. induction 1; cbn; lia. Qed.
Lemma saturating_exact f entries : (∀ e, e ∈ entries → 0 ≤ f e) → total f entries ≤ u64_max → saturating_sum f entries = total f entries.
Proof.
  intros Hpos. assert (∀ a, 0 ≤ a → a + total f entries ≤ u64_max →
    foldl (λ total entry, saturating_add u64_max total (f entry)) a entries = a + total f entries) as Hgen; [|intros Hmax; unfold saturating_sum; rewrite Hgen; lia].
  unfold total. induction entries as [|e l IH]; intros a Ha Hmax; cbn in *; [lia|].
  assert (0 ≤ foldr Z.add 0 (f <$> l)) as Hl.
  { clear -Hpos. assert (∀ e, e ∈ l → 0 ≤ f e) as Hp by (intros x Hx; apply Hpos; by right). clear Hpos. induction l as [|y l IH]; cbn; [lia|].
    assert (0 ≤ f y) by (apply Hp; by left). assert (0 ≤ foldr Z.add 0 (f <$> l)) by (apply IH; intros x Hx; apply Hp; by right). lia. }
  assert (0 ≤ f e) by (apply Hpos; by left). unfold saturating_add at 2. rewrite Z.min_r by lia.
  rewrite IH; [lia|intros x Hx; apply Hpos; by right|lia|lia].
Qed.

(** ** The counters of a publication *)
Context (pin_cid : bytes → Cid) (audit_error : AuditError → string) (service_name : string).
Context (store_error : StoreError → string) (publication_error : PublicationError → string) (artifact_error : PoiArtifactError → string).
Context (validate_poi_merkleroots : PoiScope → list bytes → Pub bool) (config : PoiPublisherConfig).
Abbreviation chunk_count entry := (cd_chunk_count (me_checkpoint_catalog (entry_fields entry))).
Abbreviation bridges entry := (Z.of_nat (length (me_retained_bridges (entry_fields entry)))).
Definition counts_entry (e : PublishedPoiEntry) : Prop :=
  pe_tail_bytes e = tail_size (pe_entry e) ∧ Z.of_nat (length (pe_checkpoint_chunk_cids e)) = chunk_count (pe_entry e).
Lemma yields_counts store corpus inherited n bs m :
  yields (finish_entry pin_cid audit_error service_name store_error publication_error artifact_error store corpus inherited n bs m) counts_entry.
Proof.
  eapply hoare_bind; [apply yields_true|]. intros [bridges' m1] _. eapply hoare_bind; [apply yields_true|]. intros chunks _.
  eapply hoare_bind; [apply yields_true|]. intros [[descriptors total] m2] _.
  eapply hoare_bind; [apply hoare_lift_corpus|]. intros [catalog cbs] Hcat.
  apply bind_Ok in Hcat as (c & Hnew%map_err_Ok & Hcat). apply bind_Ok in Hcat as (? & _ & [= -> _]). apply catalog_new_fields in Hnew as [_ Hch].
  apply hoare_bind with (P := λ r : CheckpointCatalogDescriptor * bool, ∃ cid, catalog_descriptor catalog cid = Ok r.1).
  { apply hoare_seq; [apply yields_true|]. intros _. eapply hoare_mono; [apply yields_prepared|]. intros r [cid Hr%map_err_Ok]. eauto. }
  intros [cd catalog_reused] [cid Hcd]. apply catalog_descriptor_fields in Hcd as (_ & _ & Hcount). cbn in Hcount.
  eapply hoare_bind; [apply yields_true|]. intros [tail tail_reused] _. eapply hoare_bind; [apply yields_true|]. intros [blocked blocked_reused] _.
  eapply hoare_bind; [apply yields_true|]. intros root _. eapply hoare_bind; [apply yields_true|]. intros _ _. apply hoare_ret.
  split; cbn; rewrite ?entry_fields_make; cbn; [unfold tail_size; by rewrite entry_fields_make|].
  unfold bridge_cids. rewrite length_fmap, Hcount, Hch. done.
Qed.
Definition counts_graph (graph : PublishedPoiGraph) : Prop :=
  Z.of_nat (pg_checkpoint_chunks graph) = total (λ e, chunk_count e) (pg_entries graph) ∧
  pg_tail_bytes graph = total tail_size (pg_entries graph) ∧ pg_tail_bytes graph ≤ u64_max ∧
  Z.of_nat (pg_bridge_count graph) = total (λ e, bridges e) (pg_entries graph) ∧
  (∀ e, e ∈ pg_entries graph → 0 ≤ chunk_count e).
Lemma yields_corpus now store graph corpus : counts_graph graph →
  yields (publish_corpus pin_cid audit_error service_name store_error publication_error artifact_error config now store graph corpus) counts_graph.
Proof.
  intros (Hc & Ht & Hm & Hb & Hp). apply hoare_seq; [apply yields_true|]. intros _. apply hoare_seq; [apply yields_true|]. intros active.
  apply hoare_bind with (P := counts_entry).
  { apply hoare_seq; [apply yields_true|]. intros _. apply hoare_seq; [apply yields_true|]. intros fits.
    apply hoare_seq; [apply yields_true|]. intros [[n retained] m]. apply yields_counts. }
  intros e [Het Hec]. apply hoare_seq; [apply yields_true|]. intros cb. eapply hoare_bind; [apply hoare_lift|]. intros tb Htb%ok_or_Ok.
  unfold checked_add in Htb. case_decide as Hmax; [|done]. injection Htb as <-. apply hoare_ret. unfold counts_graph.
  cbn [pg_checkpoint_chunks pg_tail_bytes pg_bridge_count pg_entries]. rewrite !total_snoc. split_and!; [lia|lia|lia|lia|].
  intros x [Hx| ->%list_elem_of_singleton]%elem_of_app; [auto|lia].
Qed.
Lemma yields_graph now store :
  yields (publish_poi_artifact_graph pin_cid audit_error service_name store_error publication_error artifact_error validate_poi_merkleroots config now store)
    (λ r, counts_graph r.1).
Proof.
  apply hoare_seq; [apply yields_true|]. intros corpora. apply hoare_seq; [apply yields_true|]. intros _.
  apply hoare_bind with (P := counts_graph).
  { apply (hoare_loop _ (λ _, counts_graph)); [|intros done corpus graph _; apply yields_corpus]. split_and!; try done.
    intros e He. by apply not_elem_of_nil in He. }
  intros graph (Hc & Ht & Hm & Hb & Hp). apply hoare_seq; [apply yields_true|]. intros bs. apply hoare_ret. unfold counts_graph.
  cbn [fst pg_checkpoint_chunks pg_tail_bytes pg_bridge_count pg_entries].
  rewrite !(total_perm _ _ _ (sort_by_perm (λ a b, crate_scope_leb (entry_scope a) (entry_scope b)) (pg_entries graph))).
  split_and!; [done..|]. intros e He. apply Hp. by rewrite sort_by_perm in He.
Qed.

(** What only the publisher knows is left open after a restart. *)
Definition forget (p : PoiArtifactPublicationStatus) : PoiArtifactPublicationStatus :=
  mkPublicationStatus (pb_manifest_cid p) (pb_sequence p) (pb_checkpoint_chunks p) None (pb_tail_bytes p) (pb_bridge_count p) None None (pb_scopes p).

(** The status of a publication survives a restart. For the graph that a
    publication returns, whatever was reused or pinned on the way, the summary
    that is restored from the stored entries is the one that was reported when it
    was published: the same chunks, tail bytes, bridges and scopes, only without
    the checkpoint bytes, the reused CIDs and the time. *)
Theorem restored_status_agrees now store w graph hash w' cid sequence elapsed st st' :
  publish_poi_artifact_graph pin_cid audit_error service_name store_error publication_error artifact_error validate_poi_merkleroots config now store w
    = (Ok (graph, hash), w') →
  Z.of_nat (pg_checkpoint_chunks graph) ≤ u64_max → Z.of_nat (pg_bridge_count graph) ≤ u64_max →
  (∀ entry, entry ∈ pg_entries graph → 0 ≤ tail_size entry ∧ chunk_count entry ≤ u64_max) →
  poi_artifact_publication (restore_poi_artifact_publication cid sequence (pg_entries graph) st) =
  forget <$> poi_artifact_publication (record_poi_artifact_publication cid sequence (pg_entries graph) (pg_checkpoint_chunks graph)
    (pg_checkpoint_bytes graph) (pg_tail_bytes graph) (pg_bridge_count graph) (pg_reused_cids graph) elapsed st').
Proof.
  intros Hrun Hchunks Hbridges Htypes. destruct (yields_graph now store w I) as [_ Hg]. rewrite Hrun in Hg. cbn [fst] in Hg.
  destruct (Hg _ eq_refl) as (Hc & Ht & Hm & Hb & Hp). cbn [fst] in *. cbn [poi_artifact_publication restore_poi_artifact_publication record_poi_artifact_publication set_publication fmap option_fmap option_map forget].
  assert (∀ e, e ∈ pg_entries graph → default u64_max (try_from u64_max (chunk_count e)) = chunk_count e) as Htry.
  { intros e He. unfold try_from. pose proof (Hp e He). pose proof (Htypes e He). by rewrite decide_True by lia. }
  assert (saturating_sum (λ e, default u64_max (try_from u64_max (chunk_count e))) (pg_entries graph) = Z.of_nat (pg_checkpoint_chunks graph)) as ->.
  { rewrite Hc. assert (total (λ e, default u64_max (try_from u64_max (chunk_count e))) (pg_entries graph) = total (λ e, chunk_count e) (pg_entries graph)) as Heq.
    { unfold total. f_equal. apply map_ext_in. intros e He. apply Htry. by apply list_elem_of_In. }
    rewrite <- Heq. apply saturating_exact; [intros e He; rewrite Htry by done; by apply Hp|lia]. }
  rewrite (saturating_exact tail_size) by (try lia; intros e He; by apply Htypes). rewrite saturating_exact by (try lia; intros e _; lia).
  rewrite <- Ht, <- Hb. done.
Qed.
End summary.

(** ** A list with three events *)
#[local] Existing Instance toy_cids.
#[local] Existing Instance toy_manifest_crate.
#[local] Existing Instance ScrapeWorker.toy_crate.
#[local] Existing Instance PoiGraphCorrect.toy_poi_entries.
#[local] Existing Instance PoiGraphCorrect.toy_graph_crate.
Definition listed_db : PoiDb :=
  match (db ← insert_events empty_db 7 1 (toy_event <$> [0; 1; 2]); advance_chain_tip db 7 1 "https://poi" 2 (Some (be_bytes 32 4))) with
  | Ok db => db
  | Err _ => empty_db
  end.
Definition toy_publication : result string (PublishedPoiGraph * bytes) * World :=
  publish_poi_artifact_graph (toy_spell : bytes → Cid (CidCrate := toy_cids)) (λ _, "audit"%string) "toy" (λ _, "store"%string) (λ _, "publication"%string)
    (λ _, "artifact"%string) (λ _ _, mret true) toy_poi_config 0 listed_db (initial_world ∅ [] 10).
Definition toy_graph : PublishedPoiGraph := match toy_publication.1 with Ok (graph, _) => graph | Err _ => mkPublishedGraph [] ∅ 0 0 0 0 0 end.
Definition empty_status : StatusDocument := mkStatus [] false None None None.

Lemma restored_status_agrees_witness :
  poi_artifact_publication (restore_poi_artifact_publication "cid" 9 (pg_entries toy_graph) empty_status) =
  forget <$> poi_artifact_publication (record_poi_artifact_publication "cid" 9 (pg_entries toy_graph) 2 (pg_checkpoint_bytes toy_graph)
    (pg_tail_bytes toy_graph) (pg_bridge_count toy_graph) (pg_reused_cids toy_graph) 5 empty_status).
Proof.
  assert (∃ hash, toy_publication.1 = Ok (toy_graph, hash)) as [hash Hok] by (eexists; vm_compute; reflexivity).
  assert (pg_checkpoint_chunks toy_graph = 2%nat) as Hc by (vm_compute; reflexivity). replace 2%nat with (pg_checkpoint_chunks toy_graph) by exact Hc.
  apply (restored_status_agrees (toy_spell : bytes → Cid (CidCrate := toy_cids)) (λ _, "audit"%string) "toy" (λ _, "store"%string) (λ _, "publication"%string)
    (λ _, "artifact"%string) (λ _ _, mret true) toy_poi_config 0 listed_db (initial_world ∅ [] 10) toy_graph hash toy_publication.2).
  - rewrite <- Hok. apply surjective_pairing.
  - vm_compute. discriminate.
  - vm_compute. discriminate.
  - assert (∃ e, pg_entries toy_graph = [e] ∧ 0 ≤ tail_size e ∧ cd_chunk_count (me_checkpoint_catalog (entry_fields e)) ≤ u64_max) as (e & -> & Ht & Hm)
      by (eexists; split; [vm_compute; reflexivity|]; split; vm_compute; discriminate).
    intros entry Hin. apply list_elem_of_singleton in Hin as ->. split; assumption.
Defined.
