(* ===== verification/PoiCycle.v ===== *)
(** * Runs of the POI publication scheduler

    Any number of publication cycles, with restarts, retention sweeps, new
    stored events and failing calls in between: the tables keep the invariant
    that makes publishing safe, and the sequences announced on IPNS never go
    back. The CID of a content tells what it is: artifacts are no manifests,
    and a manifest carries its sequence. *)

From stdpp Require Import sorting.
From S2P Require Import Prelude Order Wire Ipfs Artifacts PoiStore AuditLog Retention Publication PublicationSafety PubLogic ManifestLog PoiCorpus PoiGraph.

(** ** The invariant of the POI channel *)
Section cycle.
Context `{CidCrate} `{ManifestCrate} `{PoiGraphCrate}.
Context (text_leb : string → string → bool).
Context (pin_cid : bytes → Cid) (audit_error : AuditError → string) (service_name : string).
Context (content : string → CidContent).
Implicit Types w : World.
Abbreviation content_of bs := (content (cid_to_string (pin_cid bs))).

Abbreviation poi_rows db := (ch_manifests (au_poi db)).

Lemma record_pin_evolves db now kind scope range cid size hash root json db' :
  content (cid_to_string cid) = ArtifactContent →
  record_poi_artifact_pin db now kind scope range cid size hash root json = Ok db' → evolves content db db'.
Proof.
  intros Hc Hr. unfold record_poi_artifact_pin in Hr. apply bind_Ok in Hr as (sc & _ & Hr). apply bind_Ok in Hr as (sz & _ & Hr).
  apply bind_Ok in Hr as ([rs re] & _ & Hr).
  assert (∀ c, c ∈ artifact_cids db' → c ∈ artifact_cids db ∨ c = cid_to_string cid) as Ha.
  { intros c. unfold artifact_cids. repeat case_decide; simplify_eq; cbn; rewrite ?fmap_update_where by done; rewrite ?fmap_app, !elem_of_app;
      cbn; rewrite ?list_elem_of_singleton; tauto. }
  split; [repeat case_decide; simplify_eq; apply same_manifests_refl..|].
  intros c [?| ->]%Ha; [by left|right]. split; [done|]. by exists cid.
Qed.

Lemma safe_prepared {D} kind (prepared : PreparedPoiArtifact D) :
  content_of (pa_bytes prepared) = ArtifactContent → safe content (publish_prepared pin_cid audit_error service_name kind prepared).
Proof.
  intros Hc bp bi w [Hw Ht]. split; [|done]. split.
  - apply (wp_prepared text_leb pin_cid audit_error service_name kind prepared); [done|]. by eapply artifact_no_manifest.
  - unfold tables_inv. rewrite ipns_prepared.
    refine (proj1 (keeps_prepared pin_cid audit_error service_name (tables_ok content bp bi (w_ipns w)) _
      (λ cid, content (cid_to_string cid) = ArtifactContent) kind prepared _ Hc _ w Ht)).
    + intros db m. apply tables_ok_debts.
    + intros db cid size root Hdb Hl. unfold live_poi_artifact_cid in Hl. apply bind_Ok in Hl as (sc & _ & Hl).
      apply bind_Ok in Hl as (sz & _ & Hl). apply bind_Ok in Hl as ([rs re] & _ & Hl).
      destruct (head _) as [a|] eqn:Hh; [|done]. apply bind_Ok in Hl as (cid' & Hp & [= ->]). apply head_Some_elem_of in Hh.
      rewrite sort_by_perm, list_elem_of_filter in Hh. destruct Hh as [_ Ha].
      destruct (to_artifacts _ _ _ _ _ Hdb (ar_cid a)) as [Hart Hcan]; [apply elem_of_app; right; by apply list_elem_of_fmap_2|].
      by rewrite (parsed_text (ar_cid a) cid).
    + intros cid db now size root json db' Hcid Hdb Hr. eapply tables_ok_evolves; [|exact Hdb]. by eapply record_pin_evolves.
Qed.

(** ** Recording and announcing a manifest *)
Lemma record_manifest_tables bp bi anns db cid entries cids q size hash db' :
  tables_ok content bp bi anns db → below q (poi_rows db) → 0 ≤ q → content (cid_to_string cid) = PoiManifestContent q →
  record_poi_artifact_manifest_pin db cid entries cids q size hash = Ok db' →
  tables_ok content (Some q) bi anns db' ∧ newest (cid_to_string cid) q (poi_rows db').
Proof.
  intros [Hart Hpoi Hind Han] Hb Hq Hc Hr. unfold record_poi_artifact_manifest_pin in Hr. apply bind_Ok in Hr as (sq & Hsq & Hr).
  assert (sq = q) as -> by (unfold audit_u64_to_i64 in Hsq; destruct (decide _); [by injection Hsq|done]). apply bind_Ok in Hr as (sz & _ & Hr).
  apply bind_Ok in Hr as ([] & _ & Hr). apply bind_Ok in Hr as ([] & Hrej%rejects_pending & Hr). cbn [insert_manifest] in Hr.
  apply bind_Ok in Hr as (rows & _ & [= <-]).
  pose proof (log_ok_insert content PoiManifestContent bp q _ _ (mkManifest (ch_next_id (au_poi db)) (cid_to_string cid) q sz hash 4 None None None None None)
    Hpoi Hb Hq Hrej Hc eq_refl) as [Hlog Hnew]. by split.
Qed.

Lemma wp_pin_inv bs entries cids q bi w :
  content_of bs = PoiManifestContent q → 0 ≤ q → pub_inv content (Some q) bi w → below q (poi_rows (w_db w)) →
  wp (pin_poi_manifest pin_cid audit_error service_name bs entries cids q)
    (λ r w', pub_inv content (Some q) bi w' ∧
       ∀ cid, r = Ok cid → newest (cid_to_string cid) q (poi_rows (w_db w')) ∧ lists (w_db w') cids (cid_to_string cid)) w.
Proof.
  intros Hc Hq [Hw Ht] Hb.
  pose proof (wp_pin_poi_manifest text_leb pin_cid audit_error service_name bs entries cids q w Hw
    (new_poi_unrecorded _ _ _ _ _ _ _ Ht Hc Hb)) as Hwok.
  enough (wp (pin_poi_manifest pin_cid audit_error service_name bs entries cids q)
    (λ r w', tables_ok content (Some q) bi (w_ipns w) (w_db w') ∧
       ∀ cid, r = Ok cid → newest (cid_to_string cid) q (poi_rows (w_db w')) ∧ lists (w_db w') cids (cid_to_string cid)) w) as [Ht' Hn].
  { split; [|done]. split; [exact Hwok|]. unfold tables_inv. by rewrite ipns_pin_manifest. }
  clear Hwok. apply pub_bind. eapply pub_mono; [apply (hoare_wp _ _ _ _ (keeps_owned_pin pin_cid (λ db, db = w_db w) bs) eq_refl)|].
  intros [cid|e] w1 [Hw1 Hcid]; [specialize (Hcid cid eq_refl) as ->|by rewrite Hw1].
  apply pub_bind, wp_try, wp_readonly; [apply readonly_running|]. intros [[]|e] bs1.
  2:{ eapply pub_mono; [apply (wp_cleanup_tables _ _ content (Some q) bi (w_ipns w) _ _ (λ _ _, False)); cbn; by rewrite Hw1|]. by intros [c|e'] w'. }
  apply pub_bind. eapply pub_mono; [apply (wp_record_tables _ _ content (Some q) bi (Some q) bi (w_ipns w) _ _
    (λ db, newest (cid_to_string (pin_cid bs)) q (poi_rows db) ∧ lists db cids (cid_to_string (pin_cid bs)))); [done|cbn; by rewrite Hw1|]|].
  - intros now u db Hf. cbn [w_db set_faults] in Hf. rewrite Hw1 in Hf. apply bind_Ok in Hf as (size & _ & Hf).
    apply bind_Ok in Hf as (db2 & Hf%map_err_Ok & [= <- <-]).
    pose proof (poi_manifest_lists _ _ _ _ _ _ _ _ _ _ (proj1 Hw) (proj1 (new_poi_unrecorded _ _ _ _ _ _ _ Ht Hc Hb)) Hf) as Hlists.
    eapply record_manifest_tables in Hf as [? ?]; done.
  - intros [u|e] w2 [Ht2 Hn2]; [|done]. apply pub_bind, wp_readonly; [apply readonly_running|]. intros [[]|e] bs3; [|by split].
    apply pub_ret. split; [done|]. intros c [= <-]. by eapply Hn2.
Qed.

Lemma activation_evolves db now cid q db' :
  record_poi_artifact_manifest_ipns_publication db now cid q = Ok db' → evolves content db db'.
Proof.
  intros Hr. unfold record_poi_artifact_manifest_ipns_publication in Hr. apply bind_Ok in Hr as (sq & _ & Hr).
  apply bind_Ok in Hr as ([] & _ & Hr). case_decide; [|done]. injection Hr as <-. split; [apply same_manifests_refl| |by left].
  apply same_manifests_update; [by intros m; split_and!; [done..|intros (_ & ? & _)]|].
  apply same_manifests_update; [|apply same_manifests_refl]. intros m. split_and!; [done..|]. by intros (? & _).
Qed.
Lemma hoare_record_v4 bp bi c q : hoare (tables_inv content bp bi) (record_v4_ipns audit_error c q) (λ _, True).
Proof.
  apply hoare_seq; [by eapply hoare_true, hoare_lift|]. intros cid. apply transaction_tables.
  intros db now a db' Hr. apply bind_Ok in Hr as (db2 & Hr%map_err_Ok & [= _ <-]). by eapply activation_evolves.
Qed.

Lemma wp_publish_ipns_tables bp bi cids c q w :
  tables_inv content bp bi w → newest c q (poi_rows (w_db w)) → wp (publish_poi_ipns audit_error cids c q) (λ _, tables_inv content bp bi) w.
Proof.
  intros Ht Hn. apply pub_bind, wp_readonly; [apply readonly_running|]. intros [[]|e] bs; [|done].
  apply pub_bind, wp_readonly; [apply readonly_first_unavailable|]. intros [[x|]|e] bs'; [done| |done].
  apply wp_announce; [done|by left|]. apply hoare_record_v4.
Qed.

Lemma pending_poi_newest bp bi anns db p :
  tables_ok content bp bi anns db → pending_poi_artifact_manifest_publication text_leb db = Ok (Some p) →
  newest (pm_cid p) (pm_sequence p) (poi_rows db).
Proof.
  intros Hok Hp. unfold pending_poi_artifact_manifest_publication, pending_manifest_publication in Hp.
  destruct (sort_by newest_leb (filter is_pending (ch_manifests (au_poi db)))) as [|m [|m' ms]] eqn:Hs; cbn in Hp; [done| |done].
  apply bind_Ok in Hp as (sq & Hsq & [= <-]). assert (sq = mf_ipns_sequence m) as ->.
  { unfold audit_i64_to_u64 in Hsq. destruct (decide _); [by injection Hsq|done]. }
  assert (m ∈ filter is_pending (ch_manifests (au_poi db))) as Hm by (rewrite <- (sort_by_perm newest_leb), Hs; by left).
  apply list_elem_of_filter in Hm as [Hpend Hm]. by eapply pending_newest; [apply Hok|..].
Qed.
Lemma abandon_evolves db now cid q un db' :
  abandon_pending_poi_v4_manifest_reconciliation db now cid q un = Ok db' → evolves content db db'.
Proof.
  intros Hr. unfold abandon_pending_poi_v4_manifest_reconciliation in Hr. apply bind_Ok in Hr as (db1 & H1' & Hr).
  assert (evolves content db db1 ∧ artifact_cids db1 = artifact_cids db) as [[Hi Hp _] Ha].
  { unfold invalidate_pending_poi_manifest_reconciliation in H1'. apply bind_Ok in H1' as (sq & _ & H1').
    destruct (filter is_pending _) as [|m [|m' ms]]; [destruct (filter _ _) as [|x [|y l]]; by repeat (apply bind_Ok in H1' as (? & _ & H1'))| |done].
    destruct (decide _); [by apply bind_Ok in H1' as (? & _ & H1')|]. injection H1' as <-. split; [|done]. split; [apply same_manifests_refl| |by left].
    apply same_manifests_update; [|apply same_manifests_refl]. intros x. split_and!; [done..|]. by intros (_ & _ & _ & ?). }
  apply bind_Ok in Hr as (sq & _ & [= <-]). split.
  - by destruct un.
  - by destruct un.
  - intros c Hc. left. rewrite <- Ha. destruct un as [u|]; [|done]. unfold artifact_cids in *. cbn in Hc. by rewrite fmap_update_where in Hc.
Qed.

Lemma wp_reconcile_tables bp bi w :
  tables_inv content bp bi w → wp (reconcile_pending_poi_publications text_leb audit_error) (λ _, tables_inv content bp bi) w.
Proof.
  intros Ht. apply pub_bind, wp_readonly; [apply readonly_running|]. intros [[]|e] bs; [|done].
  apply pub_bind, wp_db_read; [done|]. intros [p|] bs1 Hp; [|done]. pose proof (pending_poi_newest _ _ _ _ _ Ht Hp) as Hn.
  apply pub_bind, wp_readonly; [apply readonly_first_unavailable|]. intros [artifact|e] bs2; [|done].
  apply pub_bind. apply wp_readonly; [destruct artifact; [apply readonly_ret|apply readonly_first_unavailable]|].
  intros [manifest|e] bs3; [|done].
  assert (∀ w', tables_inv content bp bi w' → wp (unavailable ← parse (default (pm_cid p) artifact); cid ← parse (pm_cid p);
    _ ← db_transaction (λ db now, db ← map_err audit_error (abandon_pending_poi_v4_manifest_reconciliation db now cid (pm_sequence p)
      (if artifact then Some unavailable else None)); Ok (tt, db)); mret Abandoned) (λ _, tables_inv content bp bi) w') as Habandon.
  { intros w' Hw'. eapply pub_mono; [eapply hoare_wp; [|exact Hw']|by intros r w2 [? _]].
    apply hoare_seq; [by eapply hoare_true, hoare_lift|]. intros u. apply hoare_seq; [by eapply hoare_true, hoare_lift|]. intros cid.
    apply hoare_seq; [|intros _; by apply (hoare_ret _ (λ _, True))]. apply transaction_tables.
    intros db now a db' Hr. apply bind_Ok in Hr as (db2 & Hr%map_err_Ok & [= _ <-]). by eapply abandon_evolves. }
  destruct artifact as [a|]; [by apply Habandon|]. destruct manifest as [m|]; [by apply Habandon|].
  apply wp_announce; [done|by left|]. apply hoare_seq; [apply hoare_record_v4|]. intros _. by apply hoare_ret.
Qed.

(** ** Publishing the graph *)
Section graph.
Context (store_error : StoreError → string) (publication_error : PublicationError → string) (artifact_error : PoiArtifactError → string).
Context (validate_poi_merkleroots : PoiScope → list bytes → Pub bool) (config : PoiPublisherConfig).
Context (validate_readonly : ∀ scope roots, readonly (validate_poi_merkleroots scope roots)).
Context (content_event : ∀ a bs, event_artifact_to_bytes a = Ok bs → content_of bs = ArtifactContent)
  (content_catalog : ∀ c bs, catalog_to_bytes c = Ok bs → content_of bs = ArtifactContent)
  (content_blocked : ∀ scope records bs, blocked_shields_bytes scope records = Ok bs → content_of bs = ArtifactContent)
  (content_manifest : ∀ issued q entries bs, signed_manifest_bytes issued q entries = Ok bs → content_of bs = PoiManifestContent q).
Abbreviation safe := (safe content).

Lemma safe_loop {S A} (f : S → A → Pub S) s l : (∀ s a, safe (f s a)) → safe (pub_loop f s l).
Proof. intros Hf bp bi. apply (hoare_loop f (λ _ _, True)); [done|]. intros _ a s' _ _. apply Hf. Qed.
Lemma safe_corpus {A B} (r : result PublicationError A) (k : A → Pub B) :
  (∀ a, r = Ok a → safe (k a)) → safe (lift_corpus publication_error r ≫= k).
Proof. intros Hk. apply safe_lift_bind. intros a Ha%map_err_Ok. by apply Hk. Qed.

Lemma safe_event kind p : encoded p → safe (publish_poi_event_artifact pin_cid audit_error service_name publication_error kind p).
Proof.
  intros Hp. apply safe_bind; [apply safe_readonly, readonly_running|]. intros _. apply safe_prepared. by eapply content_event.
Qed.
Lemma safe_materialize corpus inherited st b :
  safe (materialize_bridge pin_cid audit_error service_name publication_error corpus inherited st b).
Proof.
  unfold materialize_bridge. destruct st as [materialized n]. case_decide; [apply safe_ret|]. apply safe_corpus. intros p Hp.
  apply safe_corpus. intros d _. case_decide; [apply safe_fail|].
  apply safe_bind; [by eapply safe_event, prepared_encoded|]. intros [d' reused]. case_decide; [apply safe_fail|apply safe_ret].
Qed.
Lemma safe_rotate now corpus graph : safe (rotate_checkpoint pin_cid audit_error service_name publication_error now corpus graph).
Proof.
  apply safe_bind.
  - case_decide; [|apply safe_ret]. apply safe_corpus. intros p Hp. apply safe_bind; [by eapply safe_event, prepared_encoded|].
    intros [d reused]. apply safe_ret.
  - intros [bridges n]. apply safe_bind; [apply safe_readonly, readonly_lift|]. intros l. apply safe_ret.
Qed.
Lemma safe_tail corpus n : safe (publish_tail pin_cid audit_error service_name publication_error corpus n).
Proof.
  unfold publish_tail. case_decide; [|apply safe_ret]. apply safe_corpus. intros p Hp. apply safe_bind; [by eapply safe_event, prepared_encoded|].
  intros [d reused]. apply safe_ret.
Qed.
Lemma safe_chunks chunks st : Forall encoded chunks →
  safe (pub_loop (publish_checkpoint_chunk pin_cid audit_error service_name publication_error) st chunks).
Proof.
  intros Hall bp bi. apply (hoare_loop _ (λ _ _, True)); [done|]. intros _ c [[ds total] n] Hin _. rewrite Forall_forall in Hall.
  revert bp bi. apply safe_bind; [by apply safe_event, Hall|]. intros [d reused]. apply safe_bind; [apply safe_readonly, readonly_lift|].
  intros x. apply safe_ret.
Qed.
Lemma safe_blocked store scope :
  safe (publish_poi_blocked_shields pin_cid audit_error service_name store_error artifact_error store scope).
Proof.
  apply safe_bind; [apply safe_readonly, readonly_running|]. intros _ bp bi.
  apply hoare_bind with (P := λ r, content_of r.1 = ArtifactContent).
  - apply hoare_seq; [apply safe_readonly, readonly_guarded, readonly_lift|]. intros records.
    eapply hoare_mono; [apply hoare_lift|]. intros [bs n] Hr%map_err_Ok. apply bind_Ok in Hr as (bs' & Hb & [= <- _]). by eapply content_blocked.
  - intros [bs rows] Hc. apply hoare_seq; [apply safe_readonly, readonly_lift|]. intros n. by apply safe_prepared.
Qed.

Lemma safe_finish store corpus inherited n bridges m :
  safe (finish_entry pin_cid audit_error service_name store_error publication_error artifact_error store corpus inherited n bridges m).
Proof.
  apply safe_bind; [apply safe_loop; intros; apply safe_materialize|]. intros [bridges' m1] bp bi.
  apply hoare_bind with (P := Forall encoded).
  { unfold run_prepare_checkpoint. destruct (prepare_checkpoint corpus n) as [r|] eqn:Hr; [|apply hoare_fail].
    eapply hoare_mono; [apply hoare_lift|]. intros chunks ->%map_err_Ok. by eapply checkpoint_encoded. }
  intros chunks Hchunks. revert bp bi. apply safe_bind; [by apply safe_chunks|]. intros [[descriptors total] m2].
  apply safe_corpus. intros [catalog bs] Hcat.
  apply safe_bind.
  { apply safe_bind; [apply safe_readonly, readonly_running|]. intros _. apply safe_prepared. cbn.
    apply bind_Ok in Hcat as (c & _ & Hcat). apply bind_Ok in Hcat as (bs' & Hbs%map_err_Ok & [= _ <-]). by eapply content_catalog. }
  intros [cd catalog_reused]. apply safe_bind; [apply safe_tail|]. intros [tail tail_reused].
  apply safe_bind; [apply safe_blocked|]. intros [blocked blocked_reused].
  apply safe_bind; [apply safe_readonly; destruct (checked_sub _ _); auto with readonly; apply readonly_bind; auto with readonly; apply readonly_lift|].
  intros root. apply safe_bind; [apply safe_readonly, readonly_lift|]. intros _. apply safe_ret.
Qed.

Lemma safe_entry now store corpus active :
  safe (publish_poi_artifact_entry pin_cid audit_error service_name store_error publication_error artifact_error config now store corpus active).
Proof.
  apply safe_bind.
  { destruct active as [graph|]; [|apply safe_ret]. apply safe_bind; [apply safe_readonly, readonly_lift|]. intros _.
    case_decide; [apply safe_fail|]. case_decide; [|apply safe_ret]. apply safe_corpus. intros root _. case_decide; [apply safe_fail|apply safe_ret]. }
  intros _. apply safe_bind.
  { unfold tail_fits. case_decide; [|apply safe_ret]. destruct (prepare_event_artifact _ _ _ _) as [p|[[]| | | | | | | | |]]; try apply safe_ret; apply safe_fail. }
  intros fits. apply safe_bind; [|intros [[n bridges] m]; apply safe_finish].
  destruct active as [graph|]; [|apply safe_ret]. destruct (poi_artifact_rotation_required _ _ _ _); [apply safe_rotate|apply safe_ret].
Qed.

Lemma safe_graph now store :
  safe (publish_poi_artifact_graph pin_cid audit_error service_name store_error publication_error artifact_error validate_poi_merkleroots
    config now store).
Proof.
  apply safe_bind.
  { apply safe_loop. intros corpora scope. apply safe_bind.
    - apply safe_readonly, readonly_bind; [apply readonly_guarded, readonly_lift|]. intros [tip|]; [|apply readonly_ret].
      apply readonly_bind; [apply readonly_lift|]. intros root. apply readonly_bind; [apply readonly_guarded, readonly_lift|]. intros events. apply readonly_ret.
    - intros [events root]. apply safe_corpus. intros corpus _. apply safe_ret. }
  intros corpora. apply safe_bind.
  { apply safe_loop. intros u corpus. unfold revalidate_corpus. case_decide; [apply safe_ret|].
    apply safe_bind; [apply safe_readonly, validate_readonly|]. intros []; [apply safe_ret|apply safe_fail]. }
  intros _. apply safe_bind.
  { apply safe_loop. intros graph corpus. apply safe_bind; [apply safe_readonly, readonly_running|]. intros _.
    apply safe_bind; [apply safe_readonly, readonly_read|]. intros active. apply safe_bind; [apply safe_entry|]. intros published.
    apply safe_bind; [apply safe_readonly, readonly_lift|]. intros x. apply safe_bind; [apply safe_readonly, readonly_lift|]. intros y. apply safe_ret. }
  intros graph. apply safe_bind; [apply safe_readonly, readonly_lift|]. intros bs. apply safe_ret.
Qed.

(** ** One cycle *)
Definition stored_sequence (s : Scheduler) : option Z := indexer_state (sd_store s) !! IPNS_SEQUENCE_STATE_KEY.
(** [bi] bounds the other channel, and [ix] is what the store holds for it. *)
Context (bi ix : option Z).
Definition cycle_ok (s : Scheduler) w : Prop :=
  pub_inv content (stored_sequence s) bi w ∧ indexer_state (sd_store s) !! CHAIN_INDEXED_IPNS_SEQUENCE_STATE_KEY = ix.

(** A safe computation inside a cycle. *)
Lemma cwp_safe {A B} (m : Pub A) (k : A → Cycle Scheduler B) (Q : result string B → Scheduler → World → Prop) s w :
  safe m → cycle_ok s w → (∀ e w', cycle_ok s w' → Q (Err e) s w') → (∀ a w', cycle_ok s w' → cwp (k a) Q s w') → cwp (pub m ≫= k) Q s w.
Proof.
  intros Hm [Hw Hix] He Hk. apply cwp_bind, cwp_pub. eapply pub_mono; [apply (hoare_wp _ _ _ _ (Hm _ _) Hw)|].
  intros [a|e] w' [Hw' _]; [by apply Hk|by apply He].
Qed.

Lemma reserve_above db minimum q db' :
  reserve_poi_publication_sequence db minimum = Ok (q, db') →
  indexer_state db' !! IPNS_SEQUENCE_STATE_KEY = Some q ∧ 0 ≤ q ∧ (∀ v, indexer_state db !! IPNS_SEQUENCE_STATE_KEY = Some v → v < q) ∧
  indexer_state db' !! CHAIN_INDEXED_IPNS_SEQUENCE_STATE_KEY = indexer_state db !! CHAIN_INDEXED_IPNS_SEQUENCE_STATE_KEY.
Proof.
  intros Hr. unfold reserve_poi_publication_sequence in Hr. apply bind_Ok in Hr as (m & _ & Hr). apply bind_Ok in Hr as (value & Hv & Hr).
  apply bind_Ok in Hr as (sq & Hsq & [= <- <-]). unfold i64_to_u64 in Hsq. destruct (decide (0 ≤ value)) as [Hpos|]; [|done]. injection Hsq as <-.
  cbn. rewrite lookup_insert_eq. split_and!; [done|done| |by rewrite lookup_insert_ne].
  intros v Hv'. rewrite Hv' in Hv. destruct (decide _); [|done]. injection Hv as <-. lia.
Qed.

Lemma load_durable_ok s w :
  cycle_ok s w → cwp (load_durable_publication_state text_leb audit_error) (λ _ s' w', cycle_ok s' w' ∧ sd_store s' = sd_store s) s w.
Proof.
  intros Hw. apply cwp_safe; [apply safe_readonly, readonly_read|done|done|]. intros v4 w1 Hw1. apply cwp_bind. unfold cwp at 1. cbn.
  apply cwp_safe; [apply safe_readonly; destruct v4; [apply readonly_bind; auto with readonly|auto with readonly]|done|done|]. by intros hash w2 Hw2.
Qed.

Abbreviation cycle := (publish_cycle text_leb pin_cid audit_error service_name store_error publication_error artifact_error
  validate_poi_merkleroots config).

(** The announcing half of a cycle. *)
Lemma announce_ok now graph hash s w :
  cycle_ok s w →
  cwp (minimum_sequence ← pub (lift (unix_millis now));
       sequence ← reserve_cycle store_error minimum_sequence;
       cid ← pub (publish_poi_manifests pin_cid audit_error service_name now sequence graph);
       _ ← pub ensure_publication_running;
       _ ← pub (publish_poi_ipns audit_error (artifact_cid_list graph) cid sequence);
       _ ← modify (with_manifest_cid (Some cid));
       modify (with_published (Some hash) false (Some now))) (λ _, cycle_ok) s w.
Proof.
  intros Hw. apply cwp_safe; [apply safe_readonly, readonly_lift|done|done|]. intros minimum w1 Hw1.
  apply cwp_bind, cwp_bind. unfold cwp at 1. cbn [get_scheduler fst snd]. apply cwp_bind, cwp_pub.
  eapply pub_mono; [apply wp_conj; [apply (hoare_wp _ _ _ _ (safe_readonly content _ (readonly_guarded _ _ (readonly_lift _)) (stored_sequence s) bi) (proj1 Hw1))|]|].
  { apply (hoare_wp (λ _, True) _ (λ r, reserve_poi_publication_sequence (sd_store s) minimum = Ok r)); [|done].
    apply hoare_seq; [apply yields_true|]. intros []; [apply hoare_fail|]. eapply hoare_mono; [apply hoare_lift|]. by intros r Hr%map_err_Ok. }
  intros [[q store]|e] w2 [[Hw2 _] [_ Hres]]; [|by split; [|apply Hw1]]. specialize (Hres _ eq_refl). apply reserve_above in Hres as (Hst & Hq & Hv & Hix).
  destruct Hw2 as [Hok2 Ht2]. destruct (within_below _ q _ (lo_within _ _ _ _ _ (to_poi _ _ _ _ _ Ht2)) Hv) as [Hwi Hb2].
  apply (tables_ok_within _ _ _ (Some q) bi) in Ht2; [|done|apply Ht2]. unfold cwp at 1. cbn [modify mret Cycle_ret mbind Cycle_bind fst snd].
  set (s2 := with_store store s). assert (stored_sequence s2 = Some q) as Hs2 by done.
  assert (∀ w', pub_inv content (Some q) bi w' → cycle_ok s2 w') as Hcok
    by (intros w' Hw'; unfold cycle_ok; rewrite Hs2; split; [done|]; cbn; rewrite Hix; apply Hw1).
  apply cwp_bind, cwp_pub. unfold publish_poi_manifests.
  apply pub_bind, wp_readonly; [apply readonly_running|]. intros [[]|e] bs2; [|by apply Hcok].
  apply pub_bind. unfold wp at 1, lift at 1. cbn [fst snd]. destruct (unix_millis now) as [issued|e]; [|by apply Hcok].
  apply pub_bind. unfold wp at 1, lift at 1. cbn [fst snd]. destruct (signed_manifest_bytes _ _ _) as [bs|e] eqn:Hbs; [|by apply Hcok].
  apply pub_bind. eapply pub_mono; [apply wp_pin_inv; [by eapply content_manifest|done|done|done]|]. intros [cid|e] w3 [Hw3 Hn]; [|by apply Hcok].
  destruct (Hn cid eq_refl) as [Hnew Hlists]. apply pub_ret. apply cwp_bind, cwp_pub, wp_readonly; [apply readonly_running|].
  intros [[]|e] bs3; [|by apply Hcok, pub_inv_faults]. apply cwp_bind, cwp_pub. destruct Hw3 as [Hok3 Ht3].
  eapply pub_mono; [apply wp_conj; [apply wp_publish_poi_ipns; [exact Hok3|]|apply (wp_publish_ipns_tables (Some q) bi); [exact Ht3|exact Hnew]]|].
  - intros cid' Hcid'. rewrite cid_roundtrip in Hcid'. by injection Hcid' as <-.
  - intros [[]|e] w4 [Hok4 Ht4]; by apply Hcok.
Qed.

Lemma publish_cycle_ok now s w : cycle_ok s w → cwp (cycle now) (λ _, cycle_ok) s w.
Proof.
  intros Hw. apply cwp_safe; [apply safe_readonly, readonly_running|done|done|]. intros _ w1 Hw1. apply cwp_bind, cwp_pub.
  eapply pub_mono; [apply wp_conj; [apply wp_reconcile_poi, Hw1|apply (wp_reconcile_tables (stored_sequence s) bi), Hw1]|].
  intros rec w2 [[Hok2 _] Ht2]. assert (cycle_ok s w2) as Hw2 by (split; [done|apply Hw]). clear Hok2 Ht2 Hw Hw1 w w1.
  destruct rec as [rec|e]; [|done].
  apply cwp_bind. unfold cwp at 1. cbn [get_scheduler fst snd]. apply cwp_bind.
  assert (cwp (match publication_state_loaded s, rec with
               | true, NothingPending => mret tt
               | _, _ => _ ← load_durable_publication_state text_leb audit_error; modify with_loaded
               end) (λ _ s' w', cycle_ok s' w') s w2) as Hload.
  { destruct (publication_state_loaded s), rec; try done; (apply cwp_bind; eapply cwp_mono; [by apply load_durable_ok|]; by intros [u|e] s' w' [? _]). }
  eapply cwp_mono; [exact Hload|]. clear Hload. intros [[]|e] s3 w3 Hw3; [|done]. clear Hw2 w2 s.
  assert (∀ s w, cycle_ok s w → cwp (_ ← pub ensure_publication_running; s ← get_scheduler;
      '(graph, graph_hash) ← pub (publish_poi_artifact_graph pin_cid audit_error service_name store_error publication_error artifact_error
        validate_poi_merkleroots config now (sd_store s));
      _ ← pub ensure_publication_running; needed ← needs_publication config now graph_hash;
      if negb needed then mret tt
      else
        minimum_sequence ← pub (lift (unix_millis now));
        sequence ← reserve_cycle store_error minimum_sequence;
        cid ← pub (publish_poi_manifests pin_cid audit_error service_name now sequence graph);
        _ ← pub ensure_publication_running;
        _ ← pub (publish_poi_ipns audit_error (artifact_cid_list graph) cid sequence);
        _ ← modify (with_manifest_cid (Some cid));
        modify (with_published (Some graph_hash) false (Some now))) (λ _, cycle_ok) s w) as Hrest.
  { clear s3 w3 Hw3. intros s w Hw. apply cwp_safe; [apply safe_readonly, readonly_running|done|done|]. intros _ w1 Hw1.
    apply cwp_bind. unfold cwp at 1. cbn [get_scheduler fst snd]. apply cwp_safe; [apply safe_graph|done|done|]. intros [graph hash] w2 Hw2.
    apply cwp_safe; [apply safe_readonly, readonly_running|done|done|]. intros _ w3 Hw3. apply cwp_bind.
    apply cwp_mono with (Q := λ (_ : result string bool) s' w', cycle_ok s' w').
    { apply cwp_bind. unfold cwp at 1. cbn [get_scheduler fst snd]. destruct (last_poi_artifact_manifest_cid s); [|done].
      destruct (_ || _); [done|]. by apply cwp_safe; [apply safe_readonly, readonly_available|..]. }
    intros [needed|e] s4 w4 Hw4; [|done]. destruct needed; [by apply announce_ok|done]. }
  destruct rec; [by apply cwp_bind, Hrest|done|by apply cwp_bind, Hrest].
Qed.
End graph.
End cycle.
