(* ===== verification/IndexedCycle.v ===== *)
(** * The chain-indexed publication cycle ([chain_indexed.rs])

    One cycle of [ChainIndexedPublicationScheduler]: finish a pending manifest,
    or publish the entries of the configured chains, check their watermarks
    against the chain tables, reserve a sequence and announce a new manifest.
    The chain tables are read twice: [db] while entries are published and [db']
    when the publication lease is held. The chains are published one after the
    other; like [join_all], all run to their end before a failure counts. *)

From stdpp Require Import sorting.
From S2P Require Import Prelude Order Wire Ipfs Artifacts CommitmentChunk MerkleCheckpointChunk WalletScanChunk PublicTxidChunk ChainLogs PoiStore ChainStore StoreQueries AuditLog Retention Publication PublicationSafety PubLogic ManifestLog Catalog PoiGraph.

(** The manifest document of the artifact crate. *)
Class IndexedManifestCrate `{ManifestCrate} := {
  INDEXED_ARTIFACT_MANIFEST_FORMAT_VERSION : Z;
  (** the [chains] field *)
  manifest_chains : IndexedArtifactManifest → list IndexedArtifactChainEntry;
  (** a manifest of (issued at, sequence, chains), signed, as JSON *)
  signed_manifest_json : Z → Z → list IndexedArtifactChainEntry → result string string;
}.

(** The state the scheduler keeps, and the table of stored sequences. *)
Record IndexedScheduler := mkIndexedScheduler {
  ix_store : PoiDb;
  ipns_sequence_loaded : bool;
  ix_last_ipns_sequence : option Z;
}.
Definition with_last (loaded : bool) (last : option Z) (s : IndexedScheduler) : IndexedScheduler := mkIndexedScheduler (ix_store s) loaded last.
Definition with_ix_store (store : PoiDb) (s : IndexedScheduler) : IndexedScheduler :=
  mkIndexedScheduler store (ipns_sequence_loaded s) (ix_last_ipns_sequence s).

Section cycle.
Context `{ArtifactCrate} `{TreeCrate} `{TxidCrate} `{PoiTypes} `{CidCrate} `{ManifestCrate} `{CatalogCrate} `{!IndexedManifestCrate}.
Context (text_leb : string → string → bool).
Context (pin_cid : bytes → Cid) (audit_error : AuditError → string) (service_name : string).
Context (store_error : StoreError → string) (txid_error : PublicTxidChunkError Cid → string).
Context (commitment_error : CommitmentChunkError Cid → string) (wallet_error : WalletScanChunkError Cid → string).
Context (checkpoint_error : MerkleCheckpointArtifactError Cid → string).
(** the configuration: row limits, chains and the publisher's key *)
Context (txid_row_limit commitment_row_limit : Z) (configured_chains : list ChainIndexedChainConfig) (trusted : bytes).

(** ** The sequence *)

(** The write of a sequence; it may have happened although its answer is lost. *)
Definition record_sequence (sequence : Z) : Cycle IndexedScheduler unit :=
  s ← get_scheduler;
  store ← pub (lift (map_err store_error (record_chain_indexed_ipns_sequence (ix_store s) sequence)));
  lost ← pub fault;
  if (lost : bool) then
    applied ← pub fault;
    _ ← (if (applied : bool) then modify (with_ix_store store) else mret tt);
    pub (fail "persist chain-indexed IPNS sequence")
  else modify (with_ix_store store).

Definition next_ipns_sequence (now : Z) : Cycle IndexedScheduler Z :=
  s ← get_scheduler;
  _ ← (if ipns_sequence_loaded s then mret tt
       else
         last ← pub (Catalog.store_read store_error (last_chain_indexed_ipns_sequence (ix_store s)));
         modify (with_last true last));
  sequence ← pub (lift (unix_millis now));
  s ← get_scheduler;
  let sequence := match ix_last_ipns_sequence s with
                  | None => sequence
                  | Some last_sequence => Z.max sequence (saturating_add u64_max last_sequence 1)
                  end in
  _ ← record_sequence sequence;
  _ ← modify (with_last true (Some sequence));
  mret sequence.

(** ** One cycle *)
Definition reconcile_pending (db : ChainDb) : Cycle IndexedScheduler bool :=
  published ← pub (reconcile_pending_manifest text_leb pin_cid audit_error service_name trusted
    (λ manifest, validate_combined_manifest_snapshot store_error db configured_chains (manifest_chains manifest)));
  match published with
  | None => mret false
  | Some sequence => _ ← modify (with_last true (Some sequence)); mret true
  end.

(** [join_all] of [publish_chain_entry]. *)
Fixpoint publish_entries (fuel : nat) (db : ChainDb) (chains : list ChainIndexedChainConfig)
    : Pub (list (result string (option (option PublishedChainEntry)))) :=
  match chains with
  | [] => mret []
  | chain :: chains =>
      r ← try (publish_chain_entry pin_cid audit_error service_name store_error txid_error commitment_error wallet_error checkpoint_error
        db txid_row_limit commitment_row_limit fuel chain);
      rs ← publish_entries fuel db chains;
      mret (r :: rs)
  end.
(** The loop over the results; [None] is out of fuel. *)
Fixpoint collect_entries (results : list (result string (option (option PublishedChainEntry)))) (entries : list IndexedArtifactChainEntry)
    (cids : list string) : Pub (option (list IndexedArtifactChainEntry * list string)) :=
  match results with
  | [] => mret (Some (entries, sort_by String.leb (remove_dups cids)))
  | r :: results =>
      _ ← ensure_publication_running;
      match r with
      | Ok (Some (Some published)) => collect_entries results (entries ++ [Catalog.pe_entry published]) (cids ++ Catalog.pe_artifact_cids published)
      | Ok (Some None) => collect_entries results entries cids
      | Ok None => mret None
      | Err error => fail error
      end
  end.

(** The announcing half, under the publication lease. *)
Definition announce_entries (now : Z) (db' : ChainDb) (entries : list IndexedArtifactChainEntry) (artifact_cids : list string)
    : Cycle IndexedScheduler unit :=
  _ ← pub (validate_combined_manifest_snapshot store_error db' configured_chains entries);
  sequence ← next_ipns_sequence now;
  issued_at_ms ← pub (lift (unix_millis now));
  manifest_json ← pub (lift (signed_manifest_json issued_at_ms sequence entries));
  _ ← pub (publish_indexed_manifest pin_cid audit_error service_name artifact_cids sequence manifest_json
    INDEXED_ARTIFACT_MANIFEST_FORMAT_VERSION);
  mret tt.

(** [None] is out of fuel. *)
Definition publish_cycle (fuel : nat) (now : Z) (db db' : ChainDb) : Cycle IndexedScheduler (option unit) :=
  _ ← pub ensure_publication_running;
  reconciled ← reconcile_pending db;
  if (reconciled : bool) then mret (Some tt)
  else
    published ← pub (publish_entries fuel db configured_chains);
    collected ← pub (collect_entries published [] []);
    match collected with
    | None => mret None
    | Some (entries, artifact_cids) =>
        if decide (length entries = 0%nat) then mret (Some tt)
        else _ ← announce_entries now db' entries artifact_cids; mret (Some tt)
    end.

(** ** Publishing the entries *)
(** What is pinned as a chunk is an encoded chunk. *)
Definition encoded_chunk (published : PublishedChunk) : Prop := ∃ env compression, encode_chunk_bytes env compression = Ok (published_bytes published).
Ltac destruct_tuple := match goal with Hp : (let '(_, _) := ?x in _) = _ |- _ => destruct x | Hp : match ?x with (_, _) => _ end = _ |- _ => destruct x end.
Ltac find_encoded := repeat first [progress res_inv | case_decide; [done|] | destruct_tuple]; eexists _, _; eassumption.
Lemma txid_encoded scope rows root c p : prepare_public_txid_chunk (Cid := Cid) scope rows root c = Ok p → encoded_chunk p.
Proof. unfold prepare_public_txid_chunk, encode_public_txid_envelope. intros Hp. find_encoded. Qed.
Lemma commitment_encoded scope rows c p : prepare_commitment_chunk (Cid := Cid) scope rows c = Ok p → encoded_chunk p.
Proof. unfold prepare_commitment_chunk, encode_commitment_envelope. intros Hp. find_encoded. Qed.
Lemma wallet_encoded scope sb eb rows c p : prepare_wallet_scan_chunk (Cid := Cid) scope sb eb rows c = Ok p → encoded_chunk p.
Proof. unfold prepare_wallet_scan_chunk, encode_wallet_scan_envelope. intros Hp. find_encoded. Qed.
Lemma checkpoint_chunk_encoded scope cp c p : prepare_merkle_checkpoint_artifact (Cid := Cid) scope cp c = Ok p → encoded_chunk p.
Proof. unfold prepare_merkle_checkpoint_artifact. intros Hp. find_encoded. Qed.

(** *** What publishing an entry consists of

    A property of publication code that read-only code has, that is kept by
    sequencing and that pinning an artifact has, holds of publishing an entry. *)
Section closed.
Context (OK : ∀ A : Type, Pub A → Prop) (good : bytes → Prop).
Arguments OK {A} _.
Context (OK_readonly : ∀ A (m : Pub A), readonly m → OK m)
  (OK_bind : ∀ A B (m : Pub A) (k : A → Pub B), OK m → (∀ a, OK (k a)) → OK (m ≫= k))
  (OK_lift : ∀ A B (r : result string A) (k : A → Pub B), (∀ a, r = Ok a → OK (k a)) → OK (lift r ≫= k))
  (OK_try : ∀ A (m : Pub A), OK m → OK (try m))
  (OK_artifact : ∀ kind dataset scope range size hash version bs, good bs →
     OK (reuse_or_pin_indexed_artifact pin_cid audit_error service_name kind dataset scope range size hash version bs))
  (good_chunk : ∀ env compression bs, encode_chunk_bytes env compression = Ok bs → good bs)
  (good_catalog : ∀ catalog bs, deterministic_body_bytes catalog = Ok bs → good bs).
Lemma closed_ret {A} (a : A) : OK (mret a).
Proof. apply OK_readonly, readonly_ret. Qed.
Lemma closed_fail {A} e : OK (fail (A := A) e).
Proof. apply OK_readonly, readonly_fail. Qed.
Lemma closed_lift {A} (r : result string A) : OK (lift r).
Proof. apply OK_readonly, readonly_lift. Qed.

Lemma closed_pub_fold {S A} (f : S → A → Pub S) s l : (∀ s a, OK (f s a)) → OK (pub_fold f s l).
Proof. intros Hf. revert s. induction l as [|a l IH]; intros s; cbn; [apply closed_ret|]. by apply OK_bind. Qed.
Lemma readonly_store_read {A} (q : sresult A) : readonly (Catalog.store_read store_error q).
Proof. apply readonly_guarded, readonly_lift. Qed.
Lemma closed_store_read {A} (q : sresult A) : OK (Catalog.store_read store_error q).
Proof. apply OK_readonly, readonly_store_read. Qed.
Lemma closed_chunk published : encoded_chunk published →
  OK (reuse_or_pin_chunk pin_cid audit_error service_name (published_descriptor published) (published_bytes published)).
Proof. intros (env & c & Hb). apply OK_bind; [|intros cid; apply closed_ret]. apply OK_artifact. by eapply good_chunk. Qed.
(** Preparing a chunk and pinning it. *)
Lemma closed_prepared_chunk {E B} (show : E → string) (r : result E PublishedChunk) (k : IndexedArtifactDescriptor → Pub B) :
  (∀ p, r = Ok p → encoded_chunk p) → (∀ d, OK (k d)) →
  OK (published ← lift (map_err show r);
        descriptor ← reuse_or_pin_chunk pin_cid audit_error service_name (published_descriptor published) (published_bytes published); k descriptor).
Proof. intros Hr Hk. apply OK_lift. intros p Hp%map_err_Ok. apply OK_bind; [by apply closed_chunk, Hr|done]. Qed.

Create HintDb closed.
Hint Resolve closed_ret closed_fail closed_lift closed_store_read : closed.
Ltac safe_seq := first [solve [auto with closed] | apply OK_bind; [solve [auto with closed]|intros ?]; safe_seq].

Lemma closed_catalogs scope kind chunks coverage : OK (publish_catalogs pin_cid audit_error service_name scope kind chunks coverage).
Proof.
  assert (OK ('(catalog, catalog_bytes, catalog_hash, descriptor) ← lift (prepare_catalog_artifact scope kind chunks coverage);
      _ ← lift (try_fold (λ total d, ok_or (checked_add u64_max total (desc_byte_size d)) "indexed artifact chunk byte size overflow"%string)
             0 (cat_chunks catalog));
      cid ← reuse_or_pin_indexed_artifact pin_cid audit_error service_name AuditLog.Catalog (desc_dataset_kind descriptor)
        (desc_scope descriptor) (desc_range descriptor) (desc_byte_size descriptor) catalog_hash
        (desc_encoding_version descriptor) catalog_bytes;
      mret [mkPublishedCatalog (set_cid descriptor cid) ((desc_cid <$> cat_chunks catalog) ++ [cid])])) as Hsafe.
  { apply OK_lift. intros [[[catalog bs] hash] d] Hp. unfold prepare_catalog_artifact in Hp. apply bind_Ok in Hp as (bs' & Hbs & Hp).
    do 2 apply bind_Ok in Hp as (? & _ & Hp). injection Hp as <- <- <- <-. apply OK_bind; [apply closed_lift|]. intros _.
    apply OK_bind; [|intros cid; apply closed_ret]. apply OK_artifact. by eapply good_catalog. }
  destruct chunks, coverage; [apply closed_ret|exact Hsafe..].
Qed.
Hint Resolve closed_catalogs : closed.

Abbreviation omissions_valid := (validate_public_txid_compatibility_omissions store_error).
Lemma closed_txid_catalog fuel db chain scope max_block :
  OK (publish_public_txid_catalog pin_cid audit_error service_name store_error txid_error db txid_row_limit fuel chain scope max_block).
Proof.
  apply OK_bind.
  { apply closed_pub_fold. intros u omission. case_decide; [apply closed_ret|]. apply OK_bind; [apply closed_store_read|].
    intros n. case_decide; auto with closed. }
  intros _. apply OK_bind; [|intros [chunks|]; safe_seq].
  generalize 0 (@nil IndexedArtifactDescriptor). induction fuel as [|fuel IH]; intros offset done; cbn; [apply closed_ret|].
  apply OK_bind; [apply closed_store_read|]. intros rows. case_decide; [apply closed_ret|]. apply OK_bind; [apply closed_lift|]. intros items.
  apply OK_bind; [apply closed_lift|]. intros planned. apply OK_bind; [|intros [o d]; case_decide; [apply closed_ret|apply IH]].
  apply closed_pub_fold. intros st pl. apply OK_bind; [apply closed_store_read|]. intros chunk_rows. apply OK_bind; [safe_seq|]. intros root.
  apply closed_prepared_chunk; [intros p; apply txid_encoded|]. intros d. apply closed_ret.
Qed.
Lemma closed_wallet_catalog db chain scope max_block :
  OK (publish_wallet_scan_catalog pin_cid audit_error service_name store_error wallet_error db chain scope max_block).
Proof.
  unfold publish_wallet_scan_catalog. case_decide; [apply closed_ret|]. apply OK_bind; [|intros chunks; apply closed_catalogs].
  apply OK_bind.
  { apply OK_bind; [apply closed_store_read|]. intros ranges. apply closed_pub_fold. intros items range. apply OK_bind; [apply closed_store_read|].
    intros rows. case_decide; safe_seq. }
  intros items. apply OK_bind; [apply closed_lift|]. intros planned. apply closed_pub_fold. intros done pl. unfold publish_wallet_chunk.
  apply OK_bind; [apply closed_store_read|]. intros rows. case_decide; [apply closed_ret|].
  apply closed_prepared_chunk; [intros p; apply wallet_encoded|]. intros d. apply closed_ret.
Qed.
Lemma closed_commitment_catalog fuel db chain scope max_block :
  OK (publish_commitment_catalog pin_cid audit_error service_name store_error commitment_error db commitment_row_limit fuel chain scope max_block).
Proof.
  apply OK_bind; [apply closed_store_read|]. intros summaries. apply OK_bind; [apply closed_lift|]. intros [max_position|]; [|apply closed_ret].
  apply OK_bind; [|intros [chunks|]; safe_seq].
  generalize 0 (@nil IndexedArtifactDescriptor). induction fuel as [|fuel IH]; intros start done; cbn; [apply closed_ret|].
  case_decide; [apply closed_ret|]. apply OK_bind; [apply closed_store_read|]. intros rows. case_decide; [apply IH|].
  apply OK_bind; [apply closed_lift|]. intros items.
  apply OK_bind; [apply closed_lift|]. intros planned. apply OK_bind; [|intros [o d]; apply IH].
  apply closed_pub_fold. intros st pl. apply OK_bind; [apply closed_store_read|]. intros chunk_rows.
  apply closed_prepared_chunk; [intros p; apply commitment_encoded|]. intros d. apply closed_ret.
Qed.
Lemma closed_checkpoint_catalog db chain scope max_block :
  OK (publish_merkle_checkpoint_catalog pin_cid audit_error service_name store_error checkpoint_error db chain scope max_block).
Proof.
  apply OK_bind; [apply closed_store_read|]. intros summaries. apply OK_bind; [|intros chunks; apply closed_catalogs].
  apply closed_pub_fold. intros done summary. apply OK_bind; [apply closed_store_read|]. intros checkpoint.
  apply closed_prepared_chunk; [intros p; apply checkpoint_chunk_encoded|]. intros d. apply closed_ret.
Qed.
Hint Resolve closed_txid_catalog closed_wallet_catalog closed_commitment_catalog closed_checkpoint_catalog : closed.

Lemma readonly_fold {S A} (f : S → A → Pub S) s l : (∀ s a, readonly (f s a)) → readonly (pub_fold f s l).
Proof. intros Hf. revert s. induction l as [|a l IH]; intros s; cbn; [apply readonly_ret|]. by apply readonly_bind. Qed.
Lemma readonly_snapshot db chain latest : readonly (validate_chain_snapshot store_error db chain latest).
Proof. apply readonly_fold. intros u height. apply readonly_bind; [apply readonly_store_read|]. intros header. apply readonly_lift. Qed.
Lemma readonly_combined db chains entries : readonly (validate_combined_manifest_snapshot store_error db chains entries).
Proof.
  apply readonly_fold. intros u entry. destruct (list_find _ _) as [[i chain]|]; [apply readonly_snapshot|apply readonly_fail].
Qed.
Lemma closed_entry fuel db chain :
  OK (publish_chain_entry pin_cid audit_error service_name store_error txid_error commitment_error wallet_error checkpoint_error
    db txid_row_limit commitment_row_limit fuel chain).
Proof.
  apply OK_bind.
  { apply closed_pub_fold. intros latest dataset. apply OK_bind; [apply closed_store_read|]. intros progress. apply closed_ret. }
  intros latest. apply OK_bind.
  - generalize (@nil IndexedArtifactDescriptor, @nil string). induction (cfg_datasets chain) as [|dataset datasets IH]; intros st; cbn; [apply closed_ret|].
    destruct (latest_indexed_block latest dataset) as [max_block|]; [|apply IH]. apply OK_bind; [|intros [published|]; [apply IH|apply closed_ret]].
    destruct dataset; cbn [publish_dataset]; safe_seq.
  - intros [[catalogs cids]|]; [|apply closed_ret]. apply OK_bind; [apply OK_readonly, readonly_snapshot|]. intros _. apply closed_ret.
Qed.
Lemma closed_entries fuel db chains : OK (publish_entries fuel db chains).
Proof.
  induction chains as [|chain chains IH]; cbn; [apply closed_ret|]. apply OK_bind; [apply OK_try, closed_entry|]. intros r.
  apply OK_bind; [exact IH|]. intros rs. apply closed_ret.
Qed.
Lemma readonly_collect results entries cids : readonly (collect_entries results entries cids).
Proof.
  revert entries cids. induction results as [|r results IH]; intros entries cids; cbn; [apply readonly_ret|].
  apply readonly_bind; [apply readonly_running|]. intros _. destruct r as [[[p|]|]|e]; [apply IH..|apply readonly_ret|apply readonly_fail].
Qed.
End closed.

(** ** What a cycle announces *)
Abbreviation reconcile db := (reconcile_pending_manifest text_leb pin_cid audit_error service_name trusted
  (λ manifest, validate_combined_manifest_snapshot store_error db configured_chains (manifest_chains manifest))).

(** Every watermark is the block the chain tables hold at its height. *)
Definition canonical_entries (db : ChainDb) (entries : list IndexedArtifactChainEntry) : Prop :=
  ∀ entry, entry ∈ entries → ∃ chain, chain ∈ configured_chains ∧
    cfg_chain_id chain = chain_id (en_scope entry) ∧ cfg_railgun_contract chain = railgun_contract (en_scope entry) ∧
    ∀ height, height ∈ en_latest_indexed entry → ∃ header,
      indexed_block_header db EVM_CHAIN_TYPE (cfg_chain_id chain) (lh_block_number height) = Ok (Some header) ∧
      hd_block_hash header = lh_block_hash height.
(** The manifest that was pending, or a new one. *)
Definition pending_announced (db : ChainDb) (w : World) (c : string) (q : Z) : Prop :=
  ∃ p, pending_indexed_manifest_publication text_leb (w_db w) trusted = Ok (Some p) ∧ pi_cid p = c ∧ pi_sequence p = q ∧
    canonical_entries db (manifest_chains (pi_manifest p)).
Definition new_announced (db' : ChainDb) (c : string) (q : Z) : Prop :=
  ∃ issued entries json, signed_manifest_json issued q entries = Ok json ∧ c = cid_to_string (pin_cid (json_bytes json)) ∧
    length entries ≠ 0%nat ∧ canonical_entries db' entries.
Definition announces (P : string → Z → Prop) (w w' : World) : Prop :=
  w_ipns w' = w_ipns w ∨ ∃ c q, w_ipns w' = w_ipns w ++ [(c, q)] ∧ P c q.

(** A check that ran through held of all elements. *)
Lemma yields_fold_check {A} (f : A → Pub unit) (P : A → Prop) l :
  (∀ a, yields (f a) (λ _, P a)) → yields (pub_fold (λ _, f) tt l) (λ _, ∀ a, a ∈ l → P a).
Proof.
  intros Hf. induction l as [|a l IH]; cbn; [apply hoare_ret; by intros a Ha%not_elem_of_nil|].
  eapply hoare_bind; [apply Hf|]. intros [] Ha. eapply hoare_mono; [apply IH|]. intros u Hl x [->|Hx]%elem_of_cons; [done|by apply Hl].
Qed.
Lemma combined_canonical db entries :
  yields (validate_combined_manifest_snapshot store_error db configured_chains entries) (λ _, canonical_entries db entries).
Proof.
  apply yields_fold_check. intros entry. destruct (list_find _ _) as [[i chain]|] eqn:Hf; [|apply hoare_fail].
  apply list_find_Some in Hf as (Hchain & [Hid Hcontract] & _).
  eapply hoare_mono; [apply (yields_fold_check _ (λ height, ∃ header,
    indexed_block_header db EVM_CHAIN_TYPE (cfg_chain_id chain) (lh_block_number height) = Ok (Some header) ∧ hd_block_hash header = lh_block_hash height))|].
  - intros height. apply hoare_bind with (P := λ header, indexed_block_header db EVM_CHAIN_TYPE (cfg_chain_id chain) (lh_block_number height) = Ok header).
    + apply hoare_seq; [apply yields_true|]. intros []; [apply hoare_fail|]. eapply hoare_mono; [apply hoare_lift|]. by intros h Hh%map_err_Ok.
    + intros header Hh. eapply hoare_mono; [apply hoare_lift|]. intros u Hv. unfold validate_publication_watermark in Hv.
      destruct header as [header|]; [|done]. case_decide as Hne; [done|]. exists header. split; [done|lia].
  - intros u Hall. exists chain. split_and!; [by eapply list_elem_of_lookup_2|done..].
Qed.

Lemma ipns_entries fuel db chains : preserves w_ipns (publish_entries fuel db chains).
Proof.
  apply (closed_entries (λ A, preserves w_ipns) (λ _, True)); try done.
  - intros. by apply readonly_preserves; [apply _|].
  - intros. by apply preserves_bind.
  - intros A B r k Hk w. unfold mbind, Pub_bind, lift. destruct r as [a|]; [by apply Hk|done].
  - intros. by apply preserves_try.
  - intros. apply ipns_indexed_artifact.
Qed.

(** IPNS, then the activation: one announcement at most. *)
Lemma announced_once {A} (P : string → Z → Prop) cid c q (a : A) w0 w :
  w_ipns w = w_ipns w0 → P c q →
  wp (_ ← ensure_publication_running; _ ← ipns_publish c q; _ ← ensure_publication_running;
      _ ← activate_indexed_manifest audit_error cid q; mret a) (λ _, announces P w0) w.
Proof.
  intros Hw HP. apply pub_bind, wp_readonly; [apply readonly_running|]. intros [[]|e] bs; [|by left].
  apply pub_bind, wp_ipns_publish; [by left|]. intros bs1. apply pub_bind, wp_readonly; [apply readonly_running|].
  assert (∀ w', w_ipns w' = w_ipns w ++ [(c, q)] → announces P w0 w') as Hone by (intros w' Hw'; right; rewrite Hw', Hw; eauto).
  intros [[]|e] bs2; [|by apply Hone].
  assert (preserves w_ipns (_ ← activate_indexed_manifest audit_error cid q; mret a)) as Hp
    by (apply preserves_bind; [apply ipns_transaction|done]).
  unfold wp. apply Hone. by rewrite Hp.
Qed.
Lemma reconcile_announces db w :
  wp (reconcile db) (λ r w', (r = Ok None → w_ipns w' = w_ipns w) ∧ announces (pending_announced db w) w w') w.
Proof.
  apply pub_bind, wp_readonly; [apply readonly_running|]. intros [[]|e] bs; [|by split; [|left]].
  apply pub_bind, wp_db_read; [by split; [|left]|]. intros [p|] bs1 Hp; [|by apply pub_ret; split; [|left]].
  apply pub_bind. eapply pub_mono; [apply (wp_conj _ (λ _ w', w_ipns w' = w_ipns w)); [by apply wp_readonly; [apply readonly_combined|]|
    by apply (hoare_wp (λ _, True) _ _ _ (combined_canonical db (manifest_chains (pi_manifest p))))]|].
  intros [u|e] w2 [Hw2 [_ Hcan]]; [|by split; [|left]]. specialize (Hcan u eq_refl).
  apply pub_bind. eapply pub_mono; [by apply (wp_preserves w_ipns), ipns_repin|]. intros [cid|e] w3 Hw3; [|split; [done|left]; congruence].
  eapply pub_mono; [apply wp_conj; [apply (announced_once (pending_announced db w)); [by rewrite Hw3|]|]|].
  - exists p. split_and!; done.
  - apply (hoare_wp (λ _, True) _ (λ x, x = Some (pi_sequence p))); [|done]. do 4 (apply hoare_seq; [apply yields_true|intros _]). by apply hoare_ret.
  - intros r w4 [Hann [_ Hr]]. split; [|done]. intros Hn. by specialize (Hr _ Hn).
Qed.
Lemma ipns_next_sequence now s w : cwp (next_ipns_sequence now) (λ _ _ w', w_ipns w' = w_ipns w) s w.
Proof.
  assert (∀ {A B} (m : Pub A) (k : A → Cycle IndexedScheduler B) s w1, readonly m → w_ipns w1 = w_ipns w →
    (∀ a s w', w_ipns w' = w_ipns w → cwp (k a) (λ _ _ w', w_ipns w' = w_ipns w) s w') → cwp (pub m ≫= k) (λ _ _ w', w_ipns w' = w_ipns w) s w1) as Hread.
  { intros A B m k s' w1 Hm Hw Hk. apply cwp_bind, cwp_pub, wp_readonly; [done|]. intros [a|e] bs; [by apply Hk|done]. }
  apply cwp_bind. unfold cwp at 1. cbn [get_scheduler fst snd]. apply cwp_bind.
  apply cwp_mono with (Q := λ _ _ w', w_ipns w' = w_ipns w).
  { destruct (ipns_sequence_loaded s); [done|]. by apply Hread; [apply readonly_store_read|..]. }
  intros [[]|e] s1 w1 Hw1; [|done]. apply Hread; [apply readonly_lift|done|]. intros millis s2 w2 Hw2.
  apply cwp_bind. unfold cwp at 1. cbn [get_scheduler fst snd]. apply cwp_bind.
  apply cwp_mono with (Q := λ _ _ w', w_ipns w' = w_ipns w); [|by intros [[]|e] s3 w3 Hw3].
  apply cwp_bind. unfold cwp at 1. cbn [get_scheduler fst snd]. apply Hread; [apply readonly_lift|done|]. intros store s3 w3 Hw3.
  apply Hread; [apply readonly_fault|done|]. intros [] s4 w4 Hw4; [|done]. apply Hread; [apply readonly_fault|done|].
  intros [] s5 w5 Hw5; by apply cwp_bind.
Qed.

(** C11. Announcements of the chain-indexed publisher. A publication cycle makes
    at most one announcement on IPNS, whatever fails. It is either the manifest
    that was pending, whose watermarks were found in the chain tables again, or
    a newly signed manifest of at least one chain, announced under the CID of
    its bytes and its own sequence; and every watermark of every chain in it is
    the hash the chain tables hold at that height when the publication lease is
    held, for a configured chain. *)
Theorem announced_watermarks_canonical fuel now db db' s w :
  announces (λ c q, pending_announced db w c q ∨ new_announced db' c q) w (publish_cycle fuel now db db' s w).2.
Proof.
  change (cwp (publish_cycle fuel now db db') (λ _ _ w', announces (λ c q, pending_announced db w c q ∨ new_announced db' c q) w w') s w).
  apply cwp_bind, cwp_pub, wp_readonly; [apply readonly_running|]. intros [[]|e] bs; [|by left].
  apply cwp_bind. apply cwp_mono with (Q := λ r _ w', (r = Ok false → w_ipns w' = w_ipns w) ∧ announces (pending_announced db w) w w').
  { apply cwp_bind, cwp_pub. eapply pub_mono; [apply reconcile_announces|]. by intros [[q|]|e] w1 [Hn Ha]; (split; [|done]); [|intros _; apply Hn|]. }
  intros r s1 w1 [Hn Ha]. assert (announces (λ c q, pending_announced db w c q ∨ new_announced db' c q) w w1) as Ha'
    by (destruct Ha as [?|(c & q & ? & ?)]; [by left|right; eauto 6]).
  destruct r as [[]|e]; [done| |done]. specialize (Hn eq_refl). clear Ha Ha'.
  apply cwp_bind, cwp_pub. eapply pub_mono; [by apply (wp_preserves w_ipns), ipns_entries|]. intros [rs|e] w2 Hw2; [|left; congruence].
  apply cwp_bind, cwp_pub, wp_readonly; [apply readonly_collect|]. intros [[[entries cids]|]|e] bs3; [|left; cbn; congruence..].
  case_decide as Hne; [left; cbn; congruence|]. apply cwp_bind. unfold announce_entries. apply cwp_bind, cwp_pub.
  eapply pub_mono; [apply (wp_conj _ (λ _ w', w_ipns w' = w_ipns w)); [apply wp_readonly; [apply readonly_combined|cbn; congruence]|
    by apply (hoare_wp (λ _, True) _ _ _ (combined_canonical db' entries))]|].
  intros [u|e] w4 [Hw4 [_ Hcan]]; [|by left]. specialize (Hcan u eq_refl). apply cwp_bind.
  eapply cwp_mono; [apply ipns_next_sequence|]. intros [q|e] s5 w5 Hw5; [|left; congruence].
  apply cwp_bind, cwp_pub. unfold wp, lift. cbn [fst snd]. destruct (unix_millis now) as [issued|e]; [|left; congruence].
  apply cwp_bind, cwp_pub. unfold wp, lift. cbn [fst snd]. destruct (signed_manifest_json issued q entries) as [json|e] eqn:Hjson; [|left; congruence].
  apply cwp_bind, cwp_pub, pub_bind.
  eapply pub_mono; [apply wp_conj; [by apply (wp_preserves w_ipns), ipns_pin_indexed_manifest|
    apply (hoare_wp (λ _, True) _ (λ cid, cid = pin_cid (json_bytes json))); [|done]]|].
  { apply hoare_seq; [apply yields_true|]. intros _. eapply hoare_bind; [apply (keeps_owned_pin pin_cid (λ _, True))|]. intros cid ->.
    apply hoare_seq; [apply yields_true|]. intros _. by apply hoare_ret. }
  intros [cid|e] w6 [Hw6 [_ Hcid]]; [|left; congruence]. specialize (Hcid cid eq_refl) as ->.
  eapply pub_mono; [apply (announced_once (λ c q, pending_announced db w c q ∨ new_announced db' c q) _ _ _ _ w); [congruence|]|by intros [x|e] w7 Hw7].
  right. exists issued, entries, json. by split_and!.
Qed.
End cycle.
