(* ===== verification/IndexedCycleCorrect.v ===== *)
(** * Cycles of the chain-indexed publisher keep the tables

    Publishing entries changes no manifest; a new manifest has a sequence above
    all recorded ones, because the scheduler's bound (the sequence it remembers,
    or the stored one after a start) stays above them. *)

From stdpp Require Import sorting.
From S2P Require Import Prelude Order Wire Ipfs Artifacts CommitmentChunk MerkleCheckpointChunk WalletScanChunk PublicTxidChunk ChainLogs PoiStore ChainStore StoreQueries AuditLog Retention Publication PublicationSafety PubLogic ManifestLog Catalog PoiGraph IndexedCycle.

Section cycle.
Context `{ArtifactCrate} `{TreeCrate} `{TxidCrate} `{PoiTypes} `{CidCrate} `{ManifestCrate} `{CatalogCrate} `{!IndexedManifestCrate}.
Context (text_leb : string → string → bool).
Context (pin_cid : bytes → Cid) (audit_error : AuditError → string) (service_name : string).
Context (store_error : StoreError → string) (txid_error : PublicTxidChunkError Cid → string).
Context (commitment_error : CommitmentChunkError Cid → string) (wallet_error : WalletScanChunkError Cid → string).
Context (checkpoint_error : MerkleCheckpointArtifactError Cid → string).
(** the configuration: row limits, chains and the publisher's key *)
Context (txid_row_limit commitment_row_limit : Z) (configured_chains : list ChainIndexedChainConfig) (trusted : bytes).

(** ** Publishing entries keeps the tables *)
Context (content : string → CidContent).
Abbreviation content_of bs := (content (cid_to_string (pin_cid bs))).
Abbreviation indexed_rows db := (ch_manifests (au_indexed db)).
Abbreviation safe := (safe content).
Implicit Types w : World.
Context (content_chunk : ∀ env compression bs, encode_chunk_bytes env compression = Ok bs → content_of bs = ArtifactContent)
  (content_catalog : ∀ catalog bs, deterministic_body_bytes catalog = Ok bs → content_of bs = ArtifactContent)
  (content_manifest : ∀ issued q entries json, signed_manifest_json issued q entries = Ok json → content_of (json_bytes json) = IndexedManifestContent q).

Lemma record_indexed_pin_evolves db now kind dataset scope range cid size hash version db' :
  content (cid_to_string cid) = ArtifactContent →
  record_indexed_artifact_pin db now kind dataset scope range cid size hash version = Ok db' → evolves content db db'.
Proof.
  intros Hc Hr. unfold record_indexed_artifact_pin in Hr. apply bind_Ok in Hr as (key & _ & Hr). apply bind_Ok in Hr as (ct & _ & [= <-]).
  split; [apply same_manifests_refl..|]. intros c Hin.
  assert (c ∈ artifact_cids db ∨ c = cid_to_string cid) as [?| ->]; [|by left|right; split; [done|by exists cid]].
  revert Hin. unfold artifact_cids. cbn. case_decide; cbn; rewrite ?fmap_update_where by done; rewrite ?fmap_app, !elem_of_app; cbn;
    rewrite ?list_elem_of_singleton; tauto.
Qed.
Lemma safe_artifact kind dataset scope range size hash version bs :
  content_of bs = ArtifactContent →
  safe (reuse_or_pin_indexed_artifact pin_cid audit_error service_name kind dataset scope range size hash version bs).
Proof.
  intros Hc bp bi w [Hw Ht]. split; [|done]. split.
  - apply (wp_indexed_artifact text_leb pin_cid audit_error service_name kind dataset scope range size hash version bs); [done|].
    by eapply artifact_no_manifest.
  - unfold tables_inv. rewrite ipns_indexed_artifact.
    set (I := tables_ok content bp bi (w_ipns w)). change (I (w_db w)) in Ht.
    enough (hoare (λ w, I (w_db w)) (reuse_or_pin_indexed_artifact pin_cid audit_error service_name kind dataset scope range size hash version bs) (λ _, True)) as Hk
      by exact (proj1 (Hk w Ht)).
    apply hoare_seq; [apply keeps_running|]. intros _.
    eapply hoare_bind; [apply (keeps_reuse_or_pin _ _ _ I) with (R := λ cid, content (cid_to_string cid) = ArtifactContent); [..|done|]|].
    + intros db m. apply tables_ok_debts.
    + intros db cid Hdb Hl. unfold live_indexed_artifact_cid in Hl. apply bind_Ok in Hl as (key & _ & Hl).
      apply bind_Ok in Hl as (ct & _ & Hl). destruct (head _) as [a|] eqn:Hh; [|done]. apply bind_Ok in Hl as (cid' & Hp & [= ->]).
      apply head_Some_elem_of in Hh. rewrite sort_by_perm, list_elem_of_filter in Hh. destruct Hh as [_ Ha].
      destruct (to_artifacts _ _ _ _ _ Hdb (ar_cid a)) as [Hart Hcan]; [apply elem_of_app; left; by apply list_elem_of_fmap_2|].
      by rewrite (parsed_text (ar_cid a) cid).
    + intros cid db now a db' Hcid Hdb Hr. apply bind_Ok in Hr as (db2 & Hr%map_err_Ok & [= _ <-]).
      eapply tables_ok_evolves; [|exact Hdb]. by eapply record_indexed_pin_evolves.
    + intros [[cid reused] u] _. by apply hoare_ret.
Qed.

Abbreviation entries_of := (publish_entries pin_cid audit_error service_name store_error txid_error commitment_error wallet_error checkpoint_error
  txid_row_limit commitment_row_limit).
Lemma safe_entries fuel db chains : safe (entries_of fuel db chains).
Proof.
  apply (closed_entries pin_cid audit_error service_name store_error txid_error commitment_error wallet_error checkpoint_error
    txid_row_limit commitment_row_limit (λ A (m : Pub A), safe m) (λ bs, content_of bs = ArtifactContent));
    [intros; by apply safe_readonly|intros; by apply safe_bind|intros; by apply safe_lift_bind|intros; by apply safe_try|
     intros; by apply safe_artifact|done..].
Qed.
Lemma safe_store_read {A} (q : sresult A) : safe (Catalog.store_read store_error q).
Proof. apply safe_readonly, readonly_store_read. Qed.

(** ** Recording and announcing a manifest *)
Lemma record_indexed_manifest_tables bp bi anns db cid cids q size hash version json db' :
  tables_ok content bp bi anns db → below q (indexed_rows db) → 0 ≤ q → content (cid_to_string cid) = IndexedManifestContent q →
  record_indexed_manifest_pin db cid cids q size hash version json = Ok db' →
  tables_ok content bp (Some q) anns db' ∧ newest (cid_to_string cid) q (indexed_rows db').
Proof.
  intros [Hart Hpoi Hind Han] Hb Hq Hc Hr. unfold record_indexed_manifest_pin in Hr. apply bind_Ok in Hr as (sq & Hsq & Hr).
  assert (sq = q) as -> by (unfold audit_u64_to_i64 in Hsq; destruct (decide _); [by injection Hsq|done]). apply bind_Ok in Hr as (sz & _ & Hr).
  apply bind_Ok in Hr as ([] & _ & Hr). apply bind_Ok in Hr as ([] & Hrej%rejects_pending & Hr). cbn [insert_manifest] in Hr. injection Hr as <-.
  pose proof (log_ok_insert content IndexedManifestContent bi q _ _
    (mkManifest (ch_next_id (au_indexed db)) (cid_to_string cid) q sz hash version (Some json) None None None None)
    Hind Hb Hq Hrej Hc eq_refl) as [Hlog Hnew]. by split.
Qed.
Lemma wp_pin_indexed_inv cids q json version bp w :
  content_of (json_bytes json) = IndexedManifestContent q → 0 ≤ q → pub_inv content bp (Some q) w → below q (indexed_rows (w_db w)) →
  wp (pin_indexed_manifest pin_cid audit_error service_name cids q json version)
    (λ r w', pub_inv content bp (Some q) w' ∧ ∀ cid, r = Ok cid → newest (cid_to_string cid) q (indexed_rows (w_db w'))) w.
Proof.
  intros Hc Hq [Hw Ht] Hb.
  pose proof (wp_pin_indexed_manifest text_leb pin_cid audit_error service_name cids q json version w Hw
    (new_indexed_unrecorded _ _ _ _ _ _ _ Ht Hc Hb)) as Hwok.
  enough (wp (pin_indexed_manifest pin_cid audit_error service_name cids q json version)
    (λ r w', tables_ok content bp (Some q) (w_ipns w) (w_db w') ∧ ∀ cid, r = Ok cid → newest (cid_to_string cid) q (indexed_rows (w_db w'))) w) as [Ht' Hn].
  { split; [|done]. split; [exact Hwok|]. unfold tables_inv. by rewrite ipns_pin_indexed_manifest. }
  clear Hwok. apply pub_bind, wp_readonly; [apply readonly_ensure_available|]. intros [u|e] bs; [|done].
  apply pub_bind. eapply pub_mono; [apply (hoare_wp _ _ _ _ (keeps_owned_pin pin_cid (λ db, db = w_db w) _)); done|].
  intros [cid|e] w1 [Hw1 Hcid]; [specialize (Hcid cid eq_refl) as ->|by rewrite Hw1].
  apply pub_bind. eapply pub_mono; [apply (wp_record_tables _ _ content bp (Some q) bp (Some q) (w_ipns w) _ _
    (λ db, newest (cid_to_string (pin_cid (json_bytes json))) q (indexed_rows db))); [done|by rewrite Hw1|]|].
  - intros now a db Hf. rewrite Hw1 in Hf. apply bind_Ok in Hf as (db2 & Hf%map_err_Ok & [= <- <-]). by eapply record_indexed_manifest_tables in Hf.
  - intros [x|e] w2 [Ht2 Hn2]; [|done]. apply pub_ret. split; [done|]. intros c [= <-]. by eapply Hn2.
Qed.
Lemma indexed_activation_evolves db now cid q db' :
  record_indexed_manifest_ipns_publication db now cid q = Ok db' → evolves content db db'.
Proof.
  intros Hr. unfold record_indexed_manifest_ipns_publication in Hr. apply bind_Ok in Hr as (sq & _ & Hr). apply bind_Ok in Hr as ([] & _ & Hr).
  case_decide; [|by repeat case_decide]. injection Hr as <-. split; [|apply same_manifests_refl|by left].
  apply same_manifests_update; [by intros m; split_and!; [done..|intros (_ & ? & _)]|].
  apply same_manifests_update; [|apply same_manifests_refl]. intros m. split_and!; [done..|]. by intros (? & _).
Qed.
(** Announcing the newest manifest, then the activation. *)
Lemma wp_announce_indexed {A} bp bi cid c q (a : A) w :
  tables_inv content bp bi w → newest c q (indexed_rows (w_db w)) →
  wp (_ ← ensure_publication_running; _ ← ipns_publish c q; _ ← ensure_publication_running;
      _ ← activate_indexed_manifest audit_error cid q; mret a) (λ r w', tables_inv content bp bi w' ∧ ∀ x, r = Ok x → x = a) w.
Proof.
  intros Ht Hn. apply wp_conj.
  2:{ intros x. eapply (hoare_wp (λ _, True) _ (λ x, x = a)); [|done]. do 4 (apply hoare_seq; [apply yields_true|intros _]). by apply hoare_ret. }
  apply pub_bind, wp_readonly; [apply readonly_running|]. intros [[]|e] bs; [|done].
  apply wp_announce; [done|by right|]. apply hoare_seq; [|intros _; by apply hoare_ret]. apply transaction_tables.
  intros db now x db' Hr. apply bind_Ok in Hr as (db2 & Hr%map_err_Ok & [= _ <-]). by eapply indexed_activation_evolves.
Qed.

Lemma pending_indexed_newest bp bi anns db p :
  tables_ok content bp bi anns db → pending_indexed_manifest_publication text_leb db trusted = Ok (Some p) →
  newest (pi_cid p) (pi_sequence p) (indexed_rows db).
Proof.
  intros Hok Hp. unfold pending_indexed_manifest_publication in Hp.
  destruct (sort_by newest_leb (filter is_pending (indexed_rows db))) as [|m [|m' ms]] eqn:Hs; cbn in Hp; [done| |done].
  do 5 apply bind_Ok in Hp as (? & _ & Hp). apply bind_Ok in Hp as (sq & Hsq & Hp). apply bind_Ok in Hp as (? & _ & [= <-]).
  assert (sq = mf_ipns_sequence m) as ->.
  { unfold audit_i64_to_u64 in Hsq. destruct (decide _); [by injection Hsq|done]. }
  assert (m ∈ filter is_pending (indexed_rows db)) as Hm by (rewrite <- (sort_by_perm newest_leb), Hs; by left).
  apply list_elem_of_filter in Hm as [Hpend Hm]. by eapply pending_newest; [apply Hok|..].
Qed.
Lemma keeps_repin I p : (∀ db m, I db → I (with_debts db m)) →
  hoare (λ w, I (w_db w)) (repin_pending_manifest pin_cid audit_error service_name p) (λ _, True).
Proof.
  intros HI. apply hoare_seq; [|intros _].
  { intros w Hw. destruct (readonly_ensure_available (pi_artifact_cids p) w) as [bs ->]. by split. }
  apply hoare_seq; [by eapply hoare_true, hoare_lift|]. intros cid. apply hoare_seq; [by eapply hoare_true, keeps_owned_pin|]. intros returned.
  case_decide; (apply hoare_seq; [|intros _]); [by apply keeps_cleanup|apply hoare_fail| |by apply hoare_ret].
  apply keeps_preserved, preserves_settle.
Qed.

(** After a reconciliation the published sequence bounds the channel. *)
Lemma wp_reconcile_indexed_tables bp bi db w :
  tables_inv content bp bi w →
  wp (reconcile_pending_manifest text_leb pin_cid audit_error service_name trusted
    (λ manifest, validate_combined_manifest_snapshot store_error db configured_chains (manifest_chains manifest)))
    (λ r w', tables_inv content bp bi w' ∧ ∀ q, r = Ok (Some q) → tables_inv content bp (Some q) w') w.
Proof.
  intros Ht. apply pub_bind, wp_readonly; [apply readonly_running|]. intros [[]|e] bs; [|done].
  apply pub_bind, wp_db_read; [done|]. intros [p|] bs1 Hp; [|by split]. pose proof (pending_indexed_newest _ _ _ _ _ Ht Hp) as Hn.
  apply pub_bind, wp_readonly; [apply readonly_combined|]. intros [u|e] bs2; [|done].
  apply pub_bind. set (I := λ db, tables_ok content bp bi (w_ipns w) db ∧ newest (pi_cid p) (pi_sequence p) (indexed_rows db)).
  assert (∀ db m, I db → I (with_debts db m)) as HI by (intros db2 m [Hdb Hnew]; split; [by apply tables_ok_debts|done]).
  eapply pub_mono; [apply wp_conj; [apply (hoare_wp _ _ _ _ (keeps_repin I p HI)); by split|by apply (wp_preserves w_ipns), ipns_repin]|].
  intros r w3 [[[Ht3 Hn3] _] Hi3]. assert (tables_inv content bp bi w3) as Ht3' by (unfold tables_inv; rewrite Hi3; exact Ht3).
  destruct r as [cid|e]; [|done].
  eapply pub_mono; [apply wp_conj; [by apply (wp_announce_indexed bp bi)|apply (wp_announce_indexed bp (Some (pi_sequence p))); [|done]]|].
  - eapply tables_ok_within; [apply Ht3'| |exact Ht3']. eapply within_newest; [apply Ht3'|done].
  - intros r w4 [[? Hr] [Ht4 _]]. split; [done|]. intros q Hq. by injection (Hr _ Hq) as ->.
Qed.

(** ** One cycle keeps the invariant *)
Definition ix_stored (s : IndexedScheduler) : option Z := indexer_state (ix_store s) !! CHAIN_INDEXED_IPNS_SEQUENCE_STATE_KEY.
(** What the next sequence will exceed. *)
Definition ix_bound (s : IndexedScheduler) : option Z := if ipns_sequence_loaded s then ix_last_ipns_sequence s else ix_stored s.
(** [bp] bounds the POI channel, and [px] is what the store holds for it. *)
Context (bp px : option Z).
Definition indexed_ok (s : IndexedScheduler) w : Prop :=
  pub_inv content bp (ix_bound s) w ∧ within (ix_stored s) (indexed_rows (w_db w)) ∧
  indexer_state (ix_store s) !! IPNS_SEQUENCE_STATE_KEY = px.

Lemma pub_inv_within bi bi' w : within bi' (indexed_rows (w_db w)) → pub_inv content bp bi w → pub_inv content bp bi' w.
Proof. intros Hi [Hw Ht]. split; [done|]. eapply tables_ok_within; [apply Ht|done|exact Ht]. Qed.
Lemma cwp_indexed_answer {A B} (m : Pub A) P (k : A → Cycle IndexedScheduler B) (Q : result string B → IndexedScheduler → World → Prop) s w :
  safe m → yields m P → indexed_ok s w → (∀ e w', indexed_ok s w' → Q (Err e) s w') → (∀ a w', P a → indexed_ok s w' → cwp (k a) Q s w') →
  cwp (pub m ≫= k) Q s w.
Proof.
  intros Hm HP (Hw & Hst & Hpx) He Hk. apply cwp_bind, cwp_pub.
  eapply pub_mono; [apply wp_conj; [apply wp_conj; [apply (hoare_wp _ _ _ _ (Hm _ _) Hw)|apply (hoare_wp _ _ _ _ (Hm bp (ix_stored s)))]|
    by apply (hoare_wp _ _ _ _ HP)]|].
  - by eapply pub_inv_within.
  - intros r w' [[[Hw' _] [[_ Hs'] _]] [_ HPa]]. assert (indexed_ok s w') as Hok by (split_and!; [done|apply Hs'|done]).
    destruct r as [a|e]; [by apply Hk; [apply HPa|]|by apply He].
Qed.
Lemma cwp_indexed {A B} (m : Pub A) (k : A → Cycle IndexedScheduler B) (Q : result string B → IndexedScheduler → World → Prop) s w :
  safe m → indexed_ok s w → (∀ e w', indexed_ok s w' → Q (Err e) s w') → (∀ a w', indexed_ok s w' → cwp (k a) Q s w') → cwp (pub m ≫= k) Q s w.
Proof. intros Hm Hw He Hk. eapply cwp_indexed_answer; [done|apply yields_true|done|done|]. intros a w' _. apply Hk. Qed.
Lemma cwp_get {S A} (k : S → Cycle S A) (Q : result string A → S → World → Prop) s w : cwp (k s) Q s w → cwp (get_scheduler ≫= k) Q s w.
Proof. done. Qed.
Lemma cwp_modify {S A} f (k : unit → Cycle S A) (Q : result string A → S → World → Prop) s w : cwp (k tt) Q (f s) w → cwp (modify f ≫= k) Q s w.
Proof. done. Qed.

Lemma cwp_lift {S A B} (r : result string A) (k : A → Cycle S B) (Q : result string B → S → World → Prop) s w :
  (∀ e, Q (Err e) s w) → (∀ a, r = Ok a → cwp (k a) Q s w) → cwp (pub (lift r) ≫= k) Q s w.
Proof. intros He Hk. apply cwp_bind, cwp_pub. unfold wp, lift. cbn. destruct r; [by apply Hk|apply He]. Qed.

Lemma record_stored db q db' :
  record_chain_indexed_ipns_sequence db q = Ok db' →
  q ≤ i64_max ∧ (∃ v, indexer_state db' !! CHAIN_INDEXED_IPNS_SEQUENCE_STATE_KEY = Some v ∧ q ≤ v ∧
    ∀ u, indexer_state db !! CHAIN_INDEXED_IPNS_SEQUENCE_STATE_KEY = Some u → u ≤ v) ∧
  indexer_state db' !! IPNS_SEQUENCE_STATE_KEY = indexer_state db !! IPNS_SEQUENCE_STATE_KEY.
Proof.
  unfold record_chain_indexed_ipns_sequence, record_state_sequence. intros Hr. apply bind_Ok in Hr as (v & Hv & [= <-]).
  unfold u64_to_i64 in Hv. destruct (decide _) as [Hq|]; [|done]. injection Hv as <-. cbn. rewrite lookup_insert_eq, lookup_insert_ne by done.
  split_and!; [done| |done]. destruct (indexer_state db !! CHAIN_INDEXED_IPNS_SEQUENCE_STATE_KEY) as [u|];
    eexists; split_and!; try done; try lia. intros x [= <-]. lia.
Qed.
Lemma within_stored_mono db db' ms :
  (∃ v, indexer_state db' !! CHAIN_INDEXED_IPNS_SEQUENCE_STATE_KEY = Some v ∧
    ∀ u, indexer_state db !! CHAIN_INDEXED_IPNS_SEQUENCE_STATE_KEY = Some u → u ≤ v) →
  within (indexer_state db !! CHAIN_INDEXED_IPNS_SEQUENCE_STATE_KEY) ms → within (indexer_state db' !! CHAIN_INDEXED_IPNS_SEQUENCE_STATE_KEY) ms.
Proof. intros (v & -> & Hv) Hw m Hm. destruct (Hw m Hm) as (u & Hu & ?). exists v. specialize (Hv u Hu). split; [done|lia]. Qed.

(** A reserved sequence is above all recorded ones. *)
Definition reserved (q : Z) (s : IndexedScheduler) w : Prop :=
  ix_bound s = Some q ∧ below q (indexed_rows (w_db w)) ∧ 0 ≤ q ∧ ∃ v, ix_stored s = Some v ∧ q ≤ v.
Lemma record_sequence_ok q s w :
  ipns_sequence_loaded s = true → (∀ v, q ≤ i64_max → ix_last_ipns_sequence s = Some v → v < q) → 0 ≤ q → indexed_ok s w →
  cwp (_ ← record_sequence store_error q; _ ← modify (with_last true (Some q)); mret q)
    (λ r s' w', indexed_ok s' w' ∧ ∀ q', r = Ok q' → reserved q' s' w') s w.
Proof.
  intros Hl Hlast Hq Hok. pose proof Hok as (Hw & Hst & Hpx).
  apply cwp_bind, cwp_get, cwp_lift; [by split|]. intros store (Hmax & (v & Hv & Hqv & Hold) & Hkey)%map_err_Ok%record_stored.
  assert (∀ s' w', ipns_sequence_loaded s' = true → ix_last_ipns_sequence s' = ix_last_ipns_sequence s → ix_store s' = store →
    indexed_ok s w' → indexed_ok s' w') as Hmore.
  { intros s' w' Hl' Hlast' Hs' (Hw' & Hst' & Hpx'). split_and!.
    - unfold ix_bound in *. rewrite Hl', Hlast'. by rewrite Hl in Hw'.
    - unfold ix_stored. rewrite Hs'. eapply within_stored_mono; [|exact Hst']. eauto.
    - rewrite Hs'. by rewrite Hkey. }
  apply cwp_indexed; [apply safe_readonly, readonly_fault|done|by split|]. intros [] w1 Hw1.
  - apply cwp_indexed; [apply safe_readonly, readonly_fault|done|by split|]. intros applied w2 Hw2.
    apply cwp_bind. destruct applied; cbv [cwp modify mret Cycle_ret pub fail fst snd]; (split; [|done]); [by apply Hmore|done].
  - cbv [cwp modify mbind Cycle_bind mret Cycle_ret fst snd]. destruct Hw1 as (Hw1 & Hst1 & Hpx1).
    destruct (within_below (ix_bound s) q (indexed_rows (w_db w1))) as [Hwi Hb]; [apply Hw1|by unfold ix_bound; rewrite Hl; auto|].
    split; [split_and!|].
    + by eapply pub_inv_within.
    + unfold ix_stored. cbn. rewrite Hv. by eapply within_mono.
    + cbn. by rewrite Hkey.
    + intros q' [= <-]. split_and!; [done..|by exists v].
Qed.
Lemma next_sequence_ok now s w :
  indexed_ok s w → cwp (next_ipns_sequence store_error now) (λ r s' w', indexed_ok s' w' ∧ ∀ q, r = Ok q → reserved q s' w') s w.
Proof.
  intros Hok. apply cwp_get, cwp_bind.
  apply cwp_mono with (Q := λ r s' w', indexed_ok s' w' ∧ (is_ok r → ipns_sequence_loaded s' = true)).
  { destruct (ipns_sequence_loaded s) eqn:Hl; [by split|].
    apply (cwp_indexed_answer _ (λ last, last_chain_indexed_ipns_sequence (ix_store s) = Ok last)); [apply safe_store_read| |done|by split|].
    - apply hoare_seq; [apply yields_true|]. intros []; [apply hoare_fail|]. eapply hoare_mono; [apply hoare_lift|]. by intros last Hr%map_err_Ok.
    - intros last w1 Hlast (Hw1 & Hst1 & Hpx1). cbv [cwp modify fst snd]. split; [|done]. split_and!; [|done..].
      enough (ix_bound (with_last true last s) = ix_bound s) as -> by done. unfold ix_bound. rewrite Hl. cbn. unfold ix_stored.
      unfold last_chain_indexed_ipns_sequence, last_state_sequence in Hlast. destruct (indexer_state (ix_store s) !! _) as [v|]; [|by injection Hlast as <-].
      unfold i64_to_u64 in Hlast. destruct (decide _); [by injection Hlast as <-|done]. }
  intros [[]|e] s1 w1 [Hok1 Hl1]; [|by split]. specialize (Hl1 I). apply cwp_lift; [by split|]. intros millis Hm. apply cwp_get.
  apply record_sequence_ok; [done| | |done].
  - intros v Hmax Hv. rewrite Hv in *. unfold saturating_add in *. unfold i64_max, u64_max in *. lia.
  - assert (0 ≤ millis) as Hpos. { unfold unix_millis in Hm. case_decide; [done|]. apply ok_or_Ok in Hm. unfold try_from in Hm. case_decide; [|done]. injection Hm as <-. apply Z.div_pos; lia. }
    destruct (ix_last_ipns_sequence s1); lia.
Qed.

Lemma readonly_quiet {A} (m : Pub A) w : readonly m → quiet w (m w).2.
Proof. intros Hm. by destruct (Hm w) as [bs ->]. Qed.
Lemma reconcile_ok db s w :
  indexed_ok s w → cwp (reconcile_pending text_leb pin_cid audit_error service_name store_error configured_chains trusted db) (λ r s' w', indexed_ok s' w') s w.
Proof.
  intros (Hw & Hst & Hpx). apply cwp_bind, cwp_pub.
  eapply pub_mono; [apply wp_conj; [apply (wp_reconcile_indexed text_leb pin_cid audit_error service_name); [|apply Hw]|
    apply wp_conj; [apply (wp_reconcile_indexed_tables bp (ix_bound s)), Hw|apply (wp_reconcile_indexed_tables bp (ix_stored s))]]|].
  - intros m w'. apply readonly_quiet, readonly_combined.
  - by apply (pub_inv_within (ix_bound s)).
  - intros r w' [Hok [[Ht1 Hq] [Ht2 _]]]. assert (within (ix_stored s) (indexed_rows (w_db w'))) as Hst' by apply Ht2.
    destruct r as [[q|]|e]; [|by split_and!..]. cbv [cwp modify mret Cycle_ret mbind Cycle_bind fst snd]. split_and!; [|done..].
    split; [done|]. by apply Hq.
Qed.
Lemma announce_entries_ok now db' entries cids s w :
  indexed_ok s w → cwp (announce_entries pin_cid audit_error service_name store_error configured_chains now db' entries cids) (λ _, indexed_ok) s w.
Proof.
  intros Hok. apply cwp_indexed; [apply safe_readonly, readonly_combined|done|done|]. intros _ w1 Hw1. apply cwp_bind.
  eapply cwp_mono; [by apply next_sequence_ok|]. intros [q|e] s2 w2 [Hok2 Hres]; [|done]. specialize (Hres q eq_refl) as (Hbound & Hb & Hq & v & Hv & Hqv).
  apply cwp_lift; [done|]. intros issued _. apply cwp_lift; [done|]. intros json Hjson. apply cwp_bind, cwp_pub.
  destruct Hok2 as (Hw2 & Hst2 & Hpx2). rewrite Hbound in Hw2. apply pub_bind.
  assert (∀ w', pub_inv content bp (Some q) w' → indexed_ok s2 w') as Hcok.
  { intros w' Hw'. split_and!; [by rewrite Hbound| |done]. rewrite Hv. eapply within_mono; [done|apply Hw']. }
  eapply pub_mono; [apply wp_pin_indexed_inv; [by eapply content_manifest|done|done|done]|]. intros [cid|e] w3 [Hw3 Hn]; [|by apply Hcok].
  specialize (Hn cid eq_refl). destruct Hw3 as [Hok3 Ht3].
  eapply pub_mono; [apply wp_conj; [by eapply wp_publish_and_activate|by apply (wp_announce_indexed bp (Some q))]|].
  intros r w4 [Hok4 [Ht4 _]]. destruct r; by apply Hcok.
Qed.
Abbreviation cycle := (publish_cycle text_leb pin_cid audit_error service_name store_error txid_error commitment_error wallet_error checkpoint_error
  txid_row_limit commitment_row_limit configured_chains trusted).
Lemma indexed_cycle_ok fuel now db db' s w : indexed_ok s w → cwp (cycle fuel now db db') (λ _, indexed_ok) s w.
Proof.
  intros Hok. apply cwp_indexed; [apply safe_readonly, readonly_running|done|done|]. intros _ w1 Hw1. apply cwp_bind.
  eapply cwp_mono; [by apply reconcile_ok|]. intros [[]|e] s2 w2 Hw2; [done| |done].
  apply cwp_indexed; [apply safe_entries|done|done|]. intros results w3 Hw3.
  apply cwp_indexed; [apply safe_readonly, readonly_collect|done|done|]. intros [[entries cids]|] w4 Hw4; [|done].
  case_decide; [done|]. apply cwp_bind. eapply cwp_mono; [by apply announce_entries_ok|]. by intros [u|e] s5 w5 Hw5.
Qed.
End cycle.
