(* ===== verification/PublicationRuns.v ===== *)
(** * Runs of the two publishers

    The POI publisher and the chain-indexed publisher share the audit tables,
    the stored sequences and the pins. Any number of publication cycles of
    both, with restarts, retention sweeps, new data and failing calls in
    between: the tables keep the invariant that makes publishing safe, and the
    sequences either publisher announces never go back. Cycles are taken one
    after the other; that pins survive a finer interleaving of their locked
    sections is [published_content_stays_pinned]. *)

From stdpp Require Import sorting.
From S2P Require Import Prelude Order Wire Ipfs Artifacts CommitmentChunk MerkleCheckpointChunk WalletScanChunk PublicTxidChunk ChainLogs PoiStore ChainStore StoreQueries AuditLog Retention Publication PublicationSafety PubLogic ManifestLog Catalog CatalogComplete CatalogRun PoiCorpus PoiGraph PoiCycle IndexedCycle IndexedCycleCorrect.

(** The schedulers and what they share: the store is that of [pb_poi]. *)
Record Publishers := mkPublishers {
  pb_poi : Scheduler;
  pb_loaded : bool;
  pb_last : option Z;
  pb_world : World;
}.
Definition indexed_view (x : Publishers) : IndexedScheduler := mkIndexedScheduler (sd_store (pb_poi x)) (pb_loaded x) (pb_last x).
Definition with_indexed_view (x : Publishers) (s : IndexedScheduler) (w : World) : Publishers :=
  mkPublishers (with_store (ix_store s) (pb_poi x)) (ipns_sequence_loaded s) (ix_last_ipns_sequence s) w.
Definition with_world (x : Publishers) (w : World) : Publishers := mkPublishers (pb_poi x) (pb_loaded x) (pb_last x) w.
(** What a publisher is after a start: the tables are as they were. *)
Definition restarted (s : Scheduler) : Scheduler := mkScheduler (sd_store s) None None true None false.

Section runs.
Context `{ArtifactCrate} `{TreeCrate} `{TxidCrate} `{PoiTypes} `{CidCrate} `{ManifestCrate} `{CatalogCrate} `{!IndexedManifestCrate} `{PoiGraphCrate}.
Context (text_leb : string → string → bool).
Context (pin_cid : bytes → Cid) (audit_error : AuditError → string) (service_name : string) (content : string → CidContent).
Context (store_error : StoreError → string) (publication_error : PublicationError → string) (artifact_error : PoiArtifactError → string).
Context (validate_poi_merkleroots : PoiScope → list bytes → Pub bool) (config : PoiPublisherConfig).
Context (txid_error : PublicTxidChunkError Cid → string).
Context (commitment_error : CommitmentChunkError Cid → string) (wallet_error : WalletScanChunkError Cid → string).
Context (checkpoint_error : MerkleCheckpointArtifactError Cid → string).
Context (txid_row_limit commitment_row_limit : Z) (configured_chains : list ChainIndexedChainConfig) (trusted : bytes).
Abbreviation content_of bs := (content (cid_to_string (pin_cid bs))).

Abbreviation poi_cycle := (PoiGraph.publish_cycle text_leb pin_cid audit_error service_name store_error publication_error artifact_error
  validate_poi_merkleroots config).
Abbreviation indexed_cycle := (IndexedCycle.publish_cycle text_leb pin_cid audit_error service_name store_error txid_error commitment_error
  wallet_error checkpoint_error txid_row_limit commitment_row_limit configured_chains trusted).

(** A cycle of either publisher at any time the clock shows, with any outcome;
    the scraper writing to its tables; the retention sweep; a restart; a
    shutdown; time, failing calls and the pins of others. *)
Inductive publisher_step : Publishers → Publishers → Prop :=
  | step_poi_cycle now x :
      publisher_step x (mkPublishers (poi_cycle now (pb_poi x) (pb_world x)).1.2 (pb_loaded x) (pb_last x) (poi_cycle now (pb_poi x) (pb_world x)).2)
  | step_indexed_cycle fuel now db db' x :
      publisher_step x (with_indexed_view x (indexed_cycle fuel now db db' (indexed_view x) (pb_world x)).1.2
        (indexed_cycle fuel now db db' (indexed_view x) (pb_world x)).2)
  | step_scrape store x : indexer_state store = indexer_state (sd_store (pb_poi x)) →
      publisher_step x (mkPublishers (with_store store (pb_poi x)) (pb_loaded x) (pb_last x) (pb_world x))
  | step_restart x : publisher_step x (mkPublishers (restarted (pb_poi x)) false None (pb_world x))
  | step_publisher_sweep cutoff swept_at c x : publisher_step x (with_world x (locked_sweep audit_error cutoff swept_at c (pb_world x)).2)
  | step_publisher_retry c x : publisher_step x (with_world x (locked_retry audit_error c (pb_world x)).2)
  | step_stop x : publisher_step x (with_world x (stop_new_pin_ownership (pb_world x)).2)
  | step_outside others faults now x :
      publisher_step x (with_world x (mkWorld (w_db (pb_world x)) (others ∪ w_pins (pb_world x)) (w_accepting (pb_world x))
        (w_active (pb_world x)) (w_dropped (pb_world x)) (w_indoubt (pb_world x)) (w_ipns (pb_world x)) faults now)).

Context (validate_readonly : ∀ scope roots, readonly (validate_poi_merkleroots scope roots)).
Context (content_event : ∀ a bs, event_artifact_to_bytes a = Ok bs → content_of bs = ArtifactContent)
  (content_poi_catalog : ∀ c bs, catalog_to_bytes c = Ok bs → content_of bs = ArtifactContent)
  (content_blocked : ∀ scope records bs, blocked_shields_bytes scope records = Ok bs → content_of bs = ArtifactContent)
  (content_poi_manifest : ∀ issued q entries bs, signed_manifest_bytes issued q entries = Ok bs → content_of bs = PoiManifestContent q)
  (content_chunk : ∀ env compression bs, encode_chunk_bytes env compression = Ok bs → content_of bs = ArtifactContent)
  (content_catalog : ∀ catalog bs, deterministic_body_bytes catalog = Ok bs → content_of bs = ArtifactContent)
  (content_manifest : ∀ issued q entries json, signed_manifest_json issued q entries = Ok json → content_of (json_bytes json) = IndexedManifestContent q).

Abbreviation indexed_rows x := (ch_manifests (au_indexed (w_db (pb_world x)))).
(** The invariant of a run. *)
Definition run_ok (x : Publishers) : Prop :=
  pub_inv content (stored_sequence (pb_poi x)) (ix_bound (indexed_view x)) (pb_world x) ∧ within (ix_stored (indexed_view x)) (indexed_rows x).

Lemma run_ok_poi now x : run_ok x →
  run_ok (mkPublishers (poi_cycle now (pb_poi x) (pb_world x)).1.2 (pb_loaded x) (pb_last x) (poi_cycle now (pb_poi x) (pb_world x)).2).
Proof.
  intros [Hw Hst]. set (s' := (poi_cycle now (pb_poi x) (pb_world x)).1.2).
  assert (∀ bi, pub_inv content (stored_sequence (pb_poi x)) bi (pb_world x) →
    pub_inv content (stored_sequence s') bi (poi_cycle now (pb_poi x) (pb_world x)).2 ∧
    indexer_state (sd_store s') !! CHAIN_INDEXED_IPNS_SEQUENCE_STATE_KEY = ix_stored (indexed_view x)) as Hcycle.
  { intros bi Hbi. pose proof (publish_cycle_ok text_leb pin_cid audit_error service_name content store_error publication_error artifact_error
      validate_poi_merkleroots config validate_readonly content_event content_poi_catalog content_blocked content_poi_manifest bi
      (ix_stored (indexed_view x)) now (pb_poi x) (pb_world x) (conj Hbi eq_refl)) as Hc. exact Hc. }
  destruct (Hcycle _ Hw) as [Hw1 Hix]. destruct (Hcycle (ix_stored (indexed_view x))) as [[_ Hs1] _].
  { destruct Hw as [Hok Ht]. split; [done|]. eapply tables_ok_within; [apply Ht|done|exact Ht]. }
  split; unfold ix_bound, ix_stored in *; cbn [indexed_view ix_store ipns_sequence_loaded ix_last_ipns_sequence pb_poi pb_loaded pb_last pb_world] in *;
    fold s'; rewrite Hix; [exact Hw1|apply Hs1].
Qed.
Lemma run_ok_indexed fuel now db db' x : run_ok x →
  run_ok (with_indexed_view x (indexed_cycle fuel now db db' (indexed_view x) (pb_world x)).1.2
    (indexed_cycle fuel now db db' (indexed_view x) (pb_world x)).2).
Proof.
  intros [Hw Hst]. set (s' := (indexed_cycle fuel now db db' (indexed_view x) (pb_world x)).1.2).
  assert (indexed_ok content (stored_sequence (pb_poi x)) (stored_sequence (pb_poi x)) s'
    (indexed_cycle fuel now db db' (indexed_view x) (pb_world x)).2) as (Hw1 & Hst1 & Hpx).
  { pose proof (indexed_cycle_ok text_leb pin_cid audit_error service_name store_error txid_error commitment_error wallet_error checkpoint_error
      txid_row_limit commitment_row_limit configured_chains trusted content content_chunk content_catalog content_manifest
      (stored_sequence (pb_poi x)) (stored_sequence (pb_poi x)) fuel now db db' (indexed_view x) (pb_world x) (conj Hw (conj Hst eq_refl))) as Hc. exact Hc. }
  split; [|exact Hst1]. cbn [with_indexed_view pb_poi pb_world]. unfold stored_sequence at 1. cbn [with_store sd_store]. fold s'. by rewrite Hpx.
Qed.
Lemma run_ok_world x w' :
  (∀ bp bi, pub_inv content bp bi (pb_world x) → pub_inv content bp bi w') → run_ok x → run_ok (with_world x w').
Proof.
  intros Hw' [Hw Hst]. split; [by apply Hw'|]. destruct (Hw' (stored_sequence (pb_poi x)) (ix_stored (indexed_view x))) as [_ Ht]; [|apply Ht].
  destruct Hw as [Hok Ht]. split; [done|]. eapply tables_ok_within; [apply Ht|done|exact Ht].
Qed.

Lemma publisher_step_ok x y : publisher_step x y → run_ok x → run_ok y.
Proof.
  intros Hs. destruct Hs as [now x|fuel now db db' x|store x Hseq|x|cutoff swept_at c x|c x|x|others faults now x].
  - apply run_ok_poi.
  - apply run_ok_indexed.
  - intros [Hw Hst]. unfold run_ok, stored_sequence, ix_bound, ix_stored in *. cbn [pb_poi with_store sd_store indexed_view ix_store
      ipns_sequence_loaded ix_last_ipns_sequence pb_loaded pb_last pb_world] in *. by rewrite Hseq.
  - intros [[Hok Ht] Hst]. split; [|exact Hst]. split; [done|]. eapply tables_ok_within; [apply Ht|exact Hst|exact Ht].
  - apply run_ok_world. intros bp bi [Hok Ht]. split; [by apply (wp_locked_sweep audit_error cutoff swept_at c)|by apply (sweep_tables _ _ _ _ cutoff swept_at c)].
  - apply run_ok_world. intros bp bi [Hok Ht]. split; [by apply (wp_locked_retry audit_error c)|by apply (retry_tables _ _ _ _ c)].
  - apply run_ok_world. by intros bp bi [Hok Ht].
  - apply run_ok_world. intros bp bi [[Haudit Hact] Ht]. split; [|done]. split; [|done]. cbn. eapply content_ok_mono; [|done]. set_solver.
Qed.

(** What a run leaves of a channel: sequences increase and are reserved in the
    store; what was announced is a recorded manifest, in order. *)
Definition channel_record (stored : option Z) (kind : CidContent → bool) (ms : list ManifestRow) (anns : list (string * Z)) : Prop :=
  StronglySorted Z.lt (mf_ipns_sequence <$> ms) ∧ within stored ms ∧
  Forall (λ a, ∃ m, m ∈ ms ∧ mf_cid m = a.1 ∧ mf_ipns_sequence m = a.2) (filter (λ a, kind (content a.1)) anns) ∧
  StronglySorted Z.le (filter (λ a, kind (content a.1)) anns).*2.

(** C10. Runs of the publishers. From empty audit tables, whatever is stored, and
    whatever cycles of the two publishers run at whatever time the clock shows,
    with restarts, sweeps, newly scraped data, a shutdown and failing calls in
    between, the commit of a sweep after its unpin included: every manifest that
    is not superseded is pinned together with its artifacts, in both channels,
    where only a POI manifest that is not announced may miss artifacts in doubt,
    those a sweep unpinned without being able to commit that; the sequences of the recorded manifests of a
    channel strictly increase and are all reserved in the store; what IPNS was
    told to serve is always a recorded manifest of one of the channels under its
    own sequence, and the announced sequences of a channel never go back. *)
Theorem publication_runs_safe s pins faults now x :
  rtc publisher_step (mkPublishers s false None (initial_world pins faults now)) x →
  served (au_poi (w_db (pb_world x))) (w_pins (pb_world x) ∪ w_indoubt (pb_world x)) ∧
  served_announced (au_poi (w_db (pb_world x))) (w_pins (pb_world x)) ∧ served (au_indexed (w_db (pb_world x))) (w_pins (pb_world x)) ∧
  channel_record (stored_sequence (pb_poi x)) is_poi (ch_manifests (au_poi (w_db (pb_world x)))) (w_ipns (pb_world x)) ∧
  channel_record (ix_stored (indexed_view x)) is_indexed (indexed_rows x) (w_ipns (pb_world x)) ∧
  Forall (λ a, is_poi (content a.1) ∨ is_indexed (content a.1)) (w_ipns (pb_world x)).
Proof.
  intros Hrun. assert (run_ok (mkPublishers s false None (initial_world pins faults now))) as H0ok.
  { split; [split; [apply initial_ok|apply initial_tables]|]. by intros m Hm%not_elem_of_nil. }
  assert (run_ok x) as [[[Hok _] Ht] Hst].
  { clear -Hrun H0ok validate_readonly content_event content_poi_catalog content_blocked content_poi_manifest content_chunk content_catalog content_manifest.
    induction Hrun as [|a b c Hs _ IH]; [done|]. by apply IH, (publisher_step_ok a). }
  destruct Ht as [_ Hpoi Hind Han].
  destruct (content_served _ _ _ Hok) as (? & ? & ?). split_and!; [done..| | |exact Han]; split_and!; [apply Hpoi|apply Hpoi|apply Hpoi|apply Hpoi|apply Hind|exact Hst|apply Hind|apply Hind].
Qed.
End runs.

(** ** A run *)
#[local] Existing Instance toy_tree.
#[local] Existing Instance toy_cids.
#[local] Existing Instance toy_manifest_crate.
#[local] Existing Instance ScrapeWorker.toy_crate.
Definition toy_blocked (cid : string) : BlockedShieldsDescriptor :=
  mkBlockedDescriptor (mkArtifactDescriptor cid [] 2) 4 toy_poi_scope 0 CanonicalJson Identity.
Definition toy_empty_entry : PoiArtifactManifestEntry :=
  mkEntry toy_poi_scope 0 None None (mkCatalogDescriptor (mkArtifactDescriptor (toy_pin [Byte.x00]) [] 1) 0 None 0) None []
    (toy_blocked (toy_pin [Byte.x62; Byte.x00])).
#[local] Instance toy_cycle_entries : PoiV4Crate := {|
  ManifestEntry := PoiArtifactManifestEntry;
  entry_scope := me_scope;
  entry_validate _ := Ok tt;
  entry_to_json _ := Ok "entry"%string;
  entry_from_json _ := Ok toy_empty_entry;
  json_checkpoint_cid _ := None;
  retained_bridge_cids e := bridge_cids (me_retained_bridges e);
|}.
#[local] Instance toy_cycle_graph : PoiGraphCrate := {|
  POI_ARTIFACT_FORMAT_VERSION := 4;
  MAX_RETAINED_BRIDGES := 8%nat;
  entry_fields := id;
  make_entry := id;
  entry_fields_make _ := eq_refl;
  entry_scope_make _ := eq_refl;
  blocked_shields_bytes _ records := Ok [Byte.x62; byte_of_Z (Z.of_nat (length records))];
  blocked_descriptor_validate _ := Ok tt;
  artifact_descriptor_from_bytes cid bs := mkArtifactDescriptor cid [] (Z.of_nat (length bs));
  artifact_descriptor_cid _ _ := eq_refl;
  event_descriptor_json _ := Ok "event"%string;
  catalog_descriptor_json _ := Ok "catalog"%string;
  blocked_descriptor_json _ := Ok "blocked"%string;
  entries_json entries := Ok [byte_of_Z (Z.of_nat (length entries))];
  crate_scope_leb _ _ := true;
  signed_manifest_bytes issued sequence entries :=
    if decide (is_u64 sequence) then Ok (json_bytes "m" ++ le_bytes 8 sequence) else Err "sequence"%string;
|}.
(** Chunks and catalogs are tagged. *)
#[local] Instance tagged_crate : ArtifactCrate := {|
  MAX_COMPRESSED_CHUNK_BYTES := 10 * 2 ^ 20;
  CHUNK_FORMAT_VERSION := 1;
  encode_chunk_bytes := λ env _, Ok (Byte.x61 :: le_bytes 8 (header_payload_len (envelope_header env)) ++ envelope_payload env);
  decode_chunk_bytes := λ _ _, Err (ChunkCodec 0);
  section_payload := plain_section;
  sha256 := λ bs, take 4 bs;
|}.
#[local] Instance tagged_catalogs : CatalogCrate := {|
  INDEXED_ARTIFACT_CATALOG_FORMAT_VERSION := 1;
  plan_chunks items := Ok (plan_alone <$> items);
  plan_chunks_groups := plan_alone_groups;
  Catalog.catalog_new := λ kind scope chunks, Catalog.mkCatalog kind scope chunks;
  deterministic_body_bytes := λ catalog, Ok (Byte.x61 :: concat (json_bytes ∘ desc_cid <$> cat_chunks catalog));
|}.
#[local] Instance toy_indexed_manifests : IndexedManifestCrate := {|
  INDEXED_ARTIFACT_MANIFEST_FORMAT_VERSION := 1;
  manifest_chains _ := [];
  signed_manifest_json issued sequence entries :=
    if decide (is_u64 sequence) then Ok (String.string_of_list_byte (Byte.x69 :: le_bytes 8 sequence)) else Err "sequence"%string;
|}.
(** The first byte tells what longer contents are. *)
Definition toy_content (c : string) : CidContent :=
  let bs := String.list_byte_of_string c in
  if decide (length bs ≤ 2)%nat then ArtifactContent
  else match bs with
       | Byte.x6d :: bs => PoiManifestContent (le_value bs)
       | Byte.x69 :: bs => IndexedManifestContent (le_value bs)
       | _ => ArtifactContent
       end.
Lemma toy_content_of bs : toy_content (toy_pin bs) =
  if decide (length bs ≤ 2)%nat then ArtifactContent
  else match bs with
       | Byte.x6d :: bs => PoiManifestContent (le_value bs)
       | Byte.x69 :: bs => IndexedManifestContent (le_value bs)
       | _ => ArtifactContent
       end.
Proof. unfold toy_content, toy_pin. by rewrite String.list_byte_of_string_of_list_byte. Qed.
Lemma toy_content_short bs : (length bs ≤ 2)%nat → toy_content (toy_pin bs) = ArtifactContent.
Proof. intros Hl. rewrite toy_content_of. by rewrite decide_True. Qed.
Lemma toy_content_tagged bs : toy_content (toy_pin (Byte.x61 :: bs)) = ArtifactContent.
Proof. rewrite toy_content_of. by case_decide. Qed.
Lemma toy_content_poi issued q entries bs :
  signed_manifest_bytes issued q entries = Ok bs → toy_content (toy_pin bs) = PoiManifestContent q.
Proof.
  cbn [signed_manifest_bytes toy_cycle_graph]. case_decide as Hq; [|done]. intros Hbs.
  assert (bs = Byte.x6d :: le_bytes 8 q) as -> by (by injection Hbs as <-). rewrite toy_content_of, decide_False by (cbn [length]; rewrite length_le_bytes; lia).
  f_equal. apply le_value_le_bytes_small. unfold is_u64, u64_max in Hq. lia.
Qed.
Lemma toy_content_indexed issued q entries json :
  signed_manifest_json issued q entries = Ok json → toy_content (toy_pin (json_bytes json)) = IndexedManifestContent q.
Proof.
  cbn [signed_manifest_json toy_indexed_manifests]. case_decide as Hq; [|done]. intros [= <-]. cbn [json_bytes toy_manifest_crate].
  rewrite String.list_byte_of_string_of_list_byte, toy_content_of, decide_False by (cbn [length]; rewrite length_le_bytes; lia).
  f_equal. apply le_value_le_bytes_small. unfold is_u64, u64_max in Hq. lia.
Qed.

Definition toy_one_dataset : ChainIndexedChainConfig := mkChainConfig 1 192 5 [WalletScan] [].
(** Its blocks are indexed through block 300; one has a nullifier. *)
Definition toy_indexed_tables : ChainDb :=
  mkChainDb ∅ ∅ (indexed_nullifiers toy_tables) ∅ ∅ ∅ ∅ ∅ {[ (0, 1, 300) := (999, 998) ]}
    {[ (toy_scope, dataset_kind_as_str DWalletScan) := (300, 999) ]}.
Abbreviation toy_pinning := (toy_pin : bytes → Cid (CidCrate := toy_cids)).
Definition toy_poi_config : PoiPublisherConfig := mkPoiConfig [7] [1] "V2" "https://poi" (3600 * 10 ^ 9) (3600 * 10 ^ 9).
Abbreviation toy_poi_cycle now := (PoiGraph.publish_cycle (λ _ _, true) toy_pinning shown "toy" shown shown shown (λ _ _, mret true) toy_poi_config now).
Abbreviation toy_indexed_cycle now := (IndexedCycle.publish_cycle (λ _ _, true) toy_pinning shown "toy" shown shown shown shown shown 1 2 [toy_one_dataset] [] 4 now toy_indexed_tables toy_indexed_tables).
Abbreviation toy_step := (publisher_step (λ _ _, true) toy_pinning shown "toy" shown shown shown (λ _ _, mret true) toy_poi_config shown shown shown shown 1 2 [toy_one_dataset] []).

(** A cycle of each publisher, a restart, and a cycle of the second one with the
    clock set back. *)
Definition toy_start : Publishers := mkPublishers (mkScheduler empty_db None None true None false) false None (initial_world ∅ [] 10).
Definition toy_after_poi (now : Z) (x : Publishers) : Publishers :=
  mkPublishers (toy_poi_cycle now (pb_poi x) (pb_world x)).1.2 (pb_loaded x) (pb_last x) (toy_poi_cycle now (pb_poi x) (pb_world x)).2.
Definition toy_after_indexed (now : Z) (x : Publishers) : Publishers :=
  with_indexed_view x (toy_indexed_cycle now (indexed_view x) (pb_world x)).1.2 (toy_indexed_cycle now (indexed_view x) (pb_world x)).2.
Definition toy_once : Publishers := toy_after_indexed (7200 * 10 ^ 9) (toy_after_poi (10 ^ 9) toy_start).
Definition toy_again : Publishers := mkPublishers (restarted (pb_poi toy_once)) false None (pb_world toy_once).
Definition toy_run : Publishers := toy_after_indexed (10 ^ 9) toy_again.
Lemma toy_step_poi now x : toy_step x (toy_after_poi now x).
Proof. apply step_poi_cycle. Qed.
Lemma toy_step_indexed now x : toy_step x (toy_after_indexed now x).
Proof. apply step_indexed_cycle. Qed.
Lemma toy_step_restart : toy_step toy_once toy_again.
Proof. apply step_restart. Qed.

Lemma publication_runs_safe_witness :
  (w_ipns (pb_world toy_run)).*2 = [1000; 7200000; 7200001] ∧
  served (au_indexed (w_db (pb_world toy_run))) (w_pins (pb_world toy_run)).
Proof.
  split; [vm_compute; reflexivity|].
  refine (proj1 (proj2 (proj2 (publication_runs_safe (λ _ _, true) toy_pinning shown "toy" toy_content shown shown shown (λ _ _, mret true) toy_poi_config
    shown shown shown shown 1 2 [toy_one_dataset] [] _ _ _ _ toy_content_poi _ _ toy_content_indexed _ ∅ [] 10 toy_run _)))).
  - intros scope roots. apply readonly_ret.
  - intros a bs [= <-]. apply toy_content_short; repeat constructor.
  - intros c bs [= <-]. apply toy_content_short; repeat constructor.
  - intros scope records bs [= <-]. apply toy_content_short; repeat constructor.
  - intros env c bs [= <-]. apply toy_content_tagged.
  - intros catalog bs [= <-]. apply toy_content_tagged.
  - apply (rtc_l _ _ (toy_after_poi (10 ^ 9) toy_start)); [apply toy_step_poi|]. apply (rtc_l _ _ toy_once); [apply toy_step_indexed|].
    apply (rtc_l _ _ toy_again); [apply toy_step_restart|]. apply rtc_once, toy_step_indexed.
Defined.
