(* ===== verification/CanonicalLease.v ===== *)
(** * Indexing and publishing under the canonicality lease

    The indexing tasks of the chains and the chain-indexed publisher share the
    chain tables. [ChainCanonicalityCoordinator] ([audit.rs]) is a lock with one
    writer or several readers: a task rewinds its chain under the writer's side,
    and a manifest is checked and announced under a reader's lease that travels
    with the request into the IPNS task and is given back when the last clone is
    dropped. Appending a range takes no lease. A run is any sequence of actions
    of the tasks, in any order; an action that is not possible does nothing.
    Every request to a node may be answered by another view of the chain. *)

From S2P Require Import Prelude Order Wire Ipfs Artifacts CommitmentChunk MerkleCheckpointChunk WalletScanChunk PublicTxidChunk ChainLogs LogFilters.
From S2P Require Import ActionFrames ActionGrammar OutputMatch Calldata Traces Hydrate PoiStore ChainStore ChainIndexer StoreQueries AuditLog Retention.
From S2P Require Import Publication PublicationSafety PubLogic ManifestLog Catalog PoiGraph IndexedCycle.

(** Where the indexing task of a chain is. *)
Inductive IndexerPc := PcResume | PcWantReorg | PcReorg | PcAppend (from_block : Z).
(** Where the publisher is: the entries it holds a lease for, checked or not. *)
Inductive PublisherPc := PubIdle | PubHeld (entries : list IndexedArtifactChainEntry) | PubValidated (entries : list IndexedArtifactChainEntry).
Record System := mkSystem {
  sy_db : ChainDb;
  sy_indexers : list IndexerPc;
  (** the task that holds the reorganisation lease *)
  sy_writer : option nat;
  sy_publisher : PublisherPc;
  (** requests in the IPNS task, each with its clone of the lease *)
  sy_requests : list (list IndexedArtifactChainEntry);
  (** records put, with the chain tables at that moment *)
  sy_puts : list (list IndexedArtifactChainEntry * ChainDb);
}.
Definition with_indexer (i : nat) (pc : IndexerPc) (db : ChainDb) (writer : option nat) (st : System) : System :=
  mkSystem db (<[i := pc]> (sy_indexers st)) writer (sy_publisher st) (sy_requests st) (sy_puts st).
Definition with_publisher (pc : PublisherPc) (requests : list (list IndexedArtifactChainEntry)) (st : System) : System :=
  mkSystem (sy_db st) (sy_indexers st) (sy_writer st) pc requests (sy_puts st).

(** A reader's lease is out. *)
Definition leased (st : System) : Prop := sy_publisher st ≠ PubIdle ∨ sy_requests st ≠ [].
#[export] Instance leased_dec st : Decision (leased st).
Proof.
  unfold leased. destruct (sy_publisher st) eqn:Hp; [|left; left; congruence..].
  destruct (sy_requests st) eqn:Hr; [right; by intros [?|?]|left; by right].
Defined.

Section system.
Context `{PoiTypes} `{PersistCrate} `{CalldataCrate} `{HexStrings} `{TreeCrate}.
Context (visit : gmap Z TransactOutputSummary → list TransactOutputSummary).
Context (store_error : StoreError → string).
(** the configured chains: their indexing tasks, and the publisher's view of them *)
Context (tasks : list ChainIndexConfig) (configured_chains : list ChainIndexedChainConfig).

Inductive Action :=
  (** the check of the stored progress against a node *)
  | Check (i : nat) (archive : ChainView)
  | ReorgLease (i : nat)
  (** the second check, the rewind and the end of the lease *)
  | Reorg (i : nat) (archive : ChainView) (commit : option StoreError)
  | Append (i : nat) (view : ChainView) (commit : option StoreError) (safe_head to_block : Z)
  | PublicationLease (entries : list IndexedArtifactChainEntry)
  | Validate (faults : World)
  | Submit
  (** the publisher drops its guard: it is done, or failed, or was cancelled *)
  | Release
  | Put (request : nat)
  (** the IPNS task is done with a request *)
  | Settle (request : nat).

(** [resume_block_after_reorg] up to the lease: where it goes on. *)
Definition check (cfg : ChainIndexConfig) (archive : ChainView) (db : ChainDb) : iresult IndexerPc :=
  progress ← wallet_scan_progress cfg db;
  match progress with
  | None => Ok (PcAppend (ic_start_block cfg))
  | Some progress =>
      remote ← fetch_block_header archive (indexed_through_block progress);
      Ok (if decide (bh_block_hash remote = indexed_through_block_hash progress)
          then PcAppend (saturating_add u64_max (indexed_through_block progress) 1) else PcWantReorg)
  end.
(** Under the lease: progress and header are read again before the rewind. *)
Definition reorg (cfg : ChainIndexConfig) (archive : ChainView) (commit : option StoreError) (db : ChainDb) : iresult (IndexerPc * ChainDb) :=
  progress ← wallet_scan_progress cfg db;
  match progress with
  | None => Ok (PcResume, db)
  | Some progress =>
      remote ← fetch_block_header archive (indexed_through_block progress);
      if decide (bh_block_hash remote = indexed_through_block_hash progress)
      then Ok (PcAppend (saturating_add u64_max (indexed_through_block progress) 1), db)
      else db ← rewind_transaction commit cfg archive db (replay_from cfg (indexed_through_block progress)); Ok (PcResume, db)
  end.

Definition act (st : System) (a : Action) : System :=
  match a with
  | Check i archive =>
      match tasks !! i, sy_indexers st !! i with
      | Some cfg, Some PcResume =>
          match check cfg archive (sy_db st) with Ok pc => with_indexer i pc (sy_db st) (sy_writer st) st | Err _ => st end
      | _, _ => st
      end
  | ReorgLease i =>
      match sy_indexers st !! i, sy_writer st with
      | Some PcWantReorg, None => if decide (leased st) then st else with_indexer i PcReorg (sy_db st) (Some i) st
      | _, _ => st
      end
  | Reorg i archive commit =>
      match tasks !! i, sy_indexers st !! i with
      | Some cfg, Some PcReorg =>
          match reorg cfg archive commit (sy_db st) with
          | Ok (pc, db) => with_indexer i pc db None st
          | Err _ => with_indexer i PcResume (sy_db st) None st
          end
      | _, _ => st
      end
  | Append i view commit safe_head to_block =>
      match tasks !! i, sy_indexers st !! i with
      | Some cfg, Some (PcAppend from_block) =>
          if decide (from_block ≤ to_block) then
            match index_chain_range_with_provider visit commit cfg (sy_db st) view safe_head from_block to_block with
            | Ok (_, db) => with_indexer i PcResume db (sy_writer st) st
            | Err _ => with_indexer i PcResume (sy_db st) (sy_writer st) st
            end
          else with_indexer i PcResume (sy_db st) (sy_writer st) st
      | _, _ => st
      end
  | PublicationLease entries =>
      match sy_publisher st, sy_writer st with PubIdle, None => with_publisher (PubHeld entries) (sy_requests st) st | _, _ => st end
  | Validate w =>
      match sy_publisher st with
      | PubHeld entries =>
          match (validate_combined_manifest_snapshot store_error (sy_db st) configured_chains entries w).1 with
          | Ok _ => with_publisher (PubValidated entries) (sy_requests st) st
          | Err _ => with_publisher PubIdle (sy_requests st) st
          end
      | _ => st
      end
  | Submit => match sy_publisher st with PubValidated entries => with_publisher (PubValidated entries) (sy_requests st ++ [entries]) st | _ => st end
  | Release => with_publisher PubIdle (sy_requests st) st
  | Put k =>
      match sy_requests st !! k with
      | Some entries => mkSystem (sy_db st) (sy_indexers st) (sy_writer st) (sy_publisher st) (sy_requests st) (sy_puts st ++ [(entries, sy_db st)])
      | None => st
      end
  | Settle k => with_publisher (sy_publisher st) (delete k (sy_requests st)) st
  end.
Definition run_system (actions : list Action) (st : System) : System := foldl act st actions.
Definition started (db : ChainDb) : System := mkSystem db ((λ _, PcResume) <$> tasks) None PubIdle [] [].

(** ** The tables of one chain *)
Abbreviation scope_of_task cfg := (EVM_CHAIN, ic_chain_id cfg, ic_railgun_contract cfg).
Abbreviation progress_at db cfg kind := (chain_indexing_progress_table db !! (scope_of_task cfg, dataset_kind_as_str kind)).
(** No stored header is beyond the progress, so an appended one replaces none. *)
Record chain_ok (cfg : ChainIndexConfig) (db : ChainDb) : Prop := {
  co_start : 0 ≤ ic_start_block cfg;
  co_uniform : progress_uniform cfg db;
  co_progress b h : progress_at db cfg DWalletScan = Some (b, h) → ic_start_block cfg ≤ b ≤ i64_max;
  co_headers n v : indexed_block_headers db !! (EVM_CHAIN, ic_chain_id cfg, n) = Some v →
    ic_start_block cfg ≤ n ∧ ∃ b h, progress_at db cfg DWalletScan = Some (b, h) ∧ n ≤ b;
}.
Definition pc_ok (cfg : ChainIndexConfig) (db : ChainDb) (pc : IndexerPc) : Prop :=
  match pc with
  | PcAppend from => ic_start_block cfg ≤ from ∧ ∀ b h, progress_at db cfg DWalletScan = Some (b, h) → b < from
  | _ => True
  end.
Lemma chain_resumable cfg db : chain_ok cfg db → resumable cfg db.
Proof.
  intros [Hs Hu Hp Hh]. split; [done|exact Hp|].
  destruct (indexed_block_headers db !! (EVM_CHAIN, ic_chain_id cfg, ic_start_block cfg - 1)) as [v|] eqn:E; [|done].
  apply Hh in E as [? _]. lia.
Qed.

(** What an action of one task leaves to the others. *)
Definition frame (cfg : ChainIndexConfig) (db db' : ChainDb) : Prop :=
  (∀ n, indexed_block_headers db' !! (EVM_CHAIN, ic_chain_id cfg, n) = indexed_block_headers db !! (EVM_CHAIN, ic_chain_id cfg, n)) ∧
  ∀ k, chain_indexing_progress_table db' !! (scope_of_task cfg, k) = chain_indexing_progress_table db !! (scope_of_task cfg, k).
Lemma frame_ok cfg db db' pc : frame cfg db db' → chain_ok cfg db → pc_ok cfg db pc → chain_ok cfg db' ∧ pc_ok cfg db' pc.
Proof.
  intros [Hh Hp] [Hs Hu Hb Hn] Hpc. split.
  - split; [done|intros kind; rewrite !Hp; apply Hu|intros b h; rewrite Hp; apply Hb|].
    intros n v. rewrite Hh, Hp. apply Hn.
  - destruct pc; try done. destruct Hpc as [? Hpc]. split; [done|]. intros b h. rewrite Hp. apply Hpc.
Qed.

Lemma record_progress_frame db cfg kind b h db' k :
  record_chain_indexing_progress db EVM_CHAIN (ic_chain_id cfg) (ic_railgun_contract cfg) kind b h = Ok db' →
  k.1 ≠ scope_of_task cfg → chain_indexing_progress_table db' !! k = chain_indexing_progress_table db !! k.
Proof.
  unfold record_chain_indexing_progress, scope_of. intros Hr Hk. apply bind_Ok in Hr as (sc & Hs & Hr).
  apply bind_Ok in Hs as (c & [_ ->]%u64_to_i64_Ok & [= <-]). apply bind_Ok in Hr as (bb & _ & [= <-]).
  assert (∀ v, <[(scope_of_task cfg, dataset_kind_as_str kind) := v]> (chain_indexing_progress_table db) !! k = chain_indexing_progress_table db !! k) as Hi
    by (intros v; apply lookup_insert_ne; by intros <-).
  repeat case_match; try done; apply Hi.
Qed.
Lemma append_progress_frame commit cfg db view safe from to step db' k :
  index_chain_range_with_provider visit commit cfg db view safe from to = Ok (step, db') →
  k.1 ≠ scope_of_task cfg → chain_indexing_progress_table db' !! k = chain_indexing_progress_table db !! k.
Proof.
  intros Hr Hk. unfold index_chain_range_with_provider in Hr. apply bind_Ok in Hr as (hd & _ & Hr).
  apply bind_Ok in Hr as ([oc d] & Hir & [= <- <-]). unfold index_chain_log_range in Hir. apply bind_Ok in Hir as ([logs batch] & _ & Hir).
  apply bind_Ok in Hir as (tx & Htx & Hir). apply map_err_Ok in Htx. apply bind_Ok in Hir as (d' & Hc & [= <- <-]).
  unfold commit_chain in Hc. destruct commit; [done|]. injection Hc as <-. unfold range_transaction in Htx.
  cbn [rg_chain_type rg_chain_id rg_railgun_contract rg_indexed_block_headers rg_to_block rg_indexed_through_block_hash] in Htx.
  apply bind_Ok in Htx as (rows & [_ Kp]%persist_keeps & Htx). apply bind_Ok in Htx as (d1 & Hhd & Hpr).
  cbn [try_fold] in Hhd. apply bind_Ok in Hhd as (d2 & (_ & Kh & _)%record_header_Ok & [= <-]).
  rewrite <- Kp, <- Kh. revert Hpr.
  apply (try_fold_inv (λ t, chain_indexing_progress_table t !! k = chain_indexing_progress_table d2 !! k)); [|done].
  intros s kind s' _ Hs Hrec. by rewrite (record_progress_frame _ _ _ _ _ _ _ Hrec Hk).
Qed.

(** Appending after the progress: a new header, and nothing of the others. *)
Lemma append_ok commit cfg db view safe from to step db' :
  chain_ok cfg db → pc_ok cfg db (PcAppend from) → from ≤ to →
  index_chain_range_with_provider visit commit cfg db view safe from to = Ok (step, db') →
  chain_ok cfg db' ∧ indexed_block_headers db ⊆ indexed_block_headers db' ∧
  ∀ cfg', ic_chain_id cfg' ≠ ic_chain_id cfg → frame cfg' db db'.
Proof.
  intros Hok [Hsf Hpc] Hft Hr. pose proof Hr as Hr0. destruct Hok as [Hs Hu Hp Hh].
  apply index_range_Ok in Hr as (fetched & (hash & parent & logs & batch & rows & _ & _ & _ & _ & _ & Hi & Hhead & Hall) & _);
    [|done|intros b h Hb; specialize (Hpc b h Hb); lia].
  assert (indexed_block_headers db !! (EVM_CHAIN, ic_chain_id cfg, to) = None) as Hnew.
  { destruct (indexed_block_headers db !! _) as [v|] eqn:E; [|done]. apply Hh in E as (_ & b & h & Hb & ?). specialize (Hpc b h Hb). lia. }
  split_and!.
  - split; [done|intros kind; by rewrite !Hall|intros b h; rewrite Hall; intros [= <- <-]; lia|].
    intros n v. rewrite Hhead. intros [[Hn _]|[_ Hv]]%lookup_insert_Some.
    + injection Hn as <-. split; [lia|]. exists to, hash. by rewrite Hall.
    + apply Hh in Hv as (? & b & h & Hb & ?). split; [done|]. exists to, hash. rewrite Hall. split; [done|]. specialize (Hpc b h Hb). lia.
  - rewrite Hhead. by apply insert_subseteq.
  - intros cfg' Hne. split.
    + intros n. rewrite Hhead. apply lookup_insert_ne. intros [= Heq _]. congruence.
    + intros k. eapply append_progress_frame; [exact Hr0|]. cbn. intros [= Heq _]. congruence.
Qed.

(** A rewind leaves the headers below the replay block, the one before it from
    the node, and nothing of the others changes. *)
Lemma rewind_headers commit cfg archive db r db' :
  ic_start_block cfg ≤ r → 0 ≤ ic_start_block cfg → rewind_transaction commit cfg archive db r = Ok db' →
  (∀ n v, indexed_block_headers db' !! (EVM_CHAIN, ic_chain_id cfg, n) = Some v →
    n < r ∧ (is_Some (indexed_block_headers db !! (EVM_CHAIN, ic_chain_id cfg, n)) ∨ ic_start_block cfg < r ∧ n = r - 1)) ∧
  ∀ chain n, chain ≠ ic_chain_id cfg → indexed_block_headers db' !! (EVM_CHAIN, chain, n) = indexed_block_headers db !! (EVM_CHAIN, chain, n).
Proof.
  intros Hr H0' Hrw. unfold rewind_transaction in Hrw. apply bind_Ok in Hrw as (tx & Htx & Hrw).
  apply bind_Ok in Hrw as ([counts tx'] & Hrw & Hc). apply map_err_Ok in Hrw. unfold commit_chain in Hc. destruct commit; [done|]. injection Hc as <-.
  unfold rewind_chain_indexing_to_replay_block, scope_of in Hrw. apply bind_Ok in Hrw as (sc & Hs & Hrw).
  apply bind_Ok in Hs as (c & [_ ->]%u64_to_i64_Ok & [= <-]). apply bind_Ok in Hrw as (rr & [_ ->]%u64_to_i64_Ok & [= _ <-]). cbn [indexed_block_headers fst snd].
  assert (∃ hs, tx = with_headers db hs ∧ (∀ n v, hs !! (EVM_CHAIN, ic_chain_id cfg, n) = Some v →
      is_Some (indexed_block_headers db !! (EVM_CHAIN, ic_chain_id cfg, n)) ∨ ic_start_block cfg < r ∧ n = r - 1) ∧
    ∀ chain n, chain ≠ ic_chain_id cfg → hs !! (EVM_CHAIN, chain, n) = indexed_block_headers db !! (EVM_CHAIN, chain, n)) as (hs & -> & Hmine & Hother).
  { case_decide as Hlt.
    - apply bind_Ok in Htx as (hd & (hash & parent & _ & ->)%fetch_block_header_Ok & Hrec). apply map_err_Ok in Hrec. cbn in Hrec.
      unfold record_indexed_block_header in Hrec. apply bind_Ok in Hrec as (c & [_ ->]%u64_to_i64_Ok & Hrec).
      apply bind_Ok in Hrec as (b & [_ ->]%u64_to_i64_Ok & [= <-]). eexists. split; [done|]. unfold saturating_sub. split.
      + intros n v [[Hn _]|[_ Hv]]%lookup_insert_Some; [injection Hn as <-; right; lia|left; by eexists].
      + intros chain n Hne. apply lookup_insert_ne. congruence.
    - injection Htx as <-. exists (indexed_block_headers db). split; [by destruct db|]. split; [intros n v Hv; left; by eexists|done]. }
  cbn [indexed_block_headers with_headers]. split.
  - intros n v [Hv Hn]%map_lookup_filter_Some. cbn in Hn. split; [|by eapply Hmine]. apply Z.lt_nge. intros Hle. apply Hn. done.
  - intros chain n Hne. rewrite <- (Hother chain n Hne). rewrite map_lookup_filter. destruct (hs !! _); [|done]. cbn.
    rewrite option_guard_True; [done|]. cbn. intros [[= Heq] _]. done.
Qed.
Lemma rewind_ok commit cfg archive db db' b h :
  chain_ok cfg db → progress_at db cfg DWalletScan = Some (b, h) → rewind_transaction commit cfg archive db (replay_from cfg b) = Ok db' →
  chain_ok cfg db' ∧ ∀ cfg', ic_chain_id cfg' ≠ ic_chain_id cfg → frame cfg' db db'.
Proof.
  intros Hok Hb Hr. pose proof (co_start _ _ Hok) as Hs. pose proof (co_progress _ _ Hok b h Hb) as Hbb.
  pose proof (replay_from_bounds cfg b Hs (proj1 Hbb)) as Hrep.
  destruct (rewind_headers commit cfg archive db (replay_from cfg b) db') as [Hmine Hother]; [lia|done|done|].
  apply rewind_transaction_Ok in Hr as (_ & _ & previous & Hprev & Htab); [|done|lia|by intros ->; apply (rs_header _ _ (chain_resumable _ _ Hok))].
  assert (∀ kind, progress_at db' cfg kind = previous) as Hp'.
  { intros kind. rewrite Htab, rewind_progress_lookup. rewrite (co_uniform _ _ Hok kind), Hb. cbn. rewrite decide_True by (split; [done|lia]). done. }
  split.
  - split; [done|intros kind; by rewrite !Hp'| |].
    + intros b' h'. rewrite Hp'. destruct Hprev as [[_ ->]|(? & hash & pa & -> & _)]; [done|]. intros [= <- <-]. lia.
    + intros n v Hv. apply Hmine in Hv as [Hn Hv]. rewrite Hp'.
      assert (ic_start_block cfg ≤ n) as Hsn by (destruct Hv as [[v' (? & _)%(co_headers _ _ Hok)]|[? ->]]; lia). split; [done|].
      destruct Hprev as [[? ->]|(? & hash & pa & -> & _)]; [lia|]. exists (replay_from cfg b - 1), hash. split; [done|lia].
  - intros cfg' Hne. split; [intros n; by apply Hother|]. intros k. rewrite Htab, rewind_progress_lookup. unfold mbind, option_bind.
    case_match; [|done].
    case_decide as Hd; [|done]. destruct Hd as [Hd _]. injection Hd as Heq _. done.
Qed.
Lemma check_ok cfg archive db pc : chain_ok cfg db → check cfg archive db = Ok pc → pc_ok cfg db pc.
Proof.
  intros Hok Hc. unfold check in Hc. apply bind_Ok in Hc as (o & ->%wallet_scan_progress_Ok & Hc).
  destruct (progress_at db cfg DWalletScan) as [[b h]|] eqn:Hb; cbn in Hc.
  - apply bind_Ok in Hc as (remote & _ & [= <-]). case_decide; [|done]. pose proof (co_progress _ _ Hok b h Hb).
    assert (i64_max < u64_max) by done. unfold pc_ok, saturating_add. rewrite Hb. split; [lia|]. intros b' h' [= <- <-]. lia.
  - injection Hc as <-. unfold pc_ok. rewrite Hb. done.
Qed.
Lemma reorg_ok cfg archive commit db pc db' : chain_ok cfg db → reorg cfg archive commit db = Ok (pc, db') →
  chain_ok cfg db' ∧ pc_ok cfg db' pc ∧ ∀ cfg', ic_chain_id cfg' ≠ ic_chain_id cfg → frame cfg' db db'.
Proof.
  intros Hok Hc. pose proof Hc as Hc0. unfold reorg in Hc. apply bind_Ok in Hc as (o & Ho & Hc). pose proof Ho as ->%wallet_scan_progress_Ok.
  destruct (progress_at db cfg DWalletScan) as [[b h]|] eqn:Hb; cbn in Hc; [|by simplify_eq].
  apply bind_Ok in Hc as (remote & Hrem & Hc). case_decide as Hh.
  - injection Hc as <- <-. split_and!; [done| |done]. eapply (check_ok cfg archive); [done|]. unfold check. rewrite Ho. cbn. rewrite Hrem. cbn. by rewrite decide_True.
  - apply bind_Ok in Hc as (d & Hrw & [= <- <-]). destruct (rewind_ok _ _ _ _ _ _ _ Hok Hb Hrw). done.
Qed.

(** ** The system *)
Abbreviation canonical := (canonical_entries configured_chains).
Record system_ok (st : System) : Prop := {
  so_tasks i cfg pc : tasks !! i = Some cfg → sy_indexers st !! i = Some pc → chain_ok cfg (sy_db st) ∧ pc_ok cfg (sy_db st) pc;
  so_length : length (sy_indexers st) = length tasks;
  so_writer i : sy_writer st = Some i → ¬ leased st;
  so_reorg i : sy_indexers st !! i = Some PcReorg → sy_writer st = Some i;
  so_validated entries : sy_publisher st = PubValidated entries → canonical (sy_db st) entries;
  so_requests entries : entries ∈ sy_requests st → canonical (sy_db st) entries;
  so_puts put : put ∈ sy_puts st → canonical put.2 put.1;
}.
Context (distinct_chains : NoDup (ic_chain_id <$> tasks)).

Lemma canonical_mono db db' entries : indexed_block_headers db ⊆ indexed_block_headers db' → canonical db entries → canonical db' entries.
Proof.
  intros Hsub Hc entry Hin. destruct (Hc entry Hin) as (chain & Hchain & Hid & Hcon & Hh). exists chain. split_and!; [done..|].
  intros height Hheight. destruct (Hh height Hheight) as (header & Hheader & Hhash). exists header. split; [|done].
  unfold indexed_block_header in *. apply bind_Ok in Hheader as (c & Hc1 & Hheader). rewrite Hc1. cbn.
  apply bind_Ok in Hheader as (b & Hb & Hheader). rewrite Hb. cbn. injection Hheader as Hl. apply fmap_Some in Hl as (v & Hv & ->).
  by rewrite (lookup_weaken _ _ _ _ Hv Hsub).
Qed.
Lemma other_chain i j cfg cfg' : tasks !! i = Some cfg → tasks !! j = Some cfg' → j ≠ i → ic_chain_id cfg' ≠ ic_chain_id cfg.
Proof.
  intros Hi Hj Hne Heq. apply Hne. eapply NoDup_lookup; [exact distinct_chains| |]; rewrite list_lookup_fmap; [by rewrite Hj|by rewrite Hi; cbn; rewrite Heq].
Qed.
(** A task moves on over the tables [db'] of its chain. *)
Lemma indexer_ok st i cfg pc db' writer :
  system_ok st → tasks !! i = Some cfg → chain_ok cfg db' → pc_ok cfg db' pc →
  (∀ cfg', ic_chain_id cfg' ≠ ic_chain_id cfg → frame cfg' (sy_db st) db') →
  (indexed_block_headers (sy_db st) ⊆ indexed_block_headers db' ∨ ¬ leased st) →
  (writer = sy_writer st ∧ sy_indexers st !! i ≠ Some PcReorg ∨ writer = None ∧ sy_indexers st !! i = Some PcReorg) → pc ≠ PcReorg →
  system_ok (with_indexer i pc db' writer st).
Proof.
  intros [Ht Hl Hw Hr Hv Hq Hp] Hi Hc Hpc Hframe Hsub Hwr Hnr.
  assert (∀ entries, leased st → canonical (sy_db st) entries → canonical db' entries) as Hmono.
  { intros entries Hle. destruct Hsub as [Hsub|Hsub]; [by apply canonical_mono|done]. }
  split; cbn [sy_db sy_indexers sy_writer sy_publisher sy_requests sy_puts with_indexer].
  - intros j cfg' pc' Hj. intros [(<- & <- & _)|[Hne Hj']]%list_lookup_insert_Some; [by simplify_eq|].
    destruct (Ht j cfg' pc' Hj Hj'). eapply frame_ok; [|done..]. eapply Hframe, other_chain; [exact Hi|exact Hj|done].
  - by rewrite length_insert.
  - intros j Hj. destruct Hwr as [[-> _]|[-> _]]; [by apply (Hw j)|done].
  - intros j [(<- & Hpc' & _)|[Hne Hj]]%list_lookup_insert_Some; [by subst|]. destruct Hwr as [[-> _]|[-> Hri]]; [by apply Hr|].
    apply Hr in Hri, Hj. congruence.
  - intros entries He. apply Hmono; [left; congruence|auto].
  - intros entries He. apply Hmono; [right; by intros E; rewrite E in He; apply not_elem_of_nil in He|auto].
  - exact Hp.
Qed.
Lemma lease_ok st i : system_ok st → sy_indexers st !! i = Some PcWantReorg → sy_writer st = None → ¬ leased st →
  system_ok (with_indexer i PcReorg (sy_db st) (Some i) st).
Proof.
  intros [Ht Hl Hw Hr Hv Hq Hp] Hi Hn Hle. split; cbn [sy_db sy_indexers sy_writer sy_publisher sy_requests sy_puts with_indexer]; [| |by intros ? _| |done..].
  - intros j cfg' pc' Hj. intros [(<- & <- & _)|[Hne Hj']]%list_lookup_insert_Some; [|by apply (Ht j)].
    destruct (Ht i cfg' _ Hj Hi). done.
  - by rewrite length_insert.
  - intros j [(<- & _)|[_ Hj]]%list_lookup_insert_Some; [done|]. apply Hr in Hj. congruence.
Qed.
(** The publisher and the IPNS task do not write. *)
Lemma publisher_ok st pc requests :
  system_ok st → (∀ i, sy_writer st = Some i → pc = PubIdle ∧ requests = []) →
  (∀ entries, pc = PubValidated entries → canonical (sy_db st) entries) → (∀ entries, entries ∈ requests → canonical (sy_db st) entries) →
  system_ok (with_publisher pc requests st).
Proof.
  intros [Ht Hl Hw Hr Hv Hq Hp] Hwr Hpc Hrq. split; try done. intros i Hi. apply Hwr in Hi as [-> ->]. by intros [?|?].
Qed.
Lemma not_leased st : ¬ leased st → sy_publisher st = PubIdle ∧ sy_requests st = [].
Proof. unfold leased. destruct (sy_publisher st), (sy_requests st); naive_solver. Qed.

Lemma act_ok st a : system_ok st → system_ok (act st a).
Proof.
  intros Hok. pose proof Hok as [Ht Hl Hw Hr Hv Hq Hp].
  destruct a as [i archive|i|i archive commit|i view commit safe to|entries|w| | |k|k]; cbn [act].
  - destruct (tasks !! i) as [cfg|] eqn:Hi; [|done]. destruct (sy_indexers st !! i) as [[]|] eqn:Hpc; try done.
    destruct (check cfg archive (sy_db st)) as [pc|] eqn:Hc; [|done]. destruct (Ht i cfg _ Hi Hpc) as [Hco _].
    assert (pc ≠ PcReorg) as Hne. { intros ->. unfold check in Hc. apply bind_Ok in Hc as (o & _ & Hc). destruct o; [|done].
      apply bind_Ok in Hc as (? & _ & Hc). by case_decide. }
    eapply (indexer_ok _ _ cfg); try done; [by eapply check_ok|by left|left; split; [done|congruence]].
  - destruct (sy_indexers st !! i) as [[]|] eqn:Hpc; try done. destruct (sy_writer st) eqn:Hwn; [done|]. case_decide; [done|]. by apply lease_ok.
  - destruct (tasks !! i) as [cfg|] eqn:Hi; [|done]. destruct (sy_indexers st !! i) as [[]|] eqn:Hpc; try done.
    destruct (Ht i cfg _ Hi Hpc) as [Hco _]. pose proof (Hw i (Hr i Hpc)) as Hnl.
    destruct (reorg cfg archive commit (sy_db st)) as [[pc db']|] eqn:Hc.
    + destruct (reorg_ok _ _ _ _ _ _ Hco Hc) as (? & ? & ?). eapply (indexer_ok _ _ cfg); try done; [by right|by right|].
      intros ->. unfold reorg in Hc. apply bind_Ok in Hc as (o & _ & Hc). destruct o; [|done]. apply bind_Ok in Hc as (? & _ & Hc).
      case_decide; [done|]. by apply bind_Ok in Hc as (? & _ & Hc).
    + eapply (indexer_ok _ _ cfg); try done; [by left|by right].
  - destruct (tasks !! i) as [cfg|] eqn:Hi; [|done]. destruct (sy_indexers st !! i) as [[]|] eqn:Hpc; try done.
    destruct (Ht i cfg _ Hi Hpc) as [Hco Hpo].
    assert (system_ok (with_indexer i PcResume (sy_db st) (sy_writer st) st)) as Hfail
      by (eapply (indexer_ok _ _ cfg); try done; [by left|left; split; [done|congruence]]).
    case_decide; [|done]. destruct (index_chain_range_with_provider _ _ _ _ _ _ _ _) as [[step db']|] eqn:Hc; [|done].
    destruct (append_ok _ _ _ _ _ _ _ _ _ Hco Hpo ltac:(done) Hc) as (? & ? & ?).
    eapply (indexer_ok _ _ cfg); try done; [by left|left; split; [done|congruence]].
  - destruct (sy_publisher st) eqn:Hpb; try done. destruct (sy_writer st) eqn:Hwn; [done|]. apply publisher_ok; try done; by rewrite Hwn.
  - destruct (sy_publisher st) as [|es|] eqn:Hpb; try done.
    assert (∀ i, sy_writer st ≠ Some i) as Hnw by (intros i Hi; apply (Hw i Hi); left; congruence).
    pose proof (hoare_wp (λ _, True) _ _ w (combined_canonical store_error configured_chains (sy_db st) es) I) as [_ Hcan].
    destruct (validate_combined_manifest_snapshot _ _ _ _ w) as [[u|e] w'] eqn:Hval; cbn in Hcan |- *.
    + apply publisher_ok; [done|by intros i Hi; destruct (Hnw i)| |done]. intros es' [= <-]. by eapply Hcan.
    + apply publisher_ok; [done|by intros i Hi; destruct (Hnw i)|done|done].
  - destruct (sy_publisher st) as [| |es] eqn:Hpb; try done. apply publisher_ok; [done| | |].
    + intros i Hi. destruct (Hw i Hi). left. congruence.
    + intros es' [= <-]. auto.
    + intros es' [He|He%list_elem_of_singleton]%elem_of_app; [auto|subst; auto].
  - apply publisher_ok; try done. intros i Hi. apply Hw, not_leased in Hi as [_ ->]. done.
  - destruct (sy_requests st !! k) as [es|] eqn:Hk; [|done]. split; try done.
    intros put [Hput| ->%list_elem_of_singleton]%elem_of_app; [auto|]. cbn. apply Hq. by eapply list_elem_of_lookup_2.
  - apply publisher_ok; try done.
    + intros i Hi. apply Hw, not_leased in Hi as [-> ->]. done.
    + intros es He. apply Hq. eapply elem_of_sublist; [exact He|apply sublist_delete].
Qed.

(** C14. Indexing and publishing together. With one contract per chain, from
    tables in which no chain has a header beyond its progress, and over every
    interleaving of the indexing tasks, the publisher and the IPNS task, with
    nodes that answer from any fork and requests that outlive their caller:
    whenever the IPNS task puts a record for a chain-indexed manifest, every
    watermark of the manifest is the block that the chain tables hold at its
    height at that very moment. *)
Theorem announced_under_lease_canonical db actions put :
  (∀ cfg, cfg ∈ tasks → chain_ok cfg db) →
  put ∈ sy_puts (run_system actions (started db)) → canonical_entries configured_chains put.2 put.1.
Proof.
  intros Hdb. assert (system_ok (started db)) as Hok.
  { split; cbn; try done; [|by rewrite length_fmap|intros i Hi; rewrite list_lookup_fmap in Hi; by destruct (tasks !! i)|by intros ? ?%not_elem_of_nil..].
    intros i cfg pc Hi. rewrite list_lookup_fmap, Hi. intros [= <-]. split; [|done]. by eapply Hdb, list_elem_of_lookup_2. }
  assert (∀ st, system_ok st → system_ok (run_system actions st)) as Hrun.
  { induction actions as [|a actions IH]; intros st Hst; [done|]. by apply IH, act_ok. }
  apply so_puts. by apply Hrun.
Qed.
End system.

(** ** Small systems *)
Definition task (chain contract : Z) : ChainIndexConfig := mkIndexConfig chain contract 10 10 10 None 100 2.
Definition chain_config (chain contract : Z) : ChainIndexedChainConfig := mkChainConfig chain contract 10 [WalletScan] [].
Definition toy_run (tasks : list ChainIndexConfig) (chains : list ChainIndexedChainConfig) (actions : list Action) : System :=
  @run_system toy_types toy_contract toy_persist toy_calldata toy_hex toy_tree toy_visit (λ _, "store"%string) tasks chains actions
    (started tasks empty_chain_db).
Definition at_17 (hash : Z) : IndexedArtifactChainEntry := Catalog.mkEntry (mkScope Evm 1 192) [mkHeight WalletScan 17 hash] [].
Definition quiet : World := initial_world ∅ [] 0.

(** The publisher holds a lease when the chain of the manifest is found to be
    reorganised: the task waits until the request is settled, then rewinds. *)
Definition leased_actions : list Action :=
  [Check 0 (toy_chain 0); Append 0 (toy_chain 0) None 28 17; Check 1 (toy_chain 0); Append 1 (toy_chain 0) None 28 20;
   PublicationLease [at_17 17]; Validate quiet; Submit; Release; Check 0 (toy_chain 1); ReorgLease 0; Reorg 0 (toy_chain 1) None; Put 0].
Definition released_actions : list Action := leased_actions ++ [Settle 0; ReorgLease 0; Reorg 0 (toy_chain 1) None].
Definition two_chains : list ChainIndexConfig := [task 1 192; task 5 192].
Definition two_configs : list ChainIndexedChainConfig := [chain_config 1 192; chain_config 5 192].

Lemma announced_under_lease_canonical_witness :
  length (sy_puts (toy_run two_chains two_configs leased_actions)) = 1%nat ∧
  (∀ put, put ∈ sy_puts (toy_run two_chains two_configs leased_actions) → canonical_entries two_configs put.2 put.1) ∧
  indexed_block_headers (sy_db (toy_run two_chains two_configs released_actions)) !! (0, 1, 17) = None.
Proof.
  split; [vm_compute; reflexivity|]. split; [|vm_compute; reflexivity]. intros put.
  apply announced_under_lease_canonical.
  - apply (bool_decide_unpack _). vm_compute. exact I.
  - intros cfg [-> | [-> | []%not_elem_of_nil]%elem_of_cons]%elem_of_cons; (split; [by vm_compute|by intros kind|done|done]).
Defined.

(** Block headers are stored per chain, progress and leases are per contract. Two
    configured contracts of one chain, which the configuration allows, can thus
    break the promise: the append of one replaces the header under the lease of
    a manifest of the other. *)
Definition shared_tasks : list ChainIndexConfig := [task 1 192; task 1 193].
Definition shared_configs : list ChainIndexedChainConfig := [chain_config 1 192; chain_config 1 193].
Definition shared_actions : list Action :=
  [Check 0 (toy_chain 0); Append 0 (toy_chain 0) None 28 17; Check 1 (toy_chain 1);
   PublicationLease [at_17 17]; Validate quiet; Submit; Append 1 (toy_chain 1) None 28 17; Put 0].
Example contracts_of_one_chain_share_headers :
  ∃ put, put ∈ sy_puts (toy_run shared_tasks shared_configs shared_actions) ∧ ¬ canonical_entries shared_configs put.2 put.1.
Proof.
  eexists. split; [apply list_elem_of_lookup_2 with (i := 0%nat); vm_compute; reflexivity|]. cbn [fst snd].
  intros Hc. destruct (Hc (at_17 17)) as (chain & Hin & _ & _ & Hh); [by left|].
  destruct (Hh (mkHeight WalletScan 17 17)) as (header & Hl & Hhash); [by left|].
  apply elem_of_cons in Hin as [-> | [-> | []%not_elem_of_nil]%elem_of_cons]; vm_compute in Hl; injection Hl as <-; done.
Qed.
