(* ===== verification/SquidParity.v ===== *)
(** * Parity of the published artifacts with Squid
      ([bin/verify_indexed_squid_parity.rs])

    The verifier loads the chunks of a published chain, asks a Squid service for
    the same rows page by page, and compares commitments, Merkle checkpoints
    and wallet rows. HTTP answers are oracles; the crates that decode what they
    carry are classes. *)

From Stdlib Require Import Ascii.
From S2P Require Import Prelude Order Wire Ipfs Artifacts CommitmentChunk WalletScanChunk MerkleCheckpointChunk PublicTxidChunk ChainLogs Traces PoiStore ChainStore StoreQueries AuditLog Retention Publication Catalog TimestampBackfill.

(** ** The rows of the contract crate, as far as they are built and read here *)
Record SquidToken := mkToken { tk_type : Z; tk_address : Z; tk_sub_id : Z }.
Record SquidPreimage := mkPreimage { sp_npk : bytes; sp_token : SquidToken; sp_value : Z }.
Record SquidLegacyPreimage := mkLegacyPreimage { lp_npk : Z; lp_token : SquidToken; lp_value : Z }.
Record SquidShieldCiphertext := mkShieldCiphertext { sh_encrypted_bundle : list bytes; sh_shield_key : bytes }.
Record SquidLegacyCiphertext := mkLegacyCiphertext { lc_ciphertext : list Z; lc_ephemeral_keys : list Z; lc_memo : list Z }.
Record TransactCiphertextOverlap := mkOverlap {
  ov_ciphertext : list bytes;
  ov_blinded_sender_viewing_key : bytes;
  ov_memo : bytes;
}.
#[export] Instance SquidToken_dec : EqDecision SquidToken.
Proof. solve_decision. Defined.
#[export] Instance TransactCiphertextOverlap_dec : EqDecision TransactCiphertextOverlap.
Proof. solve_decision. Defined.
#[export] Instance CommitmentRow_dec : EqDecision CommitmentRow.
Proof. solve_decision. Defined.
#[export] Instance WalletKey_dec : EqDecision WalletKey.
Proof. solve_decision. Defined.

Class SquidCrate := {
  (** [U256::from_str_radix] *)
  u256_from_str_radix : string → Z → option Z;
  (** [broadcaster_core::tree::normalize_tree_position] *)
  squid_normalize : Z → Z → Z * Z;
  (** [hash], [abi_encode] and [abi_decode] of the contract types *)
  preimage_hash : SquidPreimage → Z;
  preimage_abi_encode : SquidPreimage → bytes;
  preimage_abi_decode : bytes → option SquidPreimage;
  legacy_preimage_hash : SquidLegacyPreimage → Z;
  legacy_preimage_abi_encode : SquidLegacyPreimage → bytes;
  legacy_preimage_abi_decode : bytes → option SquidLegacyPreimage;
  shield_ciphertext_abi_encode : SquidShieldCiphertext → bytes;
  legacy_ciphertext_abi_encode : SquidLegacyCiphertext → bytes;
  (** the fields of a decoded [CommitmentCiphertext] *)
  ciphertext_abi_decode : bytes → option TransactCiphertextOverlap;
  catalog_from_json : bytes → option IndexedArtifactCatalog;
}.

Module Squid.
Section fields.
Context `{HexStrings} `{SquidCrate}.

Definition value_field (value : Value) (field : string) : result string Value :=
  ok_or (get field value) ("field missing: " +:+ field)%string.
Definition string_field (value : Value) (field : string) : result string string :=
  ok_or (v ← get field value; as_str v) ("field missing or not string: " +:+ field)%string.

(** [str::strip_prefix("0x")] *)
Definition hex_digits (value : string) : option string :=
  match value with String "0"%char (String "x"%char rest) => Some rest | _ => None end.
Definition parse_u64_string (value : string) : result string Z :=
  match hex_digits value with
  | Some value => ok_or (from_str_radix_16 value) "parse hex u64"%string
  | None => ok_or (parse_u64 value) "parse decimal u64"%string
  end.
Definition u64_field (value : Value) (field : string) : result string Z :=
  value ← value_field value field;
  match value with
  | JString value => parse_u64_string value
  | JNumber _ => ok_or (as_u64 value) ("field not u64: " +:+ field)%string
  | _ => Err ("field is not numeric: " +:+ field)%string
  end.
Definition u32_field (value : Value) (field : string) : result string Z :=
  n ← u64_field value field;
  ok_or (try_from u32_max n) ("field exceeds u32: " +:+ field)%string.

Definition parse_u256_value (value : Value) : result string bytes :=
  match value with
  | JString value =>
      parsed ← (match hex_digits value with
                | Some hex => ok_or (u256_from_str_radix hex 16) "parse hex U256"%string
                | None => ok_or (u256_from_str_radix value 10) "parse decimal U256"%string
                end);
      Ok (be_bytes 32 parsed)
  | JNumber _ => n ← ok_or (as_u64 value) "number is not u64"%string; Ok (be_bytes 32 n)
  | _ => Err "value is not U256-compatible"%string
  end.
Definition u256_field (value : Value) (field : string) : result string bytes :=
  value ← value_field value field; parse_u256_value value.

(** [to::<u128>] and [Uint::<120, 2>::from] abort on what does not fit. *)
Definition uint120_field (value : Value) (field : string) : result string Z :=
  parsed ← u256_field value field;
  if decide (be_value parsed < 2 ^ 120) then Ok (be_value parsed) else Err "panicked: value does not fit"%string.

Definition fixed_hex_sized (n : nat) (value : string) : result string bytes :=
  let value := default value (hex_digits value) in
  let value := if decide (Z.of_nat (String.length value) mod 2 = 0) then value else ("0" +:+ value)%string in
  bs ← ok_or (hex_decode_string value) "decode hex"%string;
  if decide (n < length bs)%nat then Err "expected at most N bytes"%string
  else Ok (replicate (n - length bs) Byte.x00 ++ bs).
Definition fixed_hex_field (value : Value) (field : string) : result string bytes :=
  value ← string_field value field; fixed_hex_sized 32 value.
Definition bytes_field (value : Value) (field : string) : result string bytes :=
  value ← string_field value field;
  let value := default value (hex_digits value) in
  if decide (value = ""%string) then Ok [] else ok_or (hex_decode_string value) ("decode field " +:+ field)%string.
Definition fixed_array_32 (n : nat) (value : Value) : result string (list bytes) :=
  values ← ok_or (as_array value) "expected array"%string;
  if decide (length values ≠ n) then Err "expected N fixed values"%string else try_map parse_u256_value values.
Definition fixed_vec_32 (value : Value) : result string (list bytes) :=
  values ← ok_or (as_array value) "expected array"%string; try_map parse_u256_value values.
(** [str::parse::<u8>] *)
Definition parse_u8 (s : string) : option Z := n ← parse_u64 s; try_from u8_max n.
Definition token_type (value : Value) : result string Z :=
  match value with
  | JString value =>
      if decide (value = "ERC20"%string) then Ok 0
      else if decide (value = "ERC721"%string) then Ok 1
      else if decide (value = "ERC1155"%string) then Ok 2
      else ok_or (parse_u8 value) "parse token type"%string
  | JNumber _ => ok_or (n ← as_u64 value; try_from u8_max n) "token type out of range"%string
  | _ => Err "unsupported token type"%string
  end.

(** ** Rows of a Squid answer *)
Definition normalized_squid_tree_position (value : Value) : result string (Z * Z) :=
  tree_number ← u32_field value "treeNumber";
  tree_position ← u64_field value "treePosition";
  Ok (squid_normalize tree_number tree_position).
Definition wallet_key (value : Value) (tree_number : Z) (tree_position : option Z) (row_value : bytes) : result string WalletKey :=
  block_number ← u64_field value "blockNumber";
  transaction_hash ← fixed_hex_field value "transactionHash";
  Ok (mkKey block_number transaction_hash tree_number tree_position row_value).
Definition token_data (value : Value) : result string SquidToken :=
  ty ← value_field value "tokenType"; ty ← token_type ty;
  address ← string_field value "tokenAddress"; address ← ok_or (parse_address address) "parse address"%string;
  sub_id ← u256_field value "tokenSubID";
  Ok (mkToken ty address (be_value sub_id)).
Definition commitment_preimage (value : Value) : result string SquidPreimage :=
  npk ← fixed_hex_field value "npk";
  token ← value_field value "token"; token ← token_data token;
  amount ← uint120_field value "value";
  Ok (mkPreimage npk token amount).
Definition legacy_preimage (value : Value) : result string SquidLegacyPreimage :=
  npk ← u256_field value "npk";
  token ← value_field value "token"; token ← token_data token;
  amount ← uint120_field value "value";
  Ok (mkLegacyPreimage (be_value npk) token amount).
(** [iv ++ tag] and the three words of [data] *)
Definition ciphertext_words (value : Value) : result string (list bytes) :=
  payload ← value_field value "ciphertext";
  iv ← string_field payload "iv"; iv ← fixed_hex_sized 16 iv;
  tag ← string_field payload "tag"; tag ← fixed_hex_sized 16 tag;
  data ← value_field payload "data"; data ← fixed_array_32 3 data;
  Ok ((iv ++ tag) :: data).
Definition parse_squid_transact_ciphertext (value : Value) : result string TransactCiphertextOverlap :=
  words ← ciphertext_words value;
  key ← fixed_hex_field value "blindedSenderViewingKey";
  memo ← bytes_field value "memo";
  Ok (mkOverlap words key memo).
Definition parse_transact_ciphertext_overlap (bs : bytes) : result string TransactCiphertextOverlap :=
  ok_or (ciphertext_abi_decode bs) "decode artifact CommitmentCiphertext ABI"%string.
Definition legacy_ciphertext (value : Value) : result string SquidLegacyCiphertext :=
  words ← ciphertext_words value;
  keys ← value_field value "ephemeralKeys"; keys ← fixed_array_32 2 keys;
  memo ← value_field value "memo"; memo ← fixed_vec_32 memo;
  Ok (mkLegacyCiphertext (be_value <$> words) (be_value <$> keys) (be_value <$> memo)).
Definition encrypted_random (value : Value) : result string bytes :=
  values ← ok_or (as_array value) "encryptedRandom is not an array"%string;
  match values with
  | [a; b] => a ← parse_u256_value a; b ← parse_u256_value b; Ok (a ++ b)
  | _ => Err "encryptedRandom expected 2 values"%string
  end.

Definition global_tree_position `{TreeCrate} (tree_number tree_position : Z) : result string Z :=
  ok_or (tree_start ← checked_mul u64_max tree_number TREE_LEAF_COUNT; checked_add u64_max tree_start tree_position)
    "global tree position overflow"%string.
Definition parse_squid_commitment `{TreeCrate} (value : Value) : result string CommitmentRow :=
  '(tree_number, tree_position) ← normalized_squid_tree_position value;
  global_position ← global_tree_position tree_number tree_position;
  block_number ← u64_field value "blockNumber";
  hash ← u256_field value "hash";
  Ok (mkParsedCommitment global_position block_number tree_number tree_position hash).
Definition parse_squid_transact (value : Value) : result string (TransactWalletRow TransactCiphertextOverlap) :=
  '(tree_number, tree_position) ← normalized_squid_tree_position value;
  hash ← u256_field value "hash";
  ciphertext ← (match get "ciphertext" value with
                | Some c => if is_null c then Ok None else Some <$> parse_squid_transact_ciphertext c
                | None => Ok None
                end);
  key ← wallet_key value tree_number (Some tree_position) hash;
  block_timestamp ← u64_field value "blockTimestamp";
  Ok (mkTransactW key (Some block_timestamp) ciphertext).
Definition parse_squid_shield (value : Value) : result string ShieldWalletRow :=
  '(tree_number, tree_position) ← normalized_squid_tree_position value;
  preimage ← value_field value "preimage"; preimage ← commitment_preimage preimage;
  bundle ← value_field value "encryptedBundle"; bundle ← fixed_array_32 3 bundle;
  shield_key ← fixed_hex_field value "shieldKey";
  key ← wallet_key value tree_number (Some tree_position) (be_bytes 32 (preimage_hash preimage));
  block_timestamp ← u64_field value "blockTimestamp";
  Ok (mkShieldW key (Some block_timestamp) (preimage_abi_encode preimage)
        (shield_ciphertext_abi_encode (mkShieldCiphertext bundle shield_key))).
Definition parse_squid_nullifier (value : Value) : result string NullifierWalletRow :=
  tree_number ← u32_field value "treeNumber";
  nullifier ← u256_field value "nullifier";
  key ← wallet_key value tree_number None nullifier;
  block_timestamp ← u64_field value "blockTimestamp";
  Ok (mkNullifierW key (Some block_timestamp)).
Definition parse_squid_legacy_encrypted (value : Value) : result string LegacyEncryptedWalletRow :=
  '(tree_number, tree_position) ← normalized_squid_tree_position value;
  hash ← u256_field value "hash";
  ciphertext ← value_field value "ciphertext"; ciphertext ← legacy_ciphertext ciphertext;
  key ← wallet_key value tree_number (Some tree_position) hash;
  block_timestamp ← u64_field value "blockTimestamp";
  Ok (mkLegacyEncryptedW key (Some block_timestamp) (legacy_ciphertext_abi_encode ciphertext)).
Definition parse_squid_legacy_generated (value : Value) : result string LegacyGeneratedWalletRow :=
  '(tree_number, tree_position) ← normalized_squid_tree_position value;
  preimage ← value_field value "preimage"; preimage ← legacy_preimage preimage;
  key ← wallet_key value tree_number (Some tree_position) (be_bytes 32 (legacy_preimage_hash preimage));
  block_timestamp ← u64_field value "blockTimestamp";
  random ← value_field value "encryptedRandom"; random ← encrypted_random random;
  Ok (mkLegacyGeneratedW key (Some block_timestamp) (legacy_preimage_abi_encode preimage) random).
End fields.

(** ** Fetching the pages of a query *)
Record GraphqlResponse := mkResponse { gr_data : option Value; gr_errors : option Value }.
Record SquidError := mkSquidError { is_retriable : bool; squid_message : string }.
Definition SQUID_PAGE_RETRY_ATTEMPTS : nat := 4.
Definition i32_max : Z := 2 ^ 31 - 1.

Section pages.
(** the answer to a post: endpoint, field of the query, offset, limit, largest
    block, and the number of the attempt *)
Context (post : string → string → Z → Z → Z → nat → result SquidError GraphqlResponse).

Definition fetch_squid_page_once (endpoint field : string) (offset limit max_block : Z) (attempt : nat) : result SquidError (list Value) :=
  let fatal := mkSquidError false in
  offset ← ok_or (try_from i32_max offset) (fatal "Squid offset exceeds GraphQL Int"%string);
  limit ← ok_or (try_from i32_max limit) (fatal "Squid limit exceeds GraphQL Int"%string);
  response ← post endpoint field offset limit max_block attempt;
  match gr_errors response with
  | Some _ => Err (fatal "Squid GraphQL errors"%string)
  | None =>
      data ← ok_or (gr_data response) (fatal "Squid response missing data"%string);
      ok_or (v ← get field data; as_array v) (fatal ("Squid response missing field " +:+ field)%string)
  end.

(** The attempts that are left, from attempt number [attempt] on. *)
Fixpoint page_attempts (remaining attempt : nat) (endpoint field : string) (offset limit max_block : Z) : result string (list Value) :=
  match remaining with
  | O => Err "Squid page retry loop must return"%string
  | S remaining =>
      match fetch_squid_page_once endpoint field offset limit max_block attempt with
      | Ok page => Ok page
      | Err e =>
          if bool_decide (attempt < SQUID_PAGE_RETRY_ATTEMPTS)%nat && is_retriable e
          then page_attempts remaining (S attempt) endpoint field offset limit max_block
          else Err (squid_message e)
      end
  end.
Definition fetch_squid_page : string → string → Z → Z → Z → result string (list Value) := page_attempts SQUID_PAGE_RETRY_ATTEMPTS 1.

(** [None] is out of fuel. *)
Fixpoint squid_pages_loop (fuel : nat) (endpoint field : string) (page_size max_block offset : Z) (rows : list Value)
    : option (result string (list Value)) :=
  match fuel with
  | O => None
  | S fuel =>
      match fetch_squid_page endpoint field offset page_size max_block with
      | Err e => Some (Err e)
      | Ok page =>
          if decide (page = []) then Some (Ok rows)
          else
            let rows := rows ++ page in
            match try_from usize_max page_size, try_from_len u64_max (length rows) with
            | None, _ => Some (Err "Squid page size overflow"%string)
            | Some size, offset =>
                if decide (Z.of_nat (length page) < size) then Some (Ok rows)
                else match offset with
                     | None => Some (Err "Squid offset overflow"%string)
                     | Some offset => squid_pages_loop fuel endpoint field page_size max_block offset rows
                     end
            end
      end
  end.
Definition fetch_squid_pages (fuel : nat) (endpoint field : string) (page_size max_block : Z) : option (result string (list Value)) :=
  squid_pages_loop fuel endpoint field page_size max_block 0 [].
End pages.

(** ** Fetching the artifacts *)
(** [client.get(url).send()]: it fails, has an error status, or a body, which may
    fail to arrive. *)
Inductive HttpAnswer := SendFailed | BadStatus | Body (body : result string bytes).
Definition IPFS_GATEWAYS : list string := ["https://ipfs.io/ipfs/"; "https://dweb.link/ipfs/"]%string.

Section artifacts.
Context `{ArtifactCrate} `{TreeCrate} `{SquidCrate}.
Context (http_get : string → HttpAnswer).
Implicit Types chain : IndexedArtifactChainEntry.

Fixpoint fetch_gateways (gateways : list string) (cid : string) : result string bytes :=
  match gateways with
  | [] => Err ("failed to fetch IPFS CID " +:+ cid)%string
  | gateway :: gateways =>
      match http_get (gateway +:+ cid)%string with
      | Body body => body
      | SendFailed | BadStatus => fetch_gateways gateways cid
      end
  end.
Definition fetch_ipfs (cid : string) : result string bytes := fetch_gateways IPFS_GATEWAYS cid.

Definition verify_bytes (bs : bytes) (cid : string) (digest : bytes) (byte_size : Z) : result string unit :=
  actual_size ← ok_or (try_from_len u64_max (length bs)) "byte size overflow"%string;
  if decide (actual_size ≠ byte_size) then Err ("byte size mismatch for " +:+ cid)%string
  else if decide (sha256 bs ≠ digest) then Err ("sha256 mismatch for " +:+ cid)%string
  else Ok tt.

Definition fetch_catalog (descriptor : IndexedArtifactDescriptor) : result string IndexedArtifactCatalog :=
  bs ← fetch_ipfs (desc_cid descriptor);
  _ ← verify_bytes bs (desc_cid descriptor) (desc_sha256 descriptor) (desc_byte_size descriptor);
  catalog ← ok_or (catalog_from_json bs) ("decode catalog " +:+ desc_cid descriptor)%string;
  if decide (cat_dataset_kind catalog ≠ desc_dataset_kind descriptor ∨ cat_scope catalog ≠ desc_scope descriptor)
  then Err "catalog does not match descriptor scope/kind"%string
  else Ok catalog.

Record ChainArtifacts := mkChainArtifacts {
  ca_commitments : list CommitmentRow;
  ca_commitment_ranges : list IndexedArtifactRange;
  ca_merkle_checkpoints : list ParsedCheckpoint;
  ca_wallet : WalletArtifacts TransactCiphertextOverlap;
  ca_wallet_ranges : list IndexedArtifactRange;
}.
Definition no_artifacts : ChainArtifacts := mkChainArtifacts [] [] [] (mkWallet [] [] [] [] []) [].
Definition extend_wallet (a b : WalletArtifacts TransactCiphertextOverlap) : WalletArtifacts TransactCiphertextOverlap :=
  mkWallet (wa_transact a ++ wa_transact b) (wa_shield a ++ wa_shield b) (wa_nullifiers a ++ wa_nullifiers b)
    (wa_legacy_encrypted a ++ wa_legacy_encrypted b) (wa_legacy_generated a ++ wa_legacy_generated b).

Definition load_chunk (a : ChainArtifacts) (chunk : IndexedArtifactDescriptor) : result string ChainArtifacts :=
  bs ← fetch_ipfs (desc_cid chunk);
  _ ← verify_bytes bs (desc_cid chunk) (desc_sha256 chunk) (desc_byte_size chunk);
  envelope ← map_err (λ _, ("decode chunk " +:+ desc_cid chunk)%string) (decode_chunk_bytes chunk bs);
  match desc_dataset_kind chunk with
  | Commitments =>
      rows ← parse_commitment_payload envelope;
      Ok (mkChainArtifacts (ca_commitments a ++ rows) (ca_commitment_ranges a ++ [desc_range chunk]) (ca_merkle_checkpoints a)
            (ca_wallet a) (ca_wallet_ranges a))
  | MerkleCheckpoint =>
      checkpoint ← parse_merkle_checkpoint_payload chunk envelope;
      Ok (mkChainArtifacts (ca_commitments a) (ca_commitment_ranges a) (ca_merkle_checkpoints a ++ [checkpoint])
            (ca_wallet a) (ca_wallet_ranges a))
  | WalletScan =>
      wallet ← parse_wallet_payload parse_transact_ciphertext_overlap envelope;
      Ok (mkChainArtifacts (ca_commitments a) (ca_commitment_ranges a) (ca_merkle_checkpoints a)
            (extend_wallet (ca_wallet a) wallet) (ca_wallet_ranges a ++ [desc_range chunk]))
  | PublicTxid => Ok a
  end.
Definition load_catalog (a : ChainArtifacts) (descriptor : IndexedArtifactDescriptor) : result string ChainArtifacts :=
  match desc_dataset_kind descriptor with
  | PublicTxid => Ok a
  | _ => catalog ← fetch_catalog descriptor; try_fold load_chunk a (cat_chunks catalog)
  end.

(** the derived order of [WalletKey] *)
Definition key_tuple (k : WalletKey) : Z * (bytes * (Z * (option Z * bytes))) :=
  (wk_block_number k, (wk_transaction_hash k, (wk_tree_number k, (wk_tree_position k, wk_value k)))).
Definition sort_wallet (w : WalletArtifacts TransactCiphertextOverlap) : WalletArtifacts TransactCiphertextOverlap :=
  mkWallet (sort_cmp_key (key_tuple ∘ tw_key) (wa_transact w)) (sort_cmp_key (key_tuple ∘ sw_key) (wa_shield w))
    (sort_cmp_key (key_tuple ∘ nw_key) (wa_nullifiers w)) (sort_cmp_key (key_tuple ∘ ew_key) (wa_legacy_encrypted w))
    (sort_cmp_key (key_tuple ∘ gw_key) (wa_legacy_generated w)).

Definition load_chain_artifacts chain : result string ChainArtifacts :=
  a ← try_fold load_catalog no_artifacts (en_catalogs chain);
  Ok (mkChainArtifacts (sort_by_key cr_global_position (ca_commitments a)) (ca_commitment_ranges a) (ca_merkle_checkpoints a)
        (sort_wallet (ca_wallet a)) (ca_wallet_ranges a)).
Definition latest_indexed_block chain (dataset_kind : Artifacts.IndexedDatasetKind) : result string Z :=
  ok_or ((λ h, lh_block_number h.2) <$> list_find (λ h, lh_dataset_kind h = dataset_kind) (en_latest_indexed chain))
    "missing latest indexed height"%string.
End artifacts.

(** ** Comparing *)
Definition optional_timestamp_matches (artifact squid : option Z) : bool :=
  match artifact with Some artifact => bool_decide (squid = Some artifact) | None => true end.
Definition token_data_wallet_equivalent (l r : SquidToken) : bool :=
  bool_decide (tk_type l = tk_type r) && bool_decide (tk_address l = tk_address r) &&
  (bool_decide (tk_sub_id l = tk_sub_id r) || bool_decide (tk_type l = 0)).
Definition transact_wallet_rows_match (l r : TransactWalletRow TransactCiphertextOverlap) : bool :=
  bool_decide (tw_key l = tw_key r) && optional_timestamp_matches (tw_block_timestamp l) (tw_block_timestamp r) &&
  bool_decide (tw_ciphertext l = tw_ciphertext r).
Definition nullifier_wallet_rows_match (l r : NullifierWalletRow) : bool :=
  bool_decide (nw_key l = nw_key r) && optional_timestamp_matches (nw_block_timestamp l) (nw_block_timestamp r).
Definition legacy_encrypted_wallet_rows_match (l r : LegacyEncryptedWalletRow) : bool :=
  bool_decide (ew_key l = ew_key r) && optional_timestamp_matches (ew_block_timestamp l) (ew_block_timestamp r) &&
  bool_decide (ew_ciphertext l = ew_ciphertext r).

Section preimages.
Context `{SquidCrate}.
Definition commitment_preimages_wallet_equivalent (l r : SquidPreimage) : bool :=
  bool_decide (sp_npk l = sp_npk r) && token_data_wallet_equivalent (sp_token l) (sp_token r) && bool_decide (sp_value l = sp_value r) &&
  bool_decide (preimage_hash l = preimage_hash r).
Definition legacy_preimages_wallet_equivalent (l r : SquidLegacyPreimage) : bool :=
  bool_decide (lp_npk l = lp_npk r) && token_data_wallet_equivalent (lp_token l) (lp_token r) && bool_decide (lp_value l = lp_value r) &&
  bool_decide (legacy_preimage_hash l = legacy_preimage_hash r).
Definition commitment_preimage_bytes_match (l r : bytes) : bool :=
  if decide (l = r) then true
  else match preimage_abi_decode l, preimage_abi_decode r with
       | Some l, Some r => commitment_preimages_wallet_equivalent l r
       | _, _ => false
       end.
Definition legacy_preimage_bytes_match (l r : bytes) : bool :=
  if decide (l = r) then true
  else match legacy_preimage_abi_decode l, legacy_preimage_abi_decode r with
       | Some l, Some r => legacy_preimages_wallet_equivalent l r
       | _, _ => false
       end.
Definition shield_wallet_rows_match (l r : ShieldWalletRow) : bool :=
  bool_decide (sw_key l = sw_key r) && optional_timestamp_matches (sw_block_timestamp l) (sw_block_timestamp r) &&
  commitment_preimage_bytes_match (sw_preimage l) (sw_preimage r) && bool_decide (sw_shield_ciphertext l = sw_shield_ciphertext r).
Definition legacy_generated_wallet_rows_match (l r : LegacyGeneratedWalletRow) : bool :=
  bool_decide (gw_key l = gw_key r) && optional_timestamp_matches (gw_block_timestamp l) (gw_block_timestamp r) &&
  legacy_preimage_bytes_match (gw_preimage l) (gw_preimage r) && bool_decide (gw_encrypted_random l = gw_encrypted_random r).
End preimages.

(** one more failure at the first pair that does not match *)
Definition first_mismatch {T} (matches : T → T → bool) (artifact squid : list T) : bool :=
  existsb (λ p, negb (matches p.1 p.2)) (zip artifact squid).
Definition compare_wallet_vec {T} (matches : T → T → bool) (artifact squid : list T) : Z :=
  let failures := if decide (length artifact ≠ length squid) then 1 else 0 in
  if first_mismatch matches artifact squid then saturating_add usize_max failures 1 else failures.
Definition compare_commitments (artifact squid : list CommitmentRow) : Z :=
  let failures := if decide (length artifact ≠ length squid) then 1 else 0 in
  if first_mismatch (λ l r, bool_decide (l = r)) artifact squid then saturating_add usize_max failures 1 else failures.

Definition squid_commitments_in_ranges (ranges : list IndexedArtifactRange) (squid : list CommitmentRow) : list CommitmentRow :=
  filter (λ row, Exists (λ range, range_start range ≤ cr_global_position row ≤ range_end range) ranges) squid.
Definition squid_commitments_by_tree (rows : list CommitmentRow) : gmap Z (list CommitmentRow) :=
  foldl (λ by_tree row, <[cr_tree_number row := default [] (by_tree !! cr_tree_number row) ++ [row]]> by_tree) ∅ rows.

Section compare.
Context `{TreeCrate} `{SquidCrate} `{HexStrings}.

Definition dense_leaves (rows : list CommitmentRow) (leaf_count : Z) : list bytes :=
  match try_from usize_max leaf_count with
  | None => []
  | Some len =>
      foldl (λ leaves row,
        match try_from usize_max (cr_tree_position row) with
        | Some index => <[Z.to_nat index := cr_hash row]> leaves
        | None => leaves
        end) (replicate (Z.to_nat len) (be_bytes 32 MERKLE_ZERO_VALUE)) rows
  end.

(** The failures of one checkpoint, added to those before. *)
Definition compare_checkpoint (by_tree : gmap Z (list CommitmentRow)) (failures : Z) (checkpoint : ParsedCheckpoint) : Z :=
  let expected := filter (λ row, cr_tree_position row < pc_leaf_count checkpoint) (default [] (by_tree !! pc_tree_number checkpoint)) in
  let expected_leaf_count :=
    match max_list (cr_tree_position <$> expected) with None => 0 | Some position => saturating_add u64_max position 1 end in
  if decide (pc_leaf_count checkpoint ≠ expected_leaf_count) then saturating_add usize_max failures 1
  else
    let leaves := dense_leaves expected (pc_leaf_count checkpoint) in
    match merkle_root leaves with
    | Err _ => saturating_add usize_max failures 1
    | Ok root =>
        let metadata := desc_metadata (MerkleCheckpointChunk.pc_descriptor checkpoint) in
        let failures := if decide (pc_leaves checkpoint ≠ leaves ∨ pc_root checkpoint ≠ root) then saturating_add usize_max failures 1 else failures in
        let failures := if decide (meta_root metadata ≠ Some root) then saturating_add usize_max failures 1 else failures in
        if decide (meta_leaf_count metadata ≠ Some (pc_leaf_count checkpoint) ∨
                   meta_tree_number metadata ≠ try_from u16_max (pc_tree_number checkpoint) ∨
                   meta_last_indexed_block metadata ≠ Some (pc_last_indexed_block checkpoint))
        then saturating_add usize_max failures 1 else failures
    end.
Definition compare_merkle_checkpoints (checkpoints : list ParsedCheckpoint) (squid_commitments : list CommitmentRow) : Z :=
  foldl (compare_checkpoint (squid_commitments_by_tree squid_commitments)) 0 checkpoints.

Definition compare_wallet (artifact squid : WalletArtifacts TransactCiphertextOverlap) : Z :=
  let failures := saturating_add usize_max 0 (compare_wallet_vec transact_wallet_rows_match (wa_transact artifact) (wa_transact squid)) in
  let failures := saturating_add usize_max failures (compare_wallet_vec shield_wallet_rows_match (wa_shield artifact) (wa_shield squid)) in
  let failures := saturating_add usize_max failures (compare_wallet_vec nullifier_wallet_rows_match (wa_nullifiers artifact) (wa_nullifiers squid)) in
  let failures := saturating_add usize_max failures
    (compare_wallet_vec legacy_encrypted_wallet_rows_match (wa_legacy_encrypted artifact) (wa_legacy_encrypted squid)) in
  saturating_add usize_max failures
    (compare_wallet_vec legacy_generated_wallet_rows_match (wa_legacy_generated artifact) (wa_legacy_generated squid)).

(** ** The verifier *)
Context `{ArtifactCrate} (http_get : string → HttpAnswer).
Context (post : string → string → Z → Z → Z → nat → result SquidError GraphqlResponse).

(** A fuelled loop inside the result monad. *)
Definition run_pages {A} (pages : option (result string (list Value))) (k : list Value → result string A) : option (result string A) :=
  match pages with None => None | Some r => Some (rows ← r; k rows) end.
Definition fetch_squid_commitments (fuel : nat) (endpoint : string) (page_size max_block : Z) : option (result string (list CommitmentRow)) :=
  run_pages (fetch_squid_pages post fuel endpoint "commitments" page_size max_block)
    (λ values, rows ← try_map parse_squid_commitment values; Ok (sort_by_key cr_global_position rows)).

Definition has_ciphertext (value : Value) : bool :=
  match get "ciphertext" value with Some c => negb (is_null c) | None => false end.
Definition and_then {A B} (r : option (result string A)) (k : A → option (result string B)) : option (result string B) :=
  match r with None => None | Some (Err e) => Some (Err e) | Some (Ok a) => k a end.
Definition fetch_squid_wallet (fuel : nat) (endpoint : string) (page_size max_block : Z)
    : option (result string (WalletArtifacts TransactCiphertextOverlap)) :=
  let pages field := fetch_squid_pages post fuel endpoint field page_size max_block in
  and_then (run_pages (pages "transactCommitments"%string) (λ values, try_map parse_squid_transact (List.filter has_ciphertext values))) (λ transact,
  and_then (run_pages (pages "shieldCommitments"%string) (try_map parse_squid_shield)) (λ shield,
  and_then (run_pages (pages "nullifiers"%string) (try_map parse_squid_nullifier)) (λ nullifiers,
  and_then (run_pages (pages "legacyEncryptedCommitments"%string) (try_map parse_squid_legacy_encrypted)) (λ legacy_encrypted,
  and_then (run_pages (pages "legacyGeneratedCommitments"%string) (try_map parse_squid_legacy_generated)) (λ legacy_generated,
  Some (Ok (sort_wallet (mkWallet transact shield nullifiers legacy_encrypted legacy_generated)))))))).

Definition squid_endpoint (chain_id : Z) : result string string :=
  if decide (chain_id = 1) then Ok "https://rail-squid.squids.live/squid-railgun-ethereum-v2/graphql"%string
  else if decide (chain_id = 56) then Ok "https://rail-squid.squids.live/squid-railgun-bsc-v2/graphql"%string
  else if decide (chain_id = 137) then Ok "https://rail-squid.squids.live/squid-railgun-polygon-v2/graphql"%string
  else if decide (chain_id = 42161) then Ok "https://rail-squid.squids.live/squid-railgun-arbitrum-v2/graphql"%string
  else if decide (chain_id = 11155111) then Ok "https://rail-squid.squids.live/squid-railgun-eth-sepolia-v2/graphql"%string
  else Err "unsupported chain id"%string.

(** The body of the loop of [main]: the failures of one chain. *)
Definition verify_chain (fuel : nat) (page_size : Z) (chain : IndexedArtifactChainEntry) : option (result string Z) :=
  and_then (Some (endpoint ← squid_endpoint (chain_id (en_scope chain));
                  artifacts ← load_chain_artifacts http_get chain;
                  commitment_latest_block ← latest_indexed_block chain Commitments;
                  wallet_max_block ← latest_indexed_block chain WalletScan;
                  Ok (endpoint, artifacts, commitment_latest_block, wallet_max_block)))
    (λ '(endpoint, artifacts, commitment_latest_block, wallet_max_block),
  let commitment_max_block :=
    match max_list (cr_block_number <$> ca_commitments artifacts) with
    | None => commitment_latest_block
    | Some block => Z.max block commitment_latest_block
    end in
  and_then (fetch_squid_commitments fuel endpoint page_size commitment_max_block) (λ squid_commitments,
  let commitment_failures :=
    compare_commitments (ca_commitments artifacts) (squid_commitments_in_ranges (ca_commitment_ranges artifacts) squid_commitments) in
  let checkpoint_failures := compare_merkle_checkpoints (ca_merkle_checkpoints artifacts) squid_commitments in
  and_then (fetch_squid_wallet fuel endpoint page_size wallet_max_block) (λ squid_wallet,
  let wallet_failures := compare_wallet (ca_wallet artifacts) squid_wallet in
  Some (Ok (saturating_add usize_max (saturating_add usize_max commitment_failures checkpoint_failures) wallet_failures))))).

(** [main] after the manifest is decoded and its signature verified. *)
Fixpoint verify_chains (fuel : nat) (page_size : Z) (chain_ids : list Z) (chains : list IndexedArtifactChainEntry) (failures : Z)
    : option (result string Z) :=
  match chains with
  | [] => Some (Ok failures)
  | chain :: chains =>
      if decide (chain_ids ≠ [] ∧ chain_id (en_scope chain) ∉ chain_ids)
      then verify_chains fuel page_size chain_ids chains failures
      else and_then (verify_chain fuel page_size chain) (λ chain_failures,
             verify_chains fuel page_size chain_ids chains (saturating_add usize_max failures chain_failures))
  end.
Definition verify_manifest (fuel : nat) (page_size : Z) (chain_ids : list Z) (chains : list IndexedArtifactChainEntry)
    : option (result string unit) :=
  if decide (page_size = 0) then Some (Err "--page-size must be non-zero"%string)
  else and_then (verify_chains fuel page_size chain_ids chains 0) (λ failures,
         Some (if decide (0 < failures) then Err "indexed Squid parity failed"%string else Ok tt)).
End compare.
End Squid.
