(* ===== verification/SquidParityCorrect.v ===== *)
(** * What a run of the Squid parity verifier says

    Against a service that serves finite lists page by page, possibly after
    transient failures, a run ends, and it reports no failure exactly when the
    loaded artifacts agree with the rows of the service. *)

From S2P Require Import Prelude Order Wire Ipfs Artifacts CommitmentChunk WalletScanChunk MerkleCheckpointChunk Traces Catalog SquidParity.
Import Squid.

(** ** Lists *)
Lemma first_mismatch_false {T} (matches : T → T → bool) l k :
  length l = length k → first_mismatch matches l k = false ↔ Forall2 (λ a b, matches a b = true) l k.
Proof.
  revert k. induction l as [|a l IH]; intros [|b k] Hl; try done.
  cbn in *. rewrite orb_false_iff, negb_false_iff. unfold first_mismatch in IH. rewrite IH by lia.
  split; [intros [??]; by constructor|]. intros Hf. by inversion Hf.
Qed.
Lemma saturating_one f : 0 ≤ f ≤ usize_max → 0 < saturating_add usize_max f 1 ≤ usize_max.
Proof. unfold saturating_add, usize_max, u64_max. lia. Qed.

Lemma compare_vec_spec {T} (matches : T → T → bool) l k :
  0 ≤ compare_wallet_vec matches l k ≤ usize_max ∧
  (compare_wallet_vec matches l k = 0 ↔ Forall2 (λ a b, matches a b = true) l k).
Proof.
  unfold compare_wallet_vec. assert (0 < usize_max) as Hu by done.
  case_decide as Hl.
  - assert (¬ Forall2 (λ a b, matches a b = true) l k) by (intros Hf%Forall2_length; done).
    destruct (first_mismatch _ _ _); [pose proof (saturating_one 1 ltac:(lia))|]; (split; [lia|]); split; try done; lia.
  - rewrite <- (first_mismatch_false matches l k Hl).
    destruct (first_mismatch _ _ _); [pose proof (saturating_one 0 ltac:(lia))|]; (split; [lia|]); split; try done; lia.
Qed.
Lemma compare_commitments_spec l k : 0 ≤ compare_commitments l k ≤ usize_max ∧ (compare_commitments l k = 0 ↔ l = k).
Proof.
  destruct (compare_vec_spec (λ l r, bool_decide (l = r)) l k) as [Hb Hz]. split; [exact Hb|]. etransitivity; [exact Hz|].
  rewrite list_eq_Forall2. split; intros Hf; (eapply Forall2_impl; [exact Hf|]); intros a b; apply bool_decide_eq_true.
Qed.
Lemma saturating_zero f g :
  0 ≤ f ≤ usize_max → 0 ≤ g ≤ usize_max →
  0 ≤ saturating_add usize_max f g ≤ usize_max ∧ (saturating_add usize_max f g = 0 ↔ f = 0 ∧ g = 0).
Proof. unfold saturating_add, usize_max, u64_max. lia. Qed.

Lemma not_or_split (P Q : Prop) : ¬ (P ∨ Q) → ¬ P ∧ ¬ Q.
Proof. tauto. Qed.
(** Three checks, each counting its failure. *)
Lemma add_failures (P1 P2 P3 A : Prop) `{Decision P1} `{Decision P2} `{Decision P3} f :
  0 ≤ f ≤ usize_max → (A ↔ ¬ P1 ∧ ¬ P2 ∧ ¬ P3) →
  let f1 := if decide P1 then saturating_add usize_max f 1 else f in
  let f2 := if decide P2 then saturating_add usize_max f1 1 else f1 in
  let f3 := if decide P3 then saturating_add usize_max f2 1 else f2 in
  0 ≤ f3 ≤ usize_max ∧ (f3 = 0 ↔ f = 0 ∧ A).
Proof.
  intros Hf HA. cbn. rewrite HA. clear HA A.
  destruct (decide P1), (decide P2), (decide P3); (split; [unfold saturating_add, usize_max, u64_max in *; lia|]);
    (split; [intros Hz; exfalso; unfold saturating_add, usize_max, u64_max in *; lia|tauto]) || tauto.
Qed.

(** ** Wallet rows *)
Section verdict.
Context `{TreeCrate} `{SquidCrate}.

Definition wallets_match (a b : WalletArtifacts TransactCiphertextOverlap) : Prop :=
  Forall2 (λ l r, transact_wallet_rows_match l r = true) (wa_transact a) (wa_transact b) ∧
  Forall2 (λ l r, shield_wallet_rows_match l r = true) (wa_shield a) (wa_shield b) ∧
  Forall2 (λ l r, nullifier_wallet_rows_match l r = true) (wa_nullifiers a) (wa_nullifiers b) ∧
  Forall2 (λ l r, legacy_encrypted_wallet_rows_match l r = true) (wa_legacy_encrypted a) (wa_legacy_encrypted b) ∧
  Forall2 (λ l r, legacy_generated_wallet_rows_match l r = true) (wa_legacy_generated a) (wa_legacy_generated b).
Lemma compare_wallet_spec a b : 0 ≤ compare_wallet a b ≤ usize_max ∧ (compare_wallet a b = 0 ↔ wallets_match a b).
Proof.
  unfold compare_wallet, wallets_match. cbn zeta.
  destruct (compare_vec_spec transact_wallet_rows_match (wa_transact a) (wa_transact b)) as [B1 Z1].
  destruct (compare_vec_spec shield_wallet_rows_match (wa_shield a) (wa_shield b)) as [B2 Z2].
  destruct (compare_vec_spec nullifier_wallet_rows_match (wa_nullifiers a) (wa_nullifiers b)) as [B3 Z3].
  destruct (compare_vec_spec legacy_encrypted_wallet_rows_match (wa_legacy_encrypted a) (wa_legacy_encrypted b)) as [B4 Z4].
  destruct (compare_vec_spec legacy_generated_wallet_rows_match (wa_legacy_generated a) (wa_legacy_generated b)) as [B5 Z5].
  rewrite <- Z1, <- Z2, <- Z3, <- Z4, <- Z5. unfold saturating_add, usize_max, u64_max in *. lia.
Qed.

(** ** Checkpoints *)
Lemma by_tree_filter rows t :
  default [] (squid_commitments_by_tree rows !! t) = filter (λ row, cr_tree_number row = t) rows.
Proof.
  unfold squid_commitments_by_tree. induction rows as [|row rows IH] using rev_ind; [done|].
  rewrite foldl_app, filter_app. cbn [foldl]. rewrite <- IH. destruct (decide (cr_tree_number row = t)) as [<-|Hn].
  - by rewrite lookup_insert_eq, filter_cons_True, filter_nil.
  - by rewrite lookup_insert_ne, filter_cons_False, filter_nil, app_nil_r by done.
Qed.

(** What the rows of the service say about position [i] of a tree: the last row
    there, or the zero leaf. *)
Definition squid_leaf (rows : list CommitmentRow) (t i : Z) : bytes :=
  default (be_bytes 32 MERKLE_ZERO_VALUE) (cr_hash <$> last (filter (λ row, cr_tree_number row = t ∧ cr_tree_position row = i) rows)).
Definition squid_leaves (rows : list CommitmentRow) (t n : Z) : list bytes := squid_leaf rows t <$> seqZ 0 n.

Lemma dense_leaves_app rows row n :
  n ≤ usize_max → 0 ≤ cr_tree_position row ≤ usize_max →
  dense_leaves (rows ++ [row]) n = <[Z.to_nat (cr_tree_position row) := cr_hash row]> (dense_leaves rows n).
Proof. intros Hn Hp. unfold dense_leaves. rewrite try_from_fits by done. rewrite foldl_app. cbn. by rewrite try_from_fits by lia. Qed.
Lemma dense_leaves_spec rows t n :
  0 ≤ n ≤ usize_max → Forall (λ row, 0 ≤ cr_tree_position row ≤ usize_max) rows →
  dense_leaves (filter (λ row, cr_tree_position row < n) (filter (λ row, cr_tree_number row = t) rows)) n = squid_leaves rows t n.
Proof.
  intros Hn. induction rows as [|row rows IH] using rev_ind; intros Hall.
  - unfold squid_leaves, dense_leaves. rewrite !filter_nil, try_from_fits by lia. cbn [foldl].
    apply list_eq. intros i. rewrite list_lookup_fmap. destruct (decide (i < Z.to_nat n)%nat) as [Hi|Hi].
    + rewrite lookup_replicate_2, lookup_seqZ_lt by lia. done.
    + rewrite lookup_seqZ_ge by lia. apply lookup_replicate_None. lia.
  - apply Forall_app in Hall as [Hall Hrow]. apply Forall_cons in Hrow as [Hrow _]. specialize (IH Hall). cbn beta in Hrow. rewrite filter_app.
    assert (∀ i, squid_leaf (rows ++ [row]) t i = if decide (cr_tree_number row = t ∧ cr_tree_position row = i) then cr_hash row else squid_leaf rows t i) as Hleaf.
    { intros i. unfold squid_leaf. rewrite filter_app. destruct (decide (_ ∧ _)) as [Hd|Hd].
      - by rewrite filter_cons_True, filter_nil, last_snoc.
      - by rewrite filter_cons_False, filter_nil, app_nil_r. }
    assert (squid_leaves (rows ++ [row]) t n = if decide (cr_tree_number row = t)
      then <[Z.to_nat (cr_tree_position row) := cr_hash row]> (squid_leaves rows t n) else squid_leaves rows t n) as ->.
    { apply list_eq. intros i. unfold squid_leaves. rewrite list_lookup_fmap. destruct (decide (cr_tree_number row = t)) as [Ht|Ht].
      - rewrite list_lookup_insert, list_lookup_fmap, length_fmap, length_seqZ. destruct (decide (i < Z.to_nat n)%nat) as [Hi|Hi].
        + rewrite lookup_seqZ_lt by lia. cbn [fmap option_fmap option_map]. rewrite Hleaf.
          destruct (decide (Z.to_nat (cr_tree_position row) = i)) as [Heq|Hne].
          * rewrite decide_True by (split; [done|lia]). rewrite decide_True by (split; [done|lia]). done.
          * rewrite decide_False by (intros [_ ?]; lia). rewrite decide_False by (intros [? _]; lia). done.
        + rewrite lookup_seqZ_ge by lia. cbn. rewrite decide_False by lia. done.
      - rewrite list_lookup_fmap. destruct (seqZ 0 n !! i) as [z|]; [|done]. cbn. rewrite Hleaf, decide_False by tauto. done. }
    rewrite <- IH. destruct (decide (cr_tree_number row = t)) as [Ht|Ht].
    + rewrite filter_cons_True, filter_nil by done. rewrite filter_app. destruct (decide (cr_tree_position row < n)) as [Hlt|Hge].
      * rewrite filter_cons_True, filter_nil by done. apply dense_leaves_app; lia.
      * rewrite filter_cons_False, filter_nil, app_nil_r by done. rewrite list_insert_ge; [done|]. rewrite IH. unfold squid_leaves.
        rewrite length_fmap, length_seqZ. lia.
    + by rewrite filter_cons_False, filter_nil, app_nil_r.
Qed.

(** A checkpoint agrees with the rows of the service: its last leaf is one of
    theirs, its leaves and root are those of their tree, and its descriptor
    says the same. *)
Record checkpoint_agrees (rows : list CommitmentRow) (cp : ParsedCheckpoint) : Prop := {
  ca_reached : pc_leaf_count cp = 0 ∨
    ∃ row, row ∈ rows ∧ cr_tree_number row = pc_tree_number cp ∧ cr_tree_position row = pc_leaf_count cp - 1;
  ca_leaves : pc_leaves cp = squid_leaves rows (pc_tree_number cp) (pc_leaf_count cp);
  ca_root : merkle_root (pc_leaves cp) = Ok (pc_root cp);
  ca_meta_root : meta_root (desc_metadata (MerkleCheckpointChunk.pc_descriptor cp)) = Some (pc_root cp);
  ca_meta_leaf_count : meta_leaf_count (desc_metadata (MerkleCheckpointChunk.pc_descriptor cp)) = Some (pc_leaf_count cp);
  ca_meta_tree : meta_tree_number (desc_metadata (MerkleCheckpointChunk.pc_descriptor cp)) = try_from u16_max (pc_tree_number cp);
  ca_meta_block : meta_last_indexed_block (desc_metadata (MerkleCheckpointChunk.pc_descriptor cp)) = Some (pc_last_indexed_block cp);
}.
Definition positions_ok (rows : list CommitmentRow) : Prop := Forall (λ row, 0 ≤ cr_tree_position row ≤ u64_max) rows.

Lemma max_list_elem l m : max_list l = Some m → m ∈ l.
Proof.
  destruct l as [|x l]; [done|]. intros [= <-]. revert x. induction l as [|y l IH]; intros x; cbn; [by left|].
  destruct (Z.max_spec x y) as [[_ ->]|[_ ->]]; [right; apply IH|]. specialize (IH x). rewrite elem_of_cons in IH |- *. rewrite elem_of_cons. tauto.
Qed.
Lemma expected_leaf_count_spec rows t n :
  positions_ok rows → 0 ≤ n ≤ u64_max →
  n = match max_list (cr_tree_position <$> filter (λ row, cr_tree_position row < n) (filter (λ row, cr_tree_number row = t) rows)) with
      | None => 0 | Some position => saturating_add u64_max position 1 end ↔
  n = 0 ∨ ∃ row, row ∈ rows ∧ cr_tree_number row = t ∧ cr_tree_position row = n - 1.
Proof.
  intros Hpos Hn. unfold positions_ok in Hpos. rewrite Forall_forall in Hpos.
  set (l := filter (λ row, cr_tree_position row < n) (filter (λ row, cr_tree_number row = t) rows)).
  assert (∀ row, row ∈ l ↔ row ∈ rows ∧ cr_tree_number row = t ∧ cr_tree_position row < n) as Hl.
  { intros row. unfold l. rewrite !list_elem_of_filter. tauto. }
  destruct (max_list (cr_tree_position <$> l)) as [p|] eqn:Hmax.
  - pose proof (max_list_spec _ _ Hmax) as Hle. assert (p ∈ cr_tree_position <$> l) as (row & -> & Hrow)%list_elem_of_fmap by (by apply max_list_elem).
    apply Hl in Hrow as (Hin & Ht & Hlt). pose proof (Hpos row Hin) as Hb. unfold saturating_add. split.
    + intros Heq. right. exists row. split_and!; [done|done|lia].
    + intros [->|(row' & Hin' & Ht' & Heq)]; [lia|]. rewrite Forall_fmap, Forall_forall in Hle.
      assert (row' ∈ l) as Hr by (apply Hl; split_and!; [done|done|lia]). specialize (Hle row' Hr). cbn in Hle. lia.
  - assert (l = []) as Hnil by (destruct l; [done|discriminate Hmax]). split; [by left|]. intros [->|(row & Hin & Ht & Heq)]; [done|]. exfalso.
    assert (row ∈ l) as Hr by (apply Hl; split_and!; [done|done|lia]). rewrite Hnil in Hr. by apply not_elem_of_nil in Hr.
Qed.

Lemma compare_checkpoint_spec rows f cp :
  positions_ok rows → 0 ≤ pc_leaf_count cp ≤ u64_max → 0 ≤ f ≤ usize_max →
  0 ≤ compare_checkpoint (squid_commitments_by_tree rows) f cp ≤ usize_max ∧
  (compare_checkpoint (squid_commitments_by_tree rows) f cp = 0 ↔ f = 0 ∧ checkpoint_agrees rows cp).
Proof.
  intros Hpos Hn Hf. pose proof (saturating_one f Hf) as Hone. unfold compare_checkpoint. rewrite by_tree_filter. cbn zeta.
  pose proof (expected_leaf_count_spec rows (pc_tree_number cp) (pc_leaf_count cp) Hpos Hn) as Hcount.
  rewrite dense_leaves_spec by done.
  match goal with |- context [decide (pc_leaf_count cp ≠ ?x)] => destruct (decide (pc_leaf_count cp ≠ x)) as [Hne|Heq] end.
  { split; [lia|]. split; [lia|]. intros [_ Ha]. exfalso. by apply Hne, Hcount, Ha. }
  assert (pc_leaf_count cp = 0 ∨ ∃ row, row ∈ rows ∧ cr_tree_number row = pc_tree_number cp ∧ cr_tree_position row = pc_leaf_count cp - 1) as Hreach
    by (apply Hcount; lia).
  destruct (merkle_root (squid_leaves rows _ _)) as [root|e] eqn:Hroot.
  2:{ split; [lia|]. split; [lia|]. intros [_ Ha]. exfalso. pose proof (ca_root _ _ Ha) as Hr. rewrite (ca_leaves _ _ Ha) in Hr. congruence. }
  assert (checkpoint_agrees rows cp ↔ ¬ (pc_leaves cp ≠ squid_leaves rows (pc_tree_number cp) (pc_leaf_count cp) ∨ pc_root cp ≠ root) ∧
    ¬ (meta_root (desc_metadata (MerkleCheckpointChunk.pc_descriptor cp)) ≠ Some root) ∧
    ¬ (meta_leaf_count (desc_metadata (MerkleCheckpointChunk.pc_descriptor cp)) ≠ Some (pc_leaf_count cp) ∨
       meta_tree_number (desc_metadata (MerkleCheckpointChunk.pc_descriptor cp)) ≠ try_from u16_max (pc_tree_number cp) ∨
       meta_last_indexed_block (desc_metadata (MerkleCheckpointChunk.pc_descriptor cp)) ≠ Some (pc_last_indexed_block cp))) as Ha.
  { split.
    - intros [_ Hl Hr Hm1 Hm2 Hm3 Hm4]. rewrite Hl in Hr. assert (root = pc_root cp) as -> by congruence.
      split_and!; [by intros [?|?]|by intros ?|by intros [?|[?|?]]].
    - intros (H1 & H2 & H3).
      apply not_or_split in H1 as [Hl%dec_stable Hr%dec_stable]. apply dec_stable in H2. apply not_or_split in H3 as [H3%dec_stable H4].
      apply not_or_split in H4 as [H4%dec_stable H5%dec_stable].
      subst root. split; [done|done|by rewrite Hl|done..]. }
  by apply add_failures.
Qed.

Lemma compare_checkpoints_spec cps rows :
  positions_ok rows → Forall (λ cp, 0 ≤ pc_leaf_count cp ≤ u64_max) cps →
  0 ≤ compare_merkle_checkpoints cps rows ≤ usize_max ∧
  (compare_merkle_checkpoints cps rows = 0 ↔ Forall (checkpoint_agrees rows) cps).
Proof.
  intros Hpos. unfold compare_merkle_checkpoints. assert (0 ≤ 0 ≤ usize_max) as Hf by done. revert Hf.
  assert (∀ f, 0 ≤ f ≤ usize_max → Forall (λ cp, 0 ≤ pc_leaf_count cp ≤ u64_max) cps →
    0 ≤ foldl (compare_checkpoint (squid_commitments_by_tree rows)) f cps ≤ usize_max ∧
    (foldl (compare_checkpoint (squid_commitments_by_tree rows)) f cps = 0 ↔ f = 0 ∧ Forall (checkpoint_agrees rows) cps)) as Hgen.
  { induction cps as [|cp cps IH]; intros f Hf Hall; cbn; [rewrite Forall_nil; tauto|]. apply Forall_cons in Hall as [Hcp Hall].
    destruct (compare_checkpoint_spec rows f cp Hpos Hcp Hf) as [Hb Hz]. destruct (IH _ Hb Hall) as [Hb' Hz']. split; [done|].
    rewrite Hz', Hz, Forall_cons. tauto. }
  intros Hf Hall. destruct (Hgen 0 Hf Hall) as [Hb Hz]. split; [done|]. rewrite Hz. tauto.
Qed.
End verdict.

(** ** Pages *)
Section pages.
Context (post : string → string → Z → Z → Z → nat → result SquidError GraphqlResponse).

(** A query that the service answers from a finite list, each page within the
    attempts of the verifier. *)
Definition serves (endpoint field : string) (max_block : Z) (values : list Value) : Prop :=
  ∀ offset limit, 0 ≤ offset → 0 < limit →
  ∃ k, (1 ≤ k ≤ SQUID_PAGE_RETRY_ATTEMPTS)%nat ∧
    (∀ attempt, (1 ≤ attempt < k)%nat → ∃ msg, post endpoint field offset limit max_block attempt = Err (mkSquidError true msg)) ∧
    ∃ data, post endpoint field offset limit max_block k = Ok (mkResponse (Some data) None) ∧
      get field data = Some (JArray (take (Z.to_nat limit) (drop (Z.to_nat offset) values))).

Lemma page_once_ok endpoint field offset limit max_block attempt data page :
  offset ≤ i32_max → limit ≤ i32_max →
  post endpoint field offset limit max_block attempt = Ok (mkResponse (Some data) None) → get field data = Some (JArray page) →
  fetch_squid_page_once post endpoint field offset limit max_block attempt = Ok page.
Proof.
  intros Ho Hl Hp Hg. unfold fetch_squid_page_once. rewrite !try_from_fits by done. cbn. rewrite Hp. cbn. by rewrite Hg.
Qed.
Lemma page_once_err endpoint field offset limit max_block attempt msg :
  offset ≤ i32_max → limit ≤ i32_max →
  post endpoint field offset limit max_block attempt = Err (mkSquidError true msg) →
  fetch_squid_page_once post endpoint field offset limit max_block attempt = Err (mkSquidError true msg).
Proof. intros Ho Hl Hp. unfold fetch_squid_page_once. rewrite !try_from_fits by done. cbn. by rewrite Hp. Qed.

Lemma fetch_page_serves endpoint field max_block values offset limit :
  serves endpoint field max_block values → 0 ≤ offset ≤ i32_max → 0 < limit ≤ i32_max →
  fetch_squid_page post endpoint field offset limit max_block = Ok (take (Z.to_nat limit) (drop (Z.to_nat offset) values)).
Proof.
  intros Hs Ho Hl. destruct (Hs offset limit) as (k & Hk & Hfail & data & Hok & Hdata); [lia..|]. unfold fetch_squid_page.
  assert (∀ d attempt, (attempt + d = k)%nat → (1 ≤ attempt)%nat → ∀ remaining, (d < remaining)%nat →
    page_attempts post remaining attempt endpoint field offset limit max_block = Ok (take (Z.to_nat limit) (drop (Z.to_nat offset) values))) as Hgen.
  { induction d as [|d IH]; intros attempt Hd Ha [|remaining] Hr; [lia| |lia|]; cbn.
    - assert (attempt = k) as -> by lia. by erewrite page_once_ok by (exact Hok || exact Hdata || lia).
    - destruct (Hfail attempt) as [msg Hmsg]; [lia|]. erewrite page_once_err by (exact Hmsg || lia). cbn.
      rewrite bool_decide_eq_true_2 by lia. cbn. apply IH; lia. }
  apply (Hgen (k - 1)%nat); lia.
Qed.

Lemma pages_loop endpoint field page_size max_block values fuel n :
  serves endpoint field max_block values → 0 < page_size ≤ i32_max → Z.of_nat (length values) ≤ i32_max →
  (n ≤ length values)%nat → (length values - n < fuel)%nat →
  squid_pages_loop post fuel endpoint field page_size max_block (Z.of_nat n) (take n values) = Some (Ok values).
Proof.
  intros Hs Hp Hmax. revert n. induction fuel as [|fuel IH]; intros n Hn Hf; [lia|]. cbn [squid_pages_loop].
  erewrite fetch_page_serves by (exact Hs || lia). rewrite Nat2Z.id. set (page := take (Z.to_nat page_size) (drop n values)).
  assert (length page = (Z.to_nat page_size `min` (length values - n))%nat) as Hlen by (unfold page; by rewrite length_take, length_drop).
  destruct (decide (page = [])) as [Hnil|Hne].
  { rewrite Hnil in Hlen. cbn in Hlen. rewrite take_ge by lia. done. }
  assert (0 < length page)%nat as Hpos by (destruct page; cbn; [done|lia]).
  assert (take n values ++ page = take (n + length page) values) as Happ.
  { unfold page. rewrite take_take_drop. destruct (decide (Z.to_nat page_size ≤ length values - n)%nat).
    - f_equal. fold page. lia.
    - rewrite !take_ge; [done|fold page; lia..]. }
  rewrite Happ. cbn zeta. rewrite try_from_fits by (unfold i32_max, usize_max, u64_max in *; lia).
  case_decide as Hlt.
  - rewrite take_ge by lia. done.
  - rewrite try_from_len_fits by (rewrite length_take; unfold i32_max, u64_max in *; lia).
    rewrite length_take, Nat.min_l by lia. apply IH; lia.
Qed.
Lemma fetch_pages_serves endpoint field page_size max_block values fuel :
  serves endpoint field max_block values → 0 < page_size ≤ i32_max → Z.of_nat (length values) ≤ i32_max → (length values < fuel)%nat →
  fetch_squid_pages post fuel endpoint field page_size max_block = Some (Ok values).
Proof. intros Hs Hp Hmax Hf. apply (pages_loop _ _ _ _ _ fuel 0 Hs Hp Hmax); lia. Qed.
End pages.

(** ** A chain *)
Section chain.
Context `{TreeCrate} `{SquidCrate} `{HexStrings} `{ArtifactCrate} (http_get : string → HttpAnswer).
Context (post : string → string → Z → Z → Z → nat → result SquidError GraphqlResponse).

(** The answers of the service to a query, at most [n] of them, read as rows. *)
Definition serves_as {A} (endpoint field : string) (max_block : Z) (n : nat) (read : list Value → result string A) (rows : A) : Prop :=
  ∃ values, serves post endpoint field max_block values ∧ (length values ≤ n)%nat ∧ read values = Ok rows.
Record serves_rows (endpoint : string) (commitment_block wallet_block : Z) (n : nat) (commitments : list CommitmentRow)
    (wallet : WalletArtifacts TransactCiphertextOverlap) : Prop := {
  sr_commitments : serves_as endpoint "commitments" commitment_block n (try_map parse_squid_commitment) commitments;
  sr_transact : serves_as endpoint "transactCommitments" wallet_block n
    (λ values, try_map parse_squid_transact (List.filter has_ciphertext values)) (wa_transact wallet);
  sr_shield : serves_as endpoint "shieldCommitments" wallet_block n (try_map parse_squid_shield) (wa_shield wallet);
  sr_nullifiers : serves_as endpoint "nullifiers" wallet_block n (try_map parse_squid_nullifier) (wa_nullifiers wallet);
  sr_legacy_encrypted : serves_as endpoint "legacyEncryptedCommitments" wallet_block n (try_map parse_squid_legacy_encrypted) (wa_legacy_encrypted wallet);
  sr_legacy_generated : serves_as endpoint "legacyGeneratedCommitments" wallet_block n (try_map parse_squid_legacy_generated) (wa_legacy_generated wallet);
}.

Lemma run_pages_serves {A} endpoint field max_block n (read : list Value → result string A) rows page_size fuel :
  serves_as endpoint field max_block n read rows → 0 < page_size ≤ i32_max → Z.of_nat n ≤ i32_max → (n < fuel)%nat →
  run_pages (fetch_squid_pages post fuel endpoint field page_size max_block) read = Some (Ok rows).
Proof.
  intros (values & Hs & Hlen & Hread) Hp Hn Hf. erewrite fetch_pages_serves by (exact Hs || lia). cbn. by rewrite Hread.
Qed.

Lemma fetch_wallet_serves endpoint cb wb n commitments wallet page_size fuel :
  serves_rows endpoint cb wb n commitments wallet → 0 < page_size ≤ i32_max → Z.of_nat n ≤ i32_max → (n < fuel)%nat →
  fetch_squid_wallet post fuel endpoint page_size wb = Some (Ok (sort_wallet wallet)).
Proof.
  intros [_ H1' H2' H3' H4' H5'] Hp Hn Hf. unfold fetch_squid_wallet. cbn zeta.
  do 5 (erewrite run_pages_serves by (eassumption || lia); cbn [and_then]). by destruct wallet.
Qed.
Lemma fetch_commitments_serves endpoint cb wb n commitments wallet page_size fuel :
  serves_rows endpoint cb wb n commitments wallet → 0 < page_size ≤ i32_max → Z.of_nat n ≤ i32_max → (n < fuel)%nat →
  fetch_squid_commitments post fuel endpoint page_size cb = Some (Ok (sort_by_key cr_global_position commitments)).
Proof.
  intros [(values & Hs & Hlen & Hread) _ _ _ _ _] Hp Hn Hf. unfold fetch_squid_commitments.
  erewrite fetch_pages_serves by (exact Hs || lia). cbn. by rewrite Hread.
Qed.

Definition commitment_max_block (artifacts : ChainArtifacts) (latest : Z) : Z :=
  match max_list (cr_block_number <$> ca_commitments artifacts) with None => latest | Some block => Z.max block latest end.
(** What it means that the artifacts of a chain agree with the service. *)
Definition artifacts_agree (artifacts : ChainArtifacts) (commitments : list CommitmentRow) (wallet : WalletArtifacts TransactCiphertextOverlap) : Prop :=
  let commitments := sort_by_key cr_global_position commitments in
  ca_commitments artifacts = squid_commitments_in_ranges (ca_commitment_ranges artifacts) commitments ∧
  Forall (checkpoint_agrees commitments) (ca_merkle_checkpoints artifacts) ∧
  wallets_match (ca_wallet artifacts) (sort_wallet wallet).

Lemma verify_chain_spec fuel page_size chain endpoint artifacts latest wallet_block n commitments wallet :
  0 < page_size ≤ i32_max → Z.of_nat n ≤ i32_max → (n < fuel)%nat →
  squid_endpoint (chain_id (en_scope chain)) = Ok endpoint → load_chain_artifacts http_get chain = Ok artifacts →
  latest_indexed_block chain Commitments = Ok latest → latest_indexed_block chain WalletScan = Ok wallet_block →
  serves_rows endpoint (commitment_max_block artifacts latest) wallet_block n commitments wallet →
  positions_ok commitments → Forall (λ cp, 0 ≤ pc_leaf_count cp ≤ u64_max) (ca_merkle_checkpoints artifacts) →
  ∃ failures, verify_chain http_get post fuel page_size chain = Some (Ok failures) ∧ 0 ≤ failures ≤ usize_max ∧
    (failures = 0 ↔ artifacts_agree artifacts commitments wallet).
Proof.
  intros Hp Hn Hf He Hload Hc Hw Hs Hpos Hcps. unfold verify_chain. rewrite He. cbn [mbind result_bind]. rewrite Hload. cbn [mbind result_bind].
  rewrite Hc. cbn [mbind result_bind]. rewrite Hw. cbn [mbind result_bind and_then].
  fold (commitment_max_block artifacts latest). erewrite fetch_commitments_serves by eassumption. cbn [and_then].
  erewrite fetch_wallet_serves by eassumption. cbn [and_then]. eexists. split; [done|]. unfold artifacts_agree. cbn zeta.
  set (squid := sort_by_key cr_global_position commitments).
  assert (positions_ok squid) as Hpos' by (unfold positions_ok, squid; by rewrite sort_by_key_perm).
  destruct (compare_commitments_spec (ca_commitments artifacts) (squid_commitments_in_ranges (ca_commitment_ranges artifacts) squid)) as [B1 Z1].
  destruct (compare_checkpoints_spec (ca_merkle_checkpoints artifacts) squid Hpos' Hcps) as [B2 Z2].
  destruct (compare_wallet_spec (ca_wallet artifacts) (sort_wallet wallet)) as [B3 Z3].
  destruct (saturating_zero _ _ B1 B2) as [B4 Z4]. destruct (saturating_zero _ _ B4 B3) as [B5 Z5].
  split; [exact B5|]. rewrite Z5, Z4, Z1, Z2, Z3. clear. tauto.
Qed.

(** C22. The verdict of the Squid parity verifier: against a service that answers
    each query from a finite list, page by page and possibly after transient
    failures, verifying a chain ends, and it counts no failure exactly when the
    published commitments are the service's commitments inside the published
    ranges, each published Merkle checkpoint has the leaves and the root of
    the service's tree and says so in its descriptor, and the wallet rows of
    all five kinds match one by one in key order. *)
Theorem squid_parity_verdict fuel page_size chain endpoint artifacts latest wallet_block n commitments wallet :
  0 < page_size ≤ i32_max → Z.of_nat n ≤ i32_max → (n < fuel)%nat →
  squid_endpoint (chain_id (en_scope chain)) = Ok endpoint → load_chain_artifacts http_get chain = Ok artifacts →
  latest_indexed_block chain Commitments = Ok latest → latest_indexed_block chain WalletScan = Ok wallet_block →
  serves_rows endpoint (commitment_max_block artifacts latest) wallet_block n commitments wallet →
  positions_ok commitments → Forall (λ cp, 0 ≤ pc_leaf_count cp ≤ u64_max) (ca_merkle_checkpoints artifacts) →
  ∃ failures, verify_chain http_get post fuel page_size chain = Some (Ok failures) ∧
    (failures = 0 ↔ artifacts_agree artifacts commitments wallet).
Proof.
  intros. edestruct (verify_chain_spec fuel page_size chain endpoint artifacts latest wallet_block n commitments wallet) as (f & Hv & _ & Hz); eauto.
Qed.
End chain.
