(* ===== verification/SquidAccepts.v ===== *)
(** * Published rows pass the parity check

    The publisher and the verifier together: chunks prepared from stored rows,
    served by a gateway, against a Squid service with the same rows. *)

From stdpp Require Import sorting.
From S2P Require Import Prelude Order Wire Ipfs Artifacts CommitmentChunk WalletScanChunk MerkleCheckpointChunk Traces Catalog SquidParity SquidParityCorrect.
Import Squid.

(** ** Sorting rows with distinct keys *)
Lemma sort_by_key_unique {A} (key : A → Z) l k :
  NoDup (key <$> l) → l ≡ₚ k → sort_by_key key l = sort_by_key key k.
Proof.
  intros Hnd Hp. assert (∀ l, NoDup (key <$> l) → StronglySorted (λ a b, key a < key b) (sort_by_key key l)) as Hs.
  { intros l' Hl'. apply StronglySorted_fmap_inv, StronglySorted_NoDup_lt.
    - by rewrite sort_by_key_perm.
    - apply StronglySorted_fmap, sort_by_key_sorted. }
  apply (StronglySorted_unique_strong (λ a b, key a < key b)); [| | |by rewrite !sort_by_key_perm].
  - intros x y _ _ ??. lia.
  - by apply Hs.
  - apply Hs. by rewrite <- Hp.
Qed.
Lemma sort_by_key_fmap_elem {A} (key : A → Z) l x : x ∈ sort_by_key key l ↔ x ∈ l.
Proof. by rewrite sort_by_key_perm. Qed.

Section matches.
Context `{SquidCrate}.
Lemma timestamp_refl t : optional_timestamp_matches t t = true.
Proof. destruct t; [by apply bool_decide_eq_true|done]. Qed.
Lemma transact_refl r : transact_wallet_rows_match r r = true.
Proof. unfold transact_wallet_rows_match. by rewrite timestamp_refl, !bool_decide_eq_true_2. Qed.
Lemma shield_refl r : shield_wallet_rows_match r r = true.
Proof. unfold shield_wallet_rows_match, commitment_preimage_bytes_match. by rewrite timestamp_refl, decide_True, !bool_decide_eq_true_2. Qed.
Lemma nullifier_refl r : nullifier_wallet_rows_match r r = true.
Proof. unfold nullifier_wallet_rows_match. by rewrite timestamp_refl, !bool_decide_eq_true_2. Qed.
Lemma legacy_encrypted_refl r : legacy_encrypted_wallet_rows_match r r = true.
Proof. unfold legacy_encrypted_wallet_rows_match. by rewrite timestamp_refl, !bool_decide_eq_true_2. Qed.
Lemma legacy_generated_refl r : legacy_generated_wallet_rows_match r r = true.
Proof. unfold legacy_generated_wallet_rows_match, legacy_preimage_bytes_match. by rewrite timestamp_refl, decide_True, !bool_decide_eq_true_2. Qed.
Lemma wallets_match_refl w : wallets_match w w.
Proof.
  unfold wallets_match. split_and!; apply Forall_Forall2_diag, Forall_true;
    [apply transact_refl|apply shield_refl|apply nullifier_refl|apply legacy_encrypted_refl|apply legacy_generated_refl].
Qed.
End matches.

(** The rows of two wallets, in any order; keys are distinct. *)
Definition same_rows (a b : WalletArtifacts TransactCiphertextOverlap) : Prop :=
  wa_transact a ≡ₚ wa_transact b ∧ wa_shield a ≡ₚ wa_shield b ∧ wa_nullifiers a ≡ₚ wa_nullifiers b ∧
  wa_legacy_encrypted a ≡ₚ wa_legacy_encrypted b ∧ wa_legacy_generated a ≡ₚ wa_legacy_generated b.
Definition distinct_keys (w : WalletArtifacts TransactCiphertextOverlap) : Prop :=
  NoDup (tw_key <$> wa_transact w) ∧ NoDup (sw_key <$> wa_shield w) ∧ NoDup (nw_key <$> wa_nullifiers w) ∧
  NoDup (ew_key <$> wa_legacy_encrypted w) ∧ NoDup (gw_key <$> wa_legacy_generated w).
#[export] Instance key_tuple_inj : Inj eq eq key_tuple.
Proof. intros [] [] [= -> -> -> -> ->]. done. Qed.
Lemma sort_wallet_unique a b : distinct_keys a → same_rows a b → sort_wallet a = sort_wallet b.
Proof.
  intros (K1 & K2 & K3 & K4 & K5) (P1 & P2 & P3 & P4 & P5). unfold sort_wallet.
  f_equal; apply sort_cmp_key_unique; try done; rewrite list_fmap_compose; by apply (NoDup_fmap_2 key_tuple).
Qed.

(** ** Chunks *)
Section load.
Context `{TreeCrate} `{SquidCrate} `{HexStrings} `{ArtifactCrate} {Cid : Type} (http_get : string → HttpAnswer).
Context (overlap : bytes → TransactCiphertextOverlap).

Inductive ChunkContent :=
  | CommitmentContent (records : list StoredCommitmentRow)
  | WalletContent (rows : StoredWalletScanRows)
  | CheckpointContent (checkpoint : MerkleCheckpointArtifact).

(** A published chunk: the gateways serve its bytes, and decoding them gives the
    envelope that was encoded. *)
Definition available (d : IndexedArtifactDescriptor) (pub : PublishedChunk) : Prop :=
  (∃ cid, d = set_cid (published_descriptor pub) cid) ∧ fetch_ipfs http_get (desc_cid d) = Ok (published_bytes pub) ∧
  ∀ env, encode_chunk_bytes env (desc_compression d) = Ok (published_bytes pub) → decode_chunk_bytes d (published_bytes pub) = Ok env.
Inductive published_as (d : IndexedArtifactDescriptor) : ChunkContent → Prop :=
  | published_commitments scope records compression pub :
      Forall commitment_row_wf records → prepare_commitment_chunk (Cid := Cid) scope records compression = Ok pub → available d pub →
      published_as d (CommitmentContent records)
  | published_wallet scope start stop rows compression pub :
      wallet_rows_wf rows → Forall (λ r, ciphertext_abi_decode (tr_ciphertext r) = Some (overlap (tr_ciphertext r))) (ws_transact_commitments rows) →
      prepare_wallet_scan_chunk (Cid := Cid) scope start stop rows compression = Ok pub → available d pub →
      published_as d (WalletContent rows)
  | published_checkpoint scope cp compression pub :
      checkpoint_wf cp → prepare_merkle_checkpoint_artifact (Cid := Cid) scope cp compression = Ok pub → available d pub →
      published_as d (CheckpointContent cp).

Definition parsed_checkpoint (d : IndexedArtifactDescriptor) (cp : MerkleCheckpointArtifact) : ParsedCheckpoint :=
  mkParsedCheckpoint d (mc_tree_number cp) (mc_leaf_count cp) (checkpoint_root cp) (mc_last_indexed_block cp) (mc_leaves cp).
(** What a chunk adds to the loaded artifacts. *)
Definition add_content (a : ChainArtifacts) (c : IndexedArtifactDescriptor * ChunkContent) : ChainArtifacts :=
  match c.2 with
  | CommitmentContent records =>
      mkChainArtifacts (ca_commitments a ++ (parsed_commitment <$> records)) (ca_commitment_ranges a ++ [desc_range c.1])
        (ca_merkle_checkpoints a) (ca_wallet a) (ca_wallet_ranges a)
  | CheckpointContent cp =>
      mkChainArtifacts (ca_commitments a) (ca_commitment_ranges a) (ca_merkle_checkpoints a ++ [parsed_checkpoint c.1 cp])
        (ca_wallet a) (ca_wallet_ranges a)
  | WalletContent rows =>
      mkChainArtifacts (ca_commitments a) (ca_commitment_ranges a) (ca_merkle_checkpoints a)
        (extend_wallet (ca_wallet a) (parsed_wallet overlap rows)) (ca_wallet_ranges a ++ [desc_range c.1])
  end.

(** What preparing records of the bytes. *)
Definition descriptor_of_bytes (kind : Artifacts.IndexedDatasetKind) (compression : CompressionAlgorithm) (pub : PublishedChunk) : Prop :=
  desc_dataset_kind (published_descriptor pub) = kind ∧ desc_compression (published_descriptor pub) = compression ∧
  desc_sha256 (published_descriptor pub) = sha256 (published_bytes pub) ∧
  desc_byte_size (published_descriptor pub) = Z.of_nat (length (published_bytes pub)) ∧ Z.of_nat (length (published_bytes pub)) ≤ u64_max.
Lemma load_envelope kind compression d pub env :
  available d pub → descriptor_of_bytes kind compression pub → encode_chunk_bytes env compression = Ok (published_bytes pub) →
  desc_dataset_kind d = kind ∧
  ∀ B (k : ChunkEnvelope → result string B) e,
    (bs ← fetch_ipfs http_get (desc_cid d); _ ← verify_bytes bs (desc_cid d) (desc_sha256 d) (desc_byte_size d);
     env ← map_err e (decode_chunk_bytes d bs); k env) = k env.
Proof.
  intros ([cid ->] & Hf & Hd) (Hk & Hc & Hsha & Hsize & Hmax) Henc. cbn in *. split; [done|]. intros B k e. rewrite Hf. cbn.
  unfold verify_bytes. rewrite try_from_len_fits by done. cbn. rewrite Hsize, Hsha. rewrite decide_False by tauto. rewrite decide_False by tauto.
  cbn. by rewrite (Hd env) by by rewrite Hc.
Qed.
Lemma commitment_descriptor scope records compression pub :
  prepare_commitment_chunk (Cid := Cid) scope records compression = Ok pub → descriptor_of_bytes Commitments compression pub.
Proof. unfold prepare_commitment_chunk. intros Hp. res_inv. case_decide; [done|]. res_inv. int_facts. by split_and!. Qed.
Lemma wallet_descriptor scope start stop rows compression pub :
  prepare_wallet_scan_chunk (Cid := Cid) scope start stop rows compression = Ok pub → descriptor_of_bytes WalletScan compression pub.
Proof.
  unfold prepare_wallet_scan_chunk. case_decide; [done|]. intros Hp. res_inv.
  repeat match goal with p : (_ * _)%type |- _ => destruct p end. res_inv. case_decide; [done|]. res_inv. int_facts. by split_and!.
Qed.
Lemma checkpoint_descriptor scope cp compression pub :
  prepare_merkle_checkpoint_artifact (Cid := Cid) scope cp compression = Ok pub → descriptor_of_bytes MerkleCheckpoint compression pub.
Proof. unfold prepare_merkle_checkpoint_artifact. intros Hp. res_inv. case_decide; [done|]. res_inv. int_facts. by split_and!. Qed.

Lemma load_published a d c : published_as d c → load_chunk http_get a d = Ok (add_content a (d, c)).
Proof.
  intros Hpub. destruct Hpub as [scope records compression pub Hwf Hp Hav|scope start stop rows compression pub Hwf Hov Hp Hav|scope cp compression pub Hwf Hp Hav].
  - destruct (commitment_chunk_envelope _ _ _ _ Hwf Hp) as (env & Henc & Hparse).
    destruct (load_envelope _ _ d pub env Hav (commitment_descriptor _ _ _ _ Hp) Henc) as [Hk Hload].
    unfold load_chunk. rewrite Hload, Hk, Hparse. done.
  - destruct (wallet_scan_chunk_envelope (Cid := Cid) parse_transact_ciphertext_overlap overlap scope start stop rows compression pub Hwf) as [(env & Henc & Hparse) _]; [|exact Hp|].
    { eapply Forall_impl; [exact Hov|]. intros r Hr. unfold parse_transact_ciphertext_overlap. cbn in Hr. by rewrite Hr. }
    destruct (load_envelope _ _ d pub env Hav (wallet_descriptor _ _ _ _ _ _ Hp) Henc) as [Hk Hload].
    unfold load_chunk. rewrite Hload, Hk, Hparse. done.
  - destruct (merkle_checkpoint_roundtrip _ _ _ _ Hwf Hp) as [(env & Henc & Hparse) _].
    destruct (load_envelope _ _ d pub env Hav (checkpoint_descriptor _ _ _ _ Hp) Henc) as [Hk Hload].
    unfold load_chunk. rewrite Hload, Hk, Hparse. done.
Qed.

(** ** Catalogs *)
Abbreviation Published := (list (IndexedArtifactDescriptor * ChunkContent)).
(** The catalogs of a chain are served, and their chunks are published; those of
    public TXIDs are not read. *)
Definition published_chain (chain : IndexedArtifactChainEntry) (contents : Published) : Prop :=
  ∃ catalogs,
    Forall2 (λ d catalog, fetch_catalog http_get d = Ok catalog) (filter (λ d, desc_dataset_kind d ≠ PublicTxid) (en_catalogs chain)) catalogs ∧
    concat (cat_chunks <$> catalogs) = contents.*1 ∧ Forall (λ c, published_as c.1 c.2) contents.

Lemma load_chunks a (contents : Published) :
  Forall (λ c, published_as c.1 c.2) contents → try_fold (load_chunk http_get) a contents.*1 = Ok (foldl add_content a contents).
Proof.
  revert a. induction contents as [|[d c] contents IH]; intros a Hall; [done|]. apply Forall_cons in Hall as [Hc Hall].
  cbn [try_fold fmap list_fmap fst foldl]. by rewrite (load_published _ _ _ Hc), <- IH.
Qed.
Lemma load_catalogs a ds catalogs (contents : Published) :
  Forall2 (λ d catalog, fetch_catalog http_get d = Ok catalog) (filter (λ d, desc_dataset_kind d ≠ PublicTxid) ds) catalogs →
  concat (cat_chunks <$> catalogs) = contents.*1 → Forall (λ c, published_as c.1 c.2) contents →
  try_fold (load_catalog http_get) a ds = Ok (foldl add_content a contents).
Proof.
  revert a catalogs contents. induction ds as [|d ds IH]; intros a catalogs contents Hf Hc Hall.
  - inversion Hf; subst. by destruct contents.
  - cbn [try_fold]. destruct (decide (desc_dataset_kind d = PublicTxid)) as [Hk|Hk].
    + rewrite filter_cons_False in Hf by tauto.
      assert (load_catalog http_get a d = Ok a) as -> by (unfold load_catalog; by rewrite Hk). by eapply IH.
    + rewrite filter_cons_True in Hf by done. inversion Hf as [|? catalog ? catalogs' Hd Hf']; subst. cbn in Hc.
      symmetry in Hc. apply fmap_app_inv in Hc as (l & l' & Hl & Hl' & ->). apply Forall_app in Hall as [Hall Hall'].
      rewrite foldl_app. assert (load_catalog http_get a d = Ok (foldl add_content a l)) as ->; [|by eapply IH].
      unfold load_catalog. rewrite Hd. cbn [mbind result_bind]. rewrite Hl, load_chunks by done. by destruct (desc_dataset_kind d).
Qed.

Definition records_of (c : IndexedArtifactDescriptor * ChunkContent) : list StoredCommitmentRow :=
  match c.2 with CommitmentContent records => records | _ => [] end.
Definition wallet_of (c : IndexedArtifactDescriptor * ChunkContent) : WalletArtifacts TransactCiphertextOverlap :=
  match c.2 with WalletContent rows => parsed_wallet overlap rows | _ => mkWallet [] [] [] [] [] end.
Definition checkpoints_of (c : IndexedArtifactDescriptor * ChunkContent) : list ParsedCheckpoint :=
  match c.2 with CheckpointContent cp => [parsed_checkpoint c.1 cp] | _ => [] end.
Definition ranges_of (c : IndexedArtifactDescriptor * ChunkContent) : list IndexedArtifactRange :=
  match c.2 with CommitmentContent _ => [desc_range c.1] | _ => [] end.
Definition all_records (contents : Published) : list StoredCommitmentRow := contents ≫= records_of.
Definition all_wallet (contents : Published) : WalletArtifacts TransactCiphertextOverlap :=
  foldl extend_wallet (mkWallet [] [] [] [] []) (wallet_of <$> contents).

Lemma extend_nil w : extend_wallet w (mkWallet [] [] [] [] []) = w.
Proof. destruct w. unfold extend_wallet. cbn. by rewrite !app_nil_r. Qed.
Lemma loaded a (contents : Published) :
  let b := foldl add_content a contents in
  ca_commitments b = ca_commitments a ++ (parsed_commitment <$> all_records contents) ∧
  ca_commitment_ranges b = ca_commitment_ranges a ++ (contents ≫= ranges_of) ∧
  ca_merkle_checkpoints b = ca_merkle_checkpoints a ++ (contents ≫= checkpoints_of) ∧
  ca_wallet b = foldl extend_wallet (ca_wallet a) (wallet_of <$> contents).
Proof.
  revert a. induction contents as [|[d c] contents IH]; intros a; cbn; [by rewrite !app_nil_r|].
  destruct (IH (add_content a (d, c))) as (-> & -> & -> & ->). unfold all_records. cbn. rewrite fmap_app.
  destruct c; cbn; rewrite ?extend_nil, <- ?app_assoc, ?app_nil_r; done.
Qed.

Lemma StronglySorted_lookup_lt (l : list Z) i j x y :
  StronglySorted Z.lt l → l !! i = Some x → l !! j = Some y → (i < j)%nat → x < y.
Proof.
  intros Hs Hi Hj Hij. rewrite <- (take_drop (S i) l) in Hs. apply StronglySorted_app in Hs as (Hs & _ & _). apply Hs.
  - apply list_elem_of_lookup. exists i. by rewrite lookup_take_lt by lia.
  - apply list_elem_of_lookup. exists (j - S i)%nat. rewrite lookup_drop. by replace (S i + (j - S i))%nat with j by lia.
Qed.
(** The range of a commitment chunk holds its records. *)
Lemma records_in_range c r :
  published_as c.1 c.2 → r ∈ records_of c → Exists (λ range, range_start range ≤ sc_global_position r ≤ range_end range) (ranges_of c).
Proof.
  destruct c as [d content]. cbn. intros Hpub Hr. destruct Hpub as [scope records compression pub Hwf Hp ([cid Hd] & _)| |]; cbn in *;
    [|by apply not_elem_of_nil in Hr..]. apply Exists_cons. left.
  apply prepare_commitment_chunk_Ok in Hp as (payload & _ & Hrg & _). apply commitment_range_Ok in Hrg as (Hs & _ & Hh & Hl).
  assert (desc_range d = desc_range (published_descriptor pub)) as -> by (by rewrite Hd).
  apply list_elem_of_lookup in Hr as [i Hi]. assert ((sc_global_position <$> records) !! i = Some (sc_global_position r)) as Hi' by (by rewrite list_lookup_fmap, Hi).
  split.
  - rewrite head_lookup in Hh. destruct i as [|i]; [rewrite Hh in Hi'; by injection Hi' as ->|].
    apply Z.lt_le_incl. apply (StronglySorted_lookup_lt _ 0 (S i) _ _ Hs Hh Hi'). lia.
  - rewrite last_lookup in Hl. pose proof (lookup_lt_Some _ _ _ Hi') as Hlt.
    destruct (decide (i = pred (length (sc_global_position <$> records)))) as [->|Hne]; [rewrite Hl in Hi'; by injection Hi' as ->|].
    apply Z.lt_le_incl. apply (StronglySorted_lookup_lt _ i _ _ _ Hs Hi' Hl). lia.
Qed.

(** The checkpoint of a tree: its leaves are those of the rows, up to the last. *)
Definition tree_checkpoint (rows : list CommitmentRow) (cp : MerkleCheckpointArtifact) : Prop :=
  mc_leaves cp = squid_leaves rows (mc_tree_number cp) (mc_leaf_count cp) ∧
  ∃ row, row ∈ rows ∧ cr_tree_number row = mc_tree_number cp ∧ cr_tree_position row = mc_leaf_count cp - 1.
Lemma published_checkpoint_agrees rows d cp :
  published_as d (CheckpointContent cp) → tree_checkpoint rows cp → checkpoint_agrees rows (parsed_checkpoint d cp).
Proof.
  intros Hpub (Hleaves & Hlast). inversion Hpub as [| |scope cp' compression pub Hwf Hp ([cid Hd] & _)]; subst cp'.
  unfold prepare_merkle_checkpoint_artifact in Hp. res_inv. case_decide; [done|]. res_inv. int_facts.
  match goal with E : validate_checkpoint _ = _ |- _ => apply validate_checkpoint_Ok in E as (Hnz & Hmax & Hlen) end.
  assert (mc_leaves cp ≠ []) as Hne by (intros Hnil; rewrite Hnil in Hlen; cbn in Hlen; lia).
  split; cbn -[merkle_root checkpoint_root]; try done; [by right| |by rewrite try_from_fits].
  rewrite merkle_root_tree by lia. by rewrite checkpoint_root_tree by (done || lia).
Qed.
Lemma checkpoint_of_elem (contents : Published) cp :
  cp ∈ contents ≫= checkpoints_of → ∃ d c, (d, CheckpointContent c) ∈ contents ∧ cp = parsed_checkpoint d c.
Proof.
  rewrite list_elem_of_bind. intros ([d [records|rows|c]] & Hcp & Hin); cbn in Hcp; [by apply not_elem_of_nil in Hcp..|].
  apply list_elem_of_singleton in Hcp as ->. by exists d, c.
Qed.

(** ** The verdict *)
Context (post : string → string → Z → Z → Z → nat → result SquidError GraphqlResponse).

(** C21. Publisher and verifier agree: when the catalogs of a chain are served with
    chunks prepared from stored rows, and the Squid service has the same
    commitments and wallet rows in any order, and the checkpoints are those of
    the commitment trees, the verifier ends without a single failure. *)
Theorem published_rows_pass_parity fuel page_size chain endpoint contents latest wallet_block n commitments wallet :
  0 < page_size ≤ i32_max → Z.of_nat n ≤ i32_max → (n < fuel)%nat →
  squid_endpoint (chain_id (en_scope chain)) = Ok endpoint →
  latest_indexed_block chain Commitments = Ok latest → latest_indexed_block chain WalletScan = Ok wallet_block →
  published_chain chain contents →
  serves_rows post endpoint latest wallet_block n commitments wallet →
  commitments ≡ₚ parsed_commitment <$> all_records contents → same_rows (all_wallet contents) wallet →
  NoDup (sc_global_position <$> all_records contents) → distinct_keys (all_wallet contents) →
  Forall (λ r, sc_block_number r ≤ latest) (all_records contents) →
  (∀ d cp, (d, CheckpointContent cp) ∈ contents →
     tree_checkpoint (sort_by_key cr_global_position (parsed_commitment <$> all_records contents)) cp) →
  verify_chain http_get post fuel page_size chain = Some (Ok 0).
Proof.
  intros Hp Hn Hf He Hc Hw (catalogs & Hcat & Hchunks & Hpub) Hs Hcomm Hwal Hnd Hkeys Hblocks Hcps.
  pose proof (load_catalogs no_artifacts _ _ _ Hcat Hchunks Hpub) as Hload. destruct (loaded no_artifacts contents) as (L1 & L2 & L3 & L4).
  set (rows := sort_by_key cr_global_position (parsed_commitment <$> all_records contents)) in *. cbn in L1, L2, L3, L4.
  set (artifacts := mkChainArtifacts rows (contents ≫= ranges_of) (contents ≫= checkpoints_of) (sort_wallet (all_wallet contents))
    (ca_wallet_ranges (foldl add_content no_artifacts contents))).
  assert (load_chain_artifacts http_get chain = Ok artifacts) as Hart by (unfold load_chain_artifacts; rewrite Hload; cbn; by rewrite L1, L2, L3, L4).
  assert (sort_by_key cr_global_position commitments = rows) as Hrows.
  { symmetry. apply sort_by_key_unique; [|done]. by rewrite <- list_fmap_compose. }
  assert (∀ r, r ∈ rows ↔ ∃ s, r = parsed_commitment s ∧ s ∈ all_records contents) as Hin.
  { intros r. unfold rows. by rewrite sort_by_key_perm, list_elem_of_fmap. }
  assert (∀ s, s ∈ all_records contents → commitment_row_wf s ∧ Exists (λ range, range_start range ≤ sc_global_position s ≤ range_end range) (contents ≫= ranges_of)) as Hrec.
  { intros s (c & Hs' & Hc')%list_elem_of_bind. rewrite Forall_forall in Hpub. pose proof (Hpub c Hc') as Hpc. split.
    - destruct c as [d content]. inversion Hpc as [scope records ? ? Hwf|?|?]; subst; cbn in *; subst; [|by apply not_elem_of_nil in Hs'..].
      rewrite Forall_forall in Hwf. by apply Hwf.
    - pose proof (records_in_range c s Hpc Hs') as Hex. rewrite Exists_exists in Hex |- *. destruct Hex as (rg & Hrg & Hb). exists rg.
      split; [|done]. apply list_elem_of_bind. by exists c. }
  assert (commitment_max_block artifacts latest = latest) as Hmaxb.
  { unfold commitment_max_block. destruct (max_list _) as [b|] eqn:Hb; [|done]. apply max_list_elem in Hb.
    cbn in Hb. apply list_elem_of_fmap in Hb as (r & -> & Hr). apply Hin in Hr as (s & -> & Hs').
    rewrite Forall_forall in Hblocks. specialize (Hblocks s Hs'). cbn in *. lia. }
  edestruct (verify_chain_spec http_get post fuel page_size chain endpoint artifacts latest wallet_block n commitments wallet) as (f & Hv & _ & Hz);
    try done.
  - by rewrite Hmaxb.
  - unfold positions_ok. rewrite Hcomm. apply Forall_fmap, Forall_forall. intros s Hs'. destruct (Hrec s Hs') as [(_ & _ & _ & Hpos & _) _]. exact Hpos.
  - apply Forall_forall. intros cp (d & c & Hdc & ->)%checkpoint_of_elem. rewrite Forall_forall in Hpub. specialize (Hpub _ Hdc). cbn in Hpub.
    inversion Hpub as [| |scope cp' ? ? Hwf]; subst. apply Hwf.
  - rewrite Hv. do 2 f_equal. apply Hz. unfold artifacts_agree. cbn zeta. rewrite Hrows. split_and!.
    + cbn. unfold squid_commitments_in_ranges. symmetry. apply filter_all, Forall_forall. intros r (s & -> & Hs')%Hin. by apply Hrec.
    + apply Forall_forall. intros cp (d & c & Hdc & ->)%checkpoint_of_elem. rewrite Forall_forall in Hpub.
      apply published_checkpoint_agrees; [apply (Hpub _ Hdc)|by eapply Hcps].
    + cbn. rewrite (sort_wallet_unique _ _ Hkeys Hwal). apply wallets_match_refl.
Qed.
End load.

(** ** A run *)
#[export] Instance ChunkSection_dec : EqDecision ChunkSection.
Proof. solve_decision. Defined.
#[export] Instance IndexedArtifactRange_dec : EqDecision IndexedArtifactRange.
Proof. solve_decision. Defined.
#[export] Instance ChunkEnvelopeHeader_dec : EqDecision ChunkEnvelopeHeader.
Proof. solve_decision. Defined.

Definition toy_records : list StoredCommitmentRow :=
  [mkCommitmentRow 8 100 FamShield 1 0 (be_bytes 32 11); mkCommitmentRow 10 101 FamLegacyGenerated 1 2 (be_bytes 32 22)].
Definition toy_checkpoint : MerkleCheckpointArtifact := mkCheckpoint 1 3 101 [be_bytes 32 11; be_bytes 32 5; be_bytes 32 22].
(** A codec for the two chunks of this run. *)
Definition toy_header (kind : Artifacts.IndexedDatasetKind) : ChunkEnvelopeHeader :=
  match kind with
  | MerkleCheckpoint => mkHeader MerkleCheckpoint sample_scope (mkRange TreePosition 8 10) 3 148 [mkSection 1 0 148]
  | _ => mkHeader Commitments sample_scope (mkRange TreePosition 8 10) 2 130 [mkSection 1 0 130]
  end.
#[local] Instance toy_codec : ArtifactCrate := {|
  MAX_COMPRESSED_CHUNK_BYTES := 1000;
  CHUNK_FORMAT_VERSION := 1;
  encode_chunk_bytes env _ :=
    if decide (envelope_header env = toy_header (header_dataset_kind (envelope_header env)))
    then Ok (byte_of_Z (header_row_count (envelope_header env)) :: envelope_payload env) else Err (ChunkCodec 0);
  decode_chunk_bytes d bs := Ok (mkEnvelope (toy_header (desc_dataset_kind d)) (drop 1 bs));
  section_payload := plain_section;
  sha256 bs := take 4 bs;
|}.
#[local] Existing Instance toy_tree.
Definition toy_commitment_chunk : PublishedChunk :=
  match prepare_commitment_chunk (Cid := Z) sample_scope toy_records Zstd with
  | Ok pub => pub
  | Err _ => mkPublished (mkDescriptor PublicTxid sample_scope (mkRange Block 0 0) 0 "" [] 0 0 Zstd (mkMetadata None None None None None None None)) []
  end.
Definition toy_checkpoint_chunk : PublishedChunk :=
  match prepare_merkle_checkpoint_artifact (Cid := Z) sample_scope toy_checkpoint Zstd with Ok pub => pub | Err _ => toy_commitment_chunk end.
Definition toy_commitment_descriptor : IndexedArtifactDescriptor := set_cid (published_descriptor toy_commitment_chunk) "commitments".
Definition toy_checkpoint_descriptor : IndexedArtifactDescriptor := set_cid (published_descriptor toy_checkpoint_chunk) "checkpoint".
Definition toy_catalog_descriptor (kind : Artifacts.IndexedDatasetKind) (cid : string) : IndexedArtifactDescriptor :=
  mkDescriptor kind sample_scope (mkRange TreePosition 8 10) 2 cid [] 0 1 Zstd (mkMetadata None None None None None None None).
Definition toy_parity_chain : IndexedArtifactChainEntry :=
  mkEntry sample_scope [mkHeight Commitments 101 0; mkHeight WalletScan 101 0]
    [toy_catalog_descriptor Commitments "catalog"; toy_catalog_descriptor PublicTxid "other"].
#[local] Instance toy_squid_crate : SquidCrate := {|
  u256_from_str_radix _ _ := None;
  squid_normalize t p := (t, p);
  preimage_hash _ := 0; preimage_abi_encode _ := []; preimage_abi_decode _ := None;
  legacy_preimage_hash _ := 0; legacy_preimage_abi_encode _ := []; legacy_preimage_abi_decode _ := None;
  shield_ciphertext_abi_encode _ := []; legacy_ciphertext_abi_encode _ := []; ciphertext_abi_decode _ := None;
  catalog_from_json _ := Some (mkCatalog Commitments sample_scope [toy_commitment_descriptor; toy_checkpoint_descriptor]);
|}.
(** The first gateway is down. *)
Definition toy_get (url : string) : HttpAnswer :=
  if decide (url = "https://dweb.link/ipfs/commitments"%string) then Body (Ok (published_bytes toy_commitment_chunk))
  else if decide (url = "https://dweb.link/ipfs/checkpoint"%string) then Body (Ok (published_bytes toy_checkpoint_chunk))
  else if decide (url = "https://dweb.link/ipfs/catalog"%string) then Body (Ok [])
  else SendFailed.
Definition toy_squid_row (tree position block hash : Z) : Value :=
  JObject [("treeNumber"%string, JNumber tree); ("treePosition"%string, JNumber position); ("blockNumber"%string, JNumber block); ("hash"%string, JNumber hash)].
Definition toy_values (second : Z) (field : string) : list Value :=
  if decide (field = "commitments"%string) then [toy_squid_row 1 2 101 second; toy_squid_row 1 0 100 11] else [].
(** The first attempt of every page times out. *)
Definition toy_post (second : Z) (endpoint field : string) (offset limit max_block : Z) (attempt : nat) : result SquidError GraphqlResponse :=
  if decide (attempt = 1%nat) then Err (mkSquidError true "timeout")
  else Ok (mkResponse (Some (JObject [(field, JArray (take (Z.to_nat limit) (drop (Z.to_nat offset) (toy_values second field))))])) None).
Lemma toy_serves second endpoint field max_block : serves (toy_post second) endpoint field max_block (toy_values second field).
Proof.
  intros offset limit Ho Hl. exists 2%nat. split_and!; [lia|unfold SQUID_PAGE_RETRY_ATTEMPTS; lia| |].
  - intros attempt Ha. assert (attempt = 1%nat) as -> by lia. by eexists.
  - eexists. split; [done|]. cbn. by rewrite decide_True by done.
Qed.
Definition toy_squid_rows (second : Z) : list CommitmentRow :=
  [mkParsedCommitment 10 101 1 2 (be_bytes 32 second); mkParsedCommitment 8 100 1 0 (be_bytes 32 11)].
Definition no_wallet : WalletArtifacts TransactCiphertextOverlap := mkWallet [] [] [] [] [].
Lemma toy_serves_rows second endpoint cb wb :
  second = 22 ∨ second = 23 → serves_rows (toy_post second) endpoint cb wb 2 (toy_squid_rows second) no_wallet.
Proof.
  intros [-> | ->]; split; (eexists; split; [apply toy_serves|]); (split; [vm_compute; repeat constructor|reflexivity]).
Qed.
Lemma toy_available d pub cid kind compression :
  descriptor_of_bytes kind compression pub → d = set_cid (published_descriptor pub) cid →
  fetch_ipfs toy_get cid = Ok (published_bytes pub) →
  (∀ env, encode_chunk_bytes env compression = Ok (published_bytes pub) → envelope_header env = toy_header kind) →
  available toy_get d pub.
Proof.
  intros (Hk & Hc & _) -> Hf Henv. split_and!; [by eexists|done|]. intros env Henc. cbn [set_cid desc_compression] in Henc. rewrite Hc in Henc.
  pose proof (Henv env Henc) as Hh. cbn in Henc. case_decide; [|done]. injection Henc as <-. cbn. rewrite Hk, <- Hh. by destruct env.
Qed.
Definition toy_overlap (_ : bytes) : TransactCiphertextOverlap := mkOverlap [] [] [].
Definition toy_contents : list (IndexedArtifactDescriptor * ChunkContent) :=
  [(toy_commitment_descriptor, CommitmentContent toy_records); (toy_checkpoint_descriptor, CheckpointContent toy_checkpoint)].
Lemma toy_encoded env kind b bs :
  encode_chunk_bytes env Zstd = Ok (b :: bs) → (∀ k, byte_of_Z (header_row_count (toy_header k)) = b → toy_header k = toy_header kind) →
  envelope_header env = toy_header kind.
Proof.
  cbn. case_decide as Hh; [|done]. intros [= Hb _] Hk. rewrite Hh. apply Hk. by rewrite <- Hh.
Qed.
Lemma toy_published : published_chain (Cid := Z) toy_get toy_overlap toy_parity_chain toy_contents.
Proof.
  assert (published_as (Cid := Z) toy_get toy_overlap toy_commitment_descriptor (CommitmentContent toy_records)) as Hc.
  { assert (prepare_commitment_chunk (Cid := Z) sample_scope toy_records Zstd = Ok toy_commitment_chunk) as Hp by (vm_compute; reflexivity).
    apply (published_commitments _ _ _ sample_scope _ Zstd toy_commitment_chunk).
    - repeat constructor; vm_compute; discriminate.
    - exact Hp.
    - apply (toy_available _ _ "commitments" _ _ (commitment_descriptor _ _ _ _ Hp)); [done|vm_compute; reflexivity|].
      intros env Henc. eapply (toy_encoded _ Commitments); [exact Henc|]. by intros []. }
  assert (published_as (Cid := Z) toy_get toy_overlap toy_checkpoint_descriptor (CheckpointContent toy_checkpoint)) as Hk.
  { assert (prepare_merkle_checkpoint_artifact (Cid := Z) sample_scope toy_checkpoint Zstd = Ok toy_checkpoint_chunk) as Hp by (vm_compute; reflexivity).
    apply (published_checkpoint _ _ _ sample_scope _ Zstd toy_checkpoint_chunk).
    - repeat constructor; vm_compute; discriminate.
    - exact Hp.
    - apply (toy_available _ _ "checkpoint" _ _ (checkpoint_descriptor _ _ _ _ Hp)); [done|vm_compute; reflexivity|].
      intros env Henc. eapply (toy_encoded _ MerkleCheckpoint); [exact Henc|]. by intros []. }
  exists [mkCatalog Commitments sample_scope [toy_commitment_descriptor; toy_checkpoint_descriptor]]. split_and!; [|reflexivity|].
  - repeat constructor.
  - by repeat constructor.
Qed.

Lemma published_rows_pass_parity_witness : verify_chain toy_get (toy_post 22) 3 1 toy_parity_chain = Some (Ok 0).
Proof.
  apply (published_rows_pass_parity (Cid := Z) toy_get toy_overlap (toy_post 22) 3 1 toy_parity_chain
    "https://rail-squid.squids.live/squid-railgun-ethereum-v2/graphql" toy_contents 101 101 2 (toy_squid_rows 22) no_wallet);
    try (reflexivity || lia).
  - split; [lia|vm_compute; discriminate].
  - vm_compute. discriminate.
  - apply toy_published.
  - apply toy_serves_rows. by left.
  - apply Permutation_swap.
  - by split_and!.
  - apply (bool_decide_unpack _). vm_compute. exact I.
  - split_and!; apply NoDup_nil_2.
  - repeat constructor; vm_compute; discriminate.
  - intros d cp Hin. assert (cp = toy_checkpoint) as ->.
    { unfold toy_contents in Hin. apply elem_of_cons in Hin as [Hin|Hin]; [discriminate Hin|]. apply list_elem_of_singleton in Hin. by injection Hin. }
    split; [vm_compute; reflexivity|]. exists (mkParsedCommitment 10 101 1 2 (be_bytes 32 22)). split_and!; [|reflexivity..].
    apply sort_by_key_fmap_elem, elem_of_cons. right. by left.
Defined.

(** A service with another hash: the verifier counts failures. *)
Definition toy_loaded : ChainArtifacts :=
  match load_chain_artifacts toy_get toy_parity_chain with Ok a => a | Err _ => no_artifacts end.
Lemma squid_parity_verdict_witness :
  verify_chain toy_get (toy_post 23) 3 1 toy_parity_chain = Some (Ok 3) ∧ ¬ artifacts_agree toy_loaded (toy_squid_rows 23) no_wallet.
Proof.
  assert (verify_chain toy_get (toy_post 23) 3 1 toy_parity_chain = Some (Ok 3)) as Hv by (vm_compute; reflexivity). split; [exact Hv|].
  pose proof (squid_parity_verdict toy_get (toy_post 23) 3 1 toy_parity_chain "https://rail-squid.squids.live/squid-railgun-ethereum-v2/graphql"
    toy_loaded 101 101 2 (toy_squid_rows 23) no_wallet) as Hthm. rewrite Hv in Hthm. intros Hag. destruct Hthm as (f & Hf & Hz).
  - split; [lia|vm_compute; discriminate].
  - vm_compute. discriminate.
  - lia.
  - reflexivity.
  - vm_compute. reflexivity.
  - reflexivity.
  - reflexivity.
  - apply toy_serves_rows. by right.
  - repeat constructor; vm_compute; discriminate.
  - apply (Forall_fmap pc_leaf_count (λ n, 0 ≤ n ≤ u64_max)).
    assert (pc_leaf_count <$> ca_merkle_checkpoints toy_loaded = [3]) as -> by (vm_compute; reflexivity). repeat constructor; vm_compute; discriminate.
  - apply Hz in Hag. rewrite Hag in Hf. discriminate Hf.
Defined.
