(* ===== verification/TxidParity.v ===== *)
(** * Parity of the published TXID log with Squid ([bin/verify_txid_parity.rs])

    The verifier loads the chunks of the public TXID catalog, asks a Squid
    service for the same transactions, keeping the raw answers in a cache file
    per chain, and compares rows, leaves and tree roots. The cache directory is
    a map from chains to files; a file is replaced by a rename, so a failed
    write leaves the old one. *)

From Stdlib Require Import Ascii.
From S2P Require Import Prelude Order Wire Ipfs Artifacts MerkleCheckpointChunk PublicTxidChunk ChainLogs Traces PoiStore ChainStore StoreQueries AuditLog Retention Publication Catalog TimestampBackfill SquidParity.

Module Txid.
(** ** The cache files *)
Record SquidCacheFile := mkCache {
  sc_version : Z;
  sc_chain_id : Z;
  sc_endpoint : string;
  sc_max_block : Z;
  sc_row_count : nat;
  sc_fetched_at_unix : Z;
  sc_transactions : list Value;
}.
Definition SQUID_CACHE_VERSION : Z := 1.
(** The cache files by chain; [None] is a file that does not decode. *)
Abbreviation CacheDir := (gmap Z (option SquidCacheFile)).

Section fields.
Context `{HexStrings} `{SquidCrate}.

Definition string_field (value : Value) (field : string) : result string string :=
  ok_or (v ← get field value; as_str v) ("field missing or not string: " +:+ field)%string.
Definition as_bool (v : Value) : option bool := match v with JBool b => Some b | _ => None end.
Definition bool_field (value : Value) (field : string) : result string bool :=
  ok_or (v ← get field value; as_bool v) ("field missing or not bool: " +:+ field)%string.
Definition parse_u64_string (value : string) : result string Z :=
  match Squid.hex_digits value with
  | Some value => ok_or (from_str_radix_16 value) "parse hex u64"%string
  | None => ok_or (parse_u64 value) "parse decimal u64"%string
  end.
Definition u64_field (value : Value) (field : string) : result string Z :=
  value ← ok_or (get field value) ("field missing: " +:+ field)%string;
  match value with
  | JString value => parse_u64_string value
  | JNumber _ => ok_or (as_u64 value) ("field not u64: " +:+ field)%string
  | _ => Err ("field is not numeric: " +:+ field)%string
  end.
Definition parse_u256_value (value : Value) : result string bytes :=
  match value with
  | JString value =>
      parsed ← (match Squid.hex_digits value with
                | Some hex => ok_or (u256_from_str_radix hex 16) "parse hex U256"%string
                | None => ok_or (u256_from_str_radix value 10) "parse decimal U256"%string
                end);
      Ok (be_bytes 32 parsed)
  | JNumber _ => n ← ok_or (as_u64 value) "number is not u64"%string; Ok (be_bytes 32 n)
  | _ => Err "value is not U256-compatible"%string
  end.
Definition decode_fixed_hex (value : string) : result string bytes :=
  let value := strip_0x_string value in
  let value := if decide (Z.of_nat (String.length value) mod 2 = 0) then value else ("0" +:+ value)%string in
  bs ← ok_or (hex_decode_string value) "decode hex"%string;
  if decide (32 < length bs)%nat then Err "expected at most 32 bytes"%string
  else Ok (replicate (32 - length bs) Byte.x00 ++ bs).
Definition fixed_hex_field (value : Value) (field : string) : result string bytes :=
  value ← string_field value field; decode_fixed_hex value.
Definition fixed_u256_field (value : Value) (field : string) : result string bytes :=
  value ← ok_or (get field value) ("field missing: " +:+ field)%string; parse_u256_value value.
Definition fixed_u256_array_field (value : Value) (field : string) : result string (list bytes) :=
  values ← ok_or (v ← get field value; as_array v) ("field missing or not array: " +:+ field)%string;
  try_map parse_u256_value values.

Definition parse_squid_transaction (txid_index : Z) (value : Value) : result string TxidRow :=
  id ← string_field value "id";
  block_number ← u64_field value "blockNumber";
  block_timestamp ← u64_field value "blockTimestamp";
  transaction_hash ← fixed_hex_field value "transactionHash";
  nullifiers ← fixed_u256_array_field value "nullifiers";
  commitments ← fixed_u256_array_field value "commitments";
  bound_params_hash ← fixed_u256_field value "boundParamsHash";
  has_unshield ← bool_field value "hasUnshield";
  utxo_tree_in ← u64_field value "utxoTreeIn";
  utxo_tree_out ← u64_field value "utxoTreeOut";
  utxo_batch_start_position_out ← u64_field value "utxoBatchStartPositionOut";
  Ok (mkParsedTxid txid_index (String.list_byte_of_string id) block_number block_timestamp transaction_hash nullifiers commitments
        bound_params_hash has_unshield utxo_tree_in utxo_tree_out utxo_batch_start_position_out).

(** The rows up to a block, numbered as they come. *)
Definition parse_squid_transactions (values : list Value) (max_block : Z) : result string (list TxidRow) :=
  try_fold (λ rows value,
    block_number ← u64_field value "blockNumber";
    if decide (max_block < block_number) then Ok rows
    else
      txid_index ← ok_or (try_from_len u64_max (length rows)) "Squid txid index overflow"%string;
      row ← parse_squid_transaction txid_index value;
      Ok (rows ++ [row])) [] values.
Definition count_squid_rows_at_or_below (values : list Value) (max_block : Z) : result string Z :=
  try_fold (λ count value,
    block_number ← u64_field value "blockNumber";
    Ok (if decide (block_number ≤ max_block) then saturating_add usize_max count 1 else count)) 0 values.
Definition max_squid_block (values : list Value) : result string Z :=
  try_fold (λ max_block value, block_number ← u64_field value "blockNumber"; Ok (Z.max max_block block_number)) 0 values.

(** ** Fetching *)
(** the answer to a post: endpoint, offset, limit, exclusive lower and inclusive
    upper block; the transactions of its data, and its errors *)
Context (post : string → Z → Z → option Z → Z → result string (option (list Value) * option Value)).

Definition fetch_squid_page (endpoint : string) (offset limit : Z) (min_block_exclusive : option Z) (max_block : Z) : result string (list Value) :=
  offset ← ok_or (try_from Squid.i32_max offset) "Squid offset exceeds GraphQL Int"%string;
  limit ← ok_or (try_from Squid.i32_max limit) "Squid limit exceeds GraphQL Int"%string;
  '(data, errors) ← post endpoint offset limit min_block_exclusive max_block;
  match errors with
  | Some _ => Err "Squid GraphQL errors"%string
  | None => ok_or data "Squid response missing data"%string
  end.

(** [None] is out of fuel. *)
Fixpoint squid_values_loop (fuel : nat) (endpoint : string) (page_size : Z) (min_block_exclusive : option Z) (max_block offset : Z)
    (values : list Value) : option (result string (list Value)) :=
  match fuel with
  | O => None
  | S fuel =>
      match fetch_squid_page endpoint offset page_size min_block_exclusive max_block with
      | Err e => Some (Err e)
      | Ok page =>
          if decide (page = []) then Some (Ok values)
          else
            let values := values ++ page in
            match try_from usize_max page_size, try_from_len u64_max (length values) with
            | None, _ => Some (Err "Squid limit overflow"%string)
            | Some limit, offset =>
                if decide (Z.of_nat (length page) < limit) then Some (Ok values)
                else match offset with
                     | None => Some (Err "squid row count overflow"%string)
                     | Some offset => squid_values_loop fuel endpoint page_size min_block_exclusive max_block offset values
                     end
            end
      end
  end.
Definition fetch_squid_values (fuel : nat) (endpoint : string) (page_size : Z) (min_block_exclusive : option Z) (max_block : Z)
    : option (result string (list Value)) :=
  squid_values_loop fuel endpoint page_size min_block_exclusive max_block 0 [].

(** ** The cache *)
Definition read_squid_cache (dir : CacheDir) (chain_id : Z) (endpoint : string) : result string SquidCacheFile :=
  file ← ok_or (dir !! chain_id) "read Squid cache"%string;
  cache ← ok_or file "decode Squid cache"%string;
  if decide (sc_version cache ≠ SQUID_CACHE_VERSION) then Err "Squid cache has unsupported version"%string
  else if decide (sc_chain_id cache ≠ chain_id) then Err "Squid cache is for another chain"%string
  else if decide (sc_endpoint cache ≠ endpoint) then Err "Squid cache endpoint mismatch"%string
  else if decide (sc_row_count cache ≠ length (sc_transactions cache)) then Err "Squid cache row_count mismatch"%string
  else
    max_seen ← max_squid_block (sc_transactions cache);
    if decide (sc_max_block cache < max_seen) then Err "Squid cache contains block beyond cache max_block"%string
    else Ok cache.

(** The clock, and whether the file system accepts the write. *)
Context (unix_timestamp : result string Z) (writable : bool).
Definition write_squid_cache_file (dir : CacheDir) (chain_id : Z) (cache : SquidCacheFile) : result string CacheDir :=
  if writable then Ok (<[chain_id := Some cache]> dir) else Err "write Squid cache temp file"%string.
Definition write_squid_cache (dir : CacheDir) (chain_id : Z) (endpoint : string) (max_block : Z) (transactions : list Value) : result string CacheDir :=
  fetched_at_unix ← unix_timestamp;
  write_squid_cache_file dir chain_id
    (mkCache SQUID_CACHE_VERSION chain_id endpoint max_block (length transactions) fetched_at_unix transactions).

(** Fetch everything and write it; the cached path of [squid_public_txid_values]. *)
Definition fetch_and_write (fuel : nat) (dir : CacheDir) (chain_id : Z) (endpoint : string) (page_size max_block : Z)
    : option (result string (list Value * CacheDir)) :=
  match fetch_squid_values fuel endpoint page_size None max_block with
  | None => None
  | Some r => Some (transactions ← r; dir ← write_squid_cache dir chain_id endpoint max_block transactions; Ok (transactions, dir))
  end.
(** The values and the cache directory after the call; an error leaves it. *)
Definition squid_public_txid_values (fuel : nat) (chain_id : Z) (endpoint : string) (page_size max_block : Z) (cache_dir : option CacheDir)
    (refresh_cache : bool) : option (result string (list Value * option CacheDir)) :=
  let with_dir r := match r with None => None | Some r => Some ('(values, dir) ← r; Ok (values, Some dir)) end in
  match cache_dir with
  | None =>
      match fetch_squid_values fuel endpoint page_size None max_block with None => None | Some r => Some (values ← r; Ok (values, None)) end
  | Some dir =>
      if refresh_cache then with_dir (fetch_and_write fuel dir chain_id endpoint page_size max_block)
      else match dir !! chain_id with
      | None => with_dir (fetch_and_write fuel dir chain_id endpoint page_size max_block)
      | Some _ =>
          match (cache ← read_squid_cache dir chain_id endpoint; _ ← count_squid_rows_at_or_below (sc_transactions cache) max_block; Ok cache) with
          | Err e => Some (Err e)
          | Ok cache =>
              if decide (sc_max_block cache < max_block) then
                match fetch_squid_values fuel endpoint page_size (Some (sc_max_block cache)) max_block with
                | None => None
                | Some r =>
                    Some (delta ← r;
                          let transactions := sc_transactions cache ++ delta in
                          fetched_at_unix ← unix_timestamp;
                          dir ← write_squid_cache_file dir chain_id
                            (mkCache (sc_version cache) (sc_chain_id cache) (sc_endpoint cache) max_block (length transactions) fetched_at_unix
                               transactions);
                          Ok (transactions, Some dir))
                end
              else Some (Ok (sc_transactions cache, Some dir))
          end
      end
  end.
(** The rows, and the cache files after the call: a parse error comes after the
    cache was written. *)
Definition squid_public_txid_rows (fuel : nat) (chain_id : Z) (page_size max_block : Z) (cache_dir : option CacheDir) (refresh_cache : bool)
    : option (option CacheDir * result string (list TxidRow)) :=
  match Squid.squid_endpoint chain_id with
  | Err e => Some (cache_dir, Err e)
  | Ok endpoint =>
      match squid_public_txid_values fuel chain_id endpoint page_size max_block cache_dir refresh_cache with
      | None => None
      | Some (Err e) => Some (cache_dir, Err e)
      | Some (Ok (values, dir)) => Some (dir, parse_squid_transactions values max_block)
      end
  end.
End fields.

(** ** The artifact's rows *)
Record ArtifactTxidData := mkArtifactData { ad_rows : list TxidRow; ad_chunks : list IndexedArtifactDescriptor }.
Definition IPNS_GATEWAYS : list string := ["https://ipfs.io/ipns/"; "https://dweb.link/ipns/"]%string.

Section artifact.
Context `{ArtifactCrate} `{SquidCrate}.
Context (http_get : string → Squid.HttpAnswer) (from_utf8 : bytes → bool).

Fixpoint fetch_gateways (gateways : list string) (name : string) : result string bytes :=
  match gateways with
  | [] => Err ("failed to fetch " +:+ name)%string
  | gateway :: gateways =>
      match http_get (gateway +:+ name)%string with
      | Squid.Body body => body
      | Squid.SendFailed | Squid.BadStatus => fetch_gateways gateways name
      end
  end.
Definition fetch_ipfs (cid : string) : result string bytes := fetch_gateways Squid.IPFS_GATEWAYS cid.
Definition fetch_ipns (ipns_name : string) : result string bytes := fetch_gateways IPNS_GATEWAYS ipns_name.

Definition load_chunk_rows (rows : list TxidRow) (chunk : IndexedArtifactDescriptor) : result string (list TxidRow) :=
  bs ← fetch_ipfs (desc_cid chunk);
  envelope ← map_err (λ _, "decode public_txid chunk"%string) (decode_chunk_bytes chunk bs);
  chunk_rows ← parse_public_txid_payload from_utf8 envelope chunk;
  Ok (rows ++ chunk_rows).
Definition check_contiguous (rows : list TxidRow) : result string unit :=
  _ ← try_fold (λ expected row,
        expected_index ← ok_or (try_from_len u64_max expected) "artifact row index overflow"%string;
        if decide (tx_txid_index row ≠ expected_index) then Err "artifact txid_index is non-contiguous"%string
        else Ok (S expected)) 0%nat rows;
  Ok tt.
Definition artifact_public_txid_data (catalog : IndexedArtifactDescriptor) : result string ArtifactTxidData :=
  catalog_bytes ← fetch_ipfs (desc_cid catalog);
  decoded ← ok_or (catalog_from_json catalog_bytes) "decode public_txid catalog"%string;
  let chunks := sort_by_key (λ chunk, range_start (desc_range chunk)) (cat_chunks decoded) in
  rows ← try_fold load_chunk_rows [] chunks;
  let rows := sort_by_key tx_txid_index rows in
  _ ← check_contiguous rows;
  Ok (mkArtifactData rows chunks).
End artifact.

(** ** Comparison *)
Record Mismatch := mkMismatch {
  mm_index : nat;
  mm_artifact : option TxidRow;
  mm_squid : option TxidRow;
  mm_artifact_leaf : option bytes;
  mm_squid_leaf : option bytes;
}.
Record ChainParity := mkChainParity {
  cp_chain_id : Z;
  cp_artifact_count : nat;
  cp_squid_count : nat;
  cp_matching_leaf_prefix : nat;
  cp_matching_row_prefix : nat;
  cp_artifact_tree_roots : gmap Z bytes;
  cp_squid_tree_roots : gmap Z bytes;
  cp_descriptor_root_errors : Z;
  cp_first_leaf_mismatch : option Mismatch;
  cp_first_row_mismatch : option Mismatch;
}.
Definition is_none {A} (o : option A) : bool := match o with None => true | Some _ => false end.
Definition passed (parity : ChainParity) : bool :=
  bool_decide (cp_artifact_count parity = cp_squid_count parity) &&
  bool_decide (cp_artifact_tree_roots parity = cp_squid_tree_roots parity) &&
  bool_decide (cp_descriptor_root_errors parity = 0) &&
  is_none (cp_first_leaf_mismatch parity) &&
  is_none (cp_first_row_mismatch parity).

Section compare.
Context `{TreeCrate} `{TxidCrate}.

Definition output_start_global (row : TxidRow) : Z :=
  saturating_add u128_max (saturating_mul u128_max (tx_utxo_tree_out row) TREE_LEAF_COUNT) (tx_utxo_batch_start_position_out row).
Definition leaf_hash (row : TxidRow) : Z :=
  let railgun_txid := compute_railgun_txid_parts (be_value <$> tx_nullifiers row) (be_value <$> tx_commitments row)
    (be_value (tx_bound_params_hash row)) in
  railgun_txid_leaf_hash_with_output_start railgun_txid (tx_utxo_tree_in row) (output_start_global row).
Definition leaf_hashes (rows : list TxidRow) : list Z := leaf_hash <$> rows.

Definition rows_match (l r : TxidRow) : bool :=
  bool_decide (tx_txid_index l = tx_txid_index r) && bool_decide (tx_block_number l = tx_block_number r) &&
  bool_decide (tx_block_timestamp l = tx_block_timestamp r) && bool_decide (tx_transaction_hash l = tx_transaction_hash r) &&
  bool_decide (tx_nullifiers l = tx_nullifiers r) && bool_decide (tx_commitments l = tx_commitments r) &&
  bool_decide (tx_bound_params_hash l = tx_bound_params_hash r) && bool_decide (tx_has_unshield l = tx_has_unshield r) &&
  bool_decide (tx_utxo_tree_in l = tx_utxo_tree_in r) && bool_decide (output_start_global l = output_start_global r).

(** [zip(..).take_while(..).count()] *)
Fixpoint matching_prefix {A} (matches : A → A → bool) (l r : list A) : nat :=
  match l, r with
  | a :: l, b :: r => if matches a b then S (matching_prefix matches l r) else O
  | _, _ => O
  end.
Definition matching_leaf_prefix : list Z → list Z → nat := matching_prefix (λ l r, bool_decide (l = r)).
Definition matching_row_prefix : list TxidRow → list TxidRow → nat := matching_prefix rows_match.

(** The first index of [0..max] that yields a mismatch. *)
Definition first_index {A} (max : nat) (mismatch : nat → option A) : option A := head (omap mismatch (seq 0 max)).
Definition leaf_bytes (leaves : list Z) (index : nat) : option bytes := be_bytes 32 <$> leaves !! index.
Definition first_leaf_mismatch (artifact_rows squid_rows : list TxidRow) (artifact_leaves squid_leaves : list Z) : option Mismatch :=
  first_index (length artifact_rows `max` length squid_rows) (λ index,
    let artifact_leaf := leaf_bytes artifact_leaves index in
    let squid_leaf := leaf_bytes squid_leaves index in
    if decide (artifact_leaf ≠ squid_leaf)
    then Some (mkMismatch index (artifact_rows !! index) (squid_rows !! index) artifact_leaf squid_leaf)
    else None).
Definition first_row_mismatch (artifact_rows squid_rows : list TxidRow) (artifact_leaves squid_leaves : list Z) : option Mismatch :=
  first_index (length artifact_rows `max` length squid_rows) (λ index,
    let artifact := artifact_rows !! index in
    let squid := squid_rows !! index in
    if match artifact, squid with Some l, Some r => rows_match l r | _, _ => false end then None
    else Some (mkMismatch index artifact squid (leaf_bytes artifact_leaves index) (leaf_bytes squid_leaves index))).

Definition roots_by_tree (leaves : list Z) : result string (gmap Z bytes) :=
  tree_leaf_count ← ok_or (try_from usize_max TREE_LEAF_COUNT) "tree leaf count overflow"%string;
  snd <$> try_fold (λ '(tree, roots) chunk,
    tree_number ← ok_or (try_from_len u64_max tree) "tree number overflow"%string;
    leaf_count ← ok_or (try_from_len u64_max (length chunk)) "leaf count overflow"%string;
    Ok (S tree, <[tree_number := be_bytes 32 (dense_tree_root chunk leaf_count)]> roots))
    (0%nat, ∅) (chunks (Z.to_nat tree_leaf_count) leaves).

Definition verify_descriptor_root (leaves : list Z) (errors : Z) (chunk : IndexedArtifactDescriptor) : result string Z :=
  match meta_root (desc_metadata chunk) with
  | None => Ok (saturating_add usize_max errors 1)
  | Some root =>
      let range_end := range_end (desc_range chunk) in
      let tree_start := range_end `div` TREE_LEAF_COUNT * TREE_LEAF_COUNT in
      leaf_count ← ok_or (count ← checked_sub range_end tree_start; checked_add u64_max count 1) "chunk range overflow"%string;
      start ← ok_or (try_from usize_max tree_start) "tree start overflow"%string;
      stop ← ok_or (try_from usize_max range_end) "chunk end overflow"%string;
      slice ← (if decide (stop < Z.of_nat (length leaves))
               then Ok (take (Z.to_nat (stop + 1 - start)) (drop (Z.to_nat start) leaves))
               else Err "chunk range is outside artifact rows"%string);
      Ok (if decide (be_bytes 32 (dense_tree_root slice leaf_count) ≠ root) then saturating_add usize_max errors 1 else errors)
  end.
Definition verify_artifact_descriptor_roots (chunks : list IndexedArtifactDescriptor) (leaves : list Z) : result string Z :=
  try_fold (verify_descriptor_root leaves) 0 chunks.

Definition compare_chain (chain_id : Z) (artifact : ArtifactTxidData) (squid_rows : list TxidRow) : result string ChainParity :=
  let artifact_leaves := leaf_hashes (ad_rows artifact) in
  let squid_leaves := leaf_hashes squid_rows in
  let matching_leaf_prefix := matching_leaf_prefix artifact_leaves squid_leaves in
  let matching_row_prefix := matching_row_prefix (ad_rows artifact) squid_rows in
  let first_leaf_mismatch := first_leaf_mismatch (ad_rows artifact) squid_rows artifact_leaves squid_leaves in
  let first_row_mismatch := first_row_mismatch (ad_rows artifact) squid_rows artifact_leaves squid_leaves in
  artifact_tree_roots ← roots_by_tree artifact_leaves;
  squid_tree_roots ← roots_by_tree squid_leaves;
  descriptor_root_errors ← verify_artifact_descriptor_roots (ad_chunks artifact) artifact_leaves;
  Ok (mkChainParity chain_id (length (ad_rows artifact)) (length squid_rows) matching_leaf_prefix matching_row_prefix
        artifact_tree_roots squid_tree_roots descriptor_root_errors first_leaf_mismatch first_row_mismatch).
End compare.

(** ** The run *)
Section run.
Context `{ArtifactCrate} `{TreeCrate} `{HexStrings} `{SquidCrate} `{TxidCrate}.
Context (post : string → Z → Z → option Z → Z → result string (option (list Value) * option Value)).
Context (http_get : string → Squid.HttpAnswer) (from_utf8 : bytes → bool) (unix_timestamp : result string Z) (writable : bool).

(** A chain of the loop of [main]: whether it failed, and the cache files
    after it, which an error leaves as they are. *)
Definition verify_chain (fuel : nat) (page_size : Z) (refresh : bool) (dir : option CacheDir) (chain : IndexedArtifactChainEntry)
    : option (result string bool * option CacheDir) :=
  match list_find (λ catalog, desc_dataset_kind catalog = PublicTxid) (en_catalogs chain) with
  | None => Some (Ok false, dir)
  | Some (_, catalog) =>
      match (artifact ← artifact_public_txid_data http_get from_utf8 catalog;
             max_block ← ok_or ((λ h, lh_block_number h.2) <$> list_find (λ h, lh_dataset_kind h = PublicTxid) (en_latest_indexed chain))
               "missing public_txid latest indexed height"%string;
             Ok (artifact, max_block)) with
      | Err e => Some (Err e, dir)
      | Ok (artifact, max_block) =>
          match squid_public_txid_rows post unix_timestamp writable fuel (chain_id (en_scope chain)) page_size max_block dir refresh with
          | None => None
          | Some (values_dir, r) =>
              Some (squid_rows ← r; parity ← compare_chain (chain_id (en_scope chain)) artifact squid_rows; Ok (negb (passed parity)), values_dir)
          end
      end
  end.
Fixpoint verify_chains (fuel : nat) (page_size : Z) (refresh : bool) (chain_ids : list Z) (dir : option CacheDir)
    (chains : list IndexedArtifactChainEntry) (failures : Z) : option (result string Z * option CacheDir) :=
  match chains with
  | [] => Some (Ok failures, dir)
  | chain :: chains =>
      if decide (chain_ids ≠ [] ∧ chain_id (en_scope chain) ∉ chain_ids)
      then verify_chains fuel page_size refresh chain_ids dir chains failures
      else match verify_chain fuel page_size refresh dir chain with
           | None => None
           | Some (Err e, dir) => Some (Err e, dir)
           | Some (Ok failed, dir) =>
               verify_chains fuel page_size refresh chain_ids dir chains
                 (if (failed : bool) then saturating_add usize_max failures 1 else failures)
           end
  end.
(** [main] on the chains of a decoded manifest with a valid signature. *)
Definition verify_manifest (fuel : nat) (page_size progress_every : Z) (refresh : bool) (chain_ids : list Z) (dir : option CacheDir)
    (chains : list IndexedArtifactChainEntry) : option (result string unit * option CacheDir) :=
  if decide (page_size = 0) then Some (Err "--page-size must be non-zero"%string, dir)
  else if decide (progress_every = 0) then Some (Err "--progress-every must be non-zero"%string, dir)
  else if decide (refresh = true ∧ dir = None) then Some (Err "--refresh-squid-cache requires --squid-cache-dir"%string, dir)
  else match verify_chains fuel page_size refresh chain_ids dir chains 0 with
       | None => None
       | Some (r, dir) => Some (failures ← r; if decide (0 < failures) then Err "TXID parity failed"%string else Ok tt, dir)
       end.
End run.
End Txid.
