(* ===== verification/TxidParityCorrect.v ===== *)
(** * The TXID parity verifier is sound

    The cached answers of the Squid service stand for a full download as long
    as the service has settled the blocks it was asked for, over any sequence
    of runs and service updates; and a chain passes exactly when its rows match
    the service's one by one and every chunk's root is the root of its rows. *)

From S2P Require Import Prelude Order Wire Ipfs Artifacts MerkleCheckpointChunk PublicTxidChunk ChainLogs Traces PoiStore ChainStore StoreQueries AuditLog Retention Publication Catalog CatalogComplete TimestampBackfill SquidParity TxidParity.

Section cache.
Context `{HexStrings} `{SquidCrate}.
Implicit Types (log values : list Value) (dir : Txid.CacheDir) (endpoint : string).
Abbreviation Post := (string → Z → Z → option Z → Z → result string (option (list Value) * option Value)).

(** ** The service

    It keeps a list of transactions in block order, and a post that succeeds
    returns a window of those in the asked blocks. *)
Definition block_of (v : Value) : Z := match Txid.u64_field v "blockNumber" with Ok n => n | Err _ => 0 end.
Definition in_window (min_block_exclusive : option Z) (max_block : Z) (v : Value) : Prop :=
  match min_block_exclusive with Some m => m < block_of v | None => True end ∧ block_of v ≤ max_block.
#[global] Instance in_window_dec m b v : Decision (in_window m b v).
Proof. unfold in_window. destruct m; apply _. Defined.
Abbreviation upto max_block := (filter (in_window None max_block)).

Definition log_ok log : Prop :=
  Forall (λ v, is_ok (Txid.u64_field v "blockNumber") = true ∧ 0 ≤ block_of v) log ∧ StronglySorted Z.le (block_of <$> log).
Definition serves (post : Post) (logs : string → list Value) : Prop :=
  ∀ endpoint offset limit m b data,
    post endpoint offset limit m b = Ok (data, None) →
    data = Some (take (Z.to_nat limit) (drop (Z.to_nat offset) (filter (in_window m b) (logs endpoint)))).

(** ** Paging *)
Lemma fetch_squid_page_Ok post logs endpoint offset limit m b page :
  serves post logs → Txid.fetch_squid_page post endpoint offset limit m b = Ok page →
  page = take (Z.to_nat limit) (drop (Z.to_nat offset) (filter (in_window m b) (logs endpoint))).
Proof.
  intros Hs. unfold Txid.fetch_squid_page. intros Hp. res_inv. int_facts. subst.
  match goal with Hpost : post _ _ _ _ _ = Ok ?a |- _ => destruct a as [[rows|] [e|]]; try done; apply Hs in Hpost end.
  by simplify_eq.
Qed.

Lemma squid_values_loop_Ok post logs endpoint page_size m b fuel offset values out :
  serves post logs → 0 < page_size →
  values = take (Z.to_nat offset) (filter (in_window m b) (logs endpoint)) → length values = Z.to_nat offset →
  Txid.squid_values_loop post fuel endpoint page_size m b offset values = Some (Ok out) →
  out = filter (in_window m b) (logs endpoint).
Proof.
  intros Hs Hpos. revert offset values. induction fuel as [|fuel IH]; intros offset values Hv Hlen; cbn [Txid.squid_values_loop]; [done|].
  destruct (Txid.fetch_squid_page _ _ _ _ _ _) as [page|e] eqn:Hp; [|done].
  apply (fetch_squid_page_Ok _ logs) in Hp; [|done].
  set (all := filter (in_window m b) (logs endpoint)) in *.
  assert (values ++ page = take (Z.to_nat offset + Z.to_nat page_size) all) as Happ.
  { rewrite Hv, Hp. apply take_take_drop. }
  assert ((length page < Z.to_nat page_size)%nat → values ++ page = all) as Hdone.
  { intros Hl. rewrite Happ. apply take_ge. rewrite Hp, length_take, length_drop in Hl. lia. }
  destruct (decide (page = [])) as [->|Hne].
  { intros [= <-]. rewrite <- Hdone by (cbn; lia). by rewrite app_nil_r. }
  unfold try_from_len, try_from. case_decide; [|done].
  destruct (decide (Z.of_nat (length page) < page_size)); [intros [= <-]; apply Hdone; lia|].
  case_decide; [|done]. apply IH; [|lia].
  rewrite Nat2Z.id, Happ. rewrite length_take.
  destruct (decide (length all ≤ Z.to_nat offset + Z.to_nat page_size)%nat);
    [rewrite !take_ge; [done|lia|lia]|by rewrite Nat.min_l by lia].
Qed.

Lemma fetch_squid_values_Ok post logs endpoint page_size m b fuel out :
  serves post logs → 0 < page_size →
  Txid.fetch_squid_values post fuel endpoint page_size m b = Some (Ok out) → out = filter (in_window m b) (logs endpoint).
Proof. intros ? ?. by apply squid_values_loop_Ok. Qed.

(** A round that does not stop the loop reads a row, so one round per row and
    one more are enough. *)
Lemma squid_values_loop_total post logs endpoint page_size m b fuel offset values :
  serves post logs → 0 < page_size → values = take (Z.to_nat offset) (filter (in_window m b) (logs endpoint)) →
  length values = Z.to_nat offset →
  (length (logs endpoint) - Z.to_nat offset < fuel)%nat →
  is_Some (Txid.squid_values_loop post fuel endpoint page_size m b offset values).
Proof.
  intros Hs Hpos. revert offset values. induction fuel as [|fuel IH]; intros offset values Hv Hlen Hf; cbn [Txid.squid_values_loop]; [lia|].
  destruct (Txid.fetch_squid_page _ _ _ _ _ _) as [page|e] eqn:Hp; [|done].
  apply (fetch_squid_page_Ok _ logs) in Hp; [|done].
  set (all := filter (in_window m b) (logs endpoint)) in *.
  assert (length all ≤ length (logs endpoint))%nat as Hle by apply length_filter.
  assert (values ++ page = take (Z.to_nat offset + Z.to_nat page_size) all) as Happ.
  { rewrite Hv, Hp. apply take_take_drop. }
  destruct (decide (page = [])) as [->|Hne]; [done|].
  assert (0 < length page)%nat by (destruct page; [done|cbn; lia]).
  assert (length (values ++ page) ≤ length all)%nat by (rewrite Happ, length_take; lia).
  rewrite length_app in *.
  unfold try_from_len, try_from. repeat (case_decide || done). rewrite ?length_app in *.
  apply IH; [|rewrite length_app; lia|lia].
  rewrite Nat2Z.id, <- length_app, Happ, length_take.
  destruct (decide (length all ≤ Z.to_nat offset + Z.to_nat page_size)%nat);
    [rewrite !take_ge; [done|lia|lia]|by rewrite Nat.min_l by lia].
Qed.

Lemma fetch_squid_values_total post logs endpoint page_size m b fuel :
  serves post logs → 0 < page_size → (length (logs endpoint) < fuel)%nat →
  is_Some (Txid.fetch_squid_values post fuel endpoint page_size m b).
Proof. intros. apply (squid_values_loop_total _ logs); cbn; try done; lia. Qed.

(** The service answers every post. *)
Definition answers (post : Post) (logs : string → list Value) : Prop :=
  ∀ endpoint offset limit m b,
    post endpoint offset limit m b = Ok (Some (take (Z.to_nat limit) (drop (Z.to_nat offset) (filter (in_window m b) (logs endpoint)))), None).
Lemma answers_serves post logs : answers post logs → serves post logs.
Proof. intros Ha endpoint offset limit m b data. rewrite Ha. by intros [= <-]. Qed.

Lemma squid_values_loop_answers post logs endpoint page_size m b fuel offset values e :
  answers post logs → 0 < page_size ≤ Squid.i32_max → Z.of_nat (length (logs endpoint)) ≤ Squid.i32_max →
  values = take (Z.to_nat offset) (filter (in_window m b) (logs endpoint)) → length values = Z.to_nat offset →
  Txid.squid_values_loop post fuel endpoint page_size m b offset values ≠ Some (Err e).
Proof.
  intros Ha Hpage Hlen. revert offset values. induction fuel as [|fuel IH]; intros offset values Hv Hvl; cbn [Txid.squid_values_loop]; [done|].
  set (all := filter (in_window m b) (logs endpoint)) in *.
  assert (length all ≤ length (logs endpoint))%nat as Hle by apply length_filter.
  assert (length values ≤ length all)%nat by (rewrite Hv, length_take; lia).
  assert (Squid.i32_max ≤ usize_max) by done. assert (Squid.i32_max ≤ u64_max) by done.
  unfold Txid.fetch_squid_page. rewrite !try_from_fits by lia. cbn. rewrite Ha. cbn. fold all.
  set (page := take _ (drop _ all)).
  assert (values ++ page = take (Z.to_nat offset + Z.to_nat page_size) all) as Happ.
  { rewrite Hv. apply take_take_drop. }
  assert (length (values ++ page) ≤ length all)%nat by (rewrite Happ, length_take; lia).
  destruct (decide (page = [])); [done|]. unfold try_from_len. rewrite !try_from_fits by lia.
  destruct (decide _); [done|]. apply IH; [|lia].
  rewrite Nat2Z.id, Happ, length_take.
  destruct (decide (length all ≤ Z.to_nat offset + Z.to_nat page_size)%nat);
    [rewrite !take_ge; [done|lia|lia]|by rewrite Nat.min_l by lia].
Qed.

Lemma fetch_squid_values_answers post logs endpoint page_size m b fuel :
  answers post logs → 0 < page_size ≤ Squid.i32_max → Z.of_nat (length (logs endpoint)) ≤ Squid.i32_max →
  (length (logs endpoint) < fuel)%nat →
  Txid.fetch_squid_values post fuel endpoint page_size m b = Some (Ok (filter (in_window m b) (logs endpoint))).
Proof.
  intros Ha Hpage Hlen Hfuel. pose proof (answers_serves _ _ Ha) as Hs.
  destruct (fetch_squid_values_total post logs endpoint page_size m b fuel) as [[out|e] Hr]; [done|lia|done|..].
  - rewrite Hr. do 2 f_equal. apply (fetch_squid_values_Ok post logs endpoint page_size m b fuel); [done|lia|done].
  - exfalso. by eapply squid_values_loop_answers in Hr.
Qed.

(** ** Reading values that carry their block *)
Lemma block_of_Ok v : is_ok (Txid.u64_field v "blockNumber") = true → Txid.u64_field v "blockNumber" = Ok (block_of v).
Proof. unfold block_of. by destruct (Txid.u64_field _ _). Qed.
Definition blocks_ok values : Prop := Forall (λ v, is_ok (Txid.u64_field v "blockNumber") = true ∧ 0 ≤ block_of v) values.

Lemma blocks_ok_filter P `{!∀ v, Decision (P v)} values : blocks_ok values → blocks_ok (filter P values).
Proof. unfold blocks_ok. rewrite !Forall_forall. intros Hv v [_ Hin]%list_elem_of_filter. by apply Hv. Qed.

Lemma parse_step_skip rows values max_block :
  blocks_ok values →
  let step := λ rows value,
    block_number ← Txid.u64_field value "blockNumber";
    if decide (max_block < block_number) then Ok rows
    else
      txid_index ← ok_or (try_from_len u64_max (length rows)) "Squid txid index overflow"%string;
      row ← Txid.parse_squid_transaction txid_index value;
      Ok (rows ++ [row]) in
  try_fold step rows values = try_fold step rows (upto max_block values).
Proof.
  intros Hv step. revert rows. induction values as [|v values IH]; intros rows; [done|].
  apply Forall_cons in Hv as [[Hb _] Hv]. apply block_of_Ok in Hb. rewrite filter_cons. cbn [try_fold].
  destruct (decide (in_window None max_block v)) as [[_ Hin]|Hout].
  - cbn [try_fold]. destruct (step rows v) as [rows'|]; cbn; [by apply IH|done].
  - assert (step rows v = Ok rows) as ->; [|cbn; by apply IH].
    unfold step. rewrite Hb. cbn. rewrite decide_True; [done|]. destruct (decide (block_of v ≤ max_block)); [|lia].
    by destruct Hout.
Qed.
Lemma parse_upto values max_block :
  blocks_ok values → Txid.parse_squid_transactions values max_block = Txid.parse_squid_transactions (upto max_block values) max_block.
Proof. apply parse_step_skip. Qed.

Lemma max_squid_block_Ok values bound :
  blocks_ok values → Forall (λ v, block_of v ≤ bound) values → 0 ≤ bound →
  ∃ n, Txid.max_squid_block values = Ok n ∧ n ≤ bound.
Proof.
  unfold Txid.max_squid_block. intros Hv Hb Ha. revert Ha. generalize 0 as acc.
  induction values as [|v values IH]; intros acc Ha; [by exists acc|].
  apply Forall_cons in Hv as [[Hok _] Hv]. apply Forall_cons in Hb as [Hvb Hb].
  apply block_of_Ok in Hok. cbn [try_fold]. rewrite Hok. cbn. apply IH; [done|done|]. lia.
Qed.
Lemma count_rows_Ok values max_block : blocks_ok values → ∃ n, Txid.count_squid_rows_at_or_below values max_block = Ok n.
Proof.
  unfold Txid.count_squid_rows_at_or_below. intros Hv. generalize 0 as acc.
  induction values as [|v values IH]; intros acc; [by eexists|].
  apply Forall_cons in Hv as [[Hok _] Hv]. apply block_of_Ok in Hok. cbn [try_fold]. rewrite Hok. cbn. by apply IH.
Qed.

(** ** Windows of a log in block order *)
Lemma window_nil m b log : Forall (λ v, b < block_of v) log → filter (in_window m b) log = [].
Proof.
  induction 1 as [|v log Hv _ IH]; [done|]. rewrite filter_cons, decide_False; [done|]. intros [_ ?]. lia.
Qed.
Lemma window_app log m b :
  StronglySorted Z.le (block_of <$> log) → m ≤ b → upto m log ++ filter (in_window (Some m) b) log = upto b log.
Proof.
  intros Hs Hmb. induction log as [|v log IH]; [done|]. inversion Hs as [|? ? Hs' Hall]; subst.
  rewrite !filter_cons. destruct (decide (block_of v ≤ m)).
  - rewrite (decide_True (P := in_window None m v)), (decide_False (P := in_window (Some m) b v)),
      (decide_True (P := in_window None b v)); [|split; [done|lia]|intros [? _]; lia|by split].
    cbn. by rewrite IH.
  - assert (Forall (λ v, m < block_of v) log) as Hlater.
    { rewrite Forall_fmap in Hall. eapply Forall_impl; [exact Hall|]. cbn. lia. }
    rewrite (decide_False (P := in_window None m v)), (window_nil None m log) by (done || intros [_ ?]; lia). cbn.
    destruct (decide (block_of v ≤ b)).
    + rewrite (decide_True (P := in_window (Some m) b v)), (decide_True (P := in_window None b v)); [|split; [done|lia]|split; lia].
      f_equal. rewrite <- IH by done. by rewrite (window_nil None m log).
    + rewrite (decide_False (P := in_window (Some m) b v)), (decide_False (P := in_window None b v)); [|intros [_ ?]; lia|intros [_ ?]; lia].
      rewrite <- IH by done. by rewrite (window_nil None m log).
Qed.
Lemma upto_upto a b log : a ≤ b → upto a (upto b log) = upto a log.
Proof. intros. rewrite list_filter_filter_l; [done|]. intros v [_ ?]. split; [done|lia]. Qed.
Lemma upto_bound b log : Forall (λ v, block_of v ≤ b) (upto b log).
Proof. rewrite Forall_forall. by intros v [[_ ?] _]%list_elem_of_filter. Qed.

(** ** The cache invariant

    A file holds the service's rows up to its block. *)
Definition file_ok (logs : string → list Value) (chain_id : Z) (cache : Txid.SquidCacheFile) : Prop :=
  Txid.sc_version cache = Txid.SQUID_CACHE_VERSION ∧ Txid.sc_chain_id cache = chain_id ∧
  Squid.squid_endpoint chain_id = Ok (Txid.sc_endpoint cache) ∧ 0 ≤ Txid.sc_max_block cache ∧
  Txid.sc_row_count cache = length (Txid.sc_transactions cache) ∧
  Txid.sc_transactions cache = upto (Txid.sc_max_block cache) (logs (Txid.sc_endpoint cache)).
Definition dir_ok (logs : string → list Value) dir : Prop :=
  ∀ chain_id file, dir !! chain_id = Some file → ∃ cache, file = Some cache ∧ file_ok logs chain_id cache.

Section calls.
Context (logs : string → list Value) (Hlogs : ∀ endpoint, log_ok (logs endpoint)).

Lemma log_blocks b endpoint : blocks_ok (upto b (logs endpoint)).
Proof using Hlogs. apply blocks_ok_filter, Hlogs. Qed.

Lemma read_squid_cache_ok dir chain_id endpoint file :
  dir_ok logs dir → dir !! chain_id = Some file → Squid.squid_endpoint chain_id = Ok endpoint →
  ∃ cache, Txid.read_squid_cache dir chain_id endpoint = Ok cache ∧ file_ok logs chain_id cache ∧ Txid.sc_endpoint cache = endpoint.
Proof using Hlogs.
  intros Hd Hf He. destruct (Hd _ _ Hf) as (cache & -> & Hfile). exists cache.
  pose proof Hfile as (Hver & Hid & Hend & Hpos & Hcount & Htx). rewrite He in Hend. injection Hend as ->.
  split_and!; [|done|done]. unfold Txid.read_squid_cache. rewrite Hf. cbn.
  rewrite !decide_False by naive_solver.
  destruct (max_squid_block_Ok (Txid.sc_transactions cache) (Txid.sc_max_block cache)) as (n & -> & Hn); [..|done|].
  - rewrite Htx. apply log_blocks.
  - rewrite Htx. apply upto_bound.
  - cbn. by rewrite decide_False by lia.
Qed.

Lemma insert_ok dir chain_id cache : dir_ok logs dir → file_ok logs chain_id cache → dir_ok logs (<[chain_id := Some cache]> dir).
Proof.
  intros Hd Hf c file. destruct (decide (c = chain_id)) as [->|Hne].
  - rewrite lookup_insert_eq. intros [= <-]. by exists cache.
  - rewrite lookup_insert_ne by done. apply Hd.
Qed.

Context (post : Post) (Hserves : serves post logs) (unix_timestamp : result string Z) (writable : bool).
Context (page_size : Z) (Hpage : 0 < page_size) (chain_id : Z) (endpoint : string) (Hend : Squid.squid_endpoint chain_id = Ok endpoint).

Lemma fetch_and_write_ok fuel dir max_block values dir' :
  dir_ok logs dir → 0 ≤ max_block →
  Txid.fetch_and_write post unix_timestamp writable fuel dir chain_id endpoint page_size max_block = Some (Ok (values, dir')) →
  dir_ok logs dir' ∧ values = upto max_block (logs endpoint).
Proof using Hserves Hpage Hend.
  intros Hd Hb. unfold Txid.fetch_and_write, Txid.write_squid_cache, Txid.write_squid_cache_file.
  destruct (Txid.fetch_squid_values _ _ _ _ _ _) as [[out|]|] eqn:Hf; [|done..]. intros [= Hw].
  apply (fetch_squid_values_Ok _ logs) in Hf as ->; [|done..]. res_inv. destruct writable; [|done]. simplify_eq.
  split; [|done]. apply insert_ok; [done|]. by split_and!.
Qed.

Lemma squid_public_txid_values_ok fuel dir refresh max_block values d :
  dir_ok logs dir → 0 ≤ max_block →
  Txid.squid_public_txid_values post unix_timestamp writable fuel chain_id endpoint page_size max_block (Some dir) refresh = Some (Ok (values, d)) →
  ∃ dir' b, d = Some dir' ∧ dir_ok logs dir' ∧ max_block ≤ b ∧ values = upto b (logs endpoint).
Proof using Hlogs Hserves Hpage Hend.
  intros Hd Hb. unfold Txid.squid_public_txid_values.
  assert (∀ r, (match r with None => None | Some r => Some ('(values, dir) ← r; Ok (values, Some dir)) end : option (result string _)) = Some (Ok (values, d)) →
    r = Txid.fetch_and_write post unix_timestamp writable fuel dir chain_id endpoint page_size max_block →
    ∃ dir' b, d = Some dir' ∧ dir_ok logs dir' ∧ max_block ≤ b ∧ values = upto b (logs endpoint)) as Hfetch.
  { intros [[[vs dir']|]|] Hr Heq; [|done..]. cbn in Hr. injection Hr as -> <-. symmetry in Heq.
    apply fetch_and_write_ok in Heq as [? ->]; [|done..]. by exists dir', max_block. }
  destruct refresh; [intros Hr; by eapply Hfetch|].
  destruct (dir !! chain_id) as [file|] eqn:Hfile; [|intros Hr; by eapply Hfetch].
  destruct (read_squid_cache_ok _ _ _ _ Hd Hfile Hend) as (cache & -> & Hok & Hce).
  pose proof Hok as (Hver & Hid & _ & Hpos & Hcount & Htx). rewrite Hce in Htx.
  destruct (count_rows_Ok (Txid.sc_transactions cache) max_block) as [n Hn]; [rewrite Htx; apply log_blocks|].
  cbn [mbind result_bind]. rewrite Hn. cbn [mbind result_bind].
  destruct (decide (Txid.sc_max_block cache < max_block)) as [Hlt|Hge].
  - destruct (Txid.fetch_squid_values _ _ _ _ _ _) as [[delta|]|] eqn:Hf; [|done..]. intros [= Hw].
    apply (fetch_squid_values_Ok _ logs) in Hf as ->; [|done..].
    rewrite Htx, window_app in Hw by (lia || apply Hlogs).
    unfold Txid.write_squid_cache_file in Hw. res_inv. destruct writable; [|done]. simplify_eq.
    eexists _, max_block. split_and!; [done| |lia|done]. apply insert_ok; [done|]. by split_and!.
  - intros [= <- <-]. exists dir, (Txid.sc_max_block cache). split_and!; [done|done|lia|done].
Qed.

Lemma squid_public_txid_values_total fuel (d : option Txid.CacheDir) refresh max_block :
  (length (logs endpoint) < fuel)%nat →
  is_Some (Txid.squid_public_txid_values post unix_timestamp writable fuel chain_id endpoint page_size max_block d refresh).
Proof using Hserves Hpage.
  intros Hfuel. unfold Txid.squid_public_txid_values, Txid.fetch_and_write.
  pose proof (λ m, fetch_squid_values_total post logs endpoint page_size m max_block fuel Hserves Hpage Hfuel) as Hf.
  destruct (Hf None) as [r ->]. destruct d as [dir|]; [|done]. destruct refresh; [done|].
  destruct (dir !! chain_id); [|done]. case_match; [|done]. case_decide; [|done]. by destruct (Hf (Some (Txid.sc_max_block a))) as [? ->].
Qed.

(** Rows are parsed alike from any longer prefix of the log. *)
Lemma parse_longer b max_block :
  max_block ≤ b →
  Txid.parse_squid_transactions (upto b (logs endpoint)) max_block = Txid.parse_squid_transactions (upto max_block (logs endpoint)) max_block.
Proof using Hlogs. intros. rewrite parse_upto by apply log_blocks. by rewrite upto_upto. Qed.
End calls.

(** The call of [main], with a cache in the invariant: it returns, keeps the
    invariant, and its rows are those of the service's log. *)
Section rows.
Context (logs : string → list Value) (Hlogs : ∀ endpoint, log_ok (logs endpoint)).
Context (post : Post) (Hserves : serves post logs) (unix_timestamp : result string Z) (writable : bool) (page_size : Z) (Hpage : 0 < page_size).

Lemma squid_public_txid_rows_ok fuel chain_id dir refresh max_block d r :
  dir_ok logs dir → 0 ≤ max_block →
  Txid.squid_public_txid_rows post unix_timestamp writable fuel chain_id page_size max_block (Some dir) refresh = Some (d, r) →
  (∃ dir', d = Some dir' ∧ dir_ok logs dir') ∧
  ∀ rows, r = Ok rows → ∃ endpoint, Squid.squid_endpoint chain_id = Ok endpoint ∧
    Txid.parse_squid_transactions (upto max_block (logs endpoint)) max_block = Ok rows.
Proof using Hlogs Hserves Hpage.
  intros Hd Hb. unfold Txid.squid_public_txid_rows.
  destruct (Squid.squid_endpoint chain_id) as [endpoint|] eqn:He; [|intros [= <- <-]; naive_solver].
  destruct (Txid.squid_public_txid_values _ _ _ _ _ _ _ _ _ _) as [[[values d']|e]|] eqn:Hv; [|intros [= <- <-]; naive_solver|done].
  intros [= <- <-].
  destruct (squid_public_txid_values_ok logs Hlogs _ Hserves _ _ _ Hpage _ _ He _ _ _ _ _ _ Hd Hb Hv) as (dir' & b & -> & Hd' & Hle & ->).
  split; [by eexists|]. intros rows Hr. exists endpoint. split; [done|]. by rewrite <- (parse_longer logs Hlogs endpoint b).
Qed.

Lemma squid_public_txid_rows_total fuel chain_id d refresh max_block :
  (∀ endpoint, (length (logs endpoint) < fuel)%nat) →
  is_Some (Txid.squid_public_txid_rows post unix_timestamp writable fuel chain_id page_size max_block d refresh).
Proof using Hserves Hpage.
  intros Hfuel. unfold Txid.squid_public_txid_rows. destruct (Squid.squid_endpoint chain_id) as [endpoint|]; [|done].
  destruct (squid_public_txid_values_total logs _ Hserves unix_timestamp writable _ Hpage chain_id endpoint fuel d refresh max_block) as [[[]|] ->]; done.
Qed.

Lemma squid_public_txid_rows_uncached fuel chain_id refresh max_block d r :
  Txid.squid_public_txid_rows post unix_timestamp writable fuel chain_id page_size max_block None refresh = Some (d, r) →
  d = None ∧ ∀ rows, r = Ok rows → ∃ endpoint, Squid.squid_endpoint chain_id = Ok endpoint ∧
    Txid.parse_squid_transactions (upto max_block (logs endpoint)) max_block = Ok rows.
Proof using Hserves Hpage.
  unfold Txid.squid_public_txid_rows, Txid.squid_public_txid_values.
  destruct (Squid.squid_endpoint chain_id) as [endpoint|] eqn:He; [|intros [= <- <-]; naive_solver].
  destruct (Txid.fetch_squid_values _ _ _ _ _ _) as [[values|e]|] eqn:Hv; cbn; [|intros [= <- <-]; naive_solver|done].
  intros [= <- <-]. split; [done|]. intros rows Hr. exists endpoint. split; [done|].
  by apply (fetch_squid_values_Ok _ logs) in Hv as ->.
Qed.
End rows.

(** With a service that answers, a clock and a writable directory, a cached
    call is a full download. *)
Lemma squid_public_txid_rows_answers logs post now page_size fuel chain_id dir refresh max_block :
  (∀ endpoint, log_ok (logs endpoint)) → answers post logs → 0 < page_size ≤ Squid.i32_max →
  (∀ endpoint, Z.of_nat (length (logs endpoint)) ≤ Squid.i32_max ∧ (length (logs endpoint) < fuel)%nat) →
  dir_ok logs dir → 0 ≤ max_block →
  ∃ dir' r,
    Txid.squid_public_txid_rows post (Ok now) true fuel chain_id page_size max_block (Some dir) refresh = Some (Some dir', r) ∧
    Txid.squid_public_txid_rows post (Ok now) true fuel chain_id page_size max_block None false = Some (None, r).
Proof.
  intros Hlogs Ha Hpage Hlen Hd Hb. unfold Txid.squid_public_txid_rows, Txid.squid_public_txid_values, Txid.fetch_and_write.
  destruct (Squid.squid_endpoint chain_id) as [endpoint|] eqn:He; [|by eexists _, _].
  rewrite (fetch_squid_values_answers _ logs) by (done || apply Hlen). cbn.
  destruct refresh; [by eexists _, _|]. destruct (dir !! chain_id) as [file|] eqn:Hfile; [|by eexists _, _].
  destruct (read_squid_cache_ok logs Hlogs _ _ _ _ Hd Hfile He) as (cache & -> & (_ & _ & _ & _ & _ & Htx) & Hce). rewrite Hce in Htx.
  destruct (count_rows_Ok (Txid.sc_transactions cache) max_block) as [n Hn]; [rewrite Htx; by apply log_blocks|].
  cbn. rewrite Hn. cbn. destruct (decide (Txid.sc_max_block cache < max_block)).
  - rewrite (fetch_squid_values_answers _ logs) by (done || apply Hlen). cbn. rewrite Htx, window_app by (lia || apply Hlogs).
    by eexists _, _.
  - eexists _, _. split; [done|]. do 2 f_equal. rewrite Htx. symmetry. apply (parse_longer logs Hlogs). lia.
Qed.
End cache.

(** ** Runs of the verifier

    The service's logs and the cache files, moved by runs of the program, with
    any outcome, and by the service indexing more: rows at or below a block the
    cache was filled up to are settled. *)
Section runs.
Context `{ArtifactCrate} `{TreeCrate} `{HexStrings} `{SquidCrate} `{TxidCrate}.
Implicit Types (dir : Txid.CacheDir).

Definition heights_wf (chains : list IndexedArtifactChainEntry) : Prop :=
  Forall (λ chain, Forall (λ h, 0 ≤ lh_block_number h) (en_latest_indexed chain)) chains.
Definition settled (logs logs' : string → list Value) dir : Prop :=
  (∀ endpoint, log_ok (logs' endpoint)) ∧
  ∀ chain_id cache, dir !! chain_id = Some (Some cache) →
    filter (in_window None (Txid.sc_max_block cache)) (logs' (Txid.sc_endpoint cache)) =
    filter (in_window None (Txid.sc_max_block cache)) (logs (Txid.sc_endpoint cache)).

Inductive cache_step : (string → list Value) * Txid.CacheDir → (string → list Value) * Txid.CacheDir → Prop :=
  | run_step post http_get from_utf8 clock writable fuel page_size progress_every refresh chain_ids chains logs dir dir' r :
      serves post logs → 0 ≤ page_size → heights_wf chains →
      Txid.verify_manifest post http_get from_utf8 clock writable fuel page_size progress_every refresh chain_ids (Some dir) chains
        = Some (r, Some dir') →
      cache_step (logs, dir) (logs, dir')
  | index_step logs logs' dir : settled logs logs' dir → cache_step (logs, dir) (logs', dir).

Lemma verify_chain_dir post http_get from_utf8 clock writable fuel page_size refresh logs dir chain r d :
  (∀ endpoint, log_ok (logs endpoint)) → serves post logs → 0 < page_size → heights_wf [chain] → dir_ok logs dir →
  Txid.verify_chain post http_get from_utf8 clock writable fuel page_size refresh (Some dir) chain = Some (r, d) →
  ∃ dir', d = Some dir' ∧ dir_ok logs dir'.
Proof.
  intros Hlogs Hs Hp Hw Hd. unfold Txid.verify_chain.
  destruct (list_find _ _) as [[? catalog]|]; [|intros [= <- <-]; eauto].
  destruct (mbind _ (Txid.artifact_public_txid_data _ _ _)) as [[artifact max_block]|e] eqn:Ha; [|intros [= <- <-]; eauto].
  assert (0 ≤ max_block) as Hb.
  { res_inv. simplify_eq. destruct (list_find _ (en_latest_indexed chain)) as [[i h]|] eqn:Hf; [|done]. simplify_eq/=.
    apply list_find_Some in Hf as (Hi & _). apply Forall_cons in Hw as [Hw _]. rewrite Forall_lookup in Hw. by eapply Hw. }
  destruct (Txid.squid_public_txid_rows _ _ _ _ _ _ _ _ _) as [[d' r']|] eqn:Hr; [|done]. intros [= _ <-].
  by apply (squid_public_txid_rows_ok logs Hlogs _ Hs) in Hr as [? _].
Qed.

Lemma verify_chains_dir post http_get from_utf8 clock writable fuel page_size refresh chain_ids logs chains dir failures r d :
  (∀ endpoint, log_ok (logs endpoint)) → serves post logs → 0 < page_size → heights_wf chains → dir_ok logs dir →
  Txid.verify_chains post http_get from_utf8 clock writable fuel page_size refresh chain_ids (Some dir) chains failures = Some (r, d) →
  ∃ dir', d = Some dir' ∧ dir_ok logs dir'.
Proof.
  intros Hlogs Hs Hp. revert dir failures. induction chains as [|chain chains IH]; intros dir failures Hw Hd; cbn [Txid.verify_chains].
  { intros [= _ <-]. eauto. }
  apply Forall_cons in Hw as [Hw Hws]. destruct (decide _); [by apply IH|].
  destruct (Txid.verify_chain _ _ _ _ _ _ _ _ _ _) as [[r' d']|] eqn:Hv; [|done].
  apply (verify_chain_dir _ _ _ _ _ _ _ _ logs) in Hv as (dir' & -> & Hd'); [|done..|by apply Forall_singleton|done].
  destruct r' as [failed|e]; [by apply IH|]. intros [= _ <-]. eauto.
Qed.

Lemma cache_step_ok s s' :
  cache_step s s' → (∀ endpoint, log_ok (s.1 endpoint)) ∧ dir_ok s.1 s.2 → (∀ endpoint, log_ok (s'.1 endpoint)) ∧ dir_ok s'.1 s'.2.
Proof.
  intros Hstep [Hlogs Hd]. destruct Hstep as [post http_get ? ? ? ? ? ? ? ? ? logs dir dir' r Hs Hp Hw Hr|logs logs' dir [Hl Hset]]; cbn in *.
  - split; [done|]. unfold Txid.verify_manifest in Hr. repeat (case_decide; [by simplify_eq|]).
    destruct (Txid.verify_chains _ _ _ _ _ _ _ _ _ _ _ _) as [[r' d']|] eqn:Hv; [|done]. injection Hr as _ ->.
    apply (verify_chains_dir _ _ _ _ _ _ _ _ _ logs) in Hv as (? & [= <-] & ?); [done|done|done|lia|done|done].
  - split; [done|]. intros c file Hf. destruct (Hd _ _ Hf) as (cache & -> & Hver & Hid & Hend & Hpos & Hcount & Htx).
    exists cache. split; [done|]. unfold file_ok. split_and!; try done. rewrite (Hset _ _ Hf). done.
Qed.
Lemma cache_runs_ok s s' :
  rtc cache_step s s' → (∀ endpoint, log_ok (s.1 endpoint)) ∧ dir_ok s.1 s.2 → (∀ endpoint, log_ok (s'.1 endpoint)) ∧ dir_ok s'.1 s'.2.
Proof. induction 1; [done|]. intros ?. by eapply IHrtc, cache_step_ok. Qed.

(** C23. The Squid cache is transparent. After any runs of the verifier from an
    empty cache directory, with any outcome, interleaved with a service that
    indexes more but has settled the blocks cached so far: a call with the
    cache returns, given a round per row and one more; the rows of a call that
    succeeds are the service's rows up to the block, whatever the cache held
    and whether it was behind, ahead or refreshed; and when the service
    answers and the file can be written, the call has the very outcome of one
    without a cache, errors in the rows included. *)
Theorem squid_cache_transparent logs0 logs dir post clock writable fuel chain_id page_size max_block refresh :
  (∀ endpoint, log_ok (logs0 endpoint)) → rtc cache_step (logs0, ∅) (logs, dir) → serves post logs →
  0 < page_size ≤ Squid.i32_max → 0 ≤ max_block →
  (∀ endpoint, Z.of_nat (length (logs endpoint)) ≤ Squid.i32_max ∧ (length (logs endpoint) < fuel)%nat) →
  let cached := Txid.squid_public_txid_rows post clock writable fuel chain_id page_size max_block (Some dir) refresh in
  is_Some cached ∧
  (∀ d rows, cached = Some (d, Ok rows) →
     ∃ endpoint, Squid.squid_endpoint chain_id = Ok endpoint ∧
       Txid.parse_squid_transactions (filter (in_window None max_block) (logs endpoint)) max_block = Ok rows) ∧
  (answers post logs → is_ok clock = true → writable = true →
     ∃ d r, cached = Some (d, r) ∧ Txid.squid_public_txid_rows post clock writable fuel chain_id page_size max_block None false = Some (None, r)).
Proof.
  intros Hl0 Hruns Hs Hp Hb Hfuel cached.
  destruct (cache_runs_ok _ _ Hruns) as [Hlogs Hd]; [split; [done|]; cbn; intros c file Hf; by rewrite lookup_empty in Hf|]. cbn in Hlogs, Hd.
  split_and!.
  - apply (squid_public_txid_rows_total logs); [done|lia|apply Hfuel].
  - intros d rows Hc. eapply (squid_public_txid_rows_ok logs Hlogs post Hs _ _ page_size) in Hc as [_ Hr]; [|lia|done|done]. by apply Hr.
  - intros Ha Hclock ->. destruct clock as [now|]; [|done].
    destruct (squid_public_txid_rows_answers logs post now page_size fuel chain_id dir refresh max_block) as (dir' & r & ? & ?);
      [done..|by eexists _, r].
Qed.
End runs.

(** ** The verdict *)
Section verdict.
Context `{TreeCrate} `{TxidCrate}.
Implicit Types (rows : list TxidRow) (leaves : list Z) (chunk : IndexedArtifactDescriptor).
Abbreviation rows_equal := (Forall2 (λ l r, Txid.rows_match l r = true)).

Lemma rows_match_leaf l r : Txid.rows_match l r = true → Txid.leaf_hash l = Txid.leaf_hash r.
Proof.
  unfold Txid.rows_match. rewrite !andb_true_iff, !bool_decide_eq_true. intros Hm. destruct_and!.
  unfold Txid.leaf_hash. congruence.
Qed.
Lemma rows_equal_leaves a s : rows_equal a s → Txid.leaf_hashes a = Txid.leaf_hashes s.
Proof. unfold Txid.leaf_hashes. induction 1 as [|l r a s Hm _ IH]; [done|]. cbn. rewrite IH. by rewrite (rows_match_leaf _ _ Hm). Qed.

Lemma first_index_None {A} max (f : nat → option A) : Txid.first_index max f = None ↔ ∀ i, (i < max)%nat → f i = None.
Proof.
  unfold Txid.first_index. rewrite head_None. split.
  - intros Hn i Hi. destruct (f i) as [x|] eqn:Hf; [|done]. exfalso.
    assert (x ∈ omap f (seq 0 max)) as Hx by (apply list_elem_of_omap; exists i; split; [apply elem_of_seq; lia|done]).
    rewrite Hn in Hx. by apply elem_of_nil in Hx.
  - intros Hf. destruct (omap f (seq 0 max)) as [|x l] eqn:Ho; [done|].
    assert (x ∈ omap f (seq 0 max)) as (i & Hi & Hx)%list_elem_of_omap by (rewrite Ho; by left).
    apply elem_of_seq in Hi. by rewrite Hf in Hx by lia.
Qed.
Lemma first_row_mismatch_None a s la ls : Txid.first_row_mismatch a s la ls = None ↔ rows_equal a s.
Proof.
  unfold Txid.first_row_mismatch. rewrite first_index_None. split.
  - intros Hn. apply Forall2_same_length_lookup. assert (∀ i, (i < length a `max` length s)%nat → is_Some (a !! i) ∧ is_Some (s !! i) ∧
      ∀ l r, a !! i = Some l → s !! i = Some r → Txid.rows_match l r = true) as Hi.
    { intros i Hi. specialize (Hn i Hi). destruct (a !! i), (s !! i); try done. case_match eqn:Hm; [|done]. naive_solver. }
    assert (length a = length s) as Hlen.
    { destruct (lt_eq_lt_dec (length a) (length s)) as [[Hlt| ->]|Hlt]; [|done|].
      - destruct (Hi (length a)) as [Ha%lookup_lt_is_Some _]; lia.
      - destruct (Hi (length s)) as (_ & Hs%lookup_lt_is_Some & _); lia. }
    split; [done|]. intros i l r Ha Hs. eapply Hi; [|done..]. apply lookup_lt_Some in Ha. lia.
  - intros HF i Hi. pose proof (Forall2_length _ _ _ HF) as Hlen. rewrite Hlen, Nat.max_id in Hi.
    destruct (lookup_lt_is_Some_2 s i Hi) as [r Hr]. destruct (Forall2_lookup_r _ _ _ _ _ HF Hr) as (l & Hl & Hm).
    rewrite Hl, Hr. by rewrite Hm.
Qed.
Lemma first_leaf_mismatch_same a s leaves : Txid.first_leaf_mismatch a s leaves leaves = None.
Proof. unfold Txid.first_leaf_mismatch. apply first_index_None. intros i _. by rewrite decide_False by auto. Qed.

(** The root of the chunk's tree as of its last row. *)
Definition root_verified leaves chunk : Prop :=
  let stop := range_end (desc_range chunk) in
  let start := stop `div` TREE_LEAF_COUNT * TREE_LEAF_COUNT in
  meta_root (desc_metadata chunk) =
    Some (be_bytes 32 (dense_tree_root (take (Z.to_nat (stop + 1 - start)) (drop (Z.to_nat start) leaves)) (stop - start + 1))).
#[global] Instance root_verified_dec leaves chunk : Decision (root_verified leaves chunk).
Proof. unfold root_verified. apply _. Defined.
Definition rooted_inside leaves chunk : Prop :=
  is_Some (meta_root (desc_metadata chunk)) → range_end (desc_range chunk) < Z.of_nat (length leaves).
Definition range_u64 chunk : Prop := 0 ≤ range_end (desc_range chunk) < u64_max.

Lemma tree_start_bounds stop : 0 ≤ stop → 0 ≤ stop `div` TREE_LEAF_COUNT * TREE_LEAF_COUNT ≤ stop.
Proof.
  intros. assert (0 < TREE_LEAF_COUNT) by (rewrite tree_leaf_count_pow; lia).
  pose proof (Z.mul_div_le stop TREE_LEAF_COUNT). pose proof (Z.div_pos stop TREE_LEAF_COUNT). nia.
Qed.

Lemma verify_descriptor_root_spec leaves errors chunk :
  range_u64 chunk →
  (is_ok (Txid.verify_descriptor_root leaves errors chunk) = true ↔ rooted_inside leaves chunk) ∧
  ∀ n, Txid.verify_descriptor_root leaves errors chunk = Ok n →
    (root_verified leaves chunk → n = errors) ∧ (~ root_verified leaves chunk → n = saturating_add usize_max errors 1).
Proof.
  unfold range_u64, Txid.verify_descriptor_root, rooted_inside, root_verified. intros Hr.
  destruct (meta_root (desc_metadata chunk)) as [root|]; [|split; [by split; [intros _ []|]|naive_solver]].
  set (stop := range_end (desc_range chunk)) in *. pose proof (tree_start_bounds stop (proj1 Hr)) as Hstart.
  set (start := _ * _) in *. assert (u64_max = usize_max) as Hu by done.
  rewrite (proj2 (checked_sub_Some stop start (stop - start))) by lia. cbn [mbind option_bind].
  rewrite (proj2 (checked_add_Some u64_max (stop - start) 1 (stop - start + 1))) by lia. cbn [ok_or mbind result_bind].
  rewrite !try_from_fits by lia. cbn [ok_or mbind result_bind].
  destruct (decide (stop < Z.of_nat (length leaves))) as [Hin|Hout]; cbn [mbind result_bind].
  - split; [by split|]. intros n [= <-]. destruct (decide _) as [Hne|Heq%dec_stable]; split; intros Hv; try done.
    + injection Hv as ->. done.
    + destruct Hv. by f_equal.
  - split; [|done]. split; [done|]. intros Hlt. exfalso. apply Hout, Hlt. by eexists.
Qed.

Lemma descriptor_roots_zero leaves chunks errors n :
  Forall range_u64 chunks → 0 ≤ errors → try_fold (Txid.verify_descriptor_root leaves) errors chunks = Ok n →
  0 ≤ n ∧ (n = 0 ↔ errors = 0 ∧ Forall (root_verified leaves) chunks).
Proof.
  intros HF. revert errors. induction HF as [|chunk chunks Hr _ IH]; intros errors He; cbn [try_fold].
  { intros [= <-]. split; [done|]. naive_solver. }
  intros Hf. res_inv. destruct (verify_descriptor_root_spec leaves errors chunk Hr) as [_ Hspec].
  match goal with E : Txid.verify_descriptor_root _ _ _ = Ok ?m |- _ => destruct (Hspec _ E) as [Hyes Hno] end.
  assert (0 < saturating_add usize_max errors 1) as Hs by (unfold saturating_add, usize_max, u64_max; lia).
  destruct (decide (root_verified leaves chunk)) as [Hv|Hv].
  - specialize (Hyes Hv). subst. destruct (IH _ He Hf) as [? IHn]. split; [done|]. rewrite IHn, Forall_cons. naive_solver.
  - specialize (Hno Hv). subst. destruct (IH _ (Z.lt_le_incl _ _ Hs) Hf) as [? IHn]. split; [done|]. rewrite IHn, Forall_cons.
    split; [lia|]. by intros (_ & ? & _).
Qed.

Lemma descriptor_roots_ok leaves chunks errors :
  Forall range_u64 chunks →
  is_ok (try_fold (Txid.verify_descriptor_root leaves) errors chunks) = true ↔ Forall (rooted_inside leaves) chunks.
Proof.
  intros HF. revert errors. induction HF as [|chunk chunks Hr _ IH]; intros errors; cbn [try_fold]; [by split|].
  destruct (verify_descriptor_root_spec leaves errors chunk Hr) as [Hok _]. rewrite Forall_cons.
  destruct (Txid.verify_descriptor_root leaves errors chunk) as [n|e]; cbn [mbind result_bind].
  - rewrite IH. split; [|by intros [_ ?]]. intros ?. split; [|done]. by apply Hok.
  - split; [done|]. intros [Hin _]. by apply Hok in Hin.
Qed.

Lemma nonempty_parts_length {A} (parts : list (list A)) :
  Forall (λ c, c ≠ []) parts →
  (length parts ≤ length (concat parts))%nat ∧ Forall (λ c : list A, (length c ≤ length (concat parts))%nat) parts.
Proof.
  induction 1 as [|c parts Hc _ [IH1 IH2]]; [by split|]. cbn. rewrite length_app.
  assert (0 < length c)%nat by (destruct c; [done|cbn; lia]). split; [lia|]. constructor; [lia|].
  eapply Forall_impl; [exact IH2|]. cbn. lia.
Qed.
Lemma roots_by_tree_ok leaves : Z.of_nat (length leaves) ≤ u64_max → is_ok (Txid.roots_by_tree leaves) = true.
Proof.
  intros Hlen. unfold Txid.roots_by_tree. pose proof tree_leaf_count_u64. assert (u32_max ≤ usize_max) by done.
  rewrite try_from_fits by lia. cbn [ok_or mbind result_bind].
  destruct (chunks_concat (Z.to_nat TREE_LEAF_COUNT) leaves) as [Hcat Hne].
  { assert (0 < TREE_LEAF_COUNT) by (rewrite tree_leaf_count_pow; lia). lia. }
  apply nonempty_parts_length in Hne as [Hcount Hparts]. rewrite Hcat in Hcount, Hparts.
  match goal with |- context [try_fold ?step _ _] =>
    assert (∀ parts st, Z.of_nat (st.1 + length parts) ≤ u64_max → Forall (λ c : list Z, (length c ≤ length leaves)%nat) parts →
      is_ok (try_fold step st parts) = true) as Hfold end.
  { intros parts st Hk HF. revert st Hk. induction HF as [|c parts Hc _ IH]; intros [k roots] Hk; [done|]. cbn [fst length] in Hk. cbn [try_fold].
    unfold try_from_len. rewrite !try_from_fits by lia. cbn [ok_or mbind result_bind]. apply IH. cbn [fst]. lia. }
  specialize (Hfold (chunks (Z.to_nat TREE_LEAF_COUNT) leaves) (0%nat, ∅)).
  destruct (try_fold _ _ _); [done|]. apply Hfold; [cbn; lia|done].
Qed.

Lemma compare_chain_ok chain_id artifact squid_rows :
  Z.of_nat (length (Txid.ad_rows artifact)) ≤ u64_max → Z.of_nat (length squid_rows) ≤ u64_max →
  Forall range_u64 (Txid.ad_chunks artifact) →
  is_ok (Txid.compare_chain chain_id artifact squid_rows) = true ↔
    Forall (rooted_inside (Txid.leaf_hashes (Txid.ad_rows artifact))) (Txid.ad_chunks artifact).
Proof.
  intros Ha Hs Hr. unfold Txid.compare_chain, Txid.verify_artifact_descriptor_roots.
  pose proof (roots_by_tree_ok (Txid.leaf_hashes (Txid.ad_rows artifact))) as Hra.
  pose proof (roots_by_tree_ok (Txid.leaf_hashes squid_rows)) as Hrs.
  unfold Txid.leaf_hashes in Hra, Hrs. rewrite length_fmap in Hra, Hrs. specialize (Hra Ha). specialize (Hrs Hs).
  rewrite <- (descriptor_roots_ok _ _ 0 Hr). unfold Txid.leaf_hashes in *.
  destruct (Txid.roots_by_tree (Txid.leaf_hash <$> Txid.ad_rows artifact)); [|done].
  destruct (Txid.roots_by_tree (Txid.leaf_hash <$> squid_rows)); [|done]. cbn [mbind result_bind].
  by destruct (try_fold _ 0 _).
Qed.

Lemma compare_chain_passed chain_id artifact squid_rows parity :
  Forall range_u64 (Txid.ad_chunks artifact) →
  Txid.compare_chain chain_id artifact squid_rows = Ok parity →
  Txid.passed parity = true ↔
    rows_equal (Txid.ad_rows artifact) squid_rows ∧
    Forall (root_verified (Txid.leaf_hashes (Txid.ad_rows artifact))) (Txid.ad_chunks artifact).
Proof.
  intros Hr. unfold Txid.compare_chain, Txid.verify_artifact_descriptor_roots. intros Hc. res_inv. simplify_eq.
  match goal with E : try_fold _ _ _ = Ok _ |- _ => apply descriptor_roots_zero in E as [_ Hzero]; [|done..] end.
  unfold Txid.passed. cbn. rewrite !andb_true_iff, !bool_decide_eq_true, Hzero.
  rewrite <- (first_row_mismatch_None _ _ (Txid.leaf_hashes (Txid.ad_rows artifact)) (Txid.leaf_hashes squid_rows)).
  split.
  - intros ((((_ & _) & [_ Hv]) & _) & Hn). by destruct (Txid.first_row_mismatch _ _ _ _).
  - intros [Hn Hv]. pose proof Hn as Heq%first_row_mismatch_None. rewrite Hn.
    pose proof (Forall2_length _ _ _ Heq) as Hlen. pose proof (rows_equal_leaves _ _ Heq) as Hleaves.
    rewrite Hleaves, first_leaf_mismatch_same in *. split_and!; try done. congruence.
Qed.
End verdict.

(** ** The publisher's catalog *)
Section published.
Context `{ArtifactCrate} `{TreeCrate} `{TxidCrate} `{PoiTypes} `{CidCrate} `{ManifestCrate} `{CatalogCrate}.
Context (pin_cid : bytes → Cid) (audit_error : AuditError → string) (service_name : string).
Context (store_error : StoreError → string) (txid_error : PublicTxidChunkError Cid → string) (db : ChainDb).

(** The verifier hashes a row it reads to the leaf the publisher hashed. *)
Lemma parsed_leaves (log : list StoredPublicTxidRow) : Txid.leaf_hashes (parsed_txid <$> log) = public_txid_leaf_hash <$> log.
Proof. unfold Txid.leaf_hashes. by rewrite <- list_fmap_compose. Qed.

Lemma published_root_verified scope log pos chunk part :
  (∀ k row, log !! k = Some row → pt_txid_index row = Z.of_nat k) → Z.of_nat (length log) ≤ i64_max →
  log_part log pos part → txid_chunk_of scope log chunk part →
  range_u64 chunk ∧ rooted_inside (Txid.leaf_hashes (parsed_txid <$> log)) chunk ∧ root_verified (Txid.leaf_hashes (parsed_txid <$> log)) chunk.
Proof.
  intros Hidx Hlen Hpart (row & root & published & cid & Hrow & Hroot & Hpub & ->).
  destruct Hpart as [Hne Hpart]. assert (0 < length part)%nat by (destruct part; [done|cbn; lia]).
  assert (length part ≤ length log - pos)%nat as Hle.
  { rewrite Hpart at 1. rewrite length_take, length_drop. lia. }
  assert (pt_txid_index row = Z.of_nat (pos + length part) - 1) as Hi.
  { rewrite last_lookup, Hpart, lookup_take_lt, lookup_drop in Hrow by (rewrite <- Hpart; lia).
    apply Hidx in Hrow. rewrite <- Hpart in Hrow. lia. }
  assert (range_end (desc_range (published_descriptor published)) = pt_txid_index row ∧
    meta_root (desc_metadata (published_descriptor published)) = Some root) as [Hend Hmeta].
  { pose proof (prepared_range _ _ _ _ Hpub) as (_ & _ & Hk & He)%public_txid_range_Ok. split.
    - rewrite last_lookup in Hrow. apply Hk in Hrow. lia.
    - unfold prepare_public_txid_chunk in Hpub. res_inv. by case_decide; [|res_inv]. }
  unfold range_u64, rooted_inside, root_verified. cbn [set_cid desc_range desc_metadata]. rewrite Hend, Hmeta, parsed_leaves, length_fmap.
  split_and!; [lia|unfold i64_max, u64_max in *; lia|lia|].
  unfold public_txid_checkpoint_root in Hroot. res_inv. case_decide; [done|]. injection Hroot as <-.
  set (start := _ * _). pose proof (tree_start_bounds (pt_txid_index row)) as Hstart. fold start in Hstart.
  unfold tree_prefix. fold start. do 3 f_equal.
  - rewrite fmap_take, fmap_drop. do 2 f_equal. lia.
  - rewrite length_take, length_drop. lia.
Qed.

Lemma published_parts_verified scope log chunks parts pos :
  (∀ k row, log !! k = Some row → pt_txid_index row = Z.of_nat k) → Z.of_nat (length log) ≤ i64_max →
  Forall2 (txid_chunk_of scope log) chunks parts → concat parts = drop pos log →
  Forall (λ chunk, range_u64 chunk ∧ rooted_inside (Txid.leaf_hashes (parsed_txid <$> log)) chunk ∧
    root_verified (Txid.leaf_hashes (parsed_txid <$> log)) chunk) chunks.
Proof.
  intros Hidx Hlen HF. revert pos. induction HF as [|chunk part chunks parts Hc _ IH]; intros pos Hcat; [constructor|]. cbn [concat] in Hcat.
  assert (log_part log pos part) as Hpart.
  { destruct Hc as (row & ? & ? & ? & Hrow & _). split; [by intros ->|]. by rewrite <- Hcat, take_app_length. }
  constructor; [by eapply published_root_verified|]. apply (IH (pos + length part)%nat). by rewrite <- drop_drop, <- Hcat, drop_app_length.
Qed.

(** C24. The publisher's TXID catalog against the verifier: whatever order the
    verifier visits the published chunks in, comparing the rows of the log,
    as it reads them, with a list of Squid rows gives a verdict, never an
    error; every checkpoint root the publisher wrote is the one the verifier
    computes, so the chain passes exactly when the Squid rows match the log
    row by row. This is the comparison alone: the loader before it refuses the
    chunks of the current publisher (see PublicTxidChunk). *)
Theorem published_txids_verdict txid_row_limit chain scope max_block key omitted log fuel w result :
  scope_of EVM_CHAIN_TYPE (cfg_chain_id chain) (cfg_railgun_contract chain) = Ok key →
  omission_columns (cfg_omissions chain) = Ok omitted →
  public_txid_log db key (Some max_block) omitted = Ok log → Z.of_nat (length log) ≤ i64_max → max_block ≤ i64_max →
  0 < txid_row_limit ≤ i64_max → (length log < fuel)%nat →
  (publish_public_txid_catalog pin_cid audit_error service_name store_error txid_error db txid_row_limit fuel chain scope max_block w).1 =
    Ok result →
  ∃ catalogs chunks, result = Some catalogs ∧
    (if decide (log = []) then catalogs = [] else catalog_of scope PublicTxid DerivedFromChunks chunks catalogs) ∧
    ∀ visited chain_id squid_rows,
      visited ≡ₚ chunks → Z.of_nat (length squid_rows) ≤ u64_max →
      ∃ parity, Txid.compare_chain chain_id (Txid.mkArtifactData (parsed_txid <$> log) visited) squid_rows = Ok parity ∧
        (Txid.passed parity = true ↔ Forall2 (λ l r, Txid.rows_match l r = true) (parsed_txid <$> log) squid_rows).
Proof.
  intros Hkey Hom Hlog Hlen Hblock Hlimit Hfuel Hrun.
  destruct (publish_public_txid_catalog_ok pin_cid audit_error service_name store_error txid_error db _ _ _ _ _ _ _ _ _ _
    Hkey Hom Hlog Hlen Hblock Hlimit Hfuel Hrun) as (catalogs & chunks & parts & -> & Hparts & HF & Hcat & _).
  exists catalogs, chunks. split_and!; [done|done|]. intros visited chain_id squid_rows Hperm Hsquid.
  pose proof (published_parts_verified scope log chunks parts 0 (λ k row, public_txid_log_index _ _ _ _ _ k row Hlog) Hlen HF Hparts) as Hall.
  rewrite <- Hperm in Hall. apply Forall_and in Hall as [Hr Hall]. apply Forall_and in Hall as [Hin Hv].
  pose proof (compare_chain_ok chain_id (Txid.mkArtifactData (parsed_txid <$> log) visited) squid_rows) as Hok. cbn [Txid.ad_rows Txid.ad_chunks] in Hok.
  rewrite length_fmap in Hok. apply proj2 in Hok; [|unfold i64_max, u64_max in *; lia|done|done]. specialize (Hok Hin).
  destruct (Txid.compare_chain _ _ _) as [parity|] eqn:Hc; [|done]. exists parity. split; [done|].
  rewrite (compare_chain_passed chain_id (Txid.mkArtifactData (parsed_txid <$> log) visited) squid_rows parity Hr Hc). cbn [Txid.ad_rows Txid.ad_chunks]. naive_solver.
Qed.
End published.
