(* ===== verification/TxidParityRun.v ===== *)
(** * Runs of the TXID parity verifier

    The cache and verdict statements at a small service and a small table, and
    a service that lags: rows it indexes at or below a block the cache was
    already filled up to are never fetched. *)

From S2P Require Import Prelude Order Wire Ipfs Artifacts MerkleCheckpointChunk PublicTxidChunk ChainLogs Traces PoiStore ChainStore StoreQueries AuditLog Retention Publication PublicationSafety Catalog CatalogComplete CatalogRun TimestampBackfill SquidParity TxidParity TxidParityCorrect.

#[local] Existing Instance plain_crate.
#[local] Existing Instance toy_tree.
#[local] Existing Instance toy_cids.
#[local] Existing Instance toy_manifests.
#[local] Existing Instance toy_catalogs.
(** Numbers come as JSON numbers; every catalog is empty. *)
#[local] Instance toy_empty_catalogs : SquidCrate := {|
  u256_from_str_radix _ _ := None;
  squid_normalize t p := (t, p);
  SquidParity.preimage_hash _ := 0; SquidParity.preimage_abi_encode _ := []; SquidParity.preimage_abi_decode _ := None;
  legacy_preimage_hash _ := 0; legacy_preimage_abi_encode _ := []; legacy_preimage_abi_decode _ := None;
  shield_ciphertext_abi_encode _ := []; legacy_ciphertext_abi_encode _ := []; ciphertext_abi_decode _ := None;
  catalog_from_json _ := Some (mkCatalog PublicTxid toy_entry_scope []);
|}.

Definition toy_squid_txid (block : Z) : Value :=
  JObject [("id"%string, JString "00"); ("blockNumber"%string, JNumber block); ("blockTimestamp"%string, JNumber (1000 + block));
           ("transactionHash"%string, JString "0x01"); ("nullifiers"%string, JArray [JNumber 5]); ("commitments"%string, JArray [JNumber 6]);
           ("boundParamsHash"%string, JNumber 7); ("hasUnshield"%string, JBool false); ("utxoTreeIn"%string, JNumber 0);
           ("utxoTreeOut"%string, JNumber 0); ("utxoBatchStartPositionOut"%string, JNumber block)].
Definition service (log : list Value) (endpoint : string) (offset limit : Z) (m : option Z) (b : Z) : result string (option (list Value) * option Value) :=
  Ok (Some (take (Z.to_nat limit) (drop (Z.to_nat offset) (filter (in_window m b) log))), None).
Lemma service_answers log : answers (service log) (λ _, log).
Proof. by intros endpoint offset limit m b. Qed.

(** One chain whose catalog has no chunks, indexed up to block 10. *)
Definition toy_txid_catalog : IndexedArtifactDescriptor :=
  mkDescriptor PublicTxid toy_entry_scope (mkRange TxidIndex 0 0) 0 "catalog" [] 0 1 Zstd (mkMetadata None None None None None None None).
Definition toy_txid_chain (height : Z) : IndexedArtifactChainEntry := mkEntry toy_entry_scope [mkHeight PublicTxid height 0] [toy_txid_catalog].
Definition toy_run (log : list Value) (height : Z) (dir : Txid.CacheDir) :=
  Txid.verify_manifest (service log) (λ _, Squid.Body (Ok [])) (λ _, true) (Ok 77) true 4 2 1 false [] (Some dir) [toy_txid_chain height].
Definition toy_cached (log : list Value) (height : Z) (dir : Txid.CacheDir) :=
  Txid.squid_public_txid_rows (service log) (Ok 78) true 4 1 2 height (Some dir) false.
Definition toy_uncached (log : list Value) (height : Z) :=
  Txid.squid_public_txid_rows (service log) (Ok 78) true 4 1 2 height None false.
Definition toy_dir (log : list Value) (height : Z) : Txid.CacheDir := match toy_run log height ∅ with Some (_, Some dir) => dir | _ => ∅ end.
Definition toy_file (log : list Value) (height : Z) : Txid.SquidCacheFile :=
  Txid.mkCache 1 1 "https://rail-squid.squids.live/squid-railgun-ethereum-v2/graphql" height (length log) 77 log.

Definition early_log : list Value := [toy_squid_txid 5; toy_squid_txid 10].
Definition later_log : list Value := [toy_squid_txid 5; toy_squid_txid 10; toy_squid_txid 12].
Lemma toy_log_ok log : log = early_log ∨ log = later_log → log_ok log.
Proof.
  intros [-> | ->]; (split; [repeat constructor; vm_compute; discriminate|]).
  all: repeat constructor; vm_compute; discriminate.
Qed.
Lemma toy_runs : rtc cache_step ((λ _, early_log), ∅) ((λ _, later_log), toy_dir early_log 10).
Proof.
  apply (rtc_l _ _ ((λ _, early_log), toy_dir early_log 10)); [|apply rtc_once, index_step; split].
  - apply (run_step (service early_log) (λ _, Squid.Body (Ok [])) (λ _, true) (Ok 77) true 4 2 1 false [] [toy_txid_chain 10] (λ _, early_log)
      ∅ (toy_dir early_log 10) (Err "TXID parity failed"%string)); [apply answers_serves, service_answers|lia|by repeat constructor|].
    vm_compute. reflexivity.
  - intros _. apply toy_log_ok. by right.
  - assert (toy_dir early_log 10 = {[1 := Some (toy_file early_log 10)]}) as -> by (vm_compute; reflexivity).
    intros chain_id cache [_ [= <-]]%lookup_singleton_Some. vm_compute. reflexivity.
Qed.

Lemma squid_cache_transparent_witness :
  ∃ d rows, toy_cached later_log 12 (toy_dir early_log 10) = Some (d, Ok rows) ∧ toy_uncached later_log 12 = Some (None, Ok rows) ∧ length rows = 3%nat.
Proof.
  destruct (squid_cache_transparent (λ _, early_log) (λ _, later_log) (toy_dir early_log 10) (service later_log) (Ok 78) true 4 1 2 12 false)
    as (_ & _ & Hfull).
  - intros _. apply toy_log_ok. by left.
  - exact toy_runs.
  - apply answers_serves, service_answers.
  - split; [lia|vm_compute; discriminate].
  - lia.
  - intros _. split; [vm_compute; discriminate|cbn; lia].
  - destruct (Hfull (service_answers _) eq_refl eq_refl) as (d & r & Hc & Hu).
    assert (∃ rows, toy_uncached later_log 12 = Some (None, Ok rows) ∧ length rows = 3%nat) as (rows & Hr & Hlen) by (eexists; vm_compute; done).
    exists d, rows. split_and!; [|exact Hr|exact Hlen]. unfold toy_uncached in Hr. rewrite Hu in Hr. injection Hr as <-. exact Hc.
Defined.

(** The cache marks itself filled up to the artifact's height, also when the
    service has not indexed that far: the row of block 8 that the service
    indexes after the first run is in no later cached answer, at the same
    height or above it. *)
Definition blocks_read (r : option (option Txid.CacheDir * result string (list TxidRow))) : option (list Z) :=
  match r with Some (_, Ok rows) => Some (tx_block_number <$> rows) | _ => None end.
Definition lagging_log : list Value := [toy_squid_txid 5].
Definition synced_log : list Value := [toy_squid_txid 5; toy_squid_txid 8; toy_squid_txid 12].
Lemma squid_cache_misses_late_rows :
  toy_dir lagging_log 10 = {[1 := Some (toy_file lagging_log 10)]} ∧
  blocks_read (toy_cached synced_log 10 (toy_dir lagging_log 10)) = Some [5] ∧ blocks_read (toy_uncached synced_log 10) = Some [5; 8] ∧
  blocks_read (toy_cached synced_log 12 (toy_dir lagging_log 10)) = Some [5; 12] ∧ blocks_read (toy_uncached synced_log 12) = Some [5; 8; 12].
Proof. split_and!; vm_compute; reflexivity. Qed.

(** The two published rows against the same rows from Squid, and against Squid
    rows with another timestamp. *)
Definition squid_copy (timestamp : Z) (r : TxidRow) : TxidRow :=
  mkParsedTxid (tx_txid_index r) [] (tx_block_number r) (tx_block_timestamp r + timestamp) (tx_transaction_hash r) (tx_nullifiers r) (tx_commitments r)
    (tx_bound_params_hash r) (tx_has_unshield r) (tx_utxo_tree_in r) (tx_utxo_tree_out r) (tx_utxo_batch_start_position_out r).
Lemma published_txids_verdict_witness :
  ∃ chunks parity parity',
    catalog_of toy_entry_scope PublicTxid DerivedFromChunks chunks toy_txid_catalogs ∧
    Txid.compare_chain 1 (Txid.mkArtifactData (parsed_txid <$> toy_log) chunks) (squid_copy 0 <$> (parsed_txid <$> toy_log)) = Ok parity ∧
    Txid.passed parity = true ∧
    Txid.compare_chain 1 (Txid.mkArtifactData (parsed_txid <$> toy_log) chunks) (squid_copy 1 <$> (parsed_txid <$> toy_log)) = Ok parity' ∧
    Txid.passed parity' ≠ true.
Proof.
  assert (toy_txid_run.1 = Ok (Some toy_txid_catalogs)) as Hrun by (vm_compute; reflexivity).
  assert (public_txid_log toy_tables toy_scope (Some 300) [(6, 101, 0)] = Ok toy_log) as Hlog by (vm_compute; reflexivity).
  assert (length toy_log = 2%nat) as Hlen by (vm_compute; reflexivity).
  pose proof (published_txids_verdict (toy_pin : bytes → Cid (CidCrate := toy_cids)) shown "toy" shown shown toy_tables 1 toy_chain_config
    toy_entry_scope 300 toy_scope [(6, 101, 0)] toy_log 4 toy_publisher_world (Some toy_txid_catalogs) eq_refl eq_refl Hlog) as Hthm.
  rewrite Hlen in Hthm. specialize (Hthm ltac:(unfold i64_max; lia) ltac:(unfold i64_max; lia) ltac:(unfold i64_max; lia) ltac:(lia) Hrun).
  destruct Hthm as (catalogs & chunks & Heq & Hcat & Hverdict).
  apply (inj Some) in Heq. rewrite <- Heq in Hcat.
  assert (∀ t, Z.of_nat (length (squid_copy t <$> (parsed_txid <$> toy_log))) ≤ u64_max) as Hsmall.
  { intros t. rewrite !length_fmap, Hlen. unfold u64_max. lia. }
  destruct (Hverdict chunks 1 _ (reflexivity _) (Hsmall 0)) as (parity & Hc & Hp).
  destruct (Hverdict chunks 1 _ (reflexivity _) (Hsmall 1)) as (parity' & Hc' & Hp').
  exists chunks, parity, parity'. split_and!; [| exact Hc | | exact Hc' |].
  - destruct (decide (toy_log = [])) as [Hnil|_]; [exfalso; rewrite Hnil in Hlen; discriminate Hlen|exact Hcat].
  - apply Hp. apply (bool_decide_unpack _). vm_compute. exact I.
  - rewrite Hp'. apply (bool_decide_unpack _). vm_compute. exact I.
Defined.
