(* ===== verification/Config.v ===== *)
(** * Configuration ([config.rs])

    The configuration file has three sections, flattened into one [Config] and
    validated before anything is opened. Text is a list of code points, a
    duration a number of nanoseconds, an address or path its value. *)

From S2P Require Import Prelude Wire Ipfs Artifacts ChainLogs PoiStore ChainStore StoreQueries.

Module Cfg.
(** ** [str::trim] *)
Abbreviation text := (list Z).
(** [char::is_whitespace]: the Unicode property White_Space *)
Definition is_whitespace (c : Z) : bool :=
  bool_decide (9 ≤ c ≤ 13 ∨ c = 32 ∨ c = 133 ∨ c = 160 ∨ c = 5760 ∨ 8192 ≤ c ≤ 8202 ∨ c = 8232 ∨ c = 8233 ∨ c = 8239 ∨ c = 8287 ∨ c = 12288).
Fixpoint trim_start (s : text) : text :=
  match s with
  | c :: s' => if is_whitespace c then trim_start s' else s
  | [] => []
  end.
Definition trim_end (s : text) : text := reverse (trim_start (reverse s)).
Definition trim (s : text) : text := trim_end (trim_start s).

(** ** Data *)
Definition SUPPORTED_CHAIN_IDS : list Z := [1; 56; 137; 8453; 42161; 11155111].
Definition POSTGRES_BACKGROUND_CONNECTION_HEADROOM : Z := 5.
Definition UPSTREAM_MAX_PAGE_SIZE : Z := 100.
Definition nanos (secs : Z) : Z := secs * 1000000000.
Definition DEFAULT_CHAIN_INDEXED_TAIL_SAFETY_INTERVAL : Z := nanos (5 * 60).
Definition DEFAULT_CHAIN_INDEXED_TAIL_SAFETY_BLOCK_SPAN : Z := 1000.

Record ChainIndexedChainConfig := mkChain {
  chain_id : Z;
  railgun_contract : Z;
  rpc_url : text;
  ws_url : option text;
  archive_rpc_url : text;
  start_block : Z;
  v2_start_block : Z;
  legacy_shield_block : Z;
  action_start_block : option Z;
  datasets : list Artifacts.IndexedDatasetKind;
  public_txid_compatibility_omissions : list PublicTxidCompatibilityOmission;
}.
Record ChainIndexedDatasetConfig := mkChainIndexed {
  enabled : bool;
  chains : list ChainIndexedChainConfig;
  index_interval : Z;
  tail_safety_interval : Z;
  tail_safety_block_span : Z;
  publish_interval : Z;
  max_blocks_per_batch : Z;
  safe_confirmations : Z;
  public_txid_chunk_row_limit : Z;
  commitment_chunk_row_limit : Z;
}.
Record RailgunIndexerConfig := mkIndexer {
  ri_postgres_connection_string : text;
  ri_ipfs_endpoint : text;
  ri_publisher_signing_key_path : text;
  ri_chain_indexed_publisher_signing_key_path : text;
  ri_ipns_bootstrap_peers : list text;
  ri_ipns_record_lifetime : Z;
  ri_ipns_record_ttl : Z;
  ri_ipns_republish_interval : Z;
  ri_ipns_publish_timeout : Z;
  ri_retention_interval : Z;
}.
Record PoiDatasetConfig := mkPoi {
  poi_upstream_url : text;
  poi_list_keys : list bytes;
  poi_chain_ids : list Z;
  poi_txid_version : text;
  poi_page_size_max : Z;
  poi_retry_budget : Z;
  poi_polite_interval : Z;
  poi_blocked_shield_resync_interval : Z;
  poi_delta_publish_interval : Z;
  poi_base_rebuild_interval : Z;
  poi_per_pair_concurrency_limit : Z;
}.
Record ConfigFile := mkConfigFile {
  cf_railgun_indexer : RailgunIndexerConfig;
  cf_poi : PoiDatasetConfig;
  cf_chain_indexed : ChainIndexedDatasetConfig;
}.
Record Config := mkConfig {
  upstream_url : text;
  list_keys : list bytes;
  chain_ids : list Z;
  txid_version : text;
  postgres_connection_string : text;
  ipfs_endpoint : text;
  publisher_signing_key_path : text;
  chain_indexed_publisher_signing_key_path : text;
  ipns_bootstrap_peers : list text;
  ipns_record_lifetime : Z;
  ipns_record_ttl : Z;
  ipns_republish_interval : Z;
  ipns_publish_timeout : Z;
  page_size_max : Z;
  retry_budget : Z;
  polite_interval : Z;
  blocked_shield_resync_interval : Z;
  delta_publish_interval : Z;
  base_rebuild_interval : Z;
  retention_interval : Z;
  per_pair_concurrency_limit : Z;
  chain_indexed : ChainIndexedDatasetConfig;
}.
Definition from_config_file (value : ConfigFile) : Config :=
  let railgun_indexer := cf_railgun_indexer value in
  let poi := cf_poi value in
  mkConfig (poi_upstream_url poi) (poi_list_keys poi) (poi_chain_ids poi) (poi_txid_version poi)
    (ri_postgres_connection_string railgun_indexer) (ri_ipfs_endpoint railgun_indexer) (ri_publisher_signing_key_path railgun_indexer)
    (ri_chain_indexed_publisher_signing_key_path railgun_indexer) (ri_ipns_bootstrap_peers railgun_indexer)
    (ri_ipns_record_lifetime railgun_indexer) (ri_ipns_record_ttl railgun_indexer) (ri_ipns_republish_interval railgun_indexer)
    (ri_ipns_publish_timeout railgun_indexer) (poi_page_size_max poi) (poi_retry_budget poi) (poi_polite_interval poi)
    (poi_blocked_shield_resync_interval poi) (poi_delta_publish_interval poi) (poi_base_rebuild_interval poi)
    (ri_retention_interval railgun_indexer) (poi_per_pair_concurrency_limit poi) (cf_chain_indexed value).

Inductive ConfigValidationError :=
  | EmptyListKeys
  | EmptyChainIds
  | EmptyPoiTxidVersion
  | UnknownChainId (chain_id : Z)
  | PostgresConnectTimeout (timeout : Z)
  | PostgresPoolSizeOverflow
  | ZeroBlockedShieldResyncInterval
  | EmptyIpnsBootstrapPeers
  | SharedPublisherSigningKeyPath
  | ZeroIpnsRecordLifetime
  | ZeroIpnsRecordTtl
  | ZeroIpnsRepublishInterval
  | ZeroIpnsPublishTimeout
  | ZeroRetryBudget
  | ZeroPageSizeMax
  | PageSizeMaxTooLarge (configured maximum : Z)
  | ZeroPoliteInterval
  | ZeroDeltaPublishInterval
  | ZeroBaseRebuildInterval
  | ZeroRetentionInterval
  | ZeroPerPairConcurrencyLimit
  | EmptyChainIndexedChains
  | ZeroChainIndexedIndexInterval
  | ZeroChainIndexedTailSafetyInterval
  | ZeroChainIndexedTailSafetyBlockSpan
  | ZeroChainIndexedPublishInterval
  | ZeroChainIndexedMaxBlocksPerBatch
  | ZeroPublicTxidChunkRowLimit
  | ZeroCommitmentChunkRowLimit
  | EmptyChainIndexedRpcUrl (chain_id : Z)
  | EmptyChainIndexedWsUrl (chain_id : Z)
  | EmptyChainIndexedArchiveRpcUrl (chain_id : Z)
  | ZeroChainIndexedRailgunContract (chain_id : Z)
  | EmptyChainIndexedDatasets (chain_id : Z)
  | ChainIndexedActionStartBeforeStartBlock (chain_id action_start_block start_block : Z)
  | DuplicateChainIndexedChain (chain_id railgun_contract : Z)
  | DuplicatePublicTxidCompatibilityOmission (chain_id block_number transaction_hash railgun_transaction_index : Z)
  | Postgres (message : string).
Abbreviation vresult := (result ConfigValidationError).

(** ** Validation *)
Definition reject_if (P : Prop) `{!Decision P} (e : ConfigValidationError) : vresult unit := if decide P then Err e else Ok tt.

Definition omission_key (omission : PublicTxidCompatibilityOmission) : Z * Z * Z :=
  (om_block_number omission, om_transaction_hash omission, om_railgun_transaction_index omission).
(** The loop state is the [HashSet] of what was seen. *)
Definition validate_omission (chain_id : Z) (seen : gset (Z * Z * Z)) (omission : PublicTxidCompatibilityOmission) : vresult (gset (Z * Z * Z)) :=
  if decide (omission_key omission ∈ seen)
  then Err (DuplicatePublicTxidCompatibilityOmission chain_id (om_block_number omission) (om_transaction_hash omission)
              (om_railgun_transaction_index omission))
  else Ok ({[omission_key omission]} ∪ seen).
Definition validate_chain (seen_chains : gset (Z * Z)) (chain : ChainIndexedChainConfig) : vresult (gset (Z * Z)) :=
  let id := chain_id chain in
  _ ← reject_if (id ∉ SUPPORTED_CHAIN_IDS) (UnknownChainId id);
  _ ← reject_if (trim (rpc_url chain) = []) (EmptyChainIndexedRpcUrl id);
  _ ← (match ws_url chain with Some url => reject_if (trim url = []) (EmptyChainIndexedWsUrl id) | None => Ok tt end);
  _ ← reject_if (trim (archive_rpc_url chain) = []) (EmptyChainIndexedArchiveRpcUrl id);
  _ ← reject_if (railgun_contract chain = 0) (ZeroChainIndexedRailgunContract id);
  _ ← (match action_start_block chain with
       | Some action_start_block =>
           reject_if (action_start_block < start_block chain)
             (ChainIndexedActionStartBeforeStartBlock id action_start_block (start_block chain))
       | None => Ok tt
       end);
  _ ← reject_if (datasets chain = []) (EmptyChainIndexedDatasets id);
  let key := (id, railgun_contract chain) in
  _ ← reject_if (key ∈ seen_chains) (DuplicateChainIndexedChain id (railgun_contract chain));
  _ ← try_fold (validate_omission id) ∅ (public_txid_compatibility_omissions chain);
  Ok ({[key]} ∪ seen_chains).
Definition validate_chain_indexed (config : Config) : vresult unit :=
  let c := chain_indexed config in
  if negb (enabled c) then Ok tt
  else
    _ ← reject_if (chains c = []) EmptyChainIndexedChains;
    _ ← reject_if (index_interval c = 0) ZeroChainIndexedIndexInterval;
    _ ← reject_if (tail_safety_interval c = 0) ZeroChainIndexedTailSafetyInterval;
    _ ← reject_if (tail_safety_block_span c = 0) ZeroChainIndexedTailSafetyBlockSpan;
    _ ← reject_if (publish_interval c = 0) ZeroChainIndexedPublishInterval;
    _ ← reject_if (max_blocks_per_batch c = 0) ZeroChainIndexedMaxBlocksPerBatch;
    _ ← reject_if (public_txid_chunk_row_limit c = 0) ZeroPublicTxidChunkRowLimit;
    _ ← reject_if (commitment_chunk_row_limit c = 0) ZeroCommitmentChunkRowLimit;
    _ ← try_fold validate_chain ∅ (chains c);
    Ok tt.
Definition postgres_max_connections (config : Config) : vresult Z :=
  workers ← ok_or (workers ← checked_mul usize_max (per_pair_concurrency_limit config) 2;
                   checked_add usize_max workers POSTGRES_BACKGROUND_CONNECTION_HEADROOM) PostgresPoolSizeOverflow;
  ok_or (try_from u32_max workers) PostgresPoolSizeOverflow.
Definition validate (config : Config) : vresult unit :=
  _ ← reject_if (list_keys config = []) EmptyListKeys;
  _ ← reject_if (chain_ids config = []) EmptyChainIds;
  _ ← reject_if (trim (txid_version config) = []) EmptyPoiTxidVersion;
  _ ← try_fold (λ _ chain_id, reject_if (chain_id ∉ SUPPORTED_CHAIN_IDS) (UnknownChainId chain_id)) tt (chain_ids config);
  _ ← reject_if (blocked_shield_resync_interval config = 0) ZeroBlockedShieldResyncInterval;
  _ ← reject_if (ipns_bootstrap_peers config = []) EmptyIpnsBootstrapPeers;
  _ ← reject_if (publisher_signing_key_path config = chain_indexed_publisher_signing_key_path config) SharedPublisherSigningKeyPath;
  _ ← reject_if (ipns_record_lifetime config = 0) ZeroIpnsRecordLifetime;
  _ ← reject_if (ipns_record_ttl config = 0) ZeroIpnsRecordTtl;
  _ ← reject_if (ipns_republish_interval config = 0) ZeroIpnsRepublishInterval;
  _ ← reject_if (ipns_publish_timeout config = 0) ZeroIpnsPublishTimeout;
  _ ← reject_if (retry_budget config = 0) ZeroRetryBudget;
  _ ← reject_if (page_size_max config = 0) ZeroPageSizeMax;
  _ ← reject_if (UPSTREAM_MAX_PAGE_SIZE < page_size_max config) (PageSizeMaxTooLarge (page_size_max config) UPSTREAM_MAX_PAGE_SIZE);
  _ ← reject_if (polite_interval config = 0) ZeroPoliteInterval;
  _ ← reject_if (delta_publish_interval config = 0) ZeroDeltaPublishInterval;
  _ ← reject_if (base_rebuild_interval config = 0) ZeroBaseRebuildInterval;
  _ ← reject_if (retention_interval config = 0) ZeroRetentionInterval;
  _ ← reject_if (per_pair_concurrency_limit config = 0) ZeroPerPairConcurrencyLimit;
  _ ← validate_chain_indexed config;
  _ ← postgres_max_connections config;
  Ok tt.

(** Connecting: the pool is an argument. *)
Definition POSTGRES_CONNECT_TIMEOUT : Z := nanos 5.
Inductive ConnectOutcome (Pool : Type) := Connected (pool : Pool) | ConnectFailed (message : string) | TimedOut.
Definition connect_postgres {Pool} (connect : Z → text → ConnectOutcome Pool) (config : Config) : vresult Pool :=
  _ ← validate config;
  max_connections ← postgres_max_connections config;
  match connect max_connections (postgres_connection_string config) with
  | Connected _ pool => Ok pool
  | ConnectFailed _ message => Err (Postgres message)
  | TimedOut _ => Err (PostgresConnectTimeout POSTGRES_CONNECT_TIMEOUT)
  end.

(** [serde] defaults *)
Definition default_chain_indexed_datasets : list Artifacts.IndexedDatasetKind := [PublicTxid; WalletScan; Commitments; MerkleCheckpoint].

(** ** What a validated configuration is *)
Definition blank (s : text) : Prop := Forall (λ c, is_whitespace c = true) s.
Definition chain_wf (chain : ChainIndexedChainConfig) : Prop :=
  chain_id chain ∈ SUPPORTED_CHAIN_IDS ∧ ~ blank (rpc_url chain) ∧ (∀ url, ws_url chain = Some url → ~ blank url) ∧
  ~ blank (archive_rpc_url chain) ∧ railgun_contract chain ≠ 0 ∧ (∀ b, action_start_block chain = Some b → start_block chain ≤ b) ∧
  datasets chain ≠ [] ∧ NoDup (omission_key <$> public_txid_compatibility_omissions chain).
Definition chain_key (chain : ChainIndexedChainConfig) : Z * Z := (chain_id chain, railgun_contract chain).
Definition chain_indexed_wf (c : ChainIndexedDatasetConfig) : Prop :=
  chains c ≠ [] ∧ Forall chain_wf (chains c) ∧ NoDup (chain_key <$> chains c) ∧
  Forall (λ n, n ≠ 0) [index_interval c; tail_safety_interval c; tail_safety_block_span c; publish_interval c; max_blocks_per_batch c;
                       public_txid_chunk_row_limit c; commitment_chunk_row_limit c].
Definition config_wf (c : Config) : Prop :=
  list_keys c ≠ [] ∧ chain_ids c ≠ [] ∧ chain_ids c ⊆ SUPPORTED_CHAIN_IDS ∧ ~ blank (txid_version c) ∧ ipns_bootstrap_peers c ≠ [] ∧
  publisher_signing_key_path c ≠ chain_indexed_publisher_signing_key_path c ∧
  Forall (λ n, n ≠ 0) [blocked_shield_resync_interval c; ipns_record_lifetime c; ipns_record_ttl c; ipns_republish_interval c;
                       ipns_publish_timeout c; retry_budget c; page_size_max c; polite_interval c; delta_publish_interval c;
                       base_rebuild_interval c; retention_interval c; per_pair_concurrency_limit c] ∧
  page_size_max c ≤ UPSTREAM_MAX_PAGE_SIZE ∧ (enabled (chain_indexed c) = true → chain_indexed_wf (chain_indexed c)) ∧
  2 * per_pair_concurrency_limit c + POSTGRES_BACKGROUND_CONNECTION_HEADROOM ≤ u32_max.

Lemma trim_start_nil s : trim_start s = [] ↔ blank s.
Proof.
  unfold blank. induction s as [|c s IH]; cbn; [by split|]. rewrite Forall_cons. destruct (is_whitespace c); [naive_solver|].
  split; [done|]. by intros [? _].
Qed.
Lemma trim_start_suffix s : ∃ ws, blank ws ∧ s = ws ++ trim_start s.
Proof.
  induction s as [|c s (ws & Hws & Hs)]; [exists []; split; [constructor|done]|]. cbn.
  destruct (is_whitespace c) eqn:Hc; [|exists []; split; [constructor|done]].
  exists (c :: ws). split; [by constructor|]. cbn. by f_equal.
Qed.
Lemma trim_nil s : trim s = [] ↔ blank s.
Proof.
  unfold trim, trim_end. rewrite <- (reverse_nil (A := Z)) at 1. rewrite (inj_iff reverse), trim_start_nil. unfold blank at 1.
  rewrite Forall_reverse. destruct (trim_start_suffix s) as (ws & Hws & Hs). split.
  - intros Hb. rewrite Hs. by apply Forall_app.
  - intros Hb%trim_start_nil. by rewrite Hb.
Qed.

Lemma reject_if_Ok P `{!Decision P} e : reject_if P e = Ok tt ↔ ~ P.
Proof. unfold reject_if. by case_decide. Qed.
(** A check followed by the rest of a validation. *)
Lemma check_then {A} (m : vresult unit) (k : vresult A) a : (m ≫= λ _, k) = Ok a ↔ m = Ok tt ∧ k = Ok a.
Proof. destruct m as [[]|]; cbn; naive_solver. Qed.

(** A loop that inserts keys into a set and rejects a repeated one. *)
Lemma seen_loop {A K} `{Countable K} (key : A → K) (check : A → Prop) (step : gset K → A → vresult (gset K)) :
  (∀ seen a, match step seen a with Ok seen' => check a ∧ key a ∉ seen ∧ seen' = {[key a]} ∪ seen | Err _ => ~ check a ∨ key a ∈ seen end) →
  ∀ l seen, is_ok (try_fold step seen l) = true ↔ Forall check l ∧ NoDup (key <$> l) ∧ ∀ a, a ∈ l → key a ∉ seen.
Proof.
  intros Hstep l. induction l as [|a l IH]; intros seen; cbn [try_fold].
  - split; [|done]. intros _. split_and!; [constructor|constructor|]. by intros a ?%not_elem_of_nil.
  - specialize (Hstep seen a). rewrite Forall_cons. cbn [fmap list_fmap]. rewrite NoDup_cons, list_elem_of_fmap.
    destruct (step seen a) as [seen'|e]; cbn [mbind result_bind].
    + destruct Hstep as (Hc & Hk & ->). rewrite IH. split.
      * intros (? & ? & Hout). split_and!; [done|done| |done|].
        -- intros (b & Heq & Hb). apply (Hout b Hb). rewrite Heq. set_solver.
        -- intros b [->|Hb]%elem_of_cons; [done|]. intros ?. apply (Hout b Hb). set_solver.
      * intros ([_ ?] & [Hnew ?] & Hout). split_and!; [done|done|]. intros b Hb [Heq%elem_of_singleton|Hin]%elem_of_union.
        -- apply Hnew. by exists b.
        -- apply (Hout b); [by right|done].
    + split; [done|]. intros ([Hc _] & _ & Hout). destruct Hstep as [?|Hin]; [done|]. exfalso. apply (Hout a); [by left|done].
Qed.

Lemma validate_omissions_Ok id omissions :
  is_ok (try_fold (validate_omission id) ∅ omissions) = true ↔ NoDup (omission_key <$> omissions).
Proof.
  rewrite (seen_loop omission_key (λ _, True)).
  - split; [by intros (_ & ? & _)|]. intros ?. split_and!; [by apply Forall_true|done|]. intros a _. apply not_elem_of_empty.
  - intros seen omission. unfold validate_omission. case_decide; naive_solver.
Qed.

Lemma validate_chain_Ok seen chain seen' :
  validate_chain seen chain = Ok seen' ↔ chain_wf chain ∧ chain_key chain ∉ seen ∧ seen' = {[chain_key chain]} ∪ seen.
Proof.
  unfold validate_chain, chain_wf, chain_key. cbn zeta. rewrite !check_then, !reject_if_Ok, !trim_nil.
  rewrite <- validate_omissions_Ok with (id := chain_id chain).
  assert ((match ws_url chain with Some url => reject_if (trim url = []) (EmptyChainIndexedWsUrl (chain_id chain)) | None => Ok tt end) = Ok tt ↔
    ∀ url, ws_url chain = Some url → ~ blank url) as ->.
  { destruct (ws_url chain) as [url|]; [rewrite reject_if_Ok, trim_nil|]; naive_solver. }
  assert ((match action_start_block chain with
       | Some action_start_block =>
           reject_if (action_start_block < start_block chain)
             (ChainIndexedActionStartBeforeStartBlock (chain_id chain) action_start_block (start_block chain))
       | None => Ok tt
       end) = Ok tt ↔ ∀ b, action_start_block chain = Some b → start_block chain ≤ b) as ->.
  { destruct (action_start_block chain) as [b|]; [rewrite reject_if_Ok|by split].
    split; [intros ? ? [= <-]; lia|]. intros Hb. specialize (Hb b eq_refl). lia. }
  assert (chain_id chain ∈ SUPPORTED_CHAIN_IDS ↔ ~ (chain_id chain ∉ SUPPORTED_CHAIN_IDS)) as <- by (split; [auto|apply dec_stable]).
  destruct (try_fold _ _ _); cbn; naive_solver.
Qed.

Lemma validate_chains_Ok cs : is_ok (try_fold validate_chain ∅ cs) = true ↔ Forall chain_wf cs ∧ NoDup (chain_key <$> cs).
Proof.
  rewrite (seen_loop chain_key chain_wf).
  - split; [by intros (? & ? & _)|]. intros []. split_and!; [done|done|]. intros a _. apply not_elem_of_empty.
  - intros seen chain. pose proof (validate_chain_Ok seen chain) as Hv. destruct (validate_chain seen chain) as [seen'|e]; [by apply Hv|].
    destruct (decide (chain_key chain ∈ seen)) as [|Hout]; [by right|]. left. intros Hwf.
    discriminate (proj2 (Hv ({[chain_key chain]} ∪ seen)) (conj Hwf (conj Hout eq_refl))).
Qed.

Lemma validate_chain_indexed_Ok c :
  validate_chain_indexed c = Ok tt ↔ (enabled (chain_indexed c) = true → chain_indexed_wf (chain_indexed c)).
Proof.
  unfold validate_chain_indexed, chain_indexed_wf. destruct (enabled (chain_indexed c)); cbn [negb]; [|by split].
  rewrite !check_then, !reject_if_Ok, !Forall_cons. pose proof (validate_chains_Ok (chains (chain_indexed c))) as Hc.
  destruct (try_fold validate_chain ∅ _); cbn in *; [|naive_solver].
  pose proof (Forall_nil_2 (λ n, n ≠ 0)). naive_solver.
Qed.

Lemma postgres_max_connections_Ok c n :
  0 ≤ per_pair_concurrency_limit c →
  postgres_max_connections c = Ok n ↔
    n = 2 * per_pair_concurrency_limit c + POSTGRES_BACKGROUND_CONNECTION_HEADROOM ∧ n ≤ u32_max.
Proof.
  intros Hn. unfold postgres_max_connections. assert (u32_max ≤ usize_max) by done. unfold POSTGRES_BACKGROUND_CONNECTION_HEADROOM.
  split.
  - unfold checked_mul, checked_add, try_from. repeat (case_decide; cbn; try done). intros [= <-]. lia.
  - intros [-> Hle]. unfold checked_mul, checked_add, try_from. rewrite decide_True by lia. cbn [mbind option_bind].
    rewrite decide_True by lia. cbn. rewrite decide_True by lia. cbn. f_equal. lia.
Qed.

Lemma supported_loop ids :
  try_fold (λ _ chain_id, reject_if (chain_id ∉ SUPPORTED_CHAIN_IDS) (UnknownChainId chain_id)) tt ids = Ok tt ↔ ids ⊆ SUPPORTED_CHAIN_IDS.
Proof.
  induction ids as [|id ids IH]; cbn [try_fold]; [by split; [intros _ x ?%not_elem_of_nil|]|].
  destruct (reject_if (id ∉ SUPPORTED_CHAIN_IDS) (UnknownChainId id)) as [[]|e] eqn:Hr; cbn [mbind result_bind].
  - apply reject_if_Ok, dec_stable in Hr. rewrite IH. split; [by intros Hs x [->|?]%elem_of_cons; [|apply Hs]|]. intros Hs x ?. apply Hs. by right.
  - split; [done|]. intros Hs. unfold reject_if in Hr. case_decide as Hd; [|done]. exfalso. apply Hd, Hs. by left.
Qed.

(** C30. Validation accepts exactly the well-formed configurations: non-empty
    key, chain and peer lists, supported chains only, no blank texts, two
    different signing keys, every interval, budget and limit positive, a page
    size the upstream serves, a connection pool of five more than two per pair
    that fits its width, and, when chain indexing is on, chains that are
    well-formed each (their omissions pairwise different) and pairwise
    different in chain and contract. The pool a connection is opened with has
    exactly that size. *)
Theorem validate_config_wf {Pool} (connect : Z → text → ConnectOutcome Pool) c :
  0 ≤ per_pair_concurrency_limit c →
  (validate c = Ok tt ↔ config_wf c) ∧
  (∀ pool, connect_postgres connect c = Ok pool ↔ config_wf c ∧
     connect (2 * per_pair_concurrency_limit c + POSTGRES_BACKGROUND_CONNECTION_HEADROOM) (postgres_connection_string c) = Connected Pool pool).
Proof.
  intros Hn. assert (validate c = Ok tt ↔ config_wf c) as Hv.
  { unfold validate, config_wf. rewrite !check_then, !reject_if_Ok, trim_nil, supported_loop, validate_chain_indexed_Ok, !Forall_cons.
    assert ((postgres_max_connections c ≫= λ _, Ok tt) = Ok tt ↔
      2 * per_pair_concurrency_limit c + POSTGRES_BACKGROUND_CONNECTION_HEADROOM ≤ u32_max) as ->.
    { pose proof (postgres_max_connections_Ok c) as Hp. destruct (postgres_max_connections c) as [n|e]; cbn.
      - destruct (proj1 (Hp n Hn) eq_refl) as [-> ?]. by split.
      - split; [done|]. intros Hle. discriminate (proj2 (Hp _ Hn) (conj eq_refl Hle)). }
    pose proof (Forall_nil_2 (λ n, n ≠ 0)). rewrite Z.nlt_ge. naive_solver. }
  split; [done|]. intros pool. unfold connect_postgres. rewrite check_then, Hv. split.
  - intros [Hwf Hc]. split; [done|]. res_inv. apply postgres_max_connections_Ok in E as [-> _]; [|done].
    by destruct (connect _ _); simplify_eq.
  - intros [Hwf Hc]. split; [done|]. rewrite (proj2 (postgres_max_connections_Ok c _ Hn)) by (split; [done|apply Hwf]).
    cbn. by rewrite Hc.
Qed.

(** The configuration of the unit tests, with one omission; and the same with
    the chain listed twice. *)
Definition sample_chain : ChainIndexedChainConfig :=
  mkChain 1 187 [104; 116] (Some [119; 115]) [32; 97] 1 2 3 None default_chain_indexed_datasets [mkOmission 6 101 0].
Definition sample_config (cs : list ChainIndexedChainConfig) : Config :=
  mkConfig [104] [replicate 32 Byte.x01] [1] [86; 50] [110] [105] [112] [99] [[47]] (nanos 1) (nanos 1) (nanos 1) (nanos 1) 100 1 (nanos 1) (nanos 1)
    (nanos 1) (nanos 1) (nanos 1) 1
    (mkChainIndexed true cs (nanos 1) DEFAULT_CHAIN_INDEXED_TAIL_SAFETY_INTERVAL DEFAULT_CHAIN_INDEXED_TAIL_SAFETY_BLOCK_SPAN (nanos 1) 10 12 1000 1000).
Lemma validate_config_wf_witness :
  config_wf (sample_config [sample_chain]) ∧ connect_postgres (λ n _, Connected _ n) (sample_config [sample_chain]) = Ok 7 ∧
  ~ config_wf (sample_config [sample_chain; sample_chain]).
Proof.
  assert (config_wf (sample_config [sample_chain])) as Hwf.
  { apply (validate_config_wf (λ n _, Connected _ n) (sample_config [sample_chain])); [vm_compute; discriminate|vm_compute; reflexivity]. }
  split_and!; [exact Hwf| |].
  - apply (validate_config_wf (λ n _, Connected _ n) (sample_config [sample_chain])); [vm_compute; discriminate|].
    split; [exact Hwf|vm_compute; reflexivity].
  - intros Hbad. apply (validate_config_wf (λ n _, Connected _ n) (sample_config [sample_chain; sample_chain])) in Hbad; [|vm_compute; discriminate].
    vm_compute in Hbad. discriminate Hbad.
Defined.
End Cfg.
