(* ===== verification/Filebase.v ===== *)
(** * The Filebase client ([publish/ipfs.rs])

    [FilebaseIpfsClient] pins bytes as objects of an S3 bucket: it uploads them
    under a temporary key, learns the CID from the answer, copies the object to
    the key of the CID and deletes the temporary one. The bucket is another
    system: a class with its requests, and the documented laws of S3 that the
    client relies on. A request can fail with or without effect. Text is a list
    of code points. *)

From S2P Require Import Prelude Wire Ipfs Config.

Abbreviation text := (list Z).

(** ** The bucket *)
Record Response := mkResponse { rsp_status : Z; rsp_headers : list (text * text); rsp_body : string }.
Class S3Bucket := {
  Bucket : Type;
  (** the object stored under a key *)
  object : Bucket → text → option bytes;
  put_object : Bucket → text → bytes → result string Response * Bucket;
  (** the metadata of the object, and the status *)
  head_object : Bucket → text → result string (option (list (text * text)) * Z) * Bucket;
  (** the status of the answer; its body, which is not read, may be an error
      even with status 200 *)
  copy_object_internal : Bucket → text → text → result string Z * Bucket;
  copy_body_is_error : Bucket → text → text → bool;
  delete_object : Bucket → text → result string Response * Bucket;
}.
(** [(200..300).contains(&status)] *)
Definition is_success (status : Z) : bool := bool_decide (200 ≤ status < 300).
Class S3Laws `{S3Bucket} := {
  put_elsewhere b k bs k' : k' ≠ k → object (put_object b k bs).2 k' = object b k';
  put_success b k bs r : (put_object b k bs).1 = Ok r → is_success (rsp_status r) = true → object (put_object b k bs).2 k = Some bs;
  head_reads b k k' : object (head_object b k).2 k' = object b k';
  head_success b k m st : (head_object b k).1 = Ok (m, st) → is_success st = true → is_Some (object b k);
  head_missing b k m : (head_object b k).1 = Ok (m, 404) → object b k = None;
  copy_elsewhere b from to k' : k' ≠ to → object (copy_object_internal b from to).2 k' = object b k';
  copy_effect b from to : object (copy_object_internal b from to).2 to = object b to ∨ object (copy_object_internal b from to).2 to = object b from ∧ is_Some (object b from);
  copy_success b from to st : (copy_object_internal b from to).1 = Ok st → is_success st = true → copy_body_is_error b from to = false →
    object (copy_object_internal b from to).2 to = object b from ∧ is_Some (object b from);
  delete_elsewhere b k k' : k' ≠ k → object (delete_object b k).2 k' = object b k';
  delete_success b k r : (delete_object b k).1 = Ok r → is_success (rsp_status r) = true → object (delete_object b k).2 k = None;
}.

(** ** The client *)
Definition SLASH : Z := 47.
Definition FILEBASE_SERVICE : string := "filebase".
(** "tmp/", "cid" and "x-amz-meta-cid" *)
Definition TMP : text := [116; 109; 112; 47].
Definition FILEBASE_CID_METADATA : text := [99; 105; 100].
Definition FILEBASE_CID_HEADER : text := [120; 45; 97; 109; 122; 45; 109; 101; 116; 97; 45; 99; 105; 100].

(** [str::trim_matches('/')] *)
Fixpoint trim_slashes_start (s : text) : text :=
  match s with c :: s' => if decide (c = SLASH) then trim_slashes_start s' else s | [] => [] end.
Definition trim_slashes (s : text) : text := reverse (trim_slashes_start (reverse (trim_slashes_start s))).
(** [eq_ignore_ascii_case] *)
Definition ascii_lower (c : Z) : Z := if decide (65 ≤ c ≤ 90) then c + 32 else c.
Definition eq_ignore_ascii_case (a b : text) : bool := bool_decide (ascii_lower <$> a = ascii_lower <$> b).
(** The headers in the order of the map's iteration. *)
Definition header_value (headers : list (text * text)) (name : text) : option text :=
  snd ∘ snd <$> list_find (λ kv, eq_ignore_ascii_case kv.1 name) headers.

Section client.
Context {Cid : Type} `{EqDecision Cid} `{S3Bucket}.
(** [Cid::to_string] and [Cid::try_from] of the CID crate; text in errors *)
Context (cid_text : Cid → text) (cid_try_from : text → result string Cid) (show : text → string).
Context (raw_block_cid : bytes → result (@IpfsError Cid) Cid).
Context (key_prefix : text).
Abbreviation IpfsError := (@IpfsError Cid).

(** Requests one after the other, over the bucket. *)
Definition Io (A : Type) : Type := Bucket → result IpfsError A * Bucket.
#[local] Instance Io_ret : MRet Io := λ _ a b, (Ok a, b).
#[local] Instance Io_bind : MBind Io := λ _ _ k m b, match m b with (Ok a, b) => k a b | (Err e, b) => (Err e, b) end.
Definition request {A} (f : Bucket → result string A * Bucket) (e : string → IpfsError) : Io A :=
  λ b, let '(r, b) := f b in (map_err e r, b).
Definition pure {A} (r : result IpfsError A) : Io A := λ b, (r, b).

Definition object_key (cid : Cid) : text :=
  let prefix := trim_slashes key_prefix in
  if decide (prefix = []) then cid_text cid else prefix ++ SLASH :: cid_text cid.
Definition temporary_object_key (cid : Cid) : text :=
  let prefix := trim_slashes key_prefix in
  if decide (prefix = []) then TMP ++ cid_text cid else prefix ++ SLASH :: TMP ++ cid_text cid.

Definition parse_service_cid (service : string) (cid : text) : result IpfsError Cid :=
  map_err (InvalidCid service (show cid)) (cid_try_from (Cfg.trim cid)).

Definition returned_cid_from_filebase (key : text) (headers : list (text * text)) : Io Cid :=
  match header_value headers FILEBASE_CID_HEADER with
  | Some cid => pure (parse_service_cid FILEBASE_SERVICE cid)
  | None =>
      '(head, status) ← request (λ b, head_object b key) (PinFailed FILEBASE_SERVICE);
      if is_success status then
        pure (match header_value (default [] head) FILEBASE_CID_METADATA with
              | None => Err (MissingCid FILEBASE_SERVICE)
              | Some cid => parse_service_cid FILEBASE_SERVICE cid
              end)
      else pure (Err (PinHttpStatus FILEBASE_SERVICE status ""))
  end.

Definition copy_object (from to : text) : Io unit :=
  status ← request (λ b, copy_object_internal b from to) (PinFailed FILEBASE_SERVICE);
  if is_success status then mret tt else pure (Err (PinHttpStatus FILEBASE_SERVICE status "")).

(** A failure is only logged. *)
Definition delete_temporary_object (key : text) : Io unit := λ b, (Ok tt, (delete_object b key).2).

Definition filebase_pin_bytes (bs : bytes) : Io Cid :=
  temporary_cid ← pure (raw_block_cid bs);
  let temporary_key := temporary_object_key temporary_cid in
  response ← request (λ b, put_object b temporary_key bs) (PinFailed FILEBASE_SERVICE);
  if is_success (rsp_status response) then
    returned_cid ← returned_cid_from_filebase temporary_key (rsp_headers response);
    let final_key := object_key returned_cid in
    _ ← (if decide (final_key ≠ temporary_key) then
           _ ← copy_object temporary_key final_key;
           delete_temporary_object temporary_key
         else mret tt);
    mret returned_cid
  else pure (Err (PinHttpStatus FILEBASE_SERVICE (rsp_status response) (rsp_body response))).

Definition ensure_unpin_response_success (service : string) (cid : Cid) (response : Response) : result IpfsError unit :=
  if is_success (rsp_status response) then Ok tt else Err (UnpinHttpStatus service cid (rsp_status response) (rsp_body response)).
Definition filebase_unpin (cid : Cid) : Io unit :=
  response ← request (λ b, delete_object b (object_key cid)) (UnpinFailed FILEBASE_SERVICE cid);
  pure (ensure_unpin_response_success FILEBASE_SERVICE cid response).
Definition filebase_contains (cid : Cid) : Io bool :=
  '(_, status) ← request (λ b, head_object b (object_key cid)) (ContainsFailed FILEBASE_SERVICE cid);
  pure (if is_success status then Ok true else if decide (status = 404) then Ok false
        else Err (ContainsHttpStatus FILEBASE_SERVICE status "")).

(** ** The endpoint *)
(** What [Url::parse] of reqwest gives of an endpoint. *)
Record Url := mkUrl { url_path : text; url_query : option text; url_fragment : option text; url_host : option text }.
Definition ends_with (s suffix : text) : bool := bool_decide (suffix `suffix_of` s).
(** ".s3.filebase.io" and ".s3.filebase.com" *)
Definition BUCKET_HOST_IO : text := [46; 115; 51; 46; 102; 105; 108; 101; 98; 97; 115; 101; 46; 105; 111].
Definition BUCKET_HOST_COM : text := [46; 115; 51; 46; 102; 105; 108; 101; 98; 97; 115; 101; 46; 99; 111; 109].
Definition is_filebase_bucket_endpoint (host : text) : bool := ends_with host BUCKET_HOST_IO || ends_with host BUCKET_HOST_COM.
Definition validate_filebase_endpoint (url_parse : text → result string Url) (endpoint : text) : result IpfsError unit :=
  let invalid reason := InvalidEndpoint FILEBASE_SERVICE (show endpoint) reason in
  url ← map_err invalid (url_parse endpoint);
  if decide (url_path url ≠ [SLASH] ∧ url_path url ≠ []) then
    Err (invalid "endpoint must not include a path; configure the bucket with RAILGUN_INDEXER_FILEBASE_BUCKET"%string)
  else if decide (is_Some (url_query url) ∨ is_Some (url_fragment url)) then
    Err (invalid "endpoint must not include a query string or fragment"%string)
  else if default false (is_filebase_bucket_endpoint <$> url_host url) then
    Err (invalid "bucket-specific Filebase endpoints are not supported with path-style S3; use https://s3.filebase.com"%string)
  else Ok tt.

(** ** Keys *)
(** The text of a CID identifies it and has no slash. *)
Context (cid_text_inj : ∀ c c', cid_text c = cid_text c' → c = c') (cid_text_plain : ∀ c, SLASH ∉ cid_text c).
Lemma object_key_inj c c' : object_key c = object_key c' → c = c'.
Proof. unfold object_key. case_decide; [apply cid_text_inj|]. intros Heq%app_inv_head. injection Heq as Heq. by apply cid_text_inj. Qed.
Lemma keys_disjoint c c' : object_key c ≠ temporary_object_key c'.
Proof.
  assert (cid_text c ≠ TMP ++ cid_text c') as Hne by (intros Heq; apply (cid_text_plain c); rewrite Heq; set_solver).
  unfold object_key, temporary_object_key. case_decide; [exact Hne|]. intros Heq%app_inv_head. by injection Heq.
Qed.

(** ** Requests *)
Context `{!S3Laws}.
(** What the bucket holds for every CID. *)
Definition held (b : Bucket) (c : Cid) : option bytes := object b (object_key c).
Lemma returned_reads key headers b c : held (returned_cid_from_filebase key headers b).2 c = held b c ∧
  object (returned_cid_from_filebase key headers b).2 key = object b key.
Proof.
  unfold returned_cid_from_filebase. destruct (header_value headers _); [done|]. unfold mbind, Io_bind, request, pure, held.
  pose proof (head_reads b key) as Hh. destruct (head_object b key) as [[[m st]|e] b'] eqn:E; cbn in *; [|by rewrite !Hh].
  destruct (is_success st); cbn; by rewrite !Hh.
Qed.
Lemma copied key c b r b' : copy_object key (object_key c) b = (r, b') →
  (∀ c', c' ≠ c → held b' c' = held b c') ∧ (held b' c = held b c ∨ held b' c = object b key) ∧ (r = Ok tt → held b' c = object b key ∨ copy_body_is_error b key (object_key c) = true).
Proof.
  unfold copy_object, mbind, Io_bind, request, pure, held. intros Hr.
  pose proof (copy_elsewhere b key (object_key c)) as Helse. pose proof (copy_effect b key (object_key c)) as Heff.
  pose proof (copy_success b key (object_key c)) as Hsucc.
  destruct (copy_object_internal b key (object_key c)) as [[st|e] b1] eqn:E; cbn in *.
  - destruct (is_success st) eqn:Hst; injection Hr as <- <-.
    + split_and!; [intros c' Hne; apply Helse; by intros ?%object_key_inj|naive_solver|intros _].
      destruct (copy_body_is_error b key (object_key c)); [by right|left; by eapply Hsucc].
    + split_and!; [intros c' Hne; apply Helse; by intros ?%object_key_inj|naive_solver|done].
  - injection Hr as <- <-. split_and!; [intros c' Hne; apply Helse; by intros ?%object_key_inj|naive_solver|done].
Qed.
Lemma deleted_temporary c0 b c : held (delete_object b (temporary_object_key c0)).2 c = held b c.
Proof. unfold held. cbn. apply delete_elsewhere. apply keys_disjoint. Qed.

(** The copy of pinning [bs] into [b], asked after the upload gave [c], has an
    error in the body of its answer. *)
Definition copy_fails_in_body (bs : bytes) (b : Bucket) (c : Cid) : Prop :=
  ∃ c0 response b0 b1, raw_block_cid bs = Ok c0 ∧ put_object b (temporary_object_key c0) bs = (Ok response, b0) ∧
    returned_cid_from_filebase (temporary_object_key c0) (rsp_headers response) b0 = (Ok c, b1) ∧
    copy_body_is_error b1 (temporary_object_key c0) (object_key c) = true.
Lemma pin_correct bs b r b' : filebase_pin_bytes bs b = (r, b') →
  match r with
  | Ok c => (held b' c = Some bs ∨ held b' c = held b c ∧ copy_fails_in_body bs b c) ∧
      ∀ c', c' ≠ c → held b' c' = held b c'
  | Err _ => ∀ c, held b' c = held b c ∨ held b' c = Some bs
  end.
Proof.
  unfold filebase_pin_bytes, mbind, Io_bind, request, pure. intros Hr. unfold copy_fails_in_body.
  destruct (raw_block_cid bs) as [c0|e]; [|injection Hr as <- <-; by left].
  pose proof (put_elsewhere b (temporary_object_key c0) bs) as Helse. pose proof (put_success b (temporary_object_key c0) bs) as Hsucc.
  destruct (put_object b (temporary_object_key c0) bs) as [[rsp|e] b1] eqn:E; cbn in *;
    [|injection Hr as <- <-; intros c; left; apply Helse; apply keys_disjoint].
  assert (∀ c, held b1 c = held b c) as Hb1 by (intros c; apply Helse; apply keys_disjoint).
  destruct (is_success (rsp_status rsp)) eqn:Hst; [|injection Hr as <- <-; by left]. specialize (Hsucc rsp eq_refl Hst).
  destruct (returned_cid_from_filebase _ _ b1) as [[c|e] b2] eqn:Er.
  2:{ injection Hr as <- <-. intros c. left. rewrite <- Hb1, <- (proj1 (returned_reads (temporary_object_key c0) (rsp_headers rsp) b1 c)). by rewrite Er. }
  pose proof (returned_reads (temporary_object_key c0) (rsp_headers rsp) b1) as Hrd. rewrite Er in Hrd. cbn [snd] in Hrd.
  rewrite decide_True in Hr by apply keys_disjoint.
  destruct (copy_object _ _ b2) as [[[]|e] b3] eqn:Ec; apply copied in Ec as (Hoth & Heff & Hok).
  - cbn in Hr. injection Hr as <- <-. rewrite deleted_temporary. split.
    { destruct (Hok eq_refl) as [->|?]; [left; by rewrite (proj2 (Hrd c))|].
      destruct Heff as [->| ->]; [right; rewrite (proj1 (Hrd c)), Hb1; split; [done|]; by exists c0, rsp, b1, b2|left; by rewrite (proj2 (Hrd c))]. }
    intros c' Hne. by rewrite deleted_temporary, (Hoth c' Hne), (proj1 (Hrd c')), Hb1.
  - injection Hr as <- <-. intros c'. destruct (decide (c' = c)) as [->|Hne].
    + destruct Heff as [->| ->]; [left; by rewrite (proj1 (Hrd c)), Hb1|right; by rewrite (proj2 (Hrd c))].
    + left. by rewrite (Hoth c' Hne), (proj1 (Hrd c')), Hb1.
Qed.
Lemma unpin_correct c b r b' : filebase_unpin c b = (r, b') → (r = Ok tt → held b' c = None) ∧ ∀ c', c' ≠ c → held b' c' = held b c'.
Proof.
  unfold filebase_unpin, mbind, Io_bind, request, pure, held. pose proof (delete_elsewhere b (object_key c)) as Helse.
  pose proof (delete_success b (object_key c)) as Hsucc. destruct (delete_object b (object_key c)) as [[rsp|e] b1]; cbn in *; intros [= <- <-].
  - split; [|intros c' Hne; apply Helse; by intros ?%object_key_inj]. unfold ensure_unpin_response_success.
    destruct (is_success (rsp_status rsp)) eqn:Hst; [intros _; by eapply Hsucc|done].
  - split; [done|]. intros c' Hne. apply Helse. by intros ?%object_key_inj.
Qed.
Lemma contains_correct c b r b' : filebase_contains c b = (r, b') → (∀ c', held b' c' = held b c') ∧ ∀ v, r = Ok v → (v = true ↔ is_Some (held b c)).
Proof.
  unfold filebase_contains, mbind, Io_bind, request, pure, held. pose proof (head_reads b (object_key c)) as Hrd.
  pose proof (head_success b (object_key c)) as Hsucc. pose proof (head_missing b (object_key c)) as Hmiss.
  destruct (head_object b (object_key c)) as [[[m st]|e] b1]; cbn in *; intros [= <- <-]; [|done].
  split; [intros c'; apply Hrd|]. intros v. destruct (is_success st) eqn:Hst; [|case_decide].
  - intros [= <-]. split; [intros _; by eapply Hsucc|done].
  - subst st. intros [= <-]. rewrite (Hmiss m eq_refl). split; [done|]. by intros [? ?].
  - done.
Qed.

(** C16. The Filebase client as a pinning service. A pin that succeeds leaves what
    every other CID has as it was, and the bytes under the key of the CID it
    returns, unless the answer to the copy had an error in its body: S3 may send
    that with status 200, the client looks at the status alone, and the key then
    has what it had before. A pin that fails, at whatever request and with or
    without effect, takes nothing away: a CID has what it had or the pinned
    bytes. A successful unpin removes the content of its CID, and no unpin
    touches another one. An answer about a CID is true exactly when the bucket
    has content for it, and asking changes nothing. *)
Theorem filebase_client_correct b :
  (∀ bs c b', filebase_pin_bytes bs b = (Ok c, b') →
    (object b' (object_key c) = Some bs ∨
     object b' (object_key c) = object b (object_key c) ∧ copy_fails_in_body bs b c) ∧
    ∀ c', c' ≠ c → object b' (object_key c') = object b (object_key c')) ∧
  (∀ bs e b', filebase_pin_bytes bs b = (Err e, b') → ∀ c,
    object b' (object_key c) = object b (object_key c) ∨ object b' (object_key c) = Some bs) ∧
  (∀ c r b', filebase_unpin c b = (r, b') →
    (r = Ok tt → object b' (object_key c) = None) ∧ ∀ c', c' ≠ c → object b' (object_key c') = object b (object_key c')) ∧
  (∀ c r b', filebase_contains c b = (r, b') →
    (∀ c', object b' (object_key c') = object b (object_key c')) ∧ ∀ v, r = Ok v → (v = true ↔ is_Some (object b (object_key c)))).
Proof.
  split_and!.
  - intros bs c b'. apply (pin_correct bs b (Ok c)).
  - intros bs e b'. apply (pin_correct bs b (Err e)).
  - intros c r b'. apply unpin_correct.
  - intros c r b'. apply contains_correct.
Qed.
End client.

(** ** A bucket in memory *)
(** Its answers come from a script of outcomes; the service names the CID of an
    upload in the header of the answer. *)
Inductive Outcome := Done | Refused | LostBefore | LostAfter | ErrorBody.
Record Memory := mkMemory { mem_objects : gmap text bytes; mem_script : list Outcome }.
Definition next (m : Memory) (effect : gmap text bytes) (possible : bool) : result string Z * Memory :=
  let rest := drop 1 (mem_script m) in
  match default Done (head (mem_script m)) with
  | Done => if possible then (Ok 200, mkMemory effect rest) else (Ok 404, mkMemory (mem_objects m) rest)
  | Refused | ErrorBody => (Ok 503, mkMemory (mem_objects m) rest)
  | LostBefore => (Err "timeout"%string, mkMemory (mem_objects m) rest)
  | LostAfter => (Err "timeout"%string, mkMemory (if possible then effect else mem_objects m) rest)
  end.
(** The body of a copy's answer. *)
Definition error_body (m : Memory) : bool := match head (mem_script m) with Some ErrorBody => true | _ => false end.
Definition memory_cid (bs : bytes) : text := [100 + Z.of_nat (length bs)].
Definition answer (bs : bytes) (r : result string Z * Memory) : result string Response * Memory :=
  ((λ st, mkResponse st [(FILEBASE_CID_HEADER, memory_cid bs)] "") <$> r.1, r.2).
#[local] Instance memory_bucket : S3Bucket := {|
  Bucket := Memory;
  object m k := mem_objects m !! k;
  put_object m k bs := answer bs (next m (<[k := bs]> (mem_objects m)) true);
  head_object m k := let r := next m (mem_objects m) (bool_decide (is_Some (mem_objects m !! k))) in ((λ st, (None, st)) <$> r.1, r.2);
  copy_object_internal m from to :=
    if error_body m then (Ok 200, mkMemory (mem_objects m) (drop 1 (mem_script m)))
    else next m (match mem_objects m !! from with Some bs => <[to := bs]> (mem_objects m) | None => mem_objects m end) (bool_decide (is_Some (mem_objects m !! from)));
  copy_body_is_error m _ _ := error_body m;
  delete_object m k := answer [] (next m (delete k (mem_objects m)) true);
|}.
Lemma next_objects m effect possible : mem_objects (next m effect possible).2 = mem_objects m ∨ mem_objects (next m effect possible).2 = effect ∧ possible = true.
Proof. unfold next. destruct (default Done _), possible; cbn; auto. Qed.
Lemma next_success m effect possible st : (next m effect possible).1 = Ok st → is_success st = true → possible = true ∧ mem_objects (next m effect possible).2 = effect.
Proof. unfold next. destruct (default Done _), possible; cbn; intros [= <-]; try done. Qed.
Lemma next_404 m effect possible : (next m effect possible).1 = Ok 404 → possible = false.
Proof. unfold next. destruct (default Done _), possible; cbn; by intros [=]. Qed.
#[local] Instance memory_laws : S3Laws.
Proof.
  split.
  - intros m k bs k' Hk. cbn. destruct (next_objects m (<[k := bs]> (mem_objects m)) true) as [->|[-> _]]; [done|]. by rewrite lookup_insert_ne.
  - intros m k bs r Hr Hs. cbn in *. destruct (next m _ true) as [[st|] m'] eqn:E; [|done]. injection Hr as <-. cbn in *.
    destruct (next_success m (<[k := bs]> (mem_objects m)) true st) as [_ Hm]; [by rewrite E|done|]. rewrite E in Hm. cbn in Hm. rewrite Hm. apply lookup_insert_eq.
  - intros m k k'. cbn. by destruct (next_objects m (mem_objects m) (bool_decide (is_Some (mem_objects m !! k)))) as [->|[-> _]].
  - intros m k o st Hr Hs. cbn in *. destruct (next m (mem_objects m) _) as [[st'|] m'] eqn:E; [|done]. injection Hr as <- <-.
    destruct (next_success m (mem_objects m) (bool_decide (is_Some (mem_objects m !! k))) st') as [Hb _]; [by rewrite E|done|]. by apply bool_decide_eq_true in Hb.
  - intros m k o Hr. cbn in *. destruct (next m (mem_objects m) _) as [[st'|] m'] eqn:E; [|done]. injection Hr as _ ->.
    pose proof (next_404 m (mem_objects m) (bool_decide (is_Some (mem_objects m !! k)))) as Hb. rewrite E in Hb. specialize (Hb eq_refl).
    apply bool_decide_eq_false in Hb. by apply eq_None_not_Some.
  - intros m from to k' Hk. cbn. destruct (error_body m); [done|]. destruct (next_objects m (match mem_objects m !! from with Some bs => <[to := bs]> (mem_objects m) | None => mem_objects m end)
      (bool_decide (is_Some (mem_objects m !! from)))) as [->|[-> _]]; [done|]. destruct (mem_objects m !! from); [|done]. by rewrite lookup_insert_ne.
  - intros m from to. cbn. destruct (error_body m); [by left|]. destruct (next_objects m (match mem_objects m !! from with Some bs => <[to := bs]> (mem_objects m) | None => mem_objects m end)
      (bool_decide (is_Some (mem_objects m !! from)))) as [->|[-> Hb]]; [by left|]. apply bool_decide_eq_true in Hb as [bs Hb]. right. rewrite Hb.
    split; [apply lookup_insert_eq|done].
  - intros m from to st Hr Hs Hb0. cbn in *. rewrite Hb0 in *. destruct (next_success _ _ _ _ Hr Hs) as [Hb ->]. apply bool_decide_eq_true in Hb as [bs Hb]. rewrite Hb.
    split; [apply lookup_insert_eq|done].
  - intros m k k' Hk. cbn. destruct (next_objects m (delete k (mem_objects m)) true) as [->|[-> _]]; [done|]. by rewrite lookup_delete_ne.
  - intros m k r Hr Hs. cbn in *. destruct (next m _ true) as [[st|] m'] eqn:E; [|done]. injection Hr as <-. cbn in *.
    destruct (next_success m (delete k (mem_objects m)) true st) as [_ Hm]; [by rewrite E|done|]. rewrite E in Hm. cbn in Hm. rewrite Hm. apply lookup_delete_eq.
Qed.

(** CIDs are numbers from 100 on, written as one character. *)
Definition small_cid : Type := { n : Z | bool_decide (100 ≤ n) }.
Definition small_text (c : small_cid) : text := [`c].
Definition small_try_from (t : text) : result string small_cid :=
  match t with
  | [n] => match decide (bool_decide (100 ≤ n)) with left H => Ok (n ↾ H) | right _ => Err "cid"%string end
  | _ => Err "cid"%string
  end.
Definition small_raw (bs : bytes) : result (@IpfsError small_cid) small_cid := map_err (InvalidCid "" "") (small_try_from (memory_cid bs)).
Lemma small_text_inj c c' : small_text c = small_text c' → c = c'.
Proof. intros [= Heq]. by apply (sig_eq_pi _). Qed.
Lemma small_text_plain c : SLASH ∉ small_text c.
Proof. destruct c as [n Hn]. pose proof (bool_decide_unpack _ Hn) as Hle. unfold small_text. intros Heq%list_elem_of_singleton. unfold SLASH in Heq. cbn in Heq. lia. Qed.
Definition memory_pin (m : Memory) : result (@IpfsError small_cid) small_cid * Memory :=
  filebase_pin_bytes (H := memory_bucket) small_text small_try_from (λ _, ""%string) small_raw [SLASH] [Byte.x01; Byte.x02] m.

Lemma filebase_client_correct_witness :
  ∃ c m, memory_pin (mkMemory ∅ []) = (Ok c, m) ∧ `c = 102 ∧ mem_objects m !! [102] = Some [Byte.x01; Byte.x02].
Proof.
  destruct (memory_pin (mkMemory ∅ [])) as [[c|e] m] eqn:E; [|vm_compute in E; discriminate E]. exists c, m. split; [reflexivity|].
  assert (`c = 102) as Hc by (vm_compute in E; injection E as <- <-; reflexivity). split; [exact Hc|]. rewrite <- Hc.
  destruct (proj1 (proj1 (filebase_client_correct (H := memory_bucket) small_text small_try_from (λ _, ""%string) small_raw [SLASH]
    small_text_inj small_text_plain (mkMemory ∅ [])) [Byte.x01; Byte.x02] c m E)) as [Hobj|[Hobj _]]; [exact Hobj|].
  vm_compute in E. injection E as <- <-. vm_compute in Hobj. discriminate Hobj.
Defined.
(** When the copy fails the temporary object stays behind. *)
Example failed_copy_leaves_temporary_object :
  (memory_pin (mkMemory ∅ [Done; Refused])).1 = Err (PinHttpStatus "filebase" 503 "") ∧
  mem_objects (memory_pin (mkMemory ∅ [Done; Refused])).2 !! [116; 109; 112; 47; 102] = Some [Byte.x01; Byte.x02].
Proof. vm_compute. done. Qed.
(** When the copy answers 200 with an error in its body, the pin succeeds, nothing
    is under the key of its CID, and the temporary object is deleted. *)
Example copy_error_in_body_loses_content :
  let r := memory_pin (mkMemory ∅ [Done; ErrorBody]) in
  is_ok r.1 = true ∧ mem_objects r.2 = ∅.
Proof. vm_compute. done. Qed.
