(* ===== verification/TxidRange.v ===== *)
(** * Parity of a block range with Squid ([bin/verify_txid_range.rs])

    The command rebuilds the public transactions of a block range from RPC
    logs, fetched in chunks of blocks, and compares them with Squid's; where
    the range reaches Action logs it also rebuilds them from calldata and
    compares the two. The JSON readers repeat those of [verify_txid_parity.rs]. *)

From S2P Require Import Prelude Order Wire Ipfs Artifacts MerkleCheckpointChunk PublicTxidChunk ChainLogs LogFilters OutputMatch Calldata Traces Hydrate PoiStore ChainStore StoreQueries TimestampBackfill SquidParity TxidParity Config.

Module Range.
Record TxidRow := mkRangeRow {
  rr_range_index : nat;
  rr_id : bytes;
  rr_block_number : Z;
  rr_block_timestamp : Z;
  rr_transaction_hash : bytes;
  rr_nullifiers : list bytes;
  rr_commitments : list bytes;
  rr_bound_params_hash : bytes;
  rr_has_unshield : bool;
  rr_utxo_tree_in : Z;
  rr_utxo_tree_out : Z;
  rr_utxo_batch_start_position_out : Z;
}.

(** ** Arguments and defaults *)
Record Args := mkArgs {
  arg_chain_id : Z;
  arg_from_block : Z;
  arg_to_block : Z;
  arg_rpc_url : option Cfg.text;
  arg_railgun_contract : option Z;
  arg_v2_start_block : option Z;
  arg_legacy_shield_block : option Z;
  arg_action_start_block : option Z;
  arg_page_size : Z;
  arg_rpc_block_chunk_size : Z;
}.
Record ChainDefaults := mkDefaults {
  def_railgun_contract : Z;
  def_v2_start_block : Z;
  def_legacy_shield_block : Z;
  def_action_start_block : option Z;
  def_squid_endpoint : string;
}.
Definition chain_defaults (chain_id : Z) : result string ChainDefaults :=
  if decide (chain_id = 1) then
    Ok (mkDefaults 0xfa7093cdd9ee6932b4eb2c9e1cde7ce00b1fa4b9 16076750 16790263 (Some 25753685)
          "https://rail-squid.squids.live/squid-railgun-ethereum-v2/graphql")
  else if decide (chain_id = 56) then
    Ok (mkDefaults 0x590162bf4b50f6576a459b75309ee21d92178a10 23478204 26313947 (Some 115899634)
          "https://rail-squid.squids.live/squid-railgun-bsc-v2/graphql")
  else if decide (chain_id = 137) then
    Ok (mkDefaults 0x19b620929f97b7b990801496c3b361ca5def8c71 36219104 40143539 (Some 92007080)
          "https://rail-squid.squids.live/squid-railgun-polygon-v2/graphql")
  else if decide (chain_id = 42161) then
    Ok (mkDefaults 0xfa7093cdd9ee6932b4eb2c9e1cde7ce00b1fa4b9 0 68196853 (Some 494497454)
          "https://rail-squid.squids.live/squid-railgun-arbitrum-v2/graphql")
  else if decide (chain_id = 11155111) then
    Ok (mkDefaults 0xecfcf3b4ec647c4ca6d49108b311b7a7c9543fea 0 0 None
          "https://rail-squid.squids.live/squid-railgun-eth-sepolia-v2/graphql")
  else Err "unsupported chain id"%string.

(** ** Fetching logs in chunks *)
Section fetch.
Context (get_logs : Filter → cresult (list Log)) (railgun_contract v2_start_block legacy_shield_block : Z) (action_start_block : option Z).
(** [while chunk_start <= to_block]; [None] is out of fuel. *)
Fixpoint chunk_loop (fuel : nat) (to_block block_chunk_size chunk_start : Z) (logs : list Log) : option (result string (list Log)) :=
  match fuel with
  | O => None
  | S fuel =>
      if decide (chunk_start ≤ to_block) then
        let chunk_end := Z.min (saturating_add u64_max chunk_start (saturating_sub block_chunk_size 1)) to_block in
        match fetch_chain_index_logs get_logs railgun_contract chunk_start chunk_end v2_start_block legacy_shield_block action_start_block with
        | Err _ => Some (Err "fetch logs"%string)
        | Ok chunk_logs =>
            let logs := logs ++ chunk_logs in
            if decide (chunk_end = to_block) then Some (Ok logs)
            else match checked_add u64_max chunk_end 1 with
                 | None => Some (Err "next chunk start overflow"%string)
                 | Some chunk_start => chunk_loop fuel to_block block_chunk_size chunk_start logs
                 end
        end
      else Some (Ok logs)
  end.
Definition fetch_chain_index_logs_chunked (fuel : nat) (from_block to_block block_chunk_size : Z) : option (result string (list Log)) :=
  match (blocks ← checked_sub to_block from_block; checked_add u64_max blocks 1) with
  | None => Some (Err "block range overflow"%string)
  | Some _ =>
      match chunk_loop fuel to_block block_chunk_size from_block [] with
      | None => None
      | Some r => Some (sort_logs <$> r)
      end
  end.
End fetch.

(** ** Rows *)
Definition fixed_bytes (value : Z) : bytes := be_bytes 32 value.
Definition rpc_row (range_index : nat) (row : IndexedPublicTransaction) : TxidRow :=
  mkRangeRow range_index (row_id_text (ip_id row)) (ls_block_number (ip_source row)) (ip_block_timestamp row)
    (fixed_bytes (ls_transaction_hash (ip_source row))) (fixed_bytes <$> ip_nullifiers row) (fixed_bytes <$> ip_commitments row)
    (fixed_bytes (ip_bound_params_hash row)) (ip_has_unshield row) (ip_utxo_tree_in row) (ip_utxo_tree_out row)
    (ip_utxo_batch_start_position_out row).
Definition rpc_rows_from_batch (rows : list IndexedPublicTransaction) : list TxidRow := imap rpc_row rows.

Section squid.
Context `{HexStrings} `{SquidCrate}.
Definition string_field := Txid.string_field.
Definition bool_field := Txid.bool_field.
Definition u64_field := Txid.u64_field.
Definition fixed_hex_field := Txid.fixed_hex_field.
Definition fixed_u256_field := Txid.fixed_u256_field.
Definition fixed_u256_array_field := Txid.fixed_u256_array_field.
Definition parse_squid_transaction (range_index : nat) (value : Value) : result string TxidRow :=
  id ← string_field value "id";
  block_number ← u64_field value "blockNumber";
  block_timestamp ← u64_field value "blockTimestamp";
  transaction_hash ← fixed_hex_field value "transactionHash";
  nullifiers ← fixed_u256_array_field value "nullifiers";
  commitments ← fixed_u256_array_field value "commitments";
  bound_params_hash ← fixed_u256_field value "boundParamsHash";
  has_unshield ← bool_field value "hasUnshield";
  utxo_tree_in ← u64_field value "utxoTreeIn";
  utxo_tree_out ← u64_field value "utxoTreeOut";
  utxo_batch_start_position_out ← u64_field value "utxoBatchStartPositionOut";
  Ok (mkRangeRow range_index (String.list_byte_of_string id) block_number block_timestamp transaction_hash nullifiers commitments
        bound_params_hash has_unshield utxo_tree_in utxo_tree_out utxo_batch_start_position_out).
Definition push_squid_row (rows : list TxidRow) (value : Value) : result string (list TxidRow) :=
  row ← parse_squid_transaction (length rows) value; Ok (rows ++ [row]).

(** the answer to a post: endpoint, offset, limit and the two inclusive blocks *)
Context (post : string → Z → Z → Z → Z → result string (option (list Value) * option Value)).
Definition fetch_squid_page (endpoint : string) (offset limit from_block to_block : Z) : result string (list Value) :=
  offset ← ok_or (try_from Squid.i32_max offset) "Squid offset exceeds GraphQL Int"%string;
  limit ← ok_or (try_from Squid.i32_max limit) "Squid limit exceeds GraphQL Int"%string;
  '(data, errors) ← post endpoint offset limit from_block to_block;
  match errors with
  | Some _ => Err "Squid GraphQL errors"%string
  | None => ok_or data "Squid response missing data"%string
  end.
Fixpoint squid_rows_loop (fuel : nat) (endpoint : string) (from_block to_block page_size offset : Z) (rows : list TxidRow)
    : option (result string (list TxidRow)) :=
  match fuel with
  | O => None
  | S fuel =>
      match fetch_squid_page endpoint offset page_size from_block to_block with
      | Err e => Some (Err e)
      | Ok page =>
          if decide (page = []) then Some (Ok rows)
          else match try_fold push_squid_row rows page, try_from usize_max page_size with
               | Err e, _ => Some (Err e)
               | Ok _, None => Some (Err "Squid page size overflow"%string)
               | Ok rows, Some limit =>
                   if decide (Z.of_nat (length page) < limit) then Some (Ok rows)
                   else match try_from_len u64_max (length rows) with
                        | None => Some (Err "Squid offset overflow"%string)
                        | Some offset => squid_rows_loop fuel endpoint from_block to_block page_size offset rows
                        end
               end
      end
  end.
Definition squid_public_txid_rows (fuel : nat) (endpoint : string) (from_block to_block page_size : Z) : option (result string (list TxidRow)) :=
  squid_rows_loop fuel endpoint from_block to_block page_size 0 [].
End squid.

(** ** Comparison *)
Section compare.
Context `{TreeCrate} `{TxidCrate}.
Definition output_start_global (row : TxidRow) : Z :=
  saturating_add u128_max (saturating_mul u128_max (rr_utxo_tree_out row) TREE_LEAF_COUNT) (rr_utxo_batch_start_position_out row).
Definition leaf_hash (row : TxidRow) : Z :=
  let railgun_txid := compute_railgun_txid_parts (be_value <$> rr_nullifiers row) (be_value <$> rr_commitments row)
    (be_value (rr_bound_params_hash row)) in
  railgun_txid_leaf_hash_with_output_start railgun_txid (rr_utxo_tree_in row) (output_start_global row).
Definition rows_match (l r : TxidRow) : bool :=
  bool_decide (rr_block_number l = rr_block_number r) && bool_decide (rr_block_timestamp l = rr_block_timestamp r) &&
  bool_decide (rr_transaction_hash l = rr_transaction_hash r) && bool_decide (rr_nullifiers l = rr_nullifiers r) &&
  bool_decide (rr_commitments l = rr_commitments r) && bool_decide (rr_bound_params_hash l = rr_bound_params_hash r) &&
  bool_decide (rr_has_unshield l = rr_has_unshield r) && bool_decide (rr_utxo_tree_in l = rr_utxo_tree_in r) &&
  bool_decide (output_start_global l = output_start_global r).
(** The loop over the indexes, up to the first that fails. *)
Definition row_fails (left_rows right_rows : list TxidRow) (index : nat) : option unit :=
  match left_rows !! index, right_rows !! index with
  | Some l, Some r =>
      if negb (rows_match l r) || bool_decide (be_bytes 32 (leaf_hash l) ≠ be_bytes 32 (leaf_hash r)) then Some tt else None
  | Some _, None | None, Some _ => Some tt
  | None, None => None
  end.
Definition compare_rows (left_rows right_rows : list TxidRow) : Z :=
  let failures := if decide (length left_rows ≠ length right_rows) then 1 else 0 in
  match Txid.first_index (length left_rows `max` length right_rows) (row_fails left_rows right_rows) with
  | Some _ => saturating_add usize_max failures 1
  | None => failures
  end.
End compare.

(** ** The command *)
Section run.
Context `{ContractCrate} `{CalldataCrate} `{HexStrings} `{TreeCrate} `{SquidCrate} `{TxidCrate}.
Context (legacy_preimage_hash : LegacyCommitmentPreimage → Z) (visit : gmap Z TransactOutputSummary → list TransactOutputSummary).
Context (post : string → Z → Z → Z → Z → result string (option (list Value) * option Value)).
(** [build_provider]: the logs and the other answers of the node at a URL *)
Context (build_provider : Cfg.text → result string ((Filter → cresult (list Log)) * EthProvider)).
Abbreviation hydrate := (hydrate_public_transactions legacy_preimage_hash).
Definition chain_result {A} (r : cresult A) : result string A := map_err (λ _, "chain log ingestion failed"%string) r.

(** Failures of the calldata path: a path that cannot run counts as one. *)
Definition calldata_failures (provider : EthProvider) (railgun_contract : Z) (calldata_batch : option IndexedLogBatch) (rpc_rows : list TxidRow) : Z :=
  match calldata_batch with
  | None => 0
  | Some calldata_batch =>
      match hydrate provider railgun_contract visit None calldata_batch with
      | Err _ => 1
      | Ok calldata_batch => compare_rows rpc_rows (rpc_rows_from_batch (public_transactions calldata_batch))
      end
  end.
(** [main] after the logs were fetched. *)
Definition verify_logs (fuel : nat) (args : Args) (squid_endpoint : string) (provider : EthProvider) (railgun_contract : Z)
    (action_start_block : option Z) (logs : list Log) : option (result string unit) :=
  match (batch ← chain_result (ingest_chain_logs logs);
         let calldata_batch :=
           match action_start_block with
           | Some start => if decide (start ≤ arg_to_block args) then Some batch else None
           | None => None
           end in
         hydrated ← chain_result (hydrate provider railgun_contract visit action_start_block batch);
         let rpc_rows := rpc_rows_from_batch (public_transactions hydrated) in
         Ok (rpc_rows, calldata_failures provider railgun_contract calldata_batch rpc_rows)) with
  | Err e => Some (Err e)
  | Ok (rpc_rows, failures) =>
      match squid_public_txid_rows post fuel squid_endpoint (arg_from_block args) (arg_to_block args) (arg_page_size args) with
      | None => None
      | Some r =>
          Some (squid_rows ← r;
                let failures := failures + compare_rows rpc_rows squid_rows in
                if decide (0 < failures) then Err "TXID range parity failed"%string else Ok tt)
      end
  end.
Definition main (fuel : nat) (args : Args) : option (result string unit) :=
  match (_ ← (if decide (arg_to_block args < arg_from_block args) then Err "--from-block must be <= --to-block"%string else Ok tt);
         _ ← (if decide (arg_page_size args = 0) then Err "--page-size must be non-zero"%string else Ok tt);
         _ ← (if decide (arg_rpc_block_chunk_size args = 0) then Err "--rpc-block-chunk-size must be non-zero"%string else Ok tt);
         defaults ← chain_defaults (arg_chain_id args);
         rpc_url ← ok_or (url ← arg_rpc_url args; if decide (Cfg.trim url = []) then None else Some url) "--rpc-url is required"%string;
         provider ← build_provider rpc_url;
         Ok (defaults, provider)) with
  | Err e => Some (Err e)
  | Ok (defaults, (get_logs, provider)) =>
      let railgun_contract := default (def_railgun_contract defaults) (arg_railgun_contract args) in
      let v2_start_block := default (def_v2_start_block defaults) (arg_v2_start_block args) in
      let legacy_shield_block := default (def_legacy_shield_block defaults) (arg_legacy_shield_block args) in
      let action_start_block := match arg_action_start_block args with Some b => Some b | None => def_action_start_block defaults end in
      match fetch_chain_index_logs_chunked get_logs railgun_contract v2_start_block legacy_shield_block action_start_block fuel
              (arg_from_block args) (arg_to_block args) (arg_rpc_block_chunk_size args) with
      | None => None
      | Some (Err e) => Some (Err e)
      | Some (Ok logs) => verify_logs fuel args (def_squid_endpoint defaults) provider railgun_contract action_start_block logs
      end
  end.
End run.
End Range.
