(* ===== verification/TxidRangeCorrect.v ===== *)
(** * The range verifier compares what it claims to

    Fetching a range in chunks of blocks gives the logs of one fetch; the
    command then passes exactly when the rebuilt rows match Squid's and, where
    Action logs are in range, those rebuilt from calldata. *)

From S2P Require Import Prelude Order Wire Ipfs Artifacts MerkleCheckpointChunk PublicTxidChunk ChainLogs LogFilters ActionFrames ActionGrammar OutputMatch Calldata Traces Hydrate PoiStore ChainStore StoreQueries AuditLog Retention Publication Catalog CatalogComplete TimestampBackfill SquidParity TxidParity TxidParityCorrect Config TxidRange.

(** ** Chunked fetching *)
Section chunks.
Context (get_logs : Filter → cresult (list Log)) (chain : list Log) (contract v2 ls : Z) (act : option Z).
Hypothesis Hanswers : ∀ f, get_logs f = Ok (filter (λ log, log_matches f log = true) chain).
Hypothesis Hchain : StronglySorted log_lt chain.
Hypothesis Hls : ls ≤ u64_max.
Context (from size : Z).
Hypothesis Hsize : 0 < size.

(** The chunk of a block: chunks of [size] blocks from [from] on, the last one
    cut at [to]. A log is fetched when its own chunk wants it. *)
Definition chunk_start (b : Z) : Z := from + (b - from) / size * size.
Definition chunk_end (to b : Z) : Z := Z.min (chunk_start b + size - 1) to.
Definition log_fetched (to : Z) (log : Log) : bool :=
  match log_block_number log with
  | Some b => bool_decide (from ≤ b ≤ to) && log_wanted contract (chunk_start b) (chunk_end to b) v2 ls act log
  | None => false
  end.
(** The fetched logs below the chunk that starts at [start]. *)
Definition fetched_below (to start : Z) (log : Log) : bool :=
  log_fetched to log && match log_block_number log with Some b => bool_decide (b < start) | None => false end.

Lemma chunk_start_of k b : from + k * size ≤ b < from + (k + 1) * size → chunk_start b = from + k * size.
Proof using Hsize.
  intros Hb. unfold chunk_start. do 2 f_equal. symmetry. apply (Z.div_unique_pos _ _ _ (b - from - k * size)); lia.
Qed.
Lemma fetched_split_at k to log :
  let start := from + k * size in let stop := Z.min (start + size - 1) to in
  0 ≤ k → start ≤ to →
  fetched_below to (stop + 1) log = (fetched_below to start log || log_wanted contract start stop v2 ls act log) ∧
  (fetched_below to start log && log_wanted contract start stop v2 ls act log) = false.
Proof using Hsize.
  intros start stop Hk Hto. assert (from ≤ start) by (unfold start; nia).
  unfold fetched_below, log_fetched. destruct (log_block_number log) as [b|] eqn:Hb; cycle 1.
  { unfold log_wanted. by rewrite Hb. }
  destruct (decide (start ≤ b ≤ stop)) as [Hin|Hout].
  - assert (chunk_start b = start) as Hc by (apply (chunk_start_of k); unfold stop, start in *; lia).
    unfold chunk_end. rewrite Hc. fold stop. rewrite (bool_decide_true (b < stop + 1)), (bool_decide_false (b < start)) by lia.
    rewrite (bool_decide_true (from ≤ b ≤ to)) by (unfold stop in *; lia). by rewrite andb_true_r, andb_false_r.
  - assert (log_wanted contract start stop v2 ls act log = false) as ->.
    { unfold log_wanted. rewrite Hb. destruct (topic0 log); [|done]. by rewrite bool_decide_false by tauto. }
    rewrite orb_false_r, andb_false_r. split; [|done]. destruct (decide (from ≤ b ≤ to)); [|by rewrite bool_decide_false by done].
    f_equal. apply bool_decide_ext. unfold stop in *. lia.
Qed.
Lemma fetched_split k to :
  let start := from + k * size in let stop := Z.min (start + size - 1) to in
  0 ≤ k → start ≤ to →
  filter (λ log, fetched_below to start log = true) chain ++ filter (λ log, log_wanted contract start stop v2 ls act log = true) chain
    ≡ₚ filter (λ log, fetched_below to (stop + 1) log = true) chain.
Proof using Hsize.
  intros start stop Hk Ht. clear Hanswers Hchain. induction chain as [|log l IH]; [done|]. rewrite !filter_cons.
  destruct (fetched_split_at k to log Hk Ht) as [Hor Hand]. fold start stop in Hor, Hand.
  destruct (fetched_below to start log), (log_wanted contract start stop v2 ls act log); cbn in Hor, Hand; try done;
    rewrite Hor; repeat (case_decide; try done); cbn; try done; [by constructor|].
  rewrite <- Permutation_middle. by constructor.
Qed.

Lemma fetched_all to : filter (λ log, fetched_below to (to + 1) log = true) chain = filter (λ log, log_fetched to log = true) chain.
Proof using.
  apply filter_bool_ext, Forall_true. intros log. unfold fetched_below, log_fetched. destruct (log_block_number log) as [b|]; [|done].
  destruct (decide (from ≤ b ≤ to)); [|by rewrite bool_decide_false by done]. by rewrite (bool_decide_true (b < to + 1)), andb_true_r by lia.
Qed.

Lemma chunk_loop_fetched fuel to k logs :
  0 ≤ from → 0 ≤ k → from + k * size ≤ to → to ≤ u64_max → (Z.to_nat (to - (from + k * size)) < fuel)%nat →
  logs ≡ₚ filter (λ log, fetched_below to (from + k * size) log = true) chain →
  ∃ out, Range.chunk_loop get_logs contract v2 ls act fuel to size (from + k * size) logs = Some (Ok out) ∧
    out ≡ₚ filter (λ log, log_fetched to log = true) chain.
Proof using Hanswers Hchain Hls Hsize.
  intros Hfrom. revert k logs. induction fuel as [|fuel IH]; intros k logs Hk Hto Hmax Hfuel Hlogs; [lia|].
  cbn [Range.chunk_loop]. rewrite decide_True by done. assert (from ≤ from + k * size) by nia.
  set (start := from + k * size) in *. set (stop := Z.min (start + size - 1) to).
  replace (Z.min (saturating_add _ _ _) to) with stop by (unfold stop, saturating_add, saturating_sub; lia).
  rewrite (fetch_returns_wanted get_logs chain) by (done || unfold stop; lia).
  pose proof (fetched_split k to Hk Hto) as Hsplit. fold start stop in Hsplit. rewrite <- Hlogs in Hsplit.
  destruct (decide (stop = to)) as [Heq|Hne].
  { eexists; split; [done|]. by rewrite Hsplit, Heq, fetched_all. }
  assert (stop + 1 = from + (k + 1) * size) as Hnext by (unfold stop, start in *; lia).
  rewrite (proj2 (checked_add_Some u64_max stop 1 (stop + 1))) by (unfold stop in *; lia). rewrite Hnext in *.
  apply IH; [lia|unfold stop, start in *; lia|lia|unfold start in *; lia|done].
Qed.

Lemma chunked_fetch fuel to :
  0 ≤ from ≤ to → to - from < u64_max → to ≤ u64_max → (Z.to_nat (to - from) < fuel)%nat →
  Range.fetch_chain_index_logs_chunked get_logs contract v2 ls act fuel from to size =
    Some (Ok (filter (λ log, log_fetched to log = true) chain)).
Proof using Hanswers Hchain Hls Hsize.
  intros Hft Hspan Hto Hfuel. unfold Range.fetch_chain_index_logs_chunked.
  rewrite (proj2 (checked_sub_Some to from (to - from))) by lia. cbn [mbind option_bind].
  rewrite (proj2 (checked_add_Some u64_max (to - from) 1 (to - from + 1))) by lia.
  destruct (chunk_loop_fetched fuel to 0 []) as (out & Hout & Hperm); rewrite ?Z.mul_0_l, ?Z.add_0_r in *; try lia.
  - rewrite (filter_bool_ext _ (λ _, false)), filter_all_false; [done|]. apply Forall_true. intros log.
    unfold fetched_below, log_fetched. destruct (log_block_number log); [|done]. repeat case_bool_decide; cbn; by rewrite ?andb_false_r; try lia.
  - rewrite Hout. cbn. do 2 f_equal. by apply sort_logs_chain.
Qed.

(** The chunks matter only for a legacy batch in the first v2 block. *)
Lemma fetched_any_chunk to log : log_at_boundary v2 log = false → log_fetched to log = log_wanted contract from to v2 ls act log.
Proof using Hsize.
  intros Hn. unfold log_fetched. destruct (log_block_number log) as [b|] eqn:Hb; [|unfold log_wanted; by rewrite Hb].
  destruct (decide (from ≤ b ≤ to)) as [Hin|Hout].
  - rewrite bool_decide_true by done. cbn [andb]. apply log_wanted_any_range; [done|].
    rewrite Hb. intros ? [= <-]. unfold chunk_end, chunk_start.
    pose proof (Z.div_mod (b - from) size ltac:(lia)). pose proof (Z.mod_pos_bound (b - from) size ltac:(lia)). lia.
  - rewrite bool_decide_false by done. unfold log_wanted. rewrite Hb. destruct (topic0 log); [|done].
    by rewrite (bool_decide_false (_ ∧ from ≤ b ≤ to)) by (by intros [_ ?]).
Qed.
End chunks.

(** ** Squid rows *)
Section squid.
Context `{HexStrings} `{SquidCrate}.
Abbreviation Post := (string → Z → Z → Z → Z → result string (option (list Value) * option Value)).
Definition in_blocks (from to : Z) (v : Value) : Prop := from ≤ block_of v ≤ to.
#[global] Instance in_blocks_dec from to v : Decision (in_blocks from to v).
Proof. unfold in_blocks. apply _. Defined.
Definition range_answers (post : Post) (logs : string → list Value) : Prop :=
  ∀ endpoint offset limit from to,
    post endpoint offset limit from to = Ok (Some (take (Z.to_nat limit) (drop (Z.to_nat offset) (filter (in_blocks from to) (logs endpoint)))), None).

Lemma push_rows_length values rows rows' :
  try_fold Range.push_squid_row rows values = Ok rows' → length rows' = (length rows + length values)%nat.
Proof.
  revert rows. induction values as [|v values IH]; intros rows; cbn [try_fold]; [intros [= <-]; cbn; lia|].
  intros Hf. res_inv. apply IH in Hf. unfold Range.push_squid_row in E. res_inv. simplify_eq. rewrite length_app in Hf. cbn in *. lia.
Qed.

Lemma squid_rows_loop_all post logs endpoint from to page_size fuel offset rows :
  range_answers post logs → 0 < page_size ≤ Squid.i32_max → Z.of_nat (length (logs endpoint)) ≤ Squid.i32_max →
  (offset ≤ length (filter (in_blocks from to) (logs endpoint)))%nat → length rows = offset → (length (logs endpoint) - offset < fuel)%nat →
  Range.squid_rows_loop post fuel endpoint from to page_size (Z.of_nat offset) rows =
    Some (try_fold Range.push_squid_row rows (drop offset (filter (in_blocks from to) (logs endpoint)))).
Proof.
  intros Ha Hpage Hlen. revert offset rows. induction fuel as [|fuel IH]; intros offset rows Hoff Hrows Hfuel; [lia|]. cbn [Range.squid_rows_loop].
  set (all := filter (in_blocks from to) (logs endpoint)) in *.
  assert (length all ≤ length (logs endpoint))%nat as Hle by apply length_filter.
  assert (Squid.i32_max ≤ usize_max) by done. assert (Squid.i32_max ≤ u64_max) by done.
  unfold Range.fetch_squid_page. rewrite !try_from_fits by lia. cbn [ok_or mbind result_bind]. rewrite Ha. cbn [ok_or mbind result_bind]. fold all.
  rewrite Nat2Z.id. pose proof (take_drop (Z.to_nat page_size) (drop offset all)) as Hsplit.
  set (page := take _ (drop offset all)) in *.
  assert (length page = Z.to_nat page_size `min` (length all - offset))%nat as Hpl by (unfold page; by rewrite length_take, length_drop).
  destruct (decide (page = [])) as [Hnil|Hne].
  { rewrite Hnil in Hpl. rewrite drop_ge by (cbn in Hpl; lia). done. }
  assert (0 < length page)%nat by (destruct page; [done|cbn; lia]).
  rewrite <- Hsplit at 1. rewrite try_fold_app. destruct (try_fold Range.push_squid_row rows page) as [rows'|e] eqn:Hpush; [|done].
  cbn [mbind result_bind]. pose proof (push_rows_length _ _ _ Hpush) as Hrl.
  unfold try_from_len. rewrite drop_drop.
  destruct (decide (Z.of_nat (length page) < page_size)) as [Hshort|Hfull].
  - rewrite drop_ge by lia. done.
  - rewrite try_from_fits by lia. rewrite IH by lia. replace (length rows') with (offset + Z.to_nat page_size)%nat by lia. done.
Qed.

Lemma squid_rows_all post logs endpoint from to page_size fuel :
  range_answers post logs → 0 < page_size ≤ Squid.i32_max → Z.of_nat (length (logs endpoint)) ≤ Squid.i32_max → (length (logs endpoint) < fuel)%nat →
  Range.squid_public_txid_rows post fuel endpoint from to page_size =
    Some (try_fold Range.push_squid_row [] (filter (in_blocks from to) (logs endpoint))).
Proof. intros. apply (squid_rows_loop_all post logs endpoint from to page_size fuel 0 []); cbn; try done; lia. Qed.
End squid.

(** ** The verdict *)
Section compare.
Context `{TreeCrate} `{TxidCrate}.
Lemma range_match_leaf l r : Range.rows_match l r = true → Range.leaf_hash l = Range.leaf_hash r.
Proof.
  unfold Range.rows_match. rewrite !andb_true_iff, !bool_decide_eq_true. intros Hm. destruct_and!. unfold Range.leaf_hash. congruence.
Qed.
Lemma compare_rows_zero l r : 0 ≤ Range.compare_rows l r ∧ (Range.compare_rows l r = 0 ↔ Forall2 (λ a b, Range.rows_match a b = true) l r).
Proof.
  unfold Range.compare_rows. set (failures := if decide _ then 1 else 0). assert (0 ≤ failures ≤ 1) by (unfold failures; case_decide; lia).
  destruct (Txid.first_index _ _) as [u|] eqn:Hfirst.
  - split; [unfold saturating_add, usize_max, u64_max; lia|]. split; [unfold saturating_add, usize_max, u64_max; lia|]. intros HF. exfalso.
    enough (Txid.first_index (length l `max` length r) (Range.row_fails l r) = None) by congruence.
    apply first_index_None. intros i Hi. unfold Range.row_fails. pose proof (Forall2_length _ _ _ HF) as Hlen. rewrite Hlen, Nat.max_id in Hi.
    destruct (lookup_lt_is_Some_2 r i Hi) as [b Hb]. destruct (Forall2_lookup_r _ _ _ _ _ HF Hb) as (a & Hla & Hm).
    rewrite Hla, Hb, Hm. cbn. by rewrite (range_match_leaf _ _ Hm), bool_decide_false by (by intros []).
  - split; [lia|]. pose proof (proj1 (first_index_None _ _) Hfirst) as Hnone. unfold failures. split.
    + intros Hlen. case_decide as Hd; [done|]. apply Forall2_same_length_lookup. split; [done|].
      intros i a b Ha Hb. specialize (Hnone i). unfold Range.row_fails in Hnone. rewrite Ha, Hb in Hnone.
      apply lookup_lt_Some in Ha. destruct (Range.rows_match a b); [done|]. cbn in Hnone. by specialize (Hnone ltac:(lia)).
    + intros HF%Forall2_length. by rewrite decide_False by auto.
Qed.
End compare.

Section command.
Context `{ContractCrate} `{CalldataCrate} `{HexStrings} `{TreeCrate} `{SquidCrate} `{TxidCrate}.
Context (lph : LegacyCommitmentPreimage → Z) (visit : gmap Z TransactOutputSummary → list TransactOutputSummary).
Context (post : string → Z → Z → Z → Z → result string (option (list Value) * option Value)).
Context (build_provider : Cfg.text → result string ((Filter → cresult (list Log)) * EthProvider)).
Implicit Types args : Range.Args.

(** The settings of a run: the arguments over the chain's defaults. *)
Definition run_contract args (d : Range.ChainDefaults) : Z := default (Range.def_railgun_contract d) (Range.arg_railgun_contract args).
Definition run_v2 args (d : Range.ChainDefaults) : Z := default (Range.def_v2_start_block d) (Range.arg_v2_start_block args).
Definition run_legacy_shield args (d : Range.ChainDefaults) : Z := default (Range.def_legacy_shield_block d) (Range.arg_legacy_shield_block args).
Definition run_action args (d : Range.ChainDefaults) : option Z :=
  match Range.arg_action_start_block args with Some b => Some b | None => Range.def_action_start_block d end.
Definition args_ok args : Prop :=
  0 ≤ Range.arg_from_block args ≤ Range.arg_to_block args ∧ Range.arg_to_block args < u64_max ∧
  0 < Range.arg_page_size args ≤ Squid.i32_max ∧ 0 < Range.arg_rpc_block_chunk_size args.

(** The logs of the contract in the range, in chain order, as their chunks want them. *)
Definition range_logs args (d : Range.ChainDefaults) (chain : list Log) : list Log :=
  filter (λ log, log_fetched (run_contract args d) (run_v2 args d) (run_legacy_shield args d) (run_action args d)
                   (Range.arg_from_block args) (Range.arg_rpc_block_chunk_size args) (Range.arg_to_block args) log = true) chain.
Definition node_serves (get_logs : Filter → cresult (list Log)) args (d : Range.ChainDefaults) (chain : list Log) : Prop :=
  (∀ f, get_logs f = Ok (filter (λ log, log_matches f log = true) chain)) ∧ StronglySorted log_lt chain ∧
  run_legacy_shield args d ≤ u64_max.

(** The rows rebuilt from calldata agree, where the range reaches Action logs. *)
Definition calldata_agrees provider args (d : Range.ChainDefaults) (batch hydrated : IndexedLogBatch) : Prop :=
  ∀ start, run_action args d = Some start → start ≤ Range.arg_to_block args →
    ∃ calldata, hydrate_public_transactions lph provider (run_contract args d) visit None batch = Ok calldata ∧
      Forall2 (λ a b, Range.rows_match a b = true) (Range.rpc_rows_from_batch (public_transactions hydrated))
        (Range.rpc_rows_from_batch (public_transactions calldata)).

Lemma calldata_failures_zero provider args d batch hydrated :
  let failures := Range.calldata_failures lph visit provider (run_contract args d)
    (match run_action args d with Some start => if decide (start ≤ Range.arg_to_block args) then Some batch else None | None => None end)
    (Range.rpc_rows_from_batch (public_transactions hydrated)) in
  0 ≤ failures ∧ (failures = 0 ↔ calldata_agrees provider args d batch hydrated).
Proof.
  unfold Range.calldata_failures, calldata_agrees. destruct (run_action args d) as [start|]; [|split; [done|naive_solver]].
  case_decide; [|split; [done|split; [intros _ ? [= <-] ?; lia|done]]].
  destruct (hydrate_public_transactions _ _ _ _ _ _) as [calldata|e].
  - destruct (compare_rows_zero (Range.rpc_rows_from_batch (public_transactions hydrated)) (Range.rpc_rows_from_batch (public_transactions calldata))) as [? Hz].
    split; [done|]. rewrite Hz. naive_solver.
  - split; [done|]. split; [done|]. intros Hc. by destruct (Hc start) as (? & ? & _).
Qed.

(** C25. What the range verifier establishes. With a node and a Squid service
    that answer, the command always ends with a verdict or an error of the
    rows, and it passes exactly when the ingestion and the hydration of the
    fetched logs succeed, Squid's transactions of the range parse, the rebuilt
    rows match them one by one, and, where the range reaches the activation of
    Action logs, the rows rebuilt from calldata match as well. The fetched logs
    are those each chunk of blocks wants; whatever the chunk size they are the
    contract's logs of the range, but for a legacy commitment batch in the first
    v2 block, which a chunk that starts at that block does not request (unless
    the shield layout changes within the chunk). *)
Theorem range_parity_verdict fuel args d url get_logs provider chain logs :
  args_ok args → Range.chain_defaults (Range.arg_chain_id args) = Ok d →
  Range.arg_rpc_url args = Some url → ~ Cfg.blank url → build_provider url = Ok (get_logs, provider) → node_serves get_logs args d chain →
  range_answers post logs → Z.of_nat (length (logs (Range.def_squid_endpoint d))) ≤ Squid.i32_max →
  (length (logs (Range.def_squid_endpoint d)) < fuel)%nat → (Z.to_nat (Range.arg_to_block args - Range.arg_from_block args) < fuel)%nat →
  (∀ log, log ∈ chain → log_at_boundary (run_v2 args d) log = false →
     log ∈ range_logs args d chain ↔
     log_wanted (run_contract args d) (Range.arg_from_block args) (Range.arg_to_block args) (run_v2 args d)
       (run_legacy_shield args d) (run_action args d) log = true) ∧
  ∃ r, Range.main lph visit post build_provider fuel args = Some r ∧
    (r = Ok tt ↔ ∃ batch hydrated squid_rows,
       ingest_chain_logs (range_logs args d chain) = Ok batch ∧
       hydrate_public_transactions lph provider (run_contract args d) visit (run_action args d) batch = Ok hydrated ∧
       try_fold Range.push_squid_row []
         (filter (in_blocks (Range.arg_from_block args) (Range.arg_to_block args)) (logs (Range.def_squid_endpoint d))) = Ok squid_rows ∧
       Forall2 (λ a b, Range.rows_match a b = true) (Range.rpc_rows_from_batch (public_transactions hydrated)) squid_rows ∧
       calldata_agrees provider args d batch hydrated).
Proof.
  intros (Hft & Hto & Hpage & Hsize) Hd Hurl Hblank Hbuild (Hget & Hchain & Hls) Hsquid Hlen Hfuel Hspan.
  split; [intros log Hin Hn; unfold range_logs; rewrite list_elem_of_filter, fetched_any_chunk by done; naive_solver|].
  unfold Range.main. rewrite !decide_False by lia. cbn [mbind result_bind]. rewrite Hd. cbn [mbind result_bind]. rewrite Hurl. cbn [mbind option_bind].
  rewrite decide_False by (by rewrite Cfg.trim_nil). cbn [ok_or mbind result_bind]. rewrite Hbuild. cbn [mbind result_bind].
  fold (run_contract args d) (run_v2 args d) (run_legacy_shield args d) (run_action args d).
  rewrite (chunked_fetch get_logs chain) by (done || lia). fold (range_logs args d chain). unfold Range.verify_logs, Range.chain_result.
  destruct (ingest_chain_logs (range_logs args d chain)) as [batch|e]; cbn [map_err mbind result_bind]; [|eexists; split; [done|]; split; [done|]; intros (b & h & s & Hb & Hy & _); congruence].
  destruct (hydrate_public_transactions lph provider (run_contract args d) visit (run_action args d) batch) as [hydrated|e] eqn:Hh;
    cbn [map_err mbind result_bind]; [|eexists; split; [done|]; split; [done|]; intros (b & h & s & Hb & Hy & _); congruence].
  rewrite (squid_rows_all post logs) by done.
  destruct (try_fold _ _ _) as [squid_rows|e]; cbn [mbind result_bind]; [|eexists; split; [done|]; split; [done|]; intros (b & h & s & _ & _ & Hs & _); congruence].
  eexists; split; [reflexivity|].
  destruct (calldata_failures_zero provider args d batch hydrated) as [Hc0 Hc].
  destruct (compare_rows_zero (Range.rpc_rows_from_batch (public_transactions hydrated)) squid_rows) as [Hr0 Hr].
  cbn zeta in *. set (f1 := Range.calldata_failures _ _ _ _ _ _) in *. set (f2 := Range.compare_rows _ _) in *.
  case_decide as Hpos.
  - split; [done|]. intros (b & h & s & [= <-] & [= <-]%(eq_trans (eq_sym Hh)) & [= <-] & Hm%Hr & Hca%Hc). lia.
  - split; [|done]. intros _. exists batch, hydrated, squid_rows. split_and!; try done; [apply Hr|apply Hc]; lia.
Qed.
End command.

(** ** A range of one transaction

    Two blocks are fetched one at a time; Squid lists the same transaction, or
    one with another timestamp. *)
Section witness.
#[local] Existing Instance toy_contract.
#[local] Existing Instance toy_calldata.
#[local] Existing Instance toy_tree.
#[local] Instance toy_numbers : SquidCrate := {|
  u256_from_str_radix _ _ := None;
  squid_normalize t p := (t, p);
  SquidParity.preimage_hash _ := 0; SquidParity.preimage_abi_encode _ := []; SquidParity.preimage_abi_decode _ := None;
  legacy_preimage_hash _ := 0; legacy_preimage_abi_encode _ := []; legacy_preimage_abi_decode _ := None;
  shield_ciphertext_abi_encode _ := []; legacy_ciphertext_abi_encode _ := []; ciphertext_abi_decode _ := None;
  catalog_from_json _ := None;
|}.
Definition toy_range_chain : list Log :=
  [mkLog 192 (Some SigNullified) [Byte.x15] (Some 7) (Some 70) (Some 1) (Some 3);
   mkLog 192 (Some SigTransact) [Byte.x00; Byte.x3d] (Some 7) (Some 70) (Some 1) (Some 4)].
Definition toy_node (_ : Cfg.text) : result string ((Filter → cresult (list Log)) * EthProvider) :=
  Ok ((λ f, Ok (filter (λ log, log_matches f log = true) toy_range_chain)), toy_provider).
Definition toy_range_args : Range.Args := Range.mkArgs 1 6 7 (Some [104]) (Some 192) (Some 0) (Some 0) None 1 1.
Definition toy_transaction (timestamp : Z) : Value :=
  JObject [("id"%string, JString "00"); ("blockNumber"%string, JNumber 7); ("blockTimestamp"%string, JNumber timestamp);
           ("transactionHash"%string, JString "0x01"); ("nullifiers"%string, JArray [JNumber 21]); ("commitments"%string, JArray [JNumber 61; JNumber 99]);
           ("boundParamsHash"%string, JNumber 5); ("hasUnshield"%string, JBool true); ("utxoTreeIn"%string, JNumber 0);
           ("utxoTreeOut"%string, JNumber 0); ("utxoBatchStartPositionOut"%string, JNumber 0)].
Definition toy_range_post (log : list Value) (endpoint : string) (offset limit from to : Z) : result string (option (list Value) * option Value) :=
  Ok (Some (take (Z.to_nat limit) (drop (Z.to_nat offset) (filter (in_blocks from to) log))), None).
Definition toy_legacy_hash (p : LegacyCommitmentPreimage) : Z := p.
Definition toy_main (timestamp : Z) : option (result string unit) :=
  Range.main toy_legacy_hash toy_visit (toy_range_post [toy_transaction timestamp]) toy_node 3 toy_range_args.
Definition toy_defaults : Range.ChainDefaults :=
  match Range.chain_defaults 1 with Ok d => d | Err _ => Range.mkDefaults 0 0 0 None "" end.

Lemma toy_node_serves : node_serves (λ f, Ok (filter (λ log, log_matches f log = true) toy_range_chain)) toy_range_args toy_defaults toy_range_chain.
Proof.
  split_and!; [done| |vm_compute; discriminate].
  apply SSorted_cons; [apply SSorted_cons; constructor|]. apply Forall_singleton. right. split; [reflexivity|cbn; lia].
Qed.
Lemma range_parity_verdict_witness :
  toy_main 101 ≠ Some (Ok tt) ∧ toy_main 100 = Some (Ok tt) ∧
  ∃ hydrated squid_rows, Forall2 (λ a b, Range.rows_match a b = true) (Range.rpc_rows_from_batch (public_transactions hydrated)) squid_rows.
Proof.
  split; [vm_compute; discriminate|].
  destruct (range_parity_verdict toy_legacy_hash toy_visit (toy_range_post [toy_transaction 100]) toy_node 3 toy_range_args toy_defaults [104]
    (λ f, Ok (filter (λ log, log_matches f log = true) toy_range_chain)) toy_provider toy_range_chain (λ _, [toy_transaction 100])) as (_ & r & Hr & Hiff).
  - split_and!; vm_compute; done.
  - vm_compute. reflexivity.
  - reflexivity.
  - intros Hb. apply Cfg.trim_nil in Hb. vm_compute in Hb. discriminate Hb.
  - reflexivity.
  - exact toy_node_serves.
  - intros ? ? ? ? ?. reflexivity.
  - vm_compute. discriminate.
  - cbn. lia.
  - vm_compute. lia.
  - assert (toy_main 100 = Some (Ok tt)) as Hok by (vm_compute; reflexivity). split; [exact Hok|].
    unfold toy_main in Hok. rewrite Hr in Hok. injection Hok as ->.
    destruct (proj1 Hiff eq_refl) as (batch & hydrated & squid_rows & _ & _ & _ & Hm & _). exists hydrated, squid_rows. exact Hm.
Defined.
End witness.
