(* ===== verification/LegacyShields.v ===== *)
(** * Backfilling legacy Shield logs ([bin/backfill_legacy_shields.rs])

    The command fetches the four-argument Shield logs of each selected chain in
    spans of blocks, and stores the rows of each span in one transaction. *)

From S2P Require Import Prelude Order Wire Ipfs Artifacts MerkleCheckpointChunk ChainLogs LogFilters OutputMatch Calldata Traces Hydrate PoiStore ChainStore StoreQueries ChainIndexer Config.

Module LegacyShields.
Definition EVM_CHAIN_TYPE : Z := 0.
Definition DEFAULT_MAX_BLOCKS_PER_BATCH : Z := 10000.

Record Args := mkArgs {
  arg_chain_ids : list Z;
  arg_from_block : option Z;
  arg_to_block : option Z;
  arg_max_blocks_per_batch : Z;
  arg_dry_run : bool }.

Section backfill.
Context `{PoiTypes} `{PersistCrate} `{CalldataCrate} `{HexStrings} `{TreeCrate}.
(** the archive node behind a URL, if the URL parses *)
Context (build_provider : Cfg.text → option ChainView).

Definition selected_chains (config : Cfg.Config) (args : Args) : result string (list Cfg.ChainIndexedChainConfig) :=
  let chains := filter (λ chain, arg_chain_ids args = [] ∨ Cfg.chain_id chain ∈ arg_chain_ids args) (Cfg.chains (Cfg.chain_indexed config)) in
  match chains with [] => Err "no chain_indexed chains matched --chain-id filters"%string | _ => Ok chains end.

Definition legacy_shield_filter (railgun_contract from_block to_block : Z) : Filter :=
  mkFilter from_block to_block railgun_contract [SigLegacyShield].
Definition fetch_legacy_shield_logs (view : ChainView) (railgun_contract from_block to_block : Z) : cresult (list Log) :=
  view_logs view (legacy_shield_filter railgun_contract from_block to_block).

(** One span: the number of logs and of rows, and the tables after it.
    [commit_fails]: the answer to its [COMMIT]. *)
Definition backfill_span (view : ChainView) (chain : Cfg.ChainIndexedChainConfig) (dry_run commit_fails : bool) (from_block to_block : Z)
    (db : ChainDb) : result string (Z * Z * ChainDb) :=
  logs ← map_err (λ _, "fetch legacy Shield logs"%string) (fetch_legacy_shield_logs view (Cfg.railgun_contract chain) from_block to_block);
  let logs := sort_logs logs in
  batch ← map_err (λ _, "ingest legacy Shield logs"%string) (ingest_chain_logs logs);
  batch ← map_err (λ _, "hydrate legacy shield block timestamps"%string) (hydrate_indexed_log_source_timestamps (view_provider view) batch);
  let row_count := Z.of_nat (length (shield_commitments batch)) in
  db ← (if negb dry_run && bool_decide (0 < row_count)
        then tx ← map_err (λ _, "persist legacy shield rows"%string)
               (persist_indexed_log_batch db EVM_CHAIN_TYPE (Cfg.chain_id chain) (Cfg.railgun_contract chain) batch);
             if commit_fails then Err "commit shield backfill tx"%string else Ok tx
        else Ok db);
  Ok (Z.of_nat (length logs), row_count, db).

(** The loop of [backfill_chain]; the tables are those after the last span
    that was committed. [None]: out of fuel. *)
Fixpoint backfill_loop (fuel : nat) (view : ChainView) (chain : Cfg.ChainIndexedChainConfig) (max_blocks_per_batch to_block : Z) (dry_run : bool)
    (commits : list bool) (cursor total_logs total_rows : Z) (db : ChainDb) : option (result string (Z * Z) * ChainDb) :=
  match fuel with
  | O => None
  | S fuel =>
      if decide (cursor ≤ to_block) then
        let end_ := Z.min (saturating_add u64_max cursor (saturating_sub max_blocks_per_batch 1)) to_block in
        match backfill_span view chain dry_run (default false (head commits)) cursor end_ db with
        | Err e => Some (Err e, db)
        | Ok (logs, rows, db) =>
            backfill_loop fuel view chain max_blocks_per_batch to_block dry_run (tail commits) (saturating_add u64_max end_ 1)
              (saturating_add u64_max total_logs logs) (saturating_add u64_max total_rows rows) db
        end
      else Some (Ok (total_logs, total_rows), db)
  end.
Definition backfill_chain (fuel : nat) (view : ChainView) (chain : Cfg.ChainIndexedChainConfig) (from_block to_block max_blocks_per_batch : Z)
    (dry_run : bool) (commits : list bool) (db : ChainDb) : option (result string (Z * Z) * ChainDb) :=
  backfill_loop fuel view chain max_blocks_per_batch to_block dry_run commits from_block 0 0 db.

(** The chains of [main], one after another. *)
Fixpoint backfill_chains (fuel : nat) (args : Args) (chains : list (Cfg.ChainIndexedChainConfig * list bool)) (total_logs total_rows : Z) (db : ChainDb)
    : option (result string (Z * Z) * ChainDb) :=
  match chains with
  | [] => Some (Ok (total_logs, total_rows), db)
  | (chain, commits) :: chains =>
      match build_provider (Cfg.archive_rpc_url chain) with
      | None => Some (Err "build archive RPC provider"%string, db)
      | Some view =>
          let from_block := default (Z.max (Cfg.start_block chain) (Cfg.v2_start_block chain)) (arg_from_block args) in
          let to_block := default (Cfg.legacy_shield_block chain) (arg_to_block args) in
          if decide (to_block < from_block) then backfill_chains fuel args chains total_logs total_rows db
          else match backfill_chain fuel view chain from_block to_block (arg_max_blocks_per_batch args) (arg_dry_run args) commits db with
          | None => None
          | Some (Err e, db) => Some (Err e, db)
          | Some (Ok (logs, rows), db) =>
              backfill_chains fuel args chains (saturating_add u64_max total_logs logs) (saturating_add u64_max total_rows rows) db
          end
      end
  end.
(** [main] after its connections: [commits] are the answers per chain. *)
Definition main (fuel : nat) (config : Cfg.Config) (args : Args) (commits : list (list bool)) (db : ChainDb) : option (result string (Z * Z) * ChainDb) :=
  if decide (arg_max_blocks_per_batch args = 0) then Some (Err "--max-blocks-per-batch must be non-zero"%string, db)
  else match selected_chains config args with
  | Err e => Some (Err e, db)
  | Ok chains => backfill_chains fuel args (imap (λ i chain, (chain, default [] (commits !! i))) chains) 0 0 db
  end.

(** ** What a run does *)
Context (chain_logs : list Log) (view : ChainView) (chain : Cfg.ChainIndexedChainConfig).
Context (node_answers : ∀ f, view_logs view f = Ok (filter (λ log, log_matches f log = true) chain_logs)).

(** The legacy Shield logs of the contract between two blocks. *)
Definition legacy_logs (from_block to_block : Z) : list Log :=
  filter (λ log, log_matches (legacy_shield_filter (Cfg.railgun_contract chain) from_block to_block) log = true) chain_logs.

Lemma legacy_matches x y log : log_matches (legacy_shield_filter (Cfg.railgun_contract chain) x y) log = true ↔
  ∃ b, log_block_number log = Some b ∧ topic0 log = Some SigLegacyShield ∧ log_address log = Cfg.railgun_contract chain ∧ x ≤ b ≤ y.
Proof.
  unfold log_matches, selects, legacy_shield_filter. cbn. destruct (log_block_number log) as [blk|]; [|naive_solver].
  destruct (topic0 log) as [sig|]; [|naive_solver]. rewrite andb_true_iff, !bool_decide_eq_true, list_elem_of_singleton. naive_solver.
Qed.

Lemma legacy_logs_split a b c : a ≤ b + 1 → b ≤ c →
  length (legacy_logs a c) = (length (legacy_logs a b) + length (legacy_logs (b + 1) c))%nat.
Proof.
  intros Hab Hbc. unfold legacy_logs. clear node_answers. induction chain_logs as [|log logs IH]; [done|]. rewrite !filter_cons.
  pose proof (legacy_matches a c log) as M1. pose proof (legacy_matches a b log) as M2. pose proof (legacy_matches (b + 1) c log) as M3.
  destruct (decide (log_matches _ log = true)) as [D1|D1]; destruct (decide (log_matches (legacy_shield_filter _ a b) log = true)) as [D2|D2];
    destruct (decide (log_matches (legacy_shield_filter _ (b + 1) c) log = true)) as [D3|D3]; cbn [length]; try lia.
  - apply M2 in D2 as (x & ? & ? & ? & ?). apply M3 in D3 as (y & ? & ? & ? & ?). simplify_eq. lia.
  - apply M1 in D1 as (x & ? & ? & ? & ?). destruct (decide (x ≤ b)); [destruct D2|destruct D3]; [apply M2|apply M3]; exists x; split_and!; auto; lia.
  - apply M2 in D2 as (x & ? & ? & ? & ?). apply M3 in D3 as (y & ? & ? & ? & ?). simplify_eq. lia.
  - apply M2 in D2 as (x & ? & ? & ? & ?). destruct D1. apply M1. exists x. split_and!; auto; lia.
  - apply M3 in D3 as (y & ? & ? & ? & ?). destruct D1. apply M1. exists y. split_and!; auto; lia.
Qed.

Lemma span_logs dry_run commit_fails a b db logs rows db' :
  backfill_span view chain dry_run commit_fails a b db = Ok (logs, rows, db') → logs = Z.of_nat (length (legacy_logs a b)).
Proof.
  unfold backfill_span, fetch_legacy_shield_logs. rewrite node_answers. cbn. intros Hr. res_inv. f_equal.
  apply Permutation_length, sort_by_perm.
Qed.

(** With an end below the last block number, the loop ends for every span, and
    a run that succeeds saw each legacy Shield log of its range once. *)
Lemma backfill_loop_returns fuel size dry_run commits to_block from_block cursor rows db :
  to_block < u64_max → 0 < size → 0 ≤ from_block ≤ cursor → cursor ≤ to_block + 1 → (Z.to_nat (to_block + 1 - cursor) < fuel)%nat →
  Z.of_nat (length chain_logs) ≤ u64_max →
  ∃ r db', backfill_loop fuel view chain size to_block dry_run commits cursor (Z.of_nat (length (legacy_logs from_block (cursor - 1)))) rows db = Some (r, db') ∧
    ∀ logs rows', r = Ok (logs, rows') → logs = Z.of_nat (length (legacy_logs from_block to_block)).
Proof.
  intros Hto Hsize Hfrom. revert cursor rows commits db Hfrom. induction fuel as [|fuel IH]; intros cursor rows commits db Hfrom Hcur Hfuel Hlen; [lia|].
  cbn [backfill_loop]. case_decide as Hc.
  2:{ eexists _, _. split; [done|]. intros logs rows' [= <- _]. replace (cursor - 1) with to_block by lia. done. }
  set (end_ := Z.min (saturating_add u64_max cursor (saturating_sub size 1)) to_block).
  assert (cursor ≤ end_ ≤ to_block) as Hend by (unfold end_, saturating_add, saturating_sub; lia).
  destruct (backfill_span view chain dry_run (default false (head commits)) cursor end_ db) as [[[logs rows1] db1]|e] eqn:Hspan.
  2:{ eexists _, _. split; [done|]. done. }
  apply span_logs in Hspan. subst logs. unfold saturating_add at 1. rewrite (Z.min_r u64_max (end_ + 1)) by lia.
  assert (length (legacy_logs from_block end_) = (length (legacy_logs from_block (cursor - 1)) + length (legacy_logs cursor end_))%nat) as Hsplit.
  { rewrite (legacy_logs_split from_block (cursor - 1) end_) by lia. by replace (cursor - 1 + 1) with cursor by lia. }
  assert (length (legacy_logs from_block end_) ≤ length chain_logs)%nat as Hle by apply length_filter.
  unfold saturating_add at 1. rewrite Z.min_r by lia.
  replace (Z.of_nat (length (legacy_logs from_block (cursor - 1))) + Z.of_nat (length (legacy_logs cursor end_)))
    with (Z.of_nat (length (legacy_logs from_block (end_ + 1 - 1)))) by (replace (end_ + 1 - 1) with end_ by lia; lia).
  apply IH; lia.
Qed.

Theorem legacy_backfill_returns fuel from_block to_block size dry_run commits db :
  0 ≤ from_block ≤ to_block → to_block < u64_max → 0 < size → (Z.to_nat (to_block + 1 - from_block) < fuel)%nat → Z.of_nat (length chain_logs) ≤ u64_max →
  ∃ r db', backfill_chain fuel view chain from_block to_block size dry_run commits db = Some (r, db') ∧
    ∀ logs rows, r = Ok (logs, rows) → logs = Z.of_nat (length (legacy_logs from_block to_block)).
Proof.
  intros Hf Ht Hs Hfuel Hlen. unfold backfill_chain.
  assert (length (legacy_logs from_block (from_block - 1)) = 0%nat) as Hempty.
  { pose proof (legacy_logs_split from_block (from_block - 1) (from_block - 1) ltac:(lia) ltac:(lia)) as E.
    replace (from_block - 1 + 1) with from_block in E by lia. lia. }
  destruct (backfill_loop_returns fuel size dry_run commits to_block from_block from_block 0 db) as (r & db' & Hrun & Hr); try lia.
  rewrite Hempty in Hrun. eauto.
Qed.

(** The last block number as the end of the range never lets the loop end:
    the cursor saturates there. *)
Lemma backfill_loop_diverges fuel size dry_run logs rows db : view_logs view = (λ _, Ok []) → 0 < size →
  backfill_loop fuel view chain size u64_max dry_run [] u64_max logs rows db = None.
Proof.
  intros Hview Hs. revert logs rows. induction fuel as [|fuel IH]; intros logs rows; [done|]. cbn [backfill_loop]. rewrite decide_True by lia.
  assert (Z.min (saturating_add u64_max u64_max (saturating_sub size 1)) u64_max = u64_max) as ->.
  { unfold saturating_add, saturating_sub. lia. }
  assert (∀ f a b, backfill_span view chain dry_run f a b db = Ok (0, 0, db)) as Hspan.
  { intros f a b. unfold backfill_span, fetch_legacy_shield_logs. rewrite Hview. cbn. by rewrite andb_false_r. }
  rewrite Hspan. cbn [tail]. assert (saturating_add u64_max u64_max 1 = u64_max) as -> by done. apply IH.
Qed.
End backfill.
End LegacyShields.
