(* ===== verification/Ipns.v ===== *)
(** * The IPNS publisher ([publish/ipns.rs])

    One task owns the DHT swarm. Clients send it requests over a channel and
    wait for the answer until their deadline; the task keeps a queue, puts one
    record at a time and retries a failed put before the deadline of its
    request. libp2p, the record crate, HKDF and CIDs are parameters. An
    instant and a duration are numbers of nanoseconds. *)

From S2P Require Import Prelude Wire Ipfs Artifacts ChainLogs PoiStore ChainStore StoreQueries Config.

Module Ipns.
Import Cfg.

(** ** UTF-8: [str::as_bytes] and [str::from_utf8] *)
Definition octets : Type := list Z.

Definition utf8_char (c : Z) : octets :=
  if decide (c < 128) then [c]
  else if decide (c < 2048) then [192 + c / 64; 128 + c mod 64]
  else if decide (c < 65536) then [224 + c / 4096; 128 + c / 64 mod 64; 128 + c mod 64]
  else [240 + c / 262144; 128 + c / 4096 mod 64; 128 + c / 64 mod 64; 128 + c mod 64].
Definition as_bytes (s : text) : octets := concat (utf8_char <$> s).

Definition continuation (b : Z) : bool := bool_decide (128 ≤ b < 192).
(** A scalar value: no surrogate, at most 0x10FFFF. *)
Definition is_char (c : Z) : bool := bool_decide (0 ≤ c < 55296 ∨ 57344 ≤ c < 1114112).
Fixpoint from_utf8 (l : octets) : option text :=
  match l with
  | [] => Some []
  | b0 :: l1 =>
      if bool_decide (0 ≤ b0 < 128) then cons b0 <$> from_utf8 l1
      else match l1 with
      | [] => None
      | b1 :: l2 =>
          if negb (continuation b1) then None
          else if bool_decide (194 ≤ b0 < 224) then cons ((b0 - 192) * 64 + (b1 - 128)) <$> from_utf8 l2
          else match l2 with
          | [] => None
          | b2 :: l3 =>
              let c3 := (b0 - 224) * 4096 + (b1 - 128) * 64 + (b2 - 128) in
              if negb (continuation b2) then None
              else if bool_decide (224 ≤ b0 < 240) && bool_decide (2048 ≤ c3) && is_char c3 then cons c3 <$> from_utf8 l3
              else match l3 with
              | [] => None
              | b3 :: l4 =>
                  let c4 := (b0 - 240) * 262144 + (b1 - 128) * 4096 + (b2 - 128) * 64 + (b3 - 128) in
                  if continuation b3 && bool_decide (240 ≤ b0 < 245) && bool_decide (65536 ≤ c4) && is_char c4
                  then cons c4 <$> from_utf8 l4 else None
              end
          end
      end
  end.

Fixpoint strip_prefix (p s : text) : option text :=
  match p, s with
  | [], _ => Some s
  | a :: p, b :: s => if bool_decide (a = b) then strip_prefix p s else None
  | _ :: _, [] => None
  end.

(** The code points of a literal. *)
Definition lit (s : string) : text := Z.of_nat ∘ Ascii.nat_of_ascii <$> String.list_ascii_of_string s.

(** ** Constants *)
Definition V4_POI_IPNS_KDF_SALT : octets := lit "railgun-indexer/ipns-key-derivation/v1".
Definition V4_POI_IPNS_KDF_INFO : octets := lit "poi-artifact/chunked-manifest/v4".
Definition IPNS_RECORD_KEY_PREFIX : octets := lit "/ipns/".
Definition IPFS_PATH_PREFIX : text := lit "/ipfs/".
Definition LIBP2P_KEY_CODEC : Z := 0x72.
Definition IPNS_MIN_CONNECTED_PEERS_FOR_PUBLISH : Z := 8.
Definition IPNS_PUBLISH_RETRY_DELAYS : list Z := [nanos 2; nanos 5; nanos 10].
Definition IPNS_MIN_RETRY_REMAINING : Z := nanos 1.

(** ** Data *)
(** A peer id is its bytes, [PeerId::to_bytes]. *)
Definition PeerId : Type := octets.
(** [kad::QueryId] *)
Definition QueryId : Type := nat.

Inductive IpnsError :=
  | InvalidBootstrapAddress (addr : text)
  | MissingPeerId
  | IdentityError
  | UnexpectedIdentityType
  | KdfOutputLength
  | PublisherIdentityCollision (peer_id : PeerId)
  | InvalidManifestCid (cid : text)
  | IpnsNameError
  | RecordLifetimeOutOfRange
  | RecordTtlTooLarge (ttl : Z)
  | CreateRecord
  | VerifyRecord
  | EncodeRecord
  | DecodeRecord
  | ReadRecordData
  | DnsError
  | NoiseError
  | StoreError
  | DialBootstrap
  | Timeout (duration : Z)
  | PublisherUnavailable
  | PublisherResponseDropped
  | PutRecordError
  | GetRecordError
  | ResolveNoRecord
  | RecordValueUtf8.
Abbreviation iresult := (result IpnsError).

Record IpnsPublication := mkPublication {
  pub_peer_id : PeerId;
  pub_ipns_name : text;
  pub_value : text;
  pub_sequence : Z }.

Record SignedIpnsRecord := mkSigned {
  sr_peer_id : PeerId;
  sr_ipns_name : text;
  sr_record_key : octets;
  sr_value : text;
  sr_sequence : Z;
  sr_bytes : octets }.

(** [PublishRequest]: the answer channel is its number, a lease its presence. *)
Record PublishRequest := mkRequest {
  manifest_cid : text;
  sequence : Z;
  timeout : Z;
  deadline : Z;
  not_before : Z;
  attempts_started : Z;
  response : nat;
  canonicality_lease : bool }.

Record ActivePublish := mkActive {
  query_id : QueryId;
  request : PublishRequest;
  publication : IpnsPublication }.

(** What the task reads from outside in one call: the clock, the answer
    channels whose receiver is gone, the number of connected peers and the
    answer [put_record] would give. *)
Record Moment := mkMoment {
  m_now : Z;
  m_closed : list nat;
  m_peers : Z;
  m_put : option QueryId }.

(** What becomes of a request: answered, or dropped without an answer. *)
Inductive Outcome :=
  | Answered (request : PublishRequest) (answer : iresult IpnsPublication)
  | Dropped (request : PublishRequest).

(** A put handed to Kademlia. *)
Record Put := mkPut {
  put_query : QueryId;
  put_request : PublishRequest;
  put_record : SignedIpnsRecord }.

Inductive SwarmCall (M : Type) :=
  | Dial (addr : M)
  | Bootstrap
  | PutRecord (put : Put).
Arguments Dial {M}.
Arguments Bootstrap {M}.
Arguments PutRecord {M}.

Inductive SwarmEvent :=
  | PutRecordProgressed (id : QueryId) (ok : bool)
  | BootstrapProgressed (ok last : bool)
  | ConnectionEstablished
  | ConnectionClosed
  | OutgoingConnectionError
  | OtherSwarmEvent.

Record IpnsPublisherConfig (M : Type) := mkPublisherConfig {
  bootstrap_peers : list M;
  record_lifetime : Z;
  record_ttl : Z;
  publish_timeout : Z }.
Arguments mkPublisherConfig {M}.
Arguments bootstrap_peers {M}.
Arguments record_lifetime {M}.
Arguments record_ttl {M}.
Arguments publish_timeout {M}.

(** The locals of [run], with the answers given and the calls to the swarm. *)
Record Task (M : Type) := mkTask {
  pending : list PublishRequest;
  active : option ActivePublish;
  bootstrap_completed : bool;
  outcomes : list Outcome;
  calls : list (SwarmCall M) }.
Arguments mkTask {M}.
Arguments pending {M}.
Arguments active {M}.
Arguments bootstrap_completed {M}.
Arguments outcomes {M}.
Arguments calls {M}.

(** ** The crates *)
Class IpnsCrates (M K R : Type) := {
  (** [str::parse::<Multiaddr>] and the peer of a trailing [/p2p] part *)
  parse_multiaddr : text → option M;
  addr_last_p2p : M → option PeerId;
  (** [Keypair::ed25519_from_bytes], [PeerId::from(public())], [try_into_ed25519] *)
  ed25519_from_bytes : octets → option K;
  keypair_peer_id : K → PeerId;
  keypair_ed25519 : K → option octets;
  (** HKDF-SHA256 of salt, key and info to 32 bytes *)
  hkdf_sha256 : octets → octets → octets → option octets;
  (** [Cid::try_from], and [Cid::new_v1] printed in base 36 *)
  cid_parses : text → bool;
  cid_v1_base36 : Z → PeerId → option text;
  (** [chrono::Duration::from_std] *)
  chrono_from_std : Z → option Z;
  (** [rust_ipns::Record]; a new record depends on the time of its making *)
  record_new : Z → K → octets → Z → Z → Z → option R;
  record_verify : R → PeerId → bool;
  record_encode : R → option octets;
  record_decode : octets → option R;
  record_value : R → option octets;
  (** the DNS resolver and the noise handshake of a transport *)
  transport_dns : bool;
  transport_noise : K → bool }.

Section publisher.
Context {M K R : Type} `{Crates : IpnsCrates M K R}.
Implicit Types (config : IpnsPublisherConfig M) (keypair : K) (st : Task M) (m : Moment) (r : PublishRequest).

(** ** Pure parts *)
(** [IpnsPublisherConfig::from_indexer_config] *)
Definition from_indexer_config (config : Config) : iresult (IpnsPublisherConfig M) :=
  peers ← try_map (λ addr, ok_or (parse_multiaddr addr) (InvalidBootstrapAddress addr)) (ipns_bootstrap_peers config);
  Ok (mkPublisherConfig peers (ipns_record_lifetime config) (ipns_record_ttl config) (ipns_publish_timeout config)).

Definition peer_id_from_addr (addr : M) : iresult PeerId := ok_or (addr_last_p2p addr) MissingPeerId.

Definition ipns_record_key_bytes (peer_id : PeerId) : octets := IPNS_RECORD_KEY_PREFIX ++ peer_id.
Definition ipns_name (peer_id : PeerId) : iresult text := ok_or (cid_v1_base36 LIBP2P_KEY_CODEC peer_id) IpnsNameError.

Definition identity_keypair_from_signing_key (signing_key : octets) : iresult K :=
  ok_or (ed25519_from_bytes signing_key) IdentityError.
Definition identity_keypair_from_v4_poi_signing_key (signing_key : octets) : iresult K :=
  child_seed ← ok_or (hkdf_sha256 V4_POI_IPNS_KDF_SALT signing_key V4_POI_IPNS_KDF_INFO) KdfOutputLength;
  ok_or (ed25519_from_bytes child_seed) IdentityError.
(** [v4_poi_public_identity]: public key, peer id and name *)
Definition v4_poi_public_identity (signing_key : octets) : iresult (octets * PeerId * text) :=
  keypair ← identity_keypair_from_v4_poi_signing_key signing_key;
  public_key ← ok_or (keypair_ed25519 keypair) UnexpectedIdentityType;
  let peer_id := keypair_peer_id keypair in
  name ← ipns_name peer_id;
  Ok (public_key, peer_id, name).

Definition manifest_ipfs_path (manifest_cid : text) : iresult text :=
  let trimmed := trim manifest_cid in
  let cid := default trimmed (strip_prefix IPFS_PATH_PREFIX trimmed) in
  if cid_parses cid then Ok (IPFS_PATH_PREFIX ++ cid) else Err (InvalidManifestCid cid).

Definition duration_nanos (duration : Z) : iresult Z := ok_or (try_from (2 ^ 64 - 1) duration) (RecordTtlTooLarge duration).

Definition build_signed_record (at_time : Z) keypair (manifest_cid : text) (record_lifetime record_ttl sequence : Z) : iresult SignedIpnsRecord :=
  let peer_id := keypair_peer_id keypair in
  value ← manifest_ipfs_path manifest_cid;
  lifetime ← ok_or (chrono_from_std record_lifetime) RecordLifetimeOutOfRange;
  ttl ← duration_nanos record_ttl;
  ipns_record ← ok_or (record_new at_time keypair (as_bytes value) lifetime sequence ttl) CreateRecord;
  _ ← (if record_verify ipns_record peer_id then Ok tt else Err VerifyRecord);
  bytes ← ok_or (record_encode ipns_record) EncodeRecord;
  name ← ipns_name peer_id;
  Ok (mkSigned peer_id name (ipns_record_key_bytes peer_id) value sequence bytes).

Definition decode_manifest_cid (record_bytes : octets) (peer_id : PeerId) : iresult text :=
  record ← ok_or (record_decode record_bytes) DecodeRecord;
  _ ← (if record_verify record peer_id then Ok tt else Err VerifyRecord);
  data ← ok_or (record_value record) ReadRecordData;
  value ← ok_or (from_utf8 data) RecordValueUtf8;
  Ok (default value (strip_prefix IPFS_PATH_PREFIX value)).

(** ** Requests *)
Definition is_expired r (now : Z) : bool := bool_decide (deadline r ≤ now).
Definition may_expire_while_active r (now : Z) : bool := negb (canonicality_lease r) && is_expired r now.
(** [response.is_closed()] *)
Definition is_closed m r : bool := bool_decide (response r ∈ m_closed m).

Definition with_attempts (attempts : Z) r : PublishRequest :=
  mkRequest (manifest_cid r) (sequence r) (timeout r) (deadline r) (not_before r) attempts (response r) (canonicality_lease r).
Definition with_not_before (at_time : Z) r : PublishRequest :=
  mkRequest (manifest_cid r) (sequence r) (timeout r) (deadline r) at_time (attempts_started r) (response r) (canonicality_lease r).

(** [publish_manifest_cid_inner]: the request, made by two readings of the
    clock, and what the client returns, from what the channel answers before
    the deadline ([None]: nothing). *)
Definition new_request (publish_timeout : Z) (manifest_cid : text) (sequence : Z) (response : nat) (lease : bool) (now now' : Z) : PublishRequest :=
  mkRequest manifest_cid sequence publish_timeout (now + publish_timeout) now' 0 response lease.
Inductive SendOutcome := Sent | ChannelClosed.
Inductive ReceiveOutcome := Response (answer : iresult IpnsPublication) | SenderDropped.
Definition publish_manifest_cid_inner (publish_timeout : Z) (sent : option SendOutcome) (received : option ReceiveOutcome) : iresult IpnsPublication :=
  match sent with
  | None => Err (Timeout publish_timeout)
  | Some ChannelClosed => Err PublisherUnavailable
  | Some Sent =>
      match received with
      | None => Err (Timeout publish_timeout)
      | Some SenderDropped => Err PublisherResponseDropped
      | Some (Response answer) => answer
      end
  end.

Definition retry_delay (attempts_started : Z) : Z :=
  let index := Z.min (saturating_sub attempts_started 1) (Z.of_nat (length IPNS_PUBLISH_RETRY_DELAYS) - 1) in
  IPNS_PUBLISH_RETRY_DELAYS !!! Z.to_nat index.

Definition next_retry_at m r : option Z :=
  let now := m_now m in
  if is_closed m r || is_expired r now then None
  else
    let remaining := deadline r - now in
    if bool_decide (remaining ≤ IPNS_MIN_RETRY_REMAINING) then None
    else
      let delay := retry_delay (attempts_started r) in
      let max_delay := saturating_sub remaining IPNS_MIN_RETRY_REMAINING in
      Some (now + Z.min delay max_delay).

Definition earliest_instant (current : option Z) (candidate : Z) : Z :=
  match current with Some current => Z.min current candidate | None => candidate end.

(** ** The task *)
Definition set_pending pending st : Task M := mkTask pending (active st) (bootstrap_completed st) (outcomes st) (calls st).
Definition set_active active st : Task M := mkTask (pending st) active (bootstrap_completed st) (outcomes st) (calls st).
Definition add_outcome outcome st : Task M := mkTask (pending st) (active st) (bootstrap_completed st) (outcomes st ++ [outcome]) (calls st).
Definition add_calls new st : Task M := mkTask (pending st) (active st) (bootstrap_completed st) (outcomes st) (calls st ++ new).
Definition set_bootstrap_completed st : Task M := mkTask (pending st) (active st) true (outcomes st) (calls st).
Definition respond r (answer : iresult IpnsPublication) st : Task M := add_outcome (Answered r answer) st.

(** [discard_unpublishable_pending]: [queue] is what is left to pop *)
Fixpoint discard_loop m (queue retained : list PublishRequest) st : Task M :=
  match queue with
  | [] => set_pending retained st
  | r :: queue =>
      if is_closed m r then discard_loop m queue retained (add_outcome (Dropped r) st)
      else if is_expired r (m_now m) then discard_loop m queue retained (respond r (Err (Timeout (timeout r))) st)
      else discard_loop m queue (retained ++ [r]) st
  end.
Definition discard_unpublishable_pending m st : Task M := discard_loop m (pending st) [] st.

Definition has_enough_connected_peers_for_publish m (bootstrap_completed : bool) : bool :=
  if bootstrap_completed then bool_decide (0 < m_peers m) else bool_decide (IPNS_MIN_CONNECTED_PEERS_FOR_PUBLISH ≤ m_peers m).

Definition maybe_start_publish keypair config m st : Task M :=
  let st := discard_unpublishable_pending m st in
  match active st, pending st with
  | Some _, _ | None, [] => st
  | None, front :: queue =>
      if negb (has_enough_connected_peers_for_publish m (bootstrap_completed st)) then st
      else if bool_decide (m_now m < not_before front) then st
      else
        let st := set_pending queue st in
        let request := with_attempts (saturating_add (2 ^ 32 - 1) (attempts_started front) 1) front in
        match build_signed_record (m_now m) keypair (manifest_cid request) (record_lifetime config) (record_ttl config) (sequence request) with
        | Err error => respond request (Err error) st
        | Ok signed =>
            match m_put m with
            | None => respond request (Err StoreError) st
            | Some query_id =>
                set_active (Some (mkActive query_id request
                    (mkPublication (sr_peer_id signed) (sr_ipns_name signed) (sr_value signed) (sr_sequence signed))))
                  (add_calls [PutRecord (mkPut query_id request signed)] st)
            end
        end
  end.

Definition expire_active_publish (now : Z) st : Task M :=
  match active st with
  | Some publish =>
      if may_expire_while_active (request publish) now
      then respond (request publish) (Err (Timeout (timeout (request publish)))) (set_active None st)
      else st
  | None => st
  end.

(** The dials before a peer without an id, and whether there is one. *)
Fixpoint dial_bootstrap_peers (peers : list M) : list (SwarmCall M) * iresult unit :=
  match peers with
  | [] => ([], Ok tt)
  | addr :: peers =>
      match peer_id_from_addr addr with
      | Err e => ([], Err e)
      | Ok _ => let '(dials, res) := dial_bootstrap_peers peers in (Dial addr :: dials, res)
      end
  end.
Definition start_bootstrap st : Task M := add_calls [Bootstrap] st.
(** Both calls, where a failed dial is returned *)
Definition redial config st : iresult unit * Task M :=
  let '(dials, res) := dial_bootstrap_peers (bootstrap_peers config) in
  match res with
  | Ok _ => (Ok tt, start_bootstrap (add_calls dials st))
  | Err e => (Err e, add_calls dials st)
  end.

(** [handle_swarm_event]: [m] is the time of the event, [m'] that of the
    following [maybe_start_publish]. *)
Definition handle_swarm_event keypair config (event : SwarmEvent) m m' st : Task M :=
  match event with
  | PutRecordProgressed id ok =>
      match active st with
      | Some publish =>
          if bool_decide (query_id publish = id) then
            let st := set_active None st in
            let st :=
              if ok then respond (request publish) (Ok (publication publish)) st
              else if is_expired (request publish) (m_now m) then respond (request publish) (Err (Timeout (timeout (request publish)))) st
              else match next_retry_at m (request publish) with
              | Some retry_at =>
                  let st := set_pending (with_not_before retry_at (request publish) :: pending st) st in
                  start_bootstrap (add_calls (fst (dial_bootstrap_peers (bootstrap_peers config))) st)
              | None => respond (request publish) (Err PutRecordError) st
              end in
            maybe_start_publish keypair config m' st
          else st
      | None => st
      end
  | BootstrapProgressed ok last =>
      if ok && last then maybe_start_publish keypair config m' (set_bootstrap_completed st) else st
  | ConnectionEstablished => maybe_start_publish keypair config m' st
  | ConnectionClosed | OutgoingConnectionError | OtherSwarmEvent => st
  end.

Fixpoint pending_wake m (queue : list PublishRequest) (wake : option Z) : option Z :=
  match queue with
  | [] => wake
  | r :: queue => pending_wake m queue (if is_closed m r then wake else Some (earliest_instant wake (deadline r)))
  end.
Definition next_publish_wake m st : option Z :=
  let wake := match active st with
    | Some publish => if canonicality_lease (request publish) then None else Some (deadline (request publish))
    | None => None
    end in
  let wake := pending_wake m (pending st) wake in
  match pending st with
  | front :: _ =>
      if negb (is_closed m front) && bool_decide (m_now m < not_before front)
      then Some (earliest_instant wake (not_before front)) else wake
  | [] => wake
  end.

(** The branch [select!] takes, with the moments its handler reads. *)
Inductive Select :=
  | ShutdownChanged (result_is_err shutdown : bool)
  | Woken
  | BootstrapTick
  | Received (request : option PublishRequest) (m : Moment)
  | SwarmEvents (event : SwarmEvent) (m m' : Moment).

(** An iteration goes on or leaves [run]. *)
Inductive Flow := Continue | Return (res : iresult unit).
Definition flow_of (res : iresult unit) : Flow := match res with Ok _ => Continue | Err e => Return (Err e) end.

(** The top of the loop, before [select!]. *)
Definition loop_top keypair config m st : Task M :=
  maybe_start_publish keypair config m (expire_active_publish (m_now m) st).

Definition select_branch keypair config (branch : Select) st : Flow * Task M :=
  match branch with
  | ShutdownChanged is_err shutdown => (if is_err || shutdown then Return (Ok tt) else Continue, st)
  | Woken => (Continue, st)
  | BootstrapTick => let '(res, st) := redial config st in (flow_of res, st)
  | Received None _ => (Return (Ok tt), st)
  | Received (Some r) m =>
      let st := set_pending (pending st ++ [r]) st in
      if negb (has_enough_connected_peers_for_publish m (bootstrap_completed st))
      then let '(res, st) := redial config st in (flow_of res, st)
      else (Continue, st)
  | SwarmEvents event m m' => (Continue, handle_swarm_event keypair config event m m' st)
  end.

Definition iteration keypair config (shutdown : bool) m (branch : Select) st : Flow * Task M :=
  if shutdown then (Return (Ok tt), st)
  else select_branch keypair config branch (loop_top keypair config m st).

(** [add_bootstrap_addresses] and [build_swarm] *)
Definition add_bootstrap_addresses config : iresult unit :=
  try_fold (λ _ addr, _ ← peer_id_from_addr addr; Ok tt) tt (bootstrap_peers config).
Definition build_swarm keypair config : iresult unit :=
  _ ← (if transport_dns then Ok tt else Err DnsError);
  _ ← (if transport_noise keypair then Ok tt else Err NoiseError);
  add_bootstrap_addresses config.

(** The part of [run] before its loop; [None] is the return on a shutdown. *)
Definition run_start keypair config (shutdown : bool) : option (iresult (Task M)) :=
  if shutdown then None
  else Some (
    _ ← build_swarm keypair config;
    let '(res, st) := redial config (mkTask [] None false [] []) in
    _ ← res;
    _ ← ipns_name (keypair_peer_id keypair);
    Ok st).

(** [run] over the branches its loop takes; out of branches, it still runs. *)
Fixpoint run_loop keypair config (script : list (bool * Moment * Select)) st : Flow * Task M :=
  match script with
  | [] => (Continue, st)
  | (shutdown, m, branch) :: script =>
      match iteration keypair config shutdown m branch st with
      | (Continue, st) => run_loop keypair config script st
      | (Return res, st) => (Return res, st)
      end
  end.

(** ** Clients *)
Record IpnsPublisher := mkPublisher { ip_peer_id : PeerId; ip_ipns_name : text; ip_publish_timeout : Z }.
Definition from_identity_keypair keypair config : iresult IpnsPublisher :=
  let peer_id := keypair_peer_id keypair in
  name ← ipns_name peer_id;
  Ok (mkPublisher peer_id name (publish_timeout config)).
Definition new_publisher (signing_key : octets) config : iresult IpnsPublisher :=
  keypair ← identity_keypair_from_signing_key signing_key; from_identity_keypair keypair config.
Definition new_v4_poi (signing_key : octets) config : iresult IpnsPublisher :=
  keypair ← identity_keypair_from_v4_poi_signing_key signing_key; from_identity_keypair keypair config.
Definition validate_publisher_identities (v4_poi chain_indexed : IpnsPublisher) : iresult unit :=
  if bool_decide (ip_peer_id v4_poi = ip_peer_id chain_indexed)
  then Err (PublisherIdentityCollision (ip_peer_id v4_poi)) else Ok tt.

(** ** Resolving *)
Inductive GetRecordEvent :=
  | FoundRecord (key value : octets)
  | FinishedWithNoAdditionalRecord
  | GetRecordFailed
  | OtherResolverEvent.
(** The loop of [resolve_record] over the events of its query; [None]: it
    still waits. *)
Fixpoint resolve_events (record_key : octets) (peer_id : PeerId) (events : list GetRecordEvent) : option (iresult text) :=
  match events with
  | [] => None
  | FoundRecord key value :: events =>
      if bool_decide (key = record_key) then Some (decode_manifest_cid value peer_id)
      else resolve_events record_key peer_id events
  | FinishedWithNoAdditionalRecord :: _ => Some (Err ResolveNoRecord)
  | GetRecordFailed :: _ => Some (Err GetRecordError)
  | OtherResolverEvent :: events => resolve_events record_key peer_id events
  end.
Definition resolve_record (resolver : K) (peer_id : PeerId) config (events : list GetRecordEvent) : option (iresult text) :=
  match build_swarm resolver config with
  | Err e => Some (Err e)
  | Ok _ =>
      match snd (dial_bootstrap_peers (bootstrap_peers config)) with
      | Err e => Some (Err e)
      | Ok _ => resolve_events (ipns_record_key_bytes peer_id) peer_id events
      end
  end.
(** [resolve_manifest_cid]: the events until its timeout *)
Definition resolve_manifest_cid (resolver : K) (peer_id : PeerId) config (events : list GetRecordEvent) : iresult text :=
  default (Err (Timeout (publish_timeout config))) (resolve_record resolver peer_id config events).
End publisher.
End Ipns.
