(* ===== verification/IpnsProtocol.v ===== *)
(** * The queue protocol of the IPNS publisher

    The task of [publish/ipns.rs] as a protocol: each effect on a request is
    one action, and a run of the task is a sequence of actions in time. *)

From S2P Require Import Prelude Wire Ipfs Artifacts ChainLogs PoiStore ChainStore StoreQueries Config Ipns.

Module IpnsProtocol.
Import Cfg Ipns.

(** ** What a run is given *)
(** Time goes on and a receiver that is gone stays gone. *)
Definition later (m m' : Moment) : Prop := m_now m ≤ m_now m' ∧ m_closed m ⊆ m_closed m'.

#[export] Instance later_preorder : PreOrder later.
Proof.
  split; [intros m; unfold later; split; [lia|done]|].
  intros m1 m2 m3 [? ?] [? ?]. split; [lia|set_solver].
Qed.

(** One round of the loop: the shutdown flag, the moment of its top and the
    branch of [select!]. *)
Abbreviation round := (bool * Moment * Select)%type.
Definition branch_moments (branch : Select) : list Moment :=
  match branch with
  | Received _ m => [m]
  | SwarmEvents _ m m' => [m; m']
  | _ => []
  end.
Definition round_moments (l : round) : list Moment := l.1.2 :: branch_moments l.2.
Definition round_received (l : round) : list (PublishRequest * Moment) :=
  match l.2 with Received (Some r) m => [(r, m)] | _ => [] end.
(** The queries Kademlia reports on, and those it reports as stored. *)
Definition round_finished (l : round) : list QueryId :=
  match l.2 with SwarmEvents (PutRecordProgressed id _) _ _ => [id] | _ => [] end.
Definition round_acked (l : round) : list QueryId :=
  match l.2 with SwarmEvents (PutRecordProgressed id true) _ _ => [id] | _ => [] end.

Definition moments (script : list round) : list Moment := concat (round_moments <$> script).
Definition received (script : list round) : list PublishRequest := (concat (round_received <$> script)).*1.
Definition finished (script : list round) : list QueryId := concat (round_finished <$> script).
Definition acked (script : list round) : list QueryId := concat (round_acked <$> script).

(** A client made the request, with the publisher's timeout, before it is
    received. *)
Definition made (publish_timeout : Z) (received : PublishRequest * Moment) : Prop :=
  ∃ cid sequence channel lease now now', now ≤ now' ≤ m_now received.2 ∧
    received.1 = new_request publish_timeout cid sequence channel lease now now'.

(** Time goes on, Kademlia's query ids are new, and the requests are made by
    clients with channels of their own. *)
Record script_ok (publish_timeout : Z) (script : list round) : Prop := {
  ok_time : Sorted later (moments script);
  ok_queries : NoDup (omap m_put (moments script));
  ok_made : Forall (made publish_timeout) (concat (round_received <$> script));
  ok_channels : NoDup (response <$> received script) }.

(** ** The actions *)
(** What does not change while a request is retried. *)
Definition core (r : PublishRequest) := (manifest_cid r, sequence r, timeout r, deadline r, response r, canonicality_lease r).

Record Ghost := mkGhost { g_received : list PublishRequest; g_finished : list QueryId; g_acked : list QueryId }.
Definition finish (id : QueryId) (ok : bool) (g : Ghost) : Ghost :=
  mkGhost (g_received g) (g_finished g ++ [id]) (g_acked g ++ (if ok then [id] else [])).

Definition call_put {M} (c : SwarmCall M) : option Put := match c with PutRecord p => Some p | _ => None end.
Definition puts {M} (st : Task M) : list Put := omap call_put (calls st).
Definition outcome_request (o : Outcome) : PublishRequest := match o with Answered r _ => r | Dropped r => r end.

Section protocol.
Context {M K R : Type} `{Crates : IpnsCrates M K R}.
Context (keypair : K) (config : IpnsPublisherConfig M).
Implicit Types (st : Task M) (m : Moment) (r : PublishRequest) (g : Ghost).

Definition start_active (q : QueryId) r (signed : SignedIpnsRecord) : ActivePublish :=
  mkActive q r (mkPublication (sr_peer_id signed) (sr_ipns_name signed) (sr_value signed) (sr_sequence signed)).
Definition next_attempt r : PublishRequest := with_attempts (saturating_add (2 ^ 32 - 1) (attempts_started r) 1) r.
Definition signed_at (t : Z) r : iresult SignedIpnsRecord :=
  build_signed_record t keypair (manifest_cid r) (record_lifetime config) (record_ttl config) (sequence r).

Inductive act m : Task M * Ghost → Task M * Ghost → Prop :=
  | act_receive st g r : made (publish_timeout config) (r, m) → response r ∉ response <$> g_received g →
      act m (st, g) (set_pending (pending st ++ [r]) st, mkGhost (g_received g ++ [r]) (g_finished g) (g_acked g))
  | act_cancel st g l1 r l2 : response r ∈ m_closed m →
      act m (set_pending (l1 ++ r :: l2) st, g) (set_pending (l1 ++ l2) (add_outcome (Dropped r) st), g)
  | act_expire st g l1 r l2 : deadline r ≤ m_now m →
      act m (set_pending (l1 ++ r :: l2) st, g) (set_pending (l1 ++ l2) (respond r (Err (Timeout (timeout r))) st), g)
  | act_reject st g r l e : active st = None → not_before r ≤ m_now m < deadline r → (∀ d, e ≠ Timeout d) →
      act m (set_pending (r :: l) st, g) (respond (next_attempt r) (Err e) (set_pending l st), g)
  | act_start st g r l q signed : active st = None → not_before r ≤ m_now m < deadline r →
      signed_at (m_now m) r = Ok signed → q ∉ put_query <$> puts st →
      act m (set_pending (r :: l) st, g)
        (set_active (Some (start_active q (next_attempt r) signed)) (add_calls [PutRecord (mkPut q (next_attempt r) signed)] (set_pending l st)), g)
  | act_expire_active st g a : canonicality_lease (request a) = false → deadline (request a) ≤ m_now m →
      act m (set_active (Some a) st, g) (respond (request a) (Err (Timeout (timeout (request a)))) (set_active None st), g)
  | act_stored st g a :
      act m (set_active (Some a) st, g) (respond (request a) (Ok (publication a)) (set_active None st), finish (query_id a) true g)
  | act_failed st g a e : (∀ d, e = Timeout d → d = timeout (request a) ∧ deadline (request a) ≤ m_now m) →
      act m (set_active (Some a) st, g) (respond (request a) (Err e) (set_active None st), finish (query_id a) false g)
  | act_retry st g a t : next_retry_at m (request a) = Some t →
      act m (set_active (Some a) st, g)
        (set_active None (set_pending (with_not_before t (request a) :: pending st) st), finish (query_id a) false g)
  | act_foreign st g id ok : (∀ a, active st = Some a → query_id a ≠ id) → act m (st, g) (st, finish id ok g)
  | act_swarm st g new : omap call_put new = [] → act m (st, g) (add_calls new st, g)
  | act_bootstrapped st g : act m (st, g) (set_bootstrap_completed st, g).

(** Actions in time. *)
Definition step (s s' : Task M * Ghost * Moment) : Prop := later s.2 s'.2 ∧ act s'.2 s.1 s'.1.

Lemma acts_at m s s' : act m s s' → rtc step (s, m) (s', m).
Proof. intros. apply rtc_once. by split. Qed.

(** ** The functions of the task are sequences of actions *)
Lemma discard_loop_acts m queue retained st g :
  rtc step (set_pending (retained ++ queue) st, g, m) (discard_loop m queue retained st, g, m).
Proof.
  revert retained st. induction queue as [|r queue IH]; intros retained st; cbn.
  { rewrite app_nil_r. done. }
  unfold is_closed, is_expired. case_bool_decide as Hc; [|case_bool_decide as He].
  - etrans; [apply acts_at, act_cancel, Hc|]. apply IH.
  - etrans; [apply acts_at, act_expire, He|]. apply IH.
  - rewrite cons_middle, app_assoc. apply IH.
Qed.

Lemma set_pending_id st : set_pending (pending st) st = st.
Proof. by destruct st. Qed.
Lemma set_active_id st : set_active (active st) st = st.
Proof. by destruct st. Qed.

Lemma discard_acts m st g : rtc step (st, g, m) (discard_unpublishable_pending m st, g, m).
Proof. rewrite <- (set_pending_id st) at 1. apply (discard_loop_acts m (pending st) [] st). Qed.

Definition alive m r : Prop := response r ∉ m_closed m ∧ m_now m < deadline r.
#[export] Instance alive_dec m r : Decision (alive m r).
Proof. unfold alive. apply _. Defined.

Lemma discard_loop_spec m queue retained st :
  let st' := discard_loop m queue retained st in
  pending st' = retained ++ filter (alive m) queue ∧ active st' = active st ∧ calls st' = calls st ∧
  bootstrap_completed st' = bootstrap_completed st.
Proof.
  revert retained st. induction queue as [|r queue IH]; intros retained st; [cbn; by rewrite app_nil_r|].
  cbn [discard_loop]. unfold is_closed, is_expired. rewrite filter_cons. case_bool_decide as Hc; [|case_bool_decide as He].
  - rewrite decide_False by (intros []; done). apply (IH retained (add_outcome (Dropped r) st)).
  - rewrite decide_False by (intros []; lia). apply (IH retained (respond r (Err (Timeout (timeout r))) st)).
  - rewrite decide_True by (split; [done|lia]). destruct (IH (retained ++ [r]) st) as (-> & H). rewrite <- app_assoc. done.
Qed.

Lemma discard_spec m st :
  let st' := discard_unpublishable_pending m st in
  pending st' = filter (alive m) (pending st) ∧ active st' = active st ∧ calls st' = calls st ∧
  bootstrap_completed st' = bootstrap_completed st.
Proof. apply (discard_loop_spec m (pending st) [] st). Qed.

Lemma build_error_not_timeout t r e : signed_at t r = Err e → ∀ d, e ≠ Timeout d.
Proof.
  unfold signed_at, build_signed_record, manifest_ipfs_path, duration_nanos, ipns_name, ok_or.
  intros H d ->. cbn in H. repeat (case_match; cbn in H; try discriminate).
Qed.

Definition put_queries st : list QueryId := put_query <$> puts st.
Definition offered m : list QueryId := option_list (m_put m).

Lemma maybe_start_acts m st g : NoDup (put_queries st ++ offered m) →
  rtc step (st, g, m) (maybe_start_publish keypair config m st, g, m) ∧
  put_queries (maybe_start_publish keypair config m st) `sublist_of` put_queries st ++ offered m.
Proof.
  intros Hfresh. pose proof (discard_acts m st g) as Hacts. destruct (discard_spec m st) as (Hp & Ha & Hc & _).
  unfold maybe_start_publish. remember (discard_unpublishable_pending m st) as st1 eqn:E1. clear E1.
  assert (put_queries st1 = put_queries st) as Hq by (unfold put_queries, puts; by rewrite Hc).
  assert (put_queries st1 `sublist_of` put_queries st ++ offered m) as Hsub by (rewrite Hq; apply sublist_inserts_r; done).
  destruct (active st1) as [a|] eqn:Hact; [done|]. destruct (pending st1) as [|r l] eqn:Hpend; [done|].
  assert (alive m r) as [_ Halive].
  { assert (r ∈ filter (alive m) (pending st)) as Hr by (rewrite <- Hp; by left). by apply list_elem_of_filter in Hr as [? _]. }
  case_match; [done|]. case_bool_decide as Hnb; [done|].
  rewrite <- (set_pending_id st1), Hpend in Hacts. cbn zeta.
  change (build_signed_record _ _ _ _ _ _) with (signed_at (m_now m) r).
  destruct (signed_at (m_now m) r) as [signed|e] eqn:Hs.
  - destruct (m_put m) as [q|] eqn:Hput.
    + unfold offered in *. rewrite Hput in Hfresh, Hsub |- *. cbn in *. split.
      * etrans; [exact Hacts|]. apply acts_at, act_start; [done|lia|done|]. change (q ∉ put_queries st1). rewrite Hq.
        apply NoDup_app in Hfresh as (_ & Hd & _). intros Hin. apply (Hd q Hin). by left.
      * unfold put_queries, puts in *. cbn. rewrite omap_app, fmap_app. cbn. by rewrite Hq.
    + split; [|exact Hsub]. etrans; [exact Hacts|]. apply acts_at, act_reject; [done|lia|]. discriminate.
  - split; [|exact Hsub]. etrans; [exact Hacts|]. apply acts_at, act_reject; [done|lia|]. by eapply build_error_not_timeout.
Qed.

Lemma expire_active_acts m st g :
  rtc step (st, g, m) (expire_active_publish (m_now m) st, g, m) ∧
  put_queries (expire_active_publish (m_now m) st) = put_queries st.
Proof.
  unfold expire_active_publish, may_expire_while_active, is_expired. destruct (active st) as [a|] eqn:Ha; [|done].
  destruct (canonicality_lease (request a)) eqn:Hl; [done|]. cbn. case_bool_decide; [|done].
  split; [|done]. rewrite <- (set_active_id st) at 1. rewrite Ha. by apply acts_at, act_expire_active.
Qed.

Lemma dials_no_put peers : omap call_put (fst (dial_bootstrap_peers peers)) = [].
Proof.
  induction peers as [|addr peers IH]; [done|]. cbn. destruct (peer_id_from_addr addr); [|done].
  by destruct (dial_bootstrap_peers peers).
Qed.

Lemma add_swarm_acts m st g new : omap call_put new = [] →
  rtc step (st, g, m) (add_calls new st, g, m) ∧ put_queries (add_calls new st) = put_queries st.
Proof.
  intros H. split; [by apply acts_at, act_swarm|]. unfold put_queries, puts. cbn. by rewrite omap_app, H, app_nil_r.
Qed.

Lemma dial_and_bootstrap_acts m st g :
  let st' := start_bootstrap (add_calls (fst (dial_bootstrap_peers (bootstrap_peers config))) st) in
  rtc step (st, g, m) (st', g, m) ∧ put_queries st' = put_queries st.
Proof.
  cbn zeta. destruct (add_swarm_acts m st g _ (dials_no_put (bootstrap_peers config))) as [H1 H2].
  destruct (add_swarm_acts m (add_calls (fst (dial_bootstrap_peers (bootstrap_peers config))) st) g [Bootstrap] eq_refl) as [H3 H4].
  split; [by etrans|]. unfold start_bootstrap. by rewrite H4.
Qed.

Lemma redial_acts m st g :
  rtc step (st, g, m) ((redial config st).2, g, m) ∧ put_queries (redial config st).2 = put_queries st.
Proof.
  unfold redial. pose proof (dials_no_put (bootstrap_peers config)) as Hd.
  pose proof (dial_and_bootstrap_acts m st g) as Hb. cbn zeta in Hb.
  destruct (dial_bootstrap_peers (bootstrap_peers config)) as [dials [[]|e]]; [exact Hb|]. by apply add_swarm_acts.
Qed.

Lemma pass_time s m m' : later m m' → rtc step (s, m) (s, m').
Proof.
  intros Hl. destruct s as [st g]. apply rtc_once. split; [done|]. cbn.
  replace st with (add_calls (M:=M) [] st) at 2 by (destruct st; unfold add_calls; cbn; by rewrite app_nil_r). by apply act_swarm.
Qed.
Definition event_ghost (event : SwarmEvent) g : Ghost :=
  match event with PutRecordProgressed id ok => finish id ok g | _ => g end.

(** The put of the active request ended: an answer or a retry. *)
Lemma put_progressed_acts m st g a (ok : bool) :
  let st0 := set_active None st in
  let st' := if ok then respond (request a) (Ok (publication a)) st0
    else if is_expired (request a) (m_now m) then respond (request a) (Err (Timeout (timeout (request a)))) st0
    else match next_retry_at m (request a) with
         | Some retry_at =>
             start_bootstrap (add_calls (fst (dial_bootstrap_peers (bootstrap_peers config)))
               (set_pending (with_not_before retry_at (request a) :: pending st0) st0))
         | None => respond (request a) (Err PutRecordError) st0
         end in
  rtc step (set_active (Some a) st, g, m) (st', finish (query_id a) ok g, m) ∧ put_queries st' = put_queries st.
Proof.
  cbn zeta. destruct ok; [split; [apply acts_at, act_stored|done]|].
  unfold is_expired. case_bool_decide as He.
  { split; [|done]. apply acts_at, act_failed. intros d [= <-]. done. }
  destruct (next_retry_at m (request a)) as [t|] eqn:Hr.
  - destruct (dial_and_bootstrap_acts m (set_active None (set_pending (with_not_before t (request a) :: pending st) st))
      (finish (query_id a) false g)) as [H1 H2].
    split; [|exact H2]. etrans; [by apply acts_at, act_retry|]. exact H1.
  - split; [|done]. apply acts_at, act_failed. discriminate.
Qed.

Lemma handle_swarm_event_acts event m m' st g : later m m' → NoDup (put_queries st ++ offered m') →
  let st' := handle_swarm_event keypair config event m m' st in
  rtc step (st, g, m) (st', event_ghost event g, m') ∧ put_queries st' `sublist_of` put_queries st ++ offered m'.
Proof.
  intros Hl Hn. cbn zeta. assert (put_queries st `sublist_of` put_queries st ++ offered m') as Hsub by (by apply sublist_inserts_r).
  destruct event as [id ok|ok last| | | |]; cbn [handle_swarm_event event_ghost]; try (split; [by apply pass_time|done]).
  - assert ((∀ a, active st = Some a → query_id a ≠ id) →
      rtc step (st, g, m) (st, finish id ok g, m') ∧ put_queries st `sublist_of` put_queries st ++ offered m') as Hforeign.
    { intros Hf. split; [|done]. etrans; [by apply pass_time|]. by apply acts_at, act_foreign. }
    destruct (active st) as [a|] eqn:Ha; [|by apply Hforeign].
    case_bool_decide as Hid; [|apply Hforeign; by intros ? [= <-]]. subst id. clear Hforeign.
    destruct (put_progressed_acts m st g a ok) as [H1 H2]. rewrite <- Ha, set_active_id in H1.
    destruct (maybe_start_acts m' _ (finish (query_id a) ok g) ltac:(rewrite H2; exact Hn)) as [H3 H4].
    rewrite H2 in H4. split; [|exact H4]. etrans; [exact H1|]. etrans; [by apply pass_time|]. exact H3.
  - destruct (ok && last); [|split; [by apply pass_time|done]].
    destruct (maybe_start_acts m' (set_bootstrap_completed st) g Hn) as [H1 H2]. split; [|exact H2].
    etrans; [by apply pass_time|]. etrans; [apply acts_at, act_bootstrapped|]. exact H1.
  - destruct (maybe_start_acts m' st g Hn) as [H1 H2]. split; [|exact H2]. etrans; [by apply pass_time|]. exact H1.
Qed.

Lemma loop_top_acts m st g : NoDup (put_queries st ++ offered m) →
  rtc step (st, g, m) (loop_top keypair config m st, g, m) ∧ put_queries (loop_top keypair config m st) `sublist_of` put_queries st ++ offered m.
Proof.
  intros Hn. destruct (expire_active_acts m st g) as [H1 H2].
  destruct (maybe_start_acts m (expire_active_publish (m_now m) st) g ltac:(by rewrite H2)) as [H3 H4].
  rewrite H2 in H4. split; [by etrans|done].
Qed.

Definition round_ghost (l : round) g : Ghost :=
  mkGhost (g_received g ++ (round_received l).*1) (g_finished g ++ round_finished l) (g_acked g ++ round_acked l).

Lemma ghost_nil g : mkGhost (g_received g ++ []) (g_finished g ++ []) (g_acked g ++ []) = g.
Proof. destruct g. cbn. by rewrite !app_nil_r. Qed.

Lemma select_branch_acts shutdown top branch m st g :
  Sorted later (m :: branch_moments branch) → NoDup (put_queries st ++ omap m_put (branch_moments branch)) →
  Forall (made (publish_timeout config)) (round_received (shutdown, top, branch)) →
  NoDup (response <$> g_received g ++ (round_received (shutdown, top, branch)).*1) →
  let st' := (select_branch keypair config branch st).2 in
  rtc step (st, g, m) (st', round_ghost (shutdown, top, branch) g, List.last (branch_moments branch) m) ∧
  put_queries st' `sublist_of` put_queries st ++ omap m_put (branch_moments branch).
Proof.
  intros Hs Hq Hm Hc. cbn zeta. unfold round_ghost.
  destruct branch as [e b| | |[r|] m1|event m1 m2]; cbn [round_received round_finished round_acked fst snd branch_moments List.last select_branch] in *;
    rewrite ?fmap_nil, ?ghost_nil.
  - by destruct (e || b); rewrite app_nil_r.
  - by rewrite app_nil_r.
  - cbn. destruct (redial_acts m st g) as [H1 H2]. destruct (redial config st). cbn in *. rewrite H2, app_nil_r. done.
  - inversion_clear Hs as [|?? _ Hl]. inversion_clear Hl as [|?? Hl']. inversion_clear Hm as [|?? Hmade _].
    rewrite (app_nil_r (g_finished g)), (app_nil_r (g_acked g)). cbn [fmap list_fmap fst snd].
    set (st1 := set_pending (pending st ++ [r]) st). set (g1 := mkGhost _ _ _).
    assert (rtc step (st, g, m) (st1, g1, m1)) as Hrecv.
    { etrans; [by apply pass_time|]. apply acts_at, act_receive; [done|]. cbn in Hc. rewrite fmap_app in Hc.
      apply NoDup_app in Hc as (_ & Hd & _). intros Hin. apply (Hd _ Hin). cbn. by left. }
    assert (put_queries st `sublist_of` put_queries st ++ omap m_put [m1]) as Hsub by (by apply sublist_inserts_r).
    destruct (negb _); [|split; [exact Hrecv|exact Hsub]].
    destruct (redial_acts m1 st1 g1) as [H1 H2]. destruct (redial config st1) as [res st2]. cbn [snd] in *.
    split; [by etrans|]. rewrite H2. exact Hsub.
  - inversion_clear Hs as [|?? _ Hl]. inversion_clear Hl. split; [by apply pass_time|by apply sublist_inserts_r].
  - inversion_clear Hs as [|?? Hs' Hl]. inversion_clear Hl as [|?? Hl1]. inversion_clear Hs' as [|?? _ Hl]. inversion_clear Hl as [|?? Hl2].
    assert (NoDup (put_queries st ++ offered m2)) as Hq2.
    { eapply sublist_NoDup; [exact Hq|]. cbn. apply sublist_app; [done|]. unfold offered. destruct (m_put m1), (m_put m2); cbn; repeat constructor. }
    destruct (handle_swarm_event_acts event m1 m2 st g Hl2 Hq2) as [H1 H2].
    replace (mkGhost _ _ _) with (event_ghost event g).
    2:{ destruct event as [id []| | | | |], g; unfold event_ghost, finish, round_finished, round_acked; cbn; rewrite ?app_nil_r; reflexivity. }
    split; [etrans; [by apply pass_time|exact H1]|]. etrans; [exact H2|]. apply sublist_app; [done|].
    unfold offered. cbn. destruct (m_put m1), (m_put m2); cbn; repeat constructor.
Qed.
Lemma last_of_cons (l : list Moment) m d : List.last (m :: l) d = List.last l m.
Proof. revert m d. induction l as [|m1 l IH]; intros m d; [done|]. change (List.last (m1 :: l) d = List.last (m1 :: l) m). by rewrite !IH. Qed.

Lemma last_of_app (l1 l2 : list Moment) m : List.last (l1 ++ l2) m = List.last l2 (List.last l1 m).
Proof. revert m. induction l1 as [|m1 l1 IH]; intros m; [done|]. cbn [app]. by rewrite !last_of_cons, IH. Qed.

(** One round, then a run: [run_loop] is a sequence of actions. *)
Lemma iteration_acts top branch m st g :
  Sorted later (m :: round_moments (false, top, branch)) → NoDup (put_queries st ++ omap m_put (round_moments (false, top, branch))) →
  Forall (made (publish_timeout config)) (round_received (false, top, branch)) →
  NoDup (response <$> g_received g ++ (round_received (false, top, branch)).*1) →
  let st' := (iteration keypair config false top branch st).2 in
  rtc step (st, g, m) (st', round_ghost (false, top, branch) g, List.last (round_moments (false, top, branch)) m) ∧
  put_queries st' `sublist_of` put_queries st ++ omap m_put (round_moments (false, top, branch)).
Proof.
  intros Hs Hq Hm Hc. cbn zeta. unfold iteration. change (round_moments (false, top, branch)) with (top :: branch_moments branch) in *.
  inversion_clear Hs as [|?? Hs' Hl]. inversion_clear Hl as [|?? Hl'].
  assert (omap m_put (top :: branch_moments branch) = offered top ++ omap m_put (branch_moments branch)) as Hsplit.
  { unfold offered. cbn. by destruct (m_put top). }
  rewrite Hsplit, app_assoc in Hq |- *. assert (NoDup (put_queries st ++ offered top)) as Hq1 by (by apply NoDup_app in Hq as (? & _)).
  destruct (loop_top_acts top st g Hq1) as [H1 H2].
  assert (NoDup (put_queries (loop_top keypair config top st) ++ omap m_put (branch_moments branch))) as Hq2.
  { eapply sublist_NoDup; [exact Hq|]. by apply sublist_app. }
  destruct (select_branch_acts false top branch top (loop_top keypair config top st) g Hs' Hq2 Hm Hc) as [H3 H4].
  replace (List.last (top :: branch_moments branch) m) with (List.last (branch_moments branch) top)
    by (by rewrite last_of_cons).
  split.
  - etrans; [by apply pass_time|]. etrans; [exact H1|]. exact H3.
  - etrans; [exact H4|]. by apply sublist_app.
Qed.

Definition script_ghost (script : list round) g : Ghost :=
  mkGhost (g_received g ++ received script) (g_finished g ++ finished script) (g_acked g ++ acked script).

Lemma moments_split (l1 l2 : list Moment) m : Sorted later (m :: l1 ++ l2) →
  Sorted later (m :: l1) ∧ Sorted later (List.last l1 m :: l2).
Proof.
  revert m. induction l1 as [|m1 l1 IH]; intros m Hs; [cbn in *; split; [repeat constructor|done]|].
  cbn [app] in Hs. inversion_clear Hs as [|?? Hs' Hl]. inversion_clear Hl. destruct (IH m1 Hs') as [H1 H2].
  split; [constructor; [exact H1|by constructor]|]. by rewrite last_of_cons.
Qed.

Lemma iteration_shutdown top branch st : (iteration keypair config true top branch st).1 ≠ Continue.
Proof. done. Qed.

Lemma run_loop_acts script m st g st' :
  Sorted later (m :: moments script) → NoDup (put_queries st ++ omap m_put (moments script)) →
  Forall (made (publish_timeout config)) (concat (round_received <$> script)) →
  NoDup (response <$> g_received g ++ received script) →
  run_loop keypair config script st = (Continue, st') →
  rtc step (st, g, m) (st', script_ghost script g, List.last (moments script) m).
Proof.
  revert m st g. induction script as [|[[shutdown top] branch] script IH]; intros m st g Hs Hq Hm Hc Hrun.
  { cbn in Hrun. simplify_eq. unfold script_ghost, received, finished, acked. cbn. by rewrite ghost_nil. }
  cbn [run_loop] in Hrun. destruct shutdown; [discriminate|].
  unfold moments, received in *. cbn [fmap list_fmap concat] in *. rewrite (fmap_app fst), app_assoc in Hc.
  apply moments_split in Hs as [Hs1 Hs2]. rewrite Forall_app in Hm. destruct Hm as [Hm1 Hm2]. rewrite omap_app, app_assoc in Hq.
  destruct (iteration_acts top branch m st g Hs1 ltac:(by apply NoDup_app in Hq as (? & _)) Hm1) as [H1 H2].
  { rewrite fmap_app in Hc. by apply NoDup_app in Hc as (? & _). }
  destruct (iteration keypair config false top branch st) as [[|res] st1]; [|discriminate]. cbn [snd] in *.
  pose proof (IH _ st1 (round_ghost (false, top, branch) g) Hs2) as H3.
  rewrite last_of_app. etrans; [exact H1|]. unfold script_ghost, round_ghost, received, finished, acked in *.
  cbn [g_received g_finished g_acked fmap list_fmap concat] in *. rewrite fmap_app, !app_assoc. apply H3; [|done|exact Hc|done].
  eapply sublist_NoDup; [exact Hq|]. by apply sublist_app.
Qed.
End protocol.
End IpnsProtocol.
