(* ===== verification/IpnsCorrect.v ===== *)
(** * Correctness of the IPNS publisher

    Invariants of the queue protocol and what they say of a run of the task of
    [publish/ipns.rs]: answers, the order of puts, leases, retries, deadlines;
    and reading a published record back. *)

From S2P Require Import Prelude Wire Ipfs Artifacts ChainLogs PoiStore ChainStore StoreQueries Config Ipns IpnsProtocol.

Module IpnsCorrect.
Import Cfg Ipns IpnsProtocol.

Definition pub_of (p : Put) : IpnsPublication :=
  mkPublication (sr_peer_id (put_record p)) (sr_ipns_name (put_record p)) (sr_value (put_record p)) (sr_sequence (put_record p)).

(** Rewrites a permutation of concatenations into a count of each element. *)
Ltac perm_count :=
  lazymatch goal with |- @Permutation ?T _ _ =>
    apply (Permutation_count_occ (decide_rel (=) : ∀ x y : T, {x = y} + {x ≠ y}));
    let x := fresh "x" in intros x;
    repeat match goal with H : @Permutation T _ _ |- _ =>
      let H' := fresh H in pose proof (proj1 (Permutation_count_occ (decide_rel (=) : ∀ x y : T, {x = y} + {x ≠ y}) _ _) H x) as H'; clear H end;
    repeat (rewrite !count_occ_app in * || cbn [count_occ app] in * ); repeat case_match; try lia
  end.

Lemma core_next_attempt r : core (next_attempt r) = core r.
Proof. done. Qed.
Lemma core_not_before t r : core (with_not_before t r) = core r.
Proof. done. Qed.

(** ** Backoff *)
Lemma retry_delay_eq k : retry_delay k = if decide (k ≤ 1) then nanos 2 else if decide (k = 2) then nanos 5 else nanos 10.
Proof.
  unfold retry_delay, saturating_sub. change (Z.of_nat (length IPNS_PUBLISH_RETRY_DELAYS) - 1) with 2.
  case_decide; [replace (Z.min _ _) with 0 by lia; done|].
  case_decide; [subst k; done|]. replace (Z.min _ _) with 2 by lia. done.
Qed.

(** The delays before attempt [n + 1]. *)
Fixpoint backoff (n : nat) : Z :=
  match n with O => 0 | S k => backoff k + retry_delay (Z.of_nat n) end.

Lemma backoff_mono n k : (n ≤ k)%nat → backoff n ≤ backoff k.
Proof.
  induction 1 as [|k _ IH]; [done|]. cbn [backoff]. rewrite retry_delay_eq. unfold nanos. repeat case_decide; lia.
Qed.

Lemma backoff_linear n : nanos (10 * Z.of_nat n - 13) ≤ backoff n.
Proof.
  unfold nanos. destruct n as [|[|n]]; [done|done|].
  induction n as [|n IH]; [vm_compute; discriminate|]. cbn [backoff] in *. rewrite (retry_delay_eq (Z.of_nat (S (S (S n))))).
  rewrite !decide_False by lia. unfold nanos. lia.
Qed.

Lemma retry_delay_saturates n : retry_delay (Z.min (2 ^ 32 - 1) n) = retry_delay n.
Proof. rewrite !retry_delay_eq. repeat case_decide; lia. Qed.

Section invariants.
Context {M K R : Type} `{Crates : IpnsCrates M K R}.
Context (keypair : K) (config : IpnsPublisherConfig M).
Implicit Types (st : Task M) (m : Moment) (r : PublishRequest) (g : Ghost).
Abbreviation act := (act keypair config).

(** ** Every request is in one place *)
(** Queued, in flight, or settled. *)
Definition held st : list PublishRequest :=
  pending st ++ option_list (request <$> active st) ++ (outcome_request <$> outcomes st).

Definition conserved (s : Task M * Ghost) : Prop :=
  core <$> g_received s.2 ≡ₚ core <$> held s.1 ∧ NoDup (response <$> g_received s.2).

Lemma act_conserved m s s' : act m s s' → conserved s → conserved s'.
Proof.
  unfold conserved, held. intros Hact [Hp Hn]. destruct Hact as [? ? ? ? Hfresh| | | | | | | | | | |]; cbn in *.
  { split; [|rewrite fmap_app; apply NoDup_app; split_and!; [done| |cbn; apply NoDup_singleton]].
    - rewrite !fmap_app in *. cbn in *. perm_count.
    - intros c Hc ->%list_elem_of_singleton. by apply Hfresh. }
  all: split; [|exact Hn].
  all: repeat match goal with H : active _ = None |- _ => rewrite H in *; clear H end; cbn in *.
  all: rewrite ?fmap_app in *; cbn in *; try exact Hp; rewrite ?fmap_app in *; cbn in *.
  all: rewrite ?core_next_attempt, ?core_not_before; perm_count.
Qed.

Lemma conserved_nodup s : conserved s → NoDup (response <$> held s.1).
Proof.
  intros [Hp Hn]. assert (∀ l, response <$> l = (λ c : text * Z * Z * Z * nat * bool, c.1.2) <$> (core <$> l)) as E
    by (intros; by rewrite <- list_fmap_compose).
  by rewrite E, <- Hp, <- E.
Qed.

Lemma conserved_elem s r : conserved s → r ∈ held s.1 → ∃ r0, r0 ∈ g_received s.2 ∧ core r0 = core r.
Proof.
  intros [Hp _] Hr. apply (list_elem_of_fmap_2 core) in Hr. rewrite <- Hp in Hr. apply list_elem_of_fmap in Hr as (r0 & -> & ?). eauto.
Qed.

(** ** Answers tell the truth *)
Definition outcome_ok st g m (o : Outcome) : Prop :=
  match o with
  | Answered r (Ok pub) => ∃ p, p ∈ puts st ∧ put_query p ∈ g_acked g ∧ core (put_request p) = core r ∧ pub = pub_of p
  | Answered r (Err (Timeout d)) => d = timeout r ∧ deadline r ≤ m_now m
  | Answered _ (Err _) => True
  | Dropped r => response r ∈ m_closed m
  end.

Record truthful (s : Task M * Ghost * Moment) : Prop := {
  tr_outcomes : Forall (outcome_ok s.1.1 s.1.2 s.2) (outcomes s.1.1);
  tr_active : ∀ a, active s.1.1 = Some a →
    ∃ p, p ∈ puts s.1.1 ∧ put_query p = query_id a ∧ put_request p = request a ∧ pub_of p = publication a;
  tr_puts : Forall (λ p, ∃ t, signed_at keypair config t (put_request p) = Ok (put_record p)) (puts s.1.1);
  tr_queries : NoDup (put_queries s.1.1) }.

Lemma outcome_ok_mono st g m st' g' m' o :
  puts st ⊆ puts st' → g_acked g ⊆ g_acked g' → later m m' → outcome_ok st g m o → outcome_ok st' g' m' o.
Proof.
  intros Hp Ha [Ht Hc]. destruct o as [r [pub|[]]|r]; cbn; try done.
  - intros (p & ? & ? & ? & ?). exists p. split_and!; auto.
  - intros [? ?]. split; [done|lia].
  - apply Hc.
Qed.

Lemma truthful_settled st g m st' g' m' new :
  truthful (st, g, m) → puts st' = puts st → g_acked g ⊆ g_acked g' → later m m' →
  (∀ a, active st' = Some a → active st = Some a) → outcomes st' = outcomes st ++ new → Forall (outcome_ok st' g' m') new →
  truthful (st', g', m').
Proof.
  intros [Ho Ha Hp Hq] Heq Hg Hl Hact Hout Hnew. cbn in *. split; cbn.
  - rewrite Hout. apply Forall_app. split; [|done]. eapply Forall_impl; [exact Ho|]. intros o. apply outcome_ok_mono; [by rewrite Heq|done|done].
  - intros a Hx. rewrite Heq. by apply Ha, Hact.
  - by rewrite Heq.
  - unfold put_queries in *. by rewrite Heq.
Qed.

Lemma puts_add st new : puts (add_calls new st) = puts st ++ omap call_put new.
Proof. unfold puts. cbn. apply omap_app. Qed.

Lemma puts_start st a p l : puts (set_active a (add_calls [PutRecord p] (set_pending l st))) = puts st ++ [p].
Proof. unfold puts. cbn. by rewrite omap_app. Qed.

Lemma act_truthful m m' s s' : later m m' → act m' s s' → truthful (s, m) → truthful (s', m').
Proof.
  intros Hl Hact Hs. destruct Hact as
    [st g r|st g l1 r l2 Hc|st g l1 r l2 He|st g r l e Hn Ht He|st g r l q signed Hn Ht Hb Hq|st g a Hle He|st g a|st g a e He|st g a t|st g id ok|st g new Hnew|st g].
  5:{ destruct Hs as [Ho Ha Hp Hqs]. cbn [fst snd] in *. split; cbn [fst snd].
      - eapply Forall_impl; [exact Ho|]. intros o. apply outcome_ok_mono; [|done|done].
        rewrite puts_start. intros p Hin. apply elem_of_app. left. exact Hin.
      - intros a Hactive. injection Hactive as <-. eexists. rewrite puts_start. split; [apply elem_of_app; right; by left|]. done.
      - rewrite puts_start. apply Forall_app. split; [exact Hp|]. repeat constructor. by exists (m_now m').
      - unfold put_queries in *. rewrite puts_start, fmap_app. apply NoDup_app. split_and!; [exact Hqs| |cbn; apply NoDup_singleton].
        intros c Hin. cbn. intros ->%list_elem_of_singleton. by apply Hq. }
  all: try (eapply (truthful_settled _ _ _ _ _ _ []); [exact Hs|reflexivity|set_solver|done| |by rewrite app_nil_r|constructor]; cbn; congruence).
  - eapply truthful_settled; [exact Hs|reflexivity|done|done|done|reflexivity|]. by repeat constructor.
  - eapply truthful_settled; [exact Hs|reflexivity|done|done|done|reflexivity|]. by repeat constructor.
  - eapply truthful_settled; [exact Hs|reflexivity|done|done|done|reflexivity|]. repeat constructor. cbn. destruct e; try done. by destruct (He duration).
  - eapply truthful_settled; [exact Hs|reflexivity|done|done|done|reflexivity|]. by repeat constructor.
  - eapply truthful_settled; [exact Hs|reflexivity|cbn; set_solver|done|done|reflexivity|]. repeat constructor. cbn.
    destruct (tr_active _ Hs a eq_refl) as (p & Hp & Hq & Hr & Hpub). exists p. split_and!; [exact Hp| |by rewrite Hr|done].
    rewrite Hq. apply elem_of_app. right. by left.
  - eapply truthful_settled; [exact Hs|reflexivity|cbn; set_solver|done|done|reflexivity|]. repeat constructor. cbn.
    destruct e; try done. by apply He.
  - eapply (truthful_settled _ _ _ _ _ _ []); [exact Hs| |done|done|done|by rewrite app_nil_r|constructor].
    by rewrite puts_add, Hnew, app_nil_r.
Qed.

(** ** Records are put in the order of the requests *)
Definition put_sequences st : list Z := (λ p, sequence (put_request p)) <$> puts st.
Definition line st : list Z :=
  put_sequences st ++ option_list ((λ a, sequence (request a)) <$> active st) ++ (sequence <$> pending st).

Definition ordered (s : Task M * Ghost) : Prop :=
  line s.1 ⊆ sequence <$> g_received s.2 ∧
  (StronglySorted Z.le (sequence <$> g_received s.2) → StronglySorted Z.le (line s.1)).

Lemma sorted_app_iff (l1 l2 : list Z) : StronglySorted Z.le (l1 ++ l2) ↔
  StronglySorted Z.le l1 ∧ StronglySorted Z.le l2 ∧ (∀ x y, x ∈ l1 → y ∈ l2 → x ≤ y).
Proof.
  induction l1 as [|x l1 IH]; cbn.
  - split; [intros H; split_and!; [constructor|done|set_solver]|by intros (_ & ? & _)].
  - split.
    + intros H. inversion_clear H as [|?? H1 H2]. apply IH in H1 as (H1 & H3 & H4). apply Forall_app in H2 as [H2 H5].
      split_and!; [by constructor|done|]. intros a b [->|Ha]%elem_of_cons Hb; [by eapply Forall_forall in H5|eauto].
    + intros (H1 & H2 & H3). inversion_clear H1 as [|?? H1' H4]. constructor.
      * apply IH. split_and!; [done|done|]. intros. apply H3; [by right|done].
      * apply Forall_app. split; [done|]. apply Forall_forall. intros. apply H3; [by left|done].
Qed.

(** Leaving something out keeps the order. *)
Lemma ordered_sublist st g st' g' : line st' `sublist_of` line st → g_received g' = g_received g → ordered (st, g) → ordered (st', g').
Proof.
  unfold ordered. cbn. intros Hsub -> [Hin Hs]. split.
  - intros x Hx. apply Hin. by eapply elem_of_sublist.
  - intros H. specialize (Hs H). clear -Hsub Hs. induction Hsub as [|x l1 l2 Hsub IH|x l1 l2 Hsub IH]; [constructor| |].
    + inversion_clear Hs as [|?? H1 H2]. constructor; [auto|]. apply Forall_forall. intros y Hy. eapply Forall_forall in H2; [exact H2|]. by eapply elem_of_sublist.
    + inversion_clear Hs. auto.
Qed.

Lemma act_ordered m s s' : act m s s' → ordered s → ordered s'.
Proof.
  intros Hact Hs. destruct Hact as
    [st g r|st g l1 r l2 Hc|st g l1 r l2 He|st g r l e Hn Ht He|st g r l q signed Hn Ht Hb Hq|st g a Hle He|st g a|st g a e He|st g a t|st g id ok|st g new Hnew|st g].
  1:{ destruct Hs as [Hin Hs]. unfold ordered. cbn [fst snd g_received].
      assert (line (set_pending (pending st ++ [r]) st) = line st ++ [sequence r]) as ->.
      { unfold line, put_sequences. cbn. by rewrite fmap_app, !app_assoc. }
      cbn in *. rewrite fmap_app. cbn. split; [set_solver|]. intros (H1 & _ & H2)%sorted_app_iff.
      apply sorted_app_iff. split_and!; [auto|repeat constructor|]. intros x y Hx Hy. apply H2; [by apply Hin|done]. }
  4:{ assert (line (set_pending (r :: l) st) = put_sequences st ++ [sequence r] ++ (sequence <$> l)) as E1.
      { unfold line. cbn. by rewrite Hn. }
      unfold ordered in *. cbn [fst snd] in *. rewrite E1 in Hs.
      assert (line (set_active (Some (start_active q (next_attempt r) signed)) (add_calls [PutRecord (mkPut q (next_attempt r) signed)] (set_pending l st))) =
        put_sequences st ++ [sequence r] ++ [sequence r] ++ (sequence <$> l)) as ->.
      { unfold line, put_sequences. rewrite puts_start, fmap_app. cbn. by rewrite <- app_assoc. }
      destruct Hs as [Hin Hs]. split; [set_solver|]. intros H. specialize (Hs H).
      apply sorted_app_iff in Hs as (H1 & H2 & H3). apply sorted_app_iff. split_and!; [done| |set_solver].
      cbn in *. inversion_clear H2 as [|?? H4 H5]. constructor; [by constructor|]. constructor; [lia|done]. }
  all: apply (ordered_sublist _ _ _ _) in Hs; [exact Hs| |done] || (eapply ordered_sublist; [|reflexivity|exact Hs]).
  all: unfold line, put_sequences; cbn; rewrite ?fmap_app; cbn.
  all: try done.
  - apply sublist_app; [done|]. apply sublist_app; [done|]. apply sublist_app; [done|]. by constructor.
  - apply sublist_app; [done|]. apply sublist_app; [done|]. apply sublist_app; [done|]. by constructor.
  - rewrite Hn. cbn. apply sublist_app; [done|]. by constructor.
  - apply sublist_app; [done|]. by constructor.
  - apply sublist_app; [done|]. by constructor.
  - apply sublist_app; [done|]. by constructor.
  - unfold puts. cbn. by rewrite omap_app, Hnew, app_nil_r.
Qed.

(** ** A lease is held while its put is in flight *)
Definition leased (s : Task M * Ghost) : Prop := ∀ p, p ∈ puts s.1 → canonicality_lease (put_request p) = true →
  put_query p ∈ g_finished s.2 ∨ ∃ a, active s.1 = Some a ∧ query_id a = put_query p ∧ canonicality_lease (request a) = true.

Lemma act_leased m m' s s' : act m' s s' → truthful (s, m) → leased s → leased s'.
Proof.
  intros Hact Ht Hs. destruct Hact as
    [st g r|st g l1 r l2 Hc|st g l1 r l2 He|st g r l e Hn Hnb He|st g r l q signed Hn Hnb Hb Hq|st g a Hle He|st g a|st g a e He|st g a t|st g id ok|st g new Hnew|st g];
    intros p Hp Hlease; cbn [fst snd] in *.
  5:{ rewrite puts_start in Hp. apply elem_of_app in Hp as [Hp| ->%list_elem_of_singleton].
      - destruct (Hs p Hp Hlease) as [?|(a & Ha & _)]; [by left|]. cbn in Ha. congruence.
      - right. eexists. split_and!; [reflexivity|reflexivity|exact Hlease]. }
  5:{ destruct (Hs p Hp Hlease) as [?|(a' & Ha & _ & Hl)]; [by left|]. cbn in Ha. simplify_eq. congruence. }
  all: try rewrite puts_add, Hnew, app_nil_r in Hp.
  all: destruct (Hs p Hp Hlease) as [Hf|(a' & Ha & Hq & Hl)]; [left; cbn in Hf |- *; by rewrite ?elem_of_app; auto|cbn in Ha].
  all: try (right; exists a'; split_and!; cbn; congruence).
  all: left; simplify_eq; cbn; rewrite elem_of_app; right; rewrite <- Hq; by left.
Qed.

(** ** Retries are bounded *)
Definition puts_of st (channel : nat) : nat := length (filter (λ p, response (put_request p) = channel) (puts st)).

Definition pending_ok st r : Prop :=
  let n := puts_of st (response r) in
  timeout r = publish_timeout config ∧ attempts_started r = Z.min (2 ^ 32 - 1) (Z.of_nat n) ∧
  (backoff n ≤ not_before r - (deadline r - timeout r) ∨
   (deadline r - IPNS_MIN_RETRY_REMAINING ≤ not_before r ∧ (1 ≤ n)%nat ∧ backoff (n - 1) ≤ timeout r)).

Definition active_ok st (now : Z) r : Prop :=
  let n := puts_of st (response r) in
  timeout r = publish_timeout config ∧ attempts_started r = Z.min (2 ^ 32 - 1) (Z.of_nat n) ∧ (1 ≤ n)%nat ∧
  (backoff (n - 1) ≤ now - (deadline r - timeout r) ∨ deadline r - IPNS_MIN_RETRY_REMAINING ≤ now).

Record bounded (s : Task M * Ghost * Moment) : Prop := {
  bd_pending : Forall (pending_ok s.1.1) (pending s.1.1);
  bd_active : ∀ a, active s.1.1 = Some a → active_ok s.1.1 (m_now s.2) (request a);
  bd_channels : ∀ c, backoff (puts_of s.1.1 c - 2) ≤ publish_timeout config;
  bd_known : Forall (λ p, response (put_request p) ∈ response <$> g_received s.1.2) (puts s.1.1) }.

Lemma puts_of_ext st st' c : puts st' = puts st → puts_of st' c = puts_of st c.
Proof. unfold puts_of. by intros ->. Qed.

Lemma active_ok_later st now now' r : now ≤ now' → active_ok st now r → active_ok st now' r.
Proof. intros Hle (? & ? & ? & H). split_and!; [done..|]. destruct H; [left|right]; lia. Qed.

(** Only puts change the counts. *)
Lemma bounded_same st g m st' g' m' : bounded (st, g, m) → puts st' = puts st → later m m' → g_received g ⊆ g_received g' →
  Forall (pending_ok st) (pending st') → (∀ a, active st' = Some a → active st = Some a) → bounded (st', g', m').
Proof.
  intros [Hp Ha Hc Hk] Heq [Ht _] Hg Hp' Ha'. cbn in *. split; cbn.
  - eapply Forall_impl; [exact Hp'|]. intros r. unfold pending_ok. by rewrite (puts_of_ext st st' _ Heq).
  - intros a Hact. apply active_ok_later with (m_now m); [lia|]. specialize (Ha a (Ha' a Hact)). unfold active_ok in *.
    by rewrite (puts_of_ext st st' _ Heq).
  - intros c. by rewrite (puts_of_ext st st' _ Heq).
  - rewrite Heq. eapply Forall_impl; [exact Hk|]. intros p (r & Hr & ?)%list_elem_of_fmap. cbn in *. apply list_elem_of_fmap. eauto.
Qed.

Lemma puts_of_start st a p l c :
  puts_of (set_active a (add_calls [PutRecord p] (set_pending l st))) c =
  (puts_of st c + if decide (response (put_request p) = c) then 1 else 0)%nat.
Proof. unfold puts_of. rewrite puts_start, filter_app, length_app. f_equal. rewrite filter_cons. by case_decide. Qed.

(** A retry keeps to the schedule. *)
Lemma retry_pending_ok st m a t : active_ok st (m_now m) (request a) → next_retry_at m (request a) = Some t →
  pending_ok st (with_not_before t (request a)).
Proof.
  unfold active_ok, pending_ok, next_retry_at, is_expired, IPNS_MIN_RETRY_REMAINING, saturating_sub. cbn zeta.
  cbn [with_not_before response timeout deadline not_before attempts_started]. intros (HT & Hat & Hn & Hsched).
  destruct (is_closed m (request a)); [done|]. cbn [orb]. case_bool_decide; [done|]. case_bool_decide as Hrem; [done|]. intros [= <-].
  split_and!; [done|done|]. rewrite Hat, retry_delay_saturates.
  set (n := puts_of st (response (request a))) in *. destruct n as [|n]; [lia|]. replace (S n - 1)%nat with n in * by lia.
  pose proof (retry_delay_eq (Z.of_nat (S n))) as Hd. cbn [backoff].
  assert (backoff n ≤ m_now m - (deadline (request a) - timeout (request a))) as Hb by (destruct Hsched; [done|unfold nanos in *; lia]).
  destruct (Z.min_spec (retry_delay (Z.of_nat (S n))) (Z.max 0 (deadline (request a) - m_now m - nanos 1))) as [[_ ->]|[_ ->]].
  - left. lia.
  - right. split_and!; [unfold nanos in *; lia|lia|]. unfold nanos in *. lia.
Qed.

(** A put starts at its time. *)
Lemma start_bounded st g m m' r l q signed :
  later m m' → active st = None → not_before r ≤ m_now m' < deadline r → NoDup (response <$> r :: l) → response r ∈ response <$> g_received g →
  bounded (set_pending (r :: l) st, g, m) →
  bounded (set_active (Some (start_active q (next_attempt r) signed)) (add_calls [PutRecord (mkPut q (next_attempt r) signed)] (set_pending l st)), g, m').
Proof.
  intros Hl Hn Hnb Hnd Hin [Hp _ Hc Hk]. cbn [fst snd] in *. cbn in Hnd. apply NoDup_cons in Hnd as [Hr Hnd].
  assert (Hpr := Forall_inv Hp). assert (Hpl := Forall_inv_tail Hp). clear Hp.
  change (puts_of (set_pending (r :: l) st)) with (puts_of st) in *.
  change (pending_ok (set_pending (r :: l) st)) with (pending_ok st) in *. destruct Hpr as (HT & Hat & Hsched).
  set (n := puts_of st (response r)) in *.
  assert (backoff (n - 1) ≤ publish_timeout config) as Hbound.
  { destruct Hsched as [Hs|(_ & _ & Hs)]; [|lia]. etrans; [apply (backoff_mono _ n); lia|]. lia. }
  split; cbn [fst snd].
  - apply Forall_forall. intros r' Hr'. assert (pending_ok st r') as Hok by (by eapply Forall_forall in Hpl). unfold pending_ok in *.
    rewrite puts_of_start. rewrite decide_False, Nat.add_0_r; [done|]. cbn. intros E. apply Hr. rewrite E. by apply list_elem_of_fmap_2.
  - intros a Ha. injection Ha as <-. unfold active_ok. cbn [request start_active]. rewrite puts_of_start.
    change (response (next_attempt r)) with (response r). change (timeout (next_attempt r)) with (timeout r).
    change (deadline (next_attempt r)) with (deadline r). cbn [put_request response]. rewrite decide_True by done. fold n.
    split_and!; [done| |lia|].
    + cbn. rewrite Hat. unfold saturating_add. lia.
    + replace (n + 1 - 1)%nat with n by lia. destruct Hsched as [Hs|(Hs & _ & _)]; [left|right]; lia.
  - intros c. rewrite puts_of_start. cbn [put_request]. case_decide as Hcase; [|by rewrite Nat.add_0_r].
    change (response r = c) in Hcase. subst c. fold n. replace (n + 1 - 2)%nat with (n - 1)%nat by lia. done.
  - rewrite puts_start. apply Forall_app. split; [exact Hk|]. by repeat constructor.
Qed.

Lemma act_bounded m m' s s' : later m m' → act m' s s' → conserved s → bounded (s, m) → bounded (s', m').
Proof.
  intros Hl Hact Hcons Hs. pose proof (conserved_nodup _ Hcons) as Hnd. destruct Hact as
    [st g r Hmade Hfresh|st g l1 r l2 Hc|st g l1 r l2 He|st g r l e Hn Hnb He|st g r l q signed Hn Hnb Hb Hq|st g a Hle He|st g a|st g a e He|st g a t Hretry|st g id ok|st g new Hnew|st g].
  5:{ apply (start_bounded st g m); [done|done|done| | |done].
      - unfold held in Hnd. cbn [fst pending set_pending] in Hnd. rewrite fmap_app in Hnd. by apply NoDup_app in Hnd as (? & _).
      - destruct (conserved_elem _ r Hcons) as (r0 & Hr0 & E); [by left|]. cbn in Hr0. apply list_elem_of_fmap. exists r0. split; [|done].
        by injection E. }
  1:{ eapply bounded_same; [exact Hs|done|done|set_solver| |done]. cbn. apply Forall_app. split; [apply (bd_pending _ Hs)|].
      constructor; [|constructor]. destruct Hmade as (cid & sequence & channel & lease & now & now' & Hnow & Hr). cbn in Hnow, Hr. subst r. cbn in Hfresh.
      assert (puts_of st channel = 0%nat) as Hzero.
      { unfold puts_of. apply length_zero_iff_nil, elem_of_nil_inv. intros p [Hp Hin]%list_elem_of_filter.
        apply Hfresh. rewrite <- Hp. pose proof (bd_known _ Hs) as Hk. by eapply Forall_forall in Hk. }
      unfold pending_ok. cbn. rewrite Hzero. split_and!; [done|done|]. left. cbn. lia. }
  all: pose proof (bd_pending _ Hs) as Hp; cbn in Hp.
  all: eapply bounded_same; [exact Hs| |done|done| |]; cbn; try done.
  - apply Forall_app in Hp as [Hp1 Hp2]. apply Forall_app. split; [exact Hp1|by apply Forall_inv_tail in Hp2].
  - apply Forall_app in Hp as [Hp1 Hp2]. apply Forall_app. split; [exact Hp1|by apply Forall_inv_tail in Hp2].
  - by apply Forall_inv_tail in Hp.
  - constructor; [|exact Hp]. pose proof (bd_active _ Hs a eq_refl) as Ha. cbn in Ha.
    apply (retry_pending_ok st m' a t); [|done]. apply (active_ok_later _ (m_now m)); [apply Hl|exact Ha].
  - unfold puts. cbn. by rewrite omap_app, Hnew, app_nil_r.
Qed.

(** ** All of it over a run *)
Definition end_moment (script : list round) : Moment := List.last (moments script) (mkMoment 0 [] 0 None).

Record invariant (s : Task M * Ghost * Moment) : Prop := {
  iv_conserved : conserved s.1;
  iv_truthful : truthful s;
  iv_ordered : ordered s.1;
  iv_leased : leased s.1;
  iv_bounded : bounded s }.

Lemma step_invariant s s' : step keypair config s s' → invariant s → invariant s'.
Proof.
  destruct s as [s m], s' as [s' m']. intros [Hl Hact] [H1 H2 H3 H4 H5]. cbn [fst snd] in *. split.
  - by eapply act_conserved.
  - by eapply act_truthful.
  - by eapply act_ordered.
  - by eapply act_leased.
  - by eapply act_bounded.
Qed.

Lemma rtc_invariant s s' : rtc (step keypair config) s s' → invariant s → invariant s'.
Proof. induction 1; eauto using step_invariant. Qed.

Lemma run_start_state st0 : run_start keypair config false = Some (Ok st0) →
  pending st0 = [] ∧ active st0 = None ∧ outcomes st0 = [] ∧ puts st0 = [].
Proof.
  unfold run_start. intros H. injection H as H. res_inv. unfold redial in *.
  pose proof (dials_no_put (Crates := Crates) (bootstrap_peers config)) as Hd.
  destruct (dial_bootstrap_peers (bootstrap_peers config)) as [dials [[]|e]]; simplify_eq/=.
  res_inv. split_and!; [done..|]. unfold puts. cbn in *. by rewrite omap_app, Hd.
Qed.

Lemma initial_invariant st0 m : run_start keypair config false = Some (Ok st0) → 0 ≤ publish_timeout config → invariant (st0, mkGhost [] [] [], m).
Proof.
  intros (Hp & Ha & Ho & Hputs)%run_start_state HT.
  split; [split|split|split|intros p|split]; unfold held, line, put_sequences, put_queries, puts_of; cbn; rewrite ?Hp, ?Ha, ?Ho, ?Hputs; cbn;
    repeat (constructor || set_solver || done).
Qed.

Lemma run_invariant script st0 st : run_start keypair config false = Some (Ok st0) → 0 ≤ publish_timeout config →
  script_ok (publish_timeout config) script → run_loop keypair config script st0 = (Continue, st) →
  invariant (st, mkGhost (received script) (finished script) (acked script), end_moment script).
Proof.
  intros Hst HT [Htime Hq Hmade Hch] Hrun. pose proof (run_start_state _ Hst) as (_ & _ & _ & Hputs).
  set (m0 := hd (mkMoment 0 [] 0 None) (moments script)).
  assert (List.last (moments script) m0 = end_moment script) as Hend.
  { unfold end_moment, m0. destruct (moments script) as [|m1 ms]; [done|]. cbn [hd]. by rewrite !last_of_cons. }
  rewrite <- Hend. change (mkGhost (received script) _ _) with (script_ghost script (mkGhost [] [] [])).
  eapply rtc_invariant; [|by apply initial_invariant].
  apply run_loop_acts; [|unfold put_queries; by rewrite Hputs|done|done|done].
  unfold m0. destruct (moments script) as [|m1 ms]; cbn [hd]; [repeat constructor|]. constructor; [done|]. by constructor.
Qed.
End invariants.
End IpnsCorrect.
