(* ===== verification/IpnsRun.v ===== *)
(** * Runs of the IPNS publisher

    What a run of the task guarantees its clients, the deadlines of the queue,
    and reading a published record back ([publish/ipns.rs]). *)

From S2P Require Import Prelude Wire Ipfs Artifacts ChainLogs PoiStore ChainStore StoreQueries Config Ipns IpnsProtocol IpnsCorrect.

Module IpnsRun.
Import Cfg Ipns IpnsProtocol IpnsCorrect.

(** ** Concrete crates *)
(** Addresses are their peer, keys their bytes, records their value; a text
    that starts with Q is a CID. *)
Definition toy_crates : IpnsCrates PeerId octets octets := {|
  parse_multiaddr addr := Some addr;
  addr_last_p2p addr := Some addr;
  ed25519_from_bytes bytes := Some bytes;
  keypair_peer_id keypair := keypair;
  keypair_ed25519 keypair := Some keypair;
  hkdf_sha256 _ key _ := Some (key ++ [0]);
  cid_parses cid := match cid with 81 :: _ => true | _ => false end;
  cid_v1_base36 codec peer := Some (codec :: peer);
  chrono_from_std d := Some d;
  record_new _ _ value _ _ _ := Some value;
  record_verify _ _ := true;
  record_encode record := Some record;
  record_decode bytes := Some bytes;
  record_value record := Some record;
  transport_dns := true;
  transport_noise _ := true |}.
#[local] Existing Instance toy_crates.

Definition toy_config : IpnsPublisherConfig PeerId := mkPublisherConfig [[9]] (nanos 60) (nanos 60) (nanos 60).
Definition toy_moment (secs : Z) (closed : list nat) (put : option QueryId) : Moment := mkMoment (nanos secs) closed 8 put.
Definition toy_request (channel : nat) (sequence secs : Z) (lease : bool) : PublishRequest :=
  new_request (nanos 60) (lit "Qm") sequence channel lease (nanos secs) (nanos secs).
Definition toy_started : Task PeerId := mkTask [] None false [] [Dial [9]; Bootstrap].

(** Two requests; the first put fails and is retried two seconds later, the
    caller of the second gives up. *)
Definition toy_script : list round :=
  [(false, toy_moment 0 [] None, Received (Some (toy_request 0 1 0 true)) (toy_moment 0 [] None));
   (false, toy_moment 0 [] (Some 10%nat), Received (Some (toy_request 1 2 1 false)) (toy_moment 1 [] None));
   (false, toy_moment 1 [] None, SwarmEvents (PutRecordProgressed 10%nat false) (toy_moment 3 [] None) (toy_moment 3 [] None));
   (false, toy_moment 4 [] None, Woken);
   (false, toy_moment 5 [] (Some 11%nat), BootstrapTick);
   (false, toy_moment 6 [] None, SwarmEvents (PutRecordProgressed 11%nat true) (toy_moment 7 [1%nat] None) (toy_moment 7 [1%nat] None))].

Definition toy_state : Task PeerId := (run_loop [1] toy_config toy_script toy_started).2.

Lemma toy_start : run_start [1] toy_config false = Some (Ok toy_started).
Proof. vm_compute. reflexivity. Qed.
Lemma toy_run_loop : run_loop [1] toy_config toy_script toy_started = (Continue, toy_state).
Proof. vm_compute. reflexivity. Qed.
Lemma toy_script_ok : script_ok (publish_timeout toy_config) toy_script.
Proof.
  split.
  - cbn. repeat (apply Sorted_cons || apply Sorted_nil || apply HdRel_cons || apply HdRel_nil); split; cbn; first [unfold nanos; lia|set_solver].
  - vm_compute. apply NoDup_ListNoDup. repeat constructor; cbn; intuition discriminate.
  - cbn. repeat constructor; (eexists _, _, _, _, _, _; split; [|reflexivity]; cbn; unfold nanos; lia).
  - vm_compute. apply NoDup_ListNoDup. repeat constructor; cbn; intuition discriminate.
Qed.

Section runs.
Context {M K R : Type} `{Crates : IpnsCrates M K R}.
Context (keypair : K) (config : IpnsPublisherConfig M).
Implicit Types (st : Task M) (m : Moment) (r : PublishRequest).

Lemma signed_fields t r signed : signed_at keypair config t r = Ok signed →
  manifest_ipfs_path (manifest_cid r) = Ok (sr_value signed) ∧ sr_sequence signed = sequence r ∧
  sr_peer_id signed = keypair_peer_id keypair ∧ sr_record_key signed = ipns_record_key_bytes (keypair_peer_id keypair).
Proof. unfold signed_at, build_signed_record. intros H. res_inv. split_and!; done. Qed.

(** *** The queue against the clock *)
Lemma maybe_start_pending m st r : r ∈ pending (maybe_start_publish keypair config m st) → alive m r.
Proof.
  destruct (discard_spec m st) as (Hp & _). unfold maybe_start_publish. intros Hr.
  assert (r ∈ pending (discard_unpublishable_pending m st)) as Hin.
  { revert Hr. remember (discard_unpublishable_pending m st) as st1. destruct (active st1); [done|].
    destruct (pending st1) as [|front queue] eqn:E; [by rewrite E|]. cbn zeta. repeat case_match; cbn; try (rewrite E; done); intros; by right. }
  rewrite Hp in Hin. by apply list_elem_of_filter in Hin as [? _].
Qed.

Lemma maybe_start_active m st a : active (maybe_start_publish keypair config m st) = Some a → active st = Some a ∨ alive m (request a).
Proof.
  destruct (discard_spec m st) as (Hp & Ha & _). unfold maybe_start_publish.
  remember (discard_unpublishable_pending m st) as st1 eqn:E1. clear E1.
  destruct (active st1) as [b|] eqn:Eb; [rewrite Eb; intros [= <-]; left; congruence|].
  destruct (pending st1) as [|front queue] eqn:E; [congruence|].
  assert (alive m front) as Hal.
  { assert (front ∈ filter (alive m) (pending st)) as Hin by (rewrite <- Hp; by left). by apply list_elem_of_filter in Hin as [? _]. }
  cbn zeta. repeat case_match; cbn; try congruence. intros [= <-]. right. exact Hal.
Qed.

(** An idle task leaves a request that is due only behind one it rejected. *)
Lemma maybe_start_idle m st r l : let st' := maybe_start_publish keypair config m st in
  active st' = None → has_enough_connected_peers_for_publish m (bootstrap_completed st') = true → pending st' = r :: l → not_before r ≤ m_now m →
  ∃ rejected e, last (outcomes st') = Some (Answered rejected (Err e)).
Proof.
  cbn zeta. unfold maybe_start_publish. remember (discard_unpublishable_pending m st) as st1 eqn:E1. clear E1.
  destruct (active st1) as [b|] eqn:Eb; [congruence|]. destruct (pending st1) as [|front queue] eqn:E; [congruence|]. cbn zeta.
  destruct (has_enough_connected_peers_for_publish m (bootstrap_completed st1)) eqn:Eh; cbn [negb]; [|congruence].
  case_bool_decide as Hnb; [intros _ _; rewrite E; intros [= -> _] ?; lia|]. destruct (build_signed_record _ _ _ _ _ _) as [signed|e].
  - destruct (m_put m); [discriminate|]. intros _ _ _ _. cbn. rewrite last_snoc. eauto.
  - intros _ _ _ _. cbn. rewrite last_snoc. eauto.
Qed.

(** The timer. *)
(** The earliest of the times [P], if there is one. *)
Definition earliest (P : Z → Prop) (o : option Z) : Prop :=
  match o with Some w => P w ∧ ∀ t, P t → w ≤ t | None => ∀ t, ¬ P t end.
Lemma earliest_instant_spec (P Q : Z → Prop) o t :
  earliest P o → (∀ u, Q u ↔ P u ∨ u = t) → earliest Q (Some (earliest_instant o t)).
Proof using Type.
  intros Ho HQ. destruct o as [w|]; cbn in *.
  - destruct Ho as [Hw Hle]. split; [apply HQ; destruct (Z.min_spec w t) as [[_ ->]|[_ ->]]; auto|]. intros u [Hu%Hle| ->]%HQ; lia.
  - split; [apply HQ; by right|]. by intros u [?%Ho| ->]%HQ.
Qed.
Lemma earliest_ext (P Q : Z → Prop) o : earliest P o → (∀ t, Q t ↔ P t) → earliest Q o.
Proof using Type.
  intros Ho HQ. destruct o as [w|]; cbn in *; [|intros t Ht; by apply (Ho t), HQ].
  destruct Ho as [Hw Hle]. split; [by apply HQ|]. intros t Ht. by apply Hle, HQ.
Qed.

(** A request whose caller waits: in the queue, or active without a lease. *)
Definition awaited m st r : Prop :=
  r ∈ pending st ∧ is_closed m r = false ∨ ∃ a, active st = Some a ∧ canonicality_lease (request a) = false ∧ r = request a.
(** The first request is to be tried again later. *)
Definition to_retry m st r : Prop := head (pending st) = Some r ∧ is_closed m r = false ∧ m_now m < not_before r.
Definition wake_time m st (t : Z) : Prop := (∃ r, awaited m st r ∧ t = deadline r) ∨ ∃ r, to_retry m st r ∧ t = not_before r.

Lemma pending_wake_earliest m queue P wake : earliest P wake →
  earliest (λ t, P t ∨ ∃ r, r ∈ queue ∧ is_closed m r = false ∧ t = deadline r) (pending_wake m queue wake).
Proof using Type.
  revert P wake. induction queue as [|r queue IH]; intros P wake Hw; cbn [pending_wake].
  { eapply earliest_ext; [exact Hw|]. intros t. set_solver. }
  destruct (is_closed m r) eqn:Hc.
  - eapply earliest_ext; [by apply IH|]. intros t. setoid_rewrite elem_of_cons. naive_solver congruence.
  - eapply earliest_ext; [eapply IH, (earliest_instant_spec P (λ t, P t ∨ t = deadline r)); [done|done]|]. intros t.
    setoid_rewrite elem_of_cons. naive_solver.
Qed.
Lemma next_wake_earliest m st : earliest (wake_time m st) (next_publish_wake m st).
Proof using Type.
  unfold next_publish_wake. cbn zeta.
  set (wake := match active st with Some publish => _ | None => _ end).
  assert (earliest (λ t, ∃ a, active st = Some a ∧ canonicality_lease (request a) = false ∧ t = deadline (request a)) wake) as Ha.
  { unfold wake. destruct (active st) as [a|]; [|cbn; naive_solver]. destruct (canonicality_lease (request a)) eqn:Hl; cbn; [naive_solver congruence|].
    split; [eauto|]. intros t (b & [= <-] & _ & ->). done. }
  apply (pending_wake_earliest m (pending st)) in Ha.
  assert (earliest (λ t, ∃ r, awaited m st r ∧ t = deadline r) (pending_wake m (pending st) wake)) as Hd.
  { eapply earliest_ext; [exact Ha|]. unfold awaited. intros t. naive_solver. }
  unfold wake_time, to_retry. destruct (pending st) as [|front queue] eqn:Hp; [eapply earliest_ext; [exact Hd|]; naive_solver|].
  destruct (negb (is_closed m front) && bool_decide (m_now m < not_before front)) eqn:Hf.
  - apply andb_prop in Hf as [Hc%negb_true_iff Hn%bool_decide_eq_true]. eapply earliest_instant_spec; [exact Hd|]. cbn. naive_solver.
  - eapply earliest_ext; [exact Hd|]. intros t. split; [|by left]. intros [?|(r & ([= <-] & Hc & Hn) & _)]; [done|].
    rewrite Hc, bool_decide_eq_true_2 in Hf by done. discriminate.
Qed.

(** What an answer means, at the end of [script]. *)
Definition settled (script : list round) st (o : Outcome) : Prop :=
  match o with
  | Answered r (Ok pub) =>
      (∃ p, p ∈ puts st ∧ put_query p ∈ acked script ∧ core (put_request p) = core r ∧ pub = pub_of p) ∧
      manifest_ipfs_path (manifest_cid r) = Ok (pub_value pub) ∧ pub_sequence pub = sequence r ∧ pub_peer_id pub = keypair_peer_id keypair
  | Answered r (Err (Timeout d)) => d = timeout r ∧ deadline r ≤ m_now (end_moment script)
  | Answered _ (Err _) => True
  | Dropped r => response r ∈ m_closed (end_moment script)
  end.
End runs.

(** C26. The task loses no request and answers none twice: at every point of a
    run the requests received are exactly those queued, in flight and settled.
    A success is given only for a record Kademlia stored, and that record is
    signed by the publisher with the CID and the sequence of the request; a
    timeout is given only past the deadline, and a request is dropped without
    an answer only when its caller is gone. *)
Theorem ipns_requests_settled {M K R : Type} `{Crates : IpnsCrates M K R} keypair config script st0 st :
  run_start keypair config false = Some (Ok st0) → 0 ≤ publish_timeout config →
  script_ok (publish_timeout config) script → run_loop keypair config script st0 = (Continue, st) →
  core <$> received script ≡ₚ core <$> pending st ++ option_list (request <$> active st) ++ (outcome_request <$> outcomes st) ∧
  NoDup (response <$> pending st ++ option_list (request <$> active st) ++ (outcome_request <$> outcomes st)) ∧
  Forall (settled keypair script st) (outcomes st).
Proof.
  intros Hst HT Hok Hrun. destruct (run_invariant keypair config script st0 st Hst HT Hok Hrun) as [Hc Ht _ _ _].
  split_and!; [apply Hc|apply (conserved_nodup _ Hc)|]. destruct Ht as [Ho _ Hp _]. cbn in *.
  eapply Forall_impl; [exact Ho|]. intros [r [pub|[]]|r]; cbn; try done. intros (p & Hin & Hack & Hcore & ->). split; [by eauto|].
  eapply Forall_forall in Hp as (t & Hs); [|exact Hin]. apply signed_fields in Hs as (Hv & Hseq & Hpeer & _).
  injection Hcore as E1 E2. cbn. rewrite <- E1, <- E2. done.
Qed.

Lemma ipns_requests_settled_witness :
  outcomes toy_state = [Answered (next_attempt (with_not_before (nanos 5) (next_attempt (toy_request 0 1 0 true))))
      (Ok (mkPublication [1] [0x72; 1] (lit "/ipfs/Qm") 1)); Dropped (toy_request 1 2 1 false)] ∧
  Forall (settled (Crates := toy_crates) [1] toy_script toy_state) (outcomes toy_state).
Proof.
  split; [vm_compute; reflexivity|].
  apply (ipns_requests_settled [1] toy_config toy_script toy_started toy_state toy_start ltac:(vm_compute; discriminate) toy_script_ok toy_run_loop).
Defined.

(** C27. When requests arrive with sequences that do not decrease, the records
    are put with sequences that do not decrease, retries included; and the
    put of a request that holds a canonicality lease is in flight only while
    the task still holds the request, and with it the lease. *)
Theorem ipns_puts_in_order {M K R : Type} `{Crates : IpnsCrates M K R} keypair config script st0 st :
  run_start keypair config false = Some (Ok st0) → 0 ≤ publish_timeout config →
  script_ok (publish_timeout config) script → run_loop keypair config script st0 = (Continue, st) →
  (StronglySorted Z.le (sequence <$> received script) → StronglySorted Z.le (put_sequences st)) ∧
  (∀ p, p ∈ puts st → canonicality_lease (put_request p) = true → put_query p ∉ finished script →
    ∃ a, active st = Some a ∧ query_id a = put_query p ∧ canonicality_lease (request a) = true).
Proof.
  intros Hst HT Hok Hrun. destruct (run_invariant keypair config script st0 st Hst HT Hok Hrun) as [_ _ [_ Ho] Hl _]. split.
  - intros H. apply Ho in H. unfold line in H. by apply sorted_app_iff in H as (? & _).
  - intros p Hp Hlease Hnf. destruct (Hl p Hp Hlease) as [?|?]; [done|done].
Qed.

Lemma ipns_puts_in_order_witness : put_sequences toy_state = [1; 1] ∧ StronglySorted Z.le (put_sequences toy_state).
Proof.
  split; [vm_compute; reflexivity|].
  apply (ipns_puts_in_order [1] toy_config toy_script toy_started toy_state toy_start ltac:(vm_compute; discriminate) toy_script_ok toy_run_loop).
  cbn. repeat constructor; lia.
Defined.

(** C28. The puts of one request are bounded by its time: ten seconds each but
    for the first ones, so a timeout of [T] allows at most [T / 10 s + 3.3]. *)
Theorem ipns_attempts_bounded {M K R : Type} `{Crates : IpnsCrates M K R} keypair config script st0 st channel :
  run_start keypair config false = Some (Ok st0) → 0 ≤ publish_timeout config →
  script_ok (publish_timeout config) script → run_loop keypair config script st0 = (Continue, st) →
  nanos 10 * Z.of_nat (puts_of st channel) ≤ publish_timeout config + nanos 33.
Proof.
  intros Hst HT Hok Hrun. destruct (run_invariant keypair config script st0 st Hst HT Hok Hrun) as [_ _ _ _ Hb].
  pose proof (bd_channels _ _ Hb channel) as Hc. pose proof (backoff_linear (puts_of st channel - 2)) as Hlin. cbn in *. unfold nanos in *.
  destruct (decide (puts_of st channel ≤ 2)%nat); lia.
Qed.

Lemma ipns_attempts_bounded_witness : puts_of toy_state 0 = 2%nat ∧ nanos 10 * Z.of_nat (puts_of toy_state 0) ≤ nanos 60 + nanos 33.
Proof.
  split; [vm_compute; reflexivity|].
  apply (ipns_attempts_bounded [1] toy_config toy_script toy_started toy_state 0 toy_start ltac:(vm_compute; discriminate) toy_script_ok toy_run_loop).
Defined.

(** C29. One round of the loop reads the clock twice: [m] before it starts a
    publish, and a later [m'] for the timer. After the first no queued request is
    overdue or abandoned by its caller, nor is an active one without a lease
    overdue. The timer is then the earliest of the deadlines of the requests
    whose callers wait, and of the retry time of the first one if that lies after
    [m'] (a retry time between the two readings is not among them, as
    [retry_wake_can_be_missed] shows); there is none only if nobody waits. It
    always lies after [m], so that no two rounds wake for the same time, and it
    is past at [m'] only when a deadline passed in between, for which the next
    round answers. An idle task with enough peers leaves a due request only
    behind one it rejected. *)
Theorem ipns_deadlines_met {M K R : Type} `{Crates : IpnsCrates M K R} keypair (config : IpnsPublisherConfig M) m m' st :
  let st' := loop_top keypair config m st in
  m_now m ≤ m_now m' →
  (∀ r, r ∈ pending st' → m_now m < deadline r ∧ response r ∉ m_closed m) ∧
  (∀ a, active st' = Some a → canonicality_lease (request a) = false → m_now m < deadline (request a)) ∧
  earliest (λ t, (∃ r, awaited m' st' r ∧ t = deadline r) ∨ (∃ r, to_retry m' st' r ∧ t = not_before r)) (next_publish_wake m' st') ∧
  (∀ w, next_publish_wake m' st' = Some w → m_now m < w ∧ (w ≤ m_now m' → ∃ r, awaited m' st' r ∧ deadline r = w)) ∧
  (∀ r l, active st' = None → has_enough_connected_peers_for_publish m (bootstrap_completed st') = true → pending st' = r :: l →
    not_before r ≤ m_now m → ∃ rejected e, last (outcomes st') = Some (Answered rejected (Err e))).
Proof.
  cbn zeta. intros Hm. unfold loop_top. set (st1 := expire_active_publish (m_now m) st).
  assert (∀ a, active st1 = Some a → canonicality_lease (request a) = false → m_now m < deadline (request a)) as Hexp.
  { unfold st1, expire_active_publish, may_expire_while_active, is_expired. intros a. destruct (active st) as [b|] eqn:Eb; [|congruence].
    case_match eqn:Ec; [discriminate|]. rewrite Eb. intros [= <-] Hl. rewrite Hl in Ec. cbn in Ec. case_bool_decide; [done|lia]. }
  pose proof (maybe_start_pending keypair config m st1) as Hpend. pose proof (maybe_start_active keypair config m st1) as Hact.
  pose proof (maybe_start_idle keypair config m st1) as Hidle. cbn zeta in Hidle.
  set (st2 := maybe_start_publish keypair config m st1) in *.
  assert (∀ a, active st2 = Some a → canonicality_lease (request a) = false → m_now m < deadline (request a)) as Hactive.
  { intros a Ha Hl. destruct (Hact a Ha) as [?|[_ ?]]; [by apply Hexp|done]. }
  pose proof (next_wake_earliest m' st2) as Hwake.
  split_and!; [intros r Hr; by apply Hpend in Hr as [? ?]|exact Hactive|exact Hwake| |exact Hidle].
  intros w Hw. rewrite Hw in Hwake. destruct Hwake as [[(r & Hr & ->)|(r & (_ & _ & Hr) & ->)] _]; [|split; [lia|intros; exfalso; lia]].
  split; [|by exists r]. destruct Hr as [[Hr _]|(a & Ha & Hl & ->)]; [by apply Hpend in Hr as [_ ?]|by apply Hactive].
Qed.

(** The first of two requests is active at 35 s; the timer is its deadline. *)
Lemma ipns_deadlines_met_witness :
  let st := mkTask [toy_request 0 1 0 false; toy_request 1 2 30 false] None true [] [] in
  active (loop_top [1] toy_config (toy_moment 61 [] None) st) = None ∧
  next_publish_wake (toy_moment 36 [] None) (loop_top [1] toy_config (toy_moment 35 [] (Some 4%nat)) st) = Some (nanos 60) ∧ nanos 35 < nanos 60.
Proof.
  split; [vm_compute; reflexivity|].
  assert (next_publish_wake (toy_moment 36 [] None) (loop_top [1] toy_config (toy_moment 35 [] (Some 4%nat))
    (mkTask [toy_request 0 1 0 false; toy_request 1 2 30 false] None true [] [])) = Some (nanos 60)) as Hw by (vm_compute; reflexivity).
  split; [exact Hw|].
  destruct (ipns_deadlines_met [1] toy_config (toy_moment 35 [] (Some 4%nat)) (toy_moment 36 [] None)
    (mkTask [toy_request 0 1 0 false; toy_request 1 2 30 false] None true [] []) ltac:(vm_compute; discriminate)) as (_ & _ & _ & Hafter & _).
  exact (proj1 (Hafter (nanos 60) Hw)).
Defined.

(** ** What ends the task *)
Section ends.
Context {M K R : Type} `{Crates : IpnsCrates M K R}.
Context (keypair : K) (config : IpnsPublisherConfig M).

Lemma redial_ok st0 (st : Task M) : run_start keypair config false = Some (Ok st0) → (redial config st).1 = Ok tt.
Proof.
  unfold run_start. intros H. injection H as H. res_inv. unfold redial in *.
  by destruct (dial_bootstrap_peers (bootstrap_peers config)) as [dials [[]|e]]; simplify_eq/=.
Qed.

(** Once the task has started, only a shutdown or the last client leaving ends
    it, and it ends without an error. *)
Theorem run_never_fails st0 script st res : run_start keypair config false = Some (Ok st0) →
  run_loop keypair config script st0 = (Return res, st) → res = Ok tt.
Proof.
  intros Hst. generalize st0 at 1 as st1. induction script as [|[[shutdown m] branch] script IH]; intros st1; cbn [run_loop]; [done|].
  destruct (iteration keypair config shutdown m branch st1) as [flow st2] eqn:E.
  assert (flow = Continue ∨ flow = Return (Ok tt)) as [-> | ->]; [|by apply IH|by intros [= <- _]].
  unfold iteration in E. destruct shutdown; [simplify_eq; by right|]. revert E.
  pose proof (redial_ok st0) as Hr. destruct branch as [e b| | |[r|] m1|event m1 m2]; cbn [select_branch].
  - intros E. simplify_eq. destruct (e || b); auto.
  - intros E. simplify_eq. by left.
  - specialize (Hr (loop_top keypair config m st1) Hst). destruct (redial config _). cbn in Hr. subst. intros E. simplify_eq. by left.
  - case_match; [|intros E; simplify_eq; by left].
    match goal with |- context [redial config ?s] => specialize (Hr s Hst); destruct (redial config s) end. cbn in Hr. subst. intros E. simplify_eq. by left.
  - intros E. simplify_eq. by right.
  - intros E. simplify_eq. by left.
Qed.
End ends.

(** ** Two wakes that are missed *)
(** The timer is set by a later reading of the clock than the one that
    decided to wait: when the retry time lies between the two, the timer is
    set to the deadline instead. *)
Example retry_wake_can_be_missed :
  let retry := with_not_before (nanos 5) (toy_request 0 1 0 false) in
  let st := loop_top [1] toy_config (mkMoment (nanos 5 - 1) [] 8 (Some 4%nat)) (mkTask [retry] None true [] []) in
  active st = None ∧ next_publish_wake (mkMoment (nanos 5) [] 8 None) st = Some (deadline retry).
Proof. vm_compute. split; reflexivity. Qed.

(** After a rejected request the next one, though due, waits for another
    event or its deadline. *)
Example rejected_request_stalls_queue :
  let bad := new_request (nanos 60) (lit "x") 1 0 false 0 0 in
  let good := toy_request 1 2 0 false in
  let m := mkMoment (nanos 1) [] 8 (Some 4%nat) in
  let st := loop_top [1] toy_config m (mkTask [bad; good] None true [] []) in
  active st = None ∧ pending st = [good] ∧ next_publish_wake m st = Some (deadline good).
Proof. vm_compute. split_and!; reflexivity. Qed.

(** ** Reading a record back *)
Section reading.
Context {M K R : Type} `{Crates : IpnsCrates M K R}.

Lemma from_utf8_1 b0 l : 0 ≤ b0 < 128 → from_utf8 (b0 :: l) = cons b0 <$> from_utf8 l.
Proof. intros. cbn [from_utf8]. by rewrite (bool_decide_eq_true_2 (0 ≤ b0 < 128)). Qed.

Lemma from_utf8_2 b0 b1 l : 194 ≤ b0 < 224 → 128 ≤ b1 < 192 → from_utf8 (b0 :: b1 :: l) = cons ((b0 - 192) * 64 + (b1 - 128)) <$> from_utf8 l.
Proof.
  intros. cbn [from_utf8]. unfold continuation. rewrite (bool_decide_eq_false_2 (0 ≤ b0 < 128)) by lia.
  rewrite (bool_decide_eq_true_2 (128 ≤ b1 < 192)) by done. cbn [negb]. by rewrite (bool_decide_eq_true_2 (194 ≤ b0 < 224)).
Qed.

Lemma from_utf8_3 b0 b1 b2 l : let c := (b0 - 224) * 4096 + (b1 - 128) * 64 + (b2 - 128) in
  224 ≤ b0 < 240 → 128 ≤ b1 < 192 → 128 ≤ b2 < 192 → 2048 ≤ c → is_char c = true → from_utf8 (b0 :: b1 :: b2 :: l) = cons c <$> from_utf8 l.
Proof.
  cbn zeta. intros H0 H1 H2 H3 H4. cbn [from_utf8]. unfold continuation. rewrite (bool_decide_eq_false_2 (0 ≤ b0 < 128)) by lia.
  rewrite (bool_decide_eq_true_2 (128 ≤ b1 < 192)), (bool_decide_eq_false_2 (194 ≤ b0 < 224)), (bool_decide_eq_true_2 (128 ≤ b2 < 192)) by lia.
  cbn [negb]. rewrite (bool_decide_eq_true_2 (224 ≤ b0 < 240)), H4 by lia. by rewrite (bool_decide_eq_true_2 (2048 ≤ _)).
Qed.

Lemma from_utf8_4 b0 b1 b2 b3 l : let c := (b0 - 240) * 262144 + (b1 - 128) * 4096 + (b2 - 128) * 64 + (b3 - 128) in
  240 ≤ b0 < 245 → 128 ≤ b1 < 192 → 128 ≤ b2 < 192 → 128 ≤ b3 < 192 → 65536 ≤ c → is_char c = true →
  from_utf8 (b0 :: b1 :: b2 :: b3 :: l) = cons c <$> from_utf8 l.
Proof.
  cbn zeta. intros H0 H1 H2 H3 H4 H5. cbn [from_utf8]. unfold continuation. rewrite (bool_decide_eq_false_2 (0 ≤ b0 < 128)) by lia.
  rewrite (bool_decide_eq_true_2 (128 ≤ b1 < 192)), (bool_decide_eq_false_2 (194 ≤ b0 < 224)), (bool_decide_eq_true_2 (128 ≤ b2 < 192)) by lia.
  cbn [negb]. rewrite (bool_decide_eq_false_2 (224 ≤ b0 < 240)) by lia. cbn [andb].
  rewrite (bool_decide_eq_true_2 (128 ≤ b3 < 192)), (bool_decide_eq_true_2 (240 ≤ b0 < 245)), H5 by lia. by rewrite (bool_decide_eq_true_2 (65536 ≤ _)).
Qed.

Lemma utf8_char_decodes c l s : is_char c = true → from_utf8 l = Some s → from_utf8 (utf8_char c ++ l) = Some (c :: s).
Proof.
  intros Hchar Hl. assert (0 ≤ c < 1114112) as Hc by (unfold is_char in Hchar; apply bool_decide_eq_true in Hchar; lia).
  assert (c = c / 64 * 64 + c mod 64 ∧ 0 ≤ c mod 64 < 64) as [E1 B1] by (split; [rewrite Z.mul_comm; apply Z.div_mod|apply Z.mod_pos_bound]; lia).
  assert (c / 64 = c / 4096 * 64 + c / 64 mod 64 ∧ 0 ≤ c / 64 mod 64 < 64) as [E2 B2].
  { change 4096 with (64 * 64). rewrite <- Z.div_div by lia. split; [rewrite Z.mul_comm; apply Z.div_mod|apply Z.mod_pos_bound]; lia. }
  assert (c / 4096 = c / 262144 * 64 + c / 4096 mod 64 ∧ 0 ≤ c / 4096 mod 64 < 64) as [E3 B3].
  { change 262144 with (4096 * 64). rewrite <- Z.div_div by lia. split; [rewrite Z.mul_comm; apply Z.div_mod|apply Z.mod_pos_bound]; lia. }
  assert (0 ≤ c / 64 ∧ 0 ≤ c / 4096 ∧ 0 ≤ c / 262144) as (P1 & P2 & P3) by (split_and!; apply Z.div_pos; lia).
  revert E1 E2 E3 B1 B2 B3 P1 P2 P3. unfold utf8_char.
  generalize (c mod 64), (c / 64 mod 64), (c / 4096 mod 64). intros x0 x1 x2. generalize (c / 64), (c / 4096), (c / 262144). intros q1 q2 q3 E1 E2 E3 B1 B2 B3 P1 P2 P3.
  repeat case_decide; cbn [app].
  - rewrite from_utf8_1 by lia. by rewrite Hl.
  - rewrite from_utf8_2 by lia. rewrite Hl. cbn. do 2 f_equal. lia.
  - assert ((224 + q2 - 224) * 4096 + (128 + x1 - 128) * 64 + (128 + x0 - 128) = c) as E by lia.
    rewrite from_utf8_3; rewrite ?E; [by rewrite Hl|lia|lia|lia|lia|done].
  - assert ((240 + q3 - 240) * 262144 + (128 + x2 - 128) * 4096 + (128 + x1 - 128) * 64 + (128 + x0 - 128) = c) as E by lia.
    rewrite from_utf8_4; rewrite ?E; [by rewrite Hl|lia|lia|lia|lia|lia|done].
Qed.

Lemma utf8_roundtrip s : Forall (λ c, is_char c = true) s → from_utf8 (as_bytes s) = Some s.
Proof. induction 1; [done|]. by apply utf8_char_decodes. Qed.

Lemma strip_prefix_app p s : strip_prefix p (p ++ s) = Some s.
Proof. induction p; [done|]. cbn. by rewrite bool_decide_eq_true_2. Qed.
Lemma strip_prefix_suffix p s s' : strip_prefix p s = Some s' → s = p ++ s'.
Proof.
  revert s. induction p as [|a p IH]; intros s; cbn; [by intros [= ->]|]. destruct s as [|b s]; [done|].
  case_bool_decide; [|done]. intros ->%IH. by subst.
Qed.

Lemma trim_subseteq s : trim s ⊆ s.
Proof.
  assert (∀ t, trim_start t ⊆ t) as H.
  { intros t. destruct (trim_start_suffix t) as (ws & _ & E). rewrite E at 2. set_solver. }
  unfold trim, trim_end. intros c Hc. by apply elem_of_reverse, H, elem_of_reverse, H in Hc.
Qed.

(** [rust_ipns]: an encoded record decodes to itself and has its value. *)
Class IpnsRecordLaws : Prop := {
  record_decode_encode t k v l s ttl record bytes :
    record_new t k v l s ttl = Some record → record_encode record = Some bytes → record_decode bytes = Some record;
  record_value_new t k v l s ttl record : record_new t k v l s ttl = Some record → record_value record = Some v }.

(** The events before the answer of a query: foreign events and records under
    other keys. *)
Definition not_yet (key : octets) (event : GetRecordEvent) : Prop :=
  match event with OtherResolverEvent => True | FoundRecord k _ => k ≠ key | _ => False end.

(** A record the publisher makes for a manifest resolves, at the publisher's
    name, to the CID of that manifest. *)
Theorem ipns_record_roundtrip `{!IpnsRecordLaws} t keypair resolver (config : IpnsPublisherConfig M) manifest sequence signed events :
  Forall (λ c, is_char c = true) manifest →
  build_signed_record t keypair manifest (record_lifetime config) (record_ttl config) sequence = Ok signed →
  build_swarm resolver config = Ok tt → Forall (not_yet (sr_record_key signed)) events →
  ∃ cid, cid_parses cid = true ∧ sr_value signed = IPFS_PATH_PREFIX ++ cid ∧ manifest_ipfs_path manifest = Ok (IPFS_PATH_PREFIX ++ cid) ∧
    resolve_manifest_cid resolver (sr_peer_id signed) config (events ++ [FoundRecord (sr_record_key signed) (sr_bytes signed)]) = Ok cid.
Proof.
  intros Hchars Hb Hswarm Hevents. unfold build_signed_record in Hb. res_inv. cbn [sr_value sr_peer_id sr_record_key sr_bytes] in *.
  unfold manifest_ipfs_path in *. set (cid := default (trim manifest) (strip_prefix IPFS_PATH_PREFIX (trim manifest))) in *.
  destruct (cid_parses cid) eqn:Ecid; [|discriminate]. res_inv. exists cid. split_and!; [done..|].
  assert (Forall (λ c, is_char c = true) (IPFS_PATH_PREFIX ++ cid)) as Hall.
  { apply Forall_app. split; [repeat constructor|]. apply Forall_forall. intros c Hc. eapply Forall_forall in Hchars; [exact Hchars|].
    apply trim_subseteq. unfold cid in Hc. destruct (strip_prefix _ _) as [s|] eqn:E; [|exact Hc]. apply strip_prefix_suffix in E. rewrite E. set_solver. }
  unfold resolve_manifest_cid, resolve_record. rewrite Hswarm.
  assert (snd (dial_bootstrap_peers (bootstrap_peers config)) = Ok tt) as ->.
  { unfold build_swarm, add_bootstrap_addresses in Hswarm. res_inv. clear -Hswarm. revert Hswarm. induction (bootstrap_peers config) as [|addr peers IH]; [done|].
    cbn. destruct (peer_id_from_addr addr); [|done]. cbn. intros H%IH. by destruct (dial_bootstrap_peers peers). }
  match goal with H : record_encode _ = Some ?b |- _ => assert (decode_manifest_cid b (keypair_peer_id keypair) = Ok cid) as Hdec end.
  { unfold decode_manifest_cid. erewrite record_decode_encode by eassumption. cbn. case_match; [|discriminate]. cbn.
    erewrite record_value_new by eassumption. cbn [ok_or mbind result_bind]. change (from_utf8 _) with (from_utf8 (as_bytes (IPFS_PATH_PREFIX ++ cid))). rewrite utf8_roundtrip by exact Hall. 
    change (Ok (default (IPFS_PATH_PREFIX ++ cid) (strip_prefix IPFS_PATH_PREFIX (IPFS_PATH_PREFIX ++ cid))) = (Ok cid : iresult text)). by rewrite strip_prefix_app. }
  clear -Hevents Hdec. induction Hevents as [|event events He _ IH]; cbn.
  - by rewrite bool_decide_eq_true_2.
  - destruct event; cbn in He; try done. by rewrite bool_decide_eq_false_2.
Qed.
End reading.
End IpnsRun.
